(* ===== verification/_CoqProject ===== *)
-Q . S2P
Prelude.v
MirCore.v
MirGraph.v
Dominators.v
DomFacts.v
DomFrontier.v
TypeFacts.v
MirVerify.v
MirVerifyFacts.v
MirOpt.v
Float64.v
Cvm.v
CvmFacts.v
CvmMemory.v
CvmSafe.v
MirOptFacts.v
MirUnreachable.v
MirDce.v
Sorting.v
RegAlloc.v
SupportArena.v
SupportArenaFacts.v
RingBuf.v
WsFrame.v
DataLayout.v
CString.v
NuwanMap.v
NuwanMapFacts.v
NuwanSwiss.v
SwissTable.v
NuwanSwissFacts.v
CArray.v
NuwanList.v
NuwanListFacts.v
NuwanQueue.v
NuwanHeap.v
Deque.v
DequeFacts.v
Arc.v
ArcFacts.v
Mpsc.v
Channel.v
ChannelFacts.v
MirRegex.v
RegexNfa.v
RegexSets.v
RegexParse.v
RegexFacts.v
MirBuilder.v
MirBuilderFacts.v
Worklist.v
MirBorrow.v
BorrowFacts.v
BorrowSound.v
Mem2Reg.v
SlotForm.v
PhiInsert.v
Renaming.v
Promotion.v
SlotExec.v
SlotSim.v
Mem2RegSim.v
SlotCheck.v
RegexEmit.v
RegexCode.v
RegexVm.v
RegexTyped.v
Semver.v
Packages.v
ConstEval.v
ConstEvalFacts.v
ConstEvalVm.v
Lexer.v
LexerFacts.v
LexerPrint.v
SymTable.v
SymTableFacts.v
DropPlanner.v
MirInline.v
MirInlineFacts.v
