(* ===== verification/Prelude.v ===== *)
(** * Casprix: a verification library for the compiler and its runtime

    Casprix (CPX) is an object-oriented language with an ahead-of-time
    compiler written in C, a virtual machine, a runtime and a package manager.
    This library models the parts that carry the program's own algorithms and
    proves what makes them correct.  Every file opens with the C file it
    follows; a definition has the name of the C function, type or field it
    translates.

    ** How the parts interact

    The front end scans a source into tokens, declares its names and classes in
    a symbol table and lowers the program to MIR ([src/src/compiler/ir/mir.h]),
    an SSA-like intermediate representation built through the builder
    ([mir_builder.c]; the regular expression compiler uses it as well).  MIR is
    verified, checked for double consumption and for borrow conflicts, its
    stack slots are promoted to values along the dominator tree, small functions
    are inlined, it is optimised and then compiled by a backend, interpreted by the CVM
    ([src/runtime/vm/cvm_engine.c]) or evaluated at compile time
    ([mir_consteval.c]).  The backend allocates registers by linear scan and
    reorders struct fields.  The runtime counts references, keeps its data in
    lists, queues, heaps and hash maps, passes messages over channels and work
    over deques, and serves network connections from arenas, ring buffers and
    WebSocket frames; the package manager resolves semantic versions.

    The files meet where the code does: the optimiser, the promotion, the
    borrow checker, the verifier and the builder share the data model of
    [MirCore]; that the two program transformations preserve behaviour is
    stated with the interpreter of [Cvm]; the constant evaluator is compared
    with it, and so is the matcher that the regular expression compiler emits;
    what the verifier accepts is what the interpreter relies on ([CvmSafe]),
    and what the builder makes is what the verifier asks for.

    ** Conventions of the model

    - A C integer of [w] bits is a [Z]; each store into a narrower object is
      written out with [u8] ... [s64].  [Z.quot] and [Z.rem] are C's [/], [%].
    - A fallible operation returns an [outcome]: [Ok x], [Undef] (C undefined
      behaviour: signed overflow, a null or out-of-range access, a null
      callee) or [OutOfFuel] (the model's fuel ended).  Properties say which.
    - A pointer into an array or pool is an index; [blockptr] is an optional
      index; a byte is a [Z]; a C string is a list of characters without NUL.
    - Code outside the repository is a parameter: [calloc] and the addresses
      of string literals (with the documented behaviour as hypotheses, and
      witnesses that instantiate them), [qsort] (the class [Qsort]); the answer
      of [malloc] or of an arena to one request is an argument.
    - Code that threads run at the same time is a list of programs of atomic
      steps over a shared state; the properties hold of every state that some
      interleaving reaches.

    ** The intermediate representation

    - [Prelude]: machine integers, [outcome], list lemmas, tactics, hints.
    - [MirCore] (mir.h, mir.c): the IR's data, the arena allocator, interning
      of types, sizes, alignments and layout of structures, the editing of
      functions, blocks and phis.  [TypeFacts]: the regions of an arena are
      aligned and disjoint, interning is canonical, layout is sound.
    - [MirGraph], [MirVerify], [MirVerifyFacts] (mir.c): the verifier's
      breadth-first search, its checks and the ownership check; both decide
      their declarative specifications.
    - [MirBuilder], [MirBuilderFacts] (mir_builder.c): what can be built is
      well formed, typed and in SSA form.
    - [MirOpt] (mir_opt.c): the passes and their pipeline.  [MirOptFacts]:
      exactness of constant folding, strength reduction, replacement of uses,
      edge removal and ARC elision, and two miscompilations.
      [MirUnreachable]: removal of unreachable blocks.  [MirDce]: dead code
      elimination refines the interpreter's semantics.
    - [Dominators], [DomFacts], [DomFrontier] (mir_mem2reg.c):
      reverse post-order, immediate dominators, dominance frontiers.
    - [Mem2Reg] (mir_mem2reg.c): the promotion of slots.  [SlotForm] is the
      form of functions that lowering makes, and the reaching values that
      specify the renaming; [PhiInsert], [Renaming] and [Promotion] follow
      the pass; [SlotExec], [SlotSim] and [Mem2RegSim] show that it preserves
      the runs of the interpreter; [SlotCheck] decides slot form, runs examples
      and shows that swapped variables need phis the interpreter, which
      evaluates them in sequence, gets wrong.  So the theorem asks for
      functions in slot form with at most 4096 values, phis that do not read
      each other, a [calloc] that returns fresh non-null 64-bit addresses,
      64-bit addresses of strings, and a run that ends without a trap.
    - [Worklist], [MirBorrow], [BorrowFacts], [BorrowSound] (mir_borrow.c): the
      data-flow analyses are exact along paths, and the checker is silent if
      and only if no path moves, uses or borrows wrongly.
    - [MirInline], [MirInlineFacts] (mir_inline.c): an inlined call is the
      callee copied under a renaming, with the edges of the copy entered.  The
      theorem asks for a callee whose operands are defined earlier (no loop
      phis), without switches, vectors and suspensions; two examples outside
      that class are miscompiled.
    - [MirRegex], [RegexSets], [RegexNfa], [RegexParse], [RegexFacts]
      (mir_regex.c): pattern, automata and reference
      matcher accept the language of the pattern.  [RegexEmit], [RegexCode],
      [RegexVm], [RegexTyped]: the emitted function computes the same on the
      interpreter, and passes the verifier.

    ** Front end, interpreter, back end

    - [Lexer], [LexerFacts], [LexerPrint] (lexer.c): the scanner meets the
      token grammar; printed tokens scan back.
    - [SymTable], [SymTableFacts] (symtable.c): the table is a stack of maps;
      field layouts extend those of the ancestors, overrides share a slot.
    - [DropPlanner] (drop_planner.c): what the end of a scope drops.
    - [Float64], [Cvm] (cvm_engine.h, cvm_engine.c): the interpreter.
      [CvmFacts]: determinism, frame balance, guarded division.  [CvmMemory]:
      loads, stores and the lifetime of [alloca].  [CvmSafe]: verified code
      stays in its register file.
    - [ConstEval], [ConstEvalFacts], [ConstEvalVm] (mir_consteval.c): the
      compile-time evaluator, its termination, and its agreement with the CVM.
    - [Sorting], [RegAlloc] (regalloc.c): linear scan register allocation.
    - [DataLayout] (data_layout.c): reordering of struct fields.
    - [SupportArena], [SupportArenaFacts] (arena.c): the compiler's block
      arena hands out disjoint memory.

    ** Runtime and packages

    - [Arc], [ArcFacts] (arc.c): atomic strong and weak counts are exact under
      every interleaving; finalised once, freed once.
    - [Deque], [DequeFacts] (lockfree_deque.c): no item is lost or taken twice.
    - [Mpsc] (mpsc_queue.c): every value is delivered once, in order.
    - [Channel], [ChannelFacts] (channel.c): delivery in order, no lost wake-up.
    - [NuwanMap], [NuwanMapFacts] (Robin Hood map), [NuwanSwiss],
      [SwissTable], [NuwanSwissFacts] (Swiss table), [CArray], [NuwanList],
      [NuwanListFacts], [NuwanQueue], [NuwanHeap] (collections.c): each
      container refines its mathematical counterpart.
    - [RingBuf] (cx_arena.c, ringbuf.c): Module [CxArena], the lock-free arena
      as a step relation over threads; Module [Ring], the ring buffer as a
      bounded queue.  [WsFrame] (websocket_framing.c): encoder and decoder.
    - [CString], [Semver], [Packages] (semver.c, registry.c, resolver.c):
      versions, constraints, dependency resolution.

    ** Fuel

    The interpreter and the evaluator take fuel because programs loop; their
    results do not depend on it ([cvm_run_deterministic]), dead code
    elimination needs no more of it, and a module whose blocks all count a step
    needs at most 100034 units to evaluate ([consteval_terminates]).  An
    emitted matcher needs 11 units per input byte and 9.  The other fuels are
    proved sufficient where they are used: the searches over blocks take one
    unit per block and one, the renaming walk more than the number of blocks,
    the borrow analyses [n + n * v * n + 1] for [n] blocks and [v] values,
    linear scan's expiry one per active interval, resolution the depth limit
    and two, the hash maps the capacity, the heap its size and one, the regular
    expression parser the length of the pattern and one, the subset
    construction 2 to the number of states, the lexer the length of the source
    and one, a walk up a class hierarchy the number of classes, [log2_int] 64,
    decimal printing ten digits.

    ** Not modelled, and why

    The parser, the semantic analysis, the lowering to MIR and the rewriting of
    the syntax tree work on a tree of some sixty node types through mutable
    global state; a model of a part of them would say little.  The backends,
    printers and drivers write text or talk to the system; the JIT emits
    machine code; the GUI, graphics, numeric, file, socket and platform
    runtimes are bindings, kernels or I/O; [third_party], [examples], [tools]
    and [archive] are not part of the compiler.  The garbage and cycle
    collectors call back into scanners that generated code supplies; futures,
    coroutines and the scheduler switch contexts in assembly.  Within the
    modelled files: allocation failure where the code does not test for it,
    the text of diagnostics, statistics, freeing, JIT promotion, file formats.

    ** Plan

    Next, in order: the state split of async functions (mir_async.c), futures
    and the thread pool, the cycle collector on a heap of counted objects.
*)
From Stdlib Require Export ZArith Lia.
From stdpp Require Export base list gmap strings numbers.

#[global] Open Scope Z_scope.

(** ** Machine integers

    A C integer of [w] bits is a [Z]; what the code stores back into an object
    of that width goes through [u32], [u64], [s32] or [s64].  Signed
    arithmetic whose overflow is undefined behaviour in C11 (the build passes
    no [-fwrapv]) returns an [option]: [None] is the undefined case. *)

Definition INT64_MIN : Z := - 2 ^ 63.
Definition INT64_MAX : Z := 2 ^ 63 - 1.
Definition INT32_MIN : Z := - 2 ^ 31.
Definition INT32_MAX : Z := 2 ^ 31 - 1.

Definition u8 (z : Z) : Z := z mod 2 ^ 8.
Definition u16 (z : Z) : Z := z mod 2 ^ 16.
Definition u32 (z : Z) : Z := z mod 2 ^ 32.
Definition u64 (z : Z) : Z := z mod 2 ^ 64.
Definition s32 (z : Z) : Z := if u32 z <? 2 ^ 31 then u32 z else u32 z - 2 ^ 32.
Definition s64 (z : Z) : Z := if u64 z <? 2 ^ 63 then u64 z else u64 z - 2 ^ 64.

Definition in_s64 (z : Z) : bool := (INT64_MIN <=? z) && (z <=? INT64_MAX).
Definition in_s32 (z : Z) : bool := (INT32_MIN <=? z) && (z <=? INT32_MAX).
Definition in_u64 (z : Z) : bool := (0 <=? z) && (z <? 2 ^ 64).

(** The value of a signed C expression: undefined when it does not fit. *)
Definition sint64 (z : Z) : option Z := if in_s64 z then Some z else None.
Definition sint32 (z : Z) : option Z := if in_s32 z then Some z else None.

(** C's [/] and [%] on [int64_t] truncate toward zero; a zero divisor and
    [INT64_MIN / -1] are undefined. *)
Definition sdiv64 (a b : Z) : option Z :=
  if b =? 0 then None else sint64 (Z.quot a b).
Definition srem64 (a b : Z) : option Z :=
  if b =? 0 then None
  else if (a =? INT64_MIN) && (b =? -1) then None
  else Some (Z.rem a b).

Lemma pow2_64 : 2 ^ 64 = 18446744073709551616. Proof. reflexivity. Qed.
Lemma pow2_63 : 2 ^ 63 = 9223372036854775808. Proof. reflexivity. Qed.
Lemma pow2_32 : 2 ^ 32 = 4294967296. Proof. reflexivity. Qed.
Lemma pow2_31 : 2 ^ 31 = 2147483648. Proof. reflexivity. Qed.

(** [word_lia] is [lia] after the word constants have been made explicit. *)
Ltac word_unfold :=
  unfold in_s64, in_s32, in_u64, INT64_MIN, INT64_MAX, INT32_MIN, INT32_MAX in *;
  rewrite ?pow2_64, ?pow2_63, ?pow2_32, ?pow2_31 in *.
Ltac word_lia := word_unfold; lia.

Lemma u64_range z : 0 <= u64 z < 2 ^ 64.
Proof. apply Z.mod_pos_bound. reflexivity. Qed.

Lemma u64_small z : 0 <= z < 2 ^ 64 -> u64 z = z.
Proof. apply Z.mod_small. Qed.

Lemma u64_idem z : u64 (u64 z) = u64 z.
Proof. apply u64_small, u64_range. Qed.

Lemma s32_small z : 0 <= z < 2 ^ 31 -> s32 z = z.
Proof.
  intros H. unfold s32, u32. rewrite Z.mod_small by word_lia.
  destruct (Z.ltb_spec z (2 ^ 31)); lia.
Qed.

Lemma s64_range z : INT64_MIN <= s64 z <= INT64_MAX.
Proof.
  unfold s64. pose proof (u64_range z). destruct (Z.ltb_spec (u64 z) (2 ^ 63)); word_lia.
Qed.

Lemma s64_of_u64 z : s64 (u64 z) = s64 z.
Proof. unfold s64. by rewrite u64_idem. Qed.

Lemma u64_of_s64 z : u64 (s64 z) = u64 z.
Proof.
  unfold s64. destruct (Z.ltb_spec (u64 z) (2 ^ 63)) as [_|_].
  - apply u64_idem.
  - unfold u64 at 1. replace (u64 z - 2 ^ 64) with (u64 z + (-1) * 2 ^ 64) by lia.
    rewrite Z_mod_plus_full. apply u64_idem.
Qed.

Lemma s64_small z : INT64_MIN <= z <= INT64_MAX -> s64 z = z.
Proof.
  intros H. unfold s64, u64. destruct (Z_lt_le_dec z 0).
  - replace z with ((z + 2 ^ 64) + (-1) * 2 ^ 64) by lia.
    rewrite Z_mod_plus_full, Z.mod_small by word_lia.
    destruct (Z.ltb_spec (z + 2 ^ 64) (2 ^ 63)); word_lia.
  - rewrite Z.mod_small by word_lia. destruct (Z.ltb_spec z (2 ^ 63)); word_lia.
Qed.

Lemma u64_eq_mod a b : u64 a = u64 b <-> s64 a = s64 b.
Proof.
  split; intros H.
  - unfold s64. by rewrite H.
  - by rewrite <- (u64_of_s64 a), <- (u64_of_s64 b), H.
Qed.

Lemma sint64_Some z r : sint64 z = Some r <-> r = z /\ INT64_MIN <= z <= INT64_MAX.
Proof.
  unfold sint64, in_s64. destruct (Z.leb_spec INT64_MIN z), (Z.leb_spec z INT64_MAX); simpl;
    split; try (intros [= <-]; lia); try (intros [-> ?]; try reflexivity; lia); try discriminate;
    intros; lia.
Qed.

(** ** Alignment

    [(v + a - 1) & ~(a - 1)], the rounding idiom of the allocators and of the
    layout code, on 64-bit words. *)

Definition round_up (v a : Z) : Z := (v + a - 1) / a * a.

Lemma round_up_spec v a : 0 < a -> v <= round_up v a < v + a /\ round_up v a mod a = 0.
Proof.
  intros Ha. unfold round_up. pose proof (Z_div_mod_eq_full (v + a - 1) a).
  pose proof (Z.mod_pos_bound (v + a - 1) a Ha). split; [lia|]. by apply Z.mod_mul; lia.
Qed.

Lemma round_up_mono v w a : 0 < a -> v <= w -> round_up v a <= round_up w a.
Proof.
  intros Ha Hvw. unfold round_up. apply Z.mul_le_mono_nonneg_r; [lia|]. apply Z.div_le_mono; lia.
Qed.

Lemma round_up_aligned v a : 0 < a -> v mod a = 0 -> round_up v a = v.
Proof.
  intros Ha Hv. apply Z.mod_divide in Hv as [q ->]; [|lia]. unfold round_up.
  replace (q * a + a - 1) with (a - 1 + q * a) by lia. rewrite Z_div_plus_full by lia.
  rewrite Z.div_small by lia. lia.
Qed.

(** Clearing the low [k] bits. *)
Lemma ldiff_ones x k : 0 <= k -> Z.land x (Z.lnot (Z.ones k)) = x / 2 ^ k * 2 ^ k.
Proof.
  intros Hk. rewrite <- Z.ldiff_land, Z.ldiff_ones_r by done.
  by rewrite Z.shiftl_mul_pow2, Z.shiftr_div_pow2 by done.
Qed.

Lemma land_u64 x y : 0 <= x < 2 ^ 64 -> Z.land x (u64 y) = Z.land x y.
Proof.
  intros Hx. assert (Hu : u64 y = Z.land y (Z.ones 64)) by (rewrite Z.land_ones; done).
  rewrite Hu, (Z.land_comm y), Z.land_assoc, Z.land_ones by lia. by rewrite Z.mod_small.
Qed.

Lemma align_word v a k :
  a = 2 ^ k -> 0 <= k -> 0 <= v -> v + a - 1 < 2 ^ 64 ->
  Z.land (u64 (v + a - 1)) (u64 (Z.lnot (a - 1))) = round_up v a.
Proof.
  intros -> Hk Hv Hlt. pose proof (Z.pow_pos_nonneg 2 k).
  rewrite (u64_small (v + 2 ^ k - 1)), land_u64 by lia.
  replace (2 ^ k - 1) with (Z.ones k) by (rewrite Z.ones_equiv; lia). by apply ldiff_ones.
Qed.

(** A number without a bit in common with its predecessor is a power of two. *)
Lemma land_pred_pow2 n : 0 < n < 2 ^ 64 -> Z.land n (u64 (n - 1)) = 0 -> n = 2 ^ Z.log2 n.
Proof.
  intros Hn. rewrite u64_small by lia. intros Hl. pose proof (Z.log2_spec n ltac:(lia)) as Hlog.
  destruct (Z.eq_dec n (2 ^ Z.log2 n)) as [|Hne]; [done|]. exfalso.
  assert (Z.testbit (Z.land n (n - 1)) (Z.log2 n) = true) as Hb; [|by rewrite Hl, Z.bits_0 in Hb].
  rewrite Z.land_spec, Z.bit_log2 by lia. cbn.
  assert (Z.log2 (n - 1) = Z.log2 n) as <-; [|apply Z.bit_log2; pose proof (Z.log2_nonneg n); nia].
  apply Z.log2_unique; [apply Z.log2_nonneg|]. lia.
Qed.

(** ** Lists used as C arrays *)

(** Linear search: the index of the first element that satisfies [p]. *)
Fixpoint find_idx {A} (p : A -> bool) (l : list A) : option nat :=
  match l with
  | [] => None
  | x :: l => if p x then Some 0%nat else S <$> find_idx p l
  end.

Section find_idx.
Context {A : Type} (p : A -> bool).
Implicit Types l k : list A.

Lemma find_idx_Some l i :
  find_idx p l = Some i ->
  exists x, l !! i = Some x /\ p x = true /\
            forall j y, (j < i)%nat -> l !! j = Some y -> p y = false.
Proof.
  revert i. induction l as [|x l IH]; intros i; simpl; [done|].
  destruct (p x) eqn:Hp.
  - intros [= <-]. exists x. split_and!; auto. intros; lia.
  - destruct (find_idx p l) as [k|] eqn:Hk; simpl; intros [= <-].
    destruct (IH k eq_refl) as (y & Hy & Hpy & Hmin).
    exists y. split_and!; auto.
    intros [|j] z Hj Hz; simpl in Hz; [by simplify_eq|]. apply (Hmin j z); [lia|done].
Qed.

Lemma find_idx_None l : find_idx p l = None <-> forall x, x ∈ l -> p x = false.
Proof.
  induction l as [|x l IH]; simpl.
  - split; [intros _ x Hx; by apply not_elem_of_nil in Hx | done].
  - destruct (p x) eqn:Hp.
    + split; [done|]. intros H. specialize (H x). rewrite H in Hp; [done|left].
    + destruct (find_idx p l); simpl.
      * split; [done|]. intros H. assert (Some n = None) as H0; [|done].
        apply IH. intros y Hy. apply H. by right.
      * split; [|done]. intros _ y [->|Hy]%elem_of_cons; [done|]. by apply IH.
Qed.

Lemma find_idx_app_Some l k i : find_idx p l = Some i -> find_idx p (l ++ k) = Some i.
Proof.
  revert i. induction l as [|x l IH]; intros i; simpl; [done|].
  destruct (p x); [done|]. destruct (find_idx p l); simpl; [|done].
  intros [= <-]. by rewrite (IH n eq_refl).
Qed.

Lemma find_idx_app_None l k :
  find_idx p l = None -> find_idx p (l ++ k) = (fun i => (length l + i)%nat) <$> find_idx p k.
Proof.
  induction l as [|x l IH]; simpl; [by destruct (find_idx p k)|].
  destruct (p x); [done|]. destruct (find_idx p l) eqn:E; simpl; [done|].
  intros _. rewrite IH by done. by destruct (find_idx p k).
Qed.
End find_idx.

(** Removal of element [i] by overwriting it with the last one, the idiom
    [a[i] = a[n-1]; n--] of the C code. *)
Definition swap_remove {A} (i : nat) (l : list A) : list A :=
  match list.last l with
  | Some z => take (length l - 1) (<[i := z]> l)
  | None => l
  end.

Lemma swap_remove_perm {A} (l : list A) i x :
  l !! i = Some x -> x :: swap_remove i l ≡ₚ l.
Proof.
  intros Hi. unfold swap_remove. destruct (list.last l) as [z|] eqn:Hz.
  2: { apply last_None in Hz as ->. done. }
  apply last_Some in Hz as [k ->]. rewrite length_app. simpl.
  replace (length k + 1 - 1)%nat with (length k) by lia.
  pose proof (lookup_lt_Some _ _ _ Hi) as Hlt. rewrite length_app in Hlt. simpl in Hlt.
  destruct (decide (i = length k)) as [->|Hne].
  - rewrite list_lookup_middle in Hi by done. injection Hi as ->.
    rewrite insert_app_r_alt, Nat.sub_diag by lia. simpl.
    rewrite take_app_length. apply Permutation_cons_append.
  - rewrite lookup_app_l in Hi by lia. rewrite insert_app_l by lia.
    rewrite take_app_le, take_ge by (rewrite length_insert; lia).
    rewrite insert_take_drop by lia.
    rewrite <- Permutation_cons_append.
    rewrite <- (take_drop_middle k i x Hi) at 3. rewrite <- !Permutation_middle.
    apply perm_swap.
Qed.

Definition opt_bool {A} (o : option A) : bool :=
  match o with Some _ => true | None => false end.

(** ** Outcomes

    [Undef] is a step C leaves undefined (a null or out-of-bounds access);
    [OutOfFuel] is a loop that the given bound did not let finish. *)
Inductive outcome (A : Type) :=
| Ok (a : A)
| Undef
| OutOfFuel.
Arguments Ok {A} a.
Arguments Undef {A}.
Arguments OutOfFuel {A}.

Definition obind {A B} (m : outcome A) (k : A -> outcome B) : outcome B :=
  match m with
  | Ok a => k a
  | Undef => Undef
  | OutOfFuel => OutOfFuel
  end.

Definition of_option {A} (o : option A) : outcome A :=
  match o with Some a => Ok a | None => Undef end.

Declare Scope casprix_scope.
Delimit Scope casprix_scope with cx.
Notation "'let!' x := m 'in' k" := (obind m (fun x => k))
  (at level 10, x pattern, m at level 100, k at level 200) : casprix_scope.
#[global] Open Scope casprix_scope.

Lemma obind_Ok {A B} (m : outcome A) (k : A -> outcome B) b :
  obind m k = Ok b <-> exists a, m = Ok a /\ k a = Ok b.
Proof.
  destruct m; simpl; split; try done; eauto; try (by intros (? & ? & ?)).
  by intros (? & [= ->] & ?).
Qed.

Lemma obind_no_fuel {A B} (m : outcome A) (k : A -> outcome B) :
  m <> OutOfFuel -> (forall a, k a <> OutOfFuel) -> obind m k <> OutOfFuel.
Proof. destruct m; simpl; auto. Qed.

(** A [for] loop over an array that updates a state. *)
Fixpoint ofold {A B} (step : A -> B -> outcome B) (l : list A) (r : B) : outcome B :=
  match l with
  | [] => Ok r
  | x :: l => let! r := step x r in ofold step l r
  end.

Lemma ofold_app {A B} (step : A -> B -> outcome B) l k r :
  ofold step (l ++ k) r = (let! r := ofold step l r in ofold step k r).
Proof.
  revert r. induction l as [|x l IH]; intros r; simpl; [done|]. by destruct (step x r); simpl.
Qed.

(** Decomposes a computation known to have returned. *)
Ltac inv_ok_step :=
  match goal with
  | H : obind _ _ = Ok _ |- _ => apply obind_Ok in H as (? & ? & H)
  | H : of_option ?o = Ok _ |- _ =>
      let E := fresh "E" in destruct o eqn:E; cbn [of_option] in H; [|discriminate H]
  | H : Ok _ = Ok _ |- _ => injection H as H; try subst
  | H : Undef = Ok _ |- _ => discriminate H
  | H : OutOfFuel = Ok _ |- _ => discriminate H
  | H : (if ?b then _ else _) = Ok _ |- _ =>
      let E := fresh "E" in destruct b eqn:E
  | H : match ?x with _ => _ end = Ok _ |- _ =>
      let E := fresh "E" in destruct x eqn:E
  end.
Ltac inv_ok := repeat (inv_ok_step; simplify_eq/=).

(** Sums that bound a loop. *)
Lemma sum_list_with_le {A} (g h : A -> nat) l :
  (forall y, y ∈ l -> (g y <= h y)%nat) -> (sum_list_with g l <= sum_list_with h l)%nat.
Proof.
  induction l as [|x l IH]; intros H; simpl; [done|].
  pose proof (H x ltac:(left)). specialize (IH (fun y Hy => H y ltac:(by right))). lia.
Qed.

Lemma sum_list_with_lt {A} (g h : A -> nat) l x :
  (forall y, y ∈ l -> (g y <= h y)%nat) -> x ∈ l -> (g x < h x)%nat ->
  (sum_list_with g l < sum_list_with h l)%nat.
Proof.
  intros H [k1 [k2 ->]]%list_elem_of_split Hx. rewrite !sum_list_with_app. simpl.
  assert (sum_list_with g k1 <= sum_list_with h k1)%nat.
  { apply sum_list_with_le. intros y Hy. apply H, elem_of_app. by left. }
  assert (sum_list_with g k2 <= sum_list_with h k2)%nat.
  { apply sum_list_with_le. intros y Hy. apply H, elem_of_app. right. by right. }
  lia.
Qed.

Lemma sum_list_with_bound {A} (g : A -> nat) l n :
  (forall y, y ∈ l -> (g y <= n)%nat) -> (sum_list_with g l <= length l * n)%nat.
Proof.
  induction l as [|x l IH]; intros H; simpl; [done|].
  pose proof (H x ltac:(left)). specialize (IH (fun y Hy => H y ltac:(by right))). lia.
Qed.

(** Sums of error counts. *)
Definition zsum (l : list Z) : Z := foldr Z.add 0 l.

Lemma zsum_app l k : zsum (l ++ k) = zsum l + zsum k.
Proof. induction l as [|x l IH]; simpl; [done|]. rewrite IH. lia. Qed.

Lemma zsum_nonneg l : Forall (fun x => 0 <= x) l -> 0 <= zsum l.
Proof. induction 1; simpl; lia. Qed.

Lemma zsum_zero l :
  Forall (fun x => 0 <= x) l -> (zsum l = 0 <-> Forall (fun x => x = 0) l).
Proof.
  induction 1 as [|x l Hx Hl IH]; simpl; [split; [constructor|done]|].
  pose proof (zsum_nonneg l Hl). rewrite Forall_cons_iff, <- IH. lia.
Qed.

Definition b2z (b : bool) : Z := if b then 1 else 0.

Lemma b2z_nonneg b : 0 <= b2z b. Proof. by destruct b. Qed.
Lemma b2z_zero b : b2z b = 0 <-> b = false. Proof. by destruct b. Qed.
