(* ===== verification/MirCore.v ===== *)
(** * The MIR data model and its core operations

    Models [src/compiler/ir/mir.h] (types, instructions, blocks, functions,
    modules) and the constructors of [src/compiler/ir/mir.c].  Pointers are
    indices: a [MirType*] is a position in the module's type cache plus one
    ([0] is [NULL]); a [MirBlock*] is a position in the function's block heap
    ([None] is [NULL]), which never changes, unlike the block's [id] field; an
    instruction list is the linked list of its block.  A tagged C union is an
    inductive type whose constructors group the opcodes that share a variant. *)
From S2P Require Import Prelude.

(** ** The arena allocator *)
Module Arena.

Definition MIR_ARENA_BLOCK_SIZE : Z := 64 * 1024.

Record MirArenaBlock := mkArenaBlock { capacity : Z; used : Z }.

(** The chain [first, ..., current]; [current] is its last block. *)
Record MirArena := mkArena {
  chain : list MirArenaBlock;
  total_allocated : Z
}.

Definition mir_arena_block_create (cap : Z) : MirArenaBlock := mkArenaBlock cap 0.

Definition mir_arena_create : MirArena :=
  mkArena [mir_arena_block_create MIR_ARENA_BLOCK_SIZE] 0.

(** A pointer into the arena: block of the chain and byte offset. *)
Record ArenaPtr := mkArenaPtr { ap_block : nat; ap_off : Z }.

(** [(size + 7) & ~(size_t)7] *)
Definition align8 (size : Z) : Z := Z.land (u64 (size + 7)) (u64 (Z.lnot 7)).

Definition mir_arena_alloc (a : MirArena) (size : Z) : MirArena * option ArenaPtr :=
  let size := align8 size in
  match list.last (chain a) with
  | None => (a, None)
  | Some current =>
      let chain1 :=
        if capacity current <? u64 (used current + size) then
          let block_size :=
            if MIR_ARENA_BLOCK_SIZE <? size then u64 (size * 2) else MIR_ARENA_BLOCK_SIZE in
          chain a ++ [mir_arena_block_create block_size]
        else chain a in
      let ci := (length chain1 - 1)%nat in
      match chain1 !! ci with
      | None => (a, None)
      | Some cur =>
          (mkArena (<[ci := mkArenaBlock (capacity cur) (u64 (used cur + size))]> chain1)
                   (u64 (total_allocated a + size)),
           Some (mkArenaPtr ci (used cur)))
      end
  end.

End Arena.

(** ** Types *)

Inductive MirTypeKind :=
| MIR_TYPE_VOID | MIR_TYPE_BOOL
| MIR_TYPE_I8 | MIR_TYPE_I16 | MIR_TYPE_I32 | MIR_TYPE_I64
| MIR_TYPE_U8 | MIR_TYPE_U16 | MIR_TYPE_U32 | MIR_TYPE_U64
| MIR_TYPE_F32 | MIR_TYPE_F64
| MIR_TYPE_PTR | MIR_TYPE_REF | MIR_TYPE_MUT_REF | MIR_TYPE_FUNC
| MIR_TYPE_STRUCT | MIR_TYPE_ARRAY | MIR_TYPE_SLICE | MIR_TYPE_AGGREGATE.

#[export] Instance MirTypeKind_eq_dec : EqDecision MirTypeKind.
Proof. solve_decision. Defined.

(** [MirType*]: [0] is [NULL], [i + 1] is entry [i] of the type cache. *)
Abbreviation tyref := N (only parsing).
Abbreviation TY_NULL := 0%N (only parsing).

(** A type node; [TyPrim] is a node whose union is not used. *)
Inductive MirType :=
| TyPrim (kind : MirTypeKind)
| TyPtr (pointee : tyref)
| TyRef (pointee : tyref) (is_mut : bool)
| TyFunc (ret : tyref) (params : list tyref)
| TyStruct (name : option string) (fields : list tyref) (size align : Z)
| TyArray (elem : tyref) (count : Z)
| TySlice (elem : tyref).

Definition ty_kind (t : MirType) : MirTypeKind :=
  match t with
  | TyPrim k => k
  | TyPtr _ => MIR_TYPE_PTR
  | TyRef _ m => if m then MIR_TYPE_MUT_REF else MIR_TYPE_REF
  | TyFunc _ _ => MIR_TYPE_FUNC
  | TyStruct _ _ _ _ => MIR_TYPE_STRUCT
  | TyArray _ _ => MIR_TYPE_ARRAY
  | TySlice _ => MIR_TYPE_SLICE
  end.

Definition is_compound (k : MirTypeKind) : bool :=
  match k with
  | MIR_TYPE_PTR | MIR_TYPE_REF | MIR_TYPE_MUT_REF | MIR_TYPE_FUNC
  | MIR_TYPE_STRUCT | MIR_TYPE_ARRAY | MIR_TYPE_SLICE | MIR_TYPE_AGGREGATE => true
  | _ => false
  end.

Abbreviation TypeCache := (list MirType) (only parsing).

(** [*t], when [t] is not [NULL]. *)
Definition ty_deref (tc : TypeCache) (t : tyref) : option MirType :=
  if (t =? 0)%N then None else tc !! N.to_nat (t - 1).

Definition ptr_at (i : nat) : tyref := N.of_nat (S i).

(** The tail every type constructor ends with: append the node to the cache. *)
Definition type_cache_push (tc : TypeCache) (t : MirType) : TypeCache * tyref :=
  (tc ++ [t], ptr_at (length tc)).

Definition type_intern (tc : TypeCache) (hit : MirType -> bool) (t : MirType)
  : TypeCache * tyref :=
  match find_idx hit tc with
  | Some i => (tc, ptr_at i)
  | None => type_cache_push tc t
  end.

Definition mir_intern_primitive (tc : TypeCache) (kind : MirTypeKind) : TypeCache * tyref :=
  type_intern tc (fun t => bool_decide (ty_kind t = kind) && negb (is_compound kind))
    (TyPrim kind).

Definition mir_type_void tc := mir_intern_primitive tc MIR_TYPE_VOID.
Definition mir_type_bool tc := mir_intern_primitive tc MIR_TYPE_BOOL.
Definition mir_type_i8 tc := mir_intern_primitive tc MIR_TYPE_I8.
Definition mir_type_i16 tc := mir_intern_primitive tc MIR_TYPE_I16.
Definition mir_type_i32 tc := mir_intern_primitive tc MIR_TYPE_I32.
Definition mir_type_i64 tc := mir_intern_primitive tc MIR_TYPE_I64.
Definition mir_type_u8 tc := mir_intern_primitive tc MIR_TYPE_U8.
Definition mir_type_u16 tc := mir_intern_primitive tc MIR_TYPE_U16.
Definition mir_type_u32 tc := mir_intern_primitive tc MIR_TYPE_U32.
Definition mir_type_u64 tc := mir_intern_primitive tc MIR_TYPE_U64.
Definition mir_type_f32 tc := mir_intern_primitive tc MIR_TYPE_F32.
Definition mir_type_f64 tc := mir_intern_primitive tc MIR_TYPE_F64.

Definition mir_type_ptr (tc : TypeCache) (pointee : tyref) : TypeCache * tyref :=
  type_intern tc (fun t => match t with TyPtr p => (p =? pointee)%N | _ => false end)
    (TyPtr pointee).

Definition mir_type_ref (tc : TypeCache) (pointee : tyref) (is_mut : bool)
  : TypeCache * tyref :=
  type_intern tc
    (fun t => match t with
              | TyRef p m => eqb m is_mut && (p =? pointee)%N
              | _ => false end)
    (TyRef pointee is_mut).

Definition mir_type_array (tc : TypeCache) (elem : tyref) (count : Z) : TypeCache * tyref :=
  type_intern tc
    (fun t => match t with
              | TyArray e c => (e =? elem)%N && (c =? count)
              | _ => false end)
    (TyArray elem count).

(** Function types are not interned. *)
Definition mir_type_func (tc : TypeCache) (ret : tyref) (params : list tyref)
  : TypeCache * tyref :=
  type_cache_push tc (TyFunc ret params).

(** The recursion of [mir_type_size] and [mir_type_align] through array
    elements follows pointers into the cache; an element is created before
    its array, so the length of the cache bounds the depth. *)
Fixpoint type_size_at (fuel : nat) (tc : TypeCache) (t : tyref) : Z :=
  match fuel with
  | O => 0
  | S fuel =>
      match ty_deref tc t with
      | None => 0
      | Some ty =>
          match ty with
          | TyPrim k =>
              match k with
              | MIR_TYPE_VOID => 0
              | MIR_TYPE_BOOL | MIR_TYPE_I8 | MIR_TYPE_U8 => 1
              | MIR_TYPE_I16 | MIR_TYPE_U16 => 2
              | MIR_TYPE_I32 | MIR_TYPE_U32 | MIR_TYPE_F32 => 4
              | MIR_TYPE_I64 | MIR_TYPE_U64 | MIR_TYPE_F64 => 8
              | MIR_TYPE_PTR | MIR_TYPE_REF | MIR_TYPE_MUT_REF | MIR_TYPE_FUNC => 8
              | MIR_TYPE_SLICE => 16
              | MIR_TYPE_STRUCT | MIR_TYPE_ARRAY | MIR_TYPE_AGGREGATE => 0
              end
          | TyPtr _ | TyRef _ _ | TyFunc _ _ => 8
          | TyStruct _ _ size _ => size
          | TyArray elem count => type_size_at fuel tc elem * count
          | TySlice _ => 16
          end
      end
  end.

Fixpoint type_align_at (fuel : nat) (tc : TypeCache) (t : tyref) : Z :=
  match fuel with
  | O => 1
  | S fuel =>
      match ty_deref tc t with
      | None => 1
      | Some ty =>
          match ty with
          | TyPrim k =>
              match k with
              | MIR_TYPE_VOID | MIR_TYPE_BOOL | MIR_TYPE_I8 | MIR_TYPE_U8 => 1
              | MIR_TYPE_I16 | MIR_TYPE_U16 => 2
              | MIR_TYPE_I32 | MIR_TYPE_U32 | MIR_TYPE_F32 => 4
              | MIR_TYPE_I64 | MIR_TYPE_U64 | MIR_TYPE_F64 => 8
              | MIR_TYPE_PTR | MIR_TYPE_REF | MIR_TYPE_MUT_REF | MIR_TYPE_FUNC => 8
              | MIR_TYPE_SLICE | MIR_TYPE_AGGREGATE => 8
              | MIR_TYPE_STRUCT | MIR_TYPE_ARRAY => 0
              end
          | TyPtr _ | TyRef _ _ | TyFunc _ _ => 8
          | TyStruct _ _ _ align => align
          | TyArray elem _ => type_align_at fuel tc elem
          | TySlice _ => 8
          end
      end
  end.

Definition mir_type_size (tc : TypeCache) (t : tyref) : Z := type_size_at (S (length tc)) tc t.
Definition mir_type_align (tc : TypeCache) (t : tyref) : Z := type_align_at (S (length tc)) tc t.

(** [(off + a - 1) & ~(a - 1)] on [int] *)
Definition align_to (off a : Z) : Z := Z.land (off + a - 1) (Z.lnot (a - 1)).

(** The layout loop of [mir_type_struct]: running size and alignment. *)
Fixpoint struct_layout (tc : TypeCache) (fields : list tyref) (size align : Z) : Z * Z :=
  match fields with
  | [] => (size, align)
  | f :: fields =>
      let fa := mir_type_align tc f in
      let align := if align <? fa then fa else align in
      let size := align_to size fa in
      let size := size + mir_type_size tc f in
      struct_layout tc fields size align
  end.

Definition mir_type_struct (tc : TypeCache) (name : option string) (fields : list tyref)
  : TypeCache * tyref :=
  let '(size, align) := struct_layout tc fields 0 1 in
  type_intern tc
    (fun t => match t, name with
              | TyStruct (Some n) _ _ _, Some n' => bool_decide (n = n')
              | _, _ => false end)
    (TyStruct name fields (align_to size align) align).

Definition mir_type_is_integer (tc : TypeCache) (t : tyref) : bool :=
  match ty_kind <$> ty_deref tc t with
  | Some (MIR_TYPE_I8 | MIR_TYPE_I16 | MIR_TYPE_I32 | MIR_TYPE_I64
         | MIR_TYPE_U8 | MIR_TYPE_U16 | MIR_TYPE_U32 | MIR_TYPE_U64) => true
  | _ => false
  end.

Definition mir_type_is_float (tc : TypeCache) (t : tyref) : bool :=
  match ty_kind <$> ty_deref tc t with
  | Some (MIR_TYPE_F32 | MIR_TYPE_F64) => true
  | _ => false
  end.

Definition mir_type_is_pointer (tc : TypeCache) (t : tyref) : bool :=
  match ty_kind <$> ty_deref tc t with
  | Some (MIR_TYPE_PTR | MIR_TYPE_REF | MIR_TYPE_MUT_REF) => true
  | _ => false
  end.

Definition mir_type_name (tc : TypeCache) (t : tyref) : string :=
  match ty_deref tc t with
  | None => "void"
  | Some ty =>
      match ty_kind ty with
      | MIR_TYPE_VOID => "void" | MIR_TYPE_BOOL => "bool"
      | MIR_TYPE_I8 => "i8" | MIR_TYPE_I16 => "i16"
      | MIR_TYPE_I32 => "i32" | MIR_TYPE_I64 => "i64"
      | MIR_TYPE_U8 => "u8" | MIR_TYPE_U16 => "u16"
      | MIR_TYPE_U32 => "u32" | MIR_TYPE_U64 => "u64"
      | MIR_TYPE_F32 => "f32" | MIR_TYPE_F64 => "f64"
      | MIR_TYPE_PTR => "ptr" | MIR_TYPE_REF => "&ref" | MIR_TYPE_MUT_REF => "&mut ref"
      | MIR_TYPE_FUNC => "fn"
      | MIR_TYPE_STRUCT =>
          match ty with TyStruct (Some n) _ _ _ => n | _ => "struct" end
      | MIR_TYPE_ARRAY => "array" | MIR_TYPE_SLICE => "slice"
      | MIR_TYPE_AGGREGATE => "aggregate"
      end
  end.

(** ** Instructions *)

Abbreviation MirValueId := N (only parsing).
Abbreviation MIR_VALUE_NONE := 0%N (only parsing).

(** [MirBlock*]: a position in the function's block heap, [None] is [NULL]. *)
Abbreviation blockptr := (option nat) (only parsing).

(** The opcodes, grouped by the union variant their operands live in. *)
Inductive MirBinOp :=
| MIR_ADD | MIR_SUB | MIR_MUL | MIR_DIV | MIR_MOD
| MIR_FADD | MIR_FSUB | MIR_FMUL | MIR_FDIV
| MIR_BAND | MIR_BOR | MIR_BXOR | MIR_SHL | MIR_SHR | MIR_USHR
| MIR_CMP_EQ | MIR_CMP_NE | MIR_CMP_LT | MIR_CMP_LE | MIR_CMP_GT | MIR_CMP_GE
| MIR_LOGIC_AND | MIR_LOGIC_OR.

Inductive MirUnOp :=
| MIR_NEG | MIR_FNEG | MIR_BNOT | MIR_LOGIC_NOT
| MIR_CAST | MIR_BITCAST | MIR_TRUNC | MIR_ZEXT | MIR_SEXT | MIR_SITOFP | MIR_FPTOSI.

Inductive MirGepOp := MIR_GET_FIELD_PTR | MIR_GET_ELEM_PTR.
Inductive MirTransferOp := MIR_COPY | MIR_BORROW | MIR_BORROW_MUT | MIR_MOVE.
Inductive MirRefOp := MIR_ARC_RETAIN | MIR_ARC_RELEASE | MIR_DROP.

Inductive MirVecOpcode :=
| MIR_VEC_LOAD | MIR_VEC_LOAD_UNALIGNED | MIR_VEC_STORE | MIR_VEC_STORE_UNALIGNED
| MIR_VEC_BROADCAST | MIR_VEC_ADD | MIR_VEC_SUB | MIR_VEC_MUL | MIR_VEC_DIV
| MIR_VEC_MIN | MIR_VEC_MAX | MIR_VEC_AND | MIR_VEC_OR | MIR_VEC_XOR | MIR_VEC_FMA
| MIR_VEC_REDUCE_SUM | MIR_VEC_DOT | MIR_VEC_CMP_EQ | MIR_VEC_CMP_LT | MIR_VEC_CMP_GT
| MIR_VEC_SELECT.

#[export] Instance MirBinOp_eq_dec : EqDecision MirBinOp.
Proof. solve_decision. Defined.
#[export] Instance MirUnOp_eq_dec : EqDecision MirUnOp.
Proof. solve_decision. Defined.
#[export] Instance MirGepOp_eq_dec : EqDecision MirGepOp.
Proof. solve_decision. Defined.
#[export] Instance MirTransferOp_eq_dec : EqDecision MirTransferOp.
Proof. solve_decision. Defined.
#[export] Instance MirRefOp_eq_dec : EqDecision MirRefOp.
Proof. solve_decision. Defined.
#[export] Instance MirVecOpcode_eq_dec : EqDecision MirVecOpcode.
Proof. solve_decision. Defined.

(** An opcode with its operands.  Immediates: [int64_t] as a [Z] in the
    signed range, [double] as its 64-bit pattern. *)
Inductive MirInstKind :=
| CONST_INT (imm_i64 : Z)
| CONST_FLOAT (imm_f64 : Z)
| CONST_BOOL (imm_bool : bool)
| CONST_STRING (imm_string : string)
| CONST_FUNC (global_name : string)
| CONST_NULL
| GLOBAL_ADDR (global_name : string)
| BINARY (op : MirBinOp) (lhs rhs : MirValueId)
| UNARY (op : MirUnOp) (operand : MirValueId) (target_type : tyref)
| ALLOCA (alloc_type : tyref) (count : Z)
| LOAD (ptr : MirValueId)
| STORE (ptr value : MirValueId)
| GEP (op : MirGepOp) (base : MirValueId) (field_index : Z) (index : MirValueId)
| BR (target : blockptr)
| CONDBR (cond : MirValueId) (true_bb false_bb : blockptr)
| SWITCH (discriminant : MirValueId) (cases : list (Z * blockptr)) (default_bb : blockptr)
| RET (value : MirValueId)
| RET_VOID
| UNREACHABLE
| CALL (func_name : string) (args : list MirValueId) (callee : MirValueId)
| CALL_INDIRECT (func_name : string) (args : list MirValueId) (callee : MirValueId)
| CALL_VIRTUAL (self_obj : MirValueId) (vtable_index : Z) (args : list MirValueId)
| PHI (edges : list (blockptr * MirValueId))
| TRANSFER (op : MirTransferOp) (source : MirValueId)
| REFOP (op : MirRefOp) (ptr : MirValueId)
| OBJ_ALLOC (class_name : string) (size : Z)
| STRUCT_INIT (fields : list MirValueId)
| EXTRACT (aggregate : MirValueId) (field_idx : Z)
| INSERT (aggregate : MirValueId) (field_idx : Z) (insert_val : MirValueId)
| VEC (op : MirVecOpcode) (a b c : MirValueId) (width : Z) (lane_type : tyref)
| NOP
| UNDEF
| SUSPEND (resume_bb : blockptr) (future : MirValueId)
| DEBUGLOC (line column : Z) (file : string).

#[export] Instance MirInstKind_eq_dec : EqDecision MirInstKind.
Proof. solve_decision. Defined.

Record MirInst := mkInst {
  as_ : MirInstKind;
  result : MirValueId;
  type : tyref;
  src_line : Z;
  src_col : Z
}.

(** Rewriting an instruction in place: [inst->opcode = ...; inst->as... = ...] *)
Definition set_as (i : MirInst) (k : MirInstKind) : MirInst :=
  mkInst k (result i) (type i) (src_line i) (src_col i).

(** The opcodes that end a block. *)
Definition is_terminator (k : MirInstKind) : bool :=
  match k with
  | BR _ | CONDBR _ _ _ | SWITCH _ _ _ | RET _ | RET_VOID | UNREACHABLE => true
  | _ => false
  end.

Definition is_phi (k : MirInstKind) : bool :=
  match k with PHI _ => true | _ => false end.

(** ** Basic blocks *)

Record MirBlock := mkBlock {
  id : Z;                           (* uint32_t *)
  label : string;
  insts : list MirInst;             (* first ... last *)
  inst_count : Z;
  predecessors : list nat;
  successors : list nat;
  idom : blockptr;
  dom_children : list nat;
  dom_frontier : list nat;
  loop_depth : Z;
  is_loop_header : bool
}.

Definition with_insts (b : MirBlock) (l : list MirInst) (n : Z) : MirBlock :=
  mkBlock (id b) (label b) l n (predecessors b) (successors b) (idom b)
    (dom_children b) (dom_frontier b) (loop_depth b) (is_loop_header b).
Definition with_preds (b : MirBlock) (l : list nat) : MirBlock :=
  mkBlock (id b) (label b) (insts b) (inst_count b) l (successors b) (idom b)
    (dom_children b) (dom_frontier b) (loop_depth b) (is_loop_header b).
Definition with_succs (b : MirBlock) (l : list nat) : MirBlock :=
  mkBlock (id b) (label b) (insts b) (inst_count b) (predecessors b) l (idom b)
    (dom_children b) (dom_frontier b) (loop_depth b) (is_loop_header b).
Definition with_id (b : MirBlock) (i : Z) : MirBlock :=
  mkBlock i (label b) (insts b) (inst_count b) (predecessors b) (successors b) (idom b)
    (dom_children b) (dom_frontier b) (loop_depth b) (is_loop_header b).

(** [block->last] *)
Definition block_last (b : MirBlock) : option MirInst := list.last (insts b).

Definition mir_block_append (b : MirBlock) (i : MirInst) : MirBlock :=
  with_insts b (insts b ++ [i]) (inst_count b + 1).

Definition mir_block_is_terminated (b : MirBlock) : bool :=
  match block_last b with
  | None => false
  | Some i => is_terminator (as_ i)
  end.

(** [mir_block_add_predecessor] and [mir_block_add_successor] share the
    duplicate test and the growing append of [ensure_block_array]. *)
Definition ensure_block_array (arr : list nat) (val : nat) : list nat := arr ++ [val].

Definition mir_block_add_predecessor (b : MirBlock) (pred : nat) : MirBlock :=
  if bool_decide (pred ∈ predecessors b) then b
  else with_preds b (ensure_block_array (predecessors b) pred).

Definition mir_block_add_successor (b : MirBlock) (succ : nat) : MirBlock :=
  if bool_decide (succ ∈ successors b) then b
  else with_succs b (ensure_block_array (successors b) succ).

(** ** Functions *)

Record MirParam := mkParam { p_name : string; p_type : tyref; p_value_id : MirValueId }.

Record MirFunction := mkFunction {
  f_name : string;
  return_type : tyref;
  params : list MirParam;
  entry_block : blockptr;
  blocks : list MirBlock;           (* every block ever added *)
  block_list : list nat;            (* the linked list, in order *)
  block_count : Z;
  next_value_id : MirValueId;
  value_types : list tyref;         (* value_type_capacity = its length *)
  is_constexpr : bool;
  is_extern : bool;
  is_async : bool
}.

Definition with_blocks (f : MirFunction) (bs : list MirBlock) : MirFunction :=
  mkFunction (f_name f) (return_type f) (params f) (entry_block f) bs (block_list f)
    (block_count f) (next_value_id f) (value_types f) (is_constexpr f) (is_extern f)
    (is_async f).
Definition with_params (f : MirFunction) (ps : list MirParam) : MirFunction :=
  mkFunction (f_name f) (return_type f) ps (entry_block f) (blocks f) (block_list f)
    (block_count f) (next_value_id f) (value_types f) (is_constexpr f) (is_extern f)
    (is_async f).
Definition with_values (f : MirFunction) (n : MirValueId) (vt : list tyref) : MirFunction :=
  mkFunction (f_name f) (return_type f) (params f) (entry_block f) (blocks f) (block_list f)
    (block_count f) n vt (is_constexpr f) (is_extern f) (is_async f).
Definition with_cfg (f : MirFunction) (e : blockptr) (bs : list MirBlock) (bl : list nat)
  (bc : Z) : MirFunction :=
  mkFunction (f_name f) (return_type f) (params f) e bs bl bc (next_value_id f)
    (value_types f) (is_constexpr f) (is_extern f) (is_async f).

(** [*b] *)
Definition block_at (f : MirFunction) (b : nat) : option MirBlock := blocks f !! b.

(** Updating the block [b] points to. *)
Definition upd_block (f : MirFunction) (b : nat) (g : MirBlock -> MirBlock) : MirFunction :=
  with_blocks f (alter g b (blocks f)).

(** [b->next_block] *)
Fixpoint next_in (l : list nat) (b : nat) : blockptr :=
  match l with
  | [] => None
  | x :: l => if decide (x = b) then head l else next_in l b
  end.
Definition next_block (f : MirFunction) (b : nat) : blockptr := next_in (block_list f) b.

Definition mir_function_new_value (f : MirFunction) (ty : tyref) : MirFunction * MirValueId :=
  let vid := next_value_id f in
  let cap := length (value_types f) in
  let vt :=
    if Z.of_nat cap <=? s32 (Z.of_N vid)
    then value_types f ++ replicate cap TY_NULL
    else value_types f in
  (with_values f (vid + 1) (<[N.to_nat vid := ty]> vt), vid).

Definition mir_function_value_type (f : MirFunction) (vid : MirValueId) : tyref :=
  if (vid =? MIR_VALUE_NONE)%N || (Z.of_nat (length (value_types f)) <=? s32 (Z.of_N vid))
  then TY_NULL
  else default TY_NULL (value_types f !! N.to_nat vid).

Definition new_block (f : MirFunction) (lbl : string) : MirBlock :=
  mkBlock (u32 (block_count f)) lbl [] 0 [] [] None [] [] 0 false.

Definition mir_function_add_block (f : MirFunction) (lbl : string) : MirFunction * nat :=
  let b := length (blocks f) in
  let entry := match block_list f with [] => Some b | _ => entry_block f end in
  (with_cfg f entry (blocks f ++ [new_block f lbl]) (block_list f ++ [b]) (block_count f + 1),
   b).

(** ** Modules *)

Record MirGlobal := mkGlobal {
  g_name : string; g_type : tyref; g_initializer : MirValueId; g_is_const : bool
}.

Record MirModule := mkModule {
  m_name : string;
  func_list : list MirFunction;     (* newest first *)
  func_count : Z;
  globals : list MirGlobal;
  type_cache : list MirType;
  string_literals : list string
}.

Definition mir_module_create (name : string) : MirModule := mkModule name [] 0 [] [] [].

Definition with_funcs (m : MirModule) (l : list MirFunction) (n : Z) : MirModule :=
  mkModule (m_name m) l n (globals m) (type_cache m) (string_literals m).
Definition with_globals (m : MirModule) (g : list MirGlobal) : MirModule :=
  mkModule (m_name m) (func_list m) (func_count m) g (type_cache m) (string_literals m).
Definition with_strings (m : MirModule) (s : list string) : MirModule :=
  mkModule (m_name m) (func_list m) (func_count m) (globals m) (type_cache m) s.

(** The parameter loop of [mir_module_add_function]. *)
Fixpoint add_params (f : MirFunction) (ps : list (string * tyref)) : MirFunction :=
  match ps with
  | [] => f
  | (n, ty) :: ps =>
      let '(f, v) := mir_function_new_value f ty in
      add_params (with_params f (params f ++ [mkParam n ty v])) ps
  end.

Definition mir_module_add_function (m : MirModule) (name : string) (ret : tyref)
  (ps : list (string * tyref)) : MirModule * MirFunction :=
  let f0 := mkFunction name ret [] None [] [] 0 1 (replicate 64 TY_NULL) false false false in
  let f := add_params f0 ps in
  (with_funcs m (f :: func_list m) (func_count m + 1), f).

Definition mir_module_find_function (m : MirModule) (name : string) : option MirFunction :=
  list_find (fun f => f_name f = name) (func_list m) ≫= (fun p => Some p.2).

Definition mir_module_find_global (m : MirModule) (name : string) : Z :=
  match find_idx (fun g => bool_decide (g_name g = name)) (globals m) with
  | Some i => Z.of_nat i
  | None => -1
  end.

Definition mir_module_add_global (m : MirModule) (name : string) (ty : tyref) (is_const : bool)
  : MirModule * Z :=
  let existing := mir_module_find_global m name in
  if 0 <=? existing then
    let upd g :=
      mkGlobal (g_name g) (if (g_type g =? TY_NULL)%N then ty else g_type g)
        (g_initializer g) (g_is_const g || is_const) in
    (with_globals m (alter upd (Z.to_nat existing) (globals m)), existing)
  else
    (with_globals m (globals m ++ [mkGlobal name ty MIR_VALUE_NONE is_const]),
     Z.of_nat (length (globals m))).

Definition mir_module_add_string (m : MirModule) (str : string) : MirModule * Z :=
  match find_idx (fun s => bool_decide (s = str)) (string_literals m) with
  | Some i => (m, Z.of_nat i)
  | None => (with_strings m (string_literals m ++ [str]), Z.of_nat (length (string_literals m)))
  end.
