(* ===== verification/MirGraph.v ===== *)
(** * Breadth-first search over the blocks of a function

    The queue loop that [mir_verify_cfg_reachable] of
    [src/compiler/ir/mir.c] and [mir_remove_unreachable_blocks] of
    [src/compiler/ir/mir_opt.c] both contain: a [seen] array indexed by block
    ids and a queue of blocks.  They differ in the successors they follow (the
    operands of the terminator, or the successor list), the parameter
    [succ_of].  The search terminates within its array and marks exactly the
    reachable blocks. *)
From S2P Require Import Prelude MirCore.

(** ** Updating blocks *)

Lemma block_at_upd f b g c :
  block_at (upd_block f b g) c = if decide (c = b) then g <$> block_at f b else block_at f c.
Proof.
  unfold block_at, upd_block. simpl. destruct (decide (c = b)) as [->|Hne].
  - by rewrite list_lookup_alter_eq.
  - by rewrite list_lookup_alter_ne.
Qed.

Lemma block_at_upd_eq f b g : block_at (upd_block f b g) b = g <$> block_at f b.
Proof. rewrite block_at_upd. by rewrite decide_True. Qed.

Lemma block_at_upd_ne f b g c : c <> b -> block_at (upd_block f b g) c = block_at f c.
Proof. intros. rewrite block_at_upd. by rewrite decide_False. Qed.

(** ** Updating every block *)

Section upd_all.
Context (g : MirBlock -> MirBlock).

Lemma upd_all_list bl f :
  block_list (fold_left (fun f b => upd_block f b g) bl f) = block_list f.
Proof. revert f. induction bl as [|b bl IH]; intros f; simpl; [done|]. by rewrite IH. Qed.

Lemma upd_all_at bl f c :
  NoDup bl ->
  block_at (fold_left (fun f b => upd_block f b g) bl f) c =
  if decide (c ∈ bl) then g <$> block_at f c else block_at f c.
Proof.
  revert f. induction bl as [|b bl IH]; intros f Hnd; simpl; [done|].
  apply list.NoDup_cons in Hnd as [Hb Hnd]. rewrite IH by done. rewrite block_at_upd.
  destruct (decide (c = b)) as [->|Hne].
  - rewrite decide_False by done. by rewrite decide_True by left.
  - destruct (decide (c ∈ bl)).
    + by rewrite decide_True by (by right).
    + rewrite decide_False; [done|]. by intros [?|?]%elem_of_cons.
Qed.
End upd_all.

(** ** The search *)

Definition block_id (f : MirFunction) (b : nat) : outcome Z :=
  of_option (id <$> block_at f b).

(** [if (s->id < nbl && !seen[s->id]) { seen[s->id] = true; q[qt++] = s; }]
    over the successors of one block. *)
Fixpoint visit_succs (f : MirFunction) (succs : list nat) (seen : list bool) (q : list nat)
  : outcome (list bool * list nat) :=
  match succs with
  | [] => Ok (seen, q)
  | s :: succs =>
      let! sid := block_id f s in
      match seen !! Z.to_nat sid with
      | Some false => visit_succs f succs (<[Z.to_nat sid := true]> seen) (q ++ [s])
      | _ => visit_succs f succs seen q
      end
  end.

(** [while (qh < qt)]: [q] is the unread part of the queue. *)
Fixpoint bfs (succ_of : MirBlock -> list nat) (fuel : nat) (f : MirFunction) (seen : list bool) (q : list nat)
  : outcome (list bool) :=
  match q with
  | [] => Ok seen
  | cur :: q =>
      match fuel with
      | O => OutOfFuel
      | S fuel =>
          let! b := of_option (block_at f cur) in
          let! sq := visit_succs f (succ_of b) seen q in
          bfs succ_of fuel f sq.1 sq.2
      end
  end.

(** ** Reachability *)

(** A block's [id] is its place in the list, as [mir_function_add_block] and
    the renumbering of [mir_remove_unreachable_blocks] leave it. *)
Definition ids_ok (f : MirFunction) : Prop :=
  forall i b, block_list f !! i = Some b ->
    exists blk, block_at f b = Some blk /\ id blk = Z.of_nat i.

Definition succs_closed (succ_of : MirBlock -> list nat) (f : MirFunction) : Prop :=
  forall b blk s, b ∈ block_list f -> block_at f b = Some blk -> s ∈ succ_of blk ->
    s ∈ block_list f.

Definition cfg_edge (succ_of : MirBlock -> list nat) (f : MirFunction) (b s : nat) : Prop :=
  exists blk, block_at f b = Some blk /\ s ∈ succ_of blk.

Definition reachable (succ_of : MirBlock -> list nat) (f : MirFunction) : nat -> nat -> Prop :=
  rtc (cfg_edge succ_of f).

Section bfs.
Context (succ_of : MirBlock -> list nat) (f : MirFunction).
Hypothesis Hids : ids_ok f.
Hypothesis Hclosed : succs_closed succ_of f.

Abbreviation reachable := (reachable succ_of).
Abbreviation cfg_edge := (cfg_edge succ_of).
Abbreviation bfs := (bfs succ_of).

Lemma block_id_pos i b : block_list f !! i = Some b -> block_id f b = Ok (Z.of_nat i).
Proof.
  intros Hi. destruct (Hids i b Hi) as (blk & Hb & Hid).
  unfold block_id. rewrite Hb. simpl. by rewrite Hid.
Qed.

Lemma pos_unique i j b : block_list f !! i = Some b -> block_list f !! j = Some b -> i = j.
Proof.
  intros Hi%block_id_pos Hj%block_id_pos. rewrite Hi in Hj. injection Hj as Hj. lia.
Qed.

Lemma ids_nodup : NoDup (block_list f).
Proof. apply NoDup_alt. intros i j b Hi Hj. by eapply pos_unique. Qed.

(** The blocks a [seen] array marks. *)
Definition marked (seen : list bool) (b : nat) : Prop :=
  exists i, block_list f !! i = Some b /\ seen !! i = Some true.

(** The number of unmarked entries plus the queue bounds the remaining work. *)
Definition unmarked (seen : list bool) : nat := length (List.filter negb seen).

Lemma unmarked_insert seen i :
  seen !! i = Some false -> unmarked seen = S (unmarked (<[i := true]> seen)).
Proof.
  intros Hi. unfold unmarked.
  rewrite <- (take_drop_middle seen i false Hi) at 1.
  rewrite insert_take_drop by (by apply lookup_lt_Some in Hi).
  rewrite !List.filter_app, !length_app. simpl. lia.
Qed.

Lemma marked_insert seen i b c :
  seen !! i = Some false -> block_list f !! i = Some b ->
  marked (<[i := true]> seen) c <-> c = b \/ marked seen c.
Proof.
  intros Hi Hb. assert ((i < length seen)%nat) by (by apply lookup_lt_Some in Hi).
  split.
  - intros (j & Hj & Hs). destruct (decide (i = j)) as [->|Hne].
    + left. congruence.
    + right. exists j. by rewrite list_lookup_insert_ne in Hs.
  - intros [->|(j & Hj & Hs)].
    + exists i. by rewrite list_lookup_insert_eq.
    + exists j. destruct (decide (i = j)) as [->|Hne]; [congruence|].
      by rewrite list_lookup_insert_ne.
Qed.

Lemma visit_succs_spec succs : forall seen q,
  length seen = length (block_list f) -> (forall s, s ∈ succs -> s ∈ block_list f) ->
  exists seen' new,
    visit_succs f succs seen q = Ok (seen', q ++ new) /\
    length seen' = length (block_list f) /\
    (unmarked seen' + length new = unmarked seen)%nat /\
    (forall b, b ∈ new -> b ∈ succs) /\
    (forall b, marked seen' b <-> marked seen b \/ b ∈ succs) /\
    (forall b, marked seen' b -> marked seen b \/ b ∈ new).
Proof.
  induction succs as [|s succs IH]; intros seen q Hlen Hin; simpl.
  - exists seen, []. rewrite app_nil_r. split_and!; auto; try (simpl; lia).
    intros b. rewrite elem_of_nil. tauto.
  - assert (Hs : s ∈ block_list f) by (apply Hin; left).
    apply list_elem_of_lookup in Hs as [i Hi].
    rewrite (block_id_pos i s Hi). simpl. rewrite Nat2Z.id.
    assert (Hin' : forall s', s' ∈ succs -> s' ∈ block_list f) by (intros; apply Hin; by right).
    destruct (seen !! i) as [[]|] eqn:Hsi.
    + destruct (IH seen q Hlen Hin') as (seen' & new & -> & ? & ? & Hn & Hm & Hq).
      exists seen', new. split_and!; auto.
      * intros b Hb. right. auto.
      * intros b. rewrite Hm, elem_of_cons. split; [tauto|]. intros [?|[->|?]]; auto.
        left. by exists i.
    + destruct (IH (<[i := true]> seen) (q ++ [s])) as (seen' & new & -> & ? & Hu & Hn & Hm & Hq);
        [by rewrite length_insert|done|].
      exists seen', (s :: new). rewrite <- app_assoc. split_and!; auto.
      * pose proof (unmarked_insert _ _ Hsi). simpl. lia.
      * intros b. rewrite !elem_of_cons. intuition.
      * intros b. rewrite Hm, (marked_insert _ _ s) by done. rewrite elem_of_cons. tauto.
      * intros b Hb. rewrite elem_of_cons. apply Hq in Hb as [Hb|Hb]; [|tauto].
        rewrite (marked_insert _ _ s) in Hb by done. tauto.
    + apply lookup_lt_Some in Hi. apply lookup_ge_None in Hsi. lia.
Qed.

(** Loop invariant of the search. *)
Record bfs_inv (e : nat) (seen : list bool) (q : list nat) : Prop := {
  bi_len : length seen = length (block_list f);
  bi_entry : marked seen e;
  bi_sound : forall b, marked seen b -> reachable f e b;
  bi_queue : forall b, b ∈ q -> marked seen b;
  bi_closed : forall b s, marked seen b -> b ∉ q -> cfg_edge f b s -> marked seen s
}.

Lemma marked_in seen b : marked seen b -> b ∈ block_list f.
Proof. intros (i & Hi & _). by eapply list_elem_of_lookup_2. Qed.

Lemma bfs_spec fuel : forall e seen q,
  bfs_inv e seen q -> (unmarked seen + length q <= fuel)%nat ->
  exists seen', bfs fuel f seen q = Ok seen' /\ bfs_inv e seen' [].
Proof.
  induction fuel as [|fuel IH]; intros e seen [|cur q] Hinv Hfuel; simpl in *;
    try (by exists seen); try lia.
  destruct Hinv as [Hlen He Hsound Hq Hcl].
  assert (Hcur : marked seen cur) by (apply Hq; left).
  pose proof (marked_in _ _ Hcur) as Hin.
  destruct Hcur as (i & Hi & Hsi). destruct (Hids i cur Hi) as (blk & Hblk & _).
  rewrite Hblk. simpl.
  destruct (visit_succs_spec (succ_of blk) seen q Hlen)
    as (seen' & new & -> & Hlen' & Hu & Hnew & Hm & Hmn).
  { intros s Hs. by eapply (Hclosed cur blk). }
  simpl. apply IH; [|rewrite length_app; lia].
  assert (Hcm : marked seen cur) by (by exists i).
  split; auto.
  - apply Hm. auto.
  - intros b [Hb|Hb]%Hm; [auto|]. eapply rtc_r; [by apply Hsound|]. by exists blk.
  - intros b [Hb|Hb]%elem_of_app; apply Hm; [left; apply Hq; by right | right; auto].
  - intros b s Hb Hnq Hedge. apply Hm.
    apply Hmn in Hb as [Hb|Hb]; [|by destruct Hnq; apply elem_of_app; right].
    destruct (decide (b = cur)) as [->|Hne].
    + right. destruct Hedge as (blk' & Hblk' & Hs). rewrite Hblk in Hblk'. by injection Hblk' as <-.
    + left. eapply Hcl; eauto. rewrite elem_of_cons. intros [?|?]; [done|].
      apply Hnq. apply elem_of_app. by left.
Qed.

Lemma bfs_inv_final e seen :
  bfs_inv e seen [] -> forall b, marked seen b <-> reachable f e b.
Proof.
  intros [Hlen He Hsound _ Hcl] b. split; [apply Hsound|].
  intros Hr. apply (rtc_ind_r (R := cfg_edge f) (marked seen) e); [done| |done].
  intros b' c _ Hbc IH. eapply Hcl; eauto. apply not_elem_of_nil.
Qed.

(** The search from the entry, with an array and fuel of at least the number
    of blocks. *)
Definition seen_entry : list bool := <[0%nat := true]> (replicate (length (block_list f)) false).

Lemma bfs_run e fuel :
  block_list f !! 0%nat = Some e -> (length (block_list f) <= fuel)%nat ->
  exists seen, bfs fuel f seen_entry [e] = Ok seen /\ length seen = length (block_list f) /\
    forall b, marked seen b <-> reachable f e b.
Proof.
  intros He Hfuel. assert (Hlt : (0 < length (block_list f))%nat) by (by apply lookup_lt_Some in He).
  assert (Hrep : replicate (length (block_list f)) false !! 0%nat = Some false)
    by (by apply lookup_replicate).
  assert (Hnone : forall b, ~ marked (replicate (length (block_list f)) false) b).
  { intros b (j & _ & Hj). by apply lookup_replicate in Hj as [? _]. }
  assert (Hm : forall b, marked seen_entry b <-> b = e \/ marked (replicate (length (block_list f)) false) b).
  { intros b. by apply marked_insert. }
  destruct (bfs_spec fuel e seen_entry [e]) as (seen & Hrun & Hfin).
  - split.
    + unfold seen_entry. by rewrite length_insert, length_replicate.
    + apply Hm. by left.
    + intros b [->|Hb]%Hm; [constructor|by destruct (Hnone b)].
    + intros b ->%list_elem_of_singleton. apply Hm. by left.
    + intros b s [->|Hb]%Hm Hnq; [|by destruct (Hnone b)].
      destruct Hnq. by apply list_elem_of_singleton.
  - pose proof (unmarked_insert _ _ Hrep) as Hu. fold seen_entry in Hu.
    assert (unmarked (replicate (length (block_list f)) false) <= length (block_list f))%nat.
    { unfold unmarked. etransitivity; [apply List.filter_length_le|]. by rewrite length_replicate. }
    change (length [e]) with 1%nat. lia.
  - exists seen. split_and!; [done|by apply bi_len in Hfin|]. by apply bfs_inv_final.
Qed.

End bfs.
