(* ===== verification/Dominators.v ===== *)
(** * Dominators and dominance frontiers

    The first half of [src/compiler/ir/mir_mem2reg.c]: the reverse post-order
    of the blocks, the Cooper-Harvey-Kennedy computation of immediate
    dominators, the children lists of the dominator tree and the dominance
    frontiers of Cytron et al.  The arrays the code allocates from the module's
    arena are the lists [dom_children] and [dom_frontier] of a block.  The
    depth-first search is shown to list the reachable blocks; the other proofs
    are in DomFacts.v and DomFrontier.v. *)
From S2P Require Import Prelude MirCore MirGraph.

Definition MAX_BLOCKS : nat := 4096.

Definition with_idom (d : blockptr) (b : MirBlock) : MirBlock :=
  mkBlock (id b) (label b) (insts b) (inst_count b) (predecessors b) (successors b) d
    (dom_children b) (dom_frontier b) (loop_depth b) (is_loop_header b).
Definition with_dom_children (l : list nat) (b : MirBlock) : MirBlock :=
  mkBlock (id b) (label b) (insts b) (inst_count b) (predecessors b) (successors b) (idom b)
    l (dom_frontier b) (loop_depth b) (is_loop_header b).
Definition with_dom_frontier (l : list nat) (b : MirBlock) : MirBlock :=
  mkBlock (id b) (label b) (insts b) (inst_count b) (predecessors b) (successors b) (idom b)
    (dom_children b) l (loop_depth b) (is_loop_header b).

(** ** Block ordering *)

Record BlockOrder := mkOrder { ord : list nat; visited : list bool }.

(** Each call marks a block: [S MAX_BLOCKS] is enough fuel for any graph. *)
Fixpoint dfs_post_order (fuel : nat) (f : MirFunction) (bb : nat) (order : BlockOrder)
  : outcome BlockOrder :=
  match fuel with
  | O => OutOfFuel
  | S fuel =>
      let! b := of_option (block_at f bb) in
      let! v := of_option (visited order !! Z.to_nat (id b) : option bool) in
      if v then Ok order else
      let order := mkOrder (ord order) (<[Z.to_nat (id b) := true]> (visited order)) in
      let! order := ofold (dfs_post_order fuel f) (successors b) order in
      (* assert(order->count < MAX_BLOCKS) *)
      if (length (ord order) <? MAX_BLOCKS)%nat
      then Ok (mkOrder (ord order ++ [bb]) (visited order))
      else Undef
  end.

Definition compute_rpo (f : MirFunction) : outcome (list nat) :=
  match entry_block f with
  | None => Ok []
  | Some e =>
      let! o := dfs_post_order (S MAX_BLOCKS) f e (mkOrder [] (replicate MAX_BLOCKS false)) in
      Ok (reverse (ord o))
  end.

(** ** Immediate dominators *)

(** [rpo_map.data], -1 where the search did not come. *)
Definition rpo_index (f : MirFunction) (rpo : list nat) : outcome (list Z) :=
  let! r := ofold (fun bb r =>
      let! b := of_option (block_at f bb) in
      if (Z.to_nat (id b) <? length r.2)%nat
      then Ok (r.1 + 1, <[Z.to_nat (id b) := r.1]> r.2) else Undef)
    rpo (0, replicate MAX_BLOCKS (-1)) in
  Ok r.2.

Definition idom_of (f : MirFunction) (b : nat) : blockptr := block_at f b ≫= idom.

(** [rpo_map->data[b->id]] *)
Definition rpo_at (f : MirFunction) (map : list Z) (b : nat) : outcome Z :=
  let! blk := of_option (block_at f b) in of_option (map !! Z.to_nat (id blk)).

(** [while (rpo_map[b1] > rpo_map[b2]) b1 = b1->idom;] *)
Fixpoint climb (fuel : nat) (f : MirFunction) (map : list Z) (b1 b2 : nat) : outcome nat :=
  let! i1 := rpo_at f map b1 in
  let! i2 := rpo_at f map b2 in
  if i2 <? i1 then
    match fuel with
    | O => OutOfFuel
    | S fuel => let! p := of_option (idom_of f b1) in climb fuel f map p b2
    end
  else Ok b1.

(** The outer loop; every round moves a finger up, so that the number of
    blocks bounds the rounds and the inner loops. *)
Fixpoint intersect (fuel : nat) (f : MirFunction) (map : list Z) (b1 b2 : nat) : outcome nat :=
  if decide (b1 = b2) then Ok b1 else
  match fuel with
  | O => OutOfFuel
  | S fuel =>
      let! b1 := climb MAX_BLOCKS f map b1 b2 in
      let! b2 := climb MAX_BLOCKS f map b2 b1 in
      intersect fuel f map b1 b2
  end.

Fixpoint first_processed (f : MirFunction) (preds : list nat) : outcome blockptr :=
  match preds with
  | [] => Ok None
  | p :: preds =>
      let! b := of_option (block_at f p) in
      match idom b with Some _ => Ok (Some p) | None => first_processed f preds end
  end.

(** One iteration of the loop over the predecessors. *)
Definition meet_pred (f : MirFunction) (map : list Z) (pred new_idom : nat) : outcome nat :=
  if decide (pred = new_idom) then Ok new_idom else
  let! b := of_option (block_at f pred) in
  match idom b with
  | Some _ => intersect (S (2 * MAX_BLOCKS)) f map pred new_idom
  | None => Ok new_idom
  end.

(** The body of the loop over the reverse post-order. *)
Definition update_idom (map : list Z) (bb : nat) (r : MirFunction * bool)
  : outcome (MirFunction * bool) :=
  let '(f, changed) := r in
  let! b := of_option (block_at f bb) in
  let! first := first_processed f (predecessors b) in
  match first with
  | None => Ok (f, changed)
  | Some new_idom =>
      let! new_idom := ofold (meet_pred f map) (predecessors b) new_idom in
      if decide (idom b = Some new_idom) then Ok (f, changed)
      else Ok (upd_block f bb (with_idom (Some new_idom)), true)
  end.

(** [while (changed)] *)
Fixpoint idom_loop (fuel : nat) (map : list Z) (rpo : list nat) (f : MirFunction)
  : outcome MirFunction :=
  match fuel with
  | O => OutOfFuel
  | S fuel =>
      let! r := ofold (update_idom map) (tl rpo) (f, false) in
      if snd r then idom_loop fuel map rpo r.1 else Ok r.1
  end.

(** The children lists: emptied, then filled in reverse post-order. *)
Definition add_dom_child (bb : nat) (f : MirFunction) : outcome MirFunction :=
  let! b := of_option (block_at f bb) in
  match idom b with
  | Some p =>
      if decide (p = bb) then Ok f
      else let! pb := of_option (block_at f p) in
           Ok (upd_block f p (with_dom_children (dom_children pb ++ [bb])))
  | None => Ok f
  end.

Definition upd_all (g : MirBlock -> MirBlock) (l : list nat) (f : MirFunction) : MirFunction :=
  fold_left (fun f b => upd_block f b g) l f.

Definition mir_compute_dominators (f : MirFunction) : outcome MirFunction :=
  let! rpo := compute_rpo f in
  match rpo with
  | [] => Ok f
  | e :: _ =>
      let! map := rpo_index f rpo in
      let f := upd_all (with_idom None) rpo f in
      let f := upd_block f e (with_idom (Some e)) in
      let! f := idom_loop (length rpo * length rpo + 2) map rpo f in
      let f := upd_all (with_dom_children []) rpo f in
      ofold add_dom_child (tl rpo) f
  end.

(** ** Dominance frontiers *)

(** [while (runner != bb->idom)], at most one round per block of the tree. *)
Fixpoint run_up (fuel : nat) (bb : nat) (stop : blockptr) (runner : nat) (f : MirFunction)
  : outcome MirFunction :=
  if decide (Some runner = stop) then Ok f else
  match fuel with
  | O => OutOfFuel
  | S fuel =>
      let! r := of_option (block_at f runner) in
      let f := if decide (bb ∈ dom_frontier r) then f
               else upd_block f runner (with_dom_frontier (dom_frontier r ++ [bb])) in
      match idom r with
      | Some runner => run_up fuel bb stop runner f
      | None => Ok f
      end
  end.

Definition frontier_block (bb : nat) (f : MirFunction) : outcome MirFunction :=
  let! b := of_option (block_at f bb) in
  if (length (predecessors b) <? 2)%nat then Ok f
  else ofold (run_up (S (length (block_list f))) bb (idom b)) (predecessors b) f.

Definition mir_compute_dom_frontiers (f : MirFunction) : outcome MirFunction :=
  ofold frontier_block (block_list f) (upd_all (with_dom_frontier []) (block_list f) f).

(** ** The reverse post-order of the blocks

    The depth-first search of [mir_mem2reg.c] ends within its arrays and lists
    the reachable blocks, the entry first, every other block behind one of its
    predecessors. *)

Abbreviation edge := (cfg_edge successors).

(** The structural invariant of a control flow graph. *)
Record cfg_wf (f : MirFunction) (e : nat) : Prop := {
  cw_ids : ids_ok f;
  cw_entry : entry_block f = Some e;
  cw_in : e ∈ block_list f;
  cw_size : (length (block_list f) <= MAX_BLOCKS)%nat;
  cw_closed : succs_closed successors f;
  cw_preds : forall c blk p, c ∈ block_list f -> block_at f c = Some blk ->
    (p ∈ predecessors blk <-> p ∈ block_list f /\ edge f p c)
}.

Abbreviation reach := (reachable successors).

(** ** The depth-first search *)

Section dfs.
Context (f : MirFunction) (e : nat) (Hwf : cfg_wf f e).

(** What a search from [roots] adds to the order. *)
Record dfs_ext (o : BlockOrder) (new : list nat) (o' : BlockOrder) (roots : list nat) : Prop := {
  de_ord : ord o' = ord o ++ new;
  de_len : length (visited o') = MAX_BLOCKS;
  de_marked : forall b, marked f (visited o') b <-> marked f (visited o) b \/ b ∈ new;
  de_nodup : NoDup new;
  de_fresh : forall b, b ∈ new -> ~ marked f (visited o) b;
  de_count : (length new + unmarked (visited o') = unmarked (visited o))%nat;
  de_closed : forall b s, b ∈ new -> edge f b s -> marked f (visited o') s;
  de_roots : forall r, r ∈ roots -> marked f (visited o') r;
  de_parent : forall i x, new !! i = Some x ->
    x ∈ roots \/ exists j y, (i < j)%nat /\ new !! j = Some y /\ edge f y x;
  de_reach : forall x, x ∈ new -> exists r, r ∈ roots /\ reach f r x
}.

#[local] Arguments de_ord {_ _ _ _}.
#[local] Arguments de_len {_ _ _ _}.
#[local] Arguments de_marked {_ _ _ _}.
#[local] Arguments de_nodup {_ _ _ _}.
#[local] Arguments de_fresh {_ _ _ _}.
#[local] Arguments de_count {_ _ _ _}.
#[local] Arguments de_closed {_ _ _ _}.
#[local] Arguments de_roots {_ _ _ _}.
#[local] Arguments de_parent {_ _ _ _}.
#[local] Arguments de_reach {_ _ _ _}.

Lemma dfs_ext_app o1 n1 o2 n2 o3 r1 r2 :
  dfs_ext o1 n1 o2 r1 -> dfs_ext o2 n2 o3 r2 -> dfs_ext o1 (n1 ++ n2) o3 (r1 ++ r2).
Proof.
  intros H1 H2. split.
  - rewrite (de_ord H2), (de_ord H1). by rewrite app_assoc.
  - apply H2.
  - intros b. rewrite (de_marked H2), (de_marked H1), elem_of_app. tauto.
  - apply list.NoDup_app. split_and!; [apply H1| |apply H2].
    intros b Hb Hb2. apply (de_fresh H2 b Hb2), (de_marked H1). by right.
  - intros b [Hb|Hb]%elem_of_app; [by apply (de_fresh H1)|]. intros Hm. apply (de_fresh H2 b Hb).
    apply (de_marked H1). by left.
  - rewrite length_app. pose proof (de_count H1). pose proof (de_count H2). lia.
  - intros b s [Hb|Hb]%elem_of_app Hs; [|by eapply (de_closed H2)].
    apply (de_marked H2). left. by eapply (de_closed H1).
  - intros r [Hr|Hr]%elem_of_app; [|by apply (de_roots H2)]. apply (de_marked H2). left. by apply (de_roots H1).
  - intros i x Hi. rewrite elem_of_app. apply lookup_app_Some in Hi as [Hi|[Hge Hi]].
    + destruct (de_parent H1 i x Hi) as [Hr|(j & y & Hj & Hy & He)]; [tauto|].
      right. exists j, y. split_and!; [done| |done]. apply lookup_app_l_Some, Hy.
    + destruct (de_parent H2 _ x Hi) as [Hr|(j & y & Hj & Hy & He)]; [tauto|].
      right. exists (length n1 + j)%nat, y. split_and!; [lia| |done].
      rewrite lookup_app_r by lia. rewrite <- Hy. f_equal. lia.
  - intros x [Hx|Hx]%elem_of_app.
    + destruct (de_reach H1 x Hx) as (r & Hr & Hx'). exists r. split; [|done].
      apply elem_of_app. by left.
    + destruct (de_reach H2 x Hx) as (r & Hr & Hx'). exists r. split; [|done].
      apply elem_of_app. by right.
Qed.

Lemma dfs_ext_nil o : length (visited o) = MAX_BLOCKS -> dfs_ext o [] o [].
Proof.
  intros Hl. split; try done.
  - by rewrite app_nil_r.
  - intros b. rewrite elem_of_nil. tauto.
  - constructor.
  - intros b Hb. by apply not_elem_of_nil in Hb.
  - intros b s Hb. by apply not_elem_of_nil in Hb.
  - intros b Hb. by apply not_elem_of_nil in Hb.
  - intros x Hb. by apply not_elem_of_nil in Hb.
Qed.

(** A root found marked adds nothing. *)
Lemma dfs_ext_seen o bb : length (visited o) = MAX_BLOCKS -> marked f (visited o) bb -> dfs_ext o [] o [bb].
Proof.
  intros Hl Hm. destruct (dfs_ext_nil o Hl). split; auto.
  - intros r ->%list_elem_of_singleton. done.
  - intros i x Hx. by rewrite lookup_nil in Hx.
  - intros x Hx. by apply not_elem_of_nil in Hx.
Qed.

(** The block itself, behind everything its successors add. *)
Lemma dfs_ext_push o i bb blk new o' :
  block_list f !! i = Some bb -> block_at f bb = Some blk -> visited o !! i = Some false ->
  dfs_ext (mkOrder (ord o) (<[i := true]> (visited o))) new o' (successors blk) ->
  dfs_ext o (new ++ [bb]) (mkOrder (ord o' ++ [bb]) (visited o')) [bb].
Proof.
  intros Hi Hblk Hv H. assert (Hmi : forall b, marked f (visited o') b <-> (b = bb \/ marked f (visited o) b) \/ b ∈ new).
  { intros b. rewrite (de_marked H). cbn [visited]. by rewrite (marked_insert f _ i bb b Hv Hi). }
  assert (Hnb : ~ marked f (visited o) bb).
  { intros (j & Hj & Hs). rewrite (pos_unique f (cw_ids _ _ Hwf) _ _ _ Hj Hi) in Hs. congruence. }
  assert (Hnew : bb ∉ new).
  { intros Hin. apply (de_fresh H bb Hin). cbn [visited]. apply (marked_insert f _ i bb bb Hv Hi). auto. }
  split; cbn [ord visited].
  - rewrite (de_ord H). cbn [ord]. by rewrite app_assoc.
  - apply H.
  - intros b. rewrite Hmi, elem_of_app, list_elem_of_singleton. tauto.
  - apply list.NoDup_app. split_and!; [apply H| |apply NoDup_singleton].
    intros b Hb ->%list_elem_of_singleton. done.
  - intros b [Hb|Hb]%elem_of_app.
    + intros Hm. apply (de_fresh H b Hb). cbn [visited]. apply (marked_insert f _ i bb b Hv Hi). auto.
    + apply list_elem_of_singleton in Hb as ->. done.
  - rewrite length_app. pose proof (de_count H) as Hc. cbn [visited] in Hc.
    rewrite (unmarked_insert _ _ Hv). simpl. lia.
  - intros b s [Hb|Hb]%elem_of_app Hs; [by eapply (de_closed H)|]. apply list_elem_of_singleton in Hb as ->.
    apply (de_roots H). destruct Hs as (blk' & Hblk' & Hs). congruence.
  - intros r ->%list_elem_of_singleton. apply Hmi. auto.
  - intros j x Hj. apply lookup_app_Some in Hj as [Hj|[Hge Hj]].
    + right. destruct (de_parent H j x Hj) as [Hr|(k & y & Hk & Hy & He)].
      * exists (length new), bb. split_and!; [by eapply lookup_lt_Some|by apply list_lookup_middle|].
        by exists blk.
      * exists k, y. split_and!; [done|by apply lookup_app_l_Some|done].
    + left. apply list_lookup_singleton_Some in Hj as [_ <-]. by apply list_elem_of_singleton.
  - intros x [Hx|Hx]%elem_of_app; exists bb; (split; [by apply list_elem_of_singleton|]).
    + destruct (de_reach H x Hx) as (r & Hr & Hx'). eapply rtc_l; [|exact Hx']. by exists blk.
    + apply list_elem_of_singleton in Hx as ->. constructor.
Qed.

Definition dfs_room (o : BlockOrder) : Prop :=
  length (visited o) = MAX_BLOCKS /\ (length (ord o) + unmarked (visited o) <= MAX_BLOCKS)%nat.

Lemma dfs_ext_room o new o' roots : dfs_room o -> dfs_ext o new o' roots -> dfs_room o'.
Proof.
  intros [Hl Hc] H. split; [apply H|]. rewrite (de_ord H), length_app.
  pose proof (de_count H). lia.
Qed.

Lemma dfs_list fuel roots :
  (forall bb o, bb ∈ roots -> dfs_room o -> (unmarked (visited o) < fuel)%nat ->
     exists new o', dfs_post_order fuel f bb o = Ok o' /\ dfs_ext o new o' [bb]) ->
  forall o, dfs_room o -> (unmarked (visited o) < fuel)%nat ->
  exists new o', ofold (dfs_post_order fuel f) roots o = Ok o' /\ dfs_ext o new o' roots.
Proof.
  induction roots as [|r roots IH]; intros Hone o Hroom Hfuel; simpl.
  - exists [], o. split; [done|]. by apply dfs_ext_nil, Hroom.
  - destruct (Hone r o) as (n1 & o1 & -> & H1); [left|done..|]. cbn [obind].
    destruct (IH) with (o := o1) as (n2 & o2 & -> & H2).
    + intros bb o2 Hbb. apply Hone. by right.
    + by eapply dfs_ext_room.
    + pose proof (de_count H1). lia.
    + exists (n1 ++ n2), o2. split; [done|]. apply (dfs_ext_app o n1 o1 n2 o2 [r] roots); done.
Qed.

Lemma dfs_spec fuel : forall bb o,
  bb ∈ block_list f -> dfs_room o -> (unmarked (visited o) < fuel)%nat ->
  exists new o', dfs_post_order fuel f bb o = Ok o' /\ dfs_ext o new o' [bb] /\
    (~ marked f (visited o) bb -> exists k, new = k ++ [bb]).
Proof.
  induction fuel as [|fuel IH]; intros bb o Hbb Hroom Hfuel; [lia|]. simpl.
  apply list_elem_of_lookup in Hbb as [i Hi].
  destruct (cw_ids _ _ Hwf i bb Hi) as (blk & Hblk & Hid). rewrite Hblk. cbn [of_option obind].
  rewrite Hid, Nat2Z.id. assert (Hlt : (i < length (visited o))%nat).
  { destruct Hroom as [-> _]. apply lookup_lt_Some in Hi. pose proof (cw_size _ _ Hwf). lia. }
  destruct (lookup_lt_is_Some_2 _ _ Hlt) as [[] Hv]; rewrite Hv; cbn [of_option obind].
  - assert (Hm : marked f (visited o) bb) by (by exists i).
    exists [], o. split_and!; [done| |done]. by apply dfs_ext_seen; [apply Hroom|].
  - pose proof (unmarked_insert _ _ Hv) as Hu. destruct Hroom as [Hl Hc].
    destruct (dfs_list fuel (successors blk)) with (o := mkOrder (ord o) (<[i := true]> (visited o)))
      as (new & o' & -> & Hext).
    + intros b o1 Hb Hroom1 Hf1. destruct (IH b o1) as (n & o2 & -> & H2 & _); [|done..|eauto].
      eapply (cw_closed _ _ Hwf bb blk); [by eapply list_elem_of_lookup_2|done|done].
    + split; cbn [visited ord]; [by rewrite length_insert|lia].
    + cbn [visited]. lia.
    + cbn [obind]. pose proof (dfs_ext_push o i bb blk new o' Hi Hblk Hv Hext) as Hp.
      pose proof (de_count Hext) as Hc'. pose proof (de_ord Hext) as Ho.
      cbn [visited ord] in Hc', Ho.
      assert (Hlen : (length (ord o') < MAX_BLOCKS)%nat) by (rewrite Ho, length_app; lia).
      destruct (Nat.ltb_spec (length (ord o')) MAX_BLOCKS) as [_|]; [|lia].
      eexists _, _. split_and!; [done|exact Hp|eauto].
Qed.

(** ** Reverse post-order *)

Record is_rpo (rpo : list nat) : Prop := {
  rp_nodup : NoDup rpo;
  rp_reach : forall b, b ∈ rpo <-> reach f e b;
  rp_head : rpo !! 0%nat = Some e;
  rp_size : (length rpo <= MAX_BLOCKS)%nat;
  rp_parent : forall i x, rpo !! S i = Some x ->
    exists j y, (j <= i)%nat /\ rpo !! j = Some y /\ edge f y x
}.

Lemma compute_rpo_spec : exists rpo, compute_rpo f = Ok rpo /\ is_rpo rpo.
Proof.
  unfold compute_rpo. rewrite (cw_entry _ _ Hwf).
  set (o := mkOrder [] (replicate MAX_BLOCKS false)).
  assert (Hnone : forall b, ~ marked f (visited o) b).
  { intros b (j & _ & Hj). by apply lookup_replicate in Hj as [? _]. }
  assert (Hun : (unmarked (visited o) <= MAX_BLOCKS)%nat).
  { unfold unmarked. etransitivity; [apply List.filter_length_le|]. cbn [visited o]. by rewrite length_replicate. }
  destruct (dfs_spec (S MAX_BLOCKS) e o (cw_in _ _ Hwf)) as (new & o' & -> & Hext & Hlast).
  { split; cbn [visited ord o length]; [by rewrite length_replicate|]. exact Hun. }
  { lia. }
  destruct (Hlast (Hnone e)) as [k Hk]. cbn [obind].
  assert (Hord : ord o' = new) by apply (de_ord Hext). rewrite Hord.
  exists (reverse new). split; [done|].
  assert (Hin : forall b, b ∈ reverse new <-> marked f (visited o') b).
  { intros b. rewrite (de_marked Hext), elem_of_reverse.
    pose proof (Hnone b). tauto. }
  split.
  - rewrite (reverse_Permutation new). apply (de_nodup Hext).
  - intros b. rewrite Hin. split.
    + intros [Hm|Hm]%(de_marked Hext); [by apply Hnone in Hm|].
      destruct (de_reach Hext b Hm) as (r & ->%list_elem_of_singleton & Hr). done.
    + intros Hr. apply (rtc_ind_r (R := edge f) (marked f (visited o')) e); [| |done].
      * apply (de_roots Hext). by apply list_elem_of_singleton.
      * intros x y _ Hxy Hx. eapply (de_closed Hext); [|done].
        apply (de_marked Hext) in Hx as [Hx|Hx]; [by apply Hnone in Hx|done].
  - by rewrite Hk, reverse_snoc.
  - rewrite length_reverse. pose proof (de_count Hext). lia.
  - intros i x Hx. pose proof (lookup_lt_Some _ _ _ Hx) as Hlt. rewrite length_reverse in Hlt.
    rewrite reverse_lookup in Hx by lia.
    destruct (de_parent Hext _ x Hx) as [->%list_elem_of_singleton|(j & y & Hj & Hy & He)].
    + assert (Hl : new !! (length new - 1)%nat = Some e).
      { rewrite Hk, length_app, Nat.add_sub. by apply list_lookup_middle. }
      pose proof (NoDup_lookup _ _ _ _ (de_nodup Hext) Hx Hl). lia.
    + pose proof (lookup_lt_Some _ _ _ Hy). exists (length new - S j)%nat, y. split_and!; [lia| |done].
      rewrite reverse_lookup by lia. rewrite <- Hy. f_equal. lia.
Qed.

End dfs.
