(* ===== verification/DomFacts.v ===== *)
(** * Correctness of the dominator computation

    [mir_compute_dominators] reaches its fixed point, where the chain of [idom]
    pointers of a reachable block is exactly the set of its dominators; the
    frontiers are those of the definition of Cytron et al. *)
From S2P Require Import Prelude MirCore MirGraph Dominators.

(** ** Dominance, by paths *)

(** [path f e l b]: [l] is a path from [e] to [b], last block first. *)
Inductive path (f : MirFunction) (e : nat) : list nat -> nat -> Prop :=
| path_entry : path f e [e] e
| path_step l b c : path f e l b -> edge f b c -> path f e (c :: l) c.

Definition dominates (f : MirFunction) (e d b : nat) : Prop := forall l, path f e l b -> d ∈ l.

Lemma dominates_refl f e b : dominates f e b b.
Proof. intros l Hl. inversion Hl; left. Qed.

Lemma dominates_entry f e d : dominates f e d e -> d = e.
Proof. intros H. apply list_elem_of_singleton, H. constructor. Qed.

(** A strict dominator of a block dominates every predecessor. *)
Lemma dominates_pred f e d p b : d <> b -> dominates f e d b -> edge f p b -> dominates f e d p.
Proof.
  intros Hne Hd He l Hl. specialize (Hd (b :: l) (path_step f e l p b Hl He)).
  by apply elem_of_cons in Hd as [->|Hd].
Qed.

(** ** Chains of [idom] pointers *)

(** [x] is [b] or one of its ancestors. *)
Definition anc (f : MirFunction) : nat -> nat -> Prop := rtc (fun b p => idom_of f b = Some p).

(** The parts of a function that dominator computation leaves alone. *)
Definition bare (b : MirBlock) : MirBlock :=
  with_idom None (with_dom_children [] (with_dom_frontier [] b)).
Definition same_code (f f' : MirFunction) : Prop :=
  map bare (blocks f') = map bare (blocks f) /\ with_blocks f' [] = with_blocks f [].

Lemma same_code_refl f : same_code f f.
Proof. by split. Qed.

Lemma same_code_trans f1 f2 f3 : same_code f1 f2 -> same_code f2 f3 -> same_code f1 f3.
Proof. intros [H1 H2] [H3 H4]. split; congruence. Qed.

Lemma same_code_list f f' : same_code f f' -> block_list f' = block_list f.
Proof. intros [_ H]. by apply (f_equal block_list) in H. Qed.

Lemma same_code_at f f' b blk : same_code f f' -> block_at f b = Some blk ->
  exists blk', block_at f' b = Some blk' /\ bare blk' = bare blk.
Proof.
  intros [H _] Hb. apply (f_equal (lookup b)) in H. rewrite !list_lookup_fmap in H.
  unfold block_at in *. rewrite Hb in H. simpl in H.
  destruct (blocks f' !! b) as [blk'|]; [|done]. apply (inj Some) in H. exists blk'. by split.
Qed.

(** [bare] keeps what the control flow graph is made of. *)
Lemma bare_fields b b' : bare b = bare b' ->
  id b = id b' /\ insts b = insts b' /\ predecessors b = predecessors b' /\ successors b = successors b'.
Proof. destruct b, b'. unfold bare, with_idom, with_dom_children, with_dom_frontier. by intros [= -> -> -> -> -> ->]. Qed.

Lemma same_code_upd f b g : (forall blk, bare (g blk) = bare blk) -> same_code f (upd_block f b g).
Proof.
  intros Hg. split; [|done]. simpl. apply list_eq. intros c. rewrite !list_lookup_fmap.
  destruct (decide (c = b)) as [->|Hne].
  - rewrite list_lookup_alter_eq. destruct (blocks f !! b); simpl; [by rewrite Hg|done].
  - by rewrite list_lookup_alter_ne.
Qed.

Section chains.
Context (f0 : MirFunction) (e : nat) (Hwf : cfg_wf f0 e).
Context (rpo : list nat) (Hrpo : is_rpo f0 e rpo).

Definition pos (b : nat) : nat := default 0%nat (find_idx (fun x => bool_decide (x = b)) rpo).

Lemma pos_lookup i b : rpo !! i = Some b -> pos b = i.
Proof.
  intros Hi. unfold pos. destruct (find_idx _ rpo) as [j|] eqn:Hj; simpl.
  - apply find_idx_Some in Hj as (x & Hx & ->%bool_decide_eq_true & _).
    exact (NoDup_lookup _ _ _ _ (rp_nodup _ _ _ Hrpo) Hx Hi).
  - rewrite find_idx_None in Hj. specialize (Hj b (list_elem_of_lookup_2 _ _ _ Hi)).
    by rewrite bool_decide_eq_false in Hj.
Qed.

Lemma lookup_pos b : b ∈ rpo -> rpo !! pos b = Some b.
Proof. intros [i Hi]%list_elem_of_lookup. by rewrite (pos_lookup _ _ Hi). Qed.

Lemma pos_inj b c : b ∈ rpo -> c ∈ rpo -> pos b = pos c -> b = c.
Proof. intros Hb%lookup_pos Hc%lookup_pos Heq. rewrite Heq in Hb. congruence. Qed.

Lemma pos_entry : pos e = 0%nat.
Proof. apply pos_lookup, Hrpo. Qed.

Lemma pos_bound b : b ∈ rpo -> (pos b < length rpo)%nat.
Proof. intros Hb%lookup_pos. by eapply lookup_lt_Some. Qed.

Definition proc (f : MirFunction) (b : nat) : Prop := is_Some (idom_of f b).

(** The [idom] pointers of the processed blocks form a tree below the entry,
    with the indices of the reverse post-order growing downwards. *)
Record tree (f : MirFunction) : Prop := {
  t_code : same_code f0 f;
  t_entry : idom_of f e = Some e;
  t_in : forall b, b ∈ block_list f0 -> proc f b -> b ∈ rpo;
  t_up : forall b p, b ∈ rpo -> b <> e -> idom_of f b = Some p ->
    p ∈ rpo /\ (pos p < pos b)%nat /\ proc f p
}.

Lemma entry_in : e ∈ rpo.
Proof. eapply list_elem_of_lookup_2, Hrpo. Qed.

Lemma anc_pos f b x : tree f -> b ∈ rpo -> proc f b -> anc f b x ->
  x ∈ rpo /\ proc f x /\ (pos x <= pos b)%nat.
Proof.
  intros Ht Hb Hp Ha. revert Hb Hp.
  induction Ha as [b|b p x Hbp _ IH]; intros Hb Hp; [auto|].
  destruct (decide (b = e)) as [->|Hne].
  - rewrite (t_entry _ Ht) in Hbp. injection Hbp as <-. auto.
  - destruct (t_up _ Ht b p Hb Hne Hbp) as (Hp1 & Hlt & Hp2).
    destruct (IH Hp1 Hp2) as (? & ? & ?). split_and!; [done|done|lia].
Qed.

(** The first step of a chain that goes on. *)
Lemma anc_inv f b x : anc f b x -> b = x \/ exists p, idom_of f b = Some p /\ anc f p x.
Proof. intros [->|(p & Hp & Hx)]%rtc_inv; [by left|right; eauto]. Qed.

Lemma anc_antisym f b x : tree f -> b ∈ rpo -> proc f b -> anc f b x -> anc f x b -> b = x.
Proof.
  intros Ht Hb Hp Hbx Hxb. destruct (anc_pos f b x Ht Hb Hp Hbx) as (Hx & Hpx & Hle).
  destruct (anc_pos f x b Ht Hx Hpx Hxb) as (_ & _ & Hle'). apply pos_inj; [done..|lia].
Qed.

(** Two ancestors of a block are comparable. *)
Lemma anc_linear f b x y : anc f b x -> anc f b y -> anc f x y \/ anc f y x.
Proof.
  intros Hx. revert y. induction Hx as [b|b p x Hbp Hpx IH]; intros y Hy; [by left|].
  apply anc_inv in Hy as [<-|(q & Hq & Hy)].
  - right. by eapply rtc_l.
  - rewrite Hbp in Hq. injection Hq as <-. by apply IH.
Qed.

Lemma anc_entry f b : tree f -> b ∈ rpo -> proc f b -> anc f b e.
Proof.
  intros Ht. remember (pos b) as n eqn:Hn. revert b Hn.
  induction n as [n IH] using lt_wf_ind. intros b -> Hb [p Hp].
  destruct (decide (b = e)) as [->|Hne]; [constructor|].
  destruct (t_up _ Ht b p Hb Hne Hp) as (Hp1 & Hlt & Hp2).
  eapply rtc_l; [exact Hp|]. by eapply IH.
Qed.

(** ** [intersect] finds the nearest common ancestor *)

Context (map_ : list Z).
Hypothesis Hmap : forall f b, same_code f0 f -> b ∈ rpo -> rpo_at f map_ b = Ok (Z.of_nat (pos b)).

Lemma climb_spec f fuel : tree f -> forall b1 b2,
  b1 ∈ rpo -> proc f b1 -> b2 ∈ rpo -> proc f b2 -> (pos b1 <= fuel)%nat ->
  exists c, climb fuel f map_ b1 b2 = Ok c /\ anc f b1 c /\ (pos c <= pos b2)%nat /\
    forall x, anc f b1 x -> anc f b2 x -> anc f c x.
Proof.
  intros Ht. induction fuel as [|fuel IH]; intros b1 b2 H1 Hp1 H2 Hp2 Hfuel; simpl;
    rewrite !Hmap by (done || apply Ht); cbn [obind];
    destruct (Z.ltb_spec (Z.of_nat (pos b2)) (Z.of_nat (pos b1))) as [Hlt|Hge]; try lia;
    try (exists b1; split_and!; [done|constructor|lia|done]).
  destruct Hp1 as [p Hp]. rewrite Hp. cbn [of_option obind].
  assert (Hne : b1 <> e) by (intros ->; rewrite pos_entry in Hlt; lia).
  destruct (t_up _ Ht b1 p H1 Hne Hp) as (Hpr & Hplt & Hpp).
  destruct (IH p b2) as (c & -> & Hc & Hle & Hx); [done..|lia|].
  exists c. split_and!; [done|by eapply rtc_l|done|].
  intros x Hx1 Hx2. apply Hx; [|done].
  apply anc_inv in Hx1 as [<-|(q & Hq & Hx1)]; [|congruence].
  destruct (anc_pos f b2 b1 Ht H2 Hp2 Hx2) as (_ & _ & ?). lia.
Qed.

#[local] Arguments climb : simpl never.

Lemma intersect_spec f fuel : tree f -> forall b1 b2,
  b1 ∈ rpo -> proc f b1 -> b2 ∈ rpo -> proc f b2 -> (pos b1 + pos b2 <= fuel)%nat ->
  exists n, intersect fuel f map_ b1 b2 = Ok n /\ anc f b1 n /\ anc f b2 n /\
    forall x, anc f b1 x -> anc f b2 x -> anc f n x.
Proof.
  intros Ht. induction fuel as [|fuel IH]; intros b1 b2 H1 Hp1 H2 Hp2 Hfuel; simpl;
    destruct (decide (b1 = b2)) as [->|Hne]; try (exists b2; split_and!; auto; constructor).
  - destruct Hne. apply pos_inj; [done..|lia].
  - pose proof (rp_size _ _ _ Hrpo). pose proof (pos_bound b1 H1). pose proof (pos_bound b2 H2).
    destruct (climb_spec f MAX_BLOCKS Ht b1 b2) as (c1 & -> & Hc1 & Hle1 & Hx1); [done..|lia|].
    cbn [obind]. destruct (anc_pos f b1 c1 Ht H1 Hp1 Hc1) as (Hc1r & Hc1p & Hc1le).
    destruct (climb_spec f MAX_BLOCKS Ht b2 c1) as (c2 & -> & Hc2 & Hle2 & Hx2); [done..|lia|].
    cbn [obind]. destruct (anc_pos f b2 c2 Ht H2 Hp2 Hc2) as (Hc2r & Hc2p & Hc2le).
    destruct (IH c1 c2) as (n & -> & Hn1 & Hn2 & Hn); [done..| |].
    + destruct (decide (pos b1 = pos b2)) as [Heq|]; [by destruct Hne; apply pos_inj|]. lia.
    + exists n. split_and!; [done|by etrans..|]. intros x Hxb1 Hxb2.
      assert (anc f c1 x) by auto. apply Hn; [done|]. by apply Hx2.
Qed.

(** ** The nearest common ancestor of the processed predecessors *)

Lemma same_block f b : same_code f0 f -> b ∈ block_list f0 ->
  exists blk0 blk, block_at f0 b = Some blk0 /\ block_at f b = Some blk /\ bare blk = bare blk0.
Proof.
  intros Hs [i Hi]%list_elem_of_lookup. destruct (cw_ids _ _ Hwf i b Hi) as (blk0 & Hb & _).
  destruct (same_code_at _ _ _ _ Hs Hb) as (blk & Hb' & Hbare). eauto.
Qed.

Lemma proc_block f b blk : block_at f b = Some blk -> idom_of f b = idom blk.
Proof. intros Hb. unfold idom_of. by rewrite Hb. Qed.

Record is_meet (f : MirFunction) (preds : list nat) (n : nat) : Prop := {
  me_in : n ∈ rpo;
  me_some : exists p, p ∈ preds /\ proc f p;
  me_proc : proc f n;
  me_anc : forall p, p ∈ preds -> proc f p -> anc f p n;
  me_nearest : forall x, (forall p, p ∈ preds -> proc f p -> anc f p x) -> anc f n x
}.

Lemma meet_loop f : tree f -> forall preds n0,
  (forall p, p ∈ preds -> p ∈ block_list f0) -> n0 ∈ rpo -> proc f n0 ->
  exists n, ofold (meet_pred f map_) preds n0 = Ok n /\ n ∈ rpo /\ proc f n /\ anc f n0 n /\
    (forall p, p ∈ preds -> proc f p -> anc f p n) /\
    forall x, anc f n0 x -> (forall p, p ∈ preds -> proc f p -> anc f p x) -> anc f n x.
Proof.
  intros Ht. induction preds as [|p preds IH]; intros n0 Hin H0 Hp0; cbn [ofold].
  { exists n0. split_and!; [done..|constructor| |auto]. intros p Hp. by apply not_elem_of_nil in Hp. }
  assert (Hone : exists n1, meet_pred f map_ p n0 = Ok n1 /\ n1 ∈ rpo /\ proc f n1 /\ anc f n0 n1 /\
    (proc f p -> anc f p n1) /\ forall x, anc f n0 x -> (proc f p -> anc f p x) -> anc f n1 x).
  { unfold meet_pred. destruct (decide (p = n0)) as [->|Hne].
    { exists n0. split_and!; auto; constructor. }
    destruct (same_block f p (t_code _ Ht)) as (_ & pb & _ & Hpb & _); [apply Hin; left|].
    rewrite Hpb. cbn [of_option obind]. pose proof (proc_block f p pb Hpb) as Hid.
    destruct (idom pb) as [q|] eqn:Hq.
    - assert (Hpp : proc f p) by (unfold proc; rewrite Hid; eauto).
      assert (Hpr : p ∈ rpo) by (apply (t_in _ Ht); [apply Hin; left|done]).
      pose proof (rp_size _ _ _ Hrpo). pose proof (pos_bound p Hpr). pose proof (pos_bound n0 H0).
      destruct (intersect_spec f (S (2 * MAX_BLOCKS)) Ht p n0) as (n & -> & Hn1 & Hn2 & Hx); [done..|lia|].
      destruct (anc_pos f p n Ht Hpr Hpp Hn1) as (? & ? & _). exists n. split_and!; auto.
    - exists n0. split_and!; auto; [constructor|]. unfold proc. rewrite Hid. by intros []. }
  destruct Hone as (n1 & -> & Hn1 & Hp1 & Ha1 & Hpa1 & Hx1). cbn [obind].
  destruct (IH n1) as (n & Hn & Hnr & Hnp & Han & Hall & Hx); [intros q Hq; apply Hin; by right|done..|].
  exists n. split_and!; [done..|by etrans| |].
  - intros q [->|Hq]%elem_of_cons Hqp; [|by apply Hall]. etrans; [by apply Hpa1|done].
  - intros x Hx0 Hxp. apply Hx; [|intros q Hq; apply Hxp; by right].
    apply Hx1; [done|]. apply Hxp. left.
Qed.

Lemma first_processed_spec f : same_code f0 f -> forall preds,
  (forall p, p ∈ preds -> p ∈ block_list f0) -> (exists p, p ∈ preds /\ proc f p) ->
  exists q, first_processed f preds = Ok (Some q) /\ q ∈ preds /\ proc f q.
Proof.
  intros Hs. induction preds as [|p preds IH]; intros Hin (q & Hq & Hqp); simpl.
  { by apply not_elem_of_nil in Hq. }
  destruct (same_block f p Hs) as (_ & pb & _ & Hpb & _); [apply Hin; left|].
  rewrite Hpb. cbn [of_option obind]. pose proof (proc_block f p pb Hpb) as Hid.
  destruct (idom pb) as [x|] eqn:Hx.
  - exists p. split_and!; [done|left|]. unfold proc. rewrite Hid. eauto.
  - destruct IH as (r & Hr & Hrin & Hrp); [intros r Hr; apply Hin; by right| |].
    + exists q. apply elem_of_cons in Hq as [->|Hq]; [|done].
      unfold proc in Hqp. rewrite Hid in Hqp. by destruct Hqp.
    + exists r. split_and!; [done|by right|done].
Qed.

(** The predecessors of a block, in every state of the computation. *)
Definition preds_of (b : nat) : list nat := default [] (predecessors <$> block_at f0 b).

Definition idom_set (f : MirFunction) (b n : nat) : MirFunction := upd_block f b (with_idom (Some n)).

Lemma rpo_in_list b : b ∈ rpo -> b ∈ block_list f0.
Proof.
  intros Hb%(rp_reach _ _ _ Hrpo).
  eapply (rtc_ind_r (R := edge f0) (fun c => c ∈ block_list f0) e); [apply Hwf| |done].
  intros x y _ (xb & Hxb & Hy) Hx. eapply (cw_closed _ _ Hwf); eauto.
Qed.

Lemma preds_in b p : b ∈ rpo -> p ∈ preds_of b -> p ∈ block_list f0 /\ edge f0 p b.
Proof.
  intros Hb Hp. unfold preds_of in Hp. destruct (block_at f0 b) as [blk|] eqn:Hblk; simpl in Hp.
  - by apply (cw_preds _ _ Hwf b blk); [apply rpo_in_list|..].
  - by apply not_elem_of_nil in Hp.
Qed.

Lemma edge_pred p b : p ∈ rpo -> b ∈ rpo -> edge f0 p b -> p ∈ preds_of b.
Proof.
  intros Hp%rpo_in_list Hb%rpo_in_list He. pose proof Hb as [i Hi]%list_elem_of_lookup.
  destruct (cw_ids _ _ Hwf i b Hi) as (blk & Hblk & _). unfold preds_of. rewrite Hblk. simpl.
  by apply (cw_preds _ _ Hwf b blk).
Qed.

Lemma update_idom_spec f bb c : tree f -> bb ∈ rpo ->
  (exists p, p ∈ preds_of bb /\ proc f p) ->
  exists n, is_meet f (preds_of bb) n /\
    update_idom map_ bb (f, c) =
    Ok (if decide (idom_of f bb = Some n) then (f, c) else (idom_set f bb n, true)).
Proof.
  intros Ht Hbb Hex. unfold update_idom.
  destruct (same_block f bb (t_code _ Ht) (rpo_in_list bb Hbb)) as (blk0 & blk & H0 & Hblk & Hbare).
  assert (Hpr : predecessors blk = preds_of bb).
  { unfold preds_of. rewrite H0. simpl. by apply bare_fields. }
  rewrite Hblk. cbn [of_option obind]. rewrite Hpr.
  assert (Hin : forall p, p ∈ preds_of bb -> p ∈ block_list f0) by (intros p Hp; by eapply preds_in).
  destruct (first_processed_spec f (t_code _ Ht) (preds_of bb) Hin Hex) as (q & -> & Hq & Hqp).
  cbn [obind]. assert (Hqr : q ∈ rpo) by (apply (t_in _ Ht); auto).
  destruct (meet_loop f Ht (preds_of bb) q Hin Hqr Hqp) as (n & -> & Hnr & Hnp & Hqn & Hall & Hx).
  cbn [obind]. exists n. rewrite (proc_block f bb blk Hblk). split; [|by destruct (decide _)].
  split; auto.
Qed.

(** ** What an update does to the chains *)

Lemma idom_set_at f b n c : b ∈ rpo -> same_code f0 f ->
  idom_of (idom_set f b n) c = if decide (c = b) then Some n else idom_of f c.
Proof.
  intros Hb Hs. destruct (same_block f b Hs (rpo_in_list b Hb)) as (_ & blk & _ & Hblk & _).
  unfold idom_of, idom_set. rewrite block_at_upd. destruct (decide (c = b)) as [->|]; [|done].
  by rewrite Hblk.
Qed.

Lemma idom_set_code f b n : same_code f0 f -> same_code f0 (idom_set f b n).
Proof. intros H. eapply same_code_trans; [exact H|]. by apply same_code_upd. Qed.

(** The forward predecessor every block but the entry has. *)
Lemma forward_pred b : b ∈ rpo -> b <> e ->
  exists p, p ∈ preds_of b /\ p ∈ rpo /\ (pos p < pos b)%nat.
Proof.
  intros Hb Hne. pose proof (lookup_pos b Hb) as Hl. destruct (pos b) as [|i] eqn:Hi.
  { rewrite (rp_head _ _ _ Hrpo) in Hl. congruence. }
  destruct (rp_parent _ _ _ Hrpo i b Hl) as (j & p & Hj & Hp & He).
  assert (Hpr : p ∈ rpo) by (by eapply list_elem_of_lookup_2). exists p.
  split_and!; [by apply edge_pred|done|]. rewrite (pos_lookup _ _ Hp). lia.
Qed.

(** One update: [bb] gets the parent [n] above it. *)
Section update.
Context (f : MirFunction) (Ht : tree f) (bb n : nat) (Hbb : bb ∈ rpo) (Hbe : bb <> e).
Context (Hn : n ∈ rpo) (Hnp : proc f n) (Hlt : (pos n < pos bb)%nat).

Abbreviation f' := (idom_set f bb n).

Lemma upd_at c : idom_of f' c = if decide (c = bb) then Some n else idom_of f c.
Proof. apply idom_set_at; [done|apply Ht]. Qed.

Lemma upd_proc c : proc f' c <-> c = bb \/ proc f c.
Proof.
  unfold proc. rewrite upd_at. destruct (decide (c = bb)) as [->|Hne]; [by split; [left|eauto]|].
  intuition congruence.
Qed.

Lemma upd_tree : tree f'.
Proof.
  split.
  - apply idom_set_code, Ht.
  - rewrite upd_at, decide_False by done. apply Ht.
  - intros b Hb [->|Hp]%upd_proc; [done|]. by apply (t_in _ Ht).
  - intros b p Hb Hne Hp. rewrite upd_at in Hp. rewrite upd_proc.
    destruct (decide (b = bb)) as [->|Hnb].
    + injection Hp as <-. auto.
    + destruct (t_up _ Ht b p Hb Hne Hp) as (? & ? & ?). auto.
Qed.

(** A chain reaches [bb] or goes as before. *)
Lemma upd_agree b x : anc f b x -> anc f b bb \/ anc f' b x.
Proof.
  induction 1 as [b|b p x Hbp _ IH]; [right; constructor|].
  destruct (decide (b = bb)) as [->|Hne]; [left; constructor|].
  destruct IH as [IH|IH]; [left; by eapply rtc_l|right]. eapply rtc_l; [|exact IH].
  by rewrite upd_at, decide_False.
Qed.

(** Blocks at or below [bb] in the order stay in the chain. *)
Lemma upd_keep b x : b ∈ rpo -> proc f b -> anc f b x -> (pos bb <= pos x)%nat -> anc f' b x.
Proof.
  intros Hb Hp Ha Hx. revert Hb Hp. induction Ha as [b|b p x Hbp Hpx IH]; intros Hb Hp; [constructor|].
  destruct (decide (b = e)) as [->|Hne].
  { rewrite (t_entry _ Ht) in Hbp. injection Hbp as <-. auto. }
  destruct (t_up _ Ht b p Hb Hne Hbp) as (Hpr & Hplt & Hpp).
  destruct (anc_pos f p x Ht Hpr Hpp Hpx) as (_ & _ & Hle).
  eapply rtc_l; [|by apply IH]. rewrite upd_at, decide_False; [done|]. intros ->. lia.
Qed.

(** Above [bb] nothing changes. *)
Lemma upd_low b x : b ∈ rpo -> proc f b -> (pos b < pos bb)%nat -> anc f b x <-> anc f' b x.
Proof.
  intros Hb Hp Hlow. split.
  - intros Ha. destruct (upd_agree b x Ha) as [Hbad|]; [|done].
    destruct (anc_pos f b bb Ht Hb Hp Hbad) as (_ & _ & ?). lia.
  - intros Ha. revert Hb Hp Hlow. induction Ha as [b|b p x Hbp _ IH]; intros Hb Hp Hlow; [constructor|].
    rewrite upd_at, decide_False in Hbp by (intros ->; lia).
    destruct (decide (b = e)) as [->|Hne].
    { rewrite (t_entry _ Ht) in Hbp. injection Hbp as <-. auto. }
    destruct (t_up _ Ht b p Hb Hne Hbp) as (Hpr & Hplt & Hpp).
    eapply rtc_l; [exact Hbp|]. apply IH; [done..|lia].
Qed.

(** When [n] was already above [bb], chains only shrink. *)
Lemma upd_shrink b x : anc f bb n -> anc f' b x -> anc f b x.
Proof.
  intros Hbn. induction 1 as [b|b p x Hbp _ IH]; [constructor|].
  rewrite upd_at in Hbp. destruct (decide (b = bb)) as [->|Hne].
  - injection Hbp as <-. by etrans.
  - by eapply rtc_l.
Qed.
End update.

(** ** The invariant of the iteration

    [i] is the place in the order the pass has come to, [first] tells the
    first pass.  A dominator never leaves the chain; the meet of the
    predecessors lies above the present parent; a forward predecessor still
    has the parent's chain above it, up to the blocks the pass has changed
    since. *)
Record loop_inv (first : bool) (i : nat) (f : MirFunction) : Prop := {
  li_tree : tree f;
  li_done : forall b, b ∈ rpo -> first = false \/ (pos b < i)%nat -> proc f b;
  li_todo : first = true -> forall b, b ∈ rpo -> (i <= pos b)%nat -> ~ proc f b;
  li_dom : forall b p d, b ∈ rpo -> b <> e -> idom_of f b = Some p -> d <> b ->
    dominates f0 e d b -> dominates f0 e d p;
  li_meet : forall b z x, b ∈ rpo -> b <> e -> idom_of f b = Some z ->
    (forall p, p ∈ preds_of b -> proc f p -> anc f p x) -> anc f z x;
  li_fwd : forall b z p w, b ∈ rpo -> b <> e -> idom_of f b = Some z ->
    p ∈ preds_of b -> p ∈ rpo -> (pos p < pos b)%nat -> anc f z w ->
    (pos b < i)%nat \/ (i <= pos w)%nat -> anc f p w
}.

(** Going up a chain, a dominator is met or stays one. *)
Lemma dom_up first i f d p n : loop_inv first i f -> p ∈ rpo -> proc f p -> anc f p n ->
  dominates f0 e d p -> dominates f0 e d n \/ anc f p d /\ anc f d n.
Proof.
  intros Hi Hp Hpp Ha. revert Hp Hpp. induction Ha as [p|p q n Hpq Hqn IH]; intros Hp Hpp Hd; [by left|].
  destruct (decide (p = e)) as [->|Hne].
  { rewrite (t_entry _ (li_tree _ _ _ Hi)) in Hpq. injection Hpq as <-. by apply IH. }
  destruct (t_up _ (li_tree _ _ _ Hi) p q Hp Hne Hpq) as (Hq & _ & Hqp).
  destruct (decide (d = p)) as [->|Hdp].
  - right. split; [constructor|]. by eapply rtc_l.
  - destruct IH as [?|[? ?]]; [done|done| |by left|right].
    + by apply (li_dom _ _ _ Hi p q d).
    + split; [by eapply rtc_l|done].
Qed.

Lemma dom_meet first i f bb n d : loop_inv first i f -> bb ∈ rpo -> is_meet f (preds_of bb) n ->
  d <> bb -> dominates f0 e d bb -> dominates f0 e d n.
Proof.
  intros Hi Hbb Hm Hne Hd. pose proof (li_tree _ _ _ Hi) as Ht.
  assert (Hall : dominates f0 e d n \/
    forall p, p ∈ preds_of bb -> proc f p -> anc f p d /\ anc f d n).
  { assert (Hsub : forall p, p ∈ preds_of bb -> p ∈ preds_of bb) by done.
    revert Hsub. generalize (preds_of bb) at 1 3 as l.
    induction l as [|p l IH]; intros Hsub.
    { right. intros p Hp. by apply not_elem_of_nil in Hp. }
    destruct IH as [IH|IH]; [intros q Hq; apply Hsub; by right|by left|].
    assert (Hp : p ∈ preds_of bb) by (apply Hsub; left).
    destruct (preds_in bb p Hbb Hp) as [Hpl He].
    destruct (idom_of f p) as [z|] eqn:Hz.
    - assert (Hpp : proc f p) by (unfold proc; eauto).
      destruct (dom_up first i f d p n Hi) as [?|Hdn]; [by apply (t_in _ Ht)|done|by apply Hm| |by left|].
      { by apply (dominates_pred f0 e d p bb). }
      right. intros q [->|Hq]%elem_of_cons Hqp; auto.
    - right. intros q [->|Hq]%elem_of_cons Hqp; auto. destruct Hqp. congruence. }
  destruct Hall as [?|Hall]; [done|].
  assert (Hnd : anc f n d) by (apply (me_nearest _ _ _ Hm); intros; by apply Hall).
  destruct (me_some _ _ _ Hm) as (p & Hp & Hpp). destruct (Hall p Hp Hpp) as [_ Hdn].
  rewrite <- (anc_antisym f n d Ht (me_in _ _ _ Hm) (me_proc _ _ _ Hm) Hnd Hdn). apply dominates_refl.
Qed.

(** The meet lies before the block. *)
Lemma meet_pos first i f bb n : loop_inv first i f -> bb ∈ rpo -> bb <> e -> (pos bb <= i)%nat ->
  is_meet f (preds_of bb) n ->
  (pos n < pos bb)%nat /\ forall p, p ∈ preds_of bb -> p ∈ rpo -> (pos p < pos bb)%nat -> anc f p n.
Proof.
  intros Hi Hbb Hbe Hle Hm. pose proof (li_tree _ _ _ Hi) as Ht.
  assert (Hfwd : forall p, p ∈ preds_of bb -> p ∈ rpo -> (pos p < pos bb)%nat -> anc f p n).
  { intros p Hp Hpr Hlt. apply Hm; [done|]. apply (li_done _ _ _ Hi p Hpr). right. lia. }
  split; [|done]. destruct (forward_pred bb Hbb Hbe) as (p & Hp & Hpr & Hlt).
  assert (Hpp : proc f p) by (apply (li_done _ _ _ Hi p Hpr); right; lia).
  destruct (anc_pos f p n Ht Hpr Hpp (Hfwd p Hp Hpr Hlt)) as (_ & _ & ?). lia.
Qed.

(** A block that keeps its parent. *)
Lemma inv_keep first i f bb n : loop_inv first i f -> bb ∈ rpo -> bb <> e -> pos bb = i ->
  is_meet f (preds_of bb) n -> idom_of f bb = Some n -> loop_inv first (S i) f.
Proof.
  intros Hi Hbb Hbe Hpos Hm Hid.
  destruct (meet_pos first i f bb n Hi Hbb Hbe ltac:(lia) Hm) as [_ Hfwd]. destruct Hi as [Ht Hdone Htodo Hdom Hmeet Hf].
  split; auto.
  - intros b Hb [->|Hlt]; [by apply Hdone; [|left]|]. destruct (decide (b = bb)) as [->|Hne].
    + unfold proc. eauto.
    + apply Hdone; [done|right]. assert (pos b <> pos bb) by (intros ?; by apply Hne, pos_inj). lia.
  - intros -> b Hb Hle. apply Htodo; [done..|lia].
  - intros b z p w Hb Hbne Hz Hp Hpr Hlt Ha Hor. destruct (decide (b = bb)) as [->|Hne].
    + rewrite Hid in Hz. injection Hz as <-. etrans; [by apply Hfwd|done].
    + apply (Hf b z p w); [done..|]. assert (pos b <> pos bb) by (intros ?; by apply Hne, pos_inj). lia.
Qed.

(** A block that gets its first parent, in the first pass. *)
Section first_visit.
Context (f : MirFunction) (bb n : nat) (Hi : loop_inv true (pos bb) f).
Context (Hbb : bb ∈ rpo) (Hbe : bb <> e) (Hm : is_meet f (preds_of bb) n).

Abbreviation f' := (idom_set f bb n).

Lemma first_facts : (pos n < pos bb)%nat /\ tree f' /\
  (forall p, p ∈ preds_of bb -> p ∈ rpo -> (pos p < pos bb)%nat -> anc f p n) /\
  forall b, b ∈ rpo -> proc f b -> (pos b < pos bb)%nat /\ forall x, anc f b x <-> anc f' b x.
Proof.
  destruct (meet_pos true _ f bb n Hi Hbb Hbe ltac:(lia) Hm) as [Hlt Hfwd]. split_and!; [done| |done|].
  - apply upd_tree; try done; [apply Hi|apply Hm|apply Hm].
  - intros b Hb Hp. assert (Hpos : (pos b < pos bb)%nat).
    { destruct (decide (pos b < pos bb)%nat) as [|Hge]; [done|].
      by destruct (li_todo _ _ _ Hi eq_refl b Hb ltac:(lia)). }
    split; [done|]. intros x. apply upd_low; try done. apply Hi.
Qed.

Lemma inv_first : loop_inv true (S (pos bb)) f'.
Proof.
  destruct first_facts as (Hlt & Ht' & Hfwd & Hlow). pose proof (li_tree _ _ _ Hi) as Ht.
  assert (Hproc : forall c, proc f' c <-> c = bb \/ proc f c) by (intros c; by apply upd_proc).
  assert (Hat : forall c, idom_of f' c = if decide (c = bb) then Some n else idom_of f c)
    by (intros c; by apply upd_at).
  assert (Hpred : forall b p, b ∈ rpo -> p ∈ preds_of b -> proc f p -> p ∈ rpo).
  { intros b p Hb Hp Hpp. apply (t_in _ Ht); [|done]. by eapply preds_in. }
  assert (Hzin : forall b z, b ∈ rpo -> b <> e -> idom_of f b = Some z -> z ∈ rpo /\ proc f z).
  { intros b z Hb Hne Hz. by destruct (t_up _ Ht b z Hb Hne Hz) as (? & _ & ?). }
  split; [done|..].
  - intros b Hb [?|Hle]; [done|]. apply Hproc. destruct (decide (b = bb)) as [|Hne]; [by left|right].
    apply (li_done _ _ _ Hi b Hb). right. assert (pos b <> pos bb) by (intros ?; by apply Hne, pos_inj). lia.
  - intros _ b Hb Hle [->|Hp]%Hproc; [lia|]. destruct (Hlow b Hb Hp). lia.
  - intros b p d Hb Hne Hp Hd. rewrite Hat in Hp. destruct (decide (b = bb)) as [->|_].
    + injection Hp as <-. by apply (dom_meet true (pos bb) f bb).
    + by apply (li_dom _ _ _ Hi b p d).
  - intros b z x Hb Hne Hz Hall. rewrite Hat in Hz.
    assert (Hallf : forall p, p ∈ preds_of b -> proc f p -> anc f p x).
    { intros p Hp Hpp. apply Hlow; [by eapply Hpred|done|]. apply Hall; [done|]. apply Hproc. by right. }
    destruct (decide (b = bb)) as [->|_].
    + injection Hz as <-. apply Hlow; [apply Hm|apply Hm|]. by apply Hm.
    + destruct (Hzin b z Hb Hne Hz). apply Hlow; [done..|]. by apply (li_meet _ _ _ Hi b z x).
  - intros b z p w Hb Hne Hz Hp Hpr Hplt Ha _. rewrite Hat in Hz. destruct (decide (b = bb)) as [->|_].
    + injection Hz as <-. assert (Hpp : proc f p) by (apply (li_done _ _ _ Hi p Hpr); by right).
      etrans; [|exact Ha]. apply Hlow; [done..|]. by apply Hfwd.
    + destruct (Hzin b z Hb Hne Hz) as [Hzr Hzp]. assert (Hbp : proc f b) by (unfold proc; eauto).
      destruct (Hlow b Hb Hbp) as [Hblt _].
      assert (Hpp : proc f p) by (apply (li_done _ _ _ Hi p Hpr); right; lia).
      apply Hlow; [done..|]. apply (li_fwd _ _ _ Hi b z p w); auto. by apply Hlow.
Qed.
End first_visit.

(** A block that moves up to an ancestor, in a later pass. *)
Section later_visit.
Context (f : MirFunction) (bb o n : nat) (Hi : loop_inv false (pos bb) f).
Context (Hbb : bb ∈ rpo) (Hbe : bb <> e) (Hm : is_meet f (preds_of bb) n).
Context (Ho : idom_of f bb = Some o).

Abbreviation f' := (idom_set f bb n).

Lemma all_proc b : b ∈ rpo -> proc f b.
Proof. intros Hb. apply (li_done _ _ _ Hi b Hb). by left. Qed.

Lemma later_above : anc f o n.
Proof. apply (li_meet _ _ _ Hi bb o n); [done..|]. apply Hm. Qed.

Lemma later_shrinks : o <> n -> (pos n < pos o)%nat.
Proof.
  intros Hne. destruct (t_up _ (li_tree _ _ _ Hi) bb o Hbb Hbe Ho) as (Hor & _ & Hop).
  destruct (anc_pos f o n (li_tree _ _ _ Hi) Hor Hop later_above) as (Hnr & _ & Hle).
  assert (pos o <> pos n) by (intros ?; by apply Hne, pos_inj). lia.
Qed.

Lemma inv_later : loop_inv false (S (pos bb)) f'.
Proof.
  destruct (meet_pos false _ f bb n Hi Hbb Hbe ltac:(lia) Hm) as [Hlt Hfwd].
  pose proof (li_tree _ _ _ Hi) as Ht.
  assert (Ht' : tree f') by (apply upd_tree; try done; apply Hm).
  assert (Hat : forall c, idom_of f' c = if decide (c = bb) then Some n else idom_of f c)
    by (intros c; by apply upd_at).
  assert (Hproc : forall b, b ∈ rpo -> proc f' b) by (intros b Hb; apply upd_proc; auto using all_proc).
  assert (Hsh : forall b x, anc f' b x -> anc f b x).
  { intros b x. apply upd_shrink; [done..|]. eapply rtc_l; [exact Ho|]. apply later_above. }
  assert (Hkeep : forall b x, b ∈ rpo -> anc f b x -> (pos bb <= pos x)%nat -> anc f' b x).
  { intros b x Hb. apply upd_keep; [done..|by apply all_proc]. }
  assert (Hlow : forall b x, b ∈ rpo -> (pos b < pos bb)%nat -> anc f b x -> anc f' b x).
  { intros b x Hb Hl. apply upd_low; try done; [by apply all_proc]. }
  assert (Hpred : forall b p, b ∈ rpo -> p ∈ preds_of b -> proc f p -> p ∈ rpo).
  { intros b p Hb Hp Hpp. apply (t_in _ Ht); [|done]. by eapply preds_in. }
  split; [done|..].
  - intros b Hb _. by apply Hproc.
  - done.
  - intros b p d Hb Hne Hp Hd. rewrite Hat in Hp. destruct (decide (b = bb)) as [->|_].
    + injection Hp as <-. by apply (dom_meet false (pos bb) f bb).
    + by apply (li_dom _ _ _ Hi b p d).
  - intros b z x Hb Hne Hz Hall. rewrite Hat in Hz.
    assert (Hallf : forall p, p ∈ preds_of b -> proc f p -> anc f p x).
    { intros p Hp Hpp. apply Hsh, Hall; [done|]. apply Hproc. by eapply Hpred. }
    destruct (decide (b = bb)) as [->|Hnb].
    { injection Hz as <-. apply Hlow; [apply Hm|done|]. by apply Hm. }
    assert (Hzx : anc f z x) by (by apply (li_meet _ _ _ Hi b z x)).
    destruct (t_up _ Ht b z Hb Hne Hz) as (Hzr & Hzlt & Hzp).
    destruct (upd_agree f Ht bb n Hbb z x Hzx) as [Hzb|]; [|done].
    (* [z] is below [bb]: a forward predecessor of [b] is below [bb] too *)
    destruct (anc_pos f z bb Ht Hzr Hzp Hzb) as (_ & _ & Hle).
    destruct (forward_pred b Hb Hne) as (p & Hp & Hpr & Hplt).
    assert (Hpb : anc f p bb) by (apply (li_fwd _ _ _ Hi b z p bb); auto; by right).
    assert (Hpx : anc f' p x) by (apply Hall; auto).
    destruct (anc_linear f' p bb x) as [Hbx|Hxb]; [by apply Hkeep|done| |].
    + etrans; [|exact Hbx]. by apply Hkeep.
    + apply Hkeep; [done..|]. apply Hsh in Hxb.
      assert (Hxr : x ∈ rpo) by (by eapply (anc_pos f z x Ht)).
      destruct (anc_pos f x bb Ht Hxr (all_proc x Hxr) Hxb) as (_ & _ & ?). lia.
  - intros b z p w Hb Hne Hz Hp Hpr Hplt Ha Hor. rewrite Hat in Hz. destruct (decide (b = bb)) as [->|Hnb].
    { injection Hz as <-. etrans; [|exact Ha]. apply Hlow; [done..|]. by apply Hfwd. }
    assert (Hne2 : pos b <> pos bb) by (intros ?; by apply Hnb, pos_inj).
    assert (Hpw : anc f p w) by (apply (li_fwd _ _ _ Hi b z p w); auto; lia).
    destruct (decide (pos b < pos bb)%nat) as [Hb1|Hb1].
    + apply Hlow; [done|lia|done].
    + apply Hkeep; [done..|lia].
Qed.
End later_visit.

(** ** The passes *)

Definition weight (f : MirFunction) : nat :=
  sum_list_with (fun b => pos (default e (idom_of f b))) rpo.

Definition fixed_on (l : list nat) (f : MirFunction) : Prop :=
  forall b, b ∈ l -> exists n, idom_of f b = Some n /\ is_meet f (preds_of b) n.

Lemma weight_later f bb o n : same_code f0 f -> bb ∈ rpo -> idom_of f bb = Some o -> (pos n < pos o)%nat ->
  (weight (idom_set f bb n) < weight f)%nat.
Proof.
  intros Hs Hbb Ho Hlt. apply (sum_list_with_lt _ _ _ bb); [|done|].
  - intros b _. rewrite idom_set_at by done. destruct (decide (b = bb)) as [->|]; [|done].
    rewrite Ho. simpl. lia.
  - rewrite idom_set_at by done. rewrite decide_True, Ho by done. done.
Qed.

Lemma visit_spec first f bb c : loop_inv first (pos bb) f -> bb ∈ rpo -> bb <> e ->
  exists f' c', update_idom map_ bb (f, c) = Ok (f', c') /\ loop_inv first (S (pos bb)) f' /\
    (c' = false -> c = false /\ f' = f /\ fixed_on [bb] f) /\
    (first = false -> (f', c') = (f, c) \/ c' = true /\ (weight f' < weight f)%nat).
Proof.
  intros Hi Hbb Hbe. pose proof (li_tree _ _ _ Hi) as Ht.
  destruct (update_idom_spec f bb c Ht Hbb) as (n & Hm & ->).
  { destruct (forward_pred bb Hbb Hbe) as (p & Hp & Hpr & Hlt). exists p. split; [done|].
    apply (li_done _ _ _ Hi p Hpr). by right. }
  destruct (decide (idom_of f bb = Some n)) as [Hid|Hid]; eexists _, _; (split; [reflexivity|]).
  - split_and!; [by apply (inv_keep first (pos bb) f bb n)| |by left].
    intros ->. split_and!; [done..|]. intros b ->%list_elem_of_singleton. eauto.
  - destruct first.
    + split_and!; [by apply inv_first|done|done].
    + destruct (all_proc f bb Hi bb Hbb) as [o Ho].
      assert (Hlt : (pos n < pos o)%nat) by (apply (later_shrinks f bb o n); congruence).
      split_and!; [by apply (inv_later f bb o)|done|]. intros _. right. split; [done|].
      by apply (weight_later f bb o n (t_code _ Ht)).
Qed.

Lemma pass_spec first l : forall pre f c,
  rpo = pre ++ l -> (0 < length pre)%nat -> loop_inv first (length pre) f ->
  exists f' c', ofold (update_idom map_) l (f, c) = Ok (f', c') /\ loop_inv first (length rpo) f' /\
    (c' = false -> c = false /\ f' = f /\ fixed_on l f) /\
    (first = false -> (f', c') = (f, c) \/ c' = true /\ (weight f' < weight f)%nat).
Proof.
  induction l as [|bb l IH]; intros pre f c Hpre H0 Hi; cbn [ofold].
  - exists f, c. rewrite app_nil_r in Hpre. subst pre. split_and!; [done..| |by left].
    intros ->. split_and!; [done..|]. intros b Hb. by apply not_elem_of_nil in Hb.
  - assert (Hl : rpo !! length pre = Some bb) by (rewrite Hpre; by apply list_lookup_middle).
    assert (Hbb : bb ∈ rpo) by (by eapply list_elem_of_lookup_2).
    pose proof (pos_lookup _ _ Hl) as Hpos. rewrite <- Hpos in Hi.
    destruct (visit_spec first f bb c Hi Hbb) as (f1 & c1 & -> & Hi1 & Hc1 & Hw1).
    { intros ->. rewrite pos_entry in Hpos. lia. }
    cbn [obind]. destruct (IH (pre ++ [bb]) f1 c1) as (f2 & c2 & -> & Hi2 & Hc2 & Hw2).
    + by rewrite <- app_assoc.
    + rewrite length_app. simpl. lia.
    + rewrite length_app. simpl. by rewrite Nat.add_1_r, <- Hpos.
    + exists f2, c2. split_and!; [done..| |].
      * intros Hf. destruct (Hc2 Hf) as (H1 & -> & Hfix2). destruct (Hc1 H1) as (-> & -> & Hfix1).
        split_and!; [done..|]. intros b [->|Hb]%elem_of_cons; [apply Hfix1; left|by apply Hfix2].
      * intros Hfirst. destruct (Hw1 Hfirst) as [[= -> ->]|[-> Hlt1]]; [by apply Hw2|].
        right. destruct (Hw2 Hfirst) as [[= -> ->]|[-> Hlt2]]; split; try done; lia.
Qed.

Lemma inv_next first f : loop_inv first (length rpo) f -> loop_inv false 1 f.
Proof.
  intros Hi. pose proof Hi as [Ht Hdone Htodo Hdom Hmeet Hf]. split; auto.
  - intros b Hb _. apply Hdone; [done|]. right. by apply pos_bound.
  - done.
  - intros b z p w Hb Hne Hz Hp Hpr Hlt Ha _. apply (Hf b z p w); auto. left. by apply pos_bound.
Qed.

(** What holds when a pass has changed nothing. *)
Record at_fixpoint (f : MirFunction) : Prop := {
  fp_inv : loop_inv false 1 f;
  fp_fixed : fixed_on (tl rpo) f
}.

Lemma rpo_cons : rpo = [e] ++ tl rpo.
Proof. pose proof (rp_head _ _ _ Hrpo) as H. clear -H. destruct rpo as [|x l]; [done|]. simpl in *. congruence. Qed.

Lemma loop_later fuel : forall f, loop_inv false 1 f -> (weight f < fuel)%nat ->
  exists f', idom_loop fuel map_ rpo f = Ok f' /\ at_fixpoint f'.
Proof.
  induction fuel as [|fuel IH]; intros f Hi Hw; [lia|]. cbn [idom_loop].
  destruct (pass_spec false (tl rpo) [e] f false rpo_cons) as (f' & c' & -> & Hi' & Hc & Hw'); [simpl; lia|done|].
  cbn [obind fst snd]. destruct c'.
  - apply IH; [by eapply inv_next|]. destruct (Hw' eq_refl) as [[=]|[_ ?]]. lia.
  - destruct (Hc eq_refl) as (_ & -> & Hfix). exists f. split; [done|]. by split.
Qed.

Lemma weight_bound f : tree f -> (weight f <= length rpo * length rpo)%nat.
Proof.
  intros Ht. unfold weight. apply sum_list_with_bound. intros b Hb.
  destruct (decide (b = e)) as [->|Hne].
  { rewrite (t_entry _ Ht). simpl. rewrite pos_entry. lia. }
  destruct (idom_of f b) as [p|] eqn:Hp; simpl; [|rewrite pos_entry; lia].
  destruct (t_up _ Ht b p Hb Hne Hp) as (_ & Hlt & _). pose proof (pos_bound b Hb). lia.
Qed.

Lemma loop_spec f : loop_inv true 1 f ->
  exists f', idom_loop (length rpo * length rpo + 2) map_ rpo f = Ok f' /\ at_fixpoint f'.
Proof.
  intros Hi. replace (length rpo * length rpo + 2)%nat with (S (S (length rpo * length rpo))) by lia.
  set (k := S (length rpo * length rpo)). cbn [idom_loop].
  destruct (pass_spec true (tl rpo) [e] f false rpo_cons) as (f' & c' & -> & Hi' & Hc & _); [simpl; lia|done|].
  cbn [obind fst snd]. apply inv_next in Hi'. destruct c'.
  - apply loop_later; [done|]. pose proof (weight_bound f' (li_tree _ _ _ Hi')). subst k. lia.
  - destruct (Hc eq_refl) as (_ & -> & Hfix). exists f. split; [done|]. by split.
Qed.

(** ** The fixed point is the dominator tree *)

Lemma fix_sound f l b d : at_fixpoint f -> path f0 e l b -> anc f b d -> d ∈ l.
Proof.
  intros [Hi Hfix] Hl. pose proof (li_tree _ _ _ Hi) as Ht. revert d.
  assert (He : forall d, anc f e d -> d = e).
  { intros d Hd. destruct (anc_pos f e d Ht entry_in (li_done _ _ _ Hi e entry_in ltac:(by left)) Hd)
      as (Hd1 & _ & Hle). apply pos_inj; [done|apply entry_in|]. rewrite pos_entry in *. lia. }
  assert (Hr : forall l b, path f0 e l b -> b ∈ rpo).
  { intros k c Hk. apply (rp_reach _ _ _ Hrpo). induction Hk; [constructor|]. by eapply rtc_r. }
  induction Hl as [|l b c Hl IH Hbc]; intros d Hd.
  - apply He in Hd as ->. left.
  - destruct (decide (c = e)) as [->|Hne]; [apply He in Hd as ->; left|].
    apply anc_inv in Hd as [<-|(n & Hn & Hd)]; [left|right]. apply IH.
    pose proof (Hr l b Hl) as Hb. assert (Hc : c ∈ rpo) by (apply (Hr (c :: l)); by econstructor).
    destruct (Hfix c) as (n' & Hn' & Hm).
    { rewrite rpo_cons in Hc. apply elem_of_app in Hc as [Hc%list_elem_of_singleton|]; done. }
    rewrite Hn in Hn'. injection Hn' as <-. etrans; [|exact Hd].
    apply Hm; [by apply edge_pred|]. apply (li_done _ _ _ Hi b Hb). by left.
Qed.

Lemma fix_complete f d : at_fixpoint f -> forall b, b ∈ rpo -> dominates f0 e d b -> anc f b d.
Proof.
  intros [Hi _] b. remember (pos b) as k eqn:Hk. revert b Hk.
  induction k as [k IH] using lt_wf_ind. intros b -> Hb Hd.
  destruct (decide (d = b)) as [->|Hne]; [constructor|].
  destruct (decide (b = e)) as [->|Hbe]; [by apply dominates_entry in Hd|].
  destruct (li_done _ _ _ Hi b Hb) as [n Hn]; [by left|].
  destruct (t_up _ (li_tree _ _ _ Hi) b n Hb Hbe Hn) as (Hnr & Hlt & _).
  eapply rtc_l; [exact Hn|]. apply (IH (pos n)); [done..|]. by apply (li_dom _ _ _ Hi b n d).
Qed.

Lemma fix_dominates f b d : at_fixpoint f -> b ∈ rpo -> anc f b d <-> dominates f0 e d b.
Proof. intros Hf Hb. split; [intros Ha l Hl; by eapply fix_sound|by apply fix_complete]. Qed.

(** ** The initial state *)

Hypothesis Hstale : forall b, b ∈ block_list f0 -> ~ reach f0 e b -> idom_of f0 b = None.

Definition dom_start : MirFunction := upd_block (upd_all (with_idom None) rpo f0) e (with_idom (Some e)).

Lemma upd_all_code g l f : (forall blk, bare (g blk) = bare blk) -> same_code f (upd_all g l f).
Proof.
  intros Hg. unfold upd_all. revert f. induction l as [|b l IH]; intros f; simpl; [apply same_code_refl|].
  eapply same_code_trans; [|apply IH]. by apply same_code_upd.
Qed.

Lemma start_inv : loop_inv true 1 dom_start.
Proof.
  assert (Hc0 : same_code f0 (upd_all (with_idom None) rpo f0)) by (by apply upd_all_code).
  assert (Hcode : same_code f0 dom_start) by (eapply same_code_trans; [exact Hc0|by apply same_code_upd]).
  assert (He : idom_of dom_start e = Some e).
  { destruct (same_block _ e Hc0 (rpo_in_list e entry_in)) as (_ & blk & _ & Hblk & _).
    unfold idom_of, dom_start. rewrite block_at_upd_eq, Hblk. done. }
  assert (Hother : forall b, b <> e -> idom_of dom_start b = if decide (b ∈ rpo) then None else idom_of f0 b).
  { intros b Hne. unfold idom_of, dom_start. rewrite block_at_upd_ne by done. unfold upd_all.
    rewrite upd_all_at by apply Hrpo. destruct (decide (b ∈ rpo)); [|done]. by destruct (block_at f0 b). }
  assert (Hnone : forall b, b ∈ rpo -> b <> e -> idom_of dom_start b = None).
  { intros b Hb Hne. rewrite Hother by done. by rewrite decide_True. }
  assert (Hpe : forall b, b ∈ rpo -> (pos b < 1)%nat -> b = e).
  { intros b Hb Hlt. apply pos_inj; [done|apply entry_in|]. rewrite pos_entry. lia. }
  split.
  - split; [done|done| |].
    + intros b Hb [p Hp]. destruct (decide (b = e)) as [->|Hne]; [apply entry_in|].
      rewrite Hother in Hp by done. destruct (decide (b ∈ rpo)) as [|Hno]; [done|].
      rewrite (rp_reach _ _ _ Hrpo) in Hno. by rewrite Hstale in Hp.
    + intros b p Hb Hne Hp. by rewrite Hnone in Hp.
  - intros b Hb [?|Hlt]; [done|]. rewrite (Hpe b Hb Hlt). unfold proc. eauto.
  - intros _ b Hb Hle [p Hp]. destruct (decide (b = e)) as [->|Hne].
    + rewrite pos_entry in Hle. lia.
    + by rewrite Hnone in Hp.
  - intros b p d Hb Hne Hp. by rewrite Hnone in Hp.
  - intros b z x Hb Hne Hz. by rewrite Hnone in Hz.
  - intros b z p w Hb Hne Hz. by rewrite Hnone in Hz.
Qed.

End chains.

(** ** The index of the order *)

Lemma rpo_index_spec f e (Hwf : cfg_wf f e) rpo (Hrpo : is_rpo f e rpo) :
  exists m, rpo_index f rpo = Ok m /\
    forall f' b, same_code f f' -> b ∈ rpo -> rpo_at f' m b = Ok (Z.of_nat (pos rpo b)).
Proof.
  assert (Hid : forall b, b ∈ rpo -> exists i blk, block_list f !! i = Some b /\
    block_at f b = Some blk /\ id blk = Z.of_nat i /\ (i < MAX_BLOCKS)%nat).
  { intros b Hb. apply (rpo_in_list f e Hwf rpo Hrpo) in Hb. apply list_elem_of_lookup in Hb as [i Hi].
    destruct (cw_ids _ _ Hwf i b Hi) as (blk & Hblk & Hid). exists i, blk.
    pose proof (lookup_lt_Some _ _ _ Hi). pose proof (cw_size _ _ Hwf). split_and!; [done..|lia]. }
  set (step := fun bb r => let! b := of_option (block_at f bb) in
      if (Z.to_nat (id b) <? length r.2)%nat
      then Ok (r.1 + 1, <[Z.to_nat (id b) := r.1]> r.2) else Undef : outcome (Z * list Z)).
  assert (Hloop : forall l pre m, rpo = pre ++ l -> length m = MAX_BLOCKS ->
    (forall j b i, pre !! j = Some b -> block_list f !! i = Some b -> m !! i = Some (Z.of_nat j)) ->
    exists r, ofold step l (Z.of_nat (length pre), m) = Ok r /\
      forall j b i, rpo !! j = Some b -> block_list f !! i = Some b -> r.2 !! i = Some (Z.of_nat j)).
  { induction l as [|bb l IH]; intros pre m Hpre Hlen Hm; cbn [ofold].
    - rewrite app_nil_r in Hpre. subst pre. by eexists.
    - assert (Hbb : bb ∈ rpo) by (rewrite Hpre; apply elem_of_app; right; left).
      destruct (Hid bb Hbb) as (k & blk & Hk & Hblk & Hbid & Hkl). unfold step at 1.
      rewrite Hblk. cbn [of_option obind fst snd]. rewrite Hbid, Nat2Z.id.
      destruct (Nat.ltb_spec k (length m)) as [_|]; [|lia]. cbn [obind].
      replace (Z.of_nat (length pre) + 1) with (Z.of_nat (length (pre ++ [bb]))) by (rewrite length_app; simpl; lia).
      apply IH; [by rewrite <- app_assoc|by rewrite length_insert|].
      intros j b i Hj Hi. apply lookup_app_Some in Hj as [Hj|[Hge Hj]].
      + rewrite list_lookup_insert_ne; [by eapply Hm|]. intros ->. rewrite Hk in Hi. injection Hi as ->.
        assert (Hl : rpo !! j = Some b) by (rewrite Hpre; by apply lookup_app_l_Some).
        assert (Hl2 : rpo !! length pre = Some b) by (rewrite Hpre; by apply list_lookup_middle).
        pose proof (NoDup_lookup _ _ _ _ (rp_nodup _ _ _ Hrpo) Hl Hl2). apply lookup_lt_Some in Hj. lia.
      + apply list_lookup_singleton_Some in Hj as [Hj ->].
        rewrite (pos_unique f (cw_ids _ _ Hwf) _ _ _ Hi Hk), list_lookup_insert_eq by lia.
        do 2 f_equal. lia. }
  destruct (Hloop rpo [] (replicate MAX_BLOCKS (-1)) eq_refl) as (r & Hr & Hall).
  { by rewrite length_replicate. }
  { intros j b i Hj. by rewrite lookup_nil in Hj. }
  exists r.2. split; [unfold rpo_index; fold step; change 0 with (Z.of_nat (length (@nil nat))); by rewrite Hr|].
  intros f' b Hs Hb. destruct (Hid b Hb) as (i & blk & Hi & Hblk & Hbid & _).
  destruct (same_code_at _ _ _ _ Hs Hblk) as (blk' & Hblk' & Hbare). unfold rpo_at. rewrite Hblk'.
  cbn [of_option obind]. destruct (bare_fields _ _ Hbare) as (-> & _). rewrite Hbid, Nat2Z.id.
  by rewrite (Hall (pos rpo b) b i (lookup_pos f e rpo Hrpo b Hb) Hi).
Qed.

(** ** The children lists *)

Definition children_of (f : MirFunction) (b : nat) : list nat := default [] (dom_children <$> block_at f b).

(** Everything but the children lists is the same. *)
Definition same_tree (f f' : MirFunction) : Prop :=
  same_code f f' /\ forall b, idom_of f' b = idom_of f b.

Lemma add_children f l :
  (forall b, b ∈ l -> exists p, idom_of f b = Some p /\ p <> b /\ is_Some (block_at f p)) ->
  exists f', ofold add_dom_child l f = Ok f' /\ same_tree f f' /\
    forall b, is_Some (block_at f b) ->
      children_of f' b = children_of f b ++ filter (fun c => idom_of f c = Some b) l.
Proof.
  revert f. induction l as [|c l IH]; intros f Hl; cbn [ofold].
  - exists f. split_and!; [done|by split; [apply same_code_refl|]|]. intros b _. by rewrite app_nil_r.
  - destruct (Hl c) as (p & Hp & Hpc & [pb Hpb]); [left|]. unfold add_dom_child at 1.
    destruct (block_at f c) as [cb|] eqn:Hcb; [|unfold idom_of in Hp; by rewrite Hcb in Hp].
    pose proof (proc_block f c cb Hcb) as Hid. rewrite Hp in Hid. cbn [of_option obind]. rewrite <- Hid.
    rewrite decide_False by done. rewrite Hpb. cbn [of_option obind].
    set (f1 := upd_block f p _).
    assert (H1 : same_tree f f1).
    { split; [by apply same_code_upd|]. intros b. unfold idom_of, f1. rewrite block_at_upd.
      destruct (decide (b = p)) as [->|]; [|done]. by rewrite Hpb. }
    assert (Hsome : forall b, is_Some (block_at f b) <-> is_Some (block_at f1 b)).
    { intros b. unfold f1. rewrite block_at_upd. destruct (decide (b = p)) as [->|]; [|done].
      rewrite Hpb. simpl. by split; eauto. }
    destruct (IH f1) as (f' & -> & H2 & Hch).
    { intros b Hb. destruct (Hl b) as (q & Hq & Hqb & Hqs); [by right|]. exists q.
      split_and!; [by rewrite (proj2 H1)|done|by apply Hsome]. }
    exists f'. split_and!; [done| |].
    + split; [eapply same_code_trans; [apply H1|apply H2]|]. intros b. by rewrite (proj2 H2), (proj2 H1).
    + intros b Hb. rewrite Hch by (by apply Hsome).
      assert (Hfil : filter (fun c => idom_of f1 c = Some b) l = filter (fun c => idom_of f c = Some b) l).
      { apply list_filter_iff. intros x. by rewrite (proj2 H1). }
      rewrite Hfil, filter_cons. unfold children_of, f1. rewrite block_at_upd, Hp.
      destruct (decide (b = p)) as [->|Hne].
      * rewrite Hpb, decide_True by done. simpl. by rewrite <- app_assoc.
      * by rewrite decide_False by congruence.
Qed.

(** ** The theorem *)

Record dominator_tree (f : MirFunction) (e : nat) (f' : MirFunction) : Prop := {
  dt_code : same_code f f';
  dt_entry : idom_of f' e = Some e;
  dt_chain : forall b d, reach f e b -> anc f' b d <-> dominates f e d b;
  dt_idom : forall b, reach f e b -> b <> e -> exists i,
    idom_of f' b = Some i /\ reach f e i /\ i <> b /\ dominates f e i b /\
    forall d, d <> b -> dominates f e d b -> dominates f e d i;
  dt_children : forall b, reach f e b -> NoDup (children_of f' b) /\
    forall c, c ∈ children_of f' b <-> reach f e c /\ c <> e /\ idom_of f' c = Some b;
  dt_stale : forall b, b ∈ block_list f -> ~ reach f e b -> idom_of f' b = None;
  dt_order : exists rpo, is_rpo f e rpo /\ tree f e rpo f'
}.

Section theorem.
Context (f : MirFunction) (e : nat) (Hwf : cfg_wf f e).
Context (Hstale : forall b, b ∈ block_list f -> ~ reach f e b -> idom_of f b = None).

Lemma fixpoint_tree rpo (Hrpo : is_rpo f e rpo) f1 f' :
  at_fixpoint f e rpo f1 -> same_tree f1 f' ->
  (forall b, b ∈ rpo -> children_of f' b = filter (fun c => idom_of f1 c = Some b) (tl rpo)) ->
  dominator_tree f e f'.
Proof.
  intros Hfp [Hcode Hid] Hch. pose proof (li_tree _ _ _ _ _ _ (fp_inv _ _ _ _ Hfp)) as Ht.
  assert (Hin : forall b, b ∈ rpo <-> reach f e b) by apply Hrpo.
  assert (Hanc : forall b d, anc f' b d <-> anc f1 b d).
  { intros b d. split; apply rtc_subrel; intros x y; by rewrite Hid. }
  assert (Hchain : forall b d, reach f e b -> anc f' b d <-> dominates f e d b).
  { intros b d Hb. rewrite Hanc. apply (fix_dominates f e Hwf rpo Hrpo); [done|by apply Hin]. }
  assert (Htl : forall b, b ∈ tl rpo <-> b ∈ rpo /\ b <> e).
  { intros b. pose proof (rp_nodup _ _ _ Hrpo) as Hnd. rewrite (rpo_cons f e rpo Hrpo) in Hnd.
    apply list.NoDup_app in Hnd as (_ & Hno & _). rewrite (rpo_cons f e rpo Hrpo) at 2.
    rewrite elem_of_app, list_elem_of_singleton. specialize (Hno e ltac:(left)).
    split; [|tauto]. intros Hb. split; [by right|]. by intros ->. }
  split.
  - eapply same_code_trans; [apply Ht|done].
  - rewrite Hid. apply Ht.
  - done.
  - intros b Hb Hne. apply Hin in Hb as Hbr.
    destruct (li_done _ _ _ _ _ _ (fp_inv _ _ _ _ Hfp) b Hbr) as [i Hi]; [by left|].
    destruct (t_up _ _ _ _ Ht b i Hbr Hne Hi) as (Hir & Hlt & _). exists i.
    split_and!; [by rewrite Hid|by apply Hin|by intros ->; lia| |].
    + apply Hchain; [done|]. apply Hanc. by apply rtc_once.
    + intros d Hd Hdom. apply Hchain; [by apply Hin|]. apply Hanc.
      apply Hchain in Hdom; [|done]. apply Hanc, anc_inv in Hdom as [->|(q & Hq & Hqd)]; [done|congruence].
  - intros b Hb. apply Hin in Hb as Hbr. rewrite Hch by done. split.
    + apply list.NoDup_filter. pose proof (rp_nodup _ _ _ Hrpo) as Hnd. rewrite (rpo_cons f e rpo Hrpo) in Hnd.
      by apply list.NoDup_app in Hnd as (_ & _ & ?).
    + intros c. rewrite list_elem_of_filter, Htl, Hin, Hid. tauto.
  - intros b Hb Hno. rewrite Hid. destruct (idom_of f1 b) as [p|] eqn:Hp; [|done].
    destruct Hno. apply Hin, (t_in _ _ _ _ Ht b Hb). by exists p.
  - exists rpo. split; [done|]. split.
    + eapply same_code_trans; [apply Ht|done].
    + rewrite Hid. apply Ht.
    + intros b Hb [p Hp]. rewrite Hid in Hp. apply (t_in _ _ _ _ Ht b Hb). by exists p.
    + intros b p Hb Hne Hp. rewrite Hid in Hp. unfold proc. rewrite Hid. by apply (t_up _ _ _ _ Ht).
Qed.

(** On every control flow graph of at most 4096 blocks with consistent
    predecessor and successor lists (and unreachable blocks not yet in a tree)
    the search stays within its arrays, the iteration ends, and [idom] and
    [dom_children] are the dominator tree. *)
Lemma dominators_spec : exists f', mir_compute_dominators f = Ok f' /\ dominator_tree f e f'.
Proof.
  destruct (compute_rpo_spec f e Hwf) as (rpo & Hr & Hrpo). unfold mir_compute_dominators. rewrite Hr.
  cbn [obind]. destruct (rpo_index_spec f e Hwf rpo Hrpo) as (m & Hm & Hmap).
  destruct (loop_spec f e Hwf rpo Hrpo m Hmap (dom_start f e rpo) (start_inv f e Hwf rpo Hrpo Hstale))
    as (f1 & Hloop & Hfp).
  pose proof (li_tree _ _ _ _ _ _ (fp_inv _ _ _ _ Hfp)) as Ht.
  set (f2 := upd_all (with_dom_children []) rpo f1).
  assert (Hblk : forall b, b ∈ rpo -> exists blk, block_at f1 b = Some blk /\
                   block_at f2 b = Some (with_dom_children [] blk)).
  { intros b Hb. destruct (same_block f e Hwf f1 b (t_code _ _ _ _ Ht) (rpo_in_list f e Hwf rpo Hrpo b Hb))
      as (_ & blk & _ & Hblk & _). exists blk. split; [done|]. unfold f2, upd_all.
    rewrite upd_all_at by apply Hrpo. by rewrite decide_True, Hblk. }
  assert (Hid2 : forall b, idom_of f2 b = idom_of f1 b).
  { intros b. unfold idom_of, f2, upd_all. rewrite upd_all_at by apply Hrpo.
    destruct (decide (b ∈ rpo)); [|done]. by destruct (block_at f1 b). }
  destruct (add_children f2 (tl rpo)) as (f' & Hf' & [Hc Hi] & Hch).
  { intros b Hb. assert (Hbr : b ∈ rpo) by (rewrite (rpo_cons f e rpo Hrpo); apply elem_of_app; by right).
    destruct (fp_fixed _ _ _ _ Hfp b Hb) as (n & Hn & Hmeet). exists n. rewrite Hid2. split_and!; [done| |].
    - intros ->. destruct (decide (b = e)) as [->|Hne].
      + pose proof (rp_nodup _ _ _ Hrpo) as Hnd. rewrite (rpo_cons f e rpo Hrpo) in Hnd.
        apply list.NoDup_app in Hnd as (_ & Hno & _). by apply (Hno e ltac:(left)).
      + destruct (t_up _ _ _ _ Ht b b Hbr Hne Hn) as (_ & ? & _). lia.
    - destruct (Hblk n (me_in _ _ _ _ Hmeet)) as (blk & _ & ->). eauto. }
  exists f'. destruct rpo as [|x l] eqn:Hrl; [by apply rp_head in Hrpo|]. rewrite Hm. cbn [obind].
  assert (x = e) as -> by (pose proof (rp_head _ _ _ Hrpo) as Hh; simpl in Hh; congruence).
  change (upd_block (upd_all (with_idom None) (e :: l) f) e (with_idom (Some e))) with (dom_start f e (e :: l)).
  rewrite Hloop. cbn [obind]. split; [exact Hf'|]. apply (fixpoint_tree (e :: l) Hrpo f1 f'); [done| |].
  - split; [|intros b; by rewrite Hi, Hid2]. eapply same_code_trans; [|exact Hc]. by apply upd_all_code.
  - intros b Hb. destruct (Hblk b Hb) as (blk & Hb1 & Hb2). rewrite Hch by eauto.
    unfold children_of. rewrite Hb2. simpl. apply list_filter_iff. intros c. by rewrite Hid2.
Qed.

End theorem.
