(* ===== verification/DomFrontier.v ===== *)
(** * Correctness of the dominance frontiers

    [mir_compute_dom_frontiers], run behind [mir_compute_dominators], gives
    every reachable block the frontier of the definition of Cytron et al. *)
From S2P Require Import Prelude MirCore MirGraph Dominators DomFacts.

(** [y] has a predecessor that [b] dominates, but [b] does not strictly
    dominate [y]. *)
Definition in_frontier (f : MirFunction) (e b y : nat) : Prop :=
  exists p, reach f e p /\ edge f p y /\ dominates f e b p /\ ~ (dominates f e b y /\ b <> y).

Definition frontier_of (f : MirFunction) (b : nat) : list nat := default [] (dom_frontier <$> block_at f b).

Lemma same_tree_trans f1 f2 f3 : same_tree f1 f2 -> same_tree f2 f3 -> same_tree f1 f3.
Proof.
  intros [H1 H2] [H3 H4]. split; [by eapply same_code_trans|]. intros b. by rewrite H4.
Qed.

Lemma upd_frontier f b l : same_tree f (upd_block f b (with_dom_frontier l)).
Proof.
  split; [by apply same_code_upd|]. intros c. unfold idom_of. rewrite block_at_upd.
  destruct (decide (c = b)) as [->|]; [|done]. by destruct (block_at f b).
Qed.

Lemma frontier_upd f b l c : is_Some (block_at f b) ->
  frontier_of (upd_block f b (with_dom_frontier l)) c = if decide (c = b) then l else frontier_of f c.
Proof.
  intros [blk Hb]. unfold frontier_of. rewrite block_at_upd. destruct (decide (c = b)) as [->|]; [|done].
  by rewrite Hb.
Qed.

(** [h'] has [y] in the frontiers of the blocks of [S] besides what [h] has. *)
Record gains (y : nat) (S : nat -> Prop) (h h' : MirFunction) : Prop := {
  ga_tree : same_tree h h';
  ga_in : forall b x, x ∈ frontier_of h' b <-> x ∈ frontier_of h b \/ x = y /\ S b;
  ga_nodup : forall b, NoDup (frontier_of h b) -> NoDup (frontier_of h' b)
}.

Lemma gains_none y (S : nat -> Prop) h : (forall b, ~ S b) -> gains y S h h.
Proof.
  intros Hs. split; [by split; [apply same_code_refl|]| |done].
  intros b x. specialize (Hs b). tauto.
Qed.

Lemma gains_trans y (S1 S2 S : nat -> Prop) h1 h2 h3 :
  (forall b, S b <-> S1 b \/ S2 b) -> gains y S1 h1 h2 -> gains y S2 h2 h3 -> gains y S h1 h3.
Proof.
  intros Hs [H1 H2 H3] [H4 H5 H6]. split; [by eapply same_tree_trans| |auto].
  intros b x. rewrite H5, H2, Hs. tauto.
Qed.

(** The insertion of the loop body. *)
Definition add_frontier (y p : nat) (blk : MirBlock) (h : MirFunction) : MirFunction :=
  if decide (y ∈ dom_frontier blk) then h
  else upd_block h p (with_dom_frontier (dom_frontier blk ++ [y])).

Lemma gains_add y p blk h : block_at h p = Some blk -> gains y (eq p) h (add_frontier y p blk h).
Proof.
  intros Hp. unfold add_frontier. assert (Hf : frontier_of h p = dom_frontier blk).
  { unfold frontier_of. by rewrite Hp. }
  destruct (decide (y ∈ dom_frontier blk)) as [Hy|Hy].
  - split; [by split; [apply same_code_refl|]| |done]. intros b x. split; [by left|].
    intros [?|[-> <-]]; [done|]. by rewrite Hf.
  - split; [apply upd_frontier| |]; intros b; rewrite frontier_upd by eauto.
    + intros x. destruct (decide (b = p)) as [->|Hne].
      * rewrite elem_of_app, list_elem_of_singleton, Hf. tauto.
      * split; [by left|]. intros [?|[_ <-]]; done.
    + destruct (decide (b = p)) as [->|Hne]; [|done]. rewrite Hf. intros Hnd.
      apply list.NoDup_app. split_and!; [done| |apply NoDup_singleton].
      by intros x Hx ->%list_elem_of_singleton.
Qed.

Section frontier.
Context (f : MirFunction) (e : nat) (Hwf : cfg_wf f e).
Context (g : MirFunction) (Hg : dominator_tree f e g).
Context (rpo : list nat) (Hrpo : is_rpo f e rpo) (Ht : tree f e rpo g).

Abbreviation pos := (pos rpo).

Lemma rpo_reach b : b ∈ rpo <-> reach f e b.
Proof. apply Hrpo. Qed.

Lemma block_in_state h b : same_tree g h -> b ∈ block_list f -> is_Some (block_at h b).
Proof.
  intros [Hs _] [i Hi]%list_elem_of_lookup. destruct (cw_ids _ _ Hwf i b Hi) as (blk & Hb & _).
  destruct (same_code_at _ _ _ _ (same_code_trans _ _ _ (dt_code _ _ _ Hg) Hs) Hb) as (blk' & Hb' & _). eauto.
Qed.

Lemma tree_proc b : b ∈ rpo -> proc g b.
Proof.
  intros Hb. destruct (decide (b = e)) as [->|Hne]; [exists e; apply Hg|].
  destruct (dt_idom _ _ _ Hg b) as (i & Hi & _); [by apply rpo_reach|done|]. by exists i.
Qed.

(** The runner, from a block below [z] up to [z]. *)
Lemma run_up_spec y z fuel : forall p h, same_tree g h -> p ∈ rpo -> anc g p z -> (pos p < fuel)%nat ->
  exists h', run_up fuel y (Some z) p h = Ok h' /\ gains y (fun b => anc g p b /\ ~ anc g z b) h h'.
Proof.
  induction fuel as [|fuel IH]; intros p h Hh Hp Hz Hfuel; [lia|]. cbn [run_up].
  destruct (decide (Some p = Some z)) as [[= ->]|Hne].
  { exists h. split; [done|]. apply gains_none. tauto. }
  destruct (block_in_state h p Hh (rpo_in_list f e Hwf rpo Hrpo p Hp)) as [blk Hblk]. rewrite Hblk.
  cbn [of_option obind]. fold (add_frontier y p blk h).
  pose proof (gains_add y p blk h Hblk) as H1.
  apply anc_inv in Hz as [->|(q & Hq & Hqz)]; [done|].
  pose proof (proc_block h p blk Hblk) as Hid. rewrite (proj2 Hh), Hq in Hid. rewrite <- Hid.
  assert (Hpe : p <> e).
  { intros ->. rewrite (t_entry _ _ _ _ Ht) in Hq. injection Hq as <-.
    destruct (anc_pos f e rpo g e z Ht Hp (tree_proc e Hp) Hqz) as (Hzr & _ & Hle).
    rewrite (pos_entry f e rpo Hrpo) in Hle. apply Hne. f_equal.
    apply (pos_inj f e rpo Hrpo); [done..|]. rewrite (pos_entry f e rpo Hrpo). lia. }
  destruct (t_up _ _ _ _ Ht p q Hp Hpe Hq) as (Hqr & Hlt & _).
  destruct (IH q (add_frontier y p blk h)) as (h' & -> & H2);
    [by eapply same_tree_trans; [|apply H1]|done..|lia|].
  exists h'. split; [done|]. eapply gains_trans; [|exact H1|exact H2]. intros b. simpl. split.
  - intros [[->|(q' & Hq' & Hb)]%anc_inv Hnz]; [by left|right]. rewrite Hq in Hq'. injection Hq' as <-. done.
  - intros [<-|[Hb Hnz]]; (split; [|try done]).
    + constructor.
    + intros Hzp. apply Hne. f_equal. apply (anc_antisym f e rpo Hrpo g p z Ht Hp (tree_proc p Hp)); [|done].
      by eapply rtc_l.
    + by eapply rtc_l.
Qed.

(** The runner, from a block outside the tree. *)
Lemma run_up_dead y stop fuel p h : same_tree g h -> p ∈ block_list f -> idom_of g p = None ->
  (forall z, stop = Some z -> z ∈ rpo) ->
  exists h', run_up (S fuel) y stop p h = Ok h' /\ gains y (eq p) h h'.
Proof.
  intros Hh Hp Hid Hstop. cbn [run_up]. destruct (decide (Some p = stop)) as [Heq|_].
  { destruct (tree_proc p) as [x Hx]; [by apply Hstop|congruence]. }
  destruct (block_in_state h p Hh Hp) as [blk Hblk]. rewrite Hblk. cbn [of_option obind].
  fold (add_frontier y p blk h). pose proof (proc_block h p blk Hblk) as Hb.
  rewrite (proj2 Hh), Hid in Hb. rewrite <- Hb. eexists. split; [done|]. by apply gains_add.
Qed.

Hypothesis Hentry : forall p, p ∈ block_list f -> ~ edge f p e.

(** What the loop over the predecessors of one block adds. *)
Definition raised (stop : blockptr) (p b : nat) : Prop :=
  (p ∈ rpo /\ anc g p b /\ ~ exists z, stop = Some z /\ anc g z b) \/ (p ∉ rpo /\ p = b).

Lemma run_pred y stop p h : same_tree g h -> p ∈ block_list f ->
  (forall z, stop = Some z -> z ∈ rpo /\ (p ∈ rpo -> anc g p z)) -> (p ∈ rpo -> stop <> None) ->
  exists h', run_up (S (length (block_list f))) y stop p h = Ok h' /\ gains y (raised stop p) h h'.
Proof.
  intros Hh Hp Hstop Hsome. destruct (decide (p ∈ rpo)) as [Hpr|Hpr].
  - destruct stop as [z|]; [|by destruct (Hsome Hpr)]. destruct (Hstop z eq_refl) as [Hz Hpz].
    destruct (run_up_spec y z (S (length (block_list f))) p h Hh Hpr (Hpz Hpr)) as (h' & Hr & Hg').
    { pose proof (pos_bound f e rpo Hrpo p Hpr).
      assert (length rpo <= length (block_list f))%nat; [|lia].
      apply submseteq_length, NoDup_submseteq; [apply Hrpo|].
      intros b Hb. by apply (rpo_in_list f e Hwf rpo Hrpo). }
    exists h'. split; [exact Hr|]. destruct Hg' as [H1 H2 H3]. split; [done| |done].
    intros b x. rewrite H2. unfold raised. naive_solver.
  - destruct (run_up_dead y stop (length (block_list f)) p h Hh Hp) as (h' & Hr & Hg').
    + apply (dt_stale _ _ _ Hg); [done|]. by rewrite <- rpo_reach.
    + intros z Hz. by apply Hstop.
    + exists h'. split; [exact Hr|]. destruct Hg' as [H1 H2 H3]. split; [done| |done].
      intros b x. rewrite H2. unfold raised. naive_solver.
Qed.

Lemma run_preds y stop l : forall h, same_tree g h ->
  (forall p, p ∈ l -> p ∈ block_list f /\ (p ∈ rpo -> stop <> None) /\
     forall z, stop = Some z -> z ∈ rpo /\ (p ∈ rpo -> anc g p z)) ->
  exists h', ofold (run_up (S (length (block_list f))) y stop) l h = Ok h' /\
    gains y (fun b => exists p, p ∈ l /\ raised stop p b) h h'.
Proof.
  induction l as [|p l IH]; intros h Hh Hl; cbn [ofold].
  - exists h. split; [done|]. apply gains_none. intros b (p & Hp & _). by apply not_elem_of_nil in Hp.
  - destruct (Hl p ltac:(left)) as (Hp & Hsome & Hstop).
    destruct (run_pred y stop p h Hh Hp Hstop Hsome) as (h1 & -> & H1). cbn [obind].
    destruct (IH h1) as (h2 & -> & H2); [by eapply same_tree_trans; [|apply H1]|intros q Hq; apply Hl; by right|].
    exists h2. split; [done|]. eapply gains_trans; [|exact H1|exact H2]. intros b. simpl. split.
    + intros (q & [->|Hq]%elem_of_cons & Hr); [by left|right; eauto].
    + intros [Hr|(q & Hq & Hr)]; [exists p|exists q]; (split; [|done]); [left|by right].
Qed.

(** Ancestors of the parent are the strict dominators. *)
Lemma above_parent y z b : reach f e y -> y <> e -> idom_of g y = Some z ->
  anc g z b <-> dominates f e b y /\ b <> y.
Proof.
  intros Hy Hne Hz. rewrite <- (dt_chain _ _ _ Hg y b Hy). pose proof Hy as Hyr%rpo_reach.
  destruct (t_up _ _ _ _ Ht y z Hyr Hne Hz) as (Hzr & Hlt & Hzp). split.
  - intros Hb. split; [by eapply rtc_l|]. intros ->.
    destruct (anc_pos f e rpo g z y Ht Hzr Hzp Hb) as (_ & _ & ?). lia.
  - intros [[->|(q & Hq & Hb)]%anc_inv Hby]; [done|congruence].
Qed.

Lemma path_end l b : path f e l b -> reach f e b.
Proof. induction 1; [constructor|by eapply rtc_r]. Qed.

Lemma reach_in b : reach f e b -> b ∈ block_list f.
Proof. intros Hb%rpo_reach. by apply (rpo_in_list f e Hwf rpo Hrpo). Qed.

(** A block with one predecessor is in no frontier. *)
Lemma single_pred y p b : reach f e y -> y <> e -> reach f e b ->
  (forall q, q ∈ block_list f -> edge f q y -> q = p) -> ~ in_frontier f e b y.
Proof.
  intros Hy Hne Hb Honly (q & Hq & Hqy & Hbq & Hno).
  assert (q = p) as -> by (apply Honly; [by apply reach_in|done]).
  assert (Hpath : forall l c, path f e l c -> c = y -> p ∈ l /\ p <> y).
  { induction 1 as [|l c d Hl IH Hcd]; [done|]. intros ->.
    assert (Hcp : c = p) by (apply Honly; [apply reach_in; by eapply path_end|done]).
    destruct (decide (c = y)) as [->|Hcy]; [by destruct (IH eq_refl); subst|]. subst c. split; [|done].
    right. apply (dominates_refl f e p l Hl). }
  destruct (dt_idom _ _ _ Hg y Hy Hne) as (z & Hz & Hzr & Hzy & Hzdom & Hmax).
  assert (Hpdom : dominates f e p y) by (intros l Hl; by eapply Hpath).
  destruct (decide (p = y)) as [Hpy|Hpy].
  { subst p. assert (Hw : exists l, path f e l y).
    { apply (rtc_ind_r (R := edge f) (fun c => exists l, path f e l c) e); [eexists; constructor| |done].
      intros x w _ Hxw [l Hl]. eexists. by econstructor. }
    destruct Hw as [l Hl]. by destruct (Hpath l y Hl eq_refl). }
  assert (p = z) as ->.
  { apply (anc_antisym f e rpo Hrpo g p z Ht); [by apply rpo_reach|by apply tree_proc, rpo_reach| |].
    - apply (dt_chain _ _ _ Hg p z Hq). by apply (dominates_pred f e z p y).
    - apply (dt_chain _ _ _ Hg z p Hzr). by apply Hmax. }
  apply Hno. apply (above_parent y z b Hy Hne Hz). by apply (dt_chain _ _ _ Hg z b Hzr).
Qed.

Lemma frontier_block_spec y h : same_tree g h -> y ∈ block_list f ->
  exists h' (S : nat -> Prop), frontier_block y h = Ok h' /\ gains y S h h' /\
    forall b, reach f e b -> S b <-> in_frontier f e b y.
Proof.
  intros Hh Hy. pose proof Hy as [i Hi]%list_elem_of_lookup.
  destruct (cw_ids _ _ Hwf i y Hi) as (blk0 & Hb0 & _).
  assert (Hcode : same_code f h) by (eapply same_code_trans; [apply (dt_code _ _ _ Hg)|apply Hh]).
  destruct (same_code_at _ _ _ _ Hcode Hb0) as (blk & Hblk & Hbare).
  destruct (bare_fields _ _ Hbare) as (_ & _ & Hpreds & _).
  assert (Hid : idom blk = idom_of g y) by (rewrite <- (proc_block h y blk Hblk); apply Hh).
  assert (Hin : forall p, p ∈ predecessors blk0 <-> p ∈ block_list f /\ edge f p y)
    by (intros p; by apply (cw_preds _ _ Hwf y blk0)).
  unfold frontier_block. rewrite Hblk. cbn [of_option obind]. rewrite Hpreds, Hid.
  rewrite (same_code_list _ _ Hcode). destruct (Nat.ltb_spec (length (predecessors blk0)) 2) as [Hlen|Hlen].
  - exists h, (fun _ => False). split_and!; [done|apply gains_none; tauto|]. intros b Hb. split; [done|].
    intros Hf. pose proof Hf as (p & Hp & Hpy & _ & _).
    assert (Hpin : p ∈ predecessors blk0) by (apply Hin; split; [by apply reach_in|done]).
    destruct (decide (y = e)) as [->|Hne]; [by apply (Hentry p); [apply reach_in|]|].
    apply (single_pred y p b); [by eapply rtc_r|done..| |done]. intros q Hq Hqy.
    assert (Hqin : q ∈ predecessors blk0) by (by apply Hin).
    destruct (predecessors blk0) as [|a [|? ?]]; [by apply not_elem_of_nil in Hpin| |simpl in Hlen; lia].
    apply list_elem_of_singleton in Hpin, Hqin. congruence.
  - destruct (run_preds y (idom_of g y) (predecessors blk0) h Hh) as (h' & Hr & Hg').
    + intros p Hp. apply Hin in Hp as [Hp Hpy].
      assert (Hry : p ∈ rpo -> reach f e y) by (intros Hpr%rpo_reach; by eapply rtc_r).
      assert (Hye : y <> e) by (intros ->; by eapply Hentry).
      split_and!; [done| |].
      * intros Hpr. destruct (tree_proc y) as [z ->]; [by apply rpo_reach, Hry|done].
      * intros z Hz. destruct (decide (y ∈ rpo)) as [Hyr|Hyr].
        -- destruct (dt_idom _ _ _ Hg y (proj1 (rpo_reach y) Hyr) Hye) as (z' & Hz' & Hzr & Hzy & Hdom & _).
           rewrite Hz in Hz'. injection Hz' as <-. split; [by apply rpo_reach|]. intros Hpr%rpo_reach.
           apply (dt_chain _ _ _ Hg p z Hpr). by apply (dominates_pred f e z p y).
        -- rewrite (dt_stale _ _ _ Hg y Hy) in Hz; [done|]. by rewrite <- rpo_reach.
    + eexists h', _. split_and!; [exact Hr|exact Hg'|]. intros b Hb. simpl. split.
      * intros (p & Hp & [(Hpr & Ha & Hno)|[Hpr ->]]); [|by apply rpo_reach in Hb].
        apply Hin in Hp as [Hp Hpy]. pose proof (proj1 (rpo_reach p) Hpr) as Hprr.
        assert (Hye : y <> e) by (intros ->; by eapply Hentry).
        assert (Hyr : reach f e y) by (by eapply rtc_r).
        exists p. split_and!; [done|done|by apply (dt_chain _ _ _ Hg)|]. intros Hs. apply Hno.
        destruct (tree_proc y (proj2 (rpo_reach y) Hyr)) as [z Hz]. exists z. split; [done|].
        by apply (above_parent y z b Hyr Hye Hz).
      * intros (p & Hp & Hpy & Hbp & Hno). pose proof (reach_in p Hp) as Hpin.
        assert (Hye : y <> e) by (intros ->; by eapply Hentry).
        assert (Hyr : reach f e y) by (by eapply rtc_r).
        exists p. split; [by apply Hin|]. left. split_and!; [by apply rpo_reach|by apply (dt_chain _ _ _ Hg)|].
        intros (z & Hz & Hzb). apply Hno. by apply (above_parent y z b Hyr Hye Hz).
Qed.

Lemma frontier_loop l : forall h, same_tree g h -> (forall y, y ∈ l -> y ∈ block_list f) ->
  exists h', ofold frontier_block l h = Ok h' /\ same_tree h h' /\
    forall b, reach f e b -> (NoDup (frontier_of h b) -> NoDup (frontier_of h' b)) /\
      forall x, x ∈ frontier_of h' b <-> x ∈ frontier_of h b \/ x ∈ l /\ in_frontier f e b x.
Proof.
  induction l as [|y l IH]; intros h Hh Hl; cbn [ofold].
  - exists h. split_and!; [done|by split; [apply same_code_refl|]|]. intros b _. split; [done|].
    intros x. rewrite elem_of_nil. tauto.
  - destruct (frontier_block_spec y h Hh) as (h1 & S & -> & [H1 H2 H3] & HS); [apply Hl; left|]. cbn [obind].
    destruct (IH h1) as (h2 & -> & H4 & H5); [by eapply same_tree_trans|intros x Hx; apply Hl; by right|].
    exists h2. split_and!; [done|by eapply same_tree_trans|]. intros b Hb. destruct (H5 b Hb) as [H6 H7].
    split; [auto|]. intros x. rewrite H7, H2, elem_of_cons, (HS b Hb). naive_solver.
Qed.

End frontier.

(** The frontiers leave the children alone. *)
Definition same_children (h h' : MirFunction) : Prop := forall b, children_of h' b = children_of h b.

#[local] Instance same_children_refl : Reflexive same_children.
Proof. done. Qed.
#[local] Instance same_children_trans : Transitive same_children.
Proof. intros h1 h2 h3 H1 H2 b. by rewrite H2, H1. Qed.

Lemma run_up_children y stop fuel : forall p h h', run_up fuel y stop p h = Ok h' -> same_children h h'.
Proof.
  induction fuel as [|fuel IH]; intros p h h'; cbn [run_up]; destruct (decide (Some p = stop)); try by intros [= <-].
  destruct (block_at h p) as [blk|] eqn:Hp; [|done]. cbn [of_option obind].
  set (h1 := if decide _ then h else _). assert (H1 : same_children h h1).
  { unfold h1. destruct (decide (y ∈ dom_frontier blk)); [done|]. intros b. unfold children_of. rewrite block_at_upd.
    destruct (decide (b = p)) as [->|]; [|done]. by rewrite Hp. }
  destruct (idom blk) as [q|]; [|by intros [= <-]]. intros H%IH. by etransitivity.
Qed.

Lemma fold_children {A} (step : A -> MirFunction -> outcome MirFunction) l :
  (forall x h h', step x h = Ok h' -> same_children h h') -> forall h h', ofold step l h = Ok h' -> same_children h h'.
Proof.
  intros Hs. induction l as [|x l IH]; intros h h'; cbn [ofold]; [by intros [= <-]|].
  destruct (step x h) as [h1| |] eqn:E; [|done..]. cbn [obind]. intros H%IH. etransitivity; [by eapply Hs|done].
Qed.

Lemma loop_children l h h' : ofold frontier_block l h = Ok h' -> same_children h h'.
Proof.
  apply fold_children. clear. intros y h h'. unfold frontier_block. destruct (block_at h y) as [blk|]; [|done]. cbn [of_option obind].
  destruct (_ <? 2)%nat; [by intros [= <-]|]. apply fold_children. intros p h1 h2. apply run_up_children.
Qed.

Lemma tree_moves f e g h : dominator_tree f e g -> same_tree g h -> same_children g h -> dominator_tree f e h.
Proof.
  intros Hg [Hc Hi] Hk. pose proof Hg as [D1 D2 D3 D4 D5 D6 (rpo & Hrpo & Ht)].
  assert (Hanc : forall b d, anc h b d <-> anc g b d).
  { intros b d. split; apply rtc_subrel; intros x y; by rewrite Hi. }
  split.
  - by eapply same_code_trans.
  - by rewrite Hi.
  - intros b d Hb. rewrite Hanc. by apply D3.
  - intros b Hb Hne. rewrite Hi. by apply D4.
  - intros b Hb. rewrite Hk. destruct (D5 b Hb) as [Hnd H]. split; [done|]. intros c. rewrite Hi. apply H.
  - intros b Hb Hn. rewrite Hi. by apply D6.
  - exists rpo. split; [done|]. split.
    + eapply same_code_trans; [apply Ht|done].
    + rewrite Hi. apply Ht.
    + intros b Hb [p Hp]. rewrite Hi in Hp. apply (t_in _ _ _ _ Ht b Hb). by exists p.
    + intros b p Hb Hne Hp. rewrite Hi in Hp. unfold proc. rewrite Hi. by apply (t_up _ _ _ _ Ht).
Qed.

Section theorem.
Context (f : MirFunction) (e : nat) (Hwf : cfg_wf f e).
Context (Hstale : forall b, b ∈ block_list f -> ~ reach f e b -> idom_of f b = None).
Context (Hentry : forall p, p ∈ block_list f -> ~ edge f p e).

Lemma frontiers_spec : exists g h,
  mir_compute_dominators f = Ok g /\ mir_compute_dom_frontiers g = Ok h /\
  dominator_tree f e g /\ dominator_tree f e h /\
  forall b, reach f e b -> NoDup (frontier_of h b) /\
    forall y, y ∈ frontier_of h b <-> in_frontier f e b y.
Proof.
  destruct (dominators_spec f e Hwf Hstale) as (g & Hg & Hdt). exists g.
  destruct (dt_order _ _ _ Hdt) as (rpo & Hrpo & Ht). unfold mir_compute_dom_frontiers.
  rewrite (same_code_list _ _ (dt_code _ _ _ Hdt)). set (g0 := upd_all _ _ g).
  assert (H0 : same_tree g g0).
  { split; [by apply upd_all_code|]. intros b. unfold idom_of, g0, upd_all.
    destruct (decide (b ∈ block_list f)) as [Hb|Hb].
    - rewrite upd_all_at by (apply (ids_nodup f), Hwf). rewrite decide_True by done. by destruct (block_at g b).
    - rewrite upd_all_at by (apply (ids_nodup f), Hwf). by rewrite decide_False. }
  assert (Hnil : forall b, b ∈ block_list f -> frontier_of g0 b = []).
  { intros b Hb. unfold frontier_of, g0, upd_all. rewrite upd_all_at by (apply (ids_nodup f), Hwf).
    rewrite decide_True by done. by destruct (block_at g b). }
  destruct (frontier_loop f e Hwf g Hdt rpo Hrpo Ht Hentry (block_list f) g0 H0) as (h & Hh & H1 & H2); [done|].
  exists h. split_and!; [done|exact Hh|done| |].
  - apply (tree_moves f e g); [done|by eapply same_tree_trans|]. etransitivity; [|by eapply loop_children].
    intros b. unfold children_of, g0, upd_all. rewrite upd_all_at by (apply (ids_nodup f), Hwf).
    destruct (decide (b ∈ block_list f)); [|done]. by destruct (block_at g b).
  - intros b Hb. assert (Hbl : b ∈ block_list f) by (by apply (reach_in f e Hwf rpo Hrpo)).
    destruct (H2 b Hb) as [Hnd Hx]. rewrite (Hnil b Hbl) in Hnd, Hx. split; [apply Hnd; constructor|].
    intros y. rewrite Hx, elem_of_nil. split; [tauto|]. intros Hf. right. split; [|done].
    destruct Hf as (p & Hp & Hpy & _). apply (reach_in f e Hwf rpo Hrpo). by eapply rtc_r.
Qed.

(** C26: the dominator tree and the dominance frontiers are those of their
    definitions.  On every control flow graph of at most 4096 blocks with
    consistent predecessor and successor lists, an entry without predecessors
    and no stale tree, [mir_compute_dominators] and behind it
    [mir_compute_dom_frontiers] complete within their arrays.  The [idom] chain
    of a reachable block is exactly the set of its dominators (the blocks on
    every path from the entry), [idom] is its closest strict dominator, the
    children lists are the inverse of [idom].  The frontier of a reachable block
    [b] lists, each once, exactly the blocks that have a reachable predecessor
    dominated by [b] without being strictly dominated by [b] themselves,
    although the code only looks at blocks with two predecessors and stops at
    their immediate dominator.  Nothing else of the function has changed. *)
Theorem frontiers_correct : exists g h,
  mir_compute_dominators f = Ok g /\ mir_compute_dom_frontiers g = Ok h /\
  dominator_tree f e g /\ dominator_tree f e h /\
  forall b, reach f e b -> NoDup (frontier_of h b) /\
    forall y, y ∈ frontier_of h b <-> in_frontier f e b y.
Proof. apply frontiers_spec. Qed.

End theorem.

(** ** Witnesses: a diamond around a loop *)

(** The invariant as a test. *)
Definition cfg_wfb (f : MirFunction) (e : nat) : bool :=
  let bl := block_list f in
  let preds b := default [] (predecessors <$> block_at f b) in
  let succs b := default [] (successors <$> block_at f b) in
  bool_decide (entry_block f = Some e) && bool_decide (e ∈ bl) &&
  (length bl <=? MAX_BLOCKS)%nat &&
  bool_decide (imap (fun i b => id <$> block_at f b) bl = imap (fun i _ => Some (Z.of_nat i)) bl) &&
  forallb (fun b => forallb (fun s => bool_decide (s ∈ bl)) (succs b)) bl &&
  forallb (fun c => forallb (fun p => bool_decide (p ∈ bl) && bool_decide (c ∈ succs p)) (preds c) &&
                    forallb (fun p => negb (bool_decide (c ∈ succs p)) || bool_decide (p ∈ preds c)) bl) bl.

Lemma forallb_elem {A} (p : A -> bool) l x : forallb p l = true -> x ∈ l -> p x = true.
Proof. intros Hl Hx. rewrite forallb_forall in Hl. by apply Hl, list_elem_of_In. Qed.

Lemma cfg_wfb_sound f e : cfg_wfb f e = true -> cfg_wf f e.
Proof.
  unfold cfg_wfb. intros H. rewrite !andb_true_iff in H.
  destruct H as [[[[[He%bool_decide_eq_true Hin%bool_decide_eq_true] Hlen%Nat.leb_le] Hid%bool_decide_eq_true] Hsucc] Hpred].
  split; [|done..| |].
  - intros i b Hi. apply (f_equal (lookup i)) in Hid. rewrite !list_lookup_imap, Hi in Hid. simpl in Hid.
    destruct (block_at f b) as [blk|]; [|done]. exists blk. split; [done|]. simpl in Hid. congruence.
  - intros b blk s Hb Hblk Hs. pose proof (forallb_elem _ _ _ Hsucc Hb) as H1. simpl in H1.
    rewrite Hblk in H1. simpl in H1. by eapply bool_decide_eq_true, (forallb_elem _ _ _ H1).
  - intros c blk p Hc Hblk. pose proof (forallb_elem _ _ _ Hpred Hc) as H1. simpl in H1.
    rewrite Hblk in H1. simpl in H1. apply andb_true_iff in H1 as [H1 H2]. split.
    + intros Hp. pose proof (forallb_elem _ _ _ H1 Hp) as H3. simpl in H3.
      apply andb_true_iff in H3 as [H3%bool_decide_eq_true H4%bool_decide_eq_true]. split; [done|].
      destruct (block_at f p) as [pb|] eqn:Hpb; [by exists pb|by apply not_elem_of_nil in H4].
    + intros [Hp (pb & Hpb & Hs)]. pose proof (forallb_elem _ _ _ H2 Hp) as H3. simpl in H3.
      rewrite Hpb in H3. simpl in H3. apply orb_true_iff in H3 as [H3|H3].
      * apply negb_true_iff, bool_decide_eq_false in H3. done.
      * by apply bool_decide_eq_true in H3.
Qed.

Definition dom_block (i : Z) (ps ss : list nat) : MirBlock :=
  mkBlock i "bb" [] 0 ps ss None [] [] 0 false.

(** [0 -> 1, 2; 1 -> 3; 2 -> 3; 3 -> 1, 4]. *)
Definition ex_loop : MirFunction :=
  mkFunction "loop" 1 [] (Some 0%nat)
    [dom_block 0 [] [1; 2]%nat; dom_block 1 [0; 3]%nat [3%nat]; dom_block 2 [0%nat] [3%nat];
     dom_block 3 [1; 2]%nat [1; 4]%nat; dom_block 4 [3%nat] []]
    [0; 1; 2; 3; 4]%nat 5 1 [] false false false.

Lemma frontiers_correct_witness : cfg_wf ex_loop 0 /\ exists g h,
  mir_compute_dominators ex_loop = Ok g /\ mir_compute_dom_frontiers g = Ok h /\
  dominator_tree ex_loop 0 g /\ dominator_tree ex_loop 0 h /\
  forall b, reach ex_loop 0 b -> NoDup (frontier_of h b) /\
    forall y, y ∈ frontier_of h b <-> in_frontier ex_loop 0 b y.
Proof.
  split; [apply cfg_wfb_sound; vm_compute; reflexivity|].
  apply frontiers_correct.
  - apply cfg_wfb_sound; vm_compute; reflexivity.
  - intros b Hb _. apply list_elem_of_In in Hb. by repeat destruct Hb as [<- | Hb].
  - intros p Hp (blk & Hblk & Hs). apply list_elem_of_In in Hp, Hs.
    repeat destruct Hp as [<- | Hp]; try done; injection Hblk as <-; simpl in Hs; lia.
Defined.
