(* ===== verification/TypeFacts.v ===== *)
(** * Allocation and types of the IR

    Every allocation of [Arena.mir_arena_alloc] of MirCore.v is in bounds,
    aligned and disjoint from the others; interned types are canonical; the
    layout of structures is sound. *)
From S2P Require Import Prelude MirCore.

Import Arena.

(** Requests below this bound never wrap [size_t] arithmetic. *)
Definition MAX_REQUEST : Z := 2 ^ 60.

Definition block_wf (b : MirArenaBlock) : Prop :=
  0 <= used b <= capacity b /\ capacity b <= 2 ^ 62 /\ used b mod 8 = 0.

Definition arena_wf (a : MirArena) : Prop := chain a <> [] /\ Forall block_wf (chain a).

(** A live allocation: where it starts and how many bytes it owns. *)
Definition region : Type := ArenaPtr * Z.

Definition region_in (a : MirArena) (r : region) : Prop :=
  exists b, chain a !! ap_block r.1 = Some b /\
            0 <= ap_off r.1 /\ ap_off r.1 + r.2 <= used b /\ ap_off r.1 mod 8 = 0.

Definition disjoint_regions (r1 r2 : region) : Prop :=
  ap_block r1.1 <> ap_block r2.1 \/
  ap_off r1.1 + r1.2 <= ap_off r2.1 \/ ap_off r2.1 + r2.2 <= ap_off r1.1.

(** A sequence of requests, each answered with its region. *)
Fixpoint arena_allocs (a : MirArena) (sizes : list Z) : MirArena * list region :=
  match sizes with
  | [] => (a, [])
  | s :: sizes =>
      match mir_arena_alloc a s with
      | (a, Some p) => let '(a, rs) := arena_allocs a sizes in (a, (p, s) :: rs)
      | (a, None) => arena_allocs a sizes
      end
  end.

Lemma align8_spec s :
  0 <= s <= MAX_REQUEST -> align8 s mod 8 = 0 /\ s <= align8 s < s + 8.
Proof.
  intros Hs. unfold align8, MAX_REQUEST in *.
  assert (H8 : Z.land (u64 (s + 7)) (u64 (Z.lnot 7)) = round_up s 8).
  { replace (s + 7) with (s + 8 - 1) by lia. apply (align_word s 8 3); lia. }
  rewrite H8. by destruct (round_up_spec s 8).
Qed.

Lemma create_wf : arena_wf mir_arena_create.
Proof.
  split; [done|]. repeat constructor; simpl; unfold MIR_ARENA_BLOCK_SIZE; try lia.
Qed.

(** The chain the request is served from: the current block, or a new one. *)
Lemma alloc_target a s :
  arena_wf a -> 0 <= s <= MAX_REQUEST ->
  exists ch cur,
    (ch = chain a \/ exists b, ch = chain a ++ [b] /\ used b = 0) /\
    Forall block_wf ch /\ ch !! (length ch - 1)%nat = Some cur /\
    used cur + align8 s <= capacity cur /\
    mir_arena_alloc a s =
      (mkArena (<[(length ch - 1)%nat := mkArenaBlock (capacity cur) (used cur + align8 s)]> ch)
               (u64 (total_allocated a + align8 s)),
       Some (mkArenaPtr (length ch - 1) (used cur))).
Proof.
  intros [Hne Hwf] Hs. pose proof (align8_spec s Hs) as [Ha Hb].
  unfold MAX_REQUEST in Hs.
  destruct (exists_last Hne) as (bs & b0 & Hch). rewrite Hch in *. clear Hne.
  pose proof Hwf as Hl. rewrite Forall_app, Forall_singleton in Hl.
  destruct Hl as (_ & Hu & Hc & Hmod).
  unfold mir_arena_alloc. rewrite Hch. rewrite last_snoc.
  rewrite (u64_small (used b0 + align8 s)) by lia.
  assert (Hlen : forall (k : list MirArenaBlock) b, (k ++ [b]) !! (length (k ++ [b]) - 1)%nat = Some b).
  { intros k b. rewrite length_app. simpl. rewrite Nat.add_sub. apply list_lookup_middle. lia. }
  destruct (Z.ltb_spec (capacity b0) (used b0 + align8 s)) as [Hfull|Hfit].
  - set (sz := if _ <? _ then _ else _).
    assert (Hsz : align8 s <= sz <= 2 ^ 62).
    { subst sz. unfold MIR_ARENA_BLOCK_SIZE. destruct (Z.ltb_spec (64 * 1024) (align8 s)).
      - rewrite u64_small by lia. lia.
      - lia. }
    clearbody sz.
    exists ((bs ++ [b0]) ++ [mir_arena_block_create sz]), (mir_arena_block_create sz).
    rewrite !Hlen. split_and!; [|..|done|simpl; lia|]; simpl.
    + right. eauto.
    + rewrite Forall_app, Forall_singleton. split; [done|]. unfold block_wf; simpl; split_and!; [lia..|done].
    + rewrite (u64_small (0 + align8 s)) by lia. done.
  - exists (bs ++ [b0]), b0. rewrite Hlen. split_and!; eauto.
    by rewrite (u64_small (used b0 + align8 s)) by lia.
Qed.

Lemma alloc_spec a s :
  arena_wf a -> 0 <= s <= MAX_REQUEST ->
  exists a' p,
    mir_arena_alloc a s = (a', Some p) /\ arena_wf a' /\ region_in a' (p, s) /\
    (forall r, region_in a r -> region_in a' r /\ disjoint_regions r (p, s)).
Proof.
  intros Hwf Hs. pose proof (align8_spec s Hs) as [Ha Hb].
  destruct (alloc_target a s Hwf Hs) as (ch & cur & Hch & Hall & Hcur & Hfit & ->).
  set (i := (length ch - 1)%nat) in *. set (nb := mkArenaBlock _ (used cur + _)).
  assert (Hi : (i < length ch)%nat) by (by apply lookup_lt_Some in Hcur).
  pose proof (Forall_lookup_1 _ _ _ _ Hall Hcur) as (Hu & Hc & Hm).
  eexists _, _. split; [done|]. split_and!.
  - split; simpl.
    + intros H%(f_equal length). rewrite length_insert in H. simpl in H. lia.
    + apply Forall_insert; [done|]. split_and!; simpl; [lia|lia|lia|].
      rewrite Z.add_mod, Hm, Ha by lia. done.
  - exists nb. simpl. split_and!; [|lia|lia|done].
    by rewrite list_lookup_insert_eq.
  - intros r (b & Hb1 & Ho1 & Ho2 & Ho3).
    assert (Hbch : ch !! ap_block r.1 = Some b).
    { destruct Hch as [-> | (b' & -> & _)]; [done|]. by apply lookup_app_l_Some. }
    destruct (decide (ap_block r.1 = i)) as [Heq|Hne].
    + rewrite Heq in Hbch. rewrite Hcur in Hbch. injection Hbch as <-. split.
      * exists nb. simpl. rewrite Heq, list_lookup_insert_eq by done. split_and!; auto; lia.
      * right. left. simpl. lia.
    + split; [|by left]. exists b. simpl. by rewrite list_lookup_insert_ne.
Qed.

Lemma arena_allocs_ok a sizes :
  arena_wf a -> Forall (fun s => 0 <= s <= MAX_REQUEST) sizes ->
  exists a' rs,
    arena_allocs a sizes = (a', rs) /\ length rs = length sizes /\ arena_wf a' /\
    Forall (region_in a') rs /\ ForallOrdPairs disjoint_regions rs /\
    (forall r, region_in a r -> region_in a' r /\ Forall (disjoint_regions r) rs).
Proof.
  revert a. induction sizes as [|s sizes IH]; intros a Hwf Hs; simpl.
  - exists a, []. split_and!; auto using FOP_nil.
  - apply Forall_cons_1 in Hs as [Hs Hss].
    destruct (alloc_spec a s Hwf Hs) as (a1 & p & -> & Hwf1 & Hin & Hkeep).
    destruct (IH a1 Hwf1 Hss) as (a2 & rs & -> & Hlen & Hwf2 & Hall & Hpair & Hold).
    exists a2, ((p, s) :: rs). destruct (Hold _ Hin) as [Hin2 Hd2].
    split_and!; simpl; auto.
    + by constructor.
    + intros r Hr. destruct (Hkeep r Hr) as [Hr1 Hd]. destruct (Hold r Hr1) as [Hr2 Hds].
      split; [done|]. by constructor.
Qed.

(** For any sequence of requests served by a fresh arena, every request
    gets a region, the regions lie inside the used part of their blocks and
    start at 8-byte boundaries, and any two of them are disjoint. *)
Theorem arena_allocs_disjoint (sizes : list Z)
  (Hsizes : Forall (fun s => 0 <= s <= MAX_REQUEST) sizes) :
  exists a rs,
    arena_allocs mir_arena_create sizes = (a, rs) /\ length rs = length sizes /\
    Forall (region_in a) rs /\ ForallOrdPairs disjoint_regions rs.
Proof.
  destruct (arena_allocs_ok _ sizes create_wf Hsizes) as (a & rs & ? & ? & _ & ? & ? & _).
  by exists a, rs.
Qed.

Lemma arena_allocs_disjoint_witness :
  exists a rs,
    arena_allocs mir_arena_create [12; 70000; 3; 65536] = (a, rs) /\ length rs = 4%nat /\
    Forall (region_in a) rs /\ ForallOrdPairs disjoint_regions rs.
Proof.
  apply (arena_allocs_disjoint [12; 70000; 3; 65536]).
  repeat constructor; unfold MAX_REQUEST; lia.
Defined.

(** ** MIR types: interning is canonical and struct layout is sound

    Facts about the type constructors of [MirCore.v]. *)

(** ** Interning *)

(** What a type node is identified by, when its constructor interns it. *)
Inductive type_key :=
| KPrim (k : MirTypeKind)
| KPtr (pointee : tyref)
| KRef (pointee : tyref) (is_mut : bool)
| KStruct (name : string)
| KArray (elem : tyref) (count : Z).

Definition key_of (t : MirType) : option type_key :=
  match t with
  | TyPrim k => if is_compound k then None else Some (KPrim k)
  | TyPtr p => Some (KPtr p)
  | TyRef p m => Some (KRef p m)
  | TyStruct (Some n) _ _ _ => Some (KStruct n)
  | TyStruct None _ _ _ => None
  | TyArray e c => Some (KArray e c)
  | TyFunc _ _ | TySlice _ => None
  end.

(** One call of a type constructor. *)
Inductive type_op :=
| OpPrim (k : MirTypeKind)
| OpPtr (pointee : tyref)
| OpRef (pointee : tyref) (is_mut : bool)
| OpStruct (name : option string) (fields : list tyref)
| OpArray (elem : tyref) (count : Z)
| OpFunc (ret : tyref) (params : list tyref).

Definition run_op (tc : list MirType) (op : type_op) : list MirType * tyref :=
  match op with
  | OpPrim k => mir_intern_primitive tc k
  | OpPtr p => mir_type_ptr tc p
  | OpRef p m => mir_type_ref tc p m
  | OpStruct n fs => mir_type_struct tc n fs
  | OpArray e c => mir_type_array tc e c
  | OpFunc r ps => mir_type_func tc r ps
  end.

Definition run_ops (tc : list MirType) (ops : list type_op) : list MirType :=
  foldl (fun tc op => (run_op tc op).1) tc ops.

Definition op_key (op : type_op) : option type_key :=
  match op with
  | OpPrim k => if is_compound k then None else Some (KPrim k)
  | OpPtr p => Some (KPtr p)
  | OpRef p m => Some (KRef p m)
  | OpStruct n _ => KStruct <$> n
  | OpArray e c => Some (KArray e c)
  | OpFunc _ _ => None
  end.

(** The calls the code makes: primitives are never compound kinds, array
    counts are not negative. *)
Definition op_ok (op : type_op) : Prop :=
  match op with
  | OpPrim k => is_compound k = false
  | OpArray _ c => 0 <= c
  | _ => True
  end.

(** The invariant of the cache: interned nodes have pairwise distinct keys. *)
Definition cache_unique (tc : list MirType) : Prop :=
  forall i j t u k, tc !! i = Some t -> tc !! j = Some u ->
    key_of t = Some k -> key_of u = Some k -> i = j.

Lemma ty_deref_ptr_at tc i : ty_deref tc (ptr_at i) = tc !! i.
Proof.
  unfold ty_deref, ptr_at. destruct (N.eqb_spec (N.of_nat (S i)) 0); [lia|].
  f_equal. lia.
Qed.

Lemma ptr_at_inj i j : ptr_at i = ptr_at j -> i = j.
Proof. unfold ptr_at. lia. Qed.

(** The search of each constructor hits exactly the nodes with its key. *)
Lemma type_intern_spec tc hit t k :
  (forall u, hit u = true <-> key_of u = Some k) -> key_of t = Some k ->
  exists i u,
    let r := type_intern tc hit t in
    (r.1 = tc \/ r.1 = tc ++ [t] /\ find_idx hit tc = None) /\
    r.2 = ptr_at i /\ r.1 !! i = Some u /\ key_of u = Some k.
Proof.
  intros Hhit Hk. unfold type_intern, type_cache_push.
  destruct (find_idx hit tc) as [i|] eqn:E; simpl.
  - destruct (find_idx_Some _ _ _ E) as (u & Hu & Hh & _). exists i, u.
    split_and!; auto. by apply Hhit.
  - exists (length tc), t. split_and!; auto. by apply list_lookup_middle.
Qed.

Lemma cache_unique_push tc t :
  cache_unique tc ->
  (forall k u, key_of t = Some k -> u ∈ tc -> key_of u <> Some k) ->
  cache_unique (tc ++ [t]).
Proof.
  intros Hu Hfresh i j a b k Hi Hj Ha Hb.
  apply lookup_snoc_Some in Hi as [[? Hi]|[-> ->]], Hj as [[? Hj]|[-> ->]]; auto.
  - by eapply Hu.
  - by destruct (Hfresh _ _ Hb (list_elem_of_lookup_2 _ _ _ Hi)).
  - by destruct (Hfresh _ _ Ha (list_elem_of_lookup_2 _ _ _ Hj)).
Qed.

(** What a constructor call does to the cache, whatever the constructor. *)
Record op_result (tc : list MirType) (op : type_op) (tc' : list MirType) (p : tyref) : Prop := {
  op_grows : exists suffix, tc' = tc ++ suffix;
  op_keeps_unique : cache_unique tc -> cache_unique tc';
  op_points : exists i t, p = ptr_at i /\ tc' !! i = Some t /\ key_of t = op_key op
}.

Lemma intern_result tc op hit t k :
  run_op tc op = type_intern tc hit t ->
  (forall u, hit u = true <-> key_of u = Some k) ->
  key_of t = Some k -> op_key op = Some k ->
  op_result tc op (run_op tc op).1 (run_op tc op).2.
Proof.
  intros Hrun Hhit Hk Hop. rewrite Hrun.
  destruct (type_intern_spec tc hit t k Hhit Hk) as (i & u & Hgrow & Hp & Hi & Hu).
  split.
  - destruct Hgrow as [->|[-> _]]; [|by eexists]. exists []. by rewrite app_nil_r.
  - intros Hun. destruct Hgrow as [->|[-> E]]; [done|]. apply cache_unique_push; [done|].
    intros k' v Hk' Hv Hkv. rewrite find_idx_None in E.
    specialize (E v Hv). assert (hit v = true); [|congruence]. apply Hhit. congruence.
  - exists i, u. by rewrite Hop.
Qed.

Lemma push_result tc op t :
  run_op tc op = type_cache_push tc t -> key_of t = None -> op_key op = None ->
  op_result tc op (run_op tc op).1 (run_op tc op).2.
Proof.
  intros -> Hk Hop. unfold type_cache_push. simpl. split.
  - by eexists.
  - intros Hun. apply cache_unique_push; [done|]. congruence.
  - exists (length tc), t. rewrite Hop. split_and!; auto. by apply list_lookup_middle.
Qed.

Lemma kind_is_key u k :
  is_compound k = false -> (ty_kind u = k <-> key_of u = Some (KPrim k)).
Proof.
  intros Hk. destruct u as [k'| |p []| |[?|]| |]; simpl;
    try (split; [intros <-; discriminate|discriminate]).
  destruct (is_compound k') eqn:E; split; try congruence; by intros [= ->].
Qed.

(** Reduces a search to the equality of keys, by cases on the node. *)
Ltac hit_cases :=
  let u := fresh "u" in
  intros u; destruct u as [?k| | | |[?n|]| |]; simpl;
  try (match goal with |- context [is_compound ?k] => destruct (is_compound k) end);
  try (split; congruence);
  rewrite ?andb_true_iff, ?eqb_true_iff, ?bool_decide_eq_true, ?N.eqb_eq, ?Z.eqb_eq;
  split; [by intuition congruence | by intros [= ]; subst].

Lemma struct_none_misses tc :
  find_idx (fun t => match t, @None string with
    | TyStruct (Some n) _ _ _, Some n' => bool_decide (n = n') | _, _ => false end) tc = None.
Proof. apply find_idx_None. intros u _. by destruct u as [| | | |[?|]| |]. Qed.

Lemma run_op_result tc op :
  op_ok op -> op_result tc op (run_op tc op).1 (run_op tc op).2.
Proof.
  destruct op as [k|p|p m|[n|] fs|e c|r ps]; intros Hok.
  - eapply (intern_result _ _ _ _ (KPrim k)); [reflexivity| | |]; simpl in *; rewrite ?Hok; auto.
    intros u. rewrite andb_true_r, bool_decide_eq_true. by apply kind_is_key.
  - eapply (intern_result _ _ _ _ (KPtr p)); [reflexivity| | |]; simpl; auto. hit_cases.
  - eapply (intern_result _ _ _ _ (KRef p m)); [reflexivity| | |]; simpl; auto. hit_cases.
  - destruct (struct_layout tc fs 0 1) as [s a] eqn:E.
    eapply (intern_result tc (OpStruct (Some n) fs) _ (TyStruct (Some n) fs (align_to s a) a)
              (KStruct n)); [unfold run_op, mir_type_struct; by rewrite E| |done|done].
    hit_cases.
  - destruct (struct_layout tc fs 0 1) as [s a] eqn:E.
    apply (push_result tc (OpStruct None fs) (TyStruct None fs (align_to s a) a)); auto.
    simpl. unfold mir_type_struct. rewrite E. unfold type_intern.
    by rewrite struct_none_misses.
  - eapply (intern_result _ _ _ _ (KArray e c)); [reflexivity| | |]; simpl; auto. hit_cases.
  - by eapply push_result.
Qed.

Lemma run_ops_app tc ops1 ops2 : run_ops tc (ops1 ++ ops2) = run_ops (run_ops tc ops1) ops2.
Proof. apply foldl_app. Qed.

Lemma run_ops_result tc ops :
  Forall op_ok ops ->
  (exists suffix, run_ops tc ops = tc ++ suffix) /\
  (cache_unique tc -> cache_unique (run_ops tc ops)).
Proof.
  revert tc. induction ops as [|op ops IH]; intros tc Hok.
  - split; [|done]. exists []. by rewrite app_nil_r.
  - apply Forall_cons_1 in Hok as [Hop Hok].
    destruct (run_op_result tc op Hop) as [[s1 Hs1] Hu1 _].
    destruct (IH (run_op tc op).1 Hok) as [[s2 Hs2] Hu2]. simpl. split; [|auto].
    exists (s1 ++ s2). by rewrite Hs2, Hs1, app_assoc.
Qed.

(** Interning is canonical.  Take any two calls of interning type
    constructors in the life of a module, with any calls before, between and
    after them: the two returned pointers are equal exactly when the calls ask
    for the same type (the same primitive kind, pointee, element and count,
    or structure name). *)
Theorem type_interning_canonical ops1 op1 ops2 op2 k1 k2
  (Hok : Forall op_ok (ops1 ++ op1 :: ops2 ++ [op2]))
  (Hk1 : op_key op1 = Some k1) (Hk2 : op_key op2 = Some k2) :
  let r1 := run_op (run_ops [] ops1) op1 in
  let r2 := run_op (run_ops r1.1 ops2) op2 in
  r1.2 = r2.2 <-> k1 = k2.
Proof.
  apply Forall_app in Hok as [Hok1 Hok]. apply Forall_cons_1 in Hok as [Hop1 Hok].
  apply Forall_app in Hok as [Hok2 Hop2%Forall_inv].
  destruct (run_ops_result [] ops1 Hok1) as [_ Hu1].
  set (tc1 := run_ops [] ops1) in *.
  assert (Hun1 : cache_unique tc1) by (by apply Hu1; intros ?????).
  destruct (run_op_result tc1 op1 Hop1) as [_ Hun1' (i1 & t1 & Hp1 & Ht1 & Hkt1)].
  destruct (run_ops_result (run_op tc1 op1).1 ops2 Hok2) as [[s2 Hs2] Hu2].
  set (tc2 := run_ops (run_op tc1 op1).1 ops2) in *.
  destruct (run_op_result tc2 op2 Hop2) as [[s3 Hs3] Hun3 (i2 & t2 & Hp2 & Ht2 & Hkt2)].
  cbv zeta. change (run_ops (run_op tc1 op1).1 ops2) with tc2. rewrite Hp1, Hp2.
  assert (Ht1' : (run_op tc2 op2).1 !! i1 = Some t1).
  { rewrite Hs3, Hs2, <- app_assoc. by apply lookup_app_l_Some. }
  split; intros H.
  - apply ptr_at_inj in H as ->. congruence.
  - subst k2. f_equal.
    eapply (Hun3 (Hu2 (Hun1' Hun1)) i1 i2 t1 t2 k1); [done|done|congruence|congruence].
Qed.

Lemma type_interning_canonical_witness :
  let ops1 := [OpPrim MIR_TYPE_I64; OpPtr 1] in
  let r1 := run_op (run_ops [] ops1) (OpArray 1 8) in
  let r2 := run_op (run_ops r1.1 [OpStruct (Some "P"%string) [1; 2]%N; OpPrim MIR_TYPE_U8])
              (OpArray 1 8) in
  r1.2 = r2.2 <-> KArray 1 8 = KArray 1 8.
Proof.
  apply (type_interning_canonical [OpPrim MIR_TYPE_I64; OpPtr 1] (OpArray 1 8)
           [OpStruct (Some "P"%string) [1; 2]%N; OpPrim MIR_TYPE_U8] (OpArray 1 8));
    [repeat constructor; simpl; lia | reflexivity | reflexivity].
Defined.

(** ** Struct layout *)

Definition pow2_align (a : Z) : Prop := a = 1 \/ a = 2 \/ a = 4 \/ a = 8.

Lemma align_to_spec off a :
  0 <= off -> pow2_align a -> off <= align_to off a < off + a /\ align_to off a mod a = 0.
Proof.
  intros Ho Ha. unfold align_to.
  assert (exists k, 0 <= k /\ a = 2 ^ k /\ a - 1 = Z.ones k) as (k & Hk & Hak & Hones).
  { destruct Ha as [-> | [-> | [-> | ->]]]; [exists 0|exists 1|exists 2|exists 3]; by split_and!. }
  rewrite Hones, ldiff_ones, <- Hak by done. apply round_up_spec.
  destruct Ha as [-> | [-> | [-> | ->]]]; lia.
Qed.

Definition node_ok (t : MirType) : Prop :=
  match t with
  | TyPrim k => is_compound k = false
  | TyStruct _ _ s a => 0 <= s /\ pow2_align a /\ s mod a = 0
  | TyArray _ c => 0 <= c
  | _ => True
  end.

Lemma type_align_size_ok tc fuel t :
  Forall node_ok tc -> pow2_align (type_align_at fuel tc t) /\ 0 <= type_size_at fuel tc t.
Proof.
  intros Hall. revert t. unfold pow2_align.
  induction fuel as [|fuel IH]; intros t; simpl; [lia|].
  destruct (ty_deref tc t) as [ty|] eqn:Hd; [|lia].
  assert (Hn : node_ok ty).
  { unfold ty_deref in Hd. destruct (t =? 0)%N; [done|]. by eapply Forall_lookup_1. }
  destruct ty as [k| | | |n fs s a|e c|]; simpl in *; unfold pow2_align in *; try lia.
  - destruct k; simpl in *; try discriminate; lia.
  - destruct (IH e). split; [done|]. by apply Z.mul_nonneg_nonneg.
Qed.

Lemma max_align a b :
  pow2_align a -> pow2_align b ->
  pow2_align (if a <? b then b else a) /\ (a | if a <? b then b else a) /\
  (b | if a <? b then b else a).
Proof.
  intros Ha Hb. destruct (Z.ltb_spec a b); (split; [done|]);
    destruct Ha as [-> | [-> | [-> | ->]]], Hb as [-> | [-> | [-> | ->]]]; try lia;
    split; first [by exists 1 | by exists 2 | by exists 4 | by exists 8].
Qed.

(** Where the layout loop puts each field. *)
Fixpoint field_offsets (tc : list MirType) (fields : list tyref) (off : Z) : list (Z * Z) :=
  match fields with
  | [] => []
  | f :: fields =>
      let o := align_to off (mir_type_align tc f) in
      (o, mir_type_size tc f) :: field_offsets tc fields (o + mir_type_size tc f)
  end.

Definition field_at (tc : list MirType) (f : tyref) (p : Z * Z) : Prop :=
  0 <= p.1 /\ p.1 mod mir_type_align tc f = 0 /\ p.2 = mir_type_size tc f.

Lemma struct_layout_spec tc fields : Forall node_ok tc -> forall off align s a,
  0 <= off -> pow2_align align -> struct_layout tc fields off align = (s, a) ->
  off <= s /\ pow2_align a /\ (align | a) /\
  Forall (fun f => (mir_type_align tc f | a)) fields /\
  Forall2 (field_at tc) fields (field_offsets tc fields off) /\
  Forall (fun p => off <= p.1 /\ p.1 + p.2 <= s) (field_offsets tc fields off) /\
  ForallOrdPairs (fun p q => p.1 + p.2 <= q.1) (field_offsets tc fields off).
Proof.
  intros Htc. induction fields as [|f fields IH]; intros off align s a Hoff Hal; simpl.
  - intros [= <- <-]. split_and!; auto using FOP_nil; try lia. apply Z.divide_refl.
  - destruct (type_align_size_ok tc (S (length tc)) f Htc) as [Hfa Hfs].
    fold (mir_type_align tc f) in Hfa. fold (mir_type_size tc f) in Hfs.
    destruct (align_to_spec off _ Hoff Hfa) as [Hb Hmod].
    destruct (max_align _ _ Hal Hfa) as (Hm & Hd1 & Hd2).
    intros Heq. apply IH in Heq as (Hle & Ha & Hdiv & Hall & Hf2 & Hb2 & Hord); [|lia|done].
    assert (Hb3 : Forall (fun p => off <= p.1 /\ p.1 + p.2 <= s)
      (field_offsets tc fields (align_to off (mir_type_align tc f) + mir_type_size tc f))).
    { eapply Forall_impl; [|exact Hb2]. simpl. intros p Hp. lia. }
    split_and!; auto; try lia.
    + by eapply Z.divide_trans.
    + constructor; [|done]. by eapply Z.divide_trans.
    + constructor; [|done]. split_and!; simpl; auto. lia.
    + constructor; [|done]. simpl. lia.
    + constructor; [|done]. eapply Forall_impl; [|exact Hb2]. simpl. intros p Hp. lia.
Qed.

Lemma run_op_nodes tc op : op_ok op -> Forall node_ok tc -> Forall node_ok (run_op tc op).1.
Proof.
  intros Hok Htc.
  assert (Hpush : forall hit t, node_ok t -> Forall node_ok (type_intern tc hit t).1).
  { intros hit t Ht. unfold type_intern, type_cache_push.
    destruct (find_idx hit tc); simpl; [done|]. rewrite Forall_app, Forall_singleton. done. }
  destruct op as [k|p|p m|n fs|e c|r ps]; simpl in *; try (apply Hpush; done).
  - unfold mir_type_struct. destruct (struct_layout tc fs 0 1) as [s a] eqn:E.
    destruct (struct_layout_spec tc fs Htc 0 1 s a ltac:(lia) ltac:(by left) E) as (Hs & Ha & _).
    destruct (align_to_spec s a Hs Ha) as [Hb Hmod]. apply Hpush. simpl. split_and!; auto. lia.
  - rewrite Forall_app, Forall_singleton. done.
Qed.

Lemma run_ops_nodes ops tc : Forall op_ok ops -> Forall node_ok tc -> Forall node_ok (run_ops tc ops).
Proof.
  revert tc. induction ops as [|op ops IH]; intros tc Hok Htc; [done|].
  apply Forall_cons_1 in Hok as [Hop Hok]. apply IH; [done|]. by apply run_op_nodes.
Qed.

(** The layout of a new structure type, in any type cache the module's
    constructors can build: its alignment is 1, 2, 4 or 8 and a multiple of
    every field's; its size is a multiple of its alignment; each field lies
    at a multiple of its own alignment, after the end of the field before it
    and inside the structure; and the tail padding is less than the alignment. *)
Theorem struct_layout_sound ops name fields
  (Hops : Forall op_ok ops)
  (Hnew : Forall (fun t => key_of t <> op_key (OpStruct name fields)) (run_ops [] ops)) :
  let tc := run_ops [] ops in
  exists size align,
    (mir_type_struct tc name fields).1 = tc ++ [TyStruct name fields size align] /\
    pow2_align align /\ Forall (fun f => (mir_type_align tc f | align)) fields /\
    size mod align = 0 /\
    Forall2 (field_at tc) fields (field_offsets tc fields 0) /\
    ForallOrdPairs (fun p q => p.1 + p.2 <= q.1) (field_offsets tc fields 0) /\
    Forall (fun p => p.1 + p.2 <= size) (field_offsets tc fields 0) /\
    size < (struct_layout tc fields 0 1).1 + align.
Proof.
  set (tc := run_ops [] ops) in *. cbv zeta.
  assert (Htc : Forall node_ok tc) by (apply run_ops_nodes; [done|constructor]).
  destruct (struct_layout tc fields 0 1) as [s a] eqn:E.
  destruct (struct_layout_spec tc fields Htc 0 1 s a ltac:(lia) ltac:(by left) E)
    as (Hs & Ha & _ & Hdiv & Hf2 & Hb & Hord).
  destruct (align_to_spec s a Hs Ha) as [Hsz Hmod].
  exists (align_to s a), a. split_and!; auto; [| |simpl; lia].
  - unfold mir_type_struct, type_intern. rewrite E.
    match goal with |- context [find_idx ?h tc] => assert (find_idx h tc = None) as -> end; [|done].
    apply find_idx_None. intros t Ht. rewrite Forall_forall in Hnew. specialize (Hnew t).
    rewrite <- list_elem_of_In in Hnew. specialize (Hnew Ht).
    destruct t as [| | | |[n|]| |]; try done. destruct name as [n'|]; [|done].
    apply bool_decide_eq_false. intros ->. done.
  - eapply Forall_impl; [|exact Hb]. simpl. intros p Hp. lia.
Qed.

Lemma struct_layout_sound_witness :
  let tc := run_ops [] [OpPrim MIR_TYPE_U8; OpPrim MIR_TYPE_I64; OpPrim MIR_TYPE_I16] in
  exists size align,
    (mir_type_struct tc (Some "S"%string) [1; 2; 3]%N).1 =
      tc ++ [TyStruct (Some "S"%string) [1; 2; 3]%N size align] /\
    pow2_align align /\ Forall (fun f => (mir_type_align tc f | align)) [1; 2; 3]%N /\
    size mod align = 0 /\
    Forall2 (field_at tc) [1; 2; 3]%N (field_offsets tc [1; 2; 3]%N 0) /\
    ForallOrdPairs (fun p q => p.1 + p.2 <= q.1) (field_offsets tc [1; 2; 3]%N 0) /\
    Forall (fun p => p.1 + p.2 <= size) (field_offsets tc [1; 2; 3]%N 0) /\
    size < (struct_layout tc [1; 2; 3]%N 0 1).1 + align.
Proof.
  apply (struct_layout_sound [OpPrim MIR_TYPE_U8; OpPrim MIR_TYPE_I64; OpPrim MIR_TYPE_I16]
           (Some "S"%string) [1; 2; 3]%N).
  - repeat constructor.
  - vm_compute. repeat constructor; discriminate.
Defined.
