(* ===== verification/MirVerifyFacts.v ===== *)
(** * The verifier decides well-formedness

    The declarative predicate [well_formed] and the proof that
    [mir_verify_function] of [MirVerify.v] reports no error exactly on it;
    the breadth-first search visits exactly the blocks reachable from the
    entry; the linearity check finds exactly the double consumptions. *)
From S2P Require Import Prelude MirCore MirGraph MirVerify.

(** ** The structural invariant of functions

    [mir_function_add_block] and the renumbering of
    [mir_remove_unreachable_blocks] both give a block the [id] of its place in
    the list; branch targets are blocks of the function. *)
Record func_wf (f : MirFunction) : Prop := {
  wf_ids : ids_ok f;
  wf_count : block_count f = Z.of_nat (length (block_list f));
  wf_entry : entry_block f = head (block_list f);
  wf_targets : succs_closed (fun b => mir_collect_term_succs (block_last b) SUCC_CAP) f
}.

(** The successors the verifier follows: the operands of the terminator. *)
Abbreviation term_succs := (fun b => mir_collect_term_succs (block_last b) SUCC_CAP) (only parsing).
Definition reachable (f : MirFunction) : nat -> nat -> Prop := MirGraph.reachable term_succs f.

Section reach.
Context (f : MirFunction) (Hwf : func_wf f).

Abbreviation marked := (marked f).

Lemma pos_id i b : block_list f !! i = Some b -> block_id f b = Ok (Z.of_nat i).
Proof. apply block_id_pos, Hwf. Qed.

Lemma count_orphans_spec seen bl pre :
  block_list f = pre ++ bl -> length seen = length (block_list f) ->
  exists n, count_orphans f seen bl = Ok n /\ 0 <= n /\
            (n = 0 <-> forall b, b ∈ bl -> marked seen b).
Proof.
  revert pre. induction bl as [|b bl IH]; intros pre Hpre Hlen; simpl.
  - exists 0. split_and!; auto; [lia|]. split; [|done]. intros _ b Hb. by apply not_elem_of_nil in Hb.
  - assert (Hb : block_list f !! length pre = Some b) by (rewrite Hpre; by apply list_lookup_middle).
    rewrite (pos_id _ _ Hb). simpl. rewrite Nat2Z.id.
    destruct (IH (pre ++ [b])) as (n & -> & Hn & Hiff); [by rewrite <- app_assoc|done|].
    simpl. eexists. split; [done|].
    pose proof (b2z_nonneg (bool_decide (seen !! length pre = Some false))).
    split; [lia|].
    assert (Hb0 : b2z (bool_decide (seen !! length pre = Some false)) = 0 <-> marked seen b).
    { rewrite b2z_zero, bool_decide_eq_false. split.
      - intros Hne. exists (length pre). split; [done|].
        destruct (seen !! length pre) as [[]|] eqn:Hs; [done|done|].
        apply lookup_ge_None in Hs. apply lookup_lt_Some in Hb. lia.
      - intros (j & Hj & Hs). rewrite (pos_unique f (wf_ids f Hwf) _ _ _ Hb Hj), Hs. done. }
    split.
    + intros H0 c [->|Hc]%elem_of_cons; [apply Hb0; lia|]. apply Hiff; [lia|done].
    + intros Hall. assert (n = 0) by (apply Hiff; intros; apply Hall; by right).
      assert (marked seen b) as ?%Hb0 by (apply Hall; left). lia.
Qed.

(** The search answers the reachability question, without running out of
    bounds or of fuel. *)
Lemma cfg_reachable_spec :
  exists n, mir_verify_cfg_reachable f = Ok n /\ 0 <= n /\
    (n = 0 <-> forall b, b ∈ block_list f ->
                exists e, entry_block f = Some e /\ reachable f e b).
Proof.
  unfold mir_verify_cfg_reachable. rewrite (wf_count f Hwf), (wf_entry f Hwf), Nat2Z.id.
  destruct (block_list f) as [|e bl] eqn:Hbl.
  { simpl. exists 0. split_and!; auto; [lia|]. split; [|done]. intros _ b Hb. by apply not_elem_of_nil in Hb. }
  destruct (Z.leb_spec (Z.of_nat (length (e :: bl))) 0) as [H0|_]; [simpl in H0; lia|].
  change (head (e :: bl)) with (Some e). cbv iota beta zeta.
  rewrite (pos_id 0 e) by (by rewrite Hbl). cbn [obind].
  destruct (Z.ltb_spec (Z.of_nat 0) (Z.of_nat (length (e :: bl)))) as [_|H0]; [|simpl in H0; lia].
  cbn [obind].
  destruct (bfs_run term_succs f (wf_ids f Hwf) (wf_targets f Hwf) e (S (length (e :: bl))))
    as (seen & Hrun & Hlen & Hm); [by rewrite Hbl|rewrite Hbl; lia|].
  unfold seen_entry in Hrun. rewrite Hbl in Hrun.
  change (Z.to_nat (Z.of_nat 0)) with 0%nat. cbn [fst snd]. rewrite Hrun. cbn [obind].
  destruct (count_orphans_spec seen (e :: bl) []) as (n & -> & Hn & Hiff);
    [done|done|].
  exists n. split_and!; [done|done|]. rewrite Hiff.
  split; intros Hall b Hb.
  - exists e. split; [done|]. apply Hm. auto.
  - apply Hm. destruct (Hall b Hb) as (e' & [= <-] & Hr). done.
Qed.

End reach.

(** ** Well-formedness, declaratively *)

Definition operand_ok (f : MirFunction) (v : MirValueId) : Prop :=
  v = MIR_VALUE_NONE \/
  (0 <= s32 (Z.of_N v) < s32 (Z.of_N (next_value_id f)) /\
   mir_function_value_type f v <> TY_NULL).

Definition int_opcode (op : MirBinOp) : Prop :=
  op ∈ [MIR_ADD; MIR_SUB; MIR_MUL; MIR_DIV; MIR_MOD; MIR_BAND; MIR_BOR; MIR_BXOR;
        MIR_SHL; MIR_SHR; MIR_USHR].
Definition float_opcode (op : MirBinOp) : Prop :=
  op ∈ [MIR_FADD; MIR_FSUB; MIR_FMUL; MIR_FDIV].

Section spec.
Context (tc : list MirType).

Definition types_ok (f : MirFunction) (k : MirInstKind) : Prop :=
  match k with
  | BINARY op lhs rhs =>
      let a := mir_function_value_type f lhs in
      let b := mir_function_value_type f rhs in
      a <> TY_NULL -> b <> TY_NULL ->
      (int_opcode op -> mir_type_is_integer tc a = true /\ mir_type_is_integer tc b = true) /\
      (float_opcode op -> mir_type_is_float tc a = true /\ mir_type_is_float tc b = true)
  | VEC _ _ _ _ width lt =>
      lt <> TY_NULL /\ 0 <= width /\
      (mir_type_is_integer tc lt = true \/ mir_type_is_float tc lt = true)
  | _ => True
  end.

Definition inst_ok (f : MirFunction) (i : MirInst) : Prop :=
  Forall (operand_ok f) (verify_operands (as_ i)) /\ types_ok f (as_ i).

Definition phi_of (n : nat) (i : MirInst) : Prop :=
  exists edges, as_ i = PHI edges /\ length edges = n.

(** Phis first, each with one edge per predecessor; one terminator, last. *)
Definition shape_ok (b : MirBlock) : Prop :=
  exists phis body term,
    insts b = phis ++ body ++ [term] /\
    Forall (phi_of (length (predecessors b))) phis /\
    Forall (fun i => is_phi (as_ i) = false /\ is_terminator (as_ i) = false) body /\
    is_terminator (as_ term) = true.

Definition block_ok (f : MirFunction) (b : MirBlock) : Prop :=
  shape_ok b /\ Forall (inst_ok f) (insts b).

Definition accepted (f : MirFunction) : Prop :=
  is_extern f = true \/
  exists e eb,
    entry_block f = Some e /\ block_at f e = Some eb /\ predecessors eb = [] /\
    forall b blk, b ∈ block_list f -> block_at f b = Some blk ->
      block_ok f blk /\ reachable f e b.

(** ** Operands and types *)

Lemma operand_errors f v :
  0 <= mir_verify_value_ids_operand f v /\
  (mir_verify_value_ids_operand f v = 0 <-> operand_ok f v).
Proof.
  unfold mir_verify_value_ids_operand, operand_ok, mir_vid_defined.
  destruct (N.eqb_spec v 0) as [->|Hv]; [split; [lia|tauto]|].
  destruct (Z.leb_spec 0 (s32 (Z.of_N v))), (Z.ltb_spec (s32 (Z.of_N v)) (s32 (Z.of_N (next_value_id f))));
    simpl; try (split; [lia|split; [lia|intros [?|[? ?]]; [done|lia]]]).
  destruct (N.eqb_spec (mir_function_value_type f v) 0); split; try lia; split; auto;
    intros [?|[? ?]]; done.
Qed.

Lemma value_ids_errors f i :
  0 <= mir_verify_inst_value_ids f i /\
  (mir_verify_inst_value_ids f i = 0 <-> Forall (operand_ok f) (verify_operands (as_ i))).
Proof.
  unfold mir_verify_inst_value_ids.
  assert (Hnn : Forall (fun x => 0 <= x)
            (map (mir_verify_value_ids_operand f) (verify_operands (as_ i)))).
  { apply Forall_map, Forall_forall. intros v _. apply operand_errors. }
  split; [by apply zsum_nonneg|]. rewrite zsum_zero by done. rewrite Forall_map.
  split; apply Forall_impl; intros v; apply operand_errors.
Qed.

Lemma pair_errors a b (p : tyref -> bool) :
  b2z (negb (a =? TY_NULL)%N && negb (b =? TY_NULL)%N && (negb (p a) || negb (p b))) = 0 <->
  (a <> TY_NULL -> b <> TY_NULL -> p a = true /\ p b = true).
Proof.
  rewrite b2z_zero. destruct (N.eqb_spec a 0), (N.eqb_spec b 0), (p a), (p b); simpl;
    intuition congruence.
Qed.

Ltac opcode_class :=
  repeat match goal with
  | H : int_opcode _ |- _ => apply list_elem_of_In in H; simpl in H; intuition discriminate
  | H : float_opcode _ |- _ => apply list_elem_of_In in H; simpl in H; intuition discriminate
  | |- int_opcode _ => apply list_elem_of_In; simpl; intuition
  | |- float_opcode _ => apply list_elem_of_In; simpl; intuition
  end.

Lemma types_errors f i :
  0 <= mir_verify_inst_types tc f i /\
  (mir_verify_inst_types tc f i = 0 <-> types_ok f (as_ i)).
Proof.
  unfold mir_verify_inst_types, types_ok.
  destruct (as_ i); try (split; [lia|tauto]).
  - destruct op; (split; [try apply b2z_nonneg; lia|]); rewrite ?pair_errors;
      (split;
       [ intros H Ha Hb; split; intros Hc; try (specialize (H Ha Hb)); try done; opcode_class
       | intros H; try done; intros Ha Hb; apply (H Ha Hb); opcode_class ]).
  - destruct (N.eqb_spec lane_type 0) as [->|Hl]; simpl; [split; [lia|intuition lia]|].
    destruct (Z.ltb_spec width 0); [split; [lia|intuition lia]|].
    split; [apply b2z_nonneg|]. rewrite b2z_zero.
    destruct (mir_type_is_integer tc lane_type), (mir_type_is_float tc lane_type); simpl;
      intuition congruence.
Qed.

(** ** Shape *)

Lemma shape_errors_nonneg past l : 0 <= shape_errors past l.
Proof.
  revert past. induction l as [|i l IH]; intros past; simpl; [lia|].
  pose proof (IH (past || negb (is_phi (as_ i)))).
  repeat match goal with |- context [b2z ?b] => pose proof (b2z_nonneg b); generalize dependent (b2z b) end.
  intros. lia.
Qed.

Lemma phi_errors_nonneg n l : 0 <= phi_errors n l.
Proof.
  induction l as [|i l IH]; simpl; [lia|]. destruct (as_ i); try lia.
  pose proof (b2z_nonneg (negb (Z.of_nat (length edges) =? n))). lia.
Qed.

(** After a non-phi: a straight run closed by the only terminator. *)
Lemma shape_tail l term :
  is_terminator (as_ term) = true ->
  (shape_errors true (l ++ [term]) = 0 <->
   Forall (fun i => is_phi (as_ i) = false /\ is_terminator (as_ i) = false) l).
Proof.
  intros Ht.
  assert (Hp : is_phi (as_ term) = false) by (by destruct (as_ term)).
  induction l as [|i l IH]; simpl.
  - rewrite Hp, Ht. simpl. split; [constructor|done].
  - pose proof (shape_errors_nonneg true (l ++ [term])) as Hnn.
    assert (Hne : match l ++ [term] with [] => false | _ => true end = true) by (by destruct l).
    rewrite Hne, !andb_true_r, Forall_cons_iff, <- IH.
    destruct (is_phi (as_ i)), (is_terminator (as_ i)); simpl; intuition (try congruence; lia).
Qed.

Lemma phi_not_term i : is_phi (as_ i) = true -> is_terminator (as_ i) = false.
Proof. by destruct (as_ i). Qed.

Lemma shape_body pc l term :
  is_terminator (as_ term) = true ->
  (shape_errors false (l ++ [term]) + phi_errors (Z.of_nat pc) (l ++ [term]) = 0 <->
   exists phis body, l = phis ++ body /\ Forall (phi_of pc) phis /\
     Forall (fun i => is_phi (as_ i) = false /\ is_terminator (as_ i) = false) body).
Proof.
  intros Ht.
  assert (Hp : is_phi (as_ term) = false) by (by destruct (as_ term)).
  induction l as [|i l IH].
  - simpl. rewrite Hp, Ht. simpl. assert (Hph : phi_errors (Z.of_nat pc) [term] = 0).
    { simpl. by destruct (as_ term). }
    simpl in Hph. rewrite Hph. split; [|done]. intros _. by exists [], [].
  - simpl app. assert (Hne : match l ++ [term] with [] => false | _ => true end = true) by (by destruct l).
    destruct (is_phi (as_ i)) eqn:Hphi.
    + cbn [shape_errors]. rewrite Hphi, (phi_not_term _ Hphi). cbn [andb orb negb b2z].
      rewrite !Z.add_0_l.
      destruct (as_ i) eqn:Hi; try discriminate. cbn [phi_errors]. rewrite Hi.
      pose proof (shape_errors_nonneg false (l ++ [term])).
      pose proof (phi_errors_nonneg (Z.of_nat pc) (l ++ [term])).
      destruct (Z.eqb_spec (Z.of_nat (length edges)) (Z.of_nat pc)) as [Hl|Hl]; cbn [negb b2z].
      * split.
        -- intros H1. rewrite Z.add_0_l in H1. destruct (proj1 IH H1) as (ph & body & -> & Hph & Hb).
           exists (i :: ph), body. split_and!; auto. constructor; [|done]. exists edges. split; [done|lia].
        -- intros (ph & body & Heq & Hph & Hb).
           assert (shape_errors false (l ++ [term]) + phi_errors (Z.of_nat pc) (l ++ [term]) = 0); [|lia].
           apply IH. destruct ph as [|i' ph]; simpl in Heq.
           ++ subst body. apply Forall_cons_1 in Hb as [[Hb _] _]. rewrite Hi in Hb. done.
           ++ injection Heq as <- ->. apply Forall_cons_1 in Hph as [_ Hph]. eauto.
      * split; [lia|]. intros (ph & body & Heq & Hph & Hb).
        destruct ph as [|i' ph]; simpl in Heq.
        -- subst body. apply Forall_cons_1 in Hb as [[Hb _] _]. rewrite Hi in Hb. done.
        -- injection Heq as <- ->. apply Forall_cons_1 in Hph as [(ed & He & Hl') _].
           rewrite Hi in He. injection He as <-. lia.
    + assert (Hpe : phi_errors (Z.of_nat pc) (i :: l ++ [term]) = 0).
      { cbn [phi_errors]. by destruct (as_ i). }
      rewrite Hpe. cbn [shape_errors]. rewrite Hphi, Hne. cbn [andb orb negb]. rewrite andb_true_r.
      change (b2z false) with 0.
      pose proof (shape_errors_nonneg true (l ++ [term])). pose proof (b2z_nonneg (is_terminator (as_ i))).
      split.
      * intros H1. exists [], (i :: l). split_and!; auto. constructor.
        -- split; [done|]. apply b2z_zero. lia.
        -- apply (shape_tail l term Ht). lia.
      * intros (ph & body & Heq & Hph & Hb). destruct ph as [|i' ph]; simpl in Heq.
        -- subst body. apply Forall_cons_1 in Hb as [[_ Hnt] Hb].
           apply (shape_tail l term Ht) in Hb. rewrite Hnt. simpl. lia.
        -- injection Heq as <- _. apply Forall_cons_1 in Hph as [(ed & He & _) _].
           rewrite He in Hphi. done.
Qed.

Lemma block_shape_errors b :
  0 <= mir_verify_block_shape b /\ (mir_verify_block_shape b = 0 <-> shape_ok b).
Proof.
  unfold mir_verify_block_shape, mir_block_is_terminated, block_last.
  pose proof (shape_errors_nonneg false (insts b)).
  pose proof (phi_errors_nonneg (Z.of_nat (length (predecessors b))) (insts b)).
  match goal with |- context [b2z ?x] => pose proof (b2z_nonneg x) end.
  split; [lia|]. split.
  - intros H2. destruct (list.last (insts b)) as [term|] eqn:Hl; [|simpl in H2; lia].
    apply last_Some in Hl as [l Hl]. rewrite Hl in *.
    destruct (is_terminator (as_ term)) eqn:Ht; [|simpl in H2; lia].
    cbn [negb b2z] in *.
    destruct (proj1 (shape_body (length (predecessors b)) l term Ht) ltac:(lia))
      as (ph & body & -> & ? & ?).
    exists ph, body, term. split_and!; auto. by rewrite app_assoc.
  - intros (ph & body & term & Heq & Hph & Hb & Ht). rewrite Heq in *.
    rewrite app_assoc in *. rewrite last_snoc, Ht. cbn [negb b2z].
    assert (Hz : shape_errors false ((ph ++ body) ++ [term]) +
                 phi_errors (Z.of_nat (length (predecessors b))) ((ph ++ body) ++ [term]) = 0);
      [|lia].
    apply (shape_body _ _ _ Ht). eauto.
Qed.

Lemma verify_block_errors f b :
  0 <= verify_block tc f b /\ (verify_block tc f b = 0 <-> block_ok f b).
Proof.
  unfold verify_block, block_ok.
  destruct (block_shape_errors b) as [Hs Hs0].
  set (l := map _ (insts b)).
  assert (Hnn : Forall (fun x => 0 <= x) l).
  { apply Forall_map, Forall_forall. intros i _.
    pose proof (proj1 (value_ids_errors f i)). pose proof (proj1 (types_errors f i)). lia. }
  pose proof (zsum_nonneg l Hnn). split; [lia|].
  assert (Hl : zsum l = 0 <-> Forall (inst_ok f) (insts b)).
  { rewrite zsum_zero by done. subst l. rewrite Forall_map.
    split; apply Forall_impl; intros i; unfold inst_ok;
      destruct (value_ids_errors f i) as [? <-], (types_errors f i) as [? <-]; lia. }
  rewrite <- Hs0, <- Hl. lia.
Qed.

Lemma verify_blocks_errors f bl :
  (forall b, b ∈ bl -> is_Some (block_at f b)) ->
  exists n, verify_blocks tc f bl = Ok n /\ 0 <= n /\
    (n = 0 <-> forall b blk, b ∈ bl -> block_at f b = Some blk -> block_ok f blk).
Proof.
  induction bl as [|b bl IH]; intros Hin; simpl.
  - exists 0. split_and!; auto; [lia|]. split; [|done]. intros _ b blk Hb. by apply not_elem_of_nil in Hb.
  - destruct (Hin b) as [blk Hblk]; [left|]. rewrite Hblk. simpl.
    destruct IH as (n & -> & Hn & Hiff); [intros; apply Hin; by right|]. simpl.
    destruct (verify_block_errors f blk) as [Hv Hv0]. eexists. split; [done|]. split; [lia|].
    split.
    + intros H0 c blk' [->|Hc]%elem_of_cons Hc'.
      * rewrite Hblk in Hc'. injection Hc' as <-. apply Hv0. lia.
      * eapply Hiff; eauto. lia.
    + intros Hall. assert (verify_block tc f blk = 0) by (apply Hv0; eapply Hall; [left|done]).
      assert (n = 0) by (apply Hiff; intros; eapply Hall; eauto; by right). lia.
Qed.

Lemma verify_function_iff f (Hwf : func_wf f) :
  exists n, mir_verify_function tc f = Ok n /\ (n = 0 <-> accepted f).
Proof.
  unfold mir_verify_function, accepted. destruct (is_extern f) eqn:Hex.
  { exists 0. split; [done|]. by split; [left|]. }
  destruct (entry_block f) as [e|] eqn:He.
  2: { exists 1. split; [done|]. split; [done|]. intros [?|(e & eb & ? & _)]; done. }
  assert (Hein : block_list f !! 0%nat = Some e).
  { pose proof (wf_entry f Hwf) as Hh. rewrite He in Hh. by destruct (block_list f). }
  destruct (wf_ids f Hwf _ _ Hein) as (eb & Heb & _). rewrite Heb. cbn [of_option obind].
  destruct (verify_blocks_errors f (block_list f)) as (n & -> & Hn & Hn0).
  { intros b [i Hi]%list_elem_of_lookup. destruct (wf_ids f Hwf i b Hi) as (blk & -> & _). by eexists. }
  destruct (cfg_reachable_spec f Hwf) as (r & -> & Hr & Hr0). cbn [obind].
  eexists. split; [done|].
  set (p := Z.of_nat (length (predecessors eb))).
  assert (Hp : b2z (0 <? p) = 0 <-> predecessors eb = []).
  { rewrite b2z_zero, Z.ltb_ge. subst p. destruct (predecessors eb); simpl; split; done || lia. }
  pose proof (b2z_nonneg (0 <? p)). split.
  - intros H0. right. exists e, eb. split_and!; auto; [apply Hp; lia|].
    intros b blk Hb Hblk. split; [eapply Hn0; eauto; lia|].
    destruct (proj1 Hr0 ltac:(lia) b Hb) as (e' & He' & ?). rewrite He in He'. by injection He' as <-.
  - intros [?|(e' & eb' & [= <-] & Heb' & Hpe & Hall)]; [done|].
    rewrite Heb in Heb'. injection Heb' as <-.
    assert (n = 0) by (apply Hn0; intros; by eapply Hall).
    assert (r = 0).
    { apply Hr0. intros b Hb. exists e. split; [done|].
      apply list_elem_of_lookup in Hb as [i Hi]. destruct (wf_ids f Hwf i b Hi) as (blk & Hblk & _).
      eapply Hall; eauto. by eapply list_elem_of_lookup_2. }
    apply Hp in Hpe. lia.
Qed.

(** ** Where a terminator leads *)

Inductive jumps : MirInstKind -> nat -> Prop :=
| jumps_br t : jumps (BR (Some t)) t
| jumps_true c t e : jumps (CONDBR c (Some t) e) t
| jumps_false c t e : jumps (CONDBR c t (Some e)) e
| jumps_case v cases d k t : (k, Some t) ∈ cases -> jumps (SWITCH v cases d) t
| jumps_default v cases t : jumps (SWITCH v cases (Some t)) t.

Definition flows (f : MirFunction) (x y : nat) : Prop :=
  exists blk i, block_at f x = Some blk /\ block_last blk = Some i /\ jumps (as_ i) y.

Definition well_formed (f : MirFunction) : Prop :=
  is_extern f = true \/
  exists e eb,
    entry_block f = Some e /\ block_at f e = Some eb /\ predecessors eb = [] /\
    forall b blk, b ∈ block_list f -> block_at f b = Some blk ->
      block_ok f blk /\ rtc (flows f) e b.

(** No terminator has more targets than the verifier's buffer holds. *)
Definition small_switches (f : MirFunction) : Prop :=
  forall x blk i v cases d, block_at f x = Some blk -> block_last blk = Some i -> as_ i = SWITCH v cases d -> (length cases < SUCC_CAP)%nat.

Lemma collect_cases_in cap l t : t ∈ collect_cases cap l -> Some t ∈ l.
Proof.
  revert cap. induction l as [|[b|] l IH]; intros [|cap]; simpl; try by intros ?%elem_of_nil.
  - intros [->|H]%elem_of_cons; [by left|right; by apply (IH cap)].
  - intros H. right. by apply (IH (S cap)).
Qed.

Lemma collect_cases_all cap l t : (length l <= cap)%nat -> Some t ∈ l -> t ∈ collect_cases cap l.
Proof.
  revert cap. induction l as [|p l IH]; intros cap Hl Hin; [by apply elem_of_nil in Hin|]. simpl in Hl. destruct cap as [|cap]; [lia|].
  apply elem_of_cons in Hin as [<-|Hin]; [by left|]. destruct p as [b|]; simpl; [right; apply IH; [lia|done]|]. apply IH; [lia|done].
Qed.

Lemma collect_cases_length cap l : (length (collect_cases cap l) <= length l)%nat.
Proof.
  revert cap. induction l as [|[b|] l IH]; intros [|cap]; simpl; try lia; [specialize (IH cap)|specialize (IH (S cap))]; lia.
Qed.

Lemma collect_jumps i t : t ∈ mir_collect_term_succs (Some i) SUCC_CAP -> jumps (as_ i) t.
Proof.
  cbn [mir_collect_term_succs fmap option_fmap option_map]. destruct (as_ i); try by intros ?%elem_of_nil.
  - destruct target; [|by intros ?%elem_of_nil]. intros ->%list_elem_of_singleton. constructor.
  - intros [H|H]%elem_of_app; [destruct true_bb|destruct false_bb]; try (by apply elem_of_nil in H); apply list_elem_of_singleton in H as ->; constructor.
  - intros H. assert (Hin : t ∈ collect_cases SUCC_CAP cases.*2 \/ default_bb = Some t).
    { destruct (_ <? _)%nat; [|by left]. apply elem_of_app in H as [H|H]; [by left|right]. destruct default_bb; [by apply list_elem_of_singleton in H as ->|by apply elem_of_nil in H]. }
    destruct Hin as [Hin| ->]; [|constructor]. apply collect_cases_in, list_elem_of_fmap in Hin as ([k b] & Hb & Hin). simpl in Hb. subst b. by eapply jumps_case.
Qed.

Lemma jumps_collect i t : (forall v cases d, as_ i = SWITCH v cases d -> (length cases < SUCC_CAP)%nat) -> jumps (as_ i) t ->
  t ∈ mir_collect_term_succs (Some i) SUCC_CAP.
Proof.
  intros Hs Hj. cbn [mir_collect_term_succs fmap option_fmap option_map]. destruct Hj as [t|c t e|c t e|v cases d k t Hin|v cases t].
  - by left.
  - apply elem_of_app. left. by left.
  - apply elem_of_app. right. by left.
  - specialize (Hs _ _ _ eq_refl). assert (Hc : t ∈ collect_cases SUCC_CAP cases.*2).
    { apply collect_cases_all; [rewrite length_fmap; lia|]. apply list_elem_of_fmap. by exists (k, Some t). }
    destruct (_ <? _)%nat; [apply elem_of_app; by left|done].
  - specialize (Hs _ _ _ eq_refl). pose proof (collect_cases_length SUCC_CAP cases.*2) as Hl. rewrite length_fmap in Hl.
    destruct (Nat.ltb_spec (length (collect_cases SUCC_CAP cases.*2)) SUCC_CAP); [|lia]. apply elem_of_app. right. by left.
Qed.

Lemma reachable_flows f e b : reachable f e b -> rtc (flows f) e b.
Proof.
  intros H. induction H as [|x y z (blk & Hb & Hs) _ IH]; [done|]. eapply rtc_l; [|exact IH].
  destruct (block_last blk) as [i|] eqn:El; [|by apply elem_of_nil in Hs]. exists blk, i. split_and!; [done|done|by apply collect_jumps].
Qed.

Lemma flows_reachable f e b : small_switches f -> rtc (flows f) e b -> reachable f e b.
Proof.
  intros Hsm H. induction H as [|x y z (blk & i & Hb & Hl & Hj) _ IH]; [constructor|]. eapply rtc_l; [|exact IH].
  exists blk. split; [done|]. rewrite Hl. apply jumps_collect; [|done]. intros v cases d Hk. by eapply Hsm.
Qed.

Lemma accepted_well_formed f : accepted f -> well_formed f.
Proof.
  intros [?|(e & eb & He & Hb & Hp & Hall)]; [by left|right]. exists e, eb. split_and!; try done. intros b blk Hin Hblk.
  destruct (Hall b blk Hin Hblk) as [Hok Hr]. split; [done|by apply reachable_flows].
Qed.

Lemma well_formed_accepted f : small_switches f -> well_formed f -> accepted f.
Proof.
  intros Hsm [?|(e & eb & He & Hb & Hp & Hall)]; [by left|right]. exists e, eb. split_and!; try done. intros b blk Hin Hblk.
  destruct (Hall b blk Hin Hblk) as [Hok Hr]. split; [done|by apply flows_reachable].
Qed.

(** C16: the verifier decides well-formedness.  On a function with the
    structural invariant, [mir_verify_function] runs to completion (its graph
    search neither leaves its arrays nor loops).  If it reports nothing, the
    function is external or well-formed: the entry has no predecessors; every
    block is phis, then plain instructions, then one terminator; every phi has
    one edge per predecessor; every operand is a value of the function with a
    type of the right class; and every block is reached from the entry along
    the targets of the terminators.  Conversely it reports nothing on such a
    function, provided that no switch has 64 cases or more, which is as much as
    its buffer of successors holds. *)
Theorem verify_function_decides f (Hwf : func_wf f) :
  exists n, mir_verify_function tc f = Ok n /\ (n = 0 -> well_formed f) /\ (small_switches f -> well_formed f -> n = 0).
Proof.
  destruct (verify_function_iff f Hwf) as (n & Hn & Hiff). exists n. split; [done|]. split.
  - intros H. by apply accepted_well_formed, Hiff.
  - intros Hsm H. by apply Hiff, well_formed_accepted.
Qed.

End spec.

(** ** A decision procedure for the structural invariant *)

Definition wf_block_at (f : MirFunction) (i : nat) (b : nat) : bool :=
  match block_at f b with
  | None => false
  | Some blk =>
      (id blk =? Z.of_nat i) &&
      forallb (fun s => bool_decide (s ∈ block_list f))
        (mir_collect_term_succs (block_last blk) SUCC_CAP)
  end.

Definition func_wfb (f : MirFunction) : bool :=
  (block_count f =? Z.of_nat (length (block_list f))) &&
  bool_decide (entry_block f = head (block_list f)) &&
  forallb (fun p => wf_block_at f p.1 p.2) (zip (seq 0 (length (block_list f))) (block_list f)).

Lemma func_wfb_sound f : func_wfb f = true -> func_wf f.
Proof.
  unfold func_wfb. rewrite !andb_true_iff, forallb_forall, bool_decide_eq_true, Z.eqb_eq.
  intros [[Hc He] Hall].
  assert (Hat : forall i b, block_list f !! i = Some b -> wf_block_at f i b = true).
  { intros i b Hi. apply (Hall (i, b)), list_elem_of_In, list_elem_of_lookup. exists i.
    apply lookup_zip_Some. split; [|done]. apply lookup_seq. split; [done|].
    by apply lookup_lt_Some in Hi. }
  split; [|done|done|].
  - intros i b Hi%Hat. unfold wf_block_at in Hi. destruct (block_at f b) as [blk|]; [|done].
    exists blk. split; [done|]. lia.
  - intros b blk s [i Hi%Hat]%list_elem_of_lookup Hb Hs. unfold wf_block_at in Hi.
    rewrite Hb, andb_true_iff, forallb_forall in Hi. destruct Hi as [_ Hi].
    eapply bool_decide_eq_true, Hi. by apply list_elem_of_In.
Qed.

(** ** Linearity of consumption *)

(** What it means to consume a value: to release, drop or move it. *)
Inductive consumes : MirInstKind -> MirValueId -> Prop :=
| Consumes_release v : consumes (REFOP MIR_ARC_RELEASE v) v
| Consumes_drop v : consumes (REFOP MIR_DROP v) v
| Consumes_move v : consumes (TRANSFER MIR_MOVE v) v.

(** No value is consumed at two places of the block. *)
Definition consumes_once (l : list MirInst) : Prop :=
  forall i j a b v, (i < j)%nat -> l !! i = Some a -> l !! j = Some b -> v <> MIR_VALUE_NONE ->
    consumes (as_ a) v -> ~ consumes (as_ b) v.

Lemma consumes_consumed k v : v <> MIR_VALUE_NONE -> consumes k v <-> consumed k = v.
Proof.
  intros Hv. split; [by destruct 1|].
  destruct k; simpl; intros <-; try done; destruct op; try done; constructor.
Qed.

(** The same through [consumed]. *)
Definition linear (l : list MirInst) : Prop :=
  forall i j a b, (i < j)%nat -> l !! i = Some a -> l !! j = Some b ->
    consumed (as_ a) = consumed (as_ b) -> consumed (as_ a) = MIR_VALUE_NONE.

Lemma linear_iff l : linear l <-> consumes_once l.
Proof.
  split.
  - intros H i j a b v Hij Ha Hb Hv Hca%consumes_consumed Hcb%consumes_consumed; [|done..].
    apply Hv. rewrite <- Hca. apply (H i j a b); congruence.
  - intros H i j a b Hij Ha Hb Heq. destruct (decide (consumed (as_ a) = MIR_VALUE_NONE)) as [|Hn]; [done|].
    destruct (H i j a b (consumed (as_ a)) Hij Ha Hb Hn); by apply consumes_consumed.
Qed.

Lemma linearity_errors_nonneg l : 0 <= linearity_errors l.
Proof.
  induction l as [|a l IH]; simpl; [lia|]. destruct (_ =? _)%N; [lia|].
  match goal with |- context [b2z ?x] => pose proof (b2z_nonneg x) end. lia.
Qed.

Lemma linearity_errors_linear l : linearity_errors l = 0 <-> linear l.
Proof.
  induction l as [|a l IH]; simpl.
  - split; [|done]. intros _ i j a b _ Hi. done.
  - pose proof (linearity_errors_nonneg l).
    match goal with |- ?x + _ = _ <-> _ => set (e := x) end.
    assert (He : 0 <= e /\ (e = 0 <-> consumed (as_ a) = MIR_VALUE_NONE \/
                 forall b, b ∈ l -> consumed (as_ b) <> consumed (as_ a))).
    { subst e. destruct (N.eqb_spec (consumed (as_ a)) MIR_VALUE_NONE) as [Hz|Hz]; [lia|].
      split; [apply b2z_nonneg|]. rewrite b2z_zero. split.
      - intros Hx. right. intros b Hb Hc. apply not_true_iff_false in Hx. apply Hx, existsb_exists.
        exists b. split; [by apply list_elem_of_In|by apply N.eqb_eq].
      - intros [?|Hx]; [done|]. apply not_true_iff_false. intros (b & Hb & Hc)%existsb_exists.
        apply N.eqb_eq in Hc. by apply list_elem_of_In, Hx in Hb. }
    destruct He as [He0 He]. split.
    + intros H0. assert (e = 0) as He1%He by lia. assert (linear l) as Hl by (apply IH; lia).
      intros [|i] [|j] x y Hij Hx Hy Heq; simpl in Hx, Hy; try lia.
      * injection Hx as <-. destruct He1 as [?|Hno]; [done|].
        exfalso. eapply Hno; [by eapply list_elem_of_lookup_2|done].
      * eapply (Hl i j); eauto. lia.
    + intros Hl. assert (e = 0); [|assert (linearity_errors l = 0); [|lia]].
      * apply He. destruct (decide (consumed (as_ a) = MIR_VALUE_NONE)) as [|Hn]; [by left|right].
        intros b [j Hj]%list_elem_of_lookup Hc. apply Hn.
        by apply (Hl 0%nat (S j) a b ltac:(lia) eq_refl Hj).
      * apply IH. intros i j x y Hij Hx Hy. apply (Hl (S i) (S j) x y ltac:(lia) Hx Hy).
Qed.

Lemma linearity_errors_zero l : linearity_errors l = 0 <-> consumes_once l.
Proof. rewrite linearity_errors_linear. apply linear_iff. Qed.

(** C31: the ownership check is exact.  On a function whose block list holds
    blocks, [mir_check_ownership_function] completes, and it reports nothing
    exactly when the function is external or in every block no value is
    consumed (released, dropped or moved) by two instructions. *)
Theorem check_ownership_exact f
  (Hblocks : forall b, b ∈ block_list f -> is_Some (block_at f b)) :
  exists n, mir_check_ownership_function f = Ok n /\
    (n = 0 <-> is_extern f = true \/
       forall b blk, b ∈ block_list f -> block_at f b = Some blk -> consumes_once (insts blk)).
Proof.
  unfold mir_check_ownership_function. destruct (is_extern f) eqn:Hex; [exists 0; tauto|].
  assert (H : exists n, check_ownership_blocks f (block_list f) = Ok n /\ 0 <= n /\
    (n = 0 <-> forall b blk, b ∈ block_list f -> block_at f b = Some blk ->
                 consumes_once (insts blk))).
  { induction (block_list f) as [|b bl IH]; simpl.
    - exists 0. split_and!; [done|lia|]. split; [|done]. intros _ b blk Hb. by apply not_elem_of_nil in Hb.
    - destruct (Hblocks b) as [blk Hblk]; [left|]. rewrite Hblk. cbn [of_option obind].
      destruct IH as (n & -> & Hn & Hiff); [intros; apply Hblocks; by right|]. cbn [obind].
      pose proof (linearity_errors_nonneg (insts blk)). eexists. split; [done|]. split; [lia|]. split.
      + intros H0 c blk' [-> | Hc]%elem_of_cons Hc'; [|eapply Hiff; eauto; lia].
        rewrite Hblk in Hc'. injection Hc' as <-. apply linearity_errors_zero. lia.
      + intros Hall. assert (linearity_errors (insts blk) = 0).
        { apply linearity_errors_zero. eapply Hall; [left|done]. }
        assert (n = 0) by (apply Hiff; intros; eapply Hall; eauto; by right). lia. }
  destruct H as (n & -> & _ & Hn). exists n. split; [done|]. rewrite Hn. intuition congruence.
Qed.

(** ** Witnesses *)

Definition ex_block (i : Z) (l : list MirInst) (ps ss : list nat) : MirBlock :=
  mkBlock i "bb" l (Z.of_nat (length l)) ps ss None [] [] 0 false.
Definition ex_inst (r : N) (ty : N) (k : MirInstKind) : MirInst := mkInst k r ty 0 0.

(** [fn(p) { x = alloca; arc_retain p; if (p) bb1 else bb2 }], joined by a
    phi; type 1 is [i64]. *)
Definition ex_diamond : MirFunction :=
  mkFunction "d" 1 [mkParam "p" 1 1] (Some 0%nat)
    [ex_block 0 [ex_inst 2 1 (CONST_INT 7); ex_inst 0 0 (CONDBR 1 (Some 1%nat) (Some 2%nat))] [] [1; 2]%nat;
     ex_block 1 [ex_inst 3 1 (BINARY MIR_ADD 1 2); ex_inst 0 0 (BR (Some 3%nat))] [0]%nat [3]%nat;
     ex_block 2 [ex_inst 0 0 (REFOP MIR_DROP 1); ex_inst 0 0 (BR (Some 3%nat))] [0]%nat [3]%nat;
     ex_block 3 [ex_inst 4 1 (PHI [(Some 1%nat, 3%N); (Some 2%nat, 2%N)]); ex_inst 0 0 (RET 4)] [1; 2]%nat []]
    [0; 1; 2; 3]%nat 4 5 [0; 1; 1; 1; 1]%N false false false.

Lemma verify_function_decides_witness :
  func_wf ex_diamond /\
  mir_verify_function [TyPrim MIR_TYPE_I64] ex_diamond = Ok 0 /\
  well_formed [TyPrim MIR_TYPE_I64] ex_diamond.
Proof.
  assert (Hwf : func_wf ex_diamond) by (apply func_wfb_sound; reflexivity).
  split; [exact Hwf|]. split; [reflexivity|].
  destruct (verify_function_decides [TyPrim MIR_TYPE_I64] ex_diamond Hwf) as (n & Hn & Hiff & _).
  apply Hiff. vm_compute in Hn. by injection Hn as <-.
Defined.

Lemma check_ownership_exact_witness :
  mir_check_ownership_function ex_diamond = Ok 0 /\
  (is_extern ex_diamond = true \/
   forall b blk, b ∈ block_list ex_diamond -> block_at ex_diamond b = Some blk ->
     consumes_once (insts blk)).
Proof.
  split; [reflexivity|].
  destruct (check_ownership_exact ex_diamond) as (n & Hn & Hiff).
  - intros b Hb%list_elem_of_In. repeat destruct Hb as [<- | Hb]; try done; by eexists.
  - apply Hiff. vm_compute in Hn. by injection Hn as <-.
Defined.
