(* ===== verification/MirOpt.v ===== *)
(** * The MIR optimisation passes

    Models [src/compiler/ir/mir_opt.c]: use/def queries, replacement of uses,
    the six passes, the pipeline and the removal of unreachable blocks.  A
    pass maps the function to the changed function and its count of changes;
    [Undef] marks a signed overflow or a null dereference of the C code.
    [mir_assert_ssa_valid] and [mir_assert_ownership_valid] are the empty
    macros of a release build; [mir_validate_function] only prints. *)
From S2P Require Import Prelude MirCore MirGraph.

(** ** Instructions by position *)

Definition inst_list (f : MirFunction) (b : nat) : list MirInst :=
  default [] (insts <$> block_at f b).
Definition inst_at (f : MirFunction) (b i : nat) : option MirInst := inst_list f b !! i.
Definition map_insts (g : list MirInst -> list MirInst) (b : MirBlock) : MirBlock :=
  with_insts b (g (insts b)) (inst_count b).
Definition upd_inst (f : MirFunction) (b i : nat) (g : MirInst -> MirInst) : MirFunction :=
  upd_block f b (map_insts (alter g i)).
Definition set_inst (f : MirFunction) (b i : nat) (k : MirInstKind) : MirFunction :=
  upd_inst f b i (fun inst => set_as inst k).

(** Every instruction of the function, in the order of the nested loops. *)
Definition all_insts (f : MirFunction) : list MirInst := mbind (inst_list f) (block_list f).

(** ** Uses and definitions *)

Definition find_def (f : MirFunction) (val : MirValueId) : option MirInst :=
  List.find (fun i => (result i =? val)%N) (all_insts f).

(** The operands [value_used_in_inst] compares. *)
Definition inst_uses (k : MirInstKind) : list MirValueId :=
  match k with
  | BINARY _ lhs rhs => [lhs; rhs]
  | UNARY _ operand _ => [operand]
  | LOAD ptr => [ptr]
  | STORE ptr value => [ptr; value]
  | GEP _ base _ index => [base; index]
  | CONDBR cond _ _ => [cond]
  | RET value => [value]
  | SWITCH discriminant _ _ => [discriminant]
  | CALL _ args callee | CALL_INDIRECT _ args callee => callee :: args
  | CALL_VIRTUAL self_obj _ args => self_obj :: args
  | PHI edges => edges.*2
  | TRANSFER _ source => [source]
  | REFOP _ ptr => [ptr]
  | STRUCT_INIT fields => fields
  | EXTRACT aggregate _ => [aggregate]
  | INSERT aggregate _ insert_val => [aggregate; insert_val]
  | VEC _ a b c _ _ => [a; b; c]
  | _ => []
  end.

Definition value_used_in_inst (i : MirInst) (val : MirValueId) : bool :=
  existsb (fun v => (v =? val)%N) (inst_uses (as_ i)).

Definition count_uses (f : MirFunction) (val : MirValueId) : Z :=
  Z.of_nat (length (List.filter (fun i => value_used_in_inst i val) (all_insts f))).

Definition replace_value_in_inst (old_val new_val : MirValueId) (i : MirInst) : MirInst :=
  let r v := if (v =? old_val)%N then new_val else v in
  set_as i
    match as_ i with
    | BINARY op lhs rhs => BINARY op (r lhs) (r rhs)
    | UNARY op operand t => UNARY op (r operand) t
    | LOAD ptr => LOAD (r ptr)
    | STORE ptr value => STORE (r ptr) (r value)
    | GEP op base fi index => GEP op (r base) fi (r index)
    | CONDBR cond tb fb => CONDBR (r cond) tb fb
    | RET value => RET (r value)
    | CALL n args callee => CALL n (map r args) (r callee)
    | CALL_INDIRECT n args callee => CALL_INDIRECT n (map r args) (r callee)
    | PHI edges => PHI (map (fun e => (e.1, r e.2)) edges)
    | TRANSFER op source => TRANSFER op (r source)
    | REFOP op ptr => REFOP op (r ptr)
    | VEC op a b c w t => VEC op (r a) (r b) (r c) w t
    | k => k
    end.

Definition replace_all_uses (f : MirFunction) (old_val new_val : MirValueId) : MirFunction :=
  fold_left (fun f b => upd_block f b (map_insts (map (replace_value_in_inst old_val new_val))))
    (block_list f) f.

(** [remove_inst(bb, inst)], [inst] being the [i]th of its block. *)
Definition remove_inst (f : MirFunction) (b i : nat) : MirFunction :=
  upd_block f b (fun blk => with_insts blk (delete i (insts blk)) (inst_count blk - 1)).

Definition inst_insert_before (f : MirFunction) (b i : nat) (inst : MirInst) : MirFunction :=
  upd_block f b (fun blk =>
    with_insts blk (take i (insts blk) ++ inst :: drop i (insts blk)) (inst_count blk + 1)).

(** ** The loops of the passes *)

Abbreviation changed := (MirFunction * Z)%type (only parsing).

(** [for (inst = bb->first; inst; inst = inst->next)] when the body keeps the
    length of the list. *)
Fixpoint each_inst (step : MirFunction -> nat -> nat -> outcome changed) (b : nat)
  (idxs : list nat) (r : changed) : outcome changed :=
  match idxs with
  | [] => Ok r
  | i :: idxs =>
      let! r1 := step r.1 b i in
      each_inst step b idxs (r1.1, r.2 + r1.2)
  end.

(** [for (bb = func->block_list; bb; bb = bb->next_block)] *)
Fixpoint each_block (body : nat -> changed -> outcome changed) (bl : list nat) (r : changed)
  : outcome changed :=
  match bl with
  | [] => Ok r
  | b :: bl => let! r1 := body b r in each_block body bl r1
  end.

Definition over_insts (step : MirFunction -> nat -> nat -> outcome changed)
  (b : nat) (r : changed) : outcome changed :=
  each_inst step b (seq 0 (length (inst_list r.1 b))) r.

(** ** Pass 1: constant folding *)

Definition const_int_def (f : MirFunction) (v : MirValueId) : option Z :=
  match as_ <$> find_def f v with
  | Some (CONST_INT imm) => Some imm
  | _ => None
  end.

(** The [switch] on [MIR_ADD..MIR_MOD]; [Ok None] is [valid = false]. *)
Definition fold_binary (op : MirBinOp) (l r : Z) : outcome (option Z) :=
  match op with
  | MIR_ADD => let! z := of_option (sint64 (l + r)) in Ok (Some z)
  | MIR_SUB => let! z := of_option (sint64 (l - r)) in Ok (Some z)
  | MIR_MUL => let! z := of_option (sint64 (l * r)) in Ok (Some z)
  | MIR_DIV => if r =? 0 then Ok None
               else let! z := of_option (sdiv64 l r) in Ok (Some z)
  | MIR_MOD => if r =? 0 then Ok None
               else let! z := of_option (srem64 l r) in Ok (Some z)
  | _ => Ok None
  end.

Definition fold_cmp (op : MirBinOp) (l r : Z) : bool :=
  match op with
  | MIR_CMP_EQ => l =? r
  | MIR_CMP_NE => negb (l =? r)
  | MIR_CMP_LT => l <? r
  | MIR_CMP_LE => l <=? r
  | MIR_CMP_GT => r <? l
  | MIR_CMP_GE => r <=? l
  | _ => false
  end.

Definition fold_arith_step (f : MirFunction) (b i : nat) : outcome changed :=
  let! inst := of_option (inst_at f b i) in
  match as_ inst with
  | BINARY ((MIR_ADD | MIR_SUB | MIR_MUL | MIR_DIV | MIR_MOD) as op) lhs rhs =>
      match const_int_def f lhs, const_int_def f rhs with
      | Some l, Some r =>
          let! v := fold_binary op l r in
          match v with
          | Some z => Ok (set_inst f b i (CONST_INT z), 1)
          | None => Ok (f, 0)
          end
      | _, _ => Ok (f, 0)
      end
  | _ => Ok (f, 0)
  end.

Definition fold_cmp_step (f : MirFunction) (b i : nat) : outcome changed :=
  let! inst := of_option (inst_at f b i) in
  match as_ inst with
  | BINARY ((MIR_CMP_EQ | MIR_CMP_NE | MIR_CMP_LT | MIR_CMP_LE | MIR_CMP_GT | MIR_CMP_GE) as op)
      lhs rhs =>
      match const_int_def f lhs, const_int_def f rhs with
      | Some l, Some r => Ok (set_inst f b i (CONST_BOOL (fold_cmp op l r)), 1)
      | _, _ => Ok (f, 0)
      end
  | _ => Ok (f, 0)
  end.

Definition fold_identity_step (f : MirFunction) (b i : nat) : outcome changed :=
  let! inst := of_option (inst_at f b i) in
  match as_ inst with
  | BINARY (MIR_ADD | MIR_SUB) lhs rhs =>
      if decide (const_int_def f rhs = Some 0)
      then Ok (set_inst (replace_all_uses f (result inst) lhs) b i NOP, 1)
      else Ok (f, 0)
  | BINARY MIR_MUL lhs rhs =>
      if decide (const_int_def f rhs = Some 1)
      then Ok (set_inst (replace_all_uses f (result inst) lhs) b i NOP, 1)
      else if decide (const_int_def f rhs = Some 0)
      then Ok (set_inst f b i (CONST_INT 0), 1)
      else Ok (f, 0)
  | _ => Ok (f, 0)
  end.

Definition fold_step (f : MirFunction) (b i : nat) : outcome changed :=
  let! r1 := fold_arith_step f b i in
  let! r2 := fold_cmp_step r1.1 b i in
  let! r3 := fold_identity_step r2.1 b i in
  Ok (r3.1, r1.2 + r2.2 + r3.2).

Definition mir_pass_constant_fold (f : MirFunction) : outcome changed :=
  each_block (over_insts fold_step) (block_list f) (f, 0).

(** ** Pass 2: copy propagation *)

Definition copy_step (f : MirFunction) (b i : nat) : outcome changed :=
  let! inst := of_option (inst_at f b i) in
  match as_ inst with
  | TRANSFER MIR_COPY source =>
      if (result inst =? MIR_VALUE_NONE)%N then Ok (f, 0)
      else Ok (replace_all_uses f (result inst) source, 1)
  | PHI (e :: edges) =>
      let first := e.2 in
      if forallb (fun e => (e.2 =? first)%N) edges && negb (first =? result inst)%N
      then Ok (set_inst (replace_all_uses f (result inst) first) b i NOP, 1)
      else Ok (f, 0)
  | _ => Ok (f, 0)
  end.

Definition mir_pass_copy_propagate (f : MirFunction) : outcome changed :=
  each_block (over_insts copy_step) (block_list f) (f, 0).

(** ** Pass 3: dead code elimination *)

Definition has_side_effects (k : MirInstKind) : bool :=
  match k with
  | STORE _ _ | CALL _ _ _ | CALL_INDIRECT _ _ _ | CALL_VIRTUAL _ _ _
  | BR _ | CONDBR _ _ _ | SWITCH _ _ _ | RET _ | RET_VOID | UNREACHABLE
  | REFOP _ _ | OBJ_ALLOC _ _ | DEBUGLOC _ _ _ => true
  | _ => false
  end.

Definition dce_removes (f : MirFunction) (inst : MirInst) : bool :=
  bool_decide (as_ inst = NOP) ||
  negb (result inst =? MIR_VALUE_NONE)%N && negb (has_side_effects (as_ inst)) &&
  (count_uses f (result inst) =? 0).

(** [while (inst)]: [i] is the position of [inst], [n] bounds the iterations
    by the length of the list on entry. *)
Fixpoint dce_insts (n : nat) (b i : nat) (r : changed) : outcome changed :=
  match n with
  | O => Ok r
  | S n =>
      let! inst := of_option (inst_at r.1 b i) in
      if dce_removes r.1 inst
      then dce_insts n b i (remove_inst r.1 b i, r.2 + 1)
      else dce_insts n b (S i) r
  end.

Definition mir_pass_dead_code_eliminate (f : MirFunction) : outcome changed :=
  each_block (fun b r => dce_insts (length (inst_list r.1 b)) b 0 r) (block_list f) (f, 0).

(** ** Pass 4: strength reduction *)

Definition is_power_of_two (v : Z) : bool := (0 <? v) && (Z.land v (v - 1) =? 0).

Fixpoint log2_loop (fuel : nat) (v n : Z) : Z :=
  match fuel with
  | O => n
  | S fuel => if 1 <? v then log2_loop fuel (Z.shiftr v 1) (n + 1) else n
  end.

(** [int64_t] has 64 bits, so 64 iterations are enough. *)
Definition log2_int (v : Z) : Z := log2_loop 64 v 0.

(** The fresh constant and the rewritten operator of one reduction. *)
Definition reduce_with (f : MirFunction) (b i : nat) (inst : MirInst) (op : MirBinOp)
  (lhs : MirValueId) (ty : tyref) (imm : Z) : MirFunction :=
  let '(f1, v) := mir_function_new_value f ty in
  let sc := mkInst (CONST_INT imm) v ty 0 0 in
  set_inst (inst_insert_before f1 b i sc) b (S i) (BINARY op lhs v).

Definition pow2_def (f : MirFunction) (v : MirValueId) : option (Z * tyref) :=
  match find_def f v with
  | Some d =>
      match as_ d with
      | CONST_INT imm => if is_power_of_two imm then Some (imm, type d) else None
      | _ => None
      end
  | None => None
  end.

(** The body of the loop: the new function, the position of [inst] in it and
    whether something changed. *)
Definition strength_step (f : MirFunction) (b i : nat) : outcome (MirFunction * nat * Z) :=
  let! inst := of_option (inst_at f b i) in
  match as_ inst with
  | BINARY MIR_MUL lhs rhs =>
      match pow2_def f rhs with
      | Some (imm, ty) => Ok (reduce_with f b i inst MIR_SHL lhs ty (log2_int imm), S i, 1)
      | None => Ok (f, i, 0)
      end
  | BINARY MIR_MOD lhs rhs =>
      match pow2_def f rhs with
      | Some (imm, ty) => Ok (reduce_with f b i inst MIR_BAND lhs ty (imm - 1), S i, 1)
      | None => Ok (f, i, 0)
      end
  | _ => Ok (f, i, 0)
  end.

Fixpoint strength_insts (n : nat) (b i : nat) (r : changed) : outcome changed :=
  match n with
  | O => Ok r
  | S n =>
      let! p := strength_step r.1 b i in
      strength_insts n b (S p.1.2) (p.1.1, r.2 + p.2)
  end.

Definition mir_pass_strength_reduce (f : MirFunction) : outcome changed :=
  each_block (fun b r => strength_insts (length (inst_list r.1 b)) b 0 r) (block_list f) (f, 0).

(** ** Pass 5: control flow simplification *)

(** Drops the first phi edge from [dead]: the last edge takes its place. *)
Definition drop_edge (dead : nat) (edges : list (blockptr * MirValueId))
  : list (blockptr * MirValueId) :=
  match find_idx (fun e => bool_decide (e.1 = Some dead)) edges with
  | Some i => swap_remove i edges
  | None => edges
  end.

Fixpoint patch_phis (dead : nat) (l : list MirInst) : list MirInst :=
  match l with
  | i :: rest =>
      match as_ i with
      | PHI edges => set_as i (PHI (drop_edge dead edges)) :: patch_phis dead rest
      | _ => l
      end
  | [] => []
  end.

Definition remove_block (l : list nat) (x : nat) : list nat :=
  match find_idx (fun y => bool_decide (y = x)) l with
  | Some i => swap_remove i l
  | None => l
  end.

Definition cfg_remove_pred (dead : nat) (live : MirBlock) : MirBlock :=
  map_insts (patch_phis dead) (with_preds live (remove_block (predecessors live) dead)).

Definition cfg_remove_succ (succ : nat) (pred : MirBlock) : MirBlock :=
  with_succs pred (remove_block (successors pred) succ).

Definition set_last (f : MirFunction) (b : nat) (k : MirInstKind) : MirFunction :=
  upd_block f b (map_insts (fun l => alter (fun i => set_as i k) (length l - 1)%nat l)).

(** condbr on a constant *)
Definition simplify_condbr (f : MirFunction) (b : nat) (last : MirInst) : outcome changed :=
  match as_ last with
  | CONDBR cond true_bb false_bb =>
      match as_ <$> find_def f cond with
      | Some (CONST_BOOL imm) =>
          let target := if imm then true_bb else false_bb in
          let dead_bb := if imm then false_bb else true_bb in
          let f := set_last f b (BR target) in
          let! dead := of_option dead_bb in
          let f := upd_block f b (cfg_remove_succ dead) in
          let f := upd_block f dead (cfg_remove_pred b) in
          Ok (f, 1)
      | _ => Ok (f, 0)
      end
  | _ => Ok (f, 0)
  end.

(** Redirecting every branch of a predecessor from [b] to [target]. *)
Definition redirect (b : nat) (target : nat) (i : MirInst) : MirInst :=
  let r (x : blockptr) := if decide (x = Some b) then Some target else x in
  set_as i
    match as_ i with
    | BR t => BR (r t)
    | CONDBR c tb fb => CONDBR c (r tb) (r fb)
    | k => k
    end.

Definition thread_pred (b target : nat) (f : MirFunction) (pred : nat) : MirFunction :=
  let f := upd_block f pred (map_insts (map (redirect b target))) in
  let f := upd_block f pred (cfg_remove_succ b) in
  if decide (target = b) then f
  else
    let f := upd_block f pred (fun p => mir_block_add_successor p target) in
    upd_block f target (fun t => mir_block_add_predecessor t pred).

Definition simplify_forwarder (f : MirFunction) (b : nat) : outcome changed :=
  match as_ <$> inst_list f b with
  | [BR target] =>
      if decide (Some b = entry_block f) then Ok (f, 0) else
      let! t := of_option target in
      let! tb := of_option (block_at f t) in
      if match head (insts tb) with Some i => is_phi (as_ i) | None => false end
      then Ok (f, 0)
      else
        let! blk := of_option (block_at f b) in
        let f := fold_left (thread_pred b t) (predecessors blk) f in
        let f := upd_block f t (cfg_remove_pred b) in
        Ok (upd_block f b (fun x => with_preds x []), 1)
  | _ => Ok (f, 0)
  end.

Definition simplify_block (b : nat) (r : changed) : outcome changed :=
  match list.last (inst_list r.1 b) with
  | None => Ok r
  | Some last =>
      let! r1 := simplify_condbr r.1 b last in
      let! r2 := simplify_forwarder r1.1 b in
      Ok (r2.1, r.2 + r1.2 + r2.2)
  end.

Definition mir_pass_simplify_cfg (f : MirFunction) : outcome changed :=
  each_block simplify_block (block_list f) (f, 0).

(** ** Pass 6: ARC elision *)

(** The forward search for the release that matches [ptr]: its distance. *)
Fixpoint find_release (ptr : MirValueId) (l : list MirInst) : option nat :=
  match l with
  | [] => None
  | i :: rest =>
      if match as_ i with REFOP MIR_ARC_RELEASE p => (p =? ptr)%N | _ => false end
      then Some 0%nat
      else if value_used_in_inst i ptr then None
      else S <$> find_release ptr rest
  end.

Definition nop (i : MirInst) : MirInst := set_as i NOP.

(** The outer loop: [n] is the length of [l]. *)
Fixpoint arc_insts (n : nat) (l : list MirInst) : list MirInst * Z :=
  match n, l with
  | S n, retain :: rest =>
      match as_ retain with
      | REFOP MIR_ARC_RETAIN ptr =>
          match find_release ptr rest with
          | Some j =>
              if existsb (fun mid => value_used_in_inst mid ptr) (take j rest)
              then let '(l, c) := arc_insts n rest in (retain :: l, c)
              else let '(l, c) := arc_insts n (alter nop j rest) in (nop retain :: l, c + 1)
          | None => let '(l, c) := arc_insts n rest in (retain :: l, c)
          end
      | _ => let '(l, c) := arc_insts n rest in (retain :: l, c)
      end
  | _, _ => (l, 0)
  end.

Definition arc_block (b : nat) (r : changed) : outcome changed :=
  let l := inst_list r.1 b in
  let '(l', c) := arc_insts (length l) l in
  Ok (upd_block r.1 b (map_insts (fun _ => l')), r.2 + c).

Definition mir_pass_arc_elision (f : MirFunction) : outcome changed :=
  each_block arc_block (block_list f) (f, 0).

(** ** The pipeline *)

Record MirOptStats := mkStats {
  constants_folded : Z; copies_propagated : Z; dead_insts_eliminated : Z;
  branches_simplified : Z; strength_reductions : Z; arc_pairs_elided : Z;
  blocks_merged : Z; total_passes : Z
}.
Definition no_stats : MirOptStats := mkStats 0 0 0 0 0 0 0 0.

Inductive MirOptLevel := MIR_OPT_NONE | MIR_OPT_BASIC | MIR_OPT_STANDARD | MIR_OPT_AGGRESSIVE.
Definition level_num (l : MirOptLevel) : Z :=
  match l with
  | MIR_OPT_NONE => 0 | MIR_OPT_BASIC => 1 | MIR_OPT_STANDARD => 2 | MIR_OPT_AGGRESSIVE => 3
  end.

(** One phase: skipped below its level, the count goes to the statistics. *)
Definition phase (on : bool) (pass : MirFunction -> outcome changed)
  (count : MirOptStats -> Z -> MirOptStats) (r : MirFunction * MirOptStats * Z)
  : outcome (MirFunction * MirOptStats * Z) :=
  let '(f, s, total) := r in
  if on then let! p := pass f in Ok (p.1, count s p.2, total + p.2) else Ok r.

Definition opt_iteration (level : MirOptLevel) (f : MirFunction) (s : MirOptStats)
  : outcome (MirFunction * MirOptStats * Z) :=
  let std := level_num MIR_OPT_STANDARD <=? level_num level in
  let! r := phase true mir_pass_constant_fold
    (fun s c => mkStats (constants_folded s + c) (copies_propagated s) (dead_insts_eliminated s)
       (branches_simplified s) (strength_reductions s) (arc_pairs_elided s) (blocks_merged s)
       (total_passes s)) (f, s, 0) in
  let! r := phase std mir_pass_copy_propagate
    (fun s c => mkStats (constants_folded s) (copies_propagated s + c) (dead_insts_eliminated s)
       (branches_simplified s) (strength_reductions s) (arc_pairs_elided s) (blocks_merged s)
       (total_passes s)) r in
  let! r := phase true mir_pass_dead_code_eliminate
    (fun s c => mkStats (constants_folded s) (copies_propagated s) (dead_insts_eliminated s + c)
       (branches_simplified s) (strength_reductions s) (arc_pairs_elided s) (blocks_merged s)
       (total_passes s)) r in
  let! r := phase std mir_pass_strength_reduce
    (fun s c => mkStats (constants_folded s) (copies_propagated s) (dead_insts_eliminated s)
       (branches_simplified s) (strength_reductions s + c) (arc_pairs_elided s) (blocks_merged s)
       (total_passes s)) r in
  let! r := phase std mir_pass_simplify_cfg
    (fun s c => mkStats (constants_folded s) (copies_propagated s) (dead_insts_eliminated s)
       (branches_simplified s + c) (strength_reductions s) (arc_pairs_elided s) (blocks_merged s)
       (total_passes s)) r in
  phase (level_num MIR_OPT_BASIC <=? level_num level) mir_pass_arc_elision
    (fun s c => mkStats (constants_folded s) (copies_propagated s) (dead_insts_eliminated s)
       (branches_simplified s) (strength_reductions s) (arc_pairs_elided s + c) (blocks_merged s)
       (total_passes s)) r.

Fixpoint opt_loop (max_iterations : nat) (level : MirOptLevel) (f : MirFunction) (s : MirOptStats)
  : outcome (MirFunction * MirOptStats) :=
  match max_iterations with
  | O => Ok (f, s)
  | S n =>
      let! r := opt_iteration level f s in
      let '(f, s, total) := r in
      let s := mkStats (constants_folded s) (copies_propagated s) (dead_insts_eliminated s)
        (branches_simplified s) (strength_reductions s) (arc_pairs_elided s) (blocks_merged s)
        (total_passes s + 1) in
      if total =? 0 then Ok (f, s) else opt_loop n level f s
  end.

Definition mir_optimize_function (f : MirFunction) (level : MirOptLevel) (s : MirOptStats)
  : outcome (MirFunction * MirOptStats) :=
  if level_num level =? level_num MIR_OPT_NONE then Ok (f, s)
  else if is_extern f then Ok (f, s)
  else opt_loop 10 level f s.

(** ** Removal of unreachable blocks *)

Fixpoint max_block_id (f : MirFunction) (bl : list nat) (m : Z) : outcome Z :=
  match bl with
  | [] => Ok m
  | b :: bl =>
      let! blk := of_option (block_at f b) in
      max_block_id f bl (if m <? id blk then id blk else m)
  end.

(** The unlinking loop: the kept blocks and the patched function. *)
Fixpoint unlink (f : MirFunction) (seen : list bool) (bl : list nat)
  : outcome (MirFunction * list nat) :=
  match bl with
  | [] => Ok (f, [])
  | curr :: bl =>
      let! blk := of_option (block_at f curr) in
      let! s := of_option (seen !! Z.to_nat (id blk)) in
      if negb (bool_decide (Some curr = entry_block f)) && negb s then
        let f := fold_left (fun f s => upd_block f s (cfg_remove_pred curr)) (successors blk) f in
        unlink f seen bl
      else
        let! r := unlink f seen bl in
        Ok (r.1, curr :: r.2)
  end.

Fixpoint renumber (f : MirFunction) (bl : list nat) (new_id : Z) : MirFunction :=
  match bl with
  | [] => f
  | b :: bl => renumber (upd_block f b (fun blk => with_id blk new_id)) bl (new_id + 1)
  end.

Definition mir_remove_unreachable_blocks (f : MirFunction) : outcome MirFunction :=
  match is_extern f, entry_block f with
  | true, _ | _, None => Ok f
  | false, Some e =>
      if (length (block_list f) <=? 1)%nat then Ok f else
      let! max_id := max_block_id f (block_list f) 0 in
      let n := Z.to_nat (max_id + 1) in
      let! eb := of_option (block_at f e) in
      if (n <=? Z.to_nat (id eb))%nat then Undef else
      let! seen := bfs successors n f (<[Z.to_nat (id eb) := true]> (replicate n false)) [e] in
      let! r := unlink f seen (block_list f) in
      let f := renumber r.1 r.2 0 in
      Ok (with_cfg f (entry_block f) (blocks f) r.2 (Z.of_nat (length r.2)))
  end.

Fixpoint optimize_funcs (l : list MirFunction) (level : MirOptLevel) (s : MirOptStats)
  : outcome (list MirFunction * MirOptStats) :=
  match l with
  | [] => Ok ([], s)
  | f :: l =>
      let! r := mir_optimize_function f level s in
      let! f1 := mir_remove_unreachable_blocks r.1 in
      let! rs := optimize_funcs l level r.2 in
      Ok (f1 :: rs.1, rs.2)
  end.

Definition mir_optimize_module (m : MirModule) (level : MirOptLevel)
  : outcome (MirModule * MirOptStats) :=
  let! r := optimize_funcs (func_list m) level no_stats in
  Ok (with_funcs m r.1 (func_count m), r.2).
