(* ===== verification/Float64.v ===== *)
(** * IEEE 754 binary64 values as bit patterns

    The interpreter and the constant evaluator keep a C [double] in a 64-bit
    slot ([cvm_f64_to_bits], [cvm_bits_to_f64] of [runtime/vm/cvm_engine.h]).
    C's arithmetic on [double] is the Standard Library's executable
    [SpecFloat] at precision 53 and maximal exponent 1024.  The payload of a
    NaN result, which C leaves to the implementation, is the canonical quiet
    NaN. *)
From S2P Require Import Prelude.
From Stdlib Require Import SpecFloat.

Definition cvm_bits_to_f64 (r : Z) : spec_float :=
  let s := Z.testbit r 63 in
  let e := Z.land (Z.shiftr r 52) 2047 in
  let m := Z.land r (2 ^ 52 - 1) in
  if e =? 2047 then (if m =? 0 then S754_infinity s else S754_nan)
  else if e =? 0 then
    (if m =? 0 then S754_zero s else S754_finite s (Z.to_pos m) (-1074))
  else S754_finite s (Z.to_pos (m + 2 ^ 52)) (e - 1075).

Definition sign_bit (s : bool) : Z := if s then 2 ^ 63 else 0.

Definition NAN_BITS : Z := 0x7ff8000000000000.

Definition cvm_f64_to_bits (d : spec_float) : Z :=
  match d with
  | S754_zero s => sign_bit s
  | S754_infinity s => sign_bit s + 2047 * 2 ^ 52
  | S754_nan => NAN_BITS
  | S754_finite s m e =>
      if Z.pos m <? 2 ^ 52 then sign_bit s + Z.pos m
      else sign_bit s + (e + 1075) * 2 ^ 52 + (Z.pos m - 2 ^ 52)
  end.

Definition f64_op (op : spec_float -> spec_float -> spec_float) (a b : Z) : Z :=
  cvm_f64_to_bits (op (cvm_bits_to_f64 a) (cvm_bits_to_f64 b)).

Definition f64_add : Z -> Z -> Z := f64_op (SFadd 53 1024).
Definition f64_sub : Z -> Z -> Z := f64_op (SFsub 53 1024).
Definition f64_mul : Z -> Z -> Z := f64_op (SFmul 53 1024).
Definition f64_div : Z -> Z -> Z := f64_op (SFdiv 53 1024).
Definition f64_neg (a : Z) : Z := Z.lxor a (2 ^ 63).

(** [(double)(int64_t)x] *)
Definition f64_of_s64 (z : Z) : Z := cvm_f64_to_bits (binary_normalize 53 1024 z 0 false).

(** The magnitude of a finite value, truncated toward zero. *)
Definition f64_trunc (m : positive) (e : Z) : Z :=
  if 0 <=? e then Z.pos m * 2 ^ e else Z.pos m / 2 ^ (- e).

Definition cvm_safe_fptosi (r : Z) : Z :=
  match cvm_bits_to_f64 r with
  | S754_nan | S754_infinity _ | S754_zero _ => 0
  | S754_finite s m e =>
      let t := f64_trunc m e in
      if s then (if 2 ^ 63 <=? t then u64 INT64_MIN else u64 (- t))
      else (if 2 ^ 63 <=? t then u64 INT64_MAX else u64 t)
  end.

Definition is_nan_bits (r : Z) : bool :=
  (Z.land (Z.shiftr r 52) 2047 =? 2047) && negb (Z.land r (2 ^ 52 - 1) =? 0).

(** ** The slot represents every non-NaN double exactly *)

Lemma f64_fields r :
  0 <= r < 2 ^ 64 ->
  let e := Z.land (Z.shiftr r 52) 2047 in
  let m := Z.land r (2 ^ 52 - 1) in
  r = sign_bit (Z.testbit r 63) + e * 2 ^ 52 + m /\ 0 <= e < 2048 /\ 0 <= m < 2 ^ 52.
Proof.
  intros Hr. cbv zeta.
  change 2047 with (Z.ones 11). change (2 ^ 52 - 1) with (Z.ones 52).
  rewrite !Z.land_ones, Z.shiftr_div_pow2 by lia.
  assert (Hs : sign_bit (Z.testbit r 63) = r / 2 ^ 63 * 2 ^ 63).
  { unfold sign_bit. rewrite Z.testbit_eqb by lia.
    assert (0 <= r / 2 ^ 63 < 2).
    { split; [apply Z.div_pos; lia|apply Z.div_lt_upper_bound; lia]. }
    rewrite (Z.mod_small (r / 2 ^ 63)) by done.
    destruct (Z.eqb_spec (r / 2 ^ 63) 1); lia. }
  rewrite Hs. pose proof (Z_div_mod_eq_full r (2 ^ 52)).
  pose proof (Z_div_mod_eq_full (r / 2 ^ 52) (2 ^ 11)) as H2.
  rewrite Z.div_div in H2 by lia. change (2 ^ 52 * 2 ^ 11) with (2 ^ 63) in H2.
  pose proof (Z.mod_pos_bound r (2 ^ 52) ltac:(lia)).
  pose proof (Z.mod_pos_bound (r / 2 ^ 52) (2 ^ 11) ltac:(lia)).
  change (2 ^ 63) with (2 ^ 11 * 2 ^ 52) at 2. lia.
Qed.

(** A double stored in a register slot and read back is the same 64
    bits, for every pattern that is not a NaN. *)
Theorem f64_slot_roundtrip r
  (Hr : 0 <= r < 2 ^ 64) (Hn : is_nan_bits r = false) :
  cvm_f64_to_bits (cvm_bits_to_f64 r) = r.
Proof.
  destruct (f64_fields r Hr) as (Heq & He & Hm). unfold is_nan_bits in Hn. unfold cvm_bits_to_f64.
  revert Heq He Hm Hn. cbv zeta.
  generalize (Z.land (Z.shiftr r 52) 2047) (Z.land r (2 ^ 52 - 1)) (Z.testbit r 63).
  intros e m s Heq He Hm Hn.
  destruct (Z.eqb_spec e 2047) as [->|He1]; [|destruct (Z.eqb_spec e 0) as [->|He0]];
    cbn [negb andb] in Hn.
  - destruct (Z.eqb_spec m 0) as [->|]; [|done]. cbn [cvm_f64_to_bits]. lia.
  - destruct (Z.eqb_spec m 0) as [->|]; cbn [cvm_f64_to_bits]; [lia|].
    rewrite Z2Pos.id by lia. destruct (Z.ltb_spec m (2 ^ 52)); lia.
  - cbn [cvm_f64_to_bits]. rewrite Z2Pos.id by lia.
    destruct (Z.ltb_spec (m + 2 ^ 52) (2 ^ 52)); [lia|].
    replace (e - 1075 + 1075) with e by lia. lia.
Qed.

Lemma f64_slot_roundtrip_witness :
  is_nan_bits (f64_of_s64 (-3)) = false /\
  f64_div (f64_of_s64 1) (f64_of_s64 2) = 0x3fe0000000000000 /\
  cvm_safe_fptosi (f64_add (f64_of_s64 (-3)) (f64_of_s64 1)) = u64 (-2) /\
  cvm_f64_to_bits (cvm_bits_to_f64 (f64_of_s64 (-3))) = f64_of_s64 (-3).
Proof.
  split; [reflexivity|]. split; [reflexivity|]. split; [reflexivity|].
  apply f64_slot_roundtrip; [vm_compute; split; congruence|reflexivity].
Defined.

(** [cvm_safe_fptosi] always yields a value of the register width. *)
Lemma fptosi_range r : 0 <= cvm_safe_fptosi r < 2 ^ 64.
Proof.
  unfold cvm_safe_fptosi. destruct (cvm_bits_to_f64 r) as [| | |s m e]; try lia.
  destruct s, (2 ^ 63 <=? f64_trunc m e); apply u64_range.
Qed.
