(* ===== verification/Cvm.v ===== *)
(** * The bytecode interpreter

    Models [runtime/vm/cvm_engine.c]: the register frames, the instruction
    handlers of the computed-goto loop, calls, host intrinsics and profiles,
    run without a JIT bridge ([vm->jit = NULL], so every profile stays in
    [CVM_TIER_INTERPRET]).  Memory is a finite map from addresses to bytes; where
    [calloc] places a block and where a string literal lives are parameters.
    Host-side tables (register files, profile and frame arrays) are assumed to
    be allocated; the text an intrinsic writes is an event. *)
From S2P Require Import Prelude MirCore Float64.

Definition CVM_MAX_REGS : Z := 4096.
Definition CVM_MAX_CALL_DEPTH : Z := 512.

(** ** State *)

Inductive CvmEvent :=
| EvInt (v : Z) | EvFloat (bits : Z) | EvBool (b : bool) | EvStr (s : list Z).

Record CvmProfile := mkProfile { func_name : string; call_count : Z }.

Record CvmState := mkVm {
  profiles : list CvmProfile;
  frame_depth : Z;
  frame_depth_peak : Z;
  mem : gmap Z Z;
  heap_objs : list Z;
  trap_code : Z;
  inst_executed : Z;
  out : list CvmEvent
}.

Record CvmFrame := mkFrame { regs : list Z; allocas : list (Z * Z) }.

Definition set_profiles vm x := mkVm x (frame_depth vm) (frame_depth_peak vm) (mem vm)
  (heap_objs vm) (trap_code vm) (inst_executed vm) (out vm).
Definition set_depth vm d p := mkVm (profiles vm) d p (mem vm)
  (heap_objs vm) (trap_code vm) (inst_executed vm) (out vm).
Definition set_mem vm x := mkVm (profiles vm) (frame_depth vm) (frame_depth_peak vm) x
  (heap_objs vm) (trap_code vm) (inst_executed vm) (out vm).
Definition set_heap_objs vm x := mkVm (profiles vm) (frame_depth vm) (frame_depth_peak vm) (mem vm)
  x (trap_code vm) (inst_executed vm) (out vm).
Definition set_trap vm x := mkVm (profiles vm) (frame_depth vm) (frame_depth_peak vm) (mem vm)
  (heap_objs vm) x (inst_executed vm) (out vm).
Definition tick vm := mkVm (profiles vm) (frame_depth vm) (frame_depth_peak vm) (mem vm)
  (heap_objs vm) (trap_code vm) (u64 (inst_executed vm + 1)) (out vm).
Definition emit vm e := mkVm (profiles vm) (frame_depth vm) (frame_depth_peak vm) (mem vm)
  (heap_objs vm) (trap_code vm) (inst_executed vm) (out vm ++ [e]).

Definition cvm_state_create (m : gmap Z Z) : CvmState := mkVm [] 0 0 m [] 0 0 [].

(** ** Arithmetic on register slots *)

Definition cvm_safe_div_i64 (lhs_u rhs_u : Z) : Z :=
  let lhs := s64 lhs_u in
  let rhs := s64 rhs_u in
  if rhs =? 0 then 0
  else if (lhs =? INT64_MIN) && (rhs =? -1) then u64 INT64_MIN
  else u64 (Z.quot lhs rhs).

Definition cvm_safe_mod_i64 (lhs_u rhs_u : Z) : Z :=
  let lhs := s64 lhs_u in
  let rhs := s64 rhs_u in
  if rhs =? 0 then 0
  else if (lhs =? INT64_MIN) && (rhs =? -1) then 0
  else u64 (Z.rem lhs rhs).

Definition cvm_binop (op : MirBinOp) (a b : Z) : Z :=
  match op with
  | MIR_ADD => u64 (a + b)
  | MIR_SUB => u64 (a - b)
  | MIR_MUL => u64 (a * b)
  | MIR_DIV => cvm_safe_div_i64 a b
  | MIR_MOD => cvm_safe_mod_i64 a b
  | MIR_FADD => f64_add a b
  | MIR_FSUB => f64_sub a b
  | MIR_FMUL => f64_mul a b
  | MIR_FDIV => f64_div a b
  | MIR_BAND => Z.land a b
  | MIR_BOR => Z.lor a b
  | MIR_BXOR => Z.lxor a b
  | MIR_SHL => u64 (Z.shiftl a (Z.land b 63))
  | MIR_SHR => u64 (Z.shiftr (s64 a) (Z.land b 63))
  | MIR_USHR => Z.shiftr a (Z.land b 63)
  | MIR_CMP_EQ => b2z (a =? b)
  | MIR_CMP_NE => b2z (negb (a =? b))
  | MIR_CMP_LT => b2z (s64 a <? s64 b)
  | MIR_CMP_LE => b2z (s64 a <=? s64 b)
  | MIR_CMP_GT => b2z (s64 b <? s64 a)
  | MIR_CMP_GE => b2z (s64 b <=? s64 a)
  | MIR_LOGIC_AND => b2z (negb (a =? 0) && negb (b =? 0))
  | MIR_LOGIC_OR => b2z (negb (a =? 0) || negb (b =? 0))
  end.

(** C's [&&] and [||] do not read the second register when the first decides. *)
Definition reads_rhs (op : MirBinOp) (a : Z) : bool :=
  match op with
  | MIR_LOGIC_AND => negb (a =? 0)
  | MIR_LOGIC_OR => a =? 0
  | _ => true
  end.

(** [None]: the negation of [INT64_MIN] overflows. *)
Definition cvm_unop (tc : list MirType) (op : MirUnOp) (target_type : tyref) (a : Z) : option Z :=
  match op with
  | MIR_NEG => u64 <$> sint64 (- s64 a)
  | MIR_FNEG => Some (f64_neg a)
  | MIR_BNOT => Some (u64 (Z.lnot a))
  | MIR_LOGIC_NOT => Some (b2z (a =? 0))
  | MIR_CAST =>
      match ty_kind <$> ty_deref tc target_type with
      | Some (MIR_TYPE_F64 | MIR_TYPE_F32) => Some (f64_of_s64 (s64 a))
      | _ => Some a
      end
  | MIR_BITCAST => Some a
  | MIR_TRUNC => Some (Z.land a 0xFFFFFFFF)
  | MIR_ZEXT => Some a
  | MIR_SEXT => Some (u64 (s32 a))
  | MIR_SITOFP => Some (f64_of_s64 (s64 a))
  | MIR_FPTOSI => Some (cvm_safe_fptosi a)
  end.

(** ** Memory *)

(** Eight bytes at [p], little endian; undefined outside allocated memory. *)
Fixpoint load_bytes (n : nat) (m : gmap Z Z) (p : Z) : option Z :=
  match n with
  | O => Some 0
  | S n => b ← m !! p; r ← load_bytes n m (p + 1); Some (b + 256 * r)
  end.

Fixpoint store_bytes (n : nat) (m : gmap Z Z) (p v : Z) : option (gmap Z Z) :=
  match n with
  | O => Some m
  | S n => _ ← m !! p; store_bytes n (<[p := v mod 256]> m) (p + 1) (v / 256)
  end.

Definition load64 (m : gmap Z Z) (p : Z) : option Z := load_bytes 8 m p.
Definition store64 (m : gmap Z Z) (p v : Z) : option (gmap Z Z) := store_bytes 8 m p v.

(** [calloc]'s zeroed bytes, and their removal by [free]. *)
Definition zero_range (m : gmap Z Z) (p n : Z) : gmap Z Z :=
  foldr (fun a m => <[a := 0]> m) m (seqZ p n).
Definition free_range (m : gmap Z Z) (p n : Z) : gmap Z Z :=
  foldr (fun a m => delete a m) m (seqZ p n).

Definition cvm_frame_free_allocas (m : gmap Z Z) (fr : CvmFrame) : gmap Z Z :=
  fold_left (fun m a => free_range m a.1 a.2) (rev (allocas fr)) m.

(** [strlen] and the bytes it passes over. *)
Fixpoint read_cstr (fuel : nat) (m : gmap Z Z) (p : Z) : option (list Z) :=
  match fuel with
  | O => None
  | S fuel =>
      b ← m !! p;
      if b =? 0 then Some [] else l ← read_cstr fuel m (p + 1); Some (b :: l)
  end.

(** ** Registers *)

Definition reg_count (fr : CvmFrame) : Z := Z.of_nat (length (regs fr)).

(** [id] past [INT_MAX] becomes negative, passes the test and is undefined. *)
Definition cvm_reg_get (vm : CvmState) (fr : CvmFrame) (id : MirValueId) : outcome (CvmState * Z) :=
  if (id =? MIR_VALUE_NONE)%N then Ok (vm, 0)
  else if reg_count fr <=? s32 (Z.of_N id) then Ok (set_trap vm 5, 0)
  else let! v := of_option (regs fr !! N.to_nat id) in Ok (vm, v).

Definition set_regs (fr : CvmFrame) (l : list Z) : CvmFrame := mkFrame l (allocas fr).

Definition cvm_reg_set (vm : CvmState) (fr : CvmFrame) (id : MirValueId) (v : Z)
  : outcome (CvmState * CvmFrame) :=
  if (id =? MIR_VALUE_NONE)%N then Ok (vm, fr)
  else if reg_count fr <=? s32 (Z.of_N id) then Ok (set_trap vm 5, fr)
  else if (length (regs fr) <=? N.to_nat id)%nat then Undef
  else Ok (vm, set_regs fr (<[N.to_nat id := v]> (regs fr))).

(** ** Instruction handlers *)

(** What a handler ends with: [NEXT_INST()], [goto block_start] with a new
    [cur_block], or [goto done] with [retval]. *)
Inductive next := NextInst | Jump (target : blockptr) | Done (retval : Z).

Section cvm.
Context (module : MirModule).
(** [calloc m n]: the address of [n] fresh bytes, [None] when memory is out. *)
Context (calloc : gmap Z Z -> Z -> option Z).
(** The address of a string literal. *)
Context (string_addr : string -> Z).

Abbreviation handled := (CvmState * CvmFrame * next)%type (only parsing).

Definition set_next (vm : CvmState) (fr : CvmFrame) (id : MirValueId) (v : Z) : outcome handled :=
  let! r := cvm_reg_set vm fr id v in Ok (r.1, r.2, NextInst).

Definition op_binary (vm : CvmState) (fr : CvmFrame) (res : MirValueId) (op : MirBinOp)
  (lhs rhs : MirValueId) : outcome handled :=
  let! a := cvm_reg_get vm fr lhs in
  let! b := (if reads_rhs op a.2 then cvm_reg_get a.1 fr rhs else Ok (a.1, 0)) in
  set_next b.1 fr res (cvm_binop op a.2 b.2).

(** Allocation of [MIR_OBJ_ALLOC]: at least an object header and one slot. *)
Definition cvm_heap_object_alloc (vm : CvmState) (size : Z) : option (CvmState * Z) :=
  let size := if size <? 16 then 16 else size in
  p ← calloc (mem vm) size;
  Some (set_heap_objs (set_mem vm (zero_range (mem vm) p size)) (heap_objs vm ++ [p]), p).

Fixpoint first_value (edges : list (blockptr * MirValueId)) : MirValueId :=
  match edges with
  | [] => MIR_VALUE_NONE
  | e :: edges => if (e.2 =? MIR_VALUE_NONE)%N then first_value edges else e.2
  end.

(** The register a phi copies: the edge of [prev_block], or else the first
    value present. *)
Definition phi_source (prev_block : blockptr) (edges : list (blockptr * MirValueId)) : MirValueId :=
  match List.find (fun e => bool_decide (e.1 = prev_block)) edges with
  | Some e => e.2
  | None => first_value edges
  end.

Definition switch_target (disc : Z) (cases : list (Z * blockptr)) (default_bb : blockptr) : blockptr :=
  match List.find (fun c => c.1 =? disc) cases with
  | Some c => c.2
  | None => default_bb
  end.

(** Every handler but those of calls. *)
Definition exec_inst (vm : CvmState) (fr : CvmFrame) (prev_block : blockptr) (inst : MirInst)
  : outcome handled :=
  let res := result inst in
  match as_ inst with
  | CONST_INT imm => set_next vm fr res (u64 imm)
  | CONST_FLOAT bits => set_next vm fr res bits
  | CONST_BOOL b => set_next vm fr res (b2z b)
  | CONST_STRING s => set_next vm fr res (string_addr s)
  | CONST_NULL => set_next vm fr res 0
  | BINARY op lhs rhs => op_binary vm fr res op lhs rhs
  | UNARY op operand target =>
      let! a := cvm_reg_get vm fr operand in
      let! v := of_option (cvm_unop (type_cache module) op target a.2) in
      set_next a.1 fr res v
  | ALLOCA _ count =>
      let sz := if 0 <? count then count else 1 in
      match calloc (mem vm) (sz * 8) with
      | None => Ok (set_trap vm 1, fr, Done 0)
      | Some p =>
          set_next (set_mem vm (zero_range (mem vm) p (sz * 8)))
            (mkFrame (regs fr) (allocas fr ++ [(p, sz * 8)])) res p
      end
  | LOAD ptr =>
      let! p := cvm_reg_get vm fr ptr in
      if p.2 =? 0 then Ok (set_trap p.1 3, fr, Done 0)
      else let! v := of_option (load64 (mem vm) p.2) in set_next p.1 fr res v
  | STORE ptr value =>
      let! p := cvm_reg_get vm fr ptr in
      if p.2 =? 0 then Ok (p.1, fr, NextInst)
      else
        let! v := cvm_reg_get p.1 fr value in
        let! m := of_option (store64 (mem vm) p.2 v.2) in
        Ok (set_mem v.1 m, fr, NextInst)
  | OBJ_ALLOC _ size =>
      match cvm_heap_object_alloc vm (if 0 <? size then size else 64) with
      | None => Ok (set_trap vm 1, fr, Done 0)
      | Some (vm, p) => set_next vm fr res p
      end
  | GEP MIR_GET_FIELD_PTR base field_index _ =>
      let! p := cvm_reg_get vm fr base in
      if field_index <? 0 then Ok (set_trap p.1 6, fr, Done 0)
      else set_next p.1 fr res (u64 (p.2 + u32 field_index * 8))
  | GEP MIR_GET_ELEM_PTR base _ index =>
      let! p := cvm_reg_get vm fr base in
      let! i := cvm_reg_get p.1 fr index in
      set_next i.1 fr res (u64 (p.2 + u64 (i.2 * 8)))
  | BR target => Ok (vm, fr, Jump target)
  | CONDBR cond true_bb false_bb =>
      let! c := cvm_reg_get vm fr cond in
      Ok (c.1, fr, Jump (if c.2 =? 0 then false_bb else true_bb))
  | SWITCH disc cases default_bb =>
      let! d := cvm_reg_get vm fr disc in
      Ok (d.1, fr, Jump (switch_target (s64 d.2) cases default_bb))
  | RET value => let! v := cvm_reg_get vm fr value in Ok (v.1, fr, Done v.2)
  | RET_VOID => Ok (vm, fr, Done 0)
  | UNREACHABLE => Ok (set_trap vm 4, fr, Done 0)
  | CALL_VIRTUAL _ _ _ => set_next vm fr res 0
  | PHI edges =>
      let! v := cvm_reg_get vm fr (phi_source prev_block edges) in
      set_next v.1 fr res v.2
  | TRANSFER (MIR_COPY | MIR_BORROW | MIR_BORROW_MUT) source =>
      let! v := cvm_reg_get vm fr source in set_next v.1 fr res v.2
  | TRANSFER MIR_MOVE source =>
      let! v := cvm_reg_get vm fr source in
      let! r := cvm_reg_set v.1 fr res v.2 in
      if negb (source =? MIR_VALUE_NONE)%N && (s32 (Z.of_N source) <? reg_count r.2)
      then if (length (regs r.2) <=? N.to_nat source)%nat then Undef
           else Ok (r.1, set_regs r.2 (<[N.to_nat source := 0]> (regs r.2)), NextInst)
      else Ok (r.1, r.2, NextInst)
  | EXTRACT aggregate field_idx =>
      let! p := cvm_reg_get vm fr aggregate in
      if p.2 =? 0 then set_next p.1 fr res 0
      else
        let! v := of_option (load64 (mem vm) (u64 (p.2 + field_idx * 8))) in
        set_next p.1 fr res v
  | _ => Ok (vm, fr, NextInst)
  end.

(** ** Calls *)

(** The register file of a new frame: zeroes, then the arguments. *)
Fixpoint copy_args (ps : list MirParam) (args : list Z) (regs : list Z) : list Z :=
  match ps, args with
  | p :: ps, a :: args =>
      let pid := p_value_id p in
      copy_args ps args
        (if negb (pid =? 0)%N && (pid <? N.of_nat (length regs))%N
         then <[N.to_nat pid := a]> regs else regs)
  | _, _ => regs
  end.

Definition frame_regs (f : MirFunction) (args : list Z) : list Z :=
  let n := if (0 <? next_value_id f)%N then s32 (Z.of_N (next_value_id f)) else 1 in
  let n := if CVM_MAX_REGS <? n then CVM_MAX_REGS else n in
  copy_args (params f) args (replicate (Z.to_nat n) 0).

(** The prologue of [cvm_exec_function]: the frame, or [None] after a stack
    overflow trap; [func->entry_block->first] is dereferenced. *)
Definition cvm_enter (vm : CvmState) (f : MirFunction) (args : list Z)
  : outcome (CvmState * option (CvmFrame * nat * list MirInst)) :=
  let d := frame_depth vm + 1 in
  let vm := set_depth vm d (if frame_depth_peak vm <? d then d else frame_depth_peak vm) in
  if CVM_MAX_CALL_DEPTH <? d then
    Ok (set_depth (set_trap vm 2) (frame_depth vm - 1) (frame_depth_peak vm), None)
  else
    let! e := of_option (entry_block f) in
    let! b := of_option (block_at f e) in
    match insts b with
    | [] => Undef
    | l => Ok (vm, Some (mkFrame (frame_regs f args) [], e, l))
    end.

(** The epilogue at [done]. *)
Definition cvm_leave (vm : CvmState) (fr : CvmFrame) : CvmState :=
  set_mem (set_depth vm (frame_depth vm - 1) (frame_depth_peak vm))
    (cvm_frame_free_allocas (mem vm) fr).

(** Registers of the first 64 arguments; [None] after a trap. *)
Fixpoint collect_args (vm : CvmState) (fr : CvmFrame) (ids : list MirValueId)
  : outcome (CvmState * option (list Z)) :=
  match ids with
  | [] => Ok (vm, Some [])
  | id :: ids =>
      if (id =? MIR_VALUE_NONE)%N then
        let! r := collect_args vm fr ids in Ok (r.1, cons 0 <$> r.2)
      else if reg_count fr <=? s32 (Z.of_N id) then Ok (set_trap vm 5, None)
      else
        let! v := of_option (regs fr !! N.to_nat id) in
        let! r := collect_args vm fr ids in Ok (r.1, cons v <$> r.2)
  end.

Definition cvm_intrinsic (vm : CvmState) (name : string) (args : list Z)
  : outcome (option CvmState) :=
  if String.eqb name "nuwan_print_int" then
    Ok (Some (emit vm (EvInt (s64 (default 0 (head args))))))
  else if String.eqb name "nuwan_print_float" then
    Ok (Some (emit vm (EvFloat (default 0 (head args)))))
  else if String.eqb name "nuwan_print_bool" then
    Ok (Some (emit vm (EvBool (negb (default 0 (head args) =? 0)))))
  else if String.eqb name "nuwan_print_str" then
    let v := default 0 (head args) in
    if v =? 0 then Ok (Some (emit vm (EvStr [])))
    else let! s := of_option (read_cstr (S (size (mem vm))) (mem vm) v) in
         Ok (Some (emit vm (EvStr s)))
  else Ok None.

(** [cvm_get_profile] and [prof->call_count++]. *)
Definition count_call (vm : CvmState) (name : string) : CvmState :=
  match find_idx (fun p => bool_decide (func_name p = name)) (profiles vm) with
  | Some i => set_profiles vm (alter (fun p => mkProfile name (call_count p + 1)) i (profiles vm))
  | None => set_profiles vm (profiles vm ++ [mkProfile name 1])
  end.

(** [cvm_dispatch_call] up to the interpretation of the callee: the value it
    returns at once, or the frame to run. *)
Inductive dispatched :=
| Value (v : Z)
| Enter (f : MirFunction) (fr : CvmFrame) (entry : nat) (l : list MirInst).

Definition enter_function (vm : CvmState) (f : MirFunction) (args : list Z)
  : outcome (CvmState * dispatched) :=
  let! e := cvm_enter vm f args in
  match e.2 with
  | Some (fr, b, l) => Ok (e.1, Enter f fr b l)
  | None => Ok (e.1, Value 0)
  end.

Definition cvm_dispatch_call (vm : CvmState) (caller : CvmFrame) (name : string)
  (ids : list MirValueId) : outcome (CvmState * dispatched) :=
  if negb (trap_code vm =? 0) then Ok (vm, Value 0) else
  let! a := collect_args vm caller (take 64 ids) in
  match a.2 with
  | None => Ok (a.1, Value 0)
  | Some args =>
      let! i := cvm_intrinsic a.1 name args in
      match i with
      | Some vm => Ok (vm, Value 0)
      | None =>
          match mir_module_find_function module name with
          | None => Ok (a.1, Value 0)
          | Some callee => enter_function (count_call a.1 name) callee args
          end
      end
  end.

(** ** The loop *)

(** One turn of the dispatch loop at the instruction [l] starts with: its
    handler, where [run] interprets the frame of a callee; an exhausted list
    is [block_end]. *)
Definition exec_step (run : CvmState -> CvmFrame -> MirFunction -> nat -> list MirInst ->
                            outcome (CvmState * Z))
  (vm : CvmState) (fr : CvmFrame) (f : MirFunction) (cur : nat) (prev : blockptr)
  (l : list MirInst) : outcome handled :=
  match l with
  | [] => Ok (vm, fr, Jump (next_block f cur))
  | inst :: _ =>
      let vm := tick vm in
      match as_ inst with
      | CALL name ids _ | CALL_INDIRECT name ids _ =>
          let! d := cvm_dispatch_call vm fr name ids in
          let! r :=
            match d.2 with
            | Value v => Ok (d.1, v)
            | Enter g gfr entry gl => run d.1 gfr g entry gl
            end in
          set_next r.1 fr (result inst) r.2
      | _ => exec_inst vm fr prev inst
      end
  end.

(** [cvm_exec_function] from the instruction [l] starts with, in block [cur]
    entered from [prev]; [fuel] bounds the length of every path of steps and
    nested calls. *)
Fixpoint cvm_exec (fuel : nat) (vm : CvmState) (fr : CvmFrame) (f : MirFunction) (cur : nat)
  (prev : blockptr) (l : list MirInst) : outcome (CvmState * Z) :=
  match fuel with
  | O => OutOfFuel
  | S fuel =>
      let! h := exec_step (fun vm fr g entry gl => cvm_exec fuel vm fr g entry None gl)
                  vm fr f cur prev l in
      let '(vm, fr, k) := h in
      match k with
      | NextInst =>
          if negb (trap_code vm =? 0) then Ok (cvm_leave vm fr, 0)
          else cvm_exec fuel vm fr f cur prev (tail l)
      | Jump None => Ok (cvm_leave vm fr, 0)
      | Jump (Some b) =>
          let! blk := of_option (block_at f b) in
          cvm_exec fuel vm fr f b (Some cur) (insts blk)
      | Done v => Ok (cvm_leave vm fr, v)
      end
  end.

Definition cvm_exec_function (fuel : nat) (vm : CvmState) (f : MirFunction) (args : list Z)
  : outcome (CvmState * Z) :=
  let! d := enter_function vm f args in
  match d.2 with
  | Value v => Ok (d.1, v)
  | Enter g fr entry l => cvm_exec fuel d.1 fr g entry None l
  end.

(** The [int64_t] result; -1 when the entry function does not exist. *)
Definition cvm_run (fuel : nat) (vm : CvmState) (entry : string) (args : list Z)
  : outcome (CvmState * Z) :=
  match mir_module_find_function module entry with
  | None => Ok (vm, -1)
  | Some f =>
      let! r := cvm_exec_function fuel (count_call vm entry) f (map u64 (take 64 args)) in
      Ok (r.1, s64 r.2)
  end.

Definition cvm_call_function (fuel : nat) (vm : CvmState) (f : MirFunction) (args : list Z)
  : outcome (CvmState * Z) :=
  cvm_exec_function fuel (count_call vm (f_name f)) f args.

End cvm.
