(* ===== verification/CvmMemory.v ===== *)
(** * Memory of the interpreter

    Loads read what stores wrote, and the memory of [alloca] is exactly what
    a frame gives back when it is popped. *)
From S2P Require Import Prelude MirCore MirVerifyFacts Float64 Cvm CvmFacts.

(** ** Bytes *)

Lemma load_bytes_ext k m m' p : (forall a, p <= a < p + Z.of_nat k -> m' !! a = m !! a) -> load_bytes k m' p = load_bytes k m p.
Proof.
  revert p. induction k as [|k IH]; intros p H; [done|]. cbn [load_bytes]. rewrite H by lia. rewrite IH; [done|]. intros a Ha. apply H. lia.
Qed.

Lemma store_bytes_other n m p v m' a :
  store_bytes n m p v = Some m' -> a < p \/ p + Z.of_nat n <= a -> m' !! a = m !! a.
Proof.
  revert m p v. induction n as [|n IH]; intros m p v; cbn [store_bytes]; [by intros [= <-]|].
  intros H Ha. apply bind_Some in H as (x & _ & H). apply IH in H; [|lia].
  rewrite H. apply lookup_insert_ne. lia.
Qed.

Lemma store_bytes_dom n m p v m' : store_bytes n m p v = Some m' -> dom m' = dom m.
Proof.
  revert m p v. induction n as [|n IH]; intros m p v; cbn [store_bytes]; [by intros [= <-]|].
  intros H. apply bind_Some in H as (x & Hx & H). apply IH in H. rewrite H.
  apply dom_insert_lookup_L. by eexists.
Qed.

Lemma load_store_bytes n m p v m' :
  store_bytes n m p v = Some m' -> load_bytes n m' p = Some (v mod 256 ^ Z.of_nat n).
Proof.
  revert m p v. induction n as [|n IH]; intros m p v.
  { intros _. simpl. by rewrite Z.mod_1_r. }
  intros H. pose proof H as Hs. cbn [store_bytes] in H. apply bind_Some in H as (x & _ & H).
  cbn [load_bytes]. rewrite (store_bytes_other _ _ _ _ _ p H) by lia.
  rewrite lookup_insert. destruct (decide (p = p)); [|done]. cbn [mbind option_bind].
  rewrite (IH _ _ _ H). cbn [mbind option_bind]. f_equal.
  rewrite Nat2Z.inj_succ, Z.pow_succ_r by lia.
  rewrite Z.rem_mul_r by lia. lia.
Qed.

Lemma store_bytes_total n m p v :
  (forall a, p <= a < p + Z.of_nat n -> is_Some (m !! a)) -> is_Some (store_bytes n m p v).
Proof.
  revert m p v. induction n as [|n IH]; intros m p v H; cbn [store_bytes]; [by eexists|].
  destruct (H p) as [x Hx]; [lia|]. rewrite Hx. cbn [mbind option_bind]. apply IH.
  intros a Ha. rewrite lookup_insert_is_Some. right. split; [lia|]. apply H. lia.
Qed.

(** On allocated memory a 64-bit store succeeds, the load at the same
    address reads the stored value back, every other byte is untouched and no
    byte is allocated or freed. *)
Theorem store_load_roundtrip m p v
  (Halloc : forall a, p <= a < p + 8 -> is_Some (m !! a)) :
  exists m', store64 m p v = Some m' /\ load64 m' p = Some (u64 v) /\ dom m' = dom m /\
    forall a, a < p \/ p + 8 <= a -> m' !! a = m !! a.
Proof.
  destruct (store_bytes_total 8 m p v Halloc) as [m' Hm']. exists m'. split_and!.
  - exact Hm'.
  - apply (load_store_bytes 8 m p v m' Hm').
  - eapply store_bytes_dom, Hm'.
  - intros a Ha. by apply (store_bytes_other 8 m p v m' a Hm').
Qed.

Lemma store_load_roundtrip_witness :
  exists m', store64 (zero_range ∅ 64 8) 64 (u64 (-2)) = Some m' /\
    load64 m' 64 = Some (u64 (u64 (-2))) /\ dom m' = dom (zero_range ∅ 64 8) /\
    forall a, a < 64 \/ 64 + 8 <= a -> m' !! a = zero_range ∅ 64 8 !! a.
Proof.
  apply store_load_roundtrip. intros a Ha.
  assert (Hc : a = 64 \/ a = 65 \/ a = 66 \/ a = 67 \/ a = 68 \/ a = 69 \/ a = 70 \/ a = 71) by lia.
  repeat destruct Hc as [-> | Hc]; try (eexists; vm_compute; reflexivity). subst a.
  eexists; vm_compute; reflexivity.
Defined.

(** ** Ranges *)

Definition range (p n : Z) : gset Z := list_to_set (seqZ p n).

Lemma zero_range_lookup m p n a : zero_range m p n !! a = if decide (a ∈ seqZ p n) then Some 0 else m !! a.
Proof.
  unfold zero_range. induction (seqZ p n) as [|x l IH]; [done|]. cbn [foldr]. destruct (decide (a = x)) as [->|Hne].
  - rewrite lookup_insert_eq. rewrite decide_True; [done|by left].
  - rewrite lookup_insert_ne, IH by done. destruct (decide (a ∈ l)) as [Hin|Hin]; [rewrite decide_True; [done|by right]|].
    rewrite decide_False; [done|]. by intros [?|?]%elem_of_cons.
Qed.

Lemma dom_zero_range m p n : dom (zero_range m p n) = range p n ∪ dom m.
Proof.
  unfold zero_range, range. induction (seqZ p n) as [|a l IH]; simpl; [set_solver|].
  rewrite dom_insert_L. set_solver.
Qed.

Lemma dom_free_range m p n : dom (free_range m p n) = dom m ∖ range p n.
Proof.
  unfold free_range, range. induction (seqZ p n) as [|a l IH]; simpl; [set_solver|].
  rewrite dom_delete_L. set_solver.
Qed.

Definition ranges (l : list (Z * Z)) : gset Z := ⋃ ((fun a => range a.1 a.2) <$> l).

Lemma dom_free_allocas m fr :
  dom (cvm_frame_free_allocas m fr) = dom m ∖ ranges (allocas fr).
Proof.
  unfold cvm_frame_free_allocas.
  assert (H : forall l m, dom (fold_left (fun m a => free_range m a.1 a.2) l m) =
                          dom m ∖ ranges l).
  { unfold ranges. intros l. induction l as [|a l IH]; intros m'; simpl; [set_solver|].
    rewrite IH, dom_free_range. set_solver. }
  rewrite H. f_equal. unfold ranges. apply set_eq. intros x.
  rewrite !elem_of_union_list. setoid_rewrite list_elem_of_fmap.
  setoid_rewrite list_elem_of_In. by setoid_rewrite <- in_rev.
Qed.

(** ** Frames give back exactly what they took *)

Section alloca.
Context (module : MirModule) (calloc : gmap Z Z -> Z -> option Z) (string_addr : string -> Z).

(** C's [calloc]: a block of fresh addresses. *)
Hypothesis calloc_fresh : forall m n p, calloc m n = Some p -> range p n ## dom m.

(** Objects live as long as the machine, so the balance is stated for
    modules that allocate none. *)
Definition no_obj_alloc (f : MirFunction) : bool :=
  forallb (fun b => forallb (fun i => match as_ i with OBJ_ALLOC _ _ => false | _ => true end)
                      (insts b)) (blocks f).
Hypothesis no_objects : forall f, f ∈ func_list module -> no_obj_alloc f = true.

Abbreviation exec_inst := (exec_inst module calloc string_addr).
Abbreviation cvm_exec := (cvm_exec module calloc string_addr).

Definition plain (i : MirInst) : Prop :=
  match as_ i with OBJ_ALLOC _ _ => False | _ => True end.

Lemma block_plain f b blk : f ∈ func_list module -> block_at f b = Some blk -> Forall plain (insts blk).
Proof.
  intros Hf%no_objects Hb%list_elem_of_lookup_2%list_elem_of_In.
  unfold no_obj_alloc in Hf. rewrite forallb_forall in Hf. apply Hf in Hb.
  rewrite forallb_forall in Hb. apply Forall_forall. intros i Hi.
  specialize (Hb i Hi). unfold plain. by destruct (as_ i).
Qed.

(** The memory is the base [B], which the frame never touches, and the blocks
    the frame allocated. *)
Definition owns (B : gset Z) (m : gmap Z Z) (fr : CvmFrame) : Prop :=
  dom m = B ∪ ranges (allocas fr) /\ B ## ranges (allocas fr).

Lemma owns_leave B vm fr : owns B (mem vm) fr -> dom (mem (cvm_leave vm fr)) = B.
Proof. intros [Hd Hb]. simpl. rewrite dom_free_allocas, Hd. set_solver. Qed.

Lemma owns_alloca B m fr p n :
  owns B m fr -> range p n ## dom m ->
  owns B (zero_range m p n) (mkFrame (regs fr) (allocas fr ++ [(p, n)])).
Proof.
  intros [Hd Hb] Hf.
  assert (Hr : ranges (allocas fr ++ [(p, n)]) = ranges (allocas fr) ∪ range p n).
  { unfold ranges. rewrite fmap_app, union_list_app_L. simpl. set_solver. }
  split; simpl; rewrite Hr; [rewrite dom_zero_range, Hd|]; set_solver.
Qed.

Lemma reg_get_mem vm fr r vm' v : cvm_reg_get vm fr r = Ok (vm', v) -> mem vm' = mem vm.
Proof. by intros [-> | ->]%reg_get_Ok. Qed.

Lemma reg_set_mem vm fr r v vm' fr' :
  cvm_reg_set vm fr r v = Ok (vm', fr') -> mem vm' = mem vm /\ allocas fr' = allocas fr.
Proof. by intros ([-> | ->] & _ & ?)%reg_set_Ok. Qed.

Ltac mem_facts :=
  repeat match goal with
  | H : cvm_reg_get _ _ _ = Ok ?p |- _ =>
      destruct p as [? ?]; apply reg_get_mem in H; simpl in *
  | H : cvm_reg_set _ _ _ _ = Ok ?p |- _ =>
      destruct p as [? ?]; apply reg_set_mem in H as [? ?]; simpl in *
  | H : set_next _ _ _ _ = Ok _ |- _ => unfold set_next in H; inv_ok
  | H : op_binary _ _ _ _ _ _ = Ok _ |- _ => unfold op_binary in H; inv_ok
  | H : store64 _ _ _ = Some _ |- _ => apply store_bytes_dom in H
  end.

Lemma exec_inst_owns B vm fr prev i vm' fr' k :
  plain i -> owns B (mem vm) fr -> exec_inst vm fr prev i = Ok (vm', fr', k) ->
  owns B (mem vm') fr'.
Proof.
  intros Hp Ho H. unfold Cvm.exec_inst in H. unfold plain in Hp.
  destruct (as_ i) eqn:Hi; try done.
  all: try (inv_ok; mem_facts; inv_ok; mem_facts; simpl in *; unfold owns in *; simpl in *; congruence).
  (* alloca *)
  inv_ok; mem_facts; simpl in *; try done.
  match goal with H : calloc _ _ = Some _ |- _ => apply calloc_fresh in H end.
  match goal with H : allocas ?f = _ |- _ => pose proof (owns_alloca _ _ _ _ _ Ho ltac:(eassumption)) as Hx end.
  unfold owns in *. simpl in *. congruence.
Qed.

Lemma exec_step_owns B run vm fr f cur prev l vm' fr' k :
  (forall vm g gfr e gl vm' v, g ∈ func_list module -> Forall plain gl -> allocas gfr = [] ->
     run vm gfr g e gl = Ok (vm', v) -> dom (mem vm') = dom (mem vm)) ->
  Forall plain l -> owns B (mem vm) fr ->
  exec_step module calloc string_addr run vm fr f cur prev l = Ok (vm', fr', k) ->
  owns B (mem vm') fr'.
Proof.
  intros Hrun Hpl Ho. destruct l as [|i l]; [by intros [= <- <- _]|].
  apply Forall_cons_1 in Hpl as [Hi _].
  rewrite exec_step_cons. destruct (call_of (as_ i)) as [[name ids]|]; [|exact (exec_inst_owns B (tick vm) fr prev i vm' fr' k Hi Ho)].
  intros ([vm1 d] & Hdc & H)%obind_Ok. apply dispatch_call_spec in Hdc as [[Hm _ _] Hdc].
  cbn [fst snd] in H. apply obind_Ok in H as ([vm2 v] & Hr & Hs). unfold set_next in Hs.
  apply obind_Ok in Hs as ([vm3 fr3] & Hs & [= <- <- _]). apply reg_set_mem in Hs as [Hm3 Ha3].
  simpl in *. unfold owns in *. rewrite Ha3, Hm3.
  assert (dom (mem vm2) = dom (mem vm)); [|congruence].
  destruct d as [v'|g gfr e gl]; simplify_eq/=; [congruence|].
  destruct Hdc as (_ & _ & _ & Hg & [args ->] & blk & Hb & _ & ->).
  rewrite <- Hm. refine (Hrun _ _ (mkFrame _ []) _ _ _ _ Hg _ eq_refl Hr). by eapply block_plain.
Qed.

Lemma cvm_exec_owns n vm fr f cur prev l vm' v B :
  f ∈ func_list module -> Forall plain l -> owns B (mem vm) fr ->
  cvm_exec n vm fr f cur prev l = Ok (vm', v) -> dom (mem vm') = B.
Proof.
  revert vm fr f cur prev l vm' v B. induction n as [|n IH];
    intros vm fr f cur prev l vm' v B Hf Hl Ho; [done|].
  cbn [Cvm.cvm_exec]. intros ([[vm1 fr1] k] & Hh & H)%obind_Ok.
  eapply exec_step_owns in Hh; [|clear -IH|done..].
  2: { intros vm2 g gfr e gl vm3 v2 Hg Hgl Ha. apply IH; [done..|]. unfold owns. rewrite Ha.
       unfold ranges. simpl. set_solver. }
  destruct k as [| [b|] | v1].
  - destruct (negb _); [injection H as <- _; by apply owns_leave|].
    eapply IH; [done| |done..]. destruct Hl; simpl; [by apply Forall_nil_2|done].
  - apply obind_Ok in H as (blk & Hb & H).
    destruct (block_at f b) as [blk'|] eqn:Hbl; [|done]. injection Hb as <-.
    eapply IH; [done| |done..]. by eapply block_plain.
  - injection H as <- _. by apply owns_leave.
  - injection H as <- _. by apply owns_leave.
Qed.

(** No [alloca] memory leaks and none is freed twice or early by the
    frames.  For a module without object allocations and any [calloc] that
    returns fresh blocks, a run, however it ends (return, trap in a nested
    call, stack overflow), leaves exactly the addresses allocated that were
    allocated before it. *)
Theorem cvm_run_frees_allocas n vm entry args vm' v
  (Hrun : cvm_run module calloc string_addr n vm entry args = Ok (vm', v)) :
  dom (mem vm') = dom (mem vm).
Proof.
  unfold cvm_run, cvm_exec_function in Hrun.
  destruct (mir_module_find_function module entry) as [f|] eqn:Hf; [|by injection Hrun as <- _].
  apply find_function_elem in Hf.
  apply obind_Ok in Hrun as ([vm1 v1] & Hrun & [= <- _]).
  apply obind_Ok in Hrun as ([vm2 d] & Hent & Hrun).
  destruct (count_call_eq vm entry) as [l Hl]. rewrite Hl in Hent.
  eapply enter_function_spec in Hent as [[Hm _ _] Hent]; [|done]. simpl in *.
  destruct d as [v2|g gfr e gl]; simplify_eq/=; [congruence|].
  destruct Hent as (_ & _ & _ & Hg & [a ->] & blk & Hb & _ & ->).
  rewrite <- Hm. eapply cvm_exec_owns; [exact Hg|by eapply block_plain| |exact Hrun].
  unfold owns, ranges. simpl. set_solver.
Qed.

End alloca.

(** ** Witness: a bump allocator and a function that uses its slot *)

Definition bump_alloc (m : gmap Z Z) (_ : Z) : option Z :=
  Some (1 + foldr Z.max 0 (map_to_list m).*1).

Lemma bump_alloc_fresh m n p : bump_alloc m n = Some p -> range p n ## dom m.
Proof.
  intros [= <-]. apply elem_of_disjoint. intros a Ha Hd.
  unfold range in Ha. apply elem_of_list_to_set, elem_of_seqZ in Ha.
  apply elem_of_dom in Hd as [x Hx%elem_of_map_to_list].
  assert (H : forall l : list Z, a ∈ l -> a <= foldr Z.max 0 l).
  { intros l. induction l as [|b l IH]; simpl; [by intros ?%not_elem_of_nil|].
    intros [-> | Hin]%elem_of_cons; [lia|]. apply IH in Hin. lia. }
  assert (a <= foldr Z.max 0 (map_to_list m).*1); [|lia].
  apply H, list_elem_of_fmap. by exists (a, x).
Qed.

(** [fn slot(n) { p = alloca; *p = n; return *p; }] *)
Definition ex_slot : MirFunction :=
  mkFunction "slot" 1 [mkParam "n" 1 1] (Some 0%nat)
    [ex_block 0 [ex_inst 2 1 (ALLOCA 1 1); ex_inst 0 0 (STORE 2 1); ex_inst 3 1 (LOAD 2);
                 ex_inst 0 0 (RET 3)] [] []]
    [0%nat] 1 4 [0; 1; 1; 1]%N false false false.
Definition ex_slot_module : MirModule := mkModule "m" [ex_slot] 1 [] [TyPrim MIR_TYPE_I64] [].

Lemma cvm_run_frees_allocas_witness :
  exists vm', cvm_run ex_slot_module bump_alloc (fun _ => 0) 10 (cvm_state_create ∅) "slot" [-7]
    = Ok (vm', -7) /\ dom (mem vm') = dom (mem (cvm_state_create ∅)).
Proof.
  destruct (cvm_run ex_slot_module bump_alloc (fun _ => 0) 10 (cvm_state_create ∅) "slot" [-7])
    as [[vm' v]| |] eqn:Hrun; [|vm_compute in Hrun; discriminate Hrun..].
  exists vm'. split.
  - assert (Hv : match cvm_run ex_slot_module bump_alloc (fun _ => 0) 10 (cvm_state_create ∅) "slot" [-7]
                 with Ok (_, v) => v | _ => 0 end = -7) by reflexivity.
    rewrite Hrun in Hv. by subst.
  - refine (cvm_run_frees_allocas ex_slot_module bump_alloc (fun _ => 0) bump_alloc_fresh _ _ _ _ _ _ _ Hrun).
    intros f Hf. apply list_elem_of_In in Hf. destruct Hf as [<- | []]. reflexivity.
Defined.
