(* ===== verification/CvmSafe.v ===== *)
(** * Verified code stays inside its register file

    The interpreter trusts the verifier: code that [mir_verify_function]
    accepts never raises the register trap (code 5). *)
From S2P Require Import Prelude MirCore MirVerify MirVerifyFacts Float64 Cvm CvmFacts.

(** A register number the file of [n] slots holds, or no register. *)
Definition in_file (n : Z) (v : MirValueId) : Prop := v = MIR_VALUE_NONE \/ s32 (Z.of_N v) < n.

Definition ops_in (n : Z) (i : MirInst) : Prop :=
  Forall (in_file n) (verify_operands (as_ i)) /\ in_file n (result i).

Lemma reg_get_safe vm fr v p :
  in_file (reg_count fr) v -> cvm_reg_get vm fr v = Ok p -> p.1 = vm.
Proof.
  unfold cvm_reg_get. intros [-> | Hv] H; [by inv_ok|]. destruct (v =? 0)%N; [by inv_ok|].
  destruct (Z.leb_spec (reg_count fr) (s32 (Z.of_N v))); [lia|]. by inv_ok.
Qed.

Lemma reg_set_safe vm fr v x p :
  in_file (reg_count fr) v -> cvm_reg_set vm fr v x = Ok p ->
  p.1 = vm /\ reg_count p.2 = reg_count fr.
Proof.
  unfold cvm_reg_set. intros [-> | Hv] H; [by inv_ok|]. destruct (v =? 0)%N; [by inv_ok|].
  destruct (Z.leb_spec (reg_count fr) (s32 (Z.of_N v))); [lia|]. inv_ok.
  unfold reg_count. simpl. by rewrite length_insert.
Qed.

Lemma first_value_in edges : first_value edges = MIR_VALUE_NONE \/ first_value edges ∈ edges.*2.
Proof.
  induction edges as [|e edges [IH | IH]]; simpl; [by left| |];
    destruct (N.eqb_spec e.2 0); eauto; right; try by left.
  by right.
Qed.

Lemma phi_source_in n prev edges :
  Forall (in_file n) edges.*2 -> in_file n (phi_source prev edges).
Proof.
  intros H. unfold phi_source. destruct (List.find _ _) as [e|] eqn:He.
  - apply find_some in He as [He _]. apply list_elem_of_In in He.
    rewrite List.Forall_forall in H. apply H, list_elem_of_In, list_elem_of_fmap. eauto.
  - destruct (first_value_in edges) as [-> | Hf]; [by left|].
    rewrite List.Forall_forall in H. by apply H, list_elem_of_In.
Qed.

Section safe.
Context (module : MirModule) (calloc : gmap Z Z -> Z -> option Z) (string_addr : string -> Z).

(** Splits the operand facts of an instruction. *)
Ltac split_ops :=
  repeat match goal with
  | H : Forall _ (_ :: _) |- _ => apply Forall_cons_1 in H as [? H]
  | H : Forall _ [] |- _ => clear H
  end.

Ltac safe_facts :=
  repeat match goal with
  | H : cvm_reg_get _ _ _ = Ok ?p |- _ =>
      destruct p as [? ?]; apply reg_get_safe in H; [simpl in H; subst|by eauto using phi_source_in]
  | H : cvm_reg_set _ _ _ _ = Ok ?p |- _ =>
      destruct p as [? ?]; apply reg_set_safe in H as [? ?]; [simpl in *; subst|by eauto]
  | H : set_next _ _ _ _ = Ok _ |- _ => unfold set_next in H; inv_ok
  | H : op_binary _ _ _ _ _ _ = Ok _ |- _ => unfold op_binary in H; inv_ok
  | H : cvm_heap_object_alloc _ _ _ = Some _ |- _ =>
      unfold cvm_heap_object_alloc in H; simplify_option_eq
  end.

Lemma exec_inst_safe vm fr prev i vm' fr' k :
  ops_in (reg_count fr) i -> trap_code vm <> 5 ->
  exec_inst module calloc string_addr vm fr prev i = Ok (vm', fr', k) ->
  trap_code vm' <> 5 /\ reg_count fr' = reg_count fr.
Proof.
  intros [Ho Hr] Ht H. unfold exec_inst in H.
  destruct (as_ i) eqn:Hi; simpl in Ho; split_ops;
    inv_ok; safe_facts; inv_ok; safe_facts; simpl in *;
    (split; [done|]); unfold reg_count in *; simpl in *; rewrite ?length_insert; congruence.
Qed.

Lemma collect_args_safe vm fr ids vm' o :
  Forall (in_file (reg_count fr)) ids -> collect_args vm fr ids = Ok (vm', o) -> vm' = vm.
Proof.
  intros Hi. revert vm' o. induction Hi as [|v ids Hv Hi IH]; intros vm' o H; simpl in H; [by inv_ok|].
  destruct (N.eqb_spec v 0) as [->|Hv0].
  - apply obind_Ok in H as ([vm1 o1] & Hc%IH & [= <- _]). done.
  - destruct Hv as [?|Hv]; [done|].
    destruct (Z.leb_spec (reg_count fr) (s32 (Z.of_N v))); [lia|].
    apply obind_Ok in H as (x & _ & H). apply obind_Ok in H as ([vm1 o1] & Hc%IH & [= <- _]). done.
Qed.

Lemma dispatch_call_safe vm fr name ids vm' d :
  Forall (in_file (reg_count fr)) ids -> trap_code vm <> 5 ->
  cvm_dispatch_call module vm fr name ids = Ok (vm', d) -> trap_code vm' <> 5.
Proof.
  unfold cvm_dispatch_call. intros Hi Ht. destruct (negb _); [by intros [= <- _]|].
  intros ([vm1 o] & Hc & H)%obind_Ok. apply collect_args_safe in Hc as ->; [|by apply Forall_take].
  destruct o as [args|]; [|by injection H as <- _]. cbn [fst snd] in H.
  apply obind_Ok in H as ([vm2|] & Hc & H).
  - destruct (intrinsic_Ok _ _ _ _ _ Hc eq_refl) as [e ->]. by injection H as <- _.
  - destruct (mir_module_find_function _ _) as [g|]; [|by injection H as <- _].
    destruct (count_call_eq vm name) as [l Hl]. rewrite Hl in H.
    unfold enter_function, cvm_enter in H. by inv_ok.
Qed.

(** A function the interpreter may enter: a declaration, or a verified body
    whose blocks are all linked, whose results were numbered by
    [mir_function_new_value] and whose registers fit the file. *)
Definition vm_ready (f : MirFunction) : Prop :=
  is_extern f = true /\ entry_block f = None \/
  is_extern f = false /\ func_wf f /\
  mir_verify_function (type_cache module) f = Ok 0 /\
  (forall b, is_Some (block_at f b) -> b ∈ block_list f) /\
  (0 < next_value_id f <= Z.to_N CVM_MAX_REGS)%N /\
  forall b blk i, block_at f b = Some blk -> i ∈ insts blk -> (result i < next_value_id f)%N.

Hypothesis all_ready : forall f, f ∈ func_list module -> vm_ready f.

Lemma ready_ops f b blk :
  f ∈ func_list module -> is_Some (entry_block f) -> block_at f b = Some blk ->
  Forall (ops_in (Z.of_N (next_value_id f))) (insts blk).
Proof.
  intros Hf [e He] Hb. destruct (all_ready f Hf) as [[_ ?]|(Hx & Hwf & Hv & Hl & Hn & Hr)]; [congruence|].
  destruct (verify_function_iff (type_cache module) f Hwf) as (n & Hn1 & Hiff).
  assert (n = 0) as Hwell%Hiff by congruence.
  destruct Hwell as [?|(e' & eb & _ & _ & _ & Hall)]; [congruence|].
  destruct (Hall b blk) as [[_ Hin] _]; [apply Hl; by eexists|done|].
  unfold CVM_MAX_REGS in *. apply List.Forall_forall. intros i Hi.
  rewrite List.Forall_forall in Hin. destruct (Hin i Hi) as [Hops _]. split.
  - eapply Forall_impl; [|exact Hops]. intros v [-> | [Hv' _]]; [by left|].
    right. rewrite (s32_small (Z.of_N (next_value_id f))) in Hv' by lia. lia.
  - destruct (N.eqb_spec (result i) 0); [by left|right].
    apply list_elem_of_In in Hi. specialize (Hr b blk i Hb Hi). rewrite s32_small; lia.
Qed.

Lemma copy_args_length ps args l : length (copy_args ps args l) = length l.
Proof.
  revert args l. induction ps as [|p ps IH]; intros [|a args] l; simpl; try done.
  rewrite IH. destruct (_ && _); [apply length_insert|done].
Qed.

Lemma frame_regs_count f args :
  f ∈ func_list module -> is_Some (entry_block f) ->
  Z.of_nat (length (frame_regs f args)) = Z.of_N (next_value_id f).
Proof.
  intros Hf [e He]. destruct (all_ready f Hf) as [[_ ?]|(_ & _ & _ & _ & Hn & _)]; [congruence|].
  unfold CVM_MAX_REGS in Hn. unfold frame_regs. rewrite copy_args_length, length_replicate.
  destruct (N.ltb_spec 0 (next_value_id f)); [|lia]. rewrite s32_small by lia.
  unfold CVM_MAX_REGS. destruct (Z.ltb_spec 4096 (Z.of_N (next_value_id f))); lia.
Qed.

(** The invariant of a running frame. *)
Definition frame_ready (f : MirFunction) (fr : CvmFrame) (l : list MirInst) : Prop :=
  f ∈ func_list module /\ is_Some (entry_block f) /\
  reg_count fr = Z.of_N (next_value_id f) /\ Forall (ops_in (reg_count fr)) l.

Lemma enter_ready g args vm' entry gl (b : MirBlock) :
  g ∈ func_list module -> block_at g entry = Some b -> entry_block g = Some entry -> gl = insts b ->
  vm' = mkFrame (frame_regs g args) [] -> frame_ready g vm' gl.
Proof.
  intros Hg Hb He -> ->. assert (is_Some (entry_block g)) by (by eexists).
  split_and!; try done.
  - unfold reg_count. by apply frame_regs_count.
  - unfold reg_count. simpl. rewrite frame_regs_count by done. by eapply ready_ops.
Qed.

Lemma exec_step_safe run vm fr f cur prev l vm' fr' k :
  (forall vm g gfr e gl vm' v, frame_ready g gfr gl -> trap_code vm <> 5 ->
     run vm gfr g e gl = Ok (vm', v) -> trap_code vm' <> 5) ->
  frame_ready f fr l -> trap_code vm <> 5 ->
  exec_step module calloc string_addr run vm fr f cur prev l = Ok (vm', fr', k) ->
  trap_code vm' <> 5 /\ reg_count fr' = reg_count fr.
Proof.
  intros Hrun (Hf & He & Hc & Hl) Ht. destruct l as [|i l]; [by intros [= <- <- _]|].
  apply Forall_cons_1 in Hl as [Hi Hl]. rewrite exec_step_cons.
  destruct (call_of (as_ i)) as [[name ids]|] eqn:Hcall; [|by apply exec_inst_safe].
  intros ([vm1 d] & Hd & H)%obind_Ok.
  assert (Hids : Forall (in_file (reg_count fr)) ids).
  { destruct Hi as [Hi _]. destruct (as_ i); simplify_eq/=; by apply Forall_cons_1 in Hi as [_ Hi]. }
  assert (Ht1 : trap_code vm1 <> 5).
  { apply (dispatch_call_safe (tick vm) fr name ids vm1 d Hids Ht Hd). }
  apply dispatch_call_spec in Hd as [_ Hd]. cbn [fst snd] in H.
  apply obind_Ok in H as ([vm2 v] & Hr & Hs). unfold set_next in Hs.
  apply obind_Ok in Hs as ([vm3 fr3] & Hs & [= <- <- _]).
  apply reg_set_safe in Hs as [Hs1 Hs2]; [|by destruct Hi]. simpl in *. subst vm3. split; [|done].
  destruct d as [v'|g gfr e gl]; simplify_eq/=; [done|].
  destruct Hd as (_ & _ & _ & Hg & [args Ha] & blk & Hb & Heb & Hgl).
  eapply Hrun; [|exact Ht1|exact Hr]. by eapply enter_ready.
Qed.

Lemma cvm_exec_safe n vm fr f cur prev l vm' v :
  frame_ready f fr l -> trap_code vm <> 5 ->
  cvm_exec module calloc string_addr n vm fr f cur prev l = Ok (vm', v) -> trap_code vm' <> 5.
Proof.
  revert vm fr f cur prev l vm' v. induction n as [|n IH];
    intros vm fr f cur prev l vm' v Hfr Ht; [done|].
  cbn [cvm_exec]. intros ([[vm1 fr1] k] & Hh & H)%obind_Ok.
  eapply exec_step_safe in Hh as [Ht1 Hc1]; [|intros ??????? Ha Hb Hc; exact (IH _ _ _ _ _ _ _ _ Ha Hb Hc)|done..].
  destruct Hfr as (Hf & He & Hc & Hl). destruct k as [| [b|] | v1].
  - destruct (negb _); [by injection H as <- _|]. eapply IH; [|exact Ht1|exact H].
    unfold frame_ready. rewrite Hc1. split_and!; try done.
    destruct Hl; simpl; [by apply Forall_nil_2|done].
  - apply obind_Ok in H as (blk & Hb & H).
    destruct (block_at f b) as [blk'|] eqn:Hbl; [|done]. injection Hb as <-.
    eapply IH; [|exact Ht1|exact H]. unfold frame_ready. rewrite Hc1, Hc. split_and!; try done.
    by eapply ready_ops.
  - by injection H as <- _.
  - by injection H as <- _.
Qed.

(** C17: code the verifier accepts never leaves its register file.  Let every
    function of the module be either a declaration, external and without an
    entry block, or a body that is not external, on which
    [mir_verify_function] reports nothing, and which has what the verifier
    does not look at: the structural invariant [func_wf] (block ids are the
    positions in the block list, the count is its length, the entry is its
    first block, the targets of the terminators are in it), every block in
    that list, every result id below [next_value_id], and that bound between
    1 and [CVM_MAX_REGS].  Then a run that starts on a machine not already
    stopped by the register trap (code 5), and returns, does not end with that
    trap, whatever it calls and however it ends. *)
Theorem verified_module_no_reg_trap n vm entry args vm' v
  (Ht : trap_code vm <> 5)
  (Hrun : cvm_run module calloc string_addr n vm entry args = Ok (vm', v)) :
  trap_code vm' <> 5.
Proof.
  unfold cvm_run, cvm_exec_function in Hrun.
  destruct (mir_module_find_function module entry) as [f|] eqn:Hf; [|by injection Hrun as <- _].
  apply find_function_elem in Hf.
  apply obind_Ok in Hrun as ([vm1 v1] & Hrun & [= <- _]).
  apply obind_Ok in Hrun as ([vm2 d] & Hent & Hrun).
  destruct (count_call_eq vm entry) as [l Hl]. rewrite Hl in Hent.
  assert (Ht2 : trap_code vm2 <> 5) by (unfold enter_function, cvm_enter in Hent; by inv_ok).
  eapply enter_function_spec in Hent as [_ Hent]; [|done]. simpl in *.
  destruct d as [v2|g gfr e gl]; simplify_eq/=; [done|].
  destruct Hent as (_ & _ & _ & Hg & [a Ha] & blk & Hb & Heb & Hgl).
  eapply cvm_exec_safe; [|exact Ht2|exact Hrun]. by eapply enter_ready.
Qed.

End safe.

(** ** Witnesses *)

(** The diamond of the verifier's witness calls nothing; its sum with 7. *)
Definition ex_diamond_module : MirModule := mkModule "m" [ex_diamond] 1 [] [TyPrim MIR_TYPE_I64] [].

Lemma ex_diamond_ready f : f ∈ func_list ex_diamond_module -> vm_ready ex_diamond_module f.
Proof.
  intros Hf%list_elem_of_In. destruct Hf as [<- | []]. right.
  split; [reflexivity|]. split; [by apply func_wfb_sound|]. split; [reflexivity|].
  split; [|split; [done|]].
  - intros b [blk Hb%lookup_lt_Some]. simpl in Hb. apply list_elem_of_In. simpl. lia.
  - intros b blk i Hb Hi.
    do 4 (destruct b as [|b]; [injection Hb as <-; apply list_elem_of_In in Hi; simpl in Hi;
      repeat destruct Hi as [<- | Hi]; done|]). done.
Qed.

Lemma verified_module_no_reg_trap_witness :
  exists vm', cvm_run ex_diamond_module (fun _ _ => None) (fun _ => 0) 20 (cvm_state_create ∅) "d" [5]
    = Ok (vm', 12) /\ trap_code vm' <> 5.
Proof.
  destruct (cvm_run ex_diamond_module (fun _ _ => None) (fun _ => 0) 20 (cvm_state_create ∅) "d" [5])
    as [[vm' v]| |] eqn:Hrun; [|vm_compute in Hrun; discriminate Hrun..].
  exists vm'. split.
  - assert (Hv : match cvm_run ex_diamond_module (fun _ _ => None) (fun _ => 0) 20
                   (cvm_state_create ∅) "d" [5] with Ok (_, v) => v | _ => 0 end = 12) by reflexivity.
    rewrite Hrun in Hv. by subst.
  - refine (verified_module_no_reg_trap ex_diamond_module (fun _ _ => None) (fun _ => 0)
              ex_diamond_ready _ _ _ _ _ _ _ Hrun). discriminate.
Defined.

Lemma cvm_run_frames_balanced_witness :
  exists vm', cvm_run ex_diamond_module (fun _ _ => None) (fun _ => 0) 20 (cvm_state_create ∅) "d" [0]
    = Ok (vm', 7) /\ frame_depth vm' = 0 /\ frame_depth_peak vm' <= CVM_MAX_CALL_DEPTH + 1 /\
    (trap_code (cvm_state_create ∅) <> 0 -> trap_code vm' <> 0).
Proof.
  destruct (cvm_run ex_diamond_module (fun _ _ => None) (fun _ => 0) 20 (cvm_state_create ∅) "d" [0])
    as [[vm' v]| |] eqn:Hrun; [|vm_compute in Hrun; discriminate Hrun..].
  exists vm'. split.
  - assert (Hv : match cvm_run ex_diamond_module (fun _ _ => None) (fun _ => 0) 20
                   (cvm_state_create ∅) "d" [0] with Ok (_, v) => v | _ => 0 end = 7) by reflexivity.
    rewrite Hrun in Hv. by subst.
  - apply (cvm_run_frames_balanced ex_diamond_module (fun _ _ => None) (fun _ => 0) 20
             (cvm_state_create ∅) "d" [0] vm' v); [reflexivity|vm_compute; congruence|exact Hrun].
Defined.

Lemma cvm_run_deterministic_witness :
  match cvm_run ex_diamond_module (fun _ _ => None) (fun _ => 0) 20 (cvm_state_create ∅) "d" [5],
        cvm_run ex_diamond_module (fun _ _ => None) (fun _ => 0) 50 (cvm_state_create ∅) "d" [5] with
  | Ok r, Ok r' => r = r'
  | _, _ => False
  end.
Proof.
  destruct (cvm_run _ _ _ 20 _ _ _) as [r| |] eqn:H1; [|vm_compute in H1; discriminate H1..].
  destruct (cvm_run _ _ _ 50 _ _ _) as [r'| |] eqn:H2; [|vm_compute in H2; discriminate H2..].
  apply (cvm_run_deterministic ex_diamond_module (fun _ _ => None) (fun _ => 0) 20 50
           (cvm_state_create ∅) "d" [5] r r' H1 H2).
Defined.
