(* ===== verification/MirOptFacts.v ===== *)
(** * Correctness of the optimisation passes

    What each pass of [MirOpt.v] may change: the completeness of the
    replacement of uses, the agreement of folded and reduced operations with
    the interpreter, the phi/predecessor bookkeeping, reference-count balance,
    and the removal of exactly the unreachable blocks. *)
From S2P Require Import Prelude MirCore MirGraph MirVerify MirOpt Float64 Cvm CvmFacts.

(** ** Replacement of uses *)

(** The kinds of instructions [replace_value_in_inst] handles. *)
Definition rewritable (k : MirInstKind) : bool :=
  match k with
  | SWITCH _ _ _ | CALL_VIRTUAL _ _ _ | STRUCT_INIT _ | EXTRACT _ _ | INSERT _ _ _ => false
  | _ => true
  end.

Lemma replace_uses old new i :
  inst_uses (as_ (replace_value_in_inst old new i)) =
  if rewritable (as_ i) then map (fun v => if (v =? old)%N then new else v) (inst_uses (as_ i))
  else inst_uses (as_ i).
Proof.
  unfold replace_value_in_inst. destruct (as_ i) eqn:Hi; simpl; try done.
  clear Hi. induction edges as [|e edges IH]; simpl; [done|]. by f_equal.
Qed.

Lemma replace_all_uses_insts f old new :
  NoDup (block_list f) ->
  all_insts (replace_all_uses f old new) = map (replace_value_in_inst old new) (all_insts f).
Proof.
  intros Hnd. unfold all_insts, replace_all_uses. rewrite upd_all_list.
  assert (Hb : forall b, b ∈ block_list f ->
    inst_list (fold_left (fun f b => upd_block f b (map_insts (map (replace_value_in_inst old new))))
                 (block_list f) f) b = map (replace_value_in_inst old new) (inst_list f b)).
  { intros b Hb. unfold inst_list. rewrite upd_all_at by done. rewrite decide_True by done.
    by destruct (block_at f b). }
  revert Hb. generalize (fold_left (fun f b => upd_block f b (map_insts (map (replace_value_in_inst old new))))
                 (block_list f) f). intros f'.
  induction (block_list f) as [|b bl IH]; intros Hb; simpl; [done|].
  apply list.NoDup_cons in Hnd as [_ Hnd].
  rewrite map_app, Hb by left. f_equal. apply IH; [done|]. intros c Hc. apply Hb. by right.
Qed.

(** Replacement of uses is exact.  After [replace_all_uses old new] the
    instructions are the old ones with the operands [old] replaced, and an
    instruction still reads [old] precisely when it read it before and is one
    of the five kinds the replacement does not handle (switch, virtual call,
    struct initialiser, extract, insert). *)
Theorem replace_all_uses_exact f old new
  (Hnew : new <> old) (Hnd : NoDup (block_list f)) :
  all_insts (replace_all_uses f old new) = map (replace_value_in_inst old new) (all_insts f) /\
  forall i, i ∈ all_insts f ->
    value_used_in_inst (replace_value_in_inst old new i) old =
    value_used_in_inst i old && negb (rewritable (as_ i)).
Proof.
  split; [by apply replace_all_uses_insts|]. intros i _.
  unfold value_used_in_inst. rewrite replace_uses. destruct (rewritable (as_ i)); simpl.
  - rewrite andb_false_r. induction (inst_uses (as_ i)) as [|v l IH]; simpl; [done|].
    rewrite IH. destruct (N.eqb_spec v old) as [->|Hv]; simpl.
    + rewrite orb_false_r. by apply N.eqb_neq.
    + rewrite orb_false_r. by apply N.eqb_neq.
  - by rewrite andb_true_r.
Qed.

(** ** Predecessors and phi edges *)

Lemma remove_block_perm l x : x ∈ l -> x :: remove_block l x ≡ₚ l.
Proof.
  intros Hx. unfold remove_block. destruct (find_idx _ l) as [i|] eqn:Hi.
  - apply find_idx_Some in Hi as (y & Hy & Hp & _). apply bool_decide_eq_true in Hp as ->.
    by apply swap_remove_perm.
  - rewrite find_idx_None in Hi. apply Hi in Hx. by rewrite bool_decide_eq_false in Hx.
Qed.

Lemma remove_block_absent l x : x ∉ l -> remove_block l x = l.
Proof.
  intros Hx. unfold remove_block. destruct (find_idx _ l) as [i|] eqn:Hi; [|done].
  apply find_idx_Some in Hi as (y & Hy & Hp & _). apply bool_decide_eq_true in Hp as ->.
  destruct Hx. by eapply list_elem_of_lookup_2.
Qed.

Lemma elem_of_remove_block l x y : NoDup l -> y ∈ remove_block l x <-> y ∈ l /\ y <> x.
Proof.
  intros Hnd. destruct (decide (x ∈ l)) as [Hx|Hx].
  - pose proof (remove_block_perm l x Hx) as Hp. rewrite <- Hp in Hnd.
    apply list.NoDup_cons in Hnd as [Hn _].
    assert (y ∈ l <-> y ∈ x :: remove_block l x) as -> by (by rewrite Hp).
    rewrite elem_of_cons. naive_solver.
  - rewrite remove_block_absent by done. naive_solver.
Qed.

Lemma NoDup_remove_block l x : NoDup l -> NoDup (remove_block l x).
Proof.
  intros Hnd. destruct (decide (x ∈ l)) as [Hx|Hx].
  - rewrite <- (remove_block_perm l x Hx) in Hnd. by apply list.NoDup_cons in Hnd as [_ ?].
  - by rewrite remove_block_absent.
Qed.

Lemma drop_edge_perm dead edges :
  Some dead ∈ edges.*1 -> Some dead :: (drop_edge dead edges).*1 ≡ₚ edges.*1.
Proof.
  intros (e & He & Hin)%list_elem_of_fmap. unfold drop_edge.
  destruct (find_idx _ edges) as [i|] eqn:Hi.
  - apply find_idx_Some in Hi as (y & Hy & Hp & _). apply bool_decide_eq_true in Hp.
    rewrite <- Hp. change (y.1 :: (swap_remove i edges).*1) with ((y :: swap_remove i edges).*1).
    by rewrite (swap_remove_perm edges i y Hy).
  - rewrite find_idx_None in Hi. apply Hi in Hin. by rewrite bool_decide_eq_false in Hin.
Qed.

Lemma drop_edge_absent dead edges : Some dead ∉ edges.*1 -> drop_edge dead edges = edges.
Proof.
  intros Hx. unfold drop_edge. destruct (find_idx _ edges) as [i|] eqn:Hi; [|done].
  apply find_idx_Some in Hi as (y & Hy & Hp & _). apply bool_decide_eq_true in Hp.
  destruct Hx. apply list_elem_of_fmap. exists y. split; [done|]. by eapply list_elem_of_lookup_2.
Qed.

(** Every leading phi has one edge per predecessor, for that predecessor. *)
Fixpoint phis_match (preds : list nat) (l : list MirInst) : Prop :=
  match l with
  | i :: rest =>
      match as_ i with
      | PHI edges => edges.*1 ≡ₚ Some <$> preds /\ phis_match preds rest
      | _ => True
      end
  | [] => True
  end.

(** Removing a CFG edge keeps phis and predecessors in step.  If every
    leading phi of a block has exactly one edge per predecessor, it still has
    after [cfg_remove_pred], although both arrays are compacted by moving
    their last element; a predecessor list without duplicates loses exactly
    the removed block. *)
Theorem cfg_remove_pred_keeps_phis dead b
  (Hmatch : phis_match (predecessors b) (insts b)) (Hnd : NoDup (predecessors b)) :
  let b' := cfg_remove_pred dead b in
  phis_match (predecessors b') (insts b') /\ NoDup (predecessors b') /\
  forall p, p ∈ predecessors b' <-> p ∈ predecessors b /\ p <> dead.
Proof.
  simpl. split_and!; [|by apply NoDup_remove_block|intros p; by apply elem_of_remove_block].
  revert Hmatch. generalize (insts b). intros l. induction l as [|i l IH]; simpl; [done|].
  destruct (as_ i) eqn:Hi; simpl; rewrite ?Hi; try done. intros [Hp Hm].
  split; [|by apply IH]. destruct (decide (dead ∈ predecessors b)) as [Hd|Hd].
  - apply (Permutation_cons_inv (a := Some dead)). rewrite drop_edge_perm.
    + rewrite Hp, <- (remove_block_perm _ _ Hd) at 1. done.
    + rewrite Hp. by apply list_elem_of_fmap_2.
  - rewrite remove_block_absent, drop_edge_absent; [done| |done].
    rewrite Hp. intros (x & [= <-] & Hx)%list_elem_of_fmap. done.
Qed.

(** ** ARC elision *)

Definition is_ref (op : MirRefOp) (p : MirValueId) (i : MirInst) : bool :=
  match as_ i with
  | REFOP op' p' => bool_decide (op' = op) && (p' =? p)%N
  | _ => false
  end.

Definition count_ref (op : MirRefOp) (p : MirValueId) (l : list MirInst) : Z :=
  zsum (map (fun i => b2z (is_ref op p i)) l).

(** Retains minus releases of [p]. *)
Definition balance (p : MirValueId) (l : list MirInst) : Z :=
  count_ref MIR_ARC_RETAIN p l - count_ref MIR_ARC_RELEASE p l.

(** An instruction kept, or a retain or release turned into a nop. *)
Definition arc_changed (i i' : MirInst) : Prop :=
  i' = i \/ i' = nop i /\ exists p, as_ i = REFOP MIR_ARC_RETAIN p \/ as_ i = REFOP MIR_ARC_RELEASE p.

Lemma find_release_Some ptr l j :
  find_release ptr l = Some j ->
  exists i, l !! j = Some i /\ as_ i = REFOP MIR_ARC_RELEASE ptr /\
    existsb (fun mid => value_used_in_inst mid ptr) (take j l) = false.
Proof.
  revert j. induction l as [|i l IH]; intros j; simpl; [done|].
  destruct (match as_ i with REFOP MIR_ARC_RELEASE p => (p =? ptr)%N | _ => false end) eqn:Hm.
  - intros [= <-]. exists i. split_and!; [done| |done].
    destruct (as_ i); try done. destruct op; try done. by apply N.eqb_eq in Hm as ->.
  - destruct (value_used_in_inst i ptr) eqn:Hu; [done|].
    destruct (find_release ptr l) as [k|] eqn:Hk; [|done]. intros [= <-].
    destruct (IH k eq_refl) as (x & Hx & Hax & Hex). exists x. split_and!; [done|done|].
    simpl. by rewrite Hu.
Qed.

Lemma count_ref_cons op p i l :
  count_ref op p (i :: l) = b2z (is_ref op p i) + count_ref op p l.
Proof. reflexivity. Qed.

Lemma alter_cons {A} (g : A -> A) j x l : alter g (S j) (x :: l) = x :: alter g j l.
Proof. reflexivity. Qed.

Lemma count_ref_alter op p l j i :
  l !! j = Some i ->
  count_ref op p (alter nop j l) = count_ref op p l - b2z (is_ref op p i).
Proof.
  revert j. induction l as [|x l IH]; intros [|j]; try done.
  - intros [= ->]. change (alter nop 0%nat (i :: l)) with (nop i :: l). rewrite !count_ref_cons.
    change (b2z (is_ref op p (nop i))) with 0. lia.
  - intros Hj. rewrite alter_cons, !count_ref_cons, (IH j) by done. lia.
Qed.

Definition nops (l : list MirInst) : Z := zsum (map (fun i => b2z (bool_decide (as_ i = NOP))) l).

Lemma nops_cons i l : nops (i :: l) = b2z (bool_decide (as_ i = NOP)) + nops l.
Proof. reflexivity. Qed.

Lemma nops_alter l j i :
  l !! j = Some i -> as_ i <> NOP -> nops (alter nop j l) = nops l + 1.
Proof.
  revert j. induction l as [|x l IH]; intros [|j]; try done.
  - intros [= ->] Hi. change (alter nop 0%nat (i :: l)) with (nop i :: l). rewrite !nops_cons.
    rewrite (bool_decide_eq_false_2 (as_ i = NOP)) by done. simpl. lia.
  - intros Hj Hi. rewrite alter_cons, !nops_cons, (IH j) by done. lia.
Qed.

Lemma arc_changed_alter l j i l' :
  l !! j = Some i -> (exists p, as_ i = REFOP MIR_ARC_RELEASE p) ->
  Forall2 arc_changed (alter nop j l) l' -> Forall2 arc_changed l l'.
Proof.
  revert j l'. induction l as [|x l IH]; intros [|j] l' Hj [p Hp] H; simpl in *; try done;
    inversion H as [|? y ? l1 Hy Hl]; subst; constructor; eauto.
  - injection Hj as ->. right. destruct Hy as [-> | [-> (q & [Hq | Hq])]]; [eauto|done..].
Qed.

Lemma Forall2_arc_refl l : Forall2 arc_changed l l.
Proof. induction l; constructor; [by left|done]. Qed.

Lemma balance_cons p i l :
  balance p (i :: l) =
  b2z (is_ref MIR_ARC_RETAIN p i) - b2z (is_ref MIR_ARC_RELEASE p i) + balance p l.
Proof. unfold balance, count_ref. simpl. lia. Qed.

Lemma arc_insts_spec n : forall l l' c,
  arc_insts n l = (l', c) ->
  Forall2 arc_changed l l' /\ (forall p, balance p l' = balance p l) /\ nops l' = nops l + 2 * c.
Proof.
  induction n as [|n IH]; intros l l' c H.
  { injection H as <- <-. split_and!; [apply Forall2_arc_refl|done|lia]. }
  destruct l as [|i l]; simpl in H.
  { injection H as <- <-. split_and!; [constructor|done|lia]. }
  assert (Hkeep : forall l1 c1, arc_insts n l = (l1, c1) -> (i :: l1, c1) = (l', c) ->
    Forall2 arc_changed (i :: l) l' /\ (forall p, balance p l' = balance p (i :: l)) /\
    nops l' = nops (i :: l) + 2 * c).
  { intros l1 c1 H1 [= <- <-]. apply IH in H1 as (Hf & Hb & Hn). split_and!.
    - constructor; [by left|done].
    - intros p. by rewrite !balance_cons, Hb.
    - rewrite !nops_cons. lia. }
  destruct (as_ i) eqn:Hi; try (destruct (arc_insts n l) eqn:H1; by eapply Hkeep).
  destruct op; try (destruct (arc_insts n l) eqn:H1; by eapply Hkeep).
  destruct (find_release ptr l) as [j|] eqn:Hj; [|destruct (arc_insts n l) eqn:H1; by eapply Hkeep].
  apply find_release_Some in Hj as (r & Hr & Har & Hex). rewrite Hex in H.
  destruct (arc_insts n (alter nop j l)) as [l1 c1] eqn:H1. injection H as <- <-.
  apply IH in H1 as (Hf & Hb & Hn). split_and!.
  - constructor; [right; eauto|]. eapply arc_changed_alter; eauto.
  - intros p. rewrite !balance_cons, Hb. unfold balance.
    rewrite !(count_ref_alter _ p l j r Hr). unfold is_ref. rewrite Hi, Har. simpl.
    destruct (ptr =? p)%N; simpl; lia.
  - rewrite !nops_cons, Hn, (nops_alter l j r Hr) by congruence. rewrite Hi. simpl. lia.
Qed.

(** ARC elision is balanced.  On any instruction list the pass only turns
    retains and releases into nops, two for each pair it counts, and leaves
    every value's balance of retains and releases unchanged. *)
Theorem arc_elision_balanced l :
  let r := arc_insts (length l) l in
  Forall2 arc_changed l r.1 /\ (forall p, balance p r.1 = balance p l) /\
  nops r.1 = nops l + 2 * r.2.
Proof. simpl. destruct (arc_insts (length l) l) as [l' c] eqn:H. by apply arc_insts_spec in H. Qed.

(** ** Folding agrees with the interpreter *)

Lemma b2z_inj b b' : b2z b = b2z b' <-> b = b'.
Proof. by destruct b, b'. Qed.

Lemma u64_add_s64 x y : u64 (u64 x + u64 y) = u64 (x + y).
Proof. unfold u64. by rewrite <- Z.add_mod by lia. Qed.
Lemma u64_sub_s64 x y : u64 (u64 x - u64 y) = u64 (x - y).
Proof. unfold u64. by rewrite <- Zminus_mod. Qed.
Lemma u64_mul_s64 x y : u64 (u64 x * u64 y) = u64 (x * y).
Proof. unfold u64. by rewrite <- Z.mul_mod by lia. Qed.

Lemma s64_u64 z : in_s64 z = true -> s64 (u64 z) = z.
Proof.
  intros H. rewrite s64_of_u64. apply s64_small. unfold in_s64 in H.
  apply andb_true_iff in H as [?%Z.leb_le ?%Z.leb_le]. lia.
Qed.

Lemma in_s64_iff z : in_s64 z = true <-> - 2 ^ 63 <= z < 2 ^ 63.
Proof. unfold in_s64. rewrite andb_true_iff, !Z.leb_le. word_lia. Qed.

Lemma u64_eqb l r : in_s64 l = true -> in_s64 r = true -> (u64 l =? u64 r) = (l =? r).
Proof.
  intros Hl Hr. apply eq_true_iff_eq. rewrite !Z.eqb_eq. split; [|by intros ->].
  intros H. by rewrite <- (s64_u64 l Hl), <- (s64_u64 r Hr), H.
Qed.

(** Every quotient but one fits. *)
Lemma quot_in_s64 l r :
  in_s64 l = true -> r <> 0 -> in_s64 (Z.quot l r) = negb ((l =? INT64_MIN) && (r =? -1)).
Proof.
  intros Hl%in_s64_iff Hr. apply eq_true_iff_eq.
  rewrite in_s64_iff, negb_true_iff, andb_false_iff, !Z.eqb_neq.
  destruct (Z.eq_dec r (-1)) as [->|Hm1].
  { change (-1) with (- (1)). rewrite Z.quot_opp_r, Z.quot_1_r by lia. word_lia. }
  destruct (Z.eq_dec r 1) as [->|H1].
  { rewrite Z.quot_1_r. intuition lia. }
  split; [by right|]. intros _.
  assert (Z.abs (Z.quot l r) < 2 ^ 63); [|lia].
  rewrite <- Z.quot_abs by done. assert (2 <= Z.abs r) by lia.
  apply Z.quot_lt_upper_bound; word_lia.
Qed.

Section fold.
Context (l r : Z) (Hl : in_s64 l = true) (Hr : in_s64 r = true).

(** Branches on a range test of the goal. *)
Ltac case_in_s64 :=
  match goal with |- context [if in_s64 ?x then _ else _] => destruct (in_s64 x) eqn:? end.

Lemma fold_binary_agrees op z :
  fold_binary op l r = Ok (Some z) -> cvm_binop op (u64 l) (u64 r) = u64 z.
Proof.
  pose proof (s64_u64 l Hl) as Hul. pose proof (s64_u64 r Hr) as Hur.
  unfold fold_binary, sdiv64, srem64, sint64. destruct op; simpl; try done.
  1-3: case_in_s64; simpl; [|done]; intros Hz; injection Hz as <-;
       auto using u64_add_s64, u64_sub_s64, u64_mul_s64.
  all: unfold cvm_safe_div_i64, cvm_safe_mod_i64; rewrite Hul, Hur;
       destruct (Z.eqb_spec r 0) as [|Hr0]; [done|].
  - rewrite quot_in_s64 by done. destruct ((l =? _) && _); simpl; [done|]. intros Hz; by injection Hz as <-.
  - destruct ((l =? _) && _); simpl; [done|]. intros Hz; by injection Hz as <-.
Qed.

Lemma fold_cmp_agrees op :
  op ∈ [MIR_CMP_EQ; MIR_CMP_NE; MIR_CMP_LT; MIR_CMP_LE; MIR_CMP_GT; MIR_CMP_GE] ->
  cvm_binop op (u64 l) (u64 r) = b2z (fold_cmp op l r).
Proof.
  pose proof (s64_u64 l Hl) as Hul. pose proof (s64_u64 r Hr) as Hur.
  intros Hop. rewrite !elem_of_cons, elem_of_nil in Hop.
  destruct Hop as [-> | [-> | [-> | [-> | [-> | [-> | []]]]]]]; simpl;
    by rewrite ?Hul, ?Hur, ?u64_eqb.
Qed.

Lemma fold_refuses op : op ∈ [MIR_DIV; MIR_MOD] -> (fold_binary op l r = Ok None <-> r = 0).
Proof.
  intros Hop. rewrite !elem_of_cons, elem_of_nil in Hop.
  destruct Hop as [-> | [-> | []]]; simpl; unfold sdiv64, srem64, sint64;
    destruct (Z.eqb_spec r 0); try done.
  - case_in_s64; simpl; done.
  - destruct ((l =? _) && _); simpl; done.
Qed.

Lemma fold_undefined op :
  fold_binary op l r = Undef <->
  op = MIR_ADD /\ in_s64 (l + r) = false \/ op = MIR_SUB /\ in_s64 (l - r) = false \/
  op = MIR_MUL /\ in_s64 (l * r) = false \/
  (op = MIR_DIV \/ op = MIR_MOD) /\ l = INT64_MIN /\ r = -1.
Proof.
  unfold fold_binary, sdiv64, srem64, sint64. destruct op; simpl;
    try (split; [done|intuition discriminate]).
  1-3: case_in_s64; simpl; (split; [try done; auto|intuition congruence]).
  1-2: destruct (Z.eqb_spec r 0) as [->|Hr0];
       [split; [done|intuition discriminate]|rewrite ?quot_in_s64 by done];
       destruct ((l =? INT64_MIN) && (r =? -1)) eqn:E; simpl;
       [apply andb_true_iff in E as [->%Z.eqb_eq ->%Z.eqb_eq]; split; auto 8
       |split; [done|]; intros H; exfalso; apply andb_false_iff in E;
        destruct E as [E%Z.eqb_neq|E%Z.eqb_neq]; intuition congruence].
Qed.
End fold.

(** C24: a folded constant is the value the interpreter computes.  The two
    switches by which [mir_pass_constant_fold] computes on a pair of [int64_t]
    constants, [fold_binary] and [fold_cmp], agree with the interpreter's
    handler: a folded operation or comparison gives the same slot; the switch
    has no defined result exactly for the overflows C leaves undefined,
    [INT64_MIN / -1] among them, and refuses exactly the zero divisors. *)
Theorem constant_fold_agrees op l r (Hl : in_s64 l = true) (Hr : in_s64 r = true) :
  (forall z, fold_binary op l r = Ok (Some z) -> cvm_binop op (u64 l) (u64 r) = u64 z) /\
  (op ∈ [MIR_CMP_EQ; MIR_CMP_NE; MIR_CMP_LT; MIR_CMP_LE; MIR_CMP_GT; MIR_CMP_GE] ->
   cvm_binop op (u64 l) (u64 r) = b2z (fold_cmp op l r)) /\
  (op ∈ [MIR_DIV; MIR_MOD] -> (fold_binary op l r = Ok None <-> r = 0)) /\
  (fold_binary op l r = Undef <->
   op = MIR_ADD /\ in_s64 (l + r) = false \/ op = MIR_SUB /\ in_s64 (l - r) = false \/
   op = MIR_MUL /\ in_s64 (l * r) = false \/
   (op = MIR_DIV \/ op = MIR_MOD) /\ l = INT64_MIN /\ r = -1).
Proof.
  split_and!; [intros z; by apply fold_binary_agrees|by apply fold_cmp_agrees
              |by apply fold_refuses|by apply fold_undefined].
Qed.

(** ** Strength reduction *)

Lemma is_power_of_two_spec v : is_power_of_two v = true -> v = 2 ^ Z.log2 v /\ 0 < v.
Proof.
  unfold is_power_of_two. rewrite andb_true_iff, Z.ltb_lt, Z.eqb_eq. intros [Hv Hland].
  split; [|done]. destruct (Z.log2_spec v Hv) as [Hlo Hhi].
  destruct (Z.eq_dec v (2 ^ Z.log2 v)) as [|Hne]; [done|exfalso].
  assert (Hlog : Z.log2 (v - 1) = Z.log2 v).
  { apply Z.log2_unique; [apply Z.log2_nonneg|lia]. }
  assert (Hbit : Z.testbit (Z.land v (v - 1)) (Z.log2 v) = true).
  { rewrite Z.land_spec, Z.bit_log2 by done. simpl. rewrite <- Hlog. apply Z.bit_log2.
    pose proof (Z.pow_pos_nonneg 2 (Z.log2 v) ltac:(lia) (Z.log2_nonneg v)). lia. }
  by rewrite Hland, Z.bits_0 in Hbit.
Qed.

Lemma log2_loop_pow k fuel n :
  (k <= fuel)%nat -> log2_loop fuel (2 ^ Z.of_nat k) n = n + Z.of_nat k.
Proof.
  revert fuel n. induction k as [|k IH]; intros fuel n Hle.
  - destruct fuel; simpl; lia.
  - destruct fuel as [|fuel]; [lia|]. cbn [log2_loop].
    rewrite Nat2Z.inj_succ, Z.pow_succ_r by lia.
    pose proof (Z.pow_pos_nonneg 2 (Z.of_nat k) ltac:(lia) ltac:(lia)).
    rewrite (proj2 (Z.ltb_lt 1 (2 * 2 ^ Z.of_nat k))) by lia.
    rewrite Z.shiftr_div_pow2 by lia. change (2 ^ 1) with 2.
    rewrite Z.mul_comm, Z.div_mul by lia. rewrite IH by lia. lia.
Qed.

Lemma log2_int_spec v :
  is_power_of_two v = true -> in_s64 v = true -> log2_int v = Z.log2 v /\ 0 <= Z.log2 v < 63.
Proof.
  intros [Hv Hpos]%is_power_of_two_spec Hs%in_s64_iff.
  assert (Hlt : 0 <= Z.log2 v < 63).
  { split; [apply Z.log2_nonneg|]. apply Z.log2_lt_pow2; lia. }
  split; [|done]. unfold log2_int. rewrite Hv at 1. rewrite <- (Z2Nat.id (Z.log2 v)) at 1 by lia.
  rewrite log2_loop_pow by lia. lia.
Qed.

Lemma s64_nonneg x : 0 <= x < 2 ^ 64 -> 0 <= s64 x -> s64 x = x.
Proof.
  intros Hx. unfold s64. rewrite u64_small by done. destruct (Z.ltb_spec x (2 ^ 63)); word_lia.
Qed.

Lemma land_mask k x : 0 <= k < 63 -> Z.land x (2 ^ k - 1) = x mod 2 ^ k.
Proof. intros. rewrite Z.sub_1_r, <- Z.ones_equiv. apply Z.land_ones. lia. Qed.

Lemma u64_mod_pow k x : 0 <= k < 63 -> u64 x mod 2 ^ k = x mod 2 ^ k.
Proof.
  intros Hk. unfold u64. replace 64 with (k + (64 - k)) by lia.
  rewrite Z.pow_add_r by lia. rewrite Z.rem_mul_r by (try apply Z.pow_nonzero; try apply Z.pow_pos_nonneg; lia).
  rewrite Z.mul_comm, Z_mod_plus_full. apply Z.mod_mod, Z.pow_nonzero; lia.
Qed.

(** ** Strength reduction of a function *)

(** What the pass looks at in a definition: an integer constant. *)
Definition const_of (i : MirInst) : option (Z * tyref) :=
  match as_ i with CONST_INT imm => Some (imm, type i) | _ => None end.
Definition def_in (l : list MirInst) (r : MirValueId) : option (option (Z * tyref)) :=
  const_of <$> List.find (fun i => (result i =? r)%N) l.

Lemma def_in_app l1 l2 r : def_in (l1 ++ l2) r = match def_in l1 r with Some x => Some x | None => def_in l2 r end.
Proof. unfold def_in. induction l1 as [|i l1 IH]; [done|]. cbn [app List.find]. by destruct (result i =? r)%N. Qed.

Lemma pow2_def_in f r : pow2_def f r =
  match def_in (all_insts f) r with Some (Some (imm, ty)) => if is_power_of_two imm then Some (imm, ty) else None | _ => None end.
Proof.
  unfold pow2_def, def_in, find_def. destruct (List.find _ _) as [d|]; [|done]. cbn. unfold const_of. by destruct (as_ d).
Qed.

Lemma def_in_bind (g h : nat -> list MirInst) r bl : (forall b, def_in (g b) r = def_in (h b) r) ->
  def_in (mbind g bl) r = def_in (mbind h bl) r.
Proof. intros H. induction bl as [|b bl IH]; [done|]. rewrite !bind_cons, !def_in_app. by rewrite H, IH. Qed.

(** [i], met when [v] is the next value id, becomes the instructions [g]. *)
Inductive reduced (f : MirFunction) (v : MirValueId) (i : MirInst) : list MirInst -> MirValueId -> Prop :=
| rd_mul lhs rhs d k : as_ i = BINARY MIR_MUL lhs rhs -> find_def f rhs = Some d -> as_ d = CONST_INT (2 ^ k) -> 0 <= k ->
    reduced f v i [mkInst (CONST_INT k) v (type d) 0 0; set_as i (BINARY MIR_SHL lhs v)] (v + 1)
| rd_mod lhs rhs d k : as_ i = BINARY MIR_MOD lhs rhs -> find_def f rhs = Some d -> as_ d = CONST_INT (2 ^ k) -> 0 <= k ->
    reduced f v i [mkInst (CONST_INT (2 ^ k - 1)) v (type d) 0 0; set_as i (BINARY MIR_BAND lhs v)] (v + 1)
| rd_keep : (forall op lhs rhs d k, as_ i = BINARY op lhs rhs -> op = MIR_MUL \/ op = MIR_MOD ->
      find_def f rhs = Some d -> 0 <= k -> as_ d <> CONST_INT (2 ^ k)) ->
    reduced f v i [i] v.

Inductive reduced_list (f : MirFunction) : MirValueId -> list MirInst -> list MirInst -> MirValueId -> Prop :=
| rl_nil v : reduced_list f v [] [] v
| rl_cons v v1 v2 i g l l' : reduced f v i g v1 -> reduced_list f v1 l l' v2 -> reduced_list f v (i :: l) (g ++ l') v2.

Inductive reduced_blocks (f f' : MirFunction) : MirValueId -> list nat -> MirValueId -> Prop :=
| rb_nil v : reduced_blocks f f' v [] v
| rb_cons v v1 v2 b bl : reduced_list f v (inst_list f b) (inst_list f' b) v1 -> reduced_blocks f f' v1 bl v2 ->
    reduced_blocks f f' v (b :: bl) v2.

(** Values are numbered below [next_value_id], constants are [int64_t]s. *)
Record numbered (f : MirFunction) : Prop := {
  nb_blocks : NoDup (block_list f);
  nb_uses : forall i op lhs rhs, i ∈ all_insts f -> as_ i = BINARY op lhs rhs -> (lhs < next_value_id f /\ rhs < next_value_id f)%N;
  nb_imm : forall i imm, i ∈ all_insts f -> as_ i = CONST_INT imm -> in_s64 imm = true
}.

Lemma power_iff imm : is_power_of_two imm = true <-> exists k, 0 <= k /\ imm = 2 ^ k.
Proof.
  split; [intros [H Hp]%is_power_of_two_spec; exists (Z.log2 imm); split; [apply Z.log2_nonneg|done]|].
  intros (k & Hk & ->). unfold is_power_of_two. pose proof (Z.pow_pos_nonneg 2 k ltac:(lia) Hk).
  rewrite (proj2 (Z.ltb_lt _ _)) by done. rewrite Z.sub_1_r, <- Z.ones_equiv, Z.land_ones by done.
  by rewrite Z.mod_same by lia.
Qed.

(** A block with another list of instructions, its count kept in step. *)
Definition resized (b b' : MirBlock) : Prop :=
  b' = with_insts b (insts b') (inst_count b + Z.of_nat (length (insts b')) - Z.of_nat (length (insts b))).

#[export] Instance resized_refl : Reflexive resized.
Proof. intros []. unfold resized, with_insts. cbn. f_equal. lia. Qed.

#[export] Instance resized_trans : Transitive resized.
Proof. intros a b c H1 H2. unfold resized in *. rewrite H2, H1. unfold with_insts. cbn. f_equal. lia. Qed.

Definition resized_blocks (f f' : MirFunction) : Prop := forall c, option_Forall2 resized (block_at f c) (block_at f' c).

#[export] Instance resized_blocks_refl : Reflexive resized_blocks.
Proof. intros f c. destruct (block_at f c); constructor. reflexivity. Qed.

#[export] Instance resized_blocks_trans : Transitive resized_blocks.
Proof.
  intros f g h H1 H2 c. specialize (H1 c). specialize (H2 c). inversion H1 as [x y Hxy Ex Ey|Ex Ey]; rewrite <- Ey in H2; inversion H2; constructor.
  by transitivity y.
Qed.

Lemma inst_list_upd_block h b g c : inst_list (upd_block h b g) c =
  if decide (c = b) then default [] ((fun blk => insts (g blk)) <$> block_at h b) else inst_list h c.
Proof. unfold inst_list. rewrite block_at_upd. destruct (decide (c = b)); [|done]. by destruct (block_at h b). Qed.

Lemma reduce_with_list h b pre x rest op lhs ty imm : inst_list h b = pre ++ x :: rest ->
  let h' := reduce_with h b (length pre) x op lhs ty imm in
  let v := next_value_id h in
  inst_list h' b = pre ++ [mkInst (CONST_INT imm) v ty 0 0; set_as x (BINARY op lhs v)] ++ rest /\
  (forall c, c <> b -> block_at h' c = block_at h c) /\ block_list h' = block_list h /\ next_value_id h' = (v + 1)%N /\
  resized_blocks h h'.
Proof.
  intros Hl h' v. subst h'. unfold reduce_with, mir_function_new_value. fold v.
  set (h1 := with_values h _ _). unfold set_inst, upd_inst, inst_insert_before.
  assert (Hl1 : inst_list h1 b = pre ++ x :: rest) by done.
  assert (Hb : is_Some (block_at h1 b)).
  { unfold inst_list in Hl1. destruct (block_at h1 b); [by eexists|]. by destruct pre. }
  destruct Hb as [blk Hblk]. unfold inst_list in Hl1. rewrite Hblk in Hl1. cbn in Hl1.
  split_and!; [|intros c Hc; by rewrite !block_at_upd_ne by done|done|done|].
  - rewrite inst_list_upd_block, decide_True by done. rewrite block_at_upd_eq, Hblk. cbn. rewrite Hl1.
    rewrite take_app_length, drop_app_length. rewrite (alter_app_r_alt _ pre _ (S (length pre))) by lia.
    f_equal. replace (S (length pre) - length pre)%nat with 1%nat by lia. done.
  - intros c. change (block_at h c) with (block_at h1 c). destruct (decide (c = b)) as [->|Hc]; [|rewrite !block_at_upd_ne by done].
    2: { by destruct (block_at h1 c); constructor. }
    rewrite !block_at_upd_eq, Hblk. constructor. unfold resized, map_insts, with_insts. cbn. f_equal.
    rewrite length_alter, Hl1, take_app_length, drop_app_length, !length_app. cbn. lia.
Qed.

Section pass.
Context (f : MirFunction) (Hf : numbered f).

(** The function while the pass runs. *)
Record during (h : MirFunction) : Prop := {
  du_list : block_list h = block_list f;
  du_next : (next_value_id f <= next_value_id h)%N;
  du_defs : forall r c, (r < next_value_id f)%N -> def_in (inst_list h c) r = def_in (inst_list f c) r
}.

Lemma during_pow2 h r : during h -> (r < next_value_id f)%N -> pow2_def h r = pow2_def f r.
Proof.
  intros Hd Hr. rewrite !pow2_def_in. unfold all_insts. rewrite (du_list _ Hd).
  rewrite (def_in_bind (inst_list h) (inst_list f)); [done|]. intros b. by apply (du_defs _ Hd).
Qed.

Lemma reduce_during h b pre x rest op0 lhs rhs op ty imm : during h -> inst_list h b = pre ++ x :: rest -> as_ x = BINARY op0 lhs rhs ->
  during (reduce_with h b (length pre) x op lhs ty imm).
Proof.
  intros Hd Hl Hx. destruct (reduce_with_list h b pre x rest op lhs ty imm Hl) as (L1 & L2 & L3 & L4 & _). split.
  - rewrite L3. apply Hd.
  - rewrite L4. pose proof (du_next _ Hd). lia.
  - intros r c Hr. rewrite <- (du_defs _ Hd r c Hr). destruct (decide (c = b)) as [->|Hc]; [|unfold inst_list; by rewrite L2].
    rewrite L1, Hl, !def_in_app. destruct (def_in pre r); [done|]. unfold def_in. cbn [app List.find result set_as].
    destruct (N.eqb_spec (next_value_id h) r) as [<-|_]; [pose proof (du_next _ Hd); lia|].
    destruct (result x =? r)%N; [|done]. cbn. unfold const_of. cbn. by rewrite Hx.
Qed.

Lemma pow2_def_Some r imm ty : pow2_def f r = Some (imm, ty) ->
  exists d k, find_def f r = Some d /\ as_ d = CONST_INT imm /\ imm = 2 ^ k /\ 0 <= k /\ ty = type d /\ log2_int imm = k.
Proof.
  unfold pow2_def. destruct (find_def f r) as [d|] eqn:Ed; [|done]. destruct (as_ d) eqn:Ea; try done.
  destruct (is_power_of_two imm_i64) eqn:Ep; [|done]. intros [= <- <-]. exists d, (Z.log2 imm_i64).
  assert (Hin : d ∈ all_insts f) by (apply find_some in Ed as [Hd _]; by apply list_elem_of_In).
  destruct (log2_int_spec imm_i64 Ep) as [Hk Hr]; [by apply (nb_imm f Hf d)|]. destruct (is_power_of_two_spec imm_i64 Ep).
  split_and!; try done; lia.
Qed.

Lemma pow2_def_None r d k : pow2_def f r = None -> find_def f r = Some d -> 0 <= k -> as_ d <> CONST_INT (2 ^ k).
Proof.
  unfold pow2_def. intros H Hd Hk Ha. rewrite Hd, Ha in H. by rewrite (proj2 (power_iff _)) in H by eauto.
Qed.

(** One turn of the loop at [x], with result [o]. *)
Definition stepped (h : MirFunction) (b : nat) (pre : list MirInst) (x : MirInst) (rest : list MirInst) (o : outcome (MirFunction * nat * Z)) : Prop :=
  exists h' g, o = Ok (h', (length pre + length g - 1)%nat, Z.of_nat (length g) - 1) /\ (0 < length g)%nat /\
    reduced f (next_value_id h) x g (next_value_id h') /\ Z.of_N (next_value_id h') = Z.of_N (next_value_id h) + Z.of_nat (length g) - 1 /\
    inst_list h' b = pre ++ g ++ rest /\ (forall c, c <> b -> block_at h' c = block_at h c) /\ during h' /\ resized_blocks h h'.

Lemma stepped_keep h b pre x rest : during h -> inst_list h b = pre ++ x :: rest ->
  (forall op lhs rhs, as_ x = BINARY op lhs rhs -> op = MIR_MUL \/ op = MIR_MOD -> pow2_def f rhs = None) ->
  stepped h b pre x rest (Ok (h, length pre, 0)).
Proof.
  intros Hd Hl Hno. exists h, [x]. split_and!; try done; [do 2 f_equal; cbn; f_equal; lia|cbn; lia|apply rd_keep|cbn; lia].
  intros op lhs rhs d k Ea Hop Ed Hk. eapply pow2_def_None; [|done|done]. by eapply Hno.
Qed.

Lemma stepped_reduce h b pre x rest op0 op lhs rhs ty imm : during h -> inst_list h b = pre ++ x :: rest -> as_ x = BINARY op0 lhs rhs ->
  reduced f (next_value_id h) x [mkInst (CONST_INT imm) (next_value_id h) ty 0 0; set_as x (BINARY op lhs (next_value_id h))] (next_value_id h + 1) ->
  stepped h b pre x rest (Ok (reduce_with h b (length pre) x op lhs ty imm, S (length pre), 1)).
Proof.
  intros Hd Hl Ea Hr. destruct (reduce_with_list h b pre x rest op lhs ty imm Hl) as (L1 & L2 & L3 & L4 & L5).
  eexists _, _. split; [|split; [|split; [rewrite L4; exact Hr|]]]; [do 2 f_equal; cbn; f_equal; lia|cbn; lia|].
  split_and!; [rewrite L4; cbn; lia|done|done|by eapply reduce_during|done].
Qed.

Lemma strength_step_spec h b pre x rest : during h -> x ∈ all_insts f -> inst_list h b = pre ++ x :: rest ->
  stepped h b pre x rest (strength_step h b (length pre)).
Proof.
  intros Hd Hx Hl. unfold strength_step, inst_at. rewrite Hl, list_lookup_middle by done. cbn [of_option obind].
  destruct (as_ x) eqn:Ea; try (apply stepped_keep; [done..|]; intros; congruence).
  destruct (decide (op = MIR_MUL \/ op = MIR_MOD)) as [Hop|Hop].
  2: { destruct op; try (by destruct Hop; auto); (apply stepped_keep; [done..|]; intros; destruct_or!; congruence). }
  assert (Hlt : (rhs < next_value_id f)%N) by (by eapply (nb_uses f Hf x)).
  pose proof (during_pow2 h rhs Hd Hlt) as Hp2. destruct (pow2_def f rhs) as [[imm ty]|] eqn:Ep.
  2: { destruct Hop as [-> | ->]; rewrite Hp2; (apply stepped_keep; [done..|]; intros; congruence). }
  destruct (pow2_def_Some _ _ _ Ep) as (d & k & Ed & Ead & Ei & Hk & -> & Elog).
  destruct Hop as [-> | ->]; rewrite Hp2; (eapply stepped_reduce; [done..|]).
  - rewrite Elog. eapply rd_mul; [done|done|by rewrite Ead, Ei|done].
  - rewrite Ei. eapply rd_mod; [done|done|by rewrite Ead, Ei|done].
Qed.

(** The loop over the instructions of a block. *)
Lemma strength_insts_spec rest : forall h b pre n, during h -> (forall x, x ∈ rest -> x ∈ all_insts f) -> inst_list h b = pre ++ rest ->
  exists h' l, strength_insts (length rest) b (length pre) (h, n) = Ok (h', n + (Z.of_N (next_value_id h') - Z.of_N (next_value_id h))) /\
    reduced_list f (next_value_id h) rest l (next_value_id h') /\ inst_list h' b = pre ++ l /\
    (forall c, c <> b -> block_at h' c = block_at h c) /\ during h' /\ resized_blocks h h'.
Proof.
  induction rest as [|x rest IH]; intros h b pre n Hd Hin Hl; cbn [length strength_insts fst snd].
  { exists h, []. rewrite Z.sub_diag, Z.add_0_r. split_and!; [done|constructor|done..]. }
  destruct (strength_step_spec h b pre x rest) as (h1 & g & -> & Hg & Hr & Hnx & Hl1 & Hb1 & Hd1 & Hz1); [done|apply Hin; left|done|].
  cbn [obind fst snd]. replace (S (length pre + length g - 1)) with (length (pre ++ g)) by (rewrite length_app; lia).
  destruct (IH h1 b (pre ++ g) (n + (Z.of_nat (length g) - 1)) Hd1) as (h2 & l & -> & Hrl & Hl2 & Hb2 & Hd2 & Hz2);
    [intros y Hy; apply Hin; by right|by rewrite <- app_assoc|].
  exists h2, (g ++ l). split_and!; [f_equal; f_equal; lia|by eapply rl_cons|by rewrite Hl2, app_assoc| |done|by transitivity h1].
  intros c Hc. by rewrite Hb2, Hb1.
Qed.

Lemma reduced_blocks_ext g g' v bl v' : (forall b, b ∈ bl -> inst_list g b = inst_list g' b) -> reduced_blocks f g v bl v' -> reduced_blocks f g' v bl v'.
Proof.
  intros He H. induction H as [v|v v1 v2 b bl Hr _ IH]; econstructor; [rewrite <- He; [done|left]|]. apply IH. intros c Hc. apply He. by right.
Qed.

(** The loop over the blocks. *)
Lemma strength_blocks_spec bl : forall h n, during h -> NoDup bl -> (forall b, b ∈ bl -> b ∈ block_list f /\ inst_list h b = inst_list f b) ->
  exists h', each_block (fun b r => strength_insts (length (inst_list r.1 b)) b 0 r) bl (h, n) =
      Ok (h', n + (Z.of_N (next_value_id h') - Z.of_N (next_value_id h))) /\
    reduced_blocks f h' (next_value_id h) bl (next_value_id h') /\ (forall c, c ∉ bl -> block_at h' c = block_at h c) /\ during h' /\ resized_blocks h h'.
Proof.
  induction bl as [|b bl IH]; intros h n Hd Hnd Hbl; cbn [each_block].
  { exists h. rewrite Z.sub_diag, Z.add_0_r. split_and!; [done|constructor|done..]. }
  apply list.NoDup_cons in Hnd as [Hb Hnd]. destruct (Hbl b ltac:(left)) as [Hbf Hlb]. cbn [fst].
  destruct (strength_insts_spec (inst_list h b) h b [] n Hd) as (h1 & l & E1 & Hrl & Hl1 & Hb1 & Hd1 & Hz1); [|done|].
  { intros x Hx. apply list_elem_of_bind. exists b. by rewrite <- Hlb. }
  change (length []) with 0%nat in E1. rewrite E1. cbn [obind]. destruct (IH h1 (n + (Z.of_N (next_value_id h1) - Z.of_N (next_value_id h))) Hd1 Hnd) as (h2 & -> & Hr2 & Hb2 & Hd2 & Hz2).
  { intros c Hc. destruct (Hbl c ltac:(by right)) as [Hcf Hlc]. split; [done|]. rewrite <- Hlc. unfold inst_list. rewrite Hb1; [done|]. by intros ->. }
  exists h2. split_and!; [f_equal; f_equal; lia| |intros c Hc; rewrite Hb2, Hb1; set_solver|done|by transitivity h1].
  eapply rb_cons; [|done]. rewrite <- Hlb. unfold inst_list at 2. rewrite Hb2 by done. fold (inst_list h1 b). by rewrite Hl1.
Qed.

End pass.

(** ** What the new instructions compute *)

(** Multiplication is exact on every input ... *)
Lemma shl_is_mul x k : 0 <= k -> in_s64 (2 ^ k) = true ->
  cvm_binop MIR_SHL x (u64 k) = cvm_binop MIR_MUL x (u64 (2 ^ k)).
Proof.
  intros Hk0 Hi. assert (Hk : 0 <= k < 63).
  { apply in_s64_iff in Hi as [_ Hi]. split; [done|]. apply (Z.pow_lt_mono_r_iff 2); lia. }
  cbn [cvm_binop]. rewrite (u64_small k), (u64_small (2 ^ k)) by (apply in_s64_iff in Hi; lia).
  change 63 with (Z.ones 6). rewrite Z.land_ones, Z.mod_small by lia. by rewrite Z.shiftl_mul_pow2 by lia.
Qed.

(** ... the mask computes the remainder of a nonnegative dividend, or of one
    the divisor divides. *)
Lemma band_is_mod x k : 0 <= x < 2 ^ 64 -> 0 <= k -> in_s64 (2 ^ k) = true ->
  cvm_binop MIR_BAND x (u64 (2 ^ k - 1)) = cvm_binop MIR_MOD x (u64 (2 ^ k)) <-> 0 <= s64 x \/ Z.rem (s64 x) (2 ^ k) = 0.
Proof.
  intros Hx Hk0 Hi. pose proof (s64_u64 _ Hi) as Hsi. assert (Hk : 0 <= k < 63).
  { apply in_s64_iff in Hi as [_ Hi]. split; [done|]. apply (Z.pow_lt_mono_r_iff 2); lia. }
  apply in_s64_iff in Hi. pose proof (Z.pow_pos_nonneg 2 k ltac:(lia) Hk0) as H2k.
  cbn [cvm_binop]. unfold cvm_safe_mod_i64. rewrite Hsi.
  rewrite (proj2 (Z.eqb_neq (2 ^ k) 0)), (proj2 (Z.eqb_neq (2 ^ k) (-1))), andb_false_r by lia.
  rewrite (u64_small (2 ^ k - 1)), land_mask by lia.
  rewrite <- (u64_small x Hx) at 1. rewrite <- u64_of_s64, u64_mod_pow by done.
  pose proof (s64_range x). generalize dependent (s64 x). intros y Hy.
  destruct (Z_lt_le_dec y 0) as [Hneg|Hnn].
  - pose proof (Z.rem_bound_pos_neg y (2 ^ k) ltac:(lia) ltac:(lia)). pose proof (Z.mod_pos_bound y (2 ^ k) H2k).
    pose proof (Z.quot_rem' y (2 ^ k)) as Hqr. split.
    + intros Heq. right. destruct (Z.eq_dec (Z.rem y (2 ^ k)) 0) as [|Hne]; [done|exfalso].
      assert (Hu : u64 (Z.rem y (2 ^ k)) = Z.rem y (2 ^ k) + 2 ^ 64).
      { unfold u64. rewrite <- (Z_mod_plus_full _ 1), Z.mod_small; lia. }
      rewrite Hu in Heq. lia.
    + intros [?|Hrem]; [lia|]. rewrite Hrem, Z.add_0_r in Hqr. rewrite Hrem, Hqr.
      rewrite Z.mul_comm, Z.mod_mul by lia. done.
  - rewrite Z.rem_mod_nonneg by lia. pose proof (Z.mod_pos_bound y (2 ^ k) H2k).
    rewrite u64_small by lia. split; [by left|done].
Qed.

Section run.
Context (module : MirModule) (calloc : gmap Z Z -> Z -> option Z) (string_addr : string -> Z).

(** Instructions executed one after the other. *)
Fixpoint straight (vm : CvmState) (fr : CvmFrame) (prev : blockptr) (l : list MirInst) : outcome (CvmState * CvmFrame) :=
  match l with
  | [] => Ok (vm, fr)
  | i :: l => let! r := exec_inst module calloc string_addr vm fr prev i in
              match r.2 with NextInst => straight r.1.1 r.1.2 prev l | _ => Undef end
  end.

Lemma straight_binary vm fr prev i op lhs rhs x y : as_ i = BINARY op lhs rhs -> reads_rhs op x = true ->
  reg fr lhs x -> reg fr rhs y -> in_regs fr (result i) ->
  straight vm fr prev [i] = Ok (vm, put fr (result i) (cvm_binop op x y)).
Proof.
  intros Ea Hr Hx Hy Hi. cbn [straight]. unfold exec_inst. rewrite Ea. unfold op_binary. rewrite (reg_get_at _ _ _ _ Hx). cbn [obind fst snd].
  rewrite Hr, (reg_get_at _ _ _ _ Hy). cbn [obind fst snd]. rewrite set_next_at by done. done.
Qed.

Lemma straight_const vm fr prev c v ty l : in_regs fr v ->
  straight vm fr prev (mkInst (CONST_INT c) v ty 0 0 :: l) = straight vm (put fr v (u64 c)) prev l.
Proof. intros Hv. cbn [straight]. unfold exec_inst. cbn [as_ result]. by rewrite set_next_at. Qed.

(** The reduced form of a multiplication gives the same value; that of a
    remainder does so exactly when the dividend is not negative or the
    divisor divides it. *)
Lemma reduced_computes f (Hf : numbered f) i op lhs rhs d imm v g v' vm fr prev x :
  i ∈ all_insts f -> as_ i = BINARY op lhs rhs -> find_def f rhs = Some d -> as_ d = CONST_INT imm ->
  reduced f v i g v' -> v' <> v -> (next_value_id f <= v)%N ->
  reg fr lhs x -> 0 <= x < 2 ^ 64 -> reg fr rhs (u64 imm) -> in_regs fr (result i) -> in_regs fr v ->
  exists c y y', straight vm fr prev [i] = Ok (vm, put fr (result i) y) /\
    straight vm fr prev g = Ok (vm, put (put fr v c) (result i) y') /\
    (op = MIR_MUL -> y' = y) /\ (op = MIR_MOD -> y' = y <-> 0 <= s64 x \/ Z.rem (s64 x) imm = 0).
Proof.
  intros Hi Ea Ed Ead Hr Hne Hv Hx Hxr Hrhs Hres Hvr. destruct (nb_uses f Hf i op lhs rhs Hi Ea) as [Hlt _].
  assert (Hlv : v <> lhs) by lia. assert (Hs : in_s64 imm = true).
  { apply (nb_imm f Hf d); [|done]. apply find_some in Ed as [Hd _]. by apply list_elem_of_In. }
  destruct Hr as [lhs' rhs' d' k Ea' Ed' Ead' Hk|lhs' rhs' d' k Ea' Ed' Ead' Hk|]; [| |done].
  - rewrite Ea in Ea'. injection Ea' as -> -> ->. rewrite Ed in Ed'. injection Ed' as <-. rewrite Ead in Ead'. injection Ead' as ->.
    exists (u64 k), (cvm_binop MIR_MUL x (u64 (2 ^ k))), (cvm_binop MIR_SHL x (u64 k)).
    split; [by eapply straight_binary|]. split; [|split; [intros _; by apply shl_is_mul|done]].
    rewrite straight_const by done. apply (straight_binary _ _ _ (set_as i (BINARY MIR_SHL lhs' v)) _ lhs' v); [done|done|by apply reg_put_ne|by apply reg_put_eq|by apply in_regs_put].
  - rewrite Ea in Ea'. injection Ea' as -> -> ->. rewrite Ed in Ed'. injection Ed' as <-. rewrite Ead in Ead'. injection Ead' as ->.
    exists (u64 (2 ^ k - 1)), (cvm_binop MIR_MOD x (u64 (2 ^ k))), (cvm_binop MIR_BAND x (u64 (2 ^ k - 1))).
    split; [by eapply straight_binary|]. split; [|split; [done|intros _; by apply band_is_mod]].
    rewrite straight_const by done. apply (straight_binary _ _ _ (set_as i (BINARY MIR_BAND lhs' v)) _ lhs' v); [done|done|by apply reg_put_ne|by apply reg_put_eq|by apply in_regs_put].
Qed.

End run.

(** C25: strength reduction rewrites exactly the products and remainders by a
    constant power of two, and is exact on the products only.  On a function
    whose values are numbered below [next_value_id] and whose constants are
    [int64_t]s the pass returns a function of the same blocks.  In each block,
    every [a * c] and [a % c] with [c] defined as a constant 2^k became a fresh
    constant (k, respectively 2^k - 1) followed by [a << v], respectively
    [a & v], with the result of the old instruction; every other instruction is
    unchanged; the fresh constants are numbered upwards from
    [next_value_id], and the number of changes returned is their number.  Run on
    the interpreter, in a frame that has the registers, the two instructions
    change no more than the old one and the fresh register, and they compute the
    old value always for a product, and for a remainder exactly when the dividend
    is not negative or the divisor divides it, because [%] truncates toward
    zero. *)
Theorem strength_reduce_exact f (Hf : numbered f) :
  (exists f', mir_pass_strength_reduce f = Ok (f', Z.of_N (next_value_id f') - Z.of_N (next_value_id f)) /\
    reduced_blocks f f' (next_value_id f) (block_list f) (next_value_id f') /\ block_list f' = block_list f /\ resized_blocks f f') /\
  forall module calloc string_addr i op lhs rhs d imm v g v' vm fr prev x,
    i ∈ all_insts f -> as_ i = BINARY op lhs rhs -> find_def f rhs = Some d -> as_ d = CONST_INT imm ->
    reduced f v i g v' -> v' <> v -> (next_value_id f <= v)%N ->
    reg fr lhs x -> 0 <= x < 2 ^ 64 -> reg fr rhs (u64 imm) -> in_regs fr (result i) -> in_regs fr v ->
    exists c y y', straight module calloc string_addr vm fr prev [i] = Ok (vm, put fr (result i) y) /\
      straight module calloc string_addr vm fr prev g = Ok (vm, put (put fr v c) (result i) y') /\
      (op = MIR_MUL -> y' = y) /\ (op = MIR_MOD -> y' = y <-> 0 <= s64 x \/ Z.rem (s64 x) imm = 0).
Proof.
  split.
  - destruct (strength_blocks_spec f Hf (block_list f) f 0) as (f' & Hp & Hr & _ & Hd & Hz); [by split|apply Hf|done|].
    exists f'. split_and!; [exact Hp|done|apply Hd|done].
  - intros. by eapply reduced_computes.
Qed.

(** ** Witnesses *)

Definition opt_block (i : Z) (l : list MirInst) (ps ss : list nat) : MirBlock :=
  mkBlock i "bb" l (Z.of_nat (length l)) ps ss None [] [] 0 false.
Definition opt_inst (r : N) (k : MirInstKind) : MirInst := mkInst k r (if (r =? 0)%N then 0%N else 1%N) 0 0.

(** [fn f(p) { x = p + 0; switch (x) { case 1: return 10; default: return 20; } }] *)
Definition ex_switch : MirFunction :=
  mkFunction "f" 1 [mkParam "p" 1 1] (Some 0%nat)
    [opt_block 0 [opt_inst 2 (CONST_INT 0); opt_inst 3 (BINARY MIR_ADD 1 2);
                  opt_inst 0 (SWITCH 3 [(1, Some 1%nat)] (Some 2%nat))] [] [1; 2]%nat;
     opt_block 1 [opt_inst 4 (CONST_INT 10); opt_inst 0 (RET 4)] [0%nat] [];
     opt_block 2 [opt_inst 5 (CONST_INT 20); opt_inst 0 (RET 5)] [0%nat] []]
    [0; 1; 2]%nat 3 6 [0; 1; 1; 1; 1; 1]%N false false false.

(** [fn f(x) { return x % 8; }] *)
Definition ex_mod8 : MirFunction :=
  mkFunction "f" 1 [mkParam "x" 1 1] (Some 0%nat)
    [opt_block 0 [opt_inst 2 (CONST_INT 8); opt_inst 3 (BINARY MIR_MOD 1 2); opt_inst 0 (RET 3)] [] []]
    [0%nat] 1 4 [0; 1; 1; 1]%N false false false.

Definition single (f : MirFunction) : MirModule := mkModule "m" [f] 1 [] [TyPrim MIR_TYPE_I64] [].

(** The value of a run of [f] before and after the optimiser. *)
Definition run_value (f : MirFunction) (args : list Z) : option Z :=
  match cvm_run (single f) (fun _ _ => None) (fun _ => 0) 100 (cvm_state_create ∅) "f" args with
  | Ok (_, v) => Some v
  | _ => None
  end.
Definition optimized (level : MirOptLevel) (f : MirFunction) : option MirFunction :=
  match mir_optimize_function f level no_stats with
  | Ok (f', _) => Some f'
  | _ => None
  end.

Lemma replace_all_uses_exact_witness :
  all_insts (replace_all_uses ex_switch 3 1) =
    map (replace_value_in_inst 3 1) (all_insts ex_switch) /\
  forall i, i ∈ all_insts ex_switch ->
    value_used_in_inst (replace_value_in_inst 3 1 i) 3 =
    value_used_in_inst i 3 && negb (rewritable (as_ i)).
Proof.
  apply replace_all_uses_exact; [done|]. by apply (bool_decide_unpack _).
Defined.

Lemma cfg_remove_pred_keeps_phis_witness :
  let b := opt_block 3 [opt_inst 4 (PHI [(Some 1%nat, 2%N); (Some 5%nat, 3%N); (Some 2%nat, 2%N)])]
             [2; 1; 5]%nat [] in
  predecessors (cfg_remove_pred 1 b) = [2; 5]%nat /\
  phis_match (predecessors (cfg_remove_pred 1 b)) (insts (cfg_remove_pred 1 b)) /\
  NoDup (predecessors (cfg_remove_pred 1 b)) /\
  forall p, p ∈ predecessors (cfg_remove_pred 1 b) <-> p ∈ predecessors b /\ p <> 1%nat.
Proof.
  intros b. split; [reflexivity|]. apply (cfg_remove_pred_keeps_phis 1 b).
  - simpl. split; [|done]. by apply (bool_decide_unpack _).
  - by apply (bool_decide_unpack _).
Defined.

Lemma constant_fold_agrees_witness :
  in_s64 (-7) = true /\ in_s64 2 = true /\ fold_binary MIR_DIV (-7) 2 = Ok (Some (-3)) /\
  (forall z, fold_binary MIR_DIV (-7) 2 = Ok (Some z) ->
     cvm_binop MIR_DIV (u64 (-7)) (u64 2) = u64 z) /\
  (MIR_DIV ∈ [MIR_CMP_EQ; MIR_CMP_NE; MIR_CMP_LT; MIR_CMP_LE; MIR_CMP_GT; MIR_CMP_GE] ->
   cvm_binop MIR_DIV (u64 (-7)) (u64 2) = b2z (fold_cmp MIR_DIV (-7) 2)) /\
  (MIR_DIV ∈ [MIR_DIV; MIR_MOD] -> (fold_binary MIR_DIV (-7) 2 = Ok None <-> 2 = 0)) /\
  (fold_binary MIR_DIV (-7) 2 = Undef <->
   MIR_DIV = MIR_ADD /\ in_s64 (-7 + 2) = false \/ MIR_DIV = MIR_SUB /\ in_s64 (-7 - 2) = false \/
   MIR_DIV = MIR_MUL /\ in_s64 (-7 * 2) = false \/
   (MIR_DIV = MIR_DIV \/ MIR_DIV = MIR_MOD) /\ -7 = INT64_MIN /\ 2 = -1).
Proof. split; [done|]. split; [done|]. split; [done|]. by apply constant_fold_agrees. Defined.

Lemma ex_mod8_numbered : numbered ex_mod8.
Proof.
  split.
  - by apply (bool_decide_unpack _).
  - intros i op lhs rhs Hi. apply list_elem_of_In in Hi. repeat destruct Hi as [<-|Hi]; try done. by intros [= <- <- <-].
  - intros i imm Hi. apply list_elem_of_In in Hi. repeat destruct Hi as [<-|Hi]; try done. by intros [= <-].
Qed.

Lemma strength_reduce_exact_witness :
  exists f', mir_pass_strength_reduce ex_mod8 = Ok (f', 1) /\
    map as_ (inst_list f' 0) = [CONST_INT 8; CONST_INT 7; BINARY MIR_BAND 1 4; RET 3] /\
    reduced_blocks ex_mod8 f' 4 [0%nat] 5.
Proof.
  destruct (proj1 (strength_reduce_exact ex_mod8 ex_mod8_numbered)) as (f' & Hp & Hr & _). exists f'.
  vm_compute in Hp. injection Hp as <-. by split_and!.
Defined.

(** ** Where the passes change the program *)

(** Constant folding breaks a switch.  On this verified function the
    identity [x + 0 -> x] turns the addition into a nop but leaves its result
    as the discriminant of the switch, which [replace_value_in_inst] skips; the
    optimised function, which still verifies, takes the other branch. *)
Theorem fold_identity_breaks_switch :
  mir_verify_function [TyPrim MIR_TYPE_I64] ex_switch = Ok 0 /\ run_value ex_switch [1] = Some 10 /\
  exists f', optimized MIR_OPT_BASIC ex_switch = Some f' /\
    mir_verify_function [TyPrim MIR_TYPE_I64] f' = Ok 0 /\ run_value f' [1] = Some 20.
Proof.
  split; [vm_compute; reflexivity|]. split; [vm_compute; reflexivity|].
  eexists. split; [vm_compute; reflexivity|]. split; vm_compute; reflexivity.
Qed.

(** The remainder of a negative dividend changes at [-O2]: [-3 % 8] is
    [-3] before the optimiser and 5 after it. *)
Theorem strength_reduce_breaks_mod :
  run_value ex_mod8 [-3] = Some (-3) /\
  exists f', optimized MIR_OPT_STANDARD ex_mod8 = Some f' /\ run_value f' [-3] = Some 5.
Proof.
  split; [vm_compute; reflexivity|]. eexists. split; [vm_compute; reflexivity|].
  vm_compute; reflexivity.
Qed.
