(* ===== verification/MirUnreachable.v ===== *)
(** * Removal of unreachable blocks

    [mir_remove_unreachable_blocks] keeps exactly the blocks the entry reaches
    through successor lists, renumbers them, and leaves no removed block in a
    predecessor list. *)
From S2P Require Import Prelude MirCore MirGraph MirOpt Float64 Cvm MirOptFacts.

Lemma max_block_id_pos f (Hids : ids_ok f) bl : forall pre m,
  block_list f = pre ++ bl -> 0 <= m <= Z.of_nat (length pre) ->
  max_block_id f bl m =
  Ok (match bl with [] => m | _ => Z.of_nat (length (block_list f)) - 1 end).
Proof.
  induction bl as [|b bl IH]; intros pre m Hpre Hm; simpl; [done|].
  destruct (Hids (length pre) b) as (blk & Hblk & Hid).
  { rewrite Hpre. by apply list_lookup_middle. }
  rewrite Hblk. cbn [of_option obind]. rewrite Hid.
  rewrite (IH (pre ++ [b])); [|by rewrite <- app_assoc|rewrite length_app; simpl].
  - f_equal. destruct bl; [|done]. rewrite Hpre, length_app. simpl.
    destruct (Z.ltb_spec m (Z.of_nat (length pre))); lia.
  - destruct (Z.ltb_spec m (Z.of_nat (length pre))); lia.
Qed.

(** ** What one removed block does to the others *)

(** [blk] with the predecessors in [gone] removed. *)
Record pruned (gone : nat -> Prop) (blk blk' : MirBlock) : Prop := {
  pr_id : id blk' = id blk;
  pr_succs : successors blk' = successors blk;
  pr_nodup : NoDup (predecessors blk) -> NoDup (predecessors blk');
  pr_preds : NoDup (predecessors blk) ->
    forall p, p ∈ predecessors blk' <-> p ∈ predecessors blk /\ ~ gone p
}.

Lemma pruned_refl (gone : nat -> Prop) blk : (forall p, p ∈ predecessors blk -> ~ gone p) -> pruned gone blk blk.
Proof. intros H. split; auto. intros _ p. split; [auto|tauto]. Qed.

Lemma pruned_trans (g1 g2 g : nat -> Prop) b1 b2 b3 :
  (forall p, g p <-> g1 p \/ g2 p) -> pruned g1 b1 b2 -> pruned g2 b2 b3 -> pruned g b1 b3.
Proof.
  intros Hg [Hi1 Hs1 Hn1 Hp1] [Hi2 Hs2 Hn2 Hp2]. split; [congruence..|auto|].
  intros Hnd p. rewrite Hp2, Hp1, Hg by auto. tauto.
Qed.

Lemma pruned_iff (g g' : nat -> Prop) b1 b2 : (forall p, g p <-> g' p) -> pruned g b1 b2 -> pruned g' b1 b2.
Proof.
  intros Hg [Hi Hs Hn Hp]. split; auto. intros Hnd p. rewrite Hp by done. by rewrite Hg.
Qed.

Lemma pruned_remove dead blk : pruned (eq dead) blk (cfg_remove_pred dead blk).
Proof.
  split; simpl; [done|done|apply NoDup_remove_block|].
  intros Hnd p. rewrite elem_of_remove_block by done. intuition congruence.
Qed.

(** The fold over the successors of the removed block [curr]. *)
Lemma fold_remove curr succs : forall f b blk,
  block_at f b = Some blk ->
  exists blk', block_at (fold_left (fun f s => upd_block f s (cfg_remove_pred curr)) succs f) b
    = Some blk' /\ pruned (fun p => p = curr /\ b ∈ succs) blk blk'.
Proof.
  induction succs as [|s succs IH]; intros f b blk Hb; simpl.
  - exists blk. split; [done|]. apply pruned_refl. intros p _ [_ H]. by apply not_elem_of_nil in H.
  - destruct (decide (b = s)) as [->|Hne].
    + destruct (IH (upd_block f s (cfg_remove_pred curr)) s (cfg_remove_pred curr blk)) as (blk' & Hb' & Hp).
      { by rewrite block_at_upd_eq, Hb. }
      exists blk'. split; [done|]. eapply pruned_trans; [|apply pruned_remove|exact Hp].
      intros p. simpl. rewrite elem_of_cons. intuition congruence.
    + destruct (IH (upd_block f s (cfg_remove_pred curr)) b blk) as (blk' & Hb' & Hp).
      { by rewrite block_at_upd_ne. }
      exists blk'. split; [done|]. eapply pruned_iff, Hp. intros p. rewrite elem_of_cons. tauto.
Qed.

Lemma fold_remove_fields curr succs : forall f,
  let f' := fold_left (fun f s => upd_block f s (cfg_remove_pred curr)) succs f in
  block_list f' = block_list f /\ entry_block f' = entry_block f.
Proof.
  induction succs as [|s succs IH]; intros f; simpl; [done|].
  exact (IH (upd_block f s (cfg_remove_pred curr))).
Qed.

(** ** The unlinking loop *)

Section unlink.
Context (f : MirFunction) (seen : list bool) (e : nat).
Hypothesis Hids : ids_ok f.
Hypothesis Hentry : entry_block f = Some e.
Hypothesis Hseen : length seen = length (block_list f).
Hypothesis Hseen_e : marked f seen e.

(** The blocks the loop drops. *)
Definition dropped (b : nat) : Prop := b ∈ block_list f /\ ~ marked f seen b.

Lemma dropped_flag i b :
  block_list f !! i = Some b ->
  exists s, seen !! i = Some s /\ (marked f seen b <-> s = true) /\
    negb (bool_decide (Some b = entry_block f)) && negb s = negb s.
Proof.
  intros Hi. destruct (seen !! i) as [s|] eqn:Hs.
  2: { apply lookup_ge_None in Hs. apply lookup_lt_Some in Hi. lia. }
  exists s. assert (Hm : marked f seen b <-> s = true).
  { split; [|intros ->; by exists i]. intros (j & Hj & Hsj).
    assert (j = i) as -> by (by eapply pos_unique). congruence. }
  split_and!; [done|done|]. destruct (bool_decide_reflect (Some b = entry_block f)) as [Heq|]; [|done].
  rewrite Hentry in Heq. injection Heq as ->. apply Hm in Hseen_e as ->. done.
Qed.

(** The state of the loop: same ids and successors, [done] already handled. *)
Definition unlinked (handled : list nat) (f1 : MirFunction) : Prop :=
  entry_block f1 = entry_block f /\
  forall b blk, block_at f b = Some blk ->
    exists blk1, block_at f1 b = Some blk1 /\
      pruned (fun p => p ∈ handled /\ dropped p /\
                       exists pb, block_at f p = Some pb /\ b ∈ successors pb) blk blk1.

Lemma unlink_spec bl : forall pre f1,
  block_list f = pre ++ bl -> unlinked pre f1 ->
  exists f2 kept, unlink f1 seen bl = Ok (f2, kept) /\
    kept `sublist_of` bl /\ (forall b, b ∈ kept <-> b ∈ bl /\ marked f seen b) /\
    unlinked (block_list f) f2.
Proof.
  induction bl as [|c bl IH]; intros pre f1 Hpre Hun.
  { exists f1, []. rewrite Hpre, app_nil_r. split_and!; [done|constructor| |done].
    intros b. rewrite elem_of_nil. tauto. }
  assert (Hc : block_list f !! length pre = Some c) by (rewrite Hpre; by apply list_lookup_middle).
  destruct (Hids _ _ Hc) as (blk & Hblk & Hid).
  destruct Hun as [Hfe Hblocks]. destruct (Hblocks c blk Hblk) as (blk1 & Hblk1 & Hpr).
  destruct (dropped_flag _ _ Hc) as (s & Hs & Hms & Hflag).
  cbn [unlink]. rewrite Hblk1. cbn [of_option obind]. rewrite (pr_id _ _ _ Hpr), Hid, Nat2Z.id, Hs.
  cbn [of_option obind]. rewrite Hfe, Hflag.
  assert (Hcin : c ∈ block_list f) by (by eapply list_elem_of_lookup_2).
  assert (Hpre' : block_list f = (pre ++ [c]) ++ bl) by (by rewrite <- app_assoc).
  destruct s; cbn [negb].
  - assert (Hcm : marked f seen c) by (by apply Hms).
    destruct (IH (pre ++ [c]) f1 Hpre') as (f2 & kept & -> & Hsub & Hk & Hun2).
    { split; [done|]. intros b blk0 Hb. destruct (Hblocks b blk0 Hb) as (b1 & Hb1 & Hp1).
      exists b1. split; [done|]. eapply pruned_iff, Hp1. intros p.
      rewrite elem_of_app, list_elem_of_singleton. unfold dropped. split; [tauto|].
      intros [[? | ->] ?]; [tauto|]. tauto. }
    exists f2, (c :: kept). split_and!; [done|by constructor| |done].
    intros b. rewrite !elem_of_cons, Hk. split; [intros [-> | ?]; tauto|tauto].
  - assert (Hcm : ~ marked f seen c) by (rewrite Hms; done).
    destruct (IH (pre ++ [c]) (fold_left (fun f s => upd_block f s (cfg_remove_pred c))
                (successors blk1) f1) Hpre') as (f2 & kept & -> & Hsub & Hk & Hun2).
    { destruct (fold_remove_fields c (successors blk1) f1) as [_ Hfe2].
      split; [by rewrite Hfe2|]. intros b blk0 Hb. destruct (Hblocks b blk0 Hb) as (b1 & Hb1 & Hp1).
      destruct (fold_remove c (successors blk1) f1 b b1 Hb1) as (b2 & Hb2 & Hp2).
      exists b2. split; [done|]. eapply pruned_trans; [|exact Hp1|exact Hp2].
      intros p. rewrite elem_of_app, list_elem_of_singleton, (pr_succs _ _ _ Hpr).
      unfold dropped. split.
      - intros [[? | ->] (Hd & pb & Hpb & Hin)]; [left; eauto|right]. split; [done|]. congruence.
      - intros [(? & ? & ?)|[-> ?]]; [tauto|]. split_and!; eauto. }
    exists f2, kept. split_and!; [done|by constructor| |done].
    intros b. rewrite Hk, elem_of_cons. split; [tauto|]. intros [[-> | ?] ?]; tauto.
Qed.

End unlink.

(** ** Renumbering *)

Lemma renumber_fields bl : forall f n,
  block_list (renumber f bl n) = block_list f /\ entry_block (renumber f bl n) = entry_block f.
Proof.
  induction bl as [|b bl IH]; intros f n; simpl; [done|].
  exact (IH (upd_block f b (fun blk => with_id blk n)) (n + 1)).
Qed.

Lemma renumber_other bl : forall f n b,
  b ∉ bl -> block_at (renumber f bl n) b = block_at f b.
Proof.
  induction bl as [|c bl IH]; intros f n b Hb; simpl; [done|].
  apply not_elem_of_cons in Hb as [Hne Hb]. rewrite IH by done. by apply block_at_upd_ne.
Qed.

Lemma renumber_at bl : forall f n i b blk,
  NoDup bl -> bl !! i = Some b -> block_at f b = Some blk ->
  block_at (renumber f bl n) b = Some (with_id blk (n + Z.of_nat i)).
Proof.
  induction bl as [|c bl IH]; intros f n i b blk Hnd Hi Hb; simpl; [done|].
  apply list.NoDup_cons in Hnd as [Hc Hnd]. destruct i as [|i]; simpl in Hi.
  - injection Hi as ->. rewrite renumber_other by done. rewrite block_at_upd_eq, Hb. simpl.
    do 2 f_equal. lia.
  - assert (b <> c) by (intros ->; destruct Hc; by eapply list_elem_of_lookup_2).
    rewrite (IH _ _ i b blk); [|done|done|by rewrite block_at_upd_ne]. do 2 f_equal. lia.
Qed.

(** ** The pass *)

(** Predecessor lists: no duplicates, every entry is a block that names this
    block as a successor. *)
Definition preds_ok (f : MirFunction) : Prop :=
  forall b blk, b ∈ block_list f -> block_at f b = Some blk ->
    NoDup (predecessors blk) /\
    forall p, p ∈ predecessors blk ->
      p ∈ block_list f /\ exists pb, block_at f p = Some pb /\ b ∈ successors pb.

Section pass.
Context (f : MirFunction) (e : nat).
Hypothesis Hext : is_extern f = false.
Hypothesis Hids : ids_ok f.
Hypothesis Hclosed : succs_closed successors f.
Hypothesis Hpreds : preds_ok f.
Hypothesis Hcount : block_count f = Z.of_nat (length (block_list f)).
Hypothesis Hentry : entry_block f = Some e.
Hypothesis Hfirst : head (block_list f) = Some e.

(** What a kept block looks like afterwards. *)
Definition block_kept (f' : MirFunction) (b : nat) : Prop :=
  exists blk blk', block_at f b = Some blk /\ block_at f' b = Some blk' /\
    successors blk' = successors blk /\
    forall p, p ∈ predecessors blk' <-> p ∈ predecessors blk /\ p ∈ block_list f'.

Definition unreachable_removed (f' : MirFunction) : Prop :=
  (forall b, b ∈ block_list f' <-> b ∈ block_list f /\ reachable successors f e b) /\
  block_list f' `sublist_of` block_list f /\ ids_ok f' /\
  block_count f' = Z.of_nat (length (block_list f')) /\ entry_block f' = Some e /\
  forall b, b ∈ block_list f' -> block_kept f' b.

Lemma remove_single : (length (block_list f) <= 1)%nat -> unreachable_removed f.
Proof.
  intros Hlen. assert (Hl : block_list f = [e]).
  { destruct (block_list f) as [|x [|y l]]; simplify_eq/=; [done|lia]. }
  unfold unreachable_removed. rewrite Hcount, Hl. split_and!; try done.
  - intros b. rewrite list_elem_of_singleton. split; [intros ->|tauto]. split; [done|constructor].
  - intros b Hb. rewrite <- Hl in Hb. apply list_elem_of_lookup in Hb as [i Hi].
    destruct (Hids i b Hi) as (blk & Hblk & _). exists blk, blk. split_and!; [done..|].
    intros p. split; [|tauto]. intros Hp. split; [done|].
    eapply Hpreds; [by eapply list_elem_of_lookup_2|done|done].
Qed.

Lemma remove_finish seen f2 kept :
  (forall b, marked f seen b <-> reachable successors f e b) ->
  kept `sublist_of` block_list f -> (forall b, b ∈ kept <-> b ∈ block_list f /\ marked f seen b) ->
  unlinked f seen (block_list f) f2 ->
  let f3 := renumber f2 kept 0 in
  unreachable_removed (with_cfg f3 (entry_block f3) (blocks f3) kept (Z.of_nat (length kept))).
Proof.
  intros Hm Hsub Hk [Hfe Hblocks] f3.
  assert (Hnd : NoDup kept) by (eapply sublist_NoDup; [exact (ids_nodup f Hids)|exact Hsub]).
  assert (Hat : forall i b, kept !! i = Some b -> exists blk blk2,
    block_at f b = Some blk /\ block_at f3 b = Some (with_id blk2 (Z.of_nat i)) /\
    pruned (fun p => p ∈ block_list f /\ dropped f seen p /\
                     exists pb, block_at f p = Some pb /\ b ∈ successors pb) blk blk2).
  { intros i b Hi. assert (Hb : b ∈ block_list f) by (eapply Hk, list_elem_of_lookup_2, Hi).
    apply list_elem_of_lookup in Hb as [j Hj]. destruct (Hids j b Hj) as (blk & Hblk & _).
    destruct (Hblocks b blk Hblk) as (blk2 & Hblk2 & Hp). exists blk, blk2.
    split_and!; [done| |done]. subst f3. by rewrite (renumber_at _ _ _ i b blk2). }
  unfold unreachable_removed. simpl. split_and!.
  - intros b. by rewrite Hk, Hm.
  - done.
  - intros i b Hi. destruct (Hat i b Hi) as (blk & blk2 & _ & H3 & _). by eexists.
  - done.
  - subst f3. destruct (renumber_fields kept f2 0) as [_ ->]. congruence.
  - intros b Hb. assert (Hin : b ∈ block_list f) by (by apply Hk).
    apply list_elem_of_lookup in Hb as [i Hi].
    destruct (Hat i b Hi) as (blk & blk2 & Hblk & H3 & Hp). exists blk, (with_id blk2 (Z.of_nat i)).
    destruct (Hpreds b blk Hin Hblk) as [Hndp Hpb].
    split_and!; [done|done|apply (pr_succs _ _ _ Hp)|]. intros p. simpl.
    rewrite (pr_preds _ _ _ Hp Hndp p), Hk. split; intros [Hp1 Hp2]; (split; [done|]).
    + destruct (Hpb p Hp1) as [Hpin (pb & Hpb1 & Hpb2)]. split; [done|].
      destruct (decide (p ∈ kept)) as [[_ ?]%Hk|Hno]; [done|]. destruct Hp2.
      assert (~ marked f seen p) by (intros ?; apply Hno, Hk; done). unfold dropped. eauto 10.
    + intros (_ & [_ Hd] & _). by destruct Hp2.
Qed.

(** C19: exactly the unreachable blocks are removed.  On a function with the
    structural invariant the pass completes; the blocks left are, in their old
    order, those the entry reaches through successor lists; they are numbered
    0, 1, ... in list order, the count is right and the entry is kept; each
    keeps its successors, and its predecessors are exactly the old ones that
    are still there. *)
Theorem remove_unreachable_exact :
  exists f', mir_remove_unreachable_blocks f = Ok f' /\ unreachable_removed f'.
Proof.
  unfold mir_remove_unreachable_blocks. rewrite Hext, Hentry.
  destruct (Nat.leb_spec (length (block_list f)) 1) as [Hlen|Hlen].
  { exists f. split; [done|]. by apply remove_single. }
  rewrite (max_block_id_pos f Hids _ [] 0) by (done || simpl; lia). cbn [obind].
  assert (He : block_list f !! 0%nat = Some e) by (by destruct (block_list f)).
  destruct (Hids 0%nat e He) as (eb & Heb & Hid).
  replace (match block_list f with [] => 0 | _ => Z.of_nat (length (block_list f)) - 1 end)
    with (Z.of_nat (length (block_list f)) - 1) by (by destruct (block_list f)).
  replace (Z.of_nat (length (block_list f)) - 1 + 1) with (Z.of_nat (length (block_list f))) by lia.
  rewrite Nat2Z.id, Heb. cbn [of_option obind]. rewrite Hid. change (Z.to_nat (Z.of_nat 0)) with 0%nat.
  destruct (Nat.leb_spec (length (block_list f)) 0) as [|_]; [lia|].
  destruct (bfs_run successors f Hids Hclosed e (length (block_list f)) He) as (seen & Hrun & Hsl & Hm);
    [done|]. unfold seen_entry in Hrun. rewrite Hrun. cbn [obind].
  assert (Hme : marked f seen e) by (apply Hm; constructor).
  destruct (unlink_spec f seen e Hids Hentry Hsl Hme (block_list f) [] f eq_refl)
    as (f2 & kept & -> & Hsub & Hk & Hun).
  { split; [done|]. intros b blk Hb. exists blk. split; [done|]. apply pruned_refl.
    intros p _ (Hp & _). by apply not_elem_of_nil in Hp. }
  cbn [obind fst snd]. eexists. split; [reflexivity|]. by apply (remove_finish seen).
Qed.

End pass.

(** ** Witness: a diamond with one arm cut off *)

Definition cut_block (i : Z) (l : list MirInst) (ps ss : list nat) : MirBlock :=
  mkBlock i "bb" l (Z.of_nat (length l)) ps ss None [] [] 0 false.

Definition ex_cut : MirFunction :=
  mkFunction "cut" 1 [] (Some 0%nat)
    [cut_block 0 [mkInst (CONST_INT 7) 1 1 0 0; mkInst (BR (Some 1%nat)) 0 0 0 0] [] [1%nat];
     cut_block 1 [mkInst (BR (Some 3%nat)) 0 0 0 0] [0%nat] [3%nat];
     cut_block 2 [mkInst (BR (Some 3%nat)) 0 0 0 0] [] [3%nat];
     cut_block 3 [mkInst (PHI [(Some 1%nat, 1%N); (Some 2%nat, 1%N)]) 2 1 0 0;
                  mkInst (RET 2) 0 0 0 0] [1; 2]%nat []]
    [0; 1; 2; 3]%nat 4 3 [0; 1; 1]%N false false false.

Lemma ex_cut_ids : ids_ok ex_cut.
Proof. intros i b Hi. do 4 (destruct i as [|i]; [injection Hi as <-; by eexists|]). done. Qed.

Lemma remove_unreachable_exact_witness :
  exists f', mir_remove_unreachable_blocks ex_cut = Ok f' /\ block_list f' = [0; 1; 3]%nat /\
    unreachable_removed ex_cut 0 f'.
Proof.
  destruct (remove_unreachable_exact ex_cut 0) as (f' & Hf' & Hu); try reflexivity.
  - exact ex_cut_ids.
  - intros b blk s Hb Hblk Hs. apply list_elem_of_In in Hb, Hs. apply list_elem_of_In.
    repeat destruct Hb as [<- | Hb]; try done; injection Hblk as <-; simpl in *; tauto.
  - intros b blk Hb Hblk. apply list_elem_of_In in Hb.
    repeat destruct Hb as [<- | Hb]; try done; injection Hblk as <-; simpl;
      (split; [by apply (bool_decide_unpack _)|]); intros p Hp; apply list_elem_of_In in Hp;
      repeat destruct Hp as [<- | Hp]; try done;
      (split; [apply list_elem_of_In; simpl; tauto|]); eexists; (split; [reflexivity|]); by left.
  - exists f'. split_and!; [done| |done].
    assert (Hv : match mir_remove_unreachable_blocks ex_cut with Ok f => block_list f | _ => [] end
                 = [0; 1; 3]%nat) by reflexivity.
    by rewrite Hf' in Hv.
Defined.
