(* ===== verification/MirDce.v ===== *)
(** * Dead code elimination preserves behaviour

    The relation [dce_of] between a function and what
    [mir_pass_dead_code_eliminate] makes of it, and a simulation: a run of the
    interpreter that ends without a trap ends in the same way, with the same
    value, memory and output, on the module whose functions went through the
    pass. *)
From S2P Require Import Prelude MirCore MirGraph MirOpt Float64 Cvm CvmFacts MirOptFacts.

(** ** What the pass removes *)

Definition used (f : MirFunction) (v : MirValueId) : Prop :=
  exists i, i ∈ all_insts f /\ v ∈ inst_uses (as_ i).

(** An instruction the pass may drop, once [f] is what is left. *)
Definition dead (f : MirFunction) (i : MirInst) : Prop :=
  as_ i = NOP \/
  result i <> MIR_VALUE_NONE /\ has_side_effects (as_ i) = false /\ ~ used f (result i).

Inductive sub_insts (f : MirFunction) : list MirInst -> list MirInst -> Prop :=
| sub_nil : sub_insts f [] []
| sub_keep i l l' : sub_insts f l l' -> sub_insts f (i :: l) (i :: l')
| sub_drop i l l' : dead f i -> sub_insts f l l' -> sub_insts f (i :: l) l'.

Record dce_of (f f' : MirFunction) : Prop := {
  do_name : f_name f' = f_name f;
  do_params : params f' = params f;
  do_entry : entry_block f' = entry_block f;
  do_list : block_list f' = block_list f;
  do_next : next_value_id f' = next_value_id f;
  do_blocks : forall b, option_Forall2 (fun x y => sub_insts f' (insts x) (insts y))
                          (block_at f b) (block_at f' b)
}.

Lemma sub_refl f l : sub_insts f l l.
Proof. induction l; by constructor. Qed.

Lemma sub_insts_elem f l l' i : sub_insts f l l' -> i ∈ l' -> i ∈ l.
Proof.
  induction 1 as [|j l l' _ IH|j l l' _ _ IH]; intros Hi; [done| |right; auto].
  apply elem_of_cons in Hi as [-> | Hi]; [left|right; auto].
Qed.

Lemma sub_trans f1 f2 l1 l2 l3 :
  (forall i, dead f1 i -> dead f2 i) -> sub_insts f1 l1 l2 -> sub_insts f2 l2 l3 -> sub_insts f2 l1 l3.
Proof.
  intros Hd H12. revert l3. induction H12 as [|i l l' _ IH|i l l' Hi _ IH]; intros l3 H23; [done| |].
  - inversion H23; subst; [apply sub_keep|apply sub_drop]; auto.
  - apply sub_drop; auto.
Qed.

Lemma all_insts_elem f i :
  i ∈ all_insts f <-> exists b blk, b ∈ block_list f /\ block_at f b = Some blk /\ i ∈ insts blk.
Proof.
  unfold all_insts, inst_list. rewrite list_elem_of_bind. split.
  - intros (b & Hi & Hb). destruct (block_at f b) as [blk|] eqn:Hblk; simpl in Hi.
    + eauto.
    + by apply not_elem_of_nil in Hi.
  - intros (b & blk & Hb & Hblk & Hi). exists b. by rewrite Hblk.
Qed.

Lemma dce_of_insts f f' i : dce_of f f' -> i ∈ all_insts f' -> i ∈ all_insts f.
Proof.
  intros Hd. rewrite !all_insts_elem. intros (b & blk' & Hb & Hblk & Hi).
  rewrite (do_list _ _ Hd) in Hb. pose proof (do_blocks _ _ Hd b) as Hs. rewrite Hblk in Hs.
  inversion Hs as [x y Hxy Hx Hy|]; subst. exists b, x. split_and!; [done|done|].
  by eapply sub_insts_elem.
Qed.

Lemma dce_of_dead f f' i : dce_of f f' -> dead f i -> dead f' i.
Proof.
  intros Hd [?|(? & ? & Hu)]; [by left|right]. split_and!; [done|done|].
  intros (j & Hj & Hv). apply Hu. exists j. split; [by eapply dce_of_insts|done].
Qed.

#[export] Instance dce_of_refl : Reflexive dce_of.
Proof.
  intros f. split; try done. intros b. destruct (block_at f b); constructor. apply sub_refl.
Qed.

#[export] Instance dce_of_trans : Transitive dce_of.
Proof.
  intros f1 f2 f3 H12 H23. destruct (H12) as [? ? ? ? ? Hb12], (H23) as [? ? ? ? ? Hb23].
  split; try congruence. intros b. specialize (Hb12 b). specialize (Hb23 b).
  destruct Hb12 as [x y Hxy|]; inversion Hb23 as [y' z Hyz Hy|]; subst; constructor.
  eapply sub_trans; [|done|done]. intros i. by apply dce_of_dead.
Qed.

Lemma used_iff f v : count_uses f v = 0 <-> ~ used f v.
Proof.
  unfold count_uses, used, value_used_in_inst. split.
  - intros H (i & Hi & Hv). apply list_elem_of_In in Hi.
    assert (Hin : In i (List.filter (fun i => existsb (fun w => (w =? v)%N) (inst_uses (as_ i))) (all_insts f))).
    { apply filter_In. split; [done|]. apply existsb_exists. exists v.
      split; [by apply list_elem_of_In|apply N.eqb_refl]. }
    destruct (List.filter _ _); [done|]. simpl in H. lia.
  - intros H. destruct (List.filter _ _) as [|i l] eqn:Hf; [done|]. exfalso.
    assert (Hin : In i (i :: l)) by (by left). rewrite <- Hf in Hin.
    apply filter_In in Hin as [Hi (w & Hw & ->%N.eqb_eq)%existsb_exists].
    apply H. exists i. split; by apply list_elem_of_In.
Qed.

Lemma delete_sub f l i inst :
  l !! i = Some inst -> dead f inst -> sub_insts f l (delete i l).
Proof.
  revert i. induction l as [|x l IH]; intros [|i] Hi Hd; try done; simpl in *.
  - injection Hi as ->. apply sub_drop; [done|apply sub_refl].
  - apply sub_keep. by apply IH.
Qed.

(** One removal of the pass. *)
Lemma remove_inst_dce f b i inst :
  inst_at f b i = Some inst -> dce_removes f inst = true -> dce_of f (remove_inst f b i).
Proof.
  intros Hi Hrm. unfold remove_inst. set (f' := upd_block _ _ _).
  assert (Hsub : forall j, j ∈ all_insts f' -> j ∈ all_insts f).
  { intros j. rewrite !all_insts_elem. intros (c & blk & Hc & Hblk & Hj). exists c.
    subst f'. rewrite block_at_upd in Hblk. destruct (decide (c = b)) as [->|]; [|by eexists].
    destruct (block_at f b) as [blk0|]; [|done]. injection Hblk as <-. exists blk0. split_and!; [done..|].
    simpl in Hj. apply list_elem_of_lookup in Hj as [k Hk].
    destruct (decide (k < i)%nat).
    - rewrite list_lookup_delete_lt in Hk by done. by eapply list_elem_of_lookup_2.
    - rewrite list_lookup_delete_ge in Hk by lia. by eapply list_elem_of_lookup_2. }
  assert (Hdead : dead f' inst).
  { unfold dce_removes in Hrm. apply orb_true_iff in Hrm as [Hn%bool_decide_eq_true|Hrm]; [by left|right].
    rewrite !andb_true_iff, !negb_true_iff, N.eqb_neq, Z.eqb_eq, used_iff in Hrm.
    destruct Hrm as [[? ?] Hu]. split_and!; [done|done|].
    intros (j & Hj & Hv). apply Hu. exists j. split; [by apply Hsub|done]. }
  split; try done. intros c. subst f'. rewrite block_at_upd.
  destruct (decide (c = b)) as [->|].
  - unfold inst_at, inst_list in Hi. destruct (block_at f b) as [blk|]; constructor. simpl.
    eapply delete_sub; [exact Hi|done].
  - destruct (block_at f c); constructor. apply sub_refl.
Qed.

Lemma dce_insts_spec n : forall b i f c,
  (i + n = length (inst_list f b))%nat ->
  exists f' c', dce_insts n b i (f, c) = Ok (f', c') /\ dce_of f f'.
Proof.
  induction n as [|n IH]; intros b i f c Hlen; simpl; [by exists f, c|].
  unfold inst_at at 1. destruct (lookup_lt_is_Some_2 (inst_list f b) i) as [inst Hinst]; [lia|].
  rewrite Hinst. cbn [of_option obind]. destruct (dce_removes f inst) eqn:Hrm.
  - assert (Hd : dce_of f (remove_inst f b i)) by (by eapply remove_inst_dce).
    destruct (IH b i (remove_inst f b i) (c + 1)) as (f' & c' & -> & Hd').
    { unfold inst_list, remove_inst. rewrite block_at_upd_eq. unfold inst_list in *.
      destruct (block_at f b) as [blk|]; [|done]. simpl in *. rewrite length_delete; [|by eexists]. lia. }
    exists f', c'. split; [done|]. by etransitivity.
  - destruct (IH b (S i) f c) as (f' & c' & -> & Hd'); [lia|]. by exists f', c'.
Qed.

(** The pass is total and its result is [dce_of]. *)
Lemma dce_pass_spec f : exists f' c, mir_pass_dead_code_eliminate f = Ok (f', c) /\ dce_of f f'.
Proof.
  unfold mir_pass_dead_code_eliminate. generalize (block_list f) 0.
  assert (H : forall bl f0 c, exists f' c',
    each_block (fun b r => dce_insts (length (inst_list r.1 b)) b 0 r) bl (f0, c) = Ok (f', c') /\ dce_of f0 f').
  { intros bl. induction bl as [|b bl IH]; intros f0 c; simpl; [by exists f0, c|].
    destruct (dce_insts_spec (length (inst_list f0 b)) b 0 f0 c) as (f1 & c1 & -> & H1); [done|].
    cbn [obind]. destruct (IH f1 c1) as (f2 & c2 & -> & H2). exists f2, c2. split; [done|]. by etransitivity. }
  intros bl c. apply H.
Qed.

(** ** States that differ in dead registers and in the instruction count *)

Definition set_exec vm x := mkVm (profiles vm) (frame_depth vm) (frame_depth_peak vm) (mem vm)
  (heap_objs vm) (trap_code vm) x (out vm).

Record agree (f : MirFunction) (fr fr' : CvmFrame) : Prop := {
  ag_len : length (regs fr) = length (regs fr');
  ag_allocas : allocas fr = allocas fr';
  ag_regs : forall v, used f v -> regs fr !! N.to_nat v = regs fr' !! N.to_nat v
}.

Lemma agree_refl f fr : agree f fr fr.
Proof. by split. Qed.

Lemma agree_set f fr fr' r x :
  agree f fr fr' -> agree f (set_regs fr (<[r := x]> (regs fr))) (set_regs fr' (<[r := x]> (regs fr'))).
Proof.
  intros [Hl Ha Hr]. split; simpl; [by rewrite !length_insert|done|].
  intros v Hv. destruct (decide (r = N.to_nat v)) as [->|Hne].
  - destruct (decide (N.to_nat v < length (regs fr))%nat).
    + by rewrite !list_lookup_insert_eq by lia.
    + rewrite !list_insert_ge by lia. by apply Hr.
  - rewrite !list_lookup_insert_ne by done. by apply Hr.
Qed.

(** Writing a register nobody reads. *)
Lemma agree_set_dead f fr fr' (r : MirValueId) x :
  ~ used f r -> agree f fr fr' -> agree f (set_regs fr (<[N.to_nat r := x]> (regs fr))) fr'.
Proof.
  intros Hu [Hl Ha Hr]. split; simpl; [by rewrite length_insert|done|].
  intros v Hv. rewrite list_lookup_insert_ne; [by apply Hr|]. intros Heq%N2Nat.inj. by subst.
Qed.

Lemma reg_get_agree f vm fr fr' v :
  agree f fr fr' -> (v = MIR_VALUE_NONE \/ used f v) -> cvm_reg_get vm fr v = cvm_reg_get vm fr' v.
Proof.
  intros [Hl _ Hr] Hv. unfold cvm_reg_get, reg_count. rewrite Hl.
  destruct (N.eqb_spec v 0) as [|Hv0]; [done|]. destruct Hv as [?|Hv]; [done|]. by rewrite (Hr v Hv).
Qed.

Definition frame_result (f : MirFunction) (r r' : outcome (CvmState * CvmFrame * next)) : Prop :=
  match r, r' with
  | Ok (vm, fr, k), Ok (vm', fr', k') => vm = vm' /\ k = k' /\ agree f fr fr'
  | Undef, Undef | OutOfFuel, OutOfFuel => True
  | _, _ => False
  end.

Lemma reg_set_agree f vm fr fr' v x :
  agree f fr fr' ->
  match cvm_reg_set vm fr v x, cvm_reg_set vm fr' v x with
  | Ok (vm1, fr1), Ok (vm2, fr2) => vm1 = vm2 /\ agree f fr1 fr2
  | Undef, Undef => True
  | _, _ => False
  end.
Proof.
  intros Ha. unfold cvm_reg_set, reg_count. rewrite (ag_len _ _ _ Ha).
  destruct (v =? 0)%N; [done|]. destruct (_ <=? _); [done|].
  destruct (_ <=? _)%nat; [done|]. split; [done|]. by apply agree_set.
Qed.

Lemma set_next_agree f vm fr fr' v x :
  agree f fr fr' -> frame_result f (set_next vm fr v x) (set_next vm fr' v x).
Proof.
  intros Ha. unfold set_next. pose proof (reg_set_agree f vm fr fr' v x Ha) as H.
  destruct (cvm_reg_set vm fr v x) as [[? ?]| |], (cvm_reg_set vm fr' v x) as [[? ?]| |]; try done.
  destruct H. by split_and!.
Qed.

Section sim.
Context (module module' : MirModule).
Context (calloc : gmap Z Z -> Z -> option Z) (string_addr : string -> Z).

Lemma phi_source_used prev edges :
  phi_source prev edges = MIR_VALUE_NONE \/ phi_source prev edges ∈ edges.*2.
Proof.
  unfold phi_source. destruct (List.find _ _) as [e|] eqn:He.
  - apply find_some in He as [He _]. right. apply list_elem_of_fmap. exists e.
    split; [done|]. by apply list_elem_of_In.
  - induction edges as [|e edges IH]; simpl; [by left|]. simpl in He.
    destruct (bool_decide (e.1 = prev)); [done|]. destruct (N.eqb_spec e.2 0).
    + destruct (IH He); [by left|right; by right].
    + right. left.
Qed.

(** An instruction reads only its uses. *)
Lemma exec_inst_agree f vm fr fr' prev i :
  agree f fr fr' -> (forall v, v ∈ inst_uses (as_ i) -> used f v) ->
  frame_result f (exec_inst module calloc string_addr vm fr prev i)
                 (exec_inst module calloc string_addr vm fr' prev i).
Proof.
  intros Ha Hu.
  assert (Hget : forall vm v, v ∈ inst_uses (as_ i) -> cvm_reg_get vm fr v = cvm_reg_get vm fr' v).
  { intros vm1 v Hv. apply (reg_get_agree f); auto. }
  assert (Hn : forall vm, cvm_reg_get vm fr MIR_VALUE_NONE = cvm_reg_get vm fr' MIR_VALUE_NONE) by (intros; reflexivity).
  unfold exec_inst, op_binary. destruct (as_ i) eqn:Hi; simpl in Hget;
    repeat first
      [ done
      | by apply set_next_agree
      | match goal with
        | |- frame_result _ (set_next _ _ _ _) _ => apply set_next_agree
        | |- frame_result _ (Ok _) _ => split_and!; done
        | |- frame_result _ (match ?x with _ => _ end) _ => destruct x eqn:?
        | |- frame_result _ (obind (cvm_reg_get ?vm fr ?v) _) _ =>
            rewrite (Hget vm v) by set_solver;
            destruct (cvm_reg_get vm fr' v) as [[? ?]| |]; cbn [obind fst snd]
        | |- frame_result _ (obind (of_option ?o) _) _ =>
            destruct o; cbn [obind of_option]
        end ].
  - destruct (reads_rhs op z); cbn [obind]; [|by apply set_next_agree].
    rewrite (Hget c rhs) by set_solver.
    destruct (cvm_reg_get c fr' rhs) as [[? ?]| |]; cbn [obind]; try done. by apply set_next_agree.
  - destruct Ha as [? Hal ?]. split; simpl; [done|by rewrite Hal|done].
  - rewrite (reg_get_agree f vm fr fr') by
      (done || (destruct (phi_source_used prev edges); [by left|right; apply Hu; by simpl])).
    destruct (cvm_reg_get vm fr' _) as [[? ?]| |]; cbn [obind]; try done. by apply set_next_agree.
  - pose proof (reg_set_agree f c fr fr' (result i) z Ha) as H.
    destruct (cvm_reg_set c fr (result i) z) as [[vm1 fr1]| |],
      (cvm_reg_set c fr' (result i) z) as [[vm2 fr2]| |]; try done.
    destruct H as [-> H]. cbn [obind fst snd]. unfold reg_count. rewrite (ag_len _ _ _ H).
    destruct (_ && _); [|done]. destruct (_ <=? _)%nat; [done|]. split_and!; [done|done|].
    by apply agree_set.
Qed.

(** ** The instruction count is never read *)

Definition lift (k : Z) (r : outcome (CvmState * CvmFrame * next)) :=
  let! h := r in Ok (set_exec h.1.1 k, h.1.2, h.2).

Lemma reg_get_exec vm fr v k :
  cvm_reg_get (set_exec vm k) fr v = let! r := cvm_reg_get vm fr v in Ok (set_exec r.1 k, r.2).
Proof.
  unfold cvm_reg_get. destruct (v =? 0)%N; [done|]. destruct (_ <=? _); [done|].
  by destruct (regs fr !! _).
Qed.

Lemma reg_set_exec vm fr v x k :
  cvm_reg_set (set_exec vm k) fr v x = let! r := cvm_reg_set vm fr v x in Ok (set_exec r.1 k, r.2).
Proof.
  unfold cvm_reg_set. destruct (v =? 0)%N; [done|]. destruct (_ <=? _); [done|].
  by destruct (_ <=? _)%nat.
Qed.

Lemma set_next_exec vm fr v x k : set_next (set_exec vm k) fr v x = lift k (set_next vm fr v x).
Proof. unfold set_next, lift. rewrite reg_set_exec. by destruct (cvm_reg_set vm fr v x) as [[]| |]. Qed.

Lemma exec_inst_exec vm fr prev i k :
  exec_inst module calloc string_addr (set_exec vm k) fr prev i =
  lift k (exec_inst module calloc string_addr vm fr prev i).
Proof.
  unfold exec_inst, op_binary, cvm_heap_object_alloc. destruct (as_ i) eqn:Hi;
    change (mem (set_exec vm k)) with (mem vm); change (heap_objs (set_exec vm k)) with (heap_objs vm);
    repeat first
      [ done
      | apply set_next_exec
      | match goal with |- context [calloc ?m ?n ≫= _] => destruct (calloc m n); cbn [mbind option_bind] end
      | rewrite reg_get_exec;
        match goal with |- context [obind (cvm_reg_get ?a ?b ?c)] =>
          destruct (cvm_reg_get a b c) as [[? ?]| |]; cbn [obind fst snd] end
      | rewrite reg_set_exec;
        match goal with |- context [obind (cvm_reg_set ?a ?b ?c ?d)] =>
          destruct (cvm_reg_set a b c d) as [[? ?]| |]; cbn [obind fst snd] end
      | match goal with
        | |- match ?x with _ => _ end = _ => destruct x eqn:?; simplify_eq/=
        | |- obind (of_option ?o) _ = _ => destruct o; cbn [obind of_option]
        | |- obind (if ?o then _ else _) _ = _ => destruct o; cbn [obind of_option]
        end ].
  all: (etransitivity; [|apply set_next_exec]; reflexivity).
Qed.

(** ** Dropping a dead instruction *)

(** Instructions whose removal the machine can observe: an [alloca] changes
    memory, a move zeroes its source. *)
Definition droppable (i : MirInst) : bool :=
  match as_ i with ALLOCA _ _ | TRANSFER MIR_MOVE _ => false | _ => true end.

Lemma reg_set_dead f vm fr fr' r x vm1 fr1 :
  ~ used f r -> cvm_reg_set vm fr r x = Ok (vm1, fr1) -> agree f fr fr' -> agree f fr1 fr'.
Proof. intros Hu H Ha. unfold cvm_reg_set in H. inv_ok; auto using agree_set_dead. Qed.

Lemma exec_dead f vm fr fr' prev i vm1 fr1 k :
  dead f i -> droppable i = true ->
  exec_inst module calloc string_addr vm fr prev i = Ok (vm1, fr1, k) -> trap_code vm1 = 0 ->
  agree f fr fr' -> vm1 = vm /\ k = NextInst /\ agree f fr1 fr'.
Proof.
  unfold exec_inst, op_binary, set_next, droppable.
  intros [Hn|(Hr & Hs & Hu)] Hd H Ht Ha; [rewrite Hn in H; by inv_ok|].
  destruct (as_ i) eqn:Hi; try done; inv_ok; try done;
    repeat match goal with
    | H : cvm_reg_get _ _ _ = Ok ?p |- _ =>
        destruct p as [? ?]; apply reg_get_Ok in H as [-> | ->]; simpl in *
    | H : cvm_reg_set _ _ _ _ = Ok ?p |- _ =>
        destruct p as [? ?]; pose proof (reg_set_dead _ _ _ _ _ _ _ _ Hu H Ha);
        apply reg_set_Ok in H as ([-> | ->] & _ & _); simpl in *
    end; try discriminate; inv_ok; done.
Qed.

(** ** The two modules *)

(** What the theorem asks of a function: its blocks are linked, it drops no
    instruction the machine can observe, its entry block is terminated. *)
Record dce_ready (g : MirFunction) : Prop := {
  dr_linked : forall b, is_Some (block_at g b) -> b ∈ block_list g;
  dr_droppable : forall b blk i, block_at g b = Some blk -> i ∈ insts blk -> droppable i = true;
  dr_entry : forall e eb, entry_block g = Some e -> block_at g e = Some eb ->
    mir_block_is_terminated eb = true
}.

Hypothesis Hpair : Forall2 dce_of (func_list module) (func_list module').
Hypothesis Hready : forall g, g ∈ func_list module -> dce_ready g.
Hypothesis Htypes : type_cache module' = type_cache module.

Lemma find_function_pair name :
  match mir_module_find_function module name, mir_module_find_function module' name with
  | Some g, Some g' => g ∈ func_list module /\ dce_of g g'
  | None, None => True
  | _, _ => False
  end.
Proof.
  unfold mir_module_find_function. clear Hready. revert Hpair.
  generalize (func_list module) (func_list module'). intros l l' Hl.
  induction Hl as [|g g' l l' Hg Hl IH]; simpl; [done|].
  pose proof (do_name _ _ Hg) as Hn. rewrite Hn. destruct (decide (f_name g = name)); simpl.
  - split; [left|done].
  - destruct (list_find _ l) as [[j x]|], (list_find _ l') as [[j' x']|]; simpl in *; try done.
    destruct IH. split; [by right|done].
Qed.

(** A frame of [g] runs in one module, a frame of [g'] in the other. *)
Record paired (g g' : MirFunction) (gl gl' : list MirInst) : Prop := {
  pa_in : g ∈ func_list module;
  pa_dce : dce_of g g';
  pa_insts : sub_insts g' gl gl';
  pa_drop : Forall (fun i => droppable i = true) gl;
  pa_uses : forall i v, i ∈ gl' -> v ∈ inst_uses (as_ i) -> used g' v
}.

Lemma block_paired g g' b blk :
  g ∈ func_list module -> dce_of g g' -> block_at g b = Some blk ->
  exists blk', block_at g' b = Some blk' /\ paired g g' (insts blk) (insts blk').
Proof.
  intros Hg Hd Hb. pose proof (do_blocks _ _ Hd b) as Hs. rewrite Hb in Hs.
  inversion Hs as [x y Hxy Hx Hy|]; subst. exists y. split; [done|]. split; auto.
  - apply List.Forall_forall. intros i Hi. apply list_elem_of_In in Hi.
    eapply (dr_droppable _ (Hready g Hg)); eauto.
  - intros i v Hi Hv. exists i. split; [|done]. apply all_insts_elem.
    exists b, y. split_and!; [|done|done]. rewrite (do_list _ _ Hd).
    apply (dr_linked _ (Hready g Hg)). by eexists.
Qed.

Lemma sub_insts_last f l l' term :
  sub_insts f (l ++ [term]) l' -> is_terminator (as_ term) = true -> l' <> [].
Proof.
  revert l'. induction l as [|i l IH]; simpl; intros l' H Ht.
  - inversion H as [|? ? ? _|? ? ? Hd _]; subst; [done|].
    destruct Hd as [Hd|(_ & Hd & _)]; destruct (as_ term); done.
  - inversion H; subst; [done|]. by eapply IH.
Qed.

(** ** Calls *)

Lemma collect_args_agree f vm fr fr' ids :
  agree f fr fr' -> (forall v, v ∈ ids -> used f v) ->
  collect_args vm fr ids = collect_args vm fr' ids.
Proof.
  intros Ha. induction ids as [|v ids IH]; intros Hu; simpl; [done|].
  rewrite IH by (intros w Hw; apply Hu; by right).
  unfold reg_count. rewrite (ag_len _ _ _ Ha), (ag_regs _ _ _ Ha v); [done|]. apply Hu. left.
Qed.

Lemma collect_args_exec vm fr ids k :
  collect_args (set_exec vm k) fr ids = let! r := collect_args vm fr ids in Ok (set_exec r.1 k, r.2).
Proof.
  induction ids as [|v ids IH]; simpl; [done|]. rewrite IH.
  destruct (v =? 0)%N; [by destruct (collect_args vm fr ids)|].
  destruct (_ <=? _); [done|]. destruct (regs fr !! _); simpl; [|done].
  by destruct (collect_args vm fr ids).
Qed.

Lemma intrinsic_exec vm name args k :
  cvm_intrinsic (set_exec vm k) name args =
  let! o := cvm_intrinsic vm name args in Ok ((fun vm => set_exec vm k) <$> o).
Proof.
  unfold cvm_intrinsic. change (mem (set_exec vm k)) with (mem vm).
  repeat (destruct (String.eqb _ _); [try done|]); try done.
  destruct (_ =? _); [done|]. by destruct (read_cstr _ _ _).
Qed.

Lemma count_call_exec vm name k : count_call (set_exec vm k) name = set_exec (count_call vm name) k.
Proof. unfold count_call. simpl. by destruct (find_idx _ _). Qed.

(** Frames entered in step. *)
Definition entered (d d' : dispatched) : Prop :=
  match d, d' with
  | Value v, Value v' => v = v'
  | Enter g gfr e gl, Enter g' gfr' e' gl' => gfr = gfr' /\ e = e' /\ paired g g' gl gl'
  | _, _ => False
  end.

Lemma enter_function_sim vm k g g' args vm1 d :
  g ∈ func_list module -> dce_of g g' -> enter_function vm g args = Ok (vm1, d) ->
  exists d', enter_function (set_exec vm k) g' args = Ok (set_exec vm1 k, d') /\ entered d d'.
Proof.
  intros Hg Hd. unfold enter_function, cvm_enter.
  change (frame_depth (set_exec vm k)) with (frame_depth vm).
  change (frame_depth_peak (set_exec vm k)) with (frame_depth_peak vm).
  destruct (CVM_MAX_CALL_DEPTH <? frame_depth vm + 1).
  { intros [= <- <-]. exists (Value 0). done. }
  rewrite (do_entry _ _ Hd). destruct (entry_block g) as [e|] eqn:He; [|done]. cbn [of_option obind].
  destruct (block_at g e) as [eb|] eqn:Heb; [|done]. cbn [of_option obind].
  destruct (block_paired g g' e eb Hg Hd Heb) as (eb' & -> & Hp). cbn [of_option obind].
  pose proof (dr_entry _ (Hready g Hg) e eb He Heb) as Hterm.
  unfold mir_block_is_terminated, block_last in Hterm.
  destruct (list.last (insts eb)) as [term|] eqn:Hlast; [|done]. apply last_Some in Hlast as [l Hl].
  assert (Hne : insts eb' <> []).
  { eapply sub_insts_last; [rewrite <- Hl; apply Hp|done]. }
  destruct (insts eb) as [|i0 l0] eqn:Hi; [by destruct l|].
  destruct (insts eb') as [|i1 l1]; [done|]. intros [= <- <-].
  eexists. split; [reflexivity|]. simpl. split_and!; [|done|done].
  unfold frame_regs. by rewrite (do_next _ _ Hd), (do_params _ _ Hd).
Qed.

Lemma dispatch_sim f vm k fr fr' name ids vm1 d :
  agree f fr fr' -> (forall v, v ∈ ids -> used f v) ->
  cvm_dispatch_call module vm fr name ids = Ok (vm1, d) ->
  exists d', cvm_dispatch_call module' (set_exec vm k) fr' name ids = Ok (set_exec vm1 k, d') /\
    entered d d'.
Proof.
  intros Ha Hu. unfold cvm_dispatch_call. change (trap_code (set_exec vm k)) with (trap_code vm).
  destruct (negb _); [intros [= <- <-]; by exists (Value 0)|].
  rewrite collect_args_exec, <- (collect_args_agree f vm fr fr') by
    (done || (intros v Hv; apply Hu; by eapply elem_of_take in Hv as (? & ? & ?); eapply list_elem_of_lookup_2)).
  destruct (collect_args vm fr (take 64 ids)) as [[vm2 [args|]]| |]; cbn [obind fst snd]; try done.
  2: { intros [= <- <-]. by exists (Value 0). }
  rewrite intrinsic_exec. destruct (cvm_intrinsic vm2 name args) as [[vm3|]| |]; cbn [obind]; try done.
  { intros [= <- <-]. by exists (Value 0). }
  cbn [fmap option_fmap option_map]. pose proof (find_function_pair name) as Hf.
  destruct (mir_module_find_function module name) as [g|], (mir_module_find_function module' name) as [g'|];
    try done.
  - destruct Hf as [Hg Hd]. rewrite count_call_exec. by apply enter_function_sim.
  - intros [= <- <-]. by exists (Value 0).
Qed.
(** ** The simulation *)

Lemma exec_step_trap run vm fr f cur prev l vm' fr' k :
  (forall vm fr g e gl vm' v, run vm fr g e gl = Ok (vm', v) -> trap_code vm <> 0 -> trap_code vm' <> 0) ->
  exec_step module calloc string_addr run vm fr f cur prev l = Ok (vm', fr', k) ->
  trap_code vm <> 0 -> trap_code vm' <> 0.
Proof.
  intros Hrun. destruct l as [|i l]; [by intros [= <- _ _]|]. rewrite exec_step_cons.
  destruct (call_of (as_ i)) as [[name ids]|].
  - intros ([vm1 d] & Hd & H)%obind_Ok Ht. apply dispatch_call_spec in Hd as [[_ Hc _] _].
    cbn [fst snd] in H. apply obind_Ok in H as ([vm2 v] & Hr & Hs). unfold set_next in Hs.
    apply obind_Ok in Hs as ([vm3 fr3] & Hs & [= <- _ _]).
    apply reg_set_local in Hs as [(? & ? & ? & -> & Hs) _]. simpl in *. apply Hs.
    destruct d; simplify_eq/=; [auto|eauto].
  - intros [(? & ? & ? & -> & Hl) _]%exec_inst_local. simpl in *. auto.
Qed.

Lemma cvm_exec_trap n vm fr f cur prev l vm' v :
  cvm_exec module calloc string_addr n vm fr f cur prev l = Ok (vm', v) ->
  trap_code vm <> 0 -> trap_code vm' <> 0.
Proof.
  revert vm fr f cur prev l vm' v. induction n as [|n IH]; intros vm fr f cur prev l vm' v; [done|].
  cbn [cvm_exec]. intros ([[vm1 fr1] k] & Hh & H)%obind_Ok Ht.
  eapply exec_step_trap in Hh; [|intros *; apply IH|done].
  destruct k as [| [b|] | v1].
  - destruct (negb _); [by injection H as <- _|]. eapply IH; eauto.
  - apply obind_Ok in H as (blk & _ & H). eapply IH; eauto.
  - by injection H as <- _.
  - by injection H as <- _.
Qed.

Lemma exec_inst_module vm fr prev i :
  exec_inst module' calloc string_addr vm fr prev i = exec_inst module calloc string_addr vm fr prev i.
Proof. unfold exec_inst. by rewrite Htypes. Qed.

(** An instruction both functions keep. *)
Lemma exec_step_keep run run' vm fr fr' k f f' cur prev i l l' vm1 fr1 nx :
  (forall vm gfr g g' e gl gl' vm2 v, run vm gfr g e gl = Ok (vm2, v) -> trap_code vm2 = 0 ->
     paired g g' gl gl' -> forall k, exists k', run' (set_exec vm k) gfr g' e gl' = Ok (set_exec vm2 k', v)) ->
  exec_step module calloc string_addr run vm fr f cur prev (i :: l) = Ok (vm1, fr1, nx) ->
  trap_code vm1 = 0 -> agree f' fr fr' -> (forall v, v ∈ inst_uses (as_ i) -> used f' v) ->
  exists k' fr1', exec_step module' calloc string_addr run' (set_exec vm k) fr' f' cur prev (i :: l')
    = Ok (set_exec vm1 k', fr1', nx) /\ agree f' fr1 fr1'.
Proof.
  intros Hrun. rewrite !exec_step_cons.
  change (tick (set_exec vm k)) with (set_exec (tick vm) (u64 (k + 1))).
  generalize (tick vm) (u64 (k + 1)). clear vm k. intros vm k.
  destruct (call_of (as_ i)) as [[name ids]|] eqn:Hcall.
  - intros ([vm2 d] & Hd & H)%obind_Ok Ht Ha Hu. cbn [fst snd] in H.
    apply (dispatch_sim f' vm k fr fr') in Hd as (d' & -> & Hent); [|done|].
    2: { intros v Hv. apply Hu. destruct (as_ i); simplify_eq/=; by right. }
    apply obind_Ok in H as ([vm3 v] & Hr & Hs). cbn [obind fst snd] in *.
    assert (Ht3 : trap_code vm3 = 0).
    { unfold set_next in Hs. apply obind_Ok in Hs as ([vm4 fr4] & Hs & [= <- _ _]).
      apply reg_set_local in Hs as [(? & ? & ? & -> & Hs) _]. simpl in *.
      destruct (Z.eq_dec (trap_code vm3) 0); [done|]. by destruct (Hs n). }
    assert (Hr' : exists k', match d' with
              | Value v => Ok (set_exec vm2 k, v)
              | Enter g gfr e gl => run' (set_exec vm2 k) gfr g e gl
              end = Ok (set_exec vm3 k', v)).
    { destruct d as [v1|g gfr e gl], d' as [v1'|g' gfr' e' gl']; try done; simpl in Hent, Hr.
      - injection Hr as <- <-. subst v1'. by eexists.
      - destruct Hent as (<- & <- & Hp). eapply Hrun; eauto. }
    destruct Hr' as [k' ->]. cbn [obind fst snd]. rewrite set_next_exec.
    pose proof (set_next_agree f' vm3 fr fr' (result i) v Ha) as Hag. rewrite Hs in Hag.
    destruct (set_next vm3 fr' (result i) v) as [[[vm4 fr4] k4]| |]; try done.
    destruct Hag as (<- & <- & Hag). exists k', fr4. done.
  - intros H Ht Ha Hu. rewrite exec_inst_module, exec_inst_exec.
    pose proof (exec_inst_agree f' vm fr fr' prev i Ha Hu) as Hag. rewrite H in Hag.
    destruct (exec_inst module calloc string_addr vm fr' prev i) as [[[vm4 fr4] k4]| |]; try done.
    destruct Hag as (<- & <- & Hag). exists k, fr4. done.
Qed.

Lemma leave_exec vm fr fr' f k :
  agree f fr fr' -> cvm_leave (set_exec vm k) fr' = set_exec (cvm_leave vm fr) k.
Proof.
  intros Ha. unfold cvm_leave, set_exec, cvm_frame_free_allocas. simpl.
  by rewrite (ag_allocas _ _ _ Ha).
Qed.

Lemma dead_no_call f i : dead f i -> call_of (as_ i) = None.
Proof. intros [-> | (_ & Hs & _)]; [done|]. by destruct (as_ i). Qed.

(** What follows the handler of one instruction, in both machines. *)
Lemma after_step n vm fr fr' k f f' cur prev nx l l' vm1 v :
  (forall vm fr fr' k f f' cur prev l l' vm1 v,
     cvm_exec module calloc string_addr n vm fr f cur prev l = Ok (vm1, v) -> trap_code vm1 = 0 ->
     paired f f' l l' -> agree f' fr fr' ->
     exists k', cvm_exec module' calloc string_addr n (set_exec vm k) fr' f' cur prev l'
       = Ok (set_exec vm1 k', v)) ->
  paired f f' l l' -> agree f' fr fr' -> trap_code vm1 = 0 ->
  match nx with
  | NextInst => if negb (trap_code vm =? 0) then Ok (cvm_leave vm fr, 0)
                else cvm_exec module calloc string_addr n vm fr f cur prev l
  | Jump None => Ok (cvm_leave vm fr, 0)
  | Jump (Some b) =>
      let! blk := of_option (block_at f b) in
      cvm_exec module calloc string_addr n vm fr f b (Some cur) (insts blk)
  | Done v => Ok (cvm_leave vm fr, v)
  end = Ok (vm1, v) ->
  exists k', match nx with
  | NextInst => if negb (trap_code (set_exec vm k) =? 0) then Ok (cvm_leave (set_exec vm k) fr', 0)
                else cvm_exec module' calloc string_addr n (set_exec vm k) fr' f' cur prev l'
  | Jump None => Ok (cvm_leave (set_exec vm k) fr', 0)
  | Jump (Some b) =>
      let! blk := of_option (block_at f' b) in
      cvm_exec module' calloc string_addr n (set_exec vm k) fr' f' b (Some cur) (insts blk)
  | Done v => Ok (cvm_leave (set_exec vm k) fr', v)
  end = Ok (set_exec vm1 k', v).
Proof.
  intros IH Hp Ha Ht. rewrite (leave_exec vm fr fr' f' k Ha).
  change (trap_code (set_exec vm k)) with (trap_code vm). destruct nx as [| [b|] | v1].
  - destruct (negb _); [intros [= <- <-]; by eexists|]. intros H. eapply IH; eauto.
  - intros (blk & Hb & H)%obind_Ok. destruct (block_at f b) as [blk0|] eqn:Hb0; [|done].
    injection Hb as <-. destruct (block_paired f f' b blk0) as (blk' & -> & Hp'); [apply Hp..|done|].
    cbn [of_option obind]. eapply IH; eauto.
  - intros [= <- <-]. by eexists.
  - intros [= <- <-]. by eexists.
Qed.

Lemma exec_sim n : forall vm fr fr' k f f' cur prev l l' vm1 v,
  cvm_exec module calloc string_addr n vm fr f cur prev l = Ok (vm1, v) -> trap_code vm1 = 0 ->
  paired f f' l l' -> agree f' fr fr' ->
  exists k', cvm_exec module' calloc string_addr n (set_exec vm k) fr' f' cur prev l'
    = Ok (set_exec vm1 k', v).
Proof.
  induction n as [|n IH]; intros vm fr fr' k f f' cur prev l l' vm1 v H Ht Hp Ha; [done|].
  cbn [cvm_exec] in H. apply obind_Ok in H as ([[vm2 fr2] nx] & Hstep & H).
  assert (Ht2 : trap_code vm2 = 0).
  { destruct (Z.eq_dec (trap_code vm2) 0) as [|Hne]; [done|]. exfalso. revert Ht.
    destruct nx as [| [b|] | v1].
    - destruct (negb _); [by injection H as <- _|]. by eapply cvm_exec_trap.
    - apply obind_Ok in H as (blk & _ & H). by eapply cvm_exec_trap.
    - by injection H as <- _.
    - by injection H as <- _. }
  destruct Hp as [Hin Hd Hs Hdr Hu]. inversion Hs as [|i l0 l0' Hs0|i l0 l0' Hdead Hs0]; subst.
  - cbn [cvm_exec exec_step obind]. injection Hstep as <- <- <-.
    assert (Hnb : next_block f' cur = next_block f cur) by (unfold next_block; by rewrite (do_list _ _ Hd)).
    rewrite Hnb. eapply (after_step n vm fr fr' k f f' cur prev (Jump (next_block f cur)) [] []); try done.
  - cbn [cvm_exec]. apply Forall_cons_1 in Hdr as [_ Hdr].
    destruct (exec_step_keep
      (fun vm fr g entry gl => cvm_exec module calloc string_addr n vm fr g entry None gl)
      (fun vm fr g entry gl => cvm_exec module' calloc string_addr n vm fr g entry None gl)
      vm fr fr' k f f' cur prev i l0 l0' vm2 fr2 nx) with (2 := Hstep) (3 := Ht2) (4 := Ha)
      as (k' & fr2' & Hst & Ha2).
    { intros vm3 gfr g g' e gl gl' vm4 v4 Hr Htr Hpr k0. eapply IH; eauto using agree_refl. }
    { intros w Hw. eapply Hu; [by left|done]. }
    rewrite Hst. cbn [obind]. eapply (after_step n vm2 fr2 fr2' k' f f' cur prev nx l0 l0'); try done.
    split; try done. intros j w Hj. apply Hu. by right.
  - apply Forall_cons_1 in Hdr as [Hdi Hdr]. rewrite exec_step_cons, (dead_no_call f' i Hdead) in Hstep.
    eapply exec_dead in Hstep as (-> & -> & Ha2); [|done..|exact Ha].
    rewrite Ht2 in H. cbn [negb Z.eqb] in H.
    destruct (IH (tick vm) fr2 fr' k f f' cur prev l0 l' vm1 v) as [k' Hk']; try done.
    exists k'. eapply cvm_exec_mono; [|exact Hk']. lia.
Qed.

Lemma dce_of_preserves_runs n vm entry args vm1 v :
  cvm_run module calloc string_addr n vm entry args = Ok (vm1, v) -> trap_code vm1 = 0 ->
  exists k, cvm_run module' calloc string_addr n vm entry args = Ok (set_exec vm1 k, v).
Proof.
  intros Hrun Htrap.
  unfold cvm_run, cvm_exec_function in *. pose proof (find_function_pair entry) as Hf.
  destruct (mir_module_find_function module entry) as [g|], (mir_module_find_function module' entry) as [g'|];
    try done.
  2: { injection Hrun as <- <-. exists (inst_executed vm). by destruct vm. }
  destruct Hf as [Hg Hd]. apply obind_Ok in Hrun as ([vm2 v2] & Hrun & Hv).
  injection Hv as <- <-. apply obind_Ok in Hrun as ([vm3 d] & Hent & Hrun).
  destruct (enter_function_sim _ (inst_executed (count_call vm entry)) _ g' _ _ _ Hg Hd Hent)
    as (d' & Hent' & Hed).
  assert (Heq : set_exec (count_call vm entry) (inst_executed (count_call vm entry)) = count_call vm entry)
    by (by destruct (count_call vm entry)).
  rewrite Heq in Hent'. rewrite Hent'. cbn [obind fst snd] in *.
  destruct d as [v1|h gfr e gl], d' as [v1'|h' gfr' e' gl']; try done; simpl in Hed.
  - injection Hrun as <- <-. subst v1'. by eexists.
  - destruct Hed as (<- & <- & Hp). eapply exec_sim in Hrun as [k' ->]; [|done|exact Hp|apply agree_refl].
    by eexists.
Qed.

End sim.

(** C5: dead code elimination preserves behaviour.  Let every function of
    [module'] be what [mir_pass_dead_code_eliminate] returns on the function of
    [module] in the same place, the functions being linked, terminated and free
    of [alloca] and move.  Every run of [module] that ends without a trap ends
    in [module'] with the same value and the same machine state (memory,
    output, profiles, frames, trap code) but for the count of instructions,
    in no more fuel. *)
Theorem dce_preserves_runs module module' calloc string_addr n vm entry args vm1 v
  (Hpass : Forall2 (fun g g' => exists c, mir_pass_dead_code_eliminate g = Ok (g', c))
             (func_list module) (func_list module'))
  (Htypes : type_cache module' = type_cache module)
  (Hready : forall g, g ∈ func_list module -> dce_ready g)
  (Hrun : cvm_run module calloc string_addr n vm entry args = Ok (vm1, v))
  (Htrap : trap_code vm1 = 0) :
  exists k, cvm_run module' calloc string_addr n vm entry args = Ok (set_exec vm1 k, v).
Proof.
  assert (Hp : Forall2 dce_of (func_list module) (func_list module')).
  { clear Hready. induction Hpass as [|g g' l l' [c Hc] _ IH]; [constructor|].
    constructor; [|exact IH].
    destruct (dce_pass_spec g) as (g1 & c1 & Hg1 & Hd). congruence. }
  by eapply dce_of_preserves_runs.
Qed.

(** ** Witness *)

(** [fn f(p) { dead = p * p; if (p < 3) return g(p); else return p; }] with a
    dead load in [g], which prints its argument. *)
Definition ex_dead : MirFunction :=
  mkFunction "f" 1 [mkParam "p" 1 1] (Some 0%nat)
    [opt_block 0 [opt_inst 2 (BINARY MIR_MUL 1 1); opt_inst 3 (CONST_INT 3);
                  opt_inst 4 (BINARY MIR_CMP_LT 1 3); opt_inst 0 (CONDBR 4 (Some 1%nat) (Some 2%nat))]
       [] [1; 2]%nat;
     opt_block 1 [opt_inst 5 (CALL "g" [1%N] 0); opt_inst 0 (RET 5)] [0%nat] [];
     opt_block 2 [opt_inst 0 NOP; opt_inst 0 (RET 1)] [0%nat] []]
    [0; 1; 2]%nat 3 6 [0; 1; 1; 1; 1; 1]%N false false false.
Definition ex_callee : MirFunction :=
  mkFunction "g" 1 [mkParam "q" 1 1] (Some 0%nat)
    [opt_block 0 [opt_inst 2 (UNARY MIR_BNOT 1 0); opt_inst 3 (BINARY MIR_ADD 2 1);
                  opt_inst 0 (CALL "nuwan_print_int" [1%N] 0); opt_inst 0 (RET 1)] [] []]
    [0%nat] 1 4 [0; 1; 1; 1]%N false false false.

Definition after_dce (f : MirFunction) : MirFunction :=
  match mir_pass_dead_code_eliminate f with Ok (f', _) => f' | _ => f end.
Definition two_functions (f g : MirFunction) : MirModule :=
  mkModule "m" [f; g] 2 [] [TyPrim MIR_TYPE_I64] [].

Lemma ex_dead_ready g : g ∈ [ex_dead; ex_callee] -> dce_ready g.
Proof.
  intros Hg%list_elem_of_In. destruct Hg as [<- | [<- | []]]; split.
  - intros b [blk Hb%lookup_lt_Some]. apply list_elem_of_In. simpl in *. lia.
  - intros b blk i Hb Hi. do 3 (destruct b as [|b]; [injection Hb as <-; apply list_elem_of_In in Hi;
      repeat destruct Hi as [<- | Hi]; done|]). done.
  - intros e eb [= <-] [= <-]. reflexivity.
  - intros b [blk Hb%lookup_lt_Some]. apply list_elem_of_In. simpl in *. lia.
  - intros b blk i Hb Hi. destruct b as [|b]; [injection Hb as <-; apply list_elem_of_In in Hi;
      repeat destruct Hi as [<- | Hi]; done|]. done.
  - intros e eb [= <-] [= <-]. reflexivity.
Qed.

Lemma dce_preserves_runs_witness :
  exists vm1 k,
    cvm_run (two_functions ex_dead ex_callee) (fun _ _ => None) (fun _ => 0) 40 (cvm_state_create ∅)
      "f" [2] = Ok (vm1, 2) /\ out vm1 = [EvInt 2] /\
    cvm_run (two_functions (after_dce ex_dead) (after_dce ex_callee)) (fun _ _ => None) (fun _ => 0) 40
      (cvm_state_create ∅) "f" [2] = Ok (set_exec vm1 k, 2).
Proof.
  destruct (cvm_run (two_functions ex_dead ex_callee) (fun _ _ => None) (fun _ => 0) 40
              (cvm_state_create ∅) "f" [2]) as [[vm1 v]| |] eqn:Hrun;
    [|vm_compute in Hrun; discriminate Hrun..].
  assert (Hv : match cvm_run (two_functions ex_dead ex_callee) (fun _ _ => None) (fun _ => 0) 40
                 (cvm_state_create ∅) "f" [2] with
               | Ok (vm, v) => (v, out vm, trap_code vm) | _ => (0, [], 1) end = (2, [EvInt 2], 0))
    by (vm_compute; reflexivity).
  rewrite Hrun in Hv. injection Hv as Hv Ho Ht. subst v. exists vm1.
  destruct (dce_preserves_runs (two_functions ex_dead ex_callee)
              (two_functions (after_dce ex_dead) (after_dce ex_callee)) (fun _ _ => None) (fun _ => 0)
              40 (cvm_state_create ∅) "f" [2] vm1 2) as [k Hk].
  - constructor; [eexists; vm_compute; reflexivity|].
    constructor; [eexists; vm_compute; reflexivity|constructor].
  - reflexivity.
  - exact ex_dead_ready.
  - exact Hrun.
  - exact Ht.
  - exists k. by split_and!.
Defined.
