(* ===== verification/Sorting.v ===== *)
(** * The C library's [qsort]

    [qsort] is not code of the repository: it is an operation of the class
    [Qsort], with what C11 7.22.5.2 promises of it.  The elements are
    permuted, and they come out in ascending order when the comparison is
    consistent on the array.  [insertion_qsort] shows that the promise can be
    kept. *)
From S2P Require Import Prelude.
From Stdlib Require Import Sorting.Sorted.

(** Consistency of a comparison function on the elements of an array: two
    different elements compare one way at least, and the order is
    transitive. *)
Record consistent {A} (cmp : A -> A -> Z) (l : list A) : Prop := {
  co_total : forall i j a b, l !! i = Some a -> l !! j = Some b -> i <> j -> cmp a b <= 0 \/ cmp b a <= 0;
  co_trans : forall a b c, a ∈ l -> b ∈ l -> c ∈ l -> cmp a b <= 0 -> cmp b c <= 0 -> cmp a c <= 0
}.

Definition ascending {A} (cmp : A -> A -> Z) : list A -> Prop :=
  StronglySorted (fun a b => cmp a b <= 0).

Lemma ascending_impl {A} (cmp : A -> A -> Z) (R : A -> A -> Prop) l :
  (forall a b, cmp a b <= 0 -> R a b) -> ascending cmp l -> StronglySorted R l.
Proof.
  intros HR Hs. induction Hs as [|x l Hs IH Hx]; constructor; [done|].
  eapply List.Forall_impl; [|exact Hx]. intros y. apply HR.
Qed.

Lemma sorted_lookup {A} (R : A -> A -> Prop) l i j a b :
  StronglySorted R l -> (i < j)%nat -> l !! i = Some a -> l !! j = Some b -> R a b.
Proof.
  intros Hs. revert i j. induction Hs as [|x l Hs IH Hx]; intros i j Hij; [done|].
  destruct j as [|j]; [lia|]. destruct i as [|i]; simpl.
  - intros [= <-] Hb. rewrite List.Forall_forall in Hx. apply Hx, list_elem_of_In.
    by eapply list_elem_of_lookup_2.
  - apply IH. lia.
Qed.

Class Qsort := {
  qsort : forall {A}, (A -> A -> Z) -> list A -> list A;
  qsort_perm : forall A (cmp : A -> A -> Z) l, qsort cmp l ≡ₚ l;
  qsort_sorted : forall A (cmp : A -> A -> Z) l, consistent cmp l -> ascending cmp (qsort cmp l)
}.

(** A total preorder is consistent on every array. *)
Lemma preorder_consistent {A} (cmp : A -> A -> Z) l :
  (forall a b, cmp a b <= 0 \/ cmp b a <= 0) ->
  (forall a b c, cmp a b <= 0 -> cmp b c <= 0 -> cmp a c <= 0) -> consistent cmp l.
Proof. intros Htot Htr. split; [intros; apply Htot|intros a b c _ _ _; apply Htr]. Qed.

(** A comparison that is not defined on every pair: [qsort] may compare any two
    elements of the array, so every pair must compare. *)
Definition compares_all {A} (cmp : A -> A -> option Z) (l : list A) : bool :=
  forallb (fun a => forallb (fun b => bool_decide (is_Some (cmp a b))) l) l.

Definition qsort_opt {Q : Qsort} {A} (cmp : A -> A -> option Z) (l : list A) : option (list A) :=
  if compares_all cmp l then Some (qsort (fun a b => default 0 (cmp a b)) l) else None.

Lemma compares_all_iff {A} (cmp : A -> A -> option Z) l :
  compares_all cmp l = true <-> forall a b, a ∈ l -> b ∈ l -> is_Some (cmp a b).
Proof.
  unfold compares_all. rewrite forallb_forall. setoid_rewrite forallb_forall.
  setoid_rewrite bool_decide_eq_true. setoid_rewrite <- list_elem_of_In. naive_solver.
Qed.

(** When every pair compares and the results order the elements by a key,
    the array comes out in the order of the keys. *)
Lemma qsort_opt_by_key {Q : Qsort} {A} (cmp : A -> A -> option Z) (key : A -> Z) l :
  (forall a b, a ∈ l -> b ∈ l -> exists z, cmp a b = Some z /\ (z <= 0 <-> key a <= key b)) ->
  exists l', qsort_opt cmp l = Some l' /\ l' ≡ₚ l /\ StronglySorted (fun a b => key a <= key b) l'.
Proof.
  intros H. unfold qsort_opt.
  rewrite (proj2 (compares_all_iff cmp l)) by (intros a b Ha Hb; destruct (H a b Ha Hb) as (z & -> & _); by eexists).
  set (c := fun a b => default 0 (cmp a b)).
  assert (Hc : forall a b, a ∈ l -> b ∈ l -> c a b <= 0 <-> key a <= key b).
  { intros a b Ha Hb. destruct (H a b Ha Hb) as (z & Hz & Hk). subst c. simpl. by rewrite Hz. }
  eexists. split; [done|]. pose proof (qsort_perm A c l) as Hp. split; [done|].
  assert (Hs : ascending c (qsort c l)).
  { apply qsort_sorted. split.
    - intros i j a b Hi%list_elem_of_lookup_2 Hj%list_elem_of_lookup_2 _. rewrite !Hc by done. lia.
    - intros a b d Ha Hb Hd. rewrite !Hc by done. lia. }
  assert (Hin : forall x, x ∈ qsort c l -> x ∈ l) by (intros x; by rewrite Hp).
  clear Hp. induction Hs as [|x r Hr IH Hx]; constructor.
  - apply IH. intros y Hy. apply Hin. by right.
  - rewrite List.Forall_forall in Hx |- *. intros y Hy. apply Hc; [apply Hin; left|apply Hin; right; by apply list_elem_of_In|by apply Hx].
Qed.

(** Consistency passes to the tail. *)
Lemma consistent_cons {A} (cmp : A -> A -> Z) x l : consistent cmp (x :: l) -> consistent cmp l.
Proof.
  intros [Htot Htr]. split.
  - intros i j a b Hi Hj Hne. apply (Htot (S i) (S j)); [done|done|lia].
  - intros a b c Ha Hb Hc. apply Htr; by right.
Qed.

(** ** An instance *)

Fixpoint insert_by {A} (cmp : A -> A -> Z) (x : A) (l : list A) : list A :=
  match l with
  | [] => [x]
  | y :: l => if cmp x y <=? 0 then x :: y :: l else y :: insert_by cmp x l
  end.

Definition insertion_sort {A} (cmp : A -> A -> Z) : list A -> list A := foldr (insert_by cmp) [].

Lemma insert_by_perm {A} (cmp : A -> A -> Z) x l : insert_by cmp x l ≡ₚ x :: l.
Proof.
  induction l as [|y l IH]; simpl; [done|]. destruct (_ <=? _); [done|]. rewrite IH. apply perm_swap.
Qed.

Lemma insertion_sort_perm A (cmp : A -> A -> Z) l : insertion_sort cmp l ≡ₚ l.
Proof. induction l as [|x l IH]; simpl; [done|]. by rewrite insert_by_perm, IH. Qed.

Lemma insert_by_sorted {A} (cmp : A -> A -> Z) x l :
  (forall y, y ∈ l -> cmp x y <= 0 \/ cmp y x <= 0) ->
  (forall a b c, a ∈ x :: l -> b ∈ x :: l -> c ∈ x :: l -> cmp a b <= 0 -> cmp b c <= 0 -> cmp a c <= 0) ->
  ascending cmp l -> ascending cmp (insert_by cmp x l).
Proof.
  intros Htot Htr Hl. induction Hl as [|y l Hl IH Hy]; simpl; [repeat constructor|].
  rewrite List.Forall_forall in Hy.
  destruct (Z.leb_spec (cmp x y) 0) as [Hxy|Hxy].
  - constructor; [by constructor; [|apply List.Forall_forall]|].
    constructor; [done|]. apply List.Forall_forall. intros z Hz.
    apply (Htr x y z); [left|right; left|right; right; by apply list_elem_of_In|done|by apply Hy].
  - constructor.
    + apply IH; [intros z Hz; apply Htot; by right|].
      intros a b c Ha Hb Hc. apply Htr; by apply elem_of_cons; set_solver.
    + apply List.Forall_forall. intros z Hz.
      assert (Hz' : z ∈ x :: l) by (rewrite <- (insert_by_perm cmp x l); by apply list_elem_of_In).
      apply elem_of_cons in Hz' as [-> | Hz']; [|by apply Hy, list_elem_of_In].
      destruct (Htot y ltac:(left)); [lia|done].
Qed.

Lemma insertion_sort_sorted A (cmp : A -> A -> Z) l : consistent cmp l -> ascending cmp (insertion_sort cmp l).
Proof.
  induction l as [|x l IH]; intros Hc; simpl; [constructor|].
  assert (Hin : forall y, y ∈ insertion_sort cmp l <-> y ∈ l)
    by (intros y; by rewrite (insertion_sort_perm A cmp l)).
  apply insert_by_sorted; [| |by apply IH, (consistent_cons _ x)].
  - intros y Hy. apply Hin, list_elem_of_lookup in Hy as [i Hi].
    by apply (co_total _ _ Hc 0%nat (S i)).
  - intros a b c. rewrite !elem_of_cons, !Hin, <- !elem_of_cons. apply Hc.
Qed.

#[export] Instance insertion_qsort : Qsort := {
  qsort := @insertion_sort;
  qsort_perm := insertion_sort_perm;
  qsort_sorted := insertion_sort_sorted
}.
