(* ===== verification/RegAlloc.v ===== *)
(** * Linear-scan register allocation

    Models [src/compiler/codegen/regalloc.c].  [qsort] is the C library's: the
    operation of the class [Qsort].  The pointers of the active
    list are modelled by the intervals they point to, which no longer change
    once they are active.  The theorem: no two intervals that are live at the
    same point share a register, the active list fits its 16 entries, and the
    spill slots are distinct. *)
From S2P Require Import Prelude Sorting.
From Stdlib Require Import Sorting.Sorted.

(** ** Data *)

Definition REG_RAX := 0.
Definition REG_RCX := 1.
Definition REG_RDX := 2.
Definition REG_RBX := 3.
Definition REG_RSI := 4.
Definition REG_RDI := 5.
Definition REG_RBP := 6.
Definition REG_RSP := 7.
Definition REG_R8 := 8.
Definition REG_R9 := 9.
Definition REG_R10 := 10.
Definition REG_R11 := 11.
Definition REG_R12 := 12.
Definition REG_R13 := 13.
Definition REG_R14 := 14.
Definition REG_R15 := 15.
Definition REG_SPILL := -1.

Inductive RegClass := REG_CLASS_GP | REG_CLASS_FLOAT | REG_CLASS_ANY.

Record LiveInterval := mkInterval {
  var_name : string;
  start_pos : Z;
  end_pos : Z;
  assigned_reg : Z;
  spill_slot : Z;
  use_count : Z;
  reg_class : RegClass
}.

Record RegAllocator := mkAllocator {
  intervals : list LiveInterval;
  max_intervals : Z;
  gp_regs_available : list bool;
  fp_regs_available : list bool;
  spill_count : Z;
  spill_slot_size : Z;
  current_pos : Z;
  used_callee_saved_mask : Z
}.

Definition init_regalloc : RegAllocator :=
  mkAllocator [] 64
    (<[Z.to_nat REG_RSP := false]> (<[Z.to_nat REG_RBP := false]> (replicate 16 true)))
    (replicate 16 true) 0 0 0 0.

Definition regalloc_add_interval (a : RegAllocator) (name : string) (start end_ : Z) (class : RegClass)
  : RegAllocator :=
  let max := if max_intervals a <=? Z.of_nat (length (intervals a)) then max_intervals a * 2
             else max_intervals a in
  mkAllocator (intervals a ++ [mkInterval name start end_ REG_SPILL (-1) 0 class]) max
    (gp_regs_available a) (fp_regs_available a) (spill_count a) (spill_slot_size a)
    (current_pos a) (used_callee_saved_mask a).

(** The subtraction of two [int]s, undefined when it overflows. *)
Definition compare_intervals (ia ib : LiveInterval) : option Z := sint32 (start_pos ia - start_pos ib).

(** ** The scan *)

Definition preferred : list Z :=
  [REG_RAX; REG_RCX; REG_RDX; REG_RSI; REG_RDI; REG_R8; REG_R9; REG_R10; REG_R11].
Definition callee_saved : list Z := [REG_RBX; REG_R12; REG_R13; REG_R14; REG_R15].

Definition available (gp : list bool) (reg : Z) : bool := default false (gp !! Z.to_nat reg).

(** State of the main loop. *)
Record scan_state := mkScan {
  gp : list bool; fp : list bool;
  active : list LiveInterval;
  spills : Z; slot_size : Z; mask : Z
}.

Definition release_reg (s : scan_state) (i : LiveInterval) : list bool * list bool :=
  if assigned_reg i =? REG_SPILL then (gp s, fp s)
  else match reg_class i with
       | REG_CLASS_GP => (<[Z.to_nat (assigned_reg i) := true]> (gp s), fp s)
       | REG_CLASS_FLOAT => (gp s, <[Z.to_nat (assigned_reg i) := true]> (fp s))
       | REG_CLASS_ANY => (gp s, fp s)
       end.

(** The expiry loop at index [j]; each turn advances [j] or shortens the
    list, so its length is enough fuel. *)
Fixpoint expire (fuel : nat) (start : Z) (j : nat) (s : scan_state) : scan_state :=
  match fuel, active s !! j with
  | S fuel, Some i =>
      if end_pos i <=? start then
        let '(g, f) := release_reg s i in
        expire fuel start j (mkScan g f (swap_remove j (active s)) (spills s) (slot_size s) (mask s))
      else expire fuel start (S j) s
  | _, _ => s
  end.

Definition with_reg (i : LiveInterval) (reg slot : Z) : LiveInterval :=
  mkInterval (var_name i) (start_pos i) (end_pos i) reg slot (use_count i) (reg_class i).

(** Allocation of one interval: its final form and the new state. *)
Definition allocate (s : scan_state) (cur : LiveInterval) : LiveInterval * scan_state :=
  let take reg m :=
    let i := with_reg cur reg (spill_slot cur) in
    (i, mkScan (<[Z.to_nat reg := false]> (gp s)) (fp s) (active s ++ [i]) (spills s) (slot_size s) m) in
  let spill :=
    (with_reg cur REG_SPILL (spills s),
     mkScan (gp s) (fp s) (active s) (spills s + 1) (slot_size s + 8) (mask s)) in
  match reg_class cur with
  | REG_CLASS_GP =>
      match List.find (available (gp s)) preferred with
      | Some reg => take reg (mask s)
      | None =>
          match List.find (available (gp s)) callee_saved with
          | Some reg => take reg (Z.lor (mask s) (Z.shiftl 1 reg))
          | None => spill
          end
      end
  | _ => spill
  end.

Fixpoint scan (l : list LiveInterval) (s : scan_state) : list LiveInterval * scan_state :=
  match l with
  | [] => ([], s)
  | cur :: l =>
      let s := expire (length (active s)) (start_pos cur) 0 s in
      let '(i, s) := allocate s cur in
      let '(l, s) := scan l s in
      (i :: l, s)
  end.

Section qsort.
Context `{!Qsort}.

Definition regalloc_linear_scan (a : RegAllocator) : option RegAllocator :=
  sorted ← qsort_opt compare_intervals (intervals a);
  let '(l, s) := scan sorted
    (mkScan (gp_regs_available a) (fp_regs_available a) [] (spill_count a) (spill_slot_size a)
       (used_callee_saved_mask a)) in
  Some (mkAllocator l (max_intervals a) (gp s) (fp s) (spills s) (slot_size s) (current_pos a) (mask s)).

End qsort.

(** ** Queries *)

Definition find_interval (a : RegAllocator) (name : string) : option LiveInterval :=
  List.find (fun i => String.eqb (var_name i) name) (intervals a).

Definition regalloc_get_register (a : RegAllocator) (name : string) : Z :=
  match find_interval a name with Some i => assigned_reg i | None => REG_SPILL end.

Definition regalloc_is_spilled (a : RegAllocator) (name : string) : bool :=
  regalloc_get_register a name =? REG_SPILL.

Definition regalloc_get_spill_offset (a : RegAllocator) (name : string) : Z :=
  match find_interval a name with Some i => - ((spill_slot i + 1) * 8) | None => 0 end.

Definition regalloc_free_register (a : RegAllocator) (reg : Z) : RegAllocator :=
  if (0 <=? reg) && (reg <? 16) then
    mkAllocator (intervals a) (max_intervals a) (<[Z.to_nat reg := true]> (gp_regs_available a))
      (fp_regs_available a) (spill_count a) (spill_slot_size a) (current_pos a)
      (used_callee_saved_mask a)
  else a.

Definition regalloc_used_callee_saved_mask (a : option RegAllocator) : Z :=
  match a with Some a => used_callee_saved_mask a | None => 0 end.

(** ** Invariant *)

Definition allocatable (r : Z) : Prop := r ∈ preferred ++ callee_saved.

(** Every active interval holds its own register, marked as taken. *)
Record scan_inv (s : scan_state) : Prop := {
  si_len : length (gp s) = 16%nat;
  si_held : forall a, a ∈ active s ->
    allocatable (assigned_reg a) /\ available (gp s) (assigned_reg a) = false /\
    reg_class a = REG_CLASS_GP;
  si_nodup : NoDup (assigned_reg <$> active s)
}.

Lemma allocatable_range r : allocatable r -> 0 <= r < 16 /\ r <> REG_SPILL /\ r <> REG_RBP /\ r <> REG_RSP.
Proof.
  unfold allocatable, preferred, callee_saved. rewrite elem_of_app, !elem_of_cons, !elem_of_nil.
  unfold REG_RAX, REG_RCX, REG_RDX, REG_RBX, REG_RSI, REG_RDI, REG_RBP, REG_RSP, REG_R8, REG_R9,
    REG_R10, REG_R11, REG_R12, REG_R13, REG_R14, REG_R15, REG_SPILL. lia.
Qed.

Lemma available_insert g r r' b :
  0 <= r < 16 -> 0 <= r' -> length g = 16%nat ->
  available (<[Z.to_nat r := b]> g) r' = if decide (r = r') then b else available g r'.
Proof.
  intros Hr Hr' Hl. unfold available. destruct (decide (r = r')) as [<-|Hne].
  - by rewrite list_lookup_insert_eq by lia.
  - rewrite list_lookup_insert_ne by lia. done.
Qed.

(** What the expiry loop did. *)
Record expired (start : Z) (s s' : scan_state) : Prop := {
  ex_inv : scan_inv s';
  ex_sub : forall a, a ∈ active s' -> a ∈ active s;
  ex_keep : forall a, a ∈ active s -> start < end_pos a -> a ∈ active s';
  ex_free : forall r, allocatable r -> available (gp s') r = true ->
    available (gp s) r = true \/ exists a, a ∈ active s /\ end_pos a <= start /\ assigned_reg a = r;
  ex_spills : spills s' = spills s
}.

Lemma expired_refl start s : scan_inv s -> expired start s s.
Proof. intros H. split; auto. Qed.

Lemma expire_one start s j i :
  scan_inv s -> active s !! j = Some i -> end_pos i <= start ->
  expired start s (let '(g, f) := release_reg s i in
    mkScan g f (swap_remove j (active s)) (spills s) (slot_size s) (mask s)).
Proof.
  intros [Hl Hh Hnd] Hj He. pose proof (list_elem_of_lookup_2 _ _ _ Hj) as Hi.
  destruct (Hh i Hi) as (Ha & Hav & Hc). destruct (allocatable_range _ Ha) as (Hr & Hs & _).
  pose proof (swap_remove_perm _ _ _ Hj) as Hp.
  assert (Hnd' : NoDup (assigned_reg <$> i :: swap_remove j (active s))) by (by rewrite Hp).
  apply list.NoDup_cons in Hnd' as [Hni Hnd'].
  unfold release_reg. rewrite (proj2 (Z.eqb_neq _ _) Hs), Hc.
  split; simpl.
  - split; simpl; [by rewrite length_insert| |done]. intros a Hin.
    assert (Hin' : a ∈ active s) by (rewrite <- Hp; by right).
    destruct (Hh a Hin') as (Ha' & Hav' & Hc'). destruct (allocatable_range _ Ha') as (Hr' & _).
    split_and!; [done| |done]. rewrite available_insert by (done || lia).
    destruct (decide _) as [Heq|]; [|done]. destruct Hni. rewrite Heq. by apply list_elem_of_fmap_2.
  - intros a Hin. rewrite <- Hp. by right.
  - intros a Hin Hend. rewrite <- Hp in Hin. apply elem_of_cons in Hin as [-> | Hin]; [lia|done].
  - intros r Hra Hav'. destruct (allocatable_range _ Hra) as (Hrr & _).
    rewrite available_insert in Hav' by (done || lia).
    destruct (decide _) as [<-|]; [right; eauto|by left].
  - done.
Qed.

Lemma expired_trans start s1 s2 s3 : expired start s1 s2 -> expired start s2 s3 -> expired start s1 s3.
Proof.
  intros [I1 Sub1 K1 F1 P1] [I2 Sub2 K2 F2 P2]. split; auto; [|congruence].
  intros r Hr Hav. destruct (F2 r Hr Hav) as [Hav'|(a & Ha & He & Hreg)]; [auto|right; eauto].
Qed.

Lemma expire_spec fuel start : forall j s,
  scan_inv s -> (length (active s) - j <= fuel)%nat ->
  (forall k a, (k < j)%nat -> active s !! k = Some a -> start < end_pos a) ->
  let s' := expire fuel start j s in
  expired start s s' /\ forall a, a ∈ active s' -> start < end_pos a.
Proof.
  induction fuel as [|fuel IH]; intros j s Hinv Hf Hpre; simpl.
  { split; [by apply expired_refl|]. intros a [k Hk]%list_elem_of_lookup.
    apply (Hpre k); [|done]. apply lookup_lt_Some in Hk. lia. }
  destruct (active s !! j) as [i|] eqn:Hj.
  2: { split; [by apply expired_refl|]. intros a [k Hk]%list_elem_of_lookup.
       apply (Hpre k); [|done]. apply lookup_ge_None in Hj. apply lookup_lt_Some in Hk. lia. }
  destruct (Z.leb_spec (end_pos i) start) as [He|He].
  - pose proof (expire_one start s j i Hinv Hj He) as H1.
    destruct (release_reg s i) as [g f]. destruct (IH j _ (ex_inv _ _ _ H1)) as [H2 H3]; simpl.
    + pose proof (Permutation_length (swap_remove_perm _ _ _ Hj)) as Hlen. simpl in Hlen.
      apply lookup_lt_Some in Hj. lia.
    + intros k a Hk Ha. unfold swap_remove in Ha.
      destruct (list.last (active s)) as [z|] eqn:Hlast; [|by eapply Hpre].
      rewrite lookup_take in Ha. destruct (decide _); [|done].
      rewrite list_lookup_insert_ne in Ha by lia. by eapply Hpre.
    + split; [by eapply expired_trans|done].
  - apply IH; [done|lia|]. intros k a Hk Ha. destruct (decide (k = j)) as [->|]; [congruence|].
    apply (Hpre k); [lia|done].
Qed.

(** The parts of an interval the scan does not change. *)
Definition same_interval (i i' : LiveInterval) : Prop :=
  var_name i' = var_name i /\ start_pos i' = start_pos i /\ end_pos i' = end_pos i /\
  reg_class i' = reg_class i.

Inductive allocated (s : scan_state) (cur i : LiveInterval) (s' : scan_state) : Prop :=
| alloc_reg : allocatable (assigned_reg i) -> available (gp s) (assigned_reg i) = true ->
    active s' = active s ++ [i] -> spills s' = spills s -> reg_class cur = REG_CLASS_GP ->
    allocated s cur i s'
| alloc_spill : assigned_reg i = REG_SPILL -> active s' = active s -> spill_slot i = spills s ->
    spills s' = spills s + 1 ->
    (reg_class cur = REG_CLASS_GP -> forall r, allocatable r -> available (gp s) r = false) ->
    allocated s cur i s'.

Lemma take_inv s cur reg m :
  scan_inv s -> allocatable reg -> available (gp s) reg = true -> reg_class cur = REG_CLASS_GP ->
  scan_inv (mkScan (<[Z.to_nat reg := false]> (gp s)) (fp s)
              (active s ++ [with_reg cur reg (spill_slot cur)]) (spills s) (slot_size s) m).
Proof.
  intros [Hl Hh Hnd] Hr Hav Hc. destruct (allocatable_range _ Hr) as (Hrr & _).
  split; simpl.
  - by rewrite length_insert.
  - intros a [Ha | ->%list_elem_of_singleton]%elem_of_app; simpl.
    + destruct (Hh a Ha) as (Ha1 & Ha2 & Ha3). destruct (allocatable_range _ Ha1) as (Hra & _).
      split_and!; [done| |done]. rewrite available_insert by (done || lia). by destruct (decide _).
    + split_and!; [done| |done]. rewrite available_insert by (done || lia). by rewrite decide_True.
  - rewrite fmap_app. apply list.NoDup_app. split_and!; [done| |apply list.NoDup_singleton].
    intros r (a & -> & Ha)%list_elem_of_fmap Heq%list_elem_of_singleton.
    simpl in *. destruct (Hh a Ha) as (_ & Hav' & _). congruence.
Qed.

Lemma find_none_all g l : List.find (available g) l = None -> forall r, r ∈ l -> available g r = false.
Proof. intros H r Hr. eapply find_none; [exact H|by apply list_elem_of_In]. Qed.

Lemma allocate_spec s cur i s' :
  scan_inv s -> allocate s cur = (i, s') ->
  scan_inv s' /\ same_interval cur i /\ allocated s cur i s'.
Proof.
  intros Hinv. unfold allocate.
  assert (Hsp : (reg_class cur = REG_CLASS_GP -> forall r, allocatable r -> available (gp s) r = false) ->
    (with_reg cur REG_SPILL (spills s),
     mkScan (gp s) (fp s) (active s) (spills s + 1) (slot_size s + 8) (mask s)) = (i, s') ->
    scan_inv s' /\ same_interval cur i /\ allocated s cur i s').
  { intros Hall [= <- <-]. split_and!; [by destruct Hinv|done|]. by apply alloc_spill. }
  destruct (reg_class cur) eqn:Hc; [|by apply Hsp..].
  assert (Htk : forall reg l m, List.find (available (gp s)) l = Some reg ->
    (forall r, r ∈ l -> allocatable r) ->
    (with_reg cur reg (spill_slot cur), mkScan (<[Z.to_nat reg := false]> (gp s)) (fp s)
       (active s ++ [with_reg cur reg (spill_slot cur)]) (spills s) (slot_size s) m) = (i, s') ->
    scan_inv s' /\ same_interval cur i /\ allocated s cur i s').
  { intros reg l m [Hin Hav]%find_some Hl [= <- <-]. apply list_elem_of_In, Hl in Hin.
    split_and!; [by apply take_inv|done|]. by apply alloc_reg. }
  destruct (List.find _ preferred) eqn:Hp.
  - apply (Htk z preferred _ Hp). intros r Hr. apply elem_of_app. by left.
  - destruct (List.find _ callee_saved) eqn:Hs.
    + apply (Htk z callee_saved _ Hs). intros r Hr. apply elem_of_app. by right.
    + apply Hsp. intros _ r [Hr | Hr]%elem_of_app.
      * exact (find_none_all _ _ Hp r Hr).
      * exact (find_none_all _ _ Hs r Hr).
Qed.

(** ** The result of the scan *)

(** Two intervals with the same register do not overlap. *)
Definition no_clash (l : list LiveInterval) : Prop :=
  forall i j a b, (i < j)%nat -> l !! i = Some a -> l !! j = Some b ->
    assigned_reg a = assigned_reg b -> assigned_reg a <> REG_SPILL -> end_pos a <= start_pos b.

Lemma strongly_sorted_app {A} (R : A -> A -> Prop) l1 l2 : StronglySorted R (l1 ++ l2) -> StronglySorted R l1.
Proof.
  induction l1 as [|x l1 IH]; [constructor|]. simpl. intros [Hs Hx]%StronglySorted_inv.
  constructor; [by apply IH|]. by apply Forall_app in Hx as [Hx _].
Qed.

Definition by_start (a b : LiveInterval) : Prop := start_pos a <= start_pos b.

(** The intervals already placed, seen from those still to come. *)
Definition placed (s : scan_state) (d l : list LiveInterval) : Prop :=
  forall x, x ∈ d -> assigned_reg x <> REG_SPILL ->
    allocatable (assigned_reg x) /\ (x ∈ active s \/ forall y, y ∈ l -> end_pos x <= start_pos y).

Lemma no_clash_snoc d i :
  no_clash d ->
  (forall x, x ∈ d -> assigned_reg x = assigned_reg i -> assigned_reg x <> REG_SPILL ->
     end_pos x <= start_pos i) ->
  no_clash (d ++ [i]).
Proof.
  intros Hd Hi a b x y Hab Ha Hb Heq Hs.
  destruct (decide (b < length d)%nat).
  - rewrite lookup_app_l in Ha by lia. rewrite lookup_app_l in Hb by lia.
    exact (Hd a b x y Hab Ha Hb Heq Hs).
  - rewrite lookup_app_r in Hb by lia.
    destruct (b - length d)%nat eqn:E; simpl in Hb; [|done]. injection Hb as <-.
    rewrite lookup_app_l in Ha by lia. apply Hi; [by eapply list_elem_of_lookup_2|done|done].
Qed.

Definition spilled (l : list LiveInterval) : list LiveInterval :=
  List.filter (fun i => assigned_reg i =? REG_SPILL) l.

Lemma spilled_cons i l :
  spilled (i :: l) = if assigned_reg i =? REG_SPILL then i :: spilled l else spilled l.
Proof. reflexivity. Qed.

Lemma scan_spec l : forall d s l' s',
  StronglySorted by_start l -> scan_inv s -> no_clash d -> placed s d l -> scan l s = (l', s') ->
  no_clash (d ++ l') /\ scan_inv s' /\ Forall2 same_interval l l' /\
  Forall (fun i => assigned_reg i = REG_SPILL \/ allocatable (assigned_reg i)) l' /\
  spill_slot <$> spilled l' = seqZ (spills s) (spills s' - spills s) /\ spills s <= spills s'.
Proof.
  induction l as [|cur l IH]; intros d s l' s' Hsort Hinv Hd Hpl H; cbn [scan] in H.
  { injection H as <- <-. rewrite app_nil_r, Z.sub_diag. split_and!; try done; constructor. }
  apply StronglySorted_inv in Hsort as [Hsort Hcur].
  destruct (expire_spec (length (active s)) (start_pos cur) 0 s Hinv) as [Hex Hend]; [lia|intros; lia|].
  set (s1 := expire _ _ _ s) in *. destruct (allocate s1 cur) as [i s2] eqn:Hal.
  destruct (scan l s2) as [l2 s3] eqn:Hsc. injection H as <- <-.
  destruct (allocate_spec s1 cur i s2 (ex_inv _ _ _ Hex) Hal) as (Hinv2 & Hsame & Hcase).
  assert (Hle : forall y, y ∈ l -> start_pos cur <= start_pos y).
  { intros y Hy. rewrite List.Forall_forall in Hcur. by apply Hcur, list_elem_of_In. }
  assert (Hpl2 : placed s2 (d ++ [i]) l /\ forall x, x ∈ d -> assigned_reg x = assigned_reg i ->
            assigned_reg x <> REG_SPILL -> end_pos x <= start_pos i).
  { assert (Hold : forall x, x ∈ d -> assigned_reg x <> REG_SPILL ->
              allocatable (assigned_reg x) /\ (x ∈ active s1 \/ end_pos x <= start_pos cur)).
    { intros x Hx Hs. destruct (Hpl x Hx Hs) as [Har [Hin|Hall]].
      - split; [done|]. destruct (Z_lt_le_dec (start_pos cur) (end_pos x)); [left|by right].
        by apply (ex_keep _ _ _ Hex).
      - split; [done|]. right. apply Hall. left. }
    destruct Hsame as (_ & Hst & _ & _). split.
    - intros x [Hx | ->%list_elem_of_singleton]%elem_of_app Hs.
      + destruct (Hold x Hx Hs) as [Har [Hin|He]]; (split; [done|]).
        * left. destruct Hcase as [_ _ -> _ _|_ -> _ _ _]; [apply elem_of_app; by left|done].
        * right. intros y Hy%Hle. lia.
      + destruct Hcase as [Har _ -> _ _|? _ _ _ _]; [|done].
        split; [done|]. left. apply elem_of_app. right. by apply list_elem_of_singleton.
    - intros x Hx Heq Hs. destruct (Hold x Hx Hs) as [_ [Hin|He]]; [|lia].
      destruct Hcase as [_ Hav _ _ _|? _ _ _ _]; [|congruence].
      destruct (si_held _ (ex_inv _ _ _ Hex) x Hin) as (_ & Hno & _). congruence. }
  destruct Hpl2 as [Hpl2 Hclash].
  destruct (IH (d ++ [i]) s2 l2 s3) as (Hnc & Hinv3 & Hf & Hreg & Hsl & Hsp);
    [done|done|by apply no_clash_snoc|done|done|].
  rewrite <- app_assoc in Hnc. split_and!; [done|done|by constructor| | |].
  - constructor; [|done]. destruct Hcase; [by right|by left].
  - rewrite spilled_cons. destruct Hcase as [Har _ _ Hs2 _|Hr _ Hsl2 Hs2 _].
    + destruct (allocatable_range _ Har) as (_ & Hne & _). rewrite (proj2 (Z.eqb_neq _ _) Hne), Hsl.
      rewrite Hs2, (ex_spills _ _ _ Hex). done.
    + rewrite Hr, Z.eqb_refl, fmap_cons, Hsl, Hsl2, Hs2, (ex_spills _ _ _ Hex).
      rewrite (seqZ_cons (spills s)) by (rewrite <- (ex_spills _ _ _ Hex); lia).
      f_equal. f_equal; lia.
  - rewrite <- (ex_spills _ _ _ Hex). destruct Hcase; lia.
Qed.

Lemma active_bound s : scan_inv s -> (length (active s) <= 14)%nat.
Proof.
  intros [_ Hh Hnd]. rewrite <- (length_fmap assigned_reg).
  change 14%nat with (length (preferred ++ callee_saved)).
  apply submseteq_length, NoDup_submseteq; [done|].
  intros r (a & -> & Ha)%list_elem_of_fmap. by apply Hh.
Qed.

Lemma init_inv : scan_inv (mkScan (gp_regs_available init_regalloc) (fp_regs_available init_regalloc)
                             [] 0 0 0).
Proof. split; [done| |constructor]. intros a Ha. by apply not_elem_of_nil in Ha. Qed.

(** ** The allocation is correct *)

Section correct.
Context `{!Qsort}.

(** A program position: a nonnegative [int]. *)
Definition position (p : Z) : Prop := 0 <= p < 2 ^ 31.

(** On positions the comparison is defined and orders by the start. *)
Lemma sorted_by_start l :
  Forall (fun i => position (start_pos i)) l ->
  exists l', qsort_opt compare_intervals l = Some l' /\ l' ≡ₚ l /\ StronglySorted by_start l'.
Proof.
  intros Hpos. apply qsort_opt_by_key. intros a b Ha%list_elem_of_In Hb%list_elem_of_In. rewrite List.Forall_forall in Hpos.
  pose proof (Hpos a Ha) as Hpa. pose proof (Hpos b Hb) as Hpb. unfold position in *.
  exists (start_pos a - start_pos b). split; [|lia]. unfold compare_intervals, sint32, in_s32, INT32_MIN, INT32_MAX.
  destruct (Z.leb_spec (-2 ^ 31) (start_pos a - start_pos b)), (Z.leb_spec (start_pos a - start_pos b) (2 ^ 31 - 1)); try done; lia.
Qed.

(** C20: linear scan is a correct allocation.  Starting from
    [init_regalloc], whatever intervals were added, with start positions that
    are nonnegative ints (a negative one can make the subtraction of the
    comparison overflow): the scan is defined; the result lists the same
    intervals; two of them that are live at a common position never hold the
    same register; only the fourteen allocatable registers are handed out,
    never the stack or frame pointer; the spilled intervals own the slots 0, 1,
    ..., [spill_count - 1], one each; and after any prefix of the sorted array
    the active list has at most 14 of its 16 entries in use. *)
Theorem linear_scan_correct a
  (Hgp : gp_regs_available a = gp_regs_available init_regalloc) (Hsp : spill_count a = 0)
  (Hpos : Forall (fun i => position (start_pos i)) (intervals a)) :
  exists r sorted,
    regalloc_linear_scan a = Some r /\ qsort_opt compare_intervals (intervals a) = Some sorted /\
    sorted ≡ₚ intervals a /\ Forall2 same_interval sorted (intervals r) /\
    no_clash (intervals r) /\
    Forall (fun i => assigned_reg i = REG_SPILL \/
              allocatable (assigned_reg i) /\ assigned_reg i <> REG_RSP /\ assigned_reg i <> REG_RBP)
      (intervals r) /\
    spill_slot <$> spilled (intervals r) = seqZ 0 (spill_count r) /\
    forall l1 l2, sorted = l1 ++ l2 ->
      (length (active (snd (scan l1 (mkScan (gp_regs_available a) (fp_regs_available a) [] 0
         (spill_slot_size a) (used_callee_saved_mask a))))) <= 14)%nat.
Proof.
  destruct (sorted_by_start (intervals a) Hpos) as (sorted & Hq & Hperm & Hs).
  unfold regalloc_linear_scan. rewrite Hq, Hsp. cbn [mbind option_bind].
  set (s0 := mkScan (gp_regs_available a) _ _ _ _ _).
  assert (Hinv0 : scan_inv s0).
  { split; simpl; [by rewrite Hgp| |constructor]. intros x Hx. by apply not_elem_of_nil in Hx. }
  assert (Hpl : forall l, placed s0 [] l) by (intros l x Hx; by apply not_elem_of_nil in Hx).
  assert (Hnc0 : no_clash []) by (intros i j x y _ Hx; done).
  destruct (scan sorted s0) as [l s] eqn:Hscan. eexists _, sorted. split; [done|]. simpl.
  destruct (scan_spec _ [] s0 l s Hs Hinv0 Hnc0 (Hpl _) Hscan) as (Hnc & Hinv & Hf & Hreg & Hsl & Hle).
  split_and!; [done|done|done|done| | |].
  - eapply Forall_impl; [|exact Hreg]. intros i [?|Ha]; [by left|right].
    destruct (allocatable_range _ Ha) as (_ & _ & ? & ?). done.
  - rewrite Hsl. simpl. f_equal. lia.
  - intros l1 l2 ->. destruct (scan l1 s0) as [l1' s1] eqn:H1. simpl. apply active_bound.
    by destruct (scan_spec l1 [] s0 l1' s1 (strongly_sorted_app _ _ _ Hs) Hinv0 Hnc0 (Hpl _) H1) as (_ & ? & _).
Qed.

End correct.

(** ** Witness *)

Definition ex_alloc : RegAllocator :=
  regalloc_add_interval (regalloc_add_interval (regalloc_add_interval init_regalloc
    "b" 4 9 REG_CLASS_GP) "f" 1 6 REG_CLASS_FLOAT) "a" 0 5 REG_CLASS_GP.

(** Two start positions further apart than an [int] holds. *)
Example far_apart_undefined :
  regalloc_linear_scan (regalloc_add_interval (regalloc_add_interval init_regalloc
    "a" (-1) 5 REG_CLASS_GP) "b" INT32_MAX 9 REG_CLASS_GP) = None.
Proof. reflexivity. Qed.

Lemma linear_scan_correct_witness :
  exists r sorted, regalloc_linear_scan ex_alloc = Some r /\
    qsort_opt compare_intervals (intervals ex_alloc) = Some sorted /\
    map assigned_reg (intervals r) = [REG_RAX; REG_SPILL; REG_RCX] /\ no_clash (intervals r).
Proof.
  destruct (linear_scan_correct ex_alloc) as (r & sorted & Hr & Hq & _ & _ & Hn & _);
    [reflexivity|reflexivity|repeat constructor; done|].
  exists r, sorted. split_and!; [exact Hr|exact Hq| |exact Hn]. vm_compute in Hr. by injection Hr as <-.
Defined.
