(* ===== verification/SupportArena.v ===== *)
(** * The block arena of the compiler

    [src/support/arena.c]: bump allocation in a chain of blocks, with reset
    and scopes.  A block's memory is named by the region [malloc] returned, a
    pointer is a region and an offset; the bytes are not modelled.  [malloc]'s
    answer to a request for a block is the argument [mem]: a region, or [None]
    when memory is exhausted. *)
From S2P Require Import Prelude.

Definition ARENA_BLOCK_SIZE : Z := 64 * 1024.
Definition ARENA_ALIGNMENT : Z := 16.

Record ArenaBlock := mkBlock { memory : Z; bsize : Z; used : Z }.

(** [blocks] is the chain from [first_block]; [current] the place in it of
    [current_block]. *)
Record Arena := mkArena {
  blocks : list ArenaBlock; current : nat;
  total_allocated : Z; total_used : Z; block_count : Z; generation : Z
}.

Definition ptr : Type := Z * Z.

Definition align_size (size alignment : Z) : Z :=
  Z.land (u64 (size + alignment - 1)) (u64 (Z.lnot (alignment - 1))).

Definition create_block (min_size : Z) (mem : option Z) : option ArenaBlock :=
  match mem with
  | None => None
  | Some r => Some (mkBlock r (if ARENA_BLOCK_SIZE <? min_size then min_size else ARENA_BLOCK_SIZE) 0)
  end.

(** [generation] is not assigned: it keeps what the memory held. *)
Definition arena_create (mem : option Z) (garbage : Z) : option Arena :=
  match create_block ARENA_BLOCK_SIZE mem with
  | None => None
  | Some b => Some (mkArena [b] 0 ARENA_BLOCK_SIZE 0 1 garbage)
  end.

Definition set_used (u : Z) (b : ArenaBlock) : ArenaBlock := mkBlock (memory b) (bsize b) u.

(** [block->used = u; arena->total_used += n] *)
Definition bump (a : Arena) (u n : Z) : Arena :=
  mkArena (alter (set_used u) (current a) (blocks a)) (current a) (total_allocated a)
    (u64 (total_used a + n)) (block_count a) (generation a).

(** The new block follows the current one; what followed it is dropped. *)
Definition push_block (a : Arena) (b : ArenaBlock) (n : Z) : Arena :=
  mkArena (take (S (current a)) (blocks a) ++ [set_used n b]) (S (current a))
    (u64 (total_allocated a + bsize b)) (u64 (total_used a + n)) (u64 (block_count a + 1)) (generation a).

Definition arena_alloc (a : Arena) (size : Z) (mem : option Z) : outcome (Arena * option ptr) :=
  if size =? 0 then Ok (a, None) else
  let size := align_size size ARENA_ALIGNMENT in
  let! block := of_option (blocks a !! current a) in
  if (used block <=? bsize block) && (size <=? bsize block - used block)
  then Ok (bump a (u64 (used block + size)) size, Some (memory block, used block))
  else match create_block size mem with
       | None => Ok (a, None)
       | Some b => Ok (push_block a b size, Some (memory b, 0))
       end.

(** The assertion that [alignment] is a power of two is a precondition. *)
Definition arena_alloc_aligned (a : Arena) (size alignment : Z) (mem : option Z) : outcome (Arena * option ptr) :=
  if negb ((0 <? alignment) && (Z.land alignment (alignment - 1) =? 0)) then Undef else
  let! block := of_option (blocks a !! current a) in
  let aligned_used := align_size (used block) alignment in
  let pad := u64 (aligned_used - used block) in
  if (aligned_used <=? bsize block) && (size <=? bsize block - aligned_used)
  then Ok (bump a (u64 (aligned_used + size)) (u64 (pad + size)), Some (memory block, aligned_used))
  else
    let alloc_size := align_size size alignment in
    match create_block alloc_size mem with
    | None => Ok (a, None)
    | Some b => Ok (push_block a b alloc_size, Some (memory b, 0))
    end.

(** Also the number of bytes that are set to zero at the pointer. *)
Definition arena_calloc (a : Arena) (count size : Z) (mem : option Z) : outcome (Arena * option (ptr * Z)) :=
  let total := u64 (count * size) in
  let! r := arena_alloc a total mem in
  Ok (r.1, (fun p => (p, total)) <$> r.2).

(** The bytes of the string and its terminating zero go to the pointer. *)
Definition arena_strdup (a : Arena) (strlen : option Z) (mem : option Z) : outcome (Arena * option (ptr * Z)) :=
  match strlen with
  | None => Ok (a, None)
  | Some n =>
      let len := u64 (n + 1) in
      let! r := arena_alloc a len mem in
      Ok (r.1, (fun p => (p, len)) <$> r.2)
  end.

Definition arena_reset (a : Arena) : Arena :=
  mkArena (map (set_used 0) (blocks a)) 0 (total_allocated a) 0 (block_count a) (u32 (generation a + 1)).

(** The regions given back to [free]. *)
Definition arena_destroy (a : Arena) : list Z := map memory (blocks a).

Definition arena_stats (a : Arena) : Z * Z * Z := (total_allocated a, total_used a, block_count a).

Record ArenaScope := mkScope { saved_block : nat; saved_used : Z }.

Definition arena_scope_begin (a : Arena) : outcome ArenaScope :=
  let! b := of_option (blocks a !! current a) in Ok (mkScope (current a) (used b)).

(** One iteration of the loop that frees the blocks after the saved one. *)
Definition free_block (b : ArenaBlock) (a : Arena) : Arena :=
  mkArena (blocks a) (current a) (u64 (total_allocated a - bsize b)) (total_used a)
    (u64 (block_count a - 1)) (generation a).

(** The arena and the regions given back to [free]. *)
Definition arena_scope_end (a : Arena) (s : ArenaScope) : outcome (Arena * list Z) :=
  let! block := of_option (blocks a !! saved_block s) in
  let rest := drop (S (saved_block s)) (blocks a) in
  let a := foldl (fun a b => free_block b a) a rest in
  if used block <? saved_used s then Undef else
  let freed := used block - saved_used s in
  Ok (mkArena (alter (set_used (saved_used s)) (saved_block s) (take (S (saved_block s)) (blocks a)))
        (saved_block s) (total_allocated a) (u64 (total_used a - freed)) (block_count a) (generation a),
      map memory rest).
