(* ===== verification/SupportArenaFacts.v ===== *)
(** * The block arena hands out disjoint memory *)
From S2P Require Import Prelude SupportArena.

(** A range of bytes: region, offset, length. *)
Record range := mkRange { region : Z; offset : Z; len : Z }.

Definition apart (r s : range) : Prop :=
  region r <> region s \/ offset r + len r <= offset s \/ offset s + len s <= offset r.

Record arena_wf (a : Arena) : Prop := {
  aw_current : (current a < length (blocks a))%nat;
  aw_block : forall i b, blocks a !! i = Some b -> 0 <= used b <= bsize b /\ bsize b < 2 ^ 62;
  aw_ids : base.NoDup (map memory (blocks a))
}.

(** [r] lies in the part of a block, up to the current one, that is in use. *)
Definition inside (a : Arena) (r : range) : Prop :=
  exists i b, (i <= current a)%nat /\ blocks a !! i = Some b /\ memory b = region r /\
    0 <= offset r /\ 0 <= len r /\ offset r + len r <= used b.

Record live (a : Arena) (L : list range) : Prop := {
  lv_inside : forall r, r ∈ L -> inside a r;
  lv_apart : ForallOrdPairs apart L
}.

(** The two kinds of request. *)
Inductive request := Alloc (size : Z) | Aligned (size alignment : Z).

Definition serve (a : Arena) (q : request) (mem : option Z) : outcome (Arena * option ptr) :=
  match q with
  | Alloc n => arena_alloc a n mem
  | Aligned n al => arena_alloc_aligned a n al mem
  end.

Definition req_size (q : request) : Z := match q with Alloc n | Aligned n _ => n end.
Definition req_align (q : request) : Z := match q with Alloc _ => ARENA_ALIGNMENT | Aligned _ al => al end.

Definition req_ok (q : request) : Prop :=
  0 < req_size q < 2 ^ 61 /\ exists k, 0 <= k <= 12 /\ req_align q = 2 ^ k.

Definition fresh_in (a : Arena) (mem : option Z) : Prop := forall r, mem = Some r -> r ∉ map memory (blocks a).

Lemma align_size_spec v k : 0 <= v < 2 ^ 62 -> 0 <= k <= 12 ->
  align_size v (2 ^ k) = round_up v (2 ^ k) /\ v <= round_up v (2 ^ k) < v + 4096 /\ round_up v (2 ^ k) mod 2 ^ k = 0.
Proof.
  intros Hv Hk. assert (1 <= 2 ^ k <= 4096) as Hp.
  { split; [|apply (Z.pow_le_mono_r 2 k 12); lia]. pose proof (Z.pow_pos_nonneg 2 k). lia. }
  split; [apply (align_word v _ k); word_lia|]. destruct (round_up_spec v (2 ^ k)) as [H1 H2]; [lia|]. split; [lia|done].
Qed.

Lemma land_pow2 k : 0 <= k -> Z.land (2 ^ k) (2 ^ k - 1) = 0.
Proof.
  intros Hk. replace (2 ^ k - 1) with (Z.ones k) by (rewrite Z.ones_equiv; lia).
  rewrite Z.land_ones by done. apply Z.mod_same. pose proof (Z.pow_pos_nonneg 2 k). lia.
Qed.

(** Both kinds of request bump the current block or open a new one; both
    allocate [n] bytes at the offset [o] of a block with [base] bytes in use. *)
Variant served (a : Arena) (q : request) (mem : option Z) : outcome (Arena * option ptr) -> Prop :=
| sv_bump b o n w :
    w = o + n - used b -> blocks a !! current a = Some b -> used b <= o -> req_size q <= n -> o + n <= bsize b ->
    o mod req_align q = 0 \/ q = Alloc (req_size q) ->
    served a q mem (Ok (bump a (o + n) w, Some (memory b, o)))
| sv_fail : mem = None -> served a q mem (Ok (a, None))
| sv_push b r n :
    mem = Some r -> b = mkBlock r (Z.max ARENA_BLOCK_SIZE n) 0 -> req_size q <= n < 2 ^ 62 ->
    served a q mem (Ok (push_block a b n, Some (r, 0))).

Lemma create_block_spec n r : create_block n (Some r) = Some (mkBlock r (Z.max ARENA_BLOCK_SIZE n) 0).
Proof. unfold create_block. do 2 f_equal. destruct (Z.ltb_spec ARENA_BLOCK_SIZE n); lia. Qed.

Lemma serve_served a q mem : arena_wf a -> req_ok q -> served a q mem (serve a q mem).
Proof.
  intros Hwf [Hs (k & Hk & Hal)]. destruct (lookup_lt_is_Some_2 _ _ (aw_current _ Hwf)) as [b Hb].
  destruct (aw_block _ Hwf _ _ Hb) as [Hu Hbs].
  destruct q as [n|n al]; simpl in *; unfold arena_alloc, arena_alloc_aligned.
  - destruct (Z.eqb_spec n 0); [lia|]. rewrite Hb. cbn [of_option obind].
    destruct (align_size_spec n k) as (Ha & Hr & _); [lia|done|]. rewrite Hal, Ha.
    set (m := round_up n (2 ^ k)) in *. destruct (Z.leb_spec (used b) (bsize b)); [|lia].
    destruct (Z.leb_spec m (bsize b - used b)); simpl.
    + rewrite u64_small by word_lia. eapply sv_bump; simpl; try done; [lia..|by right].
    + destruct mem as [r|]; [|by apply sv_fail]. rewrite create_block_spec. eapply sv_push; simpl; try done. lia.
  - subst al. rewrite land_pow2 by lia. assert (0 < 2 ^ k) by (apply Z.pow_pos_nonneg; lia).
    destruct (Z.ltb_spec 0 (2 ^ k)); [|lia]. cbn [andb negb Z.eqb]. rewrite Hb. cbn [of_option obind].
    destruct (align_size_spec (used b) k) as (Ha & Hr & Hm); [lia|done|]. rewrite Ha.
    destruct (align_size_spec n k) as (Ha' & Hr' & _); [lia|done|]. rewrite Ha'.
    destruct (Z.leb_spec (round_up (used b) (2 ^ k)) (bsize b)); cbn [andb].
    + destruct (Z.leb_spec n (bsize b - round_up (used b) (2 ^ k))).
      * rewrite (u64_small (round_up (used b) (2 ^ k) + n)), (u64_small (_ - _)), (u64_small (_ - _ + _)) by word_lia.
        eapply sv_bump; simpl; try done; [lia..|by left].
      * destruct mem as [r|]; [|by apply sv_fail]. rewrite create_block_spec. eapply sv_push; simpl; try done. lia.
    + destruct mem as [r|]; [|by apply sv_fail]. rewrite create_block_spec. eapply sv_push; simpl; try done. lia.
Qed.

(** ** One request *)

Lemma bump_lookup a u w i : blocks (bump a u w) !! i =
  if decide (i = current a) then set_used u <$> blocks a !! i else blocks a !! i.
Proof. simpl. case_decide; [subst; apply list_lookup_alter_eq|by apply list_lookup_alter_ne]. Qed.

Lemma bump_memory a u w : map memory (blocks (bump a u w)) = map memory (blocks a).
Proof.
  apply list_eq. intros i. rewrite !list_lookup_fmap, bump_lookup. case_decide; [|done].
  by destruct (blocks a !! i).
Qed.

Lemma wf_bump a b u w : arena_wf a -> blocks a !! current a = Some b -> 0 <= u <= bsize b -> arena_wf (bump a u w).
Proof.
  intros [Hc Hb Hi] Hbl Hu. constructor.
  - simpl. by rewrite length_alter.
  - intros i x. rewrite bump_lookup. case_decide as E; [|apply Hb]. subst i. rewrite Hbl. intros [= <-].
    simpl. specialize (Hb _ _ Hbl). lia.
  - by rewrite bump_memory.
Qed.

Lemma wf_push a b w : arena_wf a -> memory b ∉ map memory (blocks a) -> 0 <= w <= bsize b -> bsize b < 2 ^ 62 ->
  arena_wf (push_block a b w).
Proof.
  intros [Hc Hb Hi] Hf Hw Hs. constructor; cbn [blocks push_block current].
  - rewrite length_app, length_take. cbn [length]. lia.
  - intros i x [Hx|[_ Hx]]%lookup_app_Some.
    + apply lookup_take_Some in Hx as [Hx _]. by apply (Hb i).
    + apply list_lookup_singleton_Some in Hx as [_ <-]. simpl. lia.
  - change (map memory) with (fmap (M := list) memory) in *. rewrite fmap_app, fmap_take.
    change (memory <$> [set_used w b]) with [memory b].
    apply list.NoDup_app. split_and!.
    + rewrite <- (take_drop (S (current a)) (memory <$> _)) in Hi. by apply list.NoDup_app in Hi as [? _].
    + intros x Hx ->%list_elem_of_singleton. apply Hf. rewrite <- (take_drop (S (current a)) (memory <$> _)).
      apply elem_of_app. by left.
    + apply NoDup_singleton.
Qed.

Lemma inside_bump a b u w r : arena_wf a -> blocks a !! current a = Some b -> used b <= u -> inside a r -> inside (bump a u w) r.
Proof.
  intros Hwf Hb Hu (i & x & Hi & Hx & Hm & Hr). destruct (decide (i = current a)) as [->|Hne].
  - exists (current a), (set_used u x). rewrite bump_lookup, decide_True, Hx by done. simplify_eq.
    split_and!; try done; simpl; lia.
  - exists i, x. rewrite bump_lookup, decide_False by done. done.
Qed.

Lemma inside_push a b w r : inside a r -> inside (push_block a b w) r.
Proof.
  intros (i & x & Hi & Hx & Hm & Hr). exists i, x. cbn [blocks push_block current]. split; [lia|]. split; [|done].
  rewrite lookup_app_l; [rewrite lookup_take_lt; [done|lia]|]. rewrite length_take.
  pose proof (lookup_lt_Some _ _ _ Hx). lia.
Qed.

Definition new_ranges (q : request) (p : option ptr) : list range :=
  match p with Some (r, o) => [mkRange r o (req_size q)] | None => [] end.

Lemma serve_live a q mem a' p L : arena_wf a -> req_ok q -> fresh_in a mem -> live a L ->
  serve a q mem = Ok (a', p) -> arena_wf a' /\ live a' (new_ranges q p ++ L).
Proof.
  intros Hwf Hq Hf [Hi Ha] Hs. pose proof (proj1 Hq). pose proof (serve_served a q mem Hwf Hq) as Hsv.
  rewrite Hs in Hsv. inversion Hsv as [b o n w Hw Hb Ho Hn Hfit Hal|Hm|b r n Hm Hb Hn]; subst.
  - destruct (aw_block _ Hwf _ _ Hb) as [Hu _]. split; [apply (wf_bump _ b); [done|done|lia]|]. constructor.
    + intros r [->|Hr]%elem_of_cons.
      * exists (current a), (set_used (o + n) b). rewrite bump_lookup, decide_True, Hb by done.
        simpl. split_and!; done || lia.
      * apply (inside_bump a b); [done|done|lia|by apply Hi].
    + constructor; [|done]. apply List.Forall_forall. intros r Hr%list_elem_of_In.
      destruct (Hi r Hr) as (i & x & Hic & Hx & Hm & H1 & H2 & H3). unfold apart. simpl.
      destruct (decide (memory b = region r)) as [Heq|]; [right|by left].
      assert (i = current a) as ->; [|simplify_eq; lia].
      apply (NoDup_lookup _ i (current a) (memory b) (aw_ids _ Hwf)); rewrite list_lookup_fmap;
        [rewrite Hx; simpl; congruence|by rewrite Hb].
  - done.
  - specialize (Hf r eq_refl). unfold ARENA_BLOCK_SIZE in *. split; [apply wf_push; simpl; [done..|lia|lia]|]. constructor.
    + intros x [->|Hx]%elem_of_cons; [|by apply inside_push, Hi].
      exists (S (current a)), (mkBlock r (Z.max (64 * 1024) n) n). cbn [blocks push_block current set_used memory bsize used region offset len].
      split; [lia|]. split; [|split; [done|]; lia].
      rewrite lookup_app_r, length_take by (rewrite length_take; lia). pose proof (aw_current _ Hwf).
      by replace (S (current a) - _)%nat with 0%nat by lia.
    + constructor; [|done]. apply List.Forall_forall. intros x Hx%list_elem_of_In. left. simpl. intros ->.
      destruct (Hi x Hx) as (i & y & _ & Hy & Hm & _). apply Hf. rewrite <- Hm.
      apply list_elem_of_lookup. exists i. by rewrite list_lookup_fmap, Hy.
Qed.

(** ** Scopes *)

(** [r] lies below the mark [(c, u)]: in a block before [c], or below [u] in [c]. *)
Definition below (a : Arena) (c : nat) (u : Z) (r : range) : Prop :=
  exists i b, blocks a !! i = Some b /\ memory b = region r /\ 0 <= offset r /\ 0 <= len r /\
    ((i < c)%nat /\ offset r + len r <= used b \/ i = c /\ offset r + len r <= u).

(** What is below the mark [(c, u)] is still there. *)
Definition keeps (c : nat) (u : Z) (a a' : Arena) : Prop := forall i b, (i <= c)%nat -> blocks a !! i = Some b ->
  exists b', blocks a' !! i = Some b' /\ memory b' = memory b /\
    ((i < c)%nat -> used b <= used b') /\ (i = c -> Z.min u (used b) <= used b').

Definition mark_le (c : nat) (u : Z) (d : nat) (v : Z) : Prop := (c < d)%nat \/ c = d /\ u <= v.

Lemma keeps_le c u d v a a' : mark_le c u d v -> keeps d v a a' -> keeps c u a a'.
Proof.
  intros Hle Hk i b Hi Hb. unfold mark_le in Hle. destruct (Hk i b) as (b' & Hb' & Hm & H1 & H2); [lia|done|].
  exists b'. split_and!; [done|done|intros; apply H1; lia|].
  intros ->. destruct (decide (c = d)) as [->|]; [specialize (H2 eq_refl)|specialize (H1 ltac:(lia))]; lia.
Qed.

Lemma below_keeps a a' c u r : keeps c u a a' -> below a c u r -> below a' c u r.
Proof.
  intros Hk (i & b & Hb & Hm & H1 & H2 & H3). destruct (Hk i b) as (b' & Hb' & Hm' & Hu & _); [lia|done|].
  exists i, b'. split_and!; try done; [congruence|]. destruct H3 as [[??]|[??]]; [left; split; [done|]|by right].
  specialize (Hu ltac:(lia)). lia.
Qed.

(** Open scopes, innermost first, each with the ranges live when it began; the
    marks go down. *)
Fixpoint scopes_ok (a : Arena) (c : nat) (u : Z) (st : list (ArenaScope * list range)) : Prop :=
  match st with
  | [] => True
  | (s, L) :: st =>
      mark_le (saved_block s) (saved_used s) c u /\
      (exists b, blocks a !! saved_block s = Some b /\ 0 <= saved_used s <= used b) /\
      (forall r, r ∈ L -> below a (saved_block s) (saved_used s) r) /\ ForallOrdPairs apart L /\
      scopes_ok a (saved_block s) (saved_used s) st
  end.

Lemma scopes_keeps a a' st : forall c u, keeps c u a a' -> scopes_ok a c u st -> scopes_ok a' c u st.
Proof.
  induction st as [|[s L] st IH]; intros c u Hk; [done|]. cbn [scopes_ok].
  intros (Hs & (b & Hb & Hub) & Hl & Hp & Hst). pose proof (keeps_le _ _ _ _ _ _ Hs Hk) as Hks.
  split_and!; [done| |intros r Hr; by apply (below_keeps a), Hl|done|by apply IH].
  destruct (Hks _ b (le_n _) Hb) as (b' & Hb' & _ & _ & H2). exists b'. split; [done|].
  specialize (H2 eq_refl). lia.
Qed.

Lemma scopes_weaken a st c u d v : mark_le c u d v -> scopes_ok a c u st -> scopes_ok a d v st.
Proof.
  destruct st as [|[s L] st]; [done|]. cbn. intros H (Hs & ?). split; [|done]. unfold mark_le in *. lia.
Qed.

(** ** Histories *)

(** The arena, the live ranges and the open scopes. *)
Record astate := mkState { st_arena : Arena; st_live : list range; st_scopes : list (ArenaScope * list range) }.

Inductive astep : astate -> astate -> Prop :=
| as_serve a L st q mem a' p :
    req_ok q -> fresh_in a mem -> serve a q mem = Ok (a', p) ->
    astep (mkState a L st) (mkState a' (new_ranges q p ++ L) st)
| as_begin a L st s :
    arena_scope_begin a = Ok s -> astep (mkState a L st) (mkState a L ((s, L) :: st))
| as_end a L s L' st a' freed :
    arena_scope_end a s = Ok (a', freed) -> astep (mkState a L ((s, L') :: st)) (mkState a' L' st)
| as_reset a L : astep (mkState a L []) (mkState (arena_reset a) [] []).

Record ainv (s : astate) : Prop := {
  ai_wf : arena_wf (st_arena s);
  ai_live : live (st_arena s) (st_live s);
  ai_scopes : exists b, blocks (st_arena s) !! current (st_arena s) = Some b /\
    scopes_ok (st_arena s) (current (st_arena s)) (used b) (st_scopes s)
}.

Lemma current_block a : arena_wf a -> exists b, blocks a !! current a = Some b.
Proof. intros H. apply lookup_lt_is_Some_2, H. Qed.

Lemma inside_below a b r : blocks a !! current a = Some b -> inside a r <-> below a (current a) (used b) r.
Proof.
  intros Hb. split.
  - intros (i & x & Hi & Hx & Hm & H1 & H2 & H3). exists i, x. split_and!; try done.
    destruct (decide (i = current a)) as [->|]; [right; simplify_eq; done|left; split; [lia|done]].
  - intros (i & x & Hx & Hm & H1 & H2 & H3). exists i, x. split_and!; try done; [lia|].
    destruct H3 as [[??]|[-> ?]]; [done|]. by simplify_eq.
Qed.

Lemma keeps_bump a b u w : blocks a !! current a = Some b -> used b <= u -> keeps (current a) (used b) a (bump a u w).
Proof.
  intros Hb Hu i x Hi Hx. rewrite bump_lookup, Hx. case_decide as Hd; eexists; (split_and!; [done|done| |]); simpl; lia || (intros; simplify_eq; lia).
Qed.

Lemma push_before a b w i x : (i <= current a)%nat -> blocks a !! i = Some x -> blocks (push_block a b w) !! i = Some x.
Proof.
  intros Hi Hx. cbn [blocks push_block].
  rewrite lookup_app_l; [rewrite lookup_take_lt; [done|lia]|]. rewrite length_take.
  pose proof (lookup_lt_Some _ _ _ Hx). lia.
Qed.

Lemma keeps_push a b w c u : (c <= current a)%nat -> keeps c u a (push_block a b w).
Proof. intros Hc i x Hi Hx. exists x. split_and!; [apply push_before; [lia|done]|done|lia|lia]. Qed.

Lemma serve_keeps a q mem a' p b : arena_wf a -> req_ok q -> blocks a !! current a = Some b ->
  serve a q mem = Ok (a', p) ->
  exists b', blocks a' !! current a' = Some b' /\ mark_le (current a) (used b) (current a') (used b') /\
    keeps (current a) (used b) a a'.
Proof.
  intros Hwf Hq Hb Hs. pose proof (serve_served a q mem Hwf Hq) as Hsv. rewrite Hs in Hsv.
  inversion Hsv as [x o n w Hw Hx Ho Hn Hfit Hal|Hm|x r n Hm Hx Hn]; subst.
  - assert (x = b) as -> by congruence. pose proof (proj1 Hq). exists (set_used (o + n) b).
    change (current (bump a (o + n) (o + n - used b))) with (current a).
    rewrite bump_lookup, decide_True, Hb by done. split_and!; [done|right; simpl; split; [done|lia]|].
    apply keeps_bump; [done|lia].
  - exists b. split_and!; [done|right; done|]. intros i y _ Hy. exists y. split_and!; [done|done|lia|lia].
  - exists (set_used n (mkBlock r (Z.max ARENA_BLOCK_SIZE n) 0)). split_and!; [|left; simpl; lia|by apply keeps_push].
    cbn [blocks push_block current]. rewrite lookup_app_r, length_take by (rewrite length_take; lia).
    pose proof (aw_current _ Hwf). by replace (S (current a) - _)%nat with 0%nat by lia.
Qed.

Lemma free_blocks_same bs : forall a, blocks (foldl (fun a b => free_block b a) a bs) = blocks a.
Proof. induction bs as [|b bs IH]; intros a; [done|]. cbn. by rewrite IH. Qed.

Lemma scope_end_lookup a s a' freed i : arena_scope_end a s = Ok (a', freed) ->
  blocks a' !! i = if decide (i < saved_block s)%nat then blocks a !! i
                   else if decide (i = saved_block s) then set_used (saved_used s) <$> blocks a !! i else None.
Proof.
  unfold arena_scope_end. intros H. inv_ok. clear E0. cbn [blocks]. rewrite free_blocks_same.
  case_decide as H1; [|case_decide as H2].
  - rewrite list_lookup_alter_ne by lia. apply lookup_take_lt. lia.
  - subst i. rewrite list_lookup_alter_eq. by rewrite lookup_take_lt by lia.
  - rewrite list_lookup_alter_ne by lia. apply lookup_take_ge. lia.
Qed.

Lemma scope_end_wf a s a' freed : arena_wf a -> 0 <= saved_used s -> arena_scope_end a s = Ok (a', freed) ->
  arena_wf a' /\ current a' = saved_block s.
Proof.
  intros [Hc Hb Hi] Hs0 He. pose proof (fun i => scope_end_lookup a s a' freed i He) as Hl.
  unfold arena_scope_end in He. inv_ok. rename E into Hbl, E0 into Hlt. apply Z.ltb_ge in Hlt. split; [|done]. constructor.
  - cbn [blocks current]. rewrite free_blocks_same, length_alter, length_take.
    pose proof (lookup_lt_Some _ _ _ Hbl). lia.
  - intros i y. rewrite Hl. case_decide; [by apply Hb|]. case_decide; [|done]. subst i. rewrite Hbl. intros [= <-].
    simpl. specialize (Hb _ _ Hbl). lia.
  - cbn [blocks]. rewrite free_blocks_same. change (map memory) with (fmap (M := list) memory) in *.
    assert (forall u k l, memory <$> alter (set_used u) k l = memory <$> l) as ->.
    { intros u k l. apply list_eq. intros i. rewrite !list_lookup_fmap.
      destruct (decide (i = k)) as [->|]; [rewrite list_lookup_alter_eq; by destruct (l !! k)|by rewrite list_lookup_alter_ne]. }
    rewrite fmap_take. rewrite <- (take_drop (S (saved_block s)) (memory <$> _)) in Hi. by apply list.NoDup_app in Hi as [? _].
Qed.

Lemma keeps_end a s a' freed : arena_scope_end a s = Ok (a', freed) -> keeps (saved_block s) (saved_used s) a a'.
Proof.
  intros He i b Hi Hb. rewrite (scope_end_lookup _ _ _ _ _ He), Hb.
  case_decide; [exists b; split_and!; [done|done|lia|lia]|]. rewrite decide_True by lia.
  exists (set_used (saved_used s) b). split_and!; [done|done|lia|simpl; lia].
Qed.

Lemma astep_inv s s' : ainv s -> astep s s' -> ainv s'.
Proof.
  intros [Hwf Hl (b & Hb & Hsc)] Hst.
  destruct Hst as [a L st q mem a' p Hq Hf Hs|a L st s Hs|a L s L' st a' freed He|a L]; simpl in *.
  - destruct (serve_live a q mem a' p L) as [Hwf' Hl']; try done.
    destruct (serve_keeps a q mem a' p b) as (b' & Hb' & Hmk & Hk); try done.
    constructor; simpl; [done|done|]. exists b'. split; [done|]. eapply scopes_weaken; [done|]. by apply (scopes_keeps a).
  - constructor; simpl; [done|done|]. exists b. split; [done|]. unfold arena_scope_begin in Hs. rewrite Hb in Hs.
    simplify_eq/=. destruct (aw_block _ Hwf _ _ Hb). split_and!; [by right|exists b; split; [done|lia]| |apply Hl|done].
    intros r Hr. apply inside_below; [done|]. by apply Hl.
  - destruct Hsc as (Hmk & (x & Hx & Hux) & Hin & Hap & Hsc).
    destruct (scope_end_wf a s a' freed) as [Hwf' Hc']; [done|lia|done|].
    pose proof (keeps_end _ _ _ _ He) as Hk.
    assert (Hb' : blocks a' !! current a' = Some (set_used (saved_used s) x)).
    { rewrite Hc', (scope_end_lookup _ _ _ _ _ He), decide_False, decide_True, Hx by (done || lia). done. }
    constructor; simpl; [done| |].
    + constructor; [|done]. intros r Hr. rewrite inside_below by done. rewrite Hc'. simpl.
      by apply (below_keeps a), Hin.
    + eexists. split; [done|]. rewrite Hc'. simpl. by apply (scopes_keeps a).
  - assert (Hlk : forall i y, blocks (arena_reset a) !! i = Some y ->
      exists y', blocks a !! i = Some y' /\ y = set_used 0 y').
    { intros i y Hy. cbn [blocks arena_reset] in Hy. apply list_lookup_fmap_Some in Hy as (y' & -> & Hy'). eauto. }
    assert (arena_wf (arena_reset a)) as Hwf'.
    { constructor.
      - simpl. rewrite length_map. pose proof (aw_current _ Hwf). lia.
      - intros i y Hy. destruct (Hlk i y Hy) as (y' & Hy' & ->). destruct (aw_block _ Hwf _ _ Hy'). simpl. lia.
      - simpl. rewrite map_map. apply Hwf. }
    constructor; simpl; [done| |].
    + constructor; [intros r Hr; by apply not_elem_of_nil in Hr|constructor].
    + destruct (current_block _ Hwf') as [y Hy]. by exists y.
Qed.

Lemma create_inv mem g a : arena_create mem g = Some a -> ainv (mkState a [] []).
Proof.
  destruct mem as [r|]; [|done]. intros [= <-]. constructor; simpl.
  - constructor; simpl; [lia| |apply NoDup_singleton].
    intros i b [-> <-]%list_lookup_singleton_Some. simpl. unfold ARENA_BLOCK_SIZE. lia.
  - constructor; [intros r' Hr; by apply not_elem_of_nil in Hr|constructor].
  - eexists. done.
Qed.

Lemma apart_sym r s : apart r s -> apart s r.
Proof. unfold apart. intuition congruence. Qed.

Lemma ranges_lookup L i j r s : ForallOrdPairs apart L -> i <> j -> L !! i = Some r -> L !! j = Some s -> apart r s.
Proof.
  intros H. revert i j. induction H as [|x L Hx HL IH]; intros i j Hij Hi Hj; [done|].
  rewrite List.Forall_forall in Hx. destruct i as [|i], j as [|j]; simpl in *; [done|..].
  - simplify_eq. apply Hx, list_elem_of_In. by apply list_elem_of_lookup_2 in Hj.
  - simplify_eq. apply apart_sym, Hx, list_elem_of_In. by apply list_elem_of_lookup_2 in Hi.
  - apply (IH i j); [congruence|done..].
Qed.

(** C30: the support arena never hands out bytes that a live pointer owns.
    Take a fresh arena through any sequence of allocations, aligned
    allocations, nested scopes and resets, where every request is for 1 to
    2^61 - 1 bytes at an alignment that is a power of two up to 4096
    ([req_ok]) and every block comes from memory the arena does not hold yet.
    Then the ranges that are live do not overlap, each lies in the memory of a
    block of the arena, and every such request is defined and, when it
    answers a pointer, that pointer is a multiple of the alignment asked for
    with [arena_alloc_aligned], counted from the start of its block.  The
    limit on the size is needed: above 2^64 - 16 the aligned size wraps to
    zero and the bytes are given out twice ([arena_alloc_wraps]). *)
Theorem arena_ranges_safe mem g a s :
  arena_create mem g = Some a -> rtc astep (mkState a [] []) s ->
  (forall i j r t, i <> j -> st_live s !! i = Some r -> st_live s !! j = Some t -> apart r t) /\
  (forall r, r ∈ st_live s -> exists b, b ∈ blocks (st_arena s) /\ memory b = region r /\
     0 <= offset r /\ offset r + len r <= bsize b) /\
  forall q m, req_ok q -> exists a' p, serve (st_arena s) q m = Ok (a', p) /\
    match q, p with Aligned _ al, Some (_, o) => o mod al = 0 | _, _ => True end.
Proof.
  intros Ha Hs. assert (ainv s) as [Hwf [Hin Hap] _].
  { apply create_inv in Ha. clear -Ha Hs. induction Hs; [done|]. eauto using astep_inv. }
  split; [intros i j r t; by apply ranges_lookup|]. split.
  - intros r Hr. destruct (Hin r Hr) as (i & b & _ & Hb & Hm & H1 & H2 & H3). exists b.
    destruct (aw_block _ Hwf _ _ Hb). split_and!; [by apply list_elem_of_lookup_2 in Hb|done|done|lia].
  - intros q m Hq. destruct (serve_served _ _ m Hwf Hq) as [b o n w _ _ _ _ _ Hal| |b r n _ _ _]; eexists _, _; (split; [done|]).
    + destruct q as [n'|n' al]; [done|]. simpl in Hal. by destruct Hal.
    + by destruct q.
    + destruct q as [n'|n' al]; [done|]. apply Z.mod_0_l. destruct Hq as [_ (k & Hk & Hal)]. simpl in Hal. rewrite Hal. apply Z.pow_nonzero; lia.
Qed.

(** ** What a scope gives back *)

Fixpoint serve_all (a : Arena) (qs : list (request * option Z)) : outcome Arena :=
  match qs with
  | [] => Ok a
  | (q, mem) :: qs => let! r := serve a q mem in serve_all r.1 qs
  end.

(** The arena since the scope began at [a0], with the blocks [new] opened. *)
Record extends (a0 : Arena) (b0 : ArenaBlock) (a : Arena) (u : Z) (new : list ArenaBlock) : Prop := {
  ex_used : used b0 <= u <= bsize b0;
  ex_blocks : blocks a = take (current a0) (blocks a0) ++ set_used u b0 :: new;
  ex_current : current a = (current a0 + length new)%nat;
  ex_allocated : total_allocated a = u64 (total_allocated a0 + zsum (map bsize new));
  ex_count : block_count a = u64 (block_count a0 + Z.of_nat (length new));
  ex_total : total_used a = u64 (total_used a0 + (u - used b0) + zsum (map used new));
  ex_gen : generation a = generation a0
}.

Lemma block_extends_refl a b : arena_wf a -> S (current a) = length (blocks a) -> blocks a !! current a = Some b ->
  0 <= total_allocated a < 2 ^ 64 -> 0 <= total_used a < 2 ^ 64 -> 0 <= block_count a < 2 ^ 64 ->
  extends a b a (used b) [].
Proof.
  intros Hwf Hc Hb H1 H2 H3. destruct (aw_block _ Hwf _ _ Hb). constructor; cbn [length map zsum foldr]; try lia;
    try (rewrite u64_small; lia).
  rewrite <- (take_drop_middle (blocks a) (current a) b Hb) at 1. rewrite drop_ge by lia. by destruct b.
Qed.

Lemma extends_last a0 b0 a u new : extends a0 b0 a u new -> (current a0 < length (blocks a0))%nat ->
  S (current a) = length (blocks a) /\
  blocks a !! current a = match list.last new with Some b => Some b | None => Some (set_used u b0) end.
Proof.
  intros He Hlt. rewrite (ex_blocks _ _ _ _ _ He), (ex_current _ _ _ _ _ He).
  rewrite length_app, length_take. cbn [length]. split; [lia|].
  rewrite lookup_app_r, length_take by (rewrite length_take; lia).
  replace (current a0 + length new - _)%nat with (length new) by lia.
  destruct new as [|b new _] using rev_ind; [done|].
  rewrite last_snoc, length_app, app_comm_cons. cbn [length].
  rewrite lookup_app_r by (cbn [length]; lia). cbn [length]. by replace (length new + 1 - _)%nat with 0%nat by lia.
Qed.

(** Only the accounting of the last block changes. *)
Lemma extends_serve a0 b0 a u new q mem a' p : arena_wf a0 -> arena_wf a -> blocks a0 !! current a0 = Some b0 ->
  extends a0 b0 a u new -> req_ok q -> serve a q mem = Ok (a', p) ->
  exists u' new', extends a0 b0 a' u' new'.
Proof.
  intros Hwf0 Hwf Hb0 He Hq Hs. pose proof (aw_current _ Hwf0) as Hlt.
  destruct (extends_last _ _ _ _ _ He Hlt) as [Hlen Hlast].
  pose proof (serve_served a q mem Hwf Hq) as Hsv. rewrite Hs in Hsv. pose proof (proj1 Hq) as Hq0.
  inversion Hsv as [x o n w Hw Hx Ho Hn Hfit Hal|Hm|x r n Hm Hx Hn]; subst.
  - rewrite Hlast in Hx. destruct new as [|b new _] using rev_ind.
    + injection Hx as <-. simpl in *. exists (o + n), []. destruct He as [H1 H2 H3 H4 H5 H6 H7]. simpl in *.
      constructor; simpl; [lia| |done|done|done| |done].
      * rewrite H2, H3, Nat.add_0_r.
        replace (current a0) with (length (take (current a0) (blocks a0)) + 0)%nat at 1 by (rewrite length_take; lia).
        by rewrite alter_app_r.
      * rewrite H6. unfold u64. rewrite Zplus_mod_idemp_l. f_equal. lia.
    + rewrite last_snoc in Hx. injection Hx as ->. exists u, (new ++ [set_used (o + n) x]).
      destruct He as [H1 H2 H3 H4 H5 H6 H7]. rewrite !map_app, !zsum_app, !length_app in *. simpl in *.
      constructor; simpl; rewrite ?map_app, ?zsum_app, ?length_app; simpl; [done| |done|done|done| |done].
      * rewrite H2, H3.
        replace (current a0 + _)%nat with (length (take (current a0) (blocks a0)) + (S (length new)))%nat
          by (rewrite length_take; lia).
        rewrite alter_app_r. f_equal. cbn. f_equal. replace (length new) with (length new + 0)%nat by lia.
        by rewrite alter_app_r.
      * rewrite H6. unfold u64. rewrite Zplus_mod_idemp_l. f_equal. lia.
  - eauto.
  - exists u, (new ++ [set_used n (mkBlock r (Z.max ARENA_BLOCK_SIZE n) 0)]).
    destruct He as [H1 H2 H3 H4 H5 H6 H7].
    constructor; cbn [blocks current total_allocated block_count total_used generation push_block];
      rewrite ?map_app, ?zsum_app, ?length_app; cbn [length map zsum foldr bsize used set_used]; [done| |lia| | | |done].
    + rewrite take_ge by lia. rewrite H2, <- app_assoc. done.
    + rewrite H4. unfold u64. rewrite Zplus_mod_idemp_l. f_equal. lia.
    + rewrite H5. unfold u64. rewrite Zplus_mod_idemp_l. f_equal. lia.
    + rewrite H6. unfold u64. rewrite Zplus_mod_idemp_l. f_equal. lia.
Qed.

(** The requests and the memory they are given, one after the other. *)
Fixpoint requests_ok (a : Arena) (qs : list (request * option Z)) : Prop :=
  match qs with
  | [] => True
  | (q, mem) :: qs => req_ok q /\ fresh_in a mem /\
      forall a' p, serve a q mem = Ok (a', p) -> requests_ok a' qs
  end.

Lemma serve_wf a q mem a' p : arena_wf a -> req_ok q -> fresh_in a mem -> serve a q mem = Ok (a', p) -> arena_wf a'.
Proof.
  intros Hwf Hq Hf Hs. apply (serve_live a q mem a' p []); try done.
  constructor; [intros r Hr; by apply not_elem_of_nil in Hr|constructor].
Qed.

Lemma serve_ok a q mem : arena_wf a -> req_ok q -> exists a' p, serve a q mem = Ok (a', p).
Proof. intros Hwf Hq. destruct (serve_served a q mem Hwf Hq); eauto. Qed.

Lemma extends_serve_all a0 b0 qs : arena_wf a0 -> blocks a0 !! current a0 = Some b0 ->
  forall a u new, arena_wf a -> extends a0 b0 a u new -> requests_ok a qs ->
  exists a' u' new', serve_all a qs = Ok a' /\ extends a0 b0 a' u' new'.
Proof.
  intros Hwf0 Hb0. induction qs as [|[q mem] qs IH]; intros a u new Hwf He Hqs; cbn [serve_all]; [by exists a, u, new|].
  destruct Hqs as (Hq & Hf & Hqs). destruct (serve_ok a q mem Hwf Hq) as (a' & p & Hs). rewrite Hs. cbn [obind fst].
  destruct (extends_serve a0 b0 a u new q mem a' p) as (u' & new' & He'); try done.
  apply (IH a' u' new'); [by apply (serve_wf a q mem a' p)|done|by apply (Hqs a' p)].
Qed.

Lemma free_blocks_spec bs : forall a,
  total_allocated (foldl (fun a b => free_block b a) a bs) = (if bs is [] then total_allocated a else u64 (total_allocated a - zsum (map bsize bs))) /\
  block_count (foldl (fun a b => free_block b a) a bs) = (if bs is [] then block_count a else u64 (block_count a - Z.of_nat (length bs))) /\
  total_used (foldl (fun a b => free_block b a) a bs) = total_used a /\
  generation (foldl (fun a b => free_block b a) a bs) = generation a.
Proof.
  induction bs as [|b bs IH]; intros a; [done|]. cbn [foldl]. destruct (IH (free_block b a)) as (H1 & H2 & H3 & H4).
  rewrite H1, H2, H3, H4. cbn [free_block total_allocated block_count total_used generation length map zsum foldr].
  fold (zsum (map bsize bs)). destruct bs as [|b' bs]; [cbn; split_and!; done || (f_equal; lia)|].
  split_and!; try done; unfold u64; rewrite Zminus_mod_idemp_l; f_equal; cbn [length]; lia.
Qed.

(** [arena_scope_begin], any sequence of allocations, [arena_scope_end]
    gives back the arena as it was (its blocks and fill levels, the current
    block, the memory and block counts) except [total_used], which keeps the
    bytes used in the blocks that were freed. *)
Theorem arena_scope_restores a b qs :
  arena_wf a -> S (current a) = length (blocks a) -> blocks a !! current a = Some b ->
  0 <= total_allocated a < 2 ^ 64 -> 0 <= total_used a < 2 ^ 64 -> 0 <= block_count a < 2 ^ 64 ->
  requests_ok a qs ->
  exists s a' new, arena_scope_begin a = Ok s /\ serve_all a qs = Ok a' /\
    blocks a' = take (current a) (blocks a) ++ default b (blocks a' !! current a) :: new /\
    arena_scope_end a' s =
      Ok (mkArena (blocks a) (current a) (total_allocated a) (u64 (total_used a + zsum (map used new)))
            (block_count a) (generation a), map memory new).
Proof.
  intros Hwf Hc Hb Ht Hu Hbc Hqs.
  destruct (extends_serve_all a b qs Hwf Hb a (used b) []) as (a' & u & new & Hs & He); [done|by apply block_extends_refl|done|].
  exists (mkScope (current a) (used b)), a', new. split; [unfold arena_scope_begin; by rewrite Hb|]. split; [done|].
  destruct He as [H1 H2 H3 H4 H5 H6 H7]. pose proof (aw_current _ Hwf).
  assert (Hl : length (take (current a) (blocks a)) = current a) by (rewrite length_take; lia).
  assert (Hat : blocks a' !! current a = Some (set_used u b)).
  { rewrite H2. rewrite lookup_app_r, Hl, Nat.sub_diag by lia. done. }
  rewrite Hat. split; [done|]. unfold arena_scope_end. cbn [saved_block saved_used]. rewrite Hat. cbn [of_option obind used set_used].
  destruct (Z.ltb_spec u (used b)); [lia|].
  assert (Hd : drop (S (current a)) (blocks a') = new).
  { rewrite H2. rewrite drop_app_ge, Hl by lia. by replace (S (current a) - current a)%nat with 1%nat by lia. }
  rewrite Hd. destruct (free_blocks_spec new a') as (F1 & F2 & F3 & F4). rewrite free_blocks_same, F1, F2, F3, F4.
  do 2 f_equal. f_equal; [| | | |done].
  - rewrite H2. rewrite take_app, Hl, take_ge by lia. replace (S (current a) - current a)%nat with 1%nat by lia.
    cbn [take]. replace (current a) with (length (take (current a) (blocks a)) + 0)%nat at 1 by lia. rewrite alter_app_r. cbn.
    rewrite <- (take_drop_middle (blocks a) (current a) b Hb) at 2. rewrite drop_ge by lia. by destruct b.
  - rewrite H4. destruct new; [cbn; rewrite u64_small; lia|]. unfold u64. rewrite Zminus_mod_idemp_l.
    rewrite Z.mod_small; lia.
  - rewrite H6. unfold u64. rewrite Zminus_mod_idemp_l. f_equal. lia.
  - rewrite H5. destruct new; [cbn; rewrite u64_small; lia|]. unfold u64. rewrite Zminus_mod_idemp_l.
    rewrite Z.mod_small; lia.
Qed.

(** ** Where the arena fails *)

(** After [arena_reset], an allocation that does not fit the first block
    drops the blocks kept for reuse: [arena_destroy] no longer frees them,
    while the statistics still count them. *)
Theorem arena_reset_leaks a b n r old :
  arena_wf a -> blocks a = b :: old -> 0 < n < 2 ^ 61 -> bsize b < n -> r ∉ map memory (blocks a) ->
  exists a', arena_alloc (arena_reset a) n (Some r) = Ok (a', Some (r, 0)) /\
    arena_destroy a' = [memory b; r] /\ (forall x, x ∈ old -> memory x ∉ arena_destroy a') /\
    block_count a' = u64 (block_count a + 1).
Proof.
  intros Hwf Hb Hn Hbn Hr. unfold arena_alloc. destruct (Z.eqb_spec n 0); [lia|].
  destruct (align_size_spec n 4) as (Ha & Hra & _); [lia|lia|]. change (2 ^ 4) with ARENA_ALIGNMENT in *. rewrite Ha.
  cbn [arena_reset blocks current]. rewrite Hb. cbn [map lookup list_lookup of_option obind set_used used bsize].
  destruct (aw_block _ Hwf 0%nat b) as [Hu Hs]; [by rewrite Hb|].
  destruct (Z.leb_spec 0 (bsize b)); [|lia]. rewrite Z.sub_0_r.
  destruct (Z.leb_spec (round_up n ARENA_ALIGNMENT) (bsize b)); [lia|]. cbn [andb]. rewrite create_block_spec.
  eexists. split_and!; [done| | |done].
  - unfold arena_destroy. cbn. by rewrite Hb.
  - intros x Hx. unfold arena_destroy. cbn. rewrite Hb. cbn. pose proof (aw_ids _ Hwf) as Hnd. rewrite Hb in Hnd, Hr. cbn in Hnd, Hr.
    apply list.NoDup_cons in Hnd as [Hnd _].
    assert (memory x ∈ map memory old) as Hm by (apply list_elem_of_fmap; eauto).
    intros [Heq|[Heq|He]%elem_of_cons]%elem_of_cons; [congruence| |by apply not_elem_of_nil in He].
    cbn in Heq. apply Hr. right. by rewrite <- Heq.
Qed.

(** A size within 16 bytes of the top of [size_t] wraps to zero when it is
    aligned: [arena_alloc] succeeds, returns a pointer and reserves nothing,
    so that the next allocation gets the same bytes. *)
Theorem arena_alloc_wraps a b n mem :
  arena_wf a -> blocks a !! current a = Some b -> 2 ^ 64 - 16 < n < 2 ^ 64 ->
  exists a', arena_alloc a n mem = Ok (a', Some (memory b, used b)) /\ blocks a' = blocks a /\ total_used a' = u64 (total_used a).
Proof.
  intros Hwf Hb Hn. destruct (aw_block _ Hwf _ _ Hb) as [Hu Hs]. unfold arena_alloc.
  destruct (Z.eqb_spec n 0); [lia|].
  assert (align_size n ARENA_ALIGNMENT = 0) as ->.
  { unfold align_size, ARENA_ALIGNMENT. assert (u64 (n + 16 - 1) = n + 15 - 2 ^ 64) as ->.
    { unfold u64. replace (n + 16 - 1) with (n + 15 - 2 ^ 64 + 1 * 2 ^ 64) by lia. rewrite Z_mod_plus_full. apply Z.mod_small. lia. }
    rewrite land_u64 by lia. change (16 - 1) with (Z.ones 4). rewrite ldiff_ones by lia.
    rewrite Z.div_small; [done|]. change (2 ^ 4) with 16. lia. }
  rewrite Hb. cbn [of_option obind]. destruct (Z.leb_spec (used b) (bsize b)); [|lia].
  destruct (Z.leb_spec 0 (bsize b - used b)); [|lia]. cbn [andb]. rewrite Z.add_0_r, u64_small by word_lia.
  eexists. split_and!; [done| |cbn; by rewrite Z.add_0_r]. cbn.
  apply list_eq. intros i. destruct (decide (i = current a)) as [->|]; [|by rewrite list_lookup_alter_ne].
  rewrite list_lookup_alter_eq, Hb. cbn. f_equal. by destruct b.
Qed.

(** [arena_alloc] rounds the size, not the pointer: after an aligned
    allocation of five bytes its pointer is not 16-byte aligned. *)
Lemma arena_alloc_misaligned :
  (let! a := of_option (arena_create (Some 1) 0) in
   let! r := arena_alloc_aligned a 5 1 None in
   let! r := arena_alloc r.1 8 None in Ok r.2) = Ok (Some (1, 5)).
Proof. reflexivity. Qed.

Definition ex_arena : Arena := mkArena [mkBlock 1 ARENA_BLOCK_SIZE 0] 0 ARENA_BLOCK_SIZE 0 1 0.

Lemma ex_arena_wf : arena_wf ex_arena.
Proof. exact (ai_wf _ (create_inv (Some 1) 0 ex_arena eq_refl)). Qed.

Lemma req_alloc_ok n : 0 < n < 2 ^ 61 -> req_ok (Alloc n).
Proof. intros H. split; [done|]. exists 4. split; [lia|done]. Qed.

Definition ex_state : astate :=
  mkState (mkArena [mkBlock 1 ARENA_BLOCK_SIZE 112; mkBlock 2 70000 70000] 1 135536 70112 2 0)
    [mkRange 2 0 70000; mkRange 1 0 100] [].

Lemma ex_state_reachable : rtc astep (mkState ex_arena [] []) ex_state.
Proof.
  eapply rtc_l; [by apply (as_serve _ _ _ (Alloc 100) None); [apply req_alloc_ok; lia|intros ? [=]|reflexivity]|].
  apply rtc_once.
  apply (as_serve _ _ _ (Alloc 70000) (Some 2) _ (Some (2, 0))); [apply req_alloc_ok; lia| |reflexivity].
  intros ? [= <-]. vm_compute. set_solver.
Qed.

Lemma arena_ranges_safe_witness : apart (mkRange 2 0 70000) (mkRange 1 0 100).
Proof.
  exact (proj1 (arena_ranges_safe (Some 1) 0 ex_arena ex_state eq_refl ex_state_reachable)
    0%nat 1%nat _ _ ltac:(lia) eq_refl eq_refl).
Defined.

Lemma arena_scope_restores_witness : exists s a' new,
  arena_scope_begin ex_arena = Ok s /\
  serve_all ex_arena [(Alloc 100, None); (Alloc 70000, Some 2)] = Ok a' /\
  arena_scope_end a' s = Ok (mkArena (blocks ex_arena) 0 ARENA_BLOCK_SIZE (u64 (0 + zsum (map used new))) 1 0, map memory new).
Proof.
  destruct (arena_scope_restores ex_arena (mkBlock 1 ARENA_BLOCK_SIZE 0) [(Alloc 100, None); (Alloc 70000, Some 2)] ex_arena_wf)
    as (s & a' & new & H1 & H2 & _ & H3); try done.
  - cbn. split_and!; [apply req_alloc_ok; lia|intros ? [=]|]. intros a' p [= <- <-].
    split_and!; [apply req_alloc_ok; lia|intros ? [= <-]; vm_compute; set_solver|done].
  - exists s, a', new. split; [exact H1|]. split; [exact H2|exact H3].
Defined.

Definition ex_arena2 : Arena :=
  mkArena [mkBlock 1 ARENA_BLOCK_SIZE 0; mkBlock 2 70000 7] 1 135536 7 2 0.

Lemma ex_arena2_wf : arena_wf ex_arena2.
Proof.
  constructor; [simpl; lia| |].
  - intros i b Hi. unfold ARENA_BLOCK_SIZE in *. destruct i as [|[|i]]; cbn in Hi; [injection Hi as <-..|done];
      unfold ARENA_BLOCK_SIZE; cbn; lia.
  - simpl. repeat constructor; set_solver.
Qed.

Lemma arena_reset_leaks_witness : exists a',
  arena_alloc (arena_reset ex_arena2) 70000 (Some 3) = Ok (a', Some (3, 0)) /\ 2 ∉ arena_destroy a'.
Proof.
  destruct (arena_reset_leaks ex_arena2 (mkBlock 1 ARENA_BLOCK_SIZE 0) 70000 3 [mkBlock 2 70000 7] ex_arena2_wf)
    as (a' & H1 & _ & H2 & _); [done|lia|done|vm_compute; set_solver|].
  exists a'. split; [exact H1|]. apply (H2 (mkBlock 2 70000 7)). left.
Defined.

Lemma arena_alloc_wraps_witness : exists a',
  arena_alloc ex_arena (2 ^ 64 - 1) None = Ok (a', Some (1, 0)) /\ blocks a' = blocks ex_arena.
Proof.
  destruct (arena_alloc_wraps ex_arena (mkBlock 1 ARENA_BLOCK_SIZE 0) (2 ^ 64 - 1) None ex_arena_wf)
    as (a' & H1 & H2 & _); [done|lia|]. exists a'. split; [exact H1|exact H2].
Defined.
