(* ===== verification/RingBuf.v ===== *)
(** * The network ring buffer and its arena

    Models [runtime/net/cx_arena.c] and [runtime/net/ringbuf.c].  The arena is
    bumped by a compare-and-swap loop: its concurrent use is a step relation
    over threads, and every interleaving hands out disjoint ranges.  The ring
    buffer, used by one reader and one writer at a time, refines a bounded
    FIFO queue, across the wrap-around of its 64-bit indices. *)
From S2P Require Import Prelude.

(** ** The arena *)

Module CxArena.

Record CxArena := mkArena { capacity : Z; offset : Z }.

Definition cx_align_up (value alignment : Z) : Z :=
  Z.land (u64 (value + alignment - 1)) (u64 (Z.lnot (alignment - 1))).

Definition cx_arena_create (cap : Z) : option CxArena :=
  if cap =? 0 then None else Some (mkArena cap 0).

(** One attempt of the loop, from the offset [old] it last read: the range and
    the new offset, or [None] when the arena is full. *)
Definition attempt (cap old size alignment : Z) : option (Z * Z) :=
  let aligned := cx_align_up old alignment in
  let next := u64 (aligned + size) in
  if cap <? next then None else Some (aligned, next).

(** Without contention the first attempt decides. *)
Definition cx_arena_alloc_aligned (a : CxArena) (size alignment : Z) : option (CxArena * Z) :=
  if (size =? 0) || (alignment =? 0) then None
  else '(aligned, next) ← attempt (capacity a) (offset a) size alignment;
       Some (mkArena (capacity a) next, aligned).

Definition cx_arena_alloc (a : CxArena) (size : Z) : option (CxArena * Z) :=
  cx_arena_alloc_aligned a size 16.

Definition cx_arena_reset (a : CxArena) : CxArena := mkArena (capacity a) 0.
Definition cx_arena_used (a : option CxArena) : Z := match a with Some a => offset a | None => 0 end.

(** *** Threads *)

Inductive thread :=
| Start (size alignment : Z)
| Loop (size alignment old : Z)       (* about to compare and swap *)
| Got (aligned size : Z)
| Full.

(** A step of one thread: the shared offset before and after. *)
Inductive tstep (cap : Z) : Z -> thread -> Z -> thread -> Prop :=
| t_load o size alignment :
    tstep cap o (Start size alignment) o (Loop size alignment o)
| t_full o size alignment old :
    attempt cap old size alignment = None -> tstep cap o (Loop size alignment old) o Full
| t_swap size alignment old aligned next :
    attempt cap old size alignment = Some (aligned, next) ->
    tstep cap old (Loop size alignment old) next (Got aligned size)
| t_retry o size alignment old aligned next :
    (* the offset moved, or the weak exchange failed spuriously *)
    attempt cap old size alignment = Some (aligned, next) ->
    tstep cap o (Loop size alignment old) o (Loop size alignment o).

Inductive step (cap : Z) : Z * list thread -> Z * list thread -> Prop :=
| step_thread o o' ts i t t' :
    ts !! i = Some t -> tstep cap o t o' t' -> step cap (o, ts) (o', <[i := t']> ts).

Definition request_ok (t : thread) : Prop :=
  match t with
  | Start size alignment =>
      0 < size < 2 ^ 62 /\ exists k, 0 <= k <= 12 /\ alignment = 2 ^ k
  | _ => False
  end.

(** The ranges do not overlap and fit. *)
Definition disjoint_ranges (cap : Z) (ts : list thread) : Prop :=
  (forall i a n, ts !! i = Some (Got a n) -> 0 <= a /\ a + n <= cap) /\
  (forall i j a n b m, i <> j -> ts !! i = Some (Got a n) -> ts !! j = Some (Got b m) ->
     a + n <= b \/ b + m <= a).

Lemma align_up_spec v k :
  0 <= v < 2 ^ 63 -> 0 <= k <= 12 ->
  v <= cx_align_up v (2 ^ k) < v + 2 ^ k /\ cx_align_up v (2 ^ k) mod 2 ^ k = 0.
Proof.
  intros Hv Hk. assert (Hp : 1 <= 2 ^ k <= 2 ^ 12).
  { split; [|by apply Z.pow_le_mono_r; lia]. pose proof (Z.pow_pos_nonneg 2 k). lia. }
  change (2 ^ 12) with 4096 in Hp. rewrite pow2_63 in Hv. unfold cx_align_up.
  rewrite (align_word v (2 ^ k) k) by (rewrite ?pow2_64; lia). apply round_up_spec. lia.
Qed.

Definition live (cap o : Z) (t : thread) : Prop :=
  match t with
  | Start size alignment => request_ok (Start size alignment)
  | Loop size alignment old => request_ok (Start size alignment) /\ 0 <= old <= cap
  | Got a n => 0 <= a /\ 0 < n /\ a + n <= o
  | Full => True
  end.

Record arena_inv (cap : Z) (s : Z * list thread) : Prop := {
  ai_offset : 0 <= fst s <= cap;
  ai_live : forall i t, snd s !! i = Some t -> live cap (fst s) t;
  ai_disjoint : forall i j a n b m, i <> j -> snd s !! i = Some (Got a n) ->
    snd s !! j = Some (Got b m) -> a + n <= b \/ b + m <= a
}.

Lemma attempt_spec cap old size alignment a n :
  cap < 2 ^ 62 -> 0 <= old <= cap -> request_ok (Start size alignment) ->
  attempt cap old size alignment = Some (a, n) -> old <= a /\ n = a + size /\ n <= cap.
Proof.
  intros Hc Ho [Hs (k & Hk & ->)]. unfold attempt.
  destruct (align_up_spec old k) as [Ha _]; [lia|done|].
  assert (2 ^ k <= 2 ^ 12) by (apply Z.pow_le_mono_r; lia).
  rewrite u64_small by (change (2 ^ 12) with 4096 in *; word_lia).
  destruct (Z.ltb_spec cap (cx_align_up old (2 ^ k) + size)); [done|]. intros [= <- <-]. lia.
Qed.

Lemma live_mono cap o o' t : o <= o' -> live cap o t -> live cap o' t.
Proof. intros Ho. destruct t; simpl; try done. lia. Qed.

Lemma step_inv cap s s' : cap < 2 ^ 62 -> arena_inv cap s -> step cap s s' -> arena_inv cap s'.
Proof.
  intros Hc [Hoff Hlive Hdis] Hst. destruct Hst as [o o' ts i t t' Hi Ht]. simpl in *.
  assert (Hlt : (i < length ts)%nat) by (by apply lookup_lt_Some in Hi).
  pose proof (Hlive i t Hi) as Hti.
  assert (Ho' : o <= o' <= cap /\ live cap o' t' /\
    (forall a n, t' = Got a n -> o <= a)).
  { destruct Ht as [o size al|o size al old Hat|size al old a n Hat|o size al old a n Hat]; simpl in *.
    - split; [lia|]. split; [|done]. split; [exact Hti|lia].
    - split; [lia|]. by split.
    - destruct Hti as [Hr Hold]. pose proof (attempt_spec _ _ _ _ _ _ Hc Hold Hr Hat) as (? & -> & ?).
      destruct Hr as [? _]. split; [lia|]. split; [lia|]. intros a0 n0 [= <- <-]. lia.
    - split; [lia|]. split; [|done]. split; [apply Hti|lia]. }
  destruct Ho' as (Ho & Ht' & Hgot). split; simpl; [lia| |].
  - intros j x Hj. destruct (decide (i = j)) as [<-|Hne].
    + rewrite list_lookup_insert_eq in Hj by done. by injection Hj as <-.
    + rewrite list_lookup_insert_ne in Hj by done. eapply live_mono, Hlive, Hj. lia.
  - assert (Hold : forall j b m, j <> i -> ts !! j = Some (Got b m) -> b + m <= o).
    { intros j b m _ Hj. by apply (Hlive j) in Hj as (_ & _ & ?). }
    intros j k a n b m Hjk Hj Hk.
    destruct (decide (i = j)) as [<-|Hij].
    + rewrite list_lookup_insert_eq in Hj by done. injection Hj as ->.
      rewrite list_lookup_insert_ne in Hk by done. right.
      specialize (Hold k b m ltac:(done) Hk). specialize (Hgot a n eq_refl). lia.
    + rewrite list_lookup_insert_ne in Hj by done. destruct (decide (i = k)) as [<-|Hik].
      * rewrite list_lookup_insert_eq in Hk by done. injection Hk as ->. left.
        specialize (Hold j a n ltac:(done) Hj). specialize (Hgot b m eq_refl). lia.
      * rewrite list_lookup_insert_ne in Hk by done. by apply (Hdis j k).
Qed.

(** The lock-free arena is safe under every interleaving.  Any number of
    threads that run [cx_arena_alloc_aligned] on an arena of less than 2^62
    bytes, with power-of-two alignments and sizes that do not overflow, obtain
    pairwise disjoint ranges inside the arena, at every point of every
    interleaving of their loads and compare-and-swaps, retries included. *)
Theorem arena_threads_disjoint cap ts o ts'
  (Hcap : 0 <= cap < 2 ^ 62) (Hreq : Forall request_ok ts)
  (Hrun : rtc (step cap) (0, ts) (o, ts')) :
  disjoint_ranges cap ts' /\ 0 <= o <= cap.
Proof.
  assert (Hinv : arena_inv cap (o, ts')).
  { apply (rtc_ind_r (R := step cap) (arena_inv cap) (0, ts)); [| |exact Hrun].
    - rewrite List.Forall_forall in Hreq.
      assert (Hok : forall i t, ts !! i = Some t -> request_ok t)
        by (intros i t Hi; by apply Hreq, list_elem_of_In; eapply list_elem_of_lookup_2).
      split; simpl; [lia| |].
      + intros i t Hi%Hok. by destruct t.
      + intros i j a n b m _ Hi%Hok. done.
    - intros s s' _ Hst IH. eapply step_inv; [lia|done|done]. }
  destruct Hinv as [Ho Hl Hd]. split; [split|done].
  - intros i a n Hi%Hl. simpl in *. lia.
  - intros i j a n b m. apply Hd.
Qed.

Lemma arena_threads_disjoint_witness :
  disjoint_ranges 256 [Got 64 100; Got 0 40; Full] /\ 0 <= 164 <= 256.
Proof.
  apply (arena_threads_disjoint 256 [Start 100 64; Start 40 16; Start 128 8] 164);
    [lia| |].
  - repeat constructor; try lia; [exists 6|exists 4|exists 3]; split; reflexivity || lia.
  - (* both load 0; the second wins, the first retries *)
    eapply rtc_l; [eapply (step_thread _ _ _ _ 0); [reflexivity|apply t_load]|]. simpl.
    eapply rtc_l; [eapply (step_thread _ _ _ _ 1); [reflexivity|apply t_load]|]. simpl.
    eapply rtc_l; [eapply (step_thread _ _ _ _ 1); [reflexivity|by eapply t_swap]|]. simpl.
    eapply rtc_l; [eapply (step_thread _ _ _ _ 0); [reflexivity|by eapply t_retry]|]. simpl.
    eapply rtc_l; [eapply (step_thread _ _ _ _ 0); [reflexivity|by eapply t_swap]|]. simpl.
    eapply rtc_l; [eapply (step_thread _ _ _ _ 2); [reflexivity|apply t_load]|]. simpl.
    eapply rtc_l; [eapply (step_thread _ _ _ _ 2); [reflexivity|by eapply t_full]|]. simpl.
    apply rtc_refl.
Defined.

End CxArena.

(** ** The ring buffer *)

Module Ring.

Record CxRingBuffer := mkRing {
  buf : list Z;
  capacity : Z;
  mask : Z;
  write_idx : Z;
  read_idx : Z
}.

Definition cx_is_pow2 (v : Z) : bool := negb (v =? 0) && (Z.land v (u64 (v - 1)) =? 0).

(** The arena zeroes what it hands out. *)
Definition cx_ringbuf_create (arena : option CxArena.CxArena) (sizeof_ring capacity_pow2 : Z)
  : option (CxArena.CxArena * CxRingBuffer) :=
  match arena with
  | None => None
  | Some a =>
      if negb (cx_is_pow2 capacity_pow2) then None else
      '(a, _) ← CxArena.cx_arena_alloc_aligned a sizeof_ring 64;
      '(a, _) ← CxArena.cx_arena_alloc_aligned a capacity_pow2 4096;
      Some (a, mkRing (replicate (Z.to_nat capacity_pow2) 0) capacity_pow2 (capacity_pow2 - 1) 0 0)
  end.

Definition cx_ringbuf_available_read (rb : CxRingBuffer) : Z := u64 (write_idx rb - read_idx rb).
Definition cx_ringbuf_available_write (rb : CxRingBuffer) : Z :=
  u64 (capacity rb - cx_ringbuf_available_read rb).

(** [memcpy(b + pos, l, |l|)] and [memcpy(out, b + pos, n)] *)
Definition splice (b : list Z) (pos : nat) (l : list Z) : list Z :=
  take pos b ++ l ++ drop (pos + length l) b.
Definition slice (b : list Z) (pos n : nat) : list Z := take n (drop pos b).

(** The number of bytes written; [None]: the assertion fails. *)
Definition cx_ringbuf_write (rb : CxRingBuffer) (data : list Z) : option (CxRingBuffer * Z) :=
  let len := Z.of_nat (length data) in
  if len =? 0 then Some (rb, 0) else
  let r := read_idx rb in
  let w := write_idx rb in
  let used := u64 (w - r) in
  if capacity rb <? used then None else
  let free_space := capacity rb - used in
  let n := if len <? free_space then len else free_space in
  let write_pos := Z.land w (mask rb) in
  let to_end := capacity rb - write_pos in
  let first := if to_end <? n then to_end else n in
  let b := splice (buf rb) (Z.to_nat write_pos) (take (Z.to_nat first) data) in
  let b := if first <? n
           then splice b 0 (take (Z.to_nat (n - first)) (drop (Z.to_nat first) data)) else b in
  Some (mkRing b (capacity rb) (mask rb) (u64 (w + n)) r, n).

(** The bytes copied to [out]. *)
Definition cx_ringbuf_read (rb : CxRingBuffer) (len : Z) : CxRingBuffer * list Z :=
  if len =? 0 then (rb, []) else
  let w := write_idx rb in
  let r := read_idx rb in
  let used := u64 (w - r) in
  if used =? 0 then (rb, []) else
  let n := if len <? used then len else used in
  let read_pos := Z.land r (mask rb) in
  let to_end := capacity rb - read_pos in
  let first := if to_end <? n then to_end else n in
  let out := slice (buf rb) (Z.to_nat read_pos) (Z.to_nat first) in
  let out := if first <? n then out ++ slice (buf rb) 0 (Z.to_nat (n - first)) else out in
  (mkRing (buf rb) (capacity rb) (mask rb) w (u64 (r + n)), out).

(** ** The queue a buffer represents *)

(** The byte an index designates. *)
Definition cell (rb : CxRingBuffer) (i : Z) : Z :=
  default 0 (buf rb !! Z.to_nat (i mod capacity rb)).

Definition contents (rb : CxRingBuffer) : list Z :=
  map (cell rb) (seqZ (read_idx rb) (cx_ringbuf_available_read rb)).

Record ring_ok (rb : CxRingBuffer) : Prop := {
  ro_cap : exists k, 0 <= k <= 62 /\ capacity rb = 2 ^ k;
  ro_mask : mask rb = capacity rb - 1;
  ro_len : Z.of_nat (length (buf rb)) = capacity rb;
  ro_w : 0 <= write_idx rb < 2 ^ 64;
  ro_r : 0 <= read_idx rb < 2 ^ 64;
  ro_used : cx_ringbuf_available_read rb <= capacity rb
}.

Section ring.
Context (rb : CxRingBuffer) (Hok : ring_ok rb).

Lemma cap_pos : 0 < capacity rb.
Proof. destruct (ro_cap _ Hok) as (k & Hk & ->). apply Z.pow_pos_nonneg; lia. Qed.

Lemma land_mask_mod i : Z.land i (mask rb) = i mod capacity rb.
Proof.
  rewrite (ro_mask _ Hok). destruct (ro_cap _ Hok) as (k & Hk & ->).
  replace (2 ^ k - 1) with (Z.ones k) by (rewrite Z.ones_equiv; lia). apply Z.land_ones. lia.
Qed.

(** The capacity divides 2^64, so wrapping an index keeps its cell. *)
Lemma mod_u64 i : u64 i mod capacity rb = i mod capacity rb.
Proof.
  destruct (ro_cap _ Hok) as (k & Hk & ->). unfold u64.
  replace (2 ^ 64) with (2 ^ k * 2 ^ (64 - k)) by (rewrite <- Z.pow_add_r by lia; f_equal; lia).
  rewrite Z.rem_mul_r by (try apply Z.pow_nonzero; try apply Z.pow_pos_nonneg; lia).
  rewrite Z.mul_comm, Z_mod_plus_full. apply Z.mod_mod, Z.pow_nonzero; lia.
Qed.

Lemma cell_u64 i : cell rb (u64 i) = cell rb i.
Proof. unfold cell. by rewrite mod_u64. Qed.

Lemma used_w : u64 (read_idx rb + cx_ringbuf_available_read rb) = write_idx rb.
Proof.
  unfold cx_ringbuf_available_read, u64. rewrite Zplus_mod_idemp_r.
  replace (read_idx rb + (write_idx rb - read_idx rb)) with (write_idx rb) by lia.
  apply Z.mod_small, Hok.
Qed.

Lemma used_nonneg : 0 <= cx_ringbuf_available_read rb.
Proof. apply u64_range. Qed.
End ring.

(** ** Lists as byte arrays *)

Lemma splice_length b pos l :
  (pos + length l <= length b)%nat -> length (splice b pos l) = length b.
Proof. intros H. unfold splice. rewrite !length_app, length_take, length_drop. lia. Qed.

Lemma splice_in b pos l i :
  (pos + length l <= length b)%nat -> (i < length l)%nat -> splice b pos l !! (pos + i)%nat = l !! i.
Proof.
  intros H Hi. unfold splice. rewrite lookup_app_r; rewrite length_take; [|lia].
  replace (pos + i - pos `min` length b)%nat with i by lia. by rewrite lookup_app_l.
Qed.

Lemma splice_out b pos l i :
  (pos + length l <= length b)%nat -> (i < pos \/ pos + length l <= i)%nat ->
  splice b pos l !! i = b !! i.
Proof.
  intros H [Hi|Hi]; unfold splice.
  - rewrite lookup_app_l by (rewrite length_take; lia). by rewrite lookup_take_lt.
  - rewrite lookup_app_r by (rewrite length_take; lia). rewrite length_take.
    rewrite lookup_app_r by lia. rewrite lookup_drop. f_equal. lia.
Qed.

Lemma slice_lookup b pos n i : (i < n)%nat -> slice b pos n !! i = b !! (pos + i)%nat.
Proof. intros Hi. unfold slice. rewrite lookup_take_lt by done. apply lookup_drop. Qed.

(** Both copies of a write, as one: cell [w + i] holds [data !! i]. *)
Lemma two_part_write b cap p n data :
  Z.of_nat (length b) = cap -> 0 <= p < cap -> 0 <= n <= cap -> n <= Z.of_nat (length data) ->
  let first := if cap - p <? n then cap - p else n in
  let b1 := splice b (Z.to_nat p) (take (Z.to_nat first) data) in
  let b2 := if first <? n then splice b1 0 (take (Z.to_nat (n - first)) (drop (Z.to_nat first) data))
            else b1 in
  length b2 = length b /\
  (forall i, 0 <= i < n -> b2 !! Z.to_nat ((p + i) mod cap) = data !! Z.to_nat i) /\
  (forall i, n <= i < cap -> b2 !! Z.to_nat ((p + i) mod cap) = b !! Z.to_nat ((p + i) mod cap)).
Proof.
  intros Hb Hp Hn Hd first b1 b2.
  assert (Hmod : forall i, 0 <= i < cap -> (p + i) mod cap = if p + i <? cap then p + i else p + i - cap).
  { intros i Hi. destruct (Z.ltb_spec (p + i) cap); [by apply Z.mod_small; lia|].
    rewrite <- (Z_mod_plus_full _ (-1)), Z.mod_small; lia. }
  assert (Hfirst : first = Z.min n (cap - p)) by (subst first; destruct (Z.ltb_spec (cap - p) n); lia).
  assert (Hl1 : length (take (Z.to_nat first) data) = Z.to_nat first) by (rewrite length_take; lia).
  assert (Hl2 : length (take (Z.to_nat (n - first)) (drop (Z.to_nat first) data)) = Z.to_nat (n - first))
    by (rewrite length_take, length_drop; lia).
  assert (Hlb1 : length b1 = length b) by (apply splice_length; lia).
  assert (Hlb2 : length b2 = length b).
  { subst b2. destruct (first <? n); [|done]. rewrite splice_length; lia. }
  split; [done|]. split; intros i Hi; rewrite Hmod by lia; subst b2.
  - destruct (Z.ltb_spec (p + i) cap), (Z.ltb_spec first n).
    + rewrite splice_out by (first [lia | left; lia | right; lia]). subst b1.
      replace (Z.to_nat (p + i)) with (Z.to_nat p + Z.to_nat i)%nat by lia.
      rewrite splice_in by lia. by rewrite lookup_take_lt by lia.
    + subst b1. replace (Z.to_nat (p + i)) with (Z.to_nat p + Z.to_nat i)%nat by lia.
      rewrite splice_in by lia. by rewrite lookup_take_lt by lia.
    + replace (Z.to_nat (p + i - cap)) with (0 + Z.to_nat (i - first))%nat by lia.
      rewrite splice_in by lia. rewrite lookup_take_lt by lia. rewrite lookup_drop. f_equal. lia.
    + lia.
  - destruct (Z.ltb_spec (p + i) cap), (Z.ltb_spec first n).
    + lia.
    + subst b1. by rewrite splice_out by (first [lia | left; lia | right; lia]).
    + rewrite splice_out by (first [lia | left; lia | right; lia]). subst b1. by rewrite splice_out by (first [lia | left; lia | right; lia]).
    + subst b1. by rewrite splice_out by (first [lia | left; lia | right; lia]).
Qed.

Lemma two_part_read b cap p n :
  Z.of_nat (length b) = cap -> 0 <= p < cap -> 0 <= n <= cap ->
  let first := if cap - p <? n then cap - p else n in
  let out := slice b (Z.to_nat p) (Z.to_nat first) in
  (if first <? n then out ++ slice b 0 (Z.to_nat (n - first)) else out) =
  map (fun i => default 0 (b !! Z.to_nat (i mod cap))) (seqZ p n).
Proof.
  intros Hb Hp Hn first out.
  assert (Hfirst : first = Z.min n (cap - p)) by (subst first; destruct (Z.ltb_spec (cap - p) n); lia).
  assert (Hs : forall q m, (q + m <= length b)%nat -> slice b q m =
    map (fun i => default 0 (b !! Z.to_nat i)) (seqZ (Z.of_nat q) (Z.of_nat m))).
  { intros q m Hqm. apply list_eq. intros i. rewrite list_lookup_fmap.
    destruct (decide (i < m)%nat).
    - rewrite slice_lookup by done. rewrite lookup_seqZ_lt by lia. simpl.
      replace (Z.to_nat (Z.of_nat q + Z.of_nat i)) with (q + i)%nat by lia.
      destruct (lookup_lt_is_Some_2 b (q + i)) as [x ->]; [lia|done].
    - rewrite lookup_seqZ_ge by lia. apply lookup_ge_None. unfold slice.
      rewrite length_take, length_drop. lia. }
  assert (Hseq : seqZ p n = seqZ p first ++ seqZ (p + first) (n - first)).
  { replace n with (first + (n - first)) at 1 by lia. by rewrite seqZ_app by lia. }
  rewrite Hseq, map_app. assert (H1 : out = map (fun i => default 0 (b !! Z.to_nat (i mod cap))) (seqZ p first)).
  { subst out. rewrite Hs by lia. rewrite !Z2Nat.id by lia. apply map_ext_in. intros i Hi.
    apply list_elem_of_In, elem_of_seqZ in Hi. by rewrite Z.mod_small by lia. }
  rewrite H1. destruct (Z.ltb_spec first n) as [Hlt|Hge].
  - f_equal. rewrite Hs by lia. rewrite !Z2Nat.id by lia.
    assert (Hp0 : p + first = cap) by lia. rewrite Hp0. change (Z.of_nat 0) with 0.
    replace (seqZ cap (n - first)) with (Z.add cap <$> seqZ 0 (n - first))
      by (rewrite fmap_add_seqZ; f_equal; lia).
    change (Z.add cap <$> ?l) with (map (Z.add cap) l). rewrite map_map. apply map_ext_in. intros i Hi.
    apply list_elem_of_In, elem_of_seqZ in Hi.
    rewrite <- (Z_mod_plus_full _ (-1)), Z.mod_small by lia. do 3 f_equal. lia.
  - replace (n - first) with 0 by lia. simpl. by rewrite app_nil_r.
Qed.

(** ** Refinement of a bounded queue *)

Lemma contents_length rb : Z.of_nat (length (contents rb)) = cx_ringbuf_available_read rb.
Proof. unfold contents. rewrite length_map, length_seqZ. pose proof (used_nonneg rb). lia. Qed.

Lemma read_all rb (Hok : ring_ok rb) n :
  0 <= n <= cx_ringbuf_available_read rb ->
  map (cell rb) (seqZ (Z.land (read_idx rb) (mask rb)) n) = map (cell rb) (seqZ (read_idx rb) n).
Proof.
  intros Hn. rewrite (land_mask_mod rb Hok).
  assert (Hsh : forall a, seqZ a n = Z.add a <$> seqZ 0 n)
    by (intros a; rewrite fmap_add_seqZ; f_equal; lia).
  rewrite (Hsh (_ mod _)), (Hsh (read_idx rb)).
  change (?f <$> ?l) with (map f l). rewrite !map_map. apply map_ext. intros i.
  unfold cell. by rewrite Zplus_mod_idemp_l.
Qed.

Lemma u64_shift a n : 0 <= n -> n <= u64 a -> u64 (a - n) = u64 a - n.
Proof.
  intros Hn Hle. pose proof (u64_range a). unfold u64 in *.
  rewrite <- Zminus_mod_idemp_l. apply Z.mod_small. lia.
Qed.

Lemma u64_used rb (Hok : ring_ok rb) n :
  0 <= n -> n <= capacity rb - cx_ringbuf_available_read rb ->
  u64 (u64 (write_idx rb + n) - read_idx rb) = cx_ringbuf_available_read rb + n.
Proof.
  intros Hn Hle. destruct (ro_cap _ Hok) as (k & Hk & Hc).
  assert (2 ^ k <= 2 ^ 62) by (apply Z.pow_le_mono_r; lia).
  pose proof (used_nonneg rb). unfold u64 at 1 2. rewrite Zminus_mod_idemp_l.
  replace (write_idx rb + n - read_idx rb) with (write_idx rb - read_idx rb + n) by lia.
  rewrite <- Zplus_mod_idemp_l. apply Z.mod_small. fold (u64 (write_idx rb - read_idx rb)).
  fold (cx_ringbuf_available_read rb). word_lia.
Qed.

Lemma write_mod rb (Hok : ring_ok rb) :
  write_idx rb mod capacity rb = (read_idx rb + cx_ringbuf_available_read rb) mod capacity rb.
Proof. rewrite <- (used_w rb Hok) at 1. by apply mod_u64. Qed.

Lemma write_refines rb (Hok : ring_ok rb) data :
  exists rb' n,
    cx_ringbuf_write rb data = Some (rb', n) /\ ring_ok rb' /\ capacity rb' = capacity rb /\
    n = Z.min (Z.of_nat (length data)) (cx_ringbuf_available_write rb) /\
    contents rb' = contents rb ++ take (Z.to_nat n) data.
Proof.
  pose proof (cap_pos rb Hok) as Hcap. pose proof (used_nonneg rb) as Hu0. pose proof (ro_used _ Hok) as Hu.
  unfold cx_ringbuf_write.
  assert (Hav : cx_ringbuf_available_write rb = capacity rb - cx_ringbuf_available_read rb).
  { unfold cx_ringbuf_available_write. apply u64_small. destruct (ro_cap _ Hok) as (k & Hk & Hc).
    assert (2 ^ k <= 2 ^ 62) by (apply Z.pow_le_mono_r; lia). word_lia. }
  rewrite Hav. destruct (Z.eqb_spec (Z.of_nat (length data)) 0) as [H0|H0].
  { exists rb, 0. split_and!; [done|done|done|lia|]. simpl. by rewrite app_nil_r. }
  fold (cx_ringbuf_available_read rb). set (used := cx_ringbuf_available_read rb) in *.
  destruct (Z.ltb_spec (capacity rb) used); [lia|].
  set (n := if Z.of_nat (length data) <? capacity rb - used then _ else _).
  assert (Hn : n = Z.min (Z.of_nat (length data)) (capacity rb - used))
    by (subst n; destruct (Z.ltb_spec (Z.of_nat (length data)) (capacity rb - used)); lia).
  clearbody n. rewrite (land_mask_mod rb Hok).
  pose proof (Z.mod_pos_bound (write_idx rb) (capacity rb) Hcap) as Hp.
  destruct (two_part_write (buf rb) (capacity rb) (write_idx rb mod capacity rb) n data)
    as (Hlen & Hin & Hout); [apply Hok|lia..|].
  match goal with |- context [mkRing ?b _ _ _ _] => set (b2 := b) in * end.
  eexists _, n. split; [reflexivity|]. set (rb' := mkRing _ _ _ _ _).
  assert (Hused : cx_ringbuf_available_read rb' = used + n) by (apply (u64_used rb Hok n); [lia|fold used; lia]).
  split_and!; [|done|done|].
  - split; [apply Hok|apply Hok|by etransitivity; [exact (f_equal Z.of_nat Hlen)|apply Hok]|apply u64_range|apply Hok|rewrite Hused; simpl; lia].
  - unfold contents. rewrite Hused. change (read_idx rb') with (read_idx rb). fold used.
    rewrite seqZ_app, map_app by lia. f_equal.
    + apply map_ext_in. intros i Hi. apply list_elem_of_In, elem_of_seqZ in Hi. unfold cell.
      change (capacity rb') with (capacity rb). change (buf rb') with b2.
      assert (Heq : i mod capacity rb =
        (write_idx rb mod capacity rb + (i - read_idx rb - used + capacity rb)) mod capacity rb).
      { rewrite (write_mod rb Hok), Zplus_mod_idemp_l. fold used.
        replace (read_idx rb + used + (i - read_idx rb - used + capacity rb))
          with (i + 1 * capacity rb) by lia. by rewrite Z_mod_plus_full. }
      rewrite Heq, Hout by lia. done.
    + apply list_eq. intros i. rewrite list_lookup_fmap. destruct (decide (Z.of_nat i < n)).
      * rewrite lookup_seqZ_lt, lookup_take_lt by lia. simpl. unfold cell.
        change (capacity rb') with (capacity rb). change (buf rb') with b2.
        assert (Heq : (read_idx rb + used + Z.of_nat i) mod capacity rb =
          (write_idx rb mod capacity rb + Z.of_nat i) mod capacity rb).
        { by rewrite (write_mod rb Hok), Zplus_mod_idemp_l. }
        rewrite Heq, Hin, Nat2Z.id by lia.
        destruct (lookup_lt_is_Some_2 data i) as [x ->]; [lia|done].
      * rewrite lookup_seqZ_ge by lia. rewrite lookup_take_ge by lia. done.
Qed.

Lemma read_refines rb (Hok : ring_ok rb) len :
  0 <= len -> exists rb' out,
    cx_ringbuf_read rb len = (rb', out) /\ ring_ok rb' /\ capacity rb' = capacity rb /\
    out = take (Z.to_nat len) (contents rb) /\ contents rb' = drop (Z.to_nat len) (contents rb).
Proof.
  intros Hlen. pose proof (cap_pos rb Hok) as Hcap. pose proof (used_nonneg rb) as Hu0.
  pose proof (ro_used _ Hok) as Hu. pose proof (contents_length rb) as Hcl. unfold cx_ringbuf_read.
  destruct (Z.eqb_spec len 0) as [->|H0]; [by exists rb, []|].
  fold (cx_ringbuf_available_read rb). set (used := cx_ringbuf_available_read rb) in *.
  destruct (Z.eqb_spec used 0) as [Hz|Hz].
  { assert (Hc : contents rb = []) by (apply nil_length_inv; lia).
    exists rb, []. rewrite Hc, take_nil, drop_nil. by split_and!. }
  set (n := if len <? used then len else used).
  assert (Hn : n = Z.min len used) by (subst n; destruct (Z.ltb_spec len used); lia).
  clearbody n.
  pose proof (Z.mod_pos_bound (read_idx rb) (capacity rb) Hcap) as Hp.
  rewrite (two_part_read (buf rb) (capacity rb) (Z.land (read_idx rb) (mask rb)) n);
    [|apply Hok|rewrite land_mask_mod by done; lia|lia].
  change (map _ (seqZ (Z.land (read_idx rb) (mask rb)) n))
    with (map (cell rb) (seqZ (Z.land (read_idx rb) (mask rb)) n)).
  rewrite read_all by (done || lia).
  eexists _, _. split; [reflexivity|]. set (rb' := mkRing _ _ _ _ _).
  assert (Hused : cx_ringbuf_available_read rb' = used - n).
  { unfold cx_ringbuf_available_read. simpl. unfold u64 at 1 2. rewrite Zminus_mod_idemp_r.
    replace (write_idx rb - (read_idx rb + n)) with (write_idx rb - read_idx rb - n) by lia.
    apply u64_shift; [lia|]. fold (cx_ringbuf_available_read rb). fold used. lia. }
  assert (Hsplit : contents rb = map (cell rb) (seqZ (read_idx rb) n) ++
                     map (cell rb) (seqZ (read_idx rb + n) (used - n))).
  { unfold contents. fold used. replace used with (n + (used - n)) at 1 by lia.
    by rewrite seqZ_app, map_app by lia. }
  assert (Hl : length (map (cell rb) (seqZ (read_idx rb) n)) = Z.to_nat n)
    by (rewrite length_map, length_seqZ; done).
  assert (Hr' : contents rb' = map (cell rb) (seqZ (read_idx rb + n) (used - n))).
  { unfold contents. rewrite Hused. change (cell rb') with (cell rb).
    change (read_idx rb') with (u64 (read_idx rb + n)).
    assert (Hsh : forall a, seqZ a (used - n) = Z.add a <$> seqZ 0 (used - n))
      by (intros a; rewrite fmap_add_seqZ; f_equal; lia).
    rewrite (Hsh (u64 _)), (Hsh (read_idx rb + n)). change (?f <$> ?l) with (map f l).
    rewrite !map_map. apply map_ext. intros i. unfold cell.
    rewrite <- Zplus_mod_idemp_l, (mod_u64 rb Hok), Zplus_mod_idemp_l. done. }
  split_and!; [|done| |].
  - split; [apply Hok|apply Hok|apply Hok|apply Hok|apply u64_range|rewrite Hused; simpl; lia].
  - destruct (Z_lt_le_dec len used).
    + rewrite Hsplit, take_app_le by lia. rewrite take_ge by lia. done.
    + rewrite take_ge by lia. unfold contents. fold used. by replace n with used by lia.
  - rewrite Hr'. destruct (Z_lt_le_dec len used).
    + rewrite Hsplit. replace (Z.to_nat len) with (length (map (cell rb) (seqZ (read_idx rb) n))) by lia.
      by rewrite drop_app_length.
    + rewrite drop_ge by lia. replace (used - n) with 0 by lia. done.
Qed.

(** C33: the ring buffer is a bounded FIFO queue.  On a well-formed buffer of
    power-of-two capacity a write appends the longest prefix of the data that
    fits and a read removes and returns the longest available prefix of the
    queue, in order, whatever the wrap-around of the buffer and of the 64-bit
    indices; well-formedness is kept. *)
Theorem ring_refines_queue rb (Hok : ring_ok rb) :
  (forall data, exists rb' n,
     cx_ringbuf_write rb data = Some (rb', n) /\ ring_ok rb' /\ capacity rb' = capacity rb /\
     n = Z.min (Z.of_nat (length data)) (cx_ringbuf_available_write rb) /\
     contents rb' = contents rb ++ take (Z.to_nat n) data) /\
  (forall len, 0 <= len -> exists rb' out,
     cx_ringbuf_read rb len = (rb', out) /\ ring_ok rb' /\ capacity rb' = capacity rb /\
     out = take (Z.to_nat len) (contents rb) /\ contents rb' = drop (Z.to_nat len) (contents rb)).
Proof. split; [apply (write_refines rb Hok)|apply (read_refines rb Hok)]. Qed.

(** The buffer of 4 bytes has indices that are about to wrap past [2^64]. *)
Lemma ring_refines_queue_witness :
  contents (mkRing [0; 0; 10; 20] 4 3 0 (2 ^ 64 - 2)) = [10; 20] /\
  exists rb' n, cx_ringbuf_write (mkRing [0; 0; 10; 20] 4 3 0 (2 ^ 64 - 2)) [30; 40; 50] = Some (rb', n) /\
    rb' = mkRing [30; 40; 10; 20] 4 3 2 (2 ^ 64 - 2) /\ contents rb' = [10; 20; 30; 40].
Proof.
  split; [reflexivity|].
  assert (Hok : ring_ok (mkRing [0; 0; 10; 20] 4 3 0 (2 ^ 64 - 2))).
  { split; simpl; try lia; try (split; lia); [by exists 2|vm_compute; congruence]. }
  destruct (ring_refines_queue _ Hok) as [Hw _].
  destruct (Hw [30; 40; 50]) as (rb' & n & Hr & _ & _ & Hn & Hc). exists rb', n.
  split; [exact Hr|]. split; [vm_compute in Hr; by injection Hr as <- _|].
  rewrite Hc, Hn. reflexivity.
Defined.

End Ring.
