(* ===== verification/WsFrame.v ===== *)
(** * WebSocket framing

    [runtime/net/websocket_framing.c].  [cpx_ws_encode_frame] lays a frame out
    in a caller's buffer; [cpx_ws_decode_frame] parses one from the bytes
    received so far.  Buffers are lists of bytes; an access past their end is
    [Undef], so that the bounds checks of the code are visible in the
    theorems.  A pointer argument that may be null is an [option]; the payload
    pointer of a decoded frame is the part of the input buffer it points at. *)
From S2P Require Import Prelude.

Record CpxWSFrame := mkFrame {
  fin : bool; opcode : Z; masked : bool; payload_len : Z;
  mask_key : list Z; payload : option (list Z)
}.

Definition CPX_WS_OP_TEXT : Z := 1.
Definition CPX_WS_OP_BINARY : Z := 2.
Definition CPX_WS_OP_PING : Z := 9.

(** ** Memory accesses *)

(** [n] bytes from a pointer; nothing is read for [n = 0]. *)
Definition read_n (p : option (list Z)) (n : Z) : outcome (list Z) :=
  if n =? 0 then Ok []
  else match p with
       | Some l => if n <=? Z.of_nat (length l) then Ok (take (Z.to_nat n) l) else Undef
       | None => Undef
       end.

(** [n] bytes at index [pos] of a buffer. *)
Definition slice_at (b : list Z) (pos n : Z) : outcome (list Z) :=
  if pos + n <=? Z.of_nat (length b) then Ok (take (Z.to_nat n) (drop (Z.to_nat pos) b)) else Undef.

Definition byte_at (b : list Z) (i : Z) : outcome Z := of_option (b !! Z.to_nat i).

(** The bytes [l] stored at index [pos]. *)
Definition poke (b : list Z) (pos : Z) (l : list Z) : outcome (list Z) :=
  if pos + Z.of_nat (length l) <=? Z.of_nat (length b)
  then Ok (take (Z.to_nat pos) b ++ l ++ drop (Z.to_nat pos + length l) b)
  else Undef.

(** ** Encoder *)

Definition write_u16_be (v : Z) : list Z := [u8 (Z.shiftr v 8); u8 (Z.land v 255)].

Definition write_u64_be (v : Z) : list Z :=
  map (fun i => u8 (Z.land (Z.shiftr v (i * 8)) 255)) [7; 6; 5; 4; 3; 2; 1; 0].

(** The masking loop: byte [i] against byte [i % 4] of the key. *)
Definition apply_mask (key pay : list Z) : list Z :=
  imap (fun i b => u8 (Z.lxor b (nth (i mod 4) key 0))) pay.

Definition mask_bit (m : bool) : Z := if m then 128 else 0.

(** The length byte and its 16- or 64-bit extension. *)
Definition length_bytes (m : bool) (plen : Z) : list Z :=
  if plen <=? 125 then [u8 (Z.lor (mask_bit m) (u8 plen))]
  else if plen <=? 65535 then u8 (Z.lor (mask_bit m) 126) :: write_u16_be (u16 plen)
  else u8 (Z.lor (mask_bit m) 127) :: write_u64_be plen.

Definition first_byte (f : CpxWSFrame) : Z :=
  u8 (Z.lor (if fin f then 128 else 0) (Z.land (opcode f) 15)).

Definition header_len (f : CpxWSFrame) : Z :=
  2 + (if payload_len f <=? 125 then 0 else if payload_len f <=? 65535 then 2 else 8)
    + (if masked f then 4 else 0).

(** The result is the return code, the buffer and [*out_written]. *)
Definition cpx_ws_encode_frame (frame : option CpxWSFrame) (out_buf : option (list Z)) (out_size : Z)
    (out_written : option Z) : outcome (Z * option (list Z) * option Z) :=
  match frame, out_buf, out_written with
  | Some f, Some buf, Some _ =>
      let plen := payload_len f in
      let need := u64 (header_len f + plen) in
      if out_size <? need then Ok (-2, out_buf, out_written)
      else
        let! buf := poke buf 0 [first_byte f] in
        let! buf := poke buf 1 (length_bytes (masked f) plen) in
        let pos := 1 + Z.of_nat (length (length_bytes (masked f) plen)) in
        if masked f then
          let! buf := poke buf pos (mask_key f) in
          let pos := pos + 4 in
          let! pay := read_n (payload f) plen in
          let! buf := poke buf pos (apply_mask (mask_key f) pay) in
          Ok (0, Some buf, Some (u64 (pos + plen)))
        else
          let! buf := match payload f with
                      | Some _ => let! pay := read_n (payload f) plen in poke buf pos pay
                      | None => Ok buf
                      end in
          Ok (0, Some buf, Some (u64 (pos + plen)))
  | _, _, _ => Ok (-1, out_buf, out_written)
  end.

(** ** Decoder *)

Definition zero_frame : CpxWSFrame := mkFrame false 0 false 0 [0; 0; 0; 0] None.

(** [len = (len << 8) | b] over the extension bytes. *)
Definition read_be (l : list Z) : Z := foldl (fun len b => u64 (Z.lor (Z.shiftl len 8) b)) 0 l.

(** The payload length and the position after it; [None] is "incomplete". *)
Definition decode_len (buf : list Z) (in_size len : Z) : outcome (option (Z * Z)) :=
  if len =? 126 then
    if in_size <? 2 + 2 then Ok None
    else let! hi := byte_at buf 2 in
         let! lo := byte_at buf 3 in
         Ok (Some (Z.lor (Z.shiftl hi 8) lo, 4))
  else if len =? 127 then
    if in_size <? 2 + 8 then Ok None
    else let! bs := slice_at buf 2 8 in Ok (Some (read_be bs, 10))
  else Ok (Some (len, 2)).

Definition decode_key (buf : list Z) (in_size : Z) (m : bool) (pos : Z) : outcome (option (list Z * Z)) :=
  if m then
    if in_size <? pos + 4 then Ok None
    else let! key := slice_at buf pos 4 in Ok (Some (key, pos + 4))
  else Ok (Some ([0; 0; 0; 0], pos)).

(** The result is the return code, [*out_frame] and [*consumed]. *)
Definition cpx_ws_decode_frame (in_buf : option (list Z)) (in_size : Z) (out_frame : option CpxWSFrame)
    (consumed : option Z) : outcome (Z * option CpxWSFrame * option Z) :=
  match in_buf, out_frame, consumed with
  | Some buf, Some _, Some _ =>
      if in_size <? 2 then Ok (-1, Some zero_frame, consumed)
      else
        let! b0 := byte_at buf 0 in
        let! b1 := byte_at buf 1 in
        let fin := negb (Z.land b0 128 =? 0) in
        let op := Z.land b0 15 in
        let m := negb (Z.land b1 128 =? 0) in
        let! l := decode_len buf in_size (Z.land b1 127) in
        match l with
        | None => Ok (-1, Some (mkFrame fin op false 0 [0; 0; 0; 0] None), consumed)
        | Some (len, pos) =>
            let! k := decode_key buf in_size m pos in
            match k with
            | None => Ok (-1, Some (mkFrame fin op m len [0; 0; 0; 0] None), consumed)
            | Some (key, pos) =>
                if in_size <? u64 (pos + len)
                then Ok (-1, Some (mkFrame fin op m len key None), consumed)
                else Ok (0, Some (mkFrame fin op m len key (Some (drop (Z.to_nat pos) buf))),
                         Some (u64 (pos + len)))
            end
        end
  | _, _, _ => Ok (-2, out_frame, consumed)
  end.

(** ** Bytes and lengths *)

Definition is_byte (b : Z) : Prop := 0 <= b < 256.

Lemma u8_ones z : u8 z = Z.land z (Z.ones 8).
Proof. unfold u8. by rewrite Z.land_ones. Qed.

Lemma u8_byte z : is_byte (u8 z).
Proof. apply Z.mod_pos_bound. reflexivity. Qed.

Lemma byte_u8 b : is_byte b -> u8 b = b.
Proof. intros H. apply Z.mod_small. exact H. Qed.

(** A boolean statement about the numbers below [n], checked one by one. *)
Lemma below_check (P : Z -> bool) n :
  forallb P (seqZ 0 n) = true -> forall x, 0 <= x < n -> P x = true.
Proof.
  intros H x Hx. rewrite forallb_forall in H. apply H, list_elem_of_In, elem_of_seqZ. lia.
Qed.

Lemma first_byte_bits f :
  0 <= opcode f < 16 ->
  Z.land (first_byte f) 15 = opcode f /\ negb (Z.land (first_byte f) 128 =? 0) = fin f.
Proof.
  intros Hop. unfold first_byte. generalize (fin f). intros b.
  assert (Hc : ((Z.land (u8 (Z.lor (if b then 128 else 0) (Z.land (opcode f) 15))) 15 =? opcode f) &&
    Bool.eqb (negb (Z.land (u8 (Z.lor (if b then 128 else 0) (Z.land (opcode f) 15))) 128 =? 0)) b) = true)
    by (destruct b; revert Hop; generalize (opcode f); intros x Hx; revert x Hx; by apply below_check).
  apply andb_prop in Hc as [H1%Z.eqb_eq H2%Bool.eqb_prop]. done.
Qed.

Lemma length_byte_bits m x :
  0 <= x < 128 ->
  Z.land (u8 (Z.lor (mask_bit m) x)) 127 = x /\
  negb (Z.land (u8 (Z.lor (mask_bit m) x)) 128 =? 0) = m.
Proof.
  intros Hx.
  assert (Hc : ((Z.land (u8 (Z.lor (mask_bit m) x)) 127 =? x) &&
    Bool.eqb (negb (Z.land (u8 (Z.lor (mask_bit m) x)) 128 =? 0)) m) = true)
    by (destruct m; revert x Hx; by apply below_check).
  apply andb_prop in Hc as [H1%Z.eqb_eq H2%Bool.eqb_prop]. done.
Qed.

(** One step of the big-endian reader undoes one step of the writer. *)
Lemma join_bits x k :
  0 <= k ->
  Z.lor (Z.shiftl (Z.shiftr x (k + 8)) 8) (u8 (Z.land (Z.shiftr x k) 255)) = Z.shiftr x k.
Proof.
  intros Hk. apply Z.bits_inj'. intros n Hn. rewrite u8_ones. change 255 with (Z.ones 8).
  rewrite Z.lor_spec, Z.shiftl_spec, !Z.land_spec, !(Z.shiftr_spec x k) by lia.
  destruct (Z_lt_le_dec n 8).
  - rewrite Z.ones_spec_low, Z.testbit_neg_r by lia. by destruct (Z.testbit x (n + k)).
  - rewrite Z.ones_spec_high, Z.shiftr_spec by lia. replace (n - 8 + (k + 8)) with (n + k) by lia.
    rewrite !andb_false_r. apply orb_false_r.
Qed.

Lemma join_byte a x k :
  0 <= k -> 0 <= x < 2 ^ 64 -> a = Z.shiftr x (k + 8) ->
  u64 (Z.lor (Z.shiftl a 8) (u8 (Z.land (Z.shiftr x k) 255))) = Z.shiftr x k.
Proof.
  intros Hk Hx ->. rewrite join_bits by done.
  apply u64_small. rewrite Z.shiftr_div_pow2 by lia. split.
  - apply Z.div_pos; [lia|apply Z.pow_pos_nonneg; lia].
  - apply Z.le_lt_trans with x; [|lia]. apply Z.div_le_upper_bound; [apply Z.pow_pos_nonneg; lia|].
    assert (0 < 2 ^ k) by (apply Z.pow_pos_nonneg; lia). nia.
Qed.

Lemma read_write_be v : 0 <= v < 2 ^ 64 -> read_be (write_u64_be v) = v.
Proof.
  intros Hv. unfold read_be, write_u64_be. cbn [map foldl].
  rewrite (join_byte 0 v (7 * 8)); [|lia|done|].
  - rewrite (join_byte _ v (6 * 8)), (join_byte _ v (5 * 8)), (join_byte _ v (4 * 8)),
      (join_byte _ v (3 * 8)), (join_byte _ v (2 * 8)), (join_byte _ v (1 * 8)),
      (join_byte _ v (0 * 8)) by (done || lia).
    apply Z.shiftr_0_r.
  - symmetry. rewrite Z.shiftr_div_pow2 by lia. by apply Z.div_small.
Qed.

Lemma write_u16_read v : 0 <= v < 65536 ->
  exists hi lo, write_u16_be (u16 v) = [hi; lo] /\ Z.lor (Z.shiftl hi 8) lo = v.
Proof.
  intros Hv. eexists _, _. split; [reflexivity|].
  assert (u16 v = v) as -> by (apply Z.mod_small; done).
  rewrite (byte_u8 (Z.shiftr v 8)).
  - pose proof (join_bits v 0) as H. rewrite Z.shiftr_0_r in H. by apply H.
  - unfold is_byte. rewrite Z.shiftr_div_pow2 by lia. change (2 ^ 8) with 256. split.
    + apply Z.div_pos; lia.
    + apply Z.div_lt_upper_bound; lia.
Qed.

(** ** Masking *)

Lemma xor_byte_twice b k : is_byte b -> u8 (Z.lxor (u8 (Z.lxor b k)) k) = b.
Proof.
  intros Hb. assert (b = Z.land b (Z.ones 8)) as -> by (rewrite <- u8_ones; by rewrite byte_u8).
  rewrite !u8_ones. apply Z.bits_inj'. intros n Hn.
  rewrite !Z.land_spec, !Z.lxor_spec, !Z.land_spec, !Z.lxor_spec, Z.land_spec.
  by destruct (Z.testbit b n), (Z.testbit k n), (Z.testbit (Z.ones 8) n).
Qed.

Lemma apply_mask_length key pay : length (apply_mask key pay) = length pay.
Proof. apply length_imap. Qed.

Lemma apply_mask_twice key pay : Forall is_byte pay -> apply_mask key (apply_mask key pay) = pay.
Proof.
  intros H. apply list_eq. intros i. unfold apply_mask. rewrite !list_lookup_imap.
  destruct (pay !! i) as [b|] eqn:Hi; [|done]. simpl. f_equal. apply xor_byte_twice.
  by eapply Forall_lookup_1.
Qed.

(** ** The bytes of a frame *)

Record frame_ok (f : CpxWSFrame) (pay : list Z) : Prop := {
  fo_op : 0 <= opcode f < 16;
  fo_len : payload_len f = Z.of_nat (length pay);
  fo_fits : payload_len f + 14 < 2 ^ 64;
  fo_pay : payload f = Some pay;
  fo_bytes : Forall is_byte pay;
  fo_key : length (mask_key f) = 4%nat
}.

Definition body (f : CpxWSFrame) (pay : list Z) : list Z :=
  if masked f then apply_mask (mask_key f) pay else pay.

Definition encoded (f : CpxWSFrame) (pay : list Z) : list Z :=
  ([first_byte f] ++ length_bytes (masked f) (payload_len f)) ++
  (if masked f then mask_key f else []) ++ body f pay.

Lemma body_length f pay : length (body f pay) = length pay.
Proof. unfold body. destruct (masked f); [apply apply_mask_length|done]. Qed.

Lemma length_bytes_length m n :
  Z.of_nat (length (length_bytes m n)) = if n <=? 125 then 1 else if n <=? 65535 then 3 else 9.
Proof. unfold length_bytes. by destruct (n <=? 125), (n <=? 65535). Qed.

Lemma header_len_range f : 2 <= header_len f <= 14.
Proof.
  unfold header_len. destruct (masked f), (payload_len f <=? 125), (payload_len f <=? 65535); lia.
Qed.

Lemma encoded_length f pay :
  frame_ok f pay -> Z.of_nat (length (encoded f pay)) = header_len f + payload_len f.
Proof.
  intros H. unfold encoded, header_len. rewrite !length_app, body_length. simpl.
  pose proof (length_bytes_length (masked f) (payload_len f)) as Hl. pose proof (fo_key _ _ H).
  rewrite (fo_len _ _ H) in *.
  destruct (masked f), (Z.of_nat (length pay) <=? 125), (Z.of_nat (length pay) <=? 65535); simpl in *; lia.
Qed.

(** ** What the encoder writes *)

Lemma poke_step w b l pos :
  pos = Z.of_nat (length w) -> (length w + length l <= length b)%nat ->
  poke (w ++ drop (length w) b) pos l = Ok ((w ++ l) ++ drop (length (w ++ l)) b).
Proof.
  intros -> Hle. unfold poke.
  rewrite length_app, length_drop, (proj2 (Z.leb_le _ _)) by lia.
  rewrite Nat2Z.id, take_app_length, drop_app_ge by lia. rewrite drop_drop.
  rewrite <- app_assoc, length_app.
  by replace (length w + (length w + length l - length w))%nat with (length w + length l)%nat by lia.
Qed.

Lemma read_n_all pay : read_n (Some pay) (Z.of_nat (length pay)) = Ok pay.
Proof.
  unfold read_n. destruct (Z.eqb_spec (Z.of_nat (length pay)) 0) as [H|H].
  - by rewrite (nil_length_inv pay) by lia.
  - by rewrite Z.leb_refl, Nat2Z.id, take_ge.
Qed.

Lemma encode_spec f pay buf out_size w :
  frame_ok f pay -> out_size <= Z.of_nat (length buf) ->
  cpx_ws_encode_frame (Some f) (Some buf) out_size (Some w) =
    if out_size <? header_len f + payload_len f then Ok (-2, Some buf, Some w)
    else Ok (0, Some (encoded f pay ++ drop (length (encoded f pay)) buf),
             Some (header_len f + payload_len f)).
Proof.
  intros H Hsz. pose proof (encoded_length f pay H) as Hlen.
  pose proof (length_bytes_length (masked f) (payload_len f)) as Hl.
  pose proof (fo_len _ _ H) as Hpl. pose proof (fo_fits _ _ H) as Hfit.
  unfold cpx_ws_encode_frame.
  pose proof (header_len_range f) as Hh.
  rewrite (u64_small (header_len f + payload_len f)) by lia.
  destruct (Z.ltb_spec out_size (header_len f + payload_len f)) as [|Hge]; [done|].
  unfold encoded in *. rewrite !length_app, body_length in Hlen. simpl in Hlen.
  assert (poke buf 0 [first_byte f] = Ok ([first_byte f] ++ drop 1 buf)) as ->
    by (apply (poke_step [] buf [first_byte f] 0); simpl; lia). cbn [obind].
  change (drop 1 buf) with (drop (length [first_byte f]) buf).
  rewrite poke_step by (simpl; lia). cbn [obind].
  pose proof (fo_key _ _ H) as Hk. unfold body in *.
  set (lb := length_bytes (masked f) (payload_len f)) in *. clearbody lb. rewrite (fo_pay _ _ H), Hpl.
  replace (header_len f + Z.of_nat (length pay)) with
    (Z.of_nat (1 + (length lb +
                    (length (if masked f then mask_key f else []) + length pay)))) by lia.
  destruct (masked f); simpl length in *.
  - rewrite poke_step by (rewrite length_app; simpl; lia). cbn [obind].
    rewrite read_n_all. cbn [obind].
    rewrite poke_step by (rewrite !length_app, ?apply_mask_length; simpl; lia). cbn [obind].
    rewrite <- !app_assoc. rewrite u64_small by lia. repeat f_equal; lia.
  - rewrite read_n_all. cbn [obind].
    rewrite poke_step by (rewrite ?length_app; simpl; lia). cbn [obind].
    rewrite <- !app_assoc. rewrite u64_small by lia. repeat f_equal; lia.
Qed.

(** ** What the decoder makes of it *)

Definition decoded (f : CpxWSFrame) (pay rest : list Z) : CpxWSFrame :=
  mkFrame (fin f) (opcode f) (masked f) (payload_len f)
    (if masked f then mask_key f else [0; 0; 0; 0]) (Some (body f pay ++ rest)).

Lemma byte_at_1 f l : byte_at ([first_byte f] ++ l) 1 = of_option (head l).
Proof. unfold byte_at. by destruct l. Qed.

Lemma slice_at_app w l r pos n :
  pos = Z.of_nat (length w) -> n = Z.of_nat (length l) -> slice_at (w ++ l ++ r) pos n = Ok l.
Proof.
  intros -> ->. unfold slice_at. rewrite !length_app, (proj2 (Z.leb_le _ _)) by lia.
  by rewrite !Nat2Z.id, drop_app_length, take_app_length.
Qed.

(** The length bytes are read back, or reported incomplete. *)
Lemma decode_len_spec f rest m :
  0 <= payload_len f < 2 ^ 64 -> 2 <= m ->
  exists b, head (length_bytes (masked f) (payload_len f)) = Some b /\
    negb (Z.land b 128 =? 0) = masked f /\
    decode_len ([first_byte f] ++ length_bytes (masked f) (payload_len f) ++ rest) m (Z.land b 127) =
      let pos := 1 + Z.of_nat (length (length_bytes (masked f) (payload_len f))) in
      Ok (if m <? pos then None else Some (payload_len f, pos)).
Proof.
  intros Hlen Hm. unfold length_bytes. destruct (Z.leb_spec (payload_len f) 125) as [H1|H1].
  - eexists. split; [reflexivity|].
    assert (u8 (payload_len f) = payload_len f) as -> by (apply Z.mod_small; lia).
    destruct (length_byte_bits (masked f) (payload_len f)) as [-> ->]; [lia|].
    split; [done|]. unfold decode_len.
    rewrite (proj2 (Z.eqb_neq _ 126)), (proj2 (Z.eqb_neq _ 127)) by lia.
    cbn [length]. change (1 + Z.of_nat 1) with 2. by rewrite (proj2 (Z.ltb_ge m 2)) by lia.
  - destruct (Z.leb_spec (payload_len f) 65535) as [H2|H2].
    + eexists. split; [reflexivity|].
      destruct (length_byte_bits (masked f) 126) as [-> ->]; [lia|]. split; [done|].
      destruct (write_u16_read (payload_len f)) as (hi & lo & Hw & Hr); [lia|].
      rewrite Hw. cbn [length]. change (1 + Z.of_nat 3) with 4. unfold decode_len. simpl Z.eqb. cbv iota.
      change (2 + 2) with 4. destruct (m <? 4); [done|]. unfold byte_at. simpl. by rewrite Hr.
    + eexists. split; [reflexivity|].
      destruct (length_byte_bits (masked f) 127) as [-> ->]; [lia|]. split; [done|].
      cbn [length]. change (1 + Z.of_nat (S (length (write_u64_be (payload_len f))))) with 10.
      unfold decode_len. simpl Z.eqb. cbv iota. change (2 + 8) with 10. destruct (m <? 10); [done|].
      pose proof (slice_at_app [first_byte f; u8 (Z.lor (mask_bit (masked f)) 127)]
                 (write_u64_be (payload_len f)) rest 2 8 eq_refl eq_refl) as Hs.
      cbn [app] in Hs |- *. rewrite Hs. cbn [obind]. by rewrite read_write_be.
Qed.

Lemma decode_spec f pay rest m g c :
  frame_ok f pay -> 0 <= m <= Z.of_nat (length (encoded f pay ++ rest)) ->
  if m <? header_len f + payload_len f
  then exists g', cpx_ws_decode_frame (Some (encoded f pay ++ rest)) m (Some g) (Some c) = Ok (-1, Some g', Some c)
  else cpx_ws_decode_frame (Some (encoded f pay ++ rest)) m (Some g) (Some c) =
         Ok (0, Some (decoded f pay rest), Some (header_len f + payload_len f)).
Proof.
  intros H Hm. pose proof (encoded_length f pay H) as Hlen. pose proof (fo_len _ _ H) as Hpl.
  pose proof (fo_fits _ _ H) as Hfit.
  pose proof (header_len_range f) as Hh.
  unfold encoded in Hlen. rewrite !length_app, body_length in Hlen. simpl in Hlen.
  unfold cpx_ws_decode_frame. destruct (Z.ltb_spec m 2) as [H2|H2].
  { rewrite (proj2 (Z.ltb_lt _ _)); [by eexists|]. lia. }
  unfold encoded in *. rewrite <- !app_assoc.
  set (tl := (if masked f then mask_key f else []) ++ body f pay ++ rest) in *.
  change (byte_at ([first_byte f] ++ _) 0) with (Ok (first_byte f)). cbn [obind].
  destruct (first_byte_bits f (fo_op _ _ H)) as [-> ->].
  destruct (decode_len_spec f tl m) as (b & Hb & Hmask & Hdl); [lia..|].
  rewrite byte_at_1. assert (head (length_bytes (masked f) (payload_len f) ++ tl) = Some b) as ->
    by (destruct (length_bytes _ _); [done|exact Hb]).
  cbn [of_option obind]. rewrite Hdl, Hmask. cbn [obind]. set (pos := 1 + _) in *. 
  assert (Hpos : pos = 1 + Z.of_nat (length (length_bytes (masked f) (payload_len f)))) by done.
  clearbody pos. clear Hdl Hb Hmask.
  destruct (Z.ltb_spec m pos) as [Hp|Hp]; [rewrite (proj2 (Z.ltb_lt _ _)) by lia; by eexists|].
  pose proof (fo_key _ _ H) as Hk. unfold decoded, decode_key. subst tl.
  destruct (masked f); simpl length in *.
  - destruct (Z.ltb_spec m (pos + 4)) as [Hp4|Hp4]; [rewrite (proj2 (Z.ltb_lt _ _)) by lia; by eexists|].
    rewrite (app_assoc [_]), slice_at_app by (rewrite ?length_app; simpl; lia). cbn [obind].
    rewrite u64_small by lia. replace (pos + 4 + payload_len f) with (header_len f + payload_len f) by lia.
    destruct (Z.ltb_spec m (header_len f + payload_len f)); [by eexists|].
    rewrite app_assoc, drop_app_length' by (rewrite !length_app; simpl; lia). done.
  - cbn [obind]. rewrite u64_small by lia.
    replace (pos + payload_len f) with (header_len f + payload_len f) by lia.
    destruct (Z.ltb_spec m (header_len f + payload_len f)); [by eexists|].
    simpl app at 3. rewrite (app_assoc [_]), drop_app_length' by (rewrite !length_app; simpl; lia). done.
Qed.

(** C36: encoding a frame and decoding it gives the frame back.  The encoder
    refuses (-2, buffer untouched) exactly when the frame does not fit;
    otherwise it writes the frame's bytes and nothing past them, the decoder
    reports every strict prefix as incomplete (-1) and turns the whole frame,
    whatever follows it, into the same flags, opcode and length with the
    payload pointer on the masked bytes, which the key unmasks. *)
Theorem ws_frame_roundtrip f pay buf out_size w
    (H : frame_ok f pay) (Hsz : out_size <= Z.of_nat (length buf)) :
  let n := header_len f + payload_len f in
  (out_size < n ->
     cpx_ws_encode_frame (Some f) (Some buf) out_size (Some w) = Ok (-2, Some buf, Some w)) /\
  (n <= out_size -> exists buf',
     cpx_ws_encode_frame (Some f) (Some buf) out_size (Some w) = Ok (0, Some buf', Some n) /\
     length buf' = length buf /\ drop (Z.to_nat n) buf' = drop (Z.to_nat n) buf /\
     forall m g c, 0 <= m <= Z.of_nat (length buf) ->
       (m < n -> exists g', cpx_ws_decode_frame (Some buf') m (Some g) (Some c) = Ok (-1, Some g', Some c)) /\
       (n <= m -> exists g' p,
          cpx_ws_decode_frame (Some buf') m (Some g) (Some c) = Ok (0, Some g', Some n) /\
          fin g' = fin f /\ opcode g' = opcode f /\ masked g' = masked f /\
          payload_len g' = payload_len f /\ payload g' = Some p /\
          (if masked f then apply_mask (mask_key f) (take (length pay) p) else take (length pay) p) = pay /\
          (masked f = true -> mask_key g' = mask_key f))).
Proof.
  intros n. pose proof (encoded_length f pay H) as Hlen.
  rewrite (encode_spec f pay buf out_size w H Hsz). fold n in Hlen |- *. split; intros Hn.
  { by rewrite (proj2 (Z.ltb_lt _ _)). }
  rewrite (proj2 (Z.ltb_ge _ _)) by done. eexists. split; [reflexivity|].
  assert (Hl : length (encoded f pay ++ drop (length (encoded f pay)) buf) = length buf)
    by (rewrite length_app, length_drop; lia).
  split; [done|]. split; [rewrite <- Hlen, Nat2Z.id, drop_app_length; done|].
  intros m g c Hm.
  pose proof (decode_spec f pay (drop (length (encoded f pay)) buf) m g c H ltac:(lia)) as Hd.
  fold n in Hd. split; intros Hmn.
  - by rewrite (proj2 (Z.ltb_lt _ _)) in Hd.
  - rewrite (proj2 (Z.ltb_ge _ _)) in Hd by done. eexists _, _. split; [exact Hd|].
    unfold decoded, body. simpl. split_and!; try done; [|by intros ->].
    destruct (masked f).
    + rewrite <- (apply_mask_length (mask_key f) pay), take_app_length.
      apply apply_mask_twice, H.
    + apply take_app_length.
Qed.

Definition ex_frame : CpxWSFrame := mkFrame true 1 true 3 [1; 2; 3; 4] (Some [104; 105; 33]).

Lemma ws_frame_roundtrip_witness :
  exists buf', cpx_ws_encode_frame (Some ex_frame) (Some (replicate 12 0)) 12 (Some 0) = Ok (0, Some buf', Some 9) /\
    buf' = [129; 131; 1; 2; 3; 4; 105; 107; 34; 0; 0; 0] /\
    exists g', cpx_ws_decode_frame (Some buf') 8 (Some ex_frame) (Some 0) = Ok (-1, Some g', Some 0).
Proof.
  assert (Hok : frame_ok ex_frame [104; 105; 33]).
  { split; simpl; try lia; try done. unfold is_byte. by repeat constructor. }
  destruct (ws_frame_roundtrip ex_frame [104; 105; 33] (replicate 12 0) 12 0 Hok ltac:(simpl; lia)) as [_ He].
  destruct He as (buf' & Henc & _ & _ & Hdec); [vm_compute; congruence|]. exists buf'.
  split; [exact Henc|]. split; [vm_compute in Henc; by injection Henc as <-|].
  destruct (Hdec 8 ex_frame 0) as [Hp _]; [simpl; lia|]. apply Hp. reflexivity.
Defined.

(** ** The decoder on arbitrary bytes *)

Lemma byte_at_ok b i : 0 <= i < Z.of_nat (length b) -> exists x, byte_at b i = Ok x /\ x ∈ b.
Proof.
  intros Hi. unfold byte_at. destruct (lookup_lt_is_Some_2 b (Z.to_nat i)) as [x Hx]; [lia|].
  rewrite Hx. exists x. split; [done|]. by eapply list_elem_of_lookup_2.
Qed.

Lemma slice_at_ok b pos n :
  0 <= pos -> 0 <= n -> pos + n <= Z.of_nat (length b) -> exists l, slice_at b pos n = Ok l.
Proof. intros Hp Hn Hle. unfold slice_at. rewrite (proj2 (Z.leb_le _ _)) by done. by eexists. Qed.

Lemma read_be_range l : 0 <= read_be l < 2 ^ 64.
Proof.
  unfold read_be. destruct l as [|x l] using rev_ind; [by simpl|].
  rewrite foldl_app. simpl. apply u64_range.
Qed.

Lemma join_add hi lo : is_byte lo -> Z.lor (Z.shiftl hi 8) lo = hi * 256 + lo.
Proof.
  intros Hlo. assert (Hd : Z.land (Z.shiftl hi 8) lo = 0).
  { apply Z.bits_inj'. intros k Hk. rewrite Z.land_spec, Z.shiftl_spec, Z.bits_0 by done.
    destruct (Z_lt_le_dec k 8); [by rewrite Z.testbit_neg_r by lia|].
    rewrite <- (Z.mod_small lo (2 ^ 8)) by done.
    rewrite Z.mod_pow2_bits_high by lia. apply andb_false_r. }
  rewrite <- (Z.lxor_lor _ _ Hd), <- (Z.add_nocarry_lxor _ _ Hd). by rewrite Z.shiftl_mul_pow2 by lia.
Qed.

Lemma decode_len_bounds b m len :
  Forall is_byte b -> 2 <= m <= Z.of_nat (length b) -> 0 <= len < 128 ->
  exists r, decode_len b m len = Ok r /\
    forall len' pos, r = Some (len', pos) -> 0 <= len' < 2 ^ 64 /\ 2 <= pos <= 10 /\ pos <= m.
Proof.
  intros Hb Hm Hlen. unfold decode_len. destruct (Z.eqb_spec len 126) as [->|].
  - change (2 + 2) with 4. destruct (Z.ltb_spec m 4); [by eexists|].
    destruct (byte_at_ok b 2) as (hi & -> & Hhi); [lia|]. cbn [obind].
    destruct (byte_at_ok b 3) as (lo & -> & Hlo); [lia|]. cbn [obind].
    eexists. split; [reflexivity|]. intros len' pos [= <- <-]. split; [|lia].
    rewrite Forall_forall in Hb. apply list_elem_of_In, Hb in Hhi. apply list_elem_of_In, Hb in Hlo.
    unfold is_byte in *. rewrite pow2_64.
    rewrite join_add by done.
    lia.
  - destruct (Z.eqb_spec len 127) as [->|].
    + change (2 + 8) with 10. destruct (Z.ltb_spec m 10); [by eexists|].
      destruct (slice_at_ok b 2 8) as [l ->]; [lia..|]. cbn [obind]. eexists. split; [reflexivity|].
      intros len' pos [= <- <-]. split; [apply read_be_range|lia].
    + eexists. split; [reflexivity|]. intros len' pos [= <- <-]. rewrite pow2_64. lia.
Qed.

(** On any bytes the decoder reads only what has been received and
    answers 0 or -1.  When it accepts a frame whose end does not wrap past
    2^64, the frame lies within the received bytes: [*consumed] is at most
    [in_size] and the payload pointer is followed by its [payload_len]
    bytes. *)
Theorem ws_decode_in_bounds buf m g c
    (Hb : Forall is_byte buf) (Hm : 0 <= m <= Z.of_nat (length buf)) :
  exists code g' c',
    cpx_ws_decode_frame (Some buf) m (Some g) (Some c) = Ok (code, Some g', c') /\
    (code = -1 /\ c' = Some c \/
     code = 0 /\ exists pos, 2 <= pos <= m /\ 0 <= payload_len g' < 2 ^ 64 /\
       payload g' = Some (drop (Z.to_nat pos) buf) /\
       (pos + payload_len g' < 2 ^ 64 ->
          c' = Some (pos + payload_len g') /\ pos + payload_len g' <= m)).
Proof.
  unfold cpx_ws_decode_frame. destruct (Z.ltb_spec m 2); [by eexists _, _, _; split; [|left]|].
  destruct (byte_at_ok buf 0) as (b0 & -> & _); [lia|]. cbn [obind].
  destruct (byte_at_ok buf 1) as (b1 & -> & _); [lia|]. cbn [obind].
  assert (Hr : 0 <= Z.land b1 127 < 128)
    by (change 127 with (Z.ones 7); rewrite Z.land_ones by lia; by apply Z.mod_pos_bound).
  destruct (decode_len_bounds buf m (Z.land b1 127) Hb ltac:(lia) Hr) as (r & -> & Hbd). cbn [obind].
  destruct r as [[len pos]|]; [|by eexists _, _, _; split; [|left]].
  destruct (Hbd _ _ eq_refl) as (Hlen & Hpos & Hpm). clear Hbd. unfold decode_key.
  assert (Hk : exists k, decode_key buf m (negb (Z.land b1 128 =? 0)) pos = Ok k /\
    forall key p', k = Some (key, p') -> 2 <= p' <= 14 /\ p' <= m).
  { unfold decode_key. destruct (negb _).
    - destruct (Z.ltb_spec m (pos + 4)); [by eexists|].
      destruct (slice_at_ok buf pos 4) as [l ->]; [lia..|]. eexists. split; [reflexivity|].
      intros key p' [= <- <-]. lia.
    - eexists. split; [reflexivity|]. intros key p' [= <- <-]. lia. }
  destruct Hk as (k & Hk & Hkp). unfold decode_key in Hk. rewrite Hk. cbn [obind].
  destruct k as [[key p']|]; [|by eexists _, _, _; split; [|left]].
  destruct (Hkp _ _ eq_refl) as [Hp' Hpm'].
  destruct (Z.ltb_spec m (u64 (p' + len))) as [|Hle]; [by eexists _, _, _; split; [|left]|].
  eexists _, _, _. split; [reflexivity|]. right. split; [done|]. exists p'. cbn [payload_len payload].
  split; [lia|]. split; [done|]. split; [done|]. intros Hfit. rewrite u64_small in * by lia. done.
Qed.

Lemma ws_decode_in_bounds_witness :
  Forall is_byte [130; 126; 0; 200; 7] /\
  exists code g' c', cpx_ws_decode_frame (Some [130; 126; 0; 200; 7]) 5 (Some ex_frame) (Some 0)
    = Ok (code, Some g', c') /\ code = -1.
Proof.
  assert (Hb : Forall is_byte [130; 126; 0; 200; 7]) by (unfold is_byte; repeat constructor; lia).
  split; [exact Hb|].
  destruct (ws_decode_in_bounds [130; 126; 0; 200; 7] 5 ex_frame 0 Hb ltac:(simpl; lia))
    as (code & g' & c' & Hd & _).
  exists code, g', c'. split; [exact Hd|]. vm_compute in Hd. by injection Hd as <- _ _.
Defined.

(** The bounds check of the decoder wraps.  A ten-byte buffer that
    announces a payload of [2^64 - 1] bytes is accepted as a complete frame:
    [pos + len] is 9 modulo [2^64], so that the caller is told that a payload
    of [2^64 - 1] bytes starts at the end of the buffer. *)
Theorem ws_decode_length_wraps :
  exists g', cpx_ws_decode_frame (Some (130 :: 127 :: replicate 8 255)) 10 (Some zero_frame) (Some 0)
    = Ok (0, Some g', Some 9) /\
    payload_len g' = 2 ^ 64 - 1 /\ payload g' = Some [].
Proof. eexists. split; [vm_compute; reflexivity|]. by split. Qed.
