(* ===== verification/DataLayout.v ===== *)
(** * Data-layout optimizer

    [src/compiler/layout/data_layout.c]: a context of registered structs whose
    fields [dl_optimize_all] reorders by descending alignment (hot fields first
    inside a tier), lays out at aligned offsets, and compares with the naive
    order.  Sizes and offsets are [size_t] words.  The arrays
    [structs[DL_MAX_STRUCTS]] and [fields[DL_MAX_FIELDS]] are modelled by the
    list of their first [num_structs], [num_fields] elements. *)
From S2P Require Import Prelude Sorting.
From Stdlib Require Import Sorting.Sorted.

Definition DL_MAX_FIELDS : Z := 128.
Definition DL_MAX_STRUCTS : Z := 256.

Record DLField := mkField {
  name : option string; fsize : Z; alignment : Z; original_idx : Z; optimized_off : Z;
  access_count : Z; is_pointer : bool; is_hot : bool
}.

Record DLStructLayout := mkStruct {
  sname : option string; fields : list DLField;
  original_size : Z; optimized_size : Z; original_align : Z; optimized_align : Z;
  padding_saved : Z; soa_candidate : bool
}.

Record DLContext := mkContext {
  structs : list DLStructLayout; total_padding_saved : Z;
  enable_hot_cold_split : bool; enable_soa_hints : bool
}.

Definition num_fields (s : DLStructLayout) : Z := Z.of_nat (length (fields s)).
Definition num_structs (c : DLContext) : Z := Z.of_nat (length (structs c)).

Definition set_off (f : DLField) (o : Z) : DLField :=
  mkField (name f) (fsize f) (alignment f) (original_idx f) o (access_count f) (is_pointer f) (is_hot f).
Definition set_access (f : DLField) (count : Z) : DLField :=
  mkField (name f) (fsize f) (alignment f) (original_idx f) (optimized_off f) count (is_pointer f) (0 <? count).
Definition set_fields (s : DLStructLayout) (l : list DLField) : DLStructLayout :=
  mkStruct (sname s) l (original_size s) (optimized_size s) (original_align s) (optimized_align s)
    (padding_saved s) (soa_candidate s).
Definition set_structs (c : DLContext) (l : list DLStructLayout) : DLContext :=
  mkContext l (total_padding_saved c) (enable_hot_cold_split c) (enable_soa_hints c).

(** ** Sizes and offsets *)

Definition align_up (val align : Z) : Z := Z.land (u64 (val + align - 1)) (u64 (Z.lnot (align - 1))).

Fixpoint naive_loop (l : list DLField) (offset max_align : Z) : Z * Z :=
  match l with
  | [] => (offset, max_align)
  | f :: l =>
      naive_loop l (u64 (align_up offset (alignment f) + fsize f))
        (if max_align <? alignment f then alignment f else max_align)
  end.

(** Size and alignment of the fields in their current order. *)
Definition compute_naive_size (l : list DLField) : Z * Z :=
  let '(offset, max_align) := naive_loop l 0 1 in (align_up offset max_align, max_align).

Fixpoint offsets_loop (l : list DLField) (offset max_align : Z) : list DLField * Z * Z :=
  match l with
  | [] => ([], offset, max_align)
  | f :: l =>
      let offset := align_up offset (alignment f) in
      let '(l, o, m) := offsets_loop l (u64 (offset + fsize f))
                          (if max_align <? alignment f then alignment f else max_align) in
      (set_off f offset :: l, o, m)
  end.

Definition compute_offsets (l : list DLField) : list DLField * Z * Z :=
  let '(l, offset, max_align) := offsets_loop l 0 1 in (l, align_up offset max_align, max_align).

(** ** Comparisons *)

Definition by_index (fa fb : DLField) : Z := if original_idx fa <? original_idx fb then -1 else 1.

Definition field_cmp_align_hot (fa fb : DLField) : Z :=
  if negb (alignment fa =? alignment fb) then if alignment fb <? alignment fa then -1 else 1
  else if negb (Bool.eqb (is_hot fa) (is_hot fb)) then if is_hot fa then -1 else 1
  else by_index fa fb.

Definition field_cmp_align_only (fa fb : DLField) : Z :=
  if negb (alignment fa =? alignment fb) then if alignment fb <? alignment fa then -1 else 1
  else by_index fa fb.

(** ** The structure-of-arrays hint *)

(** The loop's [hot], [cold], [hot_size]; [cold_size] is never read. *)
Fixpoint soa_loop (l : list DLField) (hot cold hot_size : Z) : Z * Z * Z :=
  match l with
  | [] => (hot, cold, hot_size)
  | f :: l => if is_hot f then soa_loop l (hot + 1) cold (u64 (hot_size + fsize f))
              else soa_loop l hot (cold + 1) hot_size
  end.

Definition check_soa_candidate (s : DLStructLayout) : bool :=
  if num_fields s <? 3 then false
  else let '(hot, cold, hot_size) := soa_loop (fields s) 0 0 0 in
       if (hot =? 0) || (cold =? 0) then false
       else u64 (hot_size * 2) <? optimized_size s.

(** ** The public operations *)

Definition dl_context_init : DLContext := mkContext [] 0 true true.

Definition new_struct (n : option string) : DLStructLayout := mkStruct n [] 0 0 0 0 0 false.

Definition dl_register_struct (c : DLContext) (n : option string) : DLContext * Z :=
  if DL_MAX_STRUCTS <=? num_structs c then (c, -1)
  else (set_structs c (structs c ++ [new_struct n]), num_structs c).

Definition struct_at (c : DLContext) (idx : Z) : option DLStructLayout :=
  if (idx <? 0) || (num_structs c <=? idx) then None else structs c !! Z.to_nat idx.

Definition put_struct (c : DLContext) (idx : Z) (s : DLStructLayout) : DLContext :=
  set_structs c (<[Z.to_nat idx := s]> (structs c)).

Definition dl_add_field (c : DLContext) (struct_idx : Z) (n : option string) (size align : Z)
    (is_pointer : bool) : DLContext * bool :=
  match struct_at c struct_idx with
  | None => (c, false)
  | Some s =>
      if DL_MAX_FIELDS <=? num_fields s then (c, false)
      else
        let f := mkField n size (if 0 <? align then align else 1) (num_fields s) 0 0 is_pointer false in
        (put_struct c struct_idx (set_fields s (fields s ++ [f])), true)
  end.

Definition dl_set_access_count (c : DLContext) (struct_idx field_idx count : Z) : DLContext :=
  match struct_at c struct_idx with
  | None => c
  | Some s =>
      if num_fields s <=? field_idx then c
      else put_struct c struct_idx
             (set_fields s (alter (fun f => set_access f count) (Z.to_nat field_idx) (fields s)))
  end.

Section optimize.
Context {sorter : Qsort}.

(** The loop body of [dl_optimize_all]: the struct and the running total. *)
Definition optimize_struct (hot_cold soa : bool) (s : DLStructLayout) (total : Z) : DLStructLayout * Z :=
  if num_fields s =? 0 then (s, total)
  else
    let '(osize, oalign) := compute_naive_size (fields s) in
    let sorted := qsort (if hot_cold then field_cmp_align_hot else field_cmp_align_only) (fields s) in
    let '(l, size, align) := compute_offsets sorted in
    let '(saved, total) := if size <? osize then (osize - size, u64 (total + (osize - size)))
                           else (0, total) in
    let s := mkStruct (sname s) l osize size oalign align saved (soa_candidate s) in
    let s := if soa then mkStruct (sname s) l osize size oalign align saved (check_soa_candidate s) else s in
    (s, total).

Fixpoint optimize_structs (hot_cold soa : bool) (l : list DLStructLayout) (total : Z)
  : list DLStructLayout * Z :=
  match l with
  | [] => ([], total)
  | s :: l =>
      let '(s, total) := optimize_struct hot_cold soa s total in
      let '(l, total) := optimize_structs hot_cold soa l total in
      (s :: l, total)
  end.

Definition dl_optimize_all (c : DLContext) : DLContext :=
  let '(l, total) := optimize_structs (enable_hot_cold_split c) (enable_soa_hints c) (structs c) 0 in
  mkContext l total (enable_hot_cold_split c) (enable_soa_hints c).

End optimize.

Definition dl_get_layout (c : DLContext) (struct_idx : Z) : option DLStructLayout := struct_at c struct_idx.

(** ** Contexts built by the operations *)

Section built.
Context {sorter : Qsort}.

Inductive built : DLContext -> Prop :=
| built_init : built dl_context_init
| built_flags c h o : built c -> built (mkContext (structs c) (total_padding_saved c) h o)
| built_register c n : built c -> built (dl_register_struct c n).1
| built_field c i n size align p : built c -> built (dl_add_field c i n size align p).1
| built_access c i k count : built c -> built (dl_set_access_count c i k count)
| built_optimize c : built c -> built (dl_optimize_all c).

End built.

(** The indices of a struct's fields are 0, 1, ..., in some order. *)
Record struct_ok (s : DLStructLayout) : Prop := {
  so_count : num_fields s <= DL_MAX_FIELDS;
  so_index : original_idx <$> fields s ≡ₚ seqZ 0 (num_fields s);
  so_align : Forall (fun f => 1 <= alignment f) (fields s)
}.

Definition context_ok (c : DLContext) : Prop :=
  num_structs c <= DL_MAX_STRUCTS /\ Forall struct_ok (structs c).

Lemma struct_ok_nodup s : struct_ok s -> NoDup (original_idx <$> fields s).
Proof. intros H. rewrite (so_index _ H). apply NoDup_seqZ. Qed.

(** What [qsort] and the offsets leave of a field. *)
Definition same_field (f f' : DLField) : Prop := exists o, f' = set_off f o.

Lemma offsets_same l off al : Forall2 same_field l (offsets_loop l off al).1.1.
Proof.
  revert off al. induction l as [|f l IH]; intros off al; simpl; [constructor|].
  match goal with |- context [offsets_loop l ?o ?m] => specialize (IH o m); destruct (offsets_loop l o m) as [[l' o'] m'] end.
  simpl in *. constructor; [by eexists|done].
Qed.

Lemma same_field_map {B} (g : DLField -> B) l l' :
  (forall f o, g (set_off f o) = g f) -> Forall2 same_field l l' -> g <$> l' = g <$> l.
Proof. intros Hg. induction 1 as [|f f' l l' [o ->] _ IH]; csimpl; [done|]. by rewrite Hg, IH. Qed.

Section facts.
Context {sorter : Qsort}.

Lemma optimize_struct_fields (hc soa : bool) (s : DLStructLayout) (total : Z) :
  fields s <> [] ->
  let sorted := qsort (if hc then field_cmp_align_hot else field_cmp_align_only) (fields s) in
  let s' := (optimize_struct hc soa s total).1 in
  let '(l, size, align) := compute_offsets sorted in
  fields s' = l /\ optimized_size s' = size /\ optimized_align s' = align /\
  (original_size s', original_align s') = compute_naive_size (fields s) /\
  padding_saved s' = Z.max 0 (original_size s' - size).
Proof.
  intros Hne. unfold optimize_struct.
  rewrite (proj2 (Z.eqb_neq (num_fields s) 0)) by (unfold num_fields; destruct (fields s); [done|simpl; lia]).
  simpl. destruct (compute_naive_size (fields s)) as [osize oalign].
  destruct (compute_offsets _) as [[l size] align].
  destruct (Z.ltb_spec size osize); destruct soa; simpl; split_and!; try done; lia.
Qed.

Lemma optimize_struct_ok (hc soa : bool) (s : DLStructLayout) (total : Z) : struct_ok s -> struct_ok (optimize_struct hc soa s total).1.
Proof.
  intros H. destruct (decide (fields s = [])) as [He|Hne].
  { unfold optimize_struct, num_fields. by rewrite He. }
  pose proof (optimize_struct_fields hc soa s total Hne) as Hf. cbv zeta in Hf.
  unfold compute_offsets in Hf.
  match type of Hf with context [offsets_loop ?k 0 1] =>
    pose proof (offsets_same k 0 1) as Hs; destruct (offsets_loop k 0 1) as [[l o] m];
    assert (Hp : k ≡ₚ fields s) by apply qsort_perm; set (sorted := k) in * end.
  simpl in *. destruct Hf as (Hl & _). unfold num_fields in *.
  assert (Hlen : length l = length (fields s))
    by (rewrite <- Hp; symmetry; by eapply Forall2_length).
  split; unfold num_fields; rewrite Hl.
  - rewrite Hlen. apply H.
  - rewrite (same_field_map original_idx _ _ ltac:(done) Hs), Hlen, Hp. apply H.
  - apply (Forall_fmap alignment (fun a => 1 <= a)).
    rewrite (same_field_map alignment _ _ ltac:(done) Hs). apply Forall_fmap. rewrite Hp. apply H.
Qed.

Lemma optimize_structs_ok hc soa l total :
  Forall struct_ok l ->
  length (optimize_structs hc soa l total).1 = length l /\
  Forall struct_ok (optimize_structs hc soa l total).1.
Proof.
  revert total. induction l as [|s l IH]; intros total; [done|].
  intros [Hs Hl]%Forall_cons_1. simpl.
  pose proof (optimize_struct_ok hc soa s total Hs) as Hs'.
  destruct (optimize_struct hc soa s total) as [s' total'].
  destruct (IH total' Hl) as [Hlen Hall]. destruct (optimize_structs hc soa l total') as [l' t'].
  simpl in *. split; [lia|by constructor].
Qed.

End facts.

Lemma struct_at_Some c idx s :
  struct_at c idx = Some s -> 0 <= idx < num_structs c /\ structs c !! Z.to_nat idx = Some s.
Proof.
  unfold struct_at. destruct (Z.ltb_spec idx 0); [done|]. destruct (Z.leb_spec (num_structs c) idx); [done|].
  intros H'. split; [lia|done].
Qed.

Lemma alter_map_same {B} (g : DLField -> B) h (i : nat) (l : list DLField) :
  (forall f, g (h f) = g f) -> g <$> alter h i l = g <$> l.
Proof.
  intros Hg. apply list_eq. intros j. rewrite !list_lookup_fmap, list_lookup_alter.
  destruct (decide (i = j)) as [-> |]; [|done]. destruct (l !! j); simpl; by rewrite ?Hg.
Qed.

Lemma put_struct_ok c idx s : context_ok c -> struct_ok s -> context_ok (put_struct c idx s).
Proof.
  intros [Hn Hall] Hs. split.
  - unfold put_struct, num_structs in *. simpl. by rewrite length_insert.
  - simpl. by apply Forall_insert.
Qed.

(** Whatever sequence of registrations, field additions, profile counts
    and optimizer runs is applied to a fresh context, it holds at most 256
    structs of at most 128 fields, every alignment is positive, and the
    original indices of a struct's fields are exactly 0, 1, ..., n - 1 in some
    order, so that every field keeps its identity. *)
Theorem dl_context_invariant `{!Qsort} c (Hb : built c) : context_ok c.
Proof.
  induction Hb as [|c h o Hb IH|c n Hb IH|c i n size align p Hb IH|c i k count Hb IH|c Hb IH].
  - split; [vm_compute; congruence|constructor].
  - exact IH.
  - unfold dl_register_struct. destruct (Z.leb_spec DL_MAX_STRUCTS (num_structs c)); [done|].
    destruct IH as [Hn Hall]. split; unfold num_structs in *; simpl.
    + rewrite length_app. simpl. lia.
    + apply Forall_app. split; [done|]. constructor; [|done].
      split; simpl; [unfold num_fields, DL_MAX_FIELDS; simpl; lia|done|done].
  - unfold dl_add_field. destruct (struct_at c i) as [s|] eqn:Hs; [|done].
    apply struct_at_Some in Hs as [_ Hs].
    pose proof (Forall_lookup_1 _ _ _ _ (proj2 IH) Hs) as [Hc Hi Ha].
    destruct (Z.leb_spec DL_MAX_FIELDS (num_fields s)); [done|]. apply put_struct_ok; [done|].
    split; unfold num_fields in *; simpl; rewrite ?length_app; simpl.
    + lia.
    + rewrite fmap_app, Hi. csimpl. rewrite Nat2Z.inj_add, seqZ_app by lia. done.
    + apply Forall_app. split; [done|]. constructor; [|done]. simpl. destruct (Z.ltb_spec 0 align); lia.
  - unfold dl_set_access_count. destruct (struct_at c i) as [s|] eqn:Hs; [|done].
    apply struct_at_Some in Hs as [_ Hs].
    pose proof (Forall_lookup_1 _ _ _ _ (proj2 IH) Hs) as [Hc Hi Ha].
    destruct (num_fields s <=? k); [done|]. apply put_struct_ok; [done|].
    split; unfold num_fields in *; simpl; rewrite ?length_alter; [done| |].
    + by rewrite alter_map_same by done.
    + apply Forall_alter; [done|]. intros f _ Hf. exact Hf.
  - unfold dl_optimize_all. destruct IH as [Hn Hall].
    destruct (optimize_structs_ok (enable_hot_cold_split c) (enable_soa_hints c) _ 0 Hall) as [Hl Hk].
    destruct (optimize_structs _ _ _ _) as [l t]. simpl in *.
    split; [unfold num_structs in *; simpl; by rewrite Hl|done].
Qed.

(** ** The layout *)

(** Sizes and alignments for which no [size_t] computation wraps. *)
Record field_ok (f : DLField) : Prop := {
  fo_align : exists k, 0 <= k <= 32 /\ alignment f = 2 ^ k;
  fo_size : 0 <= fsize f <= 2 ^ 32
}.

Definition STEP : Z := 2 ^ 33.

Lemma align_pos f : field_ok f -> 1 <= alignment f <= 2 ^ 32.
Proof.
  intros [(k & Hk & ->) _]. pose proof (Z.pow_pos_nonneg 2 k). split; [lia|].
  apply Z.pow_le_mono_r; lia.
Qed.

Lemma align_up_round v f :
  field_ok f -> 0 <= v < 2 ^ 62 -> align_up v (alignment f) = round_up v (alignment f).
Proof.
  intros Hf Hv. pose proof (align_pos f Hf). destruct (fo_align f Hf) as (k & Hk & Ha).
  apply (align_word v _ k); lia.
Qed.

(** Each field at an aligned offset at or after the end of the one before. *)
Fixpoint placed (off : Z) (l : list DLField) (fin : Z) : Prop :=
  match l with
  | [] => fin = off
  | f :: l => off <= optimized_off f /\ optimized_off f mod alignment f = 0 /\
              placed (optimized_off f + fsize f) l fin
  end.

Definition sum_sizes (l : list DLField) : Z := zsum (fsize <$> l).
Definition max_align (al : Z) (l : list DLField) : Z := foldr Z.max al (alignment <$> l).

Lemma max_align_app al l f : max_align al (l ++ [f]) = Z.max (max_align al l) (Z.max al (alignment f)).
Proof. unfold max_align. induction l as [|g l IH]; csimpl; [lia|]. rewrite IH. lia. Qed.

Lemma max_align_start al a l : max_align (Z.max al a) l = Z.max a (max_align al l).
Proof. unfold max_align. induction l as [|g l IH]; csimpl; [lia|]. rewrite IH. lia. Qed.

Lemma max_align_perm al l k : l ≡ₚ k -> max_align al l = max_align al k.
Proof. unfold max_align. induction 1; csimpl; lia. Qed.

Lemma sum_sizes_perm l k : l ≡ₚ k -> sum_sizes l = sum_sizes k.
Proof. unfold sum_sizes. induction 1; csimpl; lia. Qed.

Lemma offsets_loop_spec l off al :
  Forall field_ok l -> 0 <= off -> off + Z.of_nat (length l) * STEP <= 2 ^ 61 ->
  exists l' fin,
    offsets_loop l off al = (l', fin, max_align al l) /\ naive_loop l off al = (fin, max_align al l) /\
    placed off l' fin /\ off + sum_sizes l <= fin <= off + Z.of_nat (length l) * STEP.
Proof.
  revert off al. induction l as [|f l IH]; intros off al Hok Hoff Hb.
  { exists [], off. unfold sum_sizes. simpl. split_and!; try done; lia. }
  apply Forall_cons_1 in Hok as [Hf Hok]. simpl length in *. unfold STEP in *.
  pose proof (align_pos f Hf) as Ha. pose proof (fo_size f Hf) as Hs. simpl.
  rewrite align_up_round by (done || lia).
  destruct (round_up_spec off (alignment f)) as [Hr Hm]; [lia|]. set (o := round_up off _) in *.
  rewrite u64_small by lia.
  assert (Hmax : (if al <? alignment f then alignment f else al) = Z.max al (alignment f))
    by (destruct (Z.ltb_spec al (alignment f)); lia).
  rewrite Hmax.
  destruct (IH (o + fsize f) (Z.max al (alignment f))) as (l' & fin & -> & -> & Hpl & Hfin); [done|lia|lia|].
  rewrite max_align_start. eexists _, fin. split; [reflexivity|]. split; [reflexivity|].
  split; [exact (conj (proj1 Hr) (conj Hm Hpl))|]. unfold sum_sizes in *. csimpl. lia.
Qed.

Lemma pow2_divide a b j k : 0 <= j -> 0 <= k -> a = 2 ^ j -> b = 2 ^ k -> a <= b -> (a | b).
Proof.
  intros Hj Hk -> -> Hle. assert (j <= k) by (apply (Z.pow_le_mono_r_iff 2); lia).
  exists (2 ^ (k - j)). rewrite <- Z.pow_add_r by lia. f_equal. lia.
Qed.

Lemma align_divide f g : field_ok f -> field_ok g -> alignment f <= alignment g -> (alignment f | alignment g).
Proof.
  intros [(j & Hj & Ha) _] [(k & Hk & Hb) _] Hle. by apply (pow2_divide _ _ j k); try lia.
Qed.

(** The largest alignment is one of the fields' (or 1), and a power of two. *)
Lemma max_align_pow2 l :
  Forall field_ok l ->
  (exists k, 0 <= k <= 32 /\ max_align 1 l = 2 ^ k) /\ Forall (fun f => (alignment f | max_align 1 l)) l.
Proof.
  induction 1 as [|f l Hf Hl [(k & Hk & IHk) IHd]]; [by split; [exists 0|constructor]|].
  unfold max_align in *. csimpl. rewrite IHk in *. destruct (fo_align f Hf) as (j & Hj & Ha). rewrite Ha.
  destruct (Z.max_spec (2 ^ j) (2 ^ k)) as [[Hlt ->] | [Hge ->]].
  - split; [by exists k|]. constructor; [|done]. rewrite Ha. apply (pow2_divide _ _ j k); lia.
  - split; [by exists j|]. constructor; [by rewrite Ha|].
    eapply List.Forall_impl; [|exact IHd]. intros g Hg. simpl in Hg.
    etransitivity; [exact Hg|]. apply (pow2_divide _ _ k j); lia.
Qed.

(** In descending order of alignment, sizes that are multiples of their
    alignment leave no gap. *)
Definition by_align (f g : DLField) : Prop := alignment g <= alignment f.
Definition whole (f : DLField) : Prop := fsize f mod alignment f = 0.

Lemma no_padding l off al :
  Forall field_ok l -> Forall whole l -> StronglySorted by_align l ->
  Forall (fun f => off mod alignment f = 0) l ->
  0 <= off -> off + Z.of_nat (length l) * STEP <= 2 ^ 61 ->
  (naive_loop l off al).1 = off + sum_sizes l.
Proof.
  intros Hok Hw Hs. revert off al. induction Hs as [|f l Hs IH Hf]; intros off al Hoff H0 Hb.
  { unfold sum_sizes. simpl. lia. }
  apply Forall_cons_1 in Hok as [Hfo Hok]. apply Forall_cons_1 in Hw as [Hwf Hw].
  apply Forall_cons_1 in Hoff as [Hof Hoff]. simpl length in Hb. unfold STEP in *.
  pose proof (align_pos f Hfo) as Ha. pose proof (fo_size f Hfo) as Hsz. simpl.
  rewrite align_up_round, round_up_aligned, u64_small by (done || lia).
  rewrite IH; [unfold sum_sizes; csimpl; lia|done|done| |lia|lia].
  rewrite List.Forall_forall in Hf, Hok |- *. intros g Hg.
  assert (Hd : (alignment g | off + fsize f)).
  { etransitivity; [apply (align_divide g f); [by apply Hok|done|by apply Hf]|].
    apply Z.mod_divide; [lia|]. rewrite <- Zplus_mod_idemp_l, Hof. exact Hwf. }
  pose proof (align_pos g (Hok g Hg)). apply Z.mod_divide; [lia|done].
Qed.

(** ** The order *)

Definition field_cmp (hc : bool) : DLField -> DLField -> Z :=
  if hc then field_cmp_align_hot else field_cmp_align_only.

(** What [cmp f g <= 0] says. *)
Lemma field_cmp_le hc f g :
  field_cmp hc f g <= 0 <->
  alignment g < alignment f \/ alignment f = alignment g /\
    (hc = true /\ is_hot f = true /\ is_hot g = false \/
     (hc = true -> is_hot f = is_hot g) /\ original_idx f < original_idx g).
Proof.
  unfold field_cmp, field_cmp_align_hot, field_cmp_align_only, by_index.
  destruct hc, (Z.eqb_spec (alignment f) (alignment g)), (Z.ltb_spec (alignment g) (alignment f)),
    (is_hot f), (is_hot g), (Z.ltb_spec (original_idx f) (original_idx g));
    simpl; intuition (congruence || lia).
Qed.

Lemma field_cmp_consistent hc l : NoDup (original_idx <$> l) -> consistent (field_cmp hc) l.
Proof.
  intros Hnd. split.
  - intros i j f g Hi Hj Hne. rewrite !field_cmp_le.
    assert (original_idx f <> original_idx g).
    { intros He. apply Hne. eapply NoDup_lookup; [exact Hnd|..]; rewrite list_lookup_fmap.
      - by rewrite Hi.
      - rewrite Hj. simpl. by rewrite He. }
    destruct hc, (is_hot f), (is_hot g); intuition (congruence || lia).
  - intros f g h _ _ _. rewrite !field_cmp_le.
    destruct hc, (is_hot f), (is_hot g), (is_hot h); intuition (congruence || lia).
Qed.

Lemma field_cmp_order hc f g :
  field_cmp hc f g <= 0 ->
  by_align f g /\ (hc = true -> alignment f = alignment g -> is_hot g = true -> is_hot f = true).
Proof.
  rewrite field_cmp_le. unfold by_align. intros H. split; [lia|]. intros Hhc He Hg.
  destruct H as [|[_ [(_ & ? & _)|[Heq _]]]]; [lia|done|]. by rewrite (Heq Hhc).
Qed.

(** Places in a laid-out list. *)
Lemma placed_bounds off l fin :
  Forall (fun f => 0 <= fsize f) l -> placed off l fin ->
  off <= fin /\ Forall (fun f => off <= optimized_off f /\ optimized_off f mod alignment f = 0 /\
                         optimized_off f + fsize f <= fin) l.
Proof.
  intros Hs. revert off. induction Hs as [|f l Hf Hs IH]; intros off; simpl; [intros ->; split; [lia|constructor]|].
  intros (Ho & Hm & Hpl). destruct (IH _ Hpl) as [Hle Hall]. split; [lia|]. constructor; [lia|].
  eapply List.Forall_impl; [|exact Hall]. simpl. intros g Hg. lia.
Qed.

Lemma placed_disjoint off l fin i j f g :
  Forall (fun f => 0 <= fsize f) l -> placed off l fin -> (i < j)%nat -> l !! i = Some f -> l !! j = Some g ->
  optimized_off f + fsize f <= optimized_off g.
Proof.
  intros Hs. revert off i j. induction Hs as [|h l Hh Hs IH]; intros off i j; [done|].
  simpl. intros (Ho & Hm & Hpl) Hij Hi Hj. destruct j as [|j]; [lia|]. simpl in Hj. destruct i as [|i].
  - simpl in Hi. injection Hi as <-. destruct (placed_bounds _ _ _ Hs Hpl) as [_ Hall].
    by pose proof (Forall_lookup_1 _ _ _ _ Hall Hj) as [? _].
  - apply (IH _ i j Hpl); [lia|done|done].
Qed.

Record layout_ok (hc : bool) (fs : list DLField) (s' : DLStructLayout) : Prop := {
  lo_fields : exists l, l ≡ₚ fs /\ Forall2 same_field l (fields s');
  lo_order : forall i j f g, (i < j)%nat -> fields s' !! i = Some f -> fields s' !! j = Some g ->
    alignment g <= alignment f /\ optimized_off f + fsize f <= optimized_off g /\
    (hc = true -> alignment f = alignment g -> is_hot g = true -> is_hot f = true);
  lo_field : Forall (fun f => 0 <= optimized_off f /\ optimized_off f mod alignment f = 0 /\
    optimized_off f + fsize f <= optimized_size s' /\ (alignment f | optimized_align s')) (fields s');
  lo_size : optimized_size s' mod optimized_align s' = 0;
  lo_naive : (original_size s', original_align s') = compute_naive_size fs /\
    original_align s' = optimized_align s';
  lo_saved : padding_saved s' = Z.max 0 (original_size s' - optimized_size s')
}.

Section layout.
Context {sorter : Qsort}.

Definition sorted_fields (hc : bool) (s : DLStructLayout) : list DLField := qsort (field_cmp hc) (fields s).

Lemma sorted_perm hc s : sorted_fields hc s ≡ₚ fields s.
Proof. apply qsort_perm. Qed.

Lemma sorted_order hc s : struct_ok s ->
  StronglySorted (fun f g => by_align f g /\
    (hc = true -> alignment f = alignment g -> is_hot g = true -> is_hot f = true)) (sorted_fields hc s).
Proof.
  intros Hs. eapply ascending_impl; [apply field_cmp_order|].
  by apply qsort_sorted, field_cmp_consistent, struct_ok_nodup.
Qed.

(** The result of the optimizer on a struct, in closed form. *)
Lemma optimize_result hc soa s total :
  struct_ok s -> Forall field_ok (fields s) -> fields s <> [] ->
  let s' := (optimize_struct hc soa s total).1 in
  exists fin, offsets_loop (sorted_fields hc s) 0 1 = (fields s', fin, max_align 1 (fields s)) /\
    naive_loop (sorted_fields hc s) 0 1 = (fin, max_align 1 (fields s)) /\
    placed 0 (fields s') fin /\ 0 <= fin <= 2 ^ 40 /\
    optimized_size s' = round_up fin (max_align 1 (fields s)) /\
    optimized_align s' = max_align 1 (fields s) /\
    (original_size s', original_align s') = compute_naive_size (fields s) /\
    padding_saved s' = Z.max 0 (original_size s' - optimized_size s').
Proof.
  intros Hs Hok Hne. pose proof (optimize_struct_fields hc soa s total Hne) as Hf. cbv zeta in Hf |- *.
  change (qsort _ (fields s)) with (sorted_fields hc s) in Hf. unfold compute_offsets in Hf.
  pose proof (so_count _ Hs) as Hc. unfold num_fields, DL_MAX_FIELDS in Hc.
  assert (Hok' : Forall field_ok (sorted_fields hc s)) by (by rewrite sorted_perm).
  assert (Hlen : length (sorted_fields hc s) = length (fields s)) by (by rewrite sorted_perm).
  destruct (offsets_loop_spec (sorted_fields hc s) 0 1 Hok') as (l & fin & Ho & Hn & Hpl & Hfin);
    [lia|unfold STEP; lia|].
  rewrite Ho in Hf. rewrite (max_align_perm 1 _ _ (sorted_perm hc s)) in *. unfold STEP in *.
  destruct Hf as (-> & Hos & Hoa & Hon & Hsv). exists fin.
  destruct (max_align_pow2 (fields s) Hok) as [(k & Hk & Hmk) _].
  assert (2 ^ k <= 2 ^ 32) by (apply Z.pow_le_mono_r; lia).
  assert (Hp : 0 <= sum_sizes (sorted_fields hc s)).
  { apply zsum_nonneg, Forall_fmap. eapply List.Forall_impl; [|exact Hok']. intros f Hf. apply Hf. }
  assert (Hr : align_up fin (max_align 1 (fields s)) = round_up fin (max_align 1 (fields s)))
    by (apply (align_word _ _ k); lia).
  rewrite Hr in Hos. rewrite Hos, Hsv. split_and!; try done; lia.
Qed.

Lemma optimize_layout_ok hc soa s total :
  struct_ok s -> Forall field_ok (fields s) -> fields s <> [] ->
  layout_ok hc (fields s) (optimize_struct hc soa s total).1.
Proof.
  intros Hs Hok Hne.
  destruct (optimize_result hc soa s total Hs Hok Hne) as (fin & Ho & Hn & Hpl & Hfin & Hos & Hoa & Hon & Hsv).
  set (s' := (optimize_struct hc soa s total).1) in *.
  pose proof (offsets_same (sorted_fields hc s) 0 1) as Hsame. rewrite Ho in Hsame. simpl in Hsame.
  destruct (max_align_pow2 (fields s) Hok) as [(k & Hk & Hmk) Hdiv].
  assert (Hk0 : 0 < 2 ^ k) by (apply Z.pow_pos_nonneg; lia).
  destruct (round_up_spec fin (max_align 1 (fields s))) as [Hr Hm]; [lia|].
  assert (Hmap : forall (P : DLField -> Prop), (forall f o, P f -> P (set_off f o)) ->
    Forall P (fields s) -> Forall P (fields s')).
  { intros P HP Hall. rewrite <- (sorted_perm hc s) in Hall. clear -HP Hall Hsame.
    induction Hsame as [|f f' l l' [o ->] _ IH]; [constructor|].
    apply Forall_cons_1 in Hall as [Hf Hall]. constructor; [by apply HP|by apply IH]. }
  assert (Hsz : Forall (fun f => 0 <= fsize f) (fields s')).
  { apply Hmap; [done|]. eapply List.Forall_impl; [|exact Hok]. intros f Hf. apply Hf. }
  split.
  - exists (sorted_fields hc s). split; [apply sorted_perm|done].
  - intros i j f' g' Hij Hi Hj.
    destruct (Forall2_lookup_r _ _ _ _ _ Hsame Hi) as (f & Hi' & of' & ->).
    destruct (Forall2_lookup_r _ _ _ _ _ Hsame Hj) as (g & Hj' & og' & ->).
    destruct (sorted_lookup _ _ i j f g (sorted_order hc s Hs) Hij Hi' Hj') as [Ha Hh].
    split; [exact Ha|]. split; [|exact Hh]. by apply (placed_disjoint 0 (fields s') fin i j).
  - destruct (placed_bounds _ _ _ Hsz Hpl) as [_ Hall].
    assert (Hdiv' : Forall (fun f => (alignment f | max_align 1 (fields s))) (fields s')) by (by apply Hmap).
    rewrite List.Forall_forall in Hall, Hdiv' |- *. intros f Hf. rewrite Hos, Hoa.
    destruct (Hall f Hf) as (? & ? & ?). split_and!; [lia|done|lia|by apply Hdiv'].
  - rewrite Hos, Hoa. done.
  - split; [done|]. rewrite Hoa. pose proof (so_count _ Hs) as Hc. unfold num_fields, DL_MAX_FIELDS in Hc.
    destruct (offsets_loop_spec (fields s) 0 1 Hok) as (l0 & fin0 & _ & Hn0 & _);
      [lia|unfold STEP; lia|].
    unfold compute_naive_size in Hon. rewrite Hn0 in Hon. by injection Hon.
  - rewrite Hsv. done.
Qed.

End layout.

(** ** The whole context *)

Lemma optimize_structs_lookup `{!Qsort} hc soa l total i s :
  l !! i = Some s -> exists t, (optimize_structs hc soa l total).1 !! i = Some (optimize_struct hc soa s t).1.
Proof.
  revert total i. induction l as [|s0 l IH]; intros total i; [done|]. simpl.
  destruct (optimize_struct hc soa s0 total) as [s' total'] eqn:He.
  destruct (optimize_structs hc soa l total') as [l' t'] eqn:Hl. destruct i as [|i]; simpl.
  - intros [= <-]. exists total. by rewrite He.
  - intros Hi. destruct (IH total' i Hi) as [t Ht]. rewrite Hl in Ht. by exists t.
Qed.

Lemma optimize_all_lookup `{!Qsort} c i s :
  structs c !! i = Some s ->
  exists t, structs (dl_optimize_all c) !! i =
    Some (optimize_struct (enable_hot_cold_split c) (enable_soa_hints c) s t).1.
Proof.
  intros Hi. destruct (optimize_structs_lookup (enable_hot_cold_split c) (enable_soa_hints c) _ 0 i s Hi) as [t Ht].
  exists t. unfold dl_optimize_all. by destruct (optimize_structs _ _ _ _).
Qed.

(** The optimizer lays every struct out correctly.  On a context whose
    fields have power-of-two alignments, each struct keeps its fields; they
    come in descending order of alignment, hot ones first within a tier when
    the split is enabled; every offset is a multiple of the field's alignment,
    no two fields overlap, all end within the struct's size, which is a
    multiple of its alignment, which every field's alignment divides; the
    recorded original size is that of the source order, and the padding saved
    is the difference, or 0 when there is none. *)
Theorem dl_layout_sound `{!Qsort} c i s
    (Hc : context_ok c) (Hs : structs c !! i = Some s)
    (Hok : Forall field_ok (fields s)) (Hne : fields s <> []) :
  exists s', structs (dl_optimize_all c) !! i = Some s' /\ layout_ok (enable_hot_cold_split c) (fields s) s'.
Proof.
  destruct (optimize_all_lookup c i s Hs) as [t Ht]. eexists. split; [exact Ht|].
  apply optimize_layout_ok; [|done|done]. by apply (Forall_lookup_1 _ _ _ _ (proj2 Hc) Hs).
Qed.

(** When sizes are multiples of alignments, the optimized layout is the
    smallest: no order of the fields has a smaller naive size, and the fields
    are contiguous, with padding only at the end of the struct. *)
Theorem dl_layout_minimal `{!Qsort} c i s
    (Hc : context_ok c) (Hs : structs c !! i = Some s)
    (Hok : Forall field_ok (fields s)) (Hw : Forall whole (fields s)) (Hne : fields s <> []) :
  exists s', structs (dl_optimize_all c) !! i = Some s' /\
    optimized_size s' = round_up (sum_sizes (fields s)) (optimized_align s') /\
    forall k, k ≡ₚ fields s -> optimized_size s' <= (compute_naive_size k).1.
Proof.
  destruct (optimize_all_lookup c i s Hs) as [t Ht]. eexists. split; [exact Ht|].
  pose proof (Forall_lookup_1 _ _ _ _ (proj2 Hc) Hs) as Hso.
  pose proof (so_count _ Hso) as Hcn. unfold num_fields, DL_MAX_FIELDS in Hcn.
  destruct (optimize_result (enable_hot_cold_split c) (enable_soa_hints c) s t Hso Hok Hne)
    as (fin & _ & Hn & _ & _ & -> & -> & _).
  set (sl := sorted_fields (enable_hot_cold_split c) s) in *.
  assert (Hsp : sl ≡ₚ fields s) by apply sorted_perm.
  assert (Hfin : fin = sum_sizes (fields s)).
  { rewrite <- (sum_sizes_perm _ _ Hsp). change fin with ((fin, max_align 1 (fields s)).1). rewrite <- Hn.
    rewrite no_padding; [lia|by rewrite Hsp|by rewrite Hsp| | |lia|].
    - pose proof (sorted_order (enable_hot_cold_split c) s Hso) as Ho. fold sl in Ho. clear -Ho.
      induction Ho as [|f l Ho IH Hf]; constructor; [done|].
      eapply List.Forall_impl; [|exact Hf]. by intros g [? _].
    - rewrite List.Forall_forall. intros f _. apply Zmod_0_l.
    - unfold STEP. rewrite Hsp. lia. }
  split; [by rewrite Hfin|]. intros k Hk. rewrite Hfin.
  assert (Hkok : Forall field_ok k) by (by rewrite Hk).
  destruct (offsets_loop_spec k 0 1 Hkok) as (_ & fk & _ & Hnk & _ & Hbk); [lia|unfold STEP; rewrite Hk; lia|].
  unfold compute_naive_size. rewrite Hnk. simpl. unfold STEP in Hbk.
  rewrite (max_align_perm 1 k (fields s) Hk), (sum_sizes_perm k (fields s) Hk), Hk in *.
  destruct (max_align_pow2 (fields s) Hok) as [(j & Hj & Hmj) _].
  assert (0 < 2 ^ j <= 2 ^ 32) by (split; [apply Z.pow_pos_nonneg; lia|apply Z.pow_le_mono_r; lia]).
  assert (Hp : 0 <= sum_sizes (fields s)).
  { apply zsum_nonneg, Forall_fmap. eapply List.Forall_impl; [|exact Hok]. intros f Hf. apply Hf. }
  unfold align_up. rewrite (align_word fk _ j) by lia. apply round_up_mono; lia.
Qed.

(** ** Witnesses *)

(** [struct { u8 tag; i64 key; u16 n; }] with a hot [n]. *)
Definition ex_context : DLContext :=
  let c := (dl_register_struct dl_context_init (Some "S"%string)).1 in
  let c := (dl_add_field c 0 (Some "tag"%string) 1 1 false).1 in
  let c := (dl_add_field c 0 (Some "key"%string) 8 8 true).1 in
  let c := (dl_add_field c 0 (Some "n"%string) 2 2 false).1 in
  dl_set_access_count c 0 2 40.

Lemma ex_context_built : built ex_context.
Proof. apply built_access. do 3 apply built_field. apply built_register, built_init. Defined.

Lemma dl_context_invariant_witness : num_structs ex_context = 1 /\ context_ok ex_context.
Proof. split; [reflexivity|]. apply dl_context_invariant. exact ex_context_built. Defined.

Definition ex_struct : DLStructLayout :=
  match structs ex_context with s :: _ => s | [] => new_struct None end.

Lemma ex_context_ok : context_ok ex_context.
Proof.
  split; [vm_compute; congruence|]. constructor; [|constructor]. split.
  - vm_compute. congruence.
  - reflexivity.
  - vm_compute. repeat constructor; congruence.
Qed.

Lemma ex_fields_ok : Forall field_ok (fields ex_struct).
Proof.
  constructor; [|constructor; [|constructor; [|constructor]]]; split;
    try (vm_compute; split; congruence);
    [exists 0|exists 3|exists 1]; (split; [lia|reflexivity]).
Qed.

Lemma dl_layout_sound_witness :
  exists s', structs (dl_optimize_all ex_context) !! 0%nat = Some s' /\ layout_ok true (fields ex_struct) s' /\
    optimized_off <$> fields s' = [0; 8; 10] /\ (original_size s', optimized_size s') = (24, 16).
Proof.
  destruct (dl_layout_sound ex_context 0 ex_struct ex_context_ok eq_refl ex_fields_ok) as (s' & Hs' & Hl);
    [discriminate|].
  exists s'. split; [exact Hs'|]. split; [exact Hl|]. vm_compute in Hs'. injection Hs' as <-. by split.
Defined.

Lemma dl_layout_minimal_witness :
  Forall whole (fields ex_struct) /\
  exists s', structs (dl_optimize_all ex_context) !! 0%nat = Some s' /\ optimized_size s' = 16.
Proof.
  assert (Hw : Forall whole (fields ex_struct)) by (repeat constructor).
  split; [exact Hw|].
  destruct (dl_layout_minimal ex_context 0 ex_struct ex_context_ok eq_refl ex_fields_ok Hw)
    as (s' & Hs' & Hsz & _); [discriminate|].
  exists s'. split; [exact Hs'|]. rewrite Hsz. vm_compute in Hs'. by injection Hs' as <-.
Defined.

(** Descending alignment does not minimize the padding when a size is
    not a multiple of its alignment: for sizes 5, 3, 4 with alignments 4, 1, 4
    the reordered struct takes 16 bytes where the source order takes 12, and
    the optimizer still installs the larger order (recording 0 bytes saved). *)
Theorem dl_reorder_can_grow :
  let c := (dl_register_struct dl_context_init None).1 in
  let c := (dl_add_field c 0 None 5 4 false).1 in
  let c := (dl_add_field c 0 None 3 1 false).1 in
  let c := (dl_add_field c 0 None 4 4 false).1 in
  exists s, structs (dl_optimize_all c) = [s] /\
    original_size s = 12 /\ optimized_size s = 16 /\ padding_saved s = 0 /\
    optimized_off <$> fields s = [0; 8; 12].
Proof. eexists. split; [vm_compute; reflexivity|]. by split_and!. Qed.
