(* ===== verification/CString.v ===== *)
(** * C strings

    The string functions of the C library that the package manager uses, on
    lists of characters (the bytes before the terminating zero): [strcmp],
    [strchr], [isspace], the [%d] conversions of [sscanf] and [snprintf].  A
    [%d] whose value does not fit an [int] is undefined. *)
From Stdlib Require Import Ascii.
From S2P Require Import Prelude.

Definition cstr : Type := list ascii.
Definition byte (c : ascii) : Z := Z.of_N (N_of_ascii c).
Definition lit (s : string) : cstr := String.list_ascii_of_string s.

(** Only the sign of the result is specified. *)
Fixpoint strcmp (a b : cstr) : Z :=
  match a, b with
  | [], [] => 0
  | [], _ => -1
  | _, [] => 1
  | x :: a, y :: b => if byte x <? byte y then -1 else if byte y <? byte x then 1 else strcmp a b
  end.

Definition strchr (s : cstr) (c : ascii) : option nat := find_idx (Ascii.eqb c) s.

(** [strncmp(s, p, strlen(p)) == 0]. *)
Fixpoint has_prefix (p s : cstr) : bool :=
  match p, s with
  | [], _ => true
  | x :: p, y :: s => Ascii.eqb x y && has_prefix p s
  | _, _ => false
  end.

Definition isspace (c : ascii) : bool := (byte c =? 32) || ((9 <=? byte c) && (byte c <=? 13)).

Fixpoint skip_space (s : cstr) : cstr :=
  match s with c :: s' => if isspace c then skip_space s' else s | [] => [] end.

(** ** Numbers *)

Definition is_digit (c : ascii) : bool := (48 <=? byte c) && (byte c <=? 57).
Definition digit (n : Z) : ascii := ascii_of_N (Z.to_N (48 + n)).

(** The digits at the front, accumulated into [acc]; [some] tells whether there was one. *)
Fixpoint scan_digits (acc : Z) (some : bool) (s : cstr) : option (Z * cstr) :=
  match s with
  | c :: s' => if is_digit c then scan_digits (acc * 10 + (byte c - 48)) true s'
               else if some then Some (acc, s) else None
  | [] => if some then Some (acc, []) else None
  end.

(** One [%d]: leading blanks, an optional sign, digits. *)
Definition scan_d (s : cstr) : option (Z * cstr) :=
  match skip_space s with
  | c :: s' =>
      if byte c =? 45 then '(v, r) ← scan_digits 0 false s'; Some (- v, r)
      else if byte c =? 43 then scan_digits 0 false s'
      else scan_digits 0 false (c :: s')
  | [] => None
  end.

(** [sscanf(s, "%d.%d. ...")] with [n] conversions: the values assigned. *)
Fixpoint scan_dots (n : nat) (s : cstr) : list Z :=
  match n with
  | O => []
  | S n =>
      match scan_d s with
      | None => []
      | Some (v, r) =>
          v :: match r with
               | c :: r' => if byte c =? 46 then scan_dots n r' else []
               | [] => []
               end
      end
  end.

Definition sscanf_dots (n : nat) (s : cstr) : outcome (list Z) :=
  let l := scan_dots n s in if forallb in_s32 l then Ok l else Undef.

(** [%d] of [snprintf], for an [int]: ten digits are enough. *)
Fixpoint decimal (fuel : nat) (n : Z) : cstr :=
  match fuel with
  | O => []
  | S fuel => if n <? 10 then [digit n] else decimal fuel (n / 10) ++ [digit (n mod 10)]
  end.

Definition print_d (n : Z) : cstr := if n <? 0 then "-"%char :: decimal 10 (- n) else decimal 10 n.

(** ** Comparison *)

Lemma byte_inj a b : byte a = byte b -> a = b.
Proof.
  unfold byte. intros H. rewrite <- (ascii_N_embedding a), <- (ascii_N_embedding b). f_equal. lia.
Qed.

Lemma strcmp_antisym a b : strcmp b a = - strcmp a b.
Proof.
  revert b. induction a as [|x a IH]; intros [|y b]; simpl; try done.
  destruct (Z.ltb_spec (byte x) (byte y)), (Z.ltb_spec (byte y) (byte x)); try lia. apply IH.
Qed.

Lemma strcmp_eq a b : strcmp a b = 0 <-> a = b.
Proof.
  revert b. induction a as [|x a IH]; intros [|y b]; simpl; try done.
  destruct (Z.ltb_spec (byte x) (byte y)); [split; [done|intros [= -> _]; lia]|].
  destruct (Z.ltb_spec (byte y) (byte x)); [split; [done|intros [= -> _]; lia]|].
  rewrite IH. assert (x = y) as -> by (apply byte_inj; lia). split; [by intros ->|by intros [= ->]].
Qed.

Lemma strcmp_trans a b c : strcmp a b <= 0 -> strcmp b c <= 0 -> strcmp a c <= 0.
Proof.
  revert b c. induction a as [|x a IH]; intros [|y b] [|z c]; simpl; try lia.
  destruct (Z.ltb_spec (byte x) (byte y)), (Z.ltb_spec (byte y) (byte x)),
    (Z.ltb_spec (byte y) (byte z)), (Z.ltb_spec (byte z) (byte y)),
    (Z.ltb_spec (byte x) (byte z)), (Z.ltb_spec (byte z) (byte x)); try lia. apply IH.
Qed.

(** ** Decimal round trip *)

Lemma digit_byte n : 0 <= n < 10 -> byte (digit n) = 48 + n.
Proof.
  intros Hn. unfold byte, digit. rewrite N_ascii_embedding; [lia|].
  apply N2Z.inj_lt. rewrite Z2N.id by lia. simpl. lia.
Qed.

Lemma digit_is n : 0 <= n < 10 -> is_digit (digit n) = true.
Proof. intros Hn. unfold is_digit. rewrite digit_byte by done. lia. Qed.

Definition stops (r : cstr) : Prop := match r with c :: _ => is_digit c = false | [] => True end.

Lemma scan_digits_app acc some l r :
  Forall (fun c => is_digit c = true) l ->
  scan_digits acc some (l ++ r) =
    scan_digits (foldl (fun a c => a * 10 + (byte c - 48)) acc l)
      (match l with [] => some | _ => true end) r.
Proof.
  intros H. revert acc some. induction H as [|c l Hc Hl IH]; intros acc some; simpl; [done|].
  rewrite Hc, IH. by destruct l.
Qed.

Lemma decimal_spec fuel n :
  (0 < fuel)%nat -> 0 <= n < 10 ^ Z.of_nat fuel ->
  Forall (fun c => is_digit c = true) (decimal fuel n) /\
  (exists c l, decimal fuel n = c :: l) /\
  (length (decimal fuel n) <= fuel)%nat /\
  forall acc, foldl (fun a c => a * 10 + (byte c - 48)) acc (decimal fuel n) =
    acc * 10 ^ Z.of_nat (length (decimal fuel n)) + n.
Proof.
  revert n. induction fuel as [|fuel IH]; intros n Hf Hn; [lia|]. cbn [decimal].
  destruct (Z.ltb_spec n 10) as [Hs|Hb].
  { split; [constructor; [apply digit_is; lia|constructor]|]. split; [by eexists _, _|]. split; [simpl; lia|].
    intros acc. simpl. rewrite digit_byte by lia. lia. }
  assert (Hfl : (0 < fuel)%nat).
  { destruct fuel; [|lia]. change (10 ^ Z.of_nat 1) with 10 in Hn. lia. }
  destruct (IH (n / 10) Hfl) as (Hd & (c & l & Hc) & Hlen & Hv).
  { split; [apply Z.div_pos; lia|]. apply Z.div_lt_upper_bound; [lia|].
    rewrite <- Z.pow_succ_r, <- Nat2Z.inj_succ by lia. lia. }
  assert (Hm : 0 <= n mod 10 < 10) by (apply Z.mod_pos_bound; lia).
  split; [apply Forall_app; split; [done|]; constructor; [apply digit_is; lia|constructor]|].
  split; [rewrite Hc; by eexists _, _|]. rewrite length_app. simpl. split; [lia|].
  intros acc. rewrite foldl_app, Hv. cbn [foldl]. rewrite digit_byte by done.
  rewrite Nat2Z.inj_add, Z.pow_add_r by lia. change (10 ^ Z.of_nat 1) with 10.
  pose proof (Z_div_mod_eq_full n 10). lia.
Qed.

Lemma print_d_digits n :
  0 <= n <= INT32_MAX ->
  Forall (fun c => is_digit c = true) (print_d n) /\ (exists c l, print_d n = c :: l) /\
  (length (print_d n) <= 10)%nat.
Proof.
  intros Hn. unfold print_d. rewrite (proj2 (Z.ltb_ge n 0)) by lia.
  destruct (decimal_spec 10 n) as (H1 & H2 & H3 & _); [lia|unfold INT32_MAX in Hn; lia|]. done.
Qed.

Lemma digit_plain c : is_digit c = true -> isspace c = false /\ (byte c =? 45) = false /\ (byte c =? 43) = false.
Proof. unfold is_digit, isspace. lia. Qed.

Lemma scan_print n r :
  0 <= n <= INT32_MAX -> stops r -> scan_d (print_d n ++ r) = Some (n, r).
Proof.
  intros Hn Hr. destruct (print_d_digits n Hn) as (Hd & (c & l & Hc) & _).
  assert (Hc' : is_digit c = true) by (rewrite Hc in Hd; by apply Forall_cons_1 in Hd as [? _]).
  destruct (digit_plain c Hc') as (H1 & H2 & H3).
  unfold scan_d. rewrite Hc. cbn [app skip_space]. rewrite H1, H2, H3.
  change (c :: l ++ r) with ((c :: l) ++ r). rewrite <- Hc, scan_digits_app by done.
  unfold print_d in *. rewrite (proj2 (Z.ltb_ge n 0)) in * by lia.
  destruct (decimal_spec 10 n) as (_ & _ & _ & Hv); [lia|unfold INT32_MAX in Hn; lia|].
  rewrite Hv, Hc, Z.mul_0_l, Z.add_0_l.
  destruct r as [|x r]; simpl in *; [done|]. by rewrite Hr.
Qed.

Lemma scan_dots_print a b c r :
  0 <= a <= INT32_MAX -> 0 <= b <= INT32_MAX -> 0 <= c <= INT32_MAX -> stops r ->
  sscanf_dots 3 (print_d a ++ "."%char :: print_d b ++ "."%char :: print_d c ++ r) = Ok [a; b; c].
Proof.
  intros Ha Hb Hc Hr. unfold sscanf_dots. cbn [scan_dots].
  rewrite scan_print by done. cbv beta iota. change (byte "." =? 46) with true. cbv iota.
  rewrite scan_print by done. cbv beta iota. change (byte "." =? 46) with true. cbv iota.
  rewrite scan_print by done.
  assert (Hl : match r with [] => [] | c0 :: r' => if byte c0 =? 46 then [] else [] end = @nil Z)
    by (destruct r as [|x r]; [done|by destruct (byte x =? 46)]).
  rewrite Hl. simpl. unfold in_s32, INT32_MIN, INT32_MAX in *.
  rewrite !(proj2 (Z.leb_le _ _)) by lia. done.
Qed.
