(* ===== verification/NuwanMap.v ===== *)
(** * The Robin Hood hash map of the runtime

    First, slot arrays as finite maps: a table whose slots hold at most one
    binding each, with different keys, stands for a finite map, and writing a
    slot inserts or deletes a binding.  Then the definitions of the map. *)
From Stdlib Require Import Ascii.
From S2P Require Import Prelude CString.

(** Overwriting one element, up to permutation. *)
Lemma list_insert_swap {A} (l : list A) i z w : l !! i = Some z -> z :: <[i := w]> l ≡ₚ w :: l.
Proof.
  intros H. pose proof (lookup_lt_Some _ _ _ H). rewrite insert_take_drop by done.
  rewrite <- (take_drop_middle l i z H) at 3. solve_Permutation.
Qed.

Lemma zip_insert {A B} (l : list A) (k : list B) i x y :
  zip (<[i := x]> l) (<[i := y]> k) = <[i := (x, y)]> (zip l k).
Proof. revert k i. induction l as [|a l IH]; intros [|b k] [|i]; cbn; try done. f_equal. apply IH. Qed.

(** Counting the elements that satisfy a test. *)
Definition count {A} (p : A -> bool) (l : list A) : Z := Z.of_nat (length (List.filter p l)).

Lemma count_cons {A} (p : A -> bool) x l : count p (x :: l) = b2z (p x) + count p l.
Proof. unfold count, b2z. cbn. destruct (p x); cbn; lia. Qed.

Lemma count_nonneg {A} (p : A -> bool) l : 0 <= count p l.
Proof. unfold count. lia. Qed.

Lemma count_perm {A} (p : A -> bool) l k : l ≡ₚ k -> count p l = count p k.
Proof. induction 1; rewrite ?count_cons; lia. Qed.

Lemma count_insert {A} (p : A -> bool) (l : list A) i z w : l !! i = Some z ->
  count p (<[i := w]> l) = count p l - b2z (p z) + b2z (p w).
Proof. intros H. pose proof (count_perm p _ _ (list_insert_swap l i z w H)) as Hp. rewrite !count_cons in Hp. lia. Qed.

Lemma count_exists {A} (p : A -> bool) l : 0 < count p l -> exists x, x ∈ l /\ p x = true.
Proof.
  induction l as [|y l IH]; [done|]. rewrite count_cons. destruct (p y) eqn:E.
  - exists y. split; [left|done].
  - cbn. intros H. destruct IH as (x & Hx & Hp); [lia|]. exists x. split; [by right|done].
Qed.

Section table_map.
Context {A K V : Type} `{Countable K} (f : A -> option (K * V)).
Implicit Types l : list A.

Definition table_map l : gmap K V := list_to_map (omap f l).

(** Two slots do not hold the same key. *)
Definition distinct l : Prop := forall i j a b k u v,
  l !! i = Some a -> l !! j = Some b -> f a = Some (k, u) -> f b = Some (k, v) -> i = j.

Lemma distinct_tail a l : distinct (a :: l) -> distinct l.
Proof. intros Hd i j x y k u v Hx Hy Hfx Hfy. by injection (Hd (S i) (S j) x y k u v Hx Hy Hfx Hfy). Qed.

Lemma distinct_NoDup l : distinct l -> base.NoDup (omap f l).*1.
Proof.
  induction l as [|a l IH]; intros Hd; [constructor|]. cbn. destruct (f a) as [[k v]|] eqn:Hf.
  - cbn. apply list.NoDup_cons. split; [|by apply IH, (distinct_tail a)].
    intros ([k' u] & -> & (b & Hb & Hfb)%list_elem_of_omap)%list_elem_of_fmap.
    apply list_elem_of_lookup in Hb as [j Hj]. by specialize (Hd 0%nat (S j) a b k' v u eq_refl Hj Hf Hfb).
  - by apply IH, (distinct_tail a).
Qed.

Lemma table_map_lookup l k v : distinct l -> table_map l !! k = Some v <-> exists a, a ∈ l /\ f a = Some (k, v).
Proof.
  intros Hd. unfold table_map. rewrite <- elem_of_list_to_map by by apply distinct_NoDup.
  apply list_elem_of_omap.
Qed.

Lemma table_map_None l k : distinct l -> (forall a v, a ∈ l -> f a <> Some (k, v)) -> table_map l !! k = None.
Proof.
  intros Hd Hn. destruct (table_map l !! k) as [v|] eqn:E; [|done].
  apply table_map_lookup in E as (a & Ha & Hf); [|done]. by destruct (Hn a v Ha).
Qed.

Lemma table_map_size l : distinct l -> base.size (table_map l) = length (omap f l).
Proof.
  intros Hd. unfold table_map. rewrite <- size_dom, dom_list_to_map_L.
  rewrite size_list_to_set by by apply distinct_NoDup. apply length_fmap.
Qed.

Lemma table_map_count l (p : A -> bool) : distinct l -> (forall a, a ∈ l -> p a = opt_bool (f a)) ->
  Z.of_nat (base.size (table_map l)) = count p l.
Proof.
  intros Hd Hp. rewrite table_map_size by done. clear Hd. induction l as [|a l IH]; [done|].
  rewrite count_cons, (Hp a) by left. cbn. specialize (IH (fun x Hx => Hp x ltac:(by right))).
  destruct (f a); cbn; lia.
Qed.

Lemma elem_of_insert l i a b x : l !! i = Some a -> x ∈ <[i := b]> l -> x = b \/ exists j, j <> i /\ l !! j = Some x.
Proof.
  intros Hi [j Hj]%list_elem_of_lookup. destruct (decide (j = i)) as [->|Hne].
  - rewrite list_lookup_insert_eq in Hj by by apply lookup_lt_Some in Hi. left. by simplify_eq.
  - rewrite list_lookup_insert_ne in Hj by done. right. by exists j.
Qed.

(** Writing a binding to a slot that is free or holds the key. *)
Lemma table_map_insert l i a b k v : distinct l -> distinct (<[i := b]> l) -> l !! i = Some a -> f b = Some (k, v) ->
  (forall k' u, f a = Some (k', u) -> k' = k) -> table_map (<[i := b]> l) = <[k := v]> (table_map l).
Proof.
  intros Hd Hd' Hi Hb Ha. apply map_eq. intros k'. destruct (decide (k' = k)) as [->|Hne].
  - rewrite lookup_insert_eq. apply table_map_lookup; [done|]. exists b. split; [|done].
    apply (list_elem_of_lookup_2 _ i). apply list_lookup_insert_eq. by apply lookup_lt_Some in Hi.
  - rewrite lookup_insert_ne by done. apply option_eq. intros u. rewrite !table_map_lookup by done. split.
    + intros (x & [->|(j & Hj & Hx)]%(elem_of_insert _ _ a) & Hf); [congruence| |done]. exists x. split; [|done].
      by apply list_elem_of_lookup_2 in Hx.
    + intros (x & [j Hj]%list_elem_of_lookup & Hf). exists x. split; [|done].
      apply (list_elem_of_lookup_2 _ j). rewrite list_lookup_insert_ne; [done|]. intros <-. rewrite Hi in Hj.
      injection Hj as <-. by apply Hne, (Ha k' u).
Qed.

(** Clearing the slot of a key. *)
Lemma table_map_delete l i a b k u : distinct l -> distinct (<[i := b]> l) -> l !! i = Some a -> f b = None ->
  f a = Some (k, u) -> table_map (<[i := b]> l) = delete k (table_map l).
Proof.
  intros Hd Hd' Hi Hb Ha. apply map_eq. intros k'. destruct (decide (k' = k)) as [->|Hne].
  - rewrite lookup_delete_eq. apply table_map_None; [done|].
    intros x v [->|(j & Hj & Hx)]%(elem_of_insert _ _ a) Hf; [congruence| |done].
    apply Hj. by apply (Hd j i x a k v u).
  - rewrite lookup_delete_ne by done. apply option_eq. intros v. rewrite !table_map_lookup by done. split.
    + intros (x & [->|(j & Hj & Hx)]%(elem_of_insert _ _ a) & Hf); [congruence| |done]. exists x. split; [|done].
      by apply list_elem_of_lookup_2 in Hx.
    + intros (x & [j Hj]%list_elem_of_lookup & Hf). exists x. split; [|done].
      apply (list_elem_of_lookup_2 _ j). rewrite list_lookup_insert_ne; [done|]. intros <-. rewrite Hi in Hj.
      injection Hj as <-. congruence.
Qed.

End table_map.

(** ** The Robin Hood hash map of the runtime

    [NuwanMap] of [src/runtime/stdlib/collections.c]: open addressing with
    string keys, linear probing and Robin Hood insertion.  The slots are a
    list; the arena's answer to a request for a new slot array is the
    argument [mem] (a fresh array, or [None] when memory is exhausted), its
    answer to [arena_strdup] the argument [ak].  A map or a key that may be
    [NULL] is an option.  The probing loops have no bound in the code: they
    take fuel. *)

(** FNV-1a, 64 bits ([nuwan_string_hash] of [string_ops.c]). *)
Definition nuwan_string_hash (s : cstr) : Z :=
  fold_left (fun h c => u64 (Z.lxor h (byte c) * 1099511628211)) s 14695981039346656037.

Definition MAP_INIT_CAP : Z := 16.
Definition MAP_LOAD_NUM : Z := 7.
Definition MAP_LOAD_DEN : Z := 8.
Definition MAP_EMPTY : Z := 2 ^ 64 - 1.

Record MapEntry := mkEntry { key : option cstr; val : Z; hash : Z; dib : Z }.
Record NuwanMap := mkMap { slots : list MapEntry; size : Z; cap : Z }.

Definition set_hash (h : Z) (e : MapEntry) : MapEntry := mkEntry (key e) (val e) h (dib e).
Definition set_val (v : Z) (e : MapEntry) : MapEntry := mkEntry (key e) v (hash e) (dib e).

(** [for (i...) slots[i].hash = MAP_EMPTY] *)
Definition clear_hashes (l : list MapEntry) : list MapEntry := map (set_hash MAP_EMPTY) l.

Definition nuwan_map_new (mem : option (list MapEntry)) : option NuwanMap :=
  match mem with
  | None => None
  | Some ns => Some (mkMap (clear_hashes ns) 0 MAP_INIT_CAP)
  end.

(** [strcmp(slots[idx].key, key) == 0], behind the comparison of the hashes. *)
Definition same_key (e : MapEntry) (k : option cstr) (h : Z) : outcome bool :=
  if hash e =? h then
    let! a := of_option (key e) in
    let! b := of_option k in
    Ok (strcmp a b =? 0)
  else Ok false.

(** [while (1)]; [c] is the entry being carried: [key], [val], [h], [cdib]. *)
Fixpoint insert_loop (fuel : nat) (l : list MapEntry) (cap idx : Z) (c : MapEntry)
  : outcome (list MapEntry * bool) :=
  match fuel with
  | O => OutOfFuel
  | S fuel =>
      let! e := of_option (l !! Z.to_nat idx) in
      if hash e =? MAP_EMPTY then Ok (<[Z.to_nat idx := c]> l, true) else
      let! same := same_key e (key c) (hash c) in
      if same : bool then Ok (<[Z.to_nat idx := set_val (val c) e]> l, false) else
      let '(l, c) := if dib e <? dib c then (<[Z.to_nat idx := c]> l, e) else (l, c) in
      insert_loop fuel l cap ((idx + 1) mod cap)
        (mkEntry (key c) (val c) (hash c) (u32 (dib c + 1)))
  end.

Definition map_insert_raw (fuel : nat) (l : list MapEntry) (cap : Z) (k : option cstr) (v h : Z)
  : outcome (list MapEntry * bool) :=
  insert_loop fuel l cap (h mod cap) (mkEntry k v h 0).

(** Every occupied slot of the old array goes to the new one. *)
Definition reinsert (fuel : nat) (nc : Z) (e : MapEntry) (ns : list MapEntry) : outcome (list MapEntry) :=
  if hash e =? MAP_EMPTY then Ok ns
  else let! r := map_insert_raw fuel ns nc (key e) (val e) (hash e) in Ok r.1.

Definition rebuild (fuel : nat) (m : NuwanMap) (nc : Z) (mem : option (list MapEntry)) : outcome NuwanMap :=
  match mem with
  | None => Ok m
  | Some ns =>
      let! ns := ofold (reinsert fuel nc) (slots m) (clear_hashes ns) in
      Ok (mkMap ns (size m) nc)
  end.

Definition map_grow (fuel : nat) (m : NuwanMap) (mem : option (list MapEntry)) : outcome NuwanMap :=
  rebuild fuel m (u64 (cap m * 2)) mem.

(** [while (expected_size * MAP_LOAD_DEN >= target_cap * MAP_LOAD_NUM) target_cap <<= 1;] *)
Fixpoint target_cap (fuel : nat) (expected_size target : Z) : outcome Z :=
  if u64 (target * MAP_LOAD_NUM) <=? u64 (expected_size * MAP_LOAD_DEN) then
    match fuel with O => OutOfFuel | S fuel => target_cap fuel expected_size (u64 (Z.shiftl target 1)) end
  else Ok target.

Definition nuwan_map_reserve (fuel : nat) (m : option NuwanMap) (expected_size : Z) (mem : option (list MapEntry))
  : outcome (option NuwanMap) :=
  match m with
  | None => Ok None
  | Some m =>
      let! t := target_cap fuel expected_size MAP_INIT_CAP in
      let! m := if cap m <? t then rebuild fuel m t mem else Ok m in
      Ok (Some m)
  end.

Definition nuwan_map_put (fuel : nat) (m : option NuwanMap) (k : option cstr) (v : Z)
    (mem : option (list MapEntry)) (ak : option cstr) : outcome (option NuwanMap) :=
  match m, k with
  | Some m, Some k =>
      let! m := if u64 (cap m * MAP_LOAD_NUM) <=? u64 (size m * MAP_LOAD_DEN)
                then map_grow fuel m mem else Ok m in
      let! r := map_insert_raw fuel (slots m) (cap m) ak v (nuwan_string_hash k) in
      Ok (Some (mkMap r.1 (if snd r then size m + 1 else size m) (cap m)))
  | _, _ => Ok m
  end.

(** The probing loop of [nuwan_map_get], [nuwan_map_has] and
    [nuwan_map_remove]: the index of the key's slot. *)
Fixpoint probe (fuel : nat) (l : list MapEntry) (cap idx : Z) (k : cstr) (h : Z) : outcome (option Z) :=
  match fuel with
  | O => OutOfFuel
  | S fuel =>
      let! e := of_option (l !! Z.to_nat idx) in
      if hash e =? MAP_EMPTY then Ok None else
      let! same := same_key e (Some k) h in
      if same : bool then Ok (Some idx) else probe fuel l cap ((idx + 1) mod cap) k h
  end.

Definition map_find (fuel : nat) (m : NuwanMap) (k : cstr) : outcome (option Z) :=
  let h := nuwan_string_hash k in probe fuel (slots m) (cap m) (h mod cap m) k h.

Definition nuwan_map_get (fuel : nat) (m : option NuwanMap) (k : option cstr) : outcome Z :=
  match m, k with
  | Some m, Some k =>
      let! i := map_find fuel m k in
      match i with
      | Some i => let! e := of_option (slots m !! Z.to_nat i) in Ok (val e)
      | None => Ok 0
      end
  | _, _ => Ok 0
  end.

Definition nuwan_map_has (fuel : nat) (m : option NuwanMap) (k : option cstr) : outcome bool :=
  match m, k with
  | Some m, Some k => let! i := map_find fuel m k in match i with Some _ => Ok true | None => Ok false end
  | _, _ => Ok false
  end.

Definition nuwan_map_remove (fuel : nat) (m : option NuwanMap) (k : option cstr) : outcome (option NuwanMap * bool) :=
  match m, k with
  | Some m, Some k =>
      let! i := map_find fuel m k in
      match i with
      | Some i =>
          let! e := of_option (slots m !! Z.to_nat i) in
          let slots := <[Z.to_nat i := mkEntry None (val e) MAP_EMPTY (dib e)]> (slots m) in
          Ok (Some (mkMap slots (size m - 1) (cap m)), true)
      | None => Ok (Some m, false)
      end
  | _, _ => Ok (m, false)
  end.

Definition nuwan_map_size (m : option NuwanMap) : Z := match m with Some m => size m | None => 0 end.
Definition nuwan_map_empty (m : option NuwanMap) : bool := match m with Some m => size m =? 0 | None => true end.

Definition nuwan_map_clear (m : option NuwanMap) : option NuwanMap :=
  match m with
  | None => None
  | Some m => Some (mkMap (map (fun e => mkEntry None (val e) MAP_EMPTY (dib e)) (slots m)) 0 (cap m))
  end.
