(* ===== verification/NuwanMapFacts.v ===== *)
(** * The hash map is a finite map

    The Robin Hood invariant, which is local to neighbouring slots, is kept by
    insertion and makes linear probing find every key.  Removal breaks it. *)
From Stdlib Require Import Ascii.
From S2P Require Import Prelude CString NuwanMap.

Definition occ (e : MapEntry) : Prop := hash e <> MAP_EMPTY.

(** [a] sits before [b]: no poorer than one step. *)
Definition before (a b : MapEntry) : Prop := 0 < dib b -> occ a /\ dib b - 1 <= dib a.

Section table.
Context (n : Z) (Hn : 0 < n <= 2 ^ 31).

(** The slot of an index taken modulo the capacity. *)
Definition at_ (l : list MapEntry) (j : Z) : option MapEntry := l !! Z.to_nat (j mod n).
Definition put_at (l : list MapEntry) (j : Z) (e : MapEntry) : list MapEntry := <[Z.to_nat (j mod n) := e]> l.

Definition entry_ok (j : Z) (e : MapEntry) : Prop :=
  0 <= dib e /\ (hash e + dib e) mod n = j mod n /\ exists k, key e = Some k /\ hash e = nuwan_string_hash k.

(** The Robin Hood invariant. *)
Record table (l : list MapEntry) : Prop := {
  tb_len : Z.of_nat (length l) = n;
  tb_ok : forall j e, at_ l j = Some e -> occ e -> entry_ok j e;
  tb_before : forall j a b, at_ l (j - 1) = Some a -> at_ l j = Some b -> occ b -> before a b;
  tb_keys : forall i j a b, at_ l i = Some a -> at_ l j = Some b -> occ a -> occ b ->
    key a = key b -> i mod n = j mod n
}.

Lemma at_total l j : Z.of_nat (length l) = n -> exists e, at_ l j = Some e.
Proof.
  intros Hl. unfold at_. apply lookup_lt_is_Some_2. pose proof (Z.mod_pos_bound j n). lia.
Qed.

Lemma at_mod l i j : i mod n = j mod n -> at_ l i = at_ l j.
Proof. intros H. unfold at_. by rewrite H. Qed.

Lemma at_put l i j e : Z.of_nat (length l) = n ->
  at_ (put_at l i e) j = if decide (j mod n = i mod n) then Some e else at_ l j.
Proof.
  intros Hl. unfold at_, put_at.
  pose proof (Z.mod_pos_bound i n ltac:(lia)). pose proof (Z.mod_pos_bound j n ltac:(lia)).
  destruct (decide (j mod n = i mod n)) as [->|Hne].
  - rewrite list_lookup_insert_eq by lia. done.
  - rewrite list_lookup_insert_ne; [done|]. intros E%Z2Nat.inj; lia.
Qed.

Lemma put_len l i e : length (put_at l i e) = length l.
Proof. apply length_insert. Qed.

Lemma mod_shift i j k : i mod n = j mod n -> (i + k) mod n = (j + k) mod n.
Proof. intros H. rewrite (Zplus_mod i), (Zplus_mod j). by rewrite H. Qed.

(** Walking back from a slot: all the steps to its home are occupied. *)
Lemma walk_back l j e : table l -> at_ l j = Some e -> occ e ->
  forall i, 0 <= i <= dib e -> exists a, at_ l (j - i) = Some a /\ occ a /\ dib e - i <= dib a.
Proof.
  intros Ht He Ho i Hi. pose proof (proj1 Hi) as H0. revert Hi. pattern i. apply natlike_ind; [| |done].
  - intros _. exists e. rewrite Z.sub_0_r. split_and!; [done|done|lia].
  - clear i H0. intros i Hi0 IH Hi. destruct IH as (b & Hb & Hob & Hdb); [lia|].
    destruct (at_total l (j - Z.succ i) (tb_len _ Ht)) as [a Ha]. exists a. split; [done|].
    destruct (tb_before _ Ht (j - i) a b) as [Hoa Hda]; [|done|done| |].
    + rewrite <- Ha. f_equal. lia.
    + lia.
    + split; [done|lia].
Qed.

(** With an empty slot, no entry is a full turn from home. *)
Lemma dib_bound l j e x z : table l -> at_ l j = Some e -> occ e -> at_ l z = Some x -> ~ occ x -> dib e < n.
Proof.
  intros Ht He Ho Hx Hnx. destruct (Z_lt_le_dec (dib e) n) as [|Hge]; [done|]. exfalso.
  set (i := (j - z) mod n). pose proof (Z.mod_pos_bound (j - z) n).
  destruct (walk_back l j e Ht He Ho i) as (a & Ha & Hoa & _); [lia|].
  rewrite (at_mod l (j - i) z) in Ha; [by simplify_eq|].
  unfold i. rewrite Zminus_mod_idemp_r. f_equal. lia.
Qed.

(** ** Probing *)

Definition match_at (l : list MapEntry) (k : cstr) (j : Z) : Prop :=
  exists e, at_ l j = Some e /\ occ e /\ key e = Some k.

Lemma same_key_ok l j e k h : table l -> at_ l j = Some e -> occ e -> h = nuwan_string_hash k ->
  exists b, same_key e (Some k) h = Ok b /\ (b = true <-> key e = Some k).
Proof.
  intros Ht He Ho ->. destruct (tb_ok _ Ht j e He Ho) as (_ & _ & k' & Hk & Hh). unfold same_key.
  rewrite Hk, Hh. cbn [of_option obind]. destruct (Z.eqb_spec (nuwan_string_hash k') (nuwan_string_hash k)) as [_|Hne].
  - eexists. split; [done|]. rewrite Z.eqb_eq, strcmp_eq. split; congruence.
  - exists false. split; [done|]. split; [done|]. intros [= ->]. done.
Qed.

Lemma at_idx l idx : 0 <= idx < n -> l !! Z.to_nat idx = at_ l idx.
Proof. intros H. unfold at_. by rewrite Z.mod_small. Qed.

Lemma put_idx l idx c : 0 <= idx < n -> <[Z.to_nat idx := c]> l = put_at l idx c.
Proof. intros H. unfold put_at. by rewrite Z.mod_small. Qed.

(** The loop ends at the first slot that is empty or holds the key. *)
Lemma probe_spec l k m : table l -> forall idx fuel, 0 <= idx < n ->
  (forall i, 0 <= i < Z.of_nat m -> exists e, at_ l (idx + i) = Some e /\ occ e /\ key e <> Some k) ->
  (exists e, at_ l (idx + Z.of_nat m) = Some e /\ (occ e -> key e = Some k)) -> (m < fuel)%nat ->
  exists r, probe fuel l n idx k (nuwan_string_hash k) = Ok r /\
    (match_at l k (idx + Z.of_nat m) -> r = Some ((idx + Z.of_nat m) mod n)) /\
    (~ match_at l k (idx + Z.of_nat m) -> r = None).
Proof.
  intros Ht. induction m as [|m IH]; intros idx fuel Hidx Hpre Hstop Hfuel;
    (destruct fuel as [|fuel]; [lia|]); cbn [probe]; rewrite at_idx by done.
  - rewrite Z.add_0_r in *. destruct Hstop as (e & He & Hstop). rewrite He. cbn [of_option obind].
    unfold match_at. destruct (Z.eqb_spec (hash e) MAP_EMPTY) as [Hem|Hem].
    { exists None. split_and!; [done| |done]. intros (e' & He' & Ho & _). rewrite He in He'.
      injection He' as <-. by destruct Ho. }
    destruct (same_key_ok l idx e k _ Ht He Hem eq_refl) as (b & -> & Hb). cbn [obind].
    assert (b = true) as -> by (apply Hb; auto). exists (Some idx). split_and!; [done| |].
    + intros _. by rewrite Z.mod_small.
    + intros []. eauto.
  - destruct (Hpre 0 ltac:(lia)) as (e & He & Ho & Hk). rewrite Z.add_0_r in He. rewrite He.
    cbn [of_option obind]. destruct (Z.eqb_spec (hash e) MAP_EMPTY) as [|_]; [done|].
    destruct (same_key_ok l idx e k _ Ht He Ho eq_refl) as (b & -> & Hb). cbn [obind].
    assert (b = false) as -> by (apply not_true_iff_false; rewrite Hb; done).
    assert (Hsh : forall i, at_ l ((idx + 1) mod n + i) = at_ l (idx + (i + 1))).
    { intros i. apply at_mod. rewrite Zplus_mod_idemp_l. f_equal. lia. }
    destruct (IH ((idx + 1) mod n) fuel) as (r & Hr & H1 & H2).
    + apply Z.mod_pos_bound. lia.
    + intros i Hi. rewrite Hsh. apply Hpre. lia.
    + rewrite Hsh. replace (Z.of_nat m + 1) with (Z.of_nat (S m)) by lia. done.
    + lia.
    + exists r. split; [done|]. unfold match_at in *. rewrite Hsh in H1, H2.
      replace (Z.of_nat m + 1) with (Z.of_nat (S m)) in H1, H2 by lia.
      split; [|done]. intros Hm. rewrite (H1 Hm). f_equal. rewrite Zplus_mod_idemp_l. f_equal. lia.
Qed.

(** ** The pairs a table holds *)

Definition pairs_of (e : MapEntry) : list (cstr * Z) :=
  if hash e =? MAP_EMPTY then [] else match key e with Some k => [(k, val e)] | None => [] end.

Lemma pairs_split l j a : at_ l j = Some a -> exists R,
  l ≫= pairs_of ≡ₚ pairs_of a ++ R /\ forall e, put_at l j e ≫= pairs_of ≡ₚ pairs_of e ++ R.
Proof.
  unfold at_, put_at. intros H. pose proof (lookup_lt_Some _ _ _ H) as Hlt.
  exists ((take (Z.to_nat (j mod n)) l ≫= pairs_of) ++ (drop (S (Z.to_nat (j mod n))) l ≫= pairs_of)).
  split; [|intros e; rewrite insert_take_drop by done].
  - rewrite <- (take_drop_middle l _ a H) at 1. rewrite !bind_app. cbn [mbind list_bind]. solve_Permutation.
  - rewrite !bind_app. cbn [mbind list_bind]. solve_Permutation.
Qed.

Lemma pairs_put l j a e : at_ l j = Some a ->
  pairs_of a ++ (put_at l j e ≫= pairs_of) ≡ₚ pairs_of e ++ (l ≫= pairs_of).
Proof. intros H. destruct (pairs_split l j a H) as (R & H1 & H2). rewrite H1, H2. solve_Permutation. Qed.

Lemma pairs_occ e k : occ e -> key e = Some k -> pairs_of e = [(k, val e)].
Proof. unfold occ, pairs_of. intros H ->. by destruct (Z.eqb_spec (hash e) MAP_EMPTY). Qed.

Lemma pairs_free e : ~ occ e -> pairs_of e = [].
Proof. unfold occ, pairs_of. intros H. destruct (Z.eqb_spec (hash e) MAP_EMPTY); [done|]. by destruct H. Qed.

(** ** Insertion *)

(** [c] is in hand at [idx]: it belongs there as far as the slots before tell. *)
Record carried (l : list MapEntry) (idx : Z) (c : MapEntry) : Prop := {
  ca_occ : occ c;
  ca_ok : entry_ok idx c;
  ca_before : forall a, at_ l (idx - 1) = Some a -> before a c;
  ca_fresh : forall j e, at_ l j = Some e -> occ e -> key e <> key c
}.

(** Writing a carried entry over a free or richer one keeps the table. *)
Lemma table_put l idx c e : table l -> carried l idx c -> at_ l idx = Some e -> (occ e -> dib e < dib c) ->
  table (put_at l idx c).
Proof.
  intros Ht [Hoc Hok Hb Hf] He Hlt. pose proof (tb_len _ Ht) as Hl. constructor.
  - by rewrite put_len.
  - intros j x. rewrite at_put by done. case_decide as Hj; [|apply (tb_ok _ Ht)].
    intros [= <-] _. destruct Hok as (H0 & H1 & H2). split_and!; [done| |done]. by rewrite Hj.
  - intros j a b. rewrite !at_put by done. case_decide as H1; case_decide as H2; intros [= Ha] [= Hbb] Hob; subst.
    + intros Hd. split; [done|lia].
    + intros Hd. destruct (tb_before _ Ht j e b) as [Hoe Hde]; [by rewrite <- He; apply at_mod|done..|].
      specialize (Hlt Hoe). split; [done|lia].
    + apply Hb. rewrite <- Ha. apply at_mod. rewrite <- !Z.add_opp_r. by apply mod_shift.
    + by apply (tb_before _ Ht j a b).
  - intros i j a b. rewrite !at_put by done. case_decide; case_decide; intros [= Ha] [= Hbb] Hoa Hob Hk; subst.
    + congruence.
    + by destruct (Hf j b Hbb Hob).
    + by destruct (Hf i a Ha Hoa).
    + by apply (tb_keys _ Ht i j a b).
Qed.

(** The next position of an entry that moves on. *)
Lemma carried_next l idx c e : Z.of_nat (length l) = n -> occ c -> entry_ok idx c ->
  (forall j x, at_ l j = Some x -> occ x -> key x <> key c) ->
  at_ l idx = Some e -> occ e -> dib c <= dib e -> dib c <= n ->
  carried l ((idx + 1) mod n) (mkEntry (key c) (val c) (hash c) (u32 (dib c + 1))).
Proof.
  intros Hl Ho (Hd & Hm & Hk) Hf He Hoe Hle Hn'.
  assert (u32 (dib c + 1) = dib c + 1) as -> by (apply Z.mod_small; word_lia).
  assert (Hidx : forall i, at_ l ((idx + 1) mod n + i) = at_ l (idx + (i + 1))).
  { intros i. apply at_mod. rewrite Zplus_mod_idemp_l. f_equal. lia. }
  constructor.
  - done.
  - split_and!; simpl; [lia| |done]. rewrite Zmod_mod. rewrite Z.add_assoc. by apply mod_shift.
  - intros a Ha. replace (_ - 1) with ((idx + 1) mod n + -1) in Ha by lia. rewrite Hidx in Ha.
    replace (idx + (-1 + 1)) with idx in Ha by lia. rewrite He in Ha. injection Ha as <-.
    intros _. simpl. split; [done|lia].
  - done.
Qed.

Lemma entry_pair j e : entry_ok j e -> exists k, key e = Some k /\ hash e = nuwan_string_hash k.
Proof. by intros (_ & _ & ?). Qed.

Lemma same_key_neq j e c : entry_ok j e -> key e <> key c ->
  (exists k, key c = Some k /\ hash c = nuwan_string_hash k) -> same_key e (key c) (hash c) = Ok false.
Proof.
  intros (_ & _ & k & Hk & Hh) Hne (k' & Hk' & Hh'). unfold same_key.
  destruct (hash e =? hash c); [|done]. rewrite Hk, Hk'. simpl. f_equal. apply Z.eqb_neq.
  rewrite strcmp_eq. congruence.
Qed.

(** Steps before the first free slot [m] places ahead. *)
Definition run_to (l : list MapEntry) (idx : Z) (m : nat) : Prop :=
  (forall i, 0 <= i < Z.of_nat m -> exists e, at_ l (idx + i) = Some e /\ occ e) /\
  exists e, at_ l (idx + Z.of_nat m) = Some e /\ ~ occ e.

Lemma at_next l idx i : at_ l ((idx + 1) mod n + i) = at_ l (idx + (i + 1)).
Proof. apply at_mod. rewrite Zplus_mod_idemp_l. f_equal. lia. Qed.

Lemma run_to_step l idx m : run_to l idx (S m) -> run_to l ((idx + 1) mod n) m.
Proof.
  intros [H1 H2]. split.
  - intros i Hi. rewrite at_next. apply H1. lia.
  - rewrite at_next. by replace (Z.of_nat m + 1) with (Z.of_nat (S m)) by lia.
Qed.

Lemma run_to_put l idx i m c : Z.of_nat (length l) = n -> occ c ->
  (exists e, at_ l i = Some e /\ occ e) -> run_to l idx m -> run_to (put_at l i c) idx m.
Proof.
  intros Hl Hc (x & Hx & Hox) [H1 (e & He & Hoe)]. split.
  - intros j Hj. rewrite at_put by done. case_decide; eauto.
  - exists e. rewrite at_put by done. case_decide as Hd; [|done].
    rewrite (at_mod l _ i Hd) in He. by simplify_eq.
Qed.

(** A free slot bounds every carried distance. *)
Lemma carried_bound l idx c m : table l -> carried l idx c -> run_to l idx m -> dib c <= n.
Proof.
  intros Ht Hc [_ (z & Hz & Hoz)]. destruct (at_total l (idx - 1) (tb_len _ Ht)) as [a Ha].
  destruct (Z_le_gt_dec (dib c) 0); [lia|]. destruct (ca_before _ _ _ Hc a Ha) as [Hoa Hd]; [lia|].
  pose proof (dib_bound l _ _ _ _ Ht Ha Hoa Hz Hoz). lia.
Qed.

Lemma insert_fresh m : forall l idx c fuel, 0 <= idx < n -> table l -> carried l idx c -> run_to l idx m ->
  (m < fuel)%nat ->
  exists l', insert_loop fuel l n idx c = Ok (l', true) /\ table l' /\
    l' ≫= pairs_of ≡ₚ pairs_of c ++ (l ≫= pairs_of).
Proof.
  induction m as [|m IH]; intros l idx c fuel Hidx Ht Hc Hrun Hfuel; (destruct fuel as [|fuel]; [lia|]);
    cbn [insert_loop]; rewrite at_idx by done; pose proof (tb_len _ Ht) as Hl;
    pose proof (carried_bound _ _ _ _ Ht Hc Hrun) as Hcb.
  - destruct Hrun as [_ (e & He & Hoe)]. rewrite Z.add_0_r in He. rewrite He. cbn [of_option obind].
    destruct (Z.eqb_spec (hash e) MAP_EMPTY); [|done].
    exists (put_at l idx c). split_and!.
    + by rewrite put_idx.
    + by apply (table_put l idx c e).
    + pose proof (pairs_put l idx e c He) as Hp. by rewrite pairs_free in Hp.
  - destruct (proj1 Hrun 0 ltac:(lia)) as (e & He & Hoe). rewrite Z.add_0_r in He. rewrite He.
    cbn [of_option obind]. destruct (Z.eqb_spec (hash e) MAP_EMPTY); [done|].
    pose proof (tb_ok _ Ht idx e He Hoe) as Heok.
    rewrite (same_key_neq idx) by (eauto using entry_pair, ca_ok; by apply (ca_fresh _ _ _ Hc idx)).
    cbn [obind]. destruct (Z.ltb_spec (dib e) (dib c)) as [Hlt|Hge].
    + rewrite put_idx by done.
      destruct (IH (put_at l idx c) ((idx + 1) mod n) (mkEntry (key e) (val e) (hash e) (u32 (dib e + 1))) fuel)
        as (l' & Hl' & Ht' & Hp').
      * apply Z.mod_pos_bound. lia.
      * by apply (table_put l idx c e).
      * apply (carried_next _ _ _ c); [by rewrite put_len|done..| | |apply Hc|lia|lia].
        -- intros j x. rewrite at_put by done. case_decide as Hd.
           ++ intros [= <-] _ Heq. by destruct (ca_fresh _ _ _ Hc idx e He Hoe).
           ++ intros Hx Hox Heq. apply Hd. by apply (tb_keys _ Ht j idx x e).
        -- rewrite at_put by done. by rewrite decide_True.
      * apply run_to_step. apply run_to_put; eauto using ca_occ.
      * lia.
      * exists l'. split_and!; [done|done|]. rewrite Hp'. rewrite <- (pairs_put l idx e c He).
        by unfold pairs_of.
    + destruct (IH l ((idx + 1) mod n) (mkEntry (key c) (val c) (hash c) (u32 (dib c + 1))) fuel)
        as (l' & Hl' & Ht' & Hp').
      * apply Z.mod_pos_bound. lia.
      * done.
      * apply (carried_next _ _ _ e); try done; [apply Hc..].
      * by apply run_to_step.
      * lia.
      * exists l'. split_and!; [done|done|]. rewrite Hp'. by unfold pairs_of.
Qed.

Definition has_free (l : list MapEntry) : Prop := exists z x, at_ l z = Some x /\ ~ occ x.

Lemma occ_dec e : {occ e} + {~ occ e}.
Proof. unfold occ. destruct (Z.eq_dec (hash e) MAP_EMPTY); [right|left]; congruence. Qed.

Lemma first_free l : Z.of_nat (length l) = n -> has_free l ->
  forall idx, exists m, run_to l idx m /\ Z.of_nat m < n.
Proof.
  intros Hl (z & x & Hz & Hox) idx. pose proof (Z.mod_pos_bound (z - idx) n ltac:(lia)) as Hb.
  assert (H : forall d idx, at_ l (idx + Z.of_nat d) = Some x -> exists m, run_to l idx m /\ (m <= d)%nat).
  { induction d as [|d IH]; intros j Hj.
    - exists 0%nat. split; [|lia]. split; [intros; lia|eauto].
    - destruct (at_total l j Hl) as [e He]. destruct (occ_dec e) as [Ho|Ho].
      + destruct (IH (j + 1)) as (m & [H1 H2] & Hm); [rewrite <- Hj; f_equal; lia|].
        exists (S m). split; [|lia]. split.
        * intros i Hi. destruct (Z.eq_dec i 0) as [->|]; [rewrite Z.add_0_r; eauto|].
          replace (j + i) with (j + 1 + (i - 1)) by lia. apply H1. lia.
        * replace (j + Z.of_nat (S m)) with (j + 1 + Z.of_nat m) by lia. done.
      + exists 0%nat. split; [|lia]. split; [intros; lia|]. rewrite Z.add_0_r. eauto. }
  destruct (H (Z.to_nat ((z - idx) mod n)) idx) as (m & Hm & Hle).
  - rewrite <- Hz. apply at_mod. rewrite Z2Nat.id, Zplus_mod_idemp_r by lia. f_equal. lia.
  - exists m. split; [done|]. lia.
Qed.

(** An entry in the table is reached from the home of its key without meeting
    a free slot or a richer entry. *)
Lemma reach l p e k : table l -> has_free l -> at_ l p = Some e -> occ e -> key e = Some k ->
  0 <= dib e < n /\ at_ l (nuwan_string_hash k mod n + dib e) = Some e /\
  forall i, 0 <= i < dib e -> exists a, at_ l (nuwan_string_hash k mod n + i) = Some a /\ occ a /\
    i <= dib a /\ key a <> Some k.
Proof.
  intros Ht (z & x & Hz & Hox) He Ho Hk. destruct (tb_ok _ Ht p e He Ho) as (Hd & Hm & k' & Hk' & Hh).
  rewrite Hk in Hk'. injection Hk' as <-. pose proof (dib_bound l p e x z Ht He Ho Hz Hox) as Hlt.
  assert (Hat : forall i, at_ l (nuwan_string_hash k mod n + i) = at_ l (p - (dib e - i))).
  { intros i. apply at_mod. rewrite Zplus_mod_idemp_l, <- Hh.
    replace (hash e + i) with (hash e + dib e + - (dib e - i)) by lia.
    rewrite <- Z.add_opp_r. by apply mod_shift. }
  split_and!; [done|done| |].
  { rewrite Hat. rewrite Z.sub_diag, Z.sub_0_r. done. }
  intros i Hi. destruct (walk_back l p e Ht He Ho (dib e - i)) as (a & Ha & Hoa & Hda); [lia|].
  exists a. rewrite Hat. split_and!; [done|done|lia|]. intros Hka.
  assert ((p - (dib e - i)) mod n = p mod n) as Hpp by (apply (tb_keys _ Ht _ _ a e); try done; congruence).
  assert ((dib e - i) mod n = 0) as H0.
  { replace (dib e - i) with (p - (p - (dib e - i))) by lia. rewrite Zminus_mod, Hpp, Z.sub_diag. done. }
  rewrite Z.mod_small in H0 by lia. lia.
Qed.

(** ** The finite map *)

Definition mapping (l : list MapEntry) : gmap cstr Z := list_to_map (l ≫= pairs_of).

Lemma elem_pairs l k v :
  (k, v) ∈ l ≫= pairs_of <-> exists e, e ∈ l /\ occ e /\ key e = Some k /\ val e = v.
Proof.
  rewrite list_elem_of_bind. unfold pairs_of, occ. split.
  - intros (e & Hv & He). exists e. destruct (Z.eqb_spec (hash e) MAP_EMPTY); [by apply not_elem_of_nil in Hv|].
    destruct (key e); [|by apply not_elem_of_nil in Hv]. apply list_elem_of_singleton in Hv. by simplify_eq.
  - intros (e & He & Ho & Hk & Hv). exists e. split; [|done].
    destruct (Z.eqb_spec (hash e) MAP_EMPTY); [done|]. rewrite Hk, Hv. by left.
Qed.

Lemma pairs_NoDup_list l :
  (forall i j a b k, l !! i = Some a -> l !! j = Some b -> occ a -> occ b -> key a = Some k -> key b = Some k -> i = j) ->
  base.NoDup (l ≫= pairs_of).*1.
Proof.
  induction l as [|e l IH]; intros H; cbn; [constructor|]. rewrite fmap_app. apply list.NoDup_app. split_and!.
  - unfold pairs_of. destruct (hash e =? MAP_EMPTY); [constructor|]. destruct (key e); [|constructor].
    apply NoDup_singleton.
  - intros k Hk (x & -> & Hx)%list_elem_of_fmap. destruct x as [k' v]. cbn in Hk.
    apply elem_pairs in Hx as (b & Hb & Hob & Hkb & _). apply list_elem_of_lookup in Hb as [j Hj].
    unfold pairs_of in Hk. destruct (Z.eqb_spec (hash e) MAP_EMPTY) as [|Hoe]; [by apply not_elem_of_nil in Hk|].
    destruct (key e) as [k1|] eqn:Hke; [|by apply not_elem_of_nil in Hk].
    apply list_elem_of_singleton in Hk. cbn in Hk. subst k1.
    by specialize (H 0%nat (S j) e b k' eq_refl Hj Hoe Hob Hke Hkb).
  - apply IH. intros i j a b k Ha Hb Hoa Hob Hka Hkb.
    by specialize (H (S i) (S j) a b k Ha Hb Hoa Hob Hka Hkb) as [= ->].
Qed.

Lemma pairs_NoDup l : table l -> base.NoDup (l ≫= pairs_of).*1.
Proof.
  intros Ht. apply pairs_NoDup_list. intros i j a b k Ha Hb Hoa Hob Hka Hkb.
  assert (Hat : forall i a, l !! i = Some a -> at_ l (Z.of_nat i) = Some a /\ Z.of_nat i mod n = Z.of_nat i).
  { clear -Ht Hn. intros i a Ha. pose proof (lookup_lt_Some _ _ _ Ha). pose proof (tb_len _ Ht).
    rewrite <- at_idx, Nat2Z.id, Z.mod_small by lia. done. }
  destruct (Hat i a Ha) as [Ha' Hi], (Hat j b Hb) as [Hb' Hj].
  pose proof (tb_keys _ Ht _ _ a b Ha' Hb' Hoa Hob). rewrite Hi, Hj, Hka, Hkb in H.
  specialize (H eq_refl). lia.
Qed.

Lemma mapping_lookup l k v : table l ->
  mapping l !! k = Some v <-> exists p e, at_ l p = Some e /\ occ e /\ key e = Some k /\ val e = v.
Proof.
  intros Ht. unfold mapping. rewrite <- elem_of_list_to_map by by apply pairs_NoDup. rewrite elem_pairs.
  pose proof (tb_len _ Ht). split.
  - intros (e & [i Hi]%list_elem_of_lookup & ?). exists (Z.of_nat i), e. split; [|done].
    pose proof (lookup_lt_Some _ _ _ Hi). by rewrite <- at_idx, Nat2Z.id by lia.
  - intros (p & e & He & ?). exists e. split; [|done]. unfold at_ in He. by apply list_elem_of_lookup_2 in He.
Qed.

Lemma mapping_None l k : table l ->
  mapping l !! k = None <-> forall p e, at_ l p = Some e -> occ e -> key e <> Some k.
Proof.
  intros Ht. split.
  - intros H p e He Ho Hk. enough (mapping l !! k = Some (val e)) by congruence.
    apply mapping_lookup; [done|]. eauto 10.
  - intros H. destruct (mapping l !! k) as [v|] eqn:E; [|done].
    apply mapping_lookup in E as (p & e & He & Ho & Hk & _); [|done]. by destruct (H p e He Ho).
Qed.

Lemma mapping_size l : table l -> length (l ≫= pairs_of) = base.size (mapping l).
Proof.
  intros Ht. unfold mapping. rewrite <- (length_fmap fst), <- size_dom, dom_list_to_map_L.
  symmetry. rewrite size_list_to_set by by apply pairs_NoDup. done.
Qed.

Lemma probe_correct l k fuel : table l -> has_free l -> (Z.to_nat n <= fuel)%nat ->
  exists r, probe fuel l n (nuwan_string_hash k mod n) k (nuwan_string_hash k) = Ok r /\
    match r with
    | Some i => 0 <= i < n /\ exists e, at_ l i = Some e /\ occ e /\ key e = Some k
    | None => mapping l !! k = None
    end.
Proof.
  intros Ht Hf Hfuel. pose proof (Z.mod_pos_bound (nuwan_string_hash k) n ltac:(lia)) as Hidx.
  destruct (mapping l !! k) as [v|] eqn:E.
  - apply mapping_lookup in E as (p & e & He & Ho & Hk & _); [|done].
    destruct (reach l p e k Ht Hf He Ho Hk) as (Hd & Hat & Hpre).
    destruct (probe_spec l k (Z.to_nat (dib e)) Ht (nuwan_string_hash k mod n) fuel) as (r & Hr & H1 & _);
      rewrite ?Z2Nat.id in * by lia; [done| |by exists e|lia|].
    + intros i Hi. destruct (Hpre i) as (a & ? & ? & _ & ?); [lia|]. eauto.
    + exists r. split; [done|]. rewrite H1 by (exists e; done). split; [apply Z.mod_pos_bound; lia|].
      exists e. split; [|done]. rewrite <- Hat. apply at_mod. by rewrite Zmod_mod.
  - pose proof (proj1 (mapping_None l k Ht) E) as Hno.
    destruct (first_free l (tb_len _ Ht) Hf (nuwan_string_hash k mod n)) as (m & [H1 (z & Hz & Hoz)] & Hm).
    destruct (probe_spec l k m Ht (nuwan_string_hash k mod n) fuel) as (r & Hr & _ & H2); [done| | |lia|].
    + intros i Hi. destruct (H1 i Hi) as (a & Ha & Hoa). eauto.
    + exists z. split; [done|]. by intros.
    + rewrite H2 in Hr; [by exists None|]. by intros (e & He & Ho & _); simplify_eq.
Qed.

Lemma insert_present d : forall l idx c e k fuel, 0 <= idx < n -> table l -> 0 <= dib c ->
  dib c + Z.of_nat d <= n ->
  key c = Some k -> hash c = nuwan_string_hash k -> at_ l (idx + Z.of_nat d) = Some e -> occ e -> key e = Some k ->
  (forall i, 0 <= i < Z.of_nat d -> exists a, at_ l (idx + i) = Some a /\ occ a /\ dib c + i <= dib a /\ key a <> Some k) ->
  (d < fuel)%nat ->
  insert_loop fuel l n idx c = Ok (put_at l (idx + Z.of_nat d) (set_val (val c) e), false).
Proof.
  induction d as [|d IH]; intros l idx c e k fuel Hidx Ht Hdc Hdn Hkc Hhc He Ho Hke Hpre Hfuel;
    (destruct fuel as [|fuel]; [lia|]); cbn [insert_loop]; rewrite at_idx by done.
  - rewrite Z.add_0_r in *. rewrite He. cbn [of_option obind].
    destruct (Z.eqb_spec (hash e) MAP_EMPTY); [done|]. rewrite Hkc.
    destruct (same_key_ok l idx e k _ Ht He Ho Hhc) as (b & -> & Hb). cbn [obind].
    assert (b = true) as -> by by apply Hb. by rewrite put_idx.
  - destruct (Hpre 0 ltac:(lia)) as (a & Ha & Hoa & Hda & Hka). rewrite Z.add_0_r in Ha. rewrite Ha.
    cbn [of_option obind]. destruct (Z.eqb_spec (hash a) MAP_EMPTY); [done|]. rewrite Hkc.
    destruct (same_key_ok l idx a k _ Ht Ha Hoa Hhc) as (b & -> & Hb). cbn [obind].
    assert (b = false) as -> by (apply not_true_iff_false; rewrite Hb; done).
    destruct (Z.ltb_spec (dib a) (dib c)); [lia|].
    assert (u32 (dib c + 1) = dib c + 1) as Hu by (apply Z.mod_small; word_lia).
    rewrite (IH l _ _ e k); simpl; rewrite ?Hu, ?at_next; try done; try lia.
    + f_equal. f_equal. unfold put_at. f_equal. rewrite Zplus_mod_idemp_l. do 2 f_equal. lia.
    + apply Z.mod_pos_bound. lia.
    + rewrite <- He. f_equal. lia.
    + intros i Hi. rewrite at_next. destruct (Hpre (i + 1)) as (x & Hx & Hox & Hdx & Hkx); [lia|].
      exists x. split_and!; [done|done|lia|done].
Qed.

Lemma table_set_val l j e v : table l -> at_ l j = Some e -> table (put_at l j (set_val v e)).
Proof.
  intros Ht He. pose proof (tb_len _ Ht) as Hl.
  assert (H : forall i x, at_ (put_at l j (set_val v e)) i = Some x ->
    exists y, at_ l i = Some y /\ hash x = hash y /\ dib x = dib y /\ key x = key y).
  { intros i x. rewrite at_put by done. case_decide as Hi; intros [= Hx]; [|by exists x].
    exists e. rewrite (at_mod l i j Hi). subst x. done. }
  constructor.
  - by rewrite put_len.
  - intros i x (y & Hy & Hh & Hd & Hk)%H. unfold occ, entry_ok. rewrite Hh, Hd, Hk. by apply (tb_ok _ Ht).
  - intros i a b (y & Hy & Hh & Hd & Hk)%H (y' & Hy' & Hh' & Hd' & Hk')%H. unfold before, occ.
    rewrite Hh, Hd, Hd', Hh'. apply (tb_before _ Ht i y y'); done.
  - intros i i' a b (y & Hy & Hh & Hd & Hk)%H (y' & Hy' & Hh' & Hd' & Hk')%H. unfold occ.
    rewrite Hh, Hk, Hk', Hh'. apply (tb_keys _ Ht i i' y y'); done.
Qed.

Lemma mapping_set_val l j e k v : table l -> at_ l j = Some e -> occ e -> key e = Some k ->
  mapping (put_at l j (set_val v e)) = <[k := v]> (mapping l).
Proof.
  intros Ht He Ho Hk. destruct (pairs_split l j e He) as (R & H1 & H2).
  pose proof (table_set_val l j e v Ht He) as Ht'. specialize (H2 (set_val v e)).
  rewrite (pairs_occ _ k) in H1 by done. rewrite (pairs_occ _ k) in H2 by done. unfold mapping.
  rewrite (list_to_map_proper _ _ (pairs_NoDup _ Ht') H2), (list_to_map_proper _ _ (pairs_NoDup _ Ht) H1).
  cbn. by rewrite insert_insert_eq.
Qed.

(** Insertion adds or updates one binding. *)
Lemma insert_correct l k v fuel : table l -> has_free l -> nuwan_string_hash k <> MAP_EMPTY ->
  (Z.to_nat n <= fuel)%nat ->
  exists l', map_insert_raw fuel l n (Some k) v (nuwan_string_hash k) = Ok (l', bool_decide (mapping l !! k = None)) /\
    table l' /\ mapping l' = <[k := v]> (mapping l).
Proof.
  intros Ht Hf Hh Hfuel. unfold map_insert_raw.
  pose proof (Z.mod_pos_bound (nuwan_string_hash k) n ltac:(lia)) as Hidx.
  destruct (mapping l !! k) as [w|] eqn:E; [rewrite bool_decide_false by done|rewrite bool_decide_true by done].
  - apply mapping_lookup in E as (p & e & He & Ho & Hk & _); [|done].
    destruct (reach l p e k Ht Hf He Ho Hk) as (Hd & Hat & Hpre). eexists. split.
    + apply (insert_present (Z.to_nat (dib e)) l _ _ e k); simpl; rewrite ?Z2Nat.id by lia; try done; try lia.
    + rewrite Z2Nat.id by lia. split; [by apply table_set_val|]. by apply mapping_set_val.
  - pose proof (proj1 (mapping_None l k Ht) E) as Hno.
    destruct (first_free l (tb_len _ Ht) Hf (nuwan_string_hash k mod n)) as (m & Hrun & Hm).
    destruct (insert_fresh m l (nuwan_string_hash k mod n) (mkEntry (Some k) v (nuwan_string_hash k) 0) fuel)
      as (l' & Hl' & Ht' & Hp); try done; try lia.
    + constructor; [done| |by intros ? ? ?|].
      * split_and!; simpl; [lia| |eauto]. by rewrite Z.add_0_r, Zmod_mod.
      * intros j e He Hoe. simpl. by apply Hno with j.
    + exists l'. split_and!; [done|done|]. rewrite (pairs_occ _ k) in Hp by done. unfold mapping.
      by rewrite (list_to_map_proper _ _ (pairs_NoDup _ Ht') Hp).
Qed.

End table.

(** ** The operations *)

(** A well-formed map: a table with a free slot and an exact count. *)
Record map_wf (m : NuwanMap) : Prop := {
  wf_cap : MAP_INIT_CAP <= cap m <= 2 ^ 31;
  wf_table : table (cap m) (slots m);
  wf_size : size m = Z.of_nat (base.size (mapping (slots m)));
  wf_free : size m < cap m
}.

Definition model (m : NuwanMap) : gmap cstr Z := mapping (slots m).

(** The arena's answer: nothing, or an array of the requested length. *)
Definition mem_ok (len : Z) (mem : option (list MapEntry)) : Prop :=
  forall ns, mem = Some ns -> Z.of_nat (length ns) = len.

Lemma count_free n l : 0 < n <= 2 ^ 31 -> table n l -> Z.of_nat (base.size (mapping l)) < n -> has_free n l.
Proof.
  intros Hn Ht Hsz. pose proof (tb_len _ _ Ht) as Hl. rewrite <- (mapping_size n) in Hsz by done.
  destruct (decide (Exists (fun e => hash e = MAP_EMPTY) l)) as [He|He].
  - apply list.Exists_exists in He as (e & [i Hi]%list_elem_of_lookup & He). exists (Z.of_nat i), e.
    pose proof (lookup_lt_Some _ _ _ Hi). split; [|by intros []].
    rewrite <- (at_idx n), Nat2Z.id by lia. done.
  - exfalso. apply not_Exists_Forall in He; [|apply _]. rewrite list.Forall_forall in He.
    assert (Hall : forall e, e ∈ l -> length (pairs_of e) = 1%nat).
    { intros e Hin. pose proof (He e Hin) as Ho. apply list_elem_of_lookup in Hin as [i Hi].
      pose proof (lookup_lt_Some _ _ _ Hi).
      destruct (tb_ok _ _ Ht (Z.of_nat i) e) as (_ & _ & k & Hk & _); [|done|].
      - rewrite <- (at_idx n), Nat2Z.id by lia. done.
      - by rewrite (pairs_occ e k). }
    assert (length (l ≫= pairs_of) = length l); [|lia].
    clear -Hall. induction l as [|e l IH]; [done|]. cbn. rewrite length_app, Hall by left.
    rewrite IH; [done|]. intros x Hx. apply Hall. by right.
Qed.

Lemma wf_has_free m : map_wf m -> has_free (cap m) (slots m).
Proof.
  intros H. pose proof (wf_cap _ H). unfold MAP_INIT_CAP in *. apply count_free; [lia|apply H|].
  rewrite <- (wf_size _ H). apply H.
Qed.

Lemma table_clear n ns : 0 < n -> Z.of_nat (length ns) = n -> table n (clear_hashes ns) /\ mapping (clear_hashes ns) = ∅.
Proof.
  intros Hn Hl. assert (Hfree : forall e, e ∈ clear_hashes ns -> ~ occ e).
  { intros e (x & -> & _)%list_elem_of_fmap Ho. by apply Ho. }
  split; [constructor|].
  - unfold clear_hashes. by rewrite length_map.
  - intros j e He Ho. apply list_elem_of_lookup_2, Hfree in He. done.
  - intros j a b _ He Ho. apply list_elem_of_lookup_2, Hfree in He. done.
  - intros i j a b _ He _ Ho. apply list_elem_of_lookup_2, Hfree in He. done.
  - unfold mapping. enough (clear_hashes ns ≫= pairs_of = []) as -> by done.
    clear Hl. induction ns as [|e ns IH]; [done|].
    change (pairs_of (set_hash MAP_EMPTY e) ++ (clear_hashes ns ≫= pairs_of) = []). rewrite IH; [done|]. intros x Hx. apply Hfree. by right.
Qed.

Definition insert_pairs (l : list (cstr * Z)) (M : gmap cstr Z) : gmap cstr Z :=
  foldl (fun M p => <[p.1 := p.2]> M) M l.

Lemma insert_pairs_spec l : forall M, base.NoDup l.*1 -> insert_pairs l M = list_to_map l ∪ M.
Proof.
  unfold insert_pairs. induction l as [|[k v] l IH]; intros M Hnd; cbn.
  - by rewrite (left_id_L ∅ (∪)).
  - apply list.NoDup_cons in Hnd as [Hk Hnd]. rewrite IH by done. rewrite <- insert_union_l.
    symmetry. apply insert_union_r. by apply not_elem_of_list_to_map.
Qed.

Lemma insert_pairs_app l k M : insert_pairs (l ++ k) M = insert_pairs k (insert_pairs l M).
Proof. apply foldl_app. Qed.

(** Re-inserting the slots of a table into another. *)
Lemma reinsert_all n nc fuel old : forall rest acc, 0 < nc <= 2 ^ 31 -> table n old -> 0 < n <= 2 ^ 31 ->
  (forall e, e ∈ rest -> e ∈ old) -> table nc acc ->
  Z.of_nat (base.size (mapping acc) + length (rest ≫= pairs_of)) < nc -> (Z.to_nat nc <= fuel)%nat ->
  exists acc', ofold (reinsert fuel nc) rest acc = Ok acc' /\ table nc acc' /\
    mapping acc' = insert_pairs (rest ≫= pairs_of) (mapping acc).
Proof.
  induction rest as [|e rest IH]; intros acc Hnc Ht Hn Hin Ha Hsz Hfuel; cbn [ofold]; [by exists acc|].
  assert (Hin' : forall x, x ∈ rest -> x ∈ old) by (intros x Hx; apply Hin; by right).
  unfold reinsert at 1. destruct (Z.eqb_spec (hash e) MAP_EMPTY) as [He|He]; cbn [obind].
  - cbn [mbind list_bind] in *. rewrite pairs_free in * by (intros []; done). by apply IH.
  - assert (exists k, key e = Some k /\ hash e = nuwan_string_hash k) as (k & Hk & Hh).
    { destruct (proj1 (list_elem_of_lookup _ _) (Hin e ltac:(left))) as [i Hi].
      pose proof (lookup_lt_Some _ _ _ Hi). pose proof (tb_len _ _ Ht).
      apply (entry_pair n (Z.of_nat i)), (tb_ok _ _ Ht); [|done].
      rewrite <- (at_idx n), Nat2Z.id by lia. done. }
    cbn [mbind list_bind] in *. rewrite (pairs_occ e k) in * by done. cbn [length app] in *.
    destruct (insert_correct nc Hnc acc k (val e) fuel) as (acc1 & H1 & Ht1 & Hm1); [done| |by rewrite <- Hh|done|].
    { apply count_free; [done|done|lia]. }
    rewrite Hk, Hh, H1. cbn [obind fst].
    destruct (IH acc1) as (acc' & Hacc' & Ht' & Hm'); try done.
    + rewrite Hm1. rewrite map_size_insert. destruct (mapping acc !! k); unfold id; lia.
    + exists acc'. split_and!; [done|done|]. rewrite Hm', Hm1. done.
Qed.

Lemma insert_pairs_mapping n l : table n l -> 0 < n <= 2 ^ 31 -> insert_pairs (l ≫= pairs_of) ∅ = mapping l.
Proof. intros Ht Hn. rewrite insert_pairs_spec by by apply (pairs_NoDup n). by rewrite (right_id_L ∅ (∪)). Qed.

(** Growing moves every binding to the new array. *)
Lemma rebuild_correct fuel m nc mem : map_wf m -> cap m <= nc <= 2 ^ 31 -> mem_ok nc mem -> (Z.to_nat nc <= fuel)%nat ->
  exists m', rebuild fuel m nc mem = Ok m' /\ map_wf m' /\ model m' = model m /\
    cap m' = match mem with Some _ => nc | None => cap m end.
Proof.
  intros Hwf Hnc Hmem Hfuel. destruct mem as [ns|]; simpl; [|by exists m].
  destruct Hwf as [Hc Ht Hsz Hfr]. unfold MAP_INIT_CAP in Hc.
  destruct (table_clear nc ns) as [Htc Hmc]; [lia|by apply Hmem|].
  destruct (reinsert_all (cap m) nc fuel (slots m) (slots m) (clear_hashes ns)) as (ns' & H1 & H2 & H3);
    try done; try lia.
  { rewrite Hmc, map_size_empty, (mapping_size (cap m)) by (done || lia). lia. }
  rewrite Hmc, (insert_pairs_mapping (cap m)) in H3 by (done || lia).
  rewrite H1. cbn [obind]. eexists. split_and!; [done| |done|done].
  constructor; cbn [cap slots size]; [unfold MAP_INIT_CAP; lia|done|by rewrite H3|lia].
Qed.

Lemma put_grow fuel m mem : map_wf m -> cap m <= 2 ^ 30 -> mem_ok (cap m * 2) mem ->
  (opt_bool mem = true \/ size m + 1 < cap m) -> (Z.to_nat (cap m * 2) <= fuel)%nat ->
  exists m', (if u64 (cap m * MAP_LOAD_NUM) <=? u64 (size m * MAP_LOAD_DEN)
              then map_grow fuel m mem else Ok m) = Ok m' /\
    map_wf m' /\ model m' = model m /\ size m' + 1 < cap m' /\ cap m' <= cap m * 2.
Proof.
  intros Hwf Hc Hmem Hroom Hfuel. pose proof (wf_cap _ Hwf). pose proof (wf_size _ Hwf).
  pose proof (wf_free _ Hwf). unfold MAP_INIT_CAP, MAP_LOAD_NUM, MAP_LOAD_DEN in *.
  rewrite !u64_small by word_lia. destruct (Z.leb_spec (cap m * 7) (size m * 8)) as [Hle|Hgt].
  - unfold map_grow. rewrite u64_small by word_lia.
    destruct (rebuild_correct fuel m (cap m * 2) mem) as (m' & Hm' & Hw & Hmo & Hcap); try done; try lia.
    exists m'. pose proof (wf_size _ Hw) as Hs. unfold model in Hmo. rewrite Hmo in Hs.
    split_and!; try done; destruct mem; simpl in *; lia || (destruct Hroom; [done|]; lia).
  - exists m. split_and!; try done; lia.
Qed.

(** C39: [nuwan_map_put] is insertion into a finite map.  The map has at most
    2^30 slots; the hash of the key is not 2^64 - 1, which marks an empty slot
    (a key with that hash is stored as an empty slot and lost,
    [map_put_sentinel_lost]); the arena has memory for the copy of the key
    (otherwise a null key is stored); and the arena has memory to double the
    table, or a slot stays free after this put.  Then the probing ends within
    as many turns as the doubled table has slots, the Robin Hood invariant and
    the exact count are kept, and the finite map the table stands for changes
    by that one binding, also when the put first grows the table. *)
Theorem map_put_refines fuel m k v mem :
  map_wf m -> cap m <= 2 ^ 30 -> nuwan_string_hash k <> MAP_EMPTY -> mem_ok (cap m * 2) mem ->
  (opt_bool mem = true \/ size m + 1 < cap m) -> (Z.to_nat (cap m * 2) <= fuel)%nat ->
  exists m', nuwan_map_put fuel (Some m) (Some k) v mem (Some k) = Ok (Some m') /\ map_wf m' /\
    model m' = <[k := v]> (model m).
Proof.
  intros Hwf Hc Hk Hmem Hroom Hfuel. unfold nuwan_map_put.
  destruct (put_grow fuel m mem) as (m1 & -> & Hw & Hmo & Hfr & Hcap); try done. cbn [obind].
  pose proof (wf_cap _ Hw) as Hc1. unfold MAP_INIT_CAP in Hc1.
  destruct (insert_correct (cap m1) ltac:(lia) (slots m1) k v fuel) as (l' & -> & Ht' & Hm');
    [apply Hw|by apply wf_has_free|done|lia|].
  cbn [obind fst snd]. eexists. split; [done|]. split; [|unfold model in *; simpl; by rewrite Hm', Hmo].
  assert (Hsz : (if bool_decide (mapping (slots m1) !! k = None) then size m1 + 1 else size m1) =
    Z.of_nat (base.size (mapping l'))).
  { rewrite Hm', map_size_insert, (wf_size _ Hw). case_bool_decide as E; [rewrite E; lia|].
    by destruct (mapping (slots m1) !! k). }
  constructor; cbn [cap slots size]; [done|done|done|]. case_bool_decide; lia.
Qed.

(** [nuwan_map_get] and [nuwan_map_has] end, read the finite map the
    table stands for, and answer 0 and false for an absent key. *)
Theorem map_get_refines fuel m k : map_wf m -> (Z.to_nat (cap m) <= fuel)%nat ->
  nuwan_map_get fuel (Some m) (Some k) = Ok (default 0 (model m !! k)) /\
  nuwan_map_has fuel (Some m) (Some k) = Ok (opt_bool (model m !! k)) /\
  nuwan_map_size (Some m) = Z.of_nat (base.size (model m)).
Proof.
  intros Hwf Hfuel. pose proof (wf_cap _ Hwf) as Hc. unfold MAP_INIT_CAP in Hc.
  unfold nuwan_map_get, nuwan_map_has, map_find, model.
  destruct (probe_correct (cap m) ltac:(lia) (slots m) k fuel) as (r & -> & Hr);
    [apply Hwf|by apply wf_has_free|done|]. cbn [obind].
  split_and!; [| |apply (wf_size _ Hwf)]; destruct r as [i|]; [| by rewrite Hr | |by rewrite Hr];
    destruct Hr as (Hi & e & He & Ho & Hke).
  - rewrite (at_idx (cap m)), He by lia. cbn [of_option obind].
    rewrite (proj2 (mapping_lookup (cap m) _ k (val e) (wf_table _ Hwf))); [done|eauto 10].
  - rewrite (proj2 (mapping_lookup (cap m) _ k (val e) (wf_table _ Hwf))); [done|eauto 10].
Qed.

(** The doubling loop ends with room for the expected entries. *)
Lemma target_cap_spec e j : forall fuel i, 0 <= e <= 2 ^ 27 -> Z.of_nat i + Z.of_nat j = 28 -> (j < fuel)%nat ->
  exists t, target_cap fuel e (2 ^ Z.of_nat i) = Ok t /\ e * 8 < t * 7 /\
    2 ^ Z.of_nat i <= t <= 2 ^ 28 /\ (t = 2 ^ Z.of_nat i \/ t <= 3 * e).
Proof.
  induction j as [|j IH]; intros fuel i He Hij Hfuel; (destruct fuel as [|fuel]; [lia|]);
    cbn [target_cap]; unfold MAP_LOAD_NUM, MAP_LOAD_DEN;
    assert (2 ^ Z.of_nat i <= 2 ^ 28) as Hle by (apply Z.pow_le_mono_r; lia);
    pose proof (Z.pow_pos_nonneg 2 (Z.of_nat i)); rewrite !u64_small by lia.
  - replace (Z.of_nat i) with 28 in * by lia.
    destruct (Z.leb_spec (2 ^ 28 * 7) (e * 8)); [lia|]. exists (2 ^ 28). split_and!; [done|lia..].
  - destruct (Z.leb_spec (2 ^ Z.of_nat i * 7) (e * 8)) as [Hl|Hl]; [|eexists; split_and!; [done|lia..]].
    rewrite Z.shiftl_mul_pow2, Z.pow_1_r by lia.
    replace (2 ^ Z.of_nat i * 2) with (2 ^ Z.of_nat (S i)) by (rewrite Nat2Z.inj_succ, Z.pow_succ_r; lia).
    rewrite u64_small.
    + destruct (IH fuel (S i)) as (t & Ht & H1 & H2); try lia. destruct H2 as [H2 H3].
      rewrite Nat2Z.inj_succ, Z.pow_succ_r in H2, H3 by lia. exists t. split_and!; [done|lia..].
    + split; [apply Z.pow_nonneg; lia|]. apply Z.pow_lt_mono_r; lia.
Qed.

(** [nuwan_map_reserve] ends and keeps the finite map; when the arena has
    memory, the entries announced then fit without growing again. *)
Theorem map_reserve_correct fuel m n mem :
  map_wf m -> 0 <= n <= 2 ^ 27 ->
  (forall t, cap m < t <= 2 ^ 28 -> target_cap fuel n MAP_INIT_CAP = Ok t -> mem_ok t mem) ->
  (Z.to_nat (3 * n + 32) <= fuel)%nat ->
  exists m', nuwan_map_reserve fuel (Some m) n mem = Ok (Some m') /\ map_wf m' /\ model m' = model m /\
    (opt_bool mem = true -> n * MAP_LOAD_DEN < cap m' * MAP_LOAD_NUM).
Proof.
  intros Hwf Hn Hmem Hfuel. destruct (target_cap_spec n 24 fuel 4) as (t & Ht & H1 & H2 & H3); try lia.
  unfold nuwan_map_reserve. change (2 ^ Z.of_nat 4) with MAP_INIT_CAP in *. rewrite Ht. cbn [obind].
  pose proof (wf_cap _ Hwf). unfold MAP_INIT_CAP, MAP_LOAD_DEN, MAP_LOAD_NUM in *.
  destruct (Z.ltb_spec (cap m) t) as [Hlt|Hge].
  - destruct (rebuild_correct fuel m t mem) as (m' & Hm' & Hw & Hmo & Hc); try done; try lia.
    { apply Hmem; [lia|done]. }
    rewrite Hm'. exists m'. split_and!; try done. intros Hs. destruct mem; [|done]. rewrite Hc. lia.
  - exists m. split_and!; try done. cbn. lia.
Qed.

(** ** Where the map fails *)

(** Removal frees the slot without moving the entries behind it: in the
    map built by putting ["a"] and ["q"], which share a home, removing ["a"]
    makes ["q"] unreachable, and a second [put] of ["q"] then counts it twice. *)
Theorem map_remove_breaks_probing :
  (let a := Some (lit "a") in let q := Some (lit "q") in
   let m0 := nuwan_map_new (Some (repeat (mkEntry None 0 0 0) 16)) in
   let! m1 := nuwan_map_put 16 m0 a 1 None a in
   let! m2 := nuwan_map_put 16 m1 q 2 None q in
   let! before := nuwan_map_has 16 m2 q in
   let! r := nuwan_map_remove 16 m2 a in
   let! after := nuwan_map_has 16 r.1 q in
   let! v := nuwan_map_get 16 r.1 q in
   let! m4 := nuwan_map_put 16 r.1 q 2 None q in
   Ok (before, r.2, nuwan_map_size r.1, after, v, nuwan_map_size m4)) = Ok (true, true, 1, false, 0, 2).
Proof. vm_compute. reflexivity. Qed.

(** In a table without a free slot the search for an absent key never
    ends: no number of iterations is enough. *)
Theorem map_full_diverges fuel m k :
  0 < cap m -> Z.of_nat (length (slots m)) = cap m ->
  (forall e, e ∈ slots m -> occ e /\ exists k', key e = Some k' /\ k' <> k) ->
  nuwan_map_get fuel (Some m) (Some k) = OutOfFuel /\ nuwan_map_has fuel (Some m) (Some k) = OutOfFuel.
Proof.
  intros Hc Hl He. assert (H : forall idx, 0 <= idx < cap m ->
    probe fuel (slots m) (cap m) idx k (nuwan_string_hash k) = OutOfFuel).
  { induction fuel as [|fuel IH]; intros idx Hidx; [done|]. cbn [probe].
    destruct (slots m !! Z.to_nat idx) as [e|] eqn:E; [|apply lookup_ge_None in E; lia]. cbn [of_option obind].
    destruct (He e (list_elem_of_lookup_2 _ _ _ E)) as [Ho (k' & Hk & Hne)].
    destruct (Z.eqb_spec (hash e) MAP_EMPTY); [done|]. unfold same_key. rewrite Hk. cbn [of_option obind].
    destruct (Z.eqb_spec (strcmp k' k) 0) as [Heq|_]; [by apply strcmp_eq in Heq|].
    destruct (hash e =? nuwan_string_hash k); cbn [obind]; apply IH, Z.mod_pos_bound; lia. }
  unfold nuwan_map_get, nuwan_map_has, map_find. rewrite H; [done|]. apply Z.mod_pos_bound. lia.
Qed.

(** ** Concrete maps *)

Definition fresh16 : list MapEntry := repeat (mkEntry None 0 0 0) 16.

Lemma map_new_wf ns m : nuwan_map_new (Some ns) = Some m -> Z.of_nat (length ns) = MAP_INIT_CAP ->
  map_wf m /\ model m = ∅.
Proof.
  intros [= <-] Hl. unfold MAP_INIT_CAP in Hl. destruct (table_clear 16 ns) as [Ht Hm]; [lia|done|].
  split; [|done]. constructor; cbn [cap slots size]; unfold MAP_INIT_CAP; [lia|done|by rewrite Hm|lia].
Qed.

Definition ex_map : NuwanMap := default (mkMap [] 0 0) (nuwan_map_new (Some fresh16)).

Lemma ex_map_wf : map_wf ex_map.
Proof. by apply (map_new_wf fresh16). Qed.

(** A key whose hash is the mark of an empty slot: the put counts it, and it
    is not there. *)
Example map_put_sentinel_lost :
  let k := lit "GikWtNizwMS" in
  nuwan_string_hash k = MAP_EMPTY /\
  exists m, nuwan_map_put 40 (nuwan_map_new (Some fresh16)) (Some k) 7 None (Some k) = Ok (Some m) /\
    size m = 1 /\ nuwan_map_has 40 (Some m) (Some k) = Ok false /\ nuwan_map_get 40 (Some m) (Some k) = Ok 0.
Proof. split; [vm_compute; reflexivity|]. eexists. split; [vm_compute; reflexivity|]. split_and!; vm_compute; reflexivity. Qed.

Lemma map_put_refines_witness :
  exists m', nuwan_map_put 32 (Some ex_map) (Some (lit "a")) 5 None (Some (lit "a")) = Ok (Some m') /\ map_wf m' /\
    model m' = <[lit "a" := 5]> (model ex_map).
Proof.
  apply (map_put_refines 32 ex_map (lit "a") 5 None ex_map_wf); try done; vm_compute; try done; auto.
Defined.

Lemma map_get_refines_witness :
  nuwan_map_get 16 (Some ex_map) (Some (lit "a")) = Ok 0 /\
  nuwan_map_has 16 (Some ex_map) (Some (lit "a")) = Ok false /\ nuwan_map_size (Some ex_map) = 0.
Proof. exact (map_get_refines 16 ex_map (lit "a") ex_map_wf ltac:(vm_compute; lia)). Defined.

Lemma map_reserve_correct_witness :
  exists m', nuwan_map_reserve 122 (Some ex_map) 30 (Some (repeat (mkEntry None 0 0 0) 64)) = Ok (Some m') /\ map_wf m' /\
    model m' = model ex_map /\ (true = true -> 30 * MAP_LOAD_DEN < cap m' * MAP_LOAD_NUM).
Proof.
  apply (map_reserve_correct 122 ex_map 30 (Some (repeat (mkEntry None 0 0 0) 64)) ex_map_wf); [lia| |lia].
  intros t _ [= <-] ns [= <-]. reflexivity.
Defined.

(** Sixteen keys and no memory to grow. *)
Definition full_map : NuwanMap :=
  match ofold (fun i m => let k := Some [ascii_of_nat (97 + i)] in nuwan_map_put 16 m k 7 None k)
          (seq 0 16) (Some ex_map) with
  | Ok (Some m) => m
  | _ => ex_map
  end.

Lemma map_full_diverges_witness :
  nuwan_map_get 1000 (Some full_map) (Some (lit "zz")) = OutOfFuel /\
  nuwan_map_has 1000 (Some full_map) (Some (lit "zz")) = OutOfFuel.
Proof.
  apply (map_full_diverges 1000 full_map (lit "zz")); [done|by vm_compute|].
  intros e He. apply list_elem_of_In in He. revert e He. apply List.Forall_forall.
  vm_compute. repeat constructor; try discriminate; eexists; (split; [reflexivity|discriminate]).
Defined.
