(* ===== verification/NuwanSwiss.v ===== *)
(** * The Swiss table of the runtime

    [NuwanSwissMap] of [src/runtime/stdlib/collections.c]: one control byte
    per slot, groups of sixteen slots searched with bit masks, triangular
    probing over the groups, tombstones.  The arena's answers are arguments:
    [mem] to a request for the two arrays, [ak] to the copy of the key.  The
    map's arena may be [NULL]: it is in the temporary table of [swiss_rehash]. *)
From Stdlib Require Import Ascii.
From S2P Require Import Prelude CString NuwanMap.

Definition SWISS_GROUP_SIZE : Z := 16.
Definition SWISS_INIT_CAP : Z := 16.
Definition SWISS_CTRL_EMPTY : Z := 128.
Definition SWISS_CTRL_DELETED : Z := 254.

Record SwissEntry := mkSwissEntry { e_hash : Z; e_key : option cstr; e_val : Z }.

Record NuwanSwissMap := mkSwiss {
  arena : bool;       (* false: [NULL] *)
  ctrl : list Z; entries : list SwissEntry;
  s_cap : Z; s_size : Z; tombstones : Z; growth_left : Z; last_probe_len : Z
}.

(** ** Masks *)

(** [for (i < 16) if (p(ctrl16[i])) mask |= 1u << i;] *)
Definition lane_mask (p : Z -> bool) (group : list Z) : Z :=
  foldr (fun b m => Z.lor (if p b : bool then 1 else 0) (Z.shiftl m 1)) 0 group.

Definition swiss_match_byte (group : list Z) (needle : Z) : Z := lane_mask (Z.eqb needle) group.
Definition swiss_match_empty (group : list Z) : Z := swiss_match_byte group SWISS_CTRL_EMPTY.

(** The high bit of each byte. *)
Definition swiss_match_empty_or_deleted (group : list Z) : Z := lane_mask (fun b => Z.testbit b 7) group.

(** [while (!(mask & 1u)) { mask >>= 1; i++; }] *)
Fixpoint ctz_loop (fuel : nat) (mask i : Z) : Z :=
  match fuel with
  | O => i
  | S fuel => if Z.land mask 1 =? 0 then ctz_loop fuel (Z.shiftr mask 1) (i + 1) else i
  end.

(** Undefined when the mask is zero. *)
Definition swiss_ctz16 (mask : Z) : outcome Z := if mask =? 0 then Undef else Ok (ctz_loop 32 mask 0).

(** ** Hashes, capacities *)

Definition swiss_hash (k : cstr) : Z := nuwan_string_hash k.
Definition swiss_h2 (hash : Z) : Z := Z.land hash 127.
Definition swiss_h1 (hash : Z) : Z := Z.shiftr hash 7.
Definition swiss_max_load (cap : Z) : Z := cap - Z.shiftr cap 3.

(** [while (cap < hint) cap <<= 1;] *)
Fixpoint normalise_loop (fuel : nat) (cap hint : Z) : outcome Z :=
  if cap <? hint then
    match fuel with O => OutOfFuel | S fuel => normalise_loop fuel (u64 (Z.shiftl cap 1)) hint end
  else Ok cap.
Definition swiss_normalise_cap (fuel : nat) (hint : Z) : outcome Z := normalise_loop fuel SWISS_INIT_CAP hint.

(** The arrays of [cap] bytes and entries; the entries come zeroed. *)
Definition swiss_alloc_arrays (m : NuwanSwissMap) (cap : Z) (mem : bool) : outcome (option NuwanSwissMap) :=
  if negb (arena m) then Undef (* the arena is dereferenced *) else
  if mem then
    Ok (Some (mkSwiss (arena m) (repeat SWISS_CTRL_EMPTY (Z.to_nat cap)) (repeat (mkSwissEntry 0 None 0) (Z.to_nat cap))
                cap 0 0 (swiss_max_load cap) (last_probe_len m)))
  else Ok None.

(** ** Probing *)

Record SwissProbe := mkProbe { index : option Z; found : bool; probe_len : Z }.

Definition group_at (m : NuwanSwissMap) (g : Z) : list Z :=
  take (Z.to_nat SWISS_GROUP_SIZE) (drop (Z.to_nat (g * SWISS_GROUP_SIZE)) (ctrl m)).

(** [e->hash == hash && e->key && strcmp(e->key, key) == 0] *)
Definition is_key (e : SwissEntry) (k : cstr) (hash : Z) : bool :=
  (e_hash e =? hash) && match e_key e with Some x => strcmp x k =? 0 | None => false end.

(** [while (match)]; a mask has at most 16 bits. *)
Fixpoint scan_matches (fuel : nat) (m : NuwanSwissMap) (g mask : Z) (k : cstr) (hash : Z) : outcome (option Z) :=
  if mask =? 0 then Ok None else
  match fuel with
  | O => OutOfFuel
  | S fuel =>
      let! b := swiss_ctz16 mask in
      let idx := g * SWISS_GROUP_SIZE + b in
      let! e := of_option (entries m !! Z.to_nat idx) in
      if is_key e k hash then Ok (Some idx)
      else scan_matches fuel m g (Z.land mask (mask - 1)) k hash
  end.

(** One group of [swiss_find]. *)
Definition scan_group (m : NuwanSwissMap) (g : Z) (k : cstr) (hash : Z) : outcome (option Z) :=
  scan_matches 16 m g (swiss_match_byte (group_at m g) (swiss_h2 hash)) k hash.

(** The [for] loop of [swiss_find_for_insert], [n] groups still to probe;
    [cand] is [first_candidate], [None] for [(size_t)-1]. *)
Fixpoint insert_probe (n : nat) (m : NuwanSwissMap) (gmask g step : Z) (cand : option Z) (k : cstr) (hash len : Z)
  : outcome SwissProbe :=
  match n with
  | O => Ok (mkProbe cand false len)
  | S n =>
      let len := len + 1 in
      let! hit := scan_group m g k hash in
      match hit with
      | Some idx => Ok (mkProbe (Some idx) true len)
      | None =>
          let group := group_at m g in
          let free := swiss_match_empty_or_deleted group in
          let! cand := match cand with
                       | Some _ => Ok cand
                       | None => if free =? 0 then Ok None
                                 else let! b := swiss_ctz16 free in Ok (Some (g * SWISS_GROUP_SIZE + b))
                       end in
          if negb (swiss_match_empty group =? 0) then
            let! i := match cand with
                      | None => let! b := swiss_ctz16 (swiss_match_empty group) in Ok (g * SWISS_GROUP_SIZE + b)
                      | Some c => Ok c
                      end in
            Ok (mkProbe (Some i) false len)
          else insert_probe n m gmask (Z.land (g + (step + 1)) gmask) (step + 1) cand k hash len
      end
  end.

Definition swiss_find_for_insert (m : NuwanSwissMap) (k : cstr) (hash : Z) : outcome SwissProbe :=
  if s_cap m =? 0 then Ok (mkProbe (Some 0) false 0) else
  let num_groups := s_cap m / SWISS_GROUP_SIZE in
  let gmask := num_groups - 1 in
  insert_probe (Z.to_nat num_groups) m gmask (Z.land (swiss_h1 hash) gmask) 0 None k hash 0.

(** The [for] loop of [swiss_find]. *)
Fixpoint find_probe (n : nat) (m : NuwanSwissMap) (gmask g step : Z) (k : cstr) (hash len : Z) : outcome SwissProbe :=
  match n with
  | O => Ok (mkProbe (Some 0) false len)
  | S n =>
      let len := len + 1 in
      let! hit := scan_group m g k hash in
      match hit with
      | Some idx => Ok (mkProbe (Some idx) true len)
      | None =>
          if negb (swiss_match_empty (group_at m g) =? 0) then Ok (mkProbe (Some 0) false len)
          else find_probe n m gmask (Z.land (g + (step + 1)) gmask) (step + 1) k hash len
      end
  end.

Definition swiss_find (m : NuwanSwissMap) (k : cstr) (hash : Z) : outcome SwissProbe :=
  if s_cap m =? 0 then Ok (mkProbe (Some 0) false 0) else
  let num_groups := s_cap m / SWISS_GROUP_SIZE in
  let gmask := num_groups - 1 in
  find_probe (Z.to_nat num_groups) m gmask (Z.land (swiss_h1 hash) gmask) 0 k hash 0.

(** ** Rehash *)

(** Writing a control byte and an entry. *)
Definition put_slot (m : NuwanSwissMap) (idx c : Z) (e : SwissEntry) : NuwanSwissMap :=
  mkSwiss (arena m) (<[Z.to_nat idx := c]> (ctrl m)) (<[Z.to_nat idx := e]> (entries m))
    (s_cap m) (s_size m) (tombstones m) (growth_left m) (last_probe_len m).

Definition set_counts (m : NuwanSwissMap) (size tomb growth : Z) : NuwanSwissMap :=
  mkSwiss (arena m) (ctrl m) (entries m) (s_cap m) size tomb growth (last_probe_len m).

(** [while (1)]: the first free slot of the probe sequence. *)
Fixpoint rehash_probe (fuel : nat) (tmp : NuwanSwissMap) (gmask g step : Z) : outcome Z :=
  match fuel with
  | O => OutOfFuel
  | S fuel =>
      let cand := swiss_match_empty_or_deleted (group_at tmp g) in
      if negb (cand =? 0) then let! b := swiss_ctz16 cand in Ok (g * SWISS_GROUP_SIZE + b)
      else rehash_probe fuel tmp gmask (Z.land (g + (step + 1)) gmask) (step + 1)
  end.

(** One iteration of the loop over the old slots: control byte and entry. *)
Definition rehash_one (fuel : nat) (s : Z * SwissEntry) (tmp : NuwanSwissMap) : outcome NuwanSwissMap :=
  let '(c, src) := s in
  if negb (Z.land c 128 =? 0) then Ok tmp else
  let gmask := s_cap tmp / SWISS_GROUP_SIZE - 1 in
  let! idx := rehash_probe fuel tmp gmask (Z.land (swiss_h1 (e_hash src)) gmask) 0 in
  let tmp := put_slot tmp idx (swiss_h2 (e_hash src)) src in
  Ok (set_counts tmp (s_size tmp + 1) (tombstones tmp) (growth_left tmp - 1)).

(** What follows the allocation of [tmp]. *)
Definition rehash_into (fuel : nat) (m tmp : NuwanSwissMap) : outcome NuwanSwissMap :=
  let! tmp := ofold (rehash_one fuel) (zip (ctrl m) (entries m)) tmp in
  Ok (mkSwiss (arena m) (ctrl tmp) (entries tmp) (s_cap tmp) (s_size tmp) 0
        (swiss_max_load (s_cap tmp) - s_size tmp) (last_probe_len m)).

(** [NuwanSwissMap tmp = {0};] *)
Definition swiss_zero : NuwanSwissMap := mkSwiss false [] [] 0 0 0 0 0.

Definition swiss_rehash (fuel : nat) (m : NuwanSwissMap) (new_cap : Z) (mem : bool) : outcome (NuwanSwissMap * bool) :=
  let! tmp := swiss_alloc_arrays swiss_zero new_cap mem in
  match tmp with
  | None => Ok (m, false)
  | Some tmp => let! m := rehash_into fuel m tmp in Ok (m, true)
  end.

Definition swiss_rehash_or_grow (fuel : nat) (m : NuwanSwissMap) (mem : bool) : outcome (NuwanSwissMap * bool) :=
  let max_load := swiss_max_load (s_cap m) in
  if (max_load <? s_size m + tombstones m) && (u64 (max_load - s_size m) <? tombstones m)
  then swiss_rehash fuel m (s_cap m) mem
  else swiss_rehash fuel m (if s_cap m =? 0 then SWISS_INIT_CAP else u64 (s_cap m * 2)) mem.

(** ** Interface *)

Definition nuwan_swiss_new (alloc mem : bool) : outcome (option NuwanSwissMap) :=
  if alloc then swiss_alloc_arrays (mkSwiss true [] [] 0 0 0 0 0) SWISS_INIT_CAP mem else Ok None.

Definition nuwan_swiss_reserve (fuel : nat) (m : option NuwanSwissMap) (expected_size : Z) (mem : bool)
  : outcome (option NuwanSwissMap) :=
  match m with
  | None => Ok None
  | Some m =>
      let need := u64 (u64 (expected_size * 8) + 6) / 7 in
      let! new_cap := swiss_normalise_cap fuel (if SWISS_INIT_CAP <? need then need else SWISS_INIT_CAP) in
      if s_cap m <? new_cap then let! r := swiss_rehash fuel m new_cap mem in Ok (Some r.1) else Ok (Some m)
  end.

Definition nuwan_swiss_new_reserved (fuel : nat) (alloc mem : bool) (expected_size : Z) : outcome (option NuwanSwissMap) :=
  let! m := nuwan_swiss_new alloc mem in
  match m with None => Ok None | Some _ => nuwan_swiss_reserve fuel m expected_size mem end.

Definition set_probe_len (m : NuwanSwissMap) (n : Z) : NuwanSwissMap :=
  mkSwiss (arena m) (ctrl m) (entries m) (s_cap m) (s_size m) (tombstones m) (growth_left m) n.

(** The end of [nuwan_swiss_put]: the slot [idx] takes the copy of the key. *)
Definition swiss_store (m : NuwanSwissMap) (idx hash v : Z) (ak : option cstr) : outcome (NuwanSwissMap * bool) :=
  let! prev_ctrl := of_option (ctrl m !! Z.to_nat idx) in
  match ak with
  | None => Ok (m, false)
  | Some k =>
      let m := put_slot m idx (swiss_h2 hash) (mkSwissEntry hash (Some k) v) in
      if prev_ctrl =? SWISS_CTRL_EMPTY then Ok (set_counts m (s_size m + 1) (tombstones m) (growth_left m - 1), true)
      else if prev_ctrl =? SWISS_CTRL_DELETED then Ok (set_counts m (s_size m + 1) (tombstones m - 1) (growth_left m), true)
      else Undef (* the assertion *)
  end.

Definition set_val (v : Z) (e : SwissEntry) : SwissEntry := mkSwissEntry (e_hash e) (e_key e) v.

Definition nuwan_swiss_put (fuel : nat) (m : option NuwanSwissMap) (k : option cstr) (v : Z) (mem : bool)
    (ak : option cstr) : outcome (option NuwanSwissMap * bool) :=
  match m, k with
  | Some m, Some k =>
      let! r := if growth_left m =? 0 then swiss_rehash_or_grow fuel m mem else Ok (m, true) in
      let '(m, ok) := r in
      if negb ok then Ok (Some m, false) else
      let hash := swiss_hash k in
      let! p := swiss_find_for_insert m k hash in
      let m := set_probe_len m (probe_len p) in
      match index p with
      | Some idx =>
          if found p then
            let! e := of_option (entries m !! Z.to_nat idx) in
            let! c := of_option (ctrl m !! Z.to_nat idx) in
            Ok (Some (put_slot m idx c (set_val v e)), true)
          else let! r := swiss_store m idx hash v ak in Ok (Some r.1, r.2)
      | None =>
          let! r := swiss_rehash_or_grow fuel m mem in
          let '(m, ok) := r in
          if negb ok then Ok (Some m, false) else
          let! p := swiss_find_for_insert m k hash in
          let m := set_probe_len m (probe_len p) in
          match index p with
          | None => Ok (Some m, false)
          | Some idx => let! r := swiss_store m idx hash v ak in Ok (Some r.1, r.2)
          end
      end
  | _, _ => Ok (m, false)
  end.

(** The map with the length of the probe, and what [out_val] receives. *)
Definition nuwan_swiss_get_opt (m : option NuwanSwissMap) (k : option cstr) : outcome (option NuwanSwissMap * option Z) :=
  match m, k with
  | Some m, Some k =>
      let! p := swiss_find m k (swiss_hash k) in
      let m := set_probe_len m (probe_len p) in
      match found p, index p with
      | true, Some idx => let! e := of_option (entries m !! Z.to_nat idx) in Ok (Some m, Some (e_val e))
      | _, _ => Ok (Some m, None)
      end
  | _, _ => Ok (m, None)
  end.

Definition nuwan_swiss_get (m : option NuwanSwissMap) (k : option cstr) : outcome (option NuwanSwissMap * Z) :=
  let! r := nuwan_swiss_get_opt m k in Ok (r.1, default 0 r.2).

Definition nuwan_swiss_has (m : option NuwanSwissMap) (k : option cstr) : outcome (option NuwanSwissMap * bool) :=
  let! r := nuwan_swiss_get_opt m k in Ok (r.1, opt_bool r.2).

Definition nuwan_swiss_remove (m : option NuwanSwissMap) (k : option cstr) : outcome (option NuwanSwissMap * bool) :=
  match m, k with
  | Some m, Some k =>
      let! p := swiss_find m k (swiss_hash k) in
      let m := set_probe_len m (probe_len p) in
      match found p, index p with
      | true, Some idx =>
          let group := group_at m (idx / SWISS_GROUP_SIZE) in
          let empty := negb (swiss_match_empty group =? 0) in
          let m := put_slot m idx (if empty then SWISS_CTRL_EMPTY else SWISS_CTRL_DELETED) (mkSwissEntry 0 None 0) in
          Ok (Some (if empty then set_counts m (s_size m - 1) (tombstones m) (growth_left m + 1)
                    else set_counts m (s_size m - 1) (tombstones m + 1) (growth_left m)), true)
      | _, _ => Ok (Some m, false)
      end
  | _, _ => Ok (m, false)
  end.

Definition nuwan_swiss_size (m : option NuwanSwissMap) : Z := match m with Some m => s_size m | None => 0 end.
Definition nuwan_swiss_capacity (m : option NuwanSwissMap) : Z := match m with Some m => s_cap m | None => 0 end.
Definition nuwan_swiss_empty (m : option NuwanSwissMap) : bool := match m with Some m => s_size m =? 0 | None => true end.
Definition nuwan_swiss_tombstones (m : option NuwanSwissMap) : Z := match m with Some m => tombstones m | None => 0 end.
Definition nuwan_swiss_last_probe_len (m : option NuwanSwissMap) : Z :=
  match m with Some m => last_probe_len m | None => 0 end.

Definition nuwan_swiss_clear (m : option NuwanSwissMap) : option NuwanSwissMap :=
  match m with
  | None => None
  | Some m => Some (mkSwiss (arena m) (map (fun _ => SWISS_CTRL_EMPTY) (ctrl m))
      (map (fun _ => mkSwissEntry 0 None 0) (entries m)) (s_cap m) 0 0 (swiss_max_load (s_cap m)) (last_probe_len m))
  end.
