(* ===== verification/SwissTable.v ===== *)
(** * Groups of the Swiss table

    The bit masks select the lanes of a group, and triangular probing visits
    every group. *)
From Stdlib Require Import Ascii Znumtheory.
From Stdlib Require Import Ascii.
From S2P Require Import Prelude CString NuwanMap NuwanSwiss.

(** ** Masks *)

Lemma lane_mask_cons p b g :
  lane_mask p (b :: g) = Z.lor (if p b : bool then 1 else 0) (Z.shiftl (lane_mask p g) 1).
Proof. done. Qed.

Lemma lane_mask_bits p g i : 0 <= i ->
  Z.testbit (lane_mask p g) i = match g !! Z.to_nat i with Some b => p b | None => false end.
Proof.
  revert i. induction g as [|b g IH]; intros i Hi; [rewrite lookup_nil; apply Z.bits_0|].
  rewrite lane_mask_cons, Z.lor_spec. destruct (Z.eq_dec i 0) as [->|Hne].
  - rewrite Z.shiftl_spec_low by lia. change ((b :: g) !! Z.to_nat 0) with (Some b). cbn. by destruct (p b).
  - rewrite Z.shiftl_spec by lia. rewrite IH by lia.
    replace (Z.testbit (if p b then 1 else 0) i) with false.
    + replace (Z.to_nat i) with (S (Z.to_nat (i - 1))) by lia. done.
    + symmetry. destruct (p b); [|apply Z.bits_0]. change 1 with (2 ^ 0). by apply Z.pow2_bits_false.
Qed.

Lemma lane_mask_range p g : 0 <= lane_mask p g < 2 ^ Z.of_nat (length g).
Proof.
  induction g as [|b g IH]; [done|]. rewrite lane_mask_cons. cbn [length].
  rewrite Nat2Z.inj_succ, Z.pow_succ_r by lia. rewrite Z.shiftl_mul_pow2, Z.pow_1_r by lia.
  assert (Z.lor (if p b then 1 else 0) (lane_mask p g * 2) = (if p b then 1 else 0) + lane_mask p g * 2) as ->.
  { rewrite <- Z.lxor_lor, <- Z.add_nocarry_lxor; try done;
      apply Z.bits_inj'; intros i Hi; rewrite Z.land_spec, Z.bits_0;
      (destruct (Z.eq_dec i 0) as [->|Hne];
       [rewrite Z.mul_comm; change 2 with (2 ^ 1); rewrite Z.mul_comm, Z.mul_pow2_bits_low by lia; by rewrite andb_false_r|]);
      (destruct (p b); [change 1 with (2 ^ 0); by rewrite Z.pow2_bits_false|by rewrite Z.bits_0]). }
  destruct (p b); lia.
Qed.

Lemma mask_nonzero m : 0 < m -> exists i, 0 <= i /\ Z.testbit m i = true.
Proof.
  intros Hm. exists (Z.log2 m). split; [apply Z.log2_nonneg|]. by apply Z.bit_log2.
Qed.

(** [ctz] finds the lowest set bit. *)
Lemma ctz_loop_spec fuel : forall m i, 0 < m < 2 ^ Z.of_nat fuel ->
  exists j, ctz_loop fuel m i = i + j /\ 0 <= j < Z.of_nat fuel /\ Z.testbit m j = true /\
    forall k, 0 <= k < j -> Z.testbit m k = false.
Proof.
  induction fuel as [|fuel IH]; intros m i Hm; [simpl in Hm; lia|]. cbn [ctz_loop].
  change (Z.land m 1) with (Z.land m (Z.ones 1)). rewrite Z.land_ones, Z.pow_1_r by lia.
  destruct (Z.eqb_spec (m mod 2) 0) as [He|Ho].
  - rewrite Z.shiftr_div_pow2, Z.pow_1_r by lia. rewrite Nat2Z.inj_succ, Z.pow_succ_r in Hm by lia.
    pose proof (Z_div_mod_eq_full m 2). destruct (IH (m / 2) (i + 1)) as (j & Hj & Hb & Ht & Hlow); [lia|].
    exists (j + 1). rewrite Hj. split_and!; [lia|lia|lia| |].
    + rewrite <- Ht. rewrite <- (Z.pow_1_r 2) at 1. by rewrite Z.div_pow2_bits by lia.
    + intros k Hk. destruct (Z.eq_dec k 0) as [->|].
      * by rewrite Z.bit0_eqb, He.
      * specialize (Hlow (k - 1) ltac:(lia)). rewrite <- (Z.pow_1_r 2) in Hlow at 1.
        rewrite Z.div_pow2_bits in Hlow by lia. by replace (k - 1 + 1) with k in Hlow by lia.
  - exists 0. split_and!; [lia|lia|lia| |lia]. rewrite Z.bit0_eqb. apply Z.eqb_eq.
    pose proof (Z.mod_pos_bound m 2). lia.
Qed.

Lemma swiss_ctz16_spec m : 0 < m < 2 ^ 16 ->
  exists j, swiss_ctz16 m = Ok j /\ 0 <= j < 16 /\ Z.testbit m j = true /\ forall k, 0 <= k < j -> Z.testbit m k = false.
Proof.
  intros Hm. unfold swiss_ctz16. destruct (Z.eqb_spec m 0); [lia|].
  destruct (ctz_loop_spec 32 m 0) as (j & -> & Hj & Ht & Hlow); [simpl; lia|].
  exists (0 + j). rewrite Z.add_0_l. split_and!; [done|lia| |done|done].
  destruct (Z_lt_le_dec j 16); [done|]. rewrite Z.bits_above_log2 in Ht; [done|lia|].
  apply Z.log2_lt_pow2; [lia|]. assert (2 ^ 16 <= 2 ^ j) by (apply Z.pow_le_mono_r; lia). lia.
Qed.

(** [m & (m - 1)] clears it. *)
Lemma clear_lowest m j i : 0 <= m -> 0 <= j -> 0 <= i -> Z.testbit m j = true ->
  (forall k, 0 <= k < j -> Z.testbit m k = false) ->
  Z.testbit (Z.land m (m - 1)) i = Z.testbit m i && negb (i =? j).
Proof.
  intros Hm Hj Hi Ht Hlow. rewrite Z.land_spec.
  assert (Hlo : m mod 2 ^ j = 0).
  { apply Z.bits_inj'. intros k Hk. rewrite Z.bits_0. destruct (Z_lt_le_dec k j).
    - rewrite Z.mod_pow2_bits_low by done. by apply Hlow.
    - by rewrite Z.mod_pow2_bits_high by lia. }
  assert (Hmj : m mod 2 ^ (j + 1) = 2 ^ j).
  { apply Z.bits_inj'. intros k Hk. destruct (Z.eq_dec k j) as [->|Hne].
    - rewrite Z.mod_pow2_bits_low, Z.pow2_bits_true by lia. done.
    - rewrite Z.pow2_bits_false by lia. destruct (Z_lt_le_dec k j).
      + rewrite Z.mod_pow2_bits_low by lia. by apply Hlow.
      + by rewrite Z.mod_pow2_bits_high by lia. }
  pose proof (Z.pow_pos_nonneg 2 j). pose proof (Z_div_mod_eq_full m (2 ^ (j + 1))) as Hdm. rewrite Hmj in Hdm.
  set (a := m / 2 ^ (j + 1)) in *.
  assert (H1 : (m - 1) / 2 ^ (j + 1) = a /\ (m - 1) mod 2 ^ (j + 1) = 2 ^ j - 1).
  { rewrite Z.pow_add_r, Z.pow_1_r in * by lia. split.
    - symmetry. apply (Z.div_unique_pos _ _ _ (2 ^ j - 1)); lia.
    - symmetry. apply (Z.mod_unique_pos _ _ a (2 ^ j - 1)); lia. }
  destruct H1 as [Hd1 Hm1]. destruct (Z.eqb_spec i j) as [->|Hne].
  - rewrite Ht. cbn. rewrite <- (Z.mod_pow2_bits_low (m - 1) (j + 1)) by lia. rewrite Hm1.
    replace (2 ^ j - 1) with (Z.ones j) by (rewrite Z.ones_equiv; lia). by rewrite Z.ones_spec_high by lia.
  - rewrite andb_true_r. destruct (Z_lt_le_dec i j) as [Hlt|Hge].
    + by rewrite (Hlow i) by lia.
    + assert (Z.testbit (m - 1) i = Z.testbit m i) as ->; [|by destruct (Z.testbit m i)].
      replace i with ((i - (j + 1)) + (j + 1)) by lia. rewrite <- !Z.div_pow2_bits by lia. by rewrite Hd1.
Qed.

Lemma land_range k m y : 0 <= k -> 0 <= m < 2 ^ k -> 0 <= Z.land m y < 2 ^ k.
Proof.
  intros Hk Hm. assert (Z.land m y = Z.land m y mod 2 ^ k) as ->; [|apply Z.mod_pos_bound, Z.pow_pos_nonneg; lia].
  rewrite <- (Z.mod_small m (2 ^ k)) at 1 by done. rewrite <- !Z.land_ones by done.
  by rewrite <- !Z.land_assoc, (Z.land_comm y).
Qed.

(** ** Triangular probing *)

Definition tri (i : Z) : Z := i * (i + 1) / 2.

Lemma tri_double i : 2 * tri i = i * (i + 1).
Proof.
  unfold tri. assert (Hm : (i * (i + 1)) mod 2 = 0).
  { rewrite Zmult_mod, (Zplus_mod i). pose proof (Z.mod_pos_bound i 2 ltac:(lia)).
    assert (i mod 2 = 0 \/ i mod 2 = 1) as [-> | ->] by lia; done. }
  pose proof (Z_div_mod_eq_full (i * (i + 1)) 2). lia.
Qed.

Lemma tri_succ i : tri (i + 1) = tri i + (i + 1).
Proof. pose proof (tri_double i). pose proof (tri_double (i + 1)). nia. Qed.

(** An odd factor does not help a power of two to divide. *)
Lemma odd_factor k : forall x y, x mod 2 = 1 -> (2 ^ Z.of_nat k | x * y) -> (2 ^ Z.of_nat k | y).
Proof.
  induction k as [|k IH]; intros x y Hx Hd; [by apply Z.divide_1_l|].
  rewrite Nat2Z.inj_succ, Z.pow_succ_r in * by lia.
  assert (y mod 2 = 0) as Hy.
  { assert ((x * y) mod 2 = 0) as Hxy.
    { apply Z.mod_divide; [lia|]. eapply Z.divide_trans; [|exact Hd]. apply Z.divide_factor_l. }
    rewrite Zmult_mod, Hx, Z.mul_1_l, Zmod_mod in Hxy. done. }
  apply Z.mod_divide in Hy as [z ->]; [|lia]. rewrite (Z.mul_comm z). apply Z.mul_divide_mono_l.
  apply (IH x); [done|]. apply (Z.mul_divide_cancel_l _ _ 2); [lia|].
  by replace (2 * (x * z)) with (x * (z * 2)) by lia.
Qed.

Lemma tri_inj k i j : 0 <= i < 2 ^ Z.of_nat k -> 0 <= j < 2 ^ Z.of_nat k ->
  tri i mod 2 ^ Z.of_nat k = tri j mod 2 ^ Z.of_nat k -> i = j.
Proof.
  intros Hi Hj He. set (N := 2 ^ Z.of_nat k) in *.
  assert (Hd : (2 ^ Z.of_nat (S k) | (i - j) * (i + j + 1))).
  { assert (Hz : (tri i - tri j) mod N = 0) by (rewrite Zminus_mod, He, Z.sub_diag; done).
    apply Z.mod_divide in Hz as [q Hq]; [|lia]. exists q.
    rewrite Nat2Z.inj_succ, Z.pow_succ_r by lia. fold N.
    pose proof (tri_double i). pose proof (tri_double j). nia. }
  assert (HN : 2 ^ Z.of_nat (S k) = 2 * N) by (rewrite Nat2Z.inj_succ, Z.pow_succ_r by lia; done).
  assert (Hsum : (i - j) + (i + j + 1) = 2 * i + 1) by lia.
  pose proof (Z_div_mod_eq_full (i - j) 2). pose proof (Z.mod_pos_bound (i - j) 2 ltac:(lia)).
  pose proof (Z_div_mod_eq_full (i + j + 1) 2). pose proof (Z.mod_pos_bound (i + j + 1) 2 ltac:(lia)).
  destruct (Z.eq_dec ((i - j) mod 2) 1) as [Ho|Ho].
  - apply odd_factor in Hd; [|done]. apply Z.divide_pos_le in Hd; lia.
  - rewrite Z.mul_comm in Hd. apply odd_factor in Hd; [|lia]. destruct Hd as [q Hq]. rewrite HN in Hq.
    assert (q = 0) by nia. lia.
Qed.

(** The group of the [i]-th probe. *)
Definition probe_at (N s i : Z) : Z := (s + tri i) mod N.

Lemma probe_covers k s g : 0 <= g < 2 ^ Z.of_nat k ->
  exists i, 0 <= i < 2 ^ Z.of_nat k /\ probe_at (2 ^ Z.of_nat k) s i = g.
Proof.
  intros Hg. set (N := 2 ^ Z.of_nat k) in *. set (f := fun i => Z.to_nat (probe_at N s (Z.of_nat i))).
  assert (HN : 0 < N) by lia.
  assert (Hf : forall i, 0 <= probe_at N s i < N) by (intros i; by apply Z.mod_pos_bound).
  assert (Hincl : List.incl (seq 0 (Z.to_nat N)) (map f (seq 0 (Z.to_nat N)))).
  { apply List.NoDup_length_incl.
    - apply NoDup_ListNoDup. apply NoDup_fmap_2_strong; [|apply NoDup_seq].
      intros i j [_ Hi]%elem_of_seq [_ Hj]%elem_of_seq Hij. unfold f in Hij.
      apply Z2Nat.inj in Hij; [|apply Hf..]. unfold probe_at in Hij.
      enough (Z.of_nat i = Z.of_nat j) by lia. apply (tri_inj k); [lia..|].
      replace (tri (Z.of_nat i)) with ((s + tri (Z.of_nat i)) - s) by lia.
      replace (tri (Z.of_nat j)) with ((s + tri (Z.of_nat j)) - s) by lia.
      fold N. by rewrite Zminus_mod, Hij, <- Zminus_mod.
    - rewrite length_map. done.
    - intros x (i & <- & _)%List.in_map_iff. apply List.in_seq. specialize (Hf (Z.of_nat i)). unfold f. lia. }
  specialize (Hincl (Z.to_nat g)). destruct (proj1 (List.in_map_iff f _ _) (Hincl ltac:(apply List.in_seq; lia)))
    as (i & Hfi & [_ Hi]%List.in_seq).
  exists (Z.of_nat i). split; [lia|]. unfold f in Hfi. specialize (Hf (Z.of_nat i)). lia.
Qed.

Lemma probe_next k s i : 0 <= i -> 
  Z.land (probe_at (2 ^ Z.of_nat k) s i + (i + 1)) (2 ^ Z.of_nat k - 1) = probe_at (2 ^ Z.of_nat k) s (i + 1).
Proof.
  intros Hi. unfold probe_at. replace (2 ^ Z.of_nat k - 1) with (Z.ones (Z.of_nat k)) by (rewrite Z.ones_equiv; lia).
  rewrite Z.land_ones by lia. rewrite tri_succ, Zplus_mod_idemp_l. f_equal. lia.
Qed.

Lemma probe_start k s : Z.land s (2 ^ Z.of_nat k - 1) = probe_at (2 ^ Z.of_nat k) s 0.
Proof.
  unfold probe_at. replace (2 ^ Z.of_nat k - 1) with (Z.ones (Z.of_nat k)) by (rewrite Z.ones_equiv; lia).
  rewrite Z.land_ones by lia. by rewrite Z.add_0_r.
Qed.

(** ** The invariant of the Swiss table

    Every entry is found in its probe sequence before an EMPTY lane, so that
    probing decides whether a key is there and where it may go; the slots
    stand for a finite map. *)

Definition full (c : Z) : Prop := 0 <= c < 128.

(** The slot [i]: its control byte and entry. *)
Definition slot (m : NuwanSwissMap) (i : Z) : option (Z * SwissEntry) :=
  if i <? 0 then None else
  match ctrl m !! Z.to_nat i, entries m !! Z.to_nat i with Some c, Some e => Some (c, e) | _, _ => None end.

(** A group has an EMPTY lane. *)
Definition has_empty (m : NuwanSwissMap) (g : Z) : Prop :=
  exists i e, 0 <= i < 16 /\ slot m (g * 16 + i) = Some (SWISS_CTRL_EMPTY, e).

Definition holds (m : NuwanSwissMap) (i : Z) (k : cstr) : Prop :=
  exists c e, slot m i = Some (c, e) /\ full c /\ e_key e = Some k.

Section table.
Context (k : nat).

(** The number of groups. *)
Notation N := (2 ^ Z.of_nat k).

Record shape (m : NuwanSwissMap) : Prop := {
  sh_cap : s_cap m = 16 * N;
  sh_ctrl : Z.of_nat (length (ctrl m)) = s_cap m;
  sh_entries : Z.of_nat (length (entries m)) = s_cap m;
  sh_byte : forall i c e, slot m i = Some (c, e) -> full c \/ c = SWISS_CTRL_EMPTY \/ c = SWISS_CTRL_DELETED
}.

(** The probes before the [n]-th meet no EMPTY lane. *)
Definition anchored (m : NuwanSwissMap) (h n : Z) : Prop :=
  0 <= n < N /\ forall j, 0 <= j < n -> ~ has_empty m (probe_at N (swiss_h1 h) j).

Definition entry_ok (m : NuwanSwissMap) (i : Z) (c : Z) (e : SwissEntry) : Prop :=
  exists key n, e_key e = Some key /\ e_hash e = swiss_hash key /\ c = swiss_h2 (e_hash e) /\
    anchored m (e_hash e) n /\ probe_at N (swiss_h1 (e_hash e)) n = i / 16.

Record table (m : NuwanSwissMap) : Prop := {
  tb_shape : shape m;
  tb_entry : forall i c e, slot m i = Some (c, e) -> full c -> entry_ok m i c e;
  tb_keys : forall i j key, holds m i key -> holds m j key -> i = j
}.

Lemma N_pos : 0 < N.
Proof. apply Z.pow_pos_nonneg; lia. Qed.

Lemma slot_in m i : shape m -> 0 <= i < s_cap m -> exists c e, slot m i = Some (c, e).
Proof.
  intros Hs Hi. pose proof (sh_ctrl _ Hs). pose proof (sh_entries _ Hs). unfold slot.
  destruct (Z.ltb_spec i 0); [lia|].
  destruct (lookup_lt_is_Some_2 (ctrl m) (Z.to_nat i)) as [c ->]; [lia|].
  destruct (lookup_lt_is_Some_2 (entries m) (Z.to_nat i)) as [e ->]; [lia|]. eauto.
Qed.

Lemma slot_range m i c e : shape m -> slot m i = Some (c, e) ->
  0 <= i < s_cap m /\ ctrl m !! Z.to_nat i = Some c /\ entries m !! Z.to_nat i = Some e.
Proof.
  intros Hs. unfold slot. destruct (Z.ltb_spec i 0); [done|].
  destruct (ctrl m !! Z.to_nat i) eqn:Hc; [|done]. destruct (entries m !! Z.to_nat i) eqn:He; [|done].
  intros [= <- <-]. pose proof (lookup_lt_Some _ _ _ Hc). pose proof (sh_ctrl _ Hs). split_and!; try done; lia.
Qed.

(** ** Masks of a group *)

Lemma group_lookup m g i : shape m -> 0 <= g < N -> 0 <= i < 16 ->
  group_at m g !! Z.to_nat i = ctrl m !! Z.to_nat (g * 16 + i).
Proof.
  intros Hs Hg Hi. unfold group_at, SWISS_GROUP_SIZE. rewrite lookup_take_lt by lia. rewrite lookup_drop. f_equal. lia.
Qed.

Lemma group_length m g : shape m -> 0 <= g < N -> length (group_at m g) = 16%nat.
Proof.
  intros Hs Hg. unfold group_at, SWISS_GROUP_SIZE. rewrite length_take, length_drop.
  pose proof (sh_ctrl _ Hs). pose proof (sh_cap _ Hs). lia.
Qed.

Lemma mask_lane m g p i : shape m -> 0 <= g < N -> 0 <= i < 16 ->
  exists c e, slot m (g * 16 + i) = Some (c, e) /\ Z.testbit (lane_mask p (group_at m g)) i = p c.
Proof.
  intros Hs Hg Hi. destruct (slot_in m (g * 16 + i) Hs) as (c & e & Hc); [rewrite (sh_cap _ Hs); lia|].
  exists c, e. split; [done|]. rewrite lane_mask_bits, group_lookup by (done || lia).
  by destruct (slot_range _ _ _ _ Hs Hc) as (_ & -> & _).
Qed.

Lemma mask_range m g p : shape m -> 0 <= g < N -> 0 <= lane_mask p (group_at m g) < 2 ^ 16.
Proof. intros Hs Hg. pose proof (lane_mask_range p (group_at m g)) as H. by rewrite (group_length m g) in H. Qed.

(** A mask that is not zero has a lowest lane. *)
Lemma mask_first m g p : shape m -> 0 <= g < N -> lane_mask p (group_at m g) <> 0 ->
  exists i c e, swiss_ctz16 (lane_mask p (group_at m g)) = Ok i /\ 0 <= i < 16 /\
    slot m (g * 16 + i) = Some (c, e) /\ p c = true.
Proof.
  intros Hs Hg Hne. pose proof (mask_range m g p Hs Hg).
  destruct (swiss_ctz16_spec (lane_mask p (group_at m g))) as (i & Hz & Hi & Ht & _); [lia|].
  destruct (mask_lane m g p i Hs Hg Hi) as (c & e & Hc & Hp). exists i, c, e. rewrite Hp in Ht. done.
Qed.

Lemma mask_zero m g p i c e : shape m -> 0 <= g < N -> lane_mask p (group_at m g) = 0 -> 0 <= i < 16 ->
  slot m (g * 16 + i) = Some (c, e) -> p c = false.
Proof.
  intros Hs Hg Hz Hi Hc. destruct (mask_lane m g p i Hs Hg Hi) as (c' & e' & Hc' & Hp).
  rewrite Hz, Z.bits_0 in Hp. by simplify_eq.
Qed.

Lemma empty_mask m g : shape m -> 0 <= g < N -> swiss_match_empty (group_at m g) <> 0 <-> has_empty m g.
Proof.
  intros Hs Hg. unfold swiss_match_empty, swiss_match_byte. split.
  - intros Hne. destruct (mask_first m g _ Hs Hg Hne) as (i & c & e & _ & Hi & Hc & Hp%Z.eqb_eq).
    exists i, e. by rewrite Hp.
  - intros (i & e & Hi & Hc) Hz. pose proof (mask_zero _ _ _ _ _ _ Hs Hg Hz Hi Hc) as H. by rewrite Z.eqb_refl in H.
Qed.

(** The high bit tells the full bytes. *)
Lemma byte_high c : full c \/ c = SWISS_CTRL_EMPTY \/ c = SWISS_CTRL_DELETED ->
  Z.testbit c 7 = false <-> full c.
Proof.
  intros [Hf|[->| ->]].
  - split; [done|intros _]. destruct (Z.eq_dec c 0) as [->|]; [done|]. apply Z.bits_above_log2; [apply Hf|].
    apply Z.log2_lt_pow2; unfold full in Hf; lia.
  - unfold SWISS_CTRL_EMPTY, full. split; [done|lia].
  - unfold SWISS_CTRL_DELETED, full. split; [done|lia].
Qed.

Lemma h2_full h : full (swiss_h2 h).
Proof. unfold swiss_h2. change 127 with (Z.ones 7). rewrite Z.land_ones by lia. apply Z.mod_pos_bound. lia. Qed.

(** ** Searching a group *)

Lemma is_key_ok m i c e key : table m -> slot m i = Some (c, e) -> full c ->
  is_key e key (swiss_hash key) = true <-> e_key e = Some key.
Proof.
  intros Ht Hc Hf. destruct (tb_entry _ Ht i c e Hc Hf) as (x & n & Hk & Hh & _). unfold is_key. rewrite Hk, Hh.
  rewrite andb_true_iff, !Z.eqb_eq, strcmp_eq. split; [intros [_ ->]; done|intros [= ->]; done].
Qed.

Lemma scan_matches_spec m g key : table m -> 0 <= g < N -> forall fuel l mask,
  0 <= l -> 16 <= Z.of_nat fuel + l -> 0 <= mask < 2 ^ 16 ->
  (forall i, 0 <= i -> Z.testbit mask i = true -> l <= i) ->
  (forall i, 0 <= i < 16 -> Z.testbit mask i = true -> exists c e, slot m (g * 16 + i) = Some (c, e) /\ full c) ->
  exists r, scan_matches fuel m g mask key (swiss_hash key) = Ok r /\
    match r with
    | Some idx => exists i, 0 <= i < 16 /\ idx = g * 16 + i /\ holds m idx key
    | None => forall i, 0 <= i < 16 -> Z.testbit mask i = true -> ~ holds m (g * 16 + i) key
    end.
Proof.
  intros Ht Hg. induction fuel as [|fuel IH]; intros l mask Hl Hf Hm Hlow Hfull; cbn [scan_matches];
    (destruct (Z.eqb_spec mask 0) as [->|Hne]; [exists None; split; [done|]; intros i _ Hb; by rewrite Z.bits_0 in Hb|]).
  - exfalso. destruct (swiss_ctz16_spec mask) as (j & _ & Hj & Hb & _); [lia|]. specialize (Hlow j ltac:(lia) Hb). lia.
  - destruct (swiss_ctz16_spec mask) as (j & -> & Hj & Hb & Hbefore); [lia|]. cbn [obind]. unfold SWISS_GROUP_SIZE.
    destruct (Hfull j Hj Hb) as (c & e & Hc & Hfc). destruct (slot_range _ _ _ _ (tb_shape _ Ht) Hc) as (_ & _ & He).
    rewrite He. cbn [of_option obind]. pose proof (is_key_ok m _ c e key Ht Hc Hfc) as Hk.
    destruct (is_key e key (swiss_hash key)).
    + exists (Some (g * 16 + j)). split; [done|]. exists j. split_and!; [lia|lia|done|]. exists c, e. split_and!; [done|done|].
      by apply Hk.
    + assert (Hclr : forall i, 0 <= i -> Z.testbit (Z.land mask (mask - 1)) i = Z.testbit mask i && negb (i =? j))
        by (intros i Hi; apply clear_lowest; done || lia).
      destruct (IH (j + 1) (Z.land mask (mask - 1))) as (r & Hr & Hres).
      * lia.
      * specialize (Hlow j ltac:(lia) Hb). lia.
      * by apply land_range.
      * intros i Hi Hti. rewrite Hclr in Hti by done. apply andb_true_iff in Hti as [Hti Hij].
        apply negb_true_iff, Z.eqb_neq in Hij. destruct (Z_lt_le_dec i j); [|lia]. by rewrite Hbefore in Hti by lia.
      * intros i Hi Hti. rewrite Hclr in Hti by lia. apply andb_true_iff in Hti as [Hti _]. by apply Hfull.
      * exists r. split; [done|]. destruct r; [done|]. intros i Hi Hti (c' & e' & Hc' & Hfc' & Hk').
        destruct (Z.eq_dec i j) as [->|Hij]; [simplify_eq; by apply Hk in Hk'|].
        apply (Hres i Hi); [|by exists c', e']. rewrite Hclr, Hti by lia. by rewrite (proj2 (Z.eqb_neq i j)).
Qed.

Lemma scan_group_spec m g key : table m -> 0 <= g < N ->
  exists r, scan_group m g key (swiss_hash key) = Ok r /\
    match r with
    | Some idx => idx / 16 = g /\ holds m idx key
    | None => forall idx, idx / 16 = g -> ~ holds m idx key
    end.
Proof.
  intros Ht Hg. pose proof (tb_shape _ Ht) as Hs. unfold scan_group, swiss_match_byte.
  destruct (scan_matches_spec m g key Ht Hg 16 0 (lane_mask (Z.eqb (swiss_h2 (swiss_hash key))) (group_at m g)))
    as (r & Hr & Hres); [lia|lia|by apply mask_range|lia| |].
  { intros i Hi Hb. destruct (mask_lane m g (Z.eqb (swiss_h2 (swiss_hash key))) i Hs Hg Hi) as (c & e & Hc & Hp).
    exists c, e. split; [done|]. rewrite Hp in Hb. apply Z.eqb_eq in Hb as <-. apply h2_full. }
  exists r. split; [done|]. destruct r as [idx|].
  - destruct Hres as (i & Hi & -> & Hh). split; [|done]. rewrite Z.div_add_l by lia. rewrite Z.div_small; lia.
  - intros idx Hidx Hh. pose proof Hh as (c & e & Hc & Hf & Hk). apply (Hres (idx mod 16)).
    + apply Z.mod_pos_bound. lia.
    + destruct (mask_lane m g (Z.eqb (swiss_h2 (swiss_hash key))) (idx mod 16) Hs Hg) as (c' & e' & Hc' & Hp);
        [apply Z.mod_pos_bound; lia|].
      rewrite Hp. replace (g * 16 + idx mod 16) with idx in Hc' by (rewrite <- Hidx; pose proof (Z_div_mod_eq_full idx 16); lia).
      rewrite Hc in Hc'. injection Hc' as <- <-. destruct (tb_entry _ Ht _ _ _ Hc Hf) as (x & n & Hx & Hhx & Hcx & _).
      rewrite Hk in Hx. injection Hx as <-. rewrite Hcx, Hhx. apply Z.eqb_refl.
    + replace (g * 16 + idx mod 16) with idx; [done|]. rewrite <- Hidx. pose proof (Z_div_mod_eq_full idx 16). lia.
Qed.

(** ** Probing *)

Section probing.
Context (m : NuwanSwissMap) (key : cstr) (Ht : table m).

Notation group i := (probe_at N (swiss_h1 (swiss_hash key)) i).

Lemma group_range i : 0 <= group i < N.
Proof. apply Z.mod_pos_bound, N_pos. Qed.

(** The first [i] groups have been searched in vain. *)
Definition searched (i : Z) : Prop := forall j, 0 <= j < i ->
  ~ has_empty m (group j) /\ forall idx, idx / 16 = group j -> ~ holds m idx key.

Lemma searched_next i : 0 <= i -> searched i -> ~ has_empty m (group i) ->
  (forall idx, idx / 16 = group i -> ~ holds m idx key) -> searched (i + 1).
Proof. intros Hi Hs He Hh j Hj. destruct (Z.eq_dec j i) as [->|]; [done|]. apply Hs. lia. Qed.

(** A key that is not met before an EMPTY lane, or in all groups, is absent. *)
Lemma absent i : 0 <= i -> searched i -> (forall idx, i < N -> idx / 16 = group i -> ~ holds m idx key) ->
  (i < N -> has_empty m (group i)) -> forall idx, ~ holds m idx key.
Proof.
  intros Hi Hs Hh He idx Hidx. pose proof Hidx as (c & e & Hc & Hf & Hk).
  destruct (tb_entry _ Ht _ _ _ Hc Hf) as (x & n & Hx & Hhx & _ & [Hn Hanc] & Hg).
  rewrite Hk in Hx. injection Hx as <-. rewrite Hhx in *.
  destruct (Z_lt_le_dec n i) as [Hlt|Hge]; [by apply (proj2 (Hs n ltac:(lia)) idx)|].
  destruct (Z.eq_dec n i) as [->|Hne]; [apply (Hh idx); [lia|by rewrite Hg|done]|].
  apply (Hanc i); [lia|]. apply He. lia.
Qed.

Lemma find_probe_spec n : forall i len, 0 <= i -> Z.of_nat n + i = N -> searched i ->
  exists p, find_probe n m (N - 1) (group i) i key (swiss_hash key) len = Ok p /\
    (found p = true /\ (exists idx, index p = Some idx /\ holds m idx key) \/
     found p = false /\ forall idx, ~ holds m idx key).
Proof.
  induction n as [|n IH]; intros i len Hi Hni Hs; cbn [find_probe].
  - eexists. split; [done|]. right. split; [done|]. apply (absent i); [done|done|lia|lia].
  - destruct (scan_group_spec m (group i) key Ht (group_range i)) as (r & -> & Hr). cbn [obind].
    destruct r as [idx|]; [eexists; split; [done|]; left; split; [done|]; exists idx; by destruct Hr|].
    pose proof (empty_mask m (group i) (tb_shape _ Ht) (group_range i)) as Hem.
    destruct (Z.eqb_spec (swiss_match_empty (group_at m (group i))) 0) as [Hz|Hz]; cbn [negb].
    + rewrite probe_next by done. apply IH; [lia|lia|]. apply searched_next; try done.
      intros He. by apply Hem in He.
    + eexists. split; [done|]. right. split; [done|]. apply (absent i); [done|done|intros idx _; apply Hr|intros _; by apply Hem].
Qed.

(** A free slot [c] that an entry of the key may take. *)
Definition insertable (c : Z) : Prop := exists n b e, anchored m (swiss_hash key) n /\ group n = c / 16 /\
  slot m c = Some (b, e) /\ ~ full b.

Lemma free_first i : swiss_match_empty_or_deleted (group_at m (group i)) <> 0 ->
  exists b c e, swiss_ctz16 (swiss_match_empty_or_deleted (group_at m (group i))) = Ok b /\
    slot m (group i * 16 + b) = Some (c, e) /\ ~ full c /\ (group i * 16 + b) / 16 = group i.
Proof.
  intros Hne. pose proof (tb_shape _ Ht) as Hs.
  destruct (mask_first m (group i) _ Hs (group_range i) Hne) as (b & c & e & Hz & Hb & Hc & Hp).
  exists b, c, e. split_and!; [done|done| |].
  - intros Hf. pose proof (proj2 (byte_high c (or_introl Hf)) Hf) as H. congruence.
  - rewrite Z.div_add_l by lia. rewrite Z.div_small; lia.
Qed.

Lemma insert_probe_spec n : forall i cand len, 0 <= i -> Z.of_nat n + i = N -> searched i ->
  (forall c, cand = Some c -> insertable c) ->
  (exists j, 0 <= j < N /\ has_empty m (group j)) ->
  exists p, insert_probe n m (N - 1) (group i) i cand key (swiss_hash key) len = Ok p /\
    (found p = true /\ (exists idx, index p = Some idx /\ holds m idx key) \/
     found p = false /\ (forall idx, ~ holds m idx key) /\ exists idx, index p = Some idx /\ insertable idx).
Proof.
  induction n as [|n IH]; intros i cand len Hi Hni Hs Hcand Hex; cbn [insert_probe].
  - exfalso. destruct Hex as (j & Hj & He). by apply (proj1 (Hs j ltac:(lia))).
  - destruct (scan_group_spec m (group i) key Ht (group_range i)) as (r & -> & Hr). cbn [obind].
    destruct r as [idx|]; [eexists; split; [done|]; left; split; [done|]; exists idx; by destruct Hr|].
    assert (exists cand', (match cand with
        | Some _ => Ok cand
        | None => if swiss_match_empty_or_deleted (group_at m (group i)) =? 0 then Ok None
            else let! b := swiss_ctz16 (swiss_match_empty_or_deleted (group_at m (group i))) in
                 Ok (Some (group i * SWISS_GROUP_SIZE + b))
        end) = Ok cand' /\ (forall c, cand' = Some c -> insertable c) /\
        (swiss_match_empty (group_at m (group i)) <> 0 -> cand' <> None)) as (cand' & -> & Hcand' & Hsome).
    { destruct cand as [c|]; [exists (Some c); split_and!; auto; done|].
      destruct (Z.eqb_spec (swiss_match_empty_or_deleted (group_at m (group i))) 0) as [Hz|Hz].
      - exists None. split_and!; [done|done|]. intros (b & e & Hb & Hc)%empty_mask _; [|apply Ht|apply group_range].
        pose proof (mask_zero m _ _ _ _ _ (tb_shape _ Ht) (group_range i) Hz Hb Hc) as H. done.
      - destruct (free_first i Hz) as (b & c & e & -> & Hc & Hf & Hg). eexists. split_and!; [done| |done].
        intros x [= <-]. exists i, c, e. split_and!; [split; [lia|]|done|done|done].
        intros j Hj. by apply Hs. }
    cbn [obind]. pose proof (empty_mask m (group i) (tb_shape _ Ht) (group_range i)) as Hem.
    destruct (Z.eqb_spec (swiss_match_empty (group_at m (group i))) 0) as [Hz|Hz]; cbn [negb].
    + rewrite probe_next by done. apply IH; try done; [lia|lia|]. apply searched_next; try done.
      intros He. by apply Hem in He.
    + destruct cand' as [c|]; [|by destruct (Hsome Hz)]. cbn [obind]. eexists. split; [done|]. right.
      split_and!; [done| |exists c; auto]. apply (absent i); [done|done|intros idx _; apply Hr|intros _; by apply Hem].
Qed.

Lemma searched_0 : searched 0.
Proof. intros j Hj. lia. Qed.

Lemma swiss_find_spec : exists p, swiss_find m key (swiss_hash key) = Ok p /\
    (found p = true /\ (exists idx, index p = Some idx /\ holds m idx key) \/
     found p = false /\ forall idx, ~ holds m idx key).
Proof.
  pose proof (tb_shape _ Ht) as Hs. pose proof N_pos. unfold swiss_find, SWISS_GROUP_SIZE. rewrite (sh_cap _ Hs).
  destruct (Z.eqb_spec (16 * N) 0); [lia|]. rewrite Z.mul_comm, Z.div_mul by lia. rewrite probe_start.
  apply find_probe_spec; [lia|lia|apply searched_0].
Qed.

Lemma find_for_insert_spec : (exists g, 0 <= g < N /\ has_empty m g) ->
  exists p, swiss_find_for_insert m key (swiss_hash key) = Ok p /\
    (found p = true /\ (exists idx, index p = Some idx /\ holds m idx key) \/
     found p = false /\ (forall idx, ~ holds m idx key) /\ exists idx, index p = Some idx /\ insertable idx).
Proof.
  intros (g & Hg & He). pose proof (tb_shape _ Ht) as Hs. pose proof N_pos.
  unfold swiss_find_for_insert, SWISS_GROUP_SIZE. rewrite (sh_cap _ Hs).
  destruct (Z.eqb_spec (16 * N) 0); [lia|]. rewrite Z.mul_comm, Z.div_mul by lia. rewrite probe_start.
  apply insert_probe_spec; try done; [lia|apply searched_0|].
  destruct (probe_covers k (swiss_h1 (swiss_hash key)) g Hg) as (j & Hj & Hgj). exists j. by rewrite Hgj.
Qed.

End probing.

(** ** Writing a slot *)

Lemma slot_put m idx c e i : shape m -> 0 <= idx < s_cap m ->
  slot (put_slot m idx c e) i = if decide (i = idx) then Some (c, e) else slot m i.
Proof.
  intros Hs Hi. pose proof (sh_ctrl _ Hs). pose proof (sh_entries _ Hs). unfold slot. cbn [put_slot ctrl entries].
  case_decide as Hd.
  - subst i. rewrite !list_lookup_insert_eq by lia. by destruct (Z.ltb_spec idx 0); [lia|].
  - destruct (Z.ltb_spec i 0); [done|]. by rewrite !list_lookup_insert_ne by lia.
Qed.

Lemma shape_put m idx c e : shape m -> 0 <= idx < s_cap m -> full c \/ c = SWISS_CTRL_EMPTY \/ c = SWISS_CTRL_DELETED ->
  shape (put_slot m idx c e).
Proof.
  intros Hs Hi Hc. constructor; cbn [put_slot ctrl entries s_cap]; rewrite ?length_insert; try apply Hs.
  intros i c' e'. rewrite slot_put by done. case_decide; [by intros [= <- <-]|apply (sh_byte _ Hs)].
Qed.

Lemma anchored_mono m m' h n : (forall g, has_empty m' g -> has_empty m g) -> anchored m h n -> anchored m' h n.
Proof. intros He [Hn Ha]. split; [done|]. intros j Hj Hx. by apply (Ha j Hj), He. Qed.

Lemma swiss_table_put m idx c e : table m -> 0 <= idx < s_cap m ->
  full c \/ c = SWISS_CTRL_EMPTY \/ c = SWISS_CTRL_DELETED ->
  (forall g, has_empty (put_slot m idx c e) g -> has_empty m g) ->
  (full c -> entry_ok m idx c e /\ forall key j, e_key e = Some key -> j <> idx -> ~ holds m j key) ->
  table (put_slot m idx c e).
Proof.
  intros [Hs He Hk] Hi Hc Hem Hf. constructor.
  - by apply shape_put.
  - intros i c' e'. rewrite slot_put by done. intros Hsl Hfc.
    assert (entry_ok m i c' e') as (x & n & H1 & H2 & H3 & H4 & H5).
    { case_decide; [injection Hsl as <- <-; subst i; by apply Hf|by apply He]. }
    exists x, n. split_and!; try done. by apply (anchored_mono m).
  - intros i j key (ci & ei & Hsi & Hfi & Hki) (cj & ej & Hsj & Hfj & Hkj). rewrite slot_put in Hsi, Hsj by done.
    destruct (decide (i = idx)) as [H1|H1], (decide (j = idx)) as [H2|H2]; [congruence| | |].
    + injection Hsi as <- <-. subst i. destruct (Hf Hfi) as [_ Hno]. destruct (Hno key j Hki H2). by exists cj, ej.
    + injection Hsj as <- <-. subst j. destruct (Hf Hfj) as [_ Hno]. destruct (Hno key i Hkj H1). by exists ci, ei.
    + apply (Hk i j key); [by exists ci, ei|by exists cj, ej].
Qed.

(** The counters and the probe statistics do not matter to the table. *)
Lemma table_same m m' : ctrl m' = ctrl m -> entries m' = entries m -> s_cap m' = s_cap m -> table m -> table m'.
Proof.
  intros H1 H2 H3 [Hs He Hk].
  assert (Hsl : forall i, slot m' i = slot m i) by (intros i; unfold slot; by rewrite H1, H2).
  assert (Hem : forall g, has_empty m' g <-> has_empty m g) by (intros g; unfold has_empty; by setoid_rewrite Hsl).
  constructor.
  - destruct Hs. constructor; rewrite ?H1, ?H2, ?H3; try done. intros i c e. rewrite Hsl. eauto.
  - intros i c e. rewrite Hsl. intros Hc Hf. destruct (He i c e Hc Hf) as (x & n & ? & ? & ? & [Hn Ha] & ?).
    exists x, n. split_and!; try done. split; [done|]. intros j Hj. rewrite Hem. by apply Ha.
  - intros i j key. unfold holds. setoid_rewrite Hsl. apply Hk.
Qed.

(** ** The finite map *)

Definition binding (s : Z * SwissEntry) : option (cstr * Z) :=
  if s.1 <? 128 then (fun x => (x, e_val s.2)) <$> e_key s.2 else None.

Definition slots_of (m : NuwanSwissMap) : list (Z * SwissEntry) := zip (ctrl m) (entries m).

Definition mapping (m : NuwanSwissMap) : gmap cstr Z := table_map binding (slots_of m).

Lemma slot_zip m i c e : shape m -> slot m i = Some (c, e) <-> 0 <= i /\ slots_of m !! Z.to_nat i = Some (c, e).
Proof.
  intros Hs. unfold slots_of. rewrite lookup_zip_with_Some. split.
  - intros Hc. destruct (slot_range _ _ _ _ Hs Hc) as (Hi & H1 & H2). split; [lia|]. eauto.
  - intros (Hi & x & y & [= <- <-] & H1 & H2). unfold slot. destruct (Z.ltb_spec i 0); [lia|]. by rewrite H1, H2.
Qed.

Lemma slot_nat m (i : nat) s : shape m -> slots_of m !! i = Some s <-> slot m (Z.of_nat i) = Some s.
Proof. intros Hs. destruct s as [c e]. rewrite (slot_zip _ _ _ _ Hs), Nat2Z.id. intuition lia. Qed.

Lemma byte_full c : full c \/ c = SWISS_CTRL_EMPTY \/ c = SWISS_CTRL_DELETED -> (c <? 128) = true <-> full c.
Proof. unfold full, SWISS_CTRL_EMPTY, SWISS_CTRL_DELETED. rewrite Z.ltb_lt. lia. Qed.

Lemma binding_holds m i s key v : table m -> slot m i = Some s -> binding s = Some (key, v) ->
  full s.1 /\ e_key s.2 = Some key /\ e_val s.2 = v.
Proof.
  intros Ht Hs. destruct s as [c e]. unfold binding. cbn. pose proof (byte_full c (sh_byte _ (tb_shape _ Ht) _ _ _ Hs)) as Hb.
  destruct (c <? 128); [|done]. destruct (e_key e); [|done]. intros [= -> ->]. split; [by apply Hb|done].
Qed.

Lemma binding_full m i c e : table m -> slot m i = Some (c, e) -> full c ->
  exists key, e_key e = Some key /\ binding (c, e) = Some (key, e_val e).
Proof.
  intros Ht Hs Hf. destruct (tb_entry _ Ht _ _ _ Hs Hf) as (key & n & Hk & _). exists key. split; [done|].
  unfold binding. cbn. rewrite (proj2 (byte_full c (or_introl Hf)) Hf), Hk. done.
Qed.

Lemma table_distinct m : table m -> distinct binding (slots_of m).
Proof.
  intros Ht i j a b key u v Ha Hb Hfa Hfb. pose proof (tb_shape _ Ht) as Hs.
  apply (slot_nat _ _ _ Hs) in Ha, Hb. destruct (binding_holds _ _ _ _ _ Ht Ha Hfa) as (H1 & H2 & _).
  destruct (binding_holds _ _ _ _ _ Ht Hb Hfb) as (H3 & H4 & _).
  enough (Z.of_nat i = Z.of_nat j) by lia. destruct a as [ca ea], b as [cb eb].
  apply (tb_keys _ Ht _ _ key); [by exists ca, ea|by exists cb, eb].
Qed.

Lemma mapping_holds m i c e key : table m -> slot m i = Some (c, e) -> full c -> e_key e = Some key ->
  mapping m !! key = Some (e_val e).
Proof.
  intros Ht Hs Hf Hk. apply table_map_lookup; [by apply table_distinct|]. exists (c, e). split.
  - apply (slot_zip _ _ _ _ (tb_shape _ Ht)) in Hs as [_ Hs]. by apply list_elem_of_lookup_2 in Hs.
  - unfold binding. cbn. rewrite (proj2 (byte_full c (or_introl Hf)) Hf), Hk. done.
Qed.

Lemma mapping_absent m key : table m -> (forall i, ~ holds m i key) -> mapping m !! key = None.
Proof.
  intros Ht Hno. apply table_map_None; [by apply table_distinct|]. intros [c e] v [i Hi]%list_elem_of_lookup Hf.
  apply (slot_nat _ _ _ (tb_shape _ Ht)) in Hi. destruct (binding_holds _ _ _ _ _ Ht Hi Hf) as (H1 & H2 & _).
  apply (Hno (Z.of_nat i)). by exists c, e.
Qed.

Lemma slots_put m idx c e : slots_of (put_slot m idx c e) = <[Z.to_nat idx := (c, e)]> (slots_of m).
Proof. unfold slots_of. cbn. apply zip_insert. Qed.

End table.
