(* ===== verification/NuwanSwissFacts.v ===== *)
(** * The Swiss table is a finite map

    The operations keep the counters and the invariant of [SwissTable] and
    act on the finite map; at the load limit the rehash is undefined. *)
From Stdlib Require Import Ascii.
From S2P Require Import Prelude CString NuwanMap NuwanSwiss SwissTable.

(** ** Well-formed tables *)

Definition is_full (c : Z) : bool := c <? 128.
Definition is_deleted (c : Z) : bool := c =? SWISS_CTRL_DELETED.
Definition is_empty (c : Z) : bool := c =? SWISS_CTRL_EMPTY.

Record swiss_wf (k : nat) (m : NuwanSwissMap) : Prop := {
  sw_table : table k m;
  sw_size : s_size m = count is_full (ctrl m);
  sw_tomb : tombstones m = count is_deleted (ctrl m);
  sw_growth : growth_left m = 14 * 2 ^ Z.of_nat k - s_size m - tombstones m;
  sw_left : 0 <= growth_left m
}.

Lemma max_load_eq k : swiss_max_load (16 * 2 ^ Z.of_nat k) = 14 * 2 ^ Z.of_nat k.
Proof.
  unfold swiss_max_load. rewrite Z.shiftr_div_pow2 by lia. change (2 ^ 3) with 8.
  replace (16 * 2 ^ Z.of_nat k) with (2 * 2 ^ Z.of_nat k * 8) by lia. rewrite Z.div_mul by lia. lia.
Qed.

Lemma count_bytes l : (forall c, c ∈ l -> full c \/ c = SWISS_CTRL_EMPTY \/ c = SWISS_CTRL_DELETED) ->
  Z.of_nat (length l) = count is_full l + count is_deleted l + count is_empty l.
Proof.
  induction l as [|c l IH]; intros Hl; [done|]. rewrite !count_cons. cbn [length].
  specialize (IH (fun x Hx => Hl x ltac:(by right))).
  assert (b2z (is_full c) + b2z (is_deleted c) + b2z (is_empty c) = 1); [|lia].
  unfold is_full, is_deleted, is_empty. destruct (Hl c ltac:(left)) as [Hf|[->| ->]]; [|done|done].
  unfold full in Hf. rewrite (proj2 (Z.ltb_lt _ _)) by lia.
  rewrite !(proj2 (Z.eqb_neq _ _)) by (unfold SWISS_CTRL_DELETED, SWISS_CTRL_EMPTY; lia). done.
Qed.

Lemma ctrl_slot k m c : shape k m -> c ∈ ctrl m -> exists i e, slot m i = Some (c, e) /\ 0 <= i < s_cap m.
Proof.
  intros Hs [i Hi]%list_elem_of_lookup. pose proof (lookup_lt_Some _ _ _ Hi). pose proof (sh_ctrl _ _ Hs).
  destruct (slot_in k m (Z.of_nat i) Hs) as (c' & e & Hc); [lia|]. exists (Z.of_nat i), e.
  destruct (slot_range _ _ _ _ _ Hs Hc) as (? & Hcc & _). rewrite Nat2Z.id in Hcc. split; [congruence|lia].
Qed.

(** The load limit leaves an EMPTY slot. *)
Lemma wf_has_empty k m : swiss_wf k m -> exists g, 0 <= g < 2 ^ Z.of_nat k /\ has_empty m g.
Proof.
  intros [Ht Hsz Hto Hg Hl]. pose proof (tb_shape _ _ Ht) as Hs. pose proof (N_pos k).
  pose proof (sh_cap _ _ Hs). pose proof (sh_ctrl _ _ Hs).
  pose proof (count_bytes (ctrl m)) as Hc. 
  destruct (count_exists is_empty (ctrl m)) as (c & Hin & He%Z.eqb_eq).
  { rewrite <- Hsz, <- Hto in Hc.
    specialize (Hc ltac:(intros c (i & e & Hi & _)%(ctrl_slot k); [by apply (sh_byte _ _ Hs) in Hi|done])). lia. }
  destruct (ctrl_slot k m c Hs Hin) as (i & e & Hi & Hr). exists (i / 16).
  pose proof (Z_div_mod_eq_full i 16). pose proof (Z.mod_pos_bound i 16 ltac:(lia)). split.
  - split; [apply Z.div_pos; lia|]. apply Z.div_lt_upper_bound; lia.
  - exists (i mod 16), e. split; [done|]. rewrite He in Hi. by replace (i / 16 * 16 + i mod 16) with i by lia.
Qed.

Lemma holds_unique k m i c e key : table k m -> slot m i = Some (c, e) -> holds m i key -> full c /\ e_key e = Some key.
Proof. intros Ht Hs (c' & e' & Hs' & Hf & Hk). by simplify_eq. Qed.

Lemma set_probe_len_table k m n : table k m -> table k (set_probe_len m n).
Proof. by apply table_same. Qed.

Lemma set_counts_table k m a b c : table k m -> table k (set_counts m a b c).
Proof. by apply table_same. Qed.

(** Looking a key up. *)
Lemma find_lookup k m key : table k m ->
  exists p, swiss_find m key (swiss_hash key) = Ok p /\
    (found p = true /\ (exists idx c e, index p = Some idx /\ slot m idx = Some (c, e) /\ full c /\ e_key e = Some key /\
       mapping m !! key = Some (e_val e)) \/
     found p = false /\ mapping m !! key = None).
Proof.
  intros Ht. destruct (swiss_find_spec k m key Ht) as (p & Hp & Hcase). exists p. split; [done|].
  destruct Hcase as [(Hf & idx & Hi & c & e & Hs & Hfc & Hk)|[Hf Hno]].
  - left. split; [done|]. exists idx, c, e. split_and!; try done. by apply (mapping_holds k m idx c e key).
  - right. split; [done|]. by apply (mapping_absent k).
Qed.

(** The size field counts the bindings. *)
Lemma size_mapping k m : swiss_wf k m -> s_size m = Z.of_nat (base.size (mapping m)).
Proof.
  intros [Ht Hsz _ _ _]. rewrite Hsz. unfold mapping. rewrite (table_map_count binding (slots_of m) (fun s => is_full s.1)).
  - unfold slots_of. pose proof (sh_ctrl _ _ (tb_shape _ _ Ht)). pose proof (sh_entries _ _ (tb_shape _ _ Ht)).
    assert (length (ctrl m) = length (entries m)) as Hlen by lia. clear -Hlen. revert Hlen. generalize (entries m).
    induction (ctrl m) as [|c l IH]; intros [|e l'] Hlen; try done. cbn [zip_with]. rewrite !count_cons.
    injection Hlen as Hlen. by rewrite (IH l' Hlen).
  - by apply (table_distinct k).
  - intros [c e] [i Hi]%list_elem_of_lookup. apply (slot_nat k) in Hi; [|apply Ht]. cbn. unfold is_full.
    pose proof (byte_full c (sh_byte _ _ (tb_shape _ _ Ht) _ _ _ Hi)) as Hb. destruct (c <? 128) eqn:E.
    + destruct (binding_full k m _ c e Ht Hi) as (x & _ & ->); [by apply Hb|done].
    + unfold binding. cbn. by rewrite E.
Qed.

(** [nuwan_swiss_get_opt], [get] and [has] read the finite map the table
    stands for; only the probe statistics change. *)
Theorem swiss_get_refines k m key : swiss_wf k m ->
  exists n, let m' := set_probe_len m n in
    nuwan_swiss_get_opt (Some m) (Some key) = Ok (Some m', mapping m !! key) /\
    nuwan_swiss_get (Some m) (Some key) = Ok (Some m', default 0 (mapping m !! key)) /\
    nuwan_swiss_has (Some m) (Some key) = Ok (Some m', opt_bool (mapping m !! key)) /\
    swiss_wf k m' /\ nuwan_swiss_size (Some m) = Z.of_nat (base.size (mapping m)).
Proof.
  intros Hwf. pose proof Hwf as [Ht Hsz Hto Hg Hl]. destruct (find_lookup k m key Ht) as (p & Hp & Hcase). exists (probe_len p). cbv zeta.
  assert (H : nuwan_swiss_get_opt (Some m) (Some key) = Ok (Some (set_probe_len m (probe_len p)), mapping m !! key)).
  { unfold nuwan_swiss_get_opt. rewrite Hp. cbn [obind].
    destruct Hcase as [(Hf & idx & c & e & Hi & Hs & _ & _ & Hm)|[Hf Hm]]; rewrite Hf, Hm; [|done]. rewrite Hi.
    destruct (slot_range k m idx c e (tb_shape _ _ Ht) Hs) as (_ & _ & He). cbn [entries set_probe_len]. by rewrite He. }
  unfold nuwan_swiss_get, nuwan_swiss_has. rewrite H. split_and!; [done|done|done| |].
  - constructor; try done. by apply set_probe_len_table.
  - by apply (size_mapping k).
Qed.

(** ** Updates *)

Lemma full_not_empty c : full c -> c <> SWISS_CTRL_EMPTY /\ c <> SWISS_CTRL_DELETED /\ is_full c = true /\
  is_deleted c = false.
Proof.
  unfold full, is_full, is_deleted, SWISS_CTRL_EMPTY, SWISS_CTRL_DELETED. intros H.
  rewrite (proj2 (Z.ltb_lt _ _)), (proj2 (Z.eqb_neq _ _)) by lia. lia.
Qed.

Lemma put_full_empty k m idx c e : shape k m -> 0 <= idx < s_cap m -> full c ->
  forall g, has_empty (put_slot m idx c e) g -> has_empty m g.
Proof.
  intros Hs Hi Hf g (i & x & Hr & Hx). rewrite (slot_put k) in Hx by done. case_decide as Hd; [|by exists i, x].
  injection Hx as -> _. by destruct (full_not_empty _ Hf).
Qed.

(** A new entry in a free slot of its probe sequence. *)
Lemma store_ok k m idx key v : swiss_wf k m -> growth_left m <> 0 -> insertable k m key idx -> (forall i, ~ holds m i key) ->
  exists m', swiss_store m idx (swiss_hash key) v (Some key) = Ok (m', true) /\ swiss_wf k m' /\
    mapping m' = <[key := v]> (mapping m) /\ tombstones m' <= tombstones m.
Proof.
  intros [Ht Hsz Hto Hg Hl] Hgl (n & b & e0 & Ha & Hgr & Hs0 & Hnf) Hno. pose proof (tb_shape _ _ Ht) as Hs.
  destruct (slot_range k m idx b e0 Hs Hs0) as (Hi & Hb & He). unfold swiss_store. rewrite Hb. cbn [of_option obind].
  set (h := swiss_hash key) in *. set (e := mkSwissEntry h (Some key) v). set (m1 := put_slot m idx (swiss_h2 h) e).
  pose proof (h2_full h) as Hf. destruct (full_not_empty _ Hf) as (_ & _ & Hif & Hid).
  assert (Ht1 : table k m1).
  { apply swiss_table_put; [done|done|by left|by apply (put_full_empty k)|]. intros _. split.
    - exists key, n. split_and!; done.
    - intros x j [= <-] _. apply Hno. }
  assert (Hm1 : mapping m1 = <[key := v]> (mapping m)).
  { unfold mapping, m1. rewrite slots_put.
    pose proof (proj2 (proj1 (slot_zip k m idx b e0 Hs) Hs0)) as Hz.
    apply (table_map_insert _ _ _ (b, e0)); [by apply (table_distinct k)| |done| |].
    - rewrite <- slots_put. by apply (table_distinct k).
    - unfold binding. cbn. unfold is_full in Hif. by rewrite Hif.
    - intros x u Hx. destruct (binding_holds k m idx _ _ _ Ht Hs0 Hx) as [? _]. done. }
  assert (Hcf : count is_full (ctrl m1) = s_size m + 1 /\ count is_deleted (ctrl m1) = tombstones m - b2z (b =? SWISS_CTRL_DELETED)).
  { cbn [m1 put_slot ctrl]. rewrite !(count_insert _ _ _ b) by done. rewrite <- Hsz, <- Hto, Hif, Hid.
    assert (is_full b = false) as ->; [|unfold is_deleted; cbn [b2z]; lia].
    apply not_true_iff_false. unfold is_full. by rewrite (byte_full b (sh_byte _ _ Hs _ _ _ Hs0)). }
  destruct Hcf as [Hcf Hcd].
  destruct (sh_byte _ _ Hs _ _ _ Hs0) as [|[->| ->]]; [done| |].
  - rewrite Z.eqb_refl. eexists. split; [done|]. split; [|split; [done|cbn; lia]]. constructor; cbn [set_counts s_size tombstones growth_left ctrl].
    + by apply set_counts_table.
    + by rewrite Hcf.
    + rewrite Hcd. cbn. lia.
    + cbn. lia.
    + cbn. lia.
  - rewrite (proj2 (Z.eqb_neq SWISS_CTRL_DELETED SWISS_CTRL_EMPTY)) by done. rewrite Z.eqb_refl.
    eexists. split; [done|]. split; [|split; [done|cbn; lia]]. constructor; cbn [set_counts s_size tombstones growth_left ctrl].
    + by apply set_counts_table.
    + by rewrite Hcf.
    + rewrite Hcd, Z.eqb_refl. cbn. lia.
    + cbn. lia.
    + cbn. lia.
Qed.

Lemma update_ok k m idx c e key v : swiss_wf k m -> slot m idx = Some (c, e) -> full c -> e_key e = Some key ->
  swiss_wf k (put_slot m idx c (set_val v e)) /\
  mapping (put_slot m idx c (set_val v e)) = <[key := v]> (mapping m).
Proof.
  intros [Ht Hsz Hto Hg Hl] Hs0 Hf Hk. pose proof (tb_shape _ _ Ht) as Hs.
  destruct (slot_range k m idx c e Hs Hs0) as (Hi & Hb & He).
  assert (Ht1 : table k (put_slot m idx c (set_val v e))).
  { apply swiss_table_put; [done|done|by left|by apply (put_full_empty k)|]. intros _. split.
    - destruct (tb_entry _ _ Ht _ _ _ Hs0 Hf) as (x & n & ? & ? & ? & ? & ?). by exists x, n.
    - intros x j Hx Hj Hh. cbn in Hx. apply Hj. apply (tb_keys _ _ Ht j idx x); [done|]. by exists c, e. }
  split.
  - constructor; cbn [put_slot s_size tombstones growth_left ctrl]; try done;
      rewrite (count_insert _ _ _ c) by done; lia.
  - unfold mapping. rewrite slots_put. pose proof (proj2 (proj1 (slot_zip k m idx c e Hs) Hs0)) as Hz.
    apply (table_map_insert _ _ _ (c, e)); [by apply (table_distinct k)| |done| |].
    + rewrite <- slots_put. by apply (table_distinct k).
    + unfold binding. cbn. destruct (full_not_empty _ Hf) as (_ & _ & Hif & _). unfold is_full in Hif. by rewrite Hif, Hk.
    + intros x u Hx. destruct (binding_holds k m idx _ _ _ Ht Hs0 Hx) as (_ & Hx' & _). cbn in Hx'. congruence.
Qed.

(** A put below the load limit. *)
Lemma put_ok k m key v fuel mem :
  swiss_wf k m -> growth_left m <> 0 ->
  exists m', nuwan_swiss_put fuel (Some m) (Some key) v mem (Some key) = Ok (Some m', true) /\ swiss_wf k m' /\
    mapping m' = <[key := v]> (mapping m) /\ tombstones m' <= tombstones m.
Proof.
  intros Hwf Hgl. unfold nuwan_swiss_put. rewrite (proj2 (Z.eqb_neq _ _)) by done. cbn [obind negb].
  destruct (find_for_insert_spec k m key (sw_table _ _ Hwf) (wf_has_empty k m Hwf)) as (p & -> & Hcase). cbn [obind].
  set (m0 := set_probe_len m (probe_len p)).
  assert (Hwf0 : swiss_wf k m0 /\ mapping m0 = mapping m).
  { split; [|done]. destruct Hwf. constructor; try done. by apply set_probe_len_table. }
  destruct Hwf0 as [Hwf0 Hm0].
  destruct Hcase as [(Hf & idx & Hi & c & e & Hs & Hfc & Hk)|(Hf & Hno & idx & Hi & Hins)]; rewrite Hf, Hi.
  - destruct (slot_range k m idx c e (tb_shape _ _ (sw_table _ _ Hwf)) Hs) as (_ & Hc & He).
    cbn [m0 set_probe_len entries ctrl]. rewrite He. cbn [of_option obind]. rewrite Hc. cbn [of_option obind].
    destruct (update_ok k m0 idx c e key v Hwf0 Hs Hfc Hk) as [Hw Hm]. eexists. split; [done|]. split; [done|]. split; [by rewrite <- Hm0|done].
  - destruct (store_ok k m0 idx key v Hwf0 Hgl Hins Hno) as (m' & -> & Hw & Hm & Hto). cbn [obind fst snd]. exists m'.
    split; [done|]. split; [done|]. split; [by rewrite <- Hm0|done].
Qed.

(** C21: below the load limit, and as long as the arena has memory for the copy
    of the key, [nuwan_swiss_put] never needs the rehash: it finds a free
    slot in the probe sequence of the key, or the key itself, and changes the
    finite map the table stands for by one binding. *)
Theorem swiss_put_refines k m key v fuel mem :
  swiss_wf k m -> growth_left m <> 0 ->
  exists m', nuwan_swiss_put fuel (Some m) (Some key) v mem (Some key) = Ok (Some m', true) /\ swiss_wf k m' /\
    mapping m' = <[key := v]> (mapping m).
Proof.
  intros Hwf Hgl. destruct (put_ok k m key v fuel mem Hwf Hgl) as (m' & H1 & H2 & H3 & _). by exists m'.
Qed.

(** [nuwan_swiss_remove] deletes exactly the key from the finite map and
    says whether it was there; whether the slot becomes EMPTY or a tombstone,
    every other key stays reachable and the counters stay exact. *)
Theorem swiss_remove_refines k m key : swiss_wf k m ->
  exists m', nuwan_swiss_remove (Some m) (Some key) = Ok (Some m', opt_bool (mapping m !! key)) /\ swiss_wf k m' /\
    mapping m' = delete key (mapping m).
Proof.
  intros [Ht Hsz Hto Hg Hl]. pose proof (tb_shape _ _ Ht) as Hs. unfold nuwan_swiss_remove.
  destruct (find_lookup k m key Ht) as (p & -> & Hcase). cbn [obind].
  set (m0 := set_probe_len m (probe_len p)). assert (Ht0 : table k m0) by by apply set_probe_len_table.
  destruct Hcase as [(Hf & idx & c & e & Hi & Hsl & Hfc & Hk & Hm)|[Hf Hm]]; rewrite Hf.
  2: { exists m0. rewrite Hm. split_and!; [done|constructor; done|]. by rewrite delete_id. }
  rewrite Hi, Hm. destruct (slot_range k m idx c e Hs Hsl) as (Hr & Hc & He). pose proof (N_pos k).
  unfold SWISS_GROUP_SIZE. assert (Hgr : 0 <= idx / 16 < 2 ^ Z.of_nat k).
  { rewrite (sh_cap _ _ Hs) in Hr. split; [apply Z.div_pos; lia|apply Z.div_lt_upper_bound; lia]. }
  pose proof (empty_mask k m0 (idx / 16) (tb_shape _ _ Ht0) Hgr) as Hem.
  set (emp := negb (swiss_match_empty (group_at m0 (idx / 16)) =? 0)).
  set (b := if emp then SWISS_CTRL_EMPTY else SWISS_CTRL_DELETED).
  set (e' := mkSwissEntry 0 None 0).
  assert (Hnf : ~ full b) by (unfold b, full, SWISS_CTRL_EMPTY, SWISS_CTRL_DELETED; destruct emp; lia).
  assert (Ht1 : table k (put_slot m0 idx b e')).
  { apply swiss_table_put; [done|done| | |done].
    - unfold b. destruct emp; auto.
    - intros g (i & x & Hir & Hx). rewrite (slot_put k) in Hx by (apply Ht0 || done).
      case_decide as Hd; [|by exists i, x]. injection Hx as Hb _. assert (emp = true) as Hemp.
      { unfold b in Hb. by destruct emp. }
      unfold emp in Hemp. apply negb_true_iff, Z.eqb_neq in Hemp. apply Hem in Hemp.
      assert (idx / 16 = g) as <-; [|done]. rewrite <- Hd, Z.div_add_l by lia. rewrite Z.div_small; lia. }
  assert (Hm1 : mapping (put_slot m0 idx b e') = delete key (mapping m)).
  { unfold mapping. rewrite slots_put. pose proof (proj2 (proj1 (slot_zip k m idx c e Hs) Hsl)) as Hz.
    apply (table_map_delete _ _ _ (c, e) _ _ (e_val e)); [by apply (table_distinct k)| |done| |].
    - change (slots_of m) with (slots_of m0). rewrite <- slots_put. by apply (table_distinct k).
    - unfold binding. cbn. by destruct (b <? 128).
    - destruct (binding_full k m idx c e Ht Hsl Hfc) as (x & Hx & Hb). rewrite Hb. congruence. }
  destruct (full_not_empty _ Hfc) as (_ & _ & Hif & Hid).
  assert (Hcnt : count is_full (ctrl (put_slot m0 idx b e')) = s_size m - 1 /\
    count is_deleted (ctrl (put_slot m0 idx b e')) = tombstones m + b2z (negb emp)).
  { cbn [put_slot ctrl m0 set_probe_len]. rewrite !(count_insert _ _ _ c) by done. rewrite <- Hsz, <- Hto, Hif, Hid.
    unfold b. destruct emp; cbn; lia. }
  destruct Hcnt as [H1 H2]. eexists. split; [done|].
  destruct emp; cbn [negb b2z] in H2; (split; [|exact Hm1]);
    (constructor; [by apply set_counts_table|cbn in *; lia..]).
Qed.

(** ** The rehash *)

Lemma binding_cons s l : table_map binding (s :: l) =
  match binding s with Some (x, v) => <[x := v]> (table_map binding l) | None => table_map binding l end.
Proof. unfold table_map. cbn. by destruct (binding s) as [[x v]|]. Qed.

(** The table being filled has no tombstone. *)
Record filling (k : nat) (tmp : NuwanSwissMap) : Prop := {
  fl_table : table k tmp;
  fl_size : s_size tmp = count is_full (ctrl tmp);
  fl_tomb : count is_deleted (ctrl tmp) = 0
}.

Lemma filling_wf k m : filling k m -> s_size m <= 14 * 2 ^ Z.of_nat k ->
  swiss_wf k (set_counts m (s_size m) 0 (14 * 2 ^ Z.of_nat k - s_size m)).
Proof.
  intros [Ht Hs Hd] Hl. constructor; cbn [set_counts s_size tombstones growth_left ctrl]; try done; try lia.
  by apply set_counts_table.
Qed.

Lemma filling_has_empty k m : filling k m -> s_size m <= 14 * 2 ^ Z.of_nat k ->
  exists g, 0 <= g < 2 ^ Z.of_nat k /\ has_empty m g.
Proof. intros Hf Hl. apply (wf_has_empty k _ (filling_wf k m Hf Hl)). Qed.

(** The first free slot of the sequence. *)
Lemma rehash_probe_spec k m key n : filling k m -> (exists g, 0 <= g < 2 ^ Z.of_nat k /\ has_empty m g) ->
  forall i fuel, 0 <= i -> Z.of_nat n + i = 2 ^ Z.of_nat k -> (n <= fuel)%nat ->
  (forall j, 0 <= j < i -> ~ has_empty m (probe_at (2 ^ Z.of_nat k) (swiss_h1 (swiss_hash key)) j)) ->
  exists idx, rehash_probe fuel m (2 ^ Z.of_nat k - 1) (probe_at (2 ^ Z.of_nat k) (swiss_h1 (swiss_hash key)) i) i = Ok idx /\
    insertable k m key idx.
Proof.
  intros Hfl (g & Hg & Hge). pose proof (fl_table _ _ Hfl) as Ht.
  destruct (probe_covers k (swiss_h1 (swiss_hash key)) g Hg) as (jg & Hjg & Hgj).
  induction n as [|n IH]; intros i fuel Hi Hni Hf Hs.
  { exfalso. apply (Hs jg); [lia|]. by rewrite Hgj. }
  destruct fuel as [|fuel]; [lia|]. cbn [rehash_probe]. set (G := probe_at _ _ i).
  destruct (Z.eqb_spec (swiss_match_empty_or_deleted (group_at m G)) 0) as [Hz|Hz]; cbn [negb].
  - unfold G. rewrite probe_next by done. apply IH; [lia|lia|lia|]. intros j Hj.
    destruct (Z.eq_dec j i) as [->|]; [|apply Hs; lia]. intros (b & e & Hb & Hc).
    pose proof (mask_zero k m _ _ _ _ _ (tb_shape _ _ Ht) (group_range k key i) Hz Hb Hc). done.
  - destruct (free_first k m key Ht i Hz) as (b & c & e & Hb & Hc & Hnf & Hg'). fold G in Hb. rewrite Hb. cbn [obind]. eexists. split; [done|].
    exists i, c, e. split_and!; [split; [lia|done]|done|done|done].
Qed.

Lemma rehash_one_ok k fuel tmp c e key : filling k tmp -> s_size tmp <= 14 * 2 ^ Z.of_nat k ->
  (Z.to_nat (2 ^ Z.of_nat k) <= fuel)%nat -> full c -> e_key e = Some key -> e_hash e = swiss_hash key ->
  mapping tmp !! key = None ->
  exists tmp', rehash_one fuel (c, e) tmp = Ok tmp' /\ filling k tmp' /\ s_cap tmp' = s_cap tmp /\
    s_size tmp' = s_size tmp + 1 /\ mapping tmp' = <[key := e_val e]> (mapping tmp).
Proof.
  intros Hfl Hsz Hfuel Hf Hk Hh Hno. pose proof (fl_table _ _ Hfl) as Ht. pose proof (tb_shape _ _ Ht) as Hs.
  unfold rehash_one. assert (Z.land c 128 = 0) as ->.
  { apply Z.bits_inj'. intros i Hi. rewrite Z.land_spec, Z.bits_0. change 128 with (2 ^ 7).
    destruct (Z.eq_dec i 7) as [->|]; [|by rewrite Z.pow2_bits_false, andb_false_r by lia].
    by rewrite (proj2 (byte_high c (or_introl Hf))). }
  cbn [negb Z.eqb]. pose proof (N_pos k). unfold SWISS_GROUP_SIZE. rewrite (sh_cap _ _ Hs), Z.mul_comm, Z.div_mul by lia.
  rewrite probe_start, Hh.
  assert (Hnh : forall i, ~ holds tmp i key).
  { intros i (c' & e' & Hc' & Hf' & Hk'). by rewrite (mapping_holds k tmp i c' e' key) in Hno. }
  destruct (rehash_probe_spec k tmp key (Z.to_nat (2 ^ Z.of_nat k)) Hfl (filling_has_empty k tmp Hfl Hsz) 0 fuel)
    as (idx & -> & n & b & e0 & Ha & Hgr & Hs0 & Hnf); [lia|lia|lia|lia|].
  cbn [obind]. destruct (slot_range k tmp idx b e0 Hs Hs0) as (Hi & Hb & He).
  pose proof (h2_full (swiss_hash key)) as Hf2. destruct (full_not_empty _ Hf2) as (_ & _ & Hif & Hid).
  assert (Ht1 : table k (put_slot tmp idx (swiss_h2 (swiss_hash key)) e)).
  { apply swiss_table_put; [done|done|by left|by apply (put_full_empty k)|]. intros _. split.
    - exists key, n. rewrite Hh. split_and!; done.
    - intros x j Hx _. assert (x = key) as -> by congruence. apply Hnh. }
  assert (Hbd : is_full b = false /\ is_deleted b = false).
  { split; [apply not_true_iff_false; unfold is_full; by rewrite (byte_full b (sh_byte _ _ Hs _ _ _ Hs0))|].
    destruct (is_deleted b) eqn:E; [|done]. pose proof (fl_tomb _ _ Hfl) as H0.
    pose proof (count_insert is_deleted (ctrl tmp) (Z.to_nat idx) b SWISS_CTRL_EMPTY Hb) as Hci.
    rewrite E, H0 in Hci. pose proof (count_nonneg is_deleted (<[Z.to_nat idx:=SWISS_CTRL_EMPTY]> (ctrl tmp))).
    unfold is_deleted in Hci at 2. cbn in Hci. lia. }
  destruct Hbd as [Hbf Hbd]. eexists. split; [done|].
  split; [|split; [pose proof (sh_cap _ _ Hs); cbn; lia|split; [done|]]].
  - constructor; [by apply set_counts_table| |]; cbn [set_counts put_slot s_size ctrl];
      rewrite (count_insert _ _ _ b) by done; rewrite ?Hif, ?Hid, ?Hbf, ?Hbd, <- ?(fl_size _ _ Hfl), ?(fl_tomb _ _ Hfl); cbn; lia.
  - change (mapping (set_counts ?x _ _ _)) with (mapping x). unfold mapping. rewrite slots_put.
    pose proof (proj2 (proj1 (slot_zip k tmp idx b e0 Hs) Hs0)) as Hz.
    apply (table_map_insert _ _ _ (b, e0)); [by apply (table_distinct k)| |done| |].
    + rewrite <- slots_put. by apply (table_distinct k).
    + unfold binding. cbn. unfold is_full in Hif. by rewrite Hif, Hk.
    + intros x u Hx. destruct (binding_holds k tmp idx _ _ _ Ht Hs0 Hx) as [? _]. done.
Qed.

Lemma rehash_all k k0 m fuel : table k0 m -> (Z.to_nat (2 ^ Z.of_nat k) <= fuel)%nat ->
  forall rest tmp, (forall s, s ∈ rest -> exists i, slot m i = Some s) -> distinct binding rest -> filling k tmp ->
  (forall key v, (exists s, s ∈ rest /\ binding s = Some (key, v)) -> mapping tmp !! key = None) ->
  s_size tmp + count (fun s => is_full s.1) rest <= 14 * 2 ^ Z.of_nat k ->
  exists tmp', ofold (rehash_one fuel) rest tmp = Ok tmp' /\ filling k tmp' /\ s_cap tmp' = s_cap tmp /\
    s_size tmp' = s_size tmp + count (fun s => is_full s.1) rest /\
    mapping tmp' = table_map binding rest ∪ mapping tmp.
Proof.
  intros Htm Hfuel. induction rest as [|[c e] rest IH]; intros tmp Hin Hd Hfl Hno Hsz; cbn [ofold].
  { exists tmp. split_and!; [done|done|done|unfold count; cbn; lia|]. unfold table_map. cbn. by rewrite (left_id_L ∅ (∪)). }
  pose proof (distinct_tail _ _ _ Hd) as Hd'. rewrite count_cons in *. cbn [fst] in *.
  pose proof (count_nonneg (fun s => is_full s.1) rest).
  assert (Hin' : forall s, s ∈ rest -> exists i, slot m i = Some s) by (intros s Hs; apply Hin; by right).
  assert (Hno' : forall key v, (exists s, s ∈ rest /\ binding s = Some (key, v)) -> mapping tmp !! key = None).
  { intros x v (s & Hs & Hb). apply (Hno x v). exists s. split; [by right|done]. }
  destruct (Hin (c, e) ltac:(left)) as [i Hi]. pose proof (sh_byte _ _ (tb_shape _ _ Htm) _ _ _ Hi) as Hbyte.
  rewrite binding_cons. destruct (is_full c) eqn:Efull; cbn [b2z] in *.
  - assert (full c) as Hf by (by apply (byte_full c)).
    destruct (tb_entry _ _ Htm _ _ _ Hi Hf) as (key & n & Hk & Hh & _).
    assert (Hb : binding (c, e) = Some (key, e_val e)).
    { unfold binding. cbn. unfold is_full in Efull. by rewrite Efull, Hk. }
    destruct (rehash_one_ok k fuel tmp c e key) as (t1 & -> & Hfl1 & Hc1 & Hs1 & Hm1); [done|lia|done|done|done|done| |].
    { apply (Hno key (e_val e)). exists (c, e). split; [left|done]. }
    cbn [obind]. destruct (IH t1) as (t2 & Ht2 & Hfl2 & Hc2 & Hs2 & Hm2); [done|done|done| |lia|].
    { intros x v (s & Hs & Hbs). rewrite Hm1. rewrite lookup_insert_ne; [by apply (Hno' x v); exists s|].
      intros <-. apply list_elem_of_lookup in Hs as [j Hj].
      by specialize (Hd 0%nat (S j) (c, e) s key (e_val e) v eq_refl Hj Hb Hbs). }
    exists t2. split_and!; [done|done|congruence|lia|]. rewrite Hm2, Hm1, Hb.
    rewrite <- insert_union_l. symmetry. apply insert_union_r.
    apply table_map_None; [done|]. intros s v Hs Hbs. apply list_elem_of_lookup in Hs as [j Hj].
    by specialize (Hd 0%nat (S j) (c, e) s key (e_val e) v eq_refl Hj Hb Hbs).
  - assert (~ full c) as Hnf by (rewrite <- (byte_full c) by done; unfold is_full in Efull; congruence).
    unfold rehash_one at 1. assert (Hl : Z.land c 128 <> 0) by (destruct Hbyte as [?|[->| ->]]; done).
    rewrite (proj2 (Z.eqb_neq _ _)) by done. cbn [negb obind].
    destruct (IH tmp) as (t2 & Ht2 & Hfl2 & Hc2 & Hs2 & Hm2); [done|done|done|done|lia|].
    exists t2. split_and!; [done|done|done|lia|]. rewrite Hm2. unfold binding at 2. cbn. unfold is_full in Efull. by rewrite Efull.
Qed.

Definition fresh_swiss (k : nat) (a : bool) (n : Z) : NuwanSwissMap :=
  mkSwiss a (repeat SWISS_CTRL_EMPTY (Z.to_nat (16 * 2 ^ Z.of_nat k)))
    (repeat (mkSwissEntry 0 None 0) (Z.to_nat (16 * 2 ^ Z.of_nat k))) (16 * 2 ^ Z.of_nat k) 0 0
    (swiss_max_load (16 * 2 ^ Z.of_nat k)) n.

Lemma repeat_lookup_Some {A} (x y : A) n i : repeat x n !! i = Some y -> y = x.
Proof. intros H%list_elem_of_lookup_2%list_elem_of_In. by apply List.repeat_spec in H. Qed.

Lemma count_repeat_false {A} (p : A -> bool) x n : p x = false -> count p (repeat x n) = 0.
Proof. intros H. induction n as [|n IH]; [done|]. cbn [repeat]. by rewrite count_cons, H, IH. Qed.

Lemma fresh_swiss_wf k a n : swiss_wf k (fresh_swiss k a n) /\ mapping (fresh_swiss k a n) = ∅.
Proof.
  pose proof (N_pos k). assert (Hbyte : forall i c e, slot (fresh_swiss k a n) i = Some (c, e) -> c = SWISS_CTRL_EMPTY).
  { intros i c e. unfold slot, fresh_swiss. cbn. destruct (i <? 0); [done|].
    destruct (repeat SWISS_CTRL_EMPTY _ !! _) as [x|] eqn:E; [|done]. apply repeat_lookup_Some in E as ->.
    destruct (repeat _ _ !! _); [|done]. by intros [= <- _]. }
  assert (Hs : shape k (fresh_swiss k a n)).
  { constructor; cbn [fresh_swiss s_cap ctrl entries]; rewrite ?repeat_length; [done|lia|lia|].
    intros i c e Hc. right. left. by apply (Hbyte i c e). }
  assert (Hnf : ~ full SWISS_CTRL_EMPTY) by (unfold full, SWISS_CTRL_EMPTY; lia).
  assert (Ht : table k (fresh_swiss k a n)).
  { constructor; [done| |].
    - intros i c e Hc. by rewrite (Hbyte i c e Hc).
    - intros i j key (c & e & Hc & Hf & _). by rewrite (Hbyte i c e Hc) in Hf. }
  split.
  - constructor; cbn [fresh_swiss s_size tombstones growth_left ctrl]; rewrite ?count_repeat_false, ?max_load_eq by done; try done; lia.
  - apply map_eq. intros key. rewrite lookup_empty. apply (mapping_absent k); [done|].
    intros i (c & e & Hc & Hf & _). by rewrite (Hbyte i c e Hc) in Hf.
Qed.

(** What [swiss_rehash] does once it has the new arrays is right: every
    entry finds a free slot in its probe sequence, the finite map is the same,
    and no tombstone is left. *)
Theorem rehash_into_refines k k' m fuel :
  swiss_wf k m -> s_size m <= 14 * 2 ^ Z.of_nat k' -> (Z.to_nat (2 ^ Z.of_nat k') <= fuel)%nat ->
  exists m', rehash_into fuel m (fresh_swiss k' true 0) = Ok m' /\ swiss_wf k' m' /\ mapping m' = mapping m /\
    tombstones m' = 0.
Proof.
  intros [Ht Hsz Hto Hg Hl] Hroom Hfuel. destruct (fresh_swiss_wf k' true 0) as [[Ft Fs Fto _ _] Fm].
  pose proof (tb_shape _ _ Ht) as Hs. unfold rehash_into.
  assert (Hcount : count (fun s => is_full s.1) (zip (ctrl m) (entries m)) = s_size m).
  { rewrite Hsz. pose proof (sh_ctrl _ _ Hs). pose proof (sh_entries _ _ Hs).
    assert (length (ctrl m) = length (entries m)) as Hlen by lia. clear -Hlen. revert Hlen. generalize (entries m).
    induction (ctrl m) as [|c l IH]; intros [|e l'] Hlen; try done. cbn [zip_with]. rewrite !count_cons.
    injection Hlen as Hlen. by rewrite (IH l' Hlen). }
  destruct (rehash_all k' k m fuel Ht Hfuel (zip (ctrl m) (entries m)) (fresh_swiss k' true 0)) as (t & Hr & Hfl & Hc & Hs' & Hm).
  - intros s [i Hi]%list_elem_of_lookup. exists (Z.of_nat i). by apply (slot_nat k).
  - by apply (table_distinct k).
  - constructor; [done|done|by rewrite <- Fto].
  - intros key v _. by rewrite Fm.
  - rewrite Hcount. cbn. lia.
  - rewrite Hr. cbn [obind]. eexists. split; [done|]. rewrite Hcount in Hs'. cbn [fresh_swiss s_size] in Hs'.
    rewrite Fm, (right_id_L ∅ (∪)) in Hm. cbn [fresh_swiss s_cap] in Hc.
    destruct Hfl as [Ht' Hsz' Hd']. split; [|split; [|done]].
    + constructor; cbn [s_size tombstones growth_left ctrl]; try done.
      * by apply (table_same k' t).
      * rewrite Hc, max_load_eq. lia.
      * rewrite Hc, max_load_eq. lia.
    + exact Hm.
Qed.

(** ** Where the map fails *)

(** A new map filled with the pairs of a list, as long as every put succeeds. *)
Definition put_pairs (kvs : list (cstr * Z)) (m : NuwanSwissMap) : outcome NuwanSwissMap :=
  ofold (fun kv m => let! r := nuwan_swiss_put 0 (Some m) (Some kv.1) kv.2 true (Some kv.1) in
                     match r with (Some m, true) => Ok m | _ => Undef end) kvs m.

Definition new_filled (kvs : list (cstr * Z)) : outcome NuwanSwissMap :=
  let! m := nuwan_swiss_new true true in
  match m with Some m => put_pairs kvs m | None => Undef end.

Lemma put_pairs_ok kvs : forall m, swiss_wf 0 m -> tombstones m = 0 -> base.NoDup kvs.*1 ->
  (forall key, key ∈ kvs.*1 -> mapping m !! key = None) -> s_size m + Z.of_nat (length kvs) <= 14 ->
  exists m', put_pairs kvs m = Ok m' /\ swiss_wf 0 m' /\ tombstones m' = 0 /\ mapping m' = list_to_map kvs ∪ mapping m /\
    s_size m' = s_size m + Z.of_nat (length kvs).
Proof.
  induction kvs as [|[key v] kvs IH]; intros m Hwf Hto Hnd Hfr Hlen.
  { exists m. split_and!; try done; [by rewrite list_to_map_nil, (left_id_L ∅ (∪))|cbn; lia]. }
  cbn [fmap list_fmap fst] in Hnd. apply list.NoDup_cons in Hnd as [Hk Hnd]. cbn [length] in Hlen.
  pose proof (sw_growth _ _ Hwf) as Hg. cbn in Hg.
  destruct (put_ok 0 m key v 0 true Hwf) as (m1 & Hp & Hw1 & Hm1 & Ht1); [lia|].
  pose proof (count_nonneg is_deleted (ctrl m1)) as Hnn. rewrite <- (sw_tomb _ _ Hw1) in Hnn.
  assert (Hs1 : s_size m1 = s_size m + 1).
  { rewrite (size_mapping 0 m1 Hw1), (size_mapping 0 m Hwf), Hm1, map_size_insert, (Hfr key) by (cbn; left). lia. }
  destruct (IH m1 Hw1) as (m' & Hf & Hw' & Ht' & Hm' & Hs'); [lia|done| |lia|].
  { intros x Hx. rewrite Hm1, lookup_insert_ne by (intros ->; done). apply Hfr. cbn. by right. }
  exists m'. unfold put_pairs in *. cbn [ofold fst snd]. rewrite Hp. cbn [obind]. split_and!; try done; [|cbn [length]; lia].
  cbn [list_to_map foldr fst snd]. rewrite Hm', Hm1, <- insert_union_l, <- insert_union_r; [done|]. by apply not_elem_of_list_to_map_1.
Qed.

(** C40: the Swiss table takes fourteen keys and no more.  Into a new map, with
    memory for it and for the copies of the keys, any list of at most
    fourteen different keys goes: every put succeeds, and the table stands
    for exactly the map of the list, without tombstones.  After the
    fourteenth every further put is undefined, of a new key and of one already
    there, whatever memory is left: the rehash allocates from a temporary table
    whose arena is the null pointer.  Nothing but that is missing: with the
    arrays of the doubled capacity in the temporary table, the loop of the
    rehash ends, moves every entry to a free slot of its probe sequence and
    leaves the same map, without tombstones and with room for fourteen more. *)
Theorem swiss_fills_to_limit kvs :
  base.NoDup kvs.*1 -> (length kvs <= 14)%nat ->
  exists m, new_filled kvs = Ok m /\ swiss_wf 0 m /\ mapping m = list_to_map kvs /\ tombstones m = 0 /\
    (length kvs = 14%nat ->
       (forall fuel key v mem ak, nuwan_swiss_put fuel (Some m) (Some key) v mem ak = Undef) /\
       (forall fuel, (2 <= fuel)%nat -> exists m', rehash_into fuel m (fresh_swiss 1 true 0) = Ok m' /\ swiss_wf 1 m' /\
          mapping m' = list_to_map kvs /\ tombstones m' = 0 /\ growth_left m' = 14)).
Proof.
  intros Hnd Hlen. destruct (fresh_swiss_wf 0 true 0) as [Hwf0 Hm0].
  destruct (put_pairs_ok kvs (fresh_swiss 0 true 0)) as (m & Hf & Hwf & Hto & Hm & Hs); [done|done|done| |cbn; lia|].
  { intros key _. by rewrite Hm0. }
  rewrite Hm0, (right_id_L ∅ (∪)) in Hm. cbn [fresh_swiss s_size] in Hs. exists m. split_and!; try done.
  intros H14. pose proof (sw_growth _ _ Hwf) as Hg. cbn in Hg. split.
  - intros fuel key v mem ak. unfold nuwan_swiss_put. rewrite (proj2 (Z.eqb_eq _ _)) by lia.
    unfold swiss_rehash_or_grow, swiss_rehash, swiss_alloc_arrays. destruct (_ && _); done.
  - intros fuel Hfuel. destruct (rehash_into_refines 0 1 m fuel Hwf) as (m' & Hr & Hw' & Hm' & Ht'); [cbn; lia|cbn; lia|].
    exists m'. split_and!; try done; [by rewrite Hm'|].
    pose proof (sw_growth _ _ Hw') as Hg'. cbn in Hg'. rewrite (size_mapping 1 m' Hw'), Hm', <- (size_mapping 0 m Hwf) in Hg'. lia.
Qed.

(** Reserving room for fifteen entries is undefined as well. *)
Lemma swiss_reserve_undefined : nuwan_swiss_new_reserved 10 true true 15 = Undef.
Proof. reflexivity. Qed.

(** ** Concrete maps *)

Definition letters (n : nat) : list cstr := map (fun i => [ascii_of_nat (97 + i)]) (seq 0 n).

Definition ex_swiss : NuwanSwissMap := fresh_swiss 0 true 0.

Lemma ex_swiss_wf : swiss_wf 0 ex_swiss.
Proof. apply fresh_swiss_wf. Qed.

Definition ex_pairs : list (cstr * Z) := map (fun key => (key, 1)) (letters 14).

Lemma swiss_fills_to_limit_witness :
  exists m, new_filled ex_pairs = Ok m /\ mapping m !! (lit "c") = Some 1 /\
    nuwan_swiss_put 100 (Some m) (Some (lit "a")) 2 true (Some (lit "a")) = Undef.
Proof.
  destruct (swiss_fills_to_limit ex_pairs) as (m & Hf & _ & Hm & _ & H14); [by apply (bool_decide_unpack _)|vm_compute; lia|].
  exists m. split; [exact Hf|]. split; [rewrite Hm; vm_compute; reflexivity|]. by apply H14.
Defined.

Lemma swiss_put_refines_witness : exists m',
  nuwan_swiss_put 1 (Some ex_swiss) (Some (lit "k")) 7 true (Some (lit "k")) = Ok (Some m', true) /\ swiss_wf 0 m' /\
  mapping m' = <[lit "k" := 7]> (mapping ex_swiss).
Proof. apply (swiss_put_refines 0 ex_swiss (lit "k") 7 1 true ex_swiss_wf). vm_compute. discriminate. Defined.

Lemma swiss_get_refines_witness : exists n,
  nuwan_swiss_get (Some ex_swiss) (Some (lit "k")) = Ok (Some (set_probe_len ex_swiss n), 0).
Proof. destruct (swiss_get_refines 0 ex_swiss (lit "k") ex_swiss_wf) as (n & _ & H & _). exists n. exact H. Defined.

Lemma swiss_remove_refines_witness : exists m',
  nuwan_swiss_remove (Some ex_swiss) (Some (lit "k")) = Ok (Some m', false) /\ swiss_wf 0 m'.
Proof. destruct (swiss_remove_refines 0 ex_swiss (lit "k") ex_swiss_wf) as (m' & H1 & H2 & _). exists m'. split; [exact H1|exact H2]. Defined.

Lemma rehash_into_refines_witness : exists m',
  rehash_into 2 ex_swiss (fresh_swiss 1 true 0) = Ok m' /\ swiss_wf 1 m' /\ mapping m' = mapping ex_swiss.
Proof.
  destruct (rehash_into_refines 0 1 ex_swiss 2 ex_swiss_wf) as (m' & H1 & H2 & H3 & _); [vm_compute; discriminate|vm_compute; lia|].
  exists m'. split; [exact H1|]. split; [exact H2|exact H3].
Defined.
