(* ===== verification/CArray.v ===== *)
(** * Arrays of 64-bit integers

    Element access and the copying functions of the C library, undefined
    outside the array. *)
From S2P Require Import Prelude.

(** [a[i]], [a[i] = v] and [memmove(a + dst, a + src, n * sizeof *a)] inside the array. *)
Definition load (a : list Z) (i : Z) : outcome Z :=
  if i <? 0 then Undef else of_option (a !! Z.to_nat i).

Definition store (a : list Z) (i v : Z) : outcome (list Z) :=
  if (0 <=? i) && (i <? Z.of_nat (length a)) then Ok (<[Z.to_nat i := v]> a) else Undef.

Definition memmove (a : list Z) (dst src n : Z) : outcome (list Z) :=
  if (0 <=? dst) && (0 <=? src) && (0 <=? n) && (dst + n <=? Z.of_nat (length a)) && (src + n <=? Z.of_nat (length a))
  then Ok (take (Z.to_nat dst) a ++ take (Z.to_nat n) (drop (Z.to_nat src) a) ++ drop (Z.to_nat (dst + n)) a)
  else Undef.

(** [memcpy(nd, d, n * sizeof *d)] into a fresh array. *)
Definition memcpy (nd d : list Z) (n : Z) : outcome (list Z) :=
  if (0 <=? n) && (n <=? Z.of_nat (length d)) && (n <=? Z.of_nat (length nd))
  then Ok (take (Z.to_nat n) d ++ drop (Z.to_nat n) nd) else Undef.

Lemma load_Some a i x : 0 <= i -> a !! Z.to_nat i = Some x -> load a i = Ok x.
Proof. intros Hi Hx. unfold load. destruct (Z.ltb_spec i 0); [lia|]. by rewrite Hx. Qed.

Lemma load_in a i : 0 <= i < Z.of_nat (length a) -> exists x, load a i = Ok x /\ a !! Z.to_nat i = Some x.
Proof.
  intros Hi. destruct (lookup_lt_is_Some_2 a (Z.to_nat i)) as [x Hx]; [lia|]. exists x. split; [|done].
  apply load_Some; [lia|done].
Qed.

Lemma store_in a i v : 0 <= i < Z.of_nat (length a) -> store a i v = Ok (<[Z.to_nat i := v]> a).
Proof. intros Hi. unfold store. by rewrite (proj2 (Z.leb_le _ _)), (proj2 (Z.ltb_lt _ _)) by lia. Qed.

Lemma memmove_in a dst src n : 0 <= dst -> 0 <= src -> 0 <= n -> dst + n <= Z.of_nat (length a) -> src + n <= Z.of_nat (length a) ->
  memmove a dst src n = Ok (take (Z.to_nat dst) a ++ take (Z.to_nat n) (drop (Z.to_nat src) a) ++ drop (Z.to_nat (dst + n)) a).
Proof. intros. unfold memmove. by rewrite !(proj2 (Z.leb_le _ _)) by lia. Qed.

(** ** Windows of a ring

    The elements of a circular array from one position on, used by the FIFO
    queue and the work-stealing deque. *)

(** The [n] elements from position [h] round the ring. *)
Fixpoint ring (d : list Z) (c h : Z) (n : nat) : list Z :=
  match n with O => [] | S n => default 0 (d !! Z.to_nat (h mod c)) :: ring d c (h + 1) n end.

Lemma ring_length d c n : forall h, length (ring d c h n) = n.
Proof. induction n as [|n IH]; intros h; simpl; [done|]. by rewrite IH. Qed.

Lemma ring_lookup d c n : forall h i, (i < n)%nat -> ring d c h n !! i = Some (default 0 (d !! Z.to_nat ((h + Z.of_nat i) mod c))).
Proof.
  induction n as [|n IH]; intros h i Hi; [lia|]. cbn [ring]. destruct i as [|i]; cbn [lookup list_lookup].
  - by rewrite Z.add_0_r.
  - change (list_lookup i (ring d c (h + 1) n)) with (ring d c (h + 1) n !! i). rewrite IH by lia.
    by replace (h + 1 + Z.of_nat i) with (h + Z.of_nat (S i)) by lia.
Qed.

Lemma ring_snoc d c n : forall h, ring d c h (S n) = ring d c h n ++ [default 0 (d !! Z.to_nat ((h + Z.of_nat n) mod c))].
Proof.
  induction n as [|n IH]; intros h; [cbn; by rewrite Z.add_0_r|].
  change (ring d c h (S (S n))) with (default 0 (d !! Z.to_nat (h mod c)) :: ring d c (h + 1) (S n)).
  rewrite IH. cbn [ring app]. by replace (h + 1 + Z.of_nat n) with (h + Z.of_nat (S n)) by lia.
Qed.

(** Two positions less than a turn apart are different slots. *)
Lemma mod_inj_window c h i j : 0 < c -> 0 <= i < c -> 0 <= j < c -> (h + i) mod c = (h + j) mod c -> i = j.
Proof.
  intros Hc Hi Hj H. assert ((i - j) mod c = 0) as H0.
  { replace (i - j) with ((h + i) - (h + j)) by lia. rewrite Zminus_mod, H, Z.sub_diag. done. }
  destruct (Z_lt_le_dec i j).
  - assert ((j - i) mod c = 0) as H1.
    { replace (j - i) with ((h + j) - (h + i)) by lia. rewrite Zminus_mod, H, Z.sub_diag. done. }
    rewrite Z.mod_small in H1 by lia. lia.
  - rewrite Z.mod_small in H0 by lia. lia.
Qed.

Lemma ring_put d c h n v : 0 < c -> Z.of_nat (length d) = c -> Z.of_nat n < c ->
  ring (<[Z.to_nat ((h + Z.of_nat n) mod c) := v]> d) c h (S n) = ring d c h n ++ [v].
Proof.
  intros Hc Hl Hn. rewrite ring_snoc. pose proof (Z.mod_pos_bound (h + Z.of_nat n) c Hc). f_equal.
  - apply list_eq. intros i. destruct (decide (i < n)%nat) as [Hi|Hi].
    + rewrite !ring_lookup by done. do 2 f_equal. pose proof (Z.mod_pos_bound (h + Z.of_nat i) c Hc).
      rewrite list_lookup_insert_ne; [done|]. intros E%Z2Nat.inj; [|lia..].
      apply mod_inj_window in E; lia.
    + rewrite !lookup_ge_None_2 by (rewrite ring_length; lia). done.
  - by rewrite list_lookup_insert_eq by lia.
Qed.

(** Writing outside the window does not change it. *)
Lemma ring_frame d c h n p v : 0 < c -> Z.of_nat n <= c -> (forall i, (i < n)%nat -> p mod c <> (h + Z.of_nat i) mod c) ->
  ring (<[Z.to_nat (p mod c) := v]> d) c h n = ring d c h n.
Proof.
  intros Hc Hn Hp. apply list_eq. intros i. destruct (decide (i < n)%nat) as [Hi|Hi].
  - rewrite !ring_lookup by done. do 2 f_equal. pose proof (Z.mod_pos_bound (h + Z.of_nat i) c Hc).
    pose proof (Z.mod_pos_bound p c Hc).
    rewrite list_lookup_insert_ne; [done|]. intros E%Z2Nat.inj; [|lia..]. by apply (Hp i).
  - by rewrite !lookup_ge_None_2 by (rewrite ring_length; lia).
Qed.
