(* ===== verification/NuwanList.v ===== *)
(** * Lists and stacks of the runtime

    [NuwanList] and [NuwanStack] of [src/runtime/stdlib/collections.c], and the
    array kernels they use: a growing array of 64-bit integers refines a list.
    A container that may be [NULL] is an option.  The arena's answer to a
    request for an array is the argument [mem]: an array with any contents, or
    [None]. *)
From Stdlib Require Import Sorting.Sorted.
From S2P Require Import Prelude CArray Sorting.

(** ** Array kernels *)

(** [if (a[i] > a[j]) swap] *)
Definition SWAP4 (i j : nat) (a : list Z) : list Z :=
  match a !! i, a !! j with
  | Some x, Some y => if y <? x then <[j := x]> (<[i := y]> a) else a
  | _, _ => a
  end.

Definition nuwan_array_sort_net4 (a : list Z) : list Z :=
  SWAP4 1 2 (SWAP4 1 3 (SWAP4 0 2 (SWAP4 2 3 (SWAP4 0 1 a)))).

(** An addition of the C code: undefined when it overflows. *)
Definition add64 (a b : Z) : outcome Z := of_option (sint64 (a + b)).

(** [for (; i + w <= n; i += w) sum_v = add(sum_v, load(&arr[i]))]: lanes wrap. *)
Fixpoint lane_sum (fuel : nat) (w : nat) (v arr : list Z) : list Z * list Z :=
  match fuel with
  | O => (v, arr)
  | S fuel =>
      if (w <=? length arr)%nat
      then lane_sum fuel w (zip_with (fun a b => s64 (a + b)) v (take w arr)) (drop w arr)
      else (v, arr)
  end.

Fixpoint scalar_sum (s : Z) (arr : list Z) : outcome Z :=
  match arr with [] => Ok s | x :: arr => let! s := add64 s x in scalar_sum s arr end.

(** [avx] is [cpu_has_avx2()]; the second block is the SSE2 one, always there
    on x86-64.  Each block leaves the rest of the array to the next. *)
Definition nuwan_array_sum_i64 (avx : bool) (arr : option (list Z)) (n : Z) : outcome Z :=
  match arr with
  | None => Ok 0
  | Some arr =>
      if n =? 0 then Ok 0 else
      let arr := take (Z.to_nat n) arr in
      let! r := (if avx then
                   let '(v, rest) := lane_sum (length arr) 4 [0; 0; 0; 0] arr in
                   let! s := scalar_sum 0 v in Ok (s, rest)
                 else Ok (0, arr)) in
      let '(v, rest) := lane_sum (length arr) 2 [0; 0] r.2 in
      let! t := scalar_sum 0 v in
      let! s := add64 r.1 t in
      scalar_sum s rest
  end.

(** ** Lists *)

Definition LIST_INIT_CAP : Z := 16.

(** [data] may be [NULL]: [nuwan_list_new] does not test it. *)
Record NuwanList := mkList { data : option (list Z); size : Z; cap : Z }.

Definition nuwan_list_new (alloc : bool) (mem : option (list Z)) : option NuwanList :=
  if alloc then Some (mkList mem 0 LIST_INIT_CAP) else None.

Definition nuwan_list_reserve (l : option NuwanList) (c : Z) (mem : option (list Z)) : outcome (option NuwanList * bool) :=
  match l with
  | None => Ok (l, true)
  | Some l =>
      if c <=? cap l then Ok (Some l, true) else
      match mem with
      | None => Ok (Some l, false)
      | Some nd =>
          let! nd := if size l =? 0 then Ok nd else let! d := of_option (data l) in memcpy nd d (size l) in
          Ok (Some (mkList (Some nd) (size l) c), true)
      end
  end.

Definition nuwan_list_push (l : option NuwanList) (v : Z) (mem : option (list Z)) : outcome (option NuwanList * bool) :=
  match l with
  | None => Ok (l, false)
  | Some l0 =>
      let! r := if size l0 =? cap l0 then nuwan_list_reserve l (u64 (cap l0 * 2)) mem else Ok (l, true) in
      match r with
      | (Some l, true) =>
          let! d := of_option (data l) in
          let! d := store d (size l) v in
          Ok (Some (mkList (Some d) (size l + 1) (cap l)), true)
      | (l, _) => Ok (l, false)
      end
  end.

Definition nuwan_list_get (l : option NuwanList) (idx : Z) : outcome Z :=
  match l with
  | None => Ok 0
  | Some l => if size l <=? idx then Ok 0 else let! d := of_option (data l) in load d idx
  end.

Definition nuwan_list_set (l : option NuwanList) (idx v : Z) : outcome (option NuwanList * bool) :=
  match l with
  | None => Ok (l, false)
  | Some l =>
      if size l <=? idx then Ok (Some l, false) else
      let! d := of_option (data l) in
      let! d := store d idx v in
      Ok (Some (mkList (Some d) (size l) (cap l)), true)
  end.

Definition nuwan_list_pop (l : option NuwanList) : outcome (option NuwanList * Z) :=
  match l with
  | None => Ok (l, 0)
  | Some l =>
      if size l =? 0 then Ok (Some l, 0) else
      let! d := of_option (data l) in
      let! v := load d (size l - 1) in
      Ok (Some (mkList (data l) (size l - 1) (cap l)), v)
  end.

Definition nuwan_list_remove (l : option NuwanList) (idx : Z) : outcome (option NuwanList * bool) :=
  match l with
  | None => Ok (l, false)
  | Some l =>
      if size l <=? idx then Ok (Some l, false) else
      let! d := of_option (data l) in
      let! d := memmove d idx (idx + 1) (size l - idx - 1) in
      Ok (Some (mkList (Some d) (size l - 1) (cap l)), true)
  end.

Definition nuwan_list_insert (l : option NuwanList) (idx v : Z) (mem : option (list Z)) : outcome (option NuwanList * bool) :=
  match l with
  | None => Ok (l, false)
  | Some l0 =>
      if size l0 <? idx then Ok (l, false) else
      let! r := nuwan_list_push l 0 mem in
      match r with
      | (Some l, true) =>
          let! d := of_option (data l) in
          let! d := memmove d (idx + 1) idx (size l - idx - 1) in
          let! d := store d idx v in
          Ok (Some (mkList (Some d) (size l) (cap l)), true)
      | (l, _) => Ok (l, false)
      end
  end.

Definition nuwan_list_size (l : option NuwanList) : Z := match l with Some l => size l | None => 0 end.
Definition nuwan_list_empty (l : option NuwanList) : bool := match l with Some l => size l =? 0 | None => true end.

Definition nuwan_list_clear (l : option NuwanList) : option NuwanList :=
  match l with Some l => Some (mkList (data l) 0 (cap l)) | None => None end.

Definition cmp_i64 (x y : Z) : Z := if x <? y then -1 else if y <? x then 1 else 0.

Section sort.
Context {Q : Qsort}.

Definition nuwan_list_sort (l : option NuwanList) : outcome (option NuwanList) :=
  match l with
  | None => Ok None
  | Some l =>
      if size l =? 0 then Ok (Some l) else
      let! d := of_option (data l) in
      let n := Z.to_nat (size l) in
      Ok (Some (mkList (Some (qsort cmp_i64 (take n d) ++ drop n d)) (size l) (cap l)))
  end.
End sort.

(** [while (lo < hi)] *)
Fixpoint search_loop (fuel : nat) (d : list Z) (v lo hi : Z) : outcome Z :=
  match fuel with
  | O => OutOfFuel
  | S fuel =>
      if lo <? hi then
        let mid := lo + (hi - lo) / 2 in
        let! x := load d mid in
        if x =? v then Ok mid
        else if x <? v then search_loop fuel d v (mid + 1) hi else search_loop fuel d v lo mid
      else Ok (-1)
  end.

Definition nuwan_list_binary_search (fuel : nat) (l : option NuwanList) (v : Z) : outcome Z :=
  match l with
  | None => Ok (-1)
  | Some l =>
      if size l =? 0 then Ok (-1) else
      let! d := of_option (data l) in search_loop fuel d v 0 (size l)
  end.

Definition nuwan_list_sum (avx : bool) (l : option NuwanList) : outcome Z :=
  match l with Some l => nuwan_array_sum_i64 avx (data l) (size l) | None => Ok 0 end.

(** ** Stacks: lists under another name *)

Definition nuwan_stack_push := nuwan_list_push.
Definition nuwan_stack_pop := nuwan_list_pop.

Definition nuwan_stack_peek (s : option NuwanList) : outcome Z :=
  match s with
  | None => Ok 0
  | Some s => if size s =? 0 then Ok 0 else let! d := of_option (data s) in load d (size s - 1)
  end.
