(* ===== verification/NuwanListFacts.v ===== *)
(** * Lists of the runtime refine lists *)
From Stdlib Require Import Sorting.Sorted.
From S2P Require Import Prelude CArray Sorting NuwanList.

(** ** The abstract list *)

Inductive op :=
| Push (v : Z) | Pop | Get (i : Z) | Set_ (i v : Z) | Remove (i : Z) | Insert (i v : Z) | Clear | Size | Empty | Peek
| Reserve (c : Z) | Sum | Sort | Search (v : Z).

(** [room]: the memory the operation needs is there. *)
Definition spec (room : bool) (o : op) (l : list Z) : list Z * Z :=
  let n := Z.of_nat (length l) in
  match o with
  | Push v => if room then (l ++ [v], 1) else (l, 0)
  | Pop => (take (length l - 1) l, default 0 (list.last l))
  | Get i => (l, default 0 (l !! Z.to_nat i))
  | Set_ i v => (<[Z.to_nat i := v]> l, b2z (i <? n))
  | Remove i => (delete (Z.to_nat i) l, b2z (i <? n))
  | Insert i v =>
      if (i <=? n) && room then (take (Z.to_nat i) l ++ v :: drop (Z.to_nat i) l, 1) else (l, 0)
  | Clear => ([], 0)
  | Size => (l, n)
  | Empty => (l, b2z (n =? 0))
  | Peek => (l, default 0 (list.last l))
  | Reserve _ => (l, b2z room)
  | Sum => (l, zsum l)
  | Sort | Search _ => (l, 0)
  end.

(** The list [l'] and the result [r] an operation on [l] may end with. *)
Definition meets (room : bool) (o : op) (l l' : list Z) (r : Z) : Prop :=
  match o with
  | Sort => l' ≡ₚ l /\ StronglySorted Z.le l'
  | Search v => l' = l /\ (r = -1 /\ v ∉ l \/ 0 <= r /\ l !! Z.to_nat r = Some v)
  | _ => (l', r) = spec room o l
  end.

(** [avx] is [cpu_has_avx2()]; the loop of the search gets as many turns as the
    list has elements, and one to leave. *)
Definition exec {Q : Qsort} (avx : bool) (o : op) (l : option NuwanList) (mem : option (list Z)) : outcome (option NuwanList * Z) :=
  match o with
  | Push v => let! r := nuwan_list_push l v mem in Ok (r.1, b2z r.2)
  | Pop => nuwan_list_pop l
  | Get i => let! v := nuwan_list_get l i in Ok (l, v)
  | Set_ i v => let! r := nuwan_list_set l i v in Ok (r.1, b2z r.2)
  | Remove i => let! r := nuwan_list_remove l i in Ok (r.1, b2z r.2)
  | Insert i v => let! r := nuwan_list_insert l i v mem in Ok (r.1, b2z r.2)
  | Clear => Ok (nuwan_list_clear l, 0)
  | Size => Ok (l, nuwan_list_size l)
  | Empty => Ok (l, b2z (nuwan_list_empty l))
  | Peek => let! v := nuwan_stack_peek l in Ok (l, v)
  | Reserve c => let! r := nuwan_list_reserve l c mem in Ok (r.1, b2z r.2)
  | Sum => let! v := nuwan_list_sum avx l in Ok (l, v)
  | Sort => let! l := nuwan_list_sort l in Ok (l, 0)
  | Search v => let! r := nuwan_list_binary_search (S (Z.to_nat (nuwan_list_size l))) l v in Ok (l, r)
  end.

Definition zabs (l : list Z) : Z := zsum (map Z.abs l).

(** Indices have type [size_t]; a capacity asked for fits as a number of
    bytes; a search needs a sorted list; a sum has to fit. *)
Definition op_ok (o : op) (l : list Z) : Prop :=
  match o with
  | Get i | Set_ i _ | Remove i | Insert i _ => 0 <= i
  | Reserve c => 0 <= c <= 2 ^ 60
  | Search _ => StronglySorted Z.le l
  | Sum => zabs l < 2 ^ 63
  | _ => True
  end.

Record list_wf (l : NuwanList) (d : list Z) : Prop := {
  lw_data : data l = Some d;
  lw_len : Z.of_nat (length d) = cap l;
  lw_size : 0 <= size l <= cap l;
  lw_cap : LIST_INIT_CAP <= cap l
}.

Definition elems (l : NuwanList) : list Z := take (Z.to_nat (size l)) (default [] (data l)).

Definition has_room (l : NuwanList) (mem : option (list Z)) : bool := (size l <? cap l) || opt_bool mem.

(** Whether [o] gets the memory it needs, and the entries it asks for. *)
Definition granted (o : op) (l : NuwanList) (mem : option (list Z)) : bool :=
  match o with Reserve c => (c <=? cap l) || opt_bool mem | _ => has_room l mem end.
Definition asked (o : op) (l : NuwanList) : Z := match o with Reserve c => c | _ => cap l * 2 end.

Definition mem_ok (n : Z) (mem : option (list Z)) : Prop := forall a, mem = Some a -> Z.of_nat (length a) = n.

Lemma elems_eq l d : list_wf l d -> elems l = take (Z.to_nat (size l)) d.
Proof. intros H. unfold elems. by rewrite (lw_data _ _ H). Qed.

Lemma elems_mk d n c : elems (mkList (Some d) n c) = take (Z.to_nat n) d.
Proof. done. Qed.

Lemma elems_length l d : list_wf l d -> length (elems l) = Z.to_nat (size l).
Proof.
  intros H. rewrite (elems_eq l d H), length_take. pose proof (lw_size _ _ H). pose proof (lw_len _ _ H). lia.
Qed.

Lemma elems_lookup l d i : list_wf l d -> 0 <= i < size l -> elems l !! Z.to_nat i = d !! Z.to_nat i.
Proof. intros H Hi. rewrite (elems_eq l d H). apply lookup_take_lt. lia. Qed.

(** Growing keeps the elements. *)
Lemma reserve_ok l d c mem : list_wf l d -> mem_ok c mem ->
  exists l' d' b, nuwan_list_reserve (Some l) c mem = Ok (Some l', b) /\ list_wf l' d' /\ elems l' = elems l /\
    size l' = size l /\ b = (c <=? cap l) || opt_bool mem /\ (b = true -> c <= cap l').
Proof.
  intros H Hm. unfold nuwan_list_reserve. destruct (Z.leb_spec c (cap l)) as [Hc|Hc].
  - exists l, d, true. by split_and!.
  - destruct mem as [nd|]; [|exists l, d, false; by split_and!].
    specialize (Hm nd eq_refl). pose proof (elems_eq l d H) as He. destruct H as [Hd Hl Hs Hcap]. rewrite Hd. cbn [of_option obind].
    destruct (Z.eqb_spec (size l) 0) as [Hz|Hz]; cbn [obind].
    + exists (mkList (Some nd) (size l) c), nd, true. split_and!; try done.
      * constructor; simpl; lia || done.
      * rewrite He. unfold elems. simpl. by rewrite Hz.
    + unfold memcpy. rewrite !(proj2 (Z.leb_le _ _)) by lia. cbn [andb obind].
      eexists _, _, true. split_and!; [done| | |done|done|done].
      * constructor; simpl; [done| |lia|lia]. rewrite length_app, length_take, length_drop. lia.
      * rewrite He. unfold elems. simpl. rewrite take_app_le by (rewrite length_take; lia).
        rewrite take_take. by rewrite Nat.min_id.
Qed.

Lemma push_ok l d v mem : list_wf l d -> cap l <= 2 ^ 61 -> mem_ok (cap l * 2) mem ->
  exists l' d' , nuwan_list_push (Some l) v mem = Ok (Some l', has_room l mem) /\ list_wf l' d' /\
    elems l' = (if has_room l mem then elems l ++ [v] else elems l) /\
    size l' = (if has_room l mem then size l + 1 else size l).
Proof.
  intros H Hcap Hm. pose proof (lw_size _ _ H) as Hs. pose proof (lw_cap _ _ H) as Hc0. unfold LIST_INIT_CAP in Hc0.
  unfold nuwan_list_push, has_room.
  assert (exists l1 d1 b, (if size l =? cap l then nuwan_list_reserve (Some l) (u64 (cap l * 2)) mem else Ok (Some l, true)) = Ok (Some l1, b) /\
    list_wf l1 d1 /\ elems l1 = elems l /\ size l1 = size l /\ b = (size l <? cap l) || opt_bool mem /\
    (b = true -> size l1 < cap l1)) as (l1 & d1 & b & -> & Hw & He & Hsz & -> & Hlt).
  { destruct (Z.eqb_spec (size l) (cap l)) as [Heq|Hne].
    - rewrite u64_small by word_lia. destruct (reserve_ok l d (cap l * 2) mem H Hm) as (l1 & d1 & b & Hr & Hw & He & Hsz & Hb & Hcb).
      exists l1, d1, b. destruct (Z.leb_spec (cap l * 2) (cap l)); [lia|]. destruct (Z.ltb_spec (size l) (cap l)); [lia|].
      split_and!; try done. intros Hbt. specialize (Hcb Hbt). lia.
    - exists l, d, true. destruct (Z.ltb_spec (size l) (cap l)); [|lia]. by split_and!. }
  cbn [obind]. destruct ((size l <? cap l) || opt_bool mem).
  - specialize (Hlt eq_refl). pose proof (lw_len _ _ Hw) as Hl1. rewrite (lw_data _ _ Hw). cbn [of_option obind].
    rewrite store_in by lia. cbn [obind]. eexists _, _. split_and!; [done| | |by rewrite Hsz].
    + constructor; simpl; [done|rewrite length_insert; done|lia|apply Hw].
    + rewrite <- He, (elems_eq l1 d1 Hw). unfold elems. simpl. rewrite Z2Nat.inj_add, Nat.add_1_r by lia.
      rewrite (take_S_r _ _ v) by (rewrite list_lookup_insert_eq; [done|lia]). by rewrite take_insert_ge by lia.
  - by exists l1, d1.
Qed.

Lemma data_length l d : list_wf l d -> Z.of_nat (length d) = cap l /\ 0 <= size l <= cap l /\ 0 < cap l.
Proof. intros [? ? ? H]. unfold LIST_INIT_CAP in H. lia. Qed.

Lemma last_index l d : list_wf l d -> size l <> 0 ->
  exists x, load d (size l - 1) = Ok x /\ list.last (elems l) = Some x.
Proof.
  intros H Hz. destruct (data_length l d H) as (Hl & Hs & _).
  destruct (load_in d (size l - 1)) as (x & Hx & Hd); [lia|]. exists x. split; [done|].
  rewrite last_lookup, (elems_length l d H), <- Hd, <- (elems_lookup l d _ H) by lia. f_equal. lia.
Qed.

Lemma pop_ok l d : list_wf l d ->
  exists l', nuwan_list_pop (Some l) = Ok (Some l', default 0 (list.last (elems l))) /\ list_wf l' d /\
    elems l' = take (length (elems l) - 1) (elems l).
Proof.
  intros H. destruct (data_length l d H) as (Hl & Hs & _). unfold nuwan_list_pop.
  destruct (Z.eqb_spec (size l) 0) as [Hz|Hz].
  - exists l. pose proof (elems_length l d H) as He. rewrite Hz in He. destruct (elems l) eqn:E; [|done]. done.
  - destruct (last_index l d H Hz) as (x & Hx & Hla). rewrite (lw_data _ _ H). cbn [of_option obind]. rewrite Hx.
    cbn [obind]. rewrite Hla. eexists. split; [done|]. destruct H as [Hd ? ? ?]. split.
    + constructor; simpl; done || lia.
    + unfold elems. cbn [data size default]. rewrite Hd. cbn [default]. rewrite length_take, take_take.
      unfold id. f_equal. lia.
Qed.

Lemma get_ok l d i : list_wf l d -> 0 <= i -> nuwan_list_get (Some l) i = Ok (default 0 (elems l !! Z.to_nat i)).
Proof.
  intros H Hi. destruct (data_length l d H) as (Hl & Hs & _). unfold nuwan_list_get.
  destruct (Z.leb_spec (size l) i) as [Hle|Hlt].
  - rewrite lookup_ge_None_2; [done|]. rewrite (elems_length l d H). lia.
  - destruct (load_in d i) as (x & Hx & Hd); [lia|]. rewrite (lw_data _ _ H). cbn [of_option obind].
    by rewrite Hx, (elems_lookup l d), Hd by (done || lia).
Qed.

Lemma set_ok l d i v : list_wf l d -> 0 <= i ->
  exists l' d', nuwan_list_set (Some l) i v = Ok (Some l', i <? size l) /\ list_wf l' d' /\
    elems l' = <[Z.to_nat i := v]> (elems l).
Proof.
  intros H Hi. destruct (data_length l d H) as (Hl & Hs & _). unfold nuwan_list_set.
  destruct (Z.leb_spec (size l) i) as [Hle|Hlt].
  - exists l, d. rewrite (proj2 (Z.ltb_ge _ _)) by lia. split_and!; [done|done|].
    rewrite list_insert_ge; [done|]. rewrite (elems_length l d H). lia.
  - rewrite (lw_data _ _ H). cbn [of_option obind]. rewrite store_in by lia. cbn [obind].
    rewrite (proj2 (Z.ltb_lt _ _)) by lia. eexists _, _. split_and!; [done| |].
    + destruct H. constructor; simpl; [done|by rewrite length_insert|done|done].
    + rewrite (elems_eq l d H). unfold elems. simpl. by rewrite take_insert_lt by lia.
Qed.

Lemma remove_ok l d i : list_wf l d -> 0 <= i ->
  exists l' d', nuwan_list_remove (Some l) i = Ok (Some l', i <? size l) /\ list_wf l' d' /\
    elems l' = delete (Z.to_nat i) (elems l).
Proof.
  intros H Hi. destruct (data_length l d H) as (Hl & Hs & _). unfold nuwan_list_remove.
  destruct (Z.leb_spec (size l) i) as [Hle|Hlt].
  - exists l, d. rewrite (proj2 (Z.ltb_ge _ _)) by lia. split_and!; [done|done|].
    rewrite delete_take_drop, drop_ge, take_ge, app_nil_r by (rewrite (elems_length l d H); lia). done.
  - rewrite (lw_data _ _ H). cbn [of_option obind]. rewrite memmove_in by lia. cbn [obind].
    rewrite (proj2 (Z.ltb_lt _ _)) by lia. eexists _, _. split_and!; [done| |].
    + destruct H. constructor; simpl; [done| |lia|done].
      rewrite !length_app, !length_take, !length_drop. lia.
    + rewrite (elems_eq l d H), elems_mk.
      rewrite delete_take_drop, take_take, skipn_firstn_comm. rewrite Nat.min_l by lia.
      rewrite app_assoc, take_app_le, take_ge by (rewrite length_app, !length_take, length_drop; lia).
      do 2 f_equal; [lia|]. f_equal. lia.
Qed.

Lemma insert_ok l d i v mem : list_wf l d -> 0 <= i -> cap l <= 2 ^ 61 -> mem_ok (cap l * 2) mem ->
  exists l' d', nuwan_list_insert (Some l) i v mem = Ok (Some l', (i <=? size l) && has_room l mem) /\ list_wf l' d' /\
    elems l' = if (i <=? size l) && has_room l mem then take (Z.to_nat i) (elems l) ++ v :: drop (Z.to_nat i) (elems l)
               else elems l.
Proof.
  intros H Hi Hcap Hm. pose proof (elems_length l d H) as Hel. destruct (data_length l d H) as (Hl & Hs & _).
  unfold nuwan_list_insert. destruct (Z.ltb_spec (size l) i) as [Hlt|Hle].
  { exists l, d. by rewrite (proj2 (Z.leb_gt _ _)) by lia. }
  rewrite (proj2 (Z.leb_le i _)) by lia. cbn [andb].
  destruct (push_ok l d 0 mem H Hcap Hm) as (l1 & d1 & -> & Hw & He & Hsz). cbn [obind].
  destruct (has_room l mem); [|by exists l1, d1].
  destruct (data_length l1 d1 Hw) as (Hl1 & Hs1 & _). rewrite (lw_data _ _ Hw). cbn [of_option obind].
  rewrite memmove_in by lia. cbn [obind]. rewrite store_in by (rewrite !length_app, !length_take, !length_drop; lia).
  cbn [obind]. eexists _, _. split_and!; [done| |].
  - destruct Hw. constructor; simpl; [done| |lia|done].
    rewrite length_insert, !length_app, !length_take, !length_drop. lia.
  - assert (Hpre : take (Z.to_nat (size l)) d1 = elems l).
    { apply (f_equal (take (Z.to_nat (size l)))) in He. rewrite (elems_eq l1 d1 Hw), take_take in He.
      rewrite Nat.min_l in He by lia. rewrite He, take_app_le, take_ge by lia. done. }
    assert (Hv : <[Z.to_nat i := v]> (take (Z.to_nat (i + 1)) d1) = take (Z.to_nat i) d1 ++ [v]).
    { rewrite Z2Nat.inj_add, Nat.add_1_r by lia.
      destruct (lookup_lt_is_Some_2 d1 (Z.to_nat i)) as [y Hy]; [lia|]. rewrite (take_S_r _ _ y) by done.
      replace (Z.to_nat i) with (length (take (Z.to_nat i) d1) + 0)%nat at 1 by (rewrite length_take; lia).
      by rewrite insert_app_r. }
    rewrite elems_mk, insert_app_l, Hv by (rewrite length_take; lia).
    rewrite <- Hpre, take_take, skipn_firstn_comm, Nat.min_l by lia.
    rewrite !app_assoc. rewrite take_app_le, take_ge by (rewrite !length_app, !length_take, length_drop; simpl; lia).
    rewrite <- app_assoc. do 3 f_equal. lia.
Qed.

Lemma elems_nil l d : list_wf l d -> size l = 0 <-> elems l = [].
Proof.
  intros H. pose proof (elems_length l d H) as Hl. destruct (data_length l d H) as (_ & Hs & _).
  split; [intros Hz; destruct (elems l); [done|simpl in Hl; lia]|intros Hz; rewrite Hz in Hl; simpl in Hl; lia].
Qed.

(** ** Sorting and searching *)

Lemma search_spec d v n : StronglySorted Z.le d -> Z.of_nat (length d) = n ->
  forall m lo hi fuel, hi - lo <= Z.of_nat m -> 0 <= lo -> lo <= hi <= n -> (m < fuel)%nat ->
  (forall i x, d !! Z.to_nat i = Some x -> 0 <= i -> x = v -> lo <= i < hi) ->
  exists r, search_loop fuel d v lo hi = Ok r /\
    (r = -1 /\ v ∉ d \/ 0 <= r < n /\ d !! Z.to_nat r = Some v).
Proof.
  intros Hsort Hn. induction m as [|m IH]; intros lo hi fuel Hm Hlo Hhi Hfuel Hin;
    (destruct fuel as [|fuel]; [lia|]); cbn [search_loop].
  - rewrite (proj2 (Z.ltb_ge lo hi)) by lia. exists (-1). split; [done|]. left. split; [done|].
    intros [i Hi]%list_elem_of_lookup. specialize (Hin (Z.of_nat i) v). rewrite Nat2Z.id in Hin.
    specialize (Hin Hi ltac:(lia) eq_refl). lia.
  - destruct (Z.ltb_spec lo hi) as [Hlt|Hge].
    2: { exists (-1). split; [done|]. left. split; [done|].
      intros [i Hi]%list_elem_of_lookup. specialize (Hin (Z.of_nat i) v). rewrite Nat2Z.id in Hin.
      specialize (Hin Hi ltac:(lia) eq_refl). lia. }
    set (mid := lo + (hi - lo) / 2). assert (Hmid : lo <= mid < hi).
    { unfold mid. pose proof (Z.div_pos (hi - lo) 2). pose proof (Z.div_lt (hi - lo) 2). lia. }
    destruct (load_in d mid) as (x & Hx & Hd); [lia|]. rewrite Hx. cbn [obind].
    assert (Hord : forall i j a b, (i <= j)%nat -> d !! i = Some a -> d !! j = Some b -> a <= b).
    { intros i j a b Hij Ha Hb. destruct (decide (i = j)) as [->|]; [simplify_eq; lia|].
      apply (sorted_lookup Z.le d i j); [done|lia|done|done]. }
    destruct (Z.eqb_spec x v) as [->|Hne]; [exists mid; split; [done|right; split; [lia|done]]|].
    destruct (Z.ltb_spec x v) as [Hxv|Hxv].
    + apply IH; [lia|lia|lia|lia|]. intros i y Hy Hi ->. destruct (Hin i v Hy Hi eq_refl). split; [|lia].
      destruct (Z_lt_le_dec mid i); [lia|]. specialize (Hord (Z.to_nat i) (Z.to_nat mid) v x ltac:(lia) Hy Hd). lia.
    + apply IH; [lia|lia|lia|lia|]. intros i y Hy Hi ->. destruct (Hin i v Hy Hi eq_refl). split; [lia|].
      destruct (Z_lt_le_dec i mid); [lia|]. specialize (Hord (Z.to_nat mid) (Z.to_nat i) x v ltac:(lia) Hd Hy). lia.
Qed.

(** The loop only reads the elements. *)
Lemma search_take d k v : forall fuel lo hi, 0 <= lo -> hi <= Z.of_nat k -> (k <= length d)%nat ->
  search_loop fuel d v lo hi = search_loop fuel (take k d) v lo hi.
Proof.
  induction fuel as [|fuel IH]; intros lo hi Hlo Hhi Hk; [done|]. cbn [search_loop].
  destruct (Z.ltb_spec lo hi); [|done]. set (mid := lo + (hi - lo) / 2).
  assert (lo <= mid < hi) as Hm.
  { unfold mid. pose proof (Z.div_pos (hi - lo) 2). pose proof (Z.div_lt (hi - lo) 2). lia. }
  unfold load. destruct (Z.ltb_spec mid 0); [lia|]. rewrite lookup_take_lt by lia.
  destruct (d !! Z.to_nat mid); [|done]. cbn [of_option obind].
  destruct (_ =? _); [done|]. destruct (_ <? _); apply IH; lia.
Qed.

Lemma cmp_i64_le a b : cmp_i64 a b <= 0 <-> a <= b.
Proof. unfold cmp_i64. destruct (Z.ltb_spec a b), (Z.ltb_spec b a); lia. Qed.

(** [nuwan_list_sort] puts the elements in ascending order, whatever
    [qsort] does with equal ones. *)
Lemma sort_ok {Q : Qsort} l d : list_wf l d ->
  exists l' d', nuwan_list_sort (Some l) = Ok (Some l') /\ list_wf l' d' /\ elems l' ≡ₚ elems l /\ StronglySorted Z.le (elems l').
Proof.
  intros H. destruct (data_length l d H) as (Hl & Hs & _). unfold nuwan_list_sort. destruct (Z.eqb_spec (size l) 0) as [Hz|Hz].
  { exists l, d. rewrite (proj1 (elems_nil l d H) Hz). split_and!; try done. constructor. }
  rewrite (lw_data _ _ H). cbn [of_option obind]. set (n := Z.to_nat (size l)). set (s := qsort cmp_i64 (take n d)).
  assert (Hp : s ≡ₚ take n d) by apply qsort_perm.
  assert (Hls : length s = n) by (rewrite Hp, length_take; lia).
  assert (He : elems (mkList (Some (s ++ drop n d)) (size l) (cap l)) = s).
  { rewrite elems_mk. fold n. by rewrite take_app_le, take_ge by lia. }
  eexists _, (s ++ drop n d). split_and!; [done| |by rewrite He, (elems_eq l d H)|rewrite He].
  - destruct H. constructor; simpl; [done| |done|done]. rewrite length_app, length_drop. lia.
  - apply (ascending_impl cmp_i64); [intros a b; apply cmp_i64_le|]. apply qsort_sorted, preorder_consistent.
    + intros a b. rewrite !cmp_i64_le. lia.
    + intros a b c. rewrite !cmp_i64_le. lia.
Qed.

(** On a sorted list [nuwan_list_binary_search] ends with the position of the
    value, or with -1 when the list does not hold it. *)
Lemma search_ok l d v fuel : list_wf l d -> StronglySorted Z.le (elems l) -> (Z.to_nat (size l) < fuel)%nat ->
  exists r, nuwan_list_binary_search fuel (Some l) v = Ok r /\ (r = -1 /\ v ∉ elems l \/ 0 <= r /\ elems l !! Z.to_nat r = Some v).
Proof.
  intros H Hso Hfuel. destruct (data_length l d H) as (Hl & Hs & _). unfold nuwan_list_binary_search.
  destruct (Z.eqb_spec (size l) 0) as [Hz|Hz].
  { exists (-1). rewrite (proj1 (elems_nil l d H) Hz). split; [done|]. left. split; [done|apply not_elem_of_nil]. }
  rewrite (lw_data _ _ H). cbn [of_option obind]. rewrite (search_take _ (Z.to_nat (size l))) by lia. rewrite <- (elems_eq l d H).
  pose proof (elems_length l d H) as Hel.
  destruct (search_spec (elems l) v (size l) Hso ltac:(lia) (Z.to_nat (size l)) 0 (size l) fuel) as (r & Hr & Hcase); [lia|lia|lia|done| |].
  { intros i x Hx Hi _. apply lookup_lt_Some in Hx. lia. }
  exists r. split; [done|]. destruct Hcase as [?|[??]]; [by left|right; split; [lia|done]].
Qed.

(** ** Array kernels *)

(** [nuwan_array_sort_net4] sorts any four numbers. *)
Theorem sort_net4_sorts a b c d :
  StronglySorted Z.le (nuwan_array_sort_net4 [a; b; c; d]) /\ nuwan_array_sort_net4 [a; b; c; d] ≡ₚ [a; b; c; d].
Proof.
  unfold nuwan_array_sort_net4, SWAP4.
  repeat (cbn [lookup list_lookup insert list_insert]; 
    match goal with |- context [if ?x <? ?y then _ else _] => destruct (Z.ltb_spec x y) end);
  cbn [lookup list_lookup insert list_insert]; (split; [repeat constructor; lia|solve_Permutation]).
Qed.

Lemma zsum_cons x l : zsum (x :: l) = x + zsum l.
Proof. done. Qed.

Lemma zabs_cons x l : zabs (x :: l) = Z.abs x + zabs l.
Proof. done. Qed.

Lemma zabs_nonneg l : 0 <= zabs l.
Proof. induction l as [|x l IH]; [done|]. rewrite zabs_cons. lia. Qed.

Lemma zabs_zsum l : Z.abs (zsum l) <= zabs l.
Proof. induction l as [|x l IH]; [done|]. rewrite zabs_cons, zsum_cons. lia. Qed.

Lemma zabs_app l k : zabs (l ++ k) = zabs l + zabs k.
Proof. unfold zabs. by rewrite map_app, zsum_app. Qed.

Lemma zabs_split n l : zabs (take n l) + zabs (drop n l) = zabs l /\ zsum (take n l) + zsum (drop n l) = zsum l.
Proof. rewrite <- zabs_app, <- zsum_app. by rewrite take_drop. Qed.

Lemma scalar_sum_ok arr : forall s, Z.abs s + zabs arr < 2 ^ 63 -> scalar_sum s arr = Ok (s + zsum arr).
Proof.
  induction arr as [|x arr IH]; intros s Hs; cbn [scalar_sum]; [by rewrite Z.add_0_r|].
  rewrite zabs_cons in Hs. pose proof (zabs_nonneg arr).
  assert (add64 s x = Ok (s + x)) as ->.
  { unfold add64. rewrite (proj2 (sint64_Some (s + x) (s + x))); [done|]. split; [done|word_lia]. }
  cbn [obind]. rewrite IH, zsum_cons by lia. f_equal. lia.
Qed.

Lemma lane_add_ok v t : length v = length t -> zabs v + zabs t < 2 ^ 63 ->
  zsum (zip_with (fun a b => s64 (a + b)) v t) = zsum v + zsum t /\
  zabs (zip_with (fun a b => s64 (a + b)) v t) <= zabs v + zabs t.
Proof.
  revert t. induction v as [|x v IH]; intros [|y t] Hl Hb; try done. injection Hl as Hl.
  cbn [zip_with]. rewrite !zabs_cons, !zsum_cons in *. pose proof (zabs_nonneg v). pose proof (zabs_nonneg t).
  destruct (IH t Hl) as [H1 H2]; [lia|]. rewrite s64_small by word_lia. lia.
Qed.

Lemma lane_sum_ok w : (0 < w)%nat -> forall fuel v arr, (length arr <= fuel)%nat -> length v = w ->
  zabs v + zabs arr < 2 ^ 63 ->
  exists v' rest, lane_sum fuel w v arr = (v', rest) /\ zsum v' + zsum rest = zsum v + zsum arr /\
    zabs v' + zabs rest <= zabs v + zabs arr /\ (length rest <= length arr)%nat.
Proof.
  intros Hw. induction fuel as [|fuel IH]; intros v arr Hf Hv Hb; cbn [lane_sum]; [by exists v, arr|].
  destruct (Nat.leb_spec w (length arr)); [|by exists v, arr].
  destruct (zabs_split w arr) as [Ha Hs]. pose proof (zabs_nonneg (drop w arr)).
  assert (length v = length (take w arr)) as Hlt by (rewrite length_take; lia).
  destruct (lane_add_ok v (take w arr)) as [H1 H2]; [done|lia|].
  destruct (IH (zip_with (fun a b => s64 (a + b)) v (take w arr)) (drop w arr)) as (v' & rest & -> & H3 & H4 & H5).
  - rewrite length_drop. lia.
  - rewrite length_zip_with. lia.
  - lia.
  - rewrite length_drop in H5. exists v', rest. split_and!; [done|lia|lia|lia].
Qed.

(** The vectorised sum, with or without AVX2, is the sum of the array
    whenever the absolute values add up within 64 bits; no intermediate
    addition then overflows. *)
Theorem array_sum_correct avx arr n :
  0 <= n <= Z.of_nat (length arr) -> zabs (take (Z.to_nat n) arr) < 2 ^ 63 ->
  nuwan_array_sum_i64 avx (Some arr) n = Ok (zsum (take (Z.to_nat n) arr)).
Proof.
  intros Hn Hb. unfold nuwan_array_sum_i64. destruct (Z.eqb_spec n 0) as [->|_]; [done|].
  set (l := take (Z.to_nat n) arr) in *.
  assert (exists s rest, (if avx then let '(v, rest) := lane_sum (length l) 4 [0; 0; 0; 0] l in
      let! s := scalar_sum 0 v in Ok (s, rest) else Ok (0, l)) = Ok (s, rest) /\
    s + zsum rest = zsum l /\ Z.abs s + zabs rest < 2 ^ 63 /\ (length rest <= length l)%nat)
    as (s & rest & -> & Hs & Hr & Hlen).
  { destruct avx; [|exists 0, l; split_and!; done || lia].
    destruct (lane_sum_ok 4 ltac:(lia) (length l) [0; 0; 0; 0] l) as (v & rest & -> & H1 & H2 & H3); [done|done|exact Hb|].
    change (zabs [0; 0; 0; 0]) with 0 in H2. change (zsum [0; 0; 0; 0]) with 0 in H1.
    pose proof (zabs_nonneg rest). pose proof (zabs_zsum v).
    rewrite scalar_sum_ok by (simpl; lia). exists (0 + zsum v), rest. split_and!; [done|lia..]. }
  cbn [obind fst snd].
  destruct (lane_sum_ok 2 ltac:(lia) (length l) [0; 0] rest) as (v & r2 & -> & H1 & H2 & _); [done|done| |].
  { change (zabs [0; 0]) with 0. lia. }
  change (zabs [0; 0]) with 0 in H2. change (zsum [0; 0]) with 0 in H1.
  pose proof (zabs_nonneg r2). pose proof (zabs_zsum v). rewrite scalar_sum_ok by (simpl; lia). cbn [obind].
  assert (add64 s (0 + zsum v) = Ok (s + zsum v)) as ->.
  { unfold add64. rewrite Z.add_0_l. rewrite (proj2 (sint64_Some (s + zsum v) (s + zsum v))); [done|]. split; [done|word_lia]. }
  cbn [obind]. rewrite scalar_sum_ok by lia. f_equal. lia.
Qed.

(** ** Every operation *)

Lemma sum_ok avx l d : list_wf l d -> zabs (elems l) < 2 ^ 63 -> nuwan_list_sum avx (Some l) = Ok (zsum (elems l)).
Proof.
  intros H Hb. destruct (data_length l d H) as (Hl & Hs & _). unfold nuwan_list_sum. rewrite (lw_data _ _ H).
  rewrite (elems_eq l d H) in *. apply array_sum_correct; [lia|done].
Qed.

Lemma list_new_ok a : Z.of_nat (length a) = LIST_INIT_CAP ->
  exists l, nuwan_list_new true (Some a) = Some l /\ list_wf l a /\ elems l = [].
Proof. intros Ha. eexists. split; [done|]. split; [|done]. unfold LIST_INIT_CAP in Ha. constructor; simpl; unfold LIST_INIT_CAP; done || lia. Qed.

(** C27: [NuwanList], and [NuwanStack] with it, is a list.  A list created with
    memory is empty.  From then on, whatever the machine's vector units and
    whatever [qsort] does with equal elements: push, pop, get, set, remove,
    insert, clear, size, empty, peek, reserve and sum act on the elements and
    answer as the specification does on a list, with the index checks and
    the refusal when the array is full and the arena has no memory; sort leaves
    the same elements in ascending order; binary search on a sorted list
    ends, with a position of the value or with -1 when it is absent.  The
    capacity is at most 2^59 and a capacity reserved at most 2^60, so that the
    bytes asked of the arena are a [size_t]; the absolute values summed add up
    to less than 2^63. *)
Theorem list_refines :
  (forall a, Z.of_nat (length a) = LIST_INIT_CAP ->
     exists l, nuwan_list_new true (Some a) = Some l /\ list_wf l a /\ elems l = []) /\
  forall (Q : Qsort) avx o l d mem,
    list_wf l d -> cap l <= 2 ^ 59 -> mem_ok (asked o l) mem -> op_ok o (elems l) ->
    exists l' d' r, exec avx o (Some l) mem = Ok (Some l', r) /\ list_wf l' d' /\
      meets (granted o l mem) o (elems l) (elems l') r.
Proof.
  split; [exact list_new_ok|]. intros Q avx o l d mem H Hcap Hm Ho.
  pose proof (elems_length l d H) as Hlen. destruct (data_length l d H) as (Hl & Hs & _).
  assert (Hn : Z.of_nat (length (elems l)) = size l) by lia. assert (Hc : cap l <= 2 ^ 61) by lia.
  destruct o as [v| |i|i v|i|i v| | | | |c| | |v]; cbn [exec meets spec op_ok granted asked] in *; rewrite ?Hn.
  - destruct (push_ok l d v mem H Hc Hm) as (l' & d' & -> & Hw & He & _). eexists l', d', _. split; [done|]. split; [done|]. rewrite He.
    by destruct (has_room l mem).
  - destruct (pop_ok l d H) as (l' & -> & Hw & He). eexists l', d, _. split_and!; [done|done|by rewrite He].
  - rewrite (get_ok l d) by done. by eexists l, d, _.
  - destruct (set_ok l d i v H Ho) as (l' & d' & -> & Hw & He). eexists l', d', _. split_and!; [done|done|by rewrite He].
  - destruct (remove_ok l d i H Ho) as (l' & d' & -> & Hw & He). eexists l', d', _. split_and!; [done|done|by rewrite He].
  - destruct (insert_ok l d i v mem H Ho Hc Hm) as (l' & d' & -> & Hw & He). eexists l', d', _. split; [done|]. split; [done|]. rewrite He.
    by destruct ((i <=? size l) && has_room l mem).
  - eexists _, d, _. split; [done|]. destruct H. split; [constructor; simpl; done || lia|done].
  - by eexists l, d, _.
  - by eexists l, d, _.
  - unfold nuwan_stack_peek. destruct (Z.eqb_spec (size l) 0) as [Hz|Hz].
    + eexists l, d, _. split; [done|]. by rewrite (proj1 (elems_nil l d H) Hz).
    + destruct (last_index l d H Hz) as (x & Hx & Hla). rewrite (lw_data _ _ H). cbn [of_option obind].
      rewrite Hx, Hla. by eexists l, d, _.
  - destruct (reserve_ok l d c mem H Hm) as (l' & d' & b & -> & Hw & He & _ & -> & _). eexists l', d', _. split_and!; [done|done|by rewrite He].
  - rewrite (sum_ok avx l d) by done. by eexists l, d, _.
  - destruct (sort_ok l d H) as (l' & d' & -> & Hw & Hp & Hso). by eexists l', d', _.
  - destruct (search_ok l d v (S (Z.to_nat (size l))) H Ho) as (r & Hr & Hcase); [lia|]. cbn [nuwan_list_size]. rewrite Hr.
    eexists l, d, _. split_and!; [done|done|done|exact Hcase].
Qed.

(** ** Concrete lists *)

Definition ex_data : list Z := [3; 1; 2] ++ repeat 0 13.
Definition ex_list : NuwanList := mkList (Some ex_data) 3 16.

Lemma ex_list_wf : list_wf ex_list ex_data.
Proof. constructor; simpl; unfold LIST_INIT_CAP; done || lia. Qed.

Lemma list_refines_witness : exists l' d' r,
  exec true (Insert 1 7) (Some ex_list) None = Ok (Some l', r) /\ list_wf l' d' /\ (elems l', r) = ([3; 7; 1; 2], 1).
Proof.
  exact (proj2 list_refines _ true (Insert 1 7) ex_list ex_data None ex_list_wf ltac:(done) ltac:(done) ltac:(done)).
Defined.

Lemma array_sum_correct_witness : nuwan_array_sum_i64 true (Some [5; -7; 1; 2; 9; 4; 6]) 7 = Ok 20.
Proof. exact (array_sum_correct true [5; -7; 1; 2; 9; 4; 6] 7 ltac:(simpl; lia) ltac:(reflexivity)). Defined.
