(* ===== verification/NuwanQueue.v ===== *)
(** * The FIFO queue of the runtime

    [NuwanQueue] of [src/runtime/stdlib/collections.c]: a ring buffer that is
    linearised into an array of twice the size when it is full. *)
From S2P Require Import Prelude CArray.

Definition QUEUE_INIT_CAP : Z := 16.

Record NuwanQueue := mkQueue { data : list Z; head : Z; tail : Z; size : Z; cap : Z }.

Definition nuwan_queue_new (alloc : bool) (mem : option (list Z)) : option NuwanQueue :=
  if alloc then match mem with Some d => Some (mkQueue d 0 0 0 QUEUE_INIT_CAP) | None => None end else None.

(** [for (i...) nd[i] = q->data[(q->head + i) % q->cap];] from [i] on, [n] times. *)
Fixpoint linearise (n : nat) (i : Z) (q : NuwanQueue) (nd : list Z) : outcome (list Z) :=
  match n with
  | O => Ok nd
  | S n =>
      let! v := load (data q) (u64 (head q + i) mod cap q) in
      let! nd := store nd i v in
      linearise n (i + 1) q nd
  end.

Definition nuwan_queue_enqueue (q : option NuwanQueue) (v : Z) (mem : option (list Z))
  : outcome (option NuwanQueue * bool) :=
  match q with
  | None => Ok (q, false)
  | Some q =>
      let! r := (if size q =? cap q then
                   match mem with
                   | None => Ok None
                   | Some nd =>
                       let! nd := linearise (Z.to_nat (size q)) 0 q nd in
                       Ok (Some (mkQueue nd 0 (size q) (size q) (u64 (cap q * 2))))
                   end
                 else Ok (Some q)) in
      match r with
      | None => Ok (Some q, false)
      | Some q =>
          let! d := store (data q) (tail q) v in
          Ok (Some (mkQueue d (head q) (u64 (tail q + 1) mod cap q) (size q + 1) (cap q)), true)
      end
  end.

Definition nuwan_queue_dequeue (q : option NuwanQueue) : outcome (option NuwanQueue * Z) :=
  match q with
  | None => Ok (q, 0)
  | Some q =>
      if size q =? 0 then Ok (Some q, 0) else
      let! v := load (data q) (head q) in
      Ok (Some (mkQueue (data q) (u64 (head q + 1) mod cap q) (tail q) (size q - 1) (cap q)), v)
  end.

Definition nuwan_queue_peek (q : option NuwanQueue) : outcome Z :=
  match q with
  | None => Ok 0
  | Some q => if size q =? 0 then Ok 0 else load (data q) (head q)
  end.

Definition nuwan_queue_size (q : option NuwanQueue) : Z := match q with Some q => size q | None => 0 end.
Definition nuwan_queue_empty (q : option NuwanQueue) : bool := match q with Some q => size q =? 0 | None => true end.

Definition nuwan_queue_clear (q : option NuwanQueue) : option NuwanQueue :=
  match q with Some q => Some (mkQueue (data q) 0 0 0 (cap q)) | None => None end.

(** ** The contents *)

Definition contents (q : NuwanQueue) : list Z := ring (data q) (cap q) (head q) (Z.to_nat (size q)).

Record queue_wf (q : NuwanQueue) : Prop := {
  qw_len : Z.of_nat (length (data q)) = cap q;
  qw_cap : 0 < cap q <= 2 ^ 61;
  qw_head : 0 <= head q < cap q;
  qw_size : 0 <= size q <= cap q;
  qw_tail : tail q = (head q + size q) mod cap q
}.

(** ** Growing *)

Lemma linearise_ok q n : forall i nd, queue_wf q -> 0 <= i -> i + Z.of_nat n <= cap q ->
  i + Z.of_nat n <= Z.of_nat (length nd) ->
  exists nd', linearise n i q nd = Ok nd' /\ length nd' = length nd /\
    take (Z.to_nat i) nd' = take (Z.to_nat i) nd /\
    take n (drop (Z.to_nat i) nd') = ring (data q) (cap q) (head q + i) n.
Proof.
  induction n as [|n IH]; intros i nd Hwf Hi Hc Hl; cbn [linearise]; [by exists nd|].
  destruct Hwf as [H1 H2 H3 H4 H5] eqn:E. clear E. rewrite u64_small by word_lia.
  pose proof (Z.mod_pos_bound (head q + i) (cap q) ltac:(lia)).
  destruct (load_in (data q) ((head q + i) mod cap q)) as (x & -> & Hx); [lia|]. cbn [obind].
  rewrite store_in by lia. cbn [obind].
  destruct (IH (i + 1) (<[Z.to_nat i := x]> nd)) as (nd' & Hnd & Hlen & Hpre & Hsuf);
    [done|lia|lia|rewrite length_insert; lia|].
  rewrite length_insert in Hlen. exists nd'. rewrite Z2Nat.inj_add, Nat.add_1_r in Hpre, Hsuf by lia.
  assert (Hat : nd' !! Z.to_nat i = Some x).
  { rewrite <- (lookup_take_lt nd' (S (Z.to_nat i))) by lia. rewrite Hpre, lookup_take_lt by lia.
    rewrite list_lookup_insert_eq by lia. done. }
  split_and!; [done|done| |].
  - apply (f_equal (take (Z.to_nat i))) in Hpre. rewrite !take_take, Nat.min_l in Hpre by lia.
    by rewrite Hpre, take_insert_ge by lia.
  - rewrite (drop_S nd' x) by done. cbn [take ring]. rewrite Hsuf, Hx. by rewrite Z.add_assoc.
Qed.

Definition mem_ok (n : Z) (mem : option (list Z)) : Prop := forall a, mem = Some a -> Z.of_nat (length a) = n.

(** ** The operations are those of a FIFO queue *)

Lemma store_tail q v : queue_wf q -> size q < cap q ->
  exists q', store (data q) (tail q) v = Ok (data q') /\
    q' = mkQueue (<[Z.to_nat (tail q) := v]> (data q)) (head q) (u64 (tail q + 1) mod cap q) (size q + 1) (cap q) /\
    queue_wf q' /\ contents q' = contents q ++ [v].
Proof.
  intros [H1 H2 H3 H4 H5] Hlt. pose proof (Z.mod_pos_bound (head q + size q) (cap q) ltac:(lia)).
  rewrite store_in by lia. eexists. split_and!; [|done| |]; [done| |].
  - rewrite u64_small by word_lia. constructor; cbn [data head tail size cap]; [rewrite length_insert; done|done|done|lia|].
    rewrite H5, Zplus_mod_idemp_l. f_equal. lia.
  - unfold contents. cbn [data head size cap]. rewrite Z2Nat.inj_add, Nat.add_1_r, H5 by lia.
    rewrite <- (Z2Nat.id (size q)) at 1 by lia. apply ring_put; lia.
Qed.

Lemma grow_ok q nd : queue_wf q -> size q = cap q -> cap q <= 2 ^ 60 -> Z.of_nat (length nd) = cap q * 2 ->
  exists nd', linearise (Z.to_nat (size q)) 0 q nd = Ok nd' /\
    queue_wf (mkQueue nd' 0 (size q) (size q) (u64 (cap q * 2))) /\
    contents (mkQueue nd' 0 (size q) (size q) (u64 (cap q * 2))) = contents q.
Proof.
  intros Hwf Hfull Hc Hl. pose proof (qw_cap _ Hwf). pose proof (qw_size _ Hwf).
  destruct (linearise_ok q (Z.to_nat (size q)) 0 nd Hwf) as (nd' & -> & Hlen & _ & Hsuf); [lia..|].
  rewrite drop_0, Z.add_0_r in Hsuf. exists nd'. rewrite u64_small by word_lia. split_and!; [done| |].
  - constructor; cbn [data head tail size cap]; [lia|lia|lia|lia|]. by rewrite Z.mod_small by lia.
  - unfold contents. cbn [data head size cap]. rewrite <- Hsuf. apply list_eq. intros i.
    destruct (decide (i < Z.to_nat (size q))%nat) as [Hi|Hi].
    + rewrite ring_lookup, lookup_take_lt, Z.mod_small by lia.
      destruct (lookup_lt_is_Some_2 nd' i) as [x Hx]; [lia|]. rewrite Hx. rewrite Z.add_0_l, Nat2Z.id. by rewrite Hx.
    + rewrite !lookup_ge_None_2; [done|rewrite length_take; lia|rewrite ring_length; lia].
Qed.

(** The ring buffer is a FIFO queue: [enqueue] appends, also when it
    first moves a full ring to an array of twice the size, and refuses without
    a change when the arena has no memory; [dequeue] and [peek] give the oldest
    element, and 0 when there is none. *)
Theorem queue_refines_fifo q v mem :
  queue_wf q -> cap q <= 2 ^ 60 -> mem_ok (cap q * 2) mem ->
  let room := (size q <? cap q) || opt_bool mem in
  (exists q', nuwan_queue_enqueue (Some q) v mem = Ok (Some q', room) /\ queue_wf q' /\
     contents q' = if room then contents q ++ [v] else contents q) /\
  (exists q', nuwan_queue_dequeue (Some q) = Ok (Some q', hd 0 (contents q)) /\ queue_wf q' /\
     contents q' = List.tl (contents q)) /\
  nuwan_queue_peek (Some q) = Ok (hd 0 (contents q)) /\
  nuwan_queue_size (Some q) = Z.of_nat (length (contents q)).
Proof.
  intros Hwf Hc Hm room. pose proof (qw_cap _ Hwf). pose proof (qw_size _ Hwf). split_and!.
  - unfold nuwan_queue_enqueue.
    assert (exists r, (if size q =? cap q then
        match mem with
        | None => Ok None
        | Some nd => let! nd := linearise (Z.to_nat (size q)) 0 q nd in
            Ok (Some (mkQueue nd 0 (size q) (size q) (u64 (cap q * 2))))
        end else Ok (Some q)) = Ok r /\
      if room then exists q1, r = Some q1 /\ queue_wf q1 /\ contents q1 = contents q /\ size q1 < cap q1 else r = None)
      as (r & -> & Hr).
    { unfold room. destruct (Z.eqb_spec (size q) (cap q)) as [Hf|Hf].
      - rewrite (proj2 (Z.ltb_ge _ _)) by lia. destruct mem as [nd|]; [|by exists None]. cbn.
        destruct (grow_ok q nd Hwf Hf Hc) as (nd' & -> & Hw & Hco); [by apply Hm|]. cbn. eexists. split; [done|].
        eexists. split_and!; [done|done|done|]. cbn. rewrite u64_small by word_lia. lia.
      - rewrite (proj2 (Z.ltb_lt _ _)) by lia. exists (Some q). cbn. split; [done|]. exists q. split_and!; [done|done|done|lia]. }
    cbn [obind]. destruct room; [|subst r; by exists q].
    destruct Hr as (q1 & -> & Hw & Hco & Hlt). destruct (store_tail q1 v Hw Hlt) as (q' & -> & Hq' & Hw' & Hc').
    exists q'. cbn [obind]. rewrite <- Hco. split; [|done]. by rewrite Hq'.
  - unfold nuwan_queue_dequeue, contents. destruct (Z.eqb_spec (size q) 0) as [Hz|Hz].
    + rewrite Hz. exists q. cbn. by rewrite Hz.
    + destruct Hwf as [H1 H2 H3 H4 H5]. destruct (load_in (data q) (head q)) as (x & -> & Hx); [lia|]. cbn [obind].
      replace (Z.to_nat (size q)) with (S (Z.to_nat (size q - 1))) by lia. cbn [ring hd List.tl].
      rewrite (Z.mod_small (head q)), Hx, u64_small by word_lia. eexists. split_and!; [done| |].
      * constructor; cbn [data head tail size cap]; [done|done|apply Z.mod_pos_bound; lia|lia|].
        rewrite H5, Zplus_mod_idemp_l. f_equal. lia.
      * cbn [data head size cap]. apply list_eq. intros i. destruct (decide (i < Z.to_nat (size q - 1))%nat) as [Hi|Hi].
        -- rewrite !ring_lookup by done. by rewrite Zplus_mod_idemp_l.
        -- by rewrite !lookup_ge_None_2 by (rewrite ring_length; lia).
  - unfold nuwan_queue_peek, contents. destruct (Z.eqb_spec (size q) 0) as [Hz|Hz]; [by rewrite Hz|].
    destruct Hwf as [H1 H2 H3 H4 H5]. destruct (load_in (data q) (head q)) as (x & -> & Hx); [lia|].
    replace (Z.to_nat (size q)) with (S (Z.to_nat (size q - 1))) by lia. cbn [ring hd].
    by rewrite (Z.mod_small (head q)), Hx by lia.
  - unfold contents. rewrite ring_length. cbn. lia.
Qed.

Definition ex_queue : NuwanQueue := mkQueue [10; 20; 30; 40] 2 2 4 4.

Lemma ex_queue_wf : queue_wf ex_queue.
Proof. constructor; cbn; done || lia. Qed.

(** A full, wrapped ring grows. *)
Lemma queue_refines_fifo_witness :
  (exists q', nuwan_queue_enqueue (Some ex_queue) 50 (Some (repeat 7 8)) = Ok (Some q', true) /\ queue_wf q' /\
     contents q' = [30; 40; 10; 20; 50]) /\
  nuwan_queue_peek (Some ex_queue) = Ok 30.
Proof.
  destruct (queue_refines_fifo ex_queue 50 (Some (repeat 7 8)) ex_queue_wf) as (H1 & _ & H2 & _);
    [cbn; lia|by intros a [= <-]|]. split; [exact H1|exact H2].
Defined.
