(* ===== verification/NuwanHeap.v ===== *)
(** * The priority queue of the runtime

    [NuwanPQ] of [src/runtime/stdlib/collections.c]: a binary min-heap in two
    parallel arrays.  Indices and sizes are natural numbers: they stay below
    the array lengths, so that [2 * i + 2] does not wrap. *)
From S2P Require Import Prelude NuwanMap.

Definition PQ_INIT_CAP : nat := 16.

Record NuwanPQ := mkPQ { prios : list Z; vals : list Z; size : nat; cap : nat }.

Definition aload (a : list Z) (i : nat) : outcome Z := of_option (a !! i).
Definition astore (a : list Z) (i : nat) (v : Z) : outcome (list Z) :=
  if (i <? length a)%nat then Ok (<[i := v]> a) else Undef.

Definition nuwan_pq_new (alloc : bool) (mp mv : option (list Z)) : option NuwanPQ :=
  if alloc then match mp, mv with Some p, Some v => Some (mkPQ p v 0 PQ_INIT_CAP) | _, _ => None end else None.

(** [memcpy] of the first [n] elements into a fresh array. *)
Definition copy_into (nd d : list Z) (n : nat) : outcome (list Z) :=
  if (n <=? length d)%nat && (n <=? length nd)%nat then Ok (take n d ++ drop n nd) else Undef.

Definition nuwan_pq_reserve (q : option NuwanPQ) (c : nat) (mp mv : option (list Z)) : outcome (option NuwanPQ * bool) :=
  match q with
  | None => Ok (q, true)
  | Some q =>
      if (c <=? cap q)%nat then Ok (Some q, true) else
      match mp, mv with
      | Some np, Some nv =>
          let! np := if (size q =? 0)%nat then Ok np else copy_into np (prios q) (size q) in
          let! nv := if (size q =? 0)%nat then Ok nv else copy_into nv (vals q) (size q) in
          Ok (Some (mkPQ np nv (size q) c), true)
      | _, _ => Ok (Some q, false)
      end
  end.

Definition swap_in (l : list Z) (a b : nat) : outcome (list Z) :=
  let! t := aload l a in
  let! u := aload l b in
  let! l := astore l a u in
  astore l b t.

Definition pq_swap (q : NuwanPQ) (a b : nat) : outcome NuwanPQ :=
  let! p := swap_in (prios q) a b in
  let! v := swap_in (vals q) a b in
  Ok (mkPQ p v (size q) (cap q)).

(** [while (i > 0)] *)
Fixpoint sift_up (fuel : nat) (q : NuwanPQ) (i : nat) : outcome NuwanPQ :=
  match fuel with
  | O => OutOfFuel
  | S fuel =>
      if (0 <? i)%nat then
        let parent := ((i - 1) / 2)%nat in
        let! p := aload (prios q) parent in
        let! x := aload (prios q) i in
        if p <=? x then Ok q else
        let! q := pq_swap q parent i in
        sift_up fuel q parent
      else Ok q
  end.

Definition nuwan_pq_push (fuel : nat) (q : option NuwanPQ) (priority value : Z) (mp mv : option (list Z))
  : outcome (option NuwanPQ * bool) :=
  match q with
  | None => Ok (q, false)
  | Some q0 =>
      let! r := if (size q0 =? cap q0)%nat then nuwan_pq_reserve q (cap q0 * 2) mp mv else Ok (q, true) in
      match r with
      | (Some q, true) =>
          let! p := astore (prios q) (size q) priority in
          let! v := astore (vals q) (size q) value in
          let! q := sift_up fuel (mkPQ p v (S (size q)) (cap q)) (size q) in
          Ok (Some q, true)
      | (q, _) => Ok (q, false)
      end
  end.

(** [if (c < pq->size && pq->prios[c] < pq->prios[smallest]) smallest = c;] *)
Definition pick (q : NuwanPQ) (c smallest : nat) : outcome nat :=
  if (c <? size q)%nat then
    let! x := aload (prios q) c in
    let! y := aload (prios q) smallest in
    Ok (if x <? y then c else smallest)
  else Ok smallest.

(** [while (1)] *)
Fixpoint sift_down (fuel : nat) (q : NuwanPQ) (i : nat) : outcome NuwanPQ :=
  match fuel with
  | O => OutOfFuel
  | S fuel =>
      let! smallest := pick q (2 * i + 1) i in
      let! smallest := pick q (2 * i + 2) smallest in
      if (smallest =? i)%nat then Ok q else
      let! q := pq_swap q i smallest in
      sift_down fuel q smallest
  end.

Definition nuwan_pq_pop (fuel : nat) (q : option NuwanPQ) : outcome (option NuwanPQ * Z) :=
  match q with
  | None => Ok (q, 0)
  | Some q =>
      if (size q =? 0)%nat then Ok (Some q, 0) else
      let! v := aload (vals q) 0 in
      let n := (size q - 1)%nat in
      let! lp := aload (prios q) n in
      let! p := astore (prios q) 0 lp in
      let! lv := aload (vals q) n in
      let! w := astore (vals q) 0 lv in
      let! q := sift_down fuel (mkPQ p w n (cap q)) 0 in
      Ok (Some q, v)
  end.

Definition nuwan_pq_peek (q : option NuwanPQ) : outcome Z :=
  match q with Some q => if (size q =? 0)%nat then Ok 0 else aload (vals q) 0 | None => Ok 0 end.
Definition nuwan_pq_peek_priority (q : option NuwanPQ) : outcome Z :=
  match q with Some q => if (size q =? 0)%nat then Ok 0 else aload (prios q) 0 | None => Ok 0 end.
Definition nuwan_pq_size (q : option NuwanPQ) : nat := match q with Some q => size q | None => 0 end.
Definition nuwan_pq_empty (q : option NuwanPQ) : bool := match q with Some q => (size q =? 0)%nat | None => true end.

(** ** The heap *)

Definition parent (i : nat) : nat := (i - 1) / 2.
Arguments parent : simpl never.

Lemma parent_child i j : (0 < j)%nat -> parent j = i <-> (j = 2 * i + 1 \/ j = 2 * i + 2)%nat.
Proof.
  intros Hj. unfold parent. pose proof (Nat.div_mod_eq (j - 1) 2). pose proof (Nat.mod_upper_bound (j - 1) 2).
  split; [intros <-; lia|]. intros Hc. assert ((j - 1) mod 2 = j - 1 - 2 * ((j - 1) / 2))%nat by lia. lia.
Qed.

Lemma parent_lt j : (0 < j)%nat -> (parent j < j)%nat.
Proof. intros Hj. pose proof (proj1 (parent_child (parent j) j Hj) eq_refl). lia. Qed.

Definition pr (P : list Z) (i : nat) : Z := default 0 (P !! i).

Definition heap (P : list Z) (n : nat) : Prop := forall j, (0 < j < n)%nat -> pr P (parent j) <= pr P j.

(** The pairs the queue holds. *)
Definition pairs (q : NuwanPQ) : list (Z * Z) := zip (take (size q) (prios q)) (take (size q) (vals q)).

Record arrays_ok (q : NuwanPQ) : Prop := {
  ao_prios : length (prios q) = cap q;
  ao_vals : length (vals q) = cap q;
  ao_size : (size q <= cap q)%nat
}.

Definition pq_wf (q : NuwanPQ) : Prop := arrays_ok q /\ heap (prios q) (size q).

(** Everything but the edge into [i] is in order. *)
Definition up_inv (P : list Z) (n i : nat) : Prop :=
  (forall j, (0 < j < n)%nat -> j <> i -> pr P (parent j) <= pr P j) /\
  (forall j, (0 < j < n)%nat -> parent j = i -> (0 < i)%nat -> pr P (parent i) <= pr P j).

(** Everything but the edges out of [i] is in order. *)
Definition down_inv (P : list Z) (n i : nat) : Prop :=
  (forall j, (0 < j < n)%nat -> parent j <> i -> pr P (parent j) <= pr P j) /\
  (forall j, (0 < j < n)%nat -> parent j = i -> (0 < i)%nat -> pr P (parent i) <= pr P j).

Lemma list_swap_perm {A} (l : list A) a b x y : l !! a = Some x -> l !! b = Some y ->
  <[b := x]> (<[a := y]> l) ≡ₚ l.
Proof.
  intros Hx Hy. apply (Permutation_cons_inv (a := y)). pose proof (lookup_lt_Some _ _ _ Hx).
  rewrite list_insert_swap; [by apply list_insert_swap|].
  destruct (decide (a = b)) as [->|]; [by rewrite list_lookup_insert_eq|by rewrite list_lookup_insert_ne].
Qed.

Lemma swap_in_ok l a b x y : l !! a = Some x -> l !! b = Some y -> swap_in l a b = Ok (<[b := x]> (<[a := y]> l)).
Proof.
  intros Hx Hy. unfold swap_in, aload, astore. rewrite Hx, Hy. cbn [of_option obind].
  pose proof (lookup_lt_Some _ _ _ Hx). pose proof (lookup_lt_Some _ _ _ Hy).
  rewrite (proj2 (Nat.ltb_lt _ _)) by done. cbn [obind].
  by rewrite (proj2 (Nat.ltb_lt _ _)) by (by rewrite length_insert).
Qed.

Lemma pairs_lookup q i : arrays_ok q -> (i < size q)%nat ->
  exists x v, prios q !! i = Some x /\ vals q !! i = Some v /\ pairs q !! i = Some (x, v).
Proof.
  intros [H1 H2 H3] Hi. destruct (lookup_lt_is_Some_2 (prios q) i) as [x Hx]; [lia|].
  destruct (lookup_lt_is_Some_2 (vals q) i) as [v Hv]; [lia|]. exists x, v. split_and!; [done|done|].
  unfold pairs. apply lookup_zip_with_Some. exists x, v. rewrite !lookup_take_lt by done. done.
Qed.

Lemma pairs_insert P V n c i x v : (i < n)%nat ->
  pairs (mkPQ (<[i := x]> P) (<[i := v]> V) n c) = <[i := (x, v)]> (pairs (mkPQ P V n c)).
Proof. intros Hi. unfold pairs. cbn. by rewrite !take_insert_lt, zip_insert by done. Qed.

Lemma pq_swap_ok q a b : arrays_ok q -> (a < size q)%nat -> (b < size q)%nat -> a <> b ->
  exists q', pq_swap q a b = Ok q' /\ arrays_ok q' /\ size q' = size q /\ cap q' = cap q /\ pairs q' ≡ₚ pairs q /\
    pr (prios q') a = pr (prios q) b /\ pr (prios q') b = pr (prios q) a /\
    forall i, i <> a -> i <> b -> pr (prios q') i = pr (prios q) i.
Proof.
  intros Hq Ha Hb Hab. destruct (pairs_lookup q a Hq Ha) as (x & v & Hx & Hv & Hp).
  destruct (pairs_lookup q b Hq Hb) as (y & w & Hy & Hw & Hp').
  pose proof (lookup_lt_Some _ _ _ Hx). pose proof (lookup_lt_Some _ _ _ Hy).
  unfold pq_swap. rewrite (swap_in_ok _ a b x y), (swap_in_ok _ a b v w) by done. cbn [obind].
  eexists. split; [done|]. destruct Hq as [H1 H2 H3]. destruct q as [P V n c]. cbn [prios vals size cap] in *.
  split_and!; [constructor; cbn; by rewrite ?length_insert|done|done| | | |].
  - rewrite !pairs_insert by done. by apply list_swap_perm.
  - unfold pr. rewrite list_lookup_insert_ne, list_lookup_insert_eq, Hy by done. done.
  - unfold pr. rewrite list_lookup_insert_eq, Hx by (by rewrite length_insert). done.
  - intros i Hia Hib. unfold pr. by rewrite !list_lookup_insert_ne by done.
Qed.

Lemma aload_pr q i : arrays_ok q -> (i < size q)%nat -> aload (prios q) i = Ok (pr (prios q) i).
Proof.
  intros Hq Hi. destruct (pairs_lookup q i Hq Hi) as (x & v & Hx & _). unfold aload, pr. by rewrite Hx.
Qed.

(** ** Sifting *)

Lemma up_inv_swap P P' n i : (0 < i)%nat -> up_inv P n i -> pr P i < pr P (parent i) ->
  pr P' (parent i) = pr P i -> pr P' i = pr P (parent i) ->
  (forall k, k <> parent i -> k <> i -> pr P' k = pr P k) -> (i < n)%nat -> up_inv P' n (parent i).
Proof.
  intros Hi [H1 H2] Hlt Hpar Hself Hrest Hn. pose proof (parent_lt i Hi) as Hp. split.
  - intros j Hj Hjp. destruct (decide (j = i)) as [->|Hji]; [lia|]. rewrite (Hrest j) by done.
    destruct (decide (parent j = i)) as [Hpj|Hpj].
    + rewrite Hpj, Hself. by apply H2.
    + destruct (decide (parent j = parent i)) as [Hpp|Hpp].
      * rewrite Hpp, Hpar. specialize (H1 j Hj Hji). rewrite Hpp in H1. lia.
      * rewrite Hrest by done. by apply H1.
  - intros j Hj Hpj H0. pose proof (parent_lt (parent i) H0) as Hgp.
    rewrite (Hrest (parent (parent i))) by lia. pose proof (H1 (parent i) ltac:(lia) ltac:(lia)) as Hg.
    destruct (decide (j = i)) as [->|Hji]; [by rewrite Hself|].
    assert (j <> parent i) by (intros ->; lia). rewrite (Hrest j) by done.
    specialize (H1 j Hj Hji). rewrite Hpj in H1. lia.
Qed.

Lemma sift_up_ok : forall fuel q i, arrays_ok q -> (i < size q)%nat -> (i < fuel)%nat -> up_inv (prios q) (size q) i ->
  exists q', sift_up fuel q i = Ok q' /\ pq_wf q' /\ size q' = size q /\ cap q' = cap q /\ pairs q' ≡ₚ pairs q.
Proof.
  induction fuel as [|fuel IH]; intros q i Hq Hi Hf Hinv; [lia|]. cbn [sift_up].
  destruct (Nat.ltb_spec 0 i) as [H0|H0].
  - fold (parent i). pose proof (parent_lt i H0) as Hp. rewrite !aload_pr by (done || lia). cbn [obind].
    destruct (Z.leb_spec (pr (prios q) (parent i)) (pr (prios q) i)) as [Hle|Hlt].
    + exists q. split_and!; try done. split; [done|]. intros j Hj.
      destruct (decide (j = i)) as [->|]; [done|]. by apply Hinv.
    + destruct (pq_swap_ok q (parent i) i) as (q1 & -> & Hq1 & Hs & Hc & Hp1 & Ha & Hb & Hr); [done|lia|lia|lia|].
      cbn [obind]. destruct (IH q1 (parent i)) as (q' & -> & Hw & Hs' & Hc' & Hp'); [done|lia|lia| |].
      { rewrite Hs. by apply (up_inv_swap (prios q) _ _ i). }
      exists q'. split_and!; [done|done|congruence|congruence|by rewrite Hp'].
  - exists q. split_and!; try done. split; [done|]. intros j Hj. apply Hinv; [done|lia].
Qed.

Lemma pick_ok q c s : arrays_ok q -> (s < size q)%nat ->
  pick q c s = Ok (if (c <? size q)%nat && (pr (prios q) c <? pr (prios q) s) then c else s).
Proof.
  intros Hq Hs. unfold pick. destruct (Nat.ltb_spec c (size q)); [|done]. by rewrite !aload_pr by done.
Qed.

(** The two comparisons choose the smallest of a slot and its children. *)
Lemma pick_both q i : arrays_ok q -> (i < size q)%nat ->
  exists s, (let! s := pick q (2 * i + 1) i in pick q (2 * i + 2) s) = Ok s /\ (s < size q)%nat /\
    pr (prios q) s <= pr (prios q) i /\
    (forall j, (0 < j < size q)%nat -> parent j = i -> pr (prios q) s <= pr (prios q) j) /\
    (s = i \/ (0 < s)%nat /\ parent s = i /\ pr (prios q) s < pr (prios q) i).
Proof.
  intros Hq Hi. rewrite pick_ok by done. cbn [obind]. set (P := pr (prios q)).
  set (s1 := if _ && _ then (2 * i + 1)%nat else i).
  assert (Hs1 : (s1 < size q)%nat /\ P s1 <= P i /\ ((2 * i + 1 < size q)%nat -> P s1 <= P (2 * i + 1)%nat) /\
    (s1 = i \/ s1 = (2 * i + 1)%nat /\ P s1 < P i)).
  { unfold s1. fold P. destruct (Nat.ltb_spec (2 * i + 1) (size q)), (Z.ltb_spec (P (2 * i + 1)%nat) (P i)); cbn [andb];
      split_and!; intros; try lia; (by left) || (right; split; [done|lia]). }
  destruct Hs1 as (Hs1 & Hle & Hl & Hc). rewrite pick_ok by done. fold P.
  set (s2 := if _ && _ then (2 * i + 2)%nat else s1). exists s2. split; [done|].
  assert (Hs2 : (s2 < size q)%nat /\ P s2 <= P s1 /\ ((2 * i + 2 < size q)%nat -> P s2 <= P (2 * i + 2)%nat) /\
    (s2 = s1 \/ s2 = (2 * i + 2)%nat /\ P s2 < P s1)).
  { unfold s2. destruct (Nat.ltb_spec (2 * i + 2) (size q)), (Z.ltb_spec (P (2 * i + 2)%nat) (P s1)); cbn [andb];
      split_and!; intros; try lia; (by left) || (right; split; [done|lia]). }
  destruct Hs2 as (Hs2 & Hle2 & Hr & Hc2). split_and!; [done|lia| |].
  - intros j Hj [->| ->]%parent_child; [|specialize (Hr ltac:(lia)); lia|lia]. specialize (Hl ltac:(lia)). lia.
  - destruct Hc2 as [->|[Hc2 Hlt2]].
    + destruct Hc as [|[Hc Hlt]]; [by left|right]. split_and!; [lia|apply parent_child; lia|lia].
    + right. split_and!; [lia|apply parent_child; lia|lia].
Qed.

Lemma down_inv_swap P P' n i s : (s < n)%nat -> (0 < s)%nat -> parent s = i -> down_inv P n i ->
  pr P s < pr P i -> (forall j, (0 < j < n)%nat -> parent j = i -> pr P s <= pr P j) ->
  pr P' i = pr P s -> pr P' s = pr P i -> (forall k, k <> i -> k <> s -> pr P' k = pr P k) -> down_inv P' n s.
Proof.
  intros Hs H0 Hps [H1 H2] Hlt Hmin Hi Hs' Hrest. pose proof (parent_lt s H0). split.
  - intros j Hj Hpj. destruct (decide (j = s)) as [->|Hjs]; [rewrite Hps, Hi; lia|].
    destruct (decide (parent j = i)) as [Hji|Hji].
    + rewrite Hji, Hi. assert (j <> i) by (intros ->; pose proof (parent_lt i ltac:(lia)); lia).
      rewrite Hrest by done. by apply Hmin.
    + rewrite (Hrest (parent j)) by done. destruct (decide (j = i)) as [->|].
      * rewrite Hi. apply H2; [lia|done|lia].
      * rewrite Hrest by done. by apply H1.
  - intros j Hj Hpj _. pose proof (parent_lt j ltac:(lia)). rewrite Hps, Hi. rewrite Hrest by lia.
    specialize (H1 j Hj ltac:(lia)). by rewrite Hpj in H1.
Qed.

Lemma sift_down_ok : forall fuel q i, arrays_ok q -> (i < size q)%nat -> (size q - i <= fuel)%nat ->
  down_inv (prios q) (size q) i ->
  exists q', sift_down fuel q i = Ok q' /\ pq_wf q' /\ size q' = size q /\ cap q' = cap q /\ pairs q' ≡ₚ pairs q.
Proof.
  induction fuel as [|fuel IH]; intros q i Hq Hi Hf Hinv; [lia|]. cbn [sift_down].
  destruct (pick_both q i Hq Hi) as (s & Hpick & Hs & Hle & Hmin & Hcase).
  destruct (pick q (2 * i + 1) i) as [s1| |]; cbn [obind] in Hpick |- *; try done. rewrite Hpick. cbn [obind].
  destruct (Nat.eqb_spec s i) as [->|Hne].
  - exists q. split_and!; try done. split; [done|]. intros j Hj.
    destruct (decide (parent j = i)) as [Hp|Hp]; [rewrite Hp; by apply Hmin|by apply Hinv].
  - destruct Hcase as [|(H0 & Hps & Hlt)]; [done|]. pose proof (parent_lt s H0).
    destruct (pq_swap_ok q i s) as (q1 & -> & Hq1 & Hs1 & Hc1 & Hp1 & Ha & Hb & Hr); [done|lia|lia|lia|].
    cbn [obind]. destruct (IH q1 s) as (q' & -> & Hw & Hs' & Hc' & Hp'); [done|lia|lia| |].
    { rewrite Hs1. by apply (down_inv_swap (prios q) _ _ i s). }
    exists q'. split_and!; [done|done|congruence|congruence|by rewrite Hp'].
Qed.

(** ** The operations *)

Definition mem_ok (n : nat) (m : option (list Z)) : Prop := forall a, m = Some a -> length a = n.

Lemma heap_min P n : heap P n -> forall j, (j < n)%nat -> pr P 0 <= pr P j.
Proof.
  intros Hh j. induction (lt_wf j) as [j _ IH]. intros Hj. destruct (decide (j = 0%nat)) as [->|]; [lia|].
  specialize (Hh j ltac:(lia)). pose proof (parent_lt j ltac:(lia)). specialize (IH (parent j) ltac:(lia) ltac:(lia)). lia.
Qed.

Lemma pairs_elem_min q x : pq_wf q -> x ∈ pairs q -> pr (prios q) 0 <= x.1.
Proof.
  intros [Hq Hh] [i Hi]%list_elem_of_lookup. pose proof Hi as Hz. unfold pairs in Hz.
  apply lookup_zip_with_Some in Hz as (p & v & -> & Hp & _). apply lookup_take_Some in Hp as [Hp Hlt].
  cbn. pose proof (heap_min _ _ Hh i Hlt) as Hm. unfold pr at 2 in Hm. by rewrite Hp in Hm.
Qed.

Lemma copy_into_ok nd d n : (n <= length d)%nat -> (n <= length nd)%nat ->
  copy_into nd d n = Ok (take n d ++ drop n nd).
Proof. intros. unfold copy_into. by rewrite !(proj2 (Nat.leb_le _ _)) by done. Qed.

Lemma copy_length (nd d : list Z) n : (n <= length d)%nat -> (n <= length nd)%nat ->
  length (take n d ++ drop n nd) = length nd /\ take n (take n d ++ drop n nd) = take n d.
Proof.
  intros. rewrite length_app, length_take, length_drop. split; [lia|].
  rewrite take_app_le, take_take, Nat.min_id by (rewrite length_take; lia). done.
Qed.

Lemma pq_reserve_ok q c mp mv : pq_wf q -> mem_ok c mp -> mem_ok c mv ->
  exists q' b, nuwan_pq_reserve (Some q) c mp mv = Ok (Some q', b) /\ pq_wf q' /\ pairs q' = pairs q /\ size q' = size q /\
    b = (c <=? cap q)%nat || (opt_bool mp && opt_bool mv) /\ (b = true -> (c <= cap q')%nat).
Proof.
  intros Hwf Hp Hv. unfold nuwan_pq_reserve. destruct (Nat.leb_spec c (cap q)); [by exists q, true|].
  destruct mp as [np|]; [|by exists q, false]. destruct mv as [nv|]; [|by exists q, false].
  specialize (Hp np eq_refl). specialize (Hv nv eq_refl). destruct Hwf as [[H1 H2 H3] Hh].
  destruct (Nat.eqb_spec (size q) 0) as [Hz|Hz]; cbn [obind].
  - eexists _, true. split_and!; [done| | |done|done|done].
    + split; [constructor; cbn; lia|]. intros j Hj. cbn in Hj. lia.
    + unfold pairs. cbn. by rewrite Hz.
  - rewrite !copy_into_ok by lia. cbn [obind]. destruct (copy_length np (prios q) (size q)) as [L1 T1]; [lia..|].
    destruct (copy_length nv (vals q) (size q)) as [L2 T2]; [lia..|].
    eexists _, true. split_and!; [done| | |done|done|done].
    + split; [constructor; cbn; lia|]. intros j Hj. cbn in Hj |- *. unfold pr.
      pose proof (parent_lt j ltac:(lia)). rewrite !lookup_app_l by (rewrite length_take; lia).
      rewrite !lookup_take_lt by lia. by apply Hh.
    + unfold pairs. cbn. by rewrite T1, T2.
Qed.

(** A new last element may break the edge into it only. *)
Lemma push_last q p v : pq_wf q -> (size q < cap q)%nat ->
  exists P V, astore (prios q) (size q) p = Ok P /\ astore (vals q) (size q) v = Ok V /\
    arrays_ok (mkPQ P V (S (size q)) (cap q)) /\ up_inv P (S (size q)) (size q) /\
    pairs (mkPQ P V (S (size q)) (cap q)) = pairs q ++ [(p, v)].
Proof.
  intros [[H1 H2 H3] Hh] Hlt. unfold astore. rewrite !(proj2 (Nat.ltb_lt _ _)) by lia.
  eexists _, _. split_and!; [done|done| | |].
  - constructor; cbn; rewrite ?length_insert; done.
  - split.
    + intros j Hj Hne. pose proof (parent_lt j ltac:(lia)). unfold pr. rewrite !list_lookup_insert_ne by lia.
      apply Hh. lia.
    + intros j Hj Hpj _. pose proof (parent_lt j ltac:(lia)). lia.
  - unfold pairs. cbn. rewrite (take_S_r _ _ p), (take_S_r _ _ v) by (rewrite list_lookup_insert_eq; [done|lia]).
    rewrite !take_insert_ge by lia. by rewrite zip_with_app by (rewrite !length_take; lia).
Qed.

Lemma pop_swap q : pq_wf q -> size q <> 0%nat ->
  exists v lp lv, aload (vals q) 0 = Ok v /\ aload (prios q) (size q - 1) = Ok lp /\ aload (vals q) (size q - 1) = Ok lv /\
    let q1 := mkPQ (<[0%nat := lp]> (prios q)) (<[0%nat := lv]> (vals q)) (size q - 1) (cap q) in
    astore (prios q) 0 lp = Ok (prios q1) /\ astore (vals q) 0 lv = Ok (vals q1) /\ arrays_ok q1 /\
    down_inv (prios q1) (size q1) 0 /\ (pr (prios q) 0, v) :: pairs q1 ≡ₚ pairs q.
Proof.
  intros [Hq Hh] Hz. destruct (pairs_lookup q 0 Hq ltac:(lia)) as (p & v & Hp & Hv & Hpair).
  destruct (pairs_lookup q (size q - 1) Hq ltac:(lia)) as (lp & lv & Hlp & Hlv & Hlast).
  assert (Hlen : length (pairs q) = size q).
  { destruct Hq as [H1 H2 H3]. unfold pairs. rewrite length_zip_with, !length_take. lia. }
  destruct Hq as [H1 H2 H3].
  exists v, lp, lv. unfold aload, astore. rewrite Hv, Hlp, Hlv.
  cbv zeta. split; [done|]. split; [done|]. split; [done|]. cbn [prios vals size].
  rewrite !(proj2 (Nat.ltb_lt _ _)) by lia. split_and!; try done.
  - constructor; cbn; rewrite ?length_insert; lia.
  - split; [|lia]. intros j Hj Hne. unfold pr. rewrite !list_lookup_insert_ne by lia. apply Hh. lia.
  - unfold pr. rewrite Hp. cbn [default]. rewrite <- (swap_remove_perm (pairs q) 0 (p, v) Hpair). constructor.
    unfold swap_remove. rewrite last_lookup, Hlen. replace (pred (size q)) with (size q - 1)%nat by lia. rewrite Hlast.
    unfold pairs. cbn. rewrite <- !zip_with_take, zip_insert.
    rewrite <- (take_insert_lt _ (size q)), take_take by lia. by rewrite Nat.min_l by lia.
Qed.

(** C28: [nuwan_pq_push] adds one pair to the queue, growing the arrays when
    they are full, and refuses without a change when the arena has no memory;
    [nuwan_pq_pop] returns the value of a pair of least priority and removes
    exactly that pair.  Both restore the heap order and end. *)
Theorem pq_refines_multiset fuel q p v mp mv :
  pq_wf q -> (0 < cap q)%nat -> mem_ok (cap q * 2) mp -> mem_ok (cap q * 2) mv -> (size q < fuel)%nat ->
  let room := (size q <? cap q)%nat || (opt_bool mp && opt_bool mv) in
  (exists q', nuwan_pq_push fuel (Some q) p v mp mv = Ok (Some q', room) /\ pq_wf q' /\
     pairs q' ≡ₚ (if room then (p, v) :: pairs q else pairs q)) /\
  (size q = 0%nat -> nuwan_pq_pop fuel (Some q) = Ok (Some q, 0)) /\
  (size q <> 0%nat -> exists q' w, nuwan_pq_pop fuel (Some q) = Ok (Some q', w) /\ pq_wf q' /\
     nuwan_pq_peek (Some q) = Ok w /\ nuwan_pq_peek_priority (Some q) = Ok (pr (prios q) 0) /\
     (pr (prios q) 0, w) :: pairs q' ≡ₚ pairs q /\ forall x, x ∈ pairs q -> pr (prios q) 0 <= x.1).
Proof.
  intros Hwf Hc Hmp Hmv Hfuel room. split_and!.
  - unfold nuwan_pq_push.
    assert (exists q1, (if (size q =? cap q)%nat then nuwan_pq_reserve (Some q) (cap q * 2) mp mv else Ok (Some q, true)) =
        Ok (Some q1, room) /\ pq_wf q1 /\ pairs q1 = pairs q /\ size q1 = size q /\ (room = true -> (size q1 < cap q1)%nat))
      as (q1 & -> & Hw & Hp & Hs & Hr).
    { pose proof (ao_size _ (proj1 Hwf)). unfold room. destruct (Nat.eqb_spec (size q) (cap q)) as [He|He].
      - destruct (pq_reserve_ok q (cap q * 2) mp mv) as (q1 & b & -> & Hw & Hp & Hs & Hb & Hcb); [done..|].
        rewrite (proj2 (Nat.leb_gt _ _)) in Hb by lia. rewrite (proj2 (Nat.ltb_ge _ _)) by lia.
        exists q1. rewrite Hb. split_and!; try done. intros Hx. rewrite Hb in Hcb. specialize (Hcb Hx). lia.
      - rewrite (proj2 (Nat.ltb_lt _ _)) by lia. exists q. split_and!; try done. intros _. lia. }
    cbn [obind]. destruct room; [|exists q1; rewrite Hp; by split_and!].
    destruct (push_last q1 p v Hw (Hr eq_refl)) as (P & V & -> & -> & Ha & Hup & Hpair). cbn [obind].
    destruct (sift_up_ok fuel _ (size q1) Ha) as (q' & -> & Hw' & _ & _ & Hp'); [cbn; lia|lia|done|].
    exists q'. split_and!; [done|done|]. rewrite Hp', Hpair, Hp. symmetry. apply Permutation_cons_append.
  - intros Hz. unfold nuwan_pq_pop. by rewrite Hz.
  - intros Hz. destruct (pop_swap q Hwf Hz) as (w & lp & lv & H1 & H2 & H3 & H4 & H5 & Ha & Hd & Hp).
    unfold nuwan_pq_pop, nuwan_pq_peek, nuwan_pq_peek_priority. rewrite (proj2 (Nat.eqb_neq _ _)) by done.
    rewrite H1. cbn [obind]. rewrite H2. cbn [obind]. rewrite H4. cbn [obind]. rewrite H3. cbn [obind]. rewrite H5.
    cbn [obind].
    assert (exists q', sift_down fuel (mkPQ (<[0%nat := lp]> (prios q)) (<[0%nat := lv]> (vals q)) (size q - 1) (cap q)) 0 = Ok q' /\
      pq_wf q' /\ pairs q' ≡ₚ pairs (mkPQ (<[0%nat := lp]> (prios q)) (<[0%nat := lv]> (vals q)) (size q - 1) (cap q)))
      as (q' & Hs & Hw & Hp').
    { destruct (decide (size q = 1%nat)) as [H0|H0].
      - rewrite H0 in *. cbn [Nat.sub] in *. destruct fuel as [|fuel]; [lia|]. eexists. split; [done|]. split; [|done].
        split; [done|]. intros j Hj. cbn in Hj. lia.
      - destruct (sift_down_ok fuel _ 0 Ha) as (q' & Hs & Hw & _ & _ & Hp'); [cbn; lia|cbn; lia|done|]. by exists q'. }
    cbn [prios vals]. rewrite Hs. cbn [obind]. exists q', w. split_and!; try done.
    + rewrite (aload_pr q 0) by (apply Hwf || lia). done.
    + by rewrite Hp'.
    + intros x. by apply pairs_elem_min.
Qed.

Definition ex_pq : NuwanPQ := mkPQ [1; 4; 2; 9] [10; 40; 20; 90] 4 4.

Lemma ex_pq_wf : pq_wf ex_pq.
Proof.
  split; [constructor; cbn; lia|]. intros j Hj. cbn in Hj.
  destruct j as [|[|[|[|j]]]]; [lia|vm_compute; discriminate..|lia].
Qed.

Lemma pq_refines_multiset_witness :
  (exists q', nuwan_pq_push 5 (Some ex_pq) 0 7 (Some (repeat 0 8)) (Some (repeat 0 8)) = Ok (Some q', true) /\ pq_wf q' /\
     pairs q' ≡ₚ (0, 7) :: pairs ex_pq) /\
  (exists q' w, nuwan_pq_pop 5 (Some ex_pq) = Ok (Some q', w) /\ (1, w) :: pairs q' ≡ₚ pairs ex_pq).
Proof.
  destruct (pq_refines_multiset 5 ex_pq 0 7 (Some (repeat 0 8)) (Some (repeat 0 8)) ex_pq_wf) as (H1 & _ & H2);
    [cbn; lia|by intros a [= <-]|by intros a [= <-]|cbn; lia|].
  split; [exact H1|]. destruct H2 as (q' & w & Hq & _ & _ & _ & Hp & _); [done|]. exists q', w. split; [exact Hq|exact Hp].
Defined.
