(* ===== verification/Deque.v ===== *)
(** * The work-stealing deque

    [src/runtime/sync/lockfree_deque.c], the Chase-Lev algorithm on an array
    of fixed capacity: one owner pushes and pops at [bottom], any number of
    thieves steal at [top].  All accesses to [top] and [bottom] are
    sequentially consistent, and each is one step, as is each access to a slot;
    the steps of the threads interleave freely.  A work item is a pointer: 0 is
    [NULL].  The 64-bit counters do not wrap (2^63 operations). *)
From S2P Require Import Prelude.

(** ** Creation *)

Definition array_create (capacity : Z) (mem : bool) : outcome (option (list Z)) :=
  if Z.land capacity (u64 (capacity - 1)) =? 0
  then Ok (if mem then Some (repeat 0 (Z.to_nat capacity)) else None)
  else Undef (* the assertion *).

(** The rounding to a power of two. *)
Definition round_pow2 (n : Z) : Z :=
  if negb (Z.land n (u64 (n - 1)) =? 0) then
    let n := u64 (n - 1) in
    let n := Z.lor n (Z.shiftr n 1) in
    let n := Z.lor n (Z.shiftr n 2) in
    let n := Z.lor n (Z.shiftr n 4) in
    let n := Z.lor n (Z.shiftr n 8) in
    let n := Z.lor n (Z.shiftr n 16) in
    u64 (n + 1)
  else n.

Definition initial_capacity (n : Z) : Z :=
  let n := round_pow2 n in if n <? 16 then 16 else n.

(** ** Threads *)

(** The owner, between two accesses to the shared memory. *)
Inductive owner_pc :=
| OIdle
| OPush1 (item : Z)                (* about to load [bottom] *)
| OPush2 (item b : Z)              (* about to load [top] *)
| OPush3 (item b t : Z)            (* about to test and write the slot *)
| OPush4 (item b : Z)              (* about to store [bottom] *)
| OPop1
| OPop2 (b : Z)                    (* about to store [bottom] *)
| OPop3 (b : Z)                    (* about to load [top] *)
| OPop4 (b t : Z)                  (* about to read the slot [b] *)
| OPop5 (b t item : Z)             (* about to compare and swap [top] *)
| OPop6 (b item : Z).              (* about to restore [bottom] *)

Inductive thief_pc :=
| TIdle
| TSteal1                          (* about to load [top] *)
| TSteal2 (t : Z)                  (* about to load [bottom] *)
| TSteal3 (t : Z)                  (* about to read the slot [t] *)
| TSteal4 (t item : Z).            (* about to compare and swap [top] *)

(** The shared memory and the threads.  [pushed] and [taken] record the items
    for which [push] returned true, and those that [pop] and [steal] returned. *)
Record Deque := mkDeque {
  top : Z; bottom : Z; items : list Z;
  owner : owner_pc; thieves : list thief_pc;
  pushed : list Z; taken : list Z
}.

Definition capacity (d : Deque) : Z := Z.of_nat (length (items d)).

Definition array_get (d : Deque) (index : Z) : Z := default 0 (items d !! Z.to_nat (index mod capacity d)).
Definition array_put (d : Deque) (index item : Z) : list Z := <[Z.to_nat (index mod capacity d) := item]> (items d).

Definition deque_create (n : Z) (alloc mem : bool) (threads : nat) : outcome (option Deque) :=
  if alloc then
    let! a := array_create (initial_capacity n) mem in
    Ok (match a with Some a => Some (mkDeque 0 0 a OIdle (repeat TIdle threads) [] []) | None => None end)
  else Ok None.

Definition set_owner (d : Deque) (o : owner_pc) : Deque :=
  mkDeque (top d) (bottom d) (items d) o (thieves d) (pushed d) (taken d).
Definition set_bottom (d : Deque) (b : Z) (o : owner_pc) : Deque :=
  mkDeque (top d) b (items d) o (thieves d) (pushed d) (taken d).
Definition set_top (d : Deque) (t : Z) (o : owner_pc) : Deque :=
  mkDeque t (bottom d) (items d) o (thieves d) (pushed d) (taken d).

(** The owner returns an item, or [NULL]. *)
Definition owner_returns (d : Deque) (item : Z) : Deque :=
  mkDeque (top d) (bottom d) (items d) OIdle (thieves d) (pushed d) (if item =? 0 then taken d else item :: taken d).

(** One step of [deque_push] or [deque_pop]. *)
Definition owner_step (d : Deque) : Deque :=
  match owner d with
  | OIdle => d
  | OPush1 x => set_owner d (OPush2 x (bottom d))
  | OPush2 x b => set_owner d (OPush3 x b (top d))
  | OPush3 x b t =>
      if capacity d <=? b - t then set_owner d OIdle (* false *)
      else mkDeque (top d) (bottom d) (array_put d b x) (OPush4 x b) (thieves d) (pushed d) (taken d)
  | OPush4 x b => mkDeque (top d) (b + 1) (items d) OIdle (thieves d) (x :: pushed d) (taken d)
  | OPop1 => set_owner d (OPop2 (bottom d - 1))
  | OPop2 b => set_bottom d b (OPop3 b)
  | OPop3 b => set_owner d (if top d <=? b then OPop4 b (top d) else OPop6 b 0)
  | OPop4 b t =>
      let item := array_get d b in
      if t =? b then set_owner d (OPop5 b t item) else owner_returns d item
  | OPop5 b t item =>
      if top d =? t then set_top d (t + 1) (OPop6 b item) else set_owner d (OPop6 b 0)
  | OPop6 b item => owner_returns (set_bottom d (b + 1) OIdle) item
  end.

Definition set_thief (d : Deque) (i : nat) (p : thief_pc) : Deque :=
  mkDeque (top d) (bottom d) (items d) (owner d) (<[i := p]> (thieves d)) (pushed d) (taken d).

(** One step of [deque_steal] in the thread [i]. *)
Definition thief_step (d : Deque) (i : nat) (p : thief_pc) : Deque :=
  match p with
  | TIdle => d
  | TSteal1 => set_thief d i (TSteal2 (top d))
  | TSteal2 t => set_thief d i (if t <? bottom d then TSteal3 t else TIdle)
  | TSteal3 t => set_thief d i (TSteal4 t (array_get d t))
  | TSteal4 t item =>
      if top d =? t then
        mkDeque (t + 1) (bottom d) (items d) (owner d) (<[i := TIdle]> (thieves d)) (pushed d) (item :: taken d)
      else set_thief d i TIdle
  end.

(** What a thread does: start a call, or take a step. *)
Inductive action := CallPush (item : Z) | CallPop | OwnerStep | CallSteal (i : nat) | ThiefStep (i : nat).

(** [deque_push] refuses [NULL] before it touches the deque. *)
Definition act (a : action) (d : Deque) : option Deque :=
  match a, owner d with
  | CallPush x, OIdle => Some (if x =? 0 then d else set_owner d (OPush1 x))
  | CallPop, OIdle => Some (set_owner d OPop1)
  | OwnerStep, OIdle => None
  | OwnerStep, _ => Some (owner_step d)
  | CallSteal i, _ => match thieves d !! i with Some TIdle => Some (set_thief d i TSteal1) | _ => None end
  | ThiefStep i, _ =>
      match thieves d !! i with None | Some TIdle => None | Some p => Some (thief_step d i p) end
  | _, _ => None
  end.

Inductive step : Deque -> Deque -> Prop :=
| step_act a d d' : act a d = Some d' -> step d d'.

(** A schedule. *)
Fixpoint run (l : list action) (d : Deque) : option Deque :=
  match l with [] => Some d | a :: l => d ← act a d; run l d end.

(** [deque_size] reads [bottom], then [top]. *)
Definition deque_size (b t : Z) : Z := let size := b - t in if 0 <? size then size else 0.
Definition deque_is_empty (b t : Z) : bool := deque_size b t =? 0.
Definition deque_capacity (d : option Deque) : Z := match d with Some d => capacity d | None => 0 end.
