(* ===== verification/DequeFacts.v ===== *)
(** * No item of the deque is lost or taken twice

    The invariant of the Chase-Lev deque holds under every interleaving of
    the owner and the thieves; every call ends after a bounded number of its
    own steps, whatever the others do. *)
From S2P Require Import Prelude CArray Deque.

(** The end of the part that is still in the deque: while the owner pops, the
    last item leaves it at the step that decides. *)
Definition eb (d : Deque) : Z :=
  match owner d with
  | OPop3 b | OPop5 b _ _ | OPop6 b _ => b + 1
  | OPop4 b t => if t =? b then b + 1 else b
  | _ => bottom d
  end.

(** What the owner has taken and not yet returned. *)
Definition hand (d : Deque) : list Z :=
  match owner d with
  | OPop4 b t => if t =? b then [] else [array_get d b]
  | OPop6 _ item => if item =? 0 then [] else [item]
  | _ => []
  end.

Definition contents (d : Deque) : list Z := ring (items d) (capacity d) (top d) (Z.to_nat (eb d - top d)).

Definition owner_ok (d : Deque) : Prop :=
  match owner d with
  | OIdle | OPop1 => True
  | OPush1 x => x <> 0
  | OPush2 x b => x <> 0 /\ b = bottom d
  | OPush3 x b t => x <> 0 /\ b = bottom d /\ t <= top d
  | OPush4 x b => x <> 0 /\ b = bottom d /\ b - top d < capacity d /\ array_get d b = x
  | OPop2 b => b = bottom d - 1
  | OPop3 b => b = bottom d
  | OPop4 b t => b = bottom d /\ t <= b /\ (t = b -> b <= top d)
  | OPop5 b t item => b = bottom d /\ t = b /\ b <= top d /\ item = array_get d b
  | OPop6 b item => b = bottom d /\ top d = b + 1
  end.

(** What a thief has read is still there as long as [top] has not moved. *)
Definition thief_ok (d : Deque) (p : thief_pc) : Prop :=
  match p with
  | TIdle | TSteal1 => True
  | TSteal2 t => t <= top d
  | TSteal3 t => t <= top d /\ (top d = t -> t < eb d)
  | TSteal4 t item => t <= top d /\ (top d = t -> t < eb d /\ item = array_get d t)
  end.

Record inv (d : Deque) : Prop := {
  iv_cap : 0 < capacity d;
  iv_bounds : top d <= eb d <= top d + capacity d;
  iv_owner : owner_ok d;
  iv_thieves : forall i p, thieves d !! i = Some p -> thief_ok d p;
  iv_items : pushed d ≡ₚ taken d ++ hand d ++ contents d;
  iv_nonnull : forall x, x ∈ pushed d -> x <> 0
}.

Lemma bottom_le_eb d : inv d -> bottom d <= eb d.
Proof.
  intros H. pose proof (iv_owner _ H) as Ho. unfold eb. unfold owner_ok in Ho. destruct (owner d); try lia.
  destruct (t =? b); lia.
Qed.

Lemma item_nonnull d x : inv d -> x ∈ hand d ++ contents d -> x <> 0.
Proof. intros H Hx. apply (iv_nonnull _ H). rewrite (iv_items _ H). apply elem_of_app. by right. Qed.

Lemma array_get_mod d i j : i mod capacity d = j mod capacity d -> array_get d i = array_get d j.
Proof. unfold array_get. by intros ->. Qed.

(** ** Steps of the owner *)

(** A step that moves neither the items nor the ends. *)
Lemma inv_same d d' : inv d -> top d' = top d -> items d' = items d -> thieves d' = thieves d ->
  pushed d' = pushed d -> taken d' = taken d -> eb d' = eb d -> hand d' = hand d -> owner_ok d' -> inv d'.
Proof.
  intros [Hc Hb Ho Ht Hi Hn] H1 H2 H3 H4 H5 H6 H7 H8.
  assert (Hcap : capacity d' = capacity d) by (unfold capacity; by rewrite H2).
  assert (Hg : forall i, array_get d' i = array_get d i) by (intros i; unfold array_get; by rewrite Hcap, H2).
  constructor; rewrite ?Hcap, ?H1, ?H6, ?H4; try done.
  - intros i p. rewrite H3. intros Hp. specialize (Ht i p Hp). destruct p; simpl in *; rewrite ?H1, ?H6, ?Hg; done.
  - unfold contents. rewrite H5, H7, H6, H1, H2, Hcap. done.
Qed.

Ltac same := eapply inv_same; [eassumption|try reflexivity..]; unfold eb, hand, owner_ok; cbn.

Lemma push_write d x b t : inv d -> owner d = OPush3 x b t -> b - t < capacity d ->
  inv (mkDeque (top d) (bottom d) (array_put d b x) (OPush4 x b) (thieves d) (pushed d) (taken d)).
Proof.
  intros H Ho Hlt. destruct H as [Hc Hb How Ht Hi Hn]. unfold owner_ok in How. rewrite Ho in How.
  destruct How as (Hx & -> & Htt). unfold eb in Hb. rewrite Ho in Hb.
  set (d' := mkDeque _ _ _ _ _ _ _).
  assert (Hcap : capacity d' = capacity d) by (unfold capacity, d', array_put; cbn; by rewrite length_insert).
  assert (Heb : eb d' = bottom d /\ eb d = bottom d) by (unfold eb; cbn; by rewrite Ho).
  destruct Heb as [Heb Heb0].
  assert (Hframe : forall i, 0 <= i < bottom d - top d -> (bottom d) mod capacity d <> (top d + i) mod capacity d).
  { intros i Hir E. replace (bottom d) with (top d + (bottom d - top d)) in E at 1 by lia.
    apply mod_inj_window in E; lia. }
  constructor; rewrite ?Hcap, ?Heb; try done.
  - unfold owner_ok. cbn [d' owner bottom top]. split_and!; [done|done|lia|].
    unfold array_get. rewrite Hcap. unfold d'. cbn [items]. unfold array_put.
    pose proof (Z.mod_pos_bound (bottom d) (capacity d) Hc). rewrite list_lookup_insert_eq; [done|].
    unfold capacity in *. lia.
  - intros i p Hp. specialize (Ht i p Hp). destruct p as [| |t0|t0|t0 item]; simpl in *; rewrite ?Heb, ?Heb0 in *; try done.
    destruct Ht as [Ht1 Ht2]. split; [done|]. intros Heq. destruct (Ht2 Heq) as [Hlt' ->]. split; [done|].
    unfold array_get. rewrite Hcap. unfold d'. cbn [items]. unfold array_put.
    pose proof (Z.mod_pos_bound (bottom d) (capacity d) Hc). pose proof (Z.mod_pos_bound t0 (capacity d) Hc).
    rewrite list_lookup_insert_ne; [done|]. intros E%Z2Nat.inj; [|lia..].
    apply (Hframe 0); [lia|]. by rewrite Z.add_0_r, Heq.
  - unfold contents, hand in *. rewrite Hcap, Heb. rewrite Heb0, Ho in Hi. cbn [d' owner top items taken pushed].
    unfold array_put. rewrite ring_frame; [done|done|lia|]. intros i Hir. apply Hframe. lia.
Qed.

Lemma push_publish d x b : inv d -> owner d = OPush4 x b -> inv (owner_step d).
Proof.
  intros [Hc Hb How Ht Hi Hn] Ho. unfold owner_step. rewrite Ho. unfold owner_ok in How. rewrite Ho in How.
  destruct How as (Hx & -> & Hlt & Hg). unfold eb in Hb. rewrite Ho in Hb.
  set (d' := mkDeque _ _ _ _ _ _ _).
  assert (Heb : eb d' = bottom d + 1 /\ eb d = bottom d) by (unfold eb; cbn; by rewrite Ho).
  destruct Heb as [Heb Heb0].
  constructor; rewrite ?Heb; try done.
  - cbn [d' top]. change (capacity d') with (capacity d). lia.
  - intros i p Hp. specialize (Ht i p Hp). destruct p; simpl in *; rewrite ?Heb, ?Heb0 in *; try done.
    + split; [lia|]. intros. lia.
    + destruct Ht as [Ht1 Ht2]. split; [lia|]. intros Heq. destruct (Ht2 Heq). split; [lia|done].
  - unfold contents, hand in *. rewrite Heb. rewrite Heb0, Ho in Hi. cbn [d' owner top items taken pushed].
    change (capacity d') with (capacity d). replace (Z.to_nat (bottom d + 1 - top d)) with (S (Z.to_nat (bottom d - top d))) by lia.
    rewrite ring_snoc. rewrite Z2Nat.id by lia. replace (top d + (bottom d - top d)) with (bottom d) by lia.
    fold (array_get d (bottom d)). rewrite Hg, Hi. solve_Permutation.
  - cbn [d' pushed]. intros y [->|Hy]%elem_of_cons; [done|by apply Hn].
Qed.

(** [pop] reads [top]: the last item of a longer deque is the owner's now. *)
Lemma pop_decide d b : inv d -> owner d = OPop3 b -> inv (owner_step d).
Proof.
  intros H Ho. pose proof H as [Hc Hb How Ht Hi Hn]. unfold owner_step. rewrite Ho. unfold owner_ok in How. rewrite Ho in How.
  unfold eb in Hb. rewrite Ho in Hb. destruct (Z.leb_spec (top d) b) as [Hle|Hgt].
  - destruct (Z.eq_dec (top d) b) as [Heq|Hne].
    + same; rewrite ?Ho, ?Heq, ?Z.eqb_refl; done.
    + set (d' := set_owner d _).
      assert (Heb : eb d' = b) by (unfold eb; cbn; by rewrite (proj2 (Z.eqb_neq _ _))).
      assert (Heb0 : eb d = b + 1) by (unfold eb; by rewrite Ho).
      constructor; rewrite ?Heb; try done.
      * cbn [d' set_owner top]. change (capacity d') with (capacity d). lia.
      * intros i p Hp. specialize (Ht i p Hp). destruct p; simpl in *; rewrite ?Heb, ?Heb0 in *; try done; try lia.
        destruct Ht as [Ht1 Ht2]. split; [done|]. intros Heq. destruct (Ht2 Heq). split; [lia|done].
      * unfold contents, hand in *. rewrite Heb. rewrite Heb0, Ho in Hi. cbn [d' set_owner owner top items taken pushed].
        rewrite (proj2 (Z.eqb_neq (top d) b)) by done. change (capacity d') with (capacity d).
        change (array_get d' b) with (array_get d b).
        replace (Z.to_nat (b + 1 - top d)) with (S (Z.to_nat (b - top d))) in Hi by lia.
        rewrite ring_snoc, Z2Nat.id in Hi by lia. replace (top d + (b - top d)) with b in Hi by lia.
        fold (array_get d b) in Hi. rewrite Hi. solve_Permutation.
  - same; rewrite ?Ho; try done. lia.
Qed.

(** Returning an item moves it from the hand to the items taken. *)
Lemma inv_returns d d' item : inv d -> top d' = top d -> items d' = items d -> thieves d' = thieves d ->
  pushed d' = pushed d -> taken d' = (if item =? 0 then taken d else item :: taken d) -> owner d' = OIdle ->
  bottom d' = eb d -> hand d = (if item =? 0 then [] else [item]) -> inv d'.
Proof.
  intros [Hc Hb Ho Ht Hi Hn] H1 H2 H3 H4 H5 H6 H7 H8.
  assert (Hcap : capacity d' = capacity d) by (unfold capacity; by rewrite H2).
  assert (Hg : forall i, array_get d' i = array_get d i) by (intros i; unfold array_get; by rewrite Hcap, H2).
  assert (Heb : eb d' = eb d) by (unfold eb at 1; by rewrite H6).
  constructor; rewrite ?Hcap, ?Heb, ?H1, ?H4; try done.
  - unfold owner_ok. by rewrite H6.
  - intros i p. rewrite H3. intros Hp. specialize (Ht i p Hp). destruct p; simpl in *; rewrite ?H1, ?Heb, ?Hg; done.
  - unfold contents. rewrite Hcap, Heb, H1, H2, H5. unfold hand at 1. rewrite H6, Hi, H8. unfold contents.
    destruct (item =? 0); [done|]. solve_Permutation.
Qed.

Lemma ring_empty (l : list Z) c h n : n <= 0 -> ring l c h (Z.to_nat n) = [].
Proof. intros Hn. by replace (Z.to_nat n) with 0%nat by lia. Qed.

Lemma ring_head (l : list Z) c h n : 0 < n -> ring l c h (Z.to_nat n) = default 0 (l !! Z.to_nat (h mod c)) :: ring l c (h + 1) (Z.to_nat (n - 1)).
Proof. intros Hn. by replace (Z.to_nat n) with (S (Z.to_nat (n - 1))) by lia. Qed.

(** The owner wins the race for the last item. *)
Lemma pop_wins d b t item : inv d -> owner d = OPop5 b t item -> top d = t ->
  inv (set_top d (t + 1) (OPop6 b item)).
Proof.
  intros H Ho Heq. pose proof H as [Hc Hb How Ht Hi Hn]. unfold owner_ok in How. rewrite Ho in How.
  destruct How as (-> & Htb & Hle & ->). unfold eb in Hb. rewrite Ho in Hb. set (d' := set_top d _ _).
  assert (Heb : eb d' = bottom d + 1 /\ eb d = bottom d + 1) by (unfold eb; cbn; by rewrite Ho). destruct Heb as [Heb Heb0].
  assert (Hi' : pushed d ≡ₚ taken d ++ [array_get d (bottom d)]).
  { rewrite Hi. unfold contents, hand. rewrite Ho, Heb0. cbn [app]. rewrite ring_head by lia.
    rewrite (ring_empty _ _ (top d + 1)) by lia. unfold array_get. by rewrite Heq, Htb. }
  assert (Hnz : array_get d (bottom d) <> 0).
  { apply Hn. rewrite Hi'. apply elem_of_app. right. by left. }
  constructor; rewrite ?Heb; try done.
  - cbn [d' set_top top]. change (capacity d') with (capacity d). lia.
  - unfold owner_ok. cbn [d' set_top owner bottom top]. lia.
  - intros i p Hp. specialize (Ht i p Hp). destruct p; simpl in *; rewrite ?Heb, ?Heb0 in *; lia.
  - unfold contents, hand. rewrite Heb. cbn [d' set_top owner top items taken pushed]. rewrite (proj2 (Z.eqb_neq _ _)) by done.
    rewrite ring_empty by lia. by rewrite app_nil_r.
Qed.

Lemma owner_step_inv d : inv d -> owner d <> OIdle -> inv (owner_step d).
Proof.
  intros H Hne. pose proof (iv_owner _ H) as Hok. pose proof (iv_bounds _ H) as Hb. unfold owner_ok in Hok.
  destruct (owner d) as [|x|x b|x b t|x b| |b|b|b t|b t item|b item] eqn:Ho; [done|..].
  - unfold owner_step. rewrite Ho. same; rewrite ?Ho; done.
  - unfold owner_step. rewrite Ho. same; rewrite ?Ho; try done. destruct Hok. split_and!; [done|done|lia].
  - unfold owner_step. rewrite Ho. destruct (Z.leb_spec (capacity d) (b - t)) as [Hf|Hf].
    + same; rewrite ?Ho; done.
    + by apply (push_write d x b t).
  - by apply (push_publish d x b).
  - unfold owner_step. rewrite Ho. same; rewrite ?Ho; done.
  - unfold owner_step. rewrite Ho. same; rewrite ?Ho; done || lia.
  - by apply (pop_decide d b).
  - unfold owner_step. rewrite Ho. destruct Hok as (Hbb & Hle & Heq). destruct (Z.eqb_spec t b) as [->|Hn].
    + same; rewrite ?Ho, ?Z.eqb_refl; try done. split_and!; [done|done|by apply Heq|done].
    + assert (Hnz : array_get d b <> 0).
      { apply (item_nonnull d); [done|]. unfold hand. rewrite Ho, (proj2 (Z.eqb_neq _ _)) by done. by left. }
      apply (inv_returns d _ (array_get d b)); try done.
      * unfold eb. by rewrite Ho, (proj2 (Z.eqb_neq _ _)) by done.
      * unfold hand. by rewrite Ho, !(proj2 (Z.eqb_neq _ _)) by done.
  - unfold owner_step. rewrite Ho. destruct (Z.eqb_spec (top d) t) as [Heq|Hne']; [by apply pop_wins|].
    unfold eb in Hb. rewrite Ho in Hb. same; rewrite ?Ho; done || lia.
  - unfold owner_step. rewrite Ho. apply (inv_returns d _ item); try done.
    + unfold eb. by rewrite Ho.
    + unfold hand. by rewrite Ho.
Qed.

(** ** Steps of a thief *)

Lemma inv_thief d i q : inv d -> thief_ok d q -> inv (set_thief d i q).
Proof.
  intros [Hc Hb Ho Ht Hi Hn] Hq. constructor; try done. intros j p Hp. cbn in Hp.
  destruct (decide (j = i)) as [->|Hne].
  - pose proof (lookup_lt_Some _ _ _ Hp) as Hlt. rewrite length_insert in Hlt.
    rewrite list_lookup_insert_eq in Hp by done. injection Hp as <-. destruct q; done.
  - rewrite list_lookup_insert_ne in Hp by done. specialize (Ht j p Hp). destruct p; done.
Qed.

Lemma steal_wins d i t item : inv d -> thieves d !! i = Some (TSteal4 t item) -> top d = t ->
  inv (mkDeque (t + 1) (bottom d) (items d) (owner d) (<[i := TIdle]> (thieves d)) (pushed d) (item :: taken d)).
Proof.
  intros H Hp Heq. pose proof H as [Hc Hb Ho Ht Hi Hn]. destruct (Ht _ _ Hp) as [_ Hst]. destruct (Hst Heq) as [Hlt ->].
  set (d' := mkDeque _ _ _ _ _ _ _). assert (Heb : eb d' = eb d) by done.
  constructor; rewrite ?Heb; try done.
  - cbn [d' top]. change (capacity d') with (capacity d). lia.
  - unfold eb in Hlt. unfold owner_ok in *. cbn [d' owner bottom top]. change (capacity d') with (capacity d).
    destruct (owner d); cbn; try done; try lia.
    + destruct Ho as (? & ? & ? & ?). split_and!; [done|done|lia|done].
    + destruct Ho as (? & ? & ? & ?). split_and!; [done|done|lia|done].
  - intros j p. cbn [d' thieves]. destruct (decide (j = i)) as [->|Hne].
    + rewrite list_lookup_insert_eq by by apply lookup_lt_Some in Hp. intros [= <-]. done.
    + rewrite list_lookup_insert_ne by done. intros Hj. specialize (Ht j p Hj). destruct p; simpl in *; lia.
  - unfold contents in *. rewrite Heb. cbn [d' top items taken pushed]. change (capacity d') with (capacity d).
    change (hand d') with (hand d). rewrite Heq in Hi. rewrite ring_head in Hi by lia. fold (array_get d t) in Hi.
    rewrite Hi. replace (eb d - t - 1) with (eb d - (t + 1)) by lia. solve_Permutation.
Qed.

Lemma thief_step_inv d i p : inv d -> thieves d !! i = Some p -> inv (thief_step d i p).
Proof.
  intros H Hp. pose proof (iv_thieves _ H i p Hp) as Ht. pose proof (bottom_le_eb d H).
  destruct p as [| |t|t|t item]; cbn [thief_step]; [done|..].
  - apply inv_thief; [done|]. cbn. lia.
  - apply inv_thief; [done|]. destruct (Z.ltb_spec t (bottom d)); [|done]. cbn in *. lia.
  - apply inv_thief; [done|]. cbn in *. destruct Ht as [Ht1 Ht2]. split; [done|]. intros Heq. split; [by apply Ht2|done].
  - destruct (Z.eqb_spec (top d) t) as [Heq|Hne]; [by apply steal_wins|]. by apply inv_thief.
Qed.

Lemma deque_step_inv d d' : inv d -> step d d' -> inv d'.
Proof.
  intros H Hs. inversion Hs as [a d0 d1 Ha]; subst d0 d1. unfold act in Ha. destruct a as [x| | |i|i].
  - destruct (owner d) eqn:Ho; simplify_eq. destruct (Z.eqb_spec x 0); [done|]. same; rewrite ?Ho; done.
  - destruct (owner d) eqn:Ho; simplify_eq. same; rewrite ?Ho; done.
  - assert (owner d <> OIdle /\ d' = owner_step d) as [Hne ->] by (destruct (owner d); simplify_eq; done).
    by apply owner_step_inv.
  - destruct (thieves d !! i) as [[| | | |]|] eqn:Hi; simplify_eq. by apply inv_thief.
  - destruct (thieves d !! i) as [p|] eqn:Hi; [|done]. destruct p; simplify_eq; by apply thief_step_inv.
Qed.

Lemma deque_create_inv n threads d : deque_create n true true threads = Ok (Some d) -> 0 < initial_capacity n -> inv d.
Proof.
  unfold deque_create, array_create. destruct (_ =? 0); [|done]. intros [= <-] Hc.
  constructor; unfold capacity; cbn; rewrite ?repeat_length; try lia; try done.
  - intros i p Hp%list_elem_of_lookup_2%list_elem_of_In. by apply List.repeat_spec in Hp as ->.
  - intros x Hx. by apply not_elem_of_nil in Hx.
Qed.

Lemma initial_capacity_pos n : 16 <= initial_capacity n.
Proof. unfold initial_capacity. destruct (Z.ltb_spec (round_pow2 n) 16); lia. Qed.

(** C18: under every interleaving of the owner and any number of thieves, the
    items for which [deque_push] returned true are exactly the items that
    [deque_pop] and [deque_steal] have returned, the one the owner is about to
    return, and those still in the deque: none is lost, none is taken twice. *)
Theorem deque_linear n threads d0 d :
  deque_create n true true threads = Ok (Some d0) -> rtc step d0 d ->
  pushed d ≡ₚ taken d ++ hand d ++ contents d /\
  (owner d = OIdle -> pushed d ≡ₚ taken d ++ ring (items d) (capacity d) (top d) (Z.to_nat (bottom d - top d))).
Proof.
  intros H0 Hr. assert (inv d) as H.
  { apply deque_create_inv in H0; [|pose proof (initial_capacity_pos n); lia]. induction Hr; [done|]. eauto using deque_step_inv. }
  split; [apply (iv_items _ H)|]. intros Ho. pose proof (iv_items _ H) as Hi. unfold contents, hand, eb in Hi.
  by rewrite Ho in Hi.
Qed.

(** ** Every call ends *)

Inductive who := Owner | Thief (i : nat).

Definition own (w : who) : action := match w with Owner => OwnerStep | Thief i => ThiefStep i end.

(** The steps a call still has to take, at most. *)
Definition owner_left (o : owner_pc) : nat :=
  match o with
  | OIdle => 0 | OPush1 _ => 4 | OPush2 _ _ => 3 | OPush3 _ _ _ => 2 | OPush4 _ _ => 1
  | OPop1 => 6 | OPop2 _ => 5 | OPop3 _ => 4 | OPop4 _ _ => 3 | OPop5 _ _ _ => 2 | OPop6 _ _ => 1
  end.

Definition thief_left (p : thief_pc) : nat :=
  match p with TIdle => 0 | TSteal1 => 4 | TSteal2 _ => 3 | TSteal3 _ => 2 | TSteal4 _ _ => 1 end.

Definition left (w : who) (d : Deque) : nat :=
  match w with Owner => owner_left (owner d) | Thief i => thief_left (default TIdle (thieves d !! i)) end.

#[export] Instance action_eq_dec : EqDecision action.
Proof. solve_decision. Defined.

Lemma owner_step_spec d : owner d <> OIdle ->
  (owner_left (owner (owner_step d)) < owner_left (owner d))%nat /\ thieves (owner_step d) = thieves d.
Proof.
  intros Hne. unfold owner_step. destruct (owner d) eqn:Ho; try done; cbn;
    repeat (match goal with |- context [if ?x then _ else _] => destruct x end); cbn; (split; [lia|done]).
Qed.

Lemma thief_step_spec d i p : p <> TIdle -> exists q,
  thieves (thief_step d i p) = <[i := q]> (thieves d) /\ owner (thief_step d i p) = owner d /\
  (thief_left q < thief_left p)%nat.
Proof.
  intros Hp. destruct p as [| |t|t|t item]; cbn [thief_step]; [done|..].
  - eexists. split_and!; [done|done|cbn; lia].
  - eexists. split_and!; [done|done|destruct (t <? bottom d); cbn; lia].
  - eexists. split_and!; [done|done|cbn; lia].
  - exists TIdle. destruct (top d =? t); (split_and!; [done|done|cbn; lia]).
Qed.

Lemma act_own w d d' : act (own w) d = Some d' -> (left w d' < left w d)%nat.
Proof.
  destruct w as [|i]; cbn [own act left].
  - intros Ha. assert (owner d <> OIdle /\ d' = owner_step d) as [Hne ->] by (destruct (owner d); simplify_eq; done).
    by apply owner_step_spec.
  - destruct (thieves d !! i) as [p|] eqn:Hi; [|done]. intros Ha.
    assert (p <> TIdle /\ d' = thief_step d i p) as [Hne ->] by (destruct p; simplify_eq; done).
    destruct (thief_step_spec d i p Hne) as (q & Hq & _ & Hlt). rewrite Hq.
    rewrite list_lookup_insert_eq by by apply lookup_lt_Some in Hi. done.
Qed.

(** The steps of the others neither help nor hinder. *)
Lemma act_other w a d d' : act a d = Some d' -> a <> own w -> left w d <> 0%nat -> left w d' = left w d.
Proof.
  intros Ha Hne Hl. destruct w as [|i]; cbn [own left] in *; destruct a as [x| | |j|j]; cbn [act] in Ha.
  - destruct (owner d); simplify_eq; done.
  - destruct (owner d); simplify_eq; done.
  - done.
  - destruct (thieves d !! j) as [[]|]; simplify_eq; done.
  - destruct (thieves d !! j) as [p|] eqn:Hj; [|done].
    assert (p <> TIdle /\ d' = thief_step d j p) as [Hp ->] by (destruct p; simplify_eq; done).
    destruct (thief_step_spec d j p Hp) as (q & _ & -> & _). done.
  - destruct (owner d); simplify_eq. by destruct (x =? 0).
  - destruct (owner d); simplify_eq; done.
  - assert (owner d <> OIdle /\ d' = owner_step d) as [Ho ->] by (destruct (owner d); simplify_eq; done).
    by destruct (owner_step_spec d Ho) as [_ ->].
  - destruct (thieves d !! j) as [p|] eqn:Hj; [|done]. destruct p; simplify_eq. cbn.
    destruct (decide (j = i)) as [->|]; [by rewrite Hj in Hl|by rewrite list_lookup_insert_ne].
  - destruct (thieves d !! j) as [p|] eqn:Hj; [|done].
    assert (p <> TIdle /\ d' = thief_step d j p) as [Hp ->] by (destruct p; simplify_eq; done).
    destruct (thief_step_spec d j p Hp) as (q & -> & _).
    rewrite list_lookup_insert_ne; [done|]. intros ->. done.
Qed.

Lemma act_enabled w d : left w d <> 0%nat -> exists d', act (own w) d = Some d'.
Proof.
  destruct w as [|i]; cbn [own act left].
  - intros Hl. destruct (owner d); try done; eauto.
  - intros Hl. destruct (thieves d !! i) as [p|]; [|done]. destruct p; try done; eauto.
Qed.

(** How often a schedule runs a thread. *)
Definition own_steps (w : who) (l : list action) : nat := length (filter (fun a => a = own w) l).

(** The deque is wait-free.  A call in progress can always take its next
    step (no thread ever blocks another), and under every schedule of the
    other threads it has returned once its own thread has taken six steps, or
    four for a thief. *)
Theorem deque_wait_free w d :
  (left w d <= 6)%nat /\ (forall i, w = Thief i -> (left w d <= 4)%nat) /\
  (left w d <> 0%nat -> exists d', act (own w) d = Some d') /\
  forall l d', run l d = Some d' -> (left w d <= own_steps w l)%nat ->
    exists l1 l2 d1, l = l1 ++ l2 /\ run l1 d = Some d1 /\ left w d1 = 0%nat.
Proof.
  split_and!.
  - destruct w; cbn; [destruct (owner d)|destruct (default _ _)]; cbn; lia.
  - intros i ->. cbn. destruct (default _ _); cbn; lia.
  - apply act_enabled.
  - intros l. revert d. induction l as [|a l IH]; intros d d' Hr Hl.
    { exists [], [], d. split_and!; [done|done|]. cbn in Hl. lia. }
    destruct (decide (left w d = 0%nat)) as [Hz|Hz]; [by exists [], (a :: l), d|].
    cbn [run] in Hr. destruct (act a d) as [d1|] eqn:Ha; [|done]. cbn in Hr.
    destruct (IH d1 d' Hr) as (l1 & l2 & d2 & -> & Hr1 & Hz2).
    { unfold own_steps in *. rewrite filter_cons in Hl. case_decide as Hd.
      - subst a. pose proof (act_own w d d1 Ha). cbn in Hl. lia.
      - by rewrite (act_other w a d d1). }
    exists (a :: l1), l2, d2. split_and!; [done| |done]. cbn [run]. by rewrite Ha.
Qed.

(** ** The capacity *)

(** [y] has a bit wherever [x] has one at most [w - 1] places higher. *)
Definition smeared (x y w : Z) : Prop :=
  forall i, 0 <= i -> Z.testbit y i = true <-> exists j, 0 <= j < w /\ Z.testbit x (i + j) = true.

Lemma smear_step x y w : 0 < w -> smeared x y w -> smeared x (Z.lor y (Z.shiftr y w)) (2 * w).
Proof.
  intros Hw Hs i Hi. rewrite Z.lor_spec, Z.shiftr_spec, orb_true_iff, (Hs i), (Hs (i + w)) by lia. split.
  - intros [(j & Hj & Hb)|(j & Hj & Hb)]; [exists j; split; [lia|done]|].
    exists (w + j). split; [lia|]. by replace (i + (w + j)) with (i + w + j) by lia.
  - intros (j & Hj & Hb). destruct (Z_lt_le_dec j w); [left; exists j; split; [lia|done]|right].
    exists (j - w). split; [lia|]. by replace (i + w + (j - w)) with (i + j) by lia.
Qed.

Lemma smeared_ones x y w : 0 < x < 2 ^ w -> 0 <= w -> 0 <= y -> smeared x y w -> y = Z.ones (Z.log2 x + 1).
Proof.
  intros Hx Hw Hy Hs. pose proof (Z.log2_nonneg x). assert (Z.log2 x < w) by (apply Z.log2_lt_pow2; lia).
  apply Z.bits_inj'. intros i Hi. destruct (Z_lt_le_dec i (Z.log2 x + 1)) as [Hlt|Hge].
  - rewrite Z.ones_spec_low by lia. apply (Hs i Hi). exists (Z.log2 x - i). split; [lia|].
    replace (i + (Z.log2 x - i)) with (Z.log2 x) by lia. apply Z.bit_log2. lia.
  - rewrite Z.ones_spec_high by lia. apply not_true_iff_false. intros Hb. apply (Hs i Hi) in Hb as (j & Hj & Hb).
    rewrite Z.bits_above_log2 in Hb; [done|lia|lia].
Qed.

(** For a request of at most 2^32 items [deque_create] makes an array
    whose capacity is a power of two, at least 16 and at least the request,
    and less than twice it. *)
Theorem deque_capacity_pow2 n : 0 <= n <= 2 ^ 32 ->
  exists k, initial_capacity n = 2 ^ k /\ 4 <= k /\ n <= initial_capacity n /\ initial_capacity n <= Z.max 16 (2 * n) /\
    forall mem, array_create (initial_capacity n) mem = Ok (if mem then Some (repeat 0 (Z.to_nat (initial_capacity n))) else None).
Proof.
  intros Hn. assert (H : exists k, initial_capacity n = 2 ^ k /\ 4 <= k <= 32 /\ n <= initial_capacity n /\
    initial_capacity n <= Z.max 16 (2 * n)).
  { destruct (Z.eq_dec n 0) as [->|H0]; [by exists 4|].
    assert (exists k, 0 <= k <= 32 /\ round_pow2 n = 2 ^ k /\ n <= 2 ^ k <= 2 * n) as (k & Hk & Hr & Hb).
    { unfold round_pow2. destruct (Z.eqb_spec (Z.land n (u64 (n - 1))) 0) as [Hz|Hz]; cbn [negb].
      - apply land_pred_pow2 in Hz; [|lia]. exists (Z.log2 n). rewrite <- Hz. split_and!; [apply Z.log2_nonneg| |done|lia|lia].
        rewrite <- (Z.log2_pow2 32) by lia. apply Z.log2_le_mono; lia.
      - rewrite (u64_small (n - 1)) by lia. set (x := n - 1) in *.
        destruct (Z.eq_dec x 0) as [Hx0|Hx0]; [exfalso; apply Hz; assert (n = 1) as -> by lia; done|].
        assert (Hs0 : smeared x x 1).
        { intros i Hi. split; [intros Hb; exists 0; split; [lia|by rewrite Z.add_0_r]|].
          intros (j & Hj & Hb). assert (j = 0) as -> by lia. by rewrite Z.add_0_r in Hb. }
        pose proof (smear_step _ _ 1 ltac:(lia) Hs0) as Hs1. set (y1 := Z.lor x (Z.shiftr x 1)) in *.
        pose proof (smear_step _ _ 2 ltac:(lia) Hs1) as Hs2. set (y2 := Z.lor y1 (Z.shiftr y1 2)) in *.
        pose proof (smear_step _ _ 4 ltac:(lia) Hs2) as Hs3. set (y3 := Z.lor y2 (Z.shiftr y2 4)) in *.
        pose proof (smear_step _ _ 8 ltac:(lia) Hs3) as Hs4. set (y4 := Z.lor y3 (Z.shiftr y3 8)) in *.
        pose proof (smear_step _ _ 16 ltac:(lia) Hs4) as Hs5. set (y5 := Z.lor y4 (Z.shiftr y4 16)) in *.
        assert (Hpos : forall a b, 0 <= a -> 0 <= Z.lor a (Z.shiftr a b)).
        { intros a b Ha. apply Z.lor_nonneg. split; [done|]. by apply Z.shiftr_nonneg. }
        rewrite (smeared_ones x y5 32); [|lia|lia|repeat apply Hpos; lia|done].
        pose proof (Z.log2_nonneg x). pose proof (Z.log2_spec x ltac:(lia)) as Hlog.
        assert (Z.log2 x < 32) by (apply Z.log2_lt_pow2; lia).
        assert (Hle : 2 ^ (Z.log2 x + 1) <= 2 ^ 32) by (apply Z.pow_le_mono_r; lia).
        exists (Z.log2 x + 1). rewrite Z.ones_equiv.
        rewrite <- Z.add_1_r in Hlog. rewrite Z.pow_add_r, Z.pow_1_r in * by lia.
        replace (Z.pred (2 ^ Z.log2 x * 2) + 1) with (2 ^ Z.log2 x * 2) by lia.
        rewrite u64_small by lia. split_and!; lia. }
    unfold initial_capacity. rewrite Hr. destruct (Z.ltb_spec (2 ^ k) 16) as [Hlt|Hge]; [exists 4; split_and!; done || lia|].
    exists k. split_and!; [done| |lia|lia|lia]. destruct (Z_lt_le_dec k 4); [|done].
    assert (2 ^ k <= 2 ^ 3) by (apply Z.pow_le_mono_r; lia). lia. }
  destruct H as (k & Hc & Hk & H1 & H2). exists k. split_and!; [done|lia|done|done|]. intros mem.
  unfold array_create. rewrite Hc. assert (0 < 2 ^ k <= 2 ^ 32) as Hp.
  { split; [apply Z.pow_pos_nonneg; lia|apply Z.pow_le_mono_r; lia]. }
  rewrite u64_small by lia. replace (2 ^ k - 1) with (Z.ones k) by (rewrite Z.ones_equiv; lia).
  rewrite Z.land_ones, Z.mod_same by lia. done.
Qed.

(** Beyond 2^32 the rounding misses the low bits, and the assertion fails. *)
Lemma deque_create_large : deque_create (2 ^ 32 + 1) true true 0 = Undef.
Proof. reflexivity. Qed.

(** ** A concrete run *)

Definition ex_deque : Deque := mkDeque 0 0 (repeat 0 16) OIdle [TIdle; TIdle] [] [].

(** The owner pops its last item while both thieves try to steal it. *)
Definition ex_schedule : list action :=
  [CallPush 7; OwnerStep; OwnerStep; OwnerStep; OwnerStep; CallSteal 0; ThiefStep 0; CallSteal 1; ThiefStep 1;
   CallPop; OwnerStep; ThiefStep 1; ThiefStep 0; ThiefStep 1; ThiefStep 0; OwnerStep; OwnerStep; ThiefStep 1;
   OwnerStep; OwnerStep; OwnerStep; ThiefStep 0].

Definition ex_end : Deque := default ex_deque (run ex_schedule ex_deque).

Lemma run_rtc l : forall d d', run l d = Some d' -> rtc step d d'.
Proof.
  induction l as [|a l IH]; intros d d' Hr; cbn in Hr; [by simplify_eq|].
  destruct (act a d) as [d1|] eqn:Ha; [|done]. cbn in Hr. eapply rtc_l; [by apply (step_act a)|]. by apply IH.
Qed.

Lemma ex_create : deque_create 16 true true 2 = Ok (Some ex_deque).
Proof. vm_compute. reflexivity. Qed.

Lemma ex_run : run ex_schedule ex_deque = Some ex_end.
Proof. vm_compute. reflexivity. Qed.

Lemma deque_linear_witness :
  taken ex_end = [7] /\ owner ex_end = OIdle /\ pushed ex_end ≡ₚ taken ex_end ++ hand ex_end ++ contents ex_end.
Proof.
  split; [reflexivity|]. split; [reflexivity|].
  exact (proj1 (deque_linear 16 2 ex_deque ex_end ex_create (run_rtc ex_schedule ex_deque ex_end ex_run))).
Defined.

Definition ex_busy : Deque := default ex_deque (run [CallPop] ex_deque).

(** Four steps end this [pop]; the schedule goes on with a second one. *)
Definition ex_pops : list action := repeat OwnerStep 4 ++ [CallPop; OwnerStep; OwnerStep].

Lemma deque_wait_free_witness :
  exists l1 l2 d1, ex_pops = l1 ++ l2 /\ run l1 ex_busy = Some d1 /\ left Owner d1 = 0%nat.
Proof.
  apply (proj2 (proj2 (proj2 (deque_wait_free Owner ex_busy))) ex_pops (default ex_deque (run ex_pops ex_busy))).
  - vm_compute. reflexivity.
  - vm_compute. lia.
Defined.

Lemma deque_capacity_pow2_witness : exists k, initial_capacity 17 = 2 ^ k /\ 4 <= k.
Proof. destruct (deque_capacity_pow2 17 ltac:(lia)) as (k & H1 & H2 & _). exists k. split; [exact H1|exact H2]. Defined.
