(* ===== verification/Arc.v ===== *)
(** * Atomic reference counts

    [src/runtime/memory/arc.c]: objects behind an [ArcHeader] with a strong and
    a weak count.  The allocation is a function of the address [malloc]
    returned.  The other operations are programs of atomic steps on one header
    that any number of threads run at the same time; each atomic load,
    fetch-and-op and compare-and-swap is a step, as is each group of plain
    accesses between two of them.  A header whose memory was freed is [None],
    and every access to it is [Undef].  The global statistics, plain counters
    beside the protocol, are left out. *)
From S2P Require Import Prelude.

(** ** Headers *)

Definition ARC_FLAG_NONE : Z := 0.
Definition ARC_FLAG_MOVED : Z := 1.
Definition ARC_FLAG_HAS_WEAK : Z := 2.
Definition ARC_FLAG_HAS_DESTRUCTOR : Z := 4.
Definition ARC_FLAG_CYCLE_SUSPECT : Z := 8.
Definition ARC_FLAG_BUFFERED : Z := 16.
Definition ARC_FLAG_ACYCLIC : Z := 32.
Definition ARC_FLAG_DEALLOCATING : Z := 64.

Inductive ArcColor := ARC_COLOR_BLACK | ARC_COLOR_PURPLE | ARC_COLOR_GRAY | ARC_COLOR_WHITE | ARC_COLOR_GREEN.

#[export] Instance ArcColor_eq_dec : EqDecision ArcColor.
Proof. solve_decision. Defined.

(** A function pointer is a number, [None] if it is null. *)
Record ArcHeader := mkArc {
  allocation_base : Z;
  user_data : Z;
  size : Z;
  alignment : Z;
  strong_count : Z;
  weak_count : Z;
  flags : Z;
  color : ArcColor;
  destructor : option nat;
  scanner : option nat
}.

Definition with_strong (h : ArcHeader) (n : Z) : ArcHeader :=
  mkArc (allocation_base h) (user_data h) (size h) (alignment h) n (weak_count h) (flags h) (color h) (destructor h) (scanner h).
Definition with_weak (h : ArcHeader) (n : Z) : ArcHeader :=
  mkArc (allocation_base h) (user_data h) (size h) (alignment h) (strong_count h) n (flags h) (color h) (destructor h) (scanner h).
Definition with_flags (h : ArcHeader) (n : Z) : ArcHeader :=
  mkArc (allocation_base h) (user_data h) (size h) (alignment h) (strong_count h) (weak_count h) n (color h) (destructor h) (scanner h).
Definition with_color (h : ArcHeader) (c : ArcColor) : ArcHeader :=
  mkArc (allocation_base h) (user_data h) (size h) (alignment h) (strong_count h) (weak_count h) (flags h) c (destructor h) (scanner h).
Definition with_scanner (h : ArcHeader) (s : option nat) : ArcHeader :=
  mkArc (allocation_base h) (user_data h) (size h) (alignment h) (strong_count h) (weak_count h) (flags h) (color h) (destructor h) s.

Definition has_flag (h : ArcHeader) (mask : Z) : bool := negb (Z.land (flags h) mask =? 0).

(** ** Allocation *)

Definition sizeof_ArcHeader : Z := 64.
Definition ARC_HEADER_SLOT_SIZE : Z := 8.
Definition SIZE_MAX : Z := 2 ^ 64 - 1.

Definition is_power_of_two (value : Z) : bool := negb (value =? 0) && (Z.land value (u64 (value - 1)) =? 0).

(** The alignment of [max_align_t], which is not less than that of a pointer. *)
Definition arc_default_alignment : Z := 16.

Definition add_sizes (lhs rhs : Z) : option Z := if SIZE_MAX - rhs <? lhs then None else Some (lhs + rhs).

(** [malloc total] is the address returned, or [None] for [NULL]; the result is
    the payload's address and the header. *)
Definition arc_alloc_full_aligned (malloc : Z -> option Z) (size alignment : Z) (destructor scanner : option nat)
  : option (Z * ArcHeader) :=
  if size =? 0 then None else
  let alignment := if negb (alignment =? 0) then alignment else arc_default_alignment in
  if negb (is_power_of_two alignment) then None else
  let alignment := if alignment <? arc_default_alignment then arc_default_alignment else alignment in
  let metadata_size := sizeof_ArcHeader + ARC_HEADER_SLOT_SIZE in
  total ← add_sizes metadata_size size;
  total ← add_sizes total (alignment - 1);
  raw ← malloc total;
  let raw_addr := u64 (raw + metadata_size) in
  let payload_addr := Z.land (u64 (raw_addr + (alignment - 1))) (u64 (Z.lnot (alignment - 1))) in
  Some (payload_addr, mkArc raw payload_addr size alignment 1 1
    (match destructor with Some _ => Z.lor ARC_FLAG_NONE ARC_FLAG_HAS_DESTRUCTOR | None => ARC_FLAG_NONE end)
    ARC_COLOR_BLACK destructor scanner).

Definition arc_alloc malloc size := arc_alloc_full_aligned malloc size 0 None None.
Definition arc_alloc_aligned malloc size alignment := arc_alloc_full_aligned malloc size alignment None None.
Definition arc_alloc_with_destructor malloc size destructor := arc_alloc_full_aligned malloc size 0 destructor None.
Definition arc_alloc_with_destructor_aligned malloc size alignment destructor := arc_alloc_full_aligned malloc size alignment destructor None.
Definition arc_alloc_full malloc size destructor scanner := arc_alloc_full_aligned malloc size 0 destructor scanner.

(** ** The programs of the threads *)

(** What [arc_header_is_finalized] is called for. *)
Inductive FinCont :=
| KRetain
| KRelease
| KWeakCreate
| KUpgrade (strong : Z)
| KAlive.

Inductive AbortReason :=
| UNDERFLOW            (* reference count underflow detected *)
| OVERFLOW             (* strong or weak count overflow *)
| OVER_RELEASE         (* over-release detected *)
| RETAIN_DEAD          (* arc_retain on dead or moved object *)
| WEAK_CREATE_DEAD     (* arc_weak_create on dead object *)
| WEAK_UNDERFLOW.      (* weak count underflow *)

(** Where a thread is, between two steps. *)
Inductive ArcPc :=
| Idle
| Aborted (why : AbortReason)
(* arc_header_is_finalized *)
| FinFlags (k : FinCont)
| FinStrong (k : FinCont)
| FinColor (k : FinCont)
(* arc_retain *)
| RetainMoved
| RetainLoad
| RetainCas (current : Z)
(* arc_release *)
| ReleaseLoad
| ReleaseCas (current : Z)
| ReleaseStart
(* arc_finalize_zero_strong *)
| FinalizeDestructor
| FinalizeReset
| FinalizeWeak
| FinalizeZero
(* arc_weak_create *)
| WeakCreateStrong
| WeakCreateLoad
| WeakCreateCas (current : Z)
| WeakCreateFlag
(* arc_weak_upgrade *)
| UpgradeLoad
| UpgradeCas (strong : Z)
(* arc_weak_release *)
| WeakReleaseSub
| WeakReleaseStrong
(* arc_free_allocation *)
| FreeAllocation
(* arc_weak_is_alive *)
| AliveStrong.

(** One header and the references to it that no running operation holds:
    [strongs] strong ones and [weaks] weak ones.  [finalized] counts the calls
    of the destructor's place in [arc_finalize_zero_strong]. *)
Record ArcState := mkArcState {
  header : option ArcHeader;
  strongs : nat;
  weaks : nat;
  finalized : nat
}.

Definition set_header (st : ArcState) (h : ArcHeader) : ArcState := mkArcState (Some h) (strongs st) (weaks st) (finalized st).
Definition add_refs (st : ArcState) (s w : nat) : ArcState := mkArcState (header st) (strongs st + s) (weaks st + w) (finalized st).

(** Where the caller of [arc_header_is_finalized] continues. *)
Definition fin_result (k : FinCont) (dead : bool) (st : ArcState) : ArcPc * ArcState :=
  match k, dead with
  | KRetain, true => (Aborted RETAIN_DEAD, st)
  | KRetain, false => (RetainMoved, st)
  | KRelease, true => (Idle, st)
  | KRelease, false => (Aborted OVER_RELEASE, st)
  | KWeakCreate, true => (Aborted WEAK_CREATE_DEAD, st)
  | KWeakCreate, false => (WeakCreateStrong, st)
  | KUpgrade _, true => (Idle, add_refs st 0 1) (* NULL *)
  | KUpgrade strong, false => ((if strong =? INT32_MAX then Aborted OVERFLOW else UpgradeCas strong), st)
  | KAlive, true => (Idle, add_refs st 0 1)
  | KAlive, false => (AliveStrong, st)
  end.

(** [arc_try_inc_count], once it has the count. *)
Definition try_inc (current : Z) (cas : Z -> ArcPc) : ArcPc :=
  if current <? 0 then Aborted UNDERFLOW
  else if current =? INT32_MAX then Aborted OVERFLOW
  else cas current.

Definition release_with (current : Z) : ArcPc := if current <=? 0 then FinFlags KRelease else ReleaseCas current.
Definition upgrade_with (strong : Z) (st : ArcState) : ArcPc * ArcState :=
  if strong <=? 0 then (Idle, add_refs st 0 1) (* NULL *) else (FinFlags (KUpgrade strong), st).

(** One step of a thread. *)
Definition thread_step (pc : ArcPc) (st : ArcState) : outcome (ArcPc * ArcState) :=
  match pc with
  | Idle | Aborted _ => Ok (pc, st)
  | _ =>
  let! h := of_option (header st) in
  match pc with
  | Idle | Aborted _ => Ok (pc, st)
  | FinFlags k => if has_flag h ARC_FLAG_DEALLOCATING then Ok (fin_result k true st) else Ok (FinStrong k, st)
  | FinStrong k => if strong_count h <=? 0 then Ok (FinColor k, st) else Ok (fin_result k false st)
  | FinColor k =>
      Ok (fin_result k (bool_decide (color h = ARC_COLOR_WHITE) || bool_decide (color h = ARC_COLOR_GRAY) || has_flag h ARC_FLAG_BUFFERED) st)
  | RetainMoved => Ok ((if has_flag h ARC_FLAG_MOVED then Aborted RETAIN_DEAD else RetainLoad), st)
  | RetainLoad => Ok (try_inc (strong_count h) RetainCas, st)
  | RetainCas current =>
      if strong_count h =? current then Ok (Idle, add_refs (set_header st (with_strong h (current + 1))) 2 0)
      else Ok (try_inc (strong_count h) RetainCas, st)
  | ReleaseLoad => Ok (release_with (strong_count h), st)
  | ReleaseCas current =>
      if strong_count h =? current then
        Ok ((if current =? 1 then ReleaseStart else Idle), set_header st (with_strong h (current - 1)))
      else Ok (release_with (strong_count h), st)
  | ReleaseStart =>
      let old := has_flag h ARC_FLAG_DEALLOCATING in
      Ok ((if old then Idle else FinalizeDestructor), set_header st (with_flags h (Z.lor (flags h) ARC_FLAG_DEALLOCATING)))
  | FinalizeDestructor => Ok (FinalizeReset, mkArcState (header st) (strongs st) (weaks st) (S (finalized st)))
  | FinalizeReset =>
      let h := with_color (with_scanner h None) ARC_COLOR_BLACK in
      Ok (FinalizeWeak, set_header st (with_flags h (Z.land (flags h) (Z.lnot (Z.lor ARC_FLAG_BUFFERED ARC_FLAG_CYCLE_SUSPECT)))))
  | FinalizeWeak =>
      let old_weak := weak_count h in
      Ok ((if old_weak <=? 0 then Aborted WEAK_UNDERFLOW else if old_weak =? 1 then FreeAllocation else FinalizeZero),
          set_header st (with_weak h (old_weak - 1)))
  | FinalizeZero => Ok (Idle, st)
  | WeakCreateStrong => Ok ((if strong_count h <=? 0 then Aborted WEAK_CREATE_DEAD else WeakCreateLoad), st)
  | WeakCreateLoad => Ok (try_inc (weak_count h) WeakCreateCas, st)
  | WeakCreateCas current =>
      if weak_count h =? current then Ok (WeakCreateFlag, set_header st (with_weak h (current + 1)))
      else Ok (try_inc (weak_count h) WeakCreateCas, st)
  | WeakCreateFlag => Ok (Idle, add_refs (set_header st (with_flags h (Z.lor (flags h) ARC_FLAG_HAS_WEAK))) 1 1)
  | UpgradeLoad => Ok (upgrade_with (strong_count h) st)
  | UpgradeCas strong =>
      if strong_count h =? strong then Ok (Idle, add_refs (set_header st (with_strong h (strong + 1))) 1 1)
      else Ok (upgrade_with (strong_count h) st)
  | WeakReleaseSub =>
      let old_weak := weak_count h in
      Ok ((if old_weak <=? 0 then Aborted WEAK_UNDERFLOW else if old_weak =? 1 then WeakReleaseStrong else Idle),
          set_header st (with_weak h (old_weak - 1)))
  | WeakReleaseStrong => Ok ((if strong_count h <=? 0 then FreeAllocation else Idle), st)
  | FreeAllocation => Ok (Idle, mkArcState None (strongs st) (weaks st) (finalized st))
  | AliveStrong => Ok (Idle, add_refs st 0 1)
  end
  end.

(** The operations, and the reference each takes from its thread. *)
Inductive ArcOp := arc_retain | arc_release | arc_weak_create | arc_weak_upgrade | arc_weak_release | arc_weak_is_alive.

Definition start_op (op : ArcOp) (st : ArcState) : option (ArcPc * ArcState) :=
  let strong pc := match strongs st with S s => Some (pc, mkArcState (header st) s (weaks st) (finalized st)) | O => None end in
  let weak pc := match weaks st with S w => Some (pc, mkArcState (header st) (strongs st) w (finalized st)) | O => None end in
  match op with
  | arc_retain => strong (FinFlags KRetain)
  | arc_release => strong ReleaseLoad
  | arc_weak_create => strong (FinFlags KWeakCreate)
  | arc_weak_upgrade => weak UpgradeLoad
  | arc_weak_release => weak WeakReleaseSub
  | arc_weak_is_alive => weak (FinFlags KAlive)
  end.

Definition ArcSystem : Type := ArcState * list ArcPc.

(** [abort] ends the process. *)
Definition aborted (pc : ArcPc) : bool := match pc with Aborted _ => true | _ => false end.

(** A thread starts an operation, or runs one step of it. *)
Inductive arc_step : ArcSystem -> ArcSystem -> Prop :=
| step_start st ts t op pc st' : existsb aborted ts = false ->
    ts !! t = Some Idle -> start_op op st = Some (pc, st') -> arc_step (st, ts) (st', <[t := pc]> ts)
| step_run st ts t pc pc' st' : existsb aborted ts = false ->
    ts !! t = Some pc -> thread_step pc st = Ok (pc', st') -> arc_step (st, ts) (st', <[t := pc']> ts).

(** A header as the allocation leaves it, one strong reference, idle threads. *)
Definition arc_init (h : ArcHeader) (n : nat) : ArcSystem := (mkArcState (Some h) 1 0 0, replicate n Idle).
