(* ===== verification/ArcFacts.v ===== *)
(** * The reference counts are exact

    In every state that threads can reach by retaining, releasing, creating,
    upgrading and releasing references they hold, the counts are the numbers of
    references, the object is finalised at most once and when no strong
    reference is left, and the memory is freed once and when no reference at
    all is left. *)
From S2P Require Import Prelude Arc.

(** ** Sums over the threads *)

Lemma sum_insert {A} (g : A -> nat) l i x y : l !! i = Some x ->
  (sum_list_with g (<[i := y]> l) + g x = sum_list_with g l + g y)%nat.
Proof.
  revert i. induction l as [|z l IH]; intros [|i]; simpl; try done; [intros [= ->]; lia|]. intros H. specialize (IH i H). lia.
Qed.

Lemma sum_at {A} (g : A -> nat) l i x : l !! i = Some x -> (g x <= sum_list_with g l)%nat.
Proof. revert i. induction l as [|z l IH]; intros [|i]; simpl; try done; [intros [= ->]; lia|]. intros H. specialize (IH i H). lia. Qed.

(** ** What a thread holds *)

(** Strong references in the hands of a running operation. *)
Definition s_held (pc : ArcPc) : nat :=
  match pc with
  | FinFlags k | FinStrong k | FinColor k => match k with KRetain | KRelease | KWeakCreate => 1 | _ => 0 end
  | RetainMoved | RetainLoad | RetainCas _ | ReleaseLoad | ReleaseCas _ => 1
  | WeakCreateStrong | WeakCreateLoad | WeakCreateCas _ | WeakCreateFlag => 1
  | _ => 0
  end.
Definition w_held (pc : ArcPc) : nat :=
  match pc with
  | FinFlags k | FinStrong k | FinColor k => match k with KUpgrade _ | KAlive => 1 | _ => 0 end
  | WeakCreateFlag | UpgradeLoad | UpgradeCas _ | WeakReleaseSub | AliveStrong => 1
  | _ => 0
  end.
(** The thread that took the last strong reference away, until it gives up the
    weak one that all strong references share. *)
Definition at_start (pc : ArcPc) : nat := match pc with ReleaseStart => 1 | _ => 0 end.
Definition at_destructor (pc : ArcPc) : nat := match pc with FinalizeDestructor => 1 | _ => 0 end.
Definition at_reset (pc : ArcPc) : nat := match pc with FinalizeReset | FinalizeWeak => 1 | _ => 0 end.
(** The thread that took the last weak reference away. *)
Definition at_free (pc : ArcPc) : nat := match pc with WeakReleaseStrong | FreeAllocation => 1 | _ => 0 end.

Definition strong_refs (st : ArcState) (ts : list ArcPc) : nat := (strongs st + sum_list_with s_held ts)%nat.
Definition weak_refs (st : ArcState) (ts : list ArcPc) : nat := (weaks st + sum_list_with w_held ts)%nat.
Definition finalizing (ts : list ArcPc) : nat := (sum_list_with at_start ts + sum_list_with at_destructor ts + sum_list_with at_reset ts)%nat.

(** What a thread remembers. *)
Definition pc_ok (pc : ArcPc) : Prop :=
  match pc with
  | Aborted _ => False
  | FinFlags (KUpgrade s) | FinStrong (KUpgrade s) | FinColor (KUpgrade s) | UpgradeCas s => 0 < s
  | FinFlags KRelease | FinStrong KRelease => False
  | FinColor (KRetain | KRelease | KWeakCreate) => False
  | RetainCas c | WeakCreateCas c => 0 <= c
  | ReleaseCas c => 0 < c
  | _ => True
  end.

Definition moved (h : ArcHeader) : bool := has_flag h ARC_FLAG_MOVED.
Definition deallocating (h : ArcHeader) : bool := has_flag h ARC_FLAG_DEALLOCATING.

Record header_inv (h : ArcHeader) (st : ArcState) (ts : list ArcPc) : Prop := {
  hi_moved : moved h = false;
  hi_strong : strong_count h = Z.of_nat (strong_refs st ts);
  hi_live : (0 < strong_refs st ts)%nat ->
    weak_count h = Z.of_nat (weak_refs st ts) + 1 /\ finalizing ts = 0%nat /\ sum_list_with at_free ts = 0%nat /\
    deallocating h = false /\ finalized st = 0%nat;
  hi_dead : strong_refs st ts = 0%nat ->
    weak_count h = Z.of_nat (weak_refs st ts + finalizing ts) /\ (finalizing ts + sum_list_with at_free ts <= 1)%nat /\
    (0 < weak_refs st ts + finalizing ts \/ sum_list_with at_free ts = 1)%nat /\ (sum_list_with at_free ts = 1 -> weak_refs st ts = 0)%nat /\
    deallocating h = (sum_list_with at_start ts =? 0)%nat /\
    (finalized st + sum_list_with at_start ts + sum_list_with at_destructor ts = 1)%nat
}.

Definition arc_inv (s : ArcSystem) : Prop :=
  Forall pc_ok s.2 /\
  match header s.1 with
  | Some h => header_inv h s.1 s.2
  | None => strong_refs s.1 s.2 = 0%nat /\ weak_refs s.1 s.2 = 0%nat /\ finalizing s.2 = 0%nat /\
      sum_list_with at_free s.2 = 0%nat /\ finalized s.1 = 1%nat
  end.

(** ** Flags *)

Lemma has_flag_bit h n : 0 <= n -> has_flag h (2 ^ n) = Z.testbit (flags h) n.
Proof.
  intros Hn. unfold has_flag. destruct (Z.testbit (flags h) n) eqn:E.
  - apply negb_true_iff, Z.eqb_neq. intros H. apply (f_equal (fun z => Z.testbit z n)) in H.
    by rewrite Z.land_spec, E, Z.pow2_bits_true, Z.bits_0 in H.
  - apply negb_false_iff, Z.eqb_eq, Z.bits_inj'. intros m Hm. rewrite Z.land_spec, Z.bits_0, Z.pow2_bits_eqb by done.
    destruct (Z.eqb_spec n m) as [->|]; [by rewrite E|apply andb_false_r].
Qed.

Lemma lor_bit h f n m : 0 <= n -> 0 <= m -> f = 2 ^ m -> has_flag (with_flags h (Z.lor (flags h) f)) (2 ^ n) = has_flag h (2 ^ n) || (m =? n).
Proof. intros Hn Hm ->. rewrite !has_flag_bit by done. simpl. by rewrite Z.lor_spec, Z.pow2_bits_eqb. Qed.

(** ** Every step keeps the counts *)

Lemma counts g (ts : list ArcPc) t pc pc' : ts !! t = Some pc ->
  (sum_list_with g (<[t := pc']> ts) + g pc = sum_list_with g ts + g pc')%nat /\ (g pc <= sum_list_with g ts)%nat.
Proof. intros H. split; [by apply sum_insert|by eapply sum_at]. Qed.

Ltac count_all H pc' :=
  pose proof (counts s_held _ _ _ pc' H); pose proof (counts w_held _ _ _ pc' H); pose proof (counts at_start _ _ _ pc' H);
  pose proof (counts at_destructor _ _ _ pc' H); pose proof (counts at_reset _ _ _ pc' H); pose proof (counts at_free _ _ _ pc' H).

(** The thread moves to [pc'], the header to [h'] and the pools change; the sums do the rest. *)
Ltac by_counts :=
  unfold strong_refs, weak_refs, finalizing, moved, deallocating in *; cbn [s_held w_held at_start at_destructor at_reset at_free] in *;
  cbn [fst snd strongs weaks finalized header set_header add_refs strong_count weak_count with_strong with_weak with_flags with_color with_scanner flags color] in *.

(** No strong reference is left: a thread is past the last release. *)
Ltac none_left Hl Hd :=
  match type of Hd with ?P = 0%nat -> _ => destruct (decide (P = 0%nat)) as [Hz|Hz];
    [destruct (Hd Hz) as (? & ? & ? & ? & Hdl & ?)|exfalso; destruct Hl as (? & ? & ? & ? & ?); lia] end.

Lemma pcs_ok ts t pc' : Forall pc_ok ts -> pc_ok pc' -> Forall pc_ok (<[t := pc']> ts).
Proof. intros. by apply Forall_insert. Qed.

(** A step that moves the thread between points that hold the same. *)
Lemma move_inv st ts t pc pc' : arc_inv (st, ts) -> ts !! t = Some pc -> pc_ok pc' ->
  s_held pc' = s_held pc -> w_held pc' = w_held pc -> at_start pc' = at_start pc -> at_destructor pc' = at_destructor pc ->
  at_reset pc' = at_reset pc -> at_free pc' = at_free pc -> arc_inv (st, <[t := pc']> ts).
Proof.
  intros [Hpcs Hinv] Ht Hok H1 H2 H3 H4 H5 H6. split; [by apply pcs_ok|]. simpl in *. count_all Ht pc'.
  rewrite H1, H2, H3, H4, H5, H6 in *. destruct (header st) as [h|].
  - destruct Hinv as [Hm Hs Hl Hd]. by_counts.
    assert (Es : sum_list_with s_held (<[t := pc']> ts) = sum_list_with s_held ts) by lia.
    assert (Ew : sum_list_with w_held (<[t := pc']> ts) = sum_list_with w_held ts) by lia.
    assert (E1 : sum_list_with at_start (<[t := pc']> ts) = sum_list_with at_start ts) by lia.
    assert (E2 : sum_list_with at_destructor (<[t := pc']> ts) = sum_list_with at_destructor ts) by lia.
    assert (E3 : sum_list_with at_reset (<[t := pc']> ts) = sum_list_with at_reset ts) by lia.
    assert (E4 : sum_list_with at_free (<[t := pc']> ts) = sum_list_with at_free ts) by lia.
    split; by_counts; rewrite ?Es, ?Ew, ?E1, ?E2, ?E3, ?E4; done.
  - by_counts. lia.
Qed.

(** What the counts say about a thread that holds a reference. *)
Lemma held_strong st ts t pc h : arc_inv (st, ts) -> ts !! t = Some pc -> header st = Some h -> s_held pc = 1%nat ->
  0 < strong_count h /\ moved h = false /\ deallocating h = false.
Proof.
  intros [_ Hinv] Ht Hh H1. simpl in Hinv. rewrite Hh in Hinv. destruct Hinv as [Hm Hs Hl _]. count_all Ht pc.
  unfold strong_refs in *. rewrite H1 in *. split; [lia|]. split; [done|]. by apply Hl; lia.
Qed.

Lemma header_there st ts t pc : arc_inv (st, ts) -> ts !! t = Some pc ->
  (s_held pc + w_held pc + at_start pc + at_destructor pc + at_reset pc + at_free pc = 1)%nat \/ pc = WeakCreateFlag -> exists h, header st = Some h.
Proof.
  intros [_ Hinv] Ht H. simpl in Hinv. destruct (header st) as [h|]; [by exists h|]. exfalso. count_all Ht pc.
  unfold strong_refs, weak_refs, finalizing in *. destruct H as [H| ->]; simpl in *; lia.
Qed.

Lemma retain_cas_inv st ts t h c : arc_inv (st, ts) -> ts !! t = Some (RetainCas c) -> header st = Some h -> strong_count h = c ->
  arc_inv (add_refs (set_header st (with_strong h (c + 1))) 2 0, <[t := Idle]> ts).
Proof.
  intros Hi Ht Hh Hc. destruct (held_strong st ts t _ h Hi Ht Hh eq_refl) as (Hpos & _). destruct Hi as [Hpcs Hinv]. split; [by apply pcs_ok|].
  simpl in *. rewrite Hh in Hinv. destruct Hinv as [Hm Hs Hl Hd]. count_all Ht Idle. split; by_counts; [done|lia| |lia].
  intros _. destruct Hl as (? & ? & ? & ? & ?); [lia|]. split_and!; lia || done.
Qed.

Lemma release_cas_inv st ts t h c : arc_inv (st, ts) -> ts !! t = Some (ReleaseCas c) -> header st = Some h -> strong_count h = c ->
  arc_inv (set_header st (with_strong h (c - 1)), <[t := if c =? 1 then ReleaseStart else Idle]> ts).
Proof.
  intros Hi Ht Hh Hc. destruct (held_strong st ts t _ h Hi Ht Hh eq_refl) as (Hpos & _). destruct Hi as [Hpcs Hinv].
  destruct (Z.eqb_spec c 1) as [->|Hne]; (split; [by apply pcs_ok|]); simpl in *; rewrite Hh in Hinv; destruct Hinv as [Hm Hs Hl Hd].
  - count_all Ht ReleaseStart. by_counts. destruct Hl as (? & ? & ? & ? & ?); [lia|]. split; by_counts; [done|lia|lia|].
    intros _. split_and!; try lia. destruct (Nat.eqb_spec (sum_list_with at_start (<[t:=ReleaseStart]> ts)) 0); [lia|done].
  - count_all Ht Idle. by_counts. destruct Hl as (? & ? & ? & ? & ?); [lia|]. split; by_counts; [done|lia| |lia].
    intros _. split_and!; lia || done.
Qed.

(** A thread gives its weak reference back. *)
Lemma weak_back_inv st ts t pc : arc_inv (st, ts) -> ts !! t = Some pc ->
  w_held pc = 1%nat -> s_held pc = 0%nat -> at_start pc = 0%nat -> at_destructor pc = 0%nat -> at_reset pc = 0%nat -> at_free pc = 0%nat ->
  arc_inv (add_refs st 0 1, <[t := Idle]> ts).
Proof.
  intros [Hpcs Hinv] Ht H1 H2 H3 H4 H5 H6. split; [by apply pcs_ok|]. simpl in *. count_all Ht Idle. destruct (header st) as [h|].
  - destruct Hinv as [Hm Hs Hl Hd]. rewrite H1, H2, H3, H4, H5, H6 in *. split; by_counts; [done|lia| |].
    + intros Hp. destruct Hl as (? & ? & ? & ? & ?); [lia|]. split_and!; lia || done.
    + intros Hp. destruct Hd as (? & ? & ? & ? & Hdl & ?); [lia|]. split_and!; try lia. etrans; [exact Hdl|f_equal; lia].
  - rewrite H1, H2, H3, H4, H5, H6 in *. by_counts. lia.
Qed.

Lemma upgrade_cas_inv st ts t h c : arc_inv (st, ts) -> ts !! t = Some (UpgradeCas c) -> header st = Some h -> strong_count h = c -> 0 < c ->
  arc_inv (add_refs (set_header st (with_strong h (c + 1))) 1 1, <[t := Idle]> ts).
Proof.
  intros [Hpcs Hinv] Ht Hh Hc Hpos. split; [by apply pcs_ok|]. simpl in *. rewrite Hh in Hinv. destruct Hinv as [Hm Hs Hl Hd].
  count_all Ht Idle. by_counts. destruct Hl as (? & ? & ? & ? & ?); [lia|]. split; by_counts; [done|lia| |lia].
  intros _. split_and!; lia || done.
Qed.

Lemma weak_create_cas_inv st ts t h c : arc_inv (st, ts) -> ts !! t = Some (WeakCreateCas c) -> header st = Some h -> weak_count h = c ->
  arc_inv (set_header st (with_weak h (c + 1)), <[t := WeakCreateFlag]> ts).
Proof.
  intros [Hpcs Hinv] Ht Hh Hc. split; [by apply pcs_ok|]. simpl in *. rewrite Hh in Hinv. destruct Hinv as [Hm Hs Hl Hd].
  count_all Ht WeakCreateFlag. by_counts. destruct Hl as (? & ? & ? & ? & ?); [lia|]. split; by_counts; [done|lia| |lia].
  intros _. split_and!; lia || done.
Qed.

Lemma weak_create_flag_inv st ts t h : arc_inv (st, ts) -> ts !! t = Some WeakCreateFlag -> header st = Some h ->
  arc_inv (add_refs (set_header st (with_flags h (Z.lor (flags h) ARC_FLAG_HAS_WEAK))) 1 1, <[t := Idle]> ts).
Proof.
  intros [Hpcs Hinv] Ht Hh. split; [by apply pcs_ok|]. simpl in *. rewrite Hh in Hinv. destruct Hinv as [Hm Hs Hl Hd].
  count_all Ht Idle. by_counts. destruct Hl as (? & ? & ? & Hdl & ?); [lia|].
  pose proof (lor_bit h ARC_FLAG_HAS_WEAK 0 1 ltac:(done) ltac:(done) eq_refl) as Hf0. pose proof (lor_bit h ARC_FLAG_HAS_WEAK 6 1 ltac:(done) ltac:(done) eq_refl) as Hf6.
  split; by_counts; [|lia| |lia].
  - change ARC_FLAG_MOVED with (2 ^ 0) in *. by rewrite Hf0, Hm.
  - intros _. split_and!; try lia. change ARC_FLAG_DEALLOCATING with (2 ^ 6) in *. by rewrite Hf6, Hdl.
Qed.

Lemma arc_start_inv st ts t h : arc_inv (st, ts) -> ts !! t = Some ReleaseStart -> header st = Some h ->
  deallocating h = false /\ arc_inv (set_header st (with_flags h (Z.lor (flags h) ARC_FLAG_DEALLOCATING)), <[t := FinalizeDestructor]> ts).
Proof.
  intros [Hpcs Hinv] Ht Hh. simpl in *. rewrite Hh in Hinv. destruct Hinv as [Hm Hs Hl Hd].
  count_all Ht FinalizeDestructor. by_counts. none_left Hl Hd.
  pose proof (lor_bit h ARC_FLAG_DEALLOCATING 0 6 ltac:(done) ltac:(done) eq_refl) as Hf0. pose proof (lor_bit h ARC_FLAG_DEALLOCATING 6 6 ltac:(done) ltac:(done) eq_refl) as Hf6.
  split; [destruct (Nat.eqb_spec (sum_list_with at_start ts) 0); [lia|done]|]. split; [by apply pcs_ok|]. split; by_counts; [|lia|intros; exfalso; lia|].
  - change ARC_FLAG_MOVED with (2 ^ 0) in *. by rewrite Hf0, Hm.
  - intros _. split_and!; try lia. change ARC_FLAG_DEALLOCATING with (2 ^ 6) in *. rewrite Hf6, orb_true_r. symmetry. apply Nat.eqb_eq. lia.
Qed.

Lemma destructor_inv st ts t h : arc_inv (st, ts) -> ts !! t = Some FinalizeDestructor -> header st = Some h ->
  arc_inv (mkArcState (header st) (strongs st) (weaks st) (S (finalized st)), <[t := FinalizeReset]> ts).
Proof.
  intros [Hpcs Hinv] Ht Hh. split; [by apply pcs_ok|]. simpl in *. rewrite Hh in *. destruct Hinv as [Hm Hs Hl Hd].
  count_all Ht FinalizeReset. by_counts. none_left Hl Hd. split; by_counts; [done|lia|intros; exfalso; lia|].
  intros _. split_and!; try lia. etrans; [exact Hdl|f_equal; lia].
Qed.

Lemma reset_inv st ts t h : arc_inv (st, ts) -> ts !! t = Some FinalizeReset -> header st = Some h ->
  arc_inv (set_header st (with_flags (with_color (with_scanner h None) ARC_COLOR_BLACK)
    (Z.land (flags h) (Z.lnot (Z.lor ARC_FLAG_BUFFERED ARC_FLAG_CYCLE_SUSPECT)))), <[t := FinalizeWeak]> ts).
Proof.
  intros [Hpcs Hinv] Ht Hh. split; [by apply pcs_ok|]. simpl in *. rewrite Hh in *. destruct Hinv as [Hm Hs Hl Hd].
  count_all Ht FinalizeWeak. by_counts. none_left Hl Hd.
  assert (Hf : forall n, n = 0 \/ n = 6 -> has_flag (with_flags (with_color (with_scanner h None) ARC_COLOR_BLACK)
    (Z.land (flags h) (Z.lnot (Z.lor ARC_FLAG_BUFFERED ARC_FLAG_CYCLE_SUSPECT)))) (2 ^ n) = has_flag h (2 ^ n)).
  { intros n Hn. rewrite !has_flag_bit by lia. cbn [flags with_flags]. rewrite Z.land_spec.
    destruct Hn as [-> | ->]; apply andb_true_r. }
  split; by_counts; [|lia|intros; exfalso; lia|].
  - change ARC_FLAG_MOVED with (2 ^ 0) in *. by rewrite Hf by lia.
  - intros _. split_and!; try lia. change ARC_FLAG_DEALLOCATING with (2 ^ 6) in *. rewrite Hf, Hdl by lia. f_equal. lia.
Qed.

Lemma finalize_weak_inv st ts t h : arc_inv (st, ts) -> ts !! t = Some FinalizeWeak -> header st = Some h ->
  0 < weak_count h /\ arc_inv (set_header st (with_weak h (weak_count h - 1)), <[t := if weak_count h =? 1 then FreeAllocation else FinalizeZero]> ts).
Proof.
  intros [Hpcs Hinv] Ht Hh. simpl in *. rewrite Hh in *. destruct Hinv as [Hm Hs Hl Hd].
  destruct (Z.eqb_spec (weak_count h) 1) as [Hw|Hw]; [count_all Ht FreeAllocation|count_all Ht FinalizeZero]; by_counts;
    none_left Hl Hd; (split; [lia|]); (split; [by apply pcs_ok|]);
    (split; by_counts; [done|lia|intros; exfalso; lia|]); intros _; split_and!; try lia; (etrans; [exact Hdl|f_equal; lia]).
Qed.

Lemma free_inv st ts t h : arc_inv (st, ts) -> ts !! t = Some FreeAllocation -> header st = Some h ->
  arc_inv (mkArcState None (strongs st) (weaks st) (finalized st), <[t := Idle]> ts).
Proof.
  intros [Hpcs Hinv] Ht Hh. split; [by apply pcs_ok|]. simpl in *. rewrite Hh in *. destruct Hinv as [Hm Hs Hl Hd].
  count_all Ht Idle. by_counts. destruct (decide (strongs st + sum_list_with s_held ts = 0)%nat) as [Hz|Hz].
  - destruct Hd as (? & ? & ? & ? & Hdl & ?); [lia|]. lia.
  - destruct Hl as (? & ? & ? & ? & ?); lia.
Qed.

Lemma weak_release_inv st ts t h : arc_inv (st, ts) -> ts !! t = Some WeakReleaseSub -> header st = Some h ->
  0 < weak_count h /\ arc_inv (set_header st (with_weak h (weak_count h - 1)), <[t := if weak_count h =? 1 then WeakReleaseStrong else Idle]> ts).
Proof.
  intros [Hpcs Hinv] Ht Hh. simpl in *. rewrite Hh in *. destruct Hinv as [Hm Hs Hl Hd].
  destruct (Z.eqb_spec (weak_count h) 1) as [Hw|Hw]; [count_all Ht WeakReleaseStrong|count_all Ht Idle]; by_counts;
    (destruct (decide (strongs st + sum_list_with s_held ts = 0)%nat) as [Hz|Hz];
     [destruct Hd as (? & ? & ? & ? & Hdl & ?); [lia|]|destruct Hl as (? & ? & ? & ? & ?); [lia|]]); try lia;
    (split; [lia|]); (split; [by apply pcs_ok|]); (split; by_counts; [done|lia|..]); intros Hp; try lia; split_and!; try lia; try done;
    (etrans; [exact Hdl|f_equal; lia]).
Qed.

Lemma weak_strong_inv st ts t h : arc_inv (st, ts) -> ts !! t = Some WeakReleaseStrong -> header st = Some h -> strong_count h <= 0.
Proof.
  intros [Hpcs Hinv] Ht Hh. simpl in *. rewrite Hh in *. destruct Hinv as [Hm Hs Hl Hd]. count_all Ht Idle. by_counts.
  destruct (decide (strongs st + sum_list_with s_held ts = 0)%nat) as [Hz|Hz]; [lia|]. destruct Hl as (? & ? & ? & ? & ?); lia.
Qed.

(** ** Every step *)

Ltac moves Hi Ht := right; eapply move_inv; [exact Hi|exact Ht|done..].
Ltac gives_back Hi Ht := right; eapply weak_back_inv; [exact Hi|exact Ht|done..].

Lemma held_counts st ts t pc h : arc_inv (st, ts) -> ts !! t = Some pc -> header st = Some h -> 0 <= strong_count h /\ (s_held pc = 1%nat -> 0 < weak_count h).
Proof.
  intros [_ Hinv] Ht Hh. simpl in Hinv. rewrite Hh in Hinv. destruct Hinv as [Hm Hs Hl _]. count_all Ht pc. split; [lia|].
  intros Hone. destruct Hl as (? & _); [unfold strong_refs; lia|]. unfold weak_refs in *. lia.
Qed.

Lemma fin_inv st ts t k (b : bool) pc pc' st' : arc_inv (st, ts) -> ts !! t = Some pc -> pc = FinFlags k \/ pc = FinStrong k \/ pc = FinColor k ->
  (b = true -> s_held pc = 0%nat) ->
  fin_result k b st = (pc', st') -> pc' = Aborted OVERFLOW \/ arc_inv (st', <[t := pc']> ts).
Proof.
  intros Hi Ht Hpc Hb E. pose proof Hi as [Hpcs _]. simpl in Hpcs. pose proof (Forall_lookup_1 _ _ _ _ Hpcs Ht) as Hok.
  destruct b.
  - specialize (Hb eq_refl). destruct Hpc as [-> | [-> | ->]], k; simpl in *; try done; simplify_eq; gives_back Hi Ht.
  - destruct Hpc as [-> | [-> | ->]], k; simpl in *; try done; simplify_eq; try (moves Hi Ht); (case_match; [by left|]); moves Hi Ht.
Qed.

Lemma try_inc_inv st ts t pc cas c : arc_inv (st, ts) -> ts !! t = Some pc -> 0 <= c -> (cas = RetainCas \/ cas = WeakCreateCas) ->
  s_held pc = 1%nat -> w_held pc = 0%nat -> at_start pc = 0%nat -> at_destructor pc = 0%nat -> at_reset pc = 0%nat -> at_free pc = 0%nat ->
  try_inc c cas = Aborted OVERFLOW \/ arc_inv (st, <[t := try_inc c cas]> ts).
Proof.
  intros Hi Ht Hc Hcas H1 H2 H3 H4 H5 H6. unfold try_inc. destruct (Z.ltb_spec c 0); [lia|]. case_match; [by left|right].
  destruct Hcas as [-> | ->]; (eapply move_inv; [exact Hi|exact Ht|done|simpl; congruence..]).
Qed.

Lemma run_inv st ts t pc pc' st' : arc_inv (st, ts) -> ts !! t = Some pc -> thread_step pc st = Ok (pc', st') ->
  pc' = Aborted OVERFLOW \/ arc_inv (st', <[t := pc']> ts).
Proof.
  intros Hi Ht Hstep. pose proof Hi as [Hpcs _]. simpl in Hpcs. pose proof (Forall_lookup_1 _ _ _ _ Hpcs Ht) as Hok.
  destruct (header st) as [h|] eqn:Hh; [|destruct pc; simpl in Hstep; rewrite ?Hh in Hstep; simpl in Hstep; try discriminate;
    simplify_eq; try done; moves Hi Ht].
  pose proof (held_strong st ts t pc h Hi Ht Hh) as Hheld. pose proof (held_counts st ts t pc h Hi Ht Hh) as [Hs0 Hw0].
  destruct pc; simpl in Hstep; rewrite ?Hh in Hstep; simpl in Hstep, Hheld, Hw0; try done;
    repeat match goal with H : 1%nat = 1%nat -> _ |- _ => specialize (H eq_refl) end.
  - simplify_eq. moves Hi Ht.
  - destruct (has_flag h ARC_FLAG_DEALLOCATING) eqn:Hd; simplify_eq.
    + eapply (fin_inv _ _ _ _ true); [exact Hi|exact Ht|auto| |done]. intros _. simpl.
      destruct k; try done; (destruct Hheld as (_ & _ & Hf); [done|]); unfold deallocating in Hf; congruence.
    + destruct k; try done; moves Hi Ht.
  - destruct (Z.leb_spec (strong_count h) 0); simplify_eq.
    + destruct k; try done; try (destruct Hheld; [done|lia]); moves Hi Ht.
    + eapply (fin_inv _ _ _ _ false); [exact Hi|exact Ht|auto|done|done].
  - simplify_eq. eapply fin_inv; [exact Hi|exact Ht|auto| |done]. by destruct k.
  - destruct Hheld as (_ & Hm & _). unfold moved in Hm. rewrite Hm in Hstep. simplify_eq. moves Hi Ht.
  - simplify_eq. eapply try_inc_inv; [exact Hi|exact Ht|lia|auto|done..].
  - destruct (Z.eqb_spec (strong_count h) current); simplify_eq.
    + right. by eapply retain_cas_inv.
    + eapply try_inc_inv; [exact Hi|exact Ht|lia|auto|done..].
  - simplify_eq. unfold release_with. destruct (Z.leb_spec (strong_count h) 0); [lia|]. moves Hi Ht.
  - destruct (Z.eqb_spec (strong_count h) current); simplify_eq.
    + right. by eapply release_cas_inv.
    + unfold release_with. destruct (Z.leb_spec (strong_count h) 0); [lia|]. moves Hi Ht.
  - destruct (arc_start_inv _ _ _ _ Hi Ht Hh) as [Hd Hinv]. unfold deallocating in Hd. rewrite Hd in Hstep. simplify_eq. by right.
  - simplify_eq. right. rewrite <- Hh. by eapply destructor_inv.
  - simplify_eq. right. by eapply reset_inv.
  - destruct (finalize_weak_inv _ _ _ _ Hi Ht Hh) as [Hw Hinv]. destruct (Z.leb_spec (weak_count h) 0); [lia|]. simplify_eq. by right.
  - simplify_eq. moves Hi Ht.
  - destruct (Z.leb_spec (strong_count h) 0); [lia|]. simplify_eq. moves Hi Ht.
  - simplify_eq. eapply try_inc_inv; [exact Hi|exact Ht|lia|auto|done..].
  - destruct (Z.eqb_spec (weak_count h) current); simplify_eq.
    + right. by eapply weak_create_cas_inv.
    + eapply try_inc_inv; [exact Hi|exact Ht|lia|auto|done..].
  - simplify_eq. right. by eapply weak_create_flag_inv.
  - unfold upgrade_with in Hstep. destruct (Z.leb_spec (strong_count h) 0); simplify_eq; [gives_back Hi Ht|moves Hi Ht].
  - destruct (Z.eqb_spec (strong_count h) strong); simplify_eq.
    + right. by eapply upgrade_cas_inv.
    + unfold upgrade_with in Hstep. destruct (Z.leb_spec (strong_count h) 0); simplify_eq; [gives_back Hi Ht|moves Hi Ht].
  - destruct (weak_release_inv _ _ _ _ Hi Ht Hh) as [Hw Hinv]. destruct (Z.leb_spec (weak_count h) 0); [lia|]. simplify_eq. by right.
  - pose proof (weak_strong_inv _ _ _ _ Hi Ht Hh). destruct (Z.leb_spec (strong_count h) 0); [|lia]. simplify_eq. moves Hi Ht.
  - simplify_eq. right. by eapply free_inv.
  - simplify_eq. gives_back Hi Ht.
Qed.

Lemma arc_take_inv st ts t op pc st' : arc_inv (st, ts) -> ts !! t = Some Idle -> start_op op st = Some (pc, st') -> arc_inv (st', <[t := pc]> ts).
Proof.
  intros [Hpcs Hinv] Ht Hop.
  assert (Hok : pc_ok pc) by (destruct op; simpl in Hop; case_match; by simplify_eq).
  split; [by apply pcs_ok|]. count_all Ht pc. unfold start_op in Hop.
  destruct op, st as [hd s w f]; simpl in *; case_match; try discriminate; simplify_eq; simpl in *; destruct hd as [h|];
    try (by_counts; lia); destruct Hinv as [Hm Hs Hl Hd].
  all: split; by_counts; [done|lia|intros Hp; destruct Hl as (? & ? & ? & ? & ?)|intros Hp; try (exfalso; lia); destruct Hd as (? & ? & ? & ? & Hdl & ?)].
  all: try lia; split_and!; try lia; try done; (etrans; [exact Hdl|f_equal; lia]).
Qed.

(** ** Reachable states *)

(** The header that the allocation returns. *)
Definition fresh (h : ArcHeader) : Prop :=
  strong_count h = 1 /\ weak_count h = 1 /\ moved h = false /\ deallocating h = false.

Lemma alloc_fresh malloc n al d sc p h : arc_alloc_full_aligned malloc n al d sc = Some (p, h) -> fresh h.
Proof.
  unfold arc_alloc_full_aligned. intros H. repeat (case_match; [done|]). simplify_option_eq. by destruct d.
Qed.

Lemma sum_idle (g : ArcPc -> nat) n : g Idle = 0%nat -> sum_list_with g (replicate n Idle) = 0%nat.
Proof. intros H. induction n; simpl; lia. Qed.

Lemma arc_init_inv h n : fresh h -> arc_inv (arc_init h n).
Proof.
  intros (Hs & Hw & Hm & Hd). split; [apply Forall_replicate; done|]. simpl.
  split; unfold strong_refs, weak_refs, finalizing; simpl; rewrite ?sum_idle by done; try done; lia || done.
Qed.

Lemma arc_step_inv s s' : arc_inv s -> arc_step s s' -> arc_inv s' \/ exists t, s'.2 !! t = Some (Aborted OVERFLOW).
Proof.
  intros Hi Hstep. destruct Hstep as [st ts t op pc st' Hr Ht Hop|st ts t pc pc' st' Hr Ht Hop].
  - left. by eapply arc_take_inv.
  - destruct (run_inv _ _ _ _ _ _ Hi Ht Hop) as [->|]; [right|by left].
    exists t. simpl. apply list_lookup_insert_eq. by eapply lookup_lt_Some.
Qed.

Lemma aborted_stops s s' t why : s.2 !! t = Some (Aborted why) -> arc_step s s' -> False.
Proof.
  intros Ht Hstep. assert (Ha : existsb aborted s.2 = true).
  { apply existsb_exists. exists (Aborted why). split; [|done]. by eapply list_elem_of_In, list_elem_of_lookup_2. }
  destruct Hstep; simpl in *; congruence.
Qed.

Lemma arc_reach_inv s s' : arc_inv s -> rtc arc_step s s' -> arc_inv s' \/ exists t, s'.2 !! t = Some (Aborted OVERFLOW).
Proof.
  intros Hi. induction 1 as [s|s s1 s2 Hs Hr IH]; [by left|].
  destruct (arc_step_inv _ _ Hi Hs) as [Hi1|[t Ht]]; [by apply IH|]. right. inversion Hr as [|? ? ? Hs2]; subst; [by exists t|].
  by destruct (aborted_stops _ _ _ _ Ht Hs2).
Qed.

Lemma step_defined st ts t pc : arc_inv (st, ts) -> ts !! t = Some pc -> pc <> FinalizeZero -> exists r, thread_step pc st = Ok r.
Proof.
  intros Hi Ht Hne.
  assert (Hp : pc = Idle \/ (exists why, pc = Aborted why) \/ exists h, header st = Some h).
  { destruct pc; try (by left); try (right; left; by eexists); right; right; try done; (eapply header_there; [exact Hi|exact Ht|]);
      try (by right); left; simpl; try destruct k; done. }
  destruct Hp as [->|[[why ->]|[h Hh]]]; [by eexists..|].
  destruct pc; simpl; rewrite ?Hh; simpl; repeat case_match; by eexists.
Qed.

Lemma sums_idle (g : ArcPc -> nat) ts : g Idle = 0%nat -> Forall (eq Idle) ts -> sum_list_with g ts = 0%nat.
Proof. intros H. induction 1 as [|? ? <- _ IH]; simpl; lia. Qed.

(** What the references are counted by, and when the object is finalised and its memory freed. *)
Definition arc_exact (s : ArcSystem) : Prop :=
  match header s.1 with
  | Some h => strong_count h = Z.of_nat (strong_refs s.1 s.2) /\ (finalized s.1 <= 1)%nat /\
      ((0 < strong_refs s.1 s.2)%nat -> weak_count h = Z.of_nat (weak_refs s.1 s.2) + 1 /\ finalized s.1 = 0%nat) /\
      ~ (Forall (eq Idle) s.2 /\ strongs s.1 = 0%nat /\ weaks s.1 = 0%nat)
  | None => strong_refs s.1 s.2 = 0%nat /\ weak_refs s.1 s.2 = 0%nat /\ finalized s.1 = 1%nat
  end.

Lemma inv_exact s : arc_inv s -> arc_exact s.
Proof.
  destruct s as [st ts]. intros [_ Hinv]. unfold arc_exact. simpl in *. destruct (header st) as [h|]; [|naive_solver].
  destruct Hinv as [Hm Hs Hl Hd]. split_and!; [done| |naive_solver|].
  - destruct (decide (strong_refs st ts = 0)%nat) as [Hz|]; [destruct (Hd Hz) as (_ & _ & _ & _ & _ & ?)|destruct Hl as (_ & _ & _ & _ & ?)]; lia.
  - intros (Hidle & H1 & H2). unfold strong_refs, weak_refs, finalizing in *. rewrite !sums_idle, H1, H2 in * by done.
    destruct Hd as (_ & _ & Hd & _); [done|]. lia.
Qed.

(** C4: whatever the threads do with the references they hold, in every state
    they can reach, until a thread aborts because a count is [INT32_MAX], no
    thread aborts, [strong_count] is the number of strong references,
    [weak_count] that of the weak ones and one more while the object lives, the
    destructor's place is run at most once and only when no strong reference is
    left, the memory is freed only when no reference of either kind is left,
    and it has been once all references were given back and no operation runs;
    no thread reads freed memory but one that clears the payload. *)
Theorem arc_threads_safe malloc len al d sc p h n s :
  arc_alloc_full_aligned malloc len al d sc = Some (p, h) -> rtc arc_step (arc_init h n) s ->
  (exists t, s.2 !! t = Some (Aborted OVERFLOW)) \/
  arc_exact s /\ forall t pc, s.2 !! t = Some pc ->
    aborted pc = false /\ (pc <> FinalizeZero -> exists r, thread_step pc s.1 = Ok r).
Proof.
  intros Ha Hr. destruct (arc_reach_inv _ s (arc_init_inv h n (alloc_fresh _ _ _ _ _ _ _ Ha)) Hr) as [Hi|]; [right|by left].
  split; [by apply inv_exact|]. intros t pc Ht. destruct s as [st ts]. simpl in *. split.
  - destruct Hi as [Hpcs _]. pose proof (Forall_lookup_1 _ _ _ _ Hpcs Ht) as Hok. by destruct pc.
  - by eapply step_defined.
Qed.

(** ** Running a schedule *)

Definition run_one (s : ArcSystem) (e : nat * option ArcOp) : option ArcSystem :=
  if existsb aborted s.2 then None else
  pc ← s.2 !! e.1;
  match e.2 with
  | Some op => match pc with Idle => r ← start_op op s.1; Some (r.2, <[e.1 := r.1]> s.2) | _ => None end
  | None => match thread_step pc s.1 with Ok r => Some (r.2, <[e.1 := r.1]> s.2) | _ => None end
  end.
Fixpoint run_schedule (s : ArcSystem) (es : list (nat * option ArcOp)) : option ArcSystem :=
  match es with [] => Some s | e :: es => s ← run_one s e; run_schedule s es end.

Lemma run_schedule_reaches es : forall s s', run_schedule s es = Some s' -> rtc arc_step s s'.
Proof.
  induction es as [|[t op] es IH]; intros [st ts] s' H; simpl in H; [by simplify_eq; apply rtc_refl|].
  apply bind_Some in H as (s1 & H1 & H2). eapply rtc_l; [|by apply IH]. unfold run_one in H1. simpl in H1.
  case_match eqn:Ha; [done|]. apply bind_Some in H1 as (pc & Hpc & H1). destruct op as [op|].
  - destruct pc; try done. apply bind_Some in H1 as ([pc' st'] & Ho & [= <-]). by eapply step_start.
  - destruct (thread_step pc st) as [[pc' st']| |] eqn:E; try done. injection H1 as <-. by eapply step_run.
Qed.

Definition example_malloc (n : Z) : option Z := Some 4096.
Definition example_header : ArcHeader := mkArc 4096 4176 24 16 1 1 0 ARC_COLOR_BLACK None None.

(** One thread makes a weak reference; then one thread releases the strong
    reference while another releases the weak one. *)
Definition weak_race : list (nat * option ArcOp) :=
  let run t k := replicate k (t, None) in
  ([(0, Some arc_weak_create)] ++ run 0 6 ++ [(0, Some arc_release); (1, Some arc_weak_release)] ++ run 0 6 ++ run 1 3)%nat.


Lemma after_race_is : run_schedule (arc_init example_header 2) weak_race = Some (mkArcState None 0 0 1, [FinalizeZero; Idle]).
Proof. vm_compute. reflexivity. Qed.

Lemma example_alloc : arc_alloc_full_aligned example_malloc 24 0 None None = Some (4176, example_header).
Proof. vm_compute. reflexivity. Qed.

Lemma arc_threads_safe_witness :
  rtc arc_step (arc_init example_header 2) (mkArcState None 0 0 1, [FinalizeZero; Idle]) /\
  arc_exact (mkArcState None 0 0 1, [FinalizeZero; Idle]).
Proof.
  assert (Hr : rtc arc_step (arc_init example_header 2) (mkArcState None 0 0 1, [FinalizeZero; Idle])).
  { eapply run_schedule_reaches, after_race_is. }
  split; [exact Hr|]. destruct (arc_threads_safe example_malloc 24 0 None None 4176 example_header 2 _ example_alloc Hr) as [[t Ht]|[He _]]; [|exact He].
  destruct t as [|[|]]; discriminate.
Defined.

(** The payload is cleared after the weak count was given up: in the state of
    the witness the memory is gone and the thread still clears it. *)
Lemma cleared_after_free : exists s, rtc arc_step (arc_init example_header 2) s /\ s.2 !! 0%nat = Some FinalizeZero /\ thread_step FinalizeZero s.1 = Undef.
Proof. eexists. split; [eapply run_schedule_reaches, after_race_is|done]. Qed.

(** ** The allocation *)

Lemma arc_power al : 0 <= al <= SIZE_MAX -> is_power_of_two al = true -> al = 2 ^ Z.log2 al.
Proof.
  unfold is_power_of_two, SIZE_MAX. intros H [Hn Hl]%andb_true_iff. apply negb_true_iff, Z.eqb_neq in Hn. apply Z.eqb_eq in Hl.
  apply land_pred_pow2; lia.
Qed.

(** C37: a block that [malloc] returned for the requested number of bytes holds
    the header, after it the pointer back to the header, and after that the
    payload at a multiple of the alignment, which is a power of two, at least
    the one asked for and that of [max_align_t]. *)
Theorem arc_alloc_layout malloc len al d sc p h :
  (forall n r, malloc n = Some r -> 0 <= r /\ r + n <= SIZE_MAX) -> 0 <= len -> 0 <= al <= SIZE_MAX ->
  arc_alloc_full_aligned malloc len al d sc = Some (p, h) ->
  exists n, malloc n = Some (allocation_base h) /\ user_data h = p /\ 0 < len /\
    (exists k, 4 <= k /\ alignment h = 2 ^ k) /\ al <= alignment h /\ (alignment h | p) /\
    allocation_base h + sizeof_ArcHeader <= p - ARC_HEADER_SLOT_SIZE /\ p + len <= allocation_base h + n.
Proof.
  intros Hm Hlen Hal. unfold arc_alloc_full_aligned. case_match eqn:E0; [done|]. apply Z.eqb_neq in E0.
  set (a0 := if negb (al =? 0) then al else arc_default_alignment). case_match eqn:E1; [done|]. apply negb_false_iff in E1.
  assert (Ha0 : 0 <= a0 <= SIZE_MAX /\ al <= a0) by (unfold a0, arc_default_alignment, SIZE_MAX in *; destruct (Z.eqb_spec al 0); simpl; lia).
  apply arc_power in E1; [|apply Ha0]. set (a := if a0 <? arc_default_alignment then arc_default_alignment else a0).
  assert (Ha : exists k, 4 <= k /\ a = 2 ^ k).
  { unfold a, arc_default_alignment. destruct (Z.ltb_spec a0 16); [by exists 4|]. exists (Z.log2 a0). split; [|done].
    by apply (Z.log2_le_mono 16). }
  assert (Haa : al <= a) by (unfold a; destruct (Z.ltb_spec a0 arc_default_alignment); lia).
  intros H. cbv zeta in H. change (if a0 <? arc_default_alignment then arc_default_alignment else a0) with a in H. clearbody a. clear E1 a0 Ha0.
  apply bind_Some in H as (t1 & Ht1 & H). apply bind_Some in H as (t2 & Ht2 & H). apply bind_Some in H as (raw & Hraw & [= <- <-]).
  unfold add_sizes, SIZE_MAX in *. do 2 (case_match; [done|]). simplify_eq. pose proof (Hm _ _ Hraw) as [Hr Hn].
  destruct Ha as (k & Hk & ->). pose proof (Z.pow_pos_nonneg 2 k ltac:(lia) ltac:(lia)). unfold sizeof_ArcHeader, ARC_HEADER_SLOT_SIZE in *.
  rewrite (u64_small (raw + _)), Z.add_sub_assoc, (align_word _ _ k) by lia.
  destruct (round_up_spec (raw + (64 + 8)) (2 ^ k) ltac:(lia)) as [Hb Hd].
  eexists. split; [exact Hraw|]. simpl. split_and!; [done|lia|by exists k|done|by apply Z.mod_divide; lia|lia|lia].
Qed.

Lemma arc_alloc_layout_witness :
  arc_alloc_full_aligned (fun n => if n <=? 1048576 then Some 4096 else None) 24 32 None None = Some (4192, mkArc 4096 4192 24 32 1 1 0 ARC_COLOR_BLACK None None) /\
  exists n, (fun n => if n <=? 1048576 then Some 4096 else None) n = Some 4096 /\ 4096 + 64 <= 4192 - 8 /\ 4192 + 24 <= 4096 + n.
Proof.
  assert (Ha : arc_alloc_full_aligned (fun n => if n <=? 1048576 then Some 4096 else None) 24 32 None None =
    Some (4192, mkArc 4096 4192 24 32 1 1 0 ARC_COLOR_BLACK None None)) by (vm_compute; reflexivity).
  split; [exact Ha|]. eapply arc_alloc_layout in Ha as (n & Hn & _ & _ & _ & _ & _ & H1 & H2); [by exists n| |lia|done].
  intros n r Hn. simpl in Hn. destruct (Z.leb_spec n 1048576); simplify_eq. unfold SIZE_MAX. lia.
Defined.
