(* ===== verification/Mpsc.v ===== *)
(** * The multi-producer queue

    [src/runtime/net/mpsc_queue.c]: a linked queue that any number of threads
    fill and one thread empties.  A node pointer is an index into the nodes the
    arena has given out, which are never freed.  The steps of the threads
    interleave freely: an exchange, an atomic load or store of [next] is one
    step; what a producer writes into a node that it has not linked yet is one
    step with the allocation.  The interleaving is sequentially consistent,
    which the acquire and release orderings of the code give for a node's
    [value].  A value is a pointer: 0 is [NULL]. *)
From S2P Require Import Prelude.

Record CxMpscNode := mkNode { next : option nat; value : Z }.
Record CxMpscQueue := mkQueue { nodes : list CxMpscNode; head : nat; tail : nat }.

(** [arena], [mem_q] and [mem_stub] tell whether the arena is there and whether its two answers are memory. *)
Definition cx_mpsc_queue_create (arena mem_q mem_stub : bool) : option CxMpscQueue :=
  if negb arena then None else if negb mem_q then None else if negb mem_stub then None else Some (mkQueue [mkNode None 0] 0 0).

(** [cx_mpsc_enqueue]: the node, [None] when the arena is exhausted (result -1). *)
Definition enqueue_alloc (q : CxMpscQueue) (v : Z) (mem : bool) : option (CxMpscQueue * nat) :=
  if mem then Some (mkQueue (nodes q ++ [mkNode None v]) (head q) (tail q), length (nodes q)) else None.

(** The exchange gives the previous head. *)
Definition enqueue_exchange (q : CxMpscQueue) (n : nat) : CxMpscQueue * nat := (mkQueue (nodes q) n (tail q), head q).

(** [prev->next = node] *)
Definition enqueue_link (q : CxMpscQueue) (prev n : nat) : outcome CxMpscQueue :=
  let! p := of_option (nodes q !! prev) in
  Ok (mkQueue (<[prev := mkNode (Some n) (value p)]> (nodes q)) (head q) (tail q)).

(** How a load of [tail->next] in [cx_mpsc_dequeue] ends: another round, [NULL], or a value. *)
Inductive load_end := Yields (backoff : Z) | GivesNull | Gives (v : Z).

Definition dequeue_load (q : CxMpscQueue) (tl : nat) (backoff : Z) : outcome (CxMpscQueue * load_end) :=
  let! t := of_option (nodes q !! tl) in
  match next t with
  | None => Ok (q, if backoff <? 8 then Yields (backoff + 1) else GivesNull)
  | Some n => let! x := of_option (nodes q !! n) in Ok (mkQueue (nodes q) (head q) n, Gives (value x))
  end.

(** ** Threads *)

Inductive producer := Idle | Allocated (n : nat) | Exchanged (prev n : nat).
Inductive consumer := Resting | Loading (tl : nat) (backoff : Z).

(** The calls of [cx_mpsc_enqueue] that got a node and the exchanges, both with
    their threads, and the values received. *)
Record sys := mkSys { queue : CxMpscQueue; producers : list producer; reader : consumer;
  calls : list (nat * Z); enqueued : list (nat * Z); received : list Z }.

Definition set_producer (s : sys) (q : CxMpscQueue) (i : nat) (p : producer) : sys :=
  mkSys q (<[i := p]> (producers s)) (reader s) (calls s) (enqueued s) (received s).

Inductive step : sys -> sys -> Prop :=
| st_alloc s i v q n : producers s !! i = Some Idle -> enqueue_alloc (queue s) v true = Some (q, n) ->
    step s (mkSys q (<[i := Allocated n]> (producers s)) (reader s) (calls s ++ [(i, v)]) (enqueued s) (received s))
| st_exchange s i n x q prev : producers s !! i = Some (Allocated n) -> enqueue_exchange (queue s) n = (q, prev) -> nodes q !! n = Some x ->
    step s (mkSys q (<[i := Exchanged prev n]> (producers s)) (reader s) (calls s) (enqueued s ++ [(i, value x)]) (received s))
| st_link s i prev n q : producers s !! i = Some (Exchanged prev n) -> enqueue_link (queue s) prev n = Ok q -> step s (set_producer s q i Idle)
| st_dequeue s : reader s = Resting ->
    step s (mkSys (queue s) (producers s) (Loading (tail (queue s)) 0) (calls s) (enqueued s) (received s))
| st_yield s tl b q b' : reader s = Loading tl b -> dequeue_load (queue s) tl b = Ok (q, Yields b') ->
    step s (mkSys q (producers s) (Loading tl b') (calls s) (enqueued s) (received s))
| st_null s tl b q : reader s = Loading tl b -> dequeue_load (queue s) tl b = Ok (q, GivesNull) ->
    step s (mkSys q (producers s) Resting (calls s) (enqueued s) (received s))
| st_gives s tl b q v : reader s = Loading tl b -> dequeue_load (queue s) tl b = Ok (q, Gives v) ->
    step s (mkSys q (producers s) Resting (calls s) (enqueued s) (received s ++ [v])).

Inductive reachable (n : nat) : sys -> Prop :=
| reach_init q : cx_mpsc_queue_create true true true = Some q -> reachable n (mkSys q (repeat Idle n) Resting [] [] [])
| reach_step s s' : reachable n s -> step s s' -> reachable n s'.

(** ** The invariant

    [order] is the stub and the exchanged nodes, in the order of the exchanges;
    the reader is at its place [k]. *)
Definition pending (s : sys) (i : nat) : list (nat * Z) :=
  match producers s !! i with
  | Some (Allocated n) => match nodes (queue s) !! n with Some x => [(i, value x)] | None => [] end
  | _ => []
  end.

Definition of_producer (i : nat) (l : list (nat * Z)) : list (nat * Z) := List.filter (fun e => (e.1 =? i)%nat) l.

Record linked (s : sys) (order : list nat) (k : nat) : Prop := {
  li_nodup : NoDup order;
  li_range : forall x, x ∈ order -> (x < length (nodes (queue s)))%nat;
  li_head : list.last order = Some (head (queue s));
  li_tail : order !! k = Some (tail (queue s));
  li_length : length order = S (length (enqueued s));
  li_value : forall i x e, order !! S i = Some x -> enqueued s !! i = Some e -> option_map value (nodes (queue s) !! x) = Some (e.2);
  li_next : forall i x y nd, order !! i = Some x -> order !! S i = Some y -> nodes (queue s) !! x = Some nd ->
    next nd = Some y /\ (forall p z, producers s !! p <> Some (Exchanged x z)) \/
    next nd = None /\ exists p e, producers s !! p = Some (Exchanged x y) /\ enqueued s !! i = Some (p, e);
  li_last : forall nd, nodes (queue s) !! head (queue s) = Some nd -> next nd = None;
  li_alloc : forall p n, producers s !! p = Some (Allocated n) -> (n ∉ order) /\ exists nd, nodes (queue s) !! n = Some nd /\ next nd = None;
  li_own : forall p p' n, producers s !! p = Some (Allocated n) -> producers s !! p' = Some (Allocated n) -> p = p';
  li_link : forall p x y, producers s !! p = Some (Exchanged x y) -> exists i, order !! i = Some x /\ order !! S i = Some y;
  li_one : forall p p' x y y', producers s !! p = Some (Exchanged x y) -> producers s !! p' = Some (Exchanged x y') -> p = p';
  li_received : received s = map snd (take k (enqueued s));
  li_reader : forall tl b, reader s = Loading tl b -> tl = tail (queue s);
  li_calls : forall i, of_producer i (calls s) = of_producer i (enqueued s) ++ pending s i
}.

Lemma of_producer_snoc i l j v : of_producer i (l ++ [(j, v)]) = of_producer i l ++ (if (j =? i)%nat then [(j, v)] else []).
Proof. unfold of_producer. rewrite List.filter_app. simpl. by destruct (j =? i)%nat. Qed.

Lemma last_place {A} (l : list A) x i : NoDup l -> list.last l = Some x -> l !! i = Some x -> l !! S i = None.
Proof.
  intros Hn Hl Hi. rewrite last_lookup in Hl. pose proof (NoDup_lookup _ _ _ _ Hn Hi Hl) as ->.
  apply lookup_ge_None_2. apply lookup_lt_Some in Hl. lia.
Qed.

Lemma lookup_set (l : list producer) i j p q : <[i := p]> l !! j = Some q -> i = j /\ q = p \/ i <> j /\ l !! j = Some q.
Proof.
  destruct (decide (i = j)) as [->|Hne]; [|rewrite list_lookup_insert_ne by done; by right].
  intros H. left. split; [done|]. assert (Hl : (j < length l)%nat) by (apply lookup_lt_Some in H; by rewrite length_insert in H).
  rewrite list_lookup_insert_eq in H by done. by injection H.
Qed.

Lemma linked_alloc s order k i v : linked s order k -> producers s !! i = Some Idle ->
  linked (mkSys (mkQueue (nodes (queue s) ++ [mkNode None v]) (head (queue s)) (tail (queue s))) (<[i := Allocated (length (nodes (queue s)))]> (producers s))
    (reader s) (calls s ++ [(i, v)]) (enqueued s) (received s)) order k.
Proof.
  intros [Hnd Hrg Hhd Htl Hlen Hval Hnx Hlast Hal Hown Hlk H1 Hrc Hrd Hcl] Hi.
  assert (Hold : forall x, (x < length (nodes (queue s)))%nat -> (nodes (queue s) ++ [mkNode None v]) !! x = nodes (queue s) !! x) by (intros; by apply lookup_app_l).
  assert (Hin : forall j x, order !! j = Some x -> (x < length (nodes (queue s)))%nat) by (intros j x Hj; by apply Hrg; eapply list_elem_of_lookup_2).
  assert (Hall : forall p n, producers s !! p = Some (Allocated n) -> (n < length (nodes (queue s)))%nat).
  { intros p n Hp. destruct (Hal p n Hp) as (_ & nd & E & _). by eapply lookup_lt_Some. }
  split; cbn [queue producers reader calls enqueued received nodes head tail]; try done.
  - intros x Hx. rewrite length_app. specialize (Hrg x Hx). simpl. lia.
  - intros j x e Hj He. rewrite Hold by eauto. by eapply Hval.
  - intros j x y nd Hj Hj' E. rewrite Hold in E by eauto. destruct (Hnx j x y nd Hj Hj' E) as [[E1 E2]|(E1 & p & e & E2 & E3)]; [left|right].
    + split; [done|]. intros p z Hp. apply lookup_set in Hp as [[_ Hp]|[_ Hp]]; [done|by eapply E2].
    + split; [done|]. exists p, e. split; [|done]. rewrite list_lookup_insert_ne; [done|]. intros ->. congruence.
  - intros nd E. rewrite Hold in E; [by apply Hlast|]. apply Hrg. rewrite last_lookup in Hhd. by eapply list_elem_of_lookup_2.
  - intros p n [[-> [= ->]]|[_ Hp]]%lookup_set.
    + split; [intros Hx; specialize (Hrg _ Hx); lia|]. exists (mkNode None v). split; [|done]. by apply list_lookup_middle.
    + destruct (Hal p n Hp) as (Hn & nd & E & E'). split; [done|]. exists nd. split; [|done]. rewrite Hold; [done|]. by eapply lookup_lt_Some.
  - intros p p' n [[-> [= ->]]|[_ Hp]]%lookup_set [[-> E]|[_ Hp']]%lookup_set; [done|..|by eapply Hown]; exfalso; [apply Hall in Hp'|injection E as ->; apply Hall in Hp]; lia.
  - intros p x y [[_ ?]|[_ Hp]]%lookup_set; [done|by eapply Hlk].
  - intros p p' x y y' [[_ ?]|[_ Hp]]%lookup_set [[_ ?]|[_ Hp']]%lookup_set; [done..|by eapply H1].
  - intros j. rewrite of_producer_snoc, Hcl. unfold pending. cbn [producers queue nodes]. destruct (decide (i = j)) as [->|Hne].
    + rewrite Hi, list_lookup_insert_eq by (by eapply lookup_lt_Some). rewrite list_lookup_middle by done. by rewrite Nat.eqb_refl, app_nil_r.
    + rewrite list_lookup_insert_ne by done. replace (i =? j)%nat with false by (symmetry; by apply Nat.eqb_neq). rewrite app_nil_r. f_equal.
      destruct (producers s !! j) as [[| |]|] eqn:E; try done. by rewrite Hold by eauto.
Qed.

Lemma linked_exchange s order k i n x : linked s order k -> producers s !! i = Some (Allocated n) -> nodes (queue s) !! n = Some x ->
  linked (mkSys (mkQueue (nodes (queue s)) n (tail (queue s))) (<[i := Exchanged (head (queue s)) n]> (producers s))
    (reader s) (calls s) (enqueued s ++ [(i, value x)]) (received s)) (order ++ [n]) k.
Proof.
  intros [Hnd Hrg Hhd Htl Hlen Hval Hnx Hlast Hal Hown Hlk H1 Hrc Hrd Hcl] Hi Hx. destruct (Hal i n Hi) as (Hno & nd0 & E0 & Hnone).
  assert (Hk : (k < length order)%nat) by (by eapply lookup_lt_Some).
  assert (Hhl : order !! pred (length order) = Some (head (queue s))) by (by rewrite last_lookup in Hhd).
  assert (Hnew : forall j y, (order ++ [n]) !! j = Some y -> order !! j = Some y \/ j = length order /\ y = n).
  { intros j y Hj. apply lookup_app_Some in Hj as [Hj|[Hle Hj]]; [by left|]. apply list_lookup_singleton_Some in Hj as [Hj <-]. right. split; [lia|done]. }
  assert (Hnolink : forall p z, producers s !! p <> Some (Exchanged (head (queue s)) z)).
  { intros p z Hp. destruct (Hlk _ _ _ Hp) as (j & Hj & Hj'). by rewrite (last_place order _ j Hnd Hhd Hj) in Hj'. }
  split; cbn [queue producers reader calls enqueued received nodes head tail]; try done.
  - apply list.NoDup_app. split_and!; [done| |by apply NoDup_singleton]. intros y Hy ->%list_elem_of_singleton. done.
  - intros y [Hy| ->%list_elem_of_singleton]%elem_of_app; [by apply Hrg|by eapply lookup_lt_Some].
  - by rewrite last_snoc.
  - by rewrite lookup_app_l.
  - rewrite !length_app. simpl. lia.
  - intros j y e Hj He. destruct (Hnew _ _ Hj) as [Hj'|[Hj' ->]].
    + pose proof (lookup_lt_Some _ _ _ Hj'). rewrite lookup_app_l in He by lia. by eapply Hval.
    + apply lookup_app_Some in He as [He|[_ He]]; [apply lookup_lt_Some in He; lia|]. apply list_lookup_singleton_Some in He as [_ <-]. by rewrite Hx.
  - intros j y z nd Hj Hj' E. assert (Hjo : order !! j = Some y).
    { destruct (Hnew _ _ Hj) as [?|[-> _]]; [done|]. apply lookup_lt_Some in Hj'. rewrite length_app in Hj'. simpl in Hj'. lia. }
    destruct (Hnew _ _ Hj') as [Hz|[Hz ->]].
    + destruct (Hnx j y z nd Hjo Hz E) as [[E1 E2]|(E1 & p & e & E2 & E3)]; [left|right].
      * split; [done|]. intros p z' [[_ [= -> ->]]|[_ Hp]]%lookup_set; [|by eapply E2].
        by rewrite (last_place order _ j Hnd Hhd Hjo) in Hz.
      * split; [done|]. exists p, e. split; [|by apply lookup_app_l_Some]. rewrite list_lookup_insert_ne; [done|]. intros ->. congruence.
    + replace (pred (length order)) with j in Hhl by lia. rewrite Hjo in Hhl. injection Hhl as ->. right. split; [by apply Hlast|]. exists i, (value x).
      rewrite list_lookup_insert_eq by (by eapply lookup_lt_Some). split; [done|]. apply list_lookup_middle. lia.
  - intros nd E. rewrite E in E0. by injection E0 as ->.
  - intros p m [[_ ?]|[Hne Hp]]%lookup_set; [done|]. destruct (Hal p m Hp) as [Hm ?]. split; [|done].
    intros [?| ->%list_elem_of_singleton]%elem_of_app; [done|]. by apply Hne, (Hown i p n).
  - intros p p' m [[_ ?]|[_ Hp]]%lookup_set [[_ ?]|[_ Hp']]%lookup_set; [done..|by eapply Hown].
  - intros p y z [[_ [= -> ->]]|[_ Hp]]%lookup_set.
    + exists (pred (length order)). split; [by apply lookup_app_l_Some|]. apply list_lookup_middle. lia.
    + destruct (Hlk _ _ _ Hp) as (j & ? & ?). exists j. split; by apply lookup_app_l_Some.
  - intros p p' y z z' [[-> [= -> ->]]|[_ Hp]]%lookup_set [[-> E]|[_ Hp']]%lookup_set; [done|..|by eapply H1]; exfalso; [by eapply Hnolink|].
    injection E as -> ->. by eapply Hnolink.
  - rewrite take_app_le; [done|lia].
  - intros j. rewrite of_producer_snoc, Hcl. unfold pending. cbn [producers queue nodes]. destruct (decide (i = j)) as [->|Hne].
    + rewrite Hi, Hx, list_lookup_insert_eq by (by eapply lookup_lt_Some). by rewrite Nat.eqb_refl, app_nil_r.
    + rewrite list_lookup_insert_ne by done. replace (i =? j)%nat with false by (symmetry; by apply Nat.eqb_neq). by rewrite app_nil_r.
Qed.

Lemma linked_link s order k i prev n q : linked s order k -> producers s !! i = Some (Exchanged prev n) ->
  enqueue_link (queue s) prev n = Ok q -> linked (set_producer s q i Idle) order k.
Proof.
  intros [Hnd Hrg Hhd Htl Hlen Hval Hnx Hlast Hal Hown Hlk H1 Hrc Hrd Hcl] Hi Hq. unfold enqueue_link in Hq.
  destruct (nodes (queue s) !! prev) as [pd|] eqn:Ep; [|done]. injection Hq as <-. destruct (Hlk _ _ _ Hi) as (j0 & Hj0 & Hj0').
  assert (Hlt : (prev < length (nodes (queue s)))%nat) by (by eapply lookup_lt_Some).
  assert (Hv : forall x, option_map value (<[prev := mkNode (Some n) (value pd)]> (nodes (queue s)) !! x) = option_map value (nodes (queue s) !! x)).
  { intros x. destruct (decide (prev = x)) as [<-|Hne]; [by rewrite list_lookup_insert_eq, Ep|by rewrite list_lookup_insert_ne]. }
  assert (Hnot : forall p z, <[i := Idle]> (producers s) !! p <> Some (Exchanged prev z)).
  { intros p z [[_ ?]|[Hne Hp]]%lookup_set; [done|]. by apply Hne, (H1 i p prev n z). }
  split; cbn [set_producer queue producers reader calls enqueued received nodes head tail]; try done.
  - intros x Hx. rewrite length_insert. by apply Hrg.
  - intros j x e Hj He. rewrite Hv. by eapply Hval.
  - intros j x y nd Hj Hj' E. destruct (decide (prev = x)) as [<-|Hne].
    + rewrite list_lookup_insert_eq in E by done. injection E as <-. left. split; [|by apply Hnot].
      assert (j = j0) as -> by (by eapply NoDup_lookup). cbn. congruence.
    + rewrite list_lookup_insert_ne in E by done. destruct (Hnx j x y nd Hj Hj' E) as [[E1 E2]|(E1 & p & e & E2 & E3)]; [left|right].
      * split; [done|]. intros p z [[_ ?]|[_ Hp]]%lookup_set; [done|by eapply E2].
      * split; [done|]. exists p, e. split; [|done]. rewrite list_lookup_insert_ne; [done|]. intros ->. congruence.
  - intros nd E. rewrite list_lookup_insert_ne in E; [by apply Hlast|]. intros ->. by rewrite (last_place order _ j0 Hnd Hhd Hj0) in Hj0'.
  - intros p m [[_ ?]|[_ Hp]]%lookup_set; [done|]. destruct (Hal p m Hp) as (Hm & nd & E & E'). split; [done|]. exists nd. split; [|done].
    rewrite list_lookup_insert_ne; [done|]. intros ->. apply Hm. by eapply list_elem_of_lookup_2.
  - intros p p' m [[_ ?]|[_ Hp]]%lookup_set [[_ ?]|[_ Hp']]%lookup_set; [done..|by eapply Hown].
  - intros p y z [[_ ?]|[_ Hp]]%lookup_set; [done|by eapply Hlk].
  - intros p p' y z z' [[_ ?]|[_ Hp]]%lookup_set [[_ ?]|[_ Hp']]%lookup_set; [done..|by eapply H1].
  - intros j. rewrite Hcl. unfold pending. cbn [set_producer producers queue nodes]. f_equal. destruct (decide (i = j)) as [->|Hne].
    + by rewrite Hi, list_lookup_insert_eq by (by eapply lookup_lt_Some).
    + rewrite list_lookup_insert_ne by done. destruct (producers s !! j) as [[|m|]|] eqn:E; [done| |done..]. specialize (Hv m).
      destruct (<[prev := _]> (nodes (queue s)) !! m) as [a|], (nodes (queue s) !! m) as [b|]; try done. cbn in Hv. by injection Hv as ->.
Qed.

(** What a load of the reader finds: the successor of its node, unless that is not linked yet. *)
Lemma load_spec s order k b : linked s order k ->
  (exists e, enqueued s !! k = Some e /\ exists n, order !! S k = Some n /\
     dequeue_load (queue s) (tail (queue s)) b = Ok (mkQueue (nodes (queue s)) (head (queue s)) n, Gives (e.2))) \/
  (dequeue_load (queue s) (tail (queue s)) b = Ok (queue s, if b <? 8 then Yields (b + 1) else GivesNull) /\
     (k = length (enqueued s) \/ exists p e n, enqueued s !! k = Some (p, e) /\ producers s !! p = Some (Exchanged (tail (queue s)) n))).
Proof.
  intros [Hnd Hrg Hhd Htl Hlen Hval Hnx Hlast Hal Hown Hlk H1 Hrc Hrd Hcl]. unfold dequeue_load.
  assert (Hk : (k < length order)%nat) by (by eapply lookup_lt_Some).
  destruct (lookup_lt_is_Some_2 (nodes (queue s)) (tail (queue s))) as [nd E]; [apply Hrg; by eapply list_elem_of_lookup_2|]. rewrite E. cbn [of_option obind].
  destruct (order !! S k) as [n|] eqn:En.
  - destruct (lookup_lt_is_Some_2 (enqueued s) k) as [e Ee]; [apply lookup_lt_Some in En; lia|].
    destruct (Hnx k _ n nd Htl En E) as [[-> _]|(-> & p & e' & Hp & He)]; [left|right; split; [done|right; by exists p, e', n]].
    exists e. split; [done|]. exists n. split; [done|]. pose proof (Hval k n e En Ee) as Hv. destruct (nodes (queue s) !! n) as [nn|]; [|done].
    injection Hv as Hv. cbn [of_option obind]. by rewrite Hv.
  - right. apply lookup_ge_None_1 in En. assert (Hkl : k = length (enqueued s)) by lia. split; [|by left].
    rewrite last_lookup in Hhd. replace (pred (length order)) with k in Hhd by lia. rewrite Htl in Hhd. injection Hhd as Hht. by rewrite (Hlast nd) by (by rewrite <- Hht).
Qed.

Lemma linked_gives s order k n e : linked s order k -> enqueued s !! k = Some e -> order !! S k = Some n ->
  linked (mkSys (mkQueue (nodes (queue s)) (head (queue s)) n) (producers s) Resting (calls s) (enqueued s) (received s ++ [e.2])) order (S k).
Proof.
  intros [] He Hn. split; try done. cbn. rewrite (take_S_r _ _ _ He), map_app. by f_equal.
Qed.

Lemma linked_step s s' order k : linked s order k -> step s s' -> exists order' k', linked s' order' k'.
Proof.
  intros Hl Hs. inversion Hs as [? i v q n Hp H|? i n x q prev Hp H Hx|? i prev n q Hp H|? Hr|? tl b q b' Hr H|? tl b q Hr H|? tl b q v Hr H]; subst.
  - injection H as <- <-. exists order, k. by apply linked_alloc.
  - injection H as <- <-. exists (order ++ [n]), k. by apply linked_exchange.
  - exists order, k. by eapply linked_link.
  - exists order, k. destruct Hl. split; try done. cbn. intros tl b [= <- <-]. done.
  - rewrite (li_reader _ _ _ Hl _ _ Hr) in H. exists order, k.
    destruct (load_spec s order k b Hl) as [(e & _ & n & _ & E)|[E _]]; rewrite E in H; simplify_eq.
    pose proof (li_reader _ _ _ Hl _ _ Hr) as ->. destruct Hl. split; try done. cbn. intros ?? [= <- <-]. done.
  - rewrite (li_reader _ _ _ Hl _ _ Hr) in H. exists order, k.
    destruct (load_spec s order k b Hl) as [(e & _ & n & _ & E)|[E _]]; rewrite E in H; simplify_eq.
    destruct Hl. by split.
  - rewrite (li_reader _ _ _ Hl _ _ Hr) in H. exists order, (S k).
    destruct (load_spec s order k b Hl) as [(e & He & n & Hn & E)|[E _]]; rewrite E in H; [|by destruct (b <? 8); simplify_eq].
    simplify_eq. by apply linked_gives.
Qed.

Lemma reachable_linked n s : reachable n s -> exists order k, linked s order k.
Proof.
  induction 1 as [q Hq|s s' _ (order & k & Hl) Hs]; [|by eapply linked_step]. injection Hq as <-. exists [0%nat], 0%nat.
  assert (Hp : forall i p, repeat Idle n !! i = Some p -> p = Idle).
  { intros i p H. apply list_elem_of_lookup_2, list_elem_of_In, repeat_spec in H. done. }
  split; cbn; try done; try (intros; by match goal with H : repeat Idle n !! _ = Some _ |- _ => apply Hp in H end).
  - apply NoDup_singleton.
  - intros x ->%list_elem_of_singleton. lia.
  - by intros nd [= <-].
  - intros i. unfold pending. cbn. destruct (repeat Idle n !! i) eqn:E; [|done]. by apply Hp in E as ->.
Qed.

(** C23: the queue delivers every value once and in order.  Under any
    interleaving of the producers and the reader, what has been received is a
    prefix of what has been enqueued, in the order of the exchanges; each
    producer's values are enqueued in the order of its calls and only the call
    it is in may still be missing; no access leads outside the nodes; and a
    load of the reader gives the next value, unless nothing is left or the
    producer of the next value stands between its exchange and its store. *)
Theorem mpsc_delivers n s : reachable n s -> exists k, (k <= length (enqueued s))%nat /\ received s = map snd (take k (enqueued s)) /\
  (forall i, of_producer i (calls s) = of_producer i (enqueued s) ++ pending s i) /\
  (forall p prev x, producers s !! p = Some (Exchanged prev x) -> exists q, enqueue_link (queue s) prev x = Ok q) /\
  forall tl b, reader s = Loading tl b -> exists q r, dequeue_load (queue s) tl b = Ok (q, r) /\
    match r with
    | Gives v => exists p, enqueued s !! k = Some (p, v)
    | _ => k = length (enqueued s) \/ exists p e prev x, enqueued s !! k = Some (p, e) /\ producers s !! p = Some (Exchanged prev x)
    end.
Proof.
  intros (order & k & Hl)%reachable_linked. exists k. pose proof (lookup_lt_Some _ _ _ (li_tail _ _ _ Hl)) as Hk. rewrite (li_length _ _ _ Hl) in Hk.
  split; [lia|]. split; [apply Hl|]. split; [apply Hl|]. split.
  - intros p prev x Hp. destruct (li_link _ _ _ Hl _ _ _ Hp) as (i & Hi & _). unfold enqueue_link.
    destruct (lookup_lt_is_Some_2 (nodes (queue s)) prev) as [nd ->]; [apply (li_range _ _ _ Hl); by eapply list_elem_of_lookup_2|by eexists].
  - intros tl b Hr. rewrite (li_reader _ _ _ Hl _ _ Hr). destruct (load_spec s order k b Hl) as [([p e] & He & m & _ & ->)|[-> Hwhy]].
    + eexists _, _. split; [reflexivity|]. by exists p.
    + eexists _, _. split; [reflexivity|]. destruct (b <? 8); (destruct Hwhy as [?|(p & e & m & ? & ?)]; [by left|right; by eexists _, _, _, _]).
Qed.

(** Two producers: the second exchange is linked first, and the reader waits. *)
Definition example_sys : sys :=
  mkSys (mkQueue [mkNode None 0; mkNode None 5; mkNode (Some 1%nat) 7] 1 0) [Idle; Exchanged 0 2] (Loading 0 0) [(0%nat, 5); (1%nat, 7)] [(1%nat, 7); (0%nat, 5)] [].

Lemma mpsc_delivers_witness : reachable 2 example_sys /\
  dequeue_load (queue example_sys) 0 0 = Ok (queue example_sys, Yields 1) /\ of_producer 0 (calls example_sys) = of_producer 0 (enqueued example_sys).
Proof.
  assert (H : reachable 2 example_sys).
  { pose proof (reach_init 2 _ eq_refl) as H0.
    eassert (H1 : reachable 2 _) by (eapply (reach_step _ _ _ H0); eapply (st_alloc _ 0 5); reflexivity). cbn in H1.
    eassert (H2 : reachable 2 _) by (eapply (reach_step _ _ _ H1); eapply (st_alloc _ 1 7); reflexivity). cbn in H2.
    eassert (H3 : reachable 2 _) by (eapply (reach_step _ _ _ H2); eapply (st_exchange _ 1 2); reflexivity). cbn in H3.
    eassert (H4 : reachable 2 _) by (eapply (reach_step _ _ _ H3); eapply (st_exchange _ 0 1); reflexivity). cbn in H4.
    eassert (H5 : reachable 2 _) by (eapply (reach_step _ _ _ H4); eapply (st_link _ 0 2 1); reflexivity). cbn in H5.
    eapply (reach_step _ _ _ H5). by eapply st_dequeue. }
  split; [exact H|]. destruct (mpsc_delivers 2 example_sys H) as (k & _ & Hr & Hc & _ & Hload).
  destruct (Hload 0%nat 0 eq_refl) as (q & r & E & _). split; [vm_compute; reflexivity|]. rewrite (Hc 0%nat). vm_compute. reflexivity.
Defined.
