(* ===== verification/Channel.v ===== *)
(** * Channels

    [src/runtime/concurrent/channel.c]: a bounded buffer under a mutex with
    two condition variables.  What a thread does between taking and releasing
    the mutex is one step; a wait releases it, and a waiting thread is woken by
    a signal, by a broadcast or spuriously.  A message is a pointer: 0 is
    [NULL]. *)
From S2P Require Import Prelude CArray.

Record Channel := mkChannel {
  capacity : Z; buffer : list Z; size : Z; read_pos : Z; write_pos : Z;
  closed : bool; waiting_senders : Z; waiting_receivers : Z
}.

Definition channel_create (cap : Z) (alloc mem : bool) : option Channel :=
  if alloc then
    if 0 <? cap then (if mem then Some (mkChannel cap (repeat 0 (Z.to_nat cap)) 0 0 0 false 0 0) else None)
    else Some (mkChannel cap [] 0 0 0 false 0 0)
  else None.

(** [if (ch->capacity > 0) { buffer[write_pos] = message; ... }] *)
Definition put_message (ch : Channel) (m : Z) : outcome Channel :=
  if 0 <? capacity ch then
    let! b := store (buffer ch) (write_pos ch) m in
    Ok (mkChannel (capacity ch) b (size ch + 1) (read_pos ch) ((write_pos ch + 1) mod capacity ch) (closed ch)
          (waiting_senders ch) (waiting_receivers ch))
  else Ok ch.

Definition take_message (ch : Channel) : outcome (Channel * Z) :=
  let! m := load (buffer ch) (read_pos ch) in
  Ok (mkChannel (capacity ch) (buffer ch) (size ch - 1) ((read_pos ch + 1) mod capacity ch) (write_pos ch) (closed ch)
        (waiting_senders ch) (waiting_receivers ch), m).

Definition add_senders (ch : Channel) (n : Z) : Channel :=
  mkChannel (capacity ch) (buffer ch) (size ch) (read_pos ch) (write_pos ch) (closed ch)
    (waiting_senders ch + n) (waiting_receivers ch).
Definition add_receivers (ch : Channel) (n : Z) : Channel :=
  mkChannel (capacity ch) (buffer ch) (size ch) (read_pos ch) (write_pos ch) (closed ch)
    (waiting_senders ch) (waiting_receivers ch + n).

(** How a critical section of [channel_send] ends. *)
Inductive send_end := SendFalse | SendSleeps | SendTrue.

(** From the test of the [while] loop on. *)
Definition send_loop (ch : Channel) (m : Z) : outcome (Channel * send_end) :=
  if (capacity ch <=? size ch) && negb (closed ch) then Ok (add_senders ch 1, SendSleeps)
  else if closed ch then Ok (ch, SendFalse)
  else let! ch := put_message ch m in Ok (ch, SendTrue).

Definition send_enter (ch : Channel) (m : Z) : outcome (Channel * send_end) :=
  if closed ch then Ok (ch, SendFalse) else send_loop ch m.

(** The return from [pthread_cond_wait]. *)
Definition send_resume (ch : Channel) (m : Z) : outcome (Channel * send_end) := send_loop (add_senders ch (-1)) m.

Definition channel_try_send (ch : Channel) (m : Z) : outcome (Channel * bool) :=
  if closed ch || ((0 <? capacity ch) && (capacity ch <=? size ch)) then Ok (ch, false)
  else let! ch := put_message ch m in Ok (ch, true).

Inductive recv_end := RecvNull | RecvSleeps | RecvGot (m : Z).

Definition recv_loop (ch : Channel) : outcome (Channel * recv_end) :=
  if (size ch =? 0) && negb (closed ch) then Ok (add_receivers ch 1, RecvSleeps)
  else if (size ch =? 0) && closed ch then Ok (ch, RecvNull)
  else if (0 <? capacity ch) && (0 <? size ch) then let! r := take_message ch in Ok (r.1, RecvGot r.2)
  else Ok (ch, RecvGot 0).

Definition recv_resume (ch : Channel) : outcome (Channel * recv_end) := recv_loop (add_receivers ch (-1)).

Definition channel_try_recv (ch : Channel) : outcome (Channel * option Z) :=
  if size ch =? 0 then Ok (ch, None)
  else if 0 <? capacity ch then let! r := take_message ch in Ok (r.1, Some r.2)
  else Ok (ch, Some 0).

Definition channel_close (ch : Channel) : Channel :=
  mkChannel (capacity ch) (buffer ch) (size ch) (read_pos ch) (write_pos ch) true (waiting_senders ch) (waiting_receivers ch).

Definition channel_is_closed (ch : option Channel) : bool := match ch with Some ch => closed ch | None => false end.

(** ** Threads *)

Inductive thread :=
| Idle
| SendWait (m : Z) | SendWoken (m : Z)
| RecvWait | RecvWoken.

(** The messages [send] and [try_send] accepted, and those received, in order. *)
Record sys := mkSys { chan : Channel; threads : list thread; accepted : list Z; received : list Z }.

(** [pthread_cond_signal]: one of the threads that wait, if any. *)
Inductive signal_recv : list thread -> list thread -> Prop :=
| sr_one ts j : ts !! j = Some RecvWait -> signal_recv ts (<[j := RecvWoken]> ts)
| sr_none ts : (forall j, ts !! j <> Some RecvWait) -> signal_recv ts ts.

Inductive signal_send : list thread -> list thread -> Prop :=
| ss_one ts j m : ts !! j = Some (SendWait m) -> signal_send ts (<[j := SendWoken m]> ts)
| ss_none ts : (forall j m, ts !! j <> Some (SendWait m)) -> signal_send ts ts.

Definition wake_all (t : thread) : thread :=
  match t with SendWait m => SendWoken m | RecvWait => RecvWoken | t => t end.

(** The end of a critical section of [channel_send] in thread [i]. *)
Inductive after_send (i : nat) (m : Z) (s : sys) : Channel * send_end -> sys -> Prop :=
| af_false ch : after_send i m s (ch, SendFalse) (mkSys ch (<[i := Idle]> (threads s)) (accepted s) (received s))
| af_sleeps ch : after_send i m s (ch, SendSleeps) (mkSys ch (<[i := SendWait m]> (threads s)) (accepted s) (received s))
| af_true ch ts : signal_recv (<[i := Idle]> (threads s)) ts ->
    after_send i m s (ch, SendTrue) (mkSys ch ts (accepted s ++ [m]) (received s)).

Inductive after_recv (i : nat) (s : sys) : Channel * recv_end -> sys -> Prop :=
| ar_null ch : after_recv i s (ch, RecvNull) (mkSys ch (<[i := Idle]> (threads s)) (accepted s) (received s))
| ar_sleeps ch : after_recv i s (ch, RecvSleeps) (mkSys ch (<[i := RecvWait]> (threads s)) (accepted s) (received s))
| ar_got ch m ts : signal_send (<[i := Idle]> (threads s)) ts ->
    after_recv i s (ch, RecvGot m) (mkSys ch ts (accepted s) (received s ++ [m])).

Inductive step : sys -> sys -> Prop :=
| st_send s i m r s' : threads s !! i = Some Idle -> send_enter (chan s) m = Ok r -> after_send i m s r s' -> step s s'
| st_send_resume s i m r s' :
    threads s !! i = Some (SendWoken m) -> send_resume (chan s) m = Ok r -> after_send i m s r s' -> step s s'
| st_recv s i r s' : threads s !! i = Some Idle -> recv_loop (chan s) = Ok r -> after_recv i s r s' -> step s s'
| st_recv_resume s i r s' :
    threads s !! i = Some RecvWoken -> recv_resume (chan s) = Ok r -> after_recv i s r s' -> step s s'
| st_try_send s m ch ts : channel_try_send (chan s) m = Ok (ch, true) -> signal_recv (threads s) ts ->
    step s (mkSys ch ts (accepted s ++ [m]) (received s))
| st_try_send_false s m ch : channel_try_send (chan s) m = Ok (ch, false) ->
    step s (mkSys ch (threads s) (accepted s) (received s))
| st_try_recv s m ch ts : channel_try_recv (chan s) = Ok (ch, Some m) -> signal_send (threads s) ts ->
    step s (mkSys ch ts (accepted s) (received s ++ [m]))
| st_try_recv_none s ch : channel_try_recv (chan s) = Ok (ch, None) ->
    step s (mkSys ch (threads s) (accepted s) (received s))
| st_close s : step s (mkSys (channel_close (chan s)) (map wake_all (threads s)) (accepted s) (received s))
| st_spurious s i t : threads s !! i = Some t -> step s (mkSys (chan s) (<[i := wake_all t]> (threads s)) (accepted s) (received s)).
