(* ===== verification/ChannelFacts.v ===== *)
(** * Channels deliver in order and lose no wake-up *)
From S2P Require Import Prelude CArray NuwanMap Channel.

Definition contents (ch : Channel) : list Z := ring (buffer ch) (capacity ch) (read_pos ch) (Z.to_nat (size ch)).

Record chan_ok (ch : Channel) : Prop := {
  ch_cap : 0 < capacity ch;
  ch_len : Z.of_nat (length (buffer ch)) = capacity ch;
  ch_size : 0 <= size ch <= capacity ch;
  ch_read : 0 <= read_pos ch < capacity ch;
  ch_write : write_pos ch = (read_pos ch + size ch) mod capacity ch
}.

(** ** The buffer *)

Lemma put_message_ok ch m : chan_ok ch -> size ch < capacity ch ->
  exists ch', put_message ch m = Ok ch' /\ chan_ok ch' /\ contents ch' = contents ch ++ [m] /\ size ch' = size ch + 1 /\
    capacity ch' = capacity ch /\ closed ch' = closed ch /\
    waiting_receivers ch' = waiting_receivers ch /\ waiting_senders ch' = waiting_senders ch.
Proof.
  intros [H1 H2 H3 H4 H5] Hlt. unfold put_message. rewrite (proj2 (Z.ltb_lt _ _)) by done.
  pose proof (Z.mod_pos_bound (read_pos ch + size ch) (capacity ch) H1).
  rewrite store_in by lia. cbn [obind]. eexists. split; [done|]. split_and!; try done.
  - constructor; cbn; rewrite ?length_insert; try done; try lia.
    rewrite H5, Zplus_mod_idemp_l. f_equal. lia.
  - unfold contents. cbn. rewrite Z2Nat.inj_add, Nat.add_1_r, H5 by lia.
    rewrite <- (Z2Nat.id (size ch)) at 1 by lia. apply ring_put; lia.
Qed.

Lemma take_message_ok ch : chan_ok ch -> 0 < size ch ->
  exists ch' m, take_message ch = Ok (ch', m) /\ chan_ok ch' /\ contents ch = m :: contents ch' /\ size ch' = size ch - 1 /\
    capacity ch' = capacity ch /\ closed ch' = closed ch /\
    waiting_receivers ch' = waiting_receivers ch /\ waiting_senders ch' = waiting_senders ch.
Proof.
  intros [H1 H2 H3 H4 H5] Hlt. unfold take_message.
  destruct (load_in (buffer ch) (read_pos ch)) as (m & -> & Hm); [lia|]. cbn [obind]. eexists _, m. split; [done|].
  split_and!; try done.
  - constructor; cbn; try done; try lia; [by apply Z.mod_pos_bound|].
    rewrite H5, Zplus_mod_idemp_l. f_equal. lia.
  - unfold contents. cbn. replace (Z.to_nat (size ch)) with (S (Z.to_nat (size ch - 1))) by lia. cbn [ring].
    rewrite (Z.mod_small (read_pos ch)), Hm by lia. cbn. f_equal. apply list_eq. intros i.
    destruct (decide (i < Z.to_nat (size ch - 1))%nat) as [Hi|Hi].
    + rewrite !ring_lookup by done. by rewrite Zplus_mod_idemp_l.
    + by rewrite !lookup_ge_None_2 by (rewrite ring_length; lia).
Qed.

(** ** Counting the threads *)

Definition recv_waits (t : thread) : bool := match t with RecvWait => true | _ => false end.
Definition recv_woken (t : thread) : bool := match t with RecvWoken => true | _ => false end.
Definition send_waits (t : thread) : bool := match t with SendWait _ => true | _ => false end.
Definition send_woken (t : thread) : bool := match t with SendWoken _ => true | _ => false end.

Record inv (s : sys) : Prop := {
  iv_chan : chan_ok (chan s);
  iv_fifo : accepted s = received s ++ contents (chan s);
  iv_recv : 0 < count recv_waits (threads s) ->
    closed (chan s) = false /\ size (chan s) <= count recv_woken (threads s);
  iv_send : 0 < count send_waits (threads s) ->
    closed (chan s) = false /\ capacity (chan s) - size (chan s) <= count send_woken (threads s);
  iv_receivers : waiting_receivers (chan s) = count recv_waits (threads s) + count recv_woken (threads s);
  iv_senders : waiting_senders (chan s) = count send_waits (threads s) + count send_woken (threads s)
}.

Lemma count_zero {A} (p : A -> bool) l : (forall x, x ∈ l -> p x = false) -> count p l = 0.
Proof.
  induction l as [|y l IH]; intros H; [done|]. rewrite count_cons, (H y) by left. cbn.
  rewrite IH; [done|]. intros x Hx. apply H. by right.
Qed.

Lemma count_lookup {A} (p : A -> bool) l i x : l !! i = Some x -> p x = true -> 0 < count p l.
Proof.
  intros Hi Hp. pose proof (count_insert p l i x x Hi) as H. rewrite list_insert_id in H by done.
  apply list_elem_of_lookup_2 in Hi. apply list_elem_of_split in Hi as (l1 & l2 & ->).
  rewrite (count_perm p _ (x :: l1 ++ l2)) by solve_Permutation. rewrite count_cons, Hp.
  pose proof (count_nonneg p (l1 ++ l2)). cbn. lia.
Qed.

(** A signal wakes one waiting thread, if there is one. *)
Lemma signal_recv_count ts ts' : signal_recv ts ts' ->
  (count recv_waits ts = 0 /\ ts' = ts \/
   0 < count recv_waits ts /\ count recv_waits ts' = count recv_waits ts - 1 /\ count recv_woken ts' = count recv_woken ts + 1) /\
  count send_waits ts' = count send_waits ts /\ count send_woken ts' = count send_woken ts.
Proof.
  intros [ts0 j Hj|ts0 Hno].
  - rewrite !(count_insert _ _ _ _ _ Hj). cbn. split; [|lia]. right. split; [|lia]. by apply (count_lookup _ _ j RecvWait).
  - split; [|done]. left. split; [|done]. apply count_zero. intros [] [j Hj]%list_elem_of_lookup; try done. by destruct (Hno j).
Qed.

Lemma signal_send_count ts ts' : signal_send ts ts' ->
  (count send_waits ts = 0 /\ ts' = ts \/
   0 < count send_waits ts /\ count send_waits ts' = count send_waits ts - 1 /\ count send_woken ts' = count send_woken ts + 1) /\
  count recv_waits ts' = count recv_waits ts /\ count recv_woken ts' = count recv_woken ts.
Proof.
  intros [ts0 j m Hj|ts0 Hno].
  - rewrite !(count_insert _ _ _ _ _ Hj). cbn. split; [|lia]. right. split; [|lia]. by apply (count_lookup _ _ j (SendWait m)).
  - split; [|done]. left. split; [|done]. apply count_zero. intros [] [j Hj]%list_elem_of_lookup; try done. by destruct (Hno j m).
Qed.

Lemma wake_all_counts ts : count recv_waits (map wake_all ts) = 0 /\ count send_waits (map wake_all ts) = 0 /\
  count recv_woken (map wake_all ts) = count recv_waits ts + count recv_woken ts /\
  count send_woken (map wake_all ts) = count send_waits ts + count send_woken ts.
Proof. induction ts as [|t ts (H1 & H2 & H3 & H4)]; [done|]. cbn [map]. rewrite !count_cons. destruct t; cbn; lia. Qed.

(** ** The critical sections *)

(** What the invariant needs of the channel after a section that stored [m]. *)
Definition stored (ch ch' : Channel) (m : Z) : Prop :=
  chan_ok ch' /\ contents ch' = contents ch ++ [m] /\ size ch' = size ch + 1 /\ capacity ch' = capacity ch /\
  closed ch' = closed ch /\ waiting_receivers ch' = waiting_receivers ch /\ waiting_senders ch' = waiting_senders ch.

Definition removed (ch ch' : Channel) (m : Z) : Prop :=
  chan_ok ch' /\ contents ch = m :: contents ch' /\ size ch' = size ch - 1 /\ capacity ch' = capacity ch /\
  closed ch' = closed ch /\ waiting_receivers ch' = waiting_receivers ch /\ waiting_senders ch' = waiting_senders ch.

Lemma send_loop_spec ch m : chan_ok ch ->
  (closed ch = false /\ capacity ch <= size ch /\ send_loop ch m = Ok (add_senders ch 1, SendSleeps)) \/
  (closed ch = true /\ send_loop ch m = Ok (ch, SendFalse)) \/
  (closed ch = false /\ size ch < capacity ch /\ exists ch', send_loop ch m = Ok (ch', SendTrue) /\ stored ch ch' m).
Proof.
  intros H. unfold send_loop. destruct (closed ch) eqn:Hc; cbn [negb]; [rewrite andb_false_r; auto|].
  rewrite andb_true_r. destruct (Z.leb_spec (capacity ch) (size ch)); [auto|]. right. right.
  destruct (put_message_ok ch m H) as (ch' & -> & Hs); [done|]. split_and!; [done|done|]. exists ch'.
  split; [done|]. unfold stored. tauto.
Qed.

Lemma recv_loop_spec ch : chan_ok ch ->
  (closed ch = false /\ size ch = 0 /\ recv_loop ch = Ok (add_receivers ch 1, RecvSleeps)) \/
  (closed ch = true /\ size ch = 0 /\ recv_loop ch = Ok (ch, RecvNull)) \/
  (0 < size ch /\ exists ch' m, recv_loop ch = Ok (ch', RecvGot m) /\ removed ch ch' m).
Proof.
  intros H. pose proof (ch_size _ H). pose proof (ch_cap _ H). unfold recv_loop. destruct (Z.eqb_spec (size ch) 0) as [Hz|Hz].
  - destruct (closed ch); auto.
  - right. right. split; [lia|]. cbn [andb]. rewrite !(proj2 (Z.ltb_lt _ _)) by lia. cbn [andb].
    destruct (take_message_ok ch H) as (ch' & m & -> & Hs); [lia|]. exists ch', m. split; [done|]. unfold removed. tauto.
Qed.

Lemma chan_ok_receivers ch a : chan_ok ch -> chan_ok (add_receivers ch a).
Proof. intros [? ? ? ? ?]. by constructor. Qed.

Lemma chan_ok_senders ch a : chan_ok ch -> chan_ok (add_senders ch a).
Proof. intros [? ? ? ? ?]. by constructor. Qed.

(** The sections, from a thread whose state counts as [t]: [t] is [Idle] on
    entry and a woken thread after a wait, whose counter has been decremented. *)
Lemma after_send_inv s i m t ch0 r s' : inv s -> threads s !! i = Some t ->
  (t = Idle /\ ch0 = chan s \/ exists x, t = SendWoken x /\ ch0 = add_senders (chan s) (-1)) ->
  send_loop ch0 m = Ok r -> after_send i m s r s' -> inv s'.
Proof.
  intros [Hc Hf Hr Hs Hwr Hws] Hi Ht Hloop Haf.
  assert (Hc0 : chan_ok ch0) by (destruct Ht as [[_ ->]|(x & _ & ->)]; [done|by apply chan_ok_senders]).
  assert (Heq : contents ch0 = contents (chan s) /\ size ch0 = size (chan s) /\ capacity ch0 = capacity (chan s) /\
    closed ch0 = closed (chan s) /\ waiting_receivers ch0 = waiting_receivers (chan s) /\
    waiting_senders ch0 = waiting_senders (chan s) - b2z (send_woken t) /\ recv_waits t = false /\ recv_woken t = false /\ send_waits t = false).
  { destruct Ht as [[-> ->]|(x & -> & ->)]; cbn; split_and!; done || lia. }
  destruct Heq as (E1 & E2 & E3 & E4 & E5 & E6 & T1 & T2 & T3).
  pose proof (count_nonneg recv_woken (threads s)). pose proof (count_nonneg send_woken (threads s)).
  destruct (send_loop_spec ch0 m Hc0) as [(Hcl & Hfull & Heq)|[(Hcl & Heq)|(Hcl & Hlt & ch' & Heq & Hst)]];
    rewrite Heq in Hloop; injection Hloop as <-; inversion Haf as [ch E|ch E|ch ts Hsig E]; subst; clear Haf.
  - constructor; cbn [chan threads accepted received]; rewrite ?(count_insert _ _ _ _ _ Hi), ?T1, ?T2, ?T3; cbn.
    + by apply chan_ok_senders.
    + unfold contents in *. cbn. congruence.
    + rewrite E4, E2. intros. rewrite Z.sub_0_r, Z.add_0_r in *. auto.
    + intros _. split; [done|]. rewrite E2, E3 in *. pose proof (count_nonneg send_woken (threads s)). 
      destruct (send_woken t) eqn:Et; cbn; [|lia]. pose proof (count_lookup send_woken _ _ _ Hi Et). lia.
    + lia.
    + rewrite E6. lia.
  - constructor; cbn [chan threads accepted received]; rewrite ?(count_insert _ _ _ _ _ Hi), ?T1, ?T2, ?T3; cbn;
      rewrite ?E1, ?E2, ?E3, ?E4, ?E5, ?E6; try done; try lia; intros; exfalso;
      rewrite ?Z.sub_0_r, ?Z.add_0_r in *; [destruct Hr|destruct Hs]; try lia; congruence.
  - destruct Hst as (S1 & S2 & S3 & S4 & S5 & S6 & S7). destruct (signal_recv_count _ _ Hsig) as (Hcase & W1 & W2).
    rewrite !(count_insert _ _ _ _ _ Hi), ?T1, ?T2, ?T3 in *. cbn in Hcase, W1, W2.
    constructor; cbn [chan threads accepted received]; rewrite ?S3, ?S4, ?S5, ?S6, ?S7, ?E2, ?E3, ?E4, ?E5, ?E6, ?W1, ?W2; try done.
    + rewrite S2, E1, Hf, app_assoc. done.
    + intros Hpos. destruct Hcase as [[Hz ->]|(Hp & Hw1 & Hw2)].
      * rewrite (count_insert _ _ _ _ _ Hi), T1 in Hpos. cbn in Hpos. lia.
      * rewrite Hw1, Hw2 in *. destruct Hr; [lia|]. split; [done|lia].
    + intros Hpos. destruct Hs; [lia|]. split; [done|]. destruct (send_woken t); cbn; lia.
    + destruct Hcase as [[Hz ->]|(Hp & Hw1 & Hw2)]; [|lia].
      rewrite !(count_insert _ _ _ _ _ Hi), T1, T2. cbn. lia.
    + lia.
Qed.

Lemma after_recv_inv s i t ch0 r s' : inv s -> threads s !! i = Some t ->
  (t = Idle /\ ch0 = chan s \/ t = RecvWoken /\ ch0 = add_receivers (chan s) (-1)) ->
  recv_loop ch0 = Ok r -> after_recv i s r s' -> inv s'.
Proof.
  intros [Hc Hf Hr Hs Hwr Hws] Hi Ht Hloop Haf.
  assert (Hc0 : chan_ok ch0) by (destruct Ht as [[_ ->]|[_ ->]]; [done|by apply chan_ok_receivers]).
  assert (Heq : contents ch0 = contents (chan s) /\ size ch0 = size (chan s) /\ capacity ch0 = capacity (chan s) /\
    closed ch0 = closed (chan s) /\ waiting_senders ch0 = waiting_senders (chan s) /\
    waiting_receivers ch0 = waiting_receivers (chan s) - b2z (recv_woken t) /\ recv_waits t = false /\ send_woken t = false /\ send_waits t = false).
  { destruct Ht as [[-> ->]|[-> ->]]; cbn; split_and!; done || lia. }
  destruct Heq as (E1 & E2 & E3 & E4 & E5 & E6 & T1 & T2 & T3).
  pose proof (count_nonneg recv_woken (threads s)). pose proof (count_nonneg send_woken (threads s)).
  assert (Hwt : b2z (recv_woken t) <= count recv_woken (threads s)).
  { destruct (recv_woken t) eqn:Et; cbn; [|lia]. pose proof (count_lookup recv_woken _ _ _ Hi Et). lia. }
  destruct (recv_loop_spec ch0 Hc0) as [(Hcl & Hz & Heq)|[(Hcl & Hz & Heq)|(Hlt & ch' & m & Heq & Hst)]];
    rewrite Heq in Hloop; injection Hloop as <-; inversion Haf as [ch E|ch E|ch m' ts Hsig E]; subst; clear Haf.
  - constructor; cbn [chan threads accepted received]; rewrite ?(count_insert _ _ _ _ _ Hi), ?T1, ?T2, ?T3; cbn.
    + by apply chan_ok_receivers.
    + unfold contents in *. cbn. congruence.
    + intros _. split; [done|]. lia.
    + rewrite E4, E2, E3. intros. rewrite Z.sub_0_r, Z.add_0_r in *. auto.
    + rewrite E6. lia.
    + lia.
  - constructor; cbn [chan threads accepted received]; rewrite ?(count_insert _ _ _ _ _ Hi), ?T1, ?T2, ?T3; cbn;
      rewrite ?E1, ?E2, ?E3, ?E4, ?E5, ?E6; try done; try lia; intros; exfalso;
      rewrite ?Z.sub_0_r, ?Z.add_0_r in *; [destruct Hr|destruct Hs]; try lia; congruence.
  - destruct Hst as (S1 & S2 & S3 & S4 & S5 & S6 & S7). destruct (signal_send_count _ _ Hsig) as (Hcase & W1 & W2).
    rewrite !(count_insert _ _ _ _ _ Hi), ?T1, ?T2, ?T3 in *. cbn in Hcase, W1, W2.
    constructor; cbn [chan threads accepted received]; rewrite ?S3, ?S4, ?S5, ?S6, ?S7, ?E2, ?E3, ?E4, ?E5, ?E6, ?W1, ?W2; try done.
    + rewrite Hf, <- E1, S2, <- app_assoc. done.
    + intros Hpos. destruct Hr; [lia|]. split; [done|]. destruct (recv_woken t); cbn; lia.
    + intros Hpos. destruct Hcase as [[Hz ->]|(Hp & Hw1 & Hw2)].
      * rewrite (count_insert _ _ _ _ _ Hi), T3 in Hpos. cbn in Hpos. lia.
      * rewrite Hw1, Hw2 in *. destruct Hs; [lia|]. split; [done|lia].
    + lia.
    + destruct Hcase as [[Hz ->]|(Hp & Hw1 & Hw2)]; [|lia].
      rewrite !(count_insert _ _ _ _ _ Hi), T2, T3. cbn. lia.
Qed.

(** A message stored, or removed, by a section that is not of a waiting thread. *)
Lemma try_send_inv s m ch ts : inv s -> channel_try_send (chan s) m = Ok (ch, true) -> signal_recv (threads s) ts ->
  inv (mkSys ch ts (accepted s ++ [m]) (received s)).
Proof.
  intros [Hc Hf Hr Hs Hwr Hws] Ht Hsig. pose proof (ch_cap _ Hc). unfold channel_try_send in Ht.
  rewrite (proj2 (Z.ltb_lt _ _)) in Ht by done. cbn [andb] in Ht.
  destruct (closed (chan s)) eqn:Hcl; cbn [orb] in Ht; [done|]. destruct (Z.leb_spec (capacity (chan s)) (size (chan s))); [done|].
  destruct (put_message_ok (chan s) m Hc) as (ch' & Hput & S1 & S2 & S3 & S4 & S5 & S6 & S7); [done|].
  rewrite Hput in Ht. cbn [obind] in Ht. injection Ht as ->.
  destruct (signal_recv_count _ _ Hsig) as (Hcase & W1 & W2).
  constructor; cbn [chan threads accepted received]; rewrite ?S3, ?S4, ?S5, ?S6, ?S7, ?W1, ?W2; try done.
  - rewrite S2, Hf, app_assoc. done.
  - intros Hpos. destruct Hcase as [[Hz ->]|(Hp & Hw1 & Hw2)]; [lia|]. destruct Hr; [lia|]. split; [done|lia].
  - intros Hpos. destruct Hs; [lia|]. split; [done|lia].
  - destruct Hcase as [[Hz ->]|(Hp & Hw1 & Hw2)]; lia.
Qed.

Lemma try_recv_inv s m ch ts : inv s -> channel_try_recv (chan s) = Ok (ch, Some m) -> signal_send (threads s) ts ->
  inv (mkSys ch ts (accepted s) (received s ++ [m])).
Proof.
  intros [Hc Hf Hr Hs Hwr Hws] Ht Hsig. pose proof (ch_cap _ Hc). pose proof (ch_size _ Hc). unfold channel_try_recv in Ht.
  destruct (Z.eqb_spec (size (chan s)) 0); [done|]. rewrite (proj2 (Z.ltb_lt _ _)) in Ht by done.
  destruct (take_message_ok (chan s) Hc) as (ch' & m' & Htk & S1 & S2 & S3 & S4 & S5 & S6 & S7); [lia|].
  rewrite Htk in Ht. cbn [obind fst snd] in Ht. injection Ht as -> ->.
  destruct (signal_send_count _ _ Hsig) as (Hcase & W1 & W2).
  constructor; cbn [chan threads accepted received]; rewrite ?S3, ?S4, ?S5, ?S6, ?S7, ?W1, ?W2; try done.
  - rewrite Hf, S2, <- app_assoc. done.
  - intros Hpos. destruct Hr; [lia|]. split; [done|lia].
  - intros Hpos. destruct Hcase as [[Hz ->]|(Hp & Hw1 & Hw2)]; [lia|]. destruct Hs; [lia|]. split; [done|lia].
  - destruct Hcase as [[Hz ->]|(Hp & Hw1 & Hw2)]; lia.
Qed.

Lemma chan_step_inv s s' : inv s -> step s s' -> inv s'.
Proof.
  intros H Hst. destruct Hst as [s i m r s' Hi Hse Haf|s i m r s' Hi Hse Haf|s i r s' Hi Hre Haf|s i r s' Hi Hre Haf
    |s m ch ts Ht Hsig|s m ch Ht|s m ch ts Ht Hsig|s ch Ht|s|s i t Hi].
  - unfold send_enter in Hse. destruct (closed (chan s)) eqn:Hcl.
    + injection Hse as <-. inversion Haf; subst. destruct H as [Hc Hf Hr Hs Hwr Hws].
      constructor; cbn [chan threads accepted received]; rewrite ?(count_insert _ _ _ _ _ Hi); cbn;
        rewrite ?Z.sub_0_r, ?Z.add_0_r; done.
    + apply (after_send_inv s i m Idle (chan s) r); auto.
  - apply (after_send_inv s i m (SendWoken m) (add_senders (chan s) (-1)) r); eauto.
  - apply (after_recv_inv s i Idle (chan s) r); auto.
  - apply (after_recv_inv s i RecvWoken (add_receivers (chan s) (-1)) r); auto.
  - by apply try_send_inv.
  - unfold channel_try_send in Ht. destruct (_ || _); [injection Ht as <-; by destruct s|].
    destruct (put_message (chan s) m); done.
  - by apply try_recv_inv.
  - unfold channel_try_recv in Ht. destruct (size (chan s) =? 0); [injection Ht as <-; by destruct s|].
    destruct (0 <? _); [|done]. destruct (take_message (chan s)); done.
  - destruct H as [Hc Hf Hr Hs Hwr Hws]. destruct (wake_all_counts (threads s)) as (C1 & C2 & C3 & C4).
    constructor; cbn [chan threads accepted received]; rewrite ?C1, ?C2, ?C3, ?C4; try done; try lia.
    destruct Hc. by constructor.
  - destruct H as [Hc Hf Hr Hs Hwr Hws].
    constructor; cbn [chan threads accepted received]; rewrite ?(count_insert _ _ _ _ _ Hi); try done;
      destruct t; cbn; rewrite ?Z.sub_0_r, ?Z.add_0_r; try done; try lia; intros Hpos;
      first [destruct Hr as [? ?]; [lia|]; split; [done|lia] | destruct Hs as [? ?]; [lia|]; split; [done|lia]].
Qed.

(** ** Every reachable state *)

Definition start (ch : Channel) (n : nat) : sys := mkSys ch (repeat Idle n) [] [].

Lemma count_idle p n : p Idle = false -> count p (repeat Idle n) = 0.
Proof. intros Hp. apply count_zero. intros x Hx%list_elem_of_In%repeat_spec. by subst. Qed.

Lemma chan_start_inv cap ch n : 0 < cap -> channel_create cap true true = Some ch -> inv (start ch n).
Proof.
  intros Hcap. unfold channel_create. rewrite (proj2 (Z.ltb_lt _ _)) by done. intros [= <-].
  constructor; cbn [start chan threads accepted received]; rewrite ?count_idle by done; cbn; try done.
  constructor; cbn; try lia; [rewrite repeat_length; lia|by rewrite Z.mod_0_l by lia].
Qed.

Lemma reach_inv s s' : inv s -> rtc step s s' -> inv s'.
Proof. intros H Hr. induction Hr as [|x y z Hxy _ IH]; [done|]. apply IH. by apply (chan_step_inv x). Qed.

Lemma count_pos {A} (p : A -> bool) l : 0 < count p l -> exists i x, l !! i = Some x /\ p x = true.
Proof.
  induction l as [|y l IH]; [done|]. rewrite count_cons. destruct (p y) eqn:Hp; [by exists 0%nat, y|].
  cbn. intros (i & x & Hi & Hx)%IH. by exists (S i), x.
Qed.

(** On a channel of the invariant no critical section leaves the buffer. *)
Lemma send_loop_defined ch m : chan_ok ch -> exists r, send_loop ch m = Ok r.
Proof. intros H. destruct (send_loop_spec ch m H) as [(_ & _ & E)|[(_ & E)|(_ & _ & ? & E & _)]]; eauto. Qed.

Lemma recv_loop_defined ch : chan_ok ch -> exists r, recv_loop ch = Ok r.
Proof. intros H. destruct (recv_loop_spec ch H) as [(_ & _ & E)|[(_ & _ & E)|(_ & ? & ? & E & _)]]; eauto. Qed.

Lemma try_send_exact ch m : chan_ok ch ->
  exists ch', channel_try_send ch m = Ok (ch', negb (closed ch) && (size ch <? capacity ch)).
Proof.
  intros Hc. pose proof (ch_cap _ Hc). unfold channel_try_send. rewrite (proj2 (Z.ltb_lt _ _)), Z.ltb_antisym by done.
  destruct (closed ch); [by eexists|]. destruct (Z.leb_spec (capacity ch) (size ch)); [by eexists|].
  destruct (put_message_ok ch m Hc) as (ch' & -> & _); [done|]. by eexists.
Qed.

Lemma try_recv_exact ch : chan_ok ch -> exists ch', channel_try_recv ch = Ok (ch', head (contents ch)).
Proof.
  intros Hc. pose proof (ch_cap _ Hc). pose proof (ch_size _ Hc). unfold channel_try_recv.
  destruct (Z.eqb_spec (size ch) 0) as [Hz|Hz]; [unfold contents; rewrite Hz; by eexists|].
  rewrite (proj2 (Z.ltb_lt _ _)) by done. destruct (take_message_ok ch Hc) as (ch' & m & -> & _ & -> & _); [lia|]. by eexists.
Qed.

(** C22: Whatever the interleaving of senders, receivers, closers and spurious
    wake-ups on a channel of positive capacity, the messages accepted so far
    are the messages received so far followed by the content of the buffer:
    none is lost, duplicated or overtaken; the buffer is never overfilled; no
    critical section, those of [try_send] and [try_recv] included, touches a
    slot outside it; [try_send] accepts exactly when the channel is open and
    has room, and [try_recv] answers the oldest message, or nothing when
    there is none. *)
Theorem channel_fifo cap ch n s : 0 < cap -> channel_create cap true true = Some ch -> rtc step (start ch n) s ->
  accepted s = received s ++ contents (chan s) /\ 0 <= size (chan s) <= capacity (chan s) /\
  (forall m, (exists r, send_enter (chan s) m = Ok r) /\ (exists r, send_resume (chan s) m = Ok r) /\
    (exists ch', channel_try_send (chan s) m = Ok (ch', negb (closed (chan s)) && (size (chan s) <? capacity (chan s))))) /\
  (exists r, recv_loop (chan s) = Ok r) /\ (exists r, recv_resume (chan s) = Ok r) /\
  (exists ch', channel_try_recv (chan s) = Ok (ch', head (contents (chan s)))).
Proof.
  intros Hcap Hcr Hreach. pose proof (reach_inv _ _ (chan_start_inv cap ch n Hcap Hcr) Hreach) as [Hc Hf _ _ _ _].
  split; [done|]. split; [apply (ch_size _ Hc)|]. split_and!.
  - intros m. split_and!; [|apply send_loop_defined; auto using chan_ok_senders|by apply try_send_exact].
    unfold send_enter. destruct (closed (chan s)); [by eexists|by apply send_loop_defined].
  - by apply recv_loop_defined.
  - apply recv_loop_defined. auto using chan_ok_receivers.
  - by apply try_recv_exact.
Qed.

(** C29: No wake-up is lost.  While a receiver sleeps, the channel is open, and
    if the buffer holds a message then some receiver has been woken and takes
    the oldest message when it next runs; while a sender sleeps and there is
    room, some sender has been woken and stores its message when it next
    runs.  Nobody sleeps on a closed channel. *)
Theorem channel_no_lost_wakeup cap ch n s : 0 < cap -> channel_create cap true true = Some ch -> rtc step (start ch n) s ->
  (forall i, threads s !! i = Some RecvWait ->
     closed (chan s) = false /\
     (0 < size (chan s) -> exists j ch' m, threads s !! j = Some RecvWoken /\
        recv_resume (chan s) = Ok (ch', RecvGot m) /\ contents (chan s) = m :: contents ch')) /\
  (forall i m, threads s !! i = Some (SendWait m) ->
     closed (chan s) = false /\
     (size (chan s) < capacity (chan s) -> exists j ch' m', threads s !! j = Some (SendWoken m') /\
        send_resume (chan s) m' = Ok (ch', SendTrue) /\ contents ch' = contents (chan s) ++ [m'])).
Proof.
  intros Hcap Hcr Hreach. pose proof (reach_inv _ _ (chan_start_inv cap ch n Hcap Hcr) Hreach) as [Hc _ Hr Hs _ _]. split.
  - intros i Hi. destruct Hr as [Hcl Hle]; [by apply (count_lookup _ _ i RecvWait)|]. split; [done|]. intros Hpos.
    destruct (count_pos recv_woken (threads s)) as (j & [] & Hj & Ht); [lia|try done..].
    destruct (recv_loop_spec (add_receivers (chan s) (-1))) as [(_ & Hz & _)|[(_ & Hz & _)|(_ & ch' & m & E & Hrm)]];
      [by apply chan_ok_receivers|cbn in Hz; lia|cbn in Hz; lia|].
    exists j, ch', m. destruct Hrm as (_ & Hcont & _). done.
  - intros i m Hi. destruct Hs as [Hcl Hle]; [by apply (count_lookup _ _ i (SendWait m))|]. split; [done|]. intros Hpos.
    destruct (count_pos send_woken (threads s)) as (j & [] & Hj & Ht); [lia|try done..].
    destruct (send_loop_spec (add_senders (chan s) (-1)) m0) as [(_ & Hz & _)|[(Hz & _)|(_ & _ & ch' & E & Hst)]];
      [by apply chan_ok_senders|cbn in Hz; lia|cbn in Hz; congruence|].
    exists j, ch', m0. destruct Hst as (_ & Hcont & _). done.
Qed.

(** On a channel created with capacity 0 (or less) [try_send] answers
    that it has accepted a message it stores nowhere; [send] and [recv] always
    go to sleep, so no message ever passes. *)
Theorem channel_unbuffered_loses cap ch m : cap <= 0 -> channel_create cap true true = Some ch ->
  channel_try_send ch m = Ok (ch, true) /\
  channel_try_recv ch = Ok (ch, None) /\
  send_enter ch m = Ok (add_senders ch 1, SendSleeps) /\ send_resume (add_senders ch 1) m = Ok (add_senders ch 1, SendSleeps) /\
  recv_loop ch = Ok (add_receivers ch 1, RecvSleeps) /\ recv_resume (add_receivers ch 1) = Ok (add_receivers ch 1, RecvSleeps).
Proof.
  intros Hcap. unfold channel_create. rewrite (proj2 (Z.ltb_ge _ _)) by lia. intros [= <-].
  unfold channel_try_send, put_message, channel_try_recv, send_enter, send_resume, send_loop, recv_resume, recv_loop, add_senders, add_receivers.
  cbn [closed capacity size buffer read_pos write_pos waiting_senders waiting_receivers orb].
  rewrite (proj2 (Z.ltb_ge 0 cap)), (proj2 (Z.leb_le cap 0)) by lia. done.
Qed.

(** Two receivers sleep on a channel of capacity 2, then a message arrives. *)
Definition ex_new : Channel := mkChannel 2 [0; 0] 0 0 0 false 0 0.
Definition ex_asleep : sys := mkSys (add_receivers (add_receivers ex_new 1) 1) [RecvWait; RecvWait] [] [].
Definition ex_chan : Channel := mkChannel 2 [7; 0] 1 0 1 false 0 2.
Definition ex_sent : sys := mkSys ex_chan [RecvWoken; RecvWait] [7] [].

Lemma ex_reach : rtc step (start ex_new 2) ex_sent.
Proof.
  apply rtc_l with (mkSys (add_receivers ex_new 1) [RecvWait; Idle] [] []).
  { by apply (st_recv (start ex_new 2) 0 (add_receivers ex_new 1, RecvSleeps)), ar_sleeps. }
  apply rtc_l with ex_asleep.
  { apply (st_recv _ 1 (add_receivers (add_receivers ex_new 1) 1, RecvSleeps)); [done..|].
    apply (ar_sleeps 1 (mkSys (add_receivers ex_new 1) [RecvWait; Idle] [] [])). }
  apply rtc_once, (st_try_send ex_asleep 7 ex_chan [RecvWoken; RecvWait]); [done|].
  by apply (sr_one [RecvWait; RecvWait] 0).
Qed.

Lemma channel_fifo_witness : accepted ex_sent = received ex_sent ++ contents ex_chan /\ contents ex_chan = [7].
Proof.
  split; [exact (proj1 (channel_fifo 2 ex_new 2 ex_sent eq_refl eq_refl ex_reach))|reflexivity].
Defined.

Lemma channel_no_lost_wakeup_witness : exists j ch' m, threads ex_sent !! j = Some RecvWoken /\ recv_resume ex_chan = Ok (ch', RecvGot m) /\ contents ex_chan = m :: contents ch'.
Proof.
  apply (proj2 (proj1 (channel_no_lost_wakeup 2 ex_new 2 ex_sent eq_refl eq_refl ex_reach) 1%nat eq_refl)). reflexivity.
Defined.

Lemma channel_unbuffered_loses_witness :
  channel_try_send (mkChannel 0 [] 0 0 0 false 0 0) 9 = Ok (mkChannel 0 [] 0 0 0 false 0 0, true).
Proof. apply (channel_unbuffered_loses 0 _ 9); [lia|reflexivity]. Defined.
