(* ===== verification/MirRegex.v ===== *)
(** * The regular expression compiler, up to the automaton

    [src/src/compiler/ir/mir_regex.c]: byte sets, the recursive-descent parser,
    Thompson's construction, the subset construction over a hash table of
    sorted state sets, and the reference matcher.  The emission of MIR is in
    RegexEmit.v.  Memory comes from the module's arena and never fails here;
    the pattern is a C string, a message is its constructor. *)
From Stdlib Require Import Ascii.
From S2P Require Import Prelude CString.

(** ** Byte sets: bit [b] of 256 *)

Definition ByteSet : Type := list Z.

Definition bs_clear : ByteSet := [0; 0; 0; 0].
Definition bs_fill : ByteSet := repeat (2 ^ 64 - 1) 4.
Definition bs_word (b : Z) : nat := Z.to_nat (Z.shiftr b 6).
Definition bs_add (s : ByteSet) (b : Z) : ByteSet :=
  alter (fun w => Z.lor w (Z.shiftl 1 (Z.land b 63))) (bs_word b) (s : list Z).
Definition bs_has (s : ByteSet) (b : Z) : bool :=
  match (s : list Z) !! bs_word b with Some w => negb (Z.land (Z.shiftr w (Z.land b 63)) 1 =? 0) | None => false end.
Definition bs_invert (s : ByteSet) : ByteSet := map (fun w => u64 (Z.lnot w)) s.
Definition bs_add_range (s : ByteSet) (lo hi : Z) : ByteSet :=
  let lo := if lo <? 0 then 0 else lo in
  let hi := if 255 <? hi then 255 else hi in
  fold_left bs_add (seqZ lo (hi - lo + 1)) s.

(** [for (b < 256) if (bs_has(&t, b)) bs_add(out, b);] *)
Definition bs_union (t out : ByteSet) : ByteSet :=
  fold_left (fun o b => if bs_has t b then bs_add o b else o) (seqZ 0 256) out.

(** ** Syntax *)

Inductive RegexNode :=
| R_CLASS (cls : ByteSet)
| R_CONCAT (a b : RegexNode)
| R_ALT (a b : RegexNode)
| R_STAR (a : RegexNode)
| R_PLUS (a : RegexNode)
| R_OPT (a : RegexNode)
| R_EMPTY.

Inductive RxError :=
| TrailingBackslash | UnsupportedEscape (ch : Z)
| UnterminatedClass | EscapeInRange | MalformedRange | EmptyRange (lhs rhs : Z)
| MissingParen | Anchor | BoundedQuantifier | UnexpectedParen | UnexpectedMeta (ch : Z)
| TrailingGarbage (pos : nat).

Record RxCtx := mkRx { src : cstr; pos : nat; error : option (RxError * nat) }.

Definition rx_seterr (at_ : nat) (e : RxError) (c : RxCtx) : RxCtx :=
  match error c with Some _ => c | None => mkRx (src c) (pos c) (Some (e, at_)) end.

(** A parsing function: the context it leaves and its node, or [NULL]. *)
Definition rx (A : Type) : Type := RxCtx -> outcome (RxCtx * option A).
Definition rx_ret {A} (x : A) : rx A := fun c => Ok (c, Some x).
Definition rx_bind {A B} (m : rx A) (k : A -> rx B) : rx B := fun c =>
  let! r := m c in match r with (c, None) => Ok (c, None) | (c, Some x) => k x c end.
Definition rx_fail {A} (at_ : nat) (e : RxError) : rx A := fun c => Ok (rx_seterr at_ e c, None).

Definition peek (c : RxCtx) : Z := match src c !! pos c with Some ch => byte ch | None => -1 end.
Definition advance (c : RxCtx) : RxCtx * Z :=
  match src c !! pos c with Some ch => (mkRx (src c) (S (pos c)) (error c), byte ch) | None => (c, -1) end.

Definition chr (c : ascii) : Z := byte c.

(** ** The parser *)

Definition digits : list Z := seqZ 48 10.
Definition word_bytes : list Z := digits ++ seqZ 65 26 ++ seqZ 97 26 ++ [95].
Definition space_bytes : list Z := [32; 9; 10; 13; 12; 11].

(** [bs_add] of each, directly or through the complement. *)
Definition add_all (l : list Z) (out : ByteSet) : ByteSet := fold_left bs_add l out.
Definition add_others (l : list Z) (out : ByteSet) : ByteSet := bs_union (bs_invert (add_all l bs_clear)) out.

Definition parse_escape_into (esc_pos : nat) (out : ByteSet) : rx ByteSet := fun c =>
  let '(c, ch) := advance c in
  if ch <? 0 then rx_fail esc_pos TrailingBackslash c
  else if ch =? chr "d" then rx_ret (add_all digits out) c
  else if ch =? chr "D" then rx_ret (add_others digits out) c
  else if ch =? chr "w" then rx_ret (add_all word_bytes out) c
  else if ch =? chr "W" then rx_ret (add_others word_bytes out) c
  else if ch =? chr "s" then rx_ret (add_all space_bytes out) c
  else if ch =? chr "S" then rx_ret (add_others space_bytes out) c
  else if ch =? chr "n" then rx_ret (bs_add out 10) c
  else if ch =? chr "r" then rx_ret (bs_add out 13) c
  else if ch =? chr "t" then rx_ret (bs_add out 9) c
  else if ch =? chr "f" then rx_ret (bs_add out 12) c
  else if ch =? chr "v" then rx_ret (bs_add out 11) c
  else if ch =? chr "0" then rx_ret (bs_add out 0) c
  else if ((32 <=? ch) && (ch <? 127)) || (ch =? 9) then rx_ret (bs_add out ch) c
  else rx_fail esc_pos (UnsupportedEscape ch) c.

(** The smallest member, -1 if there is none. *)
Definition first_member (s : ByteSet) : Z := match find (bs_has s) (seqZ 0 256) with Some b => b | None => -1 end.

(** The part of the loop of [parse_class] behind the test for a range. *)
Definition parse_range (here : nat) (elem : ByteSet) : rx ByteSet := fun c =>
  let '(c, _) := advance c in
  let rhs_pos := pos c in
  let '(c, rhs) := advance c in
  if rhs =? chr "\" then
    rx_bind (parse_escape_into rhs_pos bs_clear) (fun _ => rx_fail rhs_pos EscapeInRange) c
  else
    let lhs := first_member elem in
    if (lhs <? 0) || (rhs <? 0) then rx_fail here MalformedRange c
    else if rhs <? lhs then rx_fail here (EmptyRange lhs rhs) c
    else rx_ret (bs_add_range bs_clear lhs rhs) c.

Definition range_follows (c : RxCtx) : bool :=
  (peek c =? chr "-") && match src c !! S (pos c) with Some x => negb (byte x =? chr "]") | None => false end.

(** One element of a class. *)
Definition parse_elem (start : nat) : rx ByteSet := fun c =>
  let here := pos c in
  let '(c, ch) := advance c in
  if ch <? 0 then rx_fail start UnterminatedClass c else
  rx_bind (if ch =? chr "\" then parse_escape_into here bs_clear else rx_ret (bs_add bs_clear ch))
    (fun elem c => if range_follows c then parse_range here elem c else rx_ret elem c) c.

(** [while (peek(c) != ']')]; every element is at least one character. *)
Fixpoint class_loop (fuel : nat) (start : nat) (cls : ByteSet) : rx ByteSet := fun c =>
  if peek c =? chr "]" then rx_ret cls c else
  match fuel with
  | O => OutOfFuel
  | S fuel => rx_bind (parse_elem start) (fun elem => class_loop fuel start (bs_union elem cls)) c
  end.

Definition parse_class : rx RegexNode := fun c =>
  let start := (pos c - 1)%nat in
  let negate := peek c =? chr "^" in
  let c := if negate then (advance c).1 else c in
  rx_bind (class_loop (S (length (src c))) start bs_clear)
    (fun cls c => rx_ret (R_CLASS (if negate : bool then bs_invert cls else cls)) (advance c).1) c.

Section Atoms.
(** [parse_alt], for the groups. *)
Context (sub : rx RegexNode).

Definition parse_atom : rx RegexNode := fun c =>
  let here := pos c in
  let '(c, ch) := advance c in
  if ch <? 0 then Ok (c, None)
  else if ch =? chr "(" then
    rx_bind sub (fun inner c => if peek c =? chr ")" then rx_ret inner (advance c).1 else rx_fail here MissingParen c) c
  else if ch =? chr "[" then parse_class c
  else if ch =? chr "." then rx_ret (R_CLASS bs_fill) c
  else if ch =? chr "\" then rx_bind (parse_escape_into here bs_clear) (fun s => rx_ret (R_CLASS s)) c
  else if (ch =? chr "^") || (ch =? chr "$") then rx_fail here Anchor c
  else if ch =? chr "{" then rx_fail here BoundedQuantifier c
  else if ch =? chr ")" then rx_fail here UnexpectedParen c
  else if (ch =? chr "|") || (ch =? chr "*") || (ch =? chr "+") || (ch =? chr "?") then rx_fail here (UnexpectedMeta ch) c
  else rx_ret (R_CLASS (bs_add bs_clear ch)) c.

Definition parse_atom_quant : rx RegexNode := rx_bind parse_atom (fun atom c =>
  let q := peek c in
  if (q =? chr "*") || (q =? chr "+") || (q =? chr "?") then
    rx_ret ((if q =? chr "*" then R_STAR else if q =? chr "+" then R_PLUS else R_OPT) atom) (advance c).1
  else rx_ret atom c).

Definition atom_starts_here (ch : Z) : bool := negb ((ch =? -1) || (ch =? chr "|") || (ch =? chr ")")).

Fixpoint concat_loop (fuel : nat) (lhs : RegexNode) : rx RegexNode := fun c =>
  if atom_starts_here (peek c) then
    match fuel with
    | O => OutOfFuel
    | S fuel => rx_bind parse_atom_quant (fun rhs => concat_loop fuel (R_CONCAT lhs rhs)) c
    end
  else rx_ret lhs c.

Definition parse_concat (fuel : nat) : rx RegexNode := fun c =>
  if atom_starts_here (peek c) then rx_bind parse_atom_quant (concat_loop fuel) c else rx_ret R_EMPTY c.

Fixpoint alt_loop (fuel fuel' : nat) (lhs : RegexNode) : rx RegexNode := fun c =>
  if peek c =? chr "|" then
    match fuel with
    | O => OutOfFuel
    | S fuel => rx_bind (parse_concat fuel') (fun rhs => alt_loop fuel fuel' (R_ALT lhs rhs)) (advance c).1
    end
  else rx_ret lhs c.
End Atoms.

(** A group takes a character, so that the fuel bounds the nesting; it also
    bounds the iterations of the loops. *)
Fixpoint parse_alt (fuel : nat) : rx RegexNode :=
  match fuel with
  | O => fun _ => OutOfFuel
  | S fuel => rx_bind (parse_concat (parse_alt fuel) fuel) (alt_loop (parse_alt fuel) fuel fuel)
  end.

Definition parse_pattern (pattern : cstr) : rx RegexNode := fun c =>
  rx_bind (parse_alt (S (length pattern)))
    (fun tree c => if (pos c =? length (src c))%nat then rx_ret tree c else rx_fail (pos c) (TrailingGarbage (pos c)) c)
    (mkRx pattern 0 (error c)).

(** ** Thompson's construction *)

Inductive NfaKind := NFA_BYTE | NFA_SPLIT.

(** [None] is -1. *)
Record NfaState := mkNfaState { kind : NfaKind; cls : ByteSet; out1 : option nat; out2 : option nat }.
Record Frag := mkFrag { entry : nat; patches : list Z }.
Record Nfa := mkNfa { states : list NfaState; match_state : nat }.

Definition nfa_new (k : NfaKind) (n : list NfaState) : list NfaState * nat :=
  (n ++ [mkNfaState k bs_clear None None], length n).

Definition set_cls (c : ByteSet) (s : NfaState) : NfaState := mkNfaState (kind s) c (out1 s) (out2 s).
Definition set_out1 (t : nat) (s : NfaState) : NfaState := mkNfaState (kind s) (cls s) (Some t) (out2 s).
Definition set_out2 (t : nat) (s : NfaState) : NfaState := mkNfaState (kind s) (cls s) (out1 s) (Some t).

(** [(state_id << 1) | (slot & 1)] *)
Definition pack (id : nat) (slot : Z) : Z := Z.lor (Z.shiftl (Z.of_nat id) 1) (Z.land slot 1).
Definition patch_id (p : Z) : nat := Z.to_nat (Z.shiftr p 1).
Definition patch_slot (p : Z) : Z := Z.land p 1.

Definition frag_add_patch (id : nat) (slot : Z) (f : Frag) : Frag := mkFrag (entry f) (patches f ++ [pack id slot]).

Definition frag_patch_to (n : list NfaState) (f : Frag) (target : nat) : list NfaState :=
  fold_left (fun n p => alter (if patch_slot p =? 0 then set_out1 target else set_out2 target) (patch_id p) n) (patches f) n.

Definition frag_merge_patches (dst other : Frag) : Frag :=
  fold_left (fun f p => frag_add_patch (patch_id p) (patch_slot p) f) (patches other) dst.

Fixpoint build_frag (n : list NfaState) (r : RegexNode) : list NfaState * Frag :=
  match r with
  | R_EMPTY => let '(n, s) := nfa_new NFA_SPLIT n in (n, frag_add_patch s 0 (mkFrag s []))
  | R_CLASS c =>
      let '(n, s) := nfa_new NFA_BYTE n in
      (alter (set_cls c) s n, frag_add_patch s 0 (mkFrag s []))
  | R_CONCAT a b =>
      let '(n, l) := build_frag n a in
      let '(n, rr) := build_frag n b in
      (frag_patch_to n l (entry rr), mkFrag (entry l) (patches rr))
  | R_ALT a b =>
      let '(n, s) := nfa_new NFA_SPLIT n in
      let '(n, l) := build_frag n a in
      let '(n, rr) := build_frag n b in
      let n := alter (set_out2 (entry rr)) s (alter (set_out1 (entry l)) s n) in
      (n, frag_merge_patches (frag_merge_patches (mkFrag s []) l) rr)
  | R_STAR a =>
      let '(n, s) := nfa_new NFA_SPLIT n in
      let '(n, inner) := build_frag n a in
      let n := frag_patch_to (alter (set_out1 (entry inner)) s n) inner s in
      (n, frag_add_patch s 1 (mkFrag s []))
  | R_PLUS a =>
      let '(n, inner) := build_frag n a in
      let '(n, s) := nfa_new NFA_SPLIT n in
      let n := frag_patch_to (alter (set_out1 (entry inner)) s n) inner s in
      (n, frag_add_patch s 1 (mkFrag (entry inner) []))
  | R_OPT a =>
      let '(n, s) := nfa_new NFA_SPLIT n in
      let '(n, inner) := build_frag n a in
      let n := alter (set_out1 (entry inner)) s n in
      (n, frag_merge_patches (frag_add_patch s 1 (mkFrag s [])) inner)
  end.

Definition build_nfa (root : RegexNode) : Nfa :=
  let '(n, top) := build_frag [] root in
  let '(n, m) := nfa_new NFA_SPLIT n in
  mkNfa (frag_patch_to n top m) m.

(** ** Sets of states: the first [n] cells of a buffer, in ascending order *)

(** The binary search of [set_sorted_add]: the first cell not below [x]. *)
Fixpoint lower_bound (fuel : nat) (set : list nat) (x lo hi : nat) : outcome nat :=
  if (lo <? hi)%nat then
    match fuel with
    | O => OutOfFuel
    | S fuel =>
        let mid := Nat.div2 (lo + hi) in
        let! y := of_option (set !! mid) in
        if (y <? x)%nat then lower_bound fuel set x (S mid) hi else lower_bound fuel set x lo mid
    end
  else Ok lo.

(** [cap] is the number of cells of the buffer. *)
Definition set_sorted_add (cap : nat) (set : list nat) (x : nat) : outcome (list nat) :=
  let! lo := lower_bound (length set) set x 0 (length set) in
  if bool_decide (set !! lo = Some x) then Ok set
  else if (length set <? cap)%nat then Ok (take lo set ++ x :: drop lo set) else Undef.

Fixpoint contains_loop (fuel : nat) (set : list nat) (id lo hi : nat) : outcome bool :=
  if (lo <? hi)%nat then
    match fuel with
    | O => OutOfFuel
    | S fuel =>
        let mid := Nat.div2 (lo + hi) in
        let! y := of_option (set !! mid) in
        if (y <? id)%nat then contains_loop fuel set id (S mid) hi
        else if (id <? y)%nat then contains_loop fuel set id lo mid
        else Ok true
    end
  else Ok false.

Definition set_contains (set : list nat) (id : nat) : outcome bool := contains_loop (length set) set id 0 (length set).

(** An unseen target of an epsilon edge enters the set and the stack. *)
Definition eclose_edge (cap : nat) (o : option nat) (r : list nat * list nat) : outcome (list nat * list nat) :=
  match o with
  | None => Ok r
  | Some t =>
      if bool_decide (t ∈ r.2) then Ok r else
      let! set := set_sorted_add cap r.2 t in
      if (length r.1 <? cap)%nat then Ok (t :: r.1, set) else Undef
  end.

(** The loop while the stack is not empty: the stack and the set; a state is pushed once. *)
Fixpoint eclose_loop (fuel : nat) (n : list NfaState) (r : list nat * list nat) : outcome (list nat) :=
  match r with
  | ([], set) => Ok set
  | (cur :: stk, set) =>
      match fuel with
      | O => OutOfFuel
      | S fuel =>
          let! s := of_option (n !! cur) in
          match kind s with
          | NFA_SPLIT =>
              let! r := eclose_edge (length n) (out1 s) (stk, set) in
              let! r := eclose_edge (length n) (out2 s) r in
              eclose_loop fuel n r
          | NFA_BYTE => eclose_loop fuel n (stk, set)
          end
      end
  end.

Definition eclose (n : list NfaState) (set : list nat) (start_id : nat) : outcome (list nat) :=
  if bool_decide (start_id ∈ set) then Ok set else
  let! set := set_sorted_add (length n) set start_id in
  if (0 <? length n)%nat then eclose_loop (S (length n)) n ([start_id], set) else Undef.

(** ** The subset construction *)

Record DfaState := mkDfaState { accepting : bool; ntrans : Z; trans : list (option nat); nset : list nat; hash : Z }.
Record Dfa := mkDfa { dstates : list DfaState; bucket : list (option nat); bucket_mask : Z; bucket_used : Z }.

(** The four bytes of an id, the low one first. *)
Definition fnv_byte (r : Z * Z) : Z * Z :=
  let '(h, v) := r in (u64 (Z.lxor h (Z.land v 255) * 1099511628211), Z.shiftr v 8).
Definition fnv_id (h : Z) (id : nat) : Z := (Nat.iter 4 fnv_byte (h, u32 (Z.of_nat id))).1.
Definition fnv64_ids (ids : list nat) : Z := fold_left fnv_id ids 1469598103934665603.

(** [while (nb[k] != -1) k = (k + 1) & mask;] *)
Fixpoint free_bucket (fuel : nat) (nb : list (option nat)) (mask k : Z) : outcome Z :=
  let! e := of_option (nb !! Z.to_nat k) in
  match e with
  | None => Ok k
  | Some _ => match fuel with O => OutOfFuel | S fuel => free_bucket fuel nb mask (Z.land (k + 1) mask) end
  end.

Definition rehash_state (mask : Z) (i : nat) (s : DfaState) (nb : list (option nat)) : outcome (list (option nat)) :=
  let! k := free_bucket (length nb) nb mask (Z.land (hash s) mask) in Ok (<[Z.to_nat k := Some i]> nb).

Definition dfa_rehash (new_cap : Z) (d : Dfa) : outcome Dfa :=
  let mask := new_cap - 1 in
  let! nb := ofold (fun p nb => rehash_state mask p.1 p.2 nb) (imap pair (dstates d)) (repeat None (Z.to_nat new_cap)) in
  Ok (mkDfa (dstates d) nb mask (bucket_used d)).

(** The first loop of [dfa_find_or_add]: the state of this set, or a free bucket. *)
Fixpoint dfa_probe (fuel : nat) (d : Dfa) (set : list nat) (h k : Z) : outcome (nat + Z) :=
  let! e := of_option (bucket d !! Z.to_nat k) in
  match e with
  | None => Ok (inr k)
  | Some idx =>
      let! s := of_option (dstates d !! idx) in
      if (hash s =? h) && bool_decide (nset s = set) then Ok (inl idx)
      else match fuel with O => OutOfFuel | S fuel => dfa_probe fuel d set h (Z.land (k + 1) (bucket_mask d)) end
  end.

Definition dfa_find_or_add (d : Dfa) (set : list nat) (acc : bool) : outcome (Dfa * nat) :=
  let! d := if bucket_mask d + 1 <=? bucket_used d * 2 then dfa_rehash ((bucket_mask d + 1) * 2) d else Ok d in
  let h := fnv64_ids set in
  let! p := dfa_probe (length (bucket d)) d set h (Z.land h (bucket_mask d)) in
  match p with
  | inl idx => Ok (d, idx)
  | inr k =>
      let s := mkDfaState acc 0 (repeat None 256) set h in
      Ok (mkDfa (dstates d ++ [s]) (<[Z.to_nat k := Some (length (dstates d))]> (bucket d)) (bucket_mask d) (bucket_used d + 1),
          length (dstates d))
  end.

(** The closure of the states that a byte leads to. *)
Definition move_from (n : list NfaState) (b : Z) (id : nat) (nxt : list nat) : outcome (list nat) :=
  let! s := of_option (n !! id) in
  match kind s, out1 s with
  | NFA_BYTE, Some t => if bs_has (cls s) b then eclose n nxt t else Ok nxt
  | _, _ => Ok nxt
  end.

Definition add_trans (b : Z) (t : nat) (s : DfaState) : DfaState :=
  mkDfaState (accepting s) (ntrans s + 1) (<[Z.to_nat b := Some t]> (trans s)) (nset s) (hash s).

(** The transition of the state [cur] on a byte. *)
Definition dfa_byte (nfa : Nfa) (cur : nat) (cur_set : list nat) (b : Z) (d : Dfa) : outcome Dfa :=
  let! nxt := ofold (move_from (states nfa) b) cur_set [] in
  match nxt with
  | [] => Ok d
  | _ =>
      let! acc := set_contains nxt (match_state nfa) in
      let! r := dfa_find_or_add d nxt acc in
      Ok (mkDfa (alter (add_trans b r.2) cur (dstates r.1)) (bucket r.1) (bucket_mask r.1) (bucket_used r.1))
  end.

(** [while (processed < dfa->n)] *)
Fixpoint dfa_loop (fuel : nat) (nfa : Nfa) (processed : nat) (d : Dfa) : outcome Dfa :=
  match dstates d !! processed with
  | None => Ok d
  | Some s =>
      match fuel with
      | O => OutOfFuel
      | S fuel =>
          let! d := ofold (dfa_byte nfa processed (nset s)) (seqZ 0 256) d in
          dfa_loop fuel nfa (S processed) d
      end
  end.

Definition nfa_to_dfa (fuel : nat) (nfa : Nfa) : outcome Dfa :=
  let! d := dfa_rehash 32 (mkDfa [] [] 0 0) in
  let! set := eclose (states nfa) [] 0 in
  let! acc := set_contains set (match_state nfa) in
  let! r := dfa_find_or_add d set acc in
  dfa_loop fuel nfa 0 r.1.

(** ** The reference matcher *)

(** The run over the input; [None] when it leaves the automaton. *)
Fixpoint dfa_run (d : Dfa) (state : nat) (input : list Z) : outcome (option nat) :=
  match input with
  | [] => Ok (Some state)
  | b :: input =>
      let! s := of_option (dstates d !! state) in
      let! t := of_option (trans s !! Z.to_nat b) in
      match t with None => Ok None | Some t => dfa_run d t input end
  end.

Definition no_error : RxCtx := mkRx [] 0 None.

(** The answer and the error. *)
Definition mir_regex_match_reference (fuel : nat) (pattern : cstr) (input : list Z) : outcome (bool * option RxError) :=
  let! r := parse_pattern pattern no_error in
  match r.2 with
  | None => Ok (false, fst <$> error r.1)
  | Some tree =>
      let! dfa := nfa_to_dfa fuel (build_nfa tree) in
      let! e := dfa_run dfa 0 input in
      match e with
      | None => Ok (false, None)
      | Some state => let! s := of_option (dstates dfa !! state) in Ok (accepting s, None)
      end
  end.

Example regex_ab : mir_regex_match_reference 64 (lit "a(b|c)*d") (map byte (lit "abcbd")) = Ok (true, None).
Proof. vm_compute. reflexivity. Qed.

Example regex_class : mir_regex_match_reference 64 (lit "[^a-c\d]+x?") (map byte (lit "zzx")) = Ok (true, None).
Proof. vm_compute. reflexivity. Qed.
