(* ===== verification/RegexNfa.v ===== *)
(** * Thompson's construction accepts the language of the expression *)
From S2P Require Import Prelude MirRegex.

(** ** The language of an expression, the paths of an automaton *)

Inductive lang : RegexNode -> list Z -> Prop :=
| l_class s b : bs_has s b = true -> lang (R_CLASS s) [b]
| l_empty : lang R_EMPTY []
| l_concat a b v w : lang a v -> lang b w -> lang (R_CONCAT a b) (v ++ w)
| l_alt_l a b w : lang a w -> lang (R_ALT a b) w
| l_alt_r a b w : lang b w -> lang (R_ALT a b) w
| l_star_nil a : lang (R_STAR a) []
| l_star_cons a v w : lang a v -> lang (R_STAR a) w -> lang (R_STAR a) (v ++ w)
| l_plus a v w : lang a v -> lang (R_STAR a) w -> lang (R_PLUS a) (v ++ w)
| l_opt_nil a : lang (R_OPT a) []
| l_opt_some a w : lang a w -> lang (R_OPT a) w.

(** [path st n p w q]: [n] edges from [p] to [q], the bytes [w] consumed. *)
Inductive path (st : list NfaState) : nat -> nat -> list Z -> nat -> Prop :=
| p_nil p : path st 0 p [] p
| p_eps1 n p s t w q : st !! p = Some s -> kind s = NFA_SPLIT -> out1 s = Some t -> path st n t w q -> path st (S n) p w q
| p_eps2 n p s t w q : st !! p = Some s -> kind s = NFA_SPLIT -> out2 s = Some t -> path st n t w q -> path st (S n) p w q
| p_byte n p s t b w q : st !! p = Some s -> kind s = NFA_BYTE -> bs_has (cls s) b = true -> out1 s = Some t ->
    path st n t w q -> path st (S n) p (b :: w) q.

Lemma path_app st n m p q r v w : path st n p v q -> path st m q w r -> path st (n + m) p (v ++ w) r.
Proof. induction 1; intros Hr; cbn; eauto using path. Qed.

(** ** The shape of a fragment: the states from [lo] up to [hi], entered at
    [lo] and left to [q] *)

Definition split_at (st : list NfaState) (p : nat) (o1 o2 : option nat) : Prop :=
  exists s, st !! p = Some s /\ kind s = NFA_SPLIT /\ out1 s = o1 /\ out2 s = o2.

Inductive thompson (st : list NfaState) : RegexNode -> nat -> nat -> nat -> Prop :=
| th_empty lo q : split_at st lo (Some q) None -> thompson st R_EMPTY lo (S lo) q
| th_class s c lo q : st !! lo = Some s -> kind s = NFA_BYTE -> cls s = c -> out1 s = Some q -> thompson st (R_CLASS c) lo (S lo) q
| th_concat a b lo mid hi q : thompson st a lo mid mid -> thompson st b mid hi q -> thompson st (R_CONCAT a b) lo hi q
| th_alt a b lo mid hi q : split_at st lo (Some (S lo)) (Some mid) -> thompson st a (S lo) mid q -> thompson st b mid hi q ->
    thompson st (R_ALT a b) lo hi q
| th_star a lo hi q : split_at st lo (Some (S lo)) (Some q) -> thompson st a (S lo) hi lo -> thompson st (R_STAR a) lo hi q
| th_plus a lo mid q : split_at st mid (Some lo) (Some q) -> thompson st a lo mid mid -> thompson st (R_PLUS a) lo (S mid) q
| th_opt a lo hi q : split_at st lo (Some (S lo)) (Some q) -> thompson st a (S lo) hi q -> thompson st (R_OPT a) lo hi q.

Lemma thompson_lt st r lo hi q : thompson st r lo hi q -> (lo < hi)%nat.
Proof. induction 1; lia. Qed.

Lemma split_eps1 st p t o2 n w q : split_at st p (Some t) o2 -> path st n t w q -> path st (S n) p w q.
Proof. intros (s & H1 & H2 & H3 & H4) Hp. eauto using path. Qed.

Lemma split_eps2 st p o1 t n w q : split_at st p o1 (Some t) -> path st n t w q -> path st (S n) p w q.
Proof. intros (s & H1 & H2 & H3 & H4) Hp. eauto using path. Qed.

(** Every word of the language has a path through the fragment. *)
Lemma lang_path st r lo hi q w : thompson st r lo hi q -> lang r w -> exists n, path st n lo w q.
Proof.
  intros Hth. revert w. induction Hth as [lo q Hs|s c lo q H1 H2 H3 H4|a b lo mid hi q _ IHa _ IHb|a b lo mid hi q Hs _ IHa _ IHb
    |a lo hi q Hs _ IHa|a lo mid q Hs _ IHa|a lo hi q Hs _ IHa]; intros w Hw.
  - inversion Hw; subst. exists 1%nat. eapply split_eps1; [done|constructor].
  - inversion Hw; subst. exists 1%nat. eauto using path.
  - inversion Hw; subst. destruct (IHa v) as [n Hn]; [done|]. destruct (IHb w0) as [m Hm]; [done|]. eauto using path_app.
  - inversion Hw; subst; [destruct (IHa w) as [n Hn]|destruct (IHb w) as [n Hn]]; try done;
      exists (S n); [eapply split_eps1|eapply split_eps2]; done.
  - remember (R_STAR a) as r eqn:Hr. revert Hr. induction Hw as [| | | | |b|b v w Hv _ Hw' IH| | |]; intros [= ->].
    + exists 1%nat. eapply split_eps2; [done|constructor].
    + destruct (IHa v Hv) as [n Hn]. destruct (IH eq_refl) as [m Hm]. exists (S (n + m)).
      eapply split_eps1; [done|]. eauto using path_app.
  - inversion Hw as [| | | | | | |b v w' Hv Hst| |]; subst.
    assert (Hloop : exists m, path st m mid w' q).
    { remember (R_STAR a) as r eqn:Hr. clear Hw Hv. revert Hr. induction Hst as [| | | | |b|b v1 w1 Hv1 _ Hw1 IH| | |]; intros [= ->].
      - exists 1%nat. eapply split_eps2; [done|constructor].
      - destruct (IHa v1 Hv1) as [n Hn]. destruct (IH eq_refl) as [m Hm]. exists (S (n + m)).
        eapply split_eps1; [done|]. eauto using path_app. }
    destruct (IHa v Hv) as [n Hn]. destruct Hloop as [m Hm]. eauto using path_app.
  - inversion Hw; subst.
    + exists 1%nat. eapply split_eps2; [done|constructor].
    + destruct (IHa w) as [n Hn]; [done|]. exists (S n). by eapply split_eps1.
Qed.

Lemma path_from_split st p o1 o2 n w z : split_at st p o1 o2 -> path st n p w z ->
  (n = 0%nat /\ z = p /\ w = []) \/
  exists t m, (o1 = Some t \/ o2 = Some t) /\ n = S m /\ path st m t w z.
Proof.
  intros (s & H1 & H2 & <- & <-) Hp. inversion Hp; simplify_eq; [by left|right; eauto 10|right; eauto 10|congruence].
Qed.

(** A path that leaves the fragment spells a word of the language, then goes on
    from the exit. *)
Lemma path_lang st r lo hi q : thompson st r lo hi q -> forall n w z, path st n lo w z -> (z < lo \/ hi <= z)%nat ->
  exists v w' m, w = v ++ w' /\ lang r v /\ path st m q w' z /\ (m < n)%nat.
Proof.
  induction 1 as [lo q Hs|s c lo q H1 H2 H3 H4|a b lo mid hi q Ta IHa Tb IHb|a b lo mid hi q Hs Ta IHa Tb IHb
    |a lo hi q Hs Ta IHa|a lo mid q Hs Ta IHa|a lo hi q Hs Ta IHa]; intros n w z Hp Hz.
  - destruct (path_from_split _ _ _ _ _ _ _ Hs Hp) as [(-> & -> & ->)|(t & m & [[= <-]|[=]] & -> & Hm)]; [lia|].
    exists [], w, m. eauto using lang.
  - inversion Hp; simplify_eq; [lia|congruence|congruence|]. eexists [b], w0, _. split; [done|]. split; [by constructor|]. split; [done|lia].
  - pose proof (thompson_lt _ _ _ _ _ Ta). pose proof (thompson_lt _ _ _ _ _ Tb).
    destruct (IHa n w z Hp) as (v1 & w1 & m1 & -> & L1 & P1 & M1); [lia|].
    destruct (IHb m1 w1 z P1) as (v2 & w2 & m2 & -> & L2 & P2 & M2); [lia|].
    exists (v1 ++ v2), w2, m2. rewrite app_assoc. split; [done|]. split; [by constructor|]. split; [done|lia].
  - pose proof (thompson_lt _ _ _ _ _ Ta). pose proof (thompson_lt _ _ _ _ _ Tb).
    destruct (path_from_split _ _ _ _ _ _ _ Hs Hp) as [(-> & -> & ->)|(t & m & [[= <-]|[= <-]] & -> & Hm)]; [lia| |].
    + destruct (IHa m w z Hm) as (v & w' & k & -> & L & P & M); [lia|]. exists v, w', k. eauto using lang with lia.
    + destruct (IHb m w z Hm) as (v & w' & k & -> & L & P & M); [lia|]. exists v, w', k. eauto using lang with lia.
  - pose proof (thompson_lt _ _ _ _ _ Ta). revert w Hp. induction (lt_wf n) as [n _ IHn]; intros w Hp.
    destruct (path_from_split _ _ _ _ _ _ _ Hs Hp) as [(-> & -> & ->)|(t & m & [[= <-]|[= <-]] & -> & Hm)]; [lia| |].
    + destruct (IHa m w z Hm) as (v & w' & k & -> & L & P & M); [lia|].
      destruct (IHn k ltac:(lia) w' P) as (v' & w2 & k' & -> & L' & P' & M'). exists (v ++ v'), w2, k'.
      rewrite app_assoc. eauto using lang with lia.
    + exists [], w, m. eauto using lang.
  - pose proof (thompson_lt _ _ _ _ _ Ta).
    assert (Hloop : forall n w, path st n mid w z -> exists v w' m, w = v ++ w' /\ lang (R_STAR a) v /\ path st m q w' z /\ (m < n)%nat).
    { clear n w Hp. intros n. induction (lt_wf n) as [n _ IHn]; intros w Hp.
      destruct (path_from_split _ _ _ _ _ _ _ Hs Hp) as [(-> & -> & ->)|(t & m & [[= <-]|[= <-]] & -> & Hm)]; [lia| |].
      - destruct (IHa m w z Hm) as (v & w' & k & -> & L & P & M); [lia|].
        destruct (IHn k ltac:(lia) w' P) as (v' & w2 & k' & -> & L' & P' & M'). exists (v ++ v'), w2, k'.
        rewrite app_assoc. eauto using lang with lia.
      - exists [], w, m. eauto using lang. }
    destruct (IHa n w z Hp) as (v & w' & k & -> & L & P & M); [lia|].
    destruct (Hloop k w' P) as (v' & w2 & k' & -> & L' & P' & M'). exists (v ++ v'), w2, k'.
    rewrite app_assoc. eauto using lang with lia.
  - pose proof (thompson_lt _ _ _ _ _ Ta).
    destruct (path_from_split _ _ _ _ _ _ _ Hs Hp) as [(-> & -> & ->)|(t & m & [[= <-]|[= <-]] & -> & Hm)]; [lia| |].
    + destruct (IHa m w z Hm) as (v & w' & k & -> & L & P & M); [lia|]. exists v, w', k. eauto using lang with lia.
    + exists [], w, m. eauto using lang with lia.
Qed.

(** ** Patching *)

Definition agree (st st' : list NfaState) (lo hi : nat) : Prop := forall i, (lo <= i < hi)%nat -> st !! i = st' !! i.

Lemma thompson_agree st st' r lo hi q : thompson st r lo hi q -> agree st st' lo hi -> thompson st' r lo hi q.
Proof.
  assert (Hsplit : forall lo hi p o1 o2, agree st st' lo hi -> (lo <= p < hi)%nat -> split_at st p o1 o2 -> split_at st' p o1 o2).
  { intros l h p o1 o2 Ha Hp (s & H & H'). exists s. by rewrite <- Ha. }
  assert (Hsub : forall lo hi lo' hi', agree st st' lo hi -> (lo <= lo')%nat -> (hi' <= hi)%nat -> agree st st' lo' hi').
  { intros l h l' h' Ha H1 H2 i Hi. apply Ha. lia. }
  induction 1 as [lo q Hs|s c lo q H1 H2 H3 H4|a b lo mid hi q Ta IHa Tb IHb|a b lo mid hi q Hs Ta IHa Tb IHb
    |a lo hi q Hs Ta IHa|a lo mid q Hs Ta IHa|a lo hi q Hs Ta IHa]; intros Ha;
    repeat match goal with H : thompson _ _ _ _ _ |- _ => apply thompson_lt in H end.
  - constructor. apply (Hsplit lo (S lo)); [done|lia|done].
  - apply (th_class _ s); try done. by rewrite <- Ha by lia.
  - apply th_concat with mid; [apply IHa|apply IHb]; apply (Hsub lo hi); done || lia.
  - apply th_alt with mid; [apply (Hsplit lo hi); done || lia|apply IHa|apply IHb]; apply (Hsub lo hi); done || lia.
  - apply th_star; [apply (Hsplit lo hi); done || lia|apply IHa]; apply (Hsub lo hi); done || lia.
  - apply th_plus; [apply (Hsplit lo (S mid)); done || lia|apply IHa]; apply (Hsub lo (S mid)); done || lia.
  - apply th_opt; [apply (Hsplit lo hi); done || lia|apply IHa]; apply (Hsub lo hi); done || lia.
Qed.

Lemma lor_odd x : Z.lor (2 * x) 1 = 2 * x + 1.
Proof.
  apply Z.bits_inj'. intros n Hn. rewrite Z.lor_spec. destruct (Z.eq_dec n 0) as [->|Hne].
  - by rewrite Z.testbit_even_0, Z.testbit_odd_0.
  - assert (exists m, n = Z.succ m /\ 0 <= m) as (m & -> & Hm) by (exists (n - 1); lia).
    assert (Z.testbit 1 (Z.succ m) = false) as Hone by (rewrite (Z.testbit_odd_succ 0) by done; apply Z.testbit_0_l).
    by rewrite Hone, Z.testbit_even_succ, Z.testbit_odd_succ, orb_false_r.
Qed.

Lemma patch_id_div p : patch_id p = Z.to_nat (p / 2).
Proof. unfold patch_id. by rewrite Z.shiftr_div_pow2 by lia. Qed.

Lemma patch_slot_mod p : patch_slot p = p mod 2.
Proof. unfold patch_slot. change 1 with (Z.ones 1). by rewrite Z.land_ones by lia. Qed.

Lemma pack_spec id slot : slot = 0 \/ slot = 1 -> 0 <= pack id slot /\ patch_id (pack id slot) = id /\ patch_slot (pack id slot) = slot.
Proof.
  intros Hs. assert (pack id slot = 2 * Z.of_nat id + slot) as ->.
  { unfold pack. rewrite Z.shiftl_mul_pow2, (Z.mul_comm _ (2 ^ 1)) by lia. change (2 ^ 1) with 2.
    destruct Hs as [-> | ->]; [by rewrite Z.lor_0_r, Z.add_0_r|]. apply lor_odd. }
  rewrite patch_id_div, patch_slot_mod. pose proof (Z.div_mod (2 * Z.of_nat id + slot) 2). pose proof (Z.mod_pos_bound (2 * Z.of_nat id + slot) 2).
  destruct Hs as [-> | ->]; lia.
Qed.

Lemma patch_pack p : 0 <= p -> pack (patch_id p) (patch_slot p) = p.
Proof.
  intros Hp. pose proof (Z.div_mod p 2). pose proof (Z.mod_pos_bound p 2).
  destruct (pack_spec (patch_id p) (patch_slot p)) as (H1 & H2 & H3); [rewrite patch_slot_mod; lia|].
  revert H1 H2 H3. generalize (pack (patch_id p) (patch_slot p)). intros x. rewrite !patch_id_div, !patch_slot_mod.
  intros H1 H2 H3. pose proof (Z.div_mod x 2). pose proof (Z.div_pos x 2). pose proof (Z.div_pos p 2). lia.
Qed.

(** What the patches of a list do to the state [i]. *)
Definition patched (q i : nat) (ps : list Z) (s : NfaState) : NfaState :=
  fold_left (fun s p => if decide (patch_id p = i) then (if patch_slot p =? 0 then set_out1 q s else set_out2 q s) else s) ps s.

Lemma patch_lookup st f q i : frag_patch_to st f q !! i = patched q i (patches f) <$> st !! i.
Proof.
  unfold frag_patch_to, patched. generalize (patches f). intros ps. revert st.
  induction ps as [|p ps IH]; intros st; cbn [fold_left]; [by destruct (st !! i)|]. rewrite IH. destruct (decide (patch_id p = i)) as [->|Hne].
  - rewrite list_lookup_alter_eq. destruct (st !! i); [|done]. by destruct (patch_slot p =? 0).
  - rewrite list_lookup_alter_ne by done. done.
Qed.

Lemma patch_length st f q : length (frag_patch_to st f q) = length st.
Proof.
  unfold frag_patch_to. generalize (patches f). intros ps. revert st.
  induction ps as [|p ps IH]; intros st; cbn [fold_left]; [done|]. rewrite IH. by rewrite length_alter.
Qed.

Lemma patched_app q i ps ps' s : patched q i (ps ++ ps') s = patched q i ps' (patched q i ps s).
Proof. apply fold_left_app. Qed.

Definition patches_in (ps : list Z) (lo hi : nat) : Prop := Forall (fun p => 0 <= p /\ (lo <= patch_id p < hi)%nat) ps.

Lemma patched_out q i ps lo hi s : patches_in ps lo hi -> (i < lo \/ hi <= i)%nat -> patched q i ps s = s.
Proof.
  intros Hps Hi. revert s. induction Hps as [|p ps [_ Hp] _ IH]; intros s; cbn; [done|].
  rewrite decide_False by lia. apply IH.
Qed.

Lemma patch_other st f q i lo hi : patches_in (patches f) lo hi -> (i < lo \/ hi <= i)%nat -> frag_patch_to st f q !! i = st !! i.
Proof. intros Hps Hi. rewrite patch_lookup. destruct (st !! i) as [s|]; [|done]. cbn. f_equal. by apply (patched_out q i _ lo hi). Qed.

Lemma patches_in_weaken ps lo hi lo' hi' : patches_in ps lo hi -> (lo' <= lo)%nat -> (hi <= hi')%nat -> patches_in ps lo' hi'.
Proof. intros H H1 H2. eapply list.Forall_impl; [exact H|]. cbn. intros p Hp. lia. Qed.

Lemma patches_one id slot lo hi : slot = 0 \/ slot = 1 -> (lo <= id < hi)%nat -> patches_in [pack id slot] lo hi.
Proof. intros Hs Hi. destruct (pack_spec id slot Hs) as (H1 & H2 & _). constructor; [split; [done|lia]|constructor]. Qed.

Lemma patched_one q id slot s : slot = 0 \/ slot = 1 -> patched q id [pack id slot] s = if slot =? 0 then set_out1 q s else set_out2 q s.
Proof. intros Hs. destruct (pack_spec id slot Hs) as (_ & H2 & H3). cbn. by rewrite H2, H3, decide_True. Qed.

Lemma merge_patches dst other lo hi : patches_in (patches other) lo hi ->
  frag_merge_patches dst other = mkFrag (entry dst) (patches dst ++ patches other).
Proof.
  unfold frag_merge_patches. generalize (patches other). intros ps Hps. revert dst.
  induction Hps as [|p ps [Hp _] _ IH]; intros dst; cbn [fold_left]; [by rewrite app_nil_r; destruct dst|].
  rewrite IH. cbn [frag_add_patch entry patches]. by rewrite patch_pack, <- app_assoc.
Qed.

(** ** The construction *)

Definition built (st : list NfaState) (r : RegexNode) (st' : list NfaState) (f : Frag) : Prop :=
  entry f = length st /\ (length st < length st')%nat /\ agree st st' 0 (length st) /\
  patches_in (patches f) (length st) (length st') /\
  forall q, thompson (frag_patch_to st' f q) r (length st) (length st') q.

Lemma agree_app st l : agree st (st ++ l) 0 (length st).
Proof. intros i Hi. by rewrite lookup_app_l by lia. Qed.

Lemma lookup_new {A} (st : list A) x : (st ++ [x]) !! length st = Some x.
Proof. by rewrite lookup_app_r, Nat.sub_diag by lia. Qed.

(** The patches of a fragment on a list that agrees with its own. *)
Lemma thompson_patched st1 st2 r f q lo hi : thompson (frag_patch_to st1 f q) r lo hi q ->
  (forall i, (lo <= i < hi)%nat -> st2 !! i = patched q i (patches f) <$> st1 !! i) -> thompson st2 r lo hi q.
Proof. intros Ht Ha. apply (thompson_agree _ _ _ _ _ _ Ht). intros i Hi. by rewrite Ha, patch_lookup. Qed.

(** A new split state with its edges and the patches of what surrounds it. *)
Lemma split_new (st : list NfaState) lo s o1 o2 : st !! lo = Some s -> kind s = NFA_SPLIT -> out1 s = o1 -> out2 s = o2 -> split_at st lo o1 o2.
Proof. intros. by exists s. Qed.

Lemma built_leaf st k c o r : (forall st2 q, st2 !! length st = Some (mkNfaState k c (Some q) None) -> thompson st2 r (length st) (S (length st)) q) ->
  o = frag_add_patch (length st) 0 (mkFrag (length st) []) -> built st r (st ++ [mkNfaState k c None None]) o.
Proof.
  intros Ht ->. unfold built. rewrite length_app, Nat.add_1_r. cbn [frag_add_patch entry patches app].
  split; [done|]. split; [lia|]. split; [apply agree_app|]. split; [apply patches_one; [by left|lia]|].
  intros q. apply Ht. rewrite patch_lookup, lookup_new. cbn [fmap option_fmap option_map frag_add_patch patches app].
  by rewrite patched_one by (by left).
Qed.

Lemma built_concat st a b st1 l st2 rr : built st a st1 l -> built st1 b st2 rr ->
  built st (R_CONCAT a b) (frag_patch_to st2 l (entry rr)) (mkFrag (entry l) (patches rr)).
Proof.
  intros (A1 & A2 & A3 & A4 & A5) (B1 & B2 & B3 & B4 & B5).
  unfold built. rewrite patch_length. cbn [entry patches]. split; [done|]. split; [lia|].
  assert (Hlow : forall i, (i < length st1)%nat -> frag_patch_to st2 l (entry rr) !! i = patched (entry rr) i (patches l) <$> st1 !! i).
  { intros i Hi. by rewrite patch_lookup, B3 by lia. }
  split_and!.
  - intros i Hi. rewrite Hlow, <- A3 by lia. destruct (st !! i) as [s|]; [|done]. cbn. f_equal. symmetry.
    apply (patched_out _ _ _ (length st) (length st1)); [done|lia].
  - apply (patches_in_weaken _ (length st1) (length st2)); done || lia.
  - intros q. apply th_concat with (length st1).
    + apply (thompson_patched _ _ _ _ _ _ _ (A5 (length st1))). intros i Hi.
      rewrite (patch_other _ (mkFrag (entry l) (patches rr)) q i (length st1) (length st2)) by (done || lia). rewrite Hlow by lia. by rewrite B1.
    + apply (thompson_patched _ _ _ _ _ _ _ (B5 q)). intros i Hi. rewrite patch_lookup. f_equal.
      apply (patch_other _ _ _ _ (length st) (length st1)); [done|lia].
Qed.

Definition split_state : NfaState := mkNfaState NFA_SPLIT bs_clear None None.

Lemma built_alt st a b st1 l st2 rr : built (st ++ [split_state]) a st1 l -> built st1 b st2 rr ->
  built st (R_ALT a b) (alter (set_out2 (entry rr)) (length st) (alter (set_out1 (entry l)) (length st) st2))
    (frag_merge_patches (frag_merge_patches (mkFrag (length st) []) l) rr).
Proof.
  intros (A1 & A2 & A3 & A4 & A5) (B1 & B2 & B3 & B4 & B5).
  rewrite length_app, Nat.add_1_r in *. rewrite (merge_patches _ l _ _ A4), (merge_patches _ rr _ _ B4). cbn [entry patches app].
  unfold built. rewrite !length_alter. cbn [entry patches]. split; [done|]. split; [lia|].
  set (st3 := alter (set_out2 (entry rr)) (length st) (alter (set_out1 (entry l)) (length st) st2)).
  assert (H3 : forall i, i <> length st -> st3 !! i = st2 !! i) by (intros; unfold st3; by rewrite !list_lookup_alter_ne).
  assert (Hs0 : st2 !! length st = Some split_state) by (rewrite <- B3, <- A3 by lia; apply lookup_new).
  split_and!.
  - intros i Hi. rewrite H3, <- B3, <- A3 by lia. by rewrite lookup_app_l by lia.
  - apply list.Forall_app. split; [apply (patches_in_weaken _ (S (length st)) (length st1))|apply (patches_in_weaken _ (length st1) (length st2))]; done || lia.
  - intros q. apply th_alt with (length st1).
    + eapply split_new; [rewrite patch_lookup; cbn [patches]; unfold st3; rewrite !list_lookup_alter_eq, Hs0; cbn [fmap option_fmap option_map]; done|..];
        rewrite patched_app, (patched_out _ _ (patches l) (S (length st)) (length st1)), (patched_out _ _ (patches rr) (length st1) (length st2)) by (done || lia);
        cbn; congruence.
    + apply (thompson_patched _ _ _ _ _ _ _ (A5 q)). intros i Hi. rewrite patch_lookup, H3, <- B3 by lia. cbn [patches].
      destruct (st1 !! i); [|done]. cbn. f_equal. rewrite patched_app. apply (patched_out _ _ _ (length st1) (length st2)); [done|lia].
    + apply (thompson_patched _ _ _ _ _ _ _ (B5 q)). intros i Hi. rewrite patch_lookup, H3 by lia. cbn [patches].
      destruct (st2 !! i); [|done]. cbn. f_equal. rewrite patched_app. f_equal. apply (patched_out _ _ _ (S (length st)) (length st1)); [done|lia].
Qed.

Lemma built_star st a st1 inner : built (st ++ [split_state]) a st1 inner ->
  built st (R_STAR a) (frag_patch_to (alter (set_out1 (entry inner)) (length st) st1) inner (length st))
    (frag_add_patch (length st) 1 (mkFrag (length st) [])).
Proof.
  intros (A1 & A2 & A3 & A4 & A5). rewrite length_app, Nat.add_1_r in *.
  unfold built. rewrite patch_length, length_alter. cbn [entry patches frag_add_patch app]. split; [done|]. split; [lia|].
  assert (Hs0 : st1 !! length st = Some split_state) by (rewrite <- A3 by lia; apply lookup_new).
  assert (Hlow : forall i, (i <= length st)%nat -> frag_patch_to (alter (set_out1 (entry inner)) (length st) st1) inner (length st) !! i =
    alter (set_out1 (entry inner)) (length st) st1 !! i) by (intros; apply (patch_other _ _ _ _ (S (length st)) (length st1)); [done|lia]).
  split_and!.
  - intros i Hi. rewrite Hlow, list_lookup_alter_ne, <- A3 by lia. by rewrite lookup_app_l by lia.
  - apply patches_one; [by right|lia].
  - intros q. apply th_star.
    + eapply split_new; [rewrite patch_lookup, Hlow, list_lookup_alter_eq, Hs0 by lia; cbn [fmap option_fmap option_map patches app]; done|..];
        cbn [patches frag_add_patch app]; rewrite patched_one by (by right); cbn; congruence.
    + apply (thompson_patched _ _ _ _ _ _ _ (A5 (length st))). intros i Hi.
      rewrite (patch_other _ _ _ _ (length st) (S (length st))) by (lia || (apply patches_one; [by right|lia])).
      rewrite patch_lookup. by rewrite list_lookup_alter_ne by lia.
Qed.

Lemma built_plus st a st1 inner : built st a st1 inner ->
  built st (R_PLUS a) (frag_patch_to (alter (set_out1 (entry inner)) (length st1) (st1 ++ [split_state])) inner (length st1))
    (frag_add_patch (length st1) 1 (mkFrag (entry inner) [])).
Proof.
  intros (A1 & A2 & A3 & A4 & A5).
  unfold built. rewrite patch_length, length_alter, length_app, Nat.add_1_r. cbn [entry patches frag_add_patch app]. split; [done|]. split; [lia|].
  assert (Hlow : forall i, (i < length st1)%nat -> alter (set_out1 (entry inner)) (length st1) (st1 ++ [split_state]) !! i = st1 !! i)
    by (intros; rewrite list_lookup_alter_ne, lookup_app_l by lia; done).
  split_and!.
  - intros i Hi. rewrite patch_lookup, Hlow, <- A3 by lia. destruct (st !! i) as [s|]; [|done]. cbn. f_equal. symmetry.
    apply (patched_out _ _ _ (length st) (length st1)); [done|lia].
  - apply patches_one; [by right|lia].
  - intros q. apply th_plus.
    + eapply split_new; [rewrite patch_lookup, (patch_other _ inner _ _ (length st) (length st1)), list_lookup_alter_eq, lookup_new by (done || lia);
        cbn [fmap option_fmap option_map]; done|..];
        cbn [patches frag_add_patch app]; rewrite patched_one by (by right); cbn; congruence.
    + apply (thompson_patched _ _ _ _ _ _ _ (A5 (length st1))). intros i Hi.
      rewrite (patch_other _ _ _ _ (length st1) (S (length st1))) by (lia || (apply patches_one; [by right|lia])).
      by rewrite patch_lookup, Hlow by lia.
Qed.

Lemma built_opt st a st1 inner : built (st ++ [split_state]) a st1 inner ->
  built st (R_OPT a) (alter (set_out1 (entry inner)) (length st) st1)
    (frag_merge_patches (frag_add_patch (length st) 1 (mkFrag (length st) [])) inner).
Proof.
  intros (A1 & A2 & A3 & A4 & A5). rewrite length_app, Nat.add_1_r in *. rewrite (merge_patches _ inner _ _ A4).
  unfold built. rewrite length_alter. cbn [entry patches frag_add_patch app]. split; [done|]. split; [lia|].
  assert (Hs0 : st1 !! length st = Some split_state) by (rewrite <- A3 by lia; apply lookup_new).
  split_and!.
  - intros i Hi. rewrite list_lookup_alter_ne, <- A3 by lia. by rewrite lookup_app_l by lia.
  - constructor; [destruct (pack_spec (length st) 1 ltac:(by right)) as (H1 & H2 & _); split; [done|lia]|].
    apply (patches_in_weaken _ (S (length st)) (length st1)); done || lia.
  - intros q. apply th_opt.
    + eapply split_new; [rewrite patch_lookup, list_lookup_alter_eq, Hs0; cbn [fmap option_fmap option_map patches]; done|..];
        change (?x :: ?l) with ([x] ++ l); rewrite patched_app, (patched_out _ _ (patches inner) (S (length st)) (length st1)), patched_one
          by (done || lia || by right); cbn; congruence.
    + apply (thompson_patched _ _ _ _ _ _ _ (A5 q)). intros i Hi. rewrite patch_lookup, list_lookup_alter_ne by lia. cbn [patches].
      destruct (st1 !! i); [|done]. cbn [fmap option_fmap option_map]. f_equal. change (?x :: ?l) with ([x] ++ l). rewrite patched_app. f_equal.
      apply (patched_out _ _ _ (length st) (S (length st))); [apply patches_one; [by right|lia]|lia].
Qed.

Lemma build_frag_built r : forall st st' f, build_frag st r = (st', f) -> built st r st' f.
Proof.
  induction r as [c|a IHa b IHb|a IHa b IHb|a IHa|a IHa|a IHa|]; intros st st' f; cbn [build_frag nfa_new];
    repeat match goal with |- context [let '(_, _) := build_frag ?s ?r in _] => let E := fresh in destruct (build_frag s r) eqn:E end;
    intros [= <- <-].
  - replace (alter (set_cls c) (length st) (st ++ [mkNfaState NFA_BYTE bs_clear None None]))
      with (st ++ [mkNfaState NFA_BYTE c None None]).
    { apply built_leaf; [|done]. intros st2 q H. by apply (th_class _ _ _ _ _ H). }
    rewrite (alter_app_r_alt _ st) by lia. by rewrite Nat.sub_diag.
  - eapply built_concat; eauto.
  - eapply built_alt; eauto.
  - eapply built_star; eauto.
  - eapply built_plus; eauto.
  - eapply built_opt; eauto.
  - apply built_leaf; [|done]. intros st2 q H. constructor. by eexists.
Qed.

(** The automaton of an expression: a fragment from state 0 to the match state,
    which has no edges; the paths between the two spell the language. *)
Lemma build_nfa_shape r : let n := build_nfa r in
  thompson (states n) r 0 (match_state n) (match_state n) /\ split_at (states n) (match_state n) None None /\
  length (states n) = S (match_state n).
Proof.
  unfold build_nfa. destruct (build_frag [] r) as [st f] eqn:E. cbn [nfa_new states match_state]. cbv zeta.
  destruct (build_frag_built _ _ _ _ E) as (H1 & H2 & H3 & H4 & H5). cbn [length] in *.
  rewrite patch_length, length_app, Nat.add_1_r. split_and!; [| |done].
  - apply (thompson_patched _ _ _ _ _ _ _ (H5 (length st))). intros i Hi. by rewrite patch_lookup, lookup_app_l by lia.
  - assert (Hat : frag_patch_to (st ++ [split_state]) f (length st) !! length st = Some split_state).
    { rewrite (patch_other _ _ _ _ 0 (length st) H4) by lia. apply lookup_new. }
    by apply (split_new _ _ _ _ _ Hat).
Qed.

Theorem nfa_language r w : lang r w <-> exists n, path (states (build_nfa r)) n 0 w (match_state (build_nfa r)).
Proof.
  destruct (build_nfa_shape r) as (Hth & Hm & _). split; [by apply (lang_path _ _ _ _ _ _ Hth)|]. intros [n Hp].
  destruct (path_lang _ _ _ _ _ Hth n w _ Hp) as (v & w' & m & -> & Hl & Hp' & _); [right; lia|].
  destruct (path_from_split _ _ _ _ _ _ _ Hm Hp') as [(_ & _ & ->)|(t & k & [[=]|[=]] & _)]. by rewrite app_nil_r.
Qed.
