(* ===== verification/RegexSets.v ===== *)
(** * The sets of the regular expression compiler

    Byte sets are sets of bytes; sorted arrays are sets of states; the epsilon
    closure computes the closure, the move the states behind a byte. *)
From Stdlib Require Import Sorting.Sorted.
From S2P Require Import Prelude MirRegex Sorting RegexNfa.

Definition bs_ok (s : ByteSet) : Prop := length s = 4%nat /\ Forall (fun w => 0 <= w < 2 ^ 64) s.

Definition is_byte (b : Z) : Prop := 0 <= b < 256.

Lemma byte_split b : is_byte b -> 0 <= b / 64 < 4 /\ 0 <= b mod 64 < 64 /\ b = 64 * (b / 64) + b mod 64.
Proof. unfold is_byte. intros. pose proof (Z.div_mod b 64). pose proof (Z.mod_pos_bound b 64). lia. Qed.

Lemma bs_word_div b : is_byte b -> bs_word b = Z.to_nat (b / 64).
Proof. intros. unfold bs_word. by rewrite Z.shiftr_div_pow2 by lia. Qed.

Lemma land_63 b : Z.land b 63 = b mod 64.
Proof. change 63 with (Z.ones 6). by rewrite Z.land_ones by lia. Qed.

Lemma bs_has_bit s b : is_byte b ->
  bs_has s b = match (s : list Z) !! Z.to_nat (b / 64) with Some w => Z.testbit w (b mod 64) | None => false end.
Proof.
  intros Hb. unfold bs_has. rewrite bs_word_div, land_63 by done. destruct (@lookup _ _ (list Z) _ _ s) as [w|]; [|done].
  destruct (byte_split b Hb) as (_ & H & _).
  change 1 with (Z.ones 1) at 1. rewrite Z.land_ones, Z.testbit_eqb, Z.shiftr_div_pow2 by lia. change (2 ^ 1) with 2.
  pose proof (Z.mod_pos_bound (w / 2 ^ (b mod 64)) 2 ltac:(lia)).
  destruct (Z.eqb_spec ((w / 2 ^ (b mod 64)) mod 2) 0), (Z.eqb_spec ((w / 2 ^ (b mod 64)) mod 2) 1); done || lia.
Qed.

Lemma bs_ok_add s b : bs_ok s -> is_byte b -> bs_ok (bs_add s b).
Proof.
  intros [Hl Hs] Hb. split; [by unfold bs_add; rewrite length_alter|].
  apply list.Forall_forall. intros w [i Hi]%list_elem_of_lookup. unfold bs_add in Hi.
  destruct (decide (i = bs_word b)) as [->|Hne].
  - rewrite list_lookup_alter_eq in Hi. apply fmap_Some in Hi as (v & Hv & ->).
    rewrite list.Forall_forall in Hs. specialize (Hs v (list_elem_of_lookup_2 _ _ _ Hv)).
    rewrite land_63, Z.shiftl_1_l. destruct (byte_split b Hb) as (_ & H & _).
    split; [apply Z.lor_nonneg; split; [lia|apply Z.pow_nonneg; lia]|].
    assert (2 ^ (b mod 64) < 2 ^ 64) by (apply Z.pow_lt_mono_r; lia).
    assert (0 < 2 ^ (b mod 64)) by (apply Z.pow_pos_nonneg; lia).
    assert (Hlor : Z.lor v (2 ^ (b mod 64)) = Z.lor v (2 ^ (b mod 64)) mod 2 ^ 64).
    { apply Z.bits_inj'. intros n Hn. destruct (Z.lt_ge_cases n 64).
      - by rewrite Z.mod_pow2_bits_low by lia.
      - rewrite Z.mod_pow2_bits_high, Z.lor_spec by lia.
        rewrite <- (Z.mod_small v (2 ^ 64)), Z.mod_pow2_bits_high by lia.
        rewrite Z.pow2_bits_false by lia. done. }
    rewrite Hlor. by apply Z.mod_pos_bound.
  - rewrite list_lookup_alter_ne in Hi by done. rewrite list.Forall_forall in Hs. apply Hs. by apply list_elem_of_lookup_2 in Hi.
Qed.

Lemma bs_has_add s b x : bs_ok s -> is_byte b -> is_byte x -> bs_has (bs_add s b) x = (x =? b) || bs_has s x.
Proof.
  intros [Hl _] Hb Hx. rewrite !bs_has_bit by done. unfold bs_add. rewrite land_63, bs_word_div by done.
  destruct (byte_split b Hb) as (B1 & B2 & B3), (byte_split x Hx) as (X1 & X2 & X3).
  destruct (decide (Z.to_nat (x / 64) = Z.to_nat (b / 64))) as [He|Hne].
  - rewrite He, list_lookup_alter_eq. destruct (lookup_lt_is_Some_2 s (Z.to_nat (b / 64))) as [w ->]; [lia|]. cbn.
    rewrite Z.lor_spec, Z.shiftl_1_l, Z.pow2_bits_eqb, orb_comm by lia. f_equal.
    destruct (Z.eqb_spec (b mod 64) (x mod 64)), (Z.eqb_spec x b); done || lia.
  - rewrite list_lookup_alter_ne by done. destruct (Z.eqb_spec x b); [subst; done|done].
Qed.

Lemma bs_ok_clear : bs_ok bs_clear.
Proof. split; [done|]. repeat constructor; lia. Qed.

Lemma bs_has_clear x : is_byte x -> bs_has bs_clear x = false.
Proof.
  intros Hx. rewrite bs_has_bit by done. destruct (byte_split x Hx) as (H & _ & _). unfold bs_clear.
  destruct (Z.to_nat (x / 64)) as [|[|[|[|n]]]]; cbn; rewrite ?Z.testbit_0_l; done.
Qed.

Lemma bs_ok_fill : bs_ok bs_fill.
Proof. split; [done|]. repeat constructor; lia. Qed.

Lemma bs_has_fill x : is_byte x -> bs_has bs_fill x = true.
Proof.
  intros Hx. rewrite bs_has_bit by done. destruct (byte_split x Hx) as (H1 & H2 & _). unfold bs_fill.
  assert (Hones : Z.testbit (2 ^ 64 - 1) (x mod 64) = true).
  { change (2 ^ 64 - 1) with (Z.ones 64). apply Z.ones_spec_low. lia. }
  destruct (Z.to_nat (x / 64)) as [|[|[|[|n]]]] eqn:E; try (exact Hones). lia.
Qed.

Lemma bs_ok_invert s : bs_ok s -> bs_ok (bs_invert s).
Proof.
  intros [Hl _]. split; [by unfold bs_invert; rewrite length_map|]. apply list.Forall_forall.
  intros w Hw%list_elem_of_In%in_map_iff. destruct Hw as (v & <- & _). apply u64_range.
Qed.

Lemma bs_has_invert s x : bs_ok s -> is_byte x -> bs_has (bs_invert s) x = negb (bs_has s x).
Proof.
  intros [Hl _] Hx. rewrite !bs_has_bit by done. destruct (byte_split x Hx) as (H1 & H2 & _). unfold bs_invert.
  rewrite list_lookup_fmap. destruct (lookup_lt_is_Some_2 s (Z.to_nat (x / 64))) as [w ->]; [lia|]. cbn.
  unfold u64. rewrite Z.mod_pow2_bits_low, Z.lnot_spec by lia. done.
Qed.

(** Two sets with the same members are the same words. *)
Lemma bs_ext s t : bs_ok s -> bs_ok t -> (forall x, is_byte x -> bs_has s x = bs_has t x) -> s = t.
Proof.
  intros [Hl Hs] [Hl' Ht] Heq. apply list_eq_same_length with 4%nat; [done|done|].
  intros i v w Hi Hv Hw. rewrite list.Forall_forall in Hs, Ht.
  pose proof (Hs v (list_elem_of_lookup_2 _ _ _ Hv)) as Bv. pose proof (Ht w (list_elem_of_lookup_2 _ _ _ Hw)) as Bw.
  apply Z.bits_inj'. intros n Hn. destruct (Z.lt_ge_cases n 64).
  - specialize (Heq (64 * Z.of_nat i + n) ltac:(unfold is_byte; lia)).
    rewrite !bs_has_bit in Heq by (unfold is_byte; lia).
    rewrite (Z.mul_comm 64), Z.div_add_l, (Z.div_small n), Z.add_0_r, Nat2Z.id, Hv, Hw in Heq by lia.
    rewrite Z.add_comm, Z.mod_add, Z.mod_small in Heq by lia. done.
  - rewrite <- (Z.mod_small v (2 ^ 64)), <- (Z.mod_small w (2 ^ 64)) by lia. rewrite !Z.mod_pow2_bits_high by lia. done.
Qed.

(** ** The loops *)

Lemma add_all_spec l : Forall is_byte l -> forall s, bs_ok s ->
  bs_ok (add_all l s) /\ forall x, is_byte x -> bs_has (add_all l s) x = bool_decide (x ∈ l) || bs_has s x.
Proof.
  unfold add_all. induction 1 as [|b l Hb Hl IH]; intros s Hs; [done|]. cbn [fold_left].
  destruct (IH (bs_add s b) (bs_ok_add s b Hs Hb)) as [IH1 IH2]. split; [done|]. intros x Hx.
  rewrite IH2, bs_has_add by done. destruct (Z.eqb_spec x b) as [->|Hne].
  - rewrite (bool_decide_eq_true_2 (b ∈ b :: l)) by (by left). by rewrite orb_true_r.
  - rewrite orb_false_l. f_equal. apply bool_decide_ext. rewrite elem_of_cons. tauto.
Qed.

Lemma bytes_all : Forall is_byte (seqZ 0 256).
Proof. apply list.Forall_forall. intros x Hx%elem_of_seqZ. unfold is_byte. lia. Qed.

Lemma bs_union_spec t s : bs_ok s ->
  bs_ok (bs_union t s) /\ forall x, is_byte x -> bs_has (bs_union t s) x = bs_has t x || bs_has s x.
Proof.
  intros Hs. unfold bs_union.
  assert (H : forall l s, Forall is_byte l -> bs_ok s ->
    let r := fold_left (fun o b => if bs_has t b then bs_add o b else o) l s in
    bs_ok r /\ forall x, is_byte x -> bs_has r x = (bs_has t x && bool_decide (x ∈ l)) || bs_has s x).
  { clear s Hs. intros l. induction l as [|b l IH]; intros s Hl Hs; cbn [fold_left].
    - split; [done|]. intros x Hx. rewrite bool_decide_eq_false_2 by (intros []%elem_of_nil). by rewrite andb_false_r.
    - apply list.Forall_cons in Hl as [Hb Hl].
      assert (Hs' : bs_ok (if bs_has t b then bs_add s b else s)) by (destruct (bs_has t b); auto using bs_ok_add).
      destruct (IH _ Hl Hs') as [IH1 IH2]. split; [done|]. intros x Hx. rewrite IH2 by done.
      destruct (Z.eqb_spec x b) as [->|Hne].
      + rewrite (bool_decide_eq_true_2 (b ∈ b :: l)) by (by left). rewrite andb_true_r.
        destruct (bs_has t b) eqn:E; [rewrite bs_has_add, Z.eqb_refl, orb_true_r by done; done|done].
      + rewrite (bool_decide_ext (x ∈ b :: l) (x ∈ l)) by (rewrite elem_of_cons; tauto).
        destruct (bs_has t b); [|done]. rewrite bs_has_add by done. by rewrite (proj2 (Z.eqb_neq x b)). }
  destruct (H (seqZ 0 256) s bytes_all Hs) as [H1 H2]. split; [done|]. intros x Hx. rewrite H2 by done.
  rewrite bool_decide_eq_true_2, andb_true_r; [done|]. apply elem_of_seqZ. unfold is_byte in Hx. lia.
Qed.

(** ** Sorted sets of states, and the epsilon closure computes the closure *)

Definition asc (set : list nat) : Prop := StronglySorted lt set.

Lemma asc_NoDup set : asc set -> NoDup set.
Proof.
  induction 1 as [|x l Hl IH Hx]; constructor; [|done]. rewrite List.Forall_forall in Hx.
  intros H%list_elem_of_In%Hx. lia.
Qed.

Lemma asc_lookup set i j x y : asc set -> (i < j)%nat -> set !! i = Some x -> set !! j = Some y -> (x < y)%nat.
Proof. apply sorted_lookup. Qed.

(** ** Binary search *)

Lemma div2_between lo hi : (lo < hi)%nat -> (lo <= Nat.div2 (lo + hi) < hi)%nat.
Proof. intros. rewrite Nat.div2_div. pose proof (Nat.div_mod (lo + hi) 2). pose proof (Nat.mod_upper_bound (lo + hi) 2). lia. Qed.

Lemma lower_bound_spec set x : asc set -> forall fuel lo hi, (lo <= hi <= length set)%nat -> (hi - lo <= fuel)%nat ->
  (forall i y, (i < lo)%nat -> set !! i = Some y -> (y < x)%nat) ->
  (forall i y, (hi <= i)%nat -> set !! i = Some y -> (x <= y)%nat) ->
  exists r, lower_bound fuel set x lo hi = Ok r /\ (r <= length set)%nat /\
    (forall i y, (i < r)%nat -> set !! i = Some y -> (y < x)%nat) /\
    (forall i y, (r <= i)%nat -> set !! i = Some y -> (x <= y)%nat).
Proof.
  intros Hasc. induction fuel as [|fuel IH]; intros lo hi Hb Hf Hlo Hhi; cbn [lower_bound].
  - destruct (Nat.ltb_spec lo hi); [lia|]. exists lo. split; [done|]. split; [lia|]. split; [done|].
    intros i y Hi. apply Hhi. lia.
  - destruct (Nat.ltb_spec lo hi) as [Hlt|].
    2: { exists lo. split; [done|]. split; [lia|]. split; [done|]. intros i y Hi. apply Hhi. lia. }
    pose proof (div2_between lo hi Hlt) as Hm. set (mid := Nat.div2 (lo + hi)) in *.
    destruct (lookup_lt_is_Some_2 set mid) as [y Hy]; [lia|]. rewrite Hy. cbn [of_option obind].
    destruct (Nat.ltb_spec y x) as [Hyx|Hyx].
    + apply IH; [lia|lia| |done]. intros i z Hi Hz. destruct (decide (i = mid)) as [->|]; [by simplify_eq|].
      pose proof (asc_lookup set i mid z y Hasc ltac:(lia) Hz Hy). lia.
    + apply IH; [lia|lia|done|]. intros i z Hi Hz. destruct (decide (i = mid)) as [->|]; [by simplify_eq|].
      pose proof (asc_lookup set mid i y z Hasc ltac:(lia) Hy Hz). lia.
Qed.

Lemma contains_spec set x : asc set -> forall fuel lo hi, (lo <= hi <= length set)%nat -> (hi - lo <= fuel)%nat ->
  (forall i, set !! i = Some x -> (lo <= i < hi)%nat) -> contains_loop fuel set x lo hi = Ok (bool_decide (x ∈ set)).
Proof.
  intros Hasc.
  assert (Hno : forall lo hi, (hi <= lo)%nat -> (forall i, set !! i = Some x -> (lo <= i < hi)%nat) -> x ∉ set).
  { intros lo hi H Hin [i Hi]%list_elem_of_lookup. specialize (Hin i Hi). lia. }
  induction fuel as [|fuel IH]; intros lo hi Hb Hf Hin; cbn [contains_loop].
  - destruct (Nat.ltb_spec lo hi); [lia|]. by rewrite bool_decide_eq_false_2 by eauto.
  - destruct (Nat.ltb_spec lo hi) as [Hlt|]; [|by rewrite bool_decide_eq_false_2 by eauto].
    pose proof (div2_between lo hi Hlt) as Hm. set (mid := Nat.div2 (lo + hi)) in *.
    destruct (lookup_lt_is_Some_2 set mid) as [y Hy]; [lia|]. rewrite Hy. cbn [of_option obind].
    destruct (Nat.ltb_spec y x) as [Hyx|Hyx]; [|destruct (Nat.ltb_spec x y) as [Hxy|Hxy]].
    + apply IH; [lia|lia|]. intros i Hi. specialize (Hin i Hi). destruct (Nat.lt_ge_cases mid i); [lia|].
      destruct (decide (i = mid)) as [->|]; [simplify_eq; lia|]. pose proof (asc_lookup set i mid x y Hasc ltac:(lia) Hi Hy). lia.
    + apply IH; [lia|lia|]. intros i Hi. specialize (Hin i Hi). destruct (Nat.lt_ge_cases i mid); [lia|].
      destruct (decide (i = mid)) as [->|]; [simplify_eq; lia|]. pose proof (asc_lookup set mid i y x Hasc ltac:(lia) Hy Hi). lia.
    + assert (y = x) as -> by lia. rewrite bool_decide_eq_true_2; [done|]. by apply list_elem_of_lookup_2 in Hy.
Qed.

Lemma set_contains_spec set x : asc set -> set_contains set x = Ok (bool_decide (x ∈ set)).
Proof. intros H. apply contains_spec; [done|lia|lia|]. intros i Hi. apply lookup_lt_Some in Hi. lia. Qed.

(** ** Insertion *)

Definition sset (cap : nat) (set : list nat) : Prop := asc set /\ forall x, x ∈ set -> (x < cap)%nat.

Lemma sset_length cap set : sset cap set -> (length set <= cap)%nat.
Proof.
  intros [Ha Hb]. rewrite <- (length_seq cap 0). apply submseteq_length, NoDup_submseteq; [by apply asc_NoDup|].
  intros x Hx. apply elem_of_seq. specialize (Hb x Hx). lia.
Qed.

Lemma sset_room cap set x : sset cap set -> (x < cap)%nat -> x ∉ set -> (length set < cap)%nat.
Proof.
  intros [Ha Hb] Hx Hn. rewrite <- (length_seq cap 0). assert (H : (length (x :: set) <= length (seq 0 cap))%nat); [|exact H].
  apply submseteq_length, NoDup_submseteq; [constructor; [done|by apply asc_NoDup]|].
  intros y [->|Hy]%elem_of_cons; apply elem_of_seq; [lia|]. specialize (Hb y Hy). lia.
Qed.

Lemma asc_app l k : asc l -> asc k -> (forall x y, x ∈ l -> y ∈ k -> (x < y)%nat) -> asc (l ++ k).
Proof.
  intros Hl Hk Hlk. induction Hl as [|x l Hl IH Hx]; [done|]. cbn. constructor.
  - apply IH. intros y z Hy. apply Hlk. by right.
  - apply List.Forall_forall. intros y [Hy|Hy]%in_app_iff; [rewrite List.Forall_forall in Hx; auto|].
    apply Hlk; [by left|by apply list_elem_of_In].
Qed.

Lemma asc_take n l : asc l -> asc (take n l).
Proof.
  intros H. revert n. induction H as [|x l Hl IH Hx]; intros [|n]; cbn; try constructor; [apply IH|].
  apply List.Forall_forall. intros y Hy. rewrite List.Forall_forall in Hx. apply Hx.
  apply list_elem_of_In, (elem_of_take _ n) in Hy as (i & Hi & _). apply list_elem_of_In. by apply list_elem_of_lookup_2 in Hi.
Qed.

Lemma asc_drop n l : asc l -> asc (drop n l).
Proof. intros H. revert n. induction H as [|x l Hl IH Hx]; intros [|n]; cbn; try constructor; auto. Qed.

Lemma sorted_add_spec cap set x : sset cap set -> (x < cap)%nat ->
  exists set', set_sorted_add cap set x = Ok set' /\ sset cap set' /\ (forall y, y ∈ set' <-> y = x \/ y ∈ set) /\
    (x ∉ set -> length set' = S (length set)).
Proof.
  intros Hs Hx. pose proof Hs as [Ha Hb]. unfold set_sorted_add.
  destruct (lower_bound_spec set x Ha (length set) 0 (length set)) as (r & -> & Hr & Hlo & Hhi); [lia|lia|lia|..].
  { intros i y Hi Hy. apply lookup_lt_Some in Hy. lia. }
  cbn [obind]. destruct (bool_decide_reflect (set !! r = Some x)) as [Hin|Hout].
  - apply list_elem_of_lookup_2 in Hin. exists set. split; [done|]. split; [done|]. split; [|done].
    intros y. split; [by right|]. by intros [->|H].
  - assert (Hn : x ∉ set).
    { intros [i Hi]%list_elem_of_lookup. destruct (Nat.lt_ge_cases i r) as [H|H]; [specialize (Hlo i x H Hi); lia|].
      destruct (decide (i = r)) as [->|]; [done|]. destruct (lookup_lt_is_Some_2 set r) as [y Hy]; [apply lookup_lt_Some in Hi; lia|].
      pose proof (Hhi r y ltac:(lia) Hy). pose proof (asc_lookup set r i y x Ha ltac:(lia) Hy Hi). lia. }
    rewrite (proj2 (Nat.ltb_lt _ _)) by (by apply (sset_room cap set x)).
    assert (Hmem : forall y, y ∈ take r set ++ x :: drop r set <-> y = x \/ y ∈ set).
    { intros y. rewrite elem_of_app, elem_of_cons. rewrite <- (take_drop r set) at 3. rewrite elem_of_app. tauto. }
    eexists. split; [done|]. split; [split; [|intros y [->|Hy]%Hmem; [done|by apply Hb]]|split; [exact Hmem|]].
    + apply asc_app; [by apply asc_take|constructor; [by apply asc_drop|]|].
      * apply List.Forall_forall. intros y Hy%list_elem_of_In%list_elem_of_lookup. destruct Hy as [i Hi]. rewrite lookup_drop in Hi.
        pose proof (Hhi (r + i)%nat y ltac:(lia) Hi). destruct (decide (x = y)) as [->|]; [|lia].
        destruct Hn. by apply list_elem_of_lookup_2 in Hi.
      * intros y z (i & Hi & Hir)%elem_of_take Hz. specialize (Hlo i y Hir Hi).
        apply elem_of_cons in Hz as [->|[j Hj]%list_elem_of_lookup]; [done|]. rewrite lookup_drop in Hj.
        specialize (Hhi (r + j)%nat z ltac:(lia) Hj). lia.
    + intros _. rewrite length_app. cbn. rewrite length_take, length_drop. lia.
Qed.

(** ** Epsilon closure *)

Section Closure.
Context (st : list NfaState).

(** The targets are states. *)
Definition nfa_ok : Prop := forall p s, st !! p = Some s ->
  match kind s with
  | NFA_SPLIT => (forall t, out1 s = Some t -> (t < length st)%nat) /\ (forall t, out2 s = Some t -> (t < length st)%nat)
  | NFA_BYTE => forall t, out1 s = Some t -> (t < length st)%nat
  end.

Definition eps_edge (p t : nat) : Prop := exists s, st !! p = Some s /\ kind s = NFA_SPLIT /\ (out1 s = Some t \/ out2 s = Some t).
Definition eps (p q : nat) : Prop := exists n, path st n p [] q.
Definition closed (set : list nat) : Prop := forall p t, p ∈ set -> eps_edge p t -> t ∈ set.

Lemma eps_refl p : eps p p.
Proof. exists 0%nat. constructor. Qed.

Lemma eps_step p t q : eps_edge p t -> eps t q -> eps p q.
Proof. intros (s & H1 & H2 & [H3|H3]) [n Hn]; exists (S n); eauto using path. Qed.

Lemma eps_snoc p q t : eps p q -> eps_edge q t -> eps p t.
Proof.
  intros [n Hn] He. destruct (eps_step q t t He (eps_refl t)) as [m Hm]. exists (n + m)%nat.
  apply (path_app st n m p q t [] [] Hn Hm).
Qed.

Lemma eps_closed set p q : closed set -> p ∈ set -> eps p q -> q ∈ set.
Proof.
  intros Hc Hp [n Hn]. remember [] as w eqn:Hw. induction Hn as [p|n p s t w q H1 H2 H3 _ IH|n p s t w q H1 H2 H3 _ IH|]; [done| | |done].
  - apply IH; [|done]. apply (Hc p); [done|]. exists s. auto.
  - apply IH; [|done]. apply (Hc p); [done|]. exists s. auto.
Qed.

Hypothesis Hok : nfa_ok.

Lemma edge_in p t : eps_edge p t -> (t < length st)%nat.
Proof. intros (s & H1 & H2 & H3). pose proof (Hok p s H1) as H. rewrite H2 in H. destruct H as [Ha Hb], H3; auto. Qed.

Lemma eps_in p q : (p < length st)%nat -> eps p q -> (q < length st)%nat.
Proof.
  intros Hp [n Hn]. remember [] as w eqn:Hw. induction Hn as [p|n p s t w q H1 H2 H3 _ IH|n p s t w q H1 H2 H3 _ IH|]; [done| | |done];
    (apply IH; [apply (edge_in p); exists s; auto|done]).
Qed.

(** The stack is a part of the set; the states of the set off the stack have
    their targets in the set; what is new comes from [start]. *)
Record working (set0 : list nat) (start : nat) (stk set : list nat) : Prop := {
  wk_set : sset (length st) set;
  wk_old : forall x, x ∈ set0 -> x ∈ set;
  wk_new : forall x, x ∈ set -> x ∈ set0 \/ eps start x;
  wk_stk : NoDup stk /\ forall x, x ∈ stk -> x ∈ set /\ eps start x;
  wk_done : forall p t, p ∈ set -> p ∉ stk -> eps_edge p t -> t ∈ set
}.

Lemma stack_room cap set stk t : sset cap set -> NoDup stk -> (forall x, x ∈ stk -> x ∈ set) -> t ∉ set -> (t < cap)%nat -> (length stk < cap)%nat.
Proof.
  intros Hs Hn Hsub Ht Hlt. apply Nat.le_lt_trans with (length set); [|by apply (sset_room cap set t)].
  apply submseteq_length. by apply NoDup_submseteq.
Qed.

(** One edge of a popped state [cur], whose other edge may still be open. *)
Lemma edge_spec (set0 : list nat) start o (stk set : list nat) :
  (forall t, o = Some t -> (t < length st)%nat /\ eps start t) ->
  sset (length st) set -> NoDup stk -> (forall x, x ∈ stk -> x ∈ set /\ eps start x) -> (forall x, x ∈ set -> x ∈ set0 \/ eps start x) ->
  exists (stk' set' : list nat), eclose_edge (length st) o (stk, set) = Ok (stk', set') /\ sset (length st) set' /\ NoDup stk' /\
    (forall x, x ∈ stk' -> x ∈ set' /\ eps start x) /\ (forall x, x ∈ set' -> x ∈ set0 \/ eps start x) /\
    (forall x, x ∈ set -> x ∈ set') /\ (forall x, x ∈ set' -> x ∉ stk' -> x ∈ set /\ x ∉ stk) /\
    (forall t, o = Some t -> t ∈ set') /\
    (length set' + length stk = length set + length stk')%nat.
Proof.
  intros Ho Hs Hn Hstk Hnew. destruct o as [t|]; cbn [eclose_edge fst snd].
  2: { exists stk, set. split_and!; done || (intros; split; done). }
  destruct (Ho t eq_refl) as [Hlt Het]. destruct (bool_decide_reflect (t ∈ set)) as [Hin|Hout].
  { exists stk, set. split; [done|]. split_and!; try done. by intros ? [= <-]. }
  destruct (sorted_add_spec _ set t Hs Hlt) as (set' & -> & Hs' & Hmem & Hlen). cbn [obind].
  rewrite (proj2 (Nat.ltb_lt _ _)) by (apply (stack_room _ set stk t); auto; intros x Hx; by apply Hstk).
  exists (t :: stk), set'. split; [done|]. split; [done|]. split; [|split_and!].
  - constructor; [|done]. intros Hx%Hstk. tauto.
  - intros x [->|Hx]%elem_of_cons; [split; [apply Hmem; by left|done]|]. destruct (Hstk x Hx). split; [apply Hmem; by right|done].
  - intros x [->|Hx]%Hmem; auto.
  - intros x Hx. apply Hmem. by right.
  - intros x [->|Hx]%Hmem Hns; [destruct Hns; by left|]. split; [done|]. intros H. destruct Hns. by right.
  - intros ? [= <-]. apply Hmem. by left.
  - rewrite (Hlen Hout). cbn. lia.
Qed.
Lemma working_pop set0 start cur stk set : working set0 start (cur :: stk) set ->
  cur ∈ set /\ eps start cur /\ cur ∉ stk /\ NoDup stk /\ (forall x, x ∈ stk -> x ∈ set /\ eps start x) /\
  (forall p t, p ∈ set -> p ∉ stk -> p <> cur -> eps_edge p t -> t ∈ set).
Proof.
  intros [Hs _ _ [Hn Hstk] Hd]. apply list.NoDup_cons in Hn as [Hc Hn].
  destruct (Hstk cur ltac:(by left)) as [H1 H2]. split; [done|]. split; [done|]. split; [done|]. split; [done|]. split.
  - intros x Hx. apply Hstk. by right.
  - intros p t Hp Hns Hne He. apply (Hd p t Hp); [|done]. by intros [->|H]%elem_of_cons.
Qed.

Lemma eclose_loop_spec set0 start : forall fuel stk set, working set0 start stk set ->
  (length st - length set + length stk < fuel)%nat ->
  exists set', eclose_loop fuel st (stk, set) = Ok set' /\ sset (length st) set' /\ closed set' /\
    (forall x, x ∈ set -> x ∈ set') /\ (forall x, x ∈ set' -> x ∈ set0 \/ eps start x).
Proof.
  induction fuel as [|fuel IH]; intros stk set Hw Hf; [lia|].
  destruct stk as [|cur stk]; cbn [eclose_loop].
  { exists set. destruct Hw as [H1 H2 H3 _ H5]. split; [done|]. split; [done|]. split; [|done].
    intros p t Hp. apply H5; [done|]. apply not_elem_of_nil. }
  destruct (working_pop _ _ _ _ _ Hw) as (Hcur & Heps & Hc & Hn & Hstk & Hdone). destruct Hw as [Hs Hold Hnew _ _].
  destruct (lookup_lt_is_Some_2 st cur) as [s Hcs]; [by apply Hs|]. rewrite Hcs. cbn [of_option obind].
  pose proof (sset_length _ _ Hs) as Hlen. cbn [length] in Hf.
  destruct (kind s) eqn:Hk.
  - apply IH; [|lia]. constructor; try done. intros p t Hp Hns He.
    destruct (decide (p = cur)) as [->|Hne]; [|by apply (Hdone p)]. destruct He as (s' & H1 & H2 & _). simplify_eq; congruence.
  - assert (He1 : forall t, out1 s = Some t -> (t < length st)%nat /\ eps start t)
      by (intros t Ht; assert (eps_edge cur t) by (exists s; auto); split; [by apply (edge_in cur)|by apply (eps_snoc start cur)]).
    assert (He2 : forall t, out2 s = Some t -> (t < length st)%nat /\ eps start t)
      by (intros t Ht; assert (eps_edge cur t) by (exists s; auto); split; [by apply (edge_in cur)|by apply (eps_snoc start cur)]).
    destruct (edge_spec set0 start (out1 s) stk set He1 Hs Hn Hstk Hnew) as (stk1 & set1 & -> & S1 & N1 & K1 & W1 & O1 & D1 & T1 & L1).
    cbn [obind].
    destruct (edge_spec set0 start (out2 s) stk1 set1 He2 S1 N1 K1 W1) as (stk2 & set2 & -> & S2 & N2 & K2 & W2 & O2 & D2 & T2 & L2).
    cbn [obind]. pose proof (sset_length _ _ S2).
    destruct (IH stk2 set2) as (set' & E & R1 & R2 & R3 & R4); [|lia|].
    + constructor; [done|auto|done|done|]. intros p t Hp Hns He.
      destruct (D2 p Hp Hns) as [Hp1 Hns1]. destruct (D1 p Hp1 Hns1) as [Hp0 Hns0].
      destruct (decide (p = cur)) as [->|Hne]; [|by apply O2, O1, (Hdone p)].
      destruct He as (s' & H1 & H2 & [H3|H3]); rewrite Hcs in H1; injection H1 as <-; auto.
    + exists set'. split; [done|]. split; [done|]. split; [done|]. split; [auto|done].
Qed.

(** The closure of a closed set and a state. *)
Lemma eclose_spec set start : sset (length st) set -> closed set -> (start < length st)%nat ->
  exists set', eclose st set start = Ok set' /\ sset (length st) set' /\ closed set' /\
    (forall x, x ∈ set' <-> x ∈ set \/ eps start x).
Proof.
  intros Hs Hc Hlt. unfold eclose. destruct (bool_decide_reflect (start ∈ set)) as [Hin|Hout].
  { exists set. split; [done|]. split; [done|]. split; [done|]. intros x. split; [auto|]. intros [H|H]; [done|].
    by apply (eps_closed set start). }
  destruct (sorted_add_spec _ set start Hs Hlt) as (set1 & -> & Hs1 & Hmem & Hl1). cbn [obind].
  rewrite (proj2 (Nat.ltb_lt _ _)) by lia. pose proof (sset_length _ _ Hs1) as Hlen.
  destruct (eclose_loop_spec set start (S (length st)) [start] set1) as (set' & E & R1 & R2 & R3 & R4).
  - constructor; [done|..].
    + intros x Hx. apply Hmem. by right.
    + intros x [->|Hx]%Hmem; [right; apply eps_refl|by left].
    + split; [constructor; [apply not_elem_of_nil|constructor]|].
      intros x ->%list_elem_of_singleton. split; [apply Hmem; by left|apply eps_refl].
    + intros p t [->|Hp]%Hmem Hns He; [destruct Hns; by left|]. apply Hmem. right. by apply (Hc p).
  - rewrite (Hl1 Hout) in *. cbn. lia.
  - exists set'. split; [done|]. split; [done|]. split; [done|]. intros x. split; [apply R4|].
    intros [H|H]; [apply R3, Hmem; by right|]. apply (eps_closed set' start); [done| |done]. apply R3, Hmem. by left.
Qed.

(** ** The move on a byte *)

Definition byte_edge (b : Z) (p t : nat) : Prop :=
  exists s, st !! p = Some s /\ kind s = NFA_BYTE /\ bs_has (cls s) b = true /\ out1 s = Some t.

Lemma move_spec b l : (forall p, p ∈ l -> (p < length st)%nat) -> forall nxt, sset (length st) nxt -> closed nxt ->
  exists nxt', ofold (move_from st b) l nxt = Ok nxt' /\ sset (length st) nxt' /\ closed nxt' /\
    (forall x, x ∈ nxt' <-> x ∈ nxt \/ exists p t, p ∈ l /\ byte_edge b p t /\ eps t x).
Proof.
  induction l as [|p l IH]; intros Hl nxt Hs Hc; cbn [ofold].
  { exists nxt. split; [done|]. split; [done|]. split; [done|]. intros x. split; [auto|].
    intros [H|(p & t & H & _)]; [done|]. by apply elem_of_nil in H. }
  destruct (lookup_lt_is_Some_2 st p) as [s Hps]; [apply Hl; by left|].
  assert (Hstep : exists nxt1, move_from st b p nxt = Ok nxt1 /\ sset (length st) nxt1 /\ closed nxt1 /\
    (forall x, x ∈ nxt1 <-> x ∈ nxt \/ exists t, byte_edge b p t /\ eps t x)).
  { assert (Hnone : (forall t, ~ byte_edge b p t) -> exists nxt1, Ok nxt = Ok nxt1 /\ sset (length st) nxt1 /\ closed nxt1 /\
      (forall x, x ∈ nxt1 <-> x ∈ nxt \/ exists t, byte_edge b p t /\ eps t x)).
    { intros Hno. exists nxt. split; [done|]. split; [done|]. split; [done|]. intros x. split; [auto|].
      intros [H|(t & H & _)]; [done|]. by destruct (Hno t). }
    unfold move_from. rewrite Hps. cbn [of_option obind]. destruct (kind s) eqn:Hk.
    - destruct (out1 s) as [t|] eqn:Ho; [|apply Hnone; intros t (s' & H1 & _ & _ & H4); simplify_eq; congruence].
      destruct (bs_has (cls s) b) eqn:Hb; [|apply Hnone; intros t' (s' & H1 & _ & H3 & _); simplify_eq; congruence].
      pose proof (Hok p s Hps) as Htl. rewrite Hk in Htl.
      destruct (eclose_spec nxt t Hs Hc (Htl t Ho)) as (nxt1 & -> & R1 & R2 & R3). exists nxt1. split; [done|]. split; [done|]. split; [done|].
      intros x. rewrite R3. split; (intros [H|H]; [by left|right]).
      + exists t. split; [|done]. by exists s.
      + destruct H as (t' & (s' & H1 & _ & _ & H4) & H). by simplify_eq.
    - apply Hnone. intros t (s' & H1 & H2 & _). simplify_eq. congruence. }
  destruct Hstep as (nxt1 & -> & S1 & C1 & M1). cbn [obind].
  destruct (IH ltac:(intros q Hq; apply Hl; by right) nxt1 S1 C1) as (nxt2 & -> & S2 & C2 & M2).
  exists nxt2. split; [done|]. split; [done|]. split; [done|]. intros x. rewrite M2, M1. split.
  - intros [[H|(t & H1 & H2)]|(q & t & H1 & H2 & H3)]; [by left|right; exists p, t; split; [by left|done]|].
    right. exists q, t. split; [by right|done].
  - intros [H|(q & t & Hq & H2 & H3)]; [by left; left|]. apply elem_of_cons in Hq as [->|Hq]; [left; right; eauto|right; eauto].
Qed.
End Closure.
