(* ===== verification/RegexParse.v ===== *)
(** * The parser of regular expressions: total, and the inverse of a printer *)
From Stdlib Require Import Ascii.
From S2P Require Import Prelude CString MirRegex RegexSets.

Fixpoint node_ok (r : RegexNode) : Prop :=
  match r with
  | R_CLASS s => bs_ok s
  | R_CONCAT a b | R_ALT a b => node_ok a /\ node_ok b
  | R_STAR a | R_PLUS a | R_OPT a => node_ok a
  | R_EMPTY => True
  end.

(** ** Totality *)

(** From the context [c], on at most [k] characters: the outcome is a result
    that satisfies [Q] and took at least [d] characters, or [NULL]. *)
Definition ends {A} (c : RxCtx) (d : nat) (Q : A -> Prop) (o : outcome (RxCtx * option A)) : Prop :=
  exists c' r, o = Ok (c', r) /\ src c' = src c /\ (pos c <= pos c' <= length (src c))%nat /\ forall x, r = Some x -> (pos c + d <= pos c')%nat /\ Q x.

Definition within (k : nat) (c : RxCtx) : Prop := (pos c <= length (src c) <= pos c + k)%nat.

Definition runs {A} (k d : nat) (Q : A -> Prop) (m : rx A) : Prop := forall c, within k c -> ends c d Q (m c).

Lemma ends_ret {A} c (Q : A -> Prop) x : (pos c <= length (src c))%nat -> Q x -> ends c 0 Q (rx_ret x c).
Proof. intros Hc HQ. exists c, (Some x). split; [done|]. split; [done|]. split; [lia|]. intros y [= <-]. split; [lia|done]. Qed.

Lemma ends_fail {A} c d (Q : A -> Prop) p e : (pos c <= length (src c))%nat -> ends c d Q (rx_fail p e c).
Proof.
  intros Hc. eexists _, None. split; [done|]. unfold rx_seterr. destruct (error c); cbn; (split; [done|]); (split; [lia|done]).
Qed.

Lemma ends_bind {A B} c d d' (Q : A -> Prop) (R : B -> Prop) m f :
  ends c d Q (m c) -> (forall x c1, Q x -> src c1 = src c -> (pos c + d <= pos c1 <= length (src c))%nat -> ends c1 d' R (f x c1)) ->
  ends c (d + d') R (rx_bind m f c).
Proof.
  intros (c1 & [x|] & Hm & Hs & Hp & Hx) Hf; unfold rx_bind; rewrite Hm; cbn [obind].
  - destruct (Hx x eq_refl) as [Hd HQ]. destruct (Hf x c1 HQ Hs) as (c2 & r & -> & Hs' & Hp' & Hr); [lia|].
    exists c2, r. rewrite Hs in *. split; [done|]. split; [done|]. split; [lia|].
    intros y Hy. destruct (Hr y Hy). split; [lia|done].
  - exists c1, None. done.
Qed.

Lemma ends_weaken {A} c d d' (Q R : A -> Prop) o : ends c d Q o -> (d' <= d)%nat -> (forall x, Q x -> R x) -> ends c d' R o.
Proof.
  intros (c' & r & H1 & H2 & H3 & H4) Hd HQ. exists c', r. split; [done|]. split; [done|]. split; [done|].
  intros x Hx. destruct (H4 x Hx). split; [lia|auto].
Qed.

Lemma ends_from {A} c c1 d e (Q : A -> Prop) o : ends c1 d Q o -> src c1 = src c -> (pos c + e <= pos c1)%nat -> ends c (e + d) Q o.
Proof.
  intros (c' & r & H1 & H2 & H3 & H4) Hs Hp. exists c', r. rewrite Hs in *. split; [done|]. split; [done|]. split; [lia|].
  intros x Hx. destruct (H4 x Hx). split; [lia|auto].
Qed.

Lemma byte_range ch : is_byte (byte ch).
Proof. unfold is_byte, byte. pose proof (N_ascii_bounded ch). lia. Qed.

Lemma advance_spec c : (pos c <= length (src c))%nat ->
  (advance c = (c, -1) /\ peek c = -1 /\ pos c = length (src c)) \/
  exists ch, advance c = (mkRx (src c) (S (pos c)) (error c), byte ch) /\ peek c = byte ch /\ src c !! pos c = Some ch /\ (pos c < length (src c))%nat.
Proof.
  intros Hc. unfold advance, peek. destruct (src c !! pos c) as [ch|] eqn:E; [right|left].
  - exists ch. apply lookup_lt_Some in E as ?. done.
  - split; [done|]. split; [done|]. apply lookup_ge_None in E. lia.
Qed.

Lemma ends_advance {A} c d (Q : A -> Prop) (m : RxCtx -> Z -> outcome (RxCtx * option A)) : (pos c <= length (src c))%nat ->
  (forall ch c1, is_byte ch -> src c1 = src c -> pos c1 = S (pos c) -> (pos c1 <= length (src c))%nat -> ends c1 d Q (m c1 ch)) ->
  ends c (S d) Q (m c (-1)) ->
  ends c (S d) Q (let '(c, ch) := advance c in m c ch).
Proof.
  intros Hc Hm Hend. destruct (advance_spec c Hc) as [(-> & _ & _)|(ch & -> & _ & _ & Hlt)]; [done|].
  apply (ends_from c (mkRx (src c) (S (pos c)) (error c)) d 1); [|done|cbn; lia].
  apply Hm; cbn; try done; try lia. apply byte_range.
Qed.

Lemma ends_skip {A} c d (Q : A -> Prop) (m : RxCtx -> outcome (RxCtx * option A)) : (pos c <= length (src c))%nat ->
  (forall c1, src c1 = src c -> (pos c <= pos c1 <= length (src c))%nat -> (peek c <> -1 -> pos c1 = S (pos c)) -> ends c1 d Q (m c1)) ->
  ends c d Q (m (advance c).1).
Proof.
  intros Hc Hm. destruct (advance_spec c Hc) as [(-> & Hpk & _)|(ch & -> & _ & _ & Hlt)]; cbn [fst].
  - apply Hm; [done|lia|done].
  - apply (ends_from c (mkRx (src c) (S (pos c)) (error c)) d 0); [apply Hm; cbn; done || lia|done|cbn; lia].
Qed.

Lemma class_bytes : Forall is_byte digits /\ Forall is_byte word_bytes /\ Forall is_byte space_bytes.
Proof.
  split_and!; apply list.Forall_forall; unfold word_bytes, digits, space_bytes; intros x;
    rewrite ?elem_of_app, ?elem_of_seqZ, ?elem_of_cons, ?elem_of_nil; unfold is_byte; lia.
Qed.

Lemma add_others_ok l s : Forall is_byte l -> bs_ok s -> bs_ok (add_others l s).
Proof. intros Hl Hs. unfold add_others. by apply bs_union_spec. Qed.

Lemma escape_runs c p s : (pos c <= length (src c))%nat -> bs_ok s -> ends c 1 bs_ok (parse_escape_into p s c).
Proof.
  intros Hc Hs. destruct class_bytes as (B1 & B2 & B3). unfold parse_escape_into. apply ends_advance; [done| |by apply ends_fail].
  intros ch c1 Hch Hc1 _ Hp. destruct (Z.ltb_spec ch 0); [unfold is_byte in Hch; lia|]. rewrite <- Hc1 in Hp.
  repeat match goal with |- ends _ _ _ (if ?b then _ else _) => destruct b end;
    lazymatch goal with
    | |- ends _ _ _ (rx_fail _ _ _) => by apply ends_fail
    | |- ends _ _ _ (rx_ret (add_all _ _) _) => apply ends_ret; [done|by apply add_all_spec]
    | |- ends _ _ _ (rx_ret (add_others _ _) _) => apply ends_ret; [done|by apply add_others_ok]
    | |- ends _ _ _ (rx_ret (bs_add _ _) _) => apply ends_ret; [done|apply bs_ok_add; [done|first [done|unfold is_byte; lia]]]
    end.
Qed.

Lemma range_runs c p s : (pos c <= length (src c))%nat -> bs_ok s -> ends c 1 bs_ok (parse_range p s c).
Proof.
  intros Hc Hs. unfold parse_range.
  assert (H : forall c0, (pos c0 <= length (src c0))%nat -> ends c0 1 bs_ok (let '(c, rhs) := advance c0 in
      if rhs =? chr "\" then rx_bind (parse_escape_into (pos c0) bs_clear) (fun _ => rx_fail (pos c0) EscapeInRange) c
      else if (first_member s <? 0) || (rhs <? 0) then rx_fail p MalformedRange c
        else if rhs <? first_member s then rx_fail p (EmptyRange (first_member s) rhs) c else rx_ret (bs_add_range bs_clear (first_member s) rhs) c)).
  { intros c0 H0. apply ends_advance; [done| |destruct (Z.eqb_spec (-1) (chr "\")); [done|]; rewrite orb_true_r; by apply ends_fail].
    intros ch c1 Hch Hc1 _ Hp. rewrite <- Hc1 in Hp. destruct (ch =? chr "\").
    { apply (ends_weaken c1 (1 + 0) 0 bs_ok bs_ok); [|lia|done]. apply (ends_bind _ _ _ bs_ok); [by apply escape_runs, bs_ok_clear|].
      intros x c2 _ E ?. apply ends_fail. rewrite E. lia. }
    destruct (Z.ltb_spec (first_member s) 0); [by apply ends_fail|]. destruct (Z.ltb_spec ch 0); [by apply ends_fail|]. cbn [orb].
    destruct (Z.ltb_spec ch (first_member s)); [by apply ends_fail|]. apply ends_ret; [done|].
    unfold bs_add_range. apply (add_all_spec (seqZ _ _)); [|apply bs_ok_clear].
    apply list.Forall_forall. intros x Hx%elem_of_seqZ. unfold is_byte in *.
    destruct (Z.ltb_spec (first_member s) 0), (Z.ltb_spec 255 ch); lia. }
  destruct (advance_spec c Hc) as [(-> & _ & Hp)|(ch & -> & _ & _ & Hlt)]; cbv zeta; [by apply H|].
  apply (ends_weaken c (1 + 1) 1 bs_ok bs_ok); [|lia|done].
  apply (ends_from c (mkRx (src c) (S (pos c)) (error c)) 1 1); [apply H; cbn; lia|done|cbn; lia].
Qed.

Lemma elem_runs c p : (pos c <= length (src c))%nat -> ends c 1 bs_ok (parse_elem p c).
Proof.
  intros Hc. unfold parse_elem. cbv zeta. apply ends_advance; [done| |by apply ends_fail].
  intros ch c1 Hch Hc1 _ Hp. rewrite <- Hc1 in Hp. destruct (ch <? 0); [by apply ends_fail|].
  apply (ends_weaken c1 (0 + 0) 0 bs_ok bs_ok); [|lia|done]. apply (ends_bind _ _ _ bs_ok).
  - destruct (ch =? chr "\").
    + apply (ends_weaken _ 1 0 bs_ok bs_ok); [by apply escape_runs, bs_ok_clear|lia|done].
    + by apply ends_ret, bs_ok_add; [|apply bs_ok_clear|].
  - intros x c2 Hx E ?. destruct (range_follows c2); [|apply ends_ret; [rewrite E; lia|done]].
    apply (ends_weaken _ 1 0 bs_ok bs_ok); [apply range_runs; [rewrite E; lia|done]|lia|done].
Qed.

Lemma class_loop_runs fuel : forall c p s, (pos c <= length (src c) < pos c + fuel)%nat -> bs_ok s ->
  ends c 0 bs_ok (class_loop fuel p s c).
Proof.
  induction fuel as [|fuel IH]; intros c p s [Hc Hk] Hs; [lia|]. cbn [class_loop].
  destruct (peek c =? chr "]"); [by apply ends_ret|].
  apply (ends_weaken c (1 + 0) 0 bs_ok bs_ok); [|lia|done]. apply (ends_bind _ _ _ bs_ok); [by apply elem_runs|].
  intros x c1 Hx E Hp. apply IH; [rewrite E; lia|by apply bs_union_spec].
Qed.

Lemma class_runs c : (pos c <= length (src c))%nat -> ends c 0 node_ok (parse_class c).
Proof.
  intros Hc. unfold parse_class. cbv zeta.
  assert (H : forall c0 b, src c0 = src c -> (pos c <= pos c0 <= length (src c))%nat ->
    ends c0 0 node_ok (rx_bind (class_loop (S (length (src c0))) (pos c - 1) bs_clear)
      (fun cls c => rx_ret (R_CLASS (if b : bool then bs_invert cls else cls)) (advance c).1) c0)).
  { intros c0 b E Hp. apply (ends_bind _ 0 0 bs_ok); [apply class_loop_runs; [rewrite E; lia|apply bs_ok_clear]|].
    intros x c1 Hx E1 Hp1. rewrite <- E1 in Hp1. apply (ends_skip _ _ _ (fun c => rx_ret _ c)); [lia|].
    intros c2 E2 Hp2 _. apply ends_ret; [rewrite E2; lia|]. destruct b; cbn; auto using bs_ok_invert. }
  destruct (peek c =? chr "^"); [|exact (H c false eq_refl ltac:(lia))].
  apply (ends_skip c 0 node_ok (fun c0 => rx_bind (class_loop (S (length (src c0))) (pos c - 1) bs_clear)
      (fun cls c => rx_ret (R_CLASS (bs_invert cls)) (advance c).1) c0)); [done|].
  intros c1 E Hp _. exact (H c1 true E Hp).
Qed.

Section Sub.
Context (sub : rx RegexNode) (f : nat).
Hypothesis sub_runs : forall c, (pos c <= length (src c) < pos c + f)%nat -> ends c 0 node_ok (sub c).

Lemma atom_runs c : (pos c <= length (src c) <= pos c + f)%nat -> ends c 1 node_ok (parse_atom sub c).
Proof.
  intros [Hc Hf]. unfold parse_atom. cbv zeta. apply ends_advance; [done| |].
  2: { exists c, None. split; [done|]. split; [done|]. split; [lia|done]. }
  intros ch c1 Hch Hc1 Hp1 Hp. rewrite <- Hc1 in Hp. destruct (Z.ltb_spec ch 0); [unfold is_byte in Hch; lia|].
  destruct (ch =? chr "(").
  { apply (ends_bind _ 0 0 node_ok); [apply sub_runs; rewrite Hc1 in *; lia|]. intros x c2 Hx E Hp2. rewrite <- E in Hp2.
    destruct (peek c2 =? chr ")"); [|apply ends_fail; lia].
    apply (ends_skip _ _ _ (fun c => rx_ret x c)); [lia|]. intros c3 E3 Hp3 _. apply ends_ret; [rewrite E3; lia|done]. }
  destruct (ch =? chr "["); [by apply class_runs|].
  destruct (ch =? chr "."); [apply ends_ret; [done|apply bs_ok_fill]|].
  destruct (ch =? chr "\").
  { apply (ends_weaken _ (1 + 0) 0 node_ok node_ok); [|lia|done].
    apply (ends_bind _ _ _ bs_ok); [by apply escape_runs, bs_ok_clear|]. intros x c2 Hx E Hp2. apply ends_ret; [rewrite E; lia|done]. }
  repeat match goal with |- ends _ _ _ (if ?b then _ else _) => destruct b end;
    first [by apply ends_fail|apply ends_ret; [done|apply bs_ok_add; [apply bs_ok_clear|done]]].
Qed.

Lemma quant_runs c : (pos c <= length (src c) <= pos c + f)%nat -> ends c 1 node_ok (parse_atom_quant sub c).
Proof.
  intros Hc. unfold parse_atom_quant. apply (ends_bind _ 1 0 node_ok); [by apply atom_runs|].
  intros x c1 Hx E Hp. rewrite <- E in Hp. cbv zeta. destruct (_ || _); [|apply ends_ret; [lia|done]].
  apply (ends_skip _ _ _ (fun c => rx_ret _ c)); [lia|]. intros c2 E2 Hp2 _. apply ends_ret; [rewrite E2; lia|].
  by destruct (peek c1 =? chr "*"), (peek c1 =? chr "+").
Qed.

Lemma peek_end c : (length (src c) <= pos c)%nat -> peek c = -1.
Proof. intros H. unfold peek. destruct (src c !! pos c) eqn:E; [|done]. apply lookup_lt_Some in E. lia. Qed.

Lemma concat_loop_runs fuel : forall c l, (pos c <= length (src c) <= pos c + fuel)%nat -> (fuel <= f)%nat -> node_ok l ->
  ends c 0 node_ok (concat_loop sub fuel l c).
Proof.
  induction fuel as [|fuel IH]; intros c l Hc Hf Hl; cbn [concat_loop].
  - rewrite (peek_end c) by lia. apply ends_ret; [lia|done].
  - destruct (atom_starts_here (peek c)); [|apply ends_ret; [lia|done]].
    apply (ends_weaken c (1 + 0) 0 node_ok node_ok); [|lia|done].
    apply (ends_bind _ _ _ node_ok); [apply quant_runs; lia|]. intros x c1 Hx E Hp. apply IH; [rewrite E; lia|lia|done].
Qed.

Lemma concat_runs c : (pos c <= length (src c) <= pos c + f)%nat -> ends c 0 node_ok (parse_concat sub f c).
Proof.
  intros Hc. unfold parse_concat. destruct (atom_starts_here (peek c)); [|apply ends_ret; [lia|done]].
  apply (ends_weaken c (1 + 0) 0 node_ok node_ok); [|lia|done].
  apply (ends_bind _ _ _ node_ok); [by apply quant_runs|]. intros x c1 Hx E Hp. apply concat_loop_runs; [rewrite E; lia|lia|done].
Qed.

Lemma alt_loop_runs fuel : forall c l, (pos c <= length (src c) <= pos c + fuel)%nat -> (fuel <= f)%nat -> node_ok l ->
  ends c 0 node_ok (alt_loop sub fuel f l c).
Proof.
  induction fuel as [|fuel IH]; intros c l Hc Hf Hl; cbn [alt_loop].
  - rewrite (peek_end c) by lia. apply ends_ret; [lia|done].
  - destruct (Z.eqb_spec (peek c) (chr "|")) as [Hpk|]; [|apply ends_ret; [lia|done]].
    apply (ends_skip c 0 node_ok (rx_bind (parse_concat sub f) (fun rhs => alt_loop sub fuel f (R_ALT l rhs)))); [lia|].
    intros c1 E Hp Hnext. rewrite Hpk in Hnext. specialize (Hnext ltac:(done)).
    apply (ends_bind _ 0 0 node_ok); [apply concat_runs; rewrite E; lia|].
    intros x c2 Hx E2 Hp2. apply IH; [rewrite E2, E in *; lia|lia|done].
Qed.
End Sub.

Lemma alt_runs fuel : forall c, (pos c <= length (src c) < pos c + fuel)%nat -> ends c 0 node_ok (parse_alt fuel c).
Proof.
  induction fuel as [|fuel IH]; intros c Hc; [lia|]. cbn [parse_alt].
  apply (ends_bind _ 0 0 node_ok); [apply concat_runs; [done|lia]|]. intros x c1 Hx E Hp. apply alt_loop_runs; [done|rewrite E; lia|lia|done].
Qed.

(** The parser returns on every pattern: an error or a tree whose classes are
    well-formed sets, and it has then read the whole pattern. *)
Theorem parse_total p c0 : exists c r, parse_pattern p c0 = Ok (c, r) /\
  forall t, r = Some t -> node_ok t /\ pos c = length p.
Proof.
  unfold parse_pattern.
  destruct (ends_bind (mkRx p 0 (error c0)) 0 0 node_ok (fun t => node_ok t) (parse_alt (S (length p)))
    (fun tree c => if (pos c =? length (src c))%nat then rx_ret tree c else rx_fail (pos c) (TrailingGarbage (pos c)) c))
    as (c & r & E & Hs & Hp & Hr).
  - apply alt_runs. cbn. lia.
  - intros x c1 Hx E Hp. cbn in *. destruct (pos c1 =? length (src c1))%nat; [apply ends_ret; [rewrite E; lia|done]|apply ends_fail; rewrite E; lia].
  - exists c, r. split; [done|]. intros t Ht. destruct (Hr t Ht) as [_ H]. split; [done|]. subst r.
    unfold rx_bind in E. destruct (parse_alt _ _) as [[c1 [x|]]| |]; try done. cbn in E.
    destruct (Nat.eqb_spec (pos c1) (length (src c1))) as [Heq|]; [|done]. injection E as -> ->. by rewrite Heq, Hs.
Qed.

(** ** A refusal has an error *)

Definition refuses {A} (m : rx A) : Prop := forall c c', m c = Ok (c', None) -> is_Some (error c').

Lemma rx_fail_refuses {A} at_ e c c' : rx_fail (A := A) at_ e c = Ok (c', None) -> is_Some (error c').
Proof. unfold rx_fail, rx_seterr. intros [= <-]. destruct (error c) eqn:E; simpl; [by rewrite E|eauto]. Qed.

Lemma rx_bind_refuses {A B} (m : rx A) (k : A -> rx B) c c' : (forall c', m c = Ok (c', None) -> is_Some (error c')) ->
  (forall x, refuses (k x)) -> rx_bind m k c = Ok (c', None) -> is_Some (error c').
Proof.
  intros Hm Hk. unfold rx_bind. intros ([c1 [x|]] & E & H)%obind_Ok; [by eapply Hk|]. injection H as <-. by apply Hm.
Qed.

Ltac refuse := repeat (cbv beta zeta in *; match goal with
  | H : rx_fail _ _ _ = Ok (_, None) |- _ => exact (rx_fail_refuses _ _ _ _ H)
  | H : rx_ret _ _ = Ok (_, None) |- _ => discriminate H
  | H : (if ?b then _ else _) = Ok _ |- _ => destruct b eqn:?
  | H : (if ?b then _ else _) _ = Ok _ |- _ => destruct b eqn:?
  | H : (let '(_, _) := ?p in _) = Ok _ |- _ => destruct p eqn:?
  | |- refuses _ => intros ?c ?c' ?H
  end).

Lemma escape_refuses p out : refuses (parse_escape_into p out).
Proof. intros c c' H. unfold parse_escape_into in H. refuse. Qed.

Lemma range_refuses here elem : refuses (parse_range here elem).
Proof. intros c c' H. unfold parse_range in H. refuse. refine (rx_bind_refuses _ _ _ _ _ _ H); [|intros x; refuse]. intros c2. apply escape_refuses. Qed.

Lemma elem_refuses start : refuses (parse_elem start).
Proof.
  intros c c' H. unfold parse_elem in H. refuse. refine (rx_bind_refuses _ _ _ _ _ _ H); [| ].
  - intros c2 H2. refuse. by eapply escape_refuses.
  - intros x c2 c3 H2. refuse. by eapply range_refuses.
Qed.

Lemma class_loop_refuses fuel start : forall cls, refuses (class_loop fuel start cls).
Proof.
  induction fuel as [|fuel IH]; intros cls c c' H; cbn [class_loop] in H; refuse; [done|].
  refine (rx_bind_refuses _ _ _ _ _ _ H); [intros c2; apply elem_refuses|intros x; apply IH].
Qed.

Lemma class_refuses : refuses parse_class.
Proof. intros c c' H. unfold parse_class in H. refine (rx_bind_refuses _ _ _ _ _ _ H); [intros c2; apply class_loop_refuses|intros x; refuse]. Qed.

Lemma advance_peek c : (advance c).2 = peek c.
Proof. unfold advance, peek. by destruct (_ !! _). Qed.

Lemma peek_nonneg c : peek c = -1 \/ 0 <= peek c.
Proof. unfold peek. destruct (_ !! _) as [a|]; [right|by left]. unfold byte. lia. Qed.

Section Sub.
Context (sub : rx RegexNode) (Hsub : refuses sub).

(** At the end of the pattern [parse_atom] would fail silently. *)
Lemma atom_refuses c c' : 0 <= peek c -> parse_atom sub c = Ok (c', None) -> is_Some (error c').
Proof.
  intros Hp H. unfold parse_atom in H. rewrite <-advance_peek in Hp. destruct (advance c) as [c1 ch]. simpl in Hp.
  destruct (Z.ltb_spec ch 0); [lia|]. refuse.
  - refine (rx_bind_refuses _ _ _ _ _ _ H); [intros c2; apply Hsub|intros x; refuse].
  - by eapply class_refuses.
  - refine (rx_bind_refuses _ _ _ _ _ _ H); [intros c2; apply escape_refuses|intros x; refuse].
Qed.

Lemma atom_quant_refuses c c' : atom_starts_here (peek c) = true -> parse_atom_quant sub c = Ok (c', None) -> is_Some (error c').
Proof.
  intros Ha H. unfold parse_atom_quant in H. refine (rx_bind_refuses _ _ _ _ _ _ H); [| ].
  - intros c2. apply atom_refuses. destruct (peek_nonneg c) as [E|E]; [by rewrite E in Ha|done].
  - intros x. refuse.
Qed.

Lemma concat_loop_refuses fuel : forall lhs, refuses (concat_loop sub fuel lhs).
Proof.
  induction fuel as [|fuel IH]; intros lhs c c' H; cbn [concat_loop] in H; refuse; [done|].
  refine (rx_bind_refuses _ _ _ _ _ _ H); [intros c2; by apply atom_quant_refuses|intros x; apply IH].
Qed.

Lemma concat_refuses fuel : refuses (parse_concat sub fuel).
Proof.
  intros c c' H. unfold parse_concat in H. refuse.
  refine (rx_bind_refuses _ _ _ _ _ _ H); [intros c2; by apply atom_quant_refuses|intros x; apply concat_loop_refuses].
Qed.

Lemma alt_loop_refuses fuel fuel' : forall lhs, refuses (alt_loop sub fuel fuel' lhs).
Proof.
  induction fuel as [|fuel IH]; intros lhs c c' H; cbn [alt_loop] in H; refuse; [done|].
  refine (rx_bind_refuses _ _ _ _ _ _ H); [intros c2; apply concat_refuses|intros x; apply IH].
Qed.
End Sub.

Lemma alt_refuses fuel : refuses (parse_alt fuel).
Proof.
  induction fuel as [|fuel IH]; intros c c' H; cbn [parse_alt] in H; [done|].
  refine (rx_bind_refuses _ _ _ _ _ _ H); [intros c2; by apply concat_refuses|intros x; by apply alt_loop_refuses].
Qed.

Lemma pattern_refuses p : refuses (parse_pattern p).
Proof. intros c c' H. unfold parse_pattern in H. refine (rx_bind_refuses _ _ _ _ _ _ H); [intros c2; apply alt_refuses|intros x; refuse]. Qed.

(** ** A printer *)

Definition asc (b : Z) : ascii := ascii_of_N (Z.to_N b).
Definition special (b : Z) : bool := (b =? chr "]") || (b =? chr "\") || (b =? chr "^") || (b =? chr "-").
Definition show_byte (b : Z) : cstr :=
  if b =? 0 then ["\"; "0"]%char else if special b then ["\"%char; asc b] else [asc b].
Definition members (s : ByteSet) : list Z := List.filter (bs_has s) (seqZ 0 256).
Definition group (s : cstr) : cstr := "("%char :: s ++ [")"%char].

Fixpoint show (r : RegexNode) : cstr :=
  match r with
  | R_CLASS s => "["%char :: flat_map show_byte (members s) ++ ["]"%char]
  | R_EMPTY => []
  | R_CONCAT a b => group (show a) ++ group (show b)
  | R_ALT a b => group (show a) ++ "|"%char :: group (show b)
  | R_STAR a => group (show a) ++ ["*"%char]
  | R_PLUS a => group (show a) ++ ["+"%char]
  | R_OPT a => group (show a) ++ ["?"%char]
  end.

Lemma byte_asc b : is_byte b -> byte (asc b) = b.
Proof. unfold is_byte, byte, asc. intros Hb. rewrite N_ascii_embedding by lia. lia. Qed.

(** Between what has been read and what follows. *)
Definition ctx (pre post : cstr) : RxCtx := mkRx (pre ++ post) (length pre) None.

Lemma ctx_lookup (pre post : list ascii) : (pre ++ post) !! length pre = head post.
Proof. rewrite lookup_app_r by lia. rewrite Nat.sub_diag. by destruct post. Qed.

Lemma peek_ctx pre c post : peek (ctx pre (c :: post)) = byte c.
Proof. unfold peek. pose proof (ctx_lookup pre (c :: post)) as H. cbn [ctx src pos]. destruct (_ !! _); by simplify_eq/=. Qed.

Lemma peek_ctx_end pre : peek (ctx pre []) = -1.
Proof. apply peek_end. cbn. rewrite app_nil_r. lia. Qed.

Lemma advance_ctx pre c post : advance (ctx pre (c :: post)) = (ctx (pre ++ [c]) post, byte c).
Proof.
  unfold advance. pose proof (ctx_lookup pre (c :: post)) as H. cbn [ctx src pos error]. destruct (_ !! _); simplify_eq/=.
  unfold ctx. rewrite <- app_assoc, length_app, Nat.add_comm. done.
Qed.

(** [m] reads [s] when [post] follows. *)
Definition consumes {A} (m : rx A) (s post : cstr) (x : A) : Prop :=
  forall pre, m (ctx pre (s ++ post)) = Ok (ctx (pre ++ s) post, Some x).

Lemma consumes_bind {A B} (m : rx A) (f : A -> rx B) s t post x y :
  consumes m s (t ++ post) x -> consumes (f x) t post y -> consumes (rx_bind m f) (s ++ t) post y.
Proof. intros Hm Hf pre. unfold rx_bind. rewrite <- app_assoc, Hm. cbn [obind]. by rewrite Hf, <- app_assoc. Qed.

Lemma consumes_ret {A} (x : A) post : consumes (rx_ret x) [] post x.
Proof. intros pre. by rewrite app_nil_r. Qed.

Ltac ctx_step := rewrite ?peek_ctx, ?peek_ctx_end, ?advance_ctx; cbv zeta beta iota; cbn [fst snd].

(** ** Classes *)

Lemma special_first b : is_byte b -> exists c s, show_byte b = c :: s /\ byte c <> chr "]" /\ byte c <> chr "^" /\ byte c <> chr "-".
Proof.
  intros Hb. unfold show_byte. destruct (Z.eqb_spec b 0); [by eexists _, _|].
  destruct (special b) eqn:Hs; [by eexists _, _|]. eexists _, _. split; [done|].
  rewrite byte_asc by done. unfold special in Hs. rewrite !orb_false_iff, !Z.eqb_neq in Hs. tauto.
Qed.

Definition no_dash (post : cstr) : Prop := match post with c :: _ => byte c <> chr "-" | [] => True end.

Lemma no_range pre post : no_dash post -> range_follows (ctx pre post) = false.
Proof.
  intros H. unfold range_follows. destruct post as [|c post]; [by rewrite peek_ctx_end|].
  rewrite peek_ctx. cbn in H. by rewrite (proj2 (Z.eqb_neq _ _) H).
Qed.

Lemma escape_special b p : is_byte b -> special b = true ->
  forall pre post, parse_escape_into p bs_clear (ctx pre (asc b :: post)) = Ok (ctx (pre ++ [asc b]) post, Some (bs_add bs_clear b)).
Proof.
  intros Hb Hs pre post. unfold parse_escape_into. rewrite advance_ctx, byte_asc by done. cbv zeta beta iota.
  unfold special in Hs. rewrite !orb_true_iff, !Z.eqb_eq in Hs. destruct Hs as [[[->| ->]| ->]| ->]; reflexivity.
Qed.

Lemma escape_zero p pre post : parse_escape_into p bs_clear (ctx pre ("0"%char :: post)) = Ok (ctx (pre ++ ["0"%char]) post, Some (bs_add bs_clear 0)).
Proof. unfold parse_escape_into. rewrite advance_ctx. reflexivity. Qed.

Lemma elem_reads b p post : is_byte b -> no_dash post -> consumes (parse_elem p) (show_byte b) post (bs_add bs_clear b).
Proof.
  intros Hb Hd pre. unfold show_byte, parse_elem. destruct (Z.eqb_spec b 0) as [->|Hne].
  - cbn [app]. rewrite advance_ctx. cbv zeta beta iota. change (byte "\" <? 0) with false. change (byte "\" =? chr "\") with true.
    cbv iota. unfold rx_bind. rewrite escape_zero by done. cbn [obind]. rewrite no_range by done. unfold rx_ret. by rewrite <- app_assoc.
  - destruct (special b) eqn:Hs.
    + cbn [app]. rewrite advance_ctx. cbv zeta beta iota. change (byte "\" <? 0) with false. change (byte "\" =? chr "\") with true.
      cbv iota. unfold rx_bind. rewrite escape_special by done. cbn [obind]. rewrite no_range by done. unfold rx_ret. by rewrite <- app_assoc.
    + cbn [app]. rewrite advance_ctx, byte_asc by done. cbv zeta beta iota. unfold is_byte in Hb. destruct (Z.ltb_spec b 0); [lia|].
      assert (b =? chr "\" = false) as -> by (unfold special in Hs; rewrite !orb_false_iff in Hs; tauto).
      unfold rx_bind, rx_ret. cbn [obind]. by rewrite no_range by done.
Qed.

Lemma class_loop_end fuel p s pre post : class_loop fuel p s (ctx pre ("]"%char :: post)) = Ok (ctx pre ("]"%char :: post), Some s).
Proof. destruct fuel; cbn [class_loop]; by rewrite peek_ctx, Z.eqb_refl. Qed.

Lemma class_loop_next fuel p s pre b t :  is_byte b ->
  class_loop (S fuel) p s (ctx pre (show_byte b ++ t)) =
  rx_bind (parse_elem p) (fun elem => class_loop fuel p (bs_union elem s)) (ctx pre (show_byte b ++ t)).
Proof.
  intros Hb. destruct (special_first b Hb) as (c & u & E & H1 & _). cbn [class_loop].
  rewrite E. cbn [app]. rewrite peek_ctx. by rewrite (proj2 (Z.eqb_neq _ _) H1).
Qed.

Lemma flat_map_no_dash l post : Forall is_byte l -> no_dash (flat_map show_byte l ++ "]"%char :: post).
Proof.
  intros [|b l' Hb _]; [done|]. cbn [flat_map].
  destruct (special_first b Hb) as (c & t & -> & H). cbn [app no_dash]. tauto.
Qed.

Lemma fold_cons {A B} (f : A -> B -> A) b l s : fold_left f (b :: l) s = fold_left f l (f s b).
Proof. reflexivity. Qed.

Lemma class_loop_reads l : Forall is_byte l -> forall fuel p s post, (length l <= fuel)%nat ->
  consumes (class_loop fuel p s) (flat_map show_byte l) ("]"%char :: post)
    (fold_left (fun cls b => bs_union (bs_add bs_clear b) cls) l s).
Proof.
  induction 1 as [|b l Hb Hl IH]; intros fuel p s post Hf pre.
  - rewrite app_nil_r. apply class_loop_end.
  - destruct fuel as [|fuel]; [cbn in Hf; lia|]. cbn [flat_map]. rewrite <- app_assoc, class_loop_next by done.
    unfold rx_bind. rewrite elem_reads by (done || by apply flat_map_no_dash). cbn [obind].
    rewrite IH, fold_cons, <- app_assoc by (cbn in Hf; lia). reflexivity.
Qed.

Lemma fold_members (u : ByteSet -> Z -> ByteSet) :
  (forall s b, bs_ok s -> is_byte b -> bs_ok (u s b) /\ forall x, is_byte x -> bs_has (u s b) x = (x =? b) || bs_has s x) ->
  forall l, Forall is_byte l -> forall s, bs_ok s ->
  bs_ok (fold_left u l s) /\ forall x, is_byte x -> bs_has (fold_left u l s) x = bool_decide (x ∈ l) || bs_has s x.
Proof.
  intros Hu l. induction 1 as [|b l Hb Hl IH]; intros s Hs; [done|]. cbn [fold_left].
  destruct (Hu s b Hs Hb) as [U1 U2]. destruct (IH _ U1) as [IH1 IH2]. split; [done|]. intros x Hx. rewrite IH2, U2 by done.
  destruct (Z.eqb_spec x b) as [->|Hne].
  - rewrite (bool_decide_eq_true_2 (b ∈ b :: l)) by (by left). by rewrite orb_true_r.
  - rewrite orb_false_l. f_equal. apply bool_decide_ext. rewrite elem_of_cons. tauto.
Qed.

Lemma union_one s b : bs_ok s -> is_byte b -> bs_ok (bs_union (bs_add bs_clear b) s) /\
  forall x, is_byte x -> bs_has (bs_union (bs_add bs_clear b) s) x = (x =? b) || bs_has s x.
Proof.
  intros Hs Hb. destruct (bs_union_spec (bs_add bs_clear b) s Hs) as [U1 U2]. split; [done|]. intros x Hx.
  rewrite U2, bs_has_add, bs_has_clear, orb_false_r by (done || apply bs_ok_clear). done.
Qed.

Lemma members_in s x : In x (members s) <-> In x (seqZ 0 256) /\ bs_has s x = true.
Proof. exact (filter_In (bs_has s) x (seqZ 0 256)). Qed.

Lemma members_bytes s : Forall is_byte (members s).
Proof.
  apply Stdlib.Lists.List.Forall_forall. intros x [Hx _]%members_in.
  apply list_elem_of_In, elem_of_seqZ in Hx. unfold is_byte. lia.
Qed.

Lemma members_sum s : bs_ok s -> fold_left (fun cls b => bs_union (bs_add bs_clear b) cls) (members s) bs_clear = s.
Proof.
  intros Hs. destruct (fold_members _ union_one (members s) (members_bytes s) bs_clear bs_ok_clear) as [H1 H2].
  apply bs_ext; [done|done|]. intros x Hx. rewrite H2, bs_has_clear, orb_false_r by done.
  apply eq_true_iff_eq. rewrite bool_decide_eq_true, list_elem_of_In. rewrite members_in, <- list_elem_of_In, elem_of_seqZ.
  unfold is_byte in Hx. split; [tauto|]. intros. split; [lia|done].
Qed.

Lemma flat_map_length l : Forall is_byte l -> (length l <= length (flat_map show_byte l))%nat.
Proof.
  induction 1 as [|b l Hb Hl IH]; [done|]. cbn [flat_map length]. rewrite length_app.
  destruct (special_first b Hb) as (c & t & -> & _). cbn. lia.
Qed.

Section Groups.
Context (sub : rx RegexNode).

Definition stops (post : cstr) : Prop := match post with c :: _ => byte c = chr ")" | [] => True end.
Definition no_quant (post : cstr) : Prop :=
  match post with c :: _ => byte c <> chr "*" /\ byte c <> chr "+" /\ byte c <> chr "?" | [] => True end.

Lemma atom_class l s post : Forall is_byte l -> fold_left (fun cls b => bs_union (bs_add bs_clear b) cls) l bs_clear = s ->
  consumes (parse_atom sub) ("["%char :: flat_map show_byte l ++ ["]"%char]) post (R_CLASS s).
Proof.
  intros Hl Hs pre. unfold parse_atom. cbn [app]. rewrite advance_ctx. cbv zeta beta iota.
  change (byte "[" <? 0) with false. change (byte "[" =? chr "(") with false. change (byte "[" =? chr "[") with true. cbv iota.
  unfold parse_class. cbv zeta. rewrite <- app_assoc. cbn [app].
  assert (Hpk : peek (ctx (pre ++ ["["%char]) (flat_map show_byte l ++ "]"%char :: post)) =? chr "^" = false).
  { destruct Hl as [|b l Hb _]; cbn [flat_map app]; [by rewrite peek_ctx|].
    destruct (special_first b Hb) as (c & t & -> & _ & H & _). cbn [app]. rewrite peek_ctx. by apply Z.eqb_neq. }
  rewrite Hpk. unfold rx_bind. rewrite class_loop_reads; [|done|].
  - cbn [obind]. rewrite Hs, advance_ctx. cbn [fst]. unfold rx_ret. by rewrite <- !app_assoc.
  - pose proof (flat_map_length l Hl). cbn [ctx src]. rewrite !length_app. cbn [length]. lia.
Qed.

Lemma atom_group a s post : consumes sub s (")"%char :: post) a -> consumes (parse_atom sub) (group s) post a.
Proof.
  intros Hsub pre. unfold parse_atom, group. cbn [app]. rewrite advance_ctx. cbv zeta beta iota.
  change (byte "(" <? 0) with false. change (byte "(" =? chr "(") with true. cbv iota.
  unfold rx_bind. rewrite <- app_assoc. cbn [app]. rewrite Hsub. cbn [obind]. rewrite peek_ctx. change (byte ")" =? chr ")") with true.
  cbv iota. rewrite advance_ctx. cbn [fst]. unfold rx_ret. do 2 f_equal. by rewrite <- !app_assoc.
Qed.

Lemma quant_none a s post : no_quant post -> consumes (parse_atom sub) s post a -> consumes (parse_atom_quant sub) s post a.
Proof.
  intros Hq Ha pre. unfold parse_atom_quant, rx_bind. rewrite Ha. cbn [obind]. cbv zeta.
  destruct post as [|c post]; [by rewrite peek_ctx_end|]. rewrite peek_ctx. cbn in Hq. destruct Hq as (H1 & H2 & H3).
  by rewrite !(proj2 (Z.eqb_neq _ _)).
Qed.

Lemma quant_some a s q post : byte q = chr "*" \/ byte q = chr "+" \/ byte q = chr "?" ->
  consumes (parse_atom sub) s (q :: post) a ->
  consumes (parse_atom_quant sub) (s ++ [q]) post
    ((if byte q =? chr "*" then R_STAR else if byte q =? chr "+" then R_PLUS else R_OPT) a).
Proof.
  intros Hq Ha pre. unfold parse_atom_quant, rx_bind. rewrite <- app_assoc. cbn [app]. rewrite Ha. cbn [obind]. cbv zeta.
  rewrite peek_ctx, advance_ctx. cbn [fst].
  assert ((byte q =? chr "*") || (byte q =? chr "+") || (byte q =? chr "?") = true) as ->.
  { rewrite !orb_true_iff, !Z.eqb_eq. tauto. }
  unfold rx_ret. by rewrite <- app_assoc.
Qed.

(** The loops end where a group ends; [parse_concat] also at a bar. *)
Definition ends_concat (post : cstr) : Prop := match post with c :: _ => byte c = chr ")" \/ byte c = chr "|" | [] => True end.

Lemma no_atom pre post : ends_concat post -> atom_starts_here (peek (ctx pre post)) = false.
Proof.
  destruct post as [|c post]; [by rewrite peek_ctx_end|]. rewrite peek_ctx. cbn. unfold atom_starts_here. by intros [-> | ->].
Qed.

Lemma concat_loop_stops fuel l post : ends_concat post -> consumes (concat_loop sub fuel l) [] post l.
Proof. intros H pre. rewrite app_nil_r. cbn [app]. destruct fuel; cbn [concat_loop]; by rewrite no_atom. Qed.

Lemma concat_one fuel a s post c t : s = c :: t -> atom_starts_here (byte c) = true -> ends_concat post ->
  consumes (parse_atom_quant sub) s post a -> consumes (parse_concat sub fuel) s post a.
Proof.
  intros -> Hc Hp Ha pre. unfold parse_concat. cbn [app]. rewrite peek_ctx, Hc. unfold rx_bind.
  change (c :: t ++ post) with ((c :: t) ++ post). rewrite Ha. cbn [obind].
  pose proof (concat_loop_stops fuel a post Hp (pre ++ c :: t)) as E. cbn [app] in E. by rewrite E, app_nil_r.
Qed.

Lemma concat_two fuel a b s t post : ends_concat post ->
  consumes (parse_atom_quant sub) (group s) (group t ++ post) a -> consumes (parse_atom_quant sub) (group t) post b ->
  consumes (parse_concat sub (S fuel)) (group s ++ group t) post (R_CONCAT a b).
Proof.
  intros Hp Ha Hb pre. unfold parse_concat. rewrite <- app_assoc.
  assert (forall p r, atom_starts_here (peek (ctx p (group r ++ post))) = true) as Hs1 by (intros; unfold group; cbn [app]; by rewrite peek_ctx).
  assert (forall p r w, atom_starts_here (peek (ctx p (group r ++ w))) = true) as Hs2 by (intros; unfold group; cbn [app]; by rewrite peek_ctx).
  rewrite Hs2. unfold rx_bind at 1. rewrite Ha. cbn [obind concat_loop]. rewrite Hs2. unfold rx_bind. rewrite Hb. cbn [obind].
  pose proof (concat_loop_stops fuel (R_CONCAT a b) post Hp ((pre ++ group s) ++ group t)) as E. cbn [app] in E.
  by rewrite E, app_nil_r, <- app_assoc.
Qed.

Lemma alt_loop_stops fuel f l post : stops post -> consumes (alt_loop sub fuel f l) [] post l.
Proof.
  intros H pre. rewrite app_nil_r. cbn [app].
  assert (peek (ctx pre post) =? chr "|" = false) as E.
  { destruct post as [|c post]; [by rewrite peek_ctx_end|]. rewrite peek_ctx. cbn in H. by rewrite H. }
  destruct fuel; cbn [alt_loop]; by rewrite E.
Qed.

Lemma alt_bar fuel f l b t post : stops post -> consumes (parse_concat sub f) t post b ->
  consumes (alt_loop sub (S fuel) f l) ("|"%char :: t) post (R_ALT l b).
Proof.
  intros H Hb pre. cbn [alt_loop app]. rewrite peek_ctx. change (byte "|" =? chr "|") with true. cbv iota.
  rewrite advance_ctx. cbn [fst]. unfold rx_bind. rewrite Hb. cbn [obind].
  pose proof (alt_loop_stops fuel f (R_ALT l b) post H ((pre ++ ["|"%char]) ++ t)) as E. cbn [app] in E.
  by rewrite E, app_nil_r, <- app_assoc.
Qed.
End Groups.

Lemma bind_alt sub fuel s post a : consumes (parse_concat sub fuel) s post a -> stops post ->
  consumes (rx_bind (parse_concat sub fuel) (alt_loop sub fuel fuel)) s post a.
Proof.
  intros Ha Hp. rewrite <- (app_nil_r s). apply consumes_bind with a; [done|]. by apply alt_loop_stops.
Qed.

Lemma group_first s : exists t, group s = "("%char :: t.
Proof. by eexists. Qed.

Lemma show_parses t : node_ok t -> forall fuel post, (length (show t) < fuel)%nat -> stops post ->
  consumes (parse_alt fuel) (show t) post t.
Proof.
  assert (Hgroup : forall a, (forall fuel post, (length (show a) < fuel)%nat -> stops post -> consumes (parse_alt fuel) (show a) post a) ->
    forall fuel post, (length (group (show a)) <= S fuel)%nat -> consumes (parse_atom (parse_alt fuel)) (group (show a)) post a).
  { intros a Ha fuel post Hf. apply atom_group, Ha; [unfold group in Hf; cbn in Hf; rewrite length_app in Hf; cbn in Hf; lia|done]. }
  assert (Hlen : forall s, length (group s) = (2 + length s)%nat) by (intros; unfold group; cbn; rewrite length_app; cbn; lia).
  assert (Hstop : forall post, stops post -> ends_concat post /\ no_quant post).
  { intros [|c post]; [done|]. cbn. intros H. rewrite !H. auto. }
  assert (Hquant : forall a q r, byte q = chr "*" \/ byte q = chr "+" \/ byte q = chr "?" ->
    (if byte q =? chr "*" then R_STAR else if byte q =? chr "+" then R_PLUS else R_OPT) a = r ->
    (forall fuel post, (length (show a) < fuel)%nat -> stops post -> consumes (parse_alt fuel) (show a) post a) ->
    forall fuel post, (length (group (show a) ++ [q]) < fuel)%nat -> stops post ->
    consumes (parse_alt fuel) (group (show a) ++ [q]) post r).
  { intros a q r Hq <- Ha [|fuel] post Hf Hp; [lia|]. cbn [parse_alt]. rewrite length_app, Hlen in Hf. cbn [length] in Hf.
    apply bind_alt; [|done]. apply (concat_one _ _ _ _ _ "("%char (show a ++ [")"%char] ++ [q])); [unfold group; cbn; by rewrite <- app_assoc|done|by apply Hstop|].
    apply quant_some; [done|]. apply Hgroup; [done|rewrite Hlen; lia]. }
  induction t as [s|a IHa b IHb|a IHa b IHb|a IHa|a IHa|a IHa|]; intros Hok fuel post Hf Hp; cbn [show node_ok] in *;
    try (by apply (Hquant a); auto); destruct fuel as [|fuel]; try lia; cbn [parse_alt].
  - apply bind_alt; [|done]. eapply concat_one; [done|done|by apply Hstop|]. apply quant_none; [by apply Hstop|].
    apply atom_class; [apply members_bytes|by apply members_sum].
  - destruct Hok as [Ha Hb]. rewrite length_app, !Hlen in Hf. destruct fuel as [|fuel]; [lia|].
    apply bind_alt; [|done]. apply concat_two; [by apply Hstop| |].
    + apply quant_none; [done|]. apply Hgroup; [auto|rewrite Hlen; lia].
    + apply quant_none; [by apply Hstop|]. apply Hgroup; [auto|rewrite Hlen; lia].
  - destruct Hok as [Ha Hb]. rewrite length_app in Hf. cbn [length] in Hf. rewrite !Hlen in Hf. destruct fuel as [|fuel]; [lia|].
    apply consumes_bind with a.
    + eapply concat_one; [done|done|by right|]. apply quant_none; [done|]. apply Hgroup; [auto|rewrite Hlen; lia].
    + apply alt_bar; [done|]. eapply concat_one; [done|done|by apply Hstop|].
      apply quant_none; [by apply Hstop|]. apply Hgroup; [auto|rewrite Hlen; lia].
  - apply bind_alt; [|done]. intros pre. unfold parse_concat. cbn [app]. rewrite no_atom by (by apply Hstop).
    by rewrite app_nil_r.
Qed.

(** The pattern is a C string: it has no zero byte. *)
Definition no_nul (s : cstr) : Prop := forall c, In c s -> byte c <> 0.

Lemma no_nul_app s t : no_nul s -> no_nul t -> no_nul (s ++ t).
Proof. intros Hs Ht c [H|H]%in_app_iff; auto. Qed.

Lemma no_nul_cons c s : byte c <> 0 -> no_nul s -> no_nul (c :: s).
Proof. intros Hc Hs d [<-|H]; auto. Qed.

Lemma no_nul_nil : no_nul [].
Proof. intros c []. Qed.

Lemma no_nul_group s : no_nul s -> no_nul (group s).
Proof. intros Hs. apply no_nul_cons; [done|]. apply no_nul_app; [done|]. by apply no_nul_cons; [|apply no_nul_nil]. Qed.

Lemma no_nul_bytes l : Forall is_byte l -> no_nul (flat_map show_byte l).
Proof.
  induction 1 as [|b l Hb _ IH]; [apply no_nul_nil|]. cbn [flat_map]. apply no_nul_app; [|done].
  unfold show_byte. destruct (Z.eqb_spec b 0); [|destruct (special b)]; repeat (apply no_nul_cons; [first [done|by rewrite byte_asc]|]); apply no_nul_nil.
Qed.

Lemma show_no_nul t : no_nul (show t).
Proof.
  induction t; cbn [show]; repeat first [assumption | apply no_nul_nil | apply no_nul_cons; [done|] | apply no_nul_bytes, members_bytes
    | apply no_nul_app | apply no_nul_group; done].
Qed.

(** C34: Every regular expression can be written as a C string, and the parser
    reads it back: printing a tree whose classes are well-formed byte sets
    gives a pattern without zero bytes that parses, without error, to the same
    tree. *)
Theorem regex_parse_show t c0 : node_ok t -> error c0 = None ->
  no_nul (show t) /\ parse_pattern (show t) c0 = Ok (mkRx (show t) (length (show t)) None, Some t).
Proof.
  intros Ht He. split; [apply show_no_nul|]. unfold parse_pattern, rx_bind. rewrite He.
  pose proof (show_parses t Ht (S (length (show t))) [] ltac:(lia) I []) as H. cbn [app] in H. rewrite app_nil_r in H.
  change (mkRx (show t) 0 None) with (ctx [] (show t)). rewrite H. cbn [obind].
  unfold ctx. cbn [pos src]. rewrite app_nil_r, Nat.eqb_refl. done.
Qed.

Lemma regex_parse_show_witness :
  parse_pattern (show (R_CONCAT (R_STAR (R_CLASS (bs_add bs_clear 97))) (R_CLASS (bs_add bs_clear 0)))) no_error =
  Ok (mkRx (lit "(([a])*)([\0])") 14 None, Some (R_CONCAT (R_STAR (R_CLASS (bs_add bs_clear 97))) (R_CLASS (bs_add bs_clear 0)))).
Proof.
  apply (regex_parse_show (R_CONCAT (R_STAR (R_CLASS (bs_add bs_clear 97))) (R_CLASS (bs_add bs_clear 0))) no_error).
  - split; apply bs_ok_add; (apply bs_ok_clear || (unfold is_byte; lia)).
  - reflexivity.
Defined.
