(* ===== verification/RegexFacts.v ===== *)
(** * The automaton of a pattern accepts its language

    The hash table of the subset construction finds every state from the home
    bucket of its hash without crossing a free bucket; the construction follows
    the paths of Thompson's automaton; so the matcher accepts the language of
    the pattern. *)
From Stdlib Require Import Ascii.
From S2P Require Import Prelude NuwanMap MirRegex RegexNfa RegexSets.

Section Probing.
Context (M : Z).
Hypothesis HM : exists k, 0 <= k /\ M = 2 ^ k.

Lemma M_pos : 0 < M.
Proof. destruct HM as (k & Hk & ->). by apply Z.pow_pos_nonneg. Qed.

Lemma land_mask_M x : Z.land x (M - 1) = x mod M.
Proof. destruct HM as (k & Hk & ->). rewrite <- Z.land_ones by done. by rewrite Z.ones_equiv. Qed.

Definition at_ (h : Z) (d : nat) : Z := (h + Z.of_nat d) mod M.

Lemma at_bound h d : 0 <= at_ h d < M.
Proof. apply Z.mod_pos_bound, M_pos. Qed.

Lemma at_succ h d : Z.land (at_ h d + 1) (M - 1) = at_ h (S d).
Proof. rewrite land_mask_M. unfold at_. rewrite Zplus_mod_idemp_l. f_equal. lia. Qed.

Lemma at_home h : Z.land h (M - 1) = at_ h 0.
Proof. rewrite land_mask_M. unfold at_. f_equal. lia. Qed.

Lemma at_onto h p : 0 <= p < M -> exists d, (Z.of_nat d < M) /\ at_ h d = p.
Proof.
  intros Hp. pose proof M_pos. exists (Z.to_nat ((p - h) mod M)). pose proof (Z.mod_pos_bound (p - h) M M_pos).
  split; [lia|]. unfold at_. rewrite Z2Nat.id by lia. rewrite Zplus_mod_idemp_r. replace (h + (p - h)) with p by lia.
  by apply Z.mod_small.
Qed.

Definition slot (nb : list (option nat)) (h : Z) (d : nat) : option (option nat) := nb !! Z.to_nat (at_ h d).

Definition used_bucket (e : option nat) : bool := match e with Some _ => true | None => false end.

(** The states of hashes [hs] are in the table. *)
Record table_ok (nb : list (option nat)) (hs : list Z) : Prop := {
  tb_len : Z.of_nat (length nb) = M;
  tb_in : forall k i, nb !! k = Some (Some i) -> (i < length hs)%nat;
  tb_at : forall i h, hs !! i = Some h -> exists d, slot nb h d = Some (Some i) /\ forall d', (d' < d)%nat -> exists j, slot nb h d' = Some (Some j);
  tb_count : count used_bucket nb = Z.of_nat (length hs)
}.

Lemma slot_some nb hs h d : table_ok nb hs -> exists e, slot nb h d = Some e.
Proof. intros H. pose proof (tb_len _ _ H). pose proof (at_bound h d). apply lookup_lt_is_Some_2. lia. Qed.

Lemma count_all (nb : list (option nat)) : (forall k, nb !! k <> Some None) -> count used_bucket nb = Z.of_nat (length nb).
Proof.
  induction nb as [|e nb IH]; intros H; [done|]. rewrite count_cons. cbn [length].
  rewrite IH; [|intros k; apply (H (S k))]. destruct e; [cbn; lia|]. by destruct (H 0%nat).
Qed.

(** The first free bucket from the home of [h]. *)
Lemma bucket_first_free nb hs h : table_ok nb hs -> Z.of_nat (length hs) < M ->
  exists d, Z.of_nat d < M /\ slot nb h d = Some None /\ forall d', (d' < d)%nat -> exists j, slot nb h d' = Some (Some j).
Proof.
  intros H Hlt. pose proof (tb_len _ _ H).
  assert (Hscan : forall n, (exists d, (d < n)%nat /\ slot nb h d = Some None /\ forall d', (d' < d)%nat -> exists j, slot nb h d' = Some (Some j)) \/
    forall d', (d' < n)%nat -> exists j, slot nb h d' = Some (Some j)).
  { induction n as [|n [(d & Hd & H1)|Hb]]; [right; lia|left; exists d; split; [lia|done]|].
    destruct (slot_some nb hs h n H) as ([j|] & He).
    - right. intros d' Hd'. destruct (decide (d' = n)) as [->|]; [by exists j|apply Hb; lia].
    - left. exists n. split; [lia|done]. }
  destruct (Hscan (Z.to_nat M)) as [(d & Hd & H1)|Hb]; [exists d; split; [lia|done]|].
  pose proof (count_all nb) as Hc. rewrite (tb_count _ _ H) in Hc. rewrite Hc in Hlt; [lia|].
  intros k Hk. pose proof (lookup_lt_Some _ _ _ Hk). destruct (at_onto h (Z.of_nat k)) as (d & Hd & Hat); [lia|].
  destruct (Hb d ltac:(lia)) as [j Hj]. unfold slot in Hj. rewrite Hat, Nat2Z.id in Hj. congruence.
Qed.

Lemma free_bucket_spec nb h d : slot nb h d = Some None -> forall fuel d0, (d0 <= d)%nat -> (d - d0 <= fuel)%nat ->
  (forall d', (d' < d)%nat -> exists j, slot nb h d' = Some (Some j)) ->
  free_bucket fuel nb (M - 1) (at_ h d0) = Ok (at_ h d).
Proof.
  intros Hfree. induction fuel as [|fuel IH]; intros d0 Hle Hf Hbusy; cbn [free_bucket].
  - assert (d0 = d) as -> by lia. unfold slot in Hfree. by rewrite Hfree.
  - destruct (decide (d0 = d)) as [->|Hne]; [unfold slot in Hfree; by rewrite Hfree|].
    destruct (Hbusy d0 ltac:(lia)) as (j & Hj). unfold slot in Hj. rewrite Hj. cbn [of_option obind].
    rewrite at_succ. apply IH; [lia|lia|done].
Qed.

(** A new state takes the first free bucket. *)
Lemma table_insert nb hs h d : table_ok nb hs -> slot nb h d = Some None ->
  (forall d', (d' < d)%nat -> exists j, slot nb h d' = Some (Some j)) ->
  table_ok (<[Z.to_nat (at_ h d) := Some (length hs)]> nb) (hs ++ [h]).
Proof.
  intros H Hfree Hbusy. set (p := Z.to_nat (at_ h d)). unfold slot in Hfree. fold p in Hfree.
  assert (Hp : (p < length nb)%nat) by (by apply lookup_lt_Some in Hfree).
  assert (Hkeep : forall h' d' j, slot nb h' d' = Some (Some j) -> slot (<[p := Some (length hs)]> nb) h' d' = Some (Some j)).
  { intros h' d' j Hj. unfold slot in *. rewrite list_lookup_insert_ne; [done|]. intros E. rewrite <- E in Hj. congruence. }
  constructor.
  - rewrite length_insert. apply (tb_len _ _ H).
  - intros k i Hk. rewrite length_app, Nat.add_1_r. destruct (decide (k = p)) as [->|Hne].
    + rewrite list_lookup_insert_eq in Hk by done. injection Hk as <-. lia.
    + rewrite list_lookup_insert_ne in Hk by done. apply (tb_in _ _ H) in Hk. lia.
  - intros i h' Hi. apply lookup_app_Some in Hi as [Hi|[Hge Hi]].
    + destruct (tb_at _ _ H i h' Hi) as (d' & Hd' & Hb). exists d'. split; [by apply Hkeep|].
      intros e He. destruct (Hb e He) as [j Hj]. exists j. by apply Hkeep.
    + apply list_lookup_singleton_Some in Hi as [Hi ->]. assert (i = length hs) as -> by lia. exists d. split.
      * unfold slot. fold p. by apply list_lookup_insert_eq.
      * intros e He. destruct (Hbusy e He) as [j Hj]. exists j. by apply Hkeep.
  - rewrite (count_insert _ _ _ _ _ Hfree), length_app. cbn [length]. pose proof (tb_count _ _ H). cbn [used_bucket b2z]. lia.
Qed.

Lemma table_empty : table_ok (repeat None (Z.to_nat M)) [].
Proof.
  pose proof M_pos. constructor.
  - rewrite repeat_length. lia.
  - intros k i Hk. apply list_elem_of_lookup_2, list_elem_of_In, repeat_spec in Hk. done.
  - done.
  - cbn. generalize (Z.to_nat M). intros n. induction n as [|n IH]; [done|]. cbn [repeat]. rewrite count_cons, IH. done.
Qed.
End Probing.

(** ** The subset construction follows the paths of the automaton *)

(** ** The table of states *)

Definition hashes (ss : list DfaState) : list Z := map hash ss.

Section Find.
Context (M : Z).
Hypothesis HM : exists k, 0 <= k /\ M = 2 ^ k.

(** The loop ends at the state of the set, or at the free bucket, and then no state has the set. *)
Lemma dfa_probe_spec d set h e : bucket_mask d = M - 1 -> table_ok M (bucket d) (hashes (dstates d)) ->
  slot M (bucket d) h e = Some None -> (forall d', (d' < e)%nat -> exists j, slot M (bucket d) h d' = Some (Some j)) ->
  forall fuel d0, (d0 <= e)%nat -> (e - d0 <= fuel)%nat ->
  (forall d' i s, (d' < d0)%nat -> slot M (bucket d) h d' = Some (Some i) -> dstates d !! i = Some s -> hash s = h -> nset s <> set) ->
  exists r, dfa_probe fuel d set h (at_ M h d0) = Ok r /\
    match r with
    | inl idx => exists s, dstates d !! idx = Some s /\ nset s = set
    | inr k => k = at_ M h e /\ forall i s, dstates d !! i = Some s -> hash s = h -> nset s <> set
    end.
Proof.
  intros Hmask Ht Hfree Hbusy.
  assert (Hend : forall n, (n = e)%nat -> (forall d' i s, (d' < n)%nat -> slot M (bucket d) h d' = Some (Some i) -> dstates d !! i = Some s -> hash s = h -> nset s <> set) ->
    forall i s, dstates d !! i = Some s -> hash s = h -> nset s <> set).
  { intros n -> Hno i s Hi Hh. destruct (tb_at _ _ _ Ht i h) as (d' & Hd' & Hb).
    { unfold hashes. rewrite list_lookup_fmap, Hi. cbn. by rewrite Hh. }
    destruct (Nat.lt_trichotomy d' e) as [Hlt|[->|Hgt]]; [by apply (Hno d' i)|congruence|].
    destruct (Hb e Hgt) as [j Hj]. congruence. }
  induction fuel as [|fuel IH]; intros d0 Hle Hf Hno; cbn [dfa_probe].
  - assert (d0 = e) as -> by lia. unfold slot in Hfree. rewrite Hfree. exists (inr (at_ M h e)). split; [done|]. split; [done|]. by apply (Hend e).
  - destruct (decide (d0 = e)) as [->|Hne].
    { unfold slot in Hfree. rewrite Hfree. exists (inr (at_ M h e)). split; [done|]. split; [done|]. by apply (Hend e). }
    destruct (Hbusy d0 ltac:(lia)) as (j & Hj). unfold slot in Hj. rewrite Hj. cbn [of_option obind].
    pose proof (tb_in _ _ _ Ht _ _ Hj) as Hlt. unfold hashes in Hlt. rewrite length_map in Hlt.
    destruct (lookup_lt_is_Some_2 _ _ Hlt) as [s Hs]. rewrite Hs. cbn [of_option obind].
    destruct (Z.eqb_spec (hash s) h) as [Heq|Hneq]; [destruct (bool_decide_reflect (nset s = set)) as [Hset|Hset]|]; cbn [andb].
    + exists (inl j). split; [done|]. by exists s.
    + rewrite Hmask, (at_succ M HM). apply IH; [lia|lia|]. intros d' i s' Hd' Hsl Hi Hh.
      destruct (decide (d' = d0)) as [->|]; [unfold slot in Hsl; rewrite Hj in Hsl; simplify_eq; done|apply (Hno d' i); [lia|done..]].
    + rewrite Hmask, (at_succ M HM). apply IH; [lia|lia|]. intros d' i s' Hd' Hsl Hi Hh.
      destruct (decide (d' = d0)) as [->|]; [unfold slot in Hsl; rewrite Hj in Hsl; simplify_eq; done|apply (Hno d' i); [lia|done..]].
Qed.

Lemma rehash_fold l : forall off pre nb, table_ok M nb (hashes pre) -> off = length pre -> Z.of_nat (length pre + length l) < M ->
  exists nb', ofold (fun p nb => rehash_state (M - 1) p.1 p.2 nb) (imap (fun i s => ((off + i)%nat, s)) l) nb = Ok nb' /\
    table_ok M nb' (hashes (pre ++ l)).
Proof.
  induction l as [|s l IH]; intros off pre nb Ht Hoff Hlt; cbn [imap ofold].
  { exists nb. by rewrite app_nil_r. }
  unfold rehash_state. cbn [fst snd]. cbn [length] in Hlt.
  destruct (bucket_first_free M HM nb (hashes pre) (hash s) Ht) as (d & Hd & Hfree & Hbusy); [unfold hashes; rewrite length_map; lia|].
  pose proof (tb_len _ _ _ Ht).
  rewrite (at_home M HM), (free_bucket_spec M HM nb (hash s) d Hfree) by (done || lia). cbn [obind].
  pose proof (table_insert M nb (hashes pre) (hash s) d Ht Hfree Hbusy) as Hins.
  destruct (IH (S off) (pre ++ [s]) (<[Z.to_nat (at_ M (hash s) d) := Some (off + 0)%nat]> nb)) as (nb' & E & Hok).
  - unfold hashes in *. rewrite map_app. cbn [map]. rewrite length_map in Hins. by rewrite Hoff, Nat.add_0_r.
  - rewrite length_app. cbn. lia.
  - rewrite length_app. cbn. lia.
  - exists nb'. rewrite <- app_assoc in Hok. split; [|done]. rewrite <- E. f_equal. apply imap_ext. intros i x _. cbn. f_equal. lia.
Qed.
End Find.

Record table (d : Dfa) : Prop := {
  tab_mask : exists k, 0 <= k /\ bucket_mask d + 1 = 2 * 2 ^ k;
  tab_ok : table_ok (bucket_mask d + 1) (bucket d) (hashes (dstates d));
  tab_used : bucket_used d = Z.of_nat (length (dstates d));
  tab_room : bucket_used d * 2 <= bucket_mask d + 1;
  tab_hash : forall i s, dstates d !! i = Some s -> hash s = fnv64_ids (nset s)
}.

Lemma mask_pow d : table d -> exists k, 0 <= k /\ bucket_mask d + 1 = 2 ^ k.
Proof. intros H. destruct (tab_mask d H) as (k & Hk & E). exists (k + 1). split; [lia|]. by rewrite E, Z.pow_add_r, Z.mul_comm by lia. Qed.

Lemma dfa_rehash_spec d c : table d -> (exists k, 0 <= k /\ c = 2 * 2 ^ k) -> bucket_mask d + 1 <= c ->
  Z.of_nat (length (dstates d)) < c ->
  exists d', dfa_rehash c d = Ok d' /\ table d' /\ dstates d' = dstates d /\ bucket_mask d' + 1 = c /\ bucket_used d' = bucket_used d.
Proof.
  intros H (k & Hk & Hc) Hle Hlt. unfold dfa_rehash.
  assert (HM : exists k, 0 <= k /\ c = 2 ^ k) by (exists (k + 1); split; [lia|]; by rewrite Hc, Z.pow_add_r, Z.mul_comm by lia).
  destruct (rehash_fold c HM (dstates d) 0 [] (repeat None (Z.to_nat c)) (table_empty c HM) eq_refl) as (nb & E & Hok); [done|].
  change (fun (i : nat) (s : DfaState) => ((0 + i)%nat, s)) with (@pair nat DfaState) in E. rewrite E. cbn [obind].
  eexists. split; [done|]. cbn [dstates bucket_mask bucket_used]. split; [|split; [done|split; [lia|done]]].
  constructor; cbn [dstates bucket bucket_mask bucket_used]; replace (c - 1 + 1) with c by lia; try apply H.
  - by exists k.
  - done.
  - pose proof (tab_room d H). lia.
Qed.

(** A set is found, or it enters as a new state without transitions. *)
Lemma find_or_add_spec d set acc : table d ->
  exists d' idx, dfa_find_or_add d set acc = Ok (d', idx) /\ table d' /\
    (dstates d' = dstates d /\ (exists s, dstates d !! idx = Some s /\ nset s = set) \/
     dstates d' = dstates d ++ [mkDfaState acc 0 (repeat None 256) set (fnv64_ids set)] /\ idx = length (dstates d) /\
     forall i s, dstates d !! i = Some s -> nset s <> set).
Proof.
  intros H. unfold dfa_find_or_add.
  assert (Hgrow : exists d1, (if bucket_mask d + 1 <=? bucket_used d * 2 then dfa_rehash ((bucket_mask d + 1) * 2) d else Ok d) = Ok d1 /\
    table d1 /\ dstates d1 = dstates d /\ bucket_used d1 * 2 < bucket_mask d1 + 1).
  { destruct (tab_mask d H) as (k & Hk & Hc). pose proof (tab_used d H). pose proof (tab_room d H).
    assert (0 < 2 ^ k) by (apply Z.pow_pos_nonneg; lia).
    destruct (Z.leb_spec (bucket_mask d + 1) (bucket_used d * 2)) as [Hle|Hgt]; [|by exists d].
    destruct (dfa_rehash_spec d ((bucket_mask d + 1) * 2) H) as (d1 & E & G1 & G2 & G3 & G4); [|lia|lia|].
    { exists (k + 1). split; [lia|]. rewrite Hc, Z.pow_add_r by lia. lia. }
    exists d1. split; [done|]. split; [done|]. split; [done|]. rewrite G3, G4. lia. }
  destruct Hgrow as (d1 & -> & H1 & Hst & Hroom). cbn [obind]. rewrite <- Hst. clear H Hst.
  set (h := fnv64_ids set). destruct (mask_pow d1 H1) as (k & Hk & HM).
  assert (Hpow : exists k, 0 <= k /\ bucket_mask d1 + 1 = 2 ^ k) by eauto.
  pose proof (tab_ok d1 H1) as Hok. pose proof (tab_used d1 H1) as Hu.
  destruct (bucket_first_free _ Hpow _ _ h Hok) as (e & He & Hfree & Hbusy); [unfold hashes; rewrite length_map; lia|].
  pose proof (tb_len _ _ _ Hok) as Hlen.
  destruct (dfa_probe_spec _ Hpow d1 set h e ltac:(lia) Hok Hfree Hbusy (length (bucket d1)) 0) as (r & Hr & Hres); [lia|lia|intros; lia|].
  assert (Hhome : Z.land h (bucket_mask d1) = at_ (bucket_mask d1 + 1) h 0) by (rewrite <- (at_home _ Hpow); f_equal; lia).
  rewrite Hhome, Hr. cbn [obind].
  destruct r as [idx|p].
  - exists d1, idx. split; [done|]. split; [done|]. by left.
  - destruct Hres as [-> Hno]. eexists _, _. split; [done|]. split; [|right; split; [done|split; [done|]]].
    + constructor; cbn [dstates bucket bucket_mask bucket_used].
      * apply (tab_mask d1 H1).
      * pose proof (table_insert _ _ _ h e Hok Hfree Hbusy) as Hi. unfold hashes in *. rewrite length_map in Hi. by rewrite map_app.
      * rewrite length_app. cbn. lia.
      * destruct (tab_mask d1 H1) as (k' & _ & Hc). lia.
      * intros i s Hi. apply lookup_app_Some in Hi as [Hi|[_ Hi]]; [by apply (tab_hash d1 H1 i)|].
        by apply list_lookup_singleton_Some in Hi as [_ <-].
    + intros i s Hi Hset. apply (Hno i s Hi); [|done]. by rewrite (tab_hash d1 H1 i s Hi), Hset.
Qed.

(** ** The states are sets, their transitions are moves *)

Lemma repeat_lookup {A} (x : A) n i : (i < n)%nat -> repeat x n !! i = Some x.
Proof. revert i. induction n as [|n IH]; intros [|i] Hi; cbn; try lia; [done|]. apply IH. lia. Qed.

Lemma map_alter {A B} (g : A -> B) (f : A -> A) (l : list A) i : (forall x, g (f x) = g x) -> map g (alter f i l) = map g l.
Proof.
  intros H. revert i. induction l as [|x l IH]; intros [|i]; try done; cbn.
  - by rewrite H.
  - f_equal. apply IH.
Qed.

Lemma table_alter d b t cur : table d -> table (mkDfa (alter (add_trans b t) cur (dstates d)) (bucket d) (bucket_mask d) (bucket_used d)).
Proof.
  intros [H1 H2 H3 H4 H5]. constructor; cbn [dstates bucket bucket_mask bucket_used]; try done.
  - unfold hashes. by rewrite map_alter.
  - by rewrite length_alter.
  - intros i s Hi. destruct (decide (i = cur)) as [->|Hne].
    + rewrite list_lookup_alter_eq in Hi. apply fmap_Some in Hi as (s0 & Hs0 & ->). exact (H5 cur s0 Hs0).
    + rewrite list_lookup_alter_ne in Hi by done. by apply (H5 i).
Qed.

Section Construction.
Context (nfa : Nfa).
Notation st := (states nfa).
Hypothesis Hok : nfa_ok st.

Record state_ok (s : DfaState) : Prop := {
  so_set : sset (length st) (nset s);
  so_closed : closed st (nset s);
  so_accept : accepting s = bool_decide (match_state nfa ∈ nset s);
  so_trans : length (trans s) = 256%nat;
  so_ntrans : ntrans s = Z.of_nat (length (omap (fun o : option nat => o) (trans s)))
}.

(** Every state but the first is the target of an earlier one. *)
Definition linked (ss : list DfaState) : Prop := forall j, (0 < j < length ss)%nat ->
  exists i s b, (i < j)%nat /\ ss !! i = Some s /\ trans s !! b = Some (Some j).

Definition target_ok (ss : list DfaState) (s : DfaState) (b : Z) : Prop :=
  exists o, trans s !! Z.to_nat b = Some o /\
    match o with
    | None => forall p t, p ∈ nset s -> ~ byte_edge st b p t
    | Some j => exists s', ss !! j = Some s' /\ forall x, x ∈ nset s' <-> exists p t, p ∈ nset s /\ byte_edge st b p t /\ eps st t x
    end.

(** The transitions before the byte [b0] of the state [cur] are in place, the others empty. *)
Record upto (d : Dfa) (cur : nat) (b0 : Z) : Prop := {
  up_table : table d;
  up_states : forall i s, dstates d !! i = Some s -> state_ok s;
  up_distinct : NoDup (map nset (dstates d));
  up_done : forall i s b, dstates d !! i = Some s -> is_byte b -> (i < cur)%nat \/ i = cur /\ b < b0 -> target_ok (dstates d) s b;
  up_fresh : forall i s b, dstates d !! i = Some s -> is_byte b -> (cur < i)%nat \/ i = cur /\ b0 <= b -> trans s !! Z.to_nat b = Some None
}.

Lemma target_mono ss ss' s b : (forall i s, ss !! i = Some s -> exists s', ss' !! i = Some s' /\ nset s' = nset s) ->
  target_ok ss s b -> target_ok ss' s b.
Proof.
  intros Hk (o & Ho & H). exists o. split; [done|]. destruct o as [j|]; [|done].
  destruct H as (s' & Hj & Hx). destruct (Hk j s' Hj) as (s2 & H2 & E). exists s2. split; [done|]. intros x. rewrite E. apply Hx.
Qed.

Definition new_state (set : list nat) : DfaState :=
  mkDfaState (bool_decide (match_state nfa ∈ set)) 0 (repeat None 256) set (fnv64_ids set).

Lemma new_state_ok set : sset (length st) set -> closed st set -> state_ok (new_state set).
Proof. constructor; try done. Qed.

Lemma new_state_trans set b : is_byte b -> trans (new_state set) !! Z.to_nat b = Some None.
Proof. intros Hb. unfold is_byte in Hb. cbn [new_state trans]. apply repeat_lookup. lia. Qed.

(** Adding a state, or finding it. *)
Lemma add_state_spec d set cur b0 : upto d cur b0 -> sset (length st) set -> closed st set -> is_byte b0 -> (cur < length (dstates d))%nat ->
  exists d' idx, dfa_find_or_add d set (bool_decide (match_state nfa ∈ set)) = Ok (d', idx) /\ upto d' cur b0 /\
    (exists s, dstates d' !! idx = Some s /\ nset s = set) /\ dstates d `prefix_of` dstates d' /\
    (length (dstates d') = length (dstates d) \/ length (dstates d') = S (length (dstates d)) /\ idx = length (dstates d)).
Proof.
  intros [Ht Hs Hd Hdone Hfresh] Hset Hcl Hb0 Hcur.
  destruct (find_or_add_spec d set (bool_decide (match_state nfa ∈ set)) Ht) as (d' & idx & -> & Ht' & [[Heq Hfound]|(Heq & -> & Hno)]);
    exists d'; eexists; (split; [done|]); rewrite Heq.
  - split; [|split; [done|split; [done|by left]]]. constructor; rewrite ?Heq; done.
  - fold (new_state set) in *. split; [|split; [|split; [by eexists|right; split; [rewrite length_app; cbn; lia|done]]]].
    2: { exists (new_state set). split; [|done]. by rewrite lookup_app_r, Nat.sub_diag by lia. }
    assert (Hcase : forall i s, (dstates d ++ [new_state set]) !! i = Some s -> dstates d !! i = Some s \/ i = length (dstates d) /\ s = new_state set).
    { intros i s Hi. apply lookup_app_Some in Hi as [Hi|[Hge Hi]]; [by left|right]. apply list_lookup_singleton_Some in Hi as [Hi <-]. split; [lia|done]. }
    constructor; rewrite ?Heq; try done.
    + intros i s [Hi|[-> ->]]%Hcase; [by apply (Hs i)|by apply new_state_ok].
    + rewrite map_app. cbn [map]. apply list.NoDup_app. split; [done|]. split; [|apply NoDup_singleton].
      intros x Hx ->%list_elem_of_singleton. apply list_elem_of_In, in_map_iff in Hx as (s & Hs' & Hin).
      apply list_elem_of_In, list_elem_of_lookup in Hin as [i Hi]. by apply (Hno i s Hi).
    + intros i s b [Hi|[-> ->]]%Hcase Hb Hlt; [|lia]. apply (target_mono (dstates d)); [|by apply (Hdone i)].
      intros j s' Hj. exists s'. split; [by apply lookup_app_l_Some|done].
    + intros i s b [Hi|[-> ->]]%Hcase Hb Hlt; [by apply (Hfresh i)|]. by apply new_state_trans.
Qed.

Lemma omap_insert (l : list (option nat)) i x : l !! i = Some None ->
  length (omap (fun o => o) (<[i := Some x]> l)) = S (length (omap (fun o => o) l)).
Proof.
  revert i. induction l as [|o l IH]; intros [|i] Hi; try done.
  - injection Hi as ->. done.
  - cbn in Hi |- *. destruct o; cbn; by rewrite IH.
Qed.

(** Recording a transition. *)
Lemma add_trans_spec d cur b idx s0 s1 : upto d cur b -> is_byte b -> dstates d !! cur = Some s0 -> dstates d !! idx = Some s1 ->
  (forall x, x ∈ nset s1 <-> exists p t, p ∈ nset s0 /\ byte_edge st b p t /\ eps st t x) ->
  upto (mkDfa (alter (add_trans b idx) cur (dstates d)) (bucket d) (bucket_mask d) (bucket_used d)) cur (b + 1).
Proof.
  intros [Ht Hs Hd Hdone Hfresh] Hb Hcur Hidx Hmove. pose proof (Hs cur s0 Hcur) as Hso.
  assert (Hat : forall i s, alter (add_trans b idx) cur (dstates d) !! i = Some s ->
    i <> cur /\ dstates d !! i = Some s \/ i = cur /\ s = add_trans b idx s0).
  { intros i s Hi. destruct (decide (i = cur)) as [->|Hne].
    - rewrite list_lookup_alter_eq, Hcur in Hi. injection Hi as <-. by right.
    - rewrite list_lookup_alter_ne in Hi by done. by left. }
  assert (Hkeep : forall i s, dstates d !! i = Some s -> exists s', alter (add_trans b idx) cur (dstates d) !! i = Some s' /\ nset s' = nset s).
  { intros i s Hi. destruct (decide (i = cur)) as [->|Hne].
    - rewrite list_lookup_alter_eq, Hi. by eexists.
    - rewrite list_lookup_alter_ne by done. by exists s. }
  assert (Hlook : forall b', is_byte b' -> b' <> b -> trans (add_trans b idx s0) !! Z.to_nat b' = trans s0 !! Z.to_nat b').
  { intros b' Hb' Hne. cbn [add_trans trans]. apply list_lookup_insert_ne. unfold is_byte in *. lia. }
  constructor; cbn [dstates]; [by apply table_alter| |by rewrite map_alter|..].
  - intros i s [[_ Hi]|[-> ->]]%Hat; [by apply (Hs i)|]. destruct Hso as [H1 H2 H3 H4 H5]. constructor; try done; cbn [add_trans trans ntrans]; [by rewrite length_insert|].
    rewrite omap_insert, H5 by (apply (Hfresh cur); [done|done|lia]). lia.
  - intros i s b' [[Hne Hi]|[-> ->]]%Hat Hb' Hlt.
    + apply (target_mono (dstates d)); [done|]. apply (Hdone i); [done|done|lia].
    + destruct (Z.eq_dec b' b) as [->|Hne].
      * exists (Some idx). split; [cbn [add_trans trans]; apply list_lookup_insert_eq; rewrite (so_trans _ Hso); unfold is_byte in Hb; lia|].
        destruct (Hkeep idx s1 Hidx) as (s' & H' & E). exists s'. split; [done|]. intros x. rewrite E. apply Hmove.
      * destruct (target_mono (dstates d) (alter (add_trans b idx) cur (dstates d)) s0 b') as (o & Ho & H); [done|apply (Hdone cur); [done|done|lia]|].
        exists o. split; [by rewrite Hlook|done].
  - intros i s b' [[Hne Hi]|[-> ->]]%Hat Hb' Hlt; [apply (Hfresh i); [done|done|lia]|].
    rewrite Hlook by (done || lia). apply (Hfresh cur); [done|done|lia].
Qed.

(** States stay, with their sets. *)
Definition grows (d d' : Dfa) : Prop := map nset (dstates d) `prefix_of` map nset (dstates d').

Lemma grows_lookup d d' i s : grows d d' -> dstates d !! i = Some s -> exists s', dstates d' !! i = Some s' /\ nset s' = nset s.
Proof.
  intros Hg Hi. assert (H : map nset (dstates d) !! i = Some (nset s)) by (by rewrite list_lookup_fmap, Hi).
  apply (prefix_lookup_Some _ _ _ _ H) in Hg. rewrite list_lookup_fmap in Hg. apply fmap_Some in Hg as (s' & H1 & H2). by exists s'.
Qed.

Lemma grows_trans d d1 d2 : grows d d1 -> grows d1 d2 -> grows d d2.
Proof. unfold grows. intros H1 H2. by etransitivity. Qed.

Lemma grows_length d d' : grows d d' -> (length (dstates d) <= length (dstates d'))%nat.
Proof. intros Hg. apply prefix_length in Hg. by rewrite !length_map in Hg. Qed.

(** A recorded transition keeps the others and links its target. *)
Lemma linked_add d d1 cur b idx s0 : linked (dstates d) -> upto d1 cur b -> is_byte b -> dstates d `prefix_of` dstates d1 ->
  (cur < length (dstates d))%nat -> dstates d1 !! cur = Some s0 ->
  (length (dstates d1) = length (dstates d) \/ length (dstates d1) = S (length (dstates d)) /\ idx = length (dstates d)) ->
  linked (alter (add_trans b idx) cur (dstates d1)).
Proof.
  intros Hl Hup Hb Hpre Hcur Hs0 Hlen j Hj. rewrite length_alter in Hj.
  pose proof (up_fresh _ _ _ Hup cur s0 b Hs0 Hb ltac:(lia)) as Hn. pose proof (so_trans _ (up_states _ _ _ Hup cur s0 Hs0)) as H256.
  destruct (decide (j < length (dstates d))%nat) as [Hlt|Hge].
  - destruct (Hl j ltac:(lia)) as (i & s & b' & Hij & Hi & Ht). apply (prefix_lookup_Some _ _ _ _ Hi) in Hpre.
    destruct (decide (i = cur)) as [->|Hne].
    + exists cur, (add_trans b idx s), b'. rewrite list_lookup_alter_eq, Hpre. split; [done|]. split; [done|]. cbn [add_trans trans].
      rewrite list_lookup_insert_ne; [done|]. intros <-. rewrite Hpre in Hs0. injection Hs0 as ->. congruence.
    + exists i, s, b'. by rewrite list_lookup_alter_ne.
  - destruct Hlen as [?|[? ->]]; [lia|]. exists cur, (add_trans b (length (dstates d)) s0), (Z.to_nat b).
    rewrite list_lookup_alter_eq, Hs0. split; [lia|]. split; [done|]. cbn [add_trans trans]. assert (j = length (dstates d)) as -> by lia.
    apply list_lookup_insert_eq. unfold is_byte in Hb. lia.
Qed.

Lemma dfa_byte_spec d cur b s0 set : upto d cur b -> is_byte b -> dstates d !! cur = Some s0 -> nset s0 = set ->
  exists d', dfa_byte nfa cur set b d = Ok d' /\ upto d' cur (b + 1) /\ grows d d' /\ (linked (dstates d) -> linked (dstates d')).
Proof.
  intros Hup Hb Hcur <-. pose proof (up_states _ _ _ Hup cur s0 Hcur) as Hso. unfold dfa_byte.
  destruct (move_spec st Hok b (nset s0)) with (nxt := @nil nat) as (nxt & -> & Hs & Hc & Hmem).
  { intros p Hp. by apply (so_set _ Hso). }
  { split; [constructor|]. intros x Hx. by apply elem_of_nil in Hx. }
  { intros p t Hp. by apply elem_of_nil in Hp. }
  cbn [obind]. assert (Hmove : forall x, x ∈ nxt <-> exists p t, p ∈ nset s0 /\ byte_edge st b p t /\ eps st t x).
  { intros x. rewrite Hmem. split; [intros [H|H]; [by apply elem_of_nil in H|done]|by right]. }
  destruct nxt as [|n0 nxt0].
  - exists d. split; [done|]. split; [|by split; [exists []; rewrite app_nil_r|]]. destruct Hup as [Ht Hst Hd Hdone Hfresh]. constructor; try done.
    + intros i s b' Hi Hb' Hlt. destruct (decide (i = cur /\ b' = b)) as [[-> ->]|Hne]; [|apply (Hdone i); [done|done|lia]].
      simplify_eq. exists None. split; [apply (Hfresh cur); [done|done|lia]|]. intros p t Hp He.
      apply (not_elem_of_nil t), Hmove. exists p, t. split; [done|]. split; [done|apply eps_refl].
    + intros i s b' Hi Hb' Hlt. apply (Hfresh i); [done|done|lia].
  - set (set := n0 :: nxt0) in *. rewrite set_contains_spec by apply Hs. cbn [obind].
    pose proof (lookup_lt_Some _ _ _ Hcur) as Hlt.
    destruct (add_state_spec d set cur b Hup Hs Hc Hb Hlt) as (d1 & idx & -> & Hup1 & (s1 & H1 & E1) & Hpre & Hlen). cbn [obind fst snd].
    pose proof (prefix_lookup_Some _ _ _ _ Hcur Hpre) as Hcur1.
    eexists. split; [done|]. split; [apply (add_trans_spec d1 cur b idx s0 s1); try done; intros x; by rewrite E1, Hmove|].
    split; [|intros Hl; by apply (linked_add d d1 cur b idx s0)].
    unfold grows. cbn [dstates]. rewrite map_alter by done. destruct Hpre as [k ->]. exists (map nset k). apply map_app.
Qed.

(** All bytes of a state. *)
Lemma dfa_bytes_spec set cur n : forall b d s0, upto d cur b -> dstates d !! cur = Some s0 -> nset s0 = set -> 0 <= b -> b + Z.of_nat n <= 256 ->
  exists d', ofold (dfa_byte nfa cur set) (seqZ b (Z.of_nat n)) d = Ok d' /\ upto d' cur (b + Z.of_nat n) /\ grows d d' /\
    (linked (dstates d) -> linked (dstates d')).
Proof.
  induction n as [|n IH]; intros b d s0 Hup Hcur Hset Hb Hn.
  - exists d. rewrite Z.add_0_r. split; [done|]. split; [done|]. by split; [exists []; rewrite app_nil_r|].
  - rewrite seqZ_cons by lia. cbn [ofold].
    destruct (dfa_byte_spec d cur b s0 set Hup ltac:(unfold is_byte; lia) Hcur Hset) as (d1 & -> & Hup1 & Hg1 & Hl1). cbn [obind].
    destruct (grows_lookup _ _ _ _ Hg1 Hcur) as (s1 & H1 & E1). rewrite Hset in E1.
    replace (Z.pred (Z.of_nat (S n))) with (Z.of_nat n) by lia.
    destruct (IH (Z.succ b) d1 s1) as (d2 & -> & Hup2 & Hg2 & Hl2); [by rewrite <- Z.add_1_r|done|done|lia|lia|].
    exists d2. split; [done|]. replace (b + Z.of_nat (S n)) with (Z.succ b + Z.of_nat n) by lia.
    split; [done|]. split; [by apply (grows_trans d d1)|auto].
Qed.

Lemma upto_next d cur : upto d cur 256 -> upto d (S cur) 0.
Proof.
  intros [H1 H2 H3 H4 H5]. constructor; try done.
  - intros i s b Hi Hb Hlt. apply (H4 i); [done|done|]. unfold is_byte in Hb. lia.
  - intros i s b Hi Hb Hlt. apply (H5 i); [done|done|]. lia.
Qed.

(** There are at most [2 ^ n] sorted sets of [n] states. *)
Fixpoint sublists (l : list nat) : list (list nat) :=
  match l with [] => [[]] | x :: l => map (cons x) (sublists l) ++ sublists l end.

Lemma sublists_length l : length (sublists l) = (2 ^ length l)%nat.
Proof. induction l as [|x l IH]; [done|]. cbn [sublists length]. rewrite length_app, length_map, IH. cbn. lia. Qed.

Lemma sublists_sset n : forall a set, asc set -> (forall x, x ∈ set -> (a <= x < a + n)%nat) -> In set (sublists (seq a n)).
Proof.
  induction n as [|n IH]; intros a set Ha Hin; cbn [seq sublists].
  - left. destruct set as [|x set]; [done|]. specialize (Hin x ltac:(by left)). lia.
  - apply in_app_iff. destruct set as [|x set].
    + right. apply IH; [constructor|]. intros x Hx. by apply elem_of_nil in Hx.
    + assert (Hlt : forall y, y ∈ set -> (x < y)%nat).
      { intros y Hy. inversion Ha as [|? ? _ Hall]; subst. rewrite List.Forall_forall in Hall. by apply Hall, list_elem_of_In. }
      pose proof (Hin x ltac:(by left)). inversion Ha; subst. destruct (decide (x = a)) as [->|Hne].
      * left. apply in_map. apply IH; [done|]. intros y Hy. specialize (Hlt y Hy). specialize (Hin y ltac:(by right)). lia.
      * right. apply IH; [done|]. intros y [->|Hy]%elem_of_cons; [lia|]. specialize (Hlt y Hy). specialize (Hin y ltac:(by right)). lia.
Qed.

Lemma states_bound d cur b : upto d cur b -> (length (dstates d) <= 2 ^ length st)%nat.
Proof.
  intros [_ Hs Hd _ _]. rewrite <- (length_map nset), <- (length_seq (length st) 0), <- sublists_length.
  apply NoDup_incl_length; [by apply NoDup_ListNoDup|]. intros set Hin.
  apply in_map_iff in Hin as (s & <- & Hin). apply list_elem_of_In, list_elem_of_lookup in Hin as [i Hi].
  destruct (so_set _ (Hs i s Hi)) as [Ha Hb]. apply sublists_sset; [done|]. intros x Hx. specialize (Hb x Hx). lia.
Qed.

(** What [nfa_to_dfa] promises. *)
Record dfa_ok (d : Dfa) : Prop := {
  do_states : forall i s, dstates d !! i = Some s -> state_ok s;
  do_moves : forall i s b, dstates d !! i = Some s -> is_byte b -> target_ok (dstates d) s b;
  do_linked : linked (dstates d)
}.

Lemma dfa_loop_spec : forall fuel cur d, upto d cur 0 -> linked (dstates d) -> (cur <= length (dstates d))%nat -> (2 ^ length st <= fuel + cur)%nat ->
  exists d', dfa_loop fuel nfa cur d = Ok d' /\ dfa_ok d' /\ grows d d'.
Proof.
  assert (Hend : forall cur d, upto d cur 0 -> linked (dstates d) -> dstates d !! cur = None -> dfa_ok d).
  { intros cur d Hup Hl Hn. apply lookup_ge_None in Hn. constructor; [apply Hup| |done]. intros i s b Hi Hb. apply (up_done _ _ _ Hup i s b Hi Hb).
    apply lookup_lt_Some in Hi. lia. }
  induction fuel as [|fuel IH]; intros cur d Hup Hl Hle Hf; cbn [dfa_loop]; destruct (dstates d !! cur) as [s|] eqn:Hcur.
  - pose proof (states_bound d cur 0 Hup). apply lookup_lt_Some in Hcur. lia.
  - exists d. split; [done|]. split; [by apply (Hend cur)|]. by exists []; rewrite app_nil_r.
  - destruct (dfa_bytes_spec (nset s) cur 256 0 d s Hup Hcur eq_refl) as (d1 & E & Hup1 & Hg1 & Hl1); [lia|lia|].
    change (Z.of_nat 256) with 256 in *. rewrite E. cbn [obind]. apply lookup_lt_Some in Hcur. pose proof (grows_length _ _ Hg1).
    destruct (IH (S cur) d1 (upto_next _ _ Hup1) (Hl1 Hl)) as (d2 & -> & Hok2 & Hg2); [lia|lia|].
    exists d2. split; [done|]. split; [done|]. by apply (grows_trans d d1).
  - exists d. split; [done|]. split; [by apply (Hend cur)|]. by exists []; rewrite app_nil_r.
Qed.

(** The automaton of subsets: its first state is the closure of state 0. *)
Theorem nfa_to_dfa_spec fuel : (0 < length st)%nat -> (2 ^ length st <= fuel)%nat ->
  exists d s, nfa_to_dfa fuel nfa = Ok d /\ dfa_ok d /\ dstates d !! 0%nat = Some s /\ forall x, x ∈ nset s <-> eps st 0 x.
Proof.
  intros Hlt Hf. unfold nfa_to_dfa.
  assert (Hinit : exists d, dfa_rehash 32 (mkDfa [] [] 0 0) = Ok d /\ table d /\ dstates d = []).
  { eexists. split; [reflexivity|]. split; [|done]. constructor; cbn; try done; try lia.
    - by exists 4.
    - apply (table_empty 32). by exists 5. }
  destruct Hinit as (d & -> & Ht & Hd). cbn [obind].
  destruct (eclose_spec st Hok [] 0) as (set & -> & Hs & Hc & Hmem); [|by intros p t Hp%elem_of_nil|done|].
  { split; [constructor|]. by intros x Hx%elem_of_nil. }
  cbn [obind]. rewrite set_contains_spec by apply Hs. cbn [obind].
  destruct (find_or_add_spec d set (bool_decide (match_state nfa ∈ set)) Ht) as (d1 & idx & -> & Ht1 & [[_ (s & H & _)]|(H & _ & _)]);
    [by rewrite Hd in H|]. cbn [obind fst snd]. rewrite Hd in H. cbn [app] in H. fold (new_state set) in H.
  assert (Hone : forall i s, dstates d1 !! i = Some s -> i = 0%nat /\ s = new_state set).
  { intros i s Hi. rewrite H in Hi. by apply list_lookup_singleton_Some in Hi as [-> <-]. }
  destruct (dfa_loop_spec fuel 0 d1) as (d2 & -> & Hok2 & Hg); [|intros j Hj; rewrite H in Hj; cbn in Hj; lia|lia|lia|].
  - constructor; [done|..].
    + intros i s [-> ->]%Hone. by apply new_state_ok.
    + rewrite H. apply NoDup_singleton.
    + intros i s b [-> ->]%Hone Hb Hl. unfold is_byte in Hb. lia.
    + intros i s b [-> ->]%Hone Hb Hl. by apply new_state_trans.
  - destruct (grows_lookup d1 d2 0 (new_state set) Hg) as (s & Hs2 & E); [by rewrite H|].
    exists d2, s. split; [done|]. split; [done|]. split; [done|]. intros x. rewrite E. cbn [new_state nset]. rewrite Hmem.
    split; [intros [Hx|Hx]; [by apply elem_of_nil in Hx|done]|by right].
Qed.

(** ** Runs *)

Definition reach (w : list Z) (x : nat) : Prop := exists n, path st n 0 w x.

Lemma path_split n p w x : path st n p w x -> forall w1 b w2, w = w1 ++ b :: w2 ->
  exists q t n1 n2, path st n1 p w1 q /\ byte_edge st b q t /\ path st n2 t w2 x.
Proof.
  induction 1 as [p|n p s t w q H1 H2 H3 _ IH|n p s t w q H1 H2 H3 _ IH|n p s t b w q H1 H2 H3 H4 Hp IH]; intros w1 c w2 Hw.
  - by destruct w1.
  - destruct (IH w1 c w2 Hw) as (q' & t' & n1 & n2 & P1 & P2 & P3). exists q', t', (S n1), n2. eauto using path.
  - destruct (IH w1 c w2 Hw) as (q' & t' & n1 & n2 & P1 & P2 & P3). exists q', t', (S n1), n2. eauto using path.
  - destruct w1 as [|b' w1]; injection Hw as -> ->.
    + exists p, t, 0%nat, n. split; [constructor|]. split; [by exists s|done].
    + destruct (IH w1 c w2 eq_refl) as (q' & t' & n1 & n2 & P1 & P2 & P3). exists q', t', (S n1), n2. eauto using path.
Qed.

Lemma reach_snoc w b x : reach (w ++ [b]) x <-> exists p t, reach w p /\ byte_edge st b p t /\ eps st t x.
Proof.
  split.
  - intros [n Hn]. destruct (path_split n 0 _ x Hn w b [] eq_refl) as (q & t & n1 & n2 & P1 & P2 & P3).
    exists q, t. split; [by exists n1|]. split; [done|by exists n2].
  - intros (p & t & [n Hn] & (s & H1 & H2 & H3 & H4) & [m Hm]). exists (n + S m)%nat. apply (path_app st n (S m) 0 p x); [done|].
    eauto using path.
Qed.

Lemma dfa_run_spec d w : dfa_ok d -> Forall is_byte w -> forall i s v, dstates d !! i = Some s ->
  (forall x, x ∈ nset s <-> reach v x) ->
  (exists j s', dfa_run d i w = Ok (Some j) /\ dstates d !! j = Some s' /\ state_ok s' /\ forall x, x ∈ nset s' <-> reach (v ++ w) x) \/
  (dfa_run d i w = Ok None /\ forall x, ~ reach (v ++ w) x).
Proof.
  intros Hd Hw. induction Hw as [|b w Hb Hw IH]; intros i s v Hi Hv; cbn [dfa_run].
  - left. exists i, s. split; [done|]. split; [done|]. split; [by apply (do_states _ Hd i)|]. by rewrite app_nil_r.
  - rewrite Hi. cbn [of_option obind]. destruct (do_moves _ Hd i s b Hi Hb) as (o & -> & Ho). cbn [of_option obind].
    replace (v ++ b :: w) with ((v ++ [b]) ++ w) by (by rewrite <- app_assoc).
    destruct o as [j|].
    + destruct Ho as (s' & Hj & Hm). apply (IH j s' (v ++ [b]) Hj). intros x. rewrite Hm, reach_snoc.
      split; intros (p & t & H1 & H2 & H3); exists p, t; (split; [by apply Hv|done]).
    + right. split; [done|]. intros x [n Hn]. destruct w as [|c w].
      * rewrite app_nil_r in Hn. destruct (proj1 (reach_snoc v b x)) as (p & t & H1 & H2 & _); [by exists n|].
        by apply (Ho p t); [apply Hv|].
      * destruct (path_split n 0 _ x Hn (v ++ [b]) c w eq_refl) as (q & t & n1 & n2 & P1 & _).
        destruct (proj1 (reach_snoc v b q)) as (p & t' & H1 & H2 & _); [by exists n1|]. by apply (Ho p t'); [apply Hv|].
Qed.
End Construction.

(** ** The matcher accepts the language of the pattern *)
From S2P Require Import CString RegexParse.


(** The edges of a fragment stay in it or go to its exit. *)
Lemma thompson_targets st r lo hi q : thompson st r lo hi q -> forall p s, (lo <= p < hi)%nat -> st !! p = Some s ->
  forall t, out1 s = Some t \/ kind s = NFA_SPLIT /\ out2 s = Some t -> (lo <= t < hi)%nat \/ t = q.
Proof.
  induction 1 as [lo q Hs|s0 c lo q H1 H2 H3 H4|a b lo mid hi q Ta IHa Tb IHb|a b lo mid hi q Hs Ta IHa Tb IHb
    |a lo hi q Hs Ta IHa|a lo mid q Hs Ta IHa|a lo hi q Hs Ta IHa]; intros p s Hp Hps t Ht;
    repeat match goal with H : thompson _ _ _ _ _ |- _ => apply thompson_lt in H end.
  - assert (p = lo) as -> by lia. destruct Hs as (s' & E & _ & O1 & O2). simplify_eq.
    destruct Ht as [Ht|[_ Ht]]; rewrite ?O1, ?O2 in Ht; [|done]. injection Ht as <-. by right.
  - assert (p = lo) as -> by lia. simplify_eq. destruct Ht as [Ht|[Hk _]]; [|congruence]. rewrite H4 in Ht. injection Ht as <-. by right.
  - destruct (Nat.lt_ge_cases p mid); [destruct (IHa p s ltac:(lia) Hps t Ht)|destruct (IHb p s ltac:(lia) Hps t Ht)]; lia.
  - destruct (decide (p = lo)) as [->|Hne].
    + destruct Hs as (s' & E & _ & O1 & O2). simplify_eq. destruct Ht as [Ht|[_ Ht]]; rewrite ?O1, ?O2 in Ht; injection Ht as <-; lia.
    + destruct (Nat.lt_ge_cases p mid); [destruct (IHa p s ltac:(lia) Hps t Ht)|destruct (IHb p s ltac:(lia) Hps t Ht)]; lia.
  - destruct (decide (p = lo)) as [->|Hne].
    + destruct Hs as (s' & E & _ & O1 & O2). simplify_eq. destruct Ht as [Ht|[_ Ht]]; rewrite ?O1, ?O2 in Ht; injection Ht as <-; lia.
    + destruct (IHa p s ltac:(lia) Hps t Ht); lia.
  - destruct (decide (p = mid)) as [->|Hne].
    + destruct Hs as (s' & E & _ & O1 & O2). simplify_eq. destruct Ht as [Ht|[_ Ht]]; rewrite ?O1, ?O2 in Ht; injection Ht as <-; lia.
    + destruct (IHa p s ltac:(lia) Hps t Ht); lia.
  - destruct (decide (p = lo)) as [->|Hne].
    + destruct Hs as (s' & E & _ & O1 & O2). simplify_eq. destruct Ht as [Ht|[_ Ht]]; rewrite ?O1, ?O2 in Ht; injection Ht as <-; lia.
    + destruct (IHa p s ltac:(lia) Hps t Ht); lia.
Qed.

Lemma build_nfa_ok r : nfa_ok (states (build_nfa r)).
Proof.
  destruct (build_nfa_shape r) as (Hth & (sm & Em & _ & M1 & M2) & Hlen). intros p s Hp.
  pose proof (lookup_lt_Some _ _ _ Hp) as Hlt. rewrite Hlen in *.
  destruct (decide (p = match_state (build_nfa r))) as [->|Hne].
  - rewrite Em in Hp. injection Hp as <-. rewrite M1, M2. by destruct (kind sm).
  - assert (H : forall t, out1 s = Some t \/ kind s = NFA_SPLIT /\ out2 s = Some t -> (t < S (match_state (build_nfa r)))%nat).
    { intros t Ht. destruct (thompson_targets _ _ _ _ _ Hth p s ltac:(lia) Hp t Ht); lia. }
    destruct (kind s); [intros t Ht; apply H; by left|split; intros t Ht; apply H; [by left|by right]].
Qed.

Definition nfa_size (r : RegexNode) : nat := length (states (build_nfa r)).

(** The automaton of a tree, run on an input. *)
Lemma dfa_accepts tree fuel w : (2 ^ nfa_size tree <= fuel)%nat -> Forall is_byte w ->
  exists d, nfa_to_dfa fuel (build_nfa tree) = Ok d /\ dfa_ok (build_nfa tree) d /\
    ((exists j s, dfa_run d 0 w = Ok (Some j) /\ dstates d !! j = Some s /\ (accepting s = true <-> lang tree w)) \/
     (dfa_run d 0 w = Ok None /\ ~ lang tree w)).
Proof.
  intros Hf Hw. pose proof (build_nfa_ok tree) as Hok. destruct (build_nfa_shape tree) as (_ & _ & Hlen).
  destruct (nfa_to_dfa_spec (build_nfa tree) Hok fuel) as (d & s0 & -> & Hd & H0 & Hs0); [rewrite Hlen; lia|done|].
  exists d. split; [done|]. split; [done|].
  destruct (dfa_run_spec (build_nfa tree) d w Hd Hw 0 s0 [] H0 Hs0) as [(j & s & -> & Hj & Hso & Hm)|[-> Hno]].
  - left. exists j, s. split; [done|]. split; [done|]. rewrite (so_accept _ _ Hso), bool_decide_eq_true, Hm, nfa_language. done.
  - right. split; [done|]. rewrite nfa_language. by apply Hno.
Qed.

(** C7: The reference matcher decides the language of the pattern.  Every
    pattern is parsed or refused, and a refused one leaves an error, which the
    matcher answers on every input; the automaton of a parsed
    pattern is built (with 2 to the number of NFA states rounds, the bound on
    its states), and the answer on any bytes is whether the bytes are a word
    of the regular language of the tree. *)
Theorem regex_match_correct p : exists c t, parse_pattern p no_error = Ok (c, t) /\
  match t with
  | None => exists e at_, error c = Some (e, at_) /\ forall fuel w, mir_regex_match_reference fuel p w = Ok (false, Some e)
  | Some tree => forall fuel w, (2 ^ nfa_size tree <= fuel)%nat -> Forall is_byte w ->
      exists b, mir_regex_match_reference fuel p w = Ok (b, None) /\ (b = true <-> lang tree w)
  end.
Proof.
  destruct (parse_total p no_error) as (c & t & E & _). exists c, t. split; [done|]. destruct t as [tree|].
  - intros fuel w Hf Hw. unfold mir_regex_match_reference. rewrite E. cbn [obind snd].
    destruct (dfa_accepts tree fuel w Hf Hw) as (d & -> & _ & Hrun). cbn [obind].
    destruct Hrun as [(j & s & -> & Hj & Ha)|[-> Hno]]; cbn [obind].
    + rewrite Hj. cbn [of_option obind]. by exists (accepting s).
    + by exists false.
  - destruct (pattern_refuses p _ _ E) as [[e at_] He]. exists e, at_. split; [done|]. intros fuel w.
    unfold mir_regex_match_reference. rewrite E. cbn [obind snd fst]. by rewrite He.
Qed.

(** The pattern a|b* in the language of its tree. *)
Lemma regex_match_correct_witness : exists b, mir_regex_match_reference 256 (lit "a|b*") [98; 98] = Ok (b, None) /\
  (b = true <-> lang (R_ALT (R_CLASS (bs_add bs_clear 97)) (R_STAR (R_CLASS (bs_add bs_clear 98)))) [98; 98]).
Proof.
  destruct (regex_match_correct (lit "a|b*")) as (c & t & E & H).
  assert (Ht : t = Some (R_ALT (R_CLASS (bs_add bs_clear 97)) (R_STAR (R_CLASS (bs_add bs_clear 98))))).
  { vm_compute in E. injection E as _ <-. reflexivity. }
  subst t. apply H; [vm_compute; lia|]. repeat constructor; lia.
Defined.
