(* ===== verification/MirBuilder.v ===== *)
(** * The MIR builder

    Models [src/compiler/ir/mir_builder.c].  A builder operation is a state
    transformer over the module, the function under construction and the
    current block; it is undefined when no block is set (the [assert] of
    [emit]) or a pointer does not lead to a block.  The function is an object
    of the module's list; the builder holds it, and [builder_sync] is the view
    of the module that shows the edits. *)
From stdpp Require Import strings.
From S2P Require Import Prelude MirCore.

(** ** State *)

Record MirBuilder := mkBuilder { b_module : MirModule; b_func : MirFunction; current_block : blockptr }.

Definition mir_builder_init (m : MirModule) (f : MirFunction) : MirBuilder := mkBuilder m f None.

(** The module with the function the builder works on, the newest of the list. *)
Definition builder_sync (b : MirBuilder) : MirModule :=
  with_funcs (b_module b) (b_func b :: tail (func_list (b_module b))) (func_count (b_module b)).

Definition MB (A : Type) : Type := MirBuilder -> outcome (MirBuilder * A).

#[export] Instance MB_ret : MRet MB := fun A a b => Ok (b, a).
#[export] Instance MB_bind : MBind MB := fun A B k m b => let! r := m b in k r.2 r.1.

Definition with_func (b : MirBuilder) (f : MirFunction) : MirBuilder := mkBuilder (b_module b) f (current_block b).

Definition with_type_cache (m : MirModule) (tc : list MirType) : MirModule :=
  mkModule (m_name m) (func_list m) (func_count m) (globals m) tc (string_literals m).

Definition mir_builder_set_block (c : blockptr) : MB unit := fun b => Ok (mkBuilder (b_module b) (b_func b) c, tt).

(** A type constructor of [mir.c] on the module's cache. *)
Definition mk_type (g : list MirType -> list MirType * tyref) : MB tyref := fun b =>
  let r := g (type_cache (b_module b)) in
  Ok (mkBuilder (with_type_cache (b_module b) r.1) (b_func b) (current_block b), r.2).

Definition value_type (v : MirValueId) : MB tyref := fun b => Ok (b, mir_function_value_type (b_func b) v).

Definition add_block (lbl : string) : MB nat := fun b =>
  let r := mir_function_add_block (b_func b) lbl in Ok (with_func b r.1, r.2).

(** ** Internal helpers *)

Definition alloc_inst (k : MirInstKind) (ty : tyref) : MirInst := mkInst k MIR_VALUE_NONE ty 0 0.

Definition set_result (i : MirInst) (v : MirValueId) : MirInst := mkInst (as_ i) v (type i) (src_line i) (src_col i).

(** [*p] of a block pointer, and appending to the block it leads to. *)
Definition append_at (f : MirFunction) (c : blockptr) (i : MirInst) : outcome MirFunction :=
  let! c := of_option c in
  let! _ := of_option (block_at f c) in
  Ok (upd_block f c (fun blk => mir_block_append blk i)).

(** [inst->type && inst->type->kind != MIR_TYPE_VOID] *)
Definition has_result (tc : list MirType) (t : tyref) : bool :=
  match ty_kind <$> ty_deref tc t with Some MIR_TYPE_VOID | None => false | Some _ => true end.

Definition emit (i : MirInst) : MB MirValueId := fun b =>
  let '(f, v) :=
    if has_result (type_cache (b_module b)) (type i) then mir_function_new_value (b_func b) (type i)
    else (b_func b, result i) in
  let! f := append_at f (current_block b) (set_result i v) in
  Ok (with_func b f, v).

Definition emit_void (i : MirInst) : MB unit := fun b =>
  let! f := append_at (b_func b) (current_block b) (set_result i MIR_VALUE_NONE) in
  Ok (with_func b f, tt).

Definition add_edge (f : MirFunction) (from to : blockptr) : outcome MirFunction :=
  let! s := of_option from in
  let! t := of_option to in
  let! _ := of_option (block_at f s) in
  let! _ := of_option (block_at f t) in
  let f := upd_block f s (fun blk => mir_block_add_successor blk t) in
  Ok (upd_block f t (fun blk => mir_block_add_predecessor blk s)).

Definition link_cfg (to : blockptr) : MB unit := fun b =>
  let! f := add_edge (b_func b) (current_block b) to in Ok (with_func b f, tt).

(** ** Constants *)

Definition mir_build_const_int (val : Z) (ty : tyref) : MB MirValueId := emit (alloc_inst (CONST_INT val) ty).
Definition mir_build_const_float (val : Z) (ty : tyref) : MB MirValueId := emit (alloc_inst (CONST_FLOAT val) ty).
Definition mir_build_const_bool (val : bool) : MB MirValueId :=
  t ← mk_type mir_type_bool; emit (alloc_inst (CONST_BOOL val) t).
Definition mir_build_const_string (str : string) : MB MirValueId :=
  i8 ← mk_type mir_type_i8; t ← mk_type (fun tc => mir_type_ptr tc i8);
  s ← (fun b => let r := mir_module_add_string (b_module b) str in
         let! s := of_option (string_literals r.1 !! Z.to_nat r.2) in
         Ok (mkBuilder r.1 (b_func b) (current_block b), s)) : MB string;
  emit (alloc_inst (CONST_STRING s) t).
Definition mir_build_const_func (func_name : string) (ty : tyref) : MB MirValueId :=
  emit (alloc_inst (CONST_FUNC func_name) ty).
Definition mir_build_const_null (ptr_type : tyref) : MB MirValueId := emit (alloc_inst CONST_NULL ptr_type).
Definition mir_build_global_addr (global_name : string) (value_type : tyref) : MB MirValueId :=
  t ← mk_type (fun tc => mir_type_ptr tc value_type); emit (alloc_inst (GLOBAL_ADDR global_name) t).

(** ** Arithmetic, comparison, bits *)

Definition build_binary (op : MirBinOp) (lhs rhs : MirValueId) : MB MirValueId :=
  t ← value_type lhs; emit (alloc_inst (BINARY op lhs rhs) t).

Definition mir_build_add := build_binary MIR_ADD.
Definition mir_build_sub := build_binary MIR_SUB.
Definition mir_build_mul := build_binary MIR_MUL.
Definition mir_build_div := build_binary MIR_DIV.
Definition mir_build_mod := build_binary MIR_MOD.
Definition mir_build_neg (operand : MirValueId) : MB MirValueId :=
  t ← value_type operand; emit (alloc_inst (UNARY MIR_NEG operand TY_NULL) t).
Definition mir_build_fadd := build_binary MIR_FADD.
Definition mir_build_fsub := build_binary MIR_FSUB.
Definition mir_build_fmul := build_binary MIR_FMUL.
Definition mir_build_fdiv := build_binary MIR_FDIV.
Definition mir_build_fneg (operand : MirValueId) : MB MirValueId :=
  t ← value_type operand; emit (alloc_inst (UNARY MIR_FNEG operand TY_NULL) t).

Definition build_cmp (op : MirBinOp) (lhs rhs : MirValueId) : MB MirValueId :=
  t ← mk_type mir_type_bool; emit (alloc_inst (BINARY op lhs rhs) t).

Definition mir_build_cmp_eq := build_cmp MIR_CMP_EQ.
Definition mir_build_cmp_ne := build_cmp MIR_CMP_NE.
Definition mir_build_cmp_lt := build_cmp MIR_CMP_LT.
Definition mir_build_cmp_le := build_cmp MIR_CMP_LE.
Definition mir_build_cmp_gt := build_cmp MIR_CMP_GT.
Definition mir_build_cmp_ge := build_cmp MIR_CMP_GE.

Definition mir_build_and := build_binary MIR_BAND.
Definition mir_build_or := build_binary MIR_BOR.
Definition mir_build_xor := build_binary MIR_BXOR.
Definition mir_build_shl := build_binary MIR_SHL.
Definition mir_build_shr := build_binary MIR_SHR.
Definition mir_build_not (operand : MirValueId) : MB MirValueId :=
  t ← value_type operand; emit (alloc_inst (UNARY MIR_BNOT operand TY_NULL) t).

(** ** Memory *)

Definition mir_build_alloca (ty : tyref) : MB MirValueId :=
  t ← mk_type (fun tc => mir_type_ptr tc ty); emit (alloc_inst (ALLOCA ty 1) t).
Definition mir_build_load (ptr : MirValueId) (ty : tyref) : MB MirValueId := emit (alloc_inst (LOAD ptr) ty).
Definition mir_build_store (ptr value : MirValueId) : MB unit :=
  t ← mk_type mir_type_void; emit_void (alloc_inst (STORE ptr value) t).

(** The field of a struct, by the index the C code compares only from above. *)
Definition field_type (tc : list MirType) (st : tyref) (field_idx : Z) : outcome (option tyref) :=
  match ty_deref tc st with
  | Some (TyStruct _ fields _ _) =>
      if field_idx <? Z.of_nat (length fields) then
        if field_idx <? 0 then Undef else let! t := of_option (fields !! Z.to_nat field_idx) in Ok (Some t)
      else Ok None
  | _ => Ok None
  end.

Definition lookup_field (st : tyref) (field_idx : Z) : MB (option tyref) := fun b =>
  let! o := field_type (type_cache (b_module b)) st field_idx in Ok (b, o).

Definition pointee_of (base : tyref) : MB tyref := fun b =>
  Ok (b, match ty_deref (type_cache (b_module b)) base with Some (TyPtr p) => p | _ => TY_NULL end).

Definition mir_build_get_field_ptr (base : MirValueId) (field_idx : Z) : MB MirValueId :=
  base_type ← value_type base;
  st ← pointee_of base_type;
  o ← lookup_field st field_idx;
  result_type ← match o with Some t => mk_type (fun tc => mir_type_ptr tc t) | None => mret base_type end;
  emit (alloc_inst (GEP MIR_GET_FIELD_PTR base field_idx MIR_VALUE_NONE) result_type).

Definition mir_build_get_elem_ptr (base idx : MirValueId) : MB MirValueId :=
  base_type ← value_type base; emit (alloc_inst (GEP MIR_GET_ELEM_PTR base (-1) idx) base_type).

(** ** Control flow *)

Definition mir_build_br (target : blockptr) : MB unit :=
  t ← mk_type mir_type_void;
  _ ← emit_void (alloc_inst (BR target) t);
  link_cfg target.

Definition mir_build_condbr (cond : MirValueId) (true_bb false_bb : blockptr) : MB unit :=
  t ← mk_type mir_type_void;
  _ ← emit_void (alloc_inst (CONDBR cond true_bb false_bb) t);
  _ ← link_cfg true_bb;
  link_cfg false_bb.

Definition mir_build_ret (value : MirValueId) : MB unit :=
  t ← mk_type mir_type_void; emit_void (alloc_inst (RET value) t).
Definition mir_build_ret_void : MB unit :=
  t ← mk_type mir_type_void; emit_void (alloc_inst RET_VOID t).

Definition mir_build_suspend (resume_bb : blockptr) (future : MirValueId) : MB MirValueId :=
  ret_type ← value_type future;
  v ← emit (alloc_inst (SUSPEND resume_bb future) ret_type);
  _ ← link_cfg resume_bb;
  mret v.

(** ** Calls *)

Definition mir_build_call (func_name : string) (args : list MirValueId) (ret_type : tyref) : MB MirValueId :=
  emit (alloc_inst (CALL func_name args MIR_VALUE_NONE) ret_type).
(** [func_name = NULL] is the empty name. *)
Definition mir_build_call_indirect (callee : MirValueId) (args : list MirValueId) (ret_type : tyref) : MB MirValueId :=
  emit (alloc_inst (CALL_INDIRECT "" args callee) ret_type).
Definition mir_build_call_virtual (self : MirValueId) (vtable_idx : Z) (args : list MirValueId) (ret_type : tyref)
  : MB MirValueId := emit (alloc_inst (CALL_VIRTUAL self vtable_idx args) ret_type).

(** ** Phis *)

Definition mir_build_phi (ty : tyref) : MB MirValueId := emit (alloc_inst (PHI []) ty).

Definition mir_phi_add_edge (i : MirInst) (block : blockptr) (value : MirValueId) : outcome MirInst :=
  match as_ i with
  | PHI edges => Ok (set_as i (PHI (edges ++ [(block, value)])))
  | _ => Undef
  end.

(** ** Conversions *)

Definition build_convert (op : MirUnOp) (val : MirValueId) (target : tyref) : MB MirValueId :=
  emit (alloc_inst (UNARY op val target) target).

Definition mir_build_cast := build_convert MIR_CAST.
Definition mir_build_zext := build_convert MIR_ZEXT.
Definition mir_build_sext := build_convert MIR_SEXT.
Definition mir_build_trunc := build_convert MIR_TRUNC.
Definition mir_build_sitofp := build_convert MIR_SITOFP.
Definition mir_build_fptosi := build_convert MIR_FPTOSI.

(** ** Ownership and reference counts *)

Definition build_borrow (is_mut : bool) (source : MirValueId) : MB MirValueId :=
  src_type ← value_type source;
  ref_type ← mk_type (fun tc => mir_type_ref tc src_type is_mut);
  emit (alloc_inst (TRANSFER (if is_mut then MIR_BORROW_MUT else MIR_BORROW) source) ref_type).
Definition mir_build_borrow := build_borrow false.
Definition mir_build_borrow_mut := build_borrow true.
Definition mir_build_move (source : MirValueId) : MB MirValueId :=
  t ← value_type source; emit (alloc_inst (TRANSFER MIR_MOVE source) t).

Definition build_refop (op : MirRefOp) (ptr : MirValueId) : MB unit :=
  t ← mk_type mir_type_void; emit_void (alloc_inst (REFOP op ptr) t).
Definition mir_build_drop := build_refop MIR_DROP.
Definition mir_build_arc_retain := build_refop MIR_ARC_RETAIN.
Definition mir_build_arc_release := build_refop MIR_ARC_RELEASE.

Definition mir_build_obj_alloc (class_name : string) (size : Z) : MB MirValueId :=
  i8 ← mk_type mir_type_i8; t ← mk_type (fun tc => mir_type_ptr tc i8);
  emit (alloc_inst (OBJ_ALLOC class_name size) t).

(** ** Aggregates *)

Definition mir_build_struct_init (ty : tyref) (fields : list MirValueId) : MB MirValueId :=
  emit (alloc_inst (STRUCT_INIT fields) ty).

Definition mir_build_extract (agg : MirValueId) (field_idx : Z) : MB MirValueId :=
  agg_type ← value_type agg;
  o ← lookup_field agg_type field_idx;
  emit (alloc_inst (EXTRACT agg field_idx) (default agg_type o)).

Definition mir_build_insert (agg : MirValueId) (field_idx : Z) (val : MirValueId) : MB MirValueId :=
  agg_type ← value_type agg; emit (alloc_inst (INSERT agg field_idx val) agg_type).

(** ** Vectors *)

Definition alloc_vec_inst (op : MirVecOpcode) (lane_type : tyref) (width : Z) (a b c : MirValueId) : MirInst :=
  alloc_inst (VEC op a b c width lane_type) lane_type.

Definition mir_build_vec_load (ptr : MirValueId) (lane_type : tyref) (width : Z) (aligned : bool) : MB MirValueId :=
  emit (alloc_vec_inst (if aligned then MIR_VEC_LOAD else MIR_VEC_LOAD_UNALIGNED) lane_type width
          ptr MIR_VALUE_NONE MIR_VALUE_NONE).

Definition mir_build_vec_store (ptr value : MirValueId) (lane_type : tyref) (width : Z) (aligned : bool) : MB unit :=
  t ← mk_type mir_type_void;
  emit_void (alloc_inst (VEC (if aligned then MIR_VEC_STORE else MIR_VEC_STORE_UNALIGNED) ptr value MIR_VALUE_NONE
                           width lane_type) t).

Definition mir_build_vec_broadcast (scalar : MirValueId) (lane_type : tyref) (width : Z) : MB MirValueId :=
  emit (alloc_vec_inst MIR_VEC_BROADCAST lane_type width scalar MIR_VALUE_NONE MIR_VALUE_NONE).

Definition vec_binop_ok (op : MirVecOpcode) : bool :=
  match op with
  | MIR_VEC_ADD | MIR_VEC_SUB | MIR_VEC_MUL | MIR_VEC_DIV | MIR_VEC_MIN | MIR_VEC_MAX
  | MIR_VEC_AND | MIR_VEC_OR | MIR_VEC_XOR => true
  | _ => false
  end.

Definition mb_assert (ok : bool) : MB unit := fun b => if ok then Ok (b, tt) else Undef.

Definition mir_build_vec_binop (op : MirVecOpcode) (a b_src : MirValueId) (lane_type : tyref) (width : Z) : MB MirValueId :=
  _ ← mb_assert (vec_binop_ok op);
  emit (alloc_vec_inst op lane_type width a b_src MIR_VALUE_NONE).

Definition mir_build_vec_fma (a bsrc c : MirValueId) (lane_type : tyref) (width : Z) : MB MirValueId :=
  emit (alloc_vec_inst MIR_VEC_FMA lane_type width a bsrc c).

Definition mir_build_vec_reduce_sum (v : MirValueId) (lane_type : tyref) (width : Z) : MB MirValueId :=
  emit (alloc_vec_inst MIR_VEC_REDUCE_SUM lane_type width v MIR_VALUE_NONE MIR_VALUE_NONE).

Definition mir_build_vec_dot (a bsrc : MirValueId) (lane_type : tyref) (width : Z) : MB MirValueId :=
  emit (alloc_vec_inst MIR_VEC_DOT lane_type width a bsrc MIR_VALUE_NONE).

Definition vec_cmp_ok (op : MirVecOpcode) : bool :=
  match op with MIR_VEC_CMP_EQ | MIR_VEC_CMP_LT | MIR_VEC_CMP_GT => true | _ => false end.

Definition mir_build_vec_cmp (op : MirVecOpcode) (a bsrc : MirValueId) (lane_type : tyref) (width : Z) : MB MirValueId :=
  _ ← mb_assert (vec_cmp_ok op);
  emit (alloc_vec_inst op lane_type width a bsrc MIR_VALUE_NONE).

Definition mir_build_vec_select (mask a bsrc : MirValueId) (lane_type : tyref) (width : Z) : MB MirValueId :=
  emit (alloc_vec_inst MIR_VEC_SELECT lane_type width mask a bsrc).

(** ** Opcode introspection *)

Definition mir_opcode_is_vec (k : MirInstKind) : bool := match k with VEC _ _ _ _ _ _ => true | _ => false end.

Definition mir_opcode_name (k : MirInstKind) : string :=
  match k with
  | VEC op _ _ _ _ _ =>
      match op with
      | MIR_VEC_LOAD => "vec.load" | MIR_VEC_LOAD_UNALIGNED => "vec.load.u"
      | MIR_VEC_STORE => "vec.store" | MIR_VEC_STORE_UNALIGNED => "vec.store.u"
      | MIR_VEC_BROADCAST => "vec.broadcast"
      | MIR_VEC_ADD => "vec.add" | MIR_VEC_SUB => "vec.sub" | MIR_VEC_MUL => "vec.mul" | MIR_VEC_DIV => "vec.div"
      | MIR_VEC_MIN => "vec.min" | MIR_VEC_MAX => "vec.max"
      | MIR_VEC_AND => "vec.and" | MIR_VEC_OR => "vec.or" | MIR_VEC_XOR => "vec.xor"
      | MIR_VEC_FMA => "vec.fma" | MIR_VEC_REDUCE_SUM => "vec.reduce_sum" | MIR_VEC_DOT => "vec.dot"
      | MIR_VEC_CMP_EQ => "vec.cmp.eq" | MIR_VEC_CMP_LT => "vec.cmp.lt" | MIR_VEC_CMP_GT => "vec.cmp.gt"
      | MIR_VEC_SELECT => "vec.select"
      end
  | _ => "?"
  end.
