(* ===== verification/MirBuilderFacts.v ===== *)
(** * Functions built through the builder

    Every function the operations of [mir_builder.c] can build has the
    structural invariant the verifier relies on ([func_wf]), is in SSA form
    with a typed value table, and has control-flow lists that are exactly the
    targets of its instructions. *)
From stdpp Require Import strings.
From S2P Require Import Prelude MirCore MirGraph MirVerify MirVerifyFacts MirBuilder.

(** ** What the invariant says *)

(** The blocks an instruction can pass control to. *)
Definition targets (k : MirInstKind) : list nat :=
  match k with
  | BR t => opt_list t
  | CONDBR _ a b => opt_list a ++ opt_list b
  | SWITCH _ cases d => omap snd cases ++ opt_list d
  | SUSPEND r _ => opt_list r
  | _ => []
  end.

Definition block_targets (blk : MirBlock) : list nat := concat (map (fun i => targets (as_ i)) (insts blk)).

Definition block_results (blk : MirBlock) : list MirValueId := filter (fun v => v <> MIR_VALUE_NONE) (map result (insts blk)).

(** The values a function defines: its parameters and the results of its
    instructions. *)
Definition defined (f : MirFunction) : list MirValueId :=
  map p_value_id (params f) ++ concat (map block_results (blocks f)).

Definition typed_as (f : MirFunction) (v : MirValueId) (t : tyref) : Prop := mir_function_value_type f v = t.

(** One definition per value, and the type recorded for it. *)
Record ssa_ok (f : MirFunction) : Prop := {
  ssa_unique : NoDup (defined f);
  ssa_bound : Forall (fun v => (0 < v < next_value_id f)%N) (defined f);
  ssa_params : forall p, p ∈ params f -> typed_as f (p_value_id p) (p_type p);
  ssa_insts : forall c blk i, block_at f c = Some blk -> i ∈ insts blk -> result i <> MIR_VALUE_NONE ->
    typed_as f (result i) (type i) /\ type i <> TY_NULL
}.

(** The successor lists are the targets; the predecessor lists mirror them. *)
Record cfg_ok (f : MirFunction) : Prop := {
  cfg_succs : forall c blk t, block_at f c = Some blk -> t ∈ successors blk <-> t ∈ block_targets blk;
  cfg_preds : forall s t bs bt, block_at f s = Some bs -> block_at f t = Some bt ->
    (t ∈ successors bs <-> s ∈ predecessors bt);
  cfg_closed : forall c blk t, block_at f c = Some blk -> t ∈ successors blk -> t ∈ block_list f
}.

(** ** The invariant of the operations

    [pend]: targets of instructions of the current block that [link_cfg] has
    not entered in the lists yet. *)
Record layout_ok (pend : list nat) (cur : blockptr) (f : MirFunction) : Prop := {
  lay_list : block_list f = seq 0 (length (blocks f));
  lay_count : block_count f = Z.of_nat (length (blocks f));
  lay_entry : entry_block f = head (block_list f);
  lay_ids : forall c blk, block_at f c = Some blk -> id blk = u32 (Z.of_nat c);
  lay_closed : forall c blk t, block_at f c = Some blk -> t ∈ successors blk -> (t < length (blocks f))%nat;
  lay_pred_closed : forall c blk s, block_at f c = Some blk -> s ∈ predecessors blk -> (s < length (blocks f))%nat;
  lay_sym : forall s t bs bt, block_at f s = Some bs -> block_at f t = Some bt ->
    (t ∈ successors bs <-> s ∈ predecessors bt);
  lay_targets : forall c blk t, block_at f c = Some blk ->
    (t ∈ successors blk -> t ∈ block_targets blk) /\
    (t ∈ block_targets blk -> t ∈ successors blk \/ cur = Some c /\ t ∈ pend)
}.

Definition small (f : MirFunction) : Prop := Z.of_N (next_value_id f) < 2 ^ 31.

(** The room of the value table, and SSA form while ids fit an [int]. *)
Record values_ok (f : MirFunction) : Prop := {
  val_room : (0 < next_value_id f)%N /\ (N.to_nat (next_value_id f) <= length (value_types f))%nat;
  val_ssa : ssa_ok f
}.

Record built (pend : list nat) (b : MirBuilder) : Prop := {
  built_layout : layout_ok pend (current_block b) (b_func b);
  built_values : small (b_func b) -> values_ok (b_func b)
}.

(** ** The value table *)

Lemma value_type_lookup f v : small f -> (N.to_nat (next_value_id f) <= length (value_types f))%nat ->
  (0 < v < next_value_id f)%N -> mir_function_value_type f v = default TY_NULL (value_types f !! N.to_nat v).
Proof.
  unfold small. intros Hs Hr Hv. unfold mir_function_value_type. destruct (N.eqb_spec v 0); [lia|]. cbn [orb].
  rewrite s32_small by lia. destruct (Z.leb_spec (Z.of_nat (length (value_types f))) (Z.of_N v)); [lia|done].
Qed.

Section new_value.
Context (f : MirFunction) (ty : tyref).
Let f' := (mir_function_new_value f ty).1.
Hypothesis Hsmall : small f'.
Hypothesis Hroom : (0 < next_value_id f)%N /\ (N.to_nat (next_value_id f) <= length (value_types f))%nat.

Lemma new_value_small : small f.
Proof. clear Hroom. unfold small in *. subst f'. unfold mir_function_new_value, with_values in Hsmall. cbn [fst next_value_id] in Hsmall. lia. Qed.

Lemma new_value_room : (0 < next_value_id f')%N /\ (N.to_nat (next_value_id f') <= length (value_types f'))%nat.
Proof.
  pose proof new_value_small as Hs. unfold small in Hs. subst f'. unfold mir_function_new_value, with_values.
  cbn [fst next_value_id value_types]. rewrite length_insert, s32_small by lia.
  destruct (Z.leb_spec (Z.of_nat (length (value_types f))) (Z.of_N (next_value_id f))); rewrite ?length_app, ?length_replicate; lia.
Qed.

Lemma new_value_types v : (0 < v < next_value_id f')%N ->
  mir_function_value_type f' v = if (v =? next_value_id f)%N then ty else mir_function_value_type f v.
Proof.
  intros Hv. pose proof new_value_small as Hs. destruct new_value_room as [_ Hr'].
  rewrite value_type_lookup by done. unfold small in Hs.
  subst f'. unfold mir_function_new_value, with_values in *. cbn [fst next_value_id value_types] in *.
  rewrite length_insert in Hr'. destruct (N.eqb_spec v (next_value_id f)) as [->|Hne].
  - rewrite list_lookup_insert_eq by lia. done.
  - rewrite list_lookup_insert_ne by lia. rewrite value_type_lookup by (done || lia || apply Hroom).
    destruct (Z.leb _ _); [|done]. rewrite lookup_app_l by lia. done.
Qed.
End new_value.

(** ** Updating a block *)

Lemma block_at_lt f c : is_Some (block_at f c) <-> (c < length (blocks f))%nat.
Proof. apply lookup_lt_is_Some. Qed.

Lemma upd_lookup f c g d blk : block_at (upd_block f c g) d = Some blk ->
  (d = c /\ exists blk0, block_at f c = Some blk0 /\ blk = g blk0) \/ (d <> c /\ block_at f d = Some blk).
Proof.
  rewrite block_at_upd. destruct (decide (d = c)) as [->|Hne]; [|by right].
  intros (blk0 & H & ->)%fmap_Some. left. eauto.
Qed.

Lemma concat_alter {A B} (h : A -> list B) (g : A -> A) e (l : list A) c : (forall x, h (g x) = h x ++ e) ->
  is_Some (l !! c) -> concat (map h (alter g c l)) ≡ₚ concat (map h l) ++ e.
Proof.
  intros Hg. revert c. induction l as [|x l IH]; intros [|c] [y Hy]; try done.
  - cbn [alter list_alter map concat]. rewrite Hg, <- !app_assoc. f_equiv. apply Permutation_app_comm.
  - change (alter g (S c) (x :: l)) with (x :: alter g c l). cbn [map concat]. rewrite IH by (by eexists). by rewrite <- app_assoc.
Qed.

(** ** Appending an instruction *)

Lemma append_at_inv f c i f' : append_at f c i = Ok f' ->
  exists c0 blk, c = Some c0 /\ block_at f c0 = Some blk /\ f' = upd_block f c0 (fun blk => mir_block_append blk i).
Proof.
  unfold append_at. intros (c0 & Hc & H)%obind_Ok. apply obind_Ok in H as (blk & Hb & [= <-]).
  destruct c as [c|]; [|done]. injection Hc as ->. destruct (block_at f c0) as [blk0|] eqn:E; [|done]. by exists c0, blk0.
Qed.

Lemma targets_append blk i : block_targets (mir_block_append blk i) = block_targets blk ++ targets (as_ i).
Proof.
  unfold block_targets, mir_block_append, with_insts. cbn [insts].
  rewrite map_app, concat_app. cbn [map concat]. by rewrite app_nil_r.
Qed.

Lemma results_append blk i : block_results (mir_block_append blk i) =
  block_results blk ++ (if decide (result i = MIR_VALUE_NONE) then [] else [result i]).
Proof.
  unfold block_results, mir_block_append, with_insts. cbn [insts]. rewrite map_app, list.filter_app. cbn [map].
  destruct (decide (result i = MIR_VALUE_NONE)) as [->|H]; [done|]. by rewrite list.filter_cons_True.
Qed.

Lemma append_layout f c i f' : layout_ok [] c f -> append_at f c i = Ok f' -> layout_ok (targets (as_ i)) c f'.
Proof.
  intros [H1 H2 H3 H4 H5 H6 H7 H8] (c0 & blk & -> & Hc & ->)%append_at_inv.
  assert (Hlen : length (blocks (upd_block f c0 (fun blk => mir_block_append blk i))) = length (blocks f)) by apply length_alter.
  constructor; rewrite ?Hlen; try done.
  - intros d blk' [(-> & blk0 & Hd & ->)|[Hne Hd]]%upd_lookup; by apply (H4 _ _ Hd).
  - intros d blk' t [(-> & blk0 & Hd & ->)|[Hne Hd]]%upd_lookup; by apply (H5 _ _ t Hd).
  - intros d blk' s [(-> & blk0 & Hd & ->)|[Hne Hd]]%upd_lookup; by apply (H6 _ _ s Hd).
  - intros s t bs bt [(-> & bs0 & Hs & ->)|[Hne Hs]]%upd_lookup [(-> & bt0 & Ht & ->)|[Hne' Ht]]%upd_lookup;
      exact (H7 _ _ _ _ Hs Ht).
  - intros d blk' t [(-> & blk0 & Hd & ->)|[Hne Hd]]%upd_lookup; destruct (H8 _ _ t Hd) as [Ha Hb].
    + rewrite targets_append. change (successors (mir_block_append blk0 i)) with (successors blk0).
      split; [intros Ht; apply elem_of_app; left; by apply Ha|].
      intros [Ht|Ht]%elem_of_app; [|by right]. destruct (Hb Ht) as [?|[_ Hn]]; [by left|by apply elem_of_nil in Hn].
    + split; [done|]. intros Ht. destruct (Hb Ht) as [?|[_ Hn]]; [by left|by apply elem_of_nil in Hn].
Qed.

(** Appending leaves parameters, types and ids alone. *)
Lemma append_defined f c i f' : append_at f c i = Ok f' ->
  defined f' ≡ₚ defined f ++ (if decide (result i = MIR_VALUE_NONE) then [] else [result i]).
Proof.
  intros (c0 & blk & -> & Hc & ->)%append_at_inv. unfold defined, upd_block, with_blocks. cbn [params blocks].
  rewrite (concat_alter block_results _ (if decide (result i = MIR_VALUE_NONE) then [] else [result i])); [by rewrite app_assoc| |by eexists].
  intros x. apply results_append.
Qed.

Lemma append_insts f c i f' d blk j : append_at f c i = Ok f' -> block_at f' d = Some blk -> j ∈ insts blk ->
  j = i \/ exists blk0, block_at f d = Some blk0 /\ j ∈ insts blk0.
Proof.
  intros (c0 & blk0 & -> & Hc & ->)%append_at_inv [(-> & b0 & Hd & ->)|[Hne Hd]]%upd_lookup Hj; [|right; eauto].
  unfold mir_block_append, with_insts in Hj. cbn [insts] in Hj.
  apply elem_of_app in Hj as [Hj|Hj%list_elem_of_singleton]; [right; eauto|by left].
Qed.

Lemma append_fields f c i f' : append_at f c i = Ok f' ->
  next_value_id f' = next_value_id f /\ value_types f' = value_types f /\ params f' = params f.
Proof. intros (c0 & blk & -> & Hc & ->)%append_at_inv. done. Qed.

Lemma value_type_eq f f' v : value_types f' = value_types f -> mir_function_value_type f' v = mir_function_value_type f v.
Proof. intros E. unfold mir_function_value_type. by rewrite E. Qed.

Lemma append_void_values f c i f' : values_ok f -> result i = MIR_VALUE_NONE -> append_at f c i = Ok f' -> values_ok f'.
Proof.
  intros [Hr [U B P I]] Hn Ha. destruct (append_fields _ _ _ _ Ha) as (En & Et & Ep).
  pose proof (append_defined _ _ _ _ Ha) as Hd. rewrite decide_True, app_nil_r in Hd by done.
  constructor; rewrite ?En, ?Et; [done|]. constructor.
  - by rewrite Hd.
  - rewrite En, Hd. done.
  - unfold typed_as. rewrite Ep. intros p Hp. rewrite (value_type_eq f) by done. by apply P.
  - unfold typed_as. intros d blk j Hb Hj Hres. rewrite (value_type_eq f) by done.
    destruct (append_insts _ _ _ _ _ _ _ Ha Hb Hj) as [->|(blk0 & Hb0 & Hj0)]; [done|]. by apply (I d blk0).
Qed.

(** The result of [emit]: a fresh value of the instruction's type. *)
Lemma append_value_values f c i ty f1 v f' : (small f -> values_ok f) -> mir_function_new_value f ty = (f1, v) -> ty <> TY_NULL ->
  result i = v -> type i = ty -> append_at f1 c i = Ok f' -> small f' -> values_ok f'.
Proof.
  intros Hv En Hty Hres Hti Ha Hs. destruct (append_fields _ _ _ _ Ha) as (E1 & E2 & E3).
  assert (Hs1 : small (mir_function_new_value f ty).1) by (rewrite En; cbn [fst]; unfold small in *; by rewrite <- E1).
  destruct (Hv (new_value_small f ty Hs1)) as [Hr [U B P I]].
  pose proof (new_value_room f ty Hs1 Hr) as Hr1. pose proof (new_value_types f ty Hs1 Hr) as Ht. rewrite En in Hr1, Ht. cbn [fst] in *.
  assert (Hnext : v = next_value_id f /\ next_value_id f1 = (v + 1)%N /\ blocks f1 = blocks f /\ params f1 = params f) by (by injection En as <- <-).
  destruct Hnext as (Hvn & Hn1 & Hbl & Hpa).
  assert (Hnz : result i <> MIR_VALUE_NONE) by (rewrite Hres; lia).
  pose proof (append_defined _ _ _ _ Ha) as Hd. rewrite decide_False in Hd by done.
  assert (Hdf : defined f1 = defined f) by (unfold defined; by rewrite Hbl, Hpa). rewrite Hdf in Hd.
  assert (Hold : forall x, (0 < x < next_value_id f)%N -> mir_function_value_type f' x = mir_function_value_type f x).
  { intros x Hx. rewrite (value_type_eq f1) by done. rewrite Ht by lia. destruct (N.eqb_spec x (next_value_id f)); [lia|done]. }
  rewrite list.Forall_forall in B.
  constructor; rewrite ?E1, ?E2; [done|]. constructor.
  - rewrite Hd. apply list.NoDup_app. split; [done|]. split; [|apply NoDup_singleton].
    intros x Hx ->%list_elem_of_singleton. specialize (B _ Hx). lia.
  - rewrite E1, Hd. apply list.Forall_app. split; [|apply Forall_singleton; lia].
    apply list.Forall_forall. intros x Hx. specialize (B x Hx). cbn beta in *. lia.
  - unfold typed_as. rewrite E3, Hpa. intros p Hp. rewrite Hold; [by apply P|]. apply B, elem_of_app. left.
    apply list_elem_of_fmap. by exists p.
  - unfold typed_as. intros d blk j Hb Hj Hjr.
    destruct (append_insts _ _ _ _ _ _ _ Ha Hb Hj) as [->|(blk0 & Hb0 & Hj0)].
    + rewrite (value_type_eq f1), Hres, Ht by (done || lia). rewrite Hvn, N.eqb_refl, Hti. done.
    + unfold block_at in Hb0. rewrite Hbl in Hb0. rewrite Hold; [by apply (I d blk0)|]. apply B, elem_of_app. right.
      apply list_elem_of_In, in_concat. exists (block_results blk0). split.
      * apply in_map, list_elem_of_In. by eapply list_elem_of_lookup_2.
      * apply list_elem_of_In, list_elem_of_filter. split; [done|]. apply list_elem_of_fmap. by exists j.
Qed.

(** ** Linking blocks *)

Lemma elem_add_successor blk t x : x ∈ successors (mir_block_add_successor blk t) <-> x ∈ successors blk \/ x = t.
Proof.
  unfold mir_block_add_successor, ensure_block_array. case_bool_decide as H; [split; [by left|by intros [?| ->]]|].
  unfold with_succs. cbn [successors]. by rewrite elem_of_app, list_elem_of_singleton.
Qed.

Lemma elem_add_predecessor blk t x : x ∈ predecessors (mir_block_add_predecessor blk t) <-> x ∈ predecessors blk \/ x = t.
Proof.
  unfold mir_block_add_predecessor, ensure_block_array. case_bool_decide as H; [split; [by left|by intros [?| ->]]|].
  unfold with_preds. cbn [predecessors]. by rewrite elem_of_app, list_elem_of_singleton.
Qed.

Lemma add_successor_same blk t : predecessors (mir_block_add_successor blk t) = predecessors blk /\
  insts (mir_block_add_successor blk t) = insts blk /\ id (mir_block_add_successor blk t) = id blk.
Proof. unfold mir_block_add_successor. by case_bool_decide. Qed.

Lemma add_predecessor_same blk t : successors (mir_block_add_predecessor blk t) = successors blk /\
  insts (mir_block_add_predecessor blk t) = insts blk /\ id (mir_block_add_predecessor blk t) = id blk.
Proof. unfold mir_block_add_predecessor. by case_bool_decide. Qed.

(** The lists of every block after an edge from [s] to [t] has been added. *)
Lemma add_edge_at f s t f' : add_edge f (Some s) (Some t) = Ok f' ->
  (s < length (blocks f))%nat /\ (t < length (blocks f))%nat /\ f' = with_blocks f (blocks f') /\
  length (blocks f') = length (blocks f) /\
  forall d blk', block_at f' d = Some blk' -> exists blk, block_at f d = Some blk /\
    insts blk' = insts blk /\ id blk' = id blk /\
    (forall x, x ∈ successors blk' <-> x ∈ successors blk \/ d = s /\ x = t) /\
    (forall x, x ∈ predecessors blk' <-> x ∈ predecessors blk \/ d = t /\ x = s).
Proof.
  unfold add_edge. cbn [of_option obind]. intros (bs & Hs & H)%obind_Ok. apply obind_Ok in H as (bt & Ht & [= <-]).
  split; [apply block_at_lt; destruct (block_at f s); [by eexists|done]|].
  split; [apply block_at_lt; destruct (block_at f t); [by eexists|done]|].
  split; [by destruct f|]. split; [unfold upd_block, with_blocks; cbn [blocks]; by rewrite !length_alter|].
  intros d blk' [(-> & b1 & Hd & ->)|[Hne Hd]]%upd_lookup; apply upd_lookup in Hd as [(-> & b0 & Hd & ->)|[Hne2 Hd]].
  - exists b0. destruct (add_predecessor_same (mir_block_add_successor b0 s) s) as (-> & -> & ->), (add_successor_same b0 s) as (Ep & -> & ->).
    split_and!; try done; intros x; [rewrite elem_add_successor|rewrite elem_add_predecessor, Ep]; naive_solver.
  - exists b1. destruct (add_predecessor_same b1 s) as (-> & -> & ->).
    split_and!; try done; intros x; [|rewrite elem_add_predecessor]; naive_solver.
  - exists b0. destruct (add_successor_same b0 t) as (-> & -> & ->).
    split_and!; try done; intros x; [rewrite elem_add_successor|]; naive_solver.
  - exists blk'. split_and!; try done; intros x; naive_solver.
Qed.

Lemma add_edge_layout f s t pend f' : layout_ok (t :: pend) (Some s) f ->
  (exists blk, block_at f s = Some blk /\ t ∈ block_targets blk) ->
  add_edge f (Some s) (Some t) = Ok f' -> layout_ok pend (Some s) f'.
Proof.
  intros [H1 H2 H3 H4 H5 H6 H7 H8] (bs0 & Hbs & Htb) (Hs & Ht & Hf & Hlen & Hat)%add_edge_at.
  assert (Hsame : block_list f' = block_list f /\ block_count f' = block_count f /\ entry_block f' = entry_block f) by (by rewrite Hf).
  destruct Hsame as (E1 & E2 & E3). constructor; rewrite ?E1, ?E2, ?E3, ?Hlen; try done.
  - intros d blk' Hd. destruct (Hat d blk' Hd) as (blk & Hb & _ & -> & _). by apply H4.
  - intros d blk' x Hd. destruct (Hat d blk' Hd) as (blk & Hb & _ & _ & Hx & _). intros [Hx'|[_ ->]]%Hx; [by apply (H5 d blk)|done].
  - intros d blk' x Hd. destruct (Hat d blk' Hd) as (blk & Hb & _ & _ & _ & Hx). intros [Hx'|[_ ->]]%Hx; [by apply (H6 d blk)|done].
  - intros a b ba bb Ha Hb. destruct (Hat a ba Ha) as (ba0 & Ha0 & _ & _ & Hsx & _), (Hat b bb Hb) as (bb0 & Hb0 & _ & _ & _ & Hpx).
    rewrite Hsx, Hpx, (H7 a b ba0 bb0 Ha0 Hb0). naive_solver.
  - intros d blk' x Hd. destruct (Hat d blk' Hd) as (blk & Hb & Ei & _ & Hsx & _). unfold block_targets. rewrite Ei.
    fold (block_targets blk). destruct (H8 d blk x Hb) as [Ha Hc]. rewrite Hsx. split.
    + intros [Hx|[-> ->]]; [by apply Ha|]. rewrite Hbs in Hb. by injection Hb as <-.
    + intros Hx. destruct (Hc Hx) as [?|[Hcur Hin]]; [by left; left|]. apply elem_of_cons in Hin as [->|Hin]; [|by right].
      left. right. split; [congruence|done].
Qed.

(** ** The operations keep the invariant *)

(** [m] keeps the invariant; the instruction it adds may leave targets to link. *)
Definition keeps {A} (m : MB A) : Prop := forall b b' a, m b = Ok (b', a) -> built [] b -> built [] b'.

(** The part of the state the invariant does not look at. *)
Lemma built_same pend b b' : current_block b' = current_block b -> b_func b' = b_func b -> built pend b -> built pend b'.
Proof. intros E1 E2 [H1 H2]. constructor; by rewrite ?E1, ?E2. Qed.

Lemma keeps_ret {A} (a : A) : keeps (mret a).
Proof. by intros b b' x [= <- _]. Qed.

Lemma bind_inv {A B} (m : MB A) (k : A -> MB B) b b' y : (m ≫= k) b = Ok (b', y) ->
  exists b1 x, m b = Ok (b1, x) /\ k x b1 = Ok (b', y).
Proof. intros ([b1 x] & H1 & H2)%obind_Ok. by exists b1, x. Qed.

Lemma keeps_bind {A B} (m : MB A) (k : A -> MB B) : keeps m -> (forall x, keeps (k x)) -> keeps (m ≫= k).
Proof. intros Hm Hk b b' y (b1 & x & H1 & H2)%bind_inv Hb. eapply Hk, Hm; eauto. Qed.

Lemma keeps_frame {A} (m : MB A) : (forall b b' a, m b = Ok (b', a) -> current_block b' = current_block b /\ b_func b' = b_func b) -> keeps m.
Proof. intros H b b' a E. destruct (H b b' a E). by apply built_same. Qed.

Lemma keeps_mk_type g : keeps (mk_type g).
Proof. apply keeps_frame. by intros b b' a [= <- _]. Qed.

Lemma keeps_value_type v : keeps (value_type v).
Proof. apply keeps_frame. by intros b b' a [= <- _]. Qed.

Lemma keeps_pointee t : keeps (pointee_of t).
Proof. apply keeps_frame. by intros b b' a [= <- _]. Qed.

Lemma keeps_lookup_field st i : keeps (lookup_field st i).
Proof. apply keeps_frame. unfold lookup_field. intros b b' a (o & _ & [= <- _])%obind_Ok. done. Qed.

Lemma keeps_assert ok : keeps (mb_assert ok).
Proof. apply keeps_frame. unfold mb_assert. by intros b b' a; destruct ok; [intros [= <- _]|]. Qed.

Lemma has_result_not_null tc t : has_result tc t = true -> t <> TY_NULL.
Proof. intros H ->. done. Qed.

(** [emit] and [emit_void] with the targets still to be linked. *)
Lemma emit_built i b b' v : result i = MIR_VALUE_NONE -> emit i b = Ok (b', v) -> built [] b ->
  built (targets (as_ i)) b' /\ current_block b' = current_block b.
Proof.
  unfold emit. intros Hn H [HL HV]. destruct (has_result _ _) eqn:Hr.
  - destruct (mir_function_new_value (b_func b) (type i)) as [f1 w] eqn:En.
    apply obind_Ok in H as (f' & Ha & [= <- <-]). split; [|done].
    assert (HL1 : layout_ok [] (current_block b) f1) by (injection En as <- <-; by destruct HL).
    constructor; cbn [b_func with_func current_block].
    + exact (append_layout _ _ _ _ HL1 Ha).
    + exact (append_value_values _ _ (set_result i w) _ _ w _ HV En (has_result_not_null _ _ Hr) eq_refl eq_refl Ha).
  - apply obind_Ok in H as (f' & Ha & [= <- <-]). split; [|done]. constructor; cbn [b_func with_func current_block].
    + exact (append_layout _ _ _ _ HL Ha).
    + intros Hs. destruct (append_fields _ _ _ _ Ha) as (En & _ & _).
      apply (append_void_values (b_func b) _ (set_result i _) _ (HV ltac:(unfold small in *; lia)) Hn Ha).
Qed.

Lemma emit_void_built i b b' u : emit_void i b = Ok (b', u) -> built [] b ->
  built (targets (as_ i)) b' /\ current_block b' = current_block b /\
  exists c blk, current_block b = Some c /\ block_at (b_func b') c = Some blk /\ targets (as_ i) ⊆ block_targets blk.
Proof.
  unfold emit_void. intros (f' & Ha & [= <- <-])%obind_Ok [HL HV]. split; [|split; [done|]].
  - constructor; cbn [b_func with_func current_block].
    + exact (append_layout _ _ _ _ HL Ha).
    + intros Hs. destruct (append_fields _ _ _ _ Ha) as (En & _ & _).
      apply (append_void_values (b_func b) _ (set_result i _) _ (HV ltac:(unfold small in *; lia)) eq_refl Ha).
  - destruct (append_at_inv _ _ _ _ Ha) as (c & blk & Hc & Hb & ->). exists c, (mir_block_append blk (set_result i MIR_VALUE_NONE)).
    split; [done|]. split; [cbn [b_func with_func]; by rewrite block_at_upd_eq, Hb|]. rewrite targets_append. intros x Hx. apply elem_of_app. by right.
Qed.

(** The current block holds an instruction with these targets. *)
Definition has_targets (ts : list nat) (b : MirBuilder) : Prop :=
  exists c blk, current_block b = Some c /\ block_at (b_func b) c = Some blk /\ ts ⊆ block_targets blk.

Lemma emit_has_targets i b b' v : emit i b = Ok (b', v) -> has_targets (targets (as_ i)) b'.
Proof.
  unfold emit. destruct (has_result _ _); [destruct (mir_function_new_value _ _) as [f1 w]|];
    intros (f' & Ha & [= <- _])%obind_Ok; destruct (append_at_inv _ _ _ _ Ha) as (c & blk & Hc & Hb & ->);
    exists c; (eexists; split; [done|]); (split; [cbn [b_func with_func]; by rewrite block_at_upd_eq, Hb|]);
    rewrite targets_append; intros x Hx; apply elem_of_app; by right.
Qed.

Lemma link_built t pend ts b b' u : link_cfg t b = Ok (b', u) -> built (opt_list t ++ pend) b ->
  has_targets ts b -> opt_list t ⊆ ts -> built pend b' /\ has_targets ts b'.
Proof.
  unfold link_cfg. intros (f' & Ha & [= <- _])%obind_Ok [HL HV] (c & blk & Hc & Hb & Hts) Hin.
  destruct t as [t|]; [|unfold add_edge in Ha; by destruct (current_block b)]. cbn [opt_list app] in *. rewrite Hc in Ha, HL.
  destruct (add_edge_at _ _ _ _ Ha) as (Hclt & _ & Hf & Hlen & Hat).
  assert (Hkeep : forall d, is_Some (block_at (b_func b) d) -> is_Some (block_at f' d)) by (intros d; rewrite !block_at_lt, Hlen; done).
  destruct (Hkeep c ltac:(by eexists)) as [blk' Hb']. destruct (Hat c blk' Hb') as (blk0 & Hb0 & Ei & _).
  assert (Et : block_targets blk' = block_targets blk) by (rewrite Hb in Hb0; injection Hb0 as <-; unfold block_targets; by rewrite Ei).
  split; [|exists c, blk'; cbn [b_func with_func current_block]; by rewrite Et].
  constructor; cbn [b_func with_func current_block]; rewrite ?Hc.
  - apply (add_edge_layout (b_func b) c t pend); [done| |done]. exists blk. split; [done|]. by apply Hts, Hin, list_elem_of_singleton.
  - intros Hs. rewrite Hf in Hs |- *. destruct (HV Hs) as [Hr [U B P I]]. constructor; [done|].
    assert (Hd : defined (with_blocks (b_func b) (blocks f')) = defined (b_func b)).
    { unfold defined, with_blocks. cbn [params blocks]. do 2 f_equal. apply list_eq. intros d. rewrite !list_lookup_fmap.
      destruct (blocks f' !! d) as [blk1|] eqn:E; cbn [fmap option_fmap option_map].
      - destruct (Hat d blk1 E) as (blk2 & E2 & Ej & _). unfold block_at in E2. rewrite E2. cbn. unfold block_results. by rewrite Ej.
      - apply lookup_ge_None in E. rewrite Hlen in E. by rewrite (proj2 (lookup_ge_None _ _) E). }
    constructor; rewrite ?Hd; try done.
    intros d blk1 j Hd1 Hj. destruct (Hat d blk1) as (blk2 & E2 & Ej & _); [by rewrite Hf|]. apply (I d blk2); [done|by rewrite <- Ej].
Qed.

Lemma keeps_emit i : result i = MIR_VALUE_NONE -> targets (as_ i) = [] -> keeps (emit i).
Proof. intros Hr Ht b b' v E Hb. destruct (emit_built i b b' v Hr E Hb) as [H _]. by rewrite Ht in H. Qed.

Lemma keeps_emit_void i : targets (as_ i) = [] -> keeps (emit_void i).
Proof. intros Ht b b' v E Hb. destruct (emit_void_built i b b' v E Hb) as [H _]. by rewrite Ht in H. Qed.

#[local] Hint Resolve keeps_ret keeps_mk_type keeps_value_type keeps_pointee keeps_lookup_field keeps_assert : builder.

(** Operations are binds of the frame operations around one [emit]. *)
Ltac keeps_tac :=
  repeat match goal with
  | |- keeps (_ ≫= _) => apply keeps_bind; [|intro]
  | |- keeps (emit _) => apply keeps_emit; reflexivity
  | |- keeps (emit_void _) => apply keeps_emit_void; reflexivity
  | |- keeps (match ?o with _ => _ end) => destruct o
  | |- keeps _ => solve [eauto with builder]
  end.

Lemma keeps_link_one i t (k : tyref -> MirInst) : (forall ty, as_ (k ty) = i) -> targets i = opt_list t ->
  keeps (ty ← mk_type mir_type_void; _ ← emit_void (k ty); link_cfg t).
Proof.
  intros Hk Ht b b' u (b1 & ty & H1 & H2)%bind_inv Hb. apply (keeps_mk_type _ _ _ _ H1) in Hb.
  apply bind_inv in H2 as (b2 & u2 & H2 & H3). pose proof (emit_void_built _ _ _ _ H2 Hb) as (Hb2 & Hc2 & c & blk & Hc & Hat & Hts).
  rewrite Hk, Ht in Hb2, Hts. eapply (link_built t [] (opt_list t)); [done|by rewrite app_nil_r| |done].
  exists c, blk. by rewrite Hc2.
Qed.

Lemma keeps_br t : keeps (mir_build_br t).
Proof. apply (keeps_link_one (BR t) t); done. Qed.

Lemma keeps_condbr c t1 t2 : keeps (mir_build_condbr c t1 t2).
Proof.
  intros b b' u (b1 & ty & H1 & H2)%bind_inv Hb. apply (keeps_mk_type _ _ _ _ H1) in Hb.
  apply bind_inv in H2 as (b2 & u2 & H2 & H3). pose proof (emit_void_built _ _ _ _ H2 Hb) as (Hb2 & Hc2 & d & blk & Hd & Hat & Hts).
  apply bind_inv in H3 as (b3 & u3 & H3 & H4). cbn [as_ alloc_inst targets] in *.
  destruct (link_built t1 (opt_list t2) (opt_list t1 ++ opt_list t2) _ _ _ H3 Hb2) as [Hb3 Ht3];
    [exists d, blk; by rewrite Hc2|set_solver|].
  eapply (link_built t2 [] _ _ _ _ H4); [by rewrite app_nil_r|done|set_solver].
Qed.

Lemma keeps_suspend r v : keeps (mir_build_suspend r v).
Proof.
  intros b b' u (b1 & ty & H1 & H2)%bind_inv Hb. apply (keeps_value_type _ _ _ _ H1) in Hb.
  apply bind_inv in H2 as (b2 & u2 & H2 & H3). destruct (emit_built (alloc_inst (SUSPEND r v) ty) b1 b2 u2 eq_refl H2 Hb) as [Hb2 Hc2].
  apply emit_has_targets in H2. apply bind_inv in H3 as (b3 & u3 & H3 & [= <- _]). cbn [as_ alloc_inst targets] in *.
  eapply (link_built r [] (opt_list r)); [done|by rewrite app_nil_r|done|done].
Qed.

Lemma layout_any_cur cur cur' f : layout_ok [] cur f -> layout_ok [] cur' f.
Proof.
  intros [H1 H2 H3 H4 H5 H6 H7 H8]. constructor; try done. intros c blk t Hb. destruct (H8 c blk t Hb) as [Ha Hc].
  split; [done|]. intros Ht. destruct (Hc Ht) as [?|[_ Hn]]; [by left|by apply elem_of_nil in Hn].
Qed.

Lemma keeps_set_block c : keeps (mir_builder_set_block c).
Proof. intros b b' u [= <- _] [HL HV]. constructor; [exact (layout_any_cur _ c _ HL)|exact HV]. Qed.

Lemma add_block_at f lbl c blk : block_at (mir_function_add_block f lbl).1 c = Some blk ->
  block_at f c = Some blk \/ c = length (blocks f) /\ blk = new_block f lbl.
Proof.
  unfold block_at. cbn [mir_function_add_block fst blocks with_cfg]. intros [H|[Hge H]]%lookup_app_Some; [by left|].
  apply list_lookup_singleton_Some in H as [H <-]. right. split; [lia|done].
Qed.

Lemma add_block_layout f lbl cur : layout_ok [] cur f -> layout_ok [] cur (mir_function_add_block f lbl).1.
Proof.
  intros [H1 H2 H3 H4 H5 H6 H7 H8].
  assert (Hlen : length (blocks (mir_function_add_block f lbl).1) = S (length (blocks f))).
  { cbn [mir_function_add_block fst blocks with_cfg]. rewrite length_app. cbn [length]. lia. }
  constructor; rewrite ?Hlen.
  - cbn [mir_function_add_block fst block_list with_cfg]. by rewrite H1, seq_S.
  - cbn [mir_function_add_block fst block_count with_cfg]. lia.
  - cbn [mir_function_add_block fst block_list entry_block with_cfg]. rewrite H3. by destruct (block_list f).
  - intros c blk [Hc|[-> ->]]%add_block_at; [by apply H4|]. unfold new_block. cbn [id]. by rewrite H2.
  - intros c blk t [Hc|[-> ->]]%add_block_at Ht; [specialize (H5 c blk t Hc Ht); lia|by apply elem_of_nil in Ht].
  - intros c blk t [Hc|[-> ->]]%add_block_at Ht; [specialize (H6 c blk t Hc Ht); lia|by apply elem_of_nil in Ht].
  - intros s t bs bt [Hs|[-> ->]]%add_block_at [Ht|[-> ->]]%add_block_at; [by apply H7| | |by rewrite !elem_of_nil].
    + rewrite elem_of_nil. split; [|done]. intros Hin. specialize (H5 s bs _ Hs Hin). lia.
    + rewrite elem_of_nil. split; [done|]. intros Hin. specialize (H6 t bt _ Ht Hin). lia.
  - intros c blk t [Hc|[-> ->]]%add_block_at; [by apply H8|]. split; [done|]. intros Ht. by apply elem_of_nil in Ht.
Qed.

Lemma keeps_add_block lbl : keeps (add_block lbl).
Proof.
  intros b b' u [= <- _] [HL HV]. constructor; cbn [b_func with_func current_block]; [by apply add_block_layout|].
  intros Hs. destruct (HV Hs) as [Hr [U B P I]]. constructor; [done|].
  assert (Hd : defined (mir_function_add_block (b_func b) lbl).1 = defined (b_func b)).
  { unfold defined. cbn [mir_function_add_block fst blocks params with_cfg]. rewrite map_app, concat_app. cbn. by rewrite app_nil_r. }
  rewrite <- Hd in U, B. constructor; [exact U|exact B|exact P|].
  intros c blk i [Hc|[-> ->]]%add_block_at Hi; [exact (I c blk i Hc Hi)|by apply elem_of_nil in Hi].
Qed.

(** [mir_phi_add_edge] on the instruction [j] of the block [c]. *)
Definition phi_add_edge_at (c j : nat) (from : blockptr) (v : MirValueId) : MB unit := fun b =>
  let! blk := of_option (block_at (b_func b) c) in
  let! i := of_option (insts blk !! j) in
  let! i := mir_phi_add_edge i from v in
  Ok (with_func b (upd_block (b_func b) c (fun blk => with_insts blk (<[j := i]> (insts blk)) (inst_count blk))), tt).

Lemma insert_map {A B} (h : A -> B) (l : list A) j x y : l !! j = Some x -> h y = h x -> map h (<[j := y]> l) = map h l.
Proof.
  intros Hj Hh. apply list_eq. intros k. rewrite !list_lookup_fmap. destruct (decide (k = j)) as [->|Hne].
  - rewrite list_lookup_insert_eq by (by eapply lookup_lt_Some). rewrite Hj. cbn. by rewrite Hh.
  - by rewrite list_lookup_insert_ne.
Qed.

Lemma insert_elem {A} (l : list A) j x y k : l !! j = Some x -> k ∈ <[j := y]> l -> k ∈ l \/ k = y.
Proof.
  intros Hj [n Hn]%list_elem_of_lookup. destruct (decide (n = j)) as [->|Hne].
  - rewrite list_lookup_insert_eq in Hn by (by eapply lookup_lt_Some). injection Hn as <-. by right.
  - rewrite list_lookup_insert_ne in Hn by done. left. by eapply list_elem_of_lookup_2.
Qed.

Lemma phi_edge_same i from v i' : mir_phi_add_edge i from v = Ok i' ->
  targets (as_ i') = targets (as_ i) /\ result i' = result i /\ type i' = type i.
Proof. unfold mir_phi_add_edge. destruct (as_ i) eqn:Ek; try done. by intros [= <-]. Qed.

(** Replacing an instruction by one with the same targets, result and type. *)
Section replace.
Context (f : MirFunction) (c j : nat) (blk : MirBlock) (i i' : MirInst).
Hypothesis Hblk : block_at f c = Some blk.
Hypothesis Hi : insts blk !! j = Some i.
Hypothesis Hsame : targets (as_ i') = targets (as_ i) /\ result i' = result i /\ type i' = type i.

Let g := fun b => with_insts b (<[j := i']> (insts b)) (inst_count b).

Lemma replace_block : block_targets (g blk) = block_targets blk /\ block_results (g blk) = block_results blk.
Proof.
  destruct Hsame as (Et & Er & _). unfold block_targets, block_results, g, with_insts. cbn [insts].
  rewrite (insert_map _ _ _ i), (insert_map _ _ _ i) by (done || by rewrite Et). done.
Qed.

Lemma replace_at d bd : block_at (upd_block f c g) d = Some bd -> exists b0, block_at f d = Some b0 /\
  id bd = id b0 /\ successors bd = successors b0 /\ predecessors bd = predecessors b0 /\ block_targets bd = block_targets b0 /\
  (forall k, k ∈ insts bd -> exists k0, k0 ∈ insts b0 /\ result k = result k0 /\ type k = type k0).
Proof.
  intros [(-> & b0 & Hd & ->)|[Hne Hd]]%upd_lookup; [|by exists bd; split_and!; eauto].
  rewrite Hblk in Hd. injection Hd as <-. exists blk. split_and!; try done; [apply replace_block|].
  intros k Hk. destruct (insert_elem _ _ _ _ _ Hi Hk) as [?| ->]; [by exists k|]. exists i.
  split; [by eapply list_elem_of_lookup_2|apply Hsame].
Qed.

Lemma replace_layout cur : layout_ok [] cur f -> layout_ok [] cur (upd_block f c g).
Proof.
  intros [H1 H2 H3 H4 H5 H6 H7 H8].
  assert (Hlen : length (blocks (upd_block f c g)) = length (blocks f)) by apply length_alter.
  constructor; rewrite ?Hlen; try done.
  - intros d bd (b0 & Hd & -> & _)%replace_at. by apply H4.
  - intros d bd t (b0 & Hd & _ & -> & _)%replace_at. by apply (H5 d).
  - intros d bd t (b0 & Hd & _ & _ & -> & _)%replace_at. by apply (H6 d).
  - intros s t bs bt (b0 & Hs & _ & -> & _)%replace_at (b1 & Ht & _ & _ & -> & _)%replace_at. by apply H7.
  - intros d bd t (b0 & Hd & _ & -> & _ & -> & _)%replace_at. by apply (H8 d).
Qed.

Lemma replace_defined : defined (upd_block f c g) = defined f.
Proof.
  unfold defined, upd_block, with_blocks. cbn [params blocks]. do 2 f_equal. apply list_eq. intros d. rewrite !list_lookup_fmap.
  destruct (decide (d = c)) as [->|Hne]; [|by rewrite list_lookup_alter_ne].
  unfold block_at in Hblk. rewrite list_lookup_alter_eq, Hblk. cbn. f_equal. apply replace_block.
Qed.

Lemma replace_values : values_ok f -> values_ok (upd_block f c g).
Proof.
  intros [Hr [U B P I]]. constructor; [done|]. constructor; rewrite ?replace_defined; [exact U|exact B|exact P|].
  intros d bd k (b0 & Hd & _ & _ & _ & _ & Hk)%replace_at Hin. destruct (Hk k Hin) as (k0 & Hk0 & -> & ->). exact (I d b0 k0 Hd Hk0).
Qed.
End replace.

Lemma keeps_phi_add_edge c j from v : keeps (phi_add_edge_at c j from v).
Proof.
  unfold phi_add_edge_at. intros b b' u (blk & Hb & H)%obind_Ok [HL HV]. apply obind_Ok in H as (i & Hi & H).
  apply obind_Ok in H as (i' & Hp & [= <- _]). apply phi_edge_same in Hp.
  destruct (block_at (b_func b) c) as [blk0|] eqn:Eb; [|done]. injection Hb as ->.
  destruct (insts blk !! j) as [i0|] eqn:Ei; [|done]. injection Hi as ->.
  constructor; cbn [b_func with_func current_block]; [by eapply replace_layout|]. intros Hs. eapply replace_values; eauto.
Qed.

(** ** The start: a function added to the module *)

Lemma add_param_values f n ty f1 v : blocks f = [] -> mir_function_new_value f ty = (f1, v) ->
  (small f -> values_ok f) -> small f1 -> values_ok (with_params f1 (params f1 ++ [mkParam n ty v])).
Proof.
  intros Hbl En Hv Hs. assert (Hs1 : small (mir_function_new_value f ty).1) by (by rewrite En).
  destruct (Hv (new_value_small f ty Hs1)) as [Hr [U B P I]].
  pose proof (new_value_room f ty Hs1 Hr) as Hr1. pose proof (new_value_types f ty Hs1 Hr) as Ht. rewrite En in Hr1, Ht. cbn [fst] in *.
  assert (Hf : v = next_value_id f /\ next_value_id f1 = (v + 1)%N /\ blocks f1 = [] /\ params f1 = params f) by (by injection En as <- <-).
  destruct Hf as (Hvn & Hn1 & Hbl1 & Hpa).
  set (f2 := with_params f1 _).
  assert (Hd : defined f2 = defined f ++ [v]).
  { unfold defined, f2, with_params. cbn [params blocks]. rewrite Hbl, Hbl1, Hpa, map_app. cbn. by rewrite !app_nil_r. }
  rewrite list.Forall_forall in B. constructor; [exact Hr1|]. constructor.
  - rewrite Hd. apply list.NoDup_app. split; [done|]. split; [|apply NoDup_singleton].
    intros x Hx ->%list_elem_of_singleton. specialize (B _ Hx). lia.
  - rewrite Hd. change (next_value_id f2) with (next_value_id f1). apply list.Forall_app. split; [|apply Forall_singleton; lia].
    apply list.Forall_forall. intros x Hx. specialize (B x Hx). cbn beta in *. lia.
  - unfold typed_as, f2. cbn [params with_params]. intros p [Hp|Hp%list_elem_of_singleton]%elem_of_app.
    + rewrite Hpa in Hp. rewrite (value_type_eq f1) by done.
      assert (Hin : p_value_id p ∈ defined f) by (apply elem_of_app; left; apply list_elem_of_fmap; by exists p).
      specialize (B _ Hin). rewrite Ht by lia. destruct (N.eqb_spec (p_value_id p) (next_value_id f)); [lia|]. by apply P.
    + subst p. cbn [p_value_id p_type]. rewrite (value_type_eq f1), Ht by (done || lia). by rewrite Hvn, N.eqb_refl.
  - intros c blk i Hc. unfold block_at, f2, with_params in Hc. cbn [blocks] in Hc. by rewrite Hbl1 in Hc.
Qed.

Lemma add_params_layout ps f : blocks (add_params f ps) = blocks f /\ block_list (add_params f ps) = block_list f /\
  block_count (add_params f ps) = block_count f /\ entry_block (add_params f ps) = entry_block f /\
  (next_value_id f <= next_value_id (add_params f ps))%N.
Proof.
  revert f. induction ps as [|[n ty] ps IH]; intros f; [cbn; split_and!; done || lia|].
  cbn [add_params]. destruct (mir_function_new_value f ty) as [f1 v] eqn:En.
  destruct (IH (with_params f1 (params f1 ++ [mkParam n ty v]))) as (-> & -> & -> & -> & Hn).
  injection En as <- <-. split_and!; try done. cbn in Hn |- *. lia.
Qed.

Lemma add_params_values ps : forall f, blocks f = [] -> (small f -> values_ok f) -> small (add_params f ps) -> values_ok (add_params f ps).
Proof.
  induction ps as [|[n ty] ps IH]; intros f Hbl Hv Hs; [by apply Hv|].
  cbn [add_params] in *. destruct (mir_function_new_value f ty) as [f1 v] eqn:En.
  apply IH; [by injection En as <- <-| |done]. intros Hs'. by eapply (add_param_values f).
Qed.

(** A builder on the function [mir_module_add_function] returns. *)
Definition builder_start (m : MirModule) (name : string) (ret : tyref) (ps : list (string * tyref)) : MirBuilder :=
  let r := mir_module_add_function m name ret ps in mir_builder_init r.1 r.2.

Lemma start_built m name ret ps : built [] (builder_start m name ret ps).
Proof.
  unfold builder_start, mir_module_add_function, mir_builder_init. cbn [fst snd].
  set (f0 := mkFunction _ _ _ _ _ _ _ _ _ _ _ _). destruct (add_params_layout ps f0) as (E1 & E2 & E3 & E4 & _).
  constructor; cbn [b_func current_block].
  - constructor; rewrite ?E1, ?E2, ?E3, ?E4; try done; intros *; unfold block_at; rewrite E1; done.
  - apply add_params_values; [done|]. intros _. constructor; [cbn; lia|]. constructor; cbn; try done; [constructor|].
    intros p Hp. by apply elem_of_nil in Hp.
Qed.

(** ** Any sequence of operations *)

(** A call of one of the functions of [mir_builder.c], of
    [mir_function_add_block], or of a type constructor of the cache. *)
Inductive build_op : forall {A}, MB A -> Prop :=
| op_set_block c : build_op (mir_builder_set_block c)
| op_add_block lbl : build_op (add_block lbl)
| op_type g : build_op (mk_type g)
| op_const_int v t : build_op (mir_build_const_int v t)
| op_const_float v t : build_op (mir_build_const_float v t)
| op_const_bool v : build_op (mir_build_const_bool v)
| op_const_string s : build_op (mir_build_const_string s)
| op_const_func s t : build_op (mir_build_const_func s t)
| op_const_null t : build_op (mir_build_const_null t)
| op_global_addr s t : build_op (mir_build_global_addr s t)
| op_binary o a b : build_op (build_binary o a b)
| op_cmp o a b : build_op (build_cmp o a b)
| op_neg a : build_op (mir_build_neg a)
| op_fneg a : build_op (mir_build_fneg a)
| op_not a : build_op (mir_build_not a)
| op_alloca t : build_op (mir_build_alloca t)
| op_load p t : build_op (mir_build_load p t)
| op_store p v : build_op (mir_build_store p v)
| op_field_ptr b i : build_op (mir_build_get_field_ptr b i)
| op_elem_ptr b i : build_op (mir_build_get_elem_ptr b i)
| op_br t : build_op (mir_build_br t)
| op_condbr c t f : build_op (mir_build_condbr c t f)
| op_ret v : build_op (mir_build_ret v)
| op_ret_void : build_op mir_build_ret_void
| op_suspend r v : build_op (mir_build_suspend r v)
| op_call s l t : build_op (mir_build_call s l t)
| op_call_indirect c l t : build_op (mir_build_call_indirect c l t)
| op_call_virtual s i l t : build_op (mir_build_call_virtual s i l t)
| op_phi t : build_op (mir_build_phi t)
| op_phi_edge c j from v : build_op (phi_add_edge_at c j from v)
| op_convert o v t : build_op (build_convert o v t)
| op_borrow m v : build_op (build_borrow m v)
| op_move v : build_op (mir_build_move v)
| op_refop o v : build_op (build_refop o v)
| op_obj_alloc s n : build_op (mir_build_obj_alloc s n)
| op_struct_init t l : build_op (mir_build_struct_init t l)
| op_extract a i : build_op (mir_build_extract a i)
| op_insert a i v : build_op (mir_build_insert a i v)
| op_vec_load p t w al : build_op (mir_build_vec_load p t w al)
| op_vec_store p v t w al : build_op (mir_build_vec_store p v t w al)
| op_vec_broadcast s t w : build_op (mir_build_vec_broadcast s t w)
| op_vec_binop o a b t w : build_op (mir_build_vec_binop o a b t w)
| op_vec_fma a b c t w : build_op (mir_build_vec_fma a b c t w)
| op_vec_reduce v t w : build_op (mir_build_vec_reduce_sum v t w)
| op_vec_dot a b t w : build_op (mir_build_vec_dot a b t w)
| op_vec_cmp o a b t w : build_op (mir_build_vec_cmp o a b t w)
| op_vec_select m a b t w : build_op (mir_build_vec_select m a b t w).

Lemma keeps_const_string s : keeps (mir_build_const_string s).
Proof.
  unfold mir_build_const_string. do 2 (apply keeps_bind; [apply keeps_mk_type|intro]). apply keeps_bind; [|intro; by apply keeps_emit].
  apply keeps_frame. intros b b' a (str & _ & [= <- _])%obind_Ok. done.
Qed.

Lemma build_op_keeps A (m : MB A) : build_op m -> keeps m.
Proof.
  destruct 1; try (by apply keeps_set_block || by apply keeps_add_block || by apply keeps_const_string || by apply keeps_br ||
    by apply keeps_condbr || by apply keeps_suspend || by apply keeps_phi_add_edge);
    unfold mir_build_const_int, mir_build_const_float, mir_build_const_bool, mir_build_const_func, mir_build_const_null,
      mir_build_global_addr, build_binary, build_cmp, mir_build_neg, mir_build_fneg, mir_build_not, mir_build_alloca, mir_build_load,
      mir_build_store, mir_build_get_field_ptr, mir_build_get_elem_ptr, mir_build_ret, mir_build_ret_void, mir_build_call,
      mir_build_call_indirect, mir_build_call_virtual, mir_build_phi, build_convert, build_borrow, mir_build_move, build_refop,
      mir_build_obj_alloc, mir_build_struct_init, mir_build_extract, mir_build_insert, mir_build_vec_load, mir_build_vec_store,
      mir_build_vec_broadcast, mir_build_vec_binop, mir_build_vec_fma, mir_build_vec_reduce_sum, mir_build_vec_dot,
      mir_build_vec_cmp, mir_build_vec_select; keeps_tac.
Qed.

Definition build_step (b b' : MirBuilder) : Prop := exists A (m : MB A) a, build_op m /\ m b = Ok (b', a).

Lemma build_steps_built b b' : rtc build_step b b' -> built [] b -> built [] b'.
Proof. induction 1 as [|b b1 b' (A & m & a & Hm & E) _ IH]; [done|]. intros Hb. apply IH. by apply (build_op_keeps A m Hm b b1 a). Qed.

Lemma collect_cases_sub cap l t : t ∈ collect_cases cap l -> t ∈ omap (fun o : blockptr => o) l.
Proof.
  revert cap. induction l as [|o l IH]; intros cap; [by destruct cap|]. destruct o as [x|].
  - destruct cap as [|cap]; [intros Hn; by apply elem_of_nil in Hn|]. cbn. intros [->|Ht]%elem_of_cons; [by left|right; by eapply IH].
  - destruct cap as [|cap]; cbn; [intros Hn; by apply elem_of_nil in Hn|apply IH].
Qed.

Lemma term_succs_targets blk cap t : t ∈ mir_collect_term_succs (block_last blk) cap -> t ∈ block_targets blk.
Proof.
  unfold block_last. destruct (list.last (insts blk)) as [i|] eqn:El; [|intros Hn; by apply elem_of_nil in Hn].
  intros Ht. apply last_Some in El as [l El]. apply list_elem_of_In, in_concat. exists (targets (as_ i)). split.
  - apply in_map_iff. exists i. split; [done|]. rewrite El. apply in_app_iff. right. by left.
  - apply list_elem_of_In. cbn [fmap option_fmap option_map mir_collect_term_succs] in Ht.
    destruct (as_ i); cbn [targets]; try (by apply elem_of_nil in Ht); try done.
    assert (Hom : forall t, t ∈ omap (fun o : blockptr => o) cases.*2 -> t ∈ omap snd cases).
    { intros x [o [Ho Hx]]%list_elem_of_omap. apply list_elem_of_omap. apply list_elem_of_fmap in Ho as (p & -> & Hp). by exists p. }
    apply elem_of_app. destruct (_ <? _)%nat; [apply elem_of_app in Ht as [Ht|Ht]; [|by right]|]; left; by eapply Hom, collect_cases_sub.
Qed.

(** The invariant in the terms of the verifier and of the passes. *)
Lemma built_wf b : built [] b -> small (b_func b) -> block_count (b_func b) < 2 ^ 32 ->
  func_wf (b_func b) /\ ssa_ok (b_func b) /\ cfg_ok (b_func b).
Proof.
  intros [[H1 H2 H3 H4 H5 H6 H7 H8] HV] Hs Hc.
  assert (Hin : forall c, c ∈ block_list (b_func b) <-> (c < length (blocks (b_func b)))%nat) by (intros c; rewrite H1, elem_of_seq; lia).
  assert (Htg : forall c blk t, block_at (b_func b) c = Some blk -> t ∈ successors blk <-> t ∈ block_targets blk).
  { intros c blk t Hb. destruct (H8 c blk t Hb) as [Ha Hd]. split; [done|]. intros Ht. destruct (Hd Ht) as [?|[_ Hn]]; [done|by apply elem_of_nil in Hn]. }
  split; [|split; [by apply HV|]].
  - constructor; [|by rewrite H1, length_seq|done|].
    + intros i c Hi. rewrite H1 in Hi. apply lookup_seq in Hi as [-> Hi].
      destruct (proj2 (block_at_lt (b_func b) i) Hi) as [blk Hb]. exists blk. split; [done|]. rewrite (H4 i blk Hb). unfold u32. apply Z.mod_small. lia.
    + intros c blk t _ Hb Ht. apply Hin, (H5 c blk t Hb), (Htg c blk t Hb). by eapply term_succs_targets.
  - constructor; [done|done|]. intros c blk t Hb Ht. by apply Hin, (H5 c blk t).
Qed.

(** C14: Functions built through the builder are well formed.  Whatever
    sequence of builder calls follows [mir_module_add_function], with fewer
    than 2^31 values and 2^32 blocks, the function has the structural
    invariant of the verifier, every value has one definition and the type of
    its definition in the value table, and the successor and predecessor lists
    are exactly the edges of the emitted instructions. *)
Theorem builder_ssa m name ret ps b (Hrun : rtc build_step (builder_start m name ret ps) b)
  (Hvals : Z.of_N (next_value_id (b_func b)) < 2 ^ 31) (Hblocks : block_count (b_func b) < 2 ^ 32) :
  func_wf (b_func b) /\ ssa_ok (b_func b) /\ cfg_ok (b_func b).
Proof. apply built_wf; [|done|done]. by eapply build_steps_built, start_built. Qed.

(** A loop that counts its argument down. *)
Definition ex_countdown : MB unit :=
  i64 ← mk_type mir_type_i64;
  entry ← add_block "entry"; loop ← add_block "loop"; exit ← add_block "exit";
  _ ← mir_builder_set_block (Some entry);
  one ← mir_build_const_int 1 i64; _ ← mir_build_br (Some loop);
  _ ← mir_builder_set_block (Some loop);
  n ← mir_build_phi i64; n' ← mir_build_sub n one; c ← mir_build_cmp_gt n' one;
  _ ← phi_add_edge_at loop 0 (Some entry) 1%N; _ ← phi_add_edge_at loop 0 (Some loop) n';
  _ ← mir_build_condbr c (Some loop) (Some exit);
  _ ← mir_builder_set_block (Some exit);
  mir_build_ret n'.

Inductive build_prog : forall {A}, MB A -> Prop :=
| prog_op A (m : MB A) : build_op m -> build_prog m
| prog_bind A B (m : MB A) (k : A -> MB B) : build_prog m -> (forall x, build_prog (k x)) -> build_prog (m ≫= k).

Lemma prog_steps A (m : MB A) : build_prog m -> forall b b' a, m b = Ok (b', a) -> rtc build_step b b'.
Proof.
  induction 1 as [A m Hm|A B m k Hm IHm Hk IHk]; intros b b' a E.
  - apply rtc_once. by exists A, m, a.
  - apply bind_inv in E as (b1 & x & E1 & E2). etransitivity; [by eapply IHm|by eapply IHk].
Qed.

Lemma countdown_prog : build_prog ex_countdown.
Proof.
  unfold ex_countdown.
  repeat first [apply prog_op; solve [apply op_type | apply op_add_block | apply op_set_block | apply op_const_int | apply op_br | apply op_phi
      | apply op_binary | apply op_cmp | apply op_phi_edge | apply op_condbr | apply op_ret] | apply prog_bind; [|intro]].
Qed.

Definition ex_countdown_start : MirBuilder := builder_start (mir_module_create "m") "count" 1 [("n"%string, 1%N)].

Definition ex_countdown_end : MirBuilder :=
  match ex_countdown ex_countdown_start with Ok r => r.1 | _ => ex_countdown_start end.

Lemma countdown_runs : ex_countdown ex_countdown_start = Ok (ex_countdown_end, tt).
Proof. vm_compute. reflexivity. Qed.

Lemma countdown_steps : rtc build_step ex_countdown_start ex_countdown_end.
Proof. exact (prog_steps _ _ countdown_prog _ _ _ countdown_runs). Qed.

(** The countdown loop is built as a well-formed function. *)
Lemma builder_ssa_witness : func_wf (b_func ex_countdown_end) /\ ssa_ok (b_func ex_countdown_end) /\ cfg_ok (b_func ex_countdown_end).
Proof.
  apply (builder_ssa (mir_module_create "m") "count" 1 [("n"%string, 1%N)]); [exact countdown_steps| |]; vm_compute; reflexivity.
Defined.
