(* ===== verification/Worklist.v ===== *)
(** * Arrays indexed by block ids and work lists

    Several passes keep arrays with an entry per block, indexed by the block's
    id, and iterate over a queue of blocks that holds a block at most once: the
    [PUSH_WL] and [POP_WL] macros of [src/compiler/ir/mir_borrow.c] (the ring
    they fill is a queue here; [in_worklist] keeps it within its array). *)
From S2P Require Import Prelude MirCore MirGraph.

(** [a[i] = x] *)
Definition set_at {A} (i : Z) (x : A) (l : list A) : outcome (list A) :=
  if (Z.to_nat i <? length l)%nat then Ok (<[Z.to_nat i := x]> l) else Undef.
Definition get_at {A} (i : Z) (l : list A) : outcome A := of_option (l !! Z.to_nat i).

(** ** The work list *)

Record Worklist := mkWl { wl_queue : list nat; wl_in : list bool }.

(** [PUSH_WL(bb)] *)
Definition push_wl (f : MirFunction) (bb : nat) (w : Worklist) : outcome Worklist :=
  let! b := of_option (block_at f bb) in
  let! seen := get_at (id b) (wl_in w) in
  if (seen : bool) then Ok w
  else if (length (wl_queue w) <? length (wl_in w))%nat then
    let! m := set_at (id b) true (wl_in w) in
    Ok (mkWl (wl_queue w ++ [bb]) m)
  else Undef.

(** [while (wl_count > 0)]: [step] treats a block and tells which ones to push. *)
Fixpoint wl_loop {A} (step : MirBlock -> A -> outcome (A * list nat)) (fuel : nat) (f : MirFunction) (w : Worklist) (st : A)
  : outcome A :=
  match wl_queue w with
  | [] => Ok st
  | bb :: q =>
      match fuel with
      | O => OutOfFuel
      | S fuel =>
          let! b := of_option (block_at f bb) in
          let! m := set_at (id b) false (wl_in w) in
          let! r := step b st in
          let! w := ofold (push_wl f) r.2 (mkWl q m) in
          wl_loop step fuel f w r.1
      end
  end.

(** ** Tables indexed by block ids *)

Section tables.
Context (bl : list nat) (Hnd : NoDup bl).

Definition table {A} (l : list A) (p : nat -> A) : Prop :=
  length l = length bl /\ forall i b, bl !! i = Some b -> l !! i = Some (p b).

Lemma table_get {A} (l : list A) p i b : table l p -> bl !! i = Some b -> get_at (Z.of_nat i) l = Ok (p b).
Proof. intros [_ H] Hi. unfold get_at. rewrite Nat2Z.id. by rewrite (H i b Hi). Qed.

Lemma table_set {A} (l : list A) p i b x : table l p -> bl !! i = Some b ->
  exists l', set_at (Z.of_nat i) x l = Ok l' /\ l' = <[i := x]> l /\ table l' (fun c => if decide (c = b) then x else p c).
Proof.
  intros [Hl H] Hi. unfold set_at. rewrite Nat2Z.id. pose proof (lookup_lt_Some _ _ _ Hi).
  destruct (Nat.ltb_spec i (length l)); [|lia]. eexists. split_and!; [done..|].
  split; [by rewrite length_insert|]. intros j c Hj. destruct (decide (c = b)) as [->|Hne].
  - rewrite (NoDup_lookup _ _ _ _ Hnd Hj Hi). apply list_lookup_insert_eq. lia.
  - rewrite list_lookup_insert_ne; [by apply H|]. intros ->. congruence.
Qed.

Lemma table_ext {A} (l : list A) p q : (forall b, p b = q b) -> table l p -> table l q.
Proof. intros H [Hl Ht]. split; [done|]. intros i b Hi. rewrite <- H. by apply Ht. Qed.

Lemma table_replicate {A} (x : A) : table (replicate (length bl) x) (fun _ => x).
Proof.
  split; [by rewrite length_replicate|]. intros i b Hi. apply lookup_replicate_2. by apply lookup_lt_Some in Hi.
Qed.
End tables.

(** ** The queue *)

Section queue.
Context (f : MirFunction) (Hids : ids_ok f).
Abbreviation bl := (block_list f).

Record wl_ok (w : Worklist) : Prop := {
  wo_nodup : NoDup (wl_queue w);
  wo_in : forall b, b ∈ wl_queue w -> b ∈ bl;
  wo_marks : table bl (wl_in w) (fun b => bool_decide (b ∈ wl_queue w))
}.

Lemma push_wl_spec b w : wl_ok w -> b ∈ bl -> exists w', push_wl f b w = Ok w' /\ wl_ok w' /\
  forall c, c ∈ wl_queue w' <-> c ∈ wl_queue w \/ c = b.
Proof.
  intros [Hnd Hin Hm] Hb. pose proof Hb as [i Hi]%list_elem_of_lookup. destruct (Hids i b Hi) as (blk & Hblk & Hid).
  unfold push_wl. rewrite Hblk. cbn [of_option obind]. rewrite Hid, (table_get _ _ _ _ _ Hm Hi). cbn [obind].
  case_bool_decide as Hq; [exists w; split; [done|split; [done|]]; intros c; split; [by left|by intros [?| ->]]|].
  destruct Hm as [Hlen Hm]. rewrite Hlen.
  assert (Hroom : (length (wl_queue w) < length bl)%nat).
  { apply (Nat.lt_le_trans _ (length (b :: wl_queue w))); [simpl; lia|]. apply submseteq_length, NoDup_submseteq; [by constructor|].
    intros c [->|Hc]%elem_of_cons; [done|by apply Hin]. }
  apply Nat.ltb_lt in Hroom as ->. destruct (table_set bl (ids_nodup f Hids) (wl_in w) _ i b true (conj Hlen Hm) Hi) as (l' & -> & _ & Ht).
  cbn [obind]. eexists. split; [done|]. split; [|intros c; simpl; set_solver]. split; simpl.
  - apply list.NoDup_app. split_and!; [done|intros c Hc ->%list_elem_of_singleton; done|apply NoDup_singleton].
  - intros c [Hc| ->%list_elem_of_singleton]%elem_of_app; [by apply Hin|done].
  - eapply table_ext; [|exact Ht]. intros c. simpl. destruct (decide (c = b)) as [->|]; [symmetry; apply bool_decide_eq_true_2; set_solver|].
    apply bool_decide_ext. set_solver.
Qed.

Lemma push_all_spec l w : wl_ok w -> (forall b, b ∈ l -> b ∈ bl) -> exists w', ofold (push_wl f) l w = Ok w' /\ wl_ok w' /\
  forall c, c ∈ wl_queue w' <-> c ∈ wl_queue w \/ c ∈ l.
Proof.
  revert w. induction l as [|b l IH]; intros w Hw Hl; [exists w; split_and!; [done..|]; intros c; set_solver|].
  destruct (push_wl_spec b w Hw) as (w1 & Hr & Hw1 & Hq1); [apply Hl; by left|].
  destruct (IH w1 Hw1) as (w2 & Hr2 & Hw2 & Hq2); [intros c Hc; apply Hl; by right|].
  exists w2. cbn [ofold]. rewrite Hr. split_and!; [done|done|]. intros c. rewrite Hq2, Hq1. set_solver.
Qed.

Lemma pop_wl_spec b q m i : wl_ok (mkWl (b :: q) m) -> bl !! i = Some b ->
  exists m', set_at (Z.of_nat i) false m = Ok m' /\ wl_ok (mkWl q m').
Proof.
  intros [Hnd Hin Hm] Hi. simpl in *. apply list.NoDup_cons in Hnd as [Hb Hnd].
  destruct (table_set bl (ids_nodup f Hids) m _ i b false Hm Hi) as (m' & Hs & _ & Ht). exists m'. split; [done|].
  split; simpl; [done|intros c Hc; apply Hin; by right|]. eapply table_ext; [|exact Ht]. intros c. simpl.
  destruct (decide (c = b)) as [->|]; [by rewrite bool_decide_eq_false_2|]. apply bool_decide_ext. set_solver.
Qed.
End queue.

(** ** The solver

    Data-flow equations [bits b v = gen b v || outs b v && negb (kill b v)]
    where [outs b v] is the union of the [bits] of the neighbours of [b].  The
    step of a pass evaluates the equation of one block and pushes the blocks
    that read it if it changed. *)

Lemma filter_length_le {A} (p q : A -> bool) l : (forall y, y ∈ l -> q y = true -> p y = true) ->
  (length (List.filter q l) <= length (List.filter p l))%nat.
Proof.
  induction l as [|y l IH]; intros H; [done|]. simpl. specialize (IH (fun z Hz => H z (list_elem_of_further _ _ _ Hz))).
  destruct (q y) eqn:Eq; [rewrite (H y); [simpl; lia|by left|done]|]. destruct (p y); simpl; lia.
Qed.

Lemma filter_length_lt {A} (p q : A -> bool) l x : (forall y, y ∈ l -> q y = true -> p y = true) ->
  x ∈ l -> p x = true -> q x = false -> (length (List.filter q l) < length (List.filter p l))%nat.
Proof.
  intros Hqp Hx Hp Hq. revert Hqp. induction l as [|y l IH]; intros Hqp; [by apply not_elem_of_nil in Hx|].
  assert (Hl : forall z, z ∈ l -> q z = true -> p z = true) by (intros z Hz; apply Hqp; by right).
  simpl. apply elem_of_cons in Hx as [->|Hx].
  - rewrite Hp, Hq. simpl. pose proof (filter_length_le p q l Hl). lia.
  - specialize (IH Hx Hl). destruct (q y) eqn:Eq; [rewrite (Hqp y); [simpl; lia|by left|done]|]. destruct (p y); simpl; lia.
Qed.

Section solver.
Context (f : MirFunction) (Hids : ids_ok f) (nv : nat).
Context (gen kill : nat -> nat -> bool) (nbrs push : nat -> list nat).
Abbreviation bl := (block_list f).
Hypothesis Hnbrs : forall b c, b ∈ bl -> c ∈ nbrs b -> c ∈ bl.
Hypothesis Hpush : forall b c, b ∈ bl -> c ∈ push b -> c ∈ bl.
Hypothesis Hdual : forall b c, b ∈ bl -> c ∈ bl -> c ∈ nbrs b -> b ∈ push c.

Abbreviation bits_of := (nat -> nat -> bool).

(** The least solution. *)
Inductive flow (v : nat) : nat -> Prop :=
| flow_gen b : gen b v = true -> flow v b
| flow_step b c : c ∈ nbrs b -> flow v c -> kill b v = false -> flow v b.

Definition joined (bits : bits_of) (b v : nat) : bool := existsb (fun c => bits c v) (nbrs b).
Definition equation (bits : bits_of) (b v : nat) : bool := gen b v || joined bits b v && negb (kill b v).

Context {A : Type} (step : MirBlock -> A -> outcome (A * list nat)) (I : A -> bits_of -> bits_of -> Prop).

(** What the step of a pass does. *)
Definition step_ok : Prop := forall b blk st bits outs, b ∈ bl -> block_at f b = Some blk -> I st bits outs ->
  exists st' pushed, step blk st = Ok (st', pushed) /\
    I st' (fun c v => if decide (c = b) then equation bits b v else bits c v)
          (fun c v => if decide (c = b) then joined bits b v else outs c v) /\
    ((pushed = [] /\ forall v, (v < nv)%nat -> bits b v = equation bits b v) \/
     (pushed = push b /\ exists v, (v < nv)%nat /\ bits b v <> equation bits b v)).
Hypothesis Hstep : step_ok.

Definition settled (bits outs : bits_of) (b : nat) : Prop :=
  forall v, (v < nv)%nat -> outs b v = joined bits b v /\ bits b v = equation bits b v.
Definition growing (bits : bits_of) : Prop :=
  forall b v, b ∈ bl -> (v < nv)%nat -> bits b v = true -> equation bits b v = true.
Definition sound (bits : bits_of) : Prop :=
  forall b v, b ∈ bl -> (v < nv)%nat -> bits b v = true -> flow v b.
Definition unset (bits : bits_of) : nat :=
  length (List.filter (fun p => negb (bits p.1 p.2)) (list_prod bl (seq 0 nv))).

Lemma joined_mono bits bits' b v : b ∈ bl -> (forall c, c ∈ bl -> bits c v = true -> bits' c v = true) ->
  joined bits b v = true -> joined bits' b v = true.
Proof.
  intros Hb H (c & Hc & Hv)%existsb_exists. apply existsb_exists. exists c. split; [done|].
  apply H; [|done]. apply (Hnbrs b); [done|by apply list_elem_of_In].
Qed.

Lemma equation_mono bits bits' b v : b ∈ bl -> (forall c, c ∈ bl -> bits c v = true -> bits' c v = true) ->
  equation bits b v = true -> equation bits' b v = true.
Proof.
  intros Hb H [Hg|[Hj Hk]%andb_true_iff]%orb_true_iff; apply orb_true_iff; [by left|right].
  by rewrite (joined_mono bits bits').
Qed.

Abbreviation updated bits b := (fun c v => if decide (c = b) then equation bits b v else bits c v).

Lemma updated_le bits b : growing bits -> b ∈ bl -> forall c v, (v < nv)%nat -> c ∈ bl -> bits c v = true -> updated bits b c v = true.
Proof. intros Hg Hb c v Hv Hc H. cbv beta. destruct (decide (c = b)) as [->|]; [by apply Hg|done]. Qed.

Lemma updated_growing bits b : growing bits -> b ∈ bl -> growing (updated bits b).
Proof.
  intros Hg Hb c v Hc Hv H. apply (equation_mono bits); [done|intros d Hd; by apply (updated_le bits b Hg Hb)|].
  cbv beta in H. destruct (decide (c = b)) as [->|]; [done|by apply Hg].
Qed.

Lemma updated_sound bits b : sound bits -> b ∈ bl -> sound (updated bits b).
Proof.
  intros Hs Hb c v Hc Hv H. cbv beta in H. destruct (decide (c = b)) as [->|]; [|by apply Hs].
  apply orb_true_iff in H as [H|[(d & Hd%list_elem_of_In & Hdv)%existsb_exists Hk%negb_true_iff]%andb_true_iff]; [by apply flow_gen|].
  apply (flow_step _ _ d); [done| |done]. apply Hs; [by apply (Hnbrs b)|done|done].
Qed.

Lemma updated_unset_in bits b p : growing bits -> b ∈ bl -> p ∈ list_prod bl (seq 0 nv) ->
  negb (updated bits b p.1 p.2) = true -> negb (bits p.1 p.2) = true.
Proof.
  intros Hg Hb Hp. destruct p as [c u]. apply list_elem_of_In, in_prod_iff in Hp as [Hc Hu]. simpl. rewrite !negb_true_iff.
  intros H. apply not_true_is_false. intros Ht. apply list_elem_of_In in Hc. apply List.in_seq in Hu.
  pose proof (updated_le bits b Hg Hb c u ltac:(lia) Hc Ht) as Hle. cbv beta in Hle. by rewrite Hle in H.
Qed.

Lemma updated_unset_le bits b : growing bits -> b ∈ bl -> (unset (updated bits b) <= unset bits)%nat.
Proof. intros Hg Hb. apply filter_length_le. intros p Hp. by apply updated_unset_in. Qed.

Lemma updated_unset bits b v : growing bits -> b ∈ bl -> (v < nv)%nat -> bits b v <> equation bits b v ->
  (unset (updated bits b) < unset bits)%nat.
Proof.
  intros Hg Hb Hv Hne. apply (filter_length_lt _ _ _ (b, v)).
  - intros p Hp. by apply updated_unset_in.
  - apply list_elem_of_In, in_prod_iff. split; [by apply list_elem_of_In|apply List.in_seq; lia].
  - simpl. apply negb_true_iff, not_true_is_false. intros Ht. by rewrite (Hg b v Hb Hv Ht) in Hne.
  - simpl. rewrite decide_True by done. apply negb_false_iff. destruct (equation bits b v) eqn:E; [done|].
    destruct (bits b v) eqn:Eb; [|done]. by rewrite (Hg b v Hb Hv Eb) in E.
Qed.

Lemma joined_updated bits b c v : bits b v = equation bits b v \/ b ∉ nbrs c -> joined (updated bits b) c v = joined bits c v.
Proof.
  intros Hb. apply eq_iff_eq_true. unfold joined. rewrite !existsb_exists.
  split; intros (d & Hd & H); exists d; (split; [done|]); cbv beta in *; destruct (decide (d = b)) as [->|]; try done;
    (destruct Hb as [Hb|Hb]; [congruence|by apply list_elem_of_In in Hd]).
Qed.

(** *** The loop *)

Lemma settled_step bits outs b c : c = b \/ settled bits outs c ->
  (forall v, (v < nv)%nat -> bits b v = equation bits b v) \/ b ∉ nbrs c ->
  settled (updated bits b) (fun c v => if decide (c = b) then joined bits b v else outs c v) c.
Proof.
  intros Hs Hb v Hv.
  assert (Hj : joined (updated bits b) c v = joined bits c v).
  { apply joined_updated. destruct Hb as [Hb|Hb]; [left; by apply Hb|by right]. }
  assert (He : equation (updated bits b) c v = equation bits c v) by exact (f_equal (fun j => gen c v || j && negb (kill c v)) Hj).
  rewrite Hj, He. destruct (decide (c = b)) as [->|Hne]; [done|].
  destruct Hs as [->|Hs]; [done|]. by apply Hs.
Qed.

(** Within the fuel, the loop ends in a state whose equations all hold and
    whose bits are in the least solution. *)
Lemma wl_loop_spec fuel : forall w st bits outs, wl_ok f w -> I st bits outs -> growing bits -> sound bits ->
  (forall c, c ∈ bl -> c ∈ wl_queue w \/ settled bits outs c) ->
  (length (wl_queue w) + unset bits * length bl < fuel)%nat ->
  exists st' bits' outs', wl_loop step fuel f w st = Ok st' /\ I st' bits' outs' /\ sound bits' /\
    forall c, c ∈ bl -> settled bits' outs' c.
Proof.
  induction fuel as [|fuel IH]; intros [[|b q] m] st bits outs Hw HI Hg Hs Hq Hf; simpl in *; [lia|lia| |].
  { exists st, bits, outs. split_and!; try done. intros c Hc. destruct (Hq c Hc) as [H|H]; [by apply not_elem_of_nil in H|done]. }
  assert (Hb : b ∈ bl) by (apply (wo_in _ _ Hw); by left). pose proof Hb as [i Hi]%list_elem_of_lookup.
  destruct (Hids i b Hi) as (blk & Hblk & Hid). rewrite Hblk. cbn [of_option obind]. rewrite Hid.
  destruct (pop_wl_spec f Hids b q m i Hw Hi) as (m' & -> & Hw'). cbn [obind].
  destruct (Hstep b blk st bits outs Hb Hblk HI) as (st' & pushed & -> & HI' & Hp). cbn [obind fst snd].
  assert (Hpl : forall c, c ∈ pushed -> c ∈ bl).
  { intros c Hc. destruct Hp as [[-> _]|[-> _]]; [by apply not_elem_of_nil in Hc|by apply (Hpush b)]. }
  destruct (push_all_spec f Hids pushed _ Hw' Hpl) as (w2 & -> & Hw2 & Hq2). cbn [obind].
  apply (IH w2 st' _ _ Hw2 HI'); [by apply updated_growing|by apply updated_sound| |].
  - intros c Hc. rewrite Hq2. simpl. destruct (decide (c ∈ q)) as [|Hcq]; [by left; left|].
    destruct (decide (c ∈ pushed)) as [|Hcp]; [by left; right|right]. apply settled_step.
    + destruct (Hq c Hc) as [[->|?]%elem_of_cons|?]; [by left|done|by right].
    + destruct Hp as [[-> Heq]|[-> _]]; [by left|right]. intros Hn. apply Hcp. by apply Hdual.
  - destruct Hp as [[-> Heq]|[-> (u & Hu & Hne)]].
    + assert (Hlq : (length (wl_queue w2) <= length q)%nat).
      { apply submseteq_length, NoDup_submseteq; [apply (wo_nodup _ _ Hw2)|]. intros c Hc%Hq2. simpl in Hc. set_solver. }
      pose proof (updated_unset_le bits b Hg Hb). nia.
    + assert (Hl2 : (length (wl_queue w2) <= length bl)%nat).
      { apply submseteq_length, NoDup_submseteq; [apply (wo_nodup _ _ Hw2)|intros c Hc; by apply (wo_in _ _ Hw2)]. }
      pose proof (updated_unset bits b u Hg Hb Hu Hne). nia.
Qed.

Lemma settled_complete bits outs : (forall c, c ∈ bl -> settled bits outs c) ->
  forall v b, (v < nv)%nat -> flow v b -> b ∈ bl -> bits b v = true.
Proof.
  intros Hs v b Hv H. induction H as [b Hg|b c Hc H IH Hk]; intros Hb; rewrite (proj2 (Hs b Hb v Hv)); unfold equation.
  - by rewrite Hg.
  - apply orb_true_iff. right. rewrite Hk, andb_true_r. apply existsb_exists. exists c. split; [by apply list_elem_of_In|].
    apply IH. by apply (Hnbrs b).
Qed.
End solver.
