(* ===== verification/MirBorrow.v ===== *)
(** * The borrow checker

    [src/compiler/ir/mir_borrow.c]: a forward work-list analysis of the values
    that have been moved, a backward one of the values that are live, and a
    pass over the instructions that reports uses after a move, double moves and
    conflicting borrows.  A [bool*] row has an entry per value, a [bool**] an
    entry per block id.  [mir_borrow_print_errors] writes text and
    [mir_borrow_destroy] frees; the fields of the checker that nothing reads
    ([liveness], the module) are left out. *)
From S2P Require Import Prelude MirCore MirGraph MirOpt Worklist.

Definition MIR_MAX_BORROWS : nat := 512.
Definition MIR_MAX_ERRORS : nat := 64.

Inductive MirBorrowKind := MIR_BK_SHARED | MIR_BK_MUTABLE.

Record MirBorrow := mkBorrow {
  borrow_id : MirValueId;
  source_id : MirValueId;
  bk_kind : MirBorrowKind;
  def_block : blockptr;
  b_line : Z;
  b_col : Z;
  active : bool
}.

Inductive MirBorrowErrorKind :=
| MIR_BERR_USE_AFTER_MOVE
| MIR_BERR_DOUBLE_MOVE
| MIR_BERR_BORROW_CONFLICT
| MIR_BERR_MUT_ALIAS
| MIR_BERR_BORROW_OUTLIVES
| MIR_BERR_MISSING_DROP
| MIR_BERR_DOUBLE_DROP.

Record MirBorrowError := mkBerr {
  e_kind : MirBorrowErrorKind;
  e_message : string;
  e_line : Z;
  e_col : Z;
  e_value : MirValueId;
  e_conflicting : MirValueId
}.

(** The counts are the lengths of the lists; [moved_capacity] that of [moved]. *)
Record MirBorrowChecker := mkChecker {
  borrows : list MirBorrow;
  errors : list MirBorrowError;
  moved : list bool
}.

Definition mir_borrow_init : MirBorrowChecker := mkChecker [] [] (replicate 256 false).

Definition mir_borrow_reset (bc : MirBorrowChecker) : MirBorrowChecker :=
  mkChecker [] (errors bc) (replicate (length (moved bc)) false).

Definition emit_error (bc : MirBorrowChecker) (e : MirBorrowError) : MirBorrowChecker :=
  if (MIR_MAX_ERRORS <=? length (errors bc))%nat then bc
  else mkChecker (borrows bc) (errors bc ++ [e]) (moved bc).

(** ** Moved values *)

Definition with_moved (bc : MirBorrowChecker) (m : list bool) : MirBorrowChecker := mkChecker (borrows bc) (errors bc) m.

Definition ensure_moved (bc : MirBorrowChecker) (v : MirValueId) : MirBorrowChecker :=
  let cap := Z.of_nat (length (moved bc)) in
  let v := s32 (Z.of_N v) in
  if cap <=? v then
    let new_cap := if cap * 2 <=? v then v + 64 else cap * 2 in
    with_moved bc (moved bc ++ replicate (Z.to_nat (new_cap - cap)) false)
  else bc.

Definition mark_moved (bc : MirBorrowChecker) (v : MirValueId) : outcome MirBorrowChecker :=
  let bc := ensure_moved bc v in
  let! m := set_at (Z.of_N v) true (moved bc) in
  Ok (with_moved bc m).

Definition is_moved (bc : MirBorrowChecker) (v : MirValueId) : outcome bool :=
  if Z.of_nat (length (moved bc)) <=? s32 (Z.of_N v) then Ok false else get_at (Z.of_N v) (moved bc).

(** ** Borrows *)

Definition track_borrow (bc : MirBorrowChecker) (inst : MirInst) (source : MirValueId) (kind : MirBorrowKind) : MirBorrowChecker :=
  if (MIR_MAX_BORROWS <=? length (borrows bc))%nat then bc
  else mkChecker (borrows bc ++ [mkBorrow (result inst) source kind None (src_line inst) (src_col inst) true]) (errors bc) (moved bc).

(** The operands that [inst_uses_value] compares and [mark_uses] records. *)
Definition operands (k : MirInstKind) : list MirValueId :=
  match k with
  | BINARY _ lhs rhs => [lhs; rhs]
  | UNARY _ operand _ => [operand]
  | LOAD ptr => [ptr]
  | STORE ptr value => [ptr; value]
  | GEP _ base _ index => [base; index]
  | CONDBR cond _ _ => [cond]
  | RET value => [value]
  | SWITCH discriminant _ _ => [discriminant]
  | CALL _ args _ => args
  | CALL_INDIRECT _ args callee => callee :: args
  | CALL_VIRTUAL self_obj _ args => self_obj :: args
  | PHI edges => edges.*2
  | TRANSFER _ source => [source]
  | REFOP _ ptr => [ptr]
  | STRUCT_INIT fields => fields
  | EXTRACT aggregate _ => [aggregate]
  | INSERT aggregate _ insert_val => [aggregate; insert_val]
  | SUSPEND _ future => [future]
  | VEC _ a b c _ _ => [a; b; c]
  | _ => []
  end.

Definition inst_uses_value (inst : MirInst) (val : MirValueId) : bool :=
  existsb (fun v => (v =? val)%N) (operands (as_ inst)).

(** [(id) < (MirValueId)num_vals] and not [MIR_VALUE_NONE] *)
Definition tracked (f : MirFunction) (v : MirValueId) : bool :=
  negb (v =? MIR_VALUE_NONE)%N && (v <? next_value_id f)%N.

(** [start_inst] is followed by [rest]; [out] is the row [live_out_bb]. *)
Definition is_live_after (f : MirFunction) (rest : list MirInst) (val : MirValueId) (out : list bool) : outcome bool :=
  if negb (tracked f val) then Ok false
  else if existsb (fun inst => inst_uses_value inst val) rest then Ok true
  else get_at (Z.of_N val) out.

(** [RECORD_USE] *)
Definition record_use (f : MirFunction) (v : MirValueId) (def use : list bool) : outcome (list bool) :=
  if tracked f v then
    let! d := get_at (Z.of_N v) def in
    if (d : bool) then Ok use else set_at (Z.of_N v) true use
  else Ok use.

Definition mark_uses (f : MirFunction) (inst : MirInst) (def use : list bool) : outcome (list bool) :=
  ofold (fun v use => record_use f v def use) (operands (as_ inst)) use.

Definition conflict_error (source : MirValueId) (new_kind : MirBorrowKind) (inst : MirInst) (existing : MirBorrow)
  : option MirBorrowError :=
  let e k msg := Some (mkBerr k msg (src_line inst) (src_col inst) (result inst) (borrow_id existing)) in
  match new_kind, bk_kind existing with
  | MIR_BK_MUTABLE, MIR_BK_MUTABLE => e MIR_BERR_MUT_ALIAS "cannot create second mutable borrow"
  | MIR_BK_MUTABLE, MIR_BK_SHARED => e MIR_BERR_BORROW_CONFLICT "cannot create mutable borrow while shared borrows exist"
  | MIR_BK_SHARED, MIR_BK_MUTABLE => e MIR_BERR_BORROW_CONFLICT "cannot create shared borrow while mutable borrow exists"
  | MIR_BK_SHARED, MIR_BK_SHARED => None
  end.

(** One turn of the loop of [check_borrow_conflicts]. *)
Definition check_existing (f : MirFunction) (source : MirValueId) (new_kind : MirBorrowKind) (inst : MirInst)
  (rest : list MirInst) (out : list bool) (existing : MirBorrow) (bc : MirBorrowChecker) : outcome MirBorrowChecker :=
  if (borrow_id existing =? result inst)%N then Ok bc else
  let! act := (if (borrow_id existing =? result inst)%N || inst_uses_value inst (borrow_id existing) then Ok true
               else is_live_after f rest (borrow_id existing) out) in
  if negb act then Ok bc
  else if negb (source_id existing =? source)%N then Ok bc
  else Ok (match conflict_error source new_kind inst existing with Some e => emit_error bc e | None => bc end).

Definition check_borrow_conflicts (f : MirFunction) (source : MirValueId) (new_kind : MirBorrowKind) (inst : MirInst)
  (rest : list MirInst) (out : list bool) (bc : MirBorrowChecker) : outcome MirBorrowChecker :=
  ofold (check_existing f source new_kind inst rest out) (borrows bc) bc.

(** ** Uses after a move *)

Definition borrow_operand_moved (inst : MirInst) (v : MirValueId) (ctx : string) (bc : MirBorrowChecker) : outcome MirBorrowChecker :=
  if (v =? MIR_VALUE_NONE)%N then Ok bc else
  let! m := is_moved bc v in
  Ok (if m then emit_error bc (mkBerr MIR_BERR_USE_AFTER_MOVE ctx (src_line inst) (src_col inst) v MIR_VALUE_NONE) else bc).

(** The operands [borrow_check_inst_operands] tests, with its messages. *)
Definition checked_operands (k : MirInstKind) : list (MirValueId * string) :=
  match k with
  | TRANSFER MIR_MOVE _ => []
  | BINARY _ lhs rhs => [(lhs, "value used after move (lhs)"); (rhs, "value used after move (rhs)")]
  | UNARY _ operand _ => [(operand, "value used after move (operand)")]
  | LOAD ptr => [(ptr, "value used after move (load ptr)")]
  | STORE ptr value => [(ptr, "value used after move (store ptr)"); (value, "value used after move (store val)")]
  | GEP _ base _ index => [(base, "value used after move (gep base)"); (index, "value used after move (gep index)")]
  | CONDBR cond _ _ => [(cond, "value used after move (cond)")]
  | RET value => [(value, "value used after move (ret)")]
  | SWITCH discriminant _ _ => [(discriminant, "value used after move (switch)")]
  | CALL _ args _ => map (fun v => (v, "call argument used after move")) args
  | CALL_INDIRECT _ args callee => (callee, "call target used after move") :: map (fun v => (v, "call argument used after move")) args
  | CALL_VIRTUAL self_obj _ args => (self_obj, "vcall self used after move") :: map (fun v => (v, "vcall arg used after move")) args
  | PHI edges => map (fun e => (e.2, "phi operand used after move")) edges
  | TRANSFER _ source => [(source, "transfer source used after move")]
  | REFOP _ ptr => [(ptr, "ref op ptr used after move")]
  | STRUCT_INIT fields => map (fun v => (v, "struct field used after move")) fields
  | EXTRACT aggregate _ => [(aggregate, "extract agg used after move")]
  | INSERT aggregate _ insert_val => [(aggregate, "insert agg used after move"); (insert_val, "insert val used after move")]
  | SUSPEND _ future => [(future, "suspend future used after move")]
  | VEC _ a b c _ _ => [(a, "vec operand a used after move"); (b, "vec operand b used after move"); (c, "vec operand c used after move")]
  | _ => []
  end.

Definition borrow_check_inst_operands (inst : MirInst) (bc : MirBorrowChecker) : outcome MirBorrowChecker :=
  ofold (fun p bc => borrow_operand_moved inst p.1 p.2 bc) (checked_operands (as_ inst)) bc.

(** ** The data-flow analyses *)

Definition num_vals (f : MirFunction) : nat := N.to_nat (next_value_id f).

Definition max_block_id (f : MirFunction) : outcome Z :=
  ofold (fun bb m => let! b := of_option (block_at f bb) in Ok (if m <? id b then id b else m)) (block_list f) 0.

(** The union of the rows of the blocks [bs]. *)
Definition union_rows (f : MirFunction) (rows : list (list bool)) (bs : list nat) : outcome (list bool) :=
  ofold (fun p temp =>
    let! b := of_option (block_at f p) in
    let! row := get_at (id b) rows in
    Ok (zip_with orb temp row)) bs (replicate (num_vals f) false).

Definition apply_move (f : MirFunction) (inst : MirInst) (temp : list bool) : outcome (list bool) :=
  match as_ inst with
  | TRANSFER MIR_MOVE src => if tracked f src then set_at (Z.of_N src) true temp else Ok temp
  | _ => Ok temp
  end.

(** The body of the forward loop: the new row of [b] in [block_out]. *)
Definition move_step (f : MirFunction) (b : MirBlock) (out : list (list bool)) : outcome (list (list bool) * list nat) :=
  let! temp := union_rows f out (predecessors b) in
  let! temp := ofold (apply_move f) (insts b) temp in
  let! old := get_at (id b) out in
  if bool_decide (old = temp) then Ok (out, []) else
  let! out := set_at (id b) temp out in
  Ok (out, successors b).

(** The local sets of one instruction. *)
Definition def_use (f : MirFunction) (inst : MirInst) (du : list bool * list bool) : outcome (list bool * list bool) :=
  let '(def, use) := du in
  let! use := mark_uses f inst def use in
  if tracked f (result inst) then
    let! def := set_at (Z.of_N (result inst)) true def in Ok (def, use)
  else Ok (def, use).

Definition local_sets (f : MirFunction) (rows : list (list bool) * list (list bool)) (bb : nat)
  : outcome (list (list bool) * list (list bool)) :=
  let! b := of_option (block_at f bb) in
  let! d := get_at (id b) rows.1 in
  let! u := get_at (id b) rows.2 in
  let! du := ofold (def_use f) (insts b) (d, u) in
  let! ds := set_at (id b) du.1 rows.1 in
  let! us := set_at (id b) du.2 rows.2 in
  Ok (ds, us).

(** The body of the backward loop, on [live_in] and [live_out]. *)
Definition live_step (f : MirFunction) (def use : list (list bool)) (b : MirBlock) (live : list (list bool) * list (list bool))
  : outcome ((list (list bool) * list (list bool)) * list nat) :=
  let '(live_in, live_out) := live in
  let! temp := union_rows f live_in (successors b) in
  let! live_out := set_at (id b) temp live_out in
  let! d := get_at (id b) def in
  let! u := get_at (id b) use in
  let new_in := zip_with orb (zip_with (fun o d => o && negb d) temp d) u in
  let! old := get_at (id b) live_in in
  if bool_decide (old = new_in) then Ok ((live_in, live_out), []) else
  let! live_in := set_at (id b) new_in live_in in
  Ok ((live_in, live_out), predecessors b).

(** ** The check *)

Definition track_inst (inst : MirInst) (bc : MirBorrowChecker) : MirBorrowChecker :=
  match as_ inst with
  | TRANSFER MIR_BORROW source => track_borrow bc inst source MIR_BK_SHARED
  | TRANSFER MIR_BORROW_MUT source => track_borrow bc inst source MIR_BK_MUTABLE
  | _ => bc
  end.

Definition check_move (f : MirFunction) (inst : MirInst) (bc : MirBorrowChecker) : outcome MirBorrowChecker :=
  match as_ inst with
  | TRANSFER MIR_MOVE src =>
      if tracked f src then
        let! m := is_moved bc src in
        mark_moved (if m then emit_error bc (mkBerr MIR_BERR_DOUBLE_MOVE "value moved more than once" (src_line inst) (src_col inst) src MIR_VALUE_NONE)
                    else bc) src
      else Ok bc
  | _ => Ok bc
  end.

(** The instructions of a block whose row of [live_out] is [out]. *)
Fixpoint check_insts (f : MirFunction) (out : list bool) (l : list MirInst) (bc : MirBorrowChecker) : outcome MirBorrowChecker :=
  match l with
  | [] => Ok bc
  | inst :: rest =>
      let! bc := borrow_check_inst_operands inst bc in
      let! bc := check_move f inst bc in
      let! bc :=
        match as_ inst with
        | TRANSFER MIR_BORROW source => check_borrow_conflicts f source MIR_BK_SHARED inst rest out bc
        | TRANSFER MIR_BORROW_MUT source => check_borrow_conflicts f source MIR_BK_MUTABLE inst rest out bc
        | _ => Ok bc
        end in
      check_insts f out rest bc
  end.

Definition check_block (f : MirFunction) (out live_out : list (list bool)) (bb : nat) (bc : MirBorrowChecker) : outcome MirBorrowChecker :=
  let! b := of_option (block_at f bb) in
  let! temp := union_rows f out (predecessors b) in
  let! lo := get_at (id b) live_out in
  check_insts f lo (insts b) (with_moved bc temp).

(** Every push but the first of a block follows a change of a bit. *)
Definition flow_fuel (n v : nat) : nat := S (n + n * v * n).

Definition mir_borrow_check_function (bc : MirBorrowChecker) (f : MirFunction) : outcome (MirBorrowChecker * Z) :=
  if is_extern f then Ok (bc, 0) else
  match block_list f with
  | [] => Ok (bc, 0)
  | _ =>
      let initial_errors := Z.of_nat (length (errors bc)) in
      let bc := mir_borrow_reset bc in
      let! m := max_block_id f in
      let n := Z.to_nat (m + 1) in
      let rows := replicate n (replicate (num_vals f) false) in
      let! w := ofold (push_wl f) (block_list f) (mkWl [] (replicate n false)) in
      let! out := wl_loop (move_step f) (flow_fuel n (num_vals f)) f w rows in
      let! du := ofold (fun bb r => local_sets f r bb) (block_list f) (rows, rows) in
      let! live := wl_loop (live_step f du.1 du.2) (flow_fuel n (num_vals f)) f w (rows, rows) in
      let bc := fold_left (fun bc inst => track_inst inst bc) (all_insts f) bc in
      let original_moved := moved bc in
      let! bc := ofold (check_block f out live.2) (block_list f) bc in
      let bc := with_moved bc original_moved in
      Ok (bc, Z.of_nat (length (errors bc)) - initial_errors)
  end.

Definition mir_borrow_check_module (bc : MirBorrowChecker) (m : MirModule) : outcome (MirBorrowChecker * Z) :=
  ofold (fun f r =>
    let! r' := mir_borrow_check_function r.1 f in
    Ok (r'.1, r.2 + r'.2)) (func_list m) (bc, 0).
