(* ===== verification/BorrowFacts.v ===== *)
(** * What the borrow checker decides

    The two data-flow analyses compute moved and live values along the paths of
    the function, the final pass emits an error for every use after a move,
    every double move and every pair of clashing borrows, and nothing else. *)
From S2P Require Import Prelude MirCore MirGraph MirOpt Worklist MirBorrow.

(** ** Rows *)

Section rows.
Context (nv : nat).

(** The array whose [v]th entry is [P v]. *)
Definition row (P : nat -> bool) : list bool := map P (seq 0 nv).

Lemma row_length P : length (row P) = nv.
Proof. unfold row. by rewrite length_map, length_seq. Qed.

Lemma row_lookup P v : (v < nv)%nat -> row P !! v = Some (P v).
Proof. intros Hv. unfold row. rewrite list_lookup_fmap, lookup_seq_lt by done. done. Qed.

Lemma row_ext P Q : (forall v, (v < nv)%nat -> P v = Q v) -> row P = row Q.
Proof. intros H. unfold row. apply map_ext_in. intros v Hv%List.in_seq. apply H. lia. Qed.

Lemma row_inj P Q : row P = row Q -> forall v, (v < nv)%nat -> P v = Q v.
Proof. intros H v Hv. apply (f_equal (lookup v)) in H. rewrite !row_lookup in H by done. by injection H. Qed.

Lemma row_differs P Q : row P <> row Q -> exists v, (v < nv)%nat /\ P v <> Q v.
Proof.
  intros Hne. destruct (existsb (fun v => negb (Bool.eqb (P v) (Q v))) (seq 0 nv)) eqn:E.
  - apply existsb_exists in E as (v & Hv%List.in_seq & H%negb_true_iff%eqb_false_iff). exists v. split; [lia|done].
  - destruct Hne. apply row_ext. intros v Hv. destruct (bool_decide (P v = Q v)) eqn:Eb; [by apply bool_decide_eq_true in Eb|].
    apply bool_decide_eq_false in Eb. rewrite <- not_true_iff_false in E. destruct E. apply existsb_exists. exists v.
    split; [apply List.in_seq; lia|]. by apply negb_true_iff, eqb_false_iff.
Qed.

Lemma row_zip g P Q : zip_with g (row P) (row Q) = row (fun v => g (P v) (Q v)).
Proof. unfold row. induction (seq 0 nv) as [|v l IH]; [done|]. simpl. by rewrite IH. Qed.

Lemma row_false : replicate nv false = row (fun _ => false).
Proof. unfold row. rewrite <- (length_seq nv 0) at 1. induction (seq 0 nv) as [|v l IH]; [done|]. simpl. by rewrite IH. Qed.

Lemma row_get P v : (N.to_nat v < nv)%nat -> get_at (Z.of_N v) (row P) = Ok (P (N.to_nat v)).
Proof. intros Hv. unfold get_at. replace (Z.to_nat (Z.of_N v)) with (N.to_nat v) by lia. rewrite row_lookup by done. done. Qed.

Lemma row_set P v : (N.to_nat v < nv)%nat ->
  set_at (Z.of_N v) true (row P) = Ok (row (fun u => (u =? N.to_nat v)%nat || P u)).
Proof.
  intros Hv. unfold set_at. replace (Z.to_nat (Z.of_N v)) with (N.to_nat v) by lia. rewrite row_length. destruct (Nat.ltb_spec (N.to_nat v) nv); [|lia]. f_equal.
  apply list_eq. intros u. destruct (decide (u < nv)%nat) as [Hu|Hu].
  - rewrite row_lookup by done. destruct (Nat.eqb_spec u (N.to_nat v)) as [->|Hne].
    + apply list_lookup_insert_eq. by rewrite row_length.
    + rewrite list_lookup_insert_ne by done. by rewrite row_lookup.
  - rewrite !lookup_ge_None_2; [done|rewrite row_length; lia|rewrite length_insert, row_length; lia].
Qed.
End rows.

(** ** The functions checked *)

Record flow_wf (f : MirFunction) : Prop := {
  fw_ids : ids_ok f;
  fw_closed : succs_closed successors f;
  fw_preds : forall c blk p, c ∈ block_list f -> block_at f c = Some blk ->
    (p ∈ predecessors blk <-> p ∈ block_list f /\ cfg_edge successors f p c);
  fw_values : (next_value_id f < 2 ^ 31)%N;
  fw_operands : forall i v, i ∈ all_insts f -> v ∈ operands (as_ i) -> (v < 2 ^ 31)%N
}.

Definition preds_of (f : MirFunction) (b : nat) : list nat := default [] (predecessors <$> block_at f b).
Definition succs_of (f : MirFunction) (b : nat) : list nat := default [] (successors <$> block_at f b).

Definition moves (f : MirFunction) (i : MirInst) (v : nat) : bool :=
  match as_ i with TRANSFER MIR_MOVE src => tracked f src && (v =? N.to_nat src)%nat | _ => false end.
Definition defines (f : MirFunction) (i : MirInst) (v : nat) : bool := tracked f (result i) && (v =? N.to_nat (result i))%nat.
Definition uses (f : MirFunction) (i : MirInst) (v : nat) : bool :=
  existsb (fun u => tracked f u && (v =? N.to_nat u)%nat) (operands (as_ i)).

(** Used before it is defined. *)
Fixpoint exposed (f : MirFunction) (l : list MirInst) (v : nat) : bool :=
  match l with [] => false | i :: l => uses f i v || negb (defines f i v) && exposed f l v end.

Section flow.
Context (f : MirFunction) (Hf : flow_wf f).
Abbreviation nv := (num_vals f).
Abbreviation rw := (row nv).
Abbreviation bl := (block_list f).

Lemma tracked_lt v : tracked f v = true -> (N.to_nat v < nv)%nat.
Proof. unfold tracked, num_vals. intros [_ ?%N.ltb_lt]%andb_true_iff. lia. Qed.

Lemma bl_block b : b ∈ bl -> exists blk i, block_at f b = Some blk /\ bl !! i = Some b /\ id blk = Z.of_nat i.
Proof. intros [i Hi]%list_elem_of_lookup. destruct (fw_ids f Hf i b Hi) as (blk & ? & ?). by exists blk, i. Qed.

Lemma preds_listed b c : b ∈ bl -> c ∈ preds_of f b -> c ∈ bl.
Proof. intros Hb. destruct (bl_block b Hb) as (blk & i & Hblk & _). unfold preds_of. rewrite Hblk. simpl. by intros [? _]%(fw_preds f Hf b blk). Qed.

Lemma succs_in b c : b ∈ bl -> c ∈ succs_of f b -> c ∈ bl.
Proof. intros Hb. destruct (bl_block b Hb) as (blk & i & Hblk & _). unfold succs_of. rewrite Hblk. simpl. by apply (fw_closed f Hf b blk). Qed.

Lemma preds_succs b c : b ∈ bl -> c ∈ bl -> c ∈ preds_of f b <-> b ∈ succs_of f c.
Proof.
  intros Hb Hc. destruct (bl_block b Hb) as (blk & i & Hblk & _). destruct (bl_block c Hc) as (blk' & j & Hblk' & _).
  unfold preds_of, succs_of. rewrite Hblk, Hblk'. simpl. rewrite (fw_preds f Hf b blk) by done. split.
  - intros [_ (blk2 & H2 & Hin)]. congruence.
  - intros H. split; [done|]. by exists blk'.
Qed.

Abbreviation tab rows bits := (table bl rows (fun b => rw (bits b))).

Lemma union_rows_spec rows bits bs : tab rows bits -> (forall b, b ∈ bs -> b ∈ bl) ->
  union_rows f rows bs = Ok (rw (fun v => existsb (fun c => bits c v) bs)).
Proof.
  intros Ht Hbs. unfold union_rows. rewrite row_false.
  enough (forall bs' P, (forall b, b ∈ bs' -> b ∈ bl) -> ofold (fun p temp =>
    let! b := of_option (block_at f p) in let! row := get_at (id b) rows in Ok (zip_with orb temp row)) bs' (rw P) =
    Ok (rw (fun v => P v || existsb (fun c => bits c v) bs'))) as -> by done.
  clear bs Hbs. induction bs' as [|b bs IH]; intros P Hbs; cbn [ofold].
  { f_equal. apply row_ext. intros v _. by rewrite orb_false_r. }
  destruct (bl_block b) as (blk & i & Hblk & Hi & Hid); [apply Hbs; by left|]. rewrite Hblk. cbn [of_option obind].
  rewrite Hid, (table_get _ _ _ _ _ Ht Hi). cbn [obind]. rewrite row_zip, IH by (intros c Hc; apply Hbs; by right).
  f_equal. apply row_ext. intros v _. simpl. by rewrite orb_assoc.
Qed.

(** ** The forward analysis *)

Lemma apply_moves_spec l P : ofold (apply_move f) l (rw P) = Ok (rw (fun v => P v || existsb (fun i => moves f i v) l)).
Proof.
  revert P. induction l as [|i l IH]; intros P; cbn [ofold]; [f_equal; apply row_ext; intros v _; by rewrite orb_false_r|].
  assert (Hi : apply_move f i (rw P) = Ok (rw (fun v => P v || moves f i v))).
  { unfold apply_move, moves. destruct (as_ i); try (f_equal; apply row_ext; intros v _; by rewrite orb_false_r).
    destruct op; try (f_equal; apply row_ext; intros v _; by rewrite orb_false_r).
    destruct (tracked f source) eqn:Et; [|f_equal; apply row_ext; intros v _; by rewrite orb_false_r].
    rewrite row_set by (by apply tracked_lt). f_equal. apply row_ext. intros v _. simpl. by rewrite orb_comm. }
  rewrite Hi. cbn [obind]. rewrite IH. f_equal. apply row_ext. intros v _. simpl. by rewrite orb_assoc.
Qed.

Definition move_gen (b v : nat) : bool := existsb (fun i => moves f i v) (inst_list f b).
Definition no_kill (b v : nat) : bool := false.

Lemma inst_list_at b blk : block_at f b = Some blk -> inst_list f b = insts blk.
Proof. intros H. unfold inst_list. by rewrite H. Qed.

Lemma set_row_spec rows bits b blk i P : tab rows bits -> bl !! i = Some b -> block_at f b = Some blk -> id blk = Z.of_nat i ->
  exists rows', set_at (id blk) (rw P) rows = Ok rows' /\ tab rows' (fun c v => if decide (c = b) then P v else bits c v).
Proof.
  intros Ht Hi Hblk Hid. destruct (table_set bl (ids_nodup f (fw_ids f Hf)) rows _ i b (rw P) Ht Hi) as (rows' & Hs & _ & Ht').
  exists rows'. rewrite Hid. split; [done|]. eapply table_ext; [|exact Ht']. intros c. simpl. by destruct (decide (c = b)).
Qed.

Lemma keep_row rows bits b P : tab rows bits -> (forall v, (v < nv)%nat -> bits b v = P v) ->
  tab rows (fun c v => if decide (c = b) then P v else bits c v).
Proof.
  intros Ht HP. eapply table_ext; [|exact Ht]. intros c. simpl. apply row_ext. intros v Hv.
  destruct (decide (c = b)) as [->|]; [by apply HP|done].
Qed.

Lemma move_step_ok : step_ok f nv move_gen no_kill (preds_of f) (succs_of f) (move_step f) (fun st bits _ => tab st bits).
Proof.
  intros b blk st bits outs Hb Hblk HI. destruct (bl_block b Hb) as (blk' & i & Hblk' & Hi & Hid).
  rewrite Hblk in Hblk'. injection Hblk' as <-.
  assert (Hp : preds_of f b = predecessors blk) by (unfold preds_of; by rewrite Hblk).
  unfold move_step. rewrite <- Hp, (union_rows_spec st bits) by (done || intros c Hc; by apply (preds_listed b)). cbn [obind].
  rewrite apply_moves_spec. cbn [obind]. rewrite Hid, (table_get _ _ _ _ _ HI Hi). cbn [obind].
  assert (He : forall v, existsb (fun c => bits c v) (preds_of f b) || existsb (fun i => moves f i v) (insts blk) =
    equation move_gen no_kill (preds_of f) bits b v).
  { intros v. unfold equation, move_gen, no_kill. rewrite (inst_list_at b blk Hblk), andb_true_r. apply orb_comm. }
  rewrite (row_ext nv _ _ (fun v _ => He v)). case_bool_decide as Heq.
  - exists st, []. split; [done|]. pose proof (row_inj _ _ _ Heq) as Hv. split; [by apply keep_row|]. by left.
  - destruct (set_row_spec st bits b blk i (equation move_gen no_kill (preds_of f) bits b) HI Hi Hblk Hid) as (st' & Hs & Ht').
    rewrite <- Hid, Hs. cbn [obind]. exists st', (successors blk). split; [done|]. split; [done|]. right.
    split; [unfold succs_of; by rewrite Hblk|].
    by apply row_differs.
Qed.

(** ** The local sets and the backward analysis *)

Lemma mark_uses_spec i D U : mark_uses f i (rw D) (rw U) = Ok (rw (fun v => U v || negb (D v) && uses f i v)).
Proof.
  unfold mark_uses, uses. generalize (operands (as_ i)). intros l. revert U.
  induction l as [|u l IH]; intros U; cbn [ofold]; [f_equal; apply row_ext; intros v _; simpl; by rewrite andb_false_r, orb_false_r|].
  assert (Hu : record_use f u (rw D) (rw U) = Ok (rw (fun v => U v || negb (D v) && (tracked f u && (v =? N.to_nat u)%nat)))).
  { unfold record_use. destruct (tracked f u) eqn:Et; [|f_equal; apply row_ext; intros v _; simpl; by rewrite andb_false_r, orb_false_r].
    rewrite row_get by (by apply tracked_lt). cbn [obind]. destruct (D (N.to_nat u)) eqn:Ed.
    - f_equal. apply row_ext. intros v _. simpl. destruct (Nat.eqb_spec v (N.to_nat u)) as [->|]; [by rewrite Ed, orb_false_r|].
      by rewrite andb_false_r, orb_false_r.
    - rewrite row_set by (by apply tracked_lt). f_equal. apply row_ext. intros v _. simpl.
      destruct (Nat.eqb_spec v (N.to_nat u)) as [->|]; [rewrite Ed; simpl; by rewrite orb_true_r|by rewrite andb_false_r, orb_false_r]. }
  rewrite Hu. cbn [obind]. rewrite IH. f_equal. apply row_ext. intros v _. cbn [existsb]. destruct (U v), (D v); simpl; try done.
Qed.

Lemma def_use_spec l D U : ofold (def_use f) l (rw D, rw U) =
  Ok (rw (fun v => D v || existsb (fun i => defines f i v) l), rw (fun v => U v || negb (D v) && exposed f l v)).
Proof.
  revert D U. induction l as [|i l IH]; intros D U; cbn [ofold].
  { f_equal. f_equal; apply row_ext; intros v _; simpl; [by rewrite orb_false_r|by rewrite andb_false_r, orb_false_r]. }
  assert (Hi : def_use f i (rw D, rw U) = Ok (rw (fun v => D v || defines f i v), rw (fun v => U v || negb (D v) && uses f i v))).
  { unfold def_use. rewrite mark_uses_spec. cbn [obind]. unfold defines. destruct (tracked f (result i)) eqn:Et.
    - rewrite row_set by (by apply tracked_lt). cbn [obind]. f_equal. f_equal. apply row_ext. intros v _. simpl. apply orb_comm.
    - f_equal. f_equal. apply row_ext. intros v _. simpl. by rewrite orb_false_r. }
  rewrite Hi. cbn [obind]. rewrite IH. f_equal. f_equal; apply row_ext; intros v _; cbn [existsb exposed]; [by rewrite orb_assoc|].
  destruct (U v), (D v), (uses f i v), (defines f i v); done.
Qed.

Definition live_gen (b v : nat) : bool := exposed f (inst_list f b) v.
Definition live_kill (b v : nat) : bool := existsb (fun i => defines f i v) (inst_list f b).

Lemma local_sets_spec l d u D U : tab d D -> tab u U -> (forall b, b ∈ l -> b ∈ bl) -> NoDup l ->
  (forall b v, b ∈ l -> D b v = false /\ U b v = false) ->
  exists d' u', ofold (fun bb r => local_sets f r bb) l (d, u) = Ok (d', u') /\
    tab d' (fun b v => if decide (b ∈ l) then live_kill b v else D b v) /\
    tab u' (fun b v => if decide (b ∈ l) then live_gen b v else U b v).
Proof.
  revert d u D U. induction l as [|b l IH]; intros d u D U Hd Hu Hl Hnd Hz; cbn [ofold].
  { exists d, u. split; [done|]. split; (eapply table_ext; [|eassumption]); intros c; cbv beta; apply row_ext; intros v _; by rewrite decide_False by apply not_elem_of_nil. }
  apply list.NoDup_cons in Hnd as [Hb Hnd]. destruct (bl_block b) as (blk & i & Hblk & Hi & Hid); [apply Hl; by left|].
  unfold local_sets at 1. rewrite Hblk. cbn [of_option obind]. cbn [fst snd]. rewrite Hid, (table_get _ _ _ _ _ Hd Hi), (table_get _ _ _ _ _ Hu Hi).
  cbn [obind]. rewrite def_use_spec. cbn [obind fst snd]. rewrite <- Hid.
  edestruct (set_row_spec d D b blk i) as (d' & Hsd & Hd'); [done..|]. rewrite Hsd. cbn [obind].
  edestruct (set_row_spec u U b blk i) as (u' & Hsu & Hu'); [done..|]. rewrite Hsu. cbn [obind].
  edestruct (IH d' u') as (d2 & u2 & Hr & Hd2 & Hu2); [exact Hd'|exact Hu'|intros c Hc; apply Hl; by right|done| |].
  { intros c v Hc. cbv beta. rewrite !decide_False by (intros ->; done). destruct (Hz c v) as [-> ->]; [by right|done]. }
  exists d2, u2. split; [exact Hr|]. destruct (Hz b 0%nat) as [_ _]; [by left|].
  split; (eapply table_ext; [|eassumption]); intros c; simpl; apply row_ext; intros v _; destruct (decide (c = b)) as [->|Hne].
  - rewrite decide_False by done. rewrite decide_True by by left. destruct (Hz b v) as [-> _]; [by left|]. unfold live_kill. by rewrite (inst_list_at _ _ Hblk).
  - destruct (decide (c ∈ l)); [by rewrite decide_True by by right|]. rewrite decide_False; [done|]. by intros [?|?]%elem_of_cons.
  - rewrite decide_False by done. rewrite decide_True by by left. destruct (Hz b v) as [-> ->]; [by left|]. unfold live_gen. by rewrite (inst_list_at _ _ Hblk).
  - destruct (decide (c ∈ l)); [by rewrite decide_True by by right|]. rewrite decide_False; [done|]. by intros [?|?]%elem_of_cons.
Qed.

Lemma live_step_ok def use : tab def live_kill -> tab use live_gen ->
  step_ok f nv live_gen live_kill (succs_of f) (preds_of f) (live_step f def use) (fun st bits outs => tab st.1 bits /\ tab st.2 outs).
Proof.
  intros Hdef Huse b blk [li lo] bits outs Hb Hblk [HI HO]. cbn [fst snd] in *. destruct (bl_block b Hb) as (blk' & i & Hblk' & Hi & Hid).
  rewrite Hblk in Hblk'. injection Hblk' as <-.
  assert (Hp : succs_of f b = successors blk) by (unfold succs_of; by rewrite Hblk).
  unfold live_step. rewrite <- Hp, (union_rows_spec li bits) by (done || intros c Hc; by apply (succs_in b)). cbn [obind].
  destruct (set_row_spec lo outs b blk i (joined (succs_of f) bits b) HO Hi Hblk Hid) as (lo' & Hs & HO'). unfold joined in Hs. rewrite Hs.
  cbn [obind]. rewrite Hid, (table_get _ _ _ _ _ Hdef Hi), (table_get _ _ _ _ _ Huse Hi), (table_get _ _ _ _ _ HI Hi). cbn [obind].
  rewrite !row_zip.
  assert (He : forall v, existsb (fun c => bits c v) (succs_of f b) && negb (live_kill b v) || live_gen b v =
    equation live_gen live_kill (succs_of f) bits b v) by (intros v; apply orb_comm).
  rewrite (row_ext nv _ _ (fun v _ => He v)). case_bool_decide as Heq.
  - exists (li, lo'), []. split; [done|]. pose proof (row_inj _ _ _ Heq) as Hv. cbn [fst snd]. split; [split; [by apply keep_row|done]|]. by left.
  - destruct (set_row_spec li bits b blk i (equation live_gen live_kill (succs_of f) bits b) HI Hi Hblk Hid) as (li' & Hs' & HI').
    rewrite <- Hid, Hs'. cbn [obind]. exists (li', lo'), (predecessors blk). split; [done|]. split; [done|]. right.
    split; [unfold preds_of; by rewrite Hblk|]. by apply row_differs.
Qed.

(** ** Both analyses end in the least solutions *)

Lemma max_fold l : forall k m, (forall i b, l !! i = Some b -> bl !! (k + i)%nat = Some b) -> m = Z.max 0 (Z.of_nat k - 1) ->
  ofold (fun bb m => let! b := of_option (block_at f bb) in Ok (if m <? id b then id b else m)) l m = Ok (Z.max 0 (Z.of_nat (k + length l) - 1)).
Proof.
  induction l as [|b l IH]; intros k m Hk ->; cbn [ofold]; [by rewrite Nat.add_0_r|].
  destruct (fw_ids f Hf (k + 0)%nat b (Hk 0%nat b eq_refl)) as (blk & Hblk & Hid). rewrite Hblk. cbn [of_option obind]. rewrite (IH (S k)).
  - f_equal. simpl. lia.
  - intros i c Hi. specialize (Hk (S i) c Hi). by rewrite <- plus_n_Sm in Hk.
  - rewrite Hid. destruct (Z.ltb_spec (Z.max 0 (Z.of_nat k - 1)) (Z.of_nat (k + 0))); lia.
Qed.

Lemma max_block_id_spec : bl <> [] -> max_block_id f = Ok (Z.of_nat (length bl) - 1).
Proof.
  intros Hne. unfold max_block_id. rewrite (max_fold bl 0 0); [|done|done]. f_equal. destruct bl; [done|]. simpl length. lia.
Qed.

Lemma wl_start : exists w, ofold (push_wl f) bl (mkWl [] (replicate (length bl) false)) = Ok w /\ wl_ok f w /\ forall b, b ∈ bl -> b ∈ wl_queue w.
Proof.
  destruct (push_all_spec f (fw_ids f Hf) bl (mkWl [] (replicate (length bl) false))) as (w & Hr & Hw & Hq).
  - split; simpl; [apply NoDup_nil_2|intros b Hb; by apply not_elem_of_nil in Hb|].
    apply (table_ext bl _ (fun _ => false)); [|apply table_replicate]. done.
  - done.
  - exists w. split_and!; [done|done|]. intros b Hb. apply Hq. by right.
Qed.

Definition moved_out (v b : nat) : Prop := flow move_gen no_kill (preds_of f) v b.
Definition live_in (v b : nat) : Prop := flow live_gen live_kill (succs_of f) v b.

(** A solver run from the empty rows. *)
Lemma solve {A} gen kill nbrs push (step : MirBlock -> A -> outcome (A * list nat)) I st w :
  (forall b c, b ∈ bl -> c ∈ nbrs b -> c ∈ bl) -> (forall b c, b ∈ bl -> c ∈ push b -> c ∈ bl) ->
  (forall b c, b ∈ bl -> c ∈ bl -> c ∈ nbrs b -> b ∈ push c) ->
  step_ok f nv gen kill nbrs push step I -> I st (fun _ _ => false) (fun _ _ => false) ->
  wl_ok f w -> (forall b, b ∈ bl -> b ∈ wl_queue w) ->
  exists st' bits outs, wl_loop step (flow_fuel (length bl) nv) f w st = Ok st' /\ I st' bits outs /\
    (forall b v, b ∈ bl -> (v < nv)%nat -> bits b v = true <-> flow gen kill nbrs v b) /\
    (forall b v, b ∈ bl -> (v < nv)%nat -> outs b v = true <-> exists c, c ∈ nbrs b /\ flow gen kill nbrs v c).
Proof.
  intros Hn Hp Hd Hstep HI Hw Hq.
  destruct (wl_loop_spec f (fw_ids f Hf) nv gen kill nbrs push Hn Hp Hd step I Hstep (flow_fuel (length bl) nv) w st _ _ Hw HI)
    as (st' & bits & outs & Hr & HI' & Hs & Hset).
  - by intros b v _ _.
  - by intros b v _ _.
  - intros c Hc. left. by apply Hq.
  - assert (Hlq : (length (wl_queue w) <= length bl)%nat).
    { apply submseteq_length, NoDup_submseteq; [apply (wo_nodup _ _ Hw)|intros c Hc; by apply (wo_in _ _ Hw)]. }
    unfold unset, flow_fuel. cbn [negb].
    assert (Hu : (length (List.filter (fun _ : nat * nat => true) (list_prod bl (seq 0 nv))) <= length bl * nv)%nat).
    { rewrite <- (length_seq nv 0) at 2. rewrite <- length_prod. apply List.filter_length_le. }
    nia.
  - assert (Hbits : forall b v, b ∈ bl -> (v < nv)%nat -> bits b v = true <-> flow gen kill nbrs v b).
    { intros b v Hb Hv. split; [by apply Hs|]. intros H. by apply (settled_complete f nv gen kill nbrs Hn bits outs Hset). }
    exists st', bits, outs. split_and!; [done..|]. intros b v Hb Hv. rewrite (proj1 (Hset b Hb v Hv)). unfold joined. rewrite existsb_exists.
    split; intros (c & Hc & H); exists c; (split; [by apply list_elem_of_In|]); apply (Hbits c v); try done; apply (Hn b); try done; by apply list_elem_of_In.
Qed.
End flow.

(** ** Soundness and completeness of the borrow checker

    Program points and the paths between them; the errors of
    [mir_borrow_check_function] are exactly the uses after a move, the double
    moves and the clashing borrows that the paths of the function show. *)

(** ** The errors of a function *)

Definition emit_all (bc : MirBorrowChecker) (l : list MirBorrowError) : MirBorrowChecker := fold_left emit_error l bc.

Lemma emit_all_errors l : forall bc, errors (emit_all bc l) = errors bc ++ take (MIR_MAX_ERRORS - length (errors bc)) l.
Proof.
  induction l as [|e l IH]; intros bc; [by rewrite take_nil, app_nil_r|]. simpl. rewrite IH. unfold emit_error.
  destruct (Nat.leb_spec MIR_MAX_ERRORS (length (errors bc))) as [Hle|Hlt]; simpl.
  - replace (MIR_MAX_ERRORS - length (errors bc))%nat with 0%nat by lia. done.
  - rewrite length_app. simpl length. replace (MIR_MAX_ERRORS - length (errors bc))%nat with (S (MIR_MAX_ERRORS - (length (errors bc) + 1))) by lia.
    simpl. by rewrite <- app_assoc.
Qed.

Lemma emit_all_borrows l : forall bc, borrows (emit_all bc l) = borrows bc.
Proof. induction l as [|e l IH]; intros bc; [done|]. simpl. rewrite IH. unfold emit_error. by destruct (MIR_MAX_ERRORS <=? length (errors bc))%nat. Qed.

Lemma emit_all_app l k bc : emit_all bc (l ++ k) = emit_all (emit_all bc l) k.
Proof. apply fold_left_app. Qed.

Lemma emit_moved bc m e : emit_error (with_moved bc m) e = with_moved (emit_error bc e) m.
Proof. unfold emit_error. cbn [errors with_moved borrows]. by destruct (MIR_MAX_ERRORS <=? length (errors bc))%nat. Qed.

Lemma emit_all_moved l : forall bc m, emit_all (with_moved bc m) l = with_moved (emit_all bc l) m.
Proof. induction l as [|e l IH]; intros bc m; [done|]. simpl. by rewrite emit_moved, IH. Qed.

Definition borrow_parts (k : MirInstKind) : option (MirValueId * MirBorrowKind) :=
  match k with
  | TRANSFER MIR_BORROW s => Some (s, MIR_BK_SHARED)
  | TRANSFER MIR_BORROW_MUT s => Some (s, MIR_BK_MUTABLE)
  | _ => None
  end.
Definition borrow_of (i : MirInst) : option MirBorrow :=
  p ← borrow_parts (as_ i); Some (mkBorrow (result i) p.1 p.2 None (src_line i) (src_col i) true).

Section errors.
Context (f : MirFunction) (Hf : flow_wf f).
Abbreviation nv := (num_vals f).
Abbreviation rw := (row nv).
Abbreviation bl := (block_list f).

Definition op_errors (M : nat -> bool) (i : MirInst) : list MirBorrowError :=
  omap (fun p => if tracked f p.1 && M (N.to_nat p.1)
    then Some (mkBerr MIR_BERR_USE_AFTER_MOVE p.2 (src_line i) (src_col i) p.1 MIR_VALUE_NONE) else None) (checked_operands (as_ i)).

Definition move_errors (M : nat -> bool) (i : MirInst) : list MirBorrowError :=
  match as_ i with
  | TRANSFER MIR_MOVE src => if tracked f src && M (N.to_nat src)
      then [mkBerr MIR_BERR_DOUBLE_MOVE "value moved more than once" (src_line i) (src_col i) src MIR_VALUE_NONE] else []
  | _ => []
  end.

(** The borrow [v] is still wanted at the instruction [i] before [rest]. *)
Definition held (L : nat -> bool) (i : MirInst) (rest : list MirInst) (v : MirValueId) : bool :=
  inst_uses_value i v || tracked f v && (existsb (fun j => inst_uses_value j v) rest || L (N.to_nat v)).

Definition clash_errors (L : nat -> bool) (bs : list MirBorrow) (i : MirInst) (rest : list MirInst) : list MirBorrowError :=
  match borrow_parts (as_ i) with
  | None => []
  | Some (s, k) => omap (fun ex =>
      if negb (borrow_id ex =? result i)%N && held L i rest (borrow_id ex) && (source_id ex =? s)%N
      then conflict_error s k i ex else None) bs
  end.

Definition inst_errors M L bs i rest : list MirBorrowError := op_errors M i ++ move_errors M i ++ clash_errors L bs i rest.

Fixpoint insts_errors (M L : nat -> bool) (bs : list MirBorrow) (l : list MirInst) : list MirBorrowError :=
  match l with
  | [] => []
  | i :: rest => inst_errors M L bs i rest ++ insts_errors (fun v => M v || moves f i v) L bs rest
  end.

Lemma is_moved_row bc M v : (v < 2 ^ 31)%N -> is_moved (with_moved bc (rw M)) v = Ok ((N.to_nat v <? nv)%nat && M (N.to_nat v)).
Proof.
  intros Hv. unfold is_moved. cbn [moved with_moved]. rewrite row_length.
  rewrite s32_small by lia.
  destruct (Z.leb_spec (Z.of_nat nv) (Z.of_N v)) as [Hle|Hlt].
  - destruct (Nat.ltb_spec (N.to_nat v) nv); [lia|done].
  - destruct (Nat.ltb_spec (N.to_nat v) nv); [|lia]. by apply row_get.
Qed.

Lemma tracked_eq v : tracked f v = negb (v =? MIR_VALUE_NONE)%N && (N.to_nat v <? nv)%nat.
Proof.
  unfold tracked, num_vals. f_equal. destruct (N.ltb_spec v (next_value_id f)), (Nat.ltb_spec (N.to_nat v) (N.to_nat (next_value_id f))); lia || done.
Qed.

Lemma operands_checked i p : p ∈ checked_operands (as_ i) -> p.1 ∈ operands (as_ i).
Proof.
  destruct (as_ i) as [| | | | | | | | | | | | | | | | | | | | | | | op ?| | | | | | | | | |]; simpl; try done;
    try (intros Hp; apply list_elem_of_In in Hp; apply list_elem_of_In; simpl in *; by intuition (subst; auto)).
  - intros (v & -> & Hv)%list_elem_of_fmap. done.
  - intros [->|(v & -> & Hv)%list_elem_of_fmap]%elem_of_cons; [by left|by right].
  - intros [->|(v & -> & Hv)%list_elem_of_fmap]%elem_of_cons; [by left|by right].
  - intros (v & -> & Hv)%list_elem_of_fmap. apply list_elem_of_fmap. by exists v.
  - destruct op; simpl; try (intros Hp; apply list_elem_of_In in Hp; apply list_elem_of_In; simpl in *; by intuition (subst; auto)).
  - intros (v & -> & Hv)%list_elem_of_fmap. done.
Qed.

(** ** The pass emits them *)

Abbreviation small i := (forall v, v ∈ operands (as_ i) -> (v < 2 ^ 31)%N).

Lemma operands_pass i M bc : small i ->
  borrow_check_inst_operands i (with_moved bc (rw M)) = Ok (with_moved (emit_all bc (op_errors M i)) (rw M)).
Proof.
  intros Hs. unfold borrow_check_inst_operands, op_errors. pose proof (operands_checked i) as Hl. revert Hl.
  generalize (checked_operands (as_ i)) as l. intros l Hl. revert bc. induction l as [|[v ctx] l IH]; intros bc; cbn [ofold]; [done|].
  assert (Hv : (v < 2 ^ 31)%N) by (apply Hs, (Hl (v, ctx)); by left).
  assert (Hp : borrow_operand_moved i v ctx (with_moved bc (rw M)) = Ok (with_moved (emit_all bc (if tracked f v && M (N.to_nat v)
    then [mkBerr MIR_BERR_USE_AFTER_MOVE ctx (src_line i) (src_col i) v MIR_VALUE_NONE] else [])) (rw M))).
  { unfold borrow_operand_moved. rewrite tracked_eq. destruct (v =? MIR_VALUE_NONE)%N; [done|]. rewrite is_moved_row by done.
    cbn [obind negb andb]. destruct (_ && _); [by rewrite emit_moved|done]. }
  cbn [fst snd]. rewrite Hp. cbn [obind]. rewrite IH by (intros p Hin; apply Hl; by right). cbn [omap list_omap fst snd].
  destruct (tracked f v && M (N.to_nat v)); by rewrite <- ?emit_all_app.
Qed.

Lemma move_pass i M bc : small i ->
  check_move f i (with_moved bc (rw M)) = Ok (with_moved (emit_all bc (move_errors M i)) (rw (fun v => M v || moves f i v))).
Proof.
  intros Hs. unfold check_move, move_errors, moves.
  assert (Hz : rw M = rw (fun v => M v || false)) by (apply row_ext; intros v _; by rewrite orb_false_r).
  destruct (as_ i) as [| | | | | | | | | | | | | | | | | | | | | | | op src| | | | | | | | | |] eqn:E; try by rewrite <- Hz.
  destruct op; try by rewrite <- Hz. destruct (tracked f src) eqn:Et; cbn [andb]; [|by rewrite <- Hz].
  rewrite is_moved_row by (apply Hs; left). pose proof (tracked_lt f src Et) as Hlt. apply Nat.ltb_lt in Hlt as ->. cbn [andb obind].
  assert (Hm : forall bc, mark_moved (with_moved bc (rw M)) src = Ok (with_moved bc (rw (fun v => M v || (v =? N.to_nat src)%nat)))).
  { intros b. unfold mark_moved, ensure_moved. cbn [moved with_moved]. rewrite row_length. pose proof (tracked_lt f src Et) as Hlt.
    rewrite s32_small by (pose proof (Hs src (list_elem_of_here _ _)); lia). destruct (Z.leb_spec (Z.of_nat nv) (Z.of_N src)); [lia|].
    cbn [moved with_moved]. rewrite row_set by done. cbn [obind]. unfold with_moved. simpl. do 2 f_equal. apply row_ext. intros v _. apply orb_comm. }
  destruct (M (N.to_nat src)); [by rewrite emit_moved, Hm|by rewrite Hm].
Qed.

Lemma live_after_row i rest L v : inst_uses_value i v = false ->
  is_live_after f rest v (rw L) = Ok (held L i rest v).
Proof.
  intros Hi. unfold is_live_after, held. rewrite Hi. cbn [orb]. destruct (tracked f v) eqn:Et; [|done]. cbn [negb andb].
  destruct (existsb _ rest); [done|]. cbn [orb]. apply row_get. by apply tracked_lt.
Qed.

Lemma conflicts_pass i rest L s k bc : ofold (check_existing f s k i rest (rw L)) (borrows bc) bc =
  Ok (emit_all bc (omap (fun ex => if negb (borrow_id ex =? result i)%N && held L i rest (borrow_id ex) && (source_id ex =? s)%N
    then conflict_error s k i ex else None) (borrows bc))).
Proof.
  generalize (borrows bc) as l. intros l. revert bc. induction l as [|ex l IH]; intros bc; cbn [ofold]; [done|].
  assert (Hex : check_existing f s k i rest (rw L) ex bc = Ok (emit_all bc (option_list
    (if negb (borrow_id ex =? result i)%N && held L i rest (borrow_id ex) && (source_id ex =? s)%N then conflict_error s k i ex else None)))).
  { unfold check_existing. destruct (borrow_id ex =? result i)%N eqn:E1; [done|]. cbn [orb negb andb].
    assert (Hh : (if inst_uses_value i (borrow_id ex) then Ok true else is_live_after f rest (borrow_id ex) (rw L)) = Ok (held L i rest (borrow_id ex))).
    { destruct (inst_uses_value i (borrow_id ex)) eqn:E2; [unfold held; by rewrite E2|by apply live_after_row]. }
    rewrite Hh. cbn [obind]. destruct (held _ _ _ _); [|done]. cbn [negb andb]. destruct (source_id ex =? s)%N; [|done]. cbn [negb].
    by destruct (conflict_error s k i ex). }
  rewrite Hex. cbn [obind]. rewrite IH. cbn [omap list_omap]. rewrite <- emit_all_app.
  match goal with |- context [match ?x with Some _ => _ | None => _ end] => by destruct x end.
Qed.

Lemma clash_pass i rest L bc :
  match as_ i with
  | TRANSFER MIR_BORROW source => check_borrow_conflicts f source MIR_BK_SHARED i rest (rw L) bc
  | TRANSFER MIR_BORROW_MUT source => check_borrow_conflicts f source MIR_BK_MUTABLE i rest (rw L) bc
  | _ => Ok bc
  end = Ok (emit_all bc (clash_errors L (borrows bc) i rest)).
Proof.
  unfold clash_errors, check_borrow_conflicts. destruct (as_ i) as [| | | | | | | | | | | | | | | | | | | | | | | op src| | | | | | | | | |]; try done.
  destruct op; cbn [borrow_parts]; try done; apply conflicts_pass.
Qed.

Lemma insts_pass L l : forall M bc, (forall i, i ∈ l -> small i) ->
  check_insts f (rw L) l (with_moved bc (rw M)) =
  Ok (with_moved (emit_all bc (insts_errors M L (borrows bc) l)) (rw (fun v => M v || existsb (fun i => moves f i v) l))).
Proof.
  induction l as [|i l IH]; intros M bc Hs; cbn [check_insts insts_errors].
  { f_equal. cbn [emit_all fold_left]. f_equal. apply row_ext. intros v _. simpl. by rewrite orb_false_r. }
  assert (Hi : small i) by (apply Hs; by left). rewrite operands_pass by done. cbn [obind]. rewrite move_pass by done. cbn [obind].
  rewrite clash_pass. cbn [obind]. rewrite emit_all_moved. cbn [borrows with_moved]. rewrite !emit_all_borrows, <- !emit_all_app.
  rewrite IH by (intros j Hj; apply Hs; by right). rewrite emit_all_borrows. unfold inst_errors. rewrite <- !app_assoc, <- !emit_all_app.
  rewrite <- !app_assoc. f_equal. f_equal. apply row_ext. intros v _. cbn [existsb]. by rewrite orb_assoc.
Qed.

Abbreviation tab rows bits := (table bl rows (fun b => rw (bits b))).

(** The values moved at the entry of a block, from the rows of its predecessors. *)
Definition entry_of (bits : nat -> nat -> bool) (b : nat) : nat -> bool := fun v => existsb (fun c => bits c v) (preds_of f b).

Lemma in_all_insts b i : b ∈ bl -> i ∈ inst_list f b -> i ∈ all_insts f.
Proof. intros Hb Hi. unfold all_insts. apply list_elem_of_bind. by exists b. Qed.

Lemma block_pass out lo bits outs b bc : tab out bits -> tab lo outs -> b ∈ bl ->
  exists m, check_block f out lo b bc = Ok (with_moved (emit_all bc (insts_errors (entry_of bits b) (outs b) (borrows bc) (inst_list f b))) m).
Proof.
  intros Ho Hl Hb. destruct (bl_block f Hf b Hb) as (blk & i & Hblk & Hi & Hid). unfold check_block. rewrite Hblk. cbn [of_option obind].
  assert (Hp : predecessors blk = preds_of f b) by (unfold preds_of; by rewrite Hblk).
  rewrite Hp, (union_rows_spec f Hf out bits) by (done || intros c Hc; by apply (preds_listed f Hf b)). cbn [obind].
  rewrite Hid, (table_get _ _ _ _ _ Hl Hi). cbn [obind]. rewrite insts_pass.
  - rewrite (inst_list_at f b blk Hblk). by eexists.
  - intros j Hj v Hv. apply (fw_operands f Hf j v); [|done]. apply (in_all_insts b); [done|]. by rewrite (inst_list_at f b blk Hblk).
Qed.

Definition function_errors (bits outs : nat -> nat -> bool) (bs : list MirBorrow) : list MirBorrowError :=
  mbind (fun b => insts_errors (entry_of bits b) (outs b) bs (inst_list f b)) bl.

Lemma blocks_pass out lo bits outs bc : tab out bits -> tab lo outs ->
  exists m, ofold (check_block f out lo) bl bc = Ok (with_moved (emit_all bc (function_errors bits outs (borrows bc))) m).
Proof.
  intros Ho Hl. unfold function_errors.
  enough (forall l bc, (forall b, b ∈ l -> b ∈ bl) -> exists m, ofold (check_block f out lo) l bc =
    Ok (with_moved (emit_all bc (mbind (fun b => insts_errors (entry_of bits b) (outs b) (borrows bc) (inst_list f b)) l)) m)) as H by by apply H.
  induction l as [|b l IH]; intros bc' Hin; [exists (moved bc'); simpl; by destruct bc'|]. cbn [ofold].
  destruct (block_pass out lo bits outs b bc' Ho Hl) as (m & ->); [apply Hin; by left|]. cbn [obind].
  destruct (IH (with_moved (emit_all bc' (insts_errors (entry_of bits b) (outs b) (borrows bc') (inst_list f b))) m)) as (m' & ->);
    [intros c Hc; apply Hin; by right|].
  exists m'. cbn [borrows with_moved]. rewrite emit_all_borrows, emit_all_moved. cbn [mbind list_bind]. rewrite emit_all_app.
  by destruct (emit_all _ _).
Qed.

(** The borrows of the function, as many as there is room for. *)
Definition tracked_borrows : list MirBorrow := take MIR_MAX_BORROWS (omap borrow_of (all_insts f)).

Lemma track_insts l : forall bs es m, (length bs <= MIR_MAX_BORROWS)%nat ->
  fold_left (fun bc inst => track_inst inst bc) l (mkChecker bs es m) =
  mkChecker (bs ++ take (MIR_MAX_BORROWS - length bs) (omap borrow_of l)) es m.
Proof.
  induction l as [|i l IH]; intros bs es m Hb; cbn [fold_left]; [cbn [omap list_omap]; by rewrite take_nil, app_nil_r|].
  assert (Hi : track_inst i (mkChecker bs es m) = mkChecker (bs ++ take (MIR_MAX_BORROWS - length bs) (option_list (borrow_of i))) es m).
  { assert (Hz : forall k, bs ++ take k (option_list (@None MirBorrow)) = bs) by (intros [|k]; simpl; by rewrite app_nil_r).
    unfold track_inst, borrow_of, track_borrow. cbn [borrows errors moved].
    destruct (as_ i) as [| | | | | | | | | | | | | | | | | | | | | | | op src| | | | | | | | | |]; cbn [borrow_parts mbind option_bind];
      try (by rewrite Hz).
    destruct op; cbn [borrow_parts mbind option_bind]; try (by rewrite Hz);
      (destruct (Nat.leb_spec MIR_MAX_BORROWS (length bs)) as [Hle|Hlt];
       [replace (MIR_MAX_BORROWS - length bs)%nat with 0%nat by lia; by rewrite app_nil_r|
        destruct (MIR_MAX_BORROWS - length bs)%nat eqn:E; [lia|simpl; by rewrite take_nil]]). }
  rewrite Hi, IH; [|rewrite length_app, length_take; lia].
  f_equal. rewrite <- app_assoc. f_equal. rewrite length_app, length_take.
  change (omap borrow_of (i :: l)) with (match borrow_of i with Some y => y :: omap borrow_of l | None => omap borrow_of l end).
  destruct (borrow_of i) as [x|]; simpl (length (option_list _)); simpl (option_list _).
  - destruct (MIR_MAX_BORROWS - length bs)%nat as [|k] eqn:E; cbn [take app].
    + simpl length. replace (MIR_MAX_BORROWS - (length bs + 0 `min` 1))%nat with 0%nat by lia. done.
    + rewrite take_nil. cbn [app]. f_equal. f_equal. simpl length. lia.
  - rewrite take_nil. cbn [app]. f_equal. simpl length. lia.
Qed.

Lemma check_function_exact bc : is_extern f = false -> bl <> [] -> exists bits outs bc',
  mir_borrow_check_function bc f = Ok (bc', Z.of_nat (length (errors bc')) - Z.of_nat (length (errors bc))) /\
  errors bc' = errors bc ++ take (MIR_MAX_ERRORS - length (errors bc)) (function_errors bits outs tracked_borrows) /\
  (forall b v, b ∈ bl -> (v < nv)%nat -> bits b v = true <-> moved_out f v b) /\
  (forall b v, b ∈ bl -> (v < nv)%nat -> outs b v = true <-> exists c, c ∈ succs_of f b /\ live_in f v c).
Proof.
  intros Hx Hne. unfold mir_borrow_check_function. rewrite Hx. destruct bl as [|b0 bl'] eqn:Ebl; [done|]. rewrite <- Ebl in *.
  rewrite (max_block_id_spec f Hf) by by rewrite Ebl. cbn [obind].
  replace (Z.to_nat (Z.of_nat (length bl) - 1 + 1)) with (length bl) by lia.
  destruct (wl_start f Hf) as (w & -> & Hw & Hq). cbn [obind].
  set (rows := replicate (length bl) (replicate (num_vals f) false)).
  assert (Hrows : tab rows (fun _ _ => false)) by (unfold rows; rewrite row_false; apply table_replicate).
  destruct (solve f Hf _ _ _ _ _ _ rows w (preds_listed f Hf) (succs_in f Hf) (fun b c Hb Hc => proj1 (preds_succs f Hf b c Hb Hc)) (move_step_ok f Hf) Hrows Hw Hq)
    as (out & bits & _ & -> & Hout & Hbits & _). cbn [obind].
  destruct (local_sets_spec f Hf bl rows rows _ _ Hrows Hrows (fun _ H => H) (ids_nodup f (fw_ids f Hf)) (fun _ _ _ => conj eq_refl eq_refl))
    as (d & u & -> & Hd & Hu). cbn [obind fst snd].
  assert (Hin : forall t (P Q : nat -> nat -> bool), tab t (fun b v => if decide (b ∈ bl) then P b v else Q b v) -> tab t P).
  { intros t P Q [Hl Ht]. split; [done|]. intros i b Hi. rewrite (Ht i b Hi). f_equal. apply row_ext. intros v _.
    apply decide_True. by apply list_elem_of_lookup_2 in Hi. }
  destruct (solve f Hf _ _ _ _ _ _ (rows, rows) w (succs_in f Hf) (preds_listed f Hf) (fun b c Hb Hc => proj2 (preds_succs f Hf c b Hc Hb))
    (live_step_ok f Hf d u (Hin _ _ _ Hd) (Hin _ _ _ Hu)) (conj Hrows Hrows) Hw Hq) as ([li lo] & lbits & outs & -> & [_ Hlo] & _ & Houts).
  cbn [obind snd]. unfold mir_borrow_reset. rewrite track_insts by (simpl; lia). cbn [app length]. rewrite Nat.sub_0_r.
  edestruct (blocks_pass out lo bits outs) as (m & ->); [exact Hout|exact Hlo|]. cbn [obind]. cbn [borrows].
  exists bits, outs. eexists. split; [done|]. cbn [errors with_moved]. rewrite emit_all_errors. cbn [errors]. by split_and!.
Qed.
End errors.
