(* ===== verification/BorrowSound.v ===== *)
(** * The borrow checker against the paths of the function

    Program points and the steps between them.  A value is moved at a point if
    some path from the entry of any block leads there through its move; a
    borrow is live at a point if some path from it reaches a use before a
    redefinition.  The checker reports nothing if and only if there is no use
    after a move, no double move and no clash of borrows. *)
From S2P Require Import Prelude MirCore MirGraph MirOpt Dominators DomFrontier MirVerifyFacts.
From S2P Require Import Worklist MirBorrow BorrowFacts.

(** ** Paths *)

(** The point before the [i]th instruction of [b]. *)
Abbreviation point := (nat * nat)%type.

Inductive pstep (f : MirFunction) : point -> point -> Prop :=
| ps_next b i x : inst_at f b i = Some x -> pstep f (b, i) (b, S i)
| ps_edge b s : cfg_edge successors f b s -> pstep f (b, length (inst_list f b)) (s, 0%nat).

(** A move of [v] lies on a path to the point. *)
Definition moved_at (f : MirFunction) (v : MirValueId) (p : point) : Prop :=
  exists c j x, c ∈ block_list f /\ inst_at f c j = Some x /\ as_ x = TRANSFER MIR_MOVE v /\ rtc (pstep f) (c, S j) p.

Inductive live_at (f : MirFunction) (v : MirValueId) : point -> Prop :=
| live_use b i x : inst_at f b i = Some x -> v ∈ operands (as_ x) -> live_at f v (b, i)
| live_next b i x : inst_at f b i = Some x -> result x <> v -> live_at f v (b, S i) -> live_at f v (b, i)
| live_edge b s : cfg_edge successors f b s -> live_at f v (s, 0%nat) -> live_at f v (b, length (inst_list f b)).

(** ** What must not happen *)

Definition use_after_move (f : MirFunction) : Prop := exists b i x v, b ∈ block_list f /\ inst_at f b i = Some x /\
  (forall u, as_ x <> TRANSFER MIR_MOVE u) /\ v ∈ operands (as_ x) /\ tracked f v = true /\ moved_at f v (b, i).

Definition double_move (f : MirFunction) : Prop := exists b i x v, b ∈ block_list f /\ inst_at f b i = Some x /\
  as_ x = TRANSFER MIR_MOVE v /\ tracked f v = true /\ moved_at f v (b, i).

(** The instruction at the point borrows [s], and another borrow [ex] of [s]
    satisfies [wanted] there; one of the two is mutable. *)
Definition clash (wanted : MirFunction -> MirValueId -> point -> MirInst -> Prop) (f : MirFunction) : Prop :=
  exists b i x s k ex, b ∈ block_list f /\ inst_at f b i = Some x /\ borrow_parts (as_ x) = Some (s, k) /\
    ex ∈ omap borrow_of (all_insts f) /\ source_id ex = s /\ borrow_id ex <> result x /\
    (k = MIR_BK_MUTABLE \/ bk_kind ex = MIR_BK_MUTABLE) /\ wanted f (borrow_id ex) (b, i) x.

(** Used by the instruction, or live behind it. *)
Definition live_here (f : MirFunction) (v : MirValueId) (p : point) (x : MirInst) : Prop :=
  v ∈ operands (as_ x) \/ tracked f v = true /\ live_at f v (p.1, S p.2).

(** What the checker takes for live: used by the instruction or one behind it
    in the block, or live at the end of the block. *)
Definition held_here (f : MirFunction) (v : MirValueId) (p : point) (x : MirInst) : Prop :=
  v ∈ operands (as_ x) \/ tracked f v = true /\
    ((exists j y, (p.2 < j)%nat /\ inst_at f p.1 j = Some y /\ v ∈ operands (as_ y)) \/ live_at f v (p.1, length (inst_list f p.1))).

Section paths.
Context (f : MirFunction) (Hf : flow_wf f).
Abbreviation bl := (block_list f).
Abbreviation nv := (num_vals f).

Lemma edge_succs b s : s ∈ succs_of f b <-> cfg_edge successors f b s.
Proof.
  unfold succs_of, cfg_edge. destruct (block_at f b) as [blk|]; simpl.
  - split; [intros H; by exists blk|]. by intros (? & [= <-] & H).
  - split; [by intros H%not_elem_of_nil|]. by intros (? & [=] & _).
Qed.

Lemma rest_of_block b i : (i <= length (inst_list f b))%nat -> rtc (pstep f) (b, i) (b, length (inst_list f b)).
Proof.
  intros Hi. remember (length (inst_list f b) - i)%nat as n eqn:Hn. revert i Hi Hn. induction n as [|n IH]; intros i Hi Hn.
  - by replace i with (length (inst_list f b)) by lia.
  - destruct (lookup_lt_is_Some_2 (inst_list f b) i) as [x Hx]; [lia|].
    eapply rtc_l; [by apply (ps_next f b i x)|]. apply IH; lia.
Qed.

Lemma within_block b i j : (i <= j)%nat -> (j <= length (inst_list f b))%nat -> rtc (pstep f) (b, i) (b, j).
Proof.
  intros Hij Hj. remember (j - i)%nat as n eqn:Hn. revert i Hij Hn. induction n as [|n IH]; intros i Hij Hn.
  - by replace i with j by lia.
  - destruct (lookup_lt_is_Some_2 (inst_list f b) i) as [x Hx]; [lia|].
    eapply rtc_l; [by apply (ps_next f b i x)|]. apply IH; lia.
Qed.

Lemma moves_true x v : tracked f v = true -> moves f x (N.to_nat v) = true <-> as_ x = TRANSFER MIR_MOVE v.
Proof.
  intros Ht. unfold moves. split.
  - destruct (as_ x) as [| | | | | | | | | | | | | | | | | | | | | | | op src| | | | | | | | | |]; try done. destruct op; try done.
    intros [_ ->%Nat.eqb_eq%N2Nat.inj]%andb_true_iff. done.
  - intros ->. by rewrite Ht, Nat.eqb_refl.
Qed.

(** The end of a block whose row marks [v] is behind a move of [v]. *)
Lemma moved_out_path v d : tracked f v = true -> moved_out f (N.to_nat v) d -> d ∈ bl -> moved_at f v (d, length (inst_list f d)).
Proof.
  intros Ht. induction 1 as [d Hg|d c Hc Hm IH _]; intros Hd.
  - apply existsb_exists in Hg as (x & Hx%list_elem_of_In & E%moves_true); [|done]. apply list_elem_of_lookup in Hx as [j Hx].
    exists d, j, x. split_and!; [done..|]. apply within_block; [|done]. by apply lookup_lt_Some in Hx.
  - assert (Hcb : c ∈ bl) by by apply (preds_listed f Hf d). destruct (IH Hcb) as (a & j & x & Ha & Hx & Ex & Hp).
    exists a, j, x. split_and!; [done..|]. etrans; [exact Hp|].
    eapply rtc_l; [apply (ps_edge f c d), edge_succs; by apply (preds_succs f Hf)|]. apply within_block; lia.
Qed.

(** The moves before the point in its block, or at the end of a predecessor. *)
Definition moved_by (v : MirValueId) (p : point) : Prop :=
  (exists j x, (j < p.2)%nat /\ inst_at f p.1 j = Some x /\ as_ x = TRANSFER MIR_MOVE v) \/
  exists c, c ∈ preds_of f p.1 /\ moved_out f (N.to_nat v) c.

Lemma moved_by_step v p q : tracked f v = true -> p.1 ∈ bl -> pstep f p q -> moved_by v p -> q.1 ∈ bl /\ moved_by v q.
Proof.
  intros Ht Hin Hs IH. destruct Hs as [b i y Hy|b s He]; cbn [fst snd] in *.
  - split; [done|]. destruct IH as [(k & y' & Hk & Hy' & E)|H]; [left; exists k, y'; cbn [fst snd] in *; split; [lia|done]|by right].
  - assert (Hs : s ∈ bl) by (apply (succs_in f Hf b); [done|by apply edge_succs]). split; [done|]. right. exists b. cbn [fst snd].
    split; [apply (preds_succs f Hf); [done..|]; by apply edge_succs|]. destruct IH as [(k & y' & Hk & Hy' & E)|(d & Hd & Hm)].
    + apply flow_gen, existsb_exists. exists y'. split; [apply list_elem_of_In; by apply list_elem_of_lookup_2 in Hy'|by apply moves_true].
    + by apply (flow_step _ _ _ _ _ d).
Qed.

Lemma moved_at_flow v b i : tracked f v = true -> b ∈ bl -> (i <= length (inst_list f b))%nat -> moved_at f v (b, i) <-> moved_by v (b, i).
Proof.
  intros Ht Hb Hi. split.
  - intros (c & j & x & Hc & Hx & Ex & Hp). apply (rtc_ind_r (fun p => p.1 ∈ bl /\ moved_by v p) (c, S j)) in Hp; [by apply Hp|..].
    + split; [done|]. left. exists j, x. split; [simpl; lia|done].
    + intros p q _ Hs [Hin IH]. by apply (moved_by_step v p).
  - intros [(j & x & Hj & Hx & Ex)|(c & Hc & Hm)]; cbn [fst snd] in *.
    + exists b, j, x. split_and!; [done..|]. by apply within_block.
    + assert (Hcb : c ∈ bl) by by apply (preds_listed f Hf b). destruct (moved_out_path v c Ht Hm Hcb) as (a & j & x & Ha & Hx & Ex & Hp).
      exists a, j, x. split_and!; [done..|]. etrans; [exact Hp|].
      eapply rtc_l; [apply (ps_edge f c b), edge_succs; by apply (preds_succs f Hf)|]. apply within_block; lia.
Qed.

(** ** Liveness *)

Lemma uses_true x v : tracked f v = true -> uses f x (N.to_nat v) = true <-> v ∈ operands (as_ x).
Proof.
  intros Ht. unfold uses. rewrite existsb_exists. split.
  - intros (u & Hu & [_ ->%Nat.eqb_eq%N2Nat.inj]%andb_true_iff). by apply list_elem_of_In.
  - intros Hv. exists v. by rewrite Ht, Nat.eqb_refl, <- list_elem_of_In.
Qed.

Lemma defines_true x v : tracked f v = true -> defines f x (N.to_nat v) = true <-> result x = v.
Proof.
  intros Ht. unfold defines. split; [by intros [_ ->%Nat.eqb_eq%N2Nat.inj]%andb_true_iff|]. intros ->. by rewrite Ht, Nat.eqb_refl.
Qed.

(** Live in the rest of the block, or behind it. *)
Definition live_by (v : MirValueId) (p : point) : Prop :=
  let rest := drop p.2 (inst_list f p.1) in
  exposed f rest (N.to_nat v) = true \/
  existsb (fun x => defines f x (N.to_nat v)) rest = false /\ exists s, s ∈ succs_of f p.1 /\ live_in f (N.to_nat v) s.

Lemma live_by_in v b : live_by v (b, 0%nat) -> live_in f (N.to_nat v) b.
Proof.
  intros [H|[Hk (s & Hs & H)]]; cbn [fst snd] in *; rewrite drop_0 in *; [by apply flow_gen|by apply (flow_step _ _ _ _ _ s)].
Qed.

Lemma live_at_by v p : tracked f v = true -> live_at f v p -> live_by v p.
Proof.
  intros Ht. induction 1 as [b i x Hx Hv|b i x Hx Hr _ IH|b s He _ IH]; unfold live_by; cbn [fst snd] in *.
  - left. rewrite (drop_S _ x) by done. cbn [exposed]. by rewrite (proj2 (uses_true x v Ht) Hv).
  - assert (Hd : defines f x (N.to_nat v) = false) by (apply not_true_is_false; by rewrite defines_true).
    rewrite (drop_S _ x) by done. cbn [exposed existsb]. rewrite Hd. cbn [negb orb andb].
    destruct IH as [IH|IH]; cbn [fst snd] in IH; [left; rewrite IH; apply orb_true_r|by right].
  - right. rewrite drop_all. split; [done|]. exists s. split; [by apply edge_succs|]. by apply live_by_in.
Qed.

Lemma exposed_live v b n : tracked f v = true -> forall i, (length (inst_list f b) - i = n)%nat ->
  exposed f (drop i (inst_list f b)) (N.to_nat v) = true -> live_at f v (b, i).
Proof.
  intros Ht. induction n as [|n IH]; intros i Hn He; [by rewrite drop_ge in He by lia|].
  destruct (lookup_lt_is_Some_2 (inst_list f b) i) as [x Hx]; [lia|]. rewrite (drop_S _ x) in He by done. cbn [exposed] in He.
  apply orb_true_iff in He as [He|[Hd He]%andb_true_iff]; [by apply (live_use f v b i x), uses_true|].
  apply (live_next f v b i x); [done| |apply IH; [lia|done]]. intros Hr. by rewrite (proj2 (defines_true x v Ht) Hr) in Hd.
Qed.

Lemma through_live v b n : tracked f v = true -> forall i, (length (inst_list f b) - i = n)%nat -> (i <= length (inst_list f b))%nat ->
  existsb (fun x => defines f x (N.to_nat v)) (drop i (inst_list f b)) = false -> live_at f v (b, length (inst_list f b)) -> live_at f v (b, i).
Proof.
  intros Ht. induction n as [|n IH]; intros i Hn Hi He Hl; [by replace i with (length (inst_list f b)) by lia|].
  destruct (lookup_lt_is_Some_2 (inst_list f b) i) as [x Hx]; [lia|]. rewrite (drop_S _ x) in He by done. cbn [existsb] in He.
  apply orb_false_iff in He as [Hd He]. apply (live_next f v b i x); [done| |apply IH; [lia|lia|done|done]].
  intros Hr. by rewrite (proj2 (defines_true x v Ht) Hr) in Hd.
Qed.

Lemma live_in_path v s : tracked f v = true -> live_in f (N.to_nat v) s -> live_at f v (s, 0%nat).
Proof.
  intros Ht. induction 1 as [b Hg|b c Hc _ IH Hk].
  - eapply exposed_live; [done..|]. by rewrite drop_0.
  - eapply through_live; [done..|lia|by rewrite drop_0|]. apply (live_edge f v b c); [by apply edge_succs|done].
Qed.

Lemma live_end v b : tracked f v = true ->
  live_at f v (b, length (inst_list f b)) <-> exists s, s ∈ succs_of f b /\ live_in f (N.to_nat v) s.
Proof.
  intros Ht. split.
  - intros [H|[_ H]]%live_at_by; cbn [fst snd] in *; [|done|done]. by rewrite drop_all in H.
  - intros (s & Hs & Hl). apply (live_edge f v b s); [by apply edge_succs|by apply live_in_path].
Qed.

(** A borrow that is live behind an instruction is one the checker takes for live. *)
Lemma live_held v p x : live_here f v p x -> held_here f v p x.
Proof.
  intros [H|[Ht H]]; [by left|right; split; [done|]]. apply live_at_by in H; [|done]. destruct H as [H|[_ H]]; cbn [fst snd] in H.
  - left. assert (Hu : exists y, y ∈ drop (S p.2) (inst_list f p.1) /\ v ∈ operands (as_ y)).
    { revert H. generalize (drop (S p.2) (inst_list f p.1)). induction l as [|y l IH]; [done|]. cbn [exposed].
      intros [H|[_ H]%andb_true_iff]%orb_true_iff; [exists y; split; [by left|by apply uses_true]|].
      destruct (IH H) as (z & Hz & Hv). exists z. split; [by right|done]. }
    destruct Hu as (y & [j Hj]%list_elem_of_lookup & Hv). rewrite lookup_drop in Hj. exists (S p.2 + j)%nat, y. split_and!; [lia|done|done].
  - right. by apply live_end.
Qed.

(** ** No error means no violation *)

Lemma checked_covers x v : (forall u, as_ x <> TRANSFER MIR_MOVE u) -> v ∈ operands (as_ x) -> exists ctx, (v, ctx) ∈ checked_operands (as_ x).
Proof.
  intros Hm. destruct (as_ x) as [| | | | | | | | | | | | | | | | | | | | | | |op src| | | | | | | | | |] eqn:E; simpl;
    try solve [intros Hv; by apply not_elem_of_nil in Hv];
    try solve [intros Hv; apply list_elem_of_In in Hv; simpl in Hv; setoid_rewrite list_elem_of_In; simpl; intuition (subst; eauto)].
  - intros Hv. eexists. apply list_elem_of_fmap. by exists v.
  - intros [->|Hv]%elem_of_cons; [eexists; by left|]. eexists. right. apply list_elem_of_fmap. by exists v.
  - intros [->|Hv]%elem_of_cons; [eexists; by left|]. eexists. right. apply list_elem_of_fmap. by exists v.
  - intros (e & -> & He)%list_elem_of_fmap. eexists. apply list_elem_of_fmap. by exists e.
  - destruct op; [..|by destruct (Hm src)]; intros Hv; eexists; simpl; apply list_elem_of_singleton in Hv as ->; by left.
  - intros Hv. eexists. apply list_elem_of_fmap. by exists v.
Qed.

Lemma insts_errors_nil L bs l : forall M, insts_errors f M L bs l = [] <->
  forall i x, l !! i = Some x -> inst_errors f (fun v => M v || existsb (fun y => moves f y v) (take i l)) L bs x (drop (S i) l) = [].
Proof.
  assert (Hext : forall M M' x rest, (forall v, M v = M' v) -> inst_errors f M L bs x rest = inst_errors f M' L bs x rest).
  { intros M M' x rest H. unfold inst_errors. f_equal; [|f_equal].
    - unfold op_errors. induction (checked_operands (as_ x)) as [|p k IHk]; [done|]. cbn [omap list_omap] in *. by rewrite H, IHk.
    - unfold move_errors. destruct (as_ x); try done. destruct op; try done. by rewrite H. }
  induction l as [|y l IH]; intros M; cbn [insts_errors]; [by split|]. split.
  - intros [Hy Hl]%app_nil [|i] x Hx; simpl in Hx.
    + injection Hx as <-. cbn [take drop existsb]. rewrite <- Hy. apply Hext. intros v. apply orb_false_r.
    + cbn [take drop existsb]. rewrite <- (proj1 (IH _) Hl i x Hx). apply Hext. intros v. apply orb_assoc.
  - intros H. apply app_nil. split.
    + rewrite <- (H 0%nat y eq_refl). cbn [take drop existsb]. apply Hext. intros v. symmetry. apply orb_false_r.
    + apply IH. intros i x Hx. rewrite <- (H (S i) x Hx). cbn [take drop existsb]. apply Hext. intros v. symmetry. apply orb_assoc.
Qed.

Lemma omap_nil {A B} (g : A -> option B) l : omap g l = [] <-> forall x, x ∈ l -> g x = None.
Proof.
  split.
  - intros H x Hx. destruct (g x) as [y|] eqn:E; [|done]. assert (Hy : y ∈ omap g l) by (apply list_elem_of_omap; by exists x).
    rewrite H in Hy. by apply not_elem_of_nil in Hy.
  - intros H. destruct (omap g l) as [|y k] eqn:E; [done|].
    assert (Hy : y ∈ omap g l) by (rewrite E; by left). apply list_elem_of_omap in Hy as (x & Hx & Hg). by rewrite (H x Hx) in Hg.
Qed.

Section bits.
Context (bits outs : nat -> nat -> bool).
Hypothesis Hbits : forall b v, b ∈ bl -> (v < nv)%nat -> bits b v = true <-> moved_out f v b.
Hypothesis Houts : forall b v, b ∈ bl -> (v < nv)%nat -> outs b v = true <-> exists c, c ∈ succs_of f b /\ live_in f v c.

Lemma marks_moved b i v : b ∈ bl -> (i <= length (inst_list f b))%nat -> tracked f v = true ->
  entry_of f bits b (N.to_nat v) || existsb (fun y => moves f y (N.to_nat v)) (take i (inst_list f b)) = true <-> moved_at f v (b, i).
Proof.
  intros Hb Hi Ht. rewrite moved_at_flow by done. unfold moved_by, entry_of. cbn [fst snd]. rewrite orb_true_iff, !existsb_exists. split.
  - intros [(c & Hc%list_elem_of_In & Hm)|(y & Hy%list_elem_of_In & Hm)].
    + right. exists c. split; [done|]. apply Hbits; [by apply (preds_listed f Hf b)|by apply tracked_lt|done].
    + left. apply list_elem_of_lookup in Hy as [j Hj]. apply lookup_take_Some in Hj as [Hj Hlt]. exists j, y. split_and!; [done..|by apply moves_true].
  - intros [(j & y & Hj & Hy & E)|(c & Hc & Hm)].
    + right. exists y. split; [|by apply moves_true]. apply list_elem_of_In, list_elem_of_lookup. exists j. by apply lookup_take_Some.
    + left. exists c. split; [by apply list_elem_of_In|]. apply Hbits; [by apply (preds_listed f Hf b)|by apply tracked_lt|done].
Qed.

Lemma held_spec b i x v : b ∈ bl -> inst_at f b i = Some x ->
  held f (outs b) x (drop (S i) (inst_list f b)) v = true <-> held_here f v (b, i) x.
Proof.
  intros Hb Hx. unfold held, held_here, inst_uses_value. cbn [fst snd]. rewrite orb_true_iff, andb_true_iff, orb_true_iff, !existsb_exists.
  assert (Hu : forall y, (exists u, In u (operands (as_ y)) /\ (u =? v)%N = true) <-> v ∈ operands (as_ y)).
  { intros y. split; [intros (u & Hu & ->%N.eqb_eq); by apply list_elem_of_In|]. intros Hv. exists v. split; [by apply list_elem_of_In|apply N.eqb_refl]. }
  rewrite Hu. apply or_iff_compat_l. split; (intros [Ht H]; split; [done|]).
  - destruct H as [(y & [j Hj]%list_elem_of_In%list_elem_of_lookup & Hv)|H].
    + left. rewrite lookup_drop in Hj. exists (S i + j)%nat, y. split_and!; [lia|done|]. apply existsb_exists in Hv. by apply Hu.
    + right. apply live_end; [done|]. by apply Houts; [|apply tracked_lt|].
  - destruct H as [(j & y & Hj & Hy & Hv)|H].
    + left. exists y. split; [|by apply existsb_exists, Hu]. apply list_elem_of_In, list_elem_of_lookup. exists (j - S i)%nat.
      rewrite lookup_drop. by replace (S i + (j - S i))%nat with j by lia.
    + right. apply Houts; [done|by apply tracked_lt|]. by apply live_end.
Qed.

(** The marks of the pass before the [i]th instruction. *)
Abbreviation mark b i := (fun v => entry_of f bits b v || existsb (fun y => moves f y v) (take i (inst_list f b))).

Lemma op_errors_nil b i x : b ∈ bl -> inst_at f b i = Some x -> op_errors f (mark b i) x = [] <->
  forall v, (forall u, as_ x <> TRANSFER MIR_MOVE u) -> v ∈ operands (as_ x) -> tracked f v = true -> ~ moved_at f v (b, i).
Proof.
  intros Hb Hx. assert (Hi : (i <= length (inst_list f b))%nat) by (apply lookup_lt_Some in Hx; lia).
  unfold op_errors. rewrite omap_nil. split.
  - intros H v Hm Hv Ht Hmv. destruct (checked_covers x v Hm Hv) as (ctx & Hc). specialize (H _ Hc). cbn [fst snd] in H.
    rewrite Ht, (proj2 (marks_moved b i v Hb Hi Ht) Hmv) in H. done.
  - intros H [v ctx] Hc. cbn [fst snd]. destruct (tracked f v) eqn:Ht; [|done]. cbn [andb].
    destruct (_ || _) eqn:E; [|done]. exfalso. apply (H v); [|by apply (operands_checked x (v, ctx))|done|by apply marks_moved].
    intros u Eu. rewrite Eu in Hc. by apply not_elem_of_nil in Hc.
Qed.

Lemma move_errors_nil b i x : b ∈ bl -> inst_at f b i = Some x -> move_errors f (mark b i) x = [] <->
  forall v, as_ x = TRANSFER MIR_MOVE v -> tracked f v = true -> ~ moved_at f v (b, i).
Proof.
  intros Hb Hx. assert (Hi : (i <= length (inst_list f b))%nat) by (apply lookup_lt_Some in Hx; lia). unfold move_errors. split.
  - intros H v E Ht Hmv. rewrite E in H. by rewrite Ht, (proj2 (marks_moved b i v Hb Hi Ht) Hmv) in H.
  - intros H. destruct (as_ x) as [| | | | | | | | | | | | | | | | | | | | | | |op src| | | | | | | | | |] eqn:E; try done. destruct op; try done.
    destruct (tracked f src) eqn:Ht; [|done]. cbn [andb]. destruct (_ || _) eqn:Em; [|done]. exfalso. apply (H src); [done..|by apply marks_moved].
Qed.

Lemma clash_errors_nil bs b i x : b ∈ bl -> inst_at f b i = Some x -> clash_errors f (outs b) bs x (drop (S i) (inst_list f b)) = [] <->
  forall s k ex, borrow_parts (as_ x) = Some (s, k) -> ex ∈ bs -> source_id ex = s -> borrow_id ex <> result x ->
    k = MIR_BK_MUTABLE \/ bk_kind ex = MIR_BK_MUTABLE -> ~ held_here f (borrow_id ex) (b, i) x.
Proof.
  intros Hb Hx. unfold clash_errors. destruct (borrow_parts (as_ x)) as [[s k]|]; [|by split]. rewrite omap_nil. split.
  - intros H s' k' ex [= <- <-] Hex Hs Hr Hk Hh. specialize (H ex Hex). apply (held_spec b i x) in Hh; [|done|done].
    apply N.eqb_neq in Hr. apply N.eqb_eq in Hs. rewrite Hh, Hr, Hs in H. cbn [negb andb] in H. unfold conflict_error in H.
    destruct k, (bk_kind ex); try done. by destruct Hk.
  - intros H ex Hex. destruct (borrow_id ex =? result x)%N eqn:Hr; [done|]. cbn [negb andb]. apply N.eqb_neq in Hr.
    destruct (held _ _ _ _ _) eqn:Hh; [|done]. destruct (source_id ex =? s)%N eqn:Hs; [|done]. apply N.eqb_eq in Hs. cbn [andb].
    apply held_spec in Hh; [|done|done]. unfold conflict_error.
    destruct k, (bk_kind ex) eqn:Ek; try done; exfalso; apply (H s _ ex eq_refl Hex Hs Hr); try done; (by left) || (by right).
Qed.

Lemma function_errors_nil bs : function_errors f bits outs bs = [] <-> forall b i x, b ∈ bl -> inst_at f b i = Some x ->
  op_errors f (mark b i) x = [] /\ move_errors f (mark b i) x = [] /\ clash_errors f (outs b) bs x (drop (S i) (inst_list f b)) = [].
Proof.
  assert (Hb : function_errors f bits outs bs = [] <-> forall b, b ∈ bl -> insts_errors f (entry_of f bits b) (outs b) bs (inst_list f b) = []).
  { unfold function_errors. clear Hbits Houts. induction (block_list f) as [|b l IH]; [split; [by intros _ b Hb%not_elem_of_nil|done]|].
    cbn [mbind list_bind]. rewrite app_nil, IH. split.
    - intros [H1 H2] c [->|Hc]%elem_of_cons; [done|by apply H2].
    - intros H. split; [apply H; by left|]. intros c Hc. apply H. by right. }
  rewrite Hb. split.
  - intros H b i x Hin Hx. apply (proj1 (insts_errors_nil _ _ _ _) (H b Hin)) in Hx. unfold inst_errors in Hx.
    by apply app_nil in Hx as [? [? ?]%app_nil].
  - intros H b Hin. apply insts_errors_nil. intros i x Hx. destruct (H b i x Hin Hx) as (H1 & H2 & H3). unfold inst_errors. by rewrite H1, H2, H3.
Qed.

Lemma errors_nil bs : bs = omap borrow_of (all_insts f) ->
  function_errors f bits outs bs = [] <-> ~ use_after_move f /\ ~ double_move f /\ ~ clash held_here f.
Proof.
  intros ->. rewrite function_errors_nil. split.
  - intros H. split_and!.
    + intros (b & i & x & v & Hb & Hx & Hm & Hv & Ht & Hmv). by apply (proj1 (op_errors_nil b i x Hb Hx) (proj1 (H b i x Hb Hx)) v).
    + intros (b & i & x & v & Hb & Hx & E & Ht & Hmv). by apply (proj1 (move_errors_nil b i x Hb Hx) (proj1 (proj2 (H b i x Hb Hx))) v).
    + intros (b & i & x & s & k & ex & Hb & Hx & Hp & Hex & Hs & Hr & Hk & Hh).
      by apply (proj1 (clash_errors_nil _ b i x Hb Hx) (proj2 (proj2 (H b i x Hb Hx))) s k ex).
  - intros (H1 & H2 & H3) b i x Hb Hx. split_and!.
    + apply op_errors_nil; [done..|]. intros v Hm Hv Ht Hmv. apply H1. by exists b, i, x, v.
    + apply move_errors_nil; [done..|]. intros v E Ht Hmv. apply H2. by exists b, i, x, v.
    + apply clash_errors_nil; [done..|]. intros s k ex Hp Hex Hs Hr Hk Hh. apply H3. by exists b, i, x, s, k, ex.
Qed.
End bits.
End paths.

Lemma take_nil_iff {A} n (l : list A) : (0 < n)%nat -> length (take n l) = 0%nat <-> l = [].
Proof. intros Hn. rewrite length_take. destruct l; simpl; [by rewrite Nat.min_0_r|]. split; [lia|done]. Qed.

(** C3: the borrow checker decides its rules.  On a well-formed function with
    at most 512 borrows, and while fewer than 64 errors have been recorded, the
    work lists end within their bound and the check returns the number of new
    errors; that number is zero if and only if on no path a value is used or
    moved again after its move, and no borrow clashes with another borrow of
    the same value that is still held.  Every borrow that is live on a path
    behind the instruction is held. *)
Theorem borrow_check_decides f bc (Hf : flow_wf f) (Hx : is_extern f = false)
  (Hb : (length (omap borrow_of (all_insts f)) <= MIR_MAX_BORROWS)%nat) (He : (length (errors bc) < MIR_MAX_ERRORS)%nat) :
  exists bc' n, mir_borrow_check_function bc f = Ok (bc', n) /\ 0 <= n /\ n = Z.of_nat (length (errors bc')) - Z.of_nat (length (errors bc)) /\
    (n = 0 <-> ~ use_after_move f /\ ~ double_move f /\ ~ clash held_here f) /\ (clash live_here f -> clash held_here f).
Proof.
  assert (Hlive : clash live_here f -> clash held_here f).
  { intros (b & i & x & s & k & ex & Hin & Hxx & Hp & Hex & Hs & Hr & Hk & Hl). exists b, i, x, s, k, ex. split_and!; try done. by apply live_held. }
  destruct (decide (block_list f = [])) as [Hnil|Hne].
  - exists bc, 0. unfold mir_borrow_check_function. rewrite Hx, Hnil. split_and!; [done|lia|lia| |done]. split; [|done]. intros _.
    assert (Hno : forall b, b ∉ block_list f) by (intros b; rewrite Hnil; apply not_elem_of_nil).
    split_and!; [intros (b & ? & ? & ? & Hin & _)|intros (b & ? & ? & ? & Hin & _)|intros (b & ? & ? & ? & ? & ? & Hin & _)]; by apply (Hno b).
  - destruct (check_function_exact f Hf bc Hx Hne) as (bits & outs & bc' & Hr & Herr & Hbits & Houts).
    exists bc', (Z.of_nat (length (errors bc')) - Z.of_nat (length (errors bc))). split; [done|].
    assert (Hlen : Z.of_nat (length (errors bc')) - Z.of_nat (length (errors bc)) =
      Z.of_nat (length (take (MIR_MAX_ERRORS - length (errors bc)) (function_errors f bits outs (tracked_borrows f))))).
    { rewrite Herr, length_app. lia. }
    split_and!; [lia|done| |done]. rewrite Hlen.
    assert (Ht : tracked_borrows f = omap borrow_of (all_insts f)) by by apply take_ge.
    rewrite <- (errors_nil f Hf bits outs Hbits Houts (tracked_borrows f) Ht), <- (take_nil_iff (MIR_MAX_ERRORS - length (errors bc))) by lia. lia.
Qed.

(** ** Witnesses *)

Definition flow_wfb (f : MirFunction) (e : nat) : bool :=
  cfg_wfb f e && (next_value_id f <? 2 ^ 31)%N && forallb (fun i => forallb (fun v => (v <? 2 ^ 31)%N) (operands (as_ i))) (all_insts f).

Lemma flow_wfb_sound f e : flow_wfb f e = true -> flow_wf f.
Proof.
  unfold flow_wfb. intros [[Hc%cfg_wfb_sound Hn%N.ltb_lt]%andb_true_iff Ho]%andb_true_iff. destruct Hc. split; try done.
  intros i v Hi Hv. apply (forallb_elem _ _ i) in Ho; [|done]. cbv beta in Ho. apply (forallb_elem _ _ v) in Ho; [|done]. by apply N.ltb_lt.
Qed.

Definition ex_function (next : N) (blks : list (list MirInst * list nat * list nat)) : MirFunction :=
  mkFunction "f" 1 [mkParam "p" 1 1] (Some 0%nat) (imap (fun i b => ex_block (Z.of_nat i) b.1.1 b.1.2 b.2) blks)
    (seq 0 (length blks)) (Z.of_nat (length blks)) next [] false false false.

(** The value 2 is moved on one arm of a branch and read behind the join. *)
Definition ex_moved : MirFunction := ex_function 5 [
  ([ex_inst 2 1 (ALLOCA 1 1); ex_inst 0 0 (CONDBR 1 (Some 1) (Some 2))], [], [1; 2]);
  ([ex_inst 3 1 (TRANSFER MIR_MOVE 2); ex_inst 0 0 (BR (Some 3))], [0], [3]);
  ([ex_inst 0 0 (BR (Some 3))], [0], [3]);
  ([ex_inst 4 1 (LOAD 2); ex_inst 0 0 (RET 4)], [1; 2], [])]%nat.

(** Two mutable borrows of 2, one used up before the other starts. *)
Definition ex_sequential : MirFunction := ex_function 5 [
  ([ex_inst 2 1 (ALLOCA 1 1); ex_inst 3 1 (TRANSFER MIR_BORROW_MUT 2); ex_inst 0 0 (STORE 3 1);
    ex_inst 4 1 (TRANSFER MIR_BORROW_MUT 2); ex_inst 0 0 (STORE 4 1); ex_inst 0 0 RET_VOID], [], [])]%nat.

Definition new_errors (f : MirFunction) : option Z :=
  match mir_borrow_check_function mir_borrow_init f with Ok (_, n) => Some n | _ => None end.

Lemma ex_moved_wf : flow_wf ex_moved.
Proof. apply (flow_wfb_sound _ 0). vm_compute. reflexivity. Qed.
Lemma ex_moved_errors : new_errors ex_moved = Some 1.
Proof. vm_compute. reflexivity. Qed.

Lemma borrow_check_decides_witness : ~ (~ use_after_move ex_moved /\ ~ double_move ex_moved /\ ~ clash held_here ex_moved).
Proof.
  destruct (borrow_check_decides ex_moved mir_borrow_init ex_moved_wf eq_refl ltac:(vm_compute; lia) ltac:(vm_compute; lia))
    as (bc' & n & Hr & _ & _ & Hn & _).
  pose proof ex_moved_errors as He. unfold new_errors in He. rewrite Hr in He. injection He as ->. intros H. apply Hn in H. discriminate H.
Defined.


(** The checker takes a borrow that a later instruction of the block creates
    for one that is held: two mutable borrows one after the other in a block
    are refused, although neither is live when the other is made. *)
Lemma borrow_sequential_refused : new_errors ex_sequential = Some 1 /\ ~ clash live_here ex_sequential.
Proof.
  split; [vm_compute; reflexivity|]. intros (b & i & x & s & k & ex & Hb & Hx & Hp & Hex & Hs & Hr & Hk & Hl).
  apply list_elem_of_singleton in Hb as ->. apply list_elem_of_In in Hex. simpl in Hex.
  destruct i as [|[|[|[|[|[|i]]]]]]; simpl in Hx; try discriminate Hx; injection Hx as <-; simpl in Hp; try discriminate Hp;
    destruct Hex as [<-|[<-|[]]]; try (by simpl in Hr); (destruct Hl as [Hl|[Ht Hl]]; [by apply list_elem_of_singleton in Hl|]);
    pose proof (live_at_by ex_sequential _ _ Ht Hl) as Hby; destruct Hby as [Hby|[_ (c & Hc & _)]];
    first [vm_compute in Hby; discriminate Hby|vm_compute in Hc; by apply not_elem_of_nil in Hc].
Qed.
