(* ===== verification/Mem2Reg.v ===== *)
(** * Promotion of stack slots to values

    The second half of [src/compiler/ir/mir_mem2reg.c]: which [alloca]s can be
    promoted, phis at the iterated dominance frontier, the renaming walk over
    the dominator tree and the deletion of the [alloca]s.  A pointer to a phi
    is its block and its result, which is a new value; the arrays indexed by
    block ids are lists, an index past their end is [Undef].
    [mir_validate_function] only prints. *)
From S2P Require Import Prelude MirCore MirGraph MirOpt Dominators MirBuilder Worklist.

Definition MAX_ALLOCAS : nat := 1024.

Record MirMem2RegStats := mkStats {
  allocas_promoted : Z; loads_eliminated : Z; stores_eliminated : Z; phis_inserted : Z
}.
Definition zero_stats : MirMem2RegStats := mkStats 0 0 0 0.
Definition count_alloca s := mkStats (allocas_promoted s + 1) (loads_eliminated s) (stores_eliminated s) (phis_inserted s).
Definition count_load s := mkStats (allocas_promoted s) (loads_eliminated s + 1) (stores_eliminated s) (phis_inserted s).
Definition count_store s := mkStats (allocas_promoted s) (loads_eliminated s) (stores_eliminated s + 1) (phis_inserted s).
Definition count_phi s := mkStats (allocas_promoted s) (loads_eliminated s) (stores_eliminated s) (phis_inserted s + 1).

(** ** Promotability *)

Record PromotableAlloca := mkPromotable {
  alloca_val : MirValueId;
  alloc_type : tyref;
  def_blocks : list nat
}.

Definition value_in (ptr : MirValueId) (l : list MirValueId) : bool := existsb (fun v => (v =? ptr)%N) l.

(** The [switch] of [is_promotable]: [None] returns false, [Some true] records
    the block as one that stores to the slot. *)
Definition check_use (ptr : MirValueId) (k : MirInstKind) : option bool :=
  let reject (uses : bool) := if uses then None else Some false in
  match k with
  | LOAD _ => Some false
  | STORE p value => if (p =? ptr)%N then Some true else reject (value =? ptr)%N
  | CALL _ args _ => reject (value_in ptr args)
  | CALL_INDIRECT _ args callee => reject (value_in ptr args || (callee =? ptr)%N)
  | CALL_VIRTUAL self_obj _ args => reject (value_in ptr args || (self_obj =? ptr)%N)
  | GEP _ base _ _ => reject (base =? ptr)%N
  | STRUCT_INIT fields => reject (value_in ptr fields)
  | INSERT aggregate _ insert_val => reject ((insert_val =? ptr)%N || (aggregate =? ptr)%N)
  | EXTRACT aggregate _ => reject (aggregate =? ptr)%N
  | VEC _ a b c _ _ => reject ((a =? ptr)%N || (b =? ptr)%N || (c =? ptr)%N)
  | SUSPEND _ _ => None
  | BINARY _ lhs rhs => reject ((lhs =? ptr)%N || (rhs =? ptr)%N)
  | UNARY _ operand _ => reject (operand =? ptr)%N
  | CONDBR cond _ _ => reject (cond =? ptr)%N
  | RET value => reject (value =? ptr)%N
  | TRANSFER _ source => reject (source =? ptr)%N
  | REFOP _ p => reject (p =? ptr)%N
  | NOP | UNDEF | DEBUGLOC _ _ _ | BR _ | RET_VOID | UNREACHABLE
  | CONST_INT _ | CONST_FLOAT _ | CONST_BOOL _ | CONST_STRING _ | CONST_NULL | CONST_FUNC _
  | ALLOCA _ _ | PHI _ | GLOBAL_ADDR _ | OBJ_ALLOC _ _ => Some false
  | SWITCH _ _ _ => None
  end.

(** The instructions of the block [bb] from the [i]th on, but the [skip]th. *)
Fixpoint scan_insts (ptr : MirValueId) (skip : option nat) (bb i : nat) (l : list MirInst) (defs : list nat)
  : option (list nat) :=
  match l with
  | [] => Some defs
  | inst :: l =>
      if bool_decide (skip = Some i) then scan_insts ptr skip bb (S i) l defs else
      d ← check_use ptr (as_ inst);
      scan_insts ptr skip bb (S i) l
        (if (d : bool) && negb (bool_decide (bb ∈ defs)) then defs ++ [bb] else defs)
  end.

(** The blocks of [bl]; the [alloca] is the [i]th instruction of [b]. *)
Fixpoint scan_blocks (f : MirFunction) (ptr : MirValueId) (b i : nat) (bl : list nat) (defs : list nat)
  : option (list nat) :=
  match bl with
  | [] => Some defs
  | bb :: bl =>
      defs ← scan_insts ptr (if decide (bb = b) then Some i else None) bb 0 (inst_list f bb) defs;
      scan_blocks f ptr b i bl defs
  end.

Definition is_aggregate (k : MirTypeKind) : bool :=
  match k with MIR_TYPE_STRUCT | MIR_TYPE_ARRAY | MIR_TYPE_AGGREGATE | MIR_TYPE_SLICE => true | _ => false end.

Definition is_promotable (tc : list MirType) (f : MirFunction) (b i : nat) (inst : MirInst)
  : outcome (option PromotableAlloca) :=
  match as_ inst with
  | ALLOCA ty count =>
      if negb (count =? 1) then Ok None
      else if (ty =? TY_NULL)%N then Ok None
      else
        let! t := of_option (ty_deref tc ty) in
        if is_aggregate (ty_kind t) then Ok None
        else Ok (mkPromotable (result inst) ty <$> scan_blocks f (result inst) b i (block_list f) [])
  | _ => Undef
  end.

(** Step 1 of [mir_mem2reg]: the instructions of one block. *)
Fixpoint find_in_block (tc : list MirType) (f : MirFunction) (b i : nat) (l : list MirInst)
  (found : list PromotableAlloca) : outcome (list PromotableAlloca) :=
  match l with
  | [] => Ok found
  | inst :: l =>
      match as_ inst with
      | ALLOCA _ _ =>
          if (MAX_ALLOCAS <=? length found)%nat then Ok found else
          let! r := is_promotable tc f b i inst in
          find_in_block tc f b (S i) l (match r with Some info => found ++ [info] | None => found end)
      | _ => find_in_block tc f b (S i) l found
      end
  end.

Definition find_promotable (tc : list MirType) (f : MirFunction) : outcome (list PromotableAlloca) :=
  ofold (fun b found => find_in_block tc f b 0 (inst_list f b) found) (block_list f) [].

(** ** Phi insertion *)

(** Behind the phis the list starts with. *)
Fixpoint insert_after_phis (phi : MirInst) (l : list MirInst) : list MirInst :=
  match l with
  | inst :: l' => if is_phi (as_ inst) then inst :: insert_after_phis phi l' else phi :: l
  | [] => [phi]
  end.

Definition insert_phi (f : MirFunction) (bb : nat) (ty : tyref) : MirFunction * MirValueId :=
  let '(f, v) := mir_function_new_value f ty in
  (upd_block f bb (fun blk =>
     with_insts blk (insert_after_phis (mkInst (PHI []) v ty 0 0) (insts blk)) (inst_count blk + 1)), v).

(** The state of the work-list loop for one slot. *)
Record IdfState := mkIdf {
  idf_func : MirFunction;
  has_phi : list bool;
  in_worklist : list bool;
  worklist : list nat;
  phi_for_block : list (option MirValueId);
  idf_stats : MirMem2RegStats
}.

(** [if (db && !in_worklist[db->id])]; the work list has room for every block. *)
Definition enqueue (bb : nat) (st : IdfState) : outcome IdfState :=
  let f := idf_func st in
  let! b := of_option (block_at f bb) in
  let! seen := get_at (id b) (in_worklist st) in
  if (seen : bool) then Ok st
  else if (length (worklist st) <? length (in_worklist st))%nat then
    let! w := set_at (id b) true (in_worklist st) in
    Ok (mkIdf f (has_phi st) w (bb :: worklist st) (phi_for_block st) (idf_stats st))
  else Undef.

(** A block of the frontier gets a phi once. *)
Definition place_phi (ty : tyref) (dfb : nat) (st : IdfState) : outcome IdfState :=
  let! b := of_option (block_at (idf_func st) dfb) in
  let! has := get_at (id b) (has_phi st) in
  if (has : bool) then Ok st else
  let! h := set_at (id b) true (has_phi st) in
  let '(f, v) := insert_phi (idf_func st) dfb ty in
  let! p := set_at (id b) (Some v) (phi_for_block st) in
  enqueue dfb (mkIdf f h (in_worklist st) (worklist st) p (count_phi (idf_stats st))).

(** [while (wl_count > 0)]: the last block of the work list is taken first,
    and a block is listed once. *)
Fixpoint idf_loop (fuel : nat) (ty : tyref) (st : IdfState) : outcome IdfState :=
  match worklist st with
  | [] => Ok st
  | bb :: rest =>
      match fuel with
      | O => OutOfFuel
      | S fuel =>
          let! b := of_option (block_at (idf_func st) bb) in
          let! st := ofold (place_phi ty) (dom_frontier b)
            (mkIdf (idf_func st) (has_phi st) (in_worklist st) rest (phi_for_block st) (idf_stats st)) in
          idf_loop fuel ty st
      end
  end.

(** [AllocaRenameCtx]: the stack has its top first. *)
Record AllocaRenameCtx := mkCtx {
  rc_alloca : MirValueId;
  rc_stack : list MirValueId;
  rc_phis : list (option MirValueId)
}.

Definition vs_push (v : MirValueId) (c : AllocaRenameCtx) : AllocaRenameCtx :=
  mkCtx (rc_alloca c) (v :: rc_stack c) (rc_phis c).
Definition vs_top (c : AllocaRenameCtx) : MirValueId := default MIR_VALUE_NONE (head (rc_stack c)).
(** [stack.top = saved_tops[a]] *)
Definition vs_restore (top : nat) (c : AllocaRenameCtx) : AllocaRenameCtx :=
  mkCtx (rc_alloca c) (drop (length (rc_stack c) - top) (rc_stack c)) (rc_phis c).

(** Step 3 for one slot. *)
Definition place_phis (p : PromotableAlloca) (r : MirFunction * list AllocaRenameCtx * MirMem2RegStats)
  : outcome (MirFunction * list AllocaRenameCtx * MirMem2RegStats) :=
  let '(f, ctxs, stats) := r in
  let n := Z.to_nat (block_count f) in
  let! st := ofold enqueue (def_blocks p)
    (mkIdf f (replicate n false) (replicate n false) [] (replicate n None) stats) in
  let! st := idf_loop (S n) (alloc_type p) st in
  Ok (idf_func st, ctxs ++ [mkCtx (alloca_val p) [] (phi_for_block st)], idf_stats st).

(** ** Renaming *)

(** The operands the renaming replaces, each by its image. *)
Definition map_operands (r : MirValueId -> MirValueId) (i : MirInst) : MirInst :=
  set_as i
    match as_ i with
    | BINARY op lhs rhs => BINARY op (r lhs) (r rhs)
    | UNARY op operand t => UNARY op (r operand) t
    | LOAD ptr => LOAD (r ptr)
    | STORE ptr value => STORE (r ptr) (r value)
    | CONDBR cond tb fb => CONDBR (r cond) tb fb
    | RET value => RET (r value)
    | CALL n args callee => CALL n (map r args) callee
    | CALL_INDIRECT n args callee => CALL_INDIRECT n (map r args) (r callee)
    | CALL_VIRTUAL self_obj vi args => CALL_VIRTUAL (r self_obj) vi (map r args)
    | TRANSFER op source => TRANSFER op (r source)
    | REFOP op ptr => REFOP op (r ptr)
    | PHI edges => PHI (map (fun e => (e.1, r e.2)) edges)
    | SWITCH discriminant cases default_bb => SWITCH (r discriminant) cases default_bb
    | STRUCT_INIT fields => STRUCT_INIT (map r fields)
    | EXTRACT aggregate fi => EXTRACT (r aggregate) fi
    | INSERT aggregate fi insert_val => INSERT (r aggregate) fi (r insert_val)
    | GEP MIR_GET_FIELD_PTR base fi index => GEP MIR_GET_FIELD_PTR (r base) fi index
    | GEP MIR_GET_ELEM_PTR base fi index => GEP MIR_GET_ELEM_PTR (r base) fi (r index)
    | VEC op a b c w t => VEC op (r a) (r b) (r c) w t
    | k => k
    end.

Definition replace_use (old new : MirValueId) : MirInst -> MirInst :=
  map_operands (fun v => if (v =? old)%N then new else v).

(** Every instruction of the function but the [i]th of [b]. *)
Definition replace_uses_but (b i : nat) (old new : MirValueId) (f : MirFunction) : MirFunction :=
  fold_left (fun f c => upd_block f c (map_insts
      (imap (fun j x => if bool_decide (c = b /\ j = i) then x else replace_use old new x))))
    (block_list f) f.

Abbreviation renaming := (MirFunction * list AllocaRenameCtx * MirMem2RegStats)%type (only parsing).

Definition ctx_of (ptr : MirValueId) (ctxs : list AllocaRenameCtx) : option nat :=
  find_idx (fun c => (rc_alloca c =? ptr)%N) ctxs.

(** The walk over the instructions: the [n] that are left start at the [i]th. *)
Fixpoint rename_insts (n b i : nat) (r : renaming) : outcome renaming :=
  match n with
  | O => Ok r
  | S n =>
      let '(f, ctxs, stats) := r in
      let! inst := of_option (inst_at f b i) in
      match as_ inst with
      | LOAD ptr =>
          match ctx_of ptr ctxs with
          | Some a =>
              let! c := of_option (ctxs !! a) in
              let f := replace_uses_but b i (result inst) (vs_top c) f in
              rename_insts n b i (remove_inst f b i, ctxs, count_load stats)
          | None => rename_insts n b (S i) r
          end
      | STORE ptr value =>
          match ctx_of ptr ctxs with
          | Some a => rename_insts n b i (remove_inst f b i, alter (vs_push value) a ctxs, count_store stats)
          | None => rename_insts n b (S i) r
          end
      | _ => rename_insts n b (S i) r
      end
  end.

(** The phi of a slot in the block with this id. *)
Definition phi_at (id : Z) (c : AllocaRenameCtx) : option MirValueId := mjoin (rc_phis c !! Z.to_nat id).

Definition push_phi (id : Z) (c : AllocaRenameCtx) : AllocaRenameCtx :=
  match phi_at id c with Some v => vs_push v c | None => c end.

(** [mir_phi_add_edge] on the phi of [succ] with the result [v]. *)
Definition add_phi_edge (succ : nat) (v : MirValueId) (bb : nat) (val : MirValueId) (f : MirFunction) : outcome MirFunction :=
  let! j := of_option (find_idx (fun i => is_phi (as_ i) && (result i =? v)%N) (inst_list f succ)) in
  let! phi := of_option (inst_at f succ j) in
  let! phi := mir_phi_add_edge phi (Some bb) val in
  Ok (upd_inst f succ j (fun _ => phi)).

Definition fill_edge (bb succ : nat) (id : Z) (c : AllocaRenameCtx) (f : MirFunction) : outcome MirFunction :=
  match phi_at id c with Some v => add_phi_edge succ v bb (vs_top c) f | None => Ok f end.

Definition fill_succ (bb : nat) (ctxs : list AllocaRenameCtx) (succ : nat) (f : MirFunction) : outcome MirFunction :=
  let! s := of_option (block_at f succ) in
  ofold (fill_edge bb succ (id s)) ctxs f.

(** [fuel] bounds the depth of the dominator tree. *)
Fixpoint rename_block (fuel : nat) (bb : nat) (r : renaming) : outcome renaming :=
  match fuel with
  | O => OutOfFuel
  | S fuel =>
      let '(f, ctxs, stats) := r in
      let saved_tops := map (fun c => length (rc_stack c)) ctxs in
      let! b := of_option (block_at f bb) in
      let! r := rename_insts (length (insts b)) bb 0 (f, map (push_phi (id b)) ctxs, stats) in
      let '(f, ctxs, stats) := r in
      let! f := ofold (fill_succ bb ctxs) (successors b) f in
      let! r := ofold (rename_block fuel) (dom_children b) (f, ctxs, stats) in
      let '(f, ctxs, stats) := r in
      Ok (f, zip_with vs_restore saved_tops ctxs, stats)
  end.

(** ** The pass *)

(** The undefined value a slot starts with, in front of the entry block. *)
Definition add_undef (e : nat) (p : PromotableAlloca) (f : MirFunction) : MirFunction * MirValueId :=
  let '(f, v) := mir_function_new_value f (alloc_type p) in
  (upd_block f e (fun blk =>
     with_insts blk (mkInst UNDEF v (alloc_type p) 0 0 :: insts blk) (inst_count blk + 1)), v).

Fixpoint add_undefs (e : nat) (ps : list PromotableAlloca) (ctxs : list AllocaRenameCtx) (f : MirFunction)
  : MirFunction * list AllocaRenameCtx :=
  match ps, ctxs with
  | p :: ps, c :: ctxs =>
      let '(f, v) := add_undef e p f in
      let '(f, ctxs) := add_undefs e ps ctxs f in
      (f, vs_push v c :: ctxs)
  | _, _ => (f, ctxs)
  end.

(** The first [alloca] of this value in the blocks of [bl], if any. *)
Fixpoint delete_alloca (v : MirValueId) (bl : list nat) (f : MirFunction) (stats : MirMem2RegStats)
  : MirFunction * MirMem2RegStats :=
  match bl with
  | [] => (f, stats)
  | b :: bl =>
      match find_idx (fun i => match as_ i with ALLOCA _ _ => (result i =? v)%N | _ => false end) (inst_list f b) with
      | Some i => (remove_inst f b i, count_alloca stats)
      | None => delete_alloca v bl f stats
      end
  end.

Definition delete_allocas (ps : list PromotableAlloca) (r : MirFunction * MirMem2RegStats) : MirFunction * MirMem2RegStats :=
  fold_left (fun r p => delete_alloca (alloca_val p) (block_list r.1) r.1 r.2) ps r.

(** The function, the number of slots promoted and the statistics. *)
Definition mir_mem2reg (tc : list MirType) (f : MirFunction) (stats : MirMem2RegStats)
  : outcome (MirFunction * Z * MirMem2RegStats) :=
  match entry_block f with
  | None => Ok (f, 0, stats)
  | Some e =>
      let! ps := find_promotable tc f in
      match ps with
      | [] => Ok (f, 0, stats)
      | _ =>
          let! f := mir_compute_dominators f in
          let! f := mir_compute_dom_frontiers f in
          let! r := ofold place_phis ps (f, [], stats) in
          let '(f, ctxs, stats) := r in
          let '(f, ctxs) := add_undefs e ps ctxs f in
          let! r := rename_block (S (length (blocks f))) e (f, ctxs, stats) in
          let '(f, _, stats) := r in
          let '(f, stats) := delete_allocas ps (f, stats) in
          Ok (f, Z.of_nat (length ps), stats)
      end
  end.

Fixpoint mem2reg_functions (tc : list MirType) (l : list MirFunction) (stats : MirMem2RegStats)
  : outcome (list MirFunction * MirMem2RegStats) :=
  match l with
  | [] => Ok ([], stats)
  | f :: l =>
      let! r := (if is_extern f then Ok (f, stats)
                 else let! r := mir_mem2reg tc f stats in Ok (r.1.1, r.2)) in
      let! rest := mem2reg_functions tc l r.2 in
      Ok (r.1 :: rest.1, rest.2)
  end.

Definition mir_mem2reg_module (m : MirModule) (stats : MirMem2RegStats) : outcome (MirModule * MirMem2RegStats) :=
  let! r := mem2reg_functions (type_cache m) (func_list m) stats in
  Ok (with_funcs m r.1 (func_count m), r.2).
