(* ===== verification/SlotForm.v ===== *)
(** * Functions in slot form

    What the lowering makes of local variables: every [alloca] is one scalar
    slot that only loads and stores address, every use of a value is dominated
    by its definition, and every load is behind a store.  The reaching value of
    a slot, by the instructions of a block and down the dominator tree, is the
    specification of the renaming of Mem2Reg.v. *)
From S2P Require Import Prelude MirCore MirGraph MirOpt Dominators DomFacts MirBuilder MirBuilderFacts Mem2Reg.

Definition is_alloca (k : MirInstKind) : bool := match k with ALLOCA _ _ => true | _ => false end.
Definition slots (f : MirFunction) : list MirValueId := map result (filter (fun i => is_alloca (as_ i) = true) (all_insts f)).

(** Instructions whose effect on the interpreter is on registers and output. *)
Definition slot_kind (tc : list MirType) (k : MirInstKind) : bool :=
  match k with
  | ALLOCA ty count => (count =? 1) && negb (ty =? TY_NULL)%N &&
      match ty_deref tc ty with Some t => negb (is_aggregate (ty_kind t)) | None => false end
  | CONST_FLOAT bits => in_u64 bits
  | CALL n _ _ | CALL_INDIRECT n _ _ => negb (String.eqb n "nuwan_print_str")
  | PHI _ | SWITCH _ _ _ | SUSPEND _ _ | TRANSFER MIR_MOVE _ | EXTRACT _ _ | OBJ_ALLOC _ _ => false
  | _ => true
  end.

(** A slot is used as the address of loads and stores, and nothing else. *)
Definition slot_operands (S : list MirValueId) (k : MirInstKind) : bool :=
  match k with
  | LOAD p => bool_decide (p ∈ S)
  | STORE p v => bool_decide (p ∈ S) && bool_decide (v ∉ S)
  | k => forallb (fun v => bool_decide (v ∉ S)) (inst_uses k)
  end.

(** Values that a load or an [alloca] defines are not [MIR_VALUE_NONE]. *)
Definition has_value (i : MirInst) : bool :=
  match as_ i with LOAD _ | ALLOCA _ _ => negb (result i =? MIR_VALUE_NONE)%N | _ => true end.

Definition slot_inst (tc : list MirType) (S : list MirValueId) (i : MirInst) : bool :=
  slot_kind tc (as_ i) && slot_operands S (as_ i) && has_value i.

(** ** Positions *)

(** The [i]th instruction of [b] runs before the [j]th of [c] on every path. *)
Definition before (f : MirFunction) (e : nat) (b i c j : nat) : Prop :=
  b = c /\ (i < j)%nat \/ b <> c /\ dominates f e b c.

Definition defines (f : MirFunction) (v : MirValueId) (b i : nat) : Prop :=
  exists inst, inst_at f b i = Some inst /\ result inst = v.

(** [v] is available in front of the [j]th instruction of [c]. *)
Definition available (f : MirFunction) (e : nat) (v : MirValueId) (c j : nat) : Prop :=
  v = MIR_VALUE_NONE \/ v ∈ map p_value_id (params f) \/ exists b i, defines f v b i /\ before f e b i c j.

(** A path from an [alloca] of [a] outside the entry to the place has no store. *)
Inductive uninit (f : MirFunction) (e : nat) (a : MirValueId) : nat -> nat -> Prop :=
| uninit_alloca b i inst : inst_at f b i = Some inst -> is_alloca (as_ inst) = true -> result inst = a -> b <> e ->
    uninit f e a b (S i)
| uninit_next b i inst : uninit f e a b i -> inst_at f b i = Some inst ->
    (forall v, as_ inst <> STORE a v) -> uninit f e a b (S i)
| uninit_edge b c : uninit f e a b (length (inst_list f b)) -> edge f b c -> uninit f e a c 0.

(** The targets of the terminator are successors. *)
Definition block_shape (blk : MirBlock) : Prop :=
  exists body term, insts blk = body ++ [term] /\ Forall (fun i => is_terminator (as_ i) = false) body /\
    is_terminator (as_ term) = true /\ targets (as_ term) ⊆ successors blk.

Definition function_values (f : MirFunction) : list MirValueId :=
  map p_value_id (params f) ++ filter (fun v => v <> MIR_VALUE_NONE) (map result (all_insts f)).

Record slot_form (tc : list MirType) (f : MirFunction) (e : nat) : Prop := {
  sf_cfg : cfg_wf f e;
  sf_count : block_count f = Z.of_nat (length (block_list f));
  sf_all : forall b, is_Some (block_at f b) -> b ∈ block_list f;
  sf_reach : forall b, b ∈ block_list f -> reach f e b;
  sf_entry : forall p, ~ edge f p e;
  sf_shape : forall b blk, block_at f b = Some blk -> block_shape blk;
  sf_insts : forall i, i ∈ all_insts f -> slot_inst tc (slots f) i = true;
  sf_few : (length (slots f) <= MAX_ALLOCAS)%nat;
  sf_unique : NoDup (function_values f);
  sf_bound : Forall (fun v => (0 < v < next_value_id f)%N) (function_values f);
  sf_strict : forall c j inst v, inst_at f c j = Some inst -> v ∈ inst_uses (as_ inst) -> available f e v c j;
  sf_init : forall c j inst p, inst_at f c j = Some inst -> as_ inst = LOAD p -> ~ uninit f e p c j
}.

(** ** Reaching values *)

(** The value of every slot, behind an instruction; [s] renames operands. *)
Definition after (s : MirValueId -> MirValueId) (R : MirValueId -> MirValueId) (i : MirInst) : MirValueId -> MirValueId :=
  match as_ i with
  | STORE p v => fun a => if (a =? p)%N then s v else R a
  | _ => R
  end.
Definition after_all (s R : MirValueId -> MirValueId) (l : list MirInst) : MirValueId -> MirValueId := fold_left (after s) l R.

(** What is left of an instruction. *)
Definition kept (s : MirValueId -> MirValueId) (i : MirInst) : option MirInst :=
  match as_ i with
  | LOAD _ | STORE _ _ => None
  | _ => Some (map_operands s i)
  end.
Definition kept_code (s : MirValueId -> MirValueId) (l : list MirInst) : list MirInst :=
  omap (fun i => if is_alloca (as_ i) then None else kept s i) l.

(** ** Basic facts *)

Lemma all_insts_at f i : i ∈ all_insts f <-> exists b k, b ∈ block_list f /\ inst_at f b k = Some i.
Proof.
  unfold all_insts. rewrite list_elem_of_bind. split.
  - intros (b & [k Hk]%list_elem_of_lookup & Hb). exists b, k. by split.
  - intros (b & k & Hb & Hk). exists b. split; [by eapply list_elem_of_lookup_2|done].
Qed.

Lemma after_all_app s R l k : after_all s R (l ++ k) = after_all s (after_all s R l) k.
Proof. apply fold_left_app. Qed.

Lemma after_all_snoc s R l i : after_all s R (l ++ [i]) = after s (after_all s R l) i.
Proof. by rewrite after_all_app. Qed.

(** The reaching values only depend on the images of the stored values. *)
Lemma after_all_ext s s' R l :
  (forall i p v, i ∈ l -> as_ i = STORE p v -> s v = s' v) -> after_all s R l = after_all s' R l.
Proof.
  unfold after_all. revert R. induction l as [|i l IH]; intros R H; simpl; [done|].
  assert (Hi : after s R i = after s' R i).
  { unfold after. destruct (as_ i) eqn:E; try done. by rewrite (H i ptr value ltac:(left) E). }
  rewrite Hi. apply IH. intros j p v Hj. apply H. by right.
Qed.

Lemma map_operands_ext r s i : (forall v, v ∈ inst_uses (as_ i) -> r v = s v) -> map_operands r i = map_operands s i.
Proof.
  intros H. unfold map_operands. f_equal. destruct (as_ i) eqn:E; simpl in H; try done;
    repeat match goal with
    | |- context [match ?op with MIR_GET_FIELD_PTR => _ | MIR_GET_ELEM_PTR => _ end] => destruct op
    | H : forall v, v ∈ _ -> _ |- context [r ?x] => rewrite (H x) by set_solver
    end; try done.
  - f_equal. apply map_ext_in. intros v Hv%list_elem_of_In. apply H. by right.
  - f_equal. apply map_ext_in. intros v Hv%list_elem_of_In. apply H. by right.
  - f_equal. apply map_ext_in. intros v Hv%list_elem_of_In. apply H. by right.
  - f_equal. apply map_ext_in. intros v Hv%list_elem_of_In. f_equal. apply H. by apply list_elem_of_fmap_2.
  - f_equal. apply map_ext_in. intros v Hv%list_elem_of_In. by apply H.
Qed.

Lemma map_operands_comp r s i : map_operands r (map_operands s i) = map_operands (fun v => r (s v)) i.
Proof.
  unfold map_operands, set_as. destruct i as [k res t l c]. simpl. f_equal.
  destruct k as [| | | | | | | | | | | |[]| | | | | | | | | | | | | | | | | | | | |]; try done; by rewrite map_map.
Qed.

Lemma map_operands_id i : map_operands (fun v => v) i = i.
Proof.
  unfold map_operands, set_as. destruct i as [k res t l c]. simpl. f_equal.
  destruct k as [| | | | | | | | | | | |[]| | | | | | | | | | | | | | | | | | | | |]; try done; rewrite ?map_id; try done.
  f_equal. rewrite (map_ext _ (fun e => e)); [apply map_id|]. by intros [].
Qed.

(** ** One definition per value *)

Lemma filter_nodup_pos {A} (P : A -> Prop) `{!forall x, Decision (P x)} (l : list A) i j x :
  NoDup (filter P l) -> P x -> l !! i = Some x -> l !! j = Some x -> i = j.
Proof.
  intros Hnd Hx. revert i j. induction l as [|y l IH]; intros i j Hi Hj; [done|].
  rewrite filter_cons in Hnd. destruct i as [|i], j as [|j]; simpl in Hi, Hj; [done| | |].
  - injection Hi as ->. rewrite decide_True in Hnd by done. apply list.NoDup_cons in Hnd as [Hn _]. exfalso. apply Hn.
    apply list_elem_of_filter. split; [done|]. by eapply list_elem_of_lookup_2.
  - injection Hj as ->. rewrite decide_True in Hnd by done. apply list.NoDup_cons in Hnd as [Hn _]. exfalso. apply Hn.
    apply list_elem_of_filter. split; [done|]. by eapply list_elem_of_lookup_2.
  - f_equal. apply IH; [|done..]. destruct (decide (P y)); [by apply list.NoDup_cons in Hnd as [_ ?]|done].
Qed.

Lemma bind_nodup_pos {A B} (P : B -> Prop) `{!forall x, Decision (P x)} (F : A -> list B) (l : list A) b c i j x :
  NoDup (filter P (l ≫= F)) -> P x -> b ∈ l -> c ∈ l -> NoDup l -> F b !! i = Some x -> F c !! j = Some x -> b = c /\ i = j.
Proof.
  intros Hnd Hx Hb Hc Hl Hi Hj. induction l as [|y l IH]; [by apply not_elem_of_nil in Hb|].
  change ((y :: l) ≫= F) with (F y ++ (l ≫= F)) in Hnd. rewrite list.filter_app in Hnd.
  apply list.NoDup_app in Hnd as (Hn1 & Hdis & Hn2). apply list.NoDup_cons in Hl as [_ Hl].
  assert (Hin : forall d k, d ∈ l -> F d !! k = Some x -> x ∈ filter P (l ≫= F)).
  { intros d k Hd Hk. apply list_elem_of_filter. split; [done|]. apply list_elem_of_bind. exists d.
    split; [by eapply list_elem_of_lookup_2|done]. }
  assert (Hy : forall k, F y !! k = Some x -> x ∈ filter P (F y)).
  { intros k Hk. apply list_elem_of_filter. split; [done|]. by eapply list_elem_of_lookup_2. }
  apply elem_of_cons in Hb as [->|Hb], Hc as [->|Hc].
  - split; [done|]. by eapply (filter_nodup_pos P (F y)).
  - exfalso. eapply Hdis; [by eapply Hy|by eapply Hin].
  - exfalso. eapply Hdis; [by eapply Hy|by eapply Hin].
  - by apply IH.
Qed.

Lemma results_bind f : map result (all_insts f) = block_list f ≫= (fun b => map result (inst_list f b)).
Proof.
  unfold all_insts. generalize (block_list f). intros l. induction l as [|b l IH]; simpl; [done|].
  rewrite map_app. by f_equal.
Qed.

Section facts.
Context (tc : list MirType) (f : MirFunction) (e : nat) (Hf : slot_form tc f e).

Lemma inst_at_block b i inst : inst_at f b i = Some inst -> b ∈ block_list f.
Proof.
  unfold inst_at, inst_list. intros H. apply (sf_all _ _ _ Hf). destruct (block_at f b); [by eexists|done].
Qed.

Lemma inst_at_slot b i inst : inst_at f b i = Some inst -> slot_inst tc (slots f) inst = true.
Proof.
  intros H. apply (sf_insts _ _ _ Hf), all_insts_at. exists b, i. split; [by eapply inst_at_block|done].
Qed.

Lemma def_unique b i c j x y : inst_at f b i = Some x -> inst_at f c j = Some y -> result x = result y ->
  result x <> MIR_VALUE_NONE -> b = c /\ i = j.
Proof.
  intros Hx Hy Heq Hn. pose proof (sf_unique _ _ _ Hf) as Hu. apply list.NoDup_app in Hu as (_ & _ & Hu).
  rewrite results_bind in Hu.
  apply (bind_nodup_pos (fun v => v <> MIR_VALUE_NONE) (fun b => map result (inst_list f b)) (block_list f) b c i j (result x));
    [done|done|by eapply inst_at_block|by eapply inst_at_block|apply (ids_nodup f), (sf_cfg _ _ _ Hf)| |].
  - rewrite list_lookup_fmap. unfold inst_at in Hx. by rewrite Hx.
  - rewrite list_lookup_fmap. unfold inst_at in Hy. by rewrite Hy, Heq.
Qed.

Lemma result_value b i x : inst_at f b i = Some x -> result x <> MIR_VALUE_NONE -> result x ∈ function_values f.
Proof.
  intros Hx Hn. apply elem_of_app. right. apply list_elem_of_filter. split; [done|]. apply list_elem_of_fmap_2.
  apply all_insts_at. exists b, i. split; [by eapply inst_at_block|done].
Qed.

Lemma value_bound v : v ∈ function_values f -> (0 < v < next_value_id f)%N.
Proof. intros Hv. pose proof (sf_bound _ _ _ Hf) as Hb. rewrite list.Forall_forall in Hb. by apply Hb. Qed.

Lemma param_value v : v ∈ map p_value_id (params f) -> v ∈ function_values f.
Proof. intros Hv. apply elem_of_app. by left. Qed.

Lemma param_no_result v b i x : v ∈ map p_value_id (params f) -> inst_at f b i = Some x -> result x <> v.
Proof.
  intros Hv Hx <-. pose proof (value_bound _ (param_value _ Hv)) as [Hpos _].
  pose proof (sf_unique _ _ _ Hf) as Hu. apply list.NoDup_app in Hu as (_ & Hd & _). apply (Hd _ Hv).
  apply list_elem_of_filter. split; [intros E; rewrite E in Hpos; done|]. apply list_elem_of_fmap_2.
  apply all_insts_at. exists b, i. split; [by eapply inst_at_block|done].
Qed.

(** A value of a load or an [alloca] exists. *)
Lemma load_value b i x p : inst_at f b i = Some x -> as_ x = LOAD p -> result x <> MIR_VALUE_NONE /\ p ∈ slots f.
Proof.
  intros Hx%inst_at_slot E. unfold slot_inst, slot_operands, has_value in Hx. rewrite E in Hx.
  apply andb_true_iff in Hx as [[_ Hp%bool_decide_eq_true]%andb_true_iff Hv%negb_true_iff]. split; [by apply N.eqb_neq|done].
Qed.

Lemma store_value b i x p v : inst_at f b i = Some x -> as_ x = STORE p v -> p ∈ slots f /\ v ∉ slots f.
Proof.
  intros Hx%inst_at_slot E. unfold slot_inst, slot_operands in Hx. rewrite E in Hx.
  apply andb_true_iff in Hx as [[_ [Hp%bool_decide_eq_true Hv%bool_decide_eq_true]%andb_true_iff]%andb_true_iff _]. done.
Qed.

Lemma slot_def a : a ∈ slots f <-> exists b i x, inst_at f b i = Some x /\ is_alloca (as_ x) = true /\ result x = a.
Proof.
  unfold slots. rewrite list_elem_of_fmap. split.
  - intros (x & -> & [Ha (b & i & _ & Hx)%all_insts_at]%list_elem_of_filter). by exists b, i, x.
  - intros (b & i & x & Hx & Ha & <-). exists x. split; [done|]. apply list_elem_of_filter. split; [done|].
    apply all_insts_at. exists b, i. split; [by eapply inst_at_block|done].
Qed.

Lemma alloca_value b i x : inst_at f b i = Some x -> is_alloca (as_ x) = true -> result x <> MIR_VALUE_NONE.
Proof.
  intros Hx%inst_at_slot E. unfold slot_inst, has_value in Hx. apply andb_true_iff in Hx as [_ Hv].
  destruct (as_ x); try done. by apply N.eqb_neq, negb_true_iff.
Qed.

Lemma slots_nodup : NoDup (slots f).
Proof.
  pose proof (sf_unique _ _ _ Hf) as Hu. apply list.NoDup_app in Hu as (_ & _ & Hu). unfold slots.
  assert (Hv : forall x, x ∈ all_insts f -> is_alloca (as_ x) = true -> result x <> MIR_VALUE_NONE).
  { intros x (b & i & _ & Hx)%all_insts_at. by eapply alloca_value. }
  revert Hu Hv. generalize (all_insts f). intros l. induction l as [|x l IH]; intros Hu Hv; [constructor|].
  assert (Hl : NoDup (filter (fun v => v <> MIR_VALUE_NONE) (map result l))).
  { simpl in Hu. rewrite filter_cons in Hu. destruct (decide _); [by apply list.NoDup_cons in Hu as [_ ?]|done]. }
  rewrite filter_cons. destruct (decide (is_alloca (as_ x) = true)) as [Ha|].
  - simpl. apply list.NoDup_cons. split; [|apply IH; [done|]; intros y Hy; apply Hv; by right].
    intros Hin. apply list_elem_of_fmap in Hin as (y & Hy & [_ Hy']%list_elem_of_filter).
    simpl in Hu. rewrite filter_cons, decide_True in Hu by (apply Hv; [left|done]). apply list.NoDup_cons in Hu as [Hu _].
    apply Hu. apply list_elem_of_filter. split; [apply Hv; [left|done]|]. rewrite Hy. by apply list_elem_of_fmap_2.
  - apply IH; [done|]. intros y Hy. apply Hv. by right.
Qed.
End facts.
