(* ===== verification/PhiInsert.v ===== *)
(** * Where the promotion puts phis

    On a function in slot form every [alloca] is found promotable, with the
    blocks that store to it; the work-list loop then puts a phi in every block
    of the iterated dominance frontier of these blocks, in front of the code. *)
From S2P Require Import Prelude MirCore MirGraph MirOpt Dominators DomFacts DomFrontier MirBuilder.
From S2P Require Import Mem2Reg SlotForm Worklist.

(** ** Step 1: the promotable slots *)

Definition stores (a : MirValueId) (l : list MirInst) : bool :=
  existsb (fun i => match as_ i with STORE p _ => (p =? a)%N | _ => false end) l.

Definition info_of (f : MirFunction) (i : MirInst) : PromotableAlloca :=
  mkPromotable (result i) (match as_ i with ALLOCA ty _ => ty | _ => TY_NULL end)
    (filter (fun b => stores (result i) (inst_list f b) = true) (block_list f)).

Definition promotables (f : MirFunction) : list PromotableAlloca :=
  map (info_of f) (filter (fun i => is_alloca (as_ i) = true) (all_insts f)).

Lemma value_in_false (ptr : MirValueId) (S l : list MirValueId) : forallb (fun v => bool_decide (v ∉ S)) l = true -> ptr ∈ S -> value_in ptr l = false.
Proof.
  intros H Hp. apply not_true_iff_false. intros Hv. apply existsb_exists in Hv as (v & Hv & ->%N.eqb_eq).
  rewrite forallb_forall in H. by apply H, bool_decide_eq_true in Hv.
Qed.

Lemma use_ne (ptr v : MirValueId) (S : list MirValueId) : bool_decide (v ∉ S) = true -> ptr ∈ S -> (v =? ptr)%N = false.
Proof. intros H%bool_decide_eq_true Hp. apply N.eqb_neq. by intros ->. Qed.

Lemma check_use_slot tc (S : list MirValueId) i (ptr : MirValueId) : slot_inst tc S i = true -> ptr ∈ S ->
  check_use ptr (as_ i) = Some (stores ptr [i]).
Proof.
  unfold slot_inst, stores. intros H Hp. simpl. rewrite orb_false_r.
  apply andb_true_iff in H as [[Hk Ho]%andb_true_iff _].
  destruct (as_ i) as [| | | | | | | | | | | |[]| | | | | | | | | |[]| | | | | | | | | | |] eqn:E; try done; cbn in *;
    repeat match goal with
    | H : (_ && _)%bool = true |- _ => apply andb_true_iff in H as [? H]
    | H : bool_decide (?v ∉ S) = true |- context [(?v =? ptr)%N] => rewrite (use_ne ptr v S H Hp)
    | H : forallb _ ?l = true |- context [value_in ptr ?l] => rewrite (value_in_false ptr S l H Hp)
    end; try done.
  by destruct (_ =? ptr)%N.
Qed.

Section found.
Context (tc : list MirType) (f : MirFunction) (e : nat) (Hf : slot_form tc f e).

Lemma slot_insts_at b : b ∈ block_list f -> Forall (fun i => slot_inst tc (slots f) i = true) (inst_list f b).
Proof.
  intros Hb. apply list.Forall_forall. intros i [k Hk]%list_elem_of_lookup. apply (sf_insts _ _ _ Hf).
  apply all_insts_at. by exists b, k.
Qed.

Lemma scan_insts_spec ptr skip bb : ptr ∈ slots f -> forall l i defs,
  Forall (fun i => slot_inst tc (slots f) i = true) l ->
  (forall k x, skip = Some (i + k)%nat -> l !! k = Some x -> is_alloca (as_ x) = true) ->
  scan_insts ptr skip bb i l defs =
    Some (if stores ptr l && negb (bool_decide (bb ∈ defs)) then defs ++ [bb] else defs).
Proof.
  intros Hp l. induction l as [|x l IH]; intros i defs Hl Hs; [done|].
  apply list.Forall_cons in Hl as [Hx Hl]. cbn [scan_insts].
  assert (Hs' : forall k y, skip = Some (S i + k)%nat -> l !! k = Some y -> is_alloca (as_ y) = true).
  { intros k y Hk Hy. apply (Hs (S k) y); [|done]. rewrite Hk. f_equal. lia. }
  assert (Hc : stores ptr (x :: l) = stores ptr [x] || stores ptr l) by (unfold stores; simpl; by rewrite orb_false_r).
  rewrite Hc. destruct (bool_decide (skip = Some i)) eqn:Hskip.
  - apply bool_decide_eq_true in Hskip. assert (Ha : is_alloca (as_ x) = true) by (apply (Hs 0%nat); [by rewrite Nat.add_0_r|done]).
    rewrite IH by done. unfold stores at 2. simpl. by destruct (as_ x).
  - rewrite (check_use_slot _ _ _ _ Hx Hp). cbn [mbind option_bind]. rewrite IH by done.
    destruct (stores ptr [x]); cbn [andb orb]; [|done].
    destruct (bool_decide (bb ∈ defs)) eqn:Hd; cbn [negb andb].
    + by rewrite Hd, andb_false_r.
    + assert (Hd' : bool_decide (bb ∈ defs ++ [bb]) = true) by (apply bool_decide_eq_true; set_solver).
      by rewrite Hd', andb_false_r.
Qed.

Lemma scan_blocks_spec ptr b i inst : ptr ∈ slots f -> inst_at f b i = Some inst -> is_alloca (as_ inst) = true ->
  forall bl defs, NoDup bl -> bl ⊆ block_list f -> (forall x, x ∈ bl -> x ∉ defs) ->
  scan_blocks f ptr b i bl defs = Some (defs ++ filter (fun c => stores ptr (inst_list f c) = true) bl).
Proof.
  intros Hp Hi Ha bl. induction bl as [|c bl IH]; intros defs Hnd Hsub Hfresh; cbn [scan_blocks]; [by rewrite app_nil_r|].
  apply list.NoDup_cons in Hnd as [Hc Hnd]. rewrite scan_insts_spec; [|done|apply slot_insts_at, Hsub; left|].
  2: { intros k x Hk Hx. destruct (decide (c = b)) as [->|]; [|done]. injection Hk as <-. simpl in Hx. unfold inst_at in Hi. congruence. }
  cbn [mbind option_bind]. rewrite filter_cons.
  assert (Hcd : bool_decide (c ∈ defs) = false) by (apply bool_decide_eq_false, Hfresh; left).
  rewrite Hcd, andb_true_r. destruct (stores ptr (inst_list f c)) eqn:Hst.
  - rewrite decide_True by done. rewrite IH; [by rewrite <- app_assoc|done|set_solver|].
    intros x Hx. rewrite elem_of_app, list_elem_of_singleton. intros [?| ->]; [|done]. apply (Hfresh x); [by right|done].
  - rewrite decide_False by done. apply IH; [done|set_solver|]. intros x Hx. apply Hfresh. by right.
Qed.

Lemma is_promotable_slot b i inst : b ∈ block_list f -> inst_at f b i = Some inst -> is_alloca (as_ inst) = true ->
  is_promotable tc f b i inst = Ok (Some (info_of f inst)).
Proof.
  intros Hb Hi Ha. assert (Hin : inst ∈ all_insts f) by (apply all_insts_at; by exists b, i).
  pose proof (sf_insts _ _ _ Hf inst Hin) as Hs. unfold is_promotable, info_of.
  destruct (as_ inst) eqn:E; try done. unfold slot_inst in Hs. rewrite E in Hs. cbn in Hs.
  rewrite !andb_true_iff, !negb_true_iff in Hs. destruct Hs as [[[[-> ->] Ht] _] _].
  destruct (ty_deref tc alloc_type) as [t|]; [|done]. cbn [negb of_option obind].
  apply negb_true_iff in Ht. rewrite Ht.
  rewrite (scan_blocks_spec _ b i inst); [done| |done|by rewrite E|apply (ids_nodup f), (sf_cfg _ _ _ Hf)|done|].
  - apply list_elem_of_fmap. exists inst. split; [done|]. apply list_elem_of_filter. by rewrite E.
  - intros x _ Hx. by apply not_elem_of_nil in Hx.
Qed.

Lemma find_in_block_spec b : b ∈ block_list f -> forall l i found,
  (forall k x, l !! k = Some x -> inst_at f b (i + k) = Some x) ->
  (length found + length (filter (fun x => is_alloca (as_ x) = true) l) <= MAX_ALLOCAS)%nat ->
  find_in_block tc f b i l found = Ok (found ++ map (info_of f) (filter (fun x => is_alloca (as_ x) = true) l)).
Proof.
  intros Hb l. induction l as [|x l IH]; intros i found Hat Hlen; cbn [find_in_block]; [by rewrite app_nil_r|].
  assert (Hat' : forall k y, l !! k = Some y -> inst_at f b (S i + k) = Some y).
  { intros k y Hk. rewrite Nat.add_succ_l, <- Nat.add_succ_r. by apply Hat. }
  assert (Hx : inst_at f b i = Some x) by (rewrite <- (Nat.add_0_r i); by apply Hat).
  rewrite filter_cons in *. destruct (is_alloca (as_ x)) eqn:Ha.
  - rewrite decide_True in * by done. simpl in Hlen. destruct (as_ x) eqn:E; try done.
    destruct (Nat.leb_spec MAX_ALLOCAS (length found)); [lia|].
    rewrite is_promotable_slot by (done || by rewrite E). cbn [obind]. rewrite IH; [|done|rewrite length_app; simpl; lia].
    by rewrite <- app_assoc.
  - rewrite decide_False in * by done. destruct (as_ x); try done; by rewrite IH.
Qed.

Lemma find_promotable_spec : find_promotable tc f = Ok (promotables f).
Proof.
  unfold find_promotable, promotables.
  assert (H : forall bl found, bl ⊆ block_list f ->
    (length found + length (filter (fun x => is_alloca (as_ x) = true) (mbind (inst_list f) bl)) <= MAX_ALLOCAS)%nat ->
    ofold (fun b found => find_in_block tc f b 0 (inst_list f b) found) bl found =
    Ok (found ++ map (info_of f) (filter (fun x => is_alloca (as_ x) = true) (mbind (inst_list f) bl)))).
  { intros bl. induction bl as [|b bl IH]; intros found Hsub Hlen; cbn [ofold]; [by rewrite app_nil_r|].
    change (mbind (inst_list f) (b :: bl)) with (inst_list f b ++ mbind (inst_list f) bl) in *.
    rewrite list.filter_app, length_app in Hlen. rewrite list.filter_app.
    rewrite find_in_block_spec; [|apply Hsub; left|done|lia]. cbn [obind].
    rewrite IH; [|set_solver|rewrite length_app, length_map; lia]. by rewrite map_app, <- app_assoc. }
  rewrite H; [done|done|]. pose proof (sf_few _ _ _ Hf) as Hfew. unfold slots in Hfew. rewrite length_map in Hfew. exact Hfew.
Qed.

Lemma promotables_slots : map alloca_val (promotables f) = slots f.
Proof. unfold promotables, slots. rewrite map_map. done. Qed.

End found.

(** ** The iterated dominance frontier

    The work-list loop of [mir_mem2reg]: the phis it inserts change nothing
    but the fronts of the blocks, there is at most one per slot and block, and
    the blocks that have one are closed under the dominance frontier. *)

(** ** What the later steps leave alone *)

Definition skel (b : MirBlock) : MirBlock := with_insts b [] 0.
Definition same_skel (f g : MirFunction) : Prop :=
  map skel (blocks g) = map skel (blocks f) /\
  with_values (with_blocks g []) 0 [] = with_values (with_blocks f []) 0 [].

#[export] Instance same_skel_refl : Reflexive same_skel.
Proof. by intros f. Qed.
#[export] Instance same_skel_trans : Transitive same_skel.
Proof. intros f g h [H1 H2] [H3 H4]. split; congruence. Qed.

Lemma same_skel_at f g b blk : same_skel f g -> block_at f b = Some blk ->
  exists blk', block_at g b = Some blk' /\ skel blk' = skel blk.
Proof.
  intros [H _] Hb. apply (f_equal (lookup b)) in H. rewrite !list_lookup_fmap in H.
  unfold block_at in *. rewrite Hb in H. simpl in H. destruct (blocks g !! b) as [blk'|]; [|done].
  apply (inj Some) in H. by exists blk'.
Qed.

Lemma skel_fields b b' : skel b = skel b' ->
  id b = id b' /\ predecessors b = predecessors b' /\ successors b = successors b' /\
  dom_children b = dom_children b' /\ dom_frontier b = dom_frontier b'.
Proof. destruct b, b'. unfold skel, with_insts. by intros [= -> -> -> -> -> -> -> -> ->]. Qed.

Lemma same_skel_fields f g : same_skel f g ->
  block_list g = block_list f /\ entry_block g = entry_block f /\ block_count g = block_count f /\
  params g = params f /\ f_name g = f_name f /\ length (blocks g) = length (blocks f).
Proof.
  intros [Hb Hg]. destruct f, g. injection Hg as -> -> -> -> -> -> _ _ _. split_and!; try done.
  apply (f_equal length) in Hb. by rewrite !length_map in Hb.
Qed.

Lemma same_skel_upd f b g : (forall blk, skel (g blk) = skel blk) -> same_skel f (upd_block f b g).
Proof.
  intros Hg. split; [|done]. simpl. apply list_eq. intros c. rewrite !list_lookup_fmap.
  destruct (decide (c = b)) as [->|Hne].
  - rewrite list_lookup_alter_eq. destruct (blocks f !! b); simpl; [by rewrite Hg|done].
  - by rewrite list_lookup_alter_ne.
Qed.

Lemma same_skel_values f n vt : same_skel f (with_values f n vt).
Proof. done. Qed.

Lemma inst_list_upd f b g c : inst_list (upd_block f b g) c =
  if decide (c = b) then default [] ((fun blk => insts (g blk)) <$> block_at f b) else inst_list f c.
Proof.
  unfold inst_list. rewrite block_at_upd. destruct (decide (c = b)); [|done]. by destruct (block_at f b).
Qed.

(** ** Phis in front of the blocks *)

Record PhiRec := mkPhi { ph_slot : MirValueId; ph_val : MirValueId; ph_ty : tyref }.

#[export] Instance PhiRec_eq_dec : EqDecision PhiRec.
Proof. solve_decision. Defined.

Abbreviation phi_map := (nat -> list PhiRec).

Definition phi_inst (edges : list (blockptr * MirValueId)) (x : PhiRec) : MirInst :=
  mkInst (PHI edges) (ph_val x) (ph_ty x) 0 0.

Definition phi_of (ph : phi_map) (a : MirValueId) (b : nat) : option MirValueId :=
  ph_val <$> List.find (fun x => (ph_slot x =? a)%N) (ph b).

Definition add_ph (b : nat) (x : PhiRec) (ph : phi_map) : phi_map :=
  fun c => if decide (c = b) then ph c ++ [x] else ph c.

(** [g] is [h] with the phis [ph], which have no edges yet. *)
Record placed (h : MirFunction) (ph : phi_map) (g : MirFunction) : Prop := {
  pl_skel : same_skel h g;
  pl_code : forall b, b ∈ block_list h -> inst_list g b = map (phi_inst []) (ph b) ++ inst_list h b;
  pl_mono : (next_value_id h <= next_value_id g)%N;
  pl_range : forall b x, x ∈ ph b -> (next_value_id h <= ph_val x < next_value_id g)%N;
  pl_inj : forall b c x y, x ∈ ph b -> y ∈ ph c -> ph_val x = ph_val y -> b = c /\ x = y;
  pl_nodup : forall b, NoDup (map ph_slot (ph b))
}.

Lemma find_None {A} (p : A -> bool) l : List.find p l = None <-> forall x, x ∈ l -> p x = false.
Proof.
  split; [intros H x Hx%list_elem_of_In; exact (List.find_none _ _ H x Hx)|].
  induction l as [|y l IH]; intros H; simpl; [done|]. rewrite (H y) by (by left). apply IH. intros x Hx. apply H. by right.
Qed.

Lemma find_app {A} (p : A -> bool) l k :
  List.find p (l ++ k) = match List.find p l with Some x => Some x | None => List.find p k end.
Proof. induction l as [|x l IH]; simpl; [done|]. by destruct (p x). Qed.

Lemma phi_of_add ph b x a c :
  phi_of ph (ph_slot x) b = None ->
  phi_of (add_ph b x ph) a c = if decide (c = b /\ a = ph_slot x) then Some (ph_val x) else phi_of ph a c.
Proof.
  unfold phi_of, add_ph. intros Hn. destruct (decide (c = b)) as [->|Hne].
  - rewrite find_app. destruct (decide (b = b /\ a = ph_slot x)) as [[_ ->]|Ha].
    + destruct (List.find _ (ph b)); [done|]. simpl. by rewrite N.eqb_refl.
    + simpl. destruct (N.eqb_spec (ph_slot x) a); [exfalso; apply Ha; by split|].
      by destruct (List.find (fun y => (ph_slot y =? a)%N) (ph b)).
  - rewrite decide_False; [done|]. tauto.
Qed.

Lemma phi_of_None ph a b : phi_of ph a b = None <-> a ∉ map ph_slot (ph b).
Proof.
  unfold phi_of. rewrite fmap_None, find_None. setoid_rewrite N.eqb_neq. split.
  - intros H Hin. apply list_elem_of_fmap in Hin as (x & -> & Hx). by apply (H x).
  - intros H x Hx <-. apply H. by apply list_elem_of_fmap_2.
Qed.

Lemma phi_of_Some ph a b v : phi_of ph a b = Some v -> exists x, x ∈ ph b /\ ph_slot x = a /\ ph_val x = v.
Proof.
  unfold phi_of. intros (x & Hx & ->)%fmap_Some. apply find_some in Hx as [Hx%list_elem_of_In E%N.eqb_eq]. eauto.
Qed.

Lemma phi_of_elem ph x b : NoDup (map ph_slot (ph b)) -> x ∈ ph b -> phi_of ph (ph_slot x) b = Some (ph_val x).
Proof.
  unfold phi_of. generalize (ph b). intros l. induction l as [|y l IH]; intros Hnd Hx; [by apply not_elem_of_nil in Hx|].
  simpl in *. apply list.NoDup_cons in Hnd as [Hy Hnd]. apply elem_of_cons in Hx as [->|Hx]; [by rewrite N.eqb_refl|].
  destruct (N.eqb_spec (ph_slot y) (ph_slot x)) as [E|]; [|by apply IH]. exfalso. apply Hy. rewrite E.
  by apply list_elem_of_fmap_2.
Qed.

Lemma insert_after_phis_spec phi ps l : Forall (fun i => is_phi (as_ i) = true) ps -> Forall (fun i => is_phi (as_ i) = false) l ->
  insert_after_phis phi (ps ++ l) = ps ++ [phi] ++ l.
Proof.
  intros Hp Hl. induction Hp as [|p ps Hp _ IH]; simpl.
  - destruct Hl as [|x l Hx _]; [done|]. simpl. by rewrite Hx.
  - by rewrite Hp, IH.
Qed.

Lemma new_value_next f ty : next_value_id (mir_function_new_value f ty).1 = (next_value_id f + 1)%N /\
  (mir_function_new_value f ty).2 = next_value_id f /\
  same_skel f (mir_function_new_value f ty).1 /\ forall b, block_at (mir_function_new_value f ty).1 b = block_at f b.
Proof. unfold mir_function_new_value. simpl. split_and!; try done. Qed.

Section placing.
Context (h : MirFunction) (Hids : ids_ok h).
Context (Hnophi : forall b, b ∈ block_list h -> Forall (fun i => is_phi (as_ i) = false) (inst_list h b)).

Lemma bl_nodup : NoDup (block_list h).
Proof. by apply ids_nodup. Qed.

Lemma placed_block ph g b : placed h ph g -> b ∈ block_list h -> exists i blk blk',
  block_list h !! i = Some b /\ block_at h b = Some blk /\ block_at g b = Some blk' /\ skel blk' = skel blk /\ id blk' = Z.of_nat i.
Proof.
  intros Hp [i Hi]%list_elem_of_lookup. destruct (Hids i b Hi) as (blk & Hb & Hid).
  destruct (same_skel_at h g b blk (pl_skel _ _ _ Hp) Hb) as (blk' & Hb' & Hsk). exists i, blk, blk'.
  split_and!; [done..|]. by rewrite (proj1 (skel_fields _ _ Hsk)).
Qed.

Lemma insert_phi_placed ph g b a ty g' v : placed h ph g -> b ∈ block_list h -> phi_of ph a b = None ->
  insert_phi g b ty = (g', v) -> placed h (add_ph b (mkPhi a v ty) ph) g' /\ v = next_value_id g /\ next_value_id g' = (v + 1)%N.
Proof.
  intros Hp Hb Hno. unfold insert_phi. destruct (new_value_next g ty) as (Hn & Hv & Hsk & Hat).
  destruct (mir_function_new_value g ty) as [g1 v1]. simpl in *. intros [= <- <-]. subst v1.
  set (x := mkPhi a (next_value_id g) ty). split; [|done].
  assert (Hold : forall c y, y ∈ ph c -> (ph_val y < next_value_id g)%N) by (intros c y Hy; by apply (pl_range _ _ _ Hp c y)).
  assert (Hin : forall c y, y ∈ add_ph b x ph c -> y ∈ ph c \/ c = b /\ y = x).
  { intros c y. unfold add_ph. destruct (decide (c = b)) as [->|]; [|tauto].
    rewrite elem_of_app, list_elem_of_singleton. tauto. }
  split.
  - etransitivity; [apply Hp|]. etransitivity; [exact Hsk|]. by apply same_skel_upd.
  - intros c Hc. rewrite inst_list_upd. unfold add_ph. destruct (decide (c = b)) as [->|Hne].
    + destruct (placed_block _ _ _ Hp Hb) as (i & blk & blk' & _ & _ & Hb' & _). rewrite Hat, Hb'. simpl.
      pose proof (pl_code _ _ _ Hp b Hb) as Hcode. unfold inst_list at 1 in Hcode. rewrite Hb' in Hcode. simpl in Hcode.
      rewrite Hcode, insert_after_phis_spec, map_app, <- app_assoc; [done| |by apply Hnophi].
      apply list.Forall_forall. intros i0 Hi0. apply list_elem_of_fmap in Hi0 as (y & -> & _). done.
    + unfold inst_list. rewrite Hat. by apply (pl_code _ _ _ Hp).
  - simpl. rewrite Hn. pose proof (pl_mono _ _ _ Hp). lia.
  - intros c y Hy. simpl. rewrite Hn. pose proof (pl_mono _ _ _ Hp). apply Hin in Hy as [Hy|[-> ->]].
    + pose proof (pl_range _ _ _ Hp c y Hy). lia.
    + simpl. lia.
  - intros c1 c2 y z Hy Hz Heq. apply Hin in Hy as [Hy|[-> ->]], Hz as [Hz|[-> ->]].
    + by eapply (pl_inj _ _ _ Hp).
    + pose proof (Hold _ _ Hy). simpl in Heq. lia.
    + pose proof (Hold _ _ Hz). simpl in Heq. lia.
    + done.
  - intros c. unfold add_ph. destruct (decide (c = b)) as [->|]; [|apply Hp]. rewrite map_app. apply list.NoDup_app.
    split_and!; [apply Hp| |apply NoDup_singleton]. intros z Hz ->%list_elem_of_singleton. simpl in Hz.
    by apply phi_of_None in Hno.
Qed.
End placing.

(** ** The work list of one slot *)

#[local] Arguments unmarked : simpl never.

Section worklist.
Context (h : MirFunction) (Hids : ids_ok h).
Context (Hnophi : forall b, b ∈ block_list h -> Forall (fun i => is_phi (as_ i) = false) (inst_list h b)).
Context (Hdf : forall b y, y ∈ frontier_of h b -> y ∈ block_list h).
Context (a : MirValueId) (ty : tyref) (ph0 : phi_map).

Abbreviation bl := (block_list h).
Definition has (ph : phi_map) (b : nat) : Prop := is_Some (phi_of ph a b).

(** [ex]: blocks whose frontier is being worked through. *)
Record idf_inv (ex : nat -> Prop) (ph : phi_map) (inw : nat -> bool) (st : IdfState) : Prop := {
  ii_placed : placed h ph (idf_func st);
  ii_other : forall c b, c <> a -> phi_of ph c b = phi_of ph0 c b;
  ii_slot : forall b x, x ∈ ph b -> x ∈ ph0 b \/ ph_slot x = a;
  ii_has : table bl (has_phi st) (fun b => bool_decide (has ph b));
  ii_phis : table bl (phi_for_block st) (phi_of ph a);
  ii_inw : table bl (in_worklist st) inw;
  ii_wl : forall b, b ∈ worklist st -> b ∈ bl /\ inw b = true;
  ii_room : (length (worklist st) + unmarked (in_worklist st) <= length bl)%nat;
  ii_closed : forall b, b ∈ bl -> inw b = true -> b ∉ worklist st -> ~ ex b -> forall y, y ∈ frontier_of h b -> has ph y;
  ii_entered : forall b, has ph b -> exists c, c ∈ bl /\ b ∈ frontier_of h c
}.

(** The blocks with a phi have been listed. *)
Definition listed (ph : phi_map) (inw : nat -> bool) : Prop := forall b, b ∈ bl -> has ph b -> inw b = true.

Lemma enqueue_spec ex ph inw st b : idf_inv ex ph inw st -> b ∈ bl -> exists inw' st',
  enqueue b st = Ok st' /\ idf_inv ex ph inw' st' /\ inw' b = true /\ (forall c, inw c = true -> inw' c = true) /\
  (length (worklist st') + unmarked (in_worklist st') = length (worklist st) + unmarked (in_worklist st))%nat.
Proof.
  intros Hi Hb. destruct (placed_block h Hids _ _ _ (ii_placed _ _ _ _ Hi) Hb) as (i & blk & blk' & Hib & _ & Hb' & _ & Hid).
  unfold enqueue. rewrite Hb'. cbn [of_option obind]. rewrite Hid.
  rewrite (table_get _ _ _ _ _ (ii_inw _ _ _ _ Hi) Hib). cbn [obind]. destruct (inw b) eqn:Hw.
  { exists inw, st. split_and!; done. }
  destruct (table_set bl (bl_nodup h Hids) _ _ _ _ true (ii_inw _ _ _ _ Hi) Hib) as (w & -> & Hweq & Hwt).
  assert (Hib' : in_worklist st !! i = Some false).
  { rewrite (proj2 (ii_inw _ _ _ _ Hi) i b Hib). by rewrite Hw. }
  pose proof (unmarked_insert _ _ Hib') as Hu. rewrite <- Hweq in Hu.
  pose proof (ii_room _ _ _ _ Hi) as Hroom. pose proof (proj1 (ii_inw _ _ _ _ Hi)) as Hlen.
  destruct (Nat.ltb_spec (length (worklist st)) (length (in_worklist st))); [|lia]. cbn [obind].
  eexists _, _. split; [reflexivity|]. split; [|split_and!].
  - split; cbn; try apply Hi; [done| | |].
    + intros c [->|Hc]%elem_of_cons; [split; [done|cbn; by rewrite decide_True]|].
      destruct (ii_wl _ _ _ _ Hi c Hc). split; [done|]. cbn. by destruct (decide (c = b)).
    + lia.
    + intros c Hc Hwc Hnc Hex. cbn in Hwc. destruct (decide (c = b)) as [->|Hne]; [exfalso; apply Hnc; left|].
      apply (ii_closed _ _ _ _ Hi c Hc Hwc); [|done]. intros Hin. apply Hnc. by right.
  - cbn. by rewrite decide_True.
  - intros c Hc. cbn. by destruct (decide (c = b)).
  - cbn. lia.
Qed.

Lemma enqueue_all ex ph inw st ds : idf_inv ex ph inw st -> ds ⊆ bl -> exists inw' st',
  ofold enqueue ds st = Ok st' /\ idf_inv ex ph inw' st' /\ (forall d, d ∈ ds -> inw' d = true) /\
  (forall c, inw c = true -> inw' c = true) /\
  (length (worklist st') + unmarked (in_worklist st') = length (worklist st) + unmarked (in_worklist st))%nat.
Proof.
  revert inw st. induction ds as [|d ds IH]; intros inw st Hi Hsub; cbn [ofold].
  { exists inw, st. split_and!; try done. intros d Hd. by apply not_elem_of_nil in Hd. }
  destruct (enqueue_spec ex ph inw st d Hi) as (inw1 & st1 & -> & Hi1 & Hd1 & Hm1 & Hl1); [apply Hsub; left|].
  cbn [obind]. destruct (IH inw1 st1 Hi1) as (inw2 & st2 & -> & Hi2 & Hd2 & Hm2 & Hl2); [set_solver|].
  exists inw2, st2. split_and!; try done; [|auto|lia]. intros c [->|Hc]%elem_of_cons; auto.
Qed.

Lemma place_phi_spec ex ph inw st b : idf_inv ex ph inw st -> listed ph inw -> b ∈ bl ->
  (exists c, c ∈ bl /\ b ∈ frontier_of h c) -> exists ph' inw' st',
  place_phi ty b st = Ok st' /\ idf_inv ex ph' inw' st' /\ listed ph' inw' /\ has ph' b /\
  (forall c, has ph c -> has ph' c) /\ (forall c, inw c = true -> inw' c = true) /\
  (length (worklist st') + unmarked (in_worklist st') = length (worklist st) + unmarked (in_worklist st))%nat.
Proof.
  intros Hi Hlist Hb Hent. pose proof (ii_placed _ _ _ _ Hi) as Hp.
  destruct (placed_block h Hids _ _ _ Hp Hb) as (i & blk & blk' & Hib & _ & Hb' & _ & Hid).
  unfold place_phi. rewrite Hb'. cbn [of_option obind]. rewrite Hid.
  rewrite (table_get _ _ _ _ _ (ii_has _ _ _ _ Hi) Hib). cbn [obind].
  destruct (bool_decide (has ph b)) eqn:Hh.
  { apply bool_decide_eq_true in Hh. exists ph, inw, st. split_and!; done. }
  apply bool_decide_eq_false, eq_None_not_Some in Hh.
  destruct (table_set bl (bl_nodup h Hids) _ _ _ _ true (ii_has _ _ _ _ Hi) Hib) as (hl & -> & _ & Hht). cbn [obind].
  destruct (insert_phi (idf_func st) b ty) as [g' v] eqn:Hins.
  destruct (insert_phi_placed h Hids Hnophi ph (idf_func st) b a ty g' v Hp Hb Hh Hins) as (Hp' & _ & _).
  destruct (table_set bl (bl_nodup h Hids) _ _ _ _ (Some v) (ii_phis _ _ _ _ Hi) Hib) as (pl & -> & _ & Hpt). cbn [obind].
  set (ph' := add_ph b (mkPhi a v ty) ph) in *.
  assert (Hph : forall c d, phi_of ph' c d = if decide (d = b /\ c = a) then Some v else phi_of ph c d).
  { intros c d. unfold ph'. by rewrite phi_of_add. }
  assert (Hhas : forall c, has ph' c <-> c = b \/ has ph c).
  { intros c. unfold has. rewrite Hph. destruct (decide (c = b /\ a = a)) as [[-> _]|Hn].
    - split; [by left|by eexists].
    - split; [by right|]. intros [->|?]; [|done]. exfalso. apply Hn. by split. }
  set (st1 := mkIdf g' hl (in_worklist st) (worklist st) pl (count_phi (idf_stats st))).
  assert (Hi1 : idf_inv ex ph' inw st1).
  { split; cbn; try apply Hi; try done.
    - intros c d Hc. rewrite Hph, decide_False by tauto. by apply (ii_other _ _ _ _ Hi).
    - intros c x. unfold ph', add_ph. destruct (decide (c = b)) as [->|]; [|apply (ii_slot _ _ _ _ Hi)].
      rewrite elem_of_app, list_elem_of_singleton. intros [?| ->]; [by apply (ii_slot _ _ _ _ Hi)|by right].
    - destruct Hht as [Hl Ht]. split; [done|]. intros j c Hj. rewrite (Ht j c Hj). f_equal.
      destruct (decide (c = b)) as [->|]; [symmetry; apply bool_decide_eq_true, Hhas; by left|].
      apply bool_decide_ext. rewrite Hhas. tauto.
    - destruct Hpt as [Hl Ht]. split; [done|]. intros j c Hj. rewrite (Ht j c Hj), Hph. f_equal.
      destruct (decide (c = b)) as [->|]; [by rewrite decide_True|]. rewrite decide_False; [done|]. tauto.
    - intros c Hc Hwc Hnc Hex y Hy. apply Hhas. right. by apply (ii_closed _ _ _ _ Hi c).
    - intros c [->|Hc]%Hhas; [done|]. by apply (ii_entered _ _ _ _ Hi). }
  destruct (enqueue_spec ex ph' inw st1 b Hi1 Hb) as (inw2 & st2 & -> & Hi2 & Hw2 & Hm2 & Hl2).
  exists ph', inw2, st2. split_and!; try done.
  - intros c Hc [->|Hc']%Hhas; [done|]. by apply Hm2, Hlist.
  - apply Hhas. by left.
  - intros c Hc. apply Hhas. by right.
Qed.

Lemma place_all ex ys : forall ph inw st, idf_inv ex ph inw st -> listed ph inw ->
  (forall y, y ∈ ys -> exists c, c ∈ bl /\ y ∈ frontier_of h c) -> exists ph' inw' st',
  ofold (place_phi ty) ys st = Ok st' /\ idf_inv ex ph' inw' st' /\ listed ph' inw' /\ (forall y, y ∈ ys -> has ph' y) /\
  (forall c, has ph c -> has ph' c) /\ (forall c, inw c = true -> inw' c = true) /\
  (length (worklist st') + unmarked (in_worklist st') = length (worklist st) + unmarked (in_worklist st))%nat.
Proof.
  induction ys as [|y ys IH]; intros ph inw st Hi Hl Hys; cbn [ofold].
  { exists ph, inw, st. split_and!; try done. intros y Hy. by apply not_elem_of_nil in Hy. }
  destruct (Hys y) as (c & Hc & Hy); [left|].
  destruct (place_phi_spec ex ph inw st y Hi Hl) as (ph1 & inw1 & st1 & -> & Hi1 & Hl1 & Hh1 & Hm1 & Hw1 & Hn1); [by eapply Hdf|by exists c|].
  cbn [obind]. destruct (IH ph1 inw1 st1 Hi1 Hl1) as (ph2 & inw2 & st2 & -> & Hi2 & Hl2 & Hh2 & Hm2 & Hw2 & Hn2).
  { intros z Hz. apply Hys. by right. }
  exists ph2, inw2, st2. split_and!; try done; [|auto|auto|lia]. intros z [->|Hz]%elem_of_cons; auto.
Qed.

Lemma idf_loop_spec fuel : forall ph inw st, idf_inv (fun _ => False) ph inw st -> listed ph inw ->
  (length (worklist st) + unmarked (in_worklist st) <= fuel)%nat -> exists ph' inw' st',
  idf_loop fuel ty st = Ok st' /\ idf_inv (fun _ => False) ph' inw' st' /\ listed ph' inw' /\ worklist st' = [] /\
  (forall c, inw c = true -> inw' c = true).
Proof.
  induction fuel as [|fuel IH]; intros ph inw st Hi Hl Hfuel; cbn [idf_loop];
    destruct (worklist st) as [|b rest] eqn:Hwl; try (exists ph, inw, st; split_and!; done); [simpl in Hfuel; lia|].
  destruct (ii_wl _ _ _ _ Hi b) as [Hb Hwb]; [rewrite Hwl; left|].
  destruct (placed_block h Hids _ _ _ (ii_placed _ _ _ _ Hi) Hb) as (i & blk & blk' & Hib & Hbk & Hb' & Hsk & _).
  rewrite Hb'. cbn [of_option obind].
  assert (Hfr : dom_frontier blk' = frontier_of h b).
  { unfold frontier_of. rewrite Hbk. simpl. apply (skel_fields _ _ Hsk). }
  rewrite Hfr. set (st1 := mkIdf _ _ _ rest _ _).
  assert (Hi1 : idf_inv (fun c => c = b) ph inw st1).
  { pose proof (ii_room _ _ _ _ Hi) as Hroom. rewrite Hwl in Hroom. simpl in Hroom.
    split; cbn; try apply Hi; [|lia|].
    - intros c Hc. apply (ii_wl _ _ _ _ Hi). rewrite Hwl. by right.
    - intros c Hc Hwc Hnc Hex. apply (ii_closed _ _ _ _ Hi c Hc Hwc); [|tauto]. rewrite Hwl.
      intros [?|?]%elem_of_cons; [by apply Hex|done]. }
  destruct (place_all (fun c => c = b) (frontier_of h b) ph inw st1 Hi1 Hl) as (ph2 & inw2 & st2 & -> & Hi2 & Hl2 & Hh2 & Hm2 & Hw2 & Hn2).
  { intros y Hy. by exists b. }
  cbn [obind]. destruct (IH ph2 inw2 st2) as (ph3 & inw3 & st3 & -> & Hi3 & Hl3 & Hn3 & Hw3); [|done| |].
  - split; try apply Hi2. intros c Hc Hwc Hnc _. destruct (decide (c = b)) as [->|Hne]; [done|].
    by apply (ii_closed _ _ _ _ Hi2 c).
  - simpl in Hfuel, Hn2. lia.
  - exists ph3, inw3, st3. split_and!; try done. auto.
Qed.

End worklist.

(** ** All the slots *)

Section all_slots.
Context (h : MirFunction) (Hids : ids_ok h) (Hcount : block_count h = Z.of_nat (length (block_list h))).
Context (Hnophi : forall b, b ∈ block_list h -> Forall (fun i => is_phi (as_ i) = false) (inst_list h b)).
Context (Hdf : forall b y, y ∈ frontier_of h b -> y ∈ block_list h).

(** The blocks with a phi for [a] contain the frontiers of those that store to
    it and of their own; each is in a frontier. *)
Record closed_phis (ph : phi_map) (a : MirValueId) (defs : list nat) : Prop := {
  cp_closed : forall b y, b ∈ block_list h -> b ∈ defs \/ is_Some (phi_of ph a b) -> y ∈ frontier_of h b ->
    is_Some (phi_of ph a y);
  cp_entered : forall b, is_Some (phi_of ph a b) -> exists c, c ∈ block_list h /\ b ∈ frontier_of h c
}.

Lemma closed_phis_ext ph ph' a defs : (forall b, phi_of ph' a b = phi_of ph a b) -> closed_phis ph a defs -> closed_phis ph' a defs.
Proof.
  intros He [Hc Hn]. split.
  - intros b y. rewrite !He. apply Hc.
  - intros b. rewrite He. apply Hn.
Qed.

Lemma place_phis_spec p g ctxs stats ph : placed h ph g -> (forall b, phi_of ph (alloca_val p) b = None) -> def_blocks p ⊆ block_list h ->
  exists ph' g' arr stats', place_phis p (g, ctxs, stats) = Ok (g', ctxs ++ [mkCtx (alloca_val p) [] arr], stats') /\
    placed h ph' g' /\ table (block_list h) arr (phi_of ph' (alloca_val p)) /\
    (forall c b, c <> alloca_val p -> phi_of ph' c b = phi_of ph c b) /\
    (forall b x, x ∈ ph' b -> x ∈ ph b \/ ph_slot x = alloca_val p) /\
    closed_phis ph' (alloca_val p) (def_blocks p).
Proof.
  intros Hp Hno Hdefs. set (a := alloca_val p) in *. unfold place_phis.
  destruct (same_skel_fields _ _ (pl_skel _ _ _ Hp)) as (_ & _ & Hc & _). rewrite Hc, Hcount, Nat2Z.id.
  set (n := length (block_list h)).
  set (st0 := mkIdf g (replicate n false) (replicate n false) [] (replicate n None) stats).
  assert (Hun : (unmarked (replicate n false) <= n)%nat).
  { unfold unmarked. etransitivity; [apply List.filter_length_le|]. by rewrite length_replicate. }
  assert (Hi0 : idf_inv h a ph (fun _ => False) ph (fun _ => false) st0).
  { split; cbn; try done.
    - auto.
    - eapply table_ext; [|apply table_replicate]. intros b. symmetry. apply bool_decide_eq_false. unfold has. rewrite Hno. by intros [? ?].
    - eapply table_ext; [|apply table_replicate]. intros b. by rewrite Hno.
    - apply table_replicate.
    - intros b Hb. by apply not_elem_of_nil in Hb.
    - intros b. unfold has. rewrite Hno. by intros [? ?]. }
  destruct (enqueue_all h Hids Hnophi Hdf a ph _ _ _ _ (def_blocks p) Hi0 Hdefs) as (inw1 & st1 & -> & Hi1 & Hd1 & _ & Hn1). cbn [obind].
  destruct (idf_loop_spec h Hids Hnophi Hdf a (alloc_type p) ph (S n) ph inw1 st1 Hi1) as (ph' & inw2 & st2 & -> & Hi2 & Hl2 & Hw2 & Hm2).
  - intros b _ Hb. unfold has in Hb. rewrite Hno in Hb. by destruct Hb.
  - rewrite Hn1. cbn. lia.
  - cbn [obind]. exists ph', (idf_func st2), (phi_for_block st2), (idf_stats st2). split_and!.
    + done.
    + apply Hi2.
    + apply Hi2.
    + apply (ii_other _ _ _ _ _ _ _ Hi2).
    + apply (ii_slot _ _ _ _ _ _ _ Hi2).
    + split; [|apply (ii_entered _ _ _ _ _ _ _ Hi2)]. intros b y Hb Hor Hy.
      assert (Hwb : inw2 b = true) by (destruct Hor as [Hd|Hd]; [by apply Hm2, Hd1|by apply Hl2]).
      apply (ii_closed _ _ _ _ _ _ _ Hi2 b Hb Hwb); [|tauto|done]. rewrite Hw2. by apply not_elem_of_nil.
Qed.

(** The contexts the loop over the slots leaves. *)
Definition ctx_ok (ph : phi_map) (p : PromotableAlloca) (c : AllocaRenameCtx) : Prop :=
  rc_alloca c = alloca_val p /\ rc_stack c = [] /\ table (block_list h) (rc_phis c) (phi_of ph (alloca_val p)).

Lemma place_all_phis ps : forall pre ctxs g stats ph,
  NoDup (map alloca_val (pre ++ ps)) -> (forall p, p ∈ ps -> def_blocks p ⊆ block_list h) ->
  placed h ph g -> Forall2 (ctx_ok ph) pre ctxs -> (forall p, p ∈ pre -> closed_phis ph (alloca_val p) (def_blocks p)) ->
  (forall b x, x ∈ ph b -> ph_slot x ∈ map alloca_val pre) ->
  exists ph' ctxs' g' stats', ofold place_phis ps (g, ctxs, stats) = Ok (g', ctxs', stats') /\
    placed h ph' g' /\ Forall2 (ctx_ok ph') (pre ++ ps) ctxs' /\
    (forall p, p ∈ pre ++ ps -> closed_phis ph' (alloca_val p) (def_blocks p)) /\
    (forall b x, x ∈ ph' b -> ph_slot x ∈ map alloca_val (pre ++ ps)).
Proof.
  induction ps as [|p ps IH]; intros pre ctxs g stats ph Hnd Hdefs Hp Hctx Hcl Hsl; cbn [ofold].
  { exists ph, ctxs, g, stats. rewrite app_nil_r. split_and!; done. }
  assert (Hnin : alloca_val p ∉ map alloca_val pre).
  { rewrite map_app in Hnd. apply list.NoDup_app in Hnd as (_ & Hd & _). intros Hin. apply (Hd _ Hin). left. }
  assert (Hno : forall b, phi_of ph (alloca_val p) b = None).
  { intros b. apply phi_of_None. intros Hin. apply Hnin. apply list_elem_of_fmap in Hin as (x & -> & Hx). by eapply Hsl. }
  destruct (place_phis_spec p g ctxs stats ph Hp Hno) as (ph1 & g1 & arr & stats1 & -> & Hp1 & Ht1 & Hoth & Hslot & Hcl1); [apply Hdefs; left|].
  cbn [obind]. replace (pre ++ p :: ps) with ((pre ++ [p]) ++ ps) in * by (by rewrite <- app_assoc).
  assert (Hsame : forall q, q ∈ pre -> forall b, phi_of ph1 (alloca_val q) b = phi_of ph (alloca_val q) b).
  { intros q Hq b. apply Hoth. intros E. apply Hnin. rewrite <- E. by apply list_elem_of_fmap_2. }
  apply (IH (pre ++ [p]) (ctxs ++ [mkCtx (alloca_val p) [] arr]) g1 stats1 ph1); [done| |done| | |].
  - intros q Hq. apply Hdefs. by right.
  - apply Forall2_app; [|constructor; [done|constructor]]. apply Forall2_same_length_lookup in Hctx as [Hlen Hctx].
    apply Forall2_same_length_lookup. split; [done|]. intros i q c Hq Hc. destruct (Hctx i q c Hq Hc) as (E1 & E2 & E3).
    split_and!; [done..|]. eapply table_ext; [|exact E3]. intros b.
    symmetry. apply Hsame. by eapply list_elem_of_lookup_2.
  - intros q [Hq|Hq]%elem_of_app; [|by apply list_elem_of_singleton in Hq as ->].
    eapply closed_phis_ext; [by apply Hsame|by apply Hcl].
  - intros b x Hx. rewrite map_app, elem_of_app. apply Hslot in Hx as [Hx|Hx]; [left; by eapply Hsl|]. right. rewrite Hx. left.
Qed.

(** ** The undefined values in front of the entry *)

Definition undef_inst (x : PhiRec) : MirInst := mkInst UNDEF (ph_val x) (ph_ty x) 0 0.

Context (e : nat) (He : e ∈ block_list h).

(** [g] is [h] with the phis [ph] and the undefined values [und]. *)
Record started (ph : phi_map) (und : list PhiRec) (g : MirFunction) : Prop := {
  sd_skel : same_skel h g;
  sd_code : forall b, b ∈ block_list h -> inst_list g b =
    (if decide (b = e) then map undef_inst und else []) ++ map (phi_inst []) (ph b) ++ inst_list h b;
  sd_mono : (next_value_id h <= next_value_id g)%N;
  sd_range : forall x, x ∈ und \/ (exists b, x ∈ ph b) -> (next_value_id h <= ph_val x < next_value_id g)%N;
  sd_inj : forall b c x y, x ∈ ph b -> y ∈ ph c -> ph_val x = ph_val y -> b = c /\ x = y;
  sd_undef : forall b x y, x ∈ und -> y ∈ ph b -> ph_val x <> ph_val y;
  sd_nodup : forall b, NoDup (map ph_slot (ph b))
}.

Lemma placed_started ph g : placed h ph g -> started ph [] g.
Proof.
  intros Hp. split; try apply Hp.
  - intros b Hb. destruct (decide (b = e)); by apply (pl_code _ _ _ Hp).
  - intros x [Hx|[b Hx]]; [by apply not_elem_of_nil in Hx|by eapply (pl_range _ _ _ Hp)].
  - intros b x y Hx. by apply not_elem_of_nil in Hx.
Qed.

Lemma add_undef_started ph und g p g' v : started ph und g -> add_undef e p g = (g', v) ->
  started ph (mkPhi (alloca_val p) v (alloc_type p) :: und) g'.
Proof.
  intros Hs. unfold add_undef. destruct (new_value_next g (alloc_type p)) as (Hn & Hv & Hsk & Hat).
  destruct (mir_function_new_value g (alloc_type p)) as [g1 v1]. simpl in *. intros [= <- <-]. subst v1.
  pose proof (sd_mono _ _ _ Hs) as Hmono.
  split; try apply Hs.
  - etransitivity; [apply Hs|]. etransitivity; [exact Hsk|]. by apply same_skel_upd.
  - intros b Hb. rewrite inst_list_upd. pose proof (sd_code _ _ _ Hs b Hb) as Hc. destruct (decide (b = e)) as [->|].
    + rewrite Hat. unfold inst_list at 1 in Hc. destruct (block_at g e) as [blk|] eqn:Hblk; simpl in *; [by rewrite Hc|].
      apply list_elem_of_lookup in Hb as [i Hi]. destruct (Hids i e Hi) as (blk & Hb' & _).
      destruct (same_skel_at h g e blk (sd_skel _ _ _ Hs) Hb') as (? & ? & _). congruence.
    + unfold inst_list. rewrite Hat. exact Hc.
  - simpl. lia.
  - simpl. rewrite Hn. intros x [[->|Hx]%elem_of_cons|Hx]; simpl; [lia| |]; pose proof (sd_range _ _ _ Hs x ltac:(auto)); lia.
  - intros b x y [->|Hx]%elem_of_cons Hy; [|by eapply (sd_undef _ _ _ Hs)]. simpl.
    pose proof (sd_range _ _ _ Hs y ltac:(eauto)). lia.
Qed.

(** The first value of a stack. *)
Definition first_val (und : list PhiRec) (c : AllocaRenameCtx) : Prop :=
  exists v ty, rc_stack c = [v] /\ mkPhi (rc_alloca c) v ty ∈ und.

Lemma add_undefs_spec ph ps : forall ctxs und g, started ph und g -> Forall2 (ctx_ok ph) ps ctxs ->
  exists g' ctxs' und', add_undefs e ps ctxs g = (g', ctxs') /\ started ph und' g' /\ und ⊆ und' /\
    Forall2 (fun p c => rc_alloca c = alloca_val p /\ first_val und' c /\ table (block_list h) (rc_phis c) (phi_of ph (alloca_val p))) ps ctxs'.
Proof.
  induction ps as [|p ps IH]; intros ctxs und g Hs Hc; inversion Hc as [|? c ? cs (E1 & E2 & E3) Hcs]; subst; cbn [add_undefs].
  { exists g, [], und. split_and!; [done..|constructor]. }
  destruct (add_undef e p g) as [g1 v] eqn:Hadd.
  destruct (IH cs _ g1 (add_undef_started _ _ _ _ _ _ Hs Hadd) Hcs) as (g2 & ctxs2 & und2 & -> & Hs2 & Hsub & Hf2).
  exists g2, (vs_push v c :: ctxs2), und2. split_and!; [done|done|set_solver|]. constructor; [|done]. simpl.
  split_and!; [done| |done]. exists v, (alloc_type p). simpl. rewrite E1, E2. split; [done|]. apply Hsub. left.
Qed.

End all_slots.
