(* ===== verification/Renaming.v ===== *)
(** * The renaming walk

    Behind the insertion of phis the code of every block is the original one,
    part of it already renamed.  The walk over the dominator tree leaves each
    load replaced by the reaching value of its slot, each phi with one edge per
    predecessor that carries the value reaching from there, and no access to a
    slot. *)
From S2P Require Import Worklist.
From S2P Require Import Prelude MirCore MirGraph MirOpt Dominators DomFacts DomFrontier MirBuilder Mem2Reg SlotForm PhiInsert.

Definition is_load (k : MirInstKind) : bool := match k with LOAD _ => true | _ => false end.
(** The values that loads define. *)
Definition loads (f : MirFunction) : list MirValueId := map result (filter (fun i => is_load (as_ i) = true) (all_insts f)).

(** A substitution, on the values it does not mention the identity. *)
Definition app (s : gmap MirValueId MirValueId) (v : MirValueId) : MirValueId := default v (s !! v).

(** The reaching values behind the phis of [b]. *)
Definition enter (ph : phi_map) (b : nat) (R : MirValueId -> MirValueId) (a : MirValueId) : MirValueId :=
  default (R a) (phi_of ph a b).

Definition edge_map := nat -> MirValueId -> list (blockptr * MirValueId).

(** ** Lists *)

Lemma delete_imap {A} (g : A -> A) (k : nat) (l : list A) (skip : nat -> bool) :
  (forall j, skip j = true -> j = k) -> delete k (imap (fun j x => if skip j then x else g x) l) = delete k (map g l).
Proof.
  intros Hs. apply list_eq. intros i. destruct (decide (i < k)%nat).
  - rewrite !list_lookup_delete_lt by done. rewrite list_lookup_imap, list_lookup_fmap.
    destruct (l !! i); simpl; [|done]. destruct (skip i) eqn:E; [apply Hs in E; lia|done].
  - rewrite !list_lookup_delete_ge by lia. rewrite list_lookup_imap, list_lookup_fmap.
    destruct (l !! S i); simpl; [|done]. destruct (skip (S i)) eqn:E; [apply Hs in E; lia|done].
Qed.

Lemma imap_map {A B} (g : A -> B) (l : list A) : imap (fun _ x => g x) l = map g l.
Proof. apply list_eq. intros i. by rewrite list_lookup_imap, list_lookup_fmap. Qed.

Lemma omap_take_S {A B} (g : A -> option B) l i x : l !! i = Some x ->
  omap g (take (S i) l) = omap g (take i l) ++ (match g x with Some y => [y] | None => [] end).
Proof.
  intros Hx. rewrite (take_S_r _ _ _ Hx), omap_app. done.
Qed.

Lemma map_drop {A B} (g : A -> B) l i : map g (drop i l) = drop i (map g l).
Proof. apply fmap_drop. Qed.

Lemma delete_middle {A} (l1 l2 : list A) x k : k = length l1 -> delete k (l1 ++ x :: l2) = l1 ++ l2.
Proof. intros ->. induction l1; simpl; [done|]. by f_equal. Qed.

Lemma inst_list_replace b k old new g c : NoDup (block_list g) -> c ∈ block_list g ->
  inst_list (replace_uses_but b k old new g) c =
  imap (fun j x => if bool_decide (c = b /\ j = k) then x else replace_use old new x) (inst_list g c).
Proof.
  intros Hnd Hc. unfold replace_uses_but.
  assert (H : forall l g0, NoDup l -> inst_list (fold_left (fun f c => upd_block f c (map_insts
      (imap (fun j x => if bool_decide (c = b /\ j = k) then x else replace_use old new x)))) l g0) c =
      if decide (c ∈ l) then imap (fun j x => if bool_decide (c = b /\ j = k) then x else replace_use old new x) (inst_list g0 c)
      else inst_list g0 c).
  { intros l. induction l as [|d l IH]; intros g0 Hl; cbn [fold_left]; [by rewrite decide_False by apply not_elem_of_nil|].
    apply list.NoDup_cons in Hl as [Hd Hl]. rewrite IH by done. rewrite inst_list_upd. destruct (decide (c = d)) as [->|Hne].
    - rewrite decide_False by done. rewrite decide_True by left. unfold inst_list. by destruct (block_at g0 d).
    - destruct (decide (c ∈ l)); [rewrite decide_True by (by right); done|]. rewrite decide_False; [done|].
      by intros [?|?]%elem_of_cons. }
  rewrite H by done. by rewrite decide_True.
Qed.

Lemma replace_skel b k old new g : same_skel g (replace_uses_but b k old new g).
Proof.
  unfold replace_uses_but. generalize (block_list g) at 1. intros l. revert g. induction l as [|d l IH]; intros g; cbn [fold_left]; [done|].
  etransitivity; [|apply IH]. by apply same_skel_upd.
Qed.

Lemma inst_list_remove b k g c : inst_list (remove_inst g b k) c = if decide (c = b) then delete k (inst_list g c) else inst_list g c.
Proof.
  unfold remove_inst. rewrite inst_list_upd. destruct (decide (c = b)) as [->|]; [|done]. unfold inst_list.
  by destruct (block_at g b).
Qed.

(** ** Substitutions *)

Lemma kept_shape s i : match as_ i with LOAD _ | STORE _ _ => False | _ => True end -> kept s i = Some (map_operands s i).
Proof. unfold kept. by destruct (as_ i). Qed.

Section subst.
Context (f : MirFunction).

(** A load of [f] is mapped once it has been visited; images are no loads. *)
Definition subst_ok (s : gmap MirValueId MirValueId) : Prop :=
  forall l v, s !! l = Some v -> l ∈ loads f /\ v ∉ loads f.

Definition resolved (s : gmap MirValueId MirValueId) (v : MirValueId) : Prop := v ∈ loads f -> v ∈ dom s.

Lemma app_image s v : subst_ok s -> resolved s v -> app s v ∉ loads f.
Proof.
  intros Hs Hr. unfold app. destruct (s !! v) as [w|] eqn:E; [by apply (Hs v)|]. simpl.
  intros Hv. apply Hr, elem_of_dom in Hv. rewrite E in Hv. by destruct Hv.
Qed.

Lemma app_stable s s' v : subst_ok s' -> s ⊆ s' -> resolved s v -> app s v = app s' v.
Proof.
  intros Hs Hsub Hr. unfold app. destruct (s !! v) as [w|] eqn:E.
  - by rewrite (lookup_weaken _ _ _ _ E Hsub).
  - destruct (s' !! v) as [w|] eqn:E'; [|done]. exfalso. apply Hs in E' as [Hl _]. apply Hr, elem_of_dom in Hl.
    rewrite E in Hl. by destruct Hl.
Qed.

Lemma app_other s v : subst_ok s -> v ∉ loads f -> app s v = v.
Proof. intros Hs Hv. unfold app. destruct (s !! v) as [w|] eqn:E; [|done]. by apply Hs in E as [? _]. Qed.

Lemma replace_app s l r v : subst_ok s -> s !! l = None -> l ∈ loads f ->
  (if (app s v =? l)%N then r else app s v) = app (<[l := r]> s) v.
Proof.
  intros Hs Hl Hin. unfold app. destruct (decide (v = l)) as [->|Hne].
  - rewrite Hl, lookup_insert_eq. simpl. by rewrite N.eqb_refl.
  - rewrite lookup_insert_ne by done. destruct (s !! v) as [w|] eqn:E; simpl.
    + apply Hs in E as [_ Hw]. destruct (N.eqb_spec w l) as [->|]; [done|done].
    + by destruct (N.eqb_spec v l).
Qed.

Lemma replace_operands s l r i : subst_ok s -> s !! l = None -> l ∈ loads f ->
  replace_use l r (map_operands (app s) i) = map_operands (app (<[l := r]> s)) i.
Proof.
  intros Hs Hl Hin. unfold replace_use. rewrite map_operands_comp. apply map_operands_ext. intros v _.
  by apply replace_app.
Qed.

Lemma replace_kept s l r code : subst_ok s -> s !! l = None -> l ∈ loads f ->
  map (replace_use l r) (omap (kept (app s)) code) = omap (kept (app (<[l := r]> s))) code.
Proof.
  intros Hs Hl Hin. induction code as [|i code IH]; simpl; [done|].
  assert (Hk : kept (app (<[l := r]> s)) i = replace_use l r <$> kept (app s) i).
  { unfold kept. destruct (as_ i); simpl; try done; by rewrite (replace_operands s). }
  rewrite Hk. destruct (kept (app s) i); simpl; [f_equal|]; exact IH.
Qed.
End subst.

(** ** The state of the walk *)

Section walk.
Context (tc : list MirType) (f : MirFunction) (e : nat) (Hf : slot_form tc f e).
Context (h : MirFunction) (Htree : dominator_tree f e h).
Context (ph : phi_map) (und : list PhiRec) (g0 : MirFunction) (Hst : started h e ph und g0).
Context (Hslots : forall b x, x ∈ ph b -> ph_slot x ∈ slots f).

Abbreviation bl := (block_list f).

Lemma h_list : block_list h = bl.
Proof. apply same_code_list, (dt_code _ _ _ Htree). Qed.

Lemma h_block b blk : block_at f b = Some blk -> exists blk', block_at h b = Some blk' /\
  id blk' = id blk /\ insts blk' = insts blk /\ successors blk' = successors blk.
Proof.
  intros Hb. destruct (same_code_at f h b blk (dt_code _ _ _ Htree) Hb) as (blk' & Hb' & E).
  exists blk'. apply bare_fields in E as (? & ? & ? & ?). done.
Qed.

Lemma h_insts b : b ∈ bl -> inst_list h b = inst_list f b.
Proof.
  intros Hb. apply list_elem_of_lookup in Hb as [i Hi]. destruct (cw_ids _ _ (sf_cfg _ _ _ Hf) i b Hi) as (blk & Hblk & _).
  destruct (h_block b blk Hblk) as (blk' & Hblk' & _ & E & _). unfold inst_list. rewrite Hblk, Hblk'. simpl. by rewrite E.
Qed.

Lemma load_at_loads b i x p : inst_at f b i = Some x -> as_ x = LOAD p -> result x ∈ loads f.
Proof.
  intros Hx E. apply list_elem_of_fmap_2, list_elem_of_filter. split; [by rewrite E|]. apply all_insts_at.
  exists b, i. split; [by eapply (inst_at_block tc f e)|done].
Qed.

Lemma loads_at v : v ∈ loads f -> exists b i x p, inst_at f b i = Some x /\ as_ x = LOAD p /\ result x = v.
Proof.
  intros Hv. apply list_elem_of_fmap in Hv as (x & -> & [Hx (b & i & _ & Hi)%all_insts_at]%list_elem_of_filter).
  destruct (as_ x) eqn:E; try done. by exists b, i, x, ptr.
Qed.

Lemma load_bound v : v ∈ loads f -> (v < next_value_id f)%N.
Proof.
  intros (b & i & x & p & Hx & E & <-)%loads_at. apply (value_bound tc f e Hf), (result_value tc f e Hf b i); [done|].
  by eapply (load_value tc f e).
Qed.

Lemma slot_no_load a : a ∈ slots f -> a ∉ loads f.
Proof.
  intros (b & i & x & Hx & Ha & <-)%(slot_def tc f e Hf) (c & j & y & p & Hy & E & Heq)%loads_at.
  destruct (def_unique tc f e Hf b i c j x y Hx Hy) as [-> ->]; [done|by eapply alloca_value|].
  assert (x = y) as -> by congruence. by rewrite E in Ha.
Qed.

Lemma none_no_load : MIR_VALUE_NONE ∉ loads f.
Proof. intros (b & i & x & p & Hx & E & Heq)%loads_at. by apply (load_value tc f e Hf b i x p Hx E). Qed.

Lemma param_no_load v : v ∈ map p_value_id (params f) -> v ∉ loads f.
Proof. intros Hv (b & i & x & p & Hx & E & Heq)%loads_at. by apply (param_no_result tc f e Hf v b i x Hv Hx). Qed.

Lemma next_h : next_value_id h = next_value_id f.
Proof. pose proof (proj2 (dt_code _ _ _ Htree)) as H. by apply (f_equal next_value_id) in H. Qed.

Lemma new_no_load x : x ∈ und \/ (exists b, x ∈ ph b) -> ph_val x ∉ loads f.
Proof. intros Hx Hin%load_bound. pose proof (sd_range _ _ _ _ _ Hst x Hx) as Hr. rewrite next_h in Hr. lia. Qed.

(** What stands in front of the code of a block. *)
Definition head_of (E : edge_map) (b : nat) : list MirInst :=
  (if decide (b = e) then map undef_inst und else []) ++ map (fun x => phi_inst (E b (ph_slot x)) x) (ph b).

(** The code, the first [n] instructions of which are renamed. *)
Definition code_of (s : gmap MirValueId MirValueId) (n : nat) (l : list MirInst) : list MirInst :=
  omap (kept (app s)) (take n l) ++ map (map_operands (app s)) (drop n l).

Record renames (cnt : nat -> nat) (s : gmap MirValueId MirValueId) (E : edge_map) (g : MirFunction) : Prop := {
  rn_skel : same_skel h g;
  rn_next : next_value_id g = next_value_id g0;
  rn_code : forall b, b ∈ bl -> inst_list g b = head_of E b ++ code_of s (cnt b) (inst_list f b);
  rn_subst : subst_ok f s;
  rn_dom : forall v, v ∈ dom s -> exists c j x p, inst_at f c j = Some x /\ as_ x = LOAD p /\ result x = v /\ (j < cnt c)%nat;
  rn_edges : forall b a ed, ed ∈ E b a -> ed.2 ∉ loads f
}.

Definition upd_cnt (b n : nat) (cnt : nat -> nat) : nat -> nat := fun c => if decide (c = b) then n else cnt c.

Lemma kept_head_replace E b l r : (forall b a ed, ed ∈ E b a -> ed.2 ∉ loads f) -> l ∈ loads f ->
  map (replace_use l r) (head_of E b) = head_of E b.
Proof.
  intros HE Hl. unfold head_of. rewrite map_app. f_equal.
  - destruct (decide (b = e)); [|done]. rewrite map_map. by apply map_ext.
  - rewrite map_map. apply map_ext_in. intros x _. unfold replace_use, map_operands, phi_inst, set_as. simpl. f_equal. f_equal.
    rewrite <- (map_id (E b (ph_slot x))) at 2. apply map_ext_in. intros ed Hed%list_elem_of_In.
    apply HE in Hed. destruct (N.eqb_spec ed.2 l) as [E'|]; [rewrite E' in Hed; done|by destruct ed].
Qed.

(** The instruction in front of which the walk stands. *)
Lemma walk_at cnt s E g b x : renames cnt s E g -> inst_at f b (cnt b) = Some x ->
  inst_list g b = head_of E b ++ omap (kept (app s)) (take (cnt b) (inst_list f b)) ++
    map_operands (app s) x :: map (map_operands (app s)) (drop (S (cnt b)) (inst_list f b)).
Proof.
  intros Hr Hx. rewrite (rn_code _ _ _ _ Hr) by (by eapply (inst_at_block tc f e)). unfold code_of.
  unfold inst_at in Hx. by rewrite (drop_S _ _ _ Hx).
Qed.

Definition walk_pos (E : edge_map) (s : gmap MirValueId MirValueId) (b n : nat) : nat :=
  (length (head_of E b) + length (omap (kept (app s)) (take n (inst_list f b))))%nat.

Lemma walk_inst cnt s E g b x : renames cnt s E g -> inst_at f b (cnt b) = Some x ->
  inst_at g b (walk_pos E s b (cnt b)) = Some (map_operands (app s) x).
Proof.
  intros Hr Hx. unfold inst_at. rewrite (walk_at _ _ _ _ _ _ Hr Hx), app_assoc.
  apply list_lookup_middle. unfold walk_pos. by rewrite length_app.
Qed.

Lemma g_list cnt s E g : renames cnt s E g -> block_list g = bl.
Proof. intros Hr. destruct (same_skel_fields _ _ (rn_skel _ _ _ _ Hr)) as [-> _]. apply h_list. Qed.

(** A load goes, and its uses become [r]. *)
Lemma load_step cnt s E g b x p r : renames cnt s E g -> inst_at f b (cnt b) = Some x -> as_ x = LOAD p -> r ∉ loads f ->
  let k := walk_pos E s b (cnt b) in
  let s' := <[result x := r]> s in
  renames (upd_cnt b (S (cnt b)) cnt) s' E (remove_inst (replace_uses_but b k (result x) r g) b k) /\
  s ⊆ s' /\ walk_pos E s' b (S (cnt b)) = k.
Proof.
  intros Hr Hx Hload Hrl k s'. pose proof (inst_at_block tc f e Hf _ _ _ Hx) as Hb.
  pose proof (load_at_loads _ _ _ _ Hx Hload) as Hl.
  assert (Hnone : s !! result x = None).
  { apply not_elem_of_dom. intros Hd. destruct (rn_dom _ _ _ _ Hr _ Hd) as (c & j & y & q & Hy & _ & Heq & Hj).
    destruct (def_unique tc f e Hf c j b (cnt b) y x Hy Hx Heq) as [-> ->]; [|lia]. rewrite Heq. by eapply (load_value tc f e). }
  pose proof (rn_subst _ _ _ _ Hr) as Hs.
  assert (Hke : map (replace_use (result x) r) (omap (kept (app s)) (take (cnt b) (inst_list f b))) =
                omap (kept (app s')) (take (cnt b) (inst_list f b))) by (by apply (replace_kept f)).
  assert (Htake : omap (kept (app s')) (take (S (cnt b)) (inst_list f b)) = omap (kept (app s')) (take (cnt b) (inst_list f b))).
  { rewrite (omap_take_S _ _ _ x) by exact Hx. unfold kept at 2. by rewrite Hload, app_nil_r. }
  assert (Hmap : forall l, map (replace_use (result x) r) (map (map_operands (app s)) l) = map (map_operands (app s')) l).
  { intros l. rewrite map_map. apply map_ext. intros y. by apply (replace_operands f). }
  split; [|split; [by apply insert_subseteq|]].
  2: { unfold walk_pos, k, walk_pos. rewrite Htake, <- Hke. by rewrite length_map. }
  split.
  - etransitivity; [apply Hr|]. etransitivity; [apply (replace_skel b k (result x) r)|]. by apply same_skel_upd.
  - rewrite <- (rn_next _ _ _ _ Hr). unfold remove_inst, replace_uses_but.
    assert (Hn : forall l g1 F, next_value_id (fold_left (fun f c => upd_block f c (F c)) l g1) = next_value_id g1).
    { intros l. induction l as [|c l IH]; intros g1 F; simpl; [done|]. by rewrite IH. }
    simpl. apply Hn.
  - intros c Hc. rewrite inst_list_remove, inst_list_replace.
    2: { rewrite (g_list _ _ _ _ Hr). apply (ids_nodup f), (sf_cfg _ _ _ Hf). }
    2: { by rewrite (g_list _ _ _ _ Hr). }
    unfold upd_cnt. destruct (decide (c = b)) as [->|Hne].
    + rewrite (delete_imap (replace_use (result x) r) k _ (fun j => bool_decide (b = b /\ j = k))) by (by intros j [_ ?]%bool_decide_eq_true).
      rewrite (walk_at _ _ _ _ _ _ Hr Hx), !map_app. cbn [map].
      rewrite (kept_head_replace E b _ _ (rn_edges _ _ _ _ Hr) Hl), Hke, Hmap, app_assoc, delete_middle.
      * unfold code_of. rewrite Htake. by rewrite <- app_assoc.
      * unfold k, walk_pos. by rewrite length_app, <- Hke, length_map.
    + rewrite (imap_ext _ (fun _ y => replace_use (result x) r y)).
      2: { intros j y _. rewrite bool_decide_eq_false_2; [done|]. tauto. }
      rewrite imap_map, (rn_code _ _ _ _ Hr c Hc).
      rewrite map_app, (kept_head_replace E c _ _ (rn_edges _ _ _ _ Hr) Hl). f_equal. unfold code_of. rewrite map_app, Hmap.
      f_equal. by apply (replace_kept f).
  - intros l v. unfold s'. destruct (decide (l = result x)) as [->|Hne].
    + rewrite lookup_insert_eq. by intros [= <-].
    + rewrite lookup_insert_ne by done. apply Hs.
  - intros v. unfold s'. rewrite dom_insert_L, elem_of_union, elem_of_singleton. intros [->|Hv].
    + exists b, (cnt b), x, p. split_and!; [done..|]. unfold upd_cnt. rewrite decide_True by done. lia.
    + destruct (rn_dom _ _ _ _ Hr v Hv) as (c & j & y & q & Hy & Eq & Heq & Hj). exists c, j, y, q. split_and!; [done..|].
      unfold upd_cnt. destruct (decide (c = b)) as [->|]; lia.
  - apply (rn_edges _ _ _ _ Hr).
Qed.

(** A store goes. *)
Lemma store_step cnt s E g b x p v : renames cnt s E g -> inst_at f b (cnt b) = Some x -> as_ x = STORE p v ->
  let k := walk_pos E s b (cnt b) in
  renames (upd_cnt b (S (cnt b)) cnt) s E (remove_inst g b k) /\ walk_pos E s b (S (cnt b)) = k.
Proof.
  intros Hr Hx Hstore k. pose proof (inst_at_block tc f e Hf _ _ _ Hx) as Hb.
  assert (Htake : omap (kept (app s)) (take (S (cnt b)) (inst_list f b)) = omap (kept (app s)) (take (cnt b) (inst_list f b))).
  { rewrite (omap_take_S _ _ _ x) by exact Hx. unfold kept at 2. by rewrite Hstore, app_nil_r. }
  split; [|unfold walk_pos, k, walk_pos; by rewrite Htake].
  split; try apply Hr.
  - etransitivity; [apply Hr|]. by apply same_skel_upd.
  - intros c Hc. rewrite inst_list_remove. unfold upd_cnt. destruct (decide (c = b)) as [->|Hne]; [|by apply (rn_code _ _ _ _ Hr)].
    rewrite (walk_at _ _ _ _ _ _ Hr Hx), app_assoc, delete_middle by (unfold k, walk_pos; by rewrite length_app).
    unfold code_of. rewrite Htake. by rewrite <- app_assoc.
  - intros w Hw. destruct (rn_dom _ _ _ _ Hr w Hw) as (c & j & y & q & Hy & Eq & Heq & Hj). exists c, j, y, q. split_and!; [done..|].
    unfold upd_cnt. destruct (decide (c = b)) as [->|]; lia.
Qed.

(** Any other instruction stays. *)
Lemma keep_step cnt s E g b x : renames cnt s E g -> inst_at f b (cnt b) = Some x ->
  match as_ x with LOAD _ | STORE _ _ => False | _ => True end ->
  renames (upd_cnt b (S (cnt b)) cnt) s E g /\ walk_pos E s b (S (cnt b)) = S (walk_pos E s b (cnt b)).
Proof.
  intros Hr Hx Hk. pose proof (inst_at_block tc f e Hf _ _ _ Hx) as Hb.
  assert (Htake : omap (kept (app s)) (take (S (cnt b)) (inst_list f b)) =
                  omap (kept (app s)) (take (cnt b) (inst_list f b)) ++ [map_operands (app s) x]).
  { rewrite (omap_take_S _ _ _ x) by exact Hx. by rewrite kept_shape. }
  split; [|unfold walk_pos; rewrite Htake, length_app; simpl; lia].
  split; try apply Hr.
  - intros c Hc. unfold upd_cnt. destruct (decide (c = b)) as [->|Hne]; [|by apply (rn_code _ _ _ _ Hr)].
    rewrite (walk_at _ _ _ _ _ _ Hr Hx). unfold code_of. rewrite Htake. by rewrite <- app_assoc.
  - intros w Hw. destruct (rn_dom _ _ _ _ Hr w Hw) as (c & j & y & q & Hy & Eq & Heq & Hj). exists c, j, y, q. split_and!; [done..|].
    unfold upd_cnt. destruct (decide (c = b)) as [->|]; lia.
Qed.

(** ** The stacks *)

Record ctxs_ok (R : MirValueId -> MirValueId) (ctxs : list AllocaRenameCtx) : Prop := {
  co_slots : map rc_alloca ctxs = slots f;
  co_tops : forall c, c ∈ ctxs -> head (rc_stack c) = Some (R (rc_alloca c));
  co_phis : forall c, c ∈ ctxs -> table bl (rc_phis c) (phi_of ph (rc_alloca c))
}.

(** Values pushed on stacks that are otherwise the same. *)
Definition grown (ctxs ctxs' : list AllocaRenameCtx) : Prop :=
  Forall2 (fun c c' => rc_alloca c' = rc_alloca c /\ rc_phis c' = rc_phis c /\ exists l, rc_stack c' = l ++ rc_stack c) ctxs ctxs'.

#[local] Instance grown_refl : Reflexive grown.
Proof. intros ctxs. apply Forall_Forall2_diag, list.Forall_forall. intros c _. split_and!; [done..|by exists []]. Qed.
#[local] Instance grown_trans : Transitive grown.
Proof.
  intros c1 c2 c3 H12. revert c3. induction H12 as [|x y l k (E1 & E2 & s & E3) _ IH]; intros c3 H23; inversion H23 as [|? z ? m (E4 & E5 & s' & E6) Hm]; subst; constructor; [|by apply IH].
  split_and!; [congruence..|]. exists (s' ++ s). by rewrite E6, E3, app_assoc.
Qed.

Lemma ctx_of_slot R ctxs p : ctxs_ok R ctxs -> p ∈ slots f -> exists a c,
  ctx_of p ctxs = Some a /\ ctxs !! a = Some c /\ rc_alloca c = p.
Proof.
  intros Hc Hp. rewrite <- (co_slots _ _ Hc) in Hp. apply list_elem_of_fmap in Hp as (c & -> & Hin).
  unfold ctx_of. destruct (find_idx _ ctxs) as [a|] eqn:E.
  - apply find_idx_Some in E as (d & Hd & Eq%N.eqb_eq & _). by exists a, d.
  - exfalso. rewrite find_idx_None in E. apply E in Hin. by rewrite N.eqb_refl in Hin.
Qed.

Lemma slot_index ctxs R i j c d : ctxs_ok R ctxs -> ctxs !! i = Some c -> ctxs !! j = Some d -> rc_alloca c = rc_alloca d -> i = j.
Proof.
  intros Hc Hi Hj E. pose proof (slots_nodup tc f e Hf) as Hnd. rewrite <- (co_slots _ _ Hc) in Hnd.
  apply (NoDup_lookup _ i j (rc_alloca c) Hnd); rewrite list_lookup_fmap; [by rewrite Hi|]. rewrite E. by rewrite Hj.
Qed.

Lemma vs_push_ok R ctxs a c v : ctxs_ok R ctxs -> ctxs !! a = Some c ->
  ctxs_ok (fun x => if (x =? rc_alloca c)%N then v else R x) (alter (vs_push v) a ctxs) /\ grown ctxs (alter (vs_push v) a ctxs).
Proof.
  intros Hc Ha.
  assert (Hin : forall d, d ∈ alter (vs_push v) a ctxs -> d = vs_push v c \/ d ∈ ctxs /\ rc_alloca d <> rc_alloca c).
  { intros d [i Hi]%list_elem_of_lookup. destruct (decide (i = a)) as [->|Hne].
    - rewrite list_lookup_alter_eq, Ha in Hi. injection Hi as <-. by left.
    - rewrite list_lookup_alter_ne in Hi by done. right. split; [by eapply list_elem_of_lookup_2|].
      intros E. apply Hne. by eapply slot_index. }
  split; [split|].
  - rewrite <- (co_slots _ _ Hc). apply list_eq. intros i. rewrite !list_lookup_fmap. destruct (decide (i = a)) as [->|Hne].
    + by rewrite list_lookup_alter_eq, Ha.
    + by rewrite list_lookup_alter_ne.
  - intros d [->|[Hd Hn]]%Hin; simpl; [by rewrite N.eqb_refl|]. destruct (N.eqb_spec (rc_alloca d) (rc_alloca c)); [done|].
    by apply (co_tops _ _ Hc).
  - intros d [->|[Hd _]]%Hin; [|by apply (co_phis _ _ Hc)]. simpl. apply (co_phis _ _ Hc). by eapply list_elem_of_lookup_2.
  - apply Forall2_same_length_lookup. split; [by rewrite length_alter|]. intros i x y Hx Hy. destruct (decide (i = a)) as [->|Hne].
    + rewrite list_lookup_alter_eq, Hx in Hy. injection Hy as <-. split_and!; [done..|by exists [v]].
    + rewrite list_lookup_alter_ne in Hy by done. simplify_eq. split_and!; [done..|by exists []].
Qed.

Lemma top_of R ctxs c : ctxs_ok R ctxs -> c ∈ ctxs -> vs_top c = R (rc_alloca c).
Proof. intros Hc Hin. unfold vs_top. by rewrite (co_tops _ _ Hc c Hin). Qed.

(** ** The instructions of a block *)

(** The loads in front of the [i]th instruction of [b] have been replaced. *)
Record behind (s : gmap MirValueId MirValueId) (b i : nat) : Prop := {
  bh_above : forall c j x p, c <> b -> dominates f e c b -> inst_at f c j = Some x -> as_ x = LOAD p -> result x ∈ dom s;
  bh_own : forall j x p, (j < i)%nat -> inst_at f b j = Some x -> as_ x = LOAD p -> result x ∈ dom s
}.

Lemma behind_mono s s' b i j : behind s b i -> s ⊆ s' -> (j <= i)%nat -> behind s' b j.
Proof.
  intros [Ha Ho] Hsub Hj. apply subseteq_dom in Hsub. split; intros *; [intros; apply Hsub; eauto|].
  intros Hlt. intros. apply Hsub. eapply Ho; [|eauto..]. lia.
Qed.

Lemma uses_resolved s b i x v : behind s b i -> inst_at f b i = Some x -> v ∈ inst_uses (as_ x) -> resolved f s v.
Proof.
  intros [Ha Ho] Hx Hv Hl. destruct (sf_strict _ _ _ Hf b i x v Hx Hv) as [->|[Hp|(c & j & (y & Hy & Ey) & Hb)]].
  - by apply none_no_load in Hl.
  - by apply param_no_load in Hl.
  - apply loads_at in Hl as (c' & j' & z & p & Hz & Ez & Eq).
    destruct (def_unique tc f e Hf c' j' c j z y Hz Hy) as [-> ->]; [congruence|by eapply (load_value tc f e)|].
    assert (z = y) as -> by congruence. rewrite <- Ey. destruct Hb as [[-> Hj]|[Hne Hd]]; eauto.
Qed.

(** The reaching values of the first [i] instructions are settled. *)
Lemma after_stable s s' b i R : subst_ok f s' -> s ⊆ s' -> behind s b i ->
  after_all (app s) R (take i (inst_list f b)) = after_all (app s') R (take i (inst_list f b)).
Proof.
  intros Hs Hsub Hb. apply after_all_ext. intros x p v Hx E. apply elem_of_take in Hx as (j & Hx & Hj).
  eapply (app_stable f); [done..|]. apply (uses_resolved s b j x v); [eapply behind_mono; [done..|lia]|done|]. rewrite E. simpl. set_solver.
Qed.

Lemma after_nice s b i R : subst_ok f s -> behind s b i -> (forall a, R a ∉ loads f) ->
  forall a, after_all (app s) R (take i (inst_list f b)) a ∉ loads f.
Proof.
  intros Hs. induction i as [|i IH]; intros Hb HR a; [done|].
  destruct (inst_list f b !! i) as [x|] eqn:Hx.
  - rewrite (take_S_r _ _ _ Hx), after_all_snoc. unfold after. destruct (as_ x) eqn:E; try (apply IH; [eapply behind_mono; [done..|lia]|done]).
    destruct (a =? ptr)%N; [|apply IH; [eapply behind_mono; [done..|lia]|done]].
    apply app_image; [done|]. apply (uses_resolved s b i x value); [eapply behind_mono; [done..|lia]|done|]. rewrite E. simpl. set_solver.
  - rewrite take_ge by (apply lookup_ge_None in Hx; lia). rewrite <- (take_ge (inst_list f b) i) by (by apply lookup_ge_None).
    apply IH; [eapply behind_mono; [done..|lia]|done].
Qed.

Lemma renames_cnt cnt cnt' s E g : (forall c, cnt' c = cnt c) -> renames cnt s E g -> renames cnt' s E g.
Proof.
  intros H []. split; try done.
  - intros c Hc. by rewrite H, rn_code0.
  - intros v Hv. destruct (rn_dom0 v Hv) as (c & j & y & q & ? & ? & ? & ?). exists c, j, y, q. by rewrite H.
Qed.

(** The walk over one instruction: [s1], [g1] and [ctxs1] are what it leaves. *)
Record walked (cnt : nat -> nat) s E g ctxs b R0 (x : MirInst) s1 g1 ctxs1 : Prop := {
  wk_renames : renames (upd_cnt b (S (cnt b)) cnt) s1 E g1;
  wk_subst : s ⊆ s1;
  wk_grown : grown ctxs ctxs1;
  wk_behind : behind s1 b (S (cnt b));
  wk_ctxs : ctxs_ok (after_all (app s1) R0 (take (S (cnt b)) (inst_list f b))) ctxs1;
  wk_load : forall p, as_ x = LOAD p -> app s1 (result x) = after_all (app s1) R0 (take (cnt b) (inst_list f b)) p;
  wk_run : forall n st, exists st', rename_insts (S n) b (walk_pos E s b (cnt b)) (g, ctxs, st) =
    rename_insts n b (walk_pos E s1 b (S (cnt b))) (g1, ctxs1, st')
}.

Section one.
Context (cnt : nat -> nat) (s : gmap MirValueId MirValueId) (E : edge_map) (g : MirFunction) (ctxs : list AllocaRenameCtx).
Context (b : nat) (R0 : MirValueId -> MirValueId) (x : MirInst).
Context (Hr : renames cnt s E g) (Hx : inst_at f b (cnt b) = Some x) (Hbh : behind s b (cnt b)) (HR : forall a, R0 a ∉ loads f).
Context (Hc : ctxs_ok (after_all (app s) R0 (take (cnt b) (inst_list f b))) ctxs).

Lemma behind_no_load s1 : s ⊆ s1 -> (forall p, as_ x = LOAD p -> result x ∈ dom s1) -> behind s1 b (S (cnt b)).
Proof.
  intros Hsub Hl. apply subseteq_dom in Hsub. split; [intros *; intros; apply Hsub; eapply (bh_above _ _ _ Hbh); eauto|].
  intros j y q Hj Hy Hq. destruct (decide (j = cnt b)) as [->|Hne].
  - assert (y = x) as -> by (unfold inst_at in *; congruence). by eapply Hl.
  - apply Hsub. eapply (bh_own _ _ _ Hbh j); [lia|done..].
Qed.

Lemma walk_load p : as_ x = LOAD p -> exists s1 g1, walked cnt s E g ctxs b R0 x s1 g1 ctxs.
Proof.
  intros Hload. pose proof (rn_subst _ _ _ _ Hr) as Hs. destruct (load_value tc f e Hf _ _ _ _ Hx Hload) as [_ Hp].
  assert (Happ : app s p = p) by (apply (app_other f); [done|by apply slot_no_load]).
  destruct (ctx_of_slot _ _ p Hc Hp) as (a & c & Hca & Hac & Hcp).
  set (r := after_all (app s) R0 (take (cnt b) (inst_list f b)) p).
  destruct (load_step cnt s E g b x p r Hr Hx Hload) as (Hr' & Hsub & Hpos); [by apply after_nice|].
  set (s1 := <[result x := r]> s) in *. pose proof (rn_subst _ _ _ _ Hr') as Hs1.
  exists s1, (remove_inst (replace_uses_but b (walk_pos E s b (cnt b)) (result x) r g) b (walk_pos E s b (cnt b))). split; try done.
  - apply behind_no_load; [done|]. intros _ _. unfold s1. rewrite dom_insert_L. set_solver.
  - rewrite (take_S_r _ _ _ Hx), after_all_snoc. unfold after at 1. rewrite Hload. by rewrite <- (after_stable s s1 b (cnt b) R0).
  - intros q Hq. assert (q = p) as -> by congruence. rewrite <- (after_stable s s1 b (cnt b) R0) by done. fold r.
    unfold app, s1. by rewrite lookup_insert_eq.
  - intros n st. exists (count_load st). cbn [rename_insts]. rewrite (walk_inst _ _ _ _ _ _ Hr Hx). cbn [of_option obind].
    unfold map_operands at 1. rewrite Hload. cbn [as_ set_as]. rewrite Happ, Hca, Hac. cbn [of_option obind].
    rewrite (top_of _ _ c Hc) by (by eapply list_elem_of_lookup_2). by rewrite Hcp, Hpos.
Qed.

Lemma walk_store p v : as_ x = STORE p v -> exists g1 ctxs1, walked cnt s E g ctxs b R0 x s g1 ctxs1.
Proof.
  intros Hstore. destruct (store_value tc f e Hf _ _ _ _ _ Hx Hstore) as [Hp _].
  assert (Happ : app s p = p) by (apply (app_other f); [apply Hr|by apply slot_no_load]).
  destruct (ctx_of_slot _ _ p Hc Hp) as (a & c & Hca & Hac & Hcp).
  destruct (store_step cnt s E g b x p v Hr Hx Hstore) as (Hr' & Hpos).
  destruct (vs_push_ok _ _ a c (app s v) Hc Hac) as [Hc' Hgr'].
  exists (remove_inst g b (walk_pos E s b (cnt b))), (alter (vs_push (app s v)) a ctxs). split; try done.
  - apply behind_no_load; [done|]. intros q Hq. congruence.
  - rewrite (take_S_r _ _ _ Hx), after_all_snoc. unfold after at 1. rewrite Hstore. by rewrite Hcp in Hc'.
  - intros q Hq. congruence.
  - intros n st. exists (count_store st). cbn [rename_insts]. rewrite (walk_inst _ _ _ _ _ _ Hr Hx). cbn [of_option obind].
    unfold map_operands at 1. rewrite Hstore. cbn [as_ set_as]. by rewrite Happ, Hca, Hpos.
Qed.

Lemma walk_keep : match as_ x with LOAD _ | STORE _ _ => False | _ => True end -> walked cnt s E g ctxs b R0 x s g ctxs.
Proof.
  intros Hkeep. destruct (keep_step cnt s E g b x Hr Hx Hkeep) as (Hr' & Hpos). split; try done.
  - apply behind_no_load; [done|]. intros q Hq. by rewrite Hq in Hkeep.
  - rewrite (take_S_r _ _ _ Hx), after_all_snoc. unfold after at 1. by destruct (as_ x).
  - intros q Hq. by rewrite Hq in Hkeep.
  - intros n st. exists st. cbn [rename_insts]. rewrite (walk_inst _ _ _ _ _ _ Hr Hx), Hpos. cbn [of_option obind].
    unfold map_operands at 1. by destruct (as_ x) as [| | | | | | | | | | | |[]| | | | | | | | | | | | | | | | | | | | |].
Qed.

Lemma walk_one : exists s1 g1 ctxs1, walked cnt s E g ctxs b R0 x s1 g1 ctxs1.
Proof.
  destruct (as_ x) eqn:Ex; try (exists s, g, ctxs; apply walk_keep; by rewrite Ex).
  - destruct (walk_load _ Ex) as (s1 & g1 & H). by exists s1, g1, ctxs.
  - destruct (walk_store _ _ Ex) as (g1 & ctxs1 & H). by exists s, g1, ctxs1.
Qed.
End one.

Lemma walk_insts n : forall cnt s E g ctxs stats b R0,
  renames cnt s E g -> (cnt b + n = length (inst_list f b))%nat -> behind s b (cnt b) -> (forall a, R0 a ∉ loads f) ->
  ctxs_ok (after_all (app s) R0 (take (cnt b) (inst_list f b))) ctxs ->
  exists s' g' ctxs' stats', rename_insts n b (walk_pos E s b (cnt b)) (g, ctxs, stats) = Ok (g', ctxs', stats') /\
    renames (upd_cnt b (length (inst_list f b)) cnt) s' E g' /\ s ⊆ s' /\ grown ctxs ctxs' /\
    behind s' b (length (inst_list f b)) /\ ctxs_ok (after_all (app s') R0 (inst_list f b)) ctxs' /\
    (forall i x p, (cnt b <= i)%nat -> inst_at f b i = Some x -> as_ x = LOAD p -> result x ∈ dom s' /\
       app s' (result x) = after_all (app s') R0 (take i (inst_list f b)) p).
Proof.
  induction n as [|n IH]; intros cnt s E g ctxs stats b R0 Hr Hlen Hbh HR Hc.
  { rewrite Nat.add_0_r in Hlen. exists s, g, ctxs, stats. rewrite <- Hlen. split_and!; try done.
    - eapply renames_cnt; [|done]. intros c. unfold upd_cnt. by destruct (decide (c = b)) as [->|].
    - rewrite take_ge in Hc by lia. done.
    - intros i x p Hi Hx%lookup_lt_Some. lia. }
  destruct (lookup_lt_is_Some_2 (inst_list f b) (cnt b)) as [x Hx]; [lia|].
  destruct (walk_one cnt s E g ctxs b R0 x Hr Hx Hbh HR Hc) as (s1 & g1 & ctxs1 & [W1 W2 W3 W4 W5 W6 W7]).
  assert (Hupd : upd_cnt b (S (cnt b)) cnt b = S (cnt b)) by (unfold upd_cnt; by rewrite decide_True).
  destruct (W7 n stats) as [st1 ->].
  destruct (IH _ s1 E g1 ctxs1 st1 b R0 W1) as (s2 & g2 & ctxs2 & st2 & Hrun & Hr2 & Hsub2 & Hgr & Hbh2 & Hc2 & Hl2);
    rewrite ?Hupd in *; [lia|done..|].
  exists s2, g2, ctxs2, st2. split_and!; [done| |by etransitivity|by etransitivity|done..|].
  - eapply renames_cnt; [|done]. intros c. unfold upd_cnt. by destruct (decide (c = b)).
  - intros i y q Hi Hy Hq. split; [eapply (bh_own _ _ _ Hbh2 i); [by apply lookup_lt_Some in Hy|done..]|].
    destruct (decide (i = cnt b)) as [->|Hne]; [|eapply Hl2; [lia|done..]].
    assert (y = x) as -> by (unfold inst_at in Hy; congruence).
    rewrite <- (after_stable s1 s2 b (cnt b) R0); [|apply Hr2|done|eapply behind_mono; [exact W4|done|lia]].
    rewrite <- (W6 q Hq). symmetry. apply (app_stable f); [apply Hr2|done|]. intros _. eapply (bh_own _ _ _ W4 (cnt b)); [lia|done..].
Qed.

(** ** The fronts of the blocks *)

Lemma skip_insts m : forall n b i g ctxs st,
  (forall j, (j < m)%nat -> exists x, inst_at g b (i + j) = Some x /\ match as_ x with LOAD _ | STORE _ _ => False | _ => True end) ->
  rename_insts (m + n) b i (g, ctxs, st) = rename_insts n b (i + m) (g, ctxs, st).
Proof.
  induction m as [|m IH]; intros n b i g ctxs st H; [by rewrite Nat.add_0_r|].
  cbn [Nat.add rename_insts]. destruct (H 0%nat) as (x & Hx & Hk); [lia|]. rewrite Nat.add_0_r in Hx. rewrite Hx. cbn [of_option obind].
  assert (Hgo : rename_insts (m + n) b (S i) (g, ctxs, st) = rename_insts n b (i + S m) (g, ctxs, st)).
  { rewrite IH; [f_equal; lia|]. intros j Hj. rewrite Nat.add_succ_l, <- Nat.add_succ_r. apply H. lia. }
  by destruct (as_ x).
Qed.

Lemma head_plain E b x : x ∈ head_of E b -> match as_ x with LOAD _ | STORE _ _ => False | _ => True end.
Proof.
  unfold head_of. intros [Hx|Hx]%elem_of_app.
  - destruct (decide (b = e)); [|by apply not_elem_of_nil in Hx]. by apply list_elem_of_fmap in Hx as (y & -> & _).
  - by apply list_elem_of_fmap in Hx as (y & -> & _).
Qed.

(** The walk over a whole block. *)
Lemma walk_block cnt s E g ctxs stats b blk R0 : renames cnt s E g -> b ∈ bl -> block_at g b = Some blk -> cnt b = 0%nat ->
  behind s b 0 -> (forall a, R0 a ∉ loads f) -> ctxs_ok R0 ctxs ->
  exists s' g' ctxs' stats', rename_insts (length (insts blk)) b 0 (g, ctxs, stats) = Ok (g', ctxs', stats') /\
    renames (upd_cnt b (length (inst_list f b)) cnt) s' E g' /\ s ⊆ s' /\ grown ctxs ctxs' /\
    behind s' b (length (inst_list f b)) /\ ctxs_ok (after_all (app s') R0 (inst_list f b)) ctxs' /\
    (forall i x p, inst_at f b i = Some x -> as_ x = LOAD p -> app s' (result x) = after_all (app s') R0 (take i (inst_list f b)) p).
Proof.
  intros Hr Hb Hblk H0 Hbh HR Hc. pose proof (rn_code _ _ _ _ Hr b Hb) as Hcode. unfold inst_list at 1 in Hcode.
  rewrite Hblk in Hcode. simpl in Hcode. rewrite Hcode, H0. unfold code_of. cbn [take omap list_omap drop].
  rewrite app_nil_l, length_app, length_map, drop_0.
  rewrite (skip_insts (length (head_of E b)) (length (inst_list f b)) b 0 g ctxs stats).
  - destruct (walk_insts (length (inst_list f b)) cnt s E g ctxs stats b R0 Hr) as (s' & g' & ctxs' & st' & Hrun & H1 & H2 & H3 & H4 & H5 & H6);
      rewrite ?H0; try done.
    unfold walk_pos in Hrun. rewrite H0 in Hrun. cbn [take omap list_omap length] in Hrun. rewrite Nat.add_0_r in Hrun.
    exists s', g', ctxs', st'. split_and!; try done. intros i x p Hx Hp. eapply H6; [lia|done..].
  - intros j Hj. destruct (lookup_lt_is_Some_2 (head_of E b) j Hj) as [x Hx]. exists x. split; [|by eapply head_plain, list_elem_of_lookup_2].
    unfold inst_at, inst_list. rewrite Hblk. simpl. rewrite Hcode. by apply lookup_app_l_Some.
Qed.

Lemma enter_nice b R : (forall a, R a ∉ loads f) -> forall a, enter ph b R a ∉ loads f.
Proof.
  intros HR a. unfold enter. destruct (phi_of ph a b) as [v|] eqn:Ev; [|apply HR]. simpl.
  apply phi_of_Some in Ev as (x & Hx & _ & <-). apply new_no_load. right. by exists b.
Qed.

Lemma push_phis_ok R ctxs i b : ctxs_ok R ctxs -> bl !! i = Some b ->
  ctxs_ok (enter ph b R) (map (push_phi (Z.of_nat i)) ctxs) /\ grown ctxs (map (push_phi (Z.of_nat i)) ctxs).
Proof.
  intros Hc Hi.
  assert (Hat : forall c, c ∈ ctxs -> phi_at (Z.of_nat i) c = phi_of ph (rc_alloca c) b).
  { intros c Hin. unfold phi_at. rewrite Nat2Z.id, (proj2 (co_phis _ _ Hc c Hin) i b Hi). done. }
  assert (Hal : forall c, rc_alloca (push_phi (Z.of_nat i) c) = rc_alloca c /\ rc_phis (push_phi (Z.of_nat i) c) = rc_phis c).
  { intros c. unfold push_phi. by destruct (phi_at _ c). }
  split; [split|].
  - rewrite map_map, <- (co_slots _ _ Hc). apply map_ext. intros c. apply Hal.
  - intros c (d & -> & Hd)%list_elem_of_fmap. rewrite (proj1 (Hal d)). unfold push_phi, enter. rewrite (Hat d Hd).
    destruct (phi_of ph (rc_alloca d) b); [done|]. by apply (co_tops _ _ Hc).
  - intros c (d & -> & Hd)%list_elem_of_fmap. destruct (Hal d) as [-> ->]. by apply (co_phis _ _ Hc).
  - apply Forall2_same_length_lookup. split; [by rewrite length_map|]. intros j x y Hx Hy.
    rewrite list_lookup_fmap, Hx in Hy. injection Hy as <-. split; [apply Hal|]. split; [apply Hal|]. unfold push_phi.
    destruct (phi_at _ x) as [v|]; [by exists [v]|by exists []].
Qed.

(** ** The edges of the phis *)

Lemma alter_middle {A} (F : A -> A) (l1 l2 : list A) x k : k = length l1 -> alter F k (l1 ++ x :: l2) = l1 ++ F x :: l2.
Proof. intros ->. induction l1; simpl; [done|]. by f_equal. Qed.

Definition add_edge_to (b : nat) (a : MirValueId) (ed : blockptr * MirValueId) (E : edge_map) : edge_map :=
  fun c a' => if decide (c = b /\ a' = a) then E c a' ++ [ed] else E c a'.

Lemma code_no_phi s n b x : b ∈ bl -> x ∈ code_of s n (inst_list f b) -> is_phi (as_ x) = false.
Proof.
  intros Hb Hx. assert (Hy : exists y, y ∈ inst_list f b /\ x = map_operands (app s) y).
  { unfold code_of in Hx. apply elem_of_app in Hx as [Hx|Hx].
    - apply list_elem_of_omap in Hx as (y & Hy & Hk). exists y. apply elem_of_take in Hy as (j & Hy & _).
      split; [by eapply list_elem_of_lookup_2|]. unfold kept in Hk. by destruct (as_ y); simplify_eq.
    - apply list_elem_of_fmap in Hx as (y & -> & Hy). exists y. split; [|done]. by eapply subseteq_drop. }
  destruct Hy as (y & [j Hj]%list_elem_of_lookup & ->). pose proof (inst_at_slot tc f e Hf b j y Hj) as Hk.
  unfold slot_inst, slot_kind in Hk. unfold map_operands. destruct (as_ y) as [| | | | | | | | | | | |[]| | | | | | | | | | | | | | | | | | | | |]; done.
Qed.

Lemma add_phi_edge_spec cnt s E g b x bb val : renames cnt s E g -> b ∈ bl -> x ∈ ph b -> val ∉ loads f ->
  exists g', add_phi_edge b (ph_val x) bb val g = Ok g' /\ renames cnt s (add_edge_to b (ph_slot x) (Some bb, val) E) g'.
Proof.
  intros Hr Hb Hx Hval. pose proof (rn_code _ _ _ _ Hr b Hb) as Hcode. unfold add_phi_edge.
  set (U := if decide (b = e) then map undef_inst und else []) in *.
  assert (HE : head_of E b = U ++ map (fun x => phi_inst (E b (ph_slot x)) x) (ph b)) by done.
  apply list_elem_of_lookup in Hx as [k Hk].
  destruct (find_idx _ (inst_list g b)) as [j|] eqn:Hfind.
  2: { exfalso. rewrite find_idx_None in Hfind. specialize (Hfind (phi_inst (E b (ph_slot x)) x)).
       simpl in Hfind. rewrite N.eqb_refl in Hfind. discriminate Hfind. rewrite Hcode, HE. apply elem_of_app. left. apply elem_of_app. right.
       apply list_elem_of_fmap. exists x. split; [done|]. by eapply list_elem_of_lookup_2. }
  apply find_idx_Some in Hfind as (z & Hz & [Hphi Hres%N.eqb_eq]%andb_true_iff & _).
  assert (Hj : j = (length U + k)%nat).
  { rewrite Hcode, HE, <- app_assoc in Hz. apply lookup_app_Some in Hz as [Hz|[Hge Hz]].
    - exfalso. unfold U in Hz. destruct (decide (b = e)); [|done]. apply list_elem_of_lookup_2, list_elem_of_fmap in Hz as (y & -> & _). done.
    - apply lookup_app_Some in Hz as [Hz|[_ Hz]].
      + rewrite list_lookup_fmap in Hz. apply fmap_Some in Hz as (y & Hy & ->). simpl in Hres.
        destruct (sd_inj _ _ _ _ _ Hst b b y x) as [_ ->]; [by eapply list_elem_of_lookup_2|by eapply list_elem_of_lookup_2|done|].
        pose proof (sd_nodup _ _ _ _ _ Hst b) as Hnd. apply NoDup_fmap_1 in Hnd. pose proof (NoDup_lookup _ _ _ _ Hnd Hy Hk). lia.
      + apply list_elem_of_lookup_2, code_no_phi in Hz; [|done]. congruence. }
  assert (Hsplit : inst_list g b = (U ++ map (fun x => phi_inst (E b (ph_slot x)) x) (take k (ph b))) ++ phi_inst (E b (ph_slot x)) x ::
    map (fun x => phi_inst (E b (ph_slot x)) x) (drop (S k) (ph b)) ++ code_of s (cnt b) (inst_list f b)).
  { rewrite Hcode, HE. rewrite <- (take_drop_middle _ _ _ Hk) at 1. rewrite map_app. cbn [map]. by rewrite <- !app_assoc. }
  assert (Hlen : j = length (U ++ map (fun x => phi_inst (E b (ph_slot x)) x) (take k (ph b)))).
  { rewrite length_app, length_map, length_take. apply lookup_lt_Some in Hk. lia. }
  cbn [of_option obind]. unfold inst_at. rewrite Hsplit, list_lookup_middle by done. cbn [of_option obind mir_phi_add_edge phi_inst as_].
  eexists. split; [reflexivity|]. split; try apply Hr.
  - etransitivity; [apply Hr|]. by apply same_skel_upd.
  - intros c Hc. unfold upd_inst. rewrite inst_list_upd. destruct (decide (c = b)) as [->|Hne].
    + destruct (block_at g b) as [blk|] eqn:Hblk.
      2: { unfold inst_list in Hz. by rewrite Hblk in Hz. }
      assert (Hi : insts blk = inst_list g b) by (unfold inst_list; by rewrite Hblk).
      simpl. rewrite Hi, Hsplit, alter_middle by done. unfold head_of. fold U.
      rewrite <- (take_drop_middle _ _ _ Hk) at 3. rewrite map_app. cbn [map]. rewrite <- !app_assoc. f_equal.
      assert (Hoth : forall y, y ∈ take k (ph b) \/ y ∈ drop (S k) (ph b) -> add_edge_to b (ph_slot x) (Some bb, val) E b (ph_slot y) = E b (ph_slot y)).
      { intros y Hy. unfold add_edge_to. rewrite decide_False; [done|]. intros [_ Hs].
        pose proof (sd_nodup _ _ _ _ _ Hst b) as Hnd. rewrite <- (take_drop_middle _ _ _ Hk), map_app in Hnd. cbn [map] in Hnd.
        apply list.NoDup_app in Hnd as (_ & Hd1 & Hd2). apply list.NoDup_cons in Hd2 as [Hd2 _]. destruct Hy as [Hy|Hy].
        - apply (Hd1 (ph_slot y)); [by apply list_elem_of_fmap_2|rewrite Hs; left].
        - apply Hd2. rewrite <- Hs. by apply list_elem_of_fmap_2. }
      f_equal; [apply map_ext_in; intros y Hy%list_elem_of_In; f_equal; symmetry; apply Hoth; by left|].
      cbn [List.app]. f_equal; [unfold add_edge_to; by rewrite decide_True|].
      f_equal. apply map_ext_in. intros y Hy%list_elem_of_In. f_equal. symmetry. apply Hoth. by right.
    + rewrite (rn_code _ _ _ _ Hr c Hc). f_equal. unfold head_of. f_equal. apply map_ext. intros y. f_equal. unfold add_edge_to.
      rewrite decide_False; [done|]. tauto.
  - intros c a ed. unfold add_edge_to. destruct (decide (c = b /\ a = ph_slot x)); [|apply (rn_edges _ _ _ _ Hr)].
    intros Hed. apply elem_of_app in Hed as [Hed|Hed]; [by eapply (rn_edges _ _ _ _ Hr)|]. apply list_elem_of_singleton in Hed. by subst.
Qed.

(** Edges from [b] with the values [R], at least one where [T] asks for it. *)
Definition filled (b : nat) (R : MirValueId -> MirValueId) (T : nat -> MirValueId -> Prop) (E E' : edge_map) : Prop :=
  forall c a, exists l, E' c a = E c a ++ l /\ Forall (fun ed => ed = (Some b, R a)) l /\ (T c a -> l <> []).

Lemma filled_refl b R (T : nat -> MirValueId -> Prop) E : (forall c a, ~ T c a) -> filled b R T E E.
Proof. intros HT c a. exists []. split; [by rewrite app_nil_r|]. split; [constructor|]. intros Ht. by destruct (HT c a). Qed.

Lemma filled_trans b R (T1 T2 T : nat -> MirValueId -> Prop) E1 E2 E3 : filled b R T1 E1 E2 -> filled b R T2 E2 E3 ->
  (forall c a, T c a -> T1 c a \/ T2 c a) -> filled b R T E1 E3.
Proof.
  intros H1 H2 HT c a. destruct (H1 c a) as (l1 & E12 & F1 & N1), (H2 c a) as (l2 & E23 & F2 & N2). exists (l1 ++ l2).
  split; [by rewrite E23, E12, app_assoc|]. split; [by apply Forall_app|]. intros [Ht%N1|Ht%N2]%HT; by destruct l1, l2.
Qed.

Lemma fill_ctxs b R ctxs cnt s E g c i : renames cnt s E g -> ctxs_ok R ctxs -> bl !! i = Some c -> (forall a, R a ∉ loads f) ->
  forall cs, cs ⊆ ctxs -> exists E' g', ofold (fill_edge b c (Z.of_nat i)) cs g = Ok g' /\ renames cnt s E' g' /\
    filled b R (fun c' a => c' = c /\ a ∈ map rc_alloca cs /\ is_Some (phi_of ph a c)) E E'.
Proof.
  intros Hr Hc Hi HR cs. revert E g Hr. induction cs as [|d cs IH]; intros E g Hr Hsub; cbn [ofold].
  { exists E, g. split_and!; [done..|]. apply filled_refl. intros c' a (_ & Ha & _). by apply not_elem_of_nil in Ha. }
  assert (Hd : d ∈ ctxs) by (apply Hsub; left). unfold fill_edge at 1. unfold phi_at.
  rewrite Nat2Z.id, (proj2 (co_phis _ _ Hc d Hd) i c Hi). cbn [mjoin option_join].
  destruct (phi_of ph (rc_alloca d) c) as [v|] eqn:Hv.
  - rewrite (top_of _ _ d Hc Hd). apply phi_of_Some in Hv as (x & Hx & Hxa & <-).
    destruct (add_phi_edge_spec cnt s E g c x b (R (rc_alloca d)) Hr) as (g1 & -> & Hr1);
      [by eapply list_elem_of_lookup_2|done|apply HR|]. cbn [obind].
    destruct (IH _ g1 Hr1) as (E2 & g2 & -> & Hr2 & Hf2); [set_solver|]. exists E2, g2. split_and!; [done..|].
    eapply (filled_trans b R (fun c' a => c' = c /\ a = rc_alloca d)); [|exact Hf2|].
    + intros c' a. unfold add_edge_to. rewrite Hxa. destruct (decide (c' = c /\ a = rc_alloca d)) as [[-> ->]|Hne].
      * eexists. split; [done|]. split; [|done]. by constructor.
      * exists []. split; [by rewrite app_nil_r|]. split; [constructor|]. done.
    + intros c' a (-> & Ha & Hs). simpl in Ha. apply elem_of_cons in Ha as [->|Ha]; [by left|by right].
  - cbn [obind]. destruct (IH E g Hr) as (E2 & g2 & -> & Hr2 & Hf2); [set_solver|]. exists E2, g2. split_and!; [done..|].
    eapply (filled_trans b R (fun _ _ => False)); [apply filled_refl; tauto|exact Hf2|].
    intros c' a (-> & Ha & Hs). right. simpl in Ha. apply elem_of_cons in Ha as [->|Ha]; [|done]. rewrite Hv in Hs. by destruct Hs.
Qed.

Lemma fill_succs b R ctxs cnt s : ctxs_ok R ctxs -> (forall a, R a ∉ loads f) -> forall succs E g, succs ⊆ bl -> renames cnt s E g ->
  exists E' g', ofold (fill_succ b ctxs) succs g = Ok g' /\ renames cnt s E' g' /\
    filled b R (fun c a => c ∈ succs /\ a ∈ slots f /\ is_Some (phi_of ph a c)) E E'.
Proof.
  intros Hc HR succs. induction succs as [|c succs IH]; intros E g Hsub Hr; cbn [ofold].
  { exists E, g. split_and!; [done..|]. apply filled_refl. intros c a [Ha _]. by apply not_elem_of_nil in Ha. }
  assert (Hcb : c ∈ bl) by (apply Hsub; left). apply list_elem_of_lookup in Hcb as [i Hi].
  destruct (cw_ids _ _ (sf_cfg _ _ _ Hf) i c Hi) as (blk & Hblk & Hid). destruct (h_block c blk Hblk) as (blk1 & Hblk1 & Hid1 & _).
  destruct (same_skel_at h g c blk1 (rn_skel _ _ _ _ Hr) Hblk1) as (blk2 & Hblk2 & Hsk). unfold fill_succ at 1. rewrite Hblk2. cbn [of_option obind].
  rewrite (proj1 (skel_fields _ _ Hsk)), Hid1, Hid.
  destruct (fill_ctxs b R ctxs cnt s E g c i Hr Hc Hi HR ctxs) as (E1 & g1 & -> & Hr1 & Hf1); [done|]. cbn [obind].
  destruct (IH E1 g1) as (E2 & g2 & -> & Hr2 & Hf2); [set_solver|done|]. exists E2, g2. split_and!; [done..|].
  eapply filled_trans; [exact Hf1|exact Hf2|]. rewrite (co_slots _ _ Hc).
  intros c' a ([->|Hin]%elem_of_cons & Ha & Hs); [by left|by right].
Qed.

(** ** The walk over a subtree *)

Record st_ok (D : gset nat) (cnt : nat -> nat) s E g : Prop := {
  so_renames : renames cnt s E g;
  so_done : forall c, c ∈ bl -> c ∈ D -> cnt c = length (inst_list f c);
  so_fresh : forall c, c ∉ D -> cnt c = 0%nat;
  so_behind : forall c, c ∈ D -> behind s c (length (inst_list f c));
  so_edges : forall c a ed, ed ∈ E c a -> exists p, ed.1 = Some p /\ p ∈ D
}.

(** The renaming of a block whose reaching values, behind its phis, are [R]. *)
Record good s (E : edge_map) (x : nat * (MirValueId -> MirValueId)) : Prop := {
  gd_loads : forall i y p, inst_at f x.1 i = Some y -> as_ y = LOAD p ->
    app s (result y) = after_all (app s) x.2 (take i (inst_list f x.1)) p;
  gd_edges : forall c a, edge f x.1 c -> a ∈ slots f -> is_Some (phi_of ph a c) ->
    List.find (fun ed => bool_decide (ed.1 = Some x.1)) (E c a) = Some (Some x.1, after_all (app s) x.2 (inst_list f x.1) a)
}.

(** Down the dominator tree. *)
Definition tree_step (s : MirValueId -> MirValueId) (x y : nat * (MirValueId -> MirValueId)) : Prop :=
  reach f e y.1 /\ y.1 <> e /\ idom_of h y.1 = Some x.1 /\ y.2 = enter ph y.1 (after_all s x.2 (inst_list f x.1)).

Lemma tree_step_anc s x y : rtc (tree_step s) x y -> anc h y.1 x.1.
Proof.
  induction 1 as [|x y z (_ & _ & Hi & _) _ IH]; [constructor|]. eapply rtc_r; [exact IH|done].
Qed.

(** Later renamings change nothing in a block that is done. *)
Lemma good_mono s s' E E' x : good s E x -> subst_ok f s' -> s ⊆ s' -> behind s x.1 (length (inst_list f x.1)) ->
  (forall c a, exists l, E' c a = E c a ++ l) -> good s' E' x.
Proof.
  intros [Hl He] Hs Hsub Hb HE. destruct x as [b R]. simpl in *.
  assert (Hst' : forall i, (i <= length (inst_list f b))%nat ->
    after_all (app s) R (take i (inst_list f b)) = after_all (app s') R (take i (inst_list f b))).
  { intros i Hi. apply after_stable; [done..|]. eapply behind_mono; [done..|lia]. }
  split; simpl.
  - intros i y p Hy Hp. rewrite <- Hst' by (apply lookup_lt_Some in Hy; lia). rewrite <- (Hl i y p Hy Hp).
    symmetry. apply (app_stable f); [done..|]. intros _. eapply (bh_own _ _ _ Hb i); [by apply lookup_lt_Some in Hy|done..].
  - intros c a Hed Ha Hs'. destruct (HE c a) as [l ->]. rewrite find_app, (He c a Hed Ha Hs').
    pose proof (Hst' (length (inst_list f b)) ltac:(lia)) as H. rewrite take_ge in H by lia. by rewrite H.
Qed.

(** A path down the tree stays one. *)
Lemma tree_step_mono s s' x y : subst_ok f s' -> s ⊆ s' -> (forall b, anc h b x.1 -> behind s b (length (inst_list f b))) ->
  rtc (tree_step (app s')) x y -> rtc (tree_step (app s)) x y.
Proof.
  intros Hs Hsub Hb Hp. induction Hp as [x|x z y (Hr & Hne & Hi & Hz) _ IH]; [constructor|]. eapply rtc_l.
  - split_and!; [done..|]. rewrite Hz. f_equal. pose proof (after_stable s s' x.1 (length (inst_list f x.1)) x.2 Hs Hsub) as H.
    rewrite take_ge in H by lia. symmetry. apply H, Hb. constructor.
  - apply IH. intros b Hanc. apply Hb. eapply rtc_r; [exact Hanc|done].
Qed.

(** ** The dominator tree *)

Lemma bl_reach b : b ∈ bl -> reach f e b.
Proof. apply (sf_reach _ _ _ Hf). Qed.

Lemma anc_anti b x : b ∈ bl -> anc h b x -> anc h x b -> b = x.
Proof.
  intros Hb%bl_reach. destruct (dt_order _ _ _ Htree) as (rpo & Hrpo & Ht).
  assert (Hin : b ∈ rpo) by (by apply Hrpo). apply (anc_antisym f e rpo Hrpo h b x Ht Hin).
  unfold proc. destruct (decide (b = e)) as [->|Hne]; [rewrite (dt_entry _ _ _ Htree); by eexists|].
  destruct (dt_idom _ _ _ Htree b Hb Hne) as (i & Hi & _). by exists i.
Qed.

Lemma child_spec b c : b ∈ bl -> c ∈ children_of h b <-> c ∈ bl /\ c <> e /\ idom_of h c = Some b.
Proof.
  intros Hb. rewrite (proj2 (dt_children _ _ _ Htree b (bl_reach b Hb))). split; intros (Hc & ? & ?); (split; [|done]).
  - destruct (dt_order _ _ _ Htree) as (rpo & Hrpo & _). apply (rpo_in_list f e (sf_cfg _ _ _ Hf) rpo Hrpo). by apply Hrpo.
  - by apply bl_reach.
Qed.

Lemma child_dom b c d : c ∈ bl -> c <> e -> idom_of h c = Some b -> d <> c -> dominates f e d c -> dominates f e d b.
Proof.
  intros Hc Hne Hi Hd Hdom. destruct (dt_idom _ _ _ Htree c (bl_reach c Hc) Hne) as (i & Hi' & _ & _ & _ & H).
  assert (i = b) as -> by congruence. by apply H.
Qed.

Lemma anc_bl y c : anc h y c -> c ∈ bl -> y ∈ bl.
Proof.
  intros Ha Hc. apply anc_inv in Ha as [->|(p & Hp & _)]; [done|]. apply (sf_all _ _ _ Hf). unfold idom_of in Hp.
  destruct (block_at h y) as [blk|] eqn:Hy; [|done]. pose proof (proj1 (dt_code _ _ _ Htree)) as Hcode.
  apply (f_equal (lookup y)) in Hcode. rewrite !list_lookup_fmap in Hcode. unfold block_at in *. rewrite Hy in Hcode.
  destruct (blocks f !! y); [by eexists|done].
Qed.

(** The subtrees of two children do not meet. *)
Lemma subtrees_disjoint b c1 c2 x : c1 ∈ bl -> c2 ∈ bl -> c1 <> e -> c2 <> e -> idom_of h c1 = Some b -> idom_of h c2 = Some b ->
  anc h x c1 -> anc h x c2 -> c1 = c2.
Proof.
  assert (H : forall c1 c2, c2 ∈ bl -> c2 <> e -> idom_of h c1 = Some b -> idom_of h c2 = Some b -> anc h c1 c2 -> c1 = c2).
  { intros d1 d2 Hd2 Hne H1 H2 Ha. apply anc_inv in Ha as [|(p & Hp & Ha)]; [done|]. exfalso.
    assert (p = b) as -> by congruence. assert (d2 = b) as <-.
    { apply anc_anti; [done| |done]. by apply rtc_once. }
    destruct (dt_idom _ _ _ Htree d2 (bl_reach d2 Hd2) Hne) as (i & Hi & _ & Hn & _). congruence. }
  intros Hc1 Hc2 Hn1 Hn2 Hi1 Hi2 Ha1 Ha2. destruct (anc_linear h x c1 c2 Ha1 Ha2); [by apply H|]. symmetry. by apply H.
Qed.

Lemma child_behind s b c : c ∈ bl -> c <> e -> idom_of h c = Some b -> behind s b (length (inst_list f b)) -> behind s c 0.
Proof.
  intros Hc Hne Hi [Ha Ho]. split; [|intros; lia]. intros d j x p Hd Hdom Hx Hp.
  pose proof (child_dom b c d Hc Hne Hi Hd Hdom) as Hdb. destruct (decide (d = b)) as [->|Hdb'].
  - eapply Ho; [by apply lookup_lt_Some in Hx|done..].
  - by eapply Ha.
Qed.

(** A block below [b] is [b] or below one of its children. *)
Lemma anc_child d b : anc h d b -> d = b \/ exists c, c <> e /\ idom_of h c = Some b /\ anc h d c.
Proof.
  intros Ha. apply (rtc_ind_r (R := fun c p => idom_of h c = Some p)
    (fun b => d = b \/ exists c, c <> e /\ idom_of h c = Some b /\ anc h d c) d); [by left| |exact Ha].
  intros c q Hdc Hq IH. destruct (decide (c = e)) as [->|Hne].
  - rewrite (dt_entry _ _ _ Htree) in Hq. by injection Hq as <-.
  - right. by exists c.
Qed.

(** ** The walk over a subtree *)

Lemma restore_grown ctxs ctxs' : grown ctxs ctxs' -> zip_with vs_restore (map (fun c => length (rc_stack c)) ctxs) ctxs' = ctxs.
Proof.
  induction 1 as [|c c' l l' (E1 & E2 & k & E3) _ IH]; [done|]. simpl. rewrite IH. f_equal. destruct c as [al sk ps], c' as [al' sk' ps'].
  unfold vs_restore. simpl in *. subst. f_equal. rewrite length_app, Nat.add_sub. by rewrite drop_app_length.
Qed.

Definition subtree (b c : nat) : Prop := c ∈ bl /\ anc h c b.

(** What the walk over the subtrees of [bs] leaves. *)
Record subtrees_done (bs : list nat) (D : gset nat) (s : gmap MirValueId MirValueId) (E : edge_map)
  (D' : gset nat) (s' : gmap MirValueId MirValueId) (E' : edge_map) : Prop := {
  sb_subst : s ⊆ s';
  sb_edges : forall c a, exists l, E' c a = E c a ++ l;
  sb_done : forall c, c ∈ D' <-> c ∈ D \/ exists b, b ∈ bs /\ subtree b c
}.

Definition walked_tree (fuel : nat) : Prop := forall b R l D cnt s E g ctxs stats,
  b ∈ bl -> st_ok D cnt s E g -> ctxs_ok R ctxs -> (forall a, R a ∉ loads f) -> behind s b 0 ->
  (forall c, subtree b c -> c ∉ D) ->
  NoDup l -> l ⊆ bl -> b ∉ l -> (forall x, x ∈ l -> anc h b x) -> (length bl < length l + fuel)%nat ->
  exists D' cnt' s' E' g' stats', rename_block fuel b (g, ctxs, stats) = Ok (g', ctxs, stats') /\
    st_ok D' cnt' s' E' g' /\ subtrees_done [b] D s E D' s' E' /\
    forall x, rtc (tree_step (app s')) (b, enter ph b R) x -> good s' E' x.

(** The loop over the children of [b]. *)
Lemma walk_children fuel b R l : walked_tree fuel -> b ∈ bl -> (forall a, R a ∉ loads f) -> NoDup l -> l ⊆ bl ->
  (forall x, x ∈ l -> anc h b x) -> (length bl < length l + fuel)%nat ->
  forall cs D cnt s E g ctxs stats, NoDup cs -> cs ⊆ children_of h b -> st_ok D cnt s E g -> ctxs_ok R ctxs ->
  behind s b (length (inst_list f b)) -> (forall c d, c ∈ cs -> subtree c d -> d ∉ D) ->
  exists D' cnt' s' E' g' stats', ofold (rename_block fuel) cs (g, ctxs, stats) = Ok (g', ctxs, stats') /\
    st_ok D' cnt' s' E' g' /\ subtrees_done cs D s E D' s' E' /\
    forall c x, c ∈ cs -> rtc (tree_step (app s')) (c, enter ph c R) x -> good s' E' x.
Proof.
  intros IH Hb HR Hl Hlbl Hanc Hfuel cs. induction cs as [|c cs IHcs]; intros D cnt s E g ctxs stats Hnd Hcs Hok Hc Hbh Hfresh; cbn [ofold].
  { exists D, cnt, s, E, g, stats. split_and!; [done|done| |].
    - split; [done| |]; [intros c a; exists []; by rewrite app_nil_r|]. intros c. split; [by left|]. intros [?|(d & Hd & _)]; [done|].
      by apply not_elem_of_nil in Hd.
    - intros c x Hcx. by apply not_elem_of_nil in Hcx. }
  apply list.NoDup_cons in Hnd as [Hcn Hnd]. destruct (proj1 (child_spec b c Hb)) as (Hcb & Hce & Hci); [apply Hcs; left|].
  assert (Hlc : c ∉ l).
  { intros Hin%Hanc. destruct (dt_idom _ _ _ Htree c (bl_reach c Hcb) Hce) as (i & Hi & _ & Hne & _).
    assert (i = b) as -> by congruence. apply Hne, anc_anti; [done|done|]. by apply rtc_once. }
  destruct (IH c R l D cnt s E g ctxs stats) as (D1 & cnt1 & s1 & E1 & g1 & st1 & -> & Hok1 & Hsub1 & Hg1); try done.
  { by eapply child_behind. }
  { intros d. apply Hfresh. left. }
  { intros x Hx. eapply rtc_l; [exact Hci|by apply Hanc]. }
  cbn [obind]. destruct (IHcs D1 cnt1 s1 E1 g1 ctxs st1) as (D2 & cnt2 & s2 & E2 & g2 & st2 & -> & Hok2 & Hsub2 & Hg2); try done.
  { set_solver. }
  { eapply behind_mono; [exact Hbh|apply Hsub1|lia]. }
  { intros d x Hd Hx. rewrite (sb_done _ _ _ _ _ _ _ Hsub1). intros [HD|(c' & ->%list_elem_of_singleton & Hx')].
    - revert HD. apply (Hfresh d x); [by right|done].
    - destruct (proj1 (child_spec b d Hb)) as (Hdb & Hde & Hdi); [apply Hcs; by right|].
      assert (c = d) as -> by (apply (subtrees_disjoint b c d x); (done || apply Hx' || apply Hx)). done. }
  exists D2, cnt2, s2, E2, g2, st2. split_and!; [done|done| |].
  - split.
    + etransitivity; [apply Hsub1|apply Hsub2].
    + intros d a. destruct (sb_edges _ _ _ _ _ _ _ Hsub1 d a) as [l1 H1], (sb_edges _ _ _ _ _ _ _ Hsub2 d a) as [l2 H2].
      exists (l1 ++ l2). by rewrite H2, H1, app_assoc.
    + intros d. rewrite (sb_done _ _ _ _ _ _ _ Hsub2), (sb_done _ _ _ _ _ _ _ Hsub1). setoid_rewrite elem_of_cons.
      setoid_rewrite elem_of_nil. naive_solver.
  - intros d x [->|Hd]%elem_of_cons Hx; [|by eapply Hg2].
    assert (Hin1 : forall y, anc h y c -> behind s1 y (length (inst_list f y))).
    { intros y Hy. apply (so_behind _ _ _ _ _ Hok1), (sb_done _ _ _ _ _ _ _ Hsub1). right. exists c.
      split; [left|]. split; [by apply (anc_bl y c)|done]. }
    apply (good_mono s1 s2 E1 E2); [apply Hg1|apply Hok2|apply Hsub2|apply Hin1|apply Hsub2].
    + eapply tree_step_mono; [apply Hok2|apply Hsub2|done|exact Hx].
    + apply (tree_step_anc _ _ _ Hx).
Qed.

(** One block, in front of the walk over its children. *)
Lemma walk_node b R D cnt s E g ctxs stats blk : b ∈ bl -> st_ok D cnt s E g -> ctxs_ok R ctxs -> (forall a, R a ∉ loads f) ->
  behind s b 0 -> b ∉ D -> block_at g b = Some blk ->
  exists cnt' s' E' g1 g' ctxs' stats', rename_insts (length (insts blk)) b 0 (g, map (push_phi (id blk)) ctxs, stats) = Ok (g1, ctxs', stats') /\
    ofold (fill_succ b ctxs') (successors blk) g1 = Ok g' /\
    st_ok (D ∪ {[b]}) cnt' s' E' g' /\ subtrees_done [] (D ∪ {[b]}) s E (D ∪ {[b]}) s' E' /\ grown ctxs ctxs' /\
    ctxs_ok (after_all (app s') (enter ph b R) (inst_list f b)) ctxs' /\ good s' E' (b, enter ph b R).
Proof.
  intros Hb Hok Hc HR Hbh HbD Hblk. pose proof Hb as [i Hi]%list_elem_of_lookup.
  destruct (cw_ids _ _ (sf_cfg _ _ _ Hf) i b Hi) as (blk0 & Hb0 & Hid0). destruct (h_block b blk0 Hb0) as (blk1 & Hb1 & Hid1 & _ & Hsucc1).
  destruct (same_skel_at h g b blk1 (rn_skel _ _ _ _ (so_renames _ _ _ _ _ Hok)) Hb1) as (blk' & Hb' & Hsk).
  assert (blk' = blk) as -> by congruence. pose proof (skel_fields _ _ Hsk) as (Hid & _ & Hsucc & _).
  rewrite Hid, Hid1, Hid0, Hsucc, Hsucc1. destruct (push_phis_ok R ctxs i b Hc Hi) as [Hc1 Hg1].
  destruct (walk_block cnt s E g (map (push_phi (Z.of_nat i)) ctxs) stats b blk (enter ph b R)) as
    (s' & g1 & ctxs' & st' & Hrun & Hr & Hsub & Hgr & Hbh' & Hc' & Hl); try done.
  { apply Hok. } { by apply (so_fresh _ _ _ _ _ Hok). } { by apply enter_nice. }
  set (Rend := after_all (app s') (enter ph b R) (inst_list f b)) in *.
  assert (Hnice : forall a, Rend a ∉ loads f).
  { intros a. unfold Rend. rewrite <- (firstn_all (inst_list f b)). apply after_nice; [apply Hr|done|by apply enter_nice]. }
  destruct (fill_succs b Rend ctxs' (upd_cnt b (length (inst_list f b)) cnt) s' Hc' Hnice (successors blk0) E g1) as (E' & g' & Hfill & Hr' & Hfd); [|done|].
  { intros c. by apply (cw_closed _ _ (sf_cfg _ _ _ Hf) b blk0). }
  exists (upd_cnt b (length (inst_list f b)) cnt), s', E', g1, g', ctxs', st'. split_and!; try done.
  - split; [done| | | |].
    + intros c Hcb Hin. unfold upd_cnt. destruct (decide (c = b)) as [->|]; [done|]. apply (so_done _ _ _ _ _ Hok); set_solver.
    + intros c Hin. unfold upd_cnt. rewrite decide_False by set_solver. apply (so_fresh _ _ _ _ _ Hok). set_solver.
    + intros c [Hin| ->%elem_of_singleton]%elem_of_union; [|done]. eapply behind_mono; [by apply (so_behind _ _ _ _ _ Hok)|done|lia].
    + intros c a ed Hed. destruct (Hfd c a) as (l & Heq & Hall & _). rewrite Heq in Hed. apply elem_of_app in Hed as [Hed|Hed].
      * destruct (so_edges _ _ _ _ _ Hok c a ed Hed) as (p & ? & ?). exists p. split; [done|set_solver].
      * rewrite list.Forall_forall in Hall. apply Hall in Hed as ->. exists b. split; [done|set_solver].
  - split; [done| |].
    + intros c a. destruct (Hfd c a) as (l & Heq & _). by exists l.
    + intros c. split; [by left|]. intros [?|(d & Hd & _)]; [done|by apply not_elem_of_nil in Hd].
  - by etransitivity.
  - split; simpl; [done|]. intros c a (blk2 & Hb2 & Hcs) Ha Hs. assert (blk2 = blk0) as -> by congruence.
    destruct (Hfd c a) as (l & -> & Hall & Hne). rewrite find_app.
    destruct (List.find _ (E c a)) as [ed|] eqn:Hfi.
    + exfalso. apply find_some in Hfi as [Hed%list_elem_of_In Heq%bool_decide_eq_true].
      destruct (so_edges _ _ _ _ _ Hok c a ed Hed) as (p & Hp & Hin). rewrite Heq in Hp. congruence.
    + destruct l as [|ed l]; [by destruct Hne|]. inversion Hall; subst. simpl. by rewrite bool_decide_eq_true_2.
Qed.

Lemma rename_block_spec fuel : walked_tree fuel.
Proof.
  induction fuel as [|fuel IH]; intros b R l D cnt s E g ctxs stats Hb Hok Hc HR Hbh Hfresh Hl Hlbl Hbl Hanc Hfuel.
  { exfalso. assert (length (b :: l) <= length bl)%nat; [|simpl in *; lia].
    apply submseteq_length, NoDup_submseteq; [by constructor|]. intros x [->|Hx]%elem_of_cons; [done|by apply Hlbl]. }
  assert (HbD : b ∉ D) by (apply Hfresh; split; [done|constructor]).
  pose proof Hb as [i Hi]%list_elem_of_lookup. destruct (cw_ids _ _ (sf_cfg _ _ _ Hf) i b Hi) as (blk0 & Hb0 & Hid0).
  destruct (h_block b blk0 Hb0) as (blk1 & Hb1 & _).
  destruct (same_skel_at h g b blk1 (rn_skel _ _ _ _ (so_renames _ _ _ _ _ Hok)) Hb1) as (blk & Hblk & Hsk).
  destruct (walk_node b R D cnt s E g ctxs stats blk Hb Hok Hc HR Hbh HbD Hblk) as
    (cnt1 & s1 & E1 & g1 & g2 & ctxs1 & st1 & Hrun & Hfill & Hok1 & Hsub1 & Hgr & Hc1 & Hgood).
  assert (Hbh1 : behind s1 b (length (inst_list f b))) by (apply (so_behind _ _ _ _ _ Hok1); set_solver).
  assert (Hch : children_of h b = dom_children blk).
  { unfold children_of. rewrite Hb1. simpl. symmetry. apply (skel_fields _ _ Hsk). }
  set (Rend := after_all (app s1) (enter ph b R) (inst_list f b)) in *.
  assert (Hnice : forall a, Rend a ∉ loads f).
  { intros a. unfold Rend. rewrite <- (firstn_all (inst_list f b)). apply after_nice; [apply Hok1|done|by apply enter_nice]. }
  destruct (walk_children fuel b Rend (b :: l) IH Hb Hnice) with (cs := dom_children blk) (D := D ∪ {[b]}) (cnt := cnt1) (s := s1)
    (E := E1) (g := g2) (ctxs := ctxs1) (stats := st1) as (D2 & cnt2 & s2 & E2 & g3 & st2 & Hkids & Hok2 & Hsub2 & Hg2); try done.
  { by constructor. } { intros x [->|Hx]%elem_of_cons; [done|by apply Hlbl]. }
  { intros x [->|Hx]%elem_of_cons; [constructor|by apply Hanc]. } { simpl. lia. }
  { rewrite <- Hch. by apply (dt_children _ _ _ Htree), bl_reach. } { by rewrite Hch. }
  { intros c d Hcc [Hd Hdc]. rewrite <- Hch in Hcc. apply child_spec in Hcc as (Hcb & Hce & Hci); [|done].
    intros [HD|Heq%elem_of_singleton]%elem_of_union.
    - revert HD. apply Hfresh. split; [done|]. by eapply rtc_r.
    - subst d. destruct (dt_idom _ _ _ Htree c (bl_reach c Hcb) Hce) as (q & Hq & _ & Hn & _).
      assert (q = b) as -> by congruence. apply Hn, anc_anti; [done|done|by apply rtc_once]. }
  exists D2, cnt2, s2, E2, g3, st2. split_and!; [|done| |].
  - cbn [rename_block]. rewrite Hblk. cbn [of_option obind]. rewrite Hrun. cbn [obind]. rewrite Hfill. cbn [obind]. rewrite Hkids.
    cbn [obind]. by rewrite restore_grown.
  - split.
    + etransitivity; [apply Hsub1|apply Hsub2].
    + intros d a. destruct (sb_edges _ _ _ _ _ _ _ Hsub1 d a) as [l1 H1], (sb_edges _ _ _ _ _ _ _ Hsub2 d a) as [l2 H2].
      exists (l1 ++ l2). by rewrite H2, H1, List.app_assoc.
    + intros d. rewrite (sb_done _ _ _ _ _ _ _ Hsub2). setoid_rewrite elem_of_union. setoid_rewrite elem_of_singleton.
      setoid_rewrite list_elem_of_singleton. split.
      * intros [[?| ->]|(c & Hcc & Hd & Hdc)]; [by left|right; exists b; split; [done|split; [done|apply rtc_refl]]|].
        right. exists b. split; [done|]. split; [done|]. rewrite <- Hch in Hcc. apply child_spec in Hcc as (_ & _ & Hci); [|done]. by eapply rtc_r.
      * intros [?|(c & -> & Hd & Hdc)]; [by left; left|]. apply anc_child in Hdc as [->|(c & Hce & Hci & Hdc)]; [by left; right|].
        right. exists c. rewrite <- Hch. split; [|by split]. apply child_spec; [done|]. split; [|done]. apply (anc_bl c b); [by apply rtc_once|done].
  - intros x Hx. assert (Hst' : after_all (app s2) (enter ph b R) (inst_list f b) = Rend).
    { pose proof (after_stable s1 s2 b (length (inst_list f b)) (enter ph b R)) as H. rewrite !firstn_all in H.
      symmetry. apply H; [apply Hok2|apply Hsub2|done]. }
    apply rtc_inv in Hx as [<-|(y & (Hyr & Hye & Hyi & Hy) & Hx)].
    + eapply good_mono; [exact Hgood|apply Hok2|apply Hsub2|done|apply Hsub2].
    + destruct y as [c Ry]. simpl in *. subst Ry. rewrite Hst' in Hx. apply (Hg2 c); [|done]. rewrite <- Hch.
      apply (dt_children _ _ _ Htree); [by apply bl_reach|done].
Qed.

End walk.
