(* ===== verification/Promotion.v ===== *)
(** * What the promotion of slots leaves

    The steps of [mir_mem2reg] put together: on a function in slot form the
    pass completes, and the code of a block is its phis followed by the
    original instructions without loads, stores and [alloca]s, every operand
    that was loaded replaced by the reaching value of its slot.  The reaching
    values flow along every edge of the control flow graph, through the phis
    where there are any. *)
From S2P Require Import Worklist.
From S2P Require Import Prelude MirCore MirGraph MirOpt Dominators DomFacts DomFrontier MirBuilder.
From S2P Require Import Mem2Reg SlotForm PhiInsert Renaming.

(** ** Deletion of the [alloca]s *)

Definition alloca_of (v : MirValueId) (i : MirInst) : bool := match as_ i with ALLOCA _ _ => (result i =? v)%N | _ => false end.

(** At most one [alloca] has the value [v]. *)
Definition one_alloca (f : MirFunction) (v : MirValueId) : Prop := forall b i c j x y,
  inst_at f b i = Some x -> alloca_of v x = true -> inst_at f c j = Some y -> alloca_of v y = true -> b = c /\ i = j.

Lemma filter_all {A} (P : A -> Prop) `{!forall x, Decision (P x)} (l : list A) : Forall P l -> filter P l = l.
Proof. induction 1 as [|x l Hx _ IH]; [done|]. rewrite filter_cons, decide_True by done. by f_equal. Qed.

Lemma delete_filter {A} (p : A -> bool) (l : list A) i x : l !! i = Some x -> p x = true ->
  (forall j y, l !! j = Some y -> p y = true -> j = i) -> delete i l = filter (fun y => p y = false) l.
Proof.
  revert i. induction l as [|z l IH]; intros i Hi Hp Hone; [done|]. rewrite filter_cons. destruct i as [|i].
  - injection Hi as ->. rewrite decide_False by congruence. simpl. symmetry. apply filter_all.
    apply list.Forall_forall. intros y [j Hj]%list_elem_of_lookup. apply not_true_iff_false. intros Hy.
    by specialize (Hone (S j) y Hj Hy).
  - rewrite decide_True by (apply not_true_iff_false; intros Hz; by specialize (Hone 0%nat z eq_refl Hz)). simpl. f_equal.
    apply IH; [done|done|]. intros j y Hj Hy. by specialize (Hone (S j) y Hj Hy) as [= ->].
Qed.

Lemma filter_alloca_none f v c : (forall i x, inst_at f c i = Some x -> alloca_of v x = false) ->
  filter (fun x => alloca_of v x = false) (inst_list f c) = inst_list f c.
Proof. intros H. apply filter_all, list.Forall_forall. intros x [i Hi]%list_elem_of_lookup. by eapply H. Qed.

Lemma delete_alloca_spec v bl : forall f stats, one_alloca f v -> (forall b i x, inst_at f b i = Some x -> alloca_of v x = true -> b ∈ bl) ->
  let f' := (delete_alloca v bl f stats).1 in
  same_skel f f' /\ next_value_id f' = next_value_id f /\
  forall c, inst_list f' c = filter (fun x => alloca_of v x = false) (inst_list f c).
Proof.
  induction bl as [|b bl IH]; intros f stats Hone Hin f'.
  { split_and!; [done..|]. intros c. symmetry. apply filter_alloca_none. intros i x Hx. apply not_true_iff_false. intros Hv.
    specialize (Hin c i x Hx Hv). by apply not_elem_of_nil in Hin. }
  unfold f'. cbn [delete_alloca]. change (fun i => match as_ i with ALLOCA _ _ => (result i =? v)%N | _ => false end) with (alloca_of v).
  destruct (find_idx (alloca_of v) (inst_list f b)) as [i|] eqn:Hi.
  - apply find_idx_Some in Hi as (x & Hx & Hv & _). simpl. split_and!; [by apply same_skel_upd|done|]. intros c.
    rewrite inst_list_remove. destruct (decide (c = b)) as [->|Hne].
    + eapply delete_filter; [done..|]. intros j y Hy Hyv. by destruct (Hone b i b j x y Hx Hv Hy Hyv) as [_ ->].
    + symmetry. apply filter_alloca_none. intros j y Hy. apply not_true_iff_false. intros Hyv.
      by destruct (Hone b i c j x y Hx Hv Hy Hyv).
  - apply IH; [done|]. intros c j x Hx Hv. specialize (Hin c j x Hx Hv). apply elem_of_cons in Hin as [->|Hin]; [|done].
    rewrite find_idx_None in Hi. rewrite (Hi x) in Hv; [done|]. by eapply list_elem_of_lookup_2.
Qed.

Lemma filter_lookup_back {A} (P : A -> Prop) `{!forall x, Decision (P x)} (l : list A) i x : filter P l !! i = Some x ->
  P x /\ exists k, l !! k = Some x /\ i = length (filter P (take k l)).
Proof.
  revert i. induction l as [|y l IH]; intros i; [done|]. rewrite filter_cons. destruct (decide (P y)) as [Hy|Hy].
  - destruct i as [|i]; [intros [= ->]; split; [done|]; by exists 0%nat|]. intros (Hx & k & Hk & ->)%IH. split; [done|].
    exists (S k). split; [done|]. simpl. by rewrite filter_cons, decide_True.
  - intros (Hx & k & Hk & ->)%IH. split; [done|]. exists (S k). split; [done|]. simpl. by rewrite filter_cons, decide_False.
Qed.

Lemma omap_lookup_back {A B} (g : A -> option B) (l : list A) i y : omap g l !! i = Some y ->
  exists k x, l !! k = Some x /\ g x = Some y /\ i = length (omap g (take k l)).
Proof.
  revert i. induction l as [|z l IH]; intros i; [done|]. simpl. destruct (g z) as [w|] eqn:Hz.
  - destruct i as [|i]; [intros [= ->]; by exists 0%nat, z|]. intros (k & x & Hk & Hx & ->)%IH. exists (S k), x. simpl. by rewrite Hz.
  - intros (k & x & Hk & Hx & ->)%IH. exists (S k), x. simpl. by rewrite Hz.
Qed.

Lemma one_alloca_filter f f' v w : (forall c, inst_list f' c = filter (fun x => alloca_of w x = false) (inst_list f c)) ->
  one_alloca f v -> one_alloca f' v.
Proof.
  intros Hf Hone b i c j x y. unfold inst_at. rewrite !Hf. intros (_ & k & Hk & ->)%filter_lookup_back Hx (_ & l & Hl & ->)%filter_lookup_back Hy.
  by destruct (Hone b k c l x y Hk Hx Hl Hy) as [-> ->].
Qed.

Lemma delete_allocas_spec ps : forall f stats, (forall p, p ∈ ps -> one_alloca f (alloca_val p)) ->
  (forall b i x, inst_at f b i = Some x -> is_alloca (as_ x) = true -> b ∈ block_list f) ->
  let f' := (delete_allocas ps (f, stats)).1 in
  same_skel f f' /\ next_value_id f' = next_value_id f /\
  forall c, inst_list f' c = filter (fun x => forallb (fun p => negb (alloca_of (alloca_val p) x)) ps = true) (inst_list f c).
Proof.
  induction ps as [|p ps IH]; intros f stats Hone Hin f'.
  { split_and!; [done..|]. intros c. symmetry. apply filter_all, list.Forall_forall. done. }
  unfold f', delete_allocas. cbn [fold_left fst snd].
  destruct (delete_alloca_spec (alloca_val p) (block_list f) f stats) as (H1 & H2 & H3).
  { apply Hone. left. } { intros b i x Hx Hv. eapply Hin; [done|]. unfold alloca_of in Hv. by destruct (as_ x). }
  destruct (delete_alloca (alloca_val p) (block_list f) f stats) as [f1 st1]. simpl in H1, H2, H3.
  destruct (IH f1 st1) as (H4 & H5 & H6).
  { intros q Hq. eapply one_alloca_filter; [exact H3|]. apply Hone. by right. }
  { intros b i x Hx Ha. destruct (same_skel_fields _ _ H1) as [-> _]. unfold inst_at in Hx. rewrite H3 in Hx.
    apply filter_lookup_back in Hx as (_ & k & Hk & _). by eapply Hin. }
  unfold delete_allocas in H4, H5, H6. split_and!; [by etransitivity|congruence|]. intros c. rewrite H6, H3, list_filter_filter.
  apply list_filter_iff. intros x. simpl. rewrite andb_true_iff, negb_true_iff. tauto.
Qed.

(** ** The result *)

(** The values that reach the end of a block. *)
Definition leave (f : MirFunction) (s : gmap MirValueId MirValueId) (Rin : nat -> MirValueId -> MirValueId) (b : nat) :
  MirValueId -> MirValueId := after_all (app s) (Rin b) (inst_list f b).

(** The same control flow graph and interface. *)
Record same_shape (f f' : MirFunction) : Prop := {
  ss_name : f_name f' = f_name f;
  ss_params : params f' = params f;
  ss_entry : entry_block f' = entry_block f;
  ss_list : block_list f' = block_list f;
  ss_blocks : forall b, is_Some (block_at f' b) <-> is_Some (block_at f b)
}.

Lemma same_shape_of h f f' : same_code f h -> same_skel h f' -> same_shape f f'.
Proof.
  intros [Hc1 Hc2] Hs. destruct (same_skel_fields _ _ Hs) as (H1 & H2 & _ & H4 & H5 & _). destruct Hs as [Hs _].
  split; rewrite ?H1, ?H2, ?H4, ?H5.
  - by apply (f_equal f_name) in Hc2.
  - by apply (f_equal params) in Hc2.
  - by apply (f_equal entry_block) in Hc2.
  - by apply (f_equal block_list) in Hc2.
  - intros b. apply (f_equal (lookup b)) in Hc1, Hs. rewrite !list_lookup_fmap in Hc1, Hs. unfold block_at.
    destruct (blocks f !! b), (blocks h !! b), (blocks f' !! b); try done; by split.
Qed.

(** [f'] is the promotion of [f]: [ph] are the phis, with the edges [E], [und]
    the undefined values, [s] maps the loads, and [Rin] are the values that
    reach the code of each block. *)
Record renamed (f : MirFunction) (e : nat) (h : MirFunction) (ph : phi_map) (und : list PhiRec) (s : gmap MirValueId MirValueId)
  (E : edge_map) (Rin : nat -> MirValueId -> MirValueId) (f' : MirFunction) : Prop := {
  rd_shape : same_shape f f';
  rd_tree : dominator_tree f e h;
  rd_mono : (next_value_id f <= next_value_id f')%N;
  rd_range : forall x, x ∈ und \/ (exists b, x ∈ ph b) -> (next_value_id f <= ph_val x < next_value_id f')%N;
  rd_inj : forall b c x y, x ∈ ph b -> y ∈ ph c -> ph_val x = ph_val y -> b = c /\ x = y;
  rd_undef : forall b x y, x ∈ und -> y ∈ ph b -> ph_val x <> ph_val y;
  rd_nodup : forall b, NoDup (map ph_slot (ph b));
  rd_slots : forall b x, x ∈ ph b -> ph_slot x ∈ slots f;
  rd_code : forall b, b ∈ block_list f -> inst_list f' b = head_of e ph und E b ++ kept_code (app s) (inst_list f b);
  rd_subst : subst_ok f s;
  rd_load : forall b i y p, inst_at f b i = Some y -> as_ y = LOAD p ->
    result y ∈ dom s /\ app s (result y) = after_all (app s) (Rin b) (take i (inst_list f b)) p;
  rd_entry : ph e = [];
  rd_root : forall a, a ∈ slots f -> exists x, x ∈ und /\ Rin e a = ph_val x;
  rd_down : forall b, b ∈ block_list f -> b <> e -> exists i, idom_of h b = Some i /\ i ∈ block_list f /\
    forall a, a ∈ slots f -> Rin b a = default (leave f s Rin i a) (phi_of ph a b);
  rd_flow : forall p c a, edge f p c -> p ∈ block_list f -> a ∈ slots f ->
    match phi_of ph a c with
    | Some v => Rin c a = v /\ List.find (fun ed => bool_decide (ed.1 = Some p)) (E c a) = Some (Some p, leave f s Rin p a)
    | None => Rin c a = leave f s Rin p a
    end
}.

Lemma finite_choice {A B} `{!EqDecision A} (l : list A) (P : A -> B -> Prop) (d : B) :
  (forall x, x ∈ l -> exists y, P x y) -> exists g, forall x, x ∈ l -> P x (g x).
Proof.
  induction l as [|x l IH]; intros H; [exists (fun _ => d); intros x Hx; by apply not_elem_of_nil in Hx|].
  destruct IH as [g Hg]; [intros y Hy; apply H; by right|]. destruct (H x) as [y Hy]; [left|].
  exists (fun z => if decide (z = x) then y else g z). intros z Hz. destruct (decide (z = x)) as [->|Hne]; [done|].
  apply elem_of_cons in Hz as [?|Hz]; [done|by apply Hg].
Qed.

Section flow.
Context (tc : list MirType) (f : MirFunction) (e : nat) (Hf : slot_form tc f e).
Context (h : MirFunction) (Htree : dominator_tree f e h) (ph : phi_map) (s : gmap MirValueId MirValueId) (E : edge_map).
Context (Hfr : forall b, reach f e b -> forall y, y ∈ frontier_of h b <-> in_frontier f e b y).
Context (Hclosed : forall a, a ∈ slots f -> closed_phis h ph a (filter (fun b => stores a (inst_list f b) = true) (block_list f))).
Context (R0 : MirValueId -> MirValueId).

Abbreviation bl := (block_list f).
Abbreviation step := (tree_step f e h ph (app s)).
Definition reaching (b : nat) (R : MirValueId -> MirValueId) : Prop := rtc step (e, enter ph e R0) (b, R).

Lemma reaching_root R : reaching e R -> R = enter ph e R0.
Proof. intros [H|(y & _ & _ & Hne & _)]%rtc_inv_r; [by injection H|done]. Qed.

Lemma reaching_inv b R : reaching b R -> b <> e -> exists i Ri, reaching i Ri /\ idom_of h b = Some i /\
  R = enter ph b (after_all (app s) Ri (inst_list f i)).
Proof. intros [H|([i Ri] & H & _ & _ & Hi & HR)]%rtc_inv_r Hne; [injection H; congruence|]. by exists i, Ri. Qed.

Lemma reaching_fun x R' : rtc step (e, enter ph e R0) x -> reaching x.1 R' -> x.2 = R'.
Proof.
  intros H. revert R'. apply (rtc_ind_r (R := step) (fun x => forall R', reaching x.1 R' -> x.2 = R') (e, enter ph e R0)); [| |exact H].
  - intros R' HR'. by apply reaching_root in HR'.
  - intros [i Ri] [b R] _ (Hr & Hne & Hi & HR) IH R' HR'. simpl in *.
    apply reaching_inv in HR' as (i' & Ri' & H1 & H2 & ->); [|done]. assert (i' = i) as -> by congruence.
    by rewrite HR, (IH Ri' H1).
Qed.

Lemma reach_bl b : reach f e b -> b ∈ bl.
Proof.
  intros Hb. apply (rtc_ind_r (R := edge f) (fun c => c ∈ bl) e); [apply (sf_cfg _ _ _ Hf)| |exact Hb].
  intros x y _ (blk & Hblk & Hy) Hx. eapply (cw_closed _ _ (sf_cfg _ _ _ Hf)); eauto.
Qed.

Lemma all_below b : b ∈ bl -> anc h b e.
Proof.
  intros Hb. apply (dt_chain _ _ _ Htree); [by apply (sf_reach _ _ _ Hf)|]. intros l Hl.
  induction Hl as [|l c d Hl IH Hcd]; [left|]. right. apply IH. eapply (sf_all _ _ _ Hf). destruct Hcd as (blk & Hblk & _). by exists blk.
Qed.

Lemma parent_bl b i : b ∈ bl -> idom_of h b = Some i -> i ∈ bl.
Proof.
  intros Hb Hi. destruct (decide (b = e)) as [->|Hne].
  - rewrite (dt_entry _ _ _ Htree) in Hi. by injection Hi as <-.
  - destruct (dt_idom _ _ _ Htree b (sf_reach _ _ _ Hf b Hb) Hne) as (i' & Hi' & Hr & _). apply reach_bl. congruence.
Qed.

Lemma anc_up b x : b ∈ bl -> anc h b x -> x ∈ bl.
Proof. intros Hb Ha. induction Ha as [|b i x Hi _ IH]; [done|]. apply IH. by eapply parent_bl. Qed.

Lemma reaching_exists b : b ∈ bl -> exists R, reaching b R.
Proof.
  intros Hb. pose proof (all_below b Hb) as Ha. revert Hb.
  apply (rtc_ind_l (R := fun c p => idom_of h c = Some p) (fun b => b ∈ bl -> exists R, reaching b R) e); [| |exact Ha].
  - intros _. eexists. constructor.
  - intros c i Hci Hie IH Hc. destruct (decide (c = e)) as [->|Hne]; [eexists; constructor|].
    destruct IH as [R HR]; [by eapply parent_bl|].
    exists (enter ph c (after_all (app s) R (inst_list f i))). eapply rtc_r; [exact HR|].
    split_and!; [by apply (sf_reach _ _ _ Hf)|done..].
Qed.
Lemma after_no_store a l R : stores a l = false -> after_all (app s) R l a = R a.
Proof.
  revert R. induction l as [|i l IH]; intros R; [done|]. unfold stores. cbn [existsb]. intros [Hi Hl]%orb_false_iff.
  change (after_all (app s) R (i :: l)) with (after_all (app s) (after (app s) R i) l). rewrite IH by done. unfold after.
  destruct (as_ i); try done. by rewrite N.eqb_sym, Hi.
Qed.

(** Where no phi is, the value at the end of a predecessor is the one at the
    end of the parent. *)
Lemma flow_without_phi a p c i : a ∈ slots f -> edge f p c -> p ∈ bl -> c <> e -> idom_of h c = Some i -> phi_of ph a c = None ->
  forall d Rd Ri, anc h p d -> anc h d i -> reaching d Rd -> reaching i Ri ->
  after_all (app s) Rd (inst_list f d) a = after_all (app s) Ri (inst_list f i) a.
Proof.
  intros Ha Hpc Hp Hce Hi Hphi d Rd Ri Hpd Hdi. revert Rd Ri Hpd.
  assert (Hrp : reach f e p) by (by apply (sf_reach _ _ _ Hf)). assert (Hrc : reach f e c) by (by eapply rtc_r).
  apply (rtc_ind_l (R := fun c p => idom_of h c = Some p) (fun d => forall Rd Ri, anc h p d -> reaching d Rd -> reaching i Ri ->
    after_all (app s) Rd (inst_list f d) a = after_all (app s) Ri (inst_list f i) a) i); [| |exact Hdi].
  - intros Rd Ri _ H1 H2. pose proof (reaching_fun (i, Rd) Ri H1 H2) as E1. simpl in E1. by subst.
  - intros x y Hxy Hyi IH Rx Ri Hpx HRx HRi.
    assert (Hxb : x ∈ bl) by (by eapply anc_up).
    destruct (decide (x = e)) as [->|Hxe].
    { rewrite (dt_entry _ _ _ Htree) in Hxy. injection Hxy as <-. by apply IH. }
    assert (Hfront : c ∈ frontier_of h x).
    { apply Hfr; [by apply (sf_reach _ _ _ Hf)|]. exists p. split_and!; [done|done|by apply (dt_chain _ _ _ Htree)|].
      intros [Hdom Hne]. destruct (dt_idom _ _ _ Htree c Hrc Hce) as (i' & Hi' & Hri & _ & _ & Hmax). assert (i' = i) as -> by congruence.
      assert (x = i) as -> by (apply (anc_anti tc f e Hf h Htree); [done|by eapply rtc_l|]; apply (dt_chain _ _ _ Htree); [done|by apply Hmax]).
      assert (i = y) as <- by (apply (anc_anti tc f e Hf h Htree); [done|by apply rtc_once|done]).
      destruct (dt_idom _ _ _ Htree i Hri Hxe) as (j & Hj & _ & Hn & _). congruence. }
    assert (Hno : stores a (inst_list f x) = false /\ phi_of ph a x = None).
    { split; [apply not_true_iff_false; intros Hs|destruct (phi_of ph a x) as [v|] eqn:Hv; [|done]; exfalso];
        destruct (cp_closed _ _ _ _ (Hclosed a Ha) x c) as [w Hw]; try congruence.
      - by rewrite (same_code_list _ _ (dt_code _ _ _ Htree)).
      - left. by apply list_elem_of_filter.
      - by rewrite (same_code_list _ _ (dt_code _ _ _ Htree)).
      - right. by exists v. }
    rewrite after_no_store by apply Hno. destruct (reaching_inv x Rx HRx Hxe) as (y' & Ry & HRy & Hy' & ->).
    assert (y' = y) as -> by congruence. unfold enter. rewrite (proj2 Hno). simpl. apply IH; [by eapply rtc_r|done..].
Qed.
End flow.

(** ** The pass *)

Section pass.
Context (tc : list MirType) (f : MirFunction) (e : nat) (Hf : slot_form tc f e).

Abbreviation bl := (block_list f).

Lemma blocks_bound : (length bl <= length (blocks f))%nat.
Proof.
  pose proof (ids_nodup f (cw_ids _ _ (sf_cfg _ _ _ Hf))) as Hnd.
  rewrite <- (length_seq (length (blocks f)) 0). apply submseteq_length, NoDup_submseteq; [done|].
  intros b [i Hi]%list_elem_of_lookup. destruct (cw_ids _ _ (sf_cfg _ _ _ Hf) i b Hi) as (blk & Hblk & _).
  apply elem_of_seq. apply lookup_lt_Some in Hblk. lia.
Qed.

(** The dominator tree, and what the placement of phis needs of it. *)
Lemma tree_exists : exists g h, mir_compute_dominators f = Ok g /\ mir_compute_dom_frontiers g = Ok h /\
  dominator_tree f e h /\ ids_ok h /\ block_count h = Z.of_nat (length (block_list h)) /\
  (forall b, b ∈ block_list h -> Forall (fun i => is_phi (as_ i) = false) (inst_list h b)) /\
  (forall b, reach f e b -> forall y, y ∈ frontier_of h b <-> in_frontier f e b y) /\
  (forall b y, y ∈ frontier_of h b -> y ∈ block_list h).
Proof.
  destruct (frontiers_spec f e (sf_cfg _ _ _ Hf)) as (g & h & Hg & Hh & _ & Ht & Hfr).
  { intros b Hb Hn. destruct Hn. by apply (sf_reach _ _ _ Hf). }
  { intros p _. apply (sf_entry _ _ _ Hf). }
  exists g, h. pose proof (same_code_list _ _ (dt_code _ _ _ Ht)) as Hl. split_and!; [done..| | | | |].
  - intros i b Hi. rewrite Hl in Hi. destruct (cw_ids _ _ (sf_cfg _ _ _ Hf) i b Hi) as (blk & Hblk & Hid).
    destruct (h_block f e h Ht b blk Hblk) as (blk' & Hblk' & Hid' & _). exists blk'. split; [done|congruence].
  - rewrite Hl, <- (sf_count _ _ _ Hf). pose proof (proj2 (dt_code _ _ _ Ht)) as H. by apply (f_equal block_count) in H.
  - intros b Hb. rewrite Hl in Hb. rewrite (h_insts tc f e Hf h Ht b Hb). apply list.Forall_forall. intros x [i Hi]%list_elem_of_lookup.
    pose proof (inst_at_slot tc f e Hf b i x Hi) as Hs. unfold slot_inst, slot_kind in Hs. by destruct (as_ x).
  - intros b Hb. apply Hfr. done.
  - intros b y Hy. rewrite Hl. unfold frontier_of in Hy. destruct (block_at h b) as [blk|] eqn:Hb; [|by apply not_elem_of_nil in Hy].
    assert (Hbl : b ∈ bl).
    { apply (sf_all _ _ _ Hf). unfold block_at in *. pose proof (proj1 (dt_code _ _ _ Ht)) as Hc. apply (f_equal (lookup b)) in Hc.
      rewrite !list_lookup_fmap, Hb in Hc. destruct (blocks f !! b); [by eexists|done]. }
    destruct (Hfr b (sf_reach _ _ _ Hf b Hbl)) as [_ Hin]. destruct (proj1 (Hin y)) as (p & Hp & Hpy & _); [by unfold frontier_of; rewrite Hb|].
    apply (reach_bl tc f e Hf). by eapply rtc_r.
Qed.

Definition root_val (ctxs : list AllocaRenameCtx) (a : MirValueId) : MirValueId :=
  default MIR_VALUE_NONE (vs_top <$> List.find (fun c => (rc_alloca c =? a)%N) ctxs).

Lemma root_val_in ctxs c : NoDup (map rc_alloca ctxs) -> c ∈ ctxs -> root_val ctxs (rc_alloca c) = vs_top c.
Proof.
  intros Hnd Hc. unfold root_val. destruct (List.find _ ctxs) as [d|] eqn:Hd.
  - apply find_some in Hd as [Hd%list_elem_of_In Heq%N.eqb_eq]. apply list_elem_of_lookup in Hc as [i Hi], Hd as [j Hj].
    simpl. f_equal. assert (i = j) as ->; [|congruence].
    apply (NoDup_lookup _ i j (rc_alloca c) Hnd); rewrite list_lookup_fmap; [by rewrite Hi|rewrite Hj; simpl; by f_equal].
  - rewrite find_None in Hd. apply Hd in Hc. by rewrite N.eqb_refl in Hc.
Qed.

(** The walk from the entry, over contexts with one value each. *)
Lemma walk_root h (Ht : dominator_tree f e h) ph und g0 (Hst : started h e ph und g0) (Hsl : forall b x, x ∈ ph b -> ph_slot x ∈ slots f)
  ctxs stats : map rc_alloca ctxs = slots f -> (forall c, c ∈ ctxs -> first_val und c /\ table bl (rc_phis c) (phi_of ph (rc_alloca c))) ->
  exists D cnt s E g' stats', rename_block (S (length (blocks g0))) e (g0, ctxs, stats) = Ok (g', ctxs, stats') /\
    st_ok f e h ph und g0 D cnt s E g' /\ (forall c, c ∈ bl -> c ∈ D) /\
    forall x, rtc (tree_step f e h ph (app s)) (e, enter ph e (root_val ctxs)) x -> good f ph s E x.
Proof.
  intros Hal Hc. pose proof (h_list f e h Ht) as Hl. destruct (same_skel_fields _ _ (sd_skel _ _ _ _ _ Hst)) as (_ & _ & _ & _ & _ & Hlen).
  assert (Hlen' : length (blocks h) = length (blocks f)).
  { pose proof (proj1 (dt_code _ _ _ Ht)) as H. apply (f_equal length) in H. by rewrite !length_map in H. }
  assert (Happ : forall i, map_operands (app ∅) i = i) by (intros i; apply map_operands_id).
  assert (Hnd : NoDup (map rc_alloca ctxs)) by (rewrite Hal; by eapply (slots_nodup tc f e)).
  assert (Htop : forall c, c ∈ ctxs -> exists v ty, rc_stack c = [v] /\ mkPhi (rc_alloca c) v ty ∈ und /\ root_val ctxs (rc_alloca c) = v).
  { intros c Hin. destruct (Hc c Hin) as [(v & ty & Hs & Hv) _]. exists v, ty. split_and!; [done..|].
    rewrite root_val_in by done. unfold vs_top. by rewrite Hs. }
  destruct (rename_block_spec tc f e Hf h Ht ph und g0 Hst Hsl (S (length (blocks g0))) e (root_val ctxs) [] ∅ (fun _ => 0%nat) ∅ (fun _ _ => []) g0 ctxs stats)
    as (D & cnt & s & E & g' & stats' & Hrun & Hok & Hsub & Hgood).
  - apply (sf_cfg _ _ _ Hf).
  - split; [|set_solver|done|set_solver|intros c a ed Hed; by apply not_elem_of_nil in Hed]. split.
    + apply Hst.
    + done.
    + intros b Hb. rewrite (sd_code _ _ _ _ _ Hst) by (by rewrite Hl). rewrite (h_insts tc f e Hf h Ht b Hb). unfold head_of, code_of.
      cbn [take omap list_omap]. rewrite app_nil_l, drop_0, <- app_assoc. do 2 f_equal. symmetry. rewrite <- (map_id (inst_list f b)) at 2. by apply map_ext.
    + intros l v. by rewrite lookup_empty.
    + set_solver.
    + intros b a ed Hed. by apply not_elem_of_nil in Hed.
  - split; [done| |].
    + intros c Hin. destruct (Htop c Hin) as (v & ty & Hs & _ & ->). by rewrite Hs.
    + intros c Hin. by apply Hc.
  - intros a. unfold root_val. destruct (List.find _ ctxs) as [c|] eqn:Hf'; [|by apply (none_no_load tc f e Hf)].
    apply find_some in Hf' as [Hin%list_elem_of_In _]. destruct (Htop c Hin) as (v & ty & Hs & Hv & _). unfold vs_top. simpl. rewrite Hs. simpl.
    apply (new_no_load tc f e Hf h Ht ph und g0 Hst (mkPhi (rc_alloca c) v ty)). by left.
  - split; [|intros; lia]. intros c j x p Hne Hdom. by apply dominates_entry in Hdom.
  - set_solver.
  - constructor.
  - intros x Hx. by apply not_elem_of_nil in Hx.
  - apply not_elem_of_nil.
  - intros x Hx. by apply not_elem_of_nil in Hx.
  - pose proof blocks_bound. simpl. lia.
  - exists D, cnt, s, E, g', stats'. split_and!; [done..| |done]. intros c Hcb. apply (sb_done _ _ _ _ _ _ _ _ _ Hsub). right. exists e.
    split; [by apply list_elem_of_singleton|]. split; [done|]. by apply (all_below tc f e Hf h Ht).
Qed.
(** The code once the [alloca]s are gone. *)
Lemma kept_alloca s x y : kept s x = Some y -> result y = result x /\ is_alloca (as_ y) = is_alloca (as_ x).
Proof. unfold kept. destruct (as_ x) as [| | | | | | | | | | | |[]| | | | | | | | | | | | | | | | | | | | |] eqn:E; intros [= <-]; unfold map_operands; by rewrite ?E. Qed.

Lemma head_no_alloca ph und E b x : x ∈ head_of e ph und E b -> is_alloca (as_ x) = false.
Proof.
  unfold head_of. intros [Hx|Hx]%elem_of_app; [destruct (decide (b = e)); [|by apply not_elem_of_nil in Hx]|];
    by apply list_elem_of_fmap in Hx as (y & -> & _).
Qed.

Definition no_slot (ps : list PromotableAlloca) (x : MirInst) : bool := forallb (fun p => negb (alloca_of (alloca_val p) x)) ps.

Lemma no_slot_alloca x : no_slot (promotables f) x = true <-> is_alloca (as_ x) = false \/ result x ∉ slots f.
Proof.
  unfold no_slot. rewrite forallb_forall, <- promotables_slots. split.
  - intros H. destruct (is_alloca (as_ x)) eqn:Ea; [right|by left]. intros (p & Hp & Hin)%list_elem_of_fmap.
    apply list_elem_of_In, H in Hin. unfold alloca_of in Hin. destruct (as_ x); try done. rewrite Hp, N.eqb_refl in Hin. done.
  - intros H p Hp%list_elem_of_In. unfold alloca_of. destruct (as_ x) eqn:E; try done. apply negb_true_iff, N.eqb_neq. intros Heq.
    destruct H as [|H]; [done|]. apply H. rewrite Heq. by apply list_elem_of_fmap_2.
Qed.

Lemma kept_code_cons s x l : kept_code s (x :: l) =
  match (if is_alloca (as_ x) then None else kept s x) with Some y => y :: kept_code s l | None => kept_code s l end.
Proof. done. Qed.

Lemma filter_kept s b : filter (fun x => no_slot (promotables f) x = true) (omap (kept s) (inst_list f b)) = kept_code s (inst_list f b).
Proof.
  assert (H : forall l, (forall x, x ∈ l -> exists i, inst_at f b i = Some x) ->
    filter (fun x => no_slot (promotables f) x = true) (omap (kept s) l) = kept_code s l).
  { intros l. induction l as [|x l IH]; intros Hl; [done|]. rewrite kept_code_cons. simpl.
    rewrite <- IH by (intros y Hy; apply Hl; by right). destruct (Hl x ltac:(left)) as [i Hi].
    destruct (kept s x) as [y|] eqn:Hk; [|by destruct (is_alloca (as_ x))]. apply kept_alloca in Hk as [Hr Ha]. rewrite filter_cons.
    destruct (decide _) as [Hy|Hy]; rewrite no_slot_alloca, Hr, Ha in Hy; destruct (is_alloca (as_ x)) eqn:E; try done.
    - destruct Hy as [|[]]; [done|]. apply (slot_def tc f e Hf). by exists b, i, x.
    - destruct Hy. by left. }
  apply H. intros x [i Hi]%list_elem_of_lookup. by exists i.
Qed.

Lemma final_code D cnt s ph und g0 E h g stats : dominator_tree f e h -> st_ok f e h ph und g0 D cnt s E g -> (forall c, c ∈ bl -> c ∈ D) ->
  let f' := (delete_allocas (promotables f) (g, stats)).1 in
  same_skel g f' /\ next_value_id f' = next_value_id g /\
  forall b, b ∈ bl -> inst_list f' b = head_of e ph und E b ++ kept_code (app s) (inst_list f b).
Proof.
  intros Ht Hok Hall f'. pose proof (so_renames _ _ _ _ _ _ _ _ _ _ _ Hok) as Hr.
  assert (Hcode : forall b, b ∈ bl -> inst_list g b = head_of e ph und E b ++ omap (kept (app s)) (inst_list f b)).
  { intros b Hb. rewrite (rn_code _ _ _ _ _ _ _ _ _ _ Hr b Hb). unfold code_of. rewrite (so_done _ _ _ _ _ _ _ _ _ _ _ Hok b Hb (Hall b Hb)).
    by rewrite firstn_all, drop_all, app_nil_r. }
  assert (Hbl : forall b i x, inst_at g b i = Some x -> b ∈ bl).
  { intros b i x Hx. apply (sf_all _ _ _ Hf). unfold inst_at, inst_list in Hx. destruct (block_at g b) as [blk|] eqn:Hb; [|done].
    pose proof (proj1 (rn_skel _ _ _ _ _ _ _ _ _ _ Hr)) as H1. pose proof (proj1 (dt_code _ _ _ Ht)) as H2.
    apply (f_equal (lookup b)) in H1, H2. rewrite !list_lookup_fmap in H1, H2. unfold block_at in *. rewrite Hb in H1. simpl in H1.
    destruct (blocks h !! b); [|done]. simpl in H2. destruct (blocks f !! b); [by eexists|done]. }
  destruct (delete_allocas_spec (promotables f) g stats) as (H1 & H2 & H3).
  - intros p Hp b i c j x y Hx Hvx Hy Hvy.
    assert (Hback : forall b i x, inst_at g b i = Some x -> alloca_of (alloca_val p) x = true -> exists k z, inst_at f b k = Some z /\
      is_alloca (as_ z) = true /\ result z = alloca_val p /\ i = (length (head_of e ph und E b) + length (omap (kept (app s)) (take k (inst_list f b))))%nat).
    { clear b i x Hx Hvx. intros b i x Hx Hv. assert (Ha : is_alloca (as_ x) = true /\ result x = alloca_val p).
      { unfold alloca_of in Hv. destruct (as_ x); try done. split; [done|by apply N.eqb_eq]. }
      pose proof (Hbl b i x Hx) as Hb. unfold inst_at in Hx. rewrite (Hcode b Hb) in Hx. apply lookup_app_Some in Hx as [Hx|[Hge Hx]].
      - apply list_elem_of_lookup_2, head_no_alloca in Hx. destruct Ha. congruence.
      - apply omap_lookup_back in Hx as (k & z & Hk & Hz & Hi). pose proof (kept_alloca _ _ _ Hz) as [Hrz Haz].
        exists k, z. split_and!; [done|destruct Ha; congruence|destruct Ha; congruence|lia]. }
    destruct (Hback b i x Hx Hvx) as (k & z & Hz & Haz & Hrz & ->), (Hback c j y Hy Hvy) as (l & w & Hw & Haw & Hrw & ->).
    destruct (def_unique tc f e Hf b k c l z w Hz Hw) as [-> ->]; [congruence|by eapply (alloca_value tc f e Hf)|done].
  - intros b i x Hx _. rewrite (g_list f e h Ht _ _ _ _ _ _ _ Hr). by eapply Hbl.
  - split_and!; [done..|]. intros b Hb. unfold f'. rewrite H3, (Hcode b Hb), list.filter_app, <- filter_kept. f_equal.
    apply filter_all, list.Forall_forall. intros x Hx%head_no_alloca. apply no_slot_alloca. by left.
Qed.

(** The reaching values, block by block. *)
Lemma reaching_values h ph s E R0 : dominator_tree f e h -> (forall b x, x ∈ ph b -> ph_slot x ∈ slots f) ->
  (forall b, reach f e b -> forall y, y ∈ frontier_of h b <-> in_frontier f e b y) ->
  (forall a, a ∈ slots f -> closed_phis h ph a (filter (fun b => stores a (inst_list f b) = true) bl)) ->
  (forall x, rtc (tree_step f e h ph (app s)) (e, enter ph e R0) x -> good f ph s E x) ->
  exists Rin, ph e = [] /\ (forall a, Rin e a = R0 a) /\ (forall b, b ∈ bl -> good f ph s E (b, Rin b)) /\
    (forall b, b ∈ bl -> b <> e -> exists i, idom_of h b = Some i /\ i ∈ bl /\ Rin b = enter ph b (leave f s Rin i)) /\
    (forall p c a, edge f p c -> p ∈ bl -> a ∈ slots f -> phi_of ph a c = None -> Rin c a = leave f s Rin p a).
Proof.
  intros Ht Hsl Hfr Hcl Hgood. pose proof (same_code_list _ _ (dt_code _ _ _ Ht)) as Hl.
  assert (Hphe : ph e = []).
  { destruct (ph e) as [|x l] eqn:Ee; [done|]. exfalso. assert (Hx : x ∈ ph e) by (rewrite Ee; left).
    destruct (cp_entered _ _ _ _ (Hcl _ (Hsl e x Hx)) e) as (c & Hc & Hin).
    { destruct (phi_of ph (ph_slot x) e) as [v|] eqn:Ev; [by exists v|]. exfalso. rewrite phi_of_None in Ev. apply Ev. by apply list_elem_of_fmap_2. }
    rewrite Hl in Hc. apply Hfr in Hin as (p & _ & Hpe & _); [|by apply (sf_reach _ _ _ Hf)]. by apply (sf_entry _ _ _ Hf p). }
  assert (Hent : forall a, enter ph e R0 a = R0 a) by (intros a; unfold enter, phi_of; by rewrite Hphe).
  destruct (finite_choice bl (reaching f e h ph s R0) R0) as [Rin HR].
  { intros b Hb. by apply (reaching_exists tc f e Hf h Ht). }
  assert (Hdown : forall b, b ∈ bl -> b <> e -> exists i, idom_of h b = Some i /\ i ∈ bl /\ Rin b = enter ph b (leave f s Rin i)).
  { intros b Hb Hne. destruct (reaching_inv f e h ph s R0 b _ (HR b Hb) Hne) as (i & Ri & Hi & Hbi & HRb).
    pose proof (parent_bl tc f e Hf h Ht b i Hb Hbi) as Hib. exists i. split_and!; [done..|]. rewrite HRb. unfold leave.
    pose proof (reaching_fun f e h ph s R0 (i, Ri) (Rin i) Hi (HR i Hib)) as E1. simpl in E1. by subst. }
  exists Rin. split_and!; [done| |intros b Hb; apply Hgood, HR, Hb|exact Hdown|].
  - intros a. rewrite <- Hent. by rewrite <- (reaching_root f e h ph s R0 _ (HR e (cw_in _ _ (sf_cfg _ _ _ Hf)))).
  - intros p c a Hpc Hp Ha Hn. assert (Hce : c <> e) by (intros ->; by apply (sf_entry _ _ _ Hf p)).
    assert (Hrc : reach f e c) by (eapply rtc_r; [by apply (sf_reach _ _ _ Hf)|done]).
    assert (Hcb : c ∈ bl) by (by apply (reach_bl tc f e Hf)).
    destruct (Hdown c Hcb Hce) as (i & Hi & Hib & ->). unfold enter at 1. rewrite Hn. simpl. unfold leave. symmetry.
    apply (flow_without_phi tc f e Hf h Ht ph s Hfr Hcl R0 a p c i Ha Hpc Hp Hce Hi Hn); [constructor| |by apply HR|by apply HR].
    apply (dt_chain _ _ _ Ht); [by apply (sf_reach _ _ _ Hf)|].
    destruct (dt_idom _ _ _ Ht c Hrc Hce) as (i' & Hi' & _ & Hne & Hdom & _). assert (i' = i) as -> by congruence.
    by apply (dominates_pred f e i p c).
Qed.

(** On a function in slot form with a slot the pass completes, and promotes
    every slot. *)
Lemma promotion_spec stats : slots f <> [] -> exists h ph und s E Rin f' stats',
  mir_mem2reg tc f stats = Ok (f', Z.of_nat (length (slots f)), stats') /\ renamed f e h ph und s E Rin f'.
Proof.
  intros Hne. destruct tree_exists as (g & h & Hg & Hh & Ht & Hids & Hcount & Hnophi & Hfr & Hdf).
  pose proof (same_code_list _ _ (dt_code _ _ _ Ht)) as Hl. set (ps := promotables f).
  assert (Hps : map alloca_val ps = slots f) by apply promotables_slots.
  assert (Hdefs : forall p, p ∈ ps -> def_blocks p = filter (fun b => stores (alloca_val p) (inst_list f b) = true) bl).
  { intros p (x & -> & _)%list_elem_of_fmap. done. }
  destruct (place_all_phis h Hids Hcount Hnophi Hdf ps [] [] h stats (fun _ => [])) as (ph & ctxs0 & g1 & stats1 & Hplace & Hp & Hctx & Hcl & Hsl).
  { simpl. rewrite Hps. by eapply (slots_nodup tc f e). }
  { intros p Hp. rewrite (Hdefs p Hp), Hl. intros b Hb. by apply list_elem_of_filter in Hb as [_ ?]. }
  { split; [done| |done|set_solver|set_solver|constructor]. done. }
  { constructor. } { set_solver. } { set_solver. }
  simpl in Hctx, Hcl, Hsl. rewrite Hps in Hsl.
  destruct (add_undefs_spec h Hids Hcount Hnophi Hdf e) with (ph := ph) (ps := ps) (ctxs := ctxs0) (und := @nil PhiRec) (g := g1)
    as (g2 & ctxs & und & Hund & Hst & _ & Hctx2); [rewrite Hl; apply (sf_cfg _ _ _ Hf)|by apply placed_started|done|].
  assert (Hal : map rc_alloca ctxs = slots f).
  { rewrite <- Hps. symmetry. clear -Hctx2. induction Hctx2 as [|p c l k (E1 & _) _ IH]; [done|]. simpl. by rewrite E1, IH. }
  assert (Hc : forall c, c ∈ ctxs -> first_val und c /\ table bl (rc_phis c) (phi_of ph (rc_alloca c))).
  { intros c [i Hi]%list_elem_of_lookup. destruct (Forall2_lookup_r _ _ _ _ _ Hctx2 Hi) as (p & _ & E1 & H1 & H2). rewrite E1, <- Hl. done. }
  destruct (walk_root h Ht ph und g2 Hst Hsl ctxs stats1 Hal Hc) as (D & cnt & s & E & g3 & stats3 & Hrun & Hok & Hall & Hgood).
  destruct (final_code D cnt s ph und g2 E h g3 stats3 Ht Hok Hall) as (H1 & H2 & H3).
  destruct (reaching_values h ph s E (root_val ctxs) Ht Hsl Hfr) as (Rin & Hphe & Hroot & Hgd & Hdown & Hflow); [|exact Hgood|].
  { intros a Ha. rewrite <- Hps in Ha. apply list_elem_of_fmap in Ha as (p & -> & Hin). rewrite <- (Hdefs p Hin). by apply Hcl. }
  exists h, ph, und, s, E, Rin, (delete_allocas ps (g3, stats3)).1, (delete_allocas ps (g3, stats3)).2. split.
  - unfold mir_mem2reg. rewrite (cw_entry _ _ (sf_cfg _ _ _ Hf)), (find_promotable_spec tc f e Hf). cbn [obind]. fold ps.
    destruct ps as [|q l] eqn:Eps; [by rewrite <- Hps in Hne|]. rewrite <- Eps, Hg. cbn [obind]. rewrite Hh. cbn [obind].
    rewrite Eps, Hplace. cbn [obind]. rewrite Hund, Hrun. cbn [obind]. destruct (delete_allocas (q :: l) (g3, stats3)).
    do 3 f_equal. rewrite <- Hps. by rewrite length_map.
  - pose proof (so_renames _ _ _ _ _ _ _ _ _ _ _ Hok) as Hr. split; try done.
    + apply (same_shape_of h); [apply (dt_code _ _ _ Ht)|]. etransitivity; [apply Hr|exact H1].
    + unfold ps. rewrite H2, (rn_next _ _ _ _ _ _ _ _ _ _ Hr), <- (next_h f e h Ht). apply (sd_mono _ _ _ _ _ Hst).
    + unfold ps. rewrite H2, (rn_next _ _ _ _ _ _ _ _ _ _ Hr), <- (next_h f e h Ht). apply (sd_range _ _ _ _ _ Hst).
    + apply (sd_inj _ _ _ _ _ Hst).
    + apply (sd_undef _ _ _ _ _ Hst).
    + apply (sd_nodup _ _ _ _ _ Hst).
    + apply Hr.
    + intros b i y p Hy Hp'. pose proof (inst_at_block tc f e Hf b i y Hy) as Hb. split; [|by apply (gd_loads _ _ _ _ _ (Hgd b Hb) i y p)].
      eapply (bh_own _ _ _ _ _ (so_behind _ _ _ _ _ _ _ _ _ _ _ Hok b (Hall b Hb)) i); [by apply lookup_lt_Some in Hy|done..].
    + intros a Ha. rewrite Hroot. rewrite <- Hal in Ha. apply list_elem_of_fmap in Ha as (c & -> & Hin).
      rewrite root_val_in by (done || (rewrite Hal; by eapply (slots_nodup tc f e))).
      destruct (Hc c Hin) as [(v & ty & Hs & Hv) _]. eexists. split; [exact Hv|]. unfold vs_top. by rewrite Hs.
    + intros b Hb Hbe. destruct (Hdown b Hb Hbe) as (i & Hi & Hib & ->). by exists i.
    + intros p c a Hpc Hp' Ha. destruct (phi_of ph a c) as [v|] eqn:Ev; [|by apply Hflow].
      split; [|apply (gd_edges _ _ _ _ _ (Hgd p Hp') c a Hpc Ha); by exists v].
      assert (Hce : c <> e) by (intros ->; by apply (sf_entry _ _ _ Hf p)).
      destruct (Hdown c) as (i & _ & _ & ->); [|done|unfold enter; by rewrite Ev].
      apply (reach_bl tc f e Hf). eapply rtc_r; [by apply (sf_reach _ _ _ Hf)|done].
Qed.
Lemma plain_code b : slots f = [] -> kept_code (app ∅) (inst_list f b) = inst_list f b.
Proof.
  intros Hne. assert (H : forall l, (forall x, x ∈ l -> exists i, inst_at f b i = Some x) -> kept_code (app ∅) l = l).
  { intros l. induction l as [|x l IH]; intros Hl; [done|]. rewrite kept_code_cons, IH by (intros y Hy; apply Hl; by right).
    destruct (Hl x ltac:(left)) as [i Hi].
    assert (Hn : forall p, p ∉ slots f) by (intros p; rewrite Hne; apply not_elem_of_nil).
    destruct (is_alloca (as_ x)) eqn:Ha; [exfalso; apply (Hn (result x)), (slot_def tc f e Hf); by exists b, i, x|].
    rewrite kept_shape; [f_equal; apply map_operands_id|]. destruct (as_ x) eqn:Ex; try done.
    - by apply (load_value tc f e Hf b i x ptr Hi) in Ex as [_ ?%Hn].
    - by apply (store_value tc f e Hf b i x ptr value Hi) in Ex as [?%Hn _]. }
  apply H. intros x [i Hi]%list_elem_of_lookup. by exists i.
Qed.

(** A function without slots is left alone. *)
Lemma promotion_none stats : slots f = [] ->
  mir_mem2reg tc f stats = Ok (f, 0, stats) /\ exists h, renamed f e h (fun _ => []) [] ∅ (fun _ _ => []) (fun _ a => a) f.
Proof.
  intros Hne. split.
  - unfold mir_mem2reg. rewrite (cw_entry _ _ (sf_cfg _ _ _ Hf)), (find_promotable_spec tc f e Hf). cbn [obind].
    pose proof (promotables_slots f) as Hps. rewrite Hne in Hps. by destruct (promotables f).
  - destruct tree_exists as (g & h & _ & _ & Ht & _). exists h.
    split; try done; try (intros a Ha; rewrite Hne in Ha; by apply not_elem_of_nil in Ha).
    + intros x [Hx|[b Hx]]; by apply not_elem_of_nil in Hx.
    + intros b c x y Hx. by apply not_elem_of_nil in Hx.
    + intros b x y Hx. by apply not_elem_of_nil in Hx.
    + constructor.
    + intros b x Hx. by apply not_elem_of_nil in Hx.
    + intros b Hb. unfold head_of. simpl. rewrite app_nil_r. destruct (decide (b = e)); simpl; symmetry; apply plain_code; auto.
    + intros b i y p Hy Hp. apply (load_value tc f e Hf b i y p Hy) in Hp as [_ Hp]. rewrite Hne in Hp. by apply not_elem_of_nil in Hp.
    + intros b Hb Hbe. destruct (dt_idom _ _ _ Ht b (sf_reach _ _ _ Hf b Hb) Hbe) as (i & Hi & Hr & _). exists i.
      split_and!; [done|by apply (reach_bl tc f e Hf)|]. intros a Ha. rewrite Hne in Ha. by apply not_elem_of_nil in Ha.
    + intros p c a _ _ Ha. rewrite Hne in Ha. by apply not_elem_of_nil in Ha.
Qed.

Lemma promotion_result stats : exists h ph und s E Rin f' stats',
  mir_mem2reg tc f stats = Ok (f', Z.of_nat (length (slots f)), stats') /\ renamed f e h ph und s E Rin f'.
Proof.
  destruct (decide (slots f = [])) as [Hn|Hn]; [|by apply promotion_spec].
  destruct (promotion_none stats Hn) as [Hrun [h Hh]]. rewrite Hrun, Hn. by eauto 10.
Qed.
End pass.
