(* ===== verification/SlotExec.v ===== *)
(** * Results of the interpreter's arithmetic fit a register slot

    Every operation on register slots yields a value of 64 bits when its
    operands are: rounding leaves a mantissa below 2^53 and an exponent
    in the range of a [double]. *)
From S2P Require Import Prelude MirCore Float64 Cvm MirGraph MirOpt CvmFacts MirBuilder MirBuilderFacts.
From S2P Require Import Mem2Reg SlotForm.
From Stdlib Require Import SpecFloat.

Definition fits (d : spec_float) : Prop :=
  match d with S754_finite _ m e => Z.pos m < 2 ^ 53 /\ -1074 <= e <= 971 | _ => True end.

Lemma sign_bit_range s : 0 <= sign_bit s <= 2 ^ 63.
Proof. destruct s; simpl; lia. Qed.

Lemma fits_bits d : fits d -> 0 <= cvm_f64_to_bits d < 2 ^ 64.
Proof.
  destruct d as [s|s| |s m e]; simpl; intros H; try (pose proof (sign_bit_range s); lia).
  - unfold NAN_BITS. lia.
  - pose proof (sign_bit_range s). destruct (Z.ltb_spec (Z.pos m) (2 ^ 52)); lia.
Qed.

Lemma bits_fits r : fits (cvm_bits_to_f64 r).
Proof.
  unfold cvm_bits_to_f64. change 2047 with (Z.ones 11). change (2 ^ 52 - 1) with (Z.ones 52). rewrite !Z.land_ones by lia.
  pose proof (Z.mod_pos_bound (Z.shiftr r 52) (2 ^ 11) ltac:(lia)). pose proof (Z.mod_pos_bound r (2 ^ 52) ltac:(lia)).
  change (Z.ones 11) with 2047.
  destruct (Z.eqb_spec (Z.shiftr r 52 mod 2 ^ 11) 2047); [by destruct (_ =? 0)|].
  destruct (Z.eqb_spec (Z.shiftr r 52 mod 2 ^ 11) 0).
  - destruct (Z.eqb_spec (r mod 2 ^ 52) 0); [done|]. simpl fits. rewrite Z2Pos.id by lia. lia.
  - simpl fits. rewrite Z2Pos.id by lia. lia.
Qed.

(** ** Rounding *)

Lemma shr_1_le r : 2 * shr_m (shr_1 r) <= Z.max 0 (shr_m r).
Proof. destruct r as [[|[p|p|]|[p|p|]] ? ?]; simpl; lia. Qed.

Lemma iter_shr_le p : forall r, 2 ^ Z.pos p * shr_m (iter_pos shr_1 p r) <= Z.max 0 (shr_m r).
Proof.
  induction p as [p IH|p IH|]; intros r; cbn [iter_pos].
  - pose proof (IH (iter_pos shr_1 p (shr_1 r))). pose proof (IH (shr_1 r)). pose proof (shr_1_le r).
    replace (Z.pos p~1) with (Z.pos p + Z.pos p + 1) by lia. rewrite !Z.pow_add_r by lia. nia.
  - pose proof (IH (iter_pos shr_1 p r)). pose proof (IH r).
    replace (Z.pos p~0) with (Z.pos p + Z.pos p) by lia. rewrite !Z.pow_add_r by lia. nia.
  - pose proof (shr_1_le r). change (2 ^ 1) with 2. lia.
Qed.

Lemma digits2_bound p : 2 ^ (Z.pos (digits2_pos p) - 1) <= Z.pos p < 2 ^ Z.pos (digits2_pos p).
Proof.
  induction p as [p IH|p IH|]; cbn [digits2_pos]; [| |simpl; lia];
    rewrite Pos2Z.inj_succ; replace (Z.succ (Z.pos (digits2_pos p)) - 1) with (Z.succ (Z.pos (digits2_pos p) - 1)) by lia;
    rewrite !Z.pow_succ_r by lia; lia.
Qed.

Lemma zdigits_bound m : 0 <= m -> m < 2 ^ Zdigits2 m /\ 0 <= Zdigits2 m /\ forall k, 0 <= k -> m < 2 ^ k -> Zdigits2 m <= k.
Proof.
  intros Hm. destruct m as [|p|]; [|pose proof (digits2_bound p) as [Hl Hu]|lia]; cbn [Zdigits2].
  - split_and!; [simpl; lia..|]. intros; lia.
  - split_and!; [done|lia|]. intros k Hk Hlt. destruct (Z.le_gt_cases (Z.pos (digits2_pos p)) k); [done|].
    assert (2 ^ k <= 2 ^ (Z.pos (digits2_pos p) - 1)) by (apply Z.pow_le_mono_r; lia). lia.
Qed.

Lemma shr_of_loc m l : shr_m (shr_record_of_loc m l) = m.
Proof. by destruct l as [|[]]. Qed.

(** One shift brings the mantissa below 2^53. *)
Lemma shr_fexp_fits m e l : 0 <= m -> let r := shr_fexp 53 1024 m e l in
  shr_m r.1 < 2 ^ 53 /\ -1074 <= r.2 /\ (m <= 2 ^ 53 -> -1074 <= e -> e <= r.2).
Proof.
  intros Hm. unfold shr_fexp, fexp, emin. cbv zeta. change (3 - 1024 - 53) with (-1074).
  destruct (zdigits_bound m Hm) as (Hd & Hd0 & _). set (d := Zdigits2 m) in *.
  destruct (Z.max (d + e - 53) (-1074) - e) as [|p|p] eqn:Hn; cbn [shr fst snd]; rewrite ?shr_of_loc.
  - split_and!; [|lia|lia]. eapply Z.lt_le_trans; [exact Hd|]. apply Z.pow_le_mono_r; lia.
  - split_and!; [|lia|lia]. pose proof (iter_shr_le p (shr_record_of_loc m l)) as H. rewrite shr_of_loc in H.
    set (x := shr_m _) in *. destruct (Z.le_gt_cases x 0); [lia|].
    assert (Hx : 2 ^ Z.pos p * x < 2 ^ d) by lia.
    assert (2 ^ d <= 2 ^ Z.pos p * 2 ^ 53) by (rewrite <- Z.pow_add_r by lia; apply Z.pow_le_mono_r; lia).
    assert (0 < 2 ^ Z.pos p) by (apply Z.pow_pos_nonneg; lia). nia.
  - split_and!; [|lia|lia]. eapply Z.lt_le_trans; [exact Hd|]. apply Z.pow_le_mono_r; lia.
Qed.

Lemma shr_1_nonneg r : 0 <= shr_m r -> 0 <= shr_m (shr_1 r).
Proof. destruct r as [[|[p|p|]|[p|p|]] ? ?]; simpl; lia. Qed.

Lemma iter_shr_nonneg p : forall r, 0 <= shr_m r -> 0 <= shr_m (iter_pos shr_1 p r).
Proof. induction p as [p IH|p IH|]; intros r Hr; cbn [iter_pos]; [by apply IH, IH, shr_1_nonneg|by apply IH, IH|by apply shr_1_nonneg]. Qed.

Lemma shr_fexp_nonneg m e l : 0 <= m -> 0 <= shr_m (shr_fexp 53 1024 m e l).1.
Proof.
  intros Hm. unfold shr_fexp. destruct (_ - e) as [|p|p]; cbn [shr fst]; rewrite ?shr_of_loc; try done.
  apply iter_shr_nonneg. by rewrite shr_of_loc.
Qed.

Lemma round_aux_fits s m e l : 0 <= m -> fits (binary_round_aux 53 1024 s m e l).
Proof.
  intros Hm. unfold binary_round_aux. pose proof (shr_fexp_fits m e l Hm) as H1. pose proof (shr_fexp_nonneg m e l Hm) as H0.
  destruct (shr_fexp 53 1024 m e l) as [r1 e1]. simpl in H0, H1. destruct H1 as (Hr1 & He1 & _).
  set (n := round_nearest_even _ _).
  assert (Hn : 0 <= n <= 2 ^ 53) by (unfold n, round_nearest_even; destruct (loc_of_shr_record r1) as [|[]]; try destruct (Z.even _); lia).
  pose proof (shr_fexp_fits n e1 loc_Exact (proj1 Hn)) as H2. destruct (shr_fexp 53 1024 n e1 loc_Exact) as [r2 e2]. simpl in H2.
  destruct H2 as (Hr2 & He2 & _). destruct (shr_m r2) as [|p|p]; [done| |done]. change (1024 - 53) with 971.
  destruct (Z.leb_spec e2 971); [|done]. simpl. lia.
Qed.

Lemma normalize_fits m e s : fits (binary_normalize 53 1024 m e s).
Proof. destruct m as [|p|p]; [done| |]; simpl; unfold binary_round; destruct (shl_align _ _ _); by apply round_aux_fits. Qed.

Lemma SFdiv_fits a b : fits (SFdiv 53 1024 a b).
Proof.
  destruct a as [| | |sa ma ea], b as [| | |sb mb eb]; simpl; try done. unfold SFdiv_core_binary.
  set (e' := Z.min _ _). set (k := match _ with Z0 => _ | _ => _ end).
  assert (Hk : 0 <= k) by (unfold k; destruct (_ - e'); [lia| |lia]; apply Z.shiftl_nonneg; lia).
  pose proof (Z_div_mod k (Z.pos mb) ltac:(lia)) as Hq. destruct (Z.div_eucl k (Z.pos mb)) as [q r]. apply round_aux_fits. nia.
Qed.

Lemma f64_op_range op a b : (forall x y, fits x -> fits y -> fits (op x y)) -> 0 <= f64_op op a b < 2 ^ 64.
Proof. intros H. apply fits_bits, H; apply bits_fits. Qed.

(** ** Operations *)

Lemma bits_range z : 0 <= z -> (forall n, 64 <= n -> Z.testbit z n = false) -> 0 <= z < 2 ^ 64.
Proof.
  intros Hz H. split; [done|]. destruct (Z.lt_ge_cases z (2 ^ 64)) as [|Hge]; [done|]. exfalso.
  assert (Hl : 64 <= Z.log2 z) by (apply Z.log2_le_pow2; lia). specialize (H (Z.log2 z) Hl). rewrite Z.bit_log2 in H by lia. done.
Qed.

Lemma high_bit z n : 0 <= z < 2 ^ 64 -> 64 <= n -> Z.testbit z n = false.
Proof.
  intros [Hz Hlt] Hn. destruct (Z.eq_dec z 0) as [->|]; [apply Z.bits_0|]. apply Z.bits_above_log2; [done|].
  assert (Z.log2 z < 64) by (apply Z.log2_lt_pow2; lia). lia.
Qed.

Lemma lor_range a b : 0 <= a < 2 ^ 64 -> 0 <= b < 2 ^ 64 -> 0 <= Z.lor a b < 2 ^ 64.
Proof. intros Ha Hb. apply bits_range; [apply Z.lor_nonneg; lia|]. intros n Hn. by rewrite Z.lor_spec, !high_bit. Qed.

Lemma lxor_range a b : 0 <= a < 2 ^ 64 -> 0 <= b < 2 ^ 64 -> 0 <= Z.lxor a b < 2 ^ 64.
Proof. intros Ha Hb. apply bits_range; [apply Z.lxor_nonneg; lia|]. intros n Hn. by rewrite Z.lxor_spec, !high_bit. Qed.

Lemma land64_range a b : 0 <= a < 2 ^ 64 -> 0 <= b < 2 ^ 64 -> 0 <= Z.land a b < 2 ^ 64.
Proof. intros Ha Hb. apply bits_range; [apply Z.land_nonneg; lia|]. intros n Hn. by rewrite Z.land_spec, !high_bit. Qed.

Lemma b2z_range b : 0 <= b2z b < 2 ^ 64.
Proof. destruct b; simpl; lia. Qed.

Lemma binop_range op a b : 0 <= a < 2 ^ 64 -> 0 <= b < 2 ^ 64 -> 0 <= cvm_binop op a b < 2 ^ 64.
Proof.
  intros Ha Hb. destruct op; simpl cvm_binop; try apply u64_range; try apply b2z_range.
  - unfold cvm_safe_div_i64. destruct (_ =? 0); [lia|]. destruct (_ && _); apply u64_range.
  - unfold cvm_safe_mod_i64. destruct (_ =? 0); [lia|]. destruct (_ && _); [lia|apply u64_range].
  - apply f64_op_range. intros [| | |] [| | |]; simpl; try done; intros; repeat case_match; try done; apply normalize_fits.
  - apply f64_op_range. intros [| | |] [| | |]; simpl; try done; intros; repeat case_match; try done; apply normalize_fits.
  - apply f64_op_range. intros [| | |] [| | |]; simpl; try done; intros; by apply round_aux_fits.
  - apply f64_op_range. intros. apply SFdiv_fits.
  - by apply land64_range.
  - by apply lor_range.
  - by apply lxor_range.
  - assert (Hs : 0 <= Z.land b 63) by (apply Z.land_nonneg; lia). rewrite Z.shiftr_div_pow2 by done.
    assert (0 < 2 ^ Z.land b 63) by (by apply Z.pow_pos_nonneg). split; [apply Z.div_pos; lia|].
    apply Z.div_lt_upper_bound; [lia|]. nia.
Qed.

Lemma unop_range tc op t a v : 0 <= a < 2 ^ 64 -> cvm_unop tc op t a = Some v -> 0 <= v < 2 ^ 64.
Proof.
  intros Ha H. destruct op; simpl in H.
  - apply fmap_Some in H as (x & _ & ->). apply u64_range.
  - injection H as <-. apply lxor_range; [done|lia].
  - injection H as <-. apply u64_range.
  - injection H as <-. apply b2z_range.
  - assert (Hf : 0 <= f64_of_s64 (s64 a) < 2 ^ 64) by apply fits_bits, normalize_fits.
    destruct (ty_kind <$> ty_deref tc t) as [[]|]; injection H as <-; done.
  - by injection H as <-.
  - injection H as <-. apply land64_range; lia.
  - by injection H as <-.
  - injection H as <-. apply u64_range.
  - injection H as <-. apply fits_bits, normalize_fits.
  - injection H as <-. apply fptosi_range.
Qed.

(** ** Instructions on registers alone

    What the interpreter does with an instruction that neither touches memory
    nor calls is a function of the registers it reads.  This turns the handlers
    of [cvm_engine.c] into an evaluator, on frames whose registers exist. *)

(** ** Registers *)

Definition rd (fr : CvmFrame) (v : MirValueId) : Z :=
  if (v =? MIR_VALUE_NONE)%N then 0 else default 0 (regs fr !! N.to_nat v).
Definition wr (fr : CvmFrame) (v : MirValueId) (w : Z) : CvmFrame :=
  if (v =? MIR_VALUE_NONE)%N then fr else set_regs fr (<[N.to_nat v := w]> (regs fr)).

(** The register file has all ids below [n]. *)
Definition has_regs (n : N) (fr : CvmFrame) : Prop := (N.to_nat n <= length (regs fr))%nat /\ Z.of_nat (length (regs fr)) <= CVM_MAX_REGS.
Definition readable (n : N) (v : MirValueId) : Prop := v = MIR_VALUE_NONE \/ (v < n)%N.

Lemma reg_lookup n fr v : has_regs n fr -> readable n v -> v <> MIR_VALUE_NONE ->
  (reg_count fr <=? s32 (Z.of_N v)) = false /\ regs fr !! N.to_nat v = Some (rd fr v).
Proof.
  intros [Hn Hmax] [|Hv] Hnz; [done|]. unfold rd, reg_count, CVM_MAX_REGS in *. rewrite s32_small by lia.
  destruct (N.eqb_spec v MIR_VALUE_NONE); [done|]. split; [lia|].
  destruct (lookup_lt_is_Some_2 (regs fr) (N.to_nat v)) as [w ->]; [lia|done].
Qed.

Lemma reg_get_rd n vm fr v : has_regs n fr -> readable n v -> cvm_reg_get vm fr v = Ok (vm, rd fr v).
Proof.
  intros Hn Hv. unfold cvm_reg_get. destruct (N.eqb_spec v MIR_VALUE_NONE) as [->|Hnz]; [done|].
  by destruct (reg_lookup n fr v Hn Hv Hnz) as [-> ->].
Qed.

Lemma set_next_wr n vm fr v w : has_regs n fr -> readable n v -> set_next vm fr v w = Ok (vm, wr fr v w, NextInst).
Proof.
  intros [Hn Hmax] Hv. unfold set_next, cvm_reg_set, wr. destruct (N.eqb_spec v MIR_VALUE_NONE); [done|].
  destruct Hv as [|Hv]; [done|]. unfold reg_count, CVM_MAX_REGS in *. rewrite s32_small by lia.
  destruct (Z.leb_spec (Z.of_nat (length (regs fr))) (Z.of_N v)); [lia|].
  destruct (Nat.leb_spec (length (regs fr)) (N.to_nat v)); [lia|done].
Qed.

Lemma rd_wr_eq n fr v w : has_regs n fr -> (v < n)%N -> v <> MIR_VALUE_NONE -> rd (wr fr v w) v = w.
Proof.
  intros [Hn _] Hv Hnz. unfold rd, wr. destruct (N.eqb_spec v MIR_VALUE_NONE); [done|]. simpl.
  by rewrite list_lookup_insert_eq by lia.
Qed.

Lemma rd_wr_ne fr v w u : u <> v -> rd (wr fr v w) u = rd fr u.
Proof.
  intros Hne. unfold rd, wr. destruct (v =? MIR_VALUE_NONE)%N; [done|]. destruct (u =? MIR_VALUE_NONE)%N; [done|]. simpl.
  rewrite list_lookup_insert_ne; [done|]. intros E%N2Nat.inj. by subst.
Qed.

Lemma rd_none fr : rd fr MIR_VALUE_NONE = 0.
Proof. done. Qed.

Lemma wr_regs n fr v w : has_regs n fr -> has_regs n (wr fr v w).
Proof. unfold has_regs, wr. destruct (v =? MIR_VALUE_NONE)%N; [done|]. simpl. by rewrite length_insert. Qed.

Lemma wr_allocas fr v w : allocas (wr fr v w) = allocas fr.
Proof. unfold wr. by destruct (v =? MIR_VALUE_NONE)%N. Qed.

(** ** Evaluation *)

Inductive effect := Write (w : Z) | Go (nx : next).

Definition apply_effect (vm : CvmState) (fr : CvmFrame) (r : MirValueId) (ef : effect) : CvmState * CvmFrame * next :=
  match ef with Write w => (vm, wr fr r w, NextInst) | Go nx => (vm, fr, nx) end.

(** [None]: a trap or undefined, or an instruction that is not on registers alone. *)
Definition evaluate (tc : list MirType) (string_addr : string -> Z) (reg : MirValueId -> Z) (k : MirInstKind) : option effect :=
  match k with
  | CONST_INT imm => Some (Write (u64 imm))
  | CONST_FLOAT bits => Some (Write bits)
  | CONST_BOOL b => Some (Write (b2z b))
  | CONST_STRING s => Some (Write (string_addr s))
  | CONST_NULL => Some (Write 0)
  | BINARY op lhs rhs => Some (Write (cvm_binop op (reg lhs) (if reads_rhs op (reg lhs) then reg rhs else 0)))
  | UNARY op operand t => Write <$> cvm_unop tc op t (reg operand)
  | GEP MIR_GET_FIELD_PTR base field_index _ => if field_index <? 0 then None else Some (Write (u64 (reg base + u32 field_index * 8)))
  | GEP MIR_GET_ELEM_PTR base _ index => Some (Write (u64 (reg base + u64 (reg index * 8))))
  | BR target => Some (Go (Jump target))
  | CONDBR cond true_bb false_bb => Some (Go (Jump (if reg cond =? 0 then false_bb else true_bb)))
  | RET value => Some (Go (Done (reg value)))
  | RET_VOID => Some (Go (Done 0))
  | CALL_VIRTUAL _ _ _ => Some (Write 0)
  | TRANSFER (MIR_COPY | MIR_BORROW | MIR_BORROW_MUT) source => Some (Write (reg source))
  | UNREACHABLE | ALLOCA _ _ | LOAD _ | STORE _ _ | OBJ_ALLOC _ _ | SWITCH _ _ _ | PHI _ | TRANSFER MIR_MOVE _ | EXTRACT _ _
  | CALL _ _ _ | CALL_INDIRECT _ _ _ => None
  | _ => Some (Go NextInst)
  end.

(** Instructions on registers alone. *)
Definition register_kind (tc : list MirType) (k : MirInstKind) : bool :=
  match k with ALLOCA _ _ | LOAD _ | STORE _ _ | CALL _ _ _ | CALL_INDIRECT _ _ _ => false | _ => true end && slot_kind tc k.

Section exec.
Context (module : MirModule) (calloc : gmap Z Z -> Z -> option Z) (string_addr : string -> Z).

Abbreviation exec_inst := (exec_inst module calloc string_addr).
Abbreviation evaluate := (evaluate (type_cache module) string_addr).

Lemma exec_evaluate n vm fr prev i : has_regs n fr -> readable n (result i) -> (forall v, v ∈ inst_uses (as_ i) -> readable n v) ->
  register_kind (type_cache module) (as_ i) = true ->
  match evaluate (rd fr) (as_ i) with
  | Some ef => exec_inst vm fr prev i = Ok (apply_effect vm fr (result i) ef)
  | None => forall r, exec_inst vm fr prev i = Ok r -> trap_code r.1.1 <> 0
  end.
Proof.
  intros Hn Hr Hu Hk. assert (Hget : forall vm v, v ∈ inst_uses (as_ i) -> cvm_reg_get vm fr v = Ok (vm, rd fr v)).
  { intros vm1 v Hv. by apply (reg_get_rd n); [|apply Hu]. }
  assert (Hset : forall vm w, set_next vm fr (result i) w = Ok (vm, wr fr (result i) w, NextInst)) by (intros; by apply (set_next_wr n)).
  unfold Cvm.exec_inst, Cvm.op_binary. destruct (as_ i) as [| | | | | | | | | | | |[]| | | | | | | | | | |[]| | | | | | | | | |] eqn:Ei; try done;
    simpl in Hget |- *; rewrite ?Hget by set_solver; cbn [obind fst snd];
    try (apply Hset); try done.
  - destruct (reads_rhs op (rd fr lhs)); cbn [obind fst snd]; [rewrite Hget by set_solver|]; cbn [obind fst snd]; apply Hset.
  - destruct (cvm_unop _ _ _ _) as [v|]; cbn [of_option obind fmap option_fmap option_map]; [apply Hset|done].
  - destruct (_ <? 0); [|apply Hset]. by intros r [= <-].
  - rewrite Hget by set_solver. cbn [obind fst snd]. apply Hset.
  - by intros r [= <-].
Qed.

Lemma evaluate_rename σ reg reg' i : register_kind (type_cache module) (as_ i) = true ->
  (forall v, v ∈ inst_uses (as_ i) -> reg' (σ v) = reg v) -> evaluate reg' (as_ (map_operands σ i)) = evaluate reg (as_ i).
Proof.
  intros Hk Hu. unfold map_operands. destruct (as_ i) as [| | | | | | | | | | | |[]| | | | | | | | | | |[]| | | | | | | | | |]; try done;
    simpl in *; rewrite ?Hu by set_solver; try done.
Qed.

Lemma evaluate_range reg i w : register_kind (type_cache module) (as_ i) = true -> (forall s, 0 <= string_addr s < 2 ^ 64) ->
  (forall v, 0 <= reg v < 2 ^ 64) -> evaluate reg (as_ i) = Some (Write w) -> 0 <= w < 2 ^ 64.
Proof.
  intros Hk Hs Hr. destruct (as_ i) as [| | | | | | | | | | | |[]| | | | | | | | | | |[]| | | | | | | | | |]; try done; simpl; try (intros [= <-]); try apply u64_range;
    try apply b2z_range; try apply Hs; try apply Hr; try lia.
  - unfold register_kind, slot_kind in Hk. unfold in_u64 in Hk. lia.
  - apply binop_range; [apply Hr|]. destruct (reads_rhs _ _); [apply Hr|lia].
  - intros (v & Hv & [= <-])%fmap_Some. eapply unop_range; [apply Hr|exact Hv].
  - destruct (_ <? 0); [done|]. intros [= <-]. apply u64_range.
Qed.

(** Where control goes. *)
Lemma evaluate_next reg i ef : evaluate reg (as_ i) = Some ef ->
  match ef with
  | Write _ | Go NextInst => is_terminator (as_ i) = false
  | Go (Jump (Some b)) => b ∈ targets (as_ i)
  | Go (Jump None) => True
  | Go (Done v) => v = 0 \/ exists r, as_ i = RET r /\ v = reg r
  end.
Proof.
  destruct (as_ i) as [| | | | | | | | | | | |[]| | | | | | | | | | |[]| | | | | | | | | |]; simpl; try (intros [= <-]; done).
  - destruct (cvm_unop _ _ _ _); by intros [= <-].
  - destruct (_ <? 0); [done|]; by intros [= <-].
  - intros [= <-]. destruct target; [left|done].
  - intros [= <-]. destruct (reg cond =? 0); [destruct false_bb|destruct true_bb]; simpl; try done; set_solver.
  - intros [= <-]. right. by exists value.
  - intros [= <-]. by left.
Qed.

Lemma collect_args_rd n vm fr ids : has_regs n fr -> (forall v, v ∈ ids -> readable n v) ->
  collect_args vm fr ids = Ok (vm, Some (map (rd fr) ids)).
Proof.
  intros Hn. induction ids as [|v ids IH]; intros Hv; cbn [collect_args map]; [done|].
  rewrite IH by (intros u Hu; apply Hv; by right). cbn [obind fst snd fmap option_fmap option_map].
  change 0%N with MIR_VALUE_NONE. destruct (N.eqb_spec v MIR_VALUE_NONE) as [->|Hnz]; [done|].
  by destruct (reg_lookup n fr v Hn (Hv v ltac:(left)) Hnz) as [-> ->].
Qed.
End exec.
