(* ===== verification/SlotSim.v ===== *)
(** * Where the values of a promoted function are defined

    The reaching value of a slot, and the image of every available value, is
    defined on every path to the place that reads it; so a register is never
    overwritten while it still stands for a slot or for a load. *)
From S2P Require Import Prelude MirCore MirGraph MirOpt Dominators DomFacts DomFrontier MirBuilder.
From S2P Require Import Mem2Reg SlotForm PhiInsert Renaming Promotion Float64 Cvm CvmFacts CvmMemory.
From S2P Require Import MirBuilderFacts SlotExec.

Section reaching.
Context (tc : list MirType) (f : MirFunction) (e : nat) (Hf : slot_form tc f e).
Context (h : MirFunction) (ph : phi_map) (und : list PhiRec) (s : gmap MirValueId MirValueId) (E : edge_map).
Context (Rin : nat -> MirValueId -> MirValueId) (f' : MirFunction) (Hren : renamed f e h ph und s E Rin f').

Abbreviation bl := (block_list f).
Abbreviation Htree := (rd_tree _ _ _ _ _ _ _ _ _ Hren).

(** The reaching values in front of the [j]th instruction of [c]. *)
Definition Rat (c j : nat) : MirValueId -> MirValueId := after_all (app s) (Rin c) (take j (inst_list f c)).

(** ** Dominance *)

Lemma dom_anc d b : b ∈ bl -> dominates f e d b <-> anc h b d.
Proof. intros Hb. symmetry. apply (dt_chain _ _ _ Htree). by apply (sf_reach _ _ _ Hf). Qed.

Lemma dom_trans a b c : c ∈ bl -> b ∈ bl -> dominates f e a b -> dominates f e b c -> dominates f e a c.
Proof. intros Hc Hb. rewrite !dom_anc by done. intros H1 H2. by etransitivity. Qed.

Lemma dom_anti b c : c ∈ bl -> b ∈ bl -> dominates f e b c -> dominates f e c b -> b = c.
Proof.
  intros Hc Hb. rewrite !dom_anc by done. intros H1 H2.
  symmetry. by apply (anc_anti tc f e Hf h Htree).
Qed.

Lemma dom_bl d c : c ∈ bl -> dominates f e d c -> d ∈ bl.
Proof. intros Hc Hd%dom_anc; [|done]. by apply (anc_up tc f e Hf h Htree c). Qed.

(** Induction over the dominators of a block. *)
Lemma dom_ind (Q : nat -> Prop) :
  (forall b, b ∈ bl -> (forall d, d <> b -> dominates f e d b -> Q d) -> Q b) -> forall b, b ∈ bl -> Q b.
Proof.
  intros HQ b Hb. pose proof (all_below tc f e Hf h Htree b Hb) as Ha.
  assert (H : b ∈ bl -> forall d, anc h b d -> Q d); [|apply H; [done|constructor]]. clear Hb.
  apply (rtc_ind_l (R := fun c p => idom_of h c = Some p) (fun b => b ∈ bl -> forall d, anc h b d -> Q d) e); [| |exact Ha].
  - intros He d Hd. assert (d = e) as ->.
    { apply dom_anc in Hd; [|done]. by apply dominates_entry in Hd. }
    apply HQ; [done|]. intros d Hne Hde. by apply dominates_entry in Hde.
  - intros c i Hci Hie IH Hc. assert (Hi : i ∈ bl) by (by eapply (parent_bl tc f e Hf h Htree)).
    assert (Hup : forall d, d <> c -> anc h c d -> Q d).
    { intros d Hne [->|(p & Hp & Hd)]%anc_inv; [done|]. assert (p = i) as -> by congruence. by apply IH. }
    intros d Hd. destruct (decide (d = c)) as [->|Hne]; [|by apply Hup].
    apply HQ; [done|]. intros d Hne Hdc. apply Hup; [done|]. by apply dom_anc.
Qed.

(** ** Places *)

Lemma before_mono b i c j k : before f e b i c j -> (j <= k)%nat -> before f e b i c k.
Proof. intros [[-> ?]|?] Hk; [left; split; [done|lia]|by right]. Qed.

Lemma before_down b i d c : d <> c -> c ∈ bl -> dominates f e d c -> before f e b i d (length (inst_list f d)) -> before f e b i c 0.
Proof.
  intros Hne Hc Hd. pose proof (dom_bl d c Hc Hd) as Hdb. intros [[-> _]|[Hbd Hb]]; right; [done|]. split.
  - intros ->. by apply Hne, dom_anti.
  - by eapply dom_trans.
Qed.

Lemma before_irrefl c j : ~ before f e c j c j.
Proof. intros [[_ ?]|[? _]]; [lia|done]. Qed.

Lemma available_mono v c j k : available f e v c j -> (j <= k)%nat -> available f e v c k.
Proof. intros [?|[?|(b & i & Hd & Hb)]] Hk; [by left|by right; left|right; right]. exists b, i. split; [done|]. by eapply before_mono. Qed.

(** Backwards over an instruction that does not define the value. *)
Lemma available_back v c j x : available f e v c (S j) -> inst_at f c j = Some x -> result x <> v -> available f e v c j.
Proof.
  intros [?|[?|(b & i & (y & Hy & Hv) & Hb)]] Hx Hne; [by left|by right; left|right; right]. exists b, i. split; [by exists y|].
  destruct Hb as [[-> Hi]|Hb]; [|by right]. left. split; [done|]. destruct (decide (i = j)) as [->|]; [|lia].
  assert (y = x) as -> by congruence. done.
Qed.

(** Backwards over an edge. *)
Lemma available_edge v p c : available f e v c 0 -> edge f p c -> p ∈ bl -> available f e v p (length (inst_list f p)).
Proof.
  intros [?|[?|(b & i & (y & Hy & Hv) & Hb)]] Hpc Hp; [by left|by right; left|right; right]. exists b, i. split; [by exists y|].
  destruct Hb as [[-> Hi]|[Hne Hb]]; [lia|]. destruct (decide (b = p)) as [->|Hbp].
  - left. split; [done|]. unfold inst_at in Hy. by apply lookup_lt_Some in Hy.
  - right. split; [done|]. by apply (dominates_pred f e b p c).
Qed.

Lemma available_value v c j : available f e v c j -> v = MIR_VALUE_NONE \/ v ∈ function_values f.
Proof.
  intros [?|[Hp|(b & i & (y & Hy & Hv) & _)]]; [by left|right; by apply param_value|].
  destruct (decide (v = MIR_VALUE_NONE)); [by left|right]. subst v. by eapply (result_value tc f e Hf).
Qed.

(** ** Values of the promoted function *)

(** [w] is defined in front of the place, in the promoted function. *)
Definition lives (w : MirValueId) (c j : nat) : Prop :=
  (w ∉ loads f /\ available f e w c j) \/ (exists x, x ∈ und /\ ph_val x = w) \/
  (exists b x, x ∈ ph b /\ ph_val x = w /\ dominates f e b c).

Lemma lives_mono w c j k : lives w c j -> (j <= k)%nat -> lives w c k.
Proof. intros [[? ?]|[?|?]] Hk; [left; split; [done|]; by eapply available_mono|by right; left|by right; right]. Qed.

Lemma lives_down w d c : d <> c -> c ∈ bl -> dominates f e d c -> lives w d (length (inst_list f d)) -> lives w c 0.
Proof.
  intros Hne Hc Hd. pose proof (dom_bl d c Hc Hd) as Hdb. intros [[Hl Ha]|[?|(b & x & Hx & Hv & Hb)]]; [left|by right; left|right; right].
  - split; [done|]. destruct Ha as [?|[?|(b & i & Hdef & Hb)]]; [by left|by right; left|right; right]. exists b, i. split; [done|]. by eapply before_down.
  - exists b, x. split_and!; [done..|]. by eapply dom_trans.
Qed.

Lemma Rat_S c j x a : inst_at f c j = Some x -> Rat c (S j) a = after (app s) (Rat c j) x a.
Proof. intros Hx. unfold Rat. unfold inst_at in Hx. by rewrite (take_S_r _ _ _ Hx), after_all_snoc. Qed.

Lemma Rat_leave c : Rat c (length (inst_list f c)) = leave f s Rin c.
Proof. unfold Rat, leave. by rewrite firstn_all. Qed.

(** The image of a value that is no load is the value itself. *)
Lemma image_other v : v ∉ loads f -> app s v = v.
Proof. apply (app_other f), Hren. Qed.

Lemma image_lives c : c ∈ bl -> (forall d, d <> c -> dominates f e d c -> forall j a, a ∈ slots f -> lives (Rat d j a) d j) ->
  forall j, (forall i a, (i < j)%nat -> a ∈ slots f -> lives (Rat c i a) c i) -> forall v, available f e v c j -> v ∉ slots f -> lives (app s v) c j.
Proof.
  intros Hc Hup j Hown v Hv Hns. destruct (decide (v ∈ loads f)) as [Hl|Hl]; [|rewrite image_other by done; by left].
  destruct (loads_at f v Hl) as (d & i & y & p & Hy & Hp & Heq).
  destruct (rd_load _ _ _ _ _ _ _ _ _ Hren d i y p Hy Hp) as [_ Him]. rewrite Heq in Him. fold (Rat d i) in Him.
  pose proof (load_value tc f e Hf d i y p Hy Hp) as [Hnz Hpslot].
  assert (Hdef : before f e d i c j).
  { destruct Hv as [->|[Hpar|(d' & i' & (z & Hz & Ez) & Hb)]].
    - by apply (none_no_load tc f e Hf) in Hl.
    - by apply (param_no_load tc f e Hf) in Hl.
    - destruct (def_unique tc f e Hf d i d' i' y z Hy Hz) as [-> ->]; congruence. }
  rewrite Him. destruct Hdef as [[-> Hij]|[Hne Hd]].
  - eapply lives_mono; [by apply Hown|lia].
  - eapply lives_mono; [|apply Nat.le_0_l]. eapply (lives_down _ d c); [done..|]. eapply lives_mono; [by apply Hup|].
    unfold inst_at in Hy. apply lookup_lt_Some in Hy. lia.
Qed.

Lemma Rat_lives c : c ∈ bl -> forall j a, a ∈ slots f -> lives (Rat c j a) c j.
Proof.
  intros Hc. pattern c. revert c Hc. apply dom_ind. intros c Hc Hup.
  assert (H : forall j i a, (i <= j)%nat -> a ∈ slots f -> lives (Rat c i a) c i); [|intros j a; by apply (H j)].
  induction j as [|j IH]; intros i a Hi Ha.
  - assert (i = 0%nat) as -> by lia. change (Rat c 0 a) with (Rin c a). destruct (decide (c = e)) as [->|Hce].
    + destruct (rd_root _ _ _ _ _ _ _ _ _ Hren a Ha) as (x & Hx & ->). right. left. by exists x.
    + destruct (rd_down _ _ _ _ _ _ _ _ _ Hren c Hc Hce) as (p & Hp & Hpb & HR). rewrite HR by done.
      destruct (phi_of ph a c) as [v|] eqn:Ev; simpl.
      * apply phi_of_Some in Ev as (x & Hx & _ & <-). right. right. exists c, x. split_and!; [done..|]. apply dominates_refl.
      * rewrite <- Rat_leave. destruct (dt_idom _ _ _ Htree c (sf_reach _ _ _ Hf c Hc) Hce) as (p' & Hp' & _ & Hne & Hdom & _).
        assert (p' = p) as -> by congruence. apply (lives_down _ p c); [done..|]. by apply Hup.
  - destruct (decide (i = S j)) as [->|]; [|apply IH; [lia|done]].
    destruct (inst_at f c j) as [x|] eqn:Hx.
    + rewrite (Rat_S c j x) by done. assert (Hj : lives (Rat c j a) c (S j)) by (eapply lives_mono; [by apply IH|lia]).
      unfold after. destruct (as_ x) eqn:Ex; try exact Hj. destruct (N.eqb_spec a ptr); [|exact Hj].
      eapply lives_mono; [|apply Nat.le_succ_diag_r]. destruct (store_value tc f e Hf c j x ptr value Hx Ex) as [_ Hns].
      apply image_lives; [done|exact Hup| | |exact Hns].
      * intros k b Hk Hb. apply IH; [lia|done].
      * apply (sf_strict _ _ _ Hf c j x); [done|]. rewrite Ex. simpl. set_solver.
    + assert (Rat c (S j) a = Rat c j a) as ->.
      { unfold Rat. unfold inst_at in Hx. apply lookup_ge_None in Hx. by rewrite !take_ge by lia. }
      eapply lives_mono; [by apply IH|lia].
Qed.

Lemma app_lives c j v : c ∈ bl -> available f e v c j -> v ∉ slots f -> lives (app s v) c j.
Proof. intros Hc Hv Hns. apply image_lives; [done| |intros; by apply Rat_lives|done..]. intros d Hne Hd k a Ha. apply Rat_lives; [by eapply dom_bl|done]. Qed.

(** ** No register is overwritten too early *)

(** The result of an instruction is not yet alive in front of it. *)
Lemma result_not_alive c j x w : inst_at f c j = Some x -> lives w c j -> result x <> MIR_VALUE_NONE -> w <> result x.
Proof.
  intros Hx Hw Hnz ->. pose proof (result_value tc f e Hf c j x Hx Hnz) as Hv. pose proof (value_bound tc f e Hf _ Hv) as Hlt.
  destruct Hw as [[_ [Heq|[Hpar|(b & i & (y & Hy & Ey) & Hb)]]]|[(y & Hy & Ey)|(b & y & Hy & Ey & _)]].
  - done.
  - by apply (param_no_result tc f e Hf _ c j x Hpar).
  - destruct (def_unique tc f e Hf b i c j y x Hy Hx Ey) as [-> ->]; [congruence|]. by apply before_irrefl in Hb.
  - pose proof (rd_range _ _ _ _ _ _ _ _ _ Hren y ltac:(by left)). lia.
  - pose proof (rd_range _ _ _ _ _ _ _ _ _ Hren y ltac:(eauto)). lia.
Qed.

(** A value that is alive behind a strict dominator is no phi of the block. *)
Lemma phi_nonzero b x : x ∈ ph b -> (0 < next_value_id f <= ph_val x)%N.
Proof.
  intros Hx. pose proof (rd_range _ _ _ _ _ _ _ _ _ Hren x ltac:(eauto)) as Hr.
  pose proof (rd_slots _ _ _ _ _ _ _ _ _ Hren b x Hx) as (d & i & y & Hy & Ha & Heq)%(slot_def tc f e Hf).
  pose proof (value_bound tc f e Hf _ (result_value tc f e Hf d i y Hy (alloca_value tc f e Hf d i y Hy Ha))). lia.
Qed.

Lemma alive_no_phi d c w x : d <> c -> c ∈ bl -> dominates f e d c -> lives w d (length (inst_list f d)) -> x ∈ ph c -> w <> ph_val x.
Proof.
  intros Hne Hc Hd Hw Hx ->. pose proof (dom_bl d c Hc Hd) as Hdb. destruct Hw as [[_ Ha]|[(y & Hy & Ey)|(b & y & Hy & Ey & Hb)]].
  - pose proof (phi_nonzero c x Hx). apply available_value in Ha as [E0|Hv]; [rewrite ?E0 in *; lia|].
    apply (value_bound tc f e Hf) in Hv. lia.
  - by apply (rd_undef _ _ _ _ _ _ _ _ _ Hren c y x).
  - destruct (rd_inj _ _ _ _ _ _ _ _ _ Hren b c y x Hy Hx Ey) as [-> ->]. apply Hne. by apply dom_anti.
Qed.

(** Neither is the image of a value that is available at its front. *)
Lemma image_no_phi c v x : c ∈ bl -> available f e v c 0 -> v ∉ slots f -> x ∈ ph c -> app s v <> ph_val x.
Proof.
  intros Hc Hv Hns Hx. destruct (decide (v ∈ loads f)) as [Hl|Hl].
  - destruct (loads_at f v Hl) as (d & i & y & p & Hy & Hp & Heq).
    assert (Hdef : before f e d i c 0).
    { destruct Hv as [->|[Hpar|(d' & i' & (z & Hz & Ez) & Hb)]].
      - by apply (none_no_load tc f e Hf) in Hl.
      - by apply (param_no_load tc f e Hf) in Hl.
      - destruct (def_unique tc f e Hf d i d' i' y z Hy Hz) as [-> ->]; [congruence|by eapply (load_value tc f e Hf)|done]. }
    destruct Hdef as [[_ ?]|[Hne Hd]]; [lia|]. apply (alive_no_phi d c); [done..| |done]. apply app_lives; [by eapply dom_bl| |done].
    right. right. exists d, i. split; [by exists y|]. left. split; [done|]. unfold inst_at in Hy. by apply lookup_lt_Some in Hy.
  - rewrite image_other by done. intros ->. pose proof (phi_nonzero c x Hx). apply available_value in Hv as [E0|Hv]; [rewrite ?E0 in *; lia|].
    apply (value_bound tc f e Hf) in Hv. lia.
Qed.

Lemma reaching_no_phi c a x : c ∈ bl -> a ∈ slots f -> phi_of ph a c = None -> x ∈ ph c -> Rin c a <> ph_val x.
Proof.
  intros Hc Ha Hn Hx. assert (Hce : c <> e).
  { intros ->. rewrite (rd_entry _ _ _ _ _ _ _ _ _ Hren) in Hx. by apply not_elem_of_nil in Hx. }
  destruct (rd_down _ _ _ _ _ _ _ _ _ Hren c Hc Hce) as (p & Hp & Hpb & HR). rewrite HR, Hn by done. simpl.
  destruct (dt_idom _ _ _ Htree c (sf_reach _ _ _ Hf c Hc) Hce) as (p' & Hp' & _ & Hne & Hdom & _).
  assert (p' = p) as -> by congruence. apply (alive_no_phi p c); [done..| |done]. rewrite <- Rat_leave. by apply Rat_lives.
Qed.

End reaching.

(** ** A frame before and after the promotion

    The relation between the frame of a function in slot form and the frame of
    its promotion, in front of an instruction: equal registers, for the loads
    done so far the registers of their images, for the slots the registers of
    their reaching values; and how each instruction and each edge of the
    control flow graph preserves it. *)

(** ** Memory *)

Lemma elem_range a p n : a ∈ range p n <-> p <= a < p + n.
Proof. unfold range. by rewrite elem_of_list_to_set, elem_of_seqZ. Qed.

Lemma load64_ext m m' p : (forall a, a ∈ range p 8 -> m !! a = m' !! a) -> load64 m p = load64 m' p.
Proof. intros H. apply load_bytes_ext. intros a Ha. apply H, elem_range. lia. Qed.

Lemma zero_range_at m p n a : zero_range m p n !! a = if decide (a ∈ range p n) then Some 0 else m !! a.
Proof. rewrite zero_range_lookup. apply decide_ext. unfold range. by rewrite elem_of_list_to_set. Qed.

Lemma load_zero m p : load64 (zero_range m p 8) p = Some 0.
Proof.
  unfold load64. assert (H : forall n q, p <= q -> q + Z.of_nat n <= p + 8 -> load_bytes n (zero_range m p 8) q = Some 0); [|apply H; lia].
  induction n as [|n IH]; intros q Hq Hn; [done|]. cbn [load_bytes]. rewrite zero_range_at, decide_True by (apply elem_range; lia).
  cbn [mbind option_bind]. by rewrite (IH (q + 1)) by lia.
Qed.

Lemma free_lookup m fr a : a ∉ ranges (allocas fr) -> cvm_frame_free_allocas m fr !! a = m !! a.
Proof.
  unfold cvm_frame_free_allocas, ranges. intros Ha.
  assert (H : forall l m, (forall r, r ∈ l -> a ∉ range r.1 r.2) -> fold_left (fun m r => free_range m r.1 r.2) l m !! a = m !! a).
  { intros l. induction l as [|r l IH]; intros m0 Hl; [done|]. simpl. rewrite IH by (intros q Hq; apply Hl; by right).
    specialize (Hl r ltac:(left)). unfold free_range, range in *. induction (seqZ r.1 r.2) as [|b k IHk]; [done|]. simpl.
    rewrite lookup_delete_ne by set_solver. apply IHk. set_solver. }
  apply H. intros r Hr. rewrite <- list_elem_of_In, <- in_rev, list_elem_of_In in Hr || (apply list_elem_of_In, in_rev, list_elem_of_In in Hr).
  intros Hin. apply Ha. apply elem_of_union_list. exists (range r.1 r.2). split; [by apply (list_elem_of_fmap_2 (fun a => range a.1 a.2))|done].
Qed.

(** A frame that is left restores the memory it started with. *)
Lemma free_restores (B m : gmap Z Z) fr : dom m = dom B ∪ ranges (allocas fr) -> dom B ## ranges (allocas fr) ->
  (forall a, a ∈ dom B -> m !! a = B !! a) -> cvm_frame_free_allocas m fr = B.
Proof.
  intros Hd Hdis Hm. apply map_eq. intros a. destruct (decide (a ∈ dom B)) as [Ha|Ha].
  - rewrite free_lookup by set_solver. by apply Hm.
  - rewrite (proj1 (not_elem_of_dom B a) Ha). apply not_elem_of_dom. rewrite dom_free_allocas, Hd. set_solver.
Qed.

Lemma ranges_elem r l a : r ∈ l -> a ∈ range r.1 r.2 -> a ∈ ranges l.
Proof.
  intros Hr Ha. unfold ranges. apply elem_of_union_list. exists (range r.1 r.2). split; [|done].
  by apply (list_elem_of_fmap_2 (fun a => range a.1 a.2)).
Qed.

Section sim.
Context (tc : list MirType) (f : MirFunction) (e : nat) (Hf : slot_form tc f e).
Context (h : MirFunction) (ph : phi_map) (und : list PhiRec) (s : gmap MirValueId MirValueId) (E : edge_map).
Context (Rin : nat -> MirValueId -> MirValueId) (f' : MirFunction) (Hren : renamed f e h ph und s E Rin f').

Abbreviation bl := (block_list f).
Abbreviation Rat := (Rat f s Rin).

(** [B] is the memory when the frame was entered. *)
Record agree_at (B m : gmap Z Z) (c j : nat) (fr fr' : CvmFrame) : Prop := {
  ag_regs : has_regs (next_value_id f) fr;
  ag_regs' : has_regs (next_value_id f') fr';
  ag_allocas : allocas fr' = [];
  ag_range : forall v, 0 <= rd fr v < 2 ^ 64;
  ag_range' : forall v, 0 <= rd fr' v < 2 ^ 64;
  ag_same : forall v, (v < next_value_id f)%N -> v ∉ loads f -> v ∉ slots f -> rd fr' v = rd fr v;
  ag_loads : forall v, v ∈ loads f -> available f e v c j -> rd fr' (app s v) = rd fr v;
  ag_und : forall x, x ∈ und -> rd fr' (ph_val x) = 0;
  ag_cell : forall a, a ∈ slots f -> available f e a c j -> 0 < rd fr a /\ (rd fr a, 8) ∈ allocas fr;
  ag_slot : forall a, a ∈ slots f -> available f e a c j -> ~ uninit f e a c j -> load64 m (rd fr a) = Some (rd fr' (Rat c j a));
  ag_apart : forall a b, a ∈ slots f -> b ∈ slots f -> a <> b -> available f e a c j -> available f e b c j ->
    range (rd fr a) 8 ## range (rd fr b) 8;
  ag_dom : dom m = dom B ∪ ranges (allocas fr);
  ag_base : dom B ## ranges (allocas fr);
  ag_kept : forall a, a ∈ dom B -> m !! a = B !! a
}.

Definition quiet (k : MirInstKind) : Prop := match k with LOAD _ | STORE _ _ | ALLOCA _ _ => False | _ => True end.

(** Instructions that define no load and no slot. *)
Definition neutral (k : MirInstKind) : Prop := match k with LOAD _ | ALLOCA _ _ => False | _ => True end.

Lemma quiet_neutral k : quiet k -> neutral k.
Proof. by destruct k. Qed.

(** What an available operand reads. *)
Lemma agree_operand B m c j fr fr' v : agree_at B m c j fr fr' -> available f e v c j -> v ∉ slots f -> rd fr' (app s v) = rd fr v.
Proof.
  intros Ha Hv Hns. destruct (decide (v ∈ loads f)) as [Hl|Hl]; [by apply (ag_loads _ _ _ _ _ _ Ha)|].
  rewrite (image_other f e h ph und s E Rin f' Hren) by done. apply (available_value tc f e Hf) in Hv as [->|Hv]; [done|].
  apply (ag_same _ _ _ _ _ _ Ha); [|done..]. by apply (value_bound tc f e Hf).
Qed.

Lemma quiet_result c j x : inst_at f c j = Some x -> neutral (as_ x) -> result x <> MIR_VALUE_NONE -> result x ∉ loads f /\ result x ∉ slots f.
Proof.
  intros Hx Hq Hnz. split.
  - intros (d & i & y & p & Hy & Hp & Heq)%(loads_at f). destruct (def_unique tc f e Hf c j d i x y Hx Hy) as [-> ->]; [done|done|].
    assert (x = y) as -> by congruence. by rewrite Hp in Hq.
  - intros (d & i & y & Hy & Ha & Heq)%(slot_def tc f e Hf). destruct (def_unique tc f e Hf c j d i x y Hx Hy) as [-> ->]; [done|done|].
    assert (x = y) as -> by congruence. by destruct (as_ y).
Qed.

(** A value that is available behind a quiet instruction is available in front of it. *)
Lemma quiet_back c j x v : inst_at f c j = Some x -> neutral (as_ x) -> v ∈ loads f \/ v ∈ slots f -> available f e v c (S j) -> available f e v c j.
Proof.
  intros Hx Hq Hv Ha. apply (available_back f e v c j x Ha Hx). intros Heq.
  assert (Hnz : result x <> MIR_VALUE_NONE).
  { rewrite Heq. destruct Hv as [Hv|Hv]; intros ->; [by apply (none_no_load tc f e Hf) in Hv|].
    apply (slot_def tc f e Hf) in Hv as (d & i & y & Hy & Hal & Hyn). by apply (alloca_value tc f e Hf d i y Hy Hal). }
  destruct (quiet_result c j x Hx Hq Hnz). rewrite Heq in *. tauto.
Qed.

Lemma quiet_Rat c j x a : inst_at f c j = Some x -> quiet (as_ x) -> Rat c (S j) a = Rat c j a.
Proof. intros Hx Hq. rewrite (Rat_S f s Rin c j x a Hx). unfold after. by destruct (as_ x). Qed.

Lemma quiet_uninit c j x a : inst_at f c j = Some x -> quiet (as_ x) -> ~ uninit f e a c (S j) -> ~ uninit f e a c j.
Proof. intros Hx Hq Hn Hu. apply Hn. eapply uninit_next; [done..|]. intros v E0. by rewrite E0 in Hq. Qed.

Lemma agree_skip B m c j x fr fr' : inst_at f c j = Some x -> quiet (as_ x) -> agree_at B m c j fr fr' -> agree_at B m c (S j) fr fr'.
Proof.
  intros Hx Hq Ha. assert (Hb : forall v, v ∈ loads f \/ v ∈ slots f -> available f e v c (S j) -> available f e v c j) by (intros v; by apply (quiet_back c j x), quiet_neutral).
  split; try apply Ha.
  - intros v Hv Hav. apply Ha; [done|]. apply Hb; [by left|done].
  - intros a Hs Hav. apply (ag_cell _ _ _ _ _ _ Ha); [done|]. apply Hb; [by right|done].
  - intros a Hs Hav Hu. rewrite (quiet_Rat c j x a Hx Hq). apply (ag_slot _ _ _ _ _ _ Ha); [done| |by eapply quiet_uninit]. apply Hb; [by right|done].
  - intros a b Hsa Hsb Hne Haa Hab. apply (ag_apart _ _ _ _ _ _ Ha); [done..| |]; (apply Hb; [by right|done]).
Qed.

(** ** One instruction *)

Lemma rd_wr_range n fr r w v : has_regs n fr -> readable n r -> (forall v, 0 <= rd fr v < 2 ^ 64) -> 0 <= w < 2 ^ 64 -> 0 <= rd (wr fr r w) v < 2 ^ 64.
Proof.
  intros Hn Hr Hv Hw. destruct (decide (r = MIR_VALUE_NONE)) as [->|Hnz]; [apply Hv|]. destruct Hr as [|Hr]; [done|].
  destruct (decide (v = r)) as [->|Hne]; [by rewrite (rd_wr_eq n)|by rewrite rd_wr_ne].
Qed.

Lemma result_readable c j x : inst_at f c j = Some x -> readable (next_value_id f) (result x).
Proof.
  intros Hx. destruct (decide (result x = MIR_VALUE_NONE)); [by left|right].
  by apply (value_bound tc f e Hf), (result_value tc f e Hf c j).
Qed.

Lemma readable_mono v : readable (next_value_id f) v -> readable (next_value_id f') v.
Proof. intros [?|?]; [by left|right]. pose proof (rd_mono _ _ _ _ _ _ _ _ _ Hren). lia. Qed.

Lemma agree_write B m c j x fr fr' w : inst_at f c j = Some x -> quiet (as_ x) -> agree_at B m c j fr fr' -> 0 <= w < 2 ^ 64 ->
  agree_at B m c (S j) (wr fr (result x) w) (wr fr' (result x) w).
Proof.
  intros Hx Hq Ha Hw. pose proof (inst_at_block tc f e Hf c j x Hx) as Hc. pose proof (result_readable c j x Hx) as Hrd.
  pose proof (readable_mono _ Hrd) as Hrd'.
  destruct (decide (result x = MIR_VALUE_NONE)) as [Hz|Hnz]; [rewrite Hz; by eapply agree_skip|].
  destruct (quiet_result c j x Hx (quiet_neutral _ Hq) Hnz) as [Hnl Hns]. pose proof (agree_skip B m c j x fr fr' Hx Hq Ha) as Hs.
  assert (Hdead : forall w0, lives f e ph und w0 c j -> w0 <> result x).
  { intros w0 Hw0. by apply (result_not_alive tc f e Hf h ph und s E Rin f' Hren c j x w0). }
  assert (Hlt : (result x < next_value_id f)%N) by (by destruct Hrd). assert (Hlt' : (result x < next_value_id f')%N) by (by destruct Hrd').
  split.
  - apply wr_regs, Ha.
  - apply wr_regs, Ha.
  - rewrite wr_allocas. apply Ha.
  - intros v. apply (rd_wr_range (next_value_id f)); [apply Ha|done|apply Ha|done].
  - intros v. apply (rd_wr_range (next_value_id f')); [apply Ha|done|apply Ha|done].
  - intros v Hv Hl Hsl. destruct (decide (v = result x)) as [->|Hne].
    + rewrite (rd_wr_eq (next_value_id f) fr) by (done || apply Ha). by rewrite (rd_wr_eq (next_value_id f') fr') by (done || apply Ha).
    + rewrite !rd_wr_ne by done. by apply (ag_same _ _ _ _ _ _ Ha).
  - intros v Hl Hav. assert (Hvj : available f e v c j) by (apply (quiet_back c j x); [done|by apply quiet_neutral|by left|done]).
    assert (Hvs : v ∉ slots f) by (intros Hvs; by apply (slot_no_load tc f e Hf v Hvs)).
    rewrite !rd_wr_ne; [by apply (ag_loads _ _ _ _ _ _ Ha)|intros ->; done|].
    apply Hdead. by apply (app_lives tc f e Hf h ph und s E Rin f' Hren).
  - intros y Hy. rewrite rd_wr_ne; [by apply Ha|]. pose proof (rd_range _ _ _ _ _ _ _ _ _ Hren y ltac:(by left)). lia.
  - intros a Hsa Hav. rewrite wr_allocas, rd_wr_ne by (intros ->; done). by apply (ag_cell _ _ _ _ _ _ Hs).
  - intros a Hsa Hav Hu. assert (Hne : Rat c (S j) a <> result x).
    { rewrite (quiet_Rat c j x a Hx Hq). apply Hdead. by apply (Rat_lives tc f e Hf h ph und s E Rin f' Hren). }
    rewrite (rd_wr_ne fr') by done. rewrite rd_wr_ne by (intros ->; done). by apply (ag_slot _ _ _ _ _ _ Hs).
  - intros a b Hsa Hsb Hne Haa Hab. rewrite !rd_wr_ne by (intros ->; done). by apply (ag_apart _ _ _ _ _ _ Hs).
  - rewrite wr_allocas. apply Ha.
  - rewrite wr_allocas. apply Ha.
  - apply Ha.
Qed.

(** A load: the value is the one of the image. *)
Lemma agree_load B m c j x p fr fr' : inst_at f c j = Some x -> as_ x = LOAD p -> agree_at B m c j fr fr' ->
  exists w, 0 < rd fr p /\ load64 m (rd fr p) = Some w /\ agree_at B m c (S j) (wr fr (result x) w) fr'.
Proof.
  intros Hx Hp Ha. pose proof (inst_at_block tc f e Hf c j x Hx) as Hc. pose proof (result_readable c j x Hx) as Hrd.
  destruct (load_value tc f e Hf c j x p Hx Hp) as [Hnz Hps]. pose proof (load_at_loads tc f e Hf c j x p Hx Hp) as Hxl.
  assert (Hav : available f e p c j) by (apply (sf_strict _ _ _ Hf c j x); [done|rewrite Hp; left]).
  assert (Hval : load64 m (rd fr p) = Some (rd fr' (Rat c j p))) by (apply Ha; [done..|]; by eapply (sf_init _ _ _ Hf)).
  exists (rd fr' (Rat c j p)). split_and!; [by apply (ag_cell _ _ _ _ _ _ Ha)|done|].
  assert (Hxs : forall a, a ∈ slots f -> a <> result x) by (intros a Hsa ->; by apply (slot_no_load tc f e Hf _ Hsa)).
  assert (Hback : forall v, v <> result x -> available f e v c (S j) -> available f e v c j).
  { intros v Hne Hv. by apply (available_back f e v c j x Hv Hx). }
  assert (HRS : forall a, Rat c (S j) a = Rat c j a) by (intros a; rewrite (Rat_S f s Rin c j x a Hx); unfold after; by rewrite Hp).
  split.
  - apply wr_regs, Ha.
  - apply Ha.
  - apply Ha.
  - intros v. apply (rd_wr_range (next_value_id f)); [apply Ha|done|apply Ha|apply Ha].
  - apply Ha.
  - intros v Hv Hl Hsl. rewrite rd_wr_ne by (intros ->; done). by apply (ag_same _ _ _ _ _ _ Ha).
  - intros v Hl Hvv. destruct (decide (v = result x)) as [->|Hne].
    + rewrite (rd_wr_eq (next_value_id f)); [|apply Ha|by destruct Hrd|done]. f_equal.
      apply (rd_load _ _ _ _ _ _ _ _ _ Hren c j x p Hx Hp).
    + rewrite rd_wr_ne by done. apply (ag_loads _ _ _ _ _ _ Ha); [done|by apply Hback].
  - apply Ha.
  - intros a Hsa Haa. rewrite wr_allocas, rd_wr_ne by (by apply Hxs). apply (ag_cell _ _ _ _ _ _ Ha); [done|]. apply Hback; [by apply Hxs|done].
  - intros a Hsa Haa Hu. rewrite rd_wr_ne, HRS by (by apply Hxs). apply (ag_slot _ _ _ _ _ _ Ha); [done|apply Hback; [by apply Hxs|done]|].
    intros Hui. apply Hu. eapply uninit_next; [done..|]. intros v E0. congruence.
  - intros a b Hsa Hsb Hne Haa Hab. rewrite !rd_wr_ne by (by apply Hxs). apply (ag_apart _ _ _ _ _ _ Ha); [done..| |]; (apply Hback; [by apply Hxs|done]).
  - rewrite wr_allocas. apply Ha.
  - rewrite wr_allocas. apply Ha.
  - apply Ha.
Qed.

(** A store: the cell holds what the image of the value reads. *)
Lemma agree_store B m c j x p v fr fr' : inst_at f c j = Some x -> as_ x = STORE p v -> agree_at B m c j fr fr' ->
  exists m', 0 < rd fr p /\ store64 m (rd fr p) (rd fr v) = Some m' /\ agree_at B m' c (S j) fr fr'.
Proof.
  intros Hx Hst Ha. pose proof (inst_at_block tc f e Hf c j x Hx) as Hc. destruct (store_value tc f e Hf c j x p v Hx Hst) as [Hps Hvs].
  assert (Hav : forall u, u ∈ [p; v] -> available f e u c j) by (intros u Hu; apply (sf_strict _ _ _ Hf c j x); [done|by rewrite Hst]).
  assert (Hp : available f e p c j) by (apply Hav; left). assert (Hv : available f e v c j) by (apply Hav; right; left).
  destruct (ag_cell _ _ _ _ _ _ Ha p Hps Hp) as [Hpos Hin].
  assert (Hcell : forall a, a ∈ range (rd fr p) 8 -> a ∈ ranges (allocas fr)) by (intros a Hr; by apply (ranges_elem (rd fr p, 8))).
  destruct (store_load_roundtrip m (rd fr p) (rd fr v)) as (m' & Hm' & Hl & Hd & Ho).
  { intros a Hr. apply elem_of_dom. rewrite (ag_dom _ _ _ _ _ _ Ha). apply elem_of_union. right. apply Hcell, elem_range. lia. }
  exists m'. split_and!; [done..|].
  assert (Hback : forall u, u ∈ loads f \/ u ∈ slots f -> available f e u c (S j) -> available f e u c j).
  { intros u. apply (quiet_back c j x); [done|]. by rewrite Hst. }
  assert (Hout : forall a, a ∉ range (rd fr p) 8 -> m' !! a = m !! a) by (intros a Hr; apply Ho; rewrite elem_range in Hr; lia).
  split; try apply Ha.
  - intros u Hu Hua. apply (ag_loads _ _ _ _ _ _ Ha); [done|]. apply Hback; [by left|done].
  - intros a Hsa Haa. apply (ag_cell _ _ _ _ _ _ Ha); [done|]. apply Hback; [by right|done].
  - intros a Hsa Haa Hu. rewrite (Rat_S f s Rin c j x a Hx). unfold after. rewrite Hst. destruct (N.eqb_spec a p) as [->|Hne].
    + rewrite Hl, (agree_operand B m c j fr fr' v) by done. f_equal. apply Z.mod_small, Ha.
    + assert (Haj : available f e a c j) by (apply Hback; [by right|done]).
      rewrite (load64_ext m' m); [apply (ag_slot _ _ _ _ _ _ Ha); [done|done|]|].
      * intros Hui. apply Hu. eapply uninit_next; [done..|]. intros w E0. congruence.
      * intros b Hb. apply Hout. intros Hb'. by apply (ag_apart _ _ _ _ _ _ Ha a p Hsa Hps Hne Haj Hp b).
  - intros a b Hsa Hsb Hne Haa Hab. apply (ag_apart _ _ _ _ _ _ Ha); [done..| |]; (apply Hback; [by right|done]).
  - rewrite Hd. apply Ha.
  - intros a HaB. rewrite Hout; [by apply (ag_kept _ _ _ _ _ _ Ha)|]. intros Hr%Hcell. by apply (ag_base _ _ _ _ _ _ Ha a).
Qed.

(** No store to a slot stands in front of its [alloca] in the same block. *)
Lemma no_store_before c j x : inst_at f c j = Some x -> is_alloca (as_ x) = true -> stores (result x) (take j (inst_list f c)) = false.
Proof.
  intros Hx Hal. apply not_true_iff_false. intros Hs. apply existsb_exists in Hs as (y & Hy%list_elem_of_In & Hst).
  apply elem_of_take in Hy as (k & Hy & Hk). destruct (as_ y) eqn:Ey; try done. apply N.eqb_eq in Hst.
  pose proof (alloca_value tc f e Hf c j x Hx Hal) as Hnz.
  destruct (sf_strict _ _ _ Hf c k y ptr Hy) as [?|[Hp|(d & i & (z & Hz & Ez) & Hb)]]; [rewrite Ey; left|congruence| |].
  - rewrite Hst in Hp. by apply (param_no_result tc f e Hf _ c j x Hp Hx).
  - destruct (def_unique tc f e Hf d i c j z x Hz Hx) as [-> ->]; [congruence|congruence|]. destruct Hb as [[_ ?]|[? _]]; [lia|done].
Qed.

Lemma agree_alloca B m c j x p fr fr' : inst_at f c j = Some x -> is_alloca (as_ x) = true -> agree_at B m c j fr fr' ->
  range p 8 ## dom m -> 0 < p -> p < 2 ^ 64 ->
  agree_at B (zero_range m p 8) c (S j) (wr (mkFrame (regs fr) (allocas fr ++ [(p, 8)])) (result x) p) fr'.
Proof.
  intros Hx Hal Ha Hfresh Hp0 Hp1. pose proof (inst_at_block tc f e Hf c j x Hx) as Hc. pose proof (result_readable c j x Hx) as Hrd.
  pose proof (alloca_value tc f e Hf c j x Hx Hal) as Hnz. set (fr1 := mkFrame (regs fr) (allocas fr ++ [(p, 8)])).
  assert (Hxs : result x ∈ slots f) by (apply (slot_def tc f e Hf); by exists c, j, x).
  assert (Hr1 : has_regs (next_value_id f) fr1) by apply Ha.
  assert (Hrd1 : forall v, v <> result x -> rd (wr fr1 (result x) p) v = rd fr v) by (intros v Hv; by rewrite rd_wr_ne).
  assert (Hrdx : rd (wr fr1 (result x) p) (result x) = p) by (by apply (rd_wr_eq (next_value_id f)); [|destruct Hrd|]).
  assert (Hback : forall v, v <> result x -> available f e v c (S j) -> available f e v c j).
  { intros v Hne Hv. by apply (available_back f e v c j x Hv Hx). }
  assert (HRS : forall a, Rat c (S j) a = Rat c j a) by (intros a; rewrite (Rat_S f s Rin c j x a Hx); unfold after; by destruct (as_ x)).
  assert (Hcells : forall a, a ∈ slots f -> available f e a c j -> range (rd fr a) 8 ⊆ dom m).
  { intros a Hsa Haa b Hb. rewrite (ag_dom _ _ _ _ _ _ Ha). apply elem_of_union. right.
    apply (ranges_elem (rd fr a, 8)); [by apply (ag_cell _ _ _ _ _ _ Ha)|done]. }
  assert (Hall : ranges (allocas fr1) = ranges (allocas fr) ∪ range p 8).
  { unfold ranges. simpl. rewrite fmap_app, union_list_app_L. simpl. set_solver. }
  pose proof (ag_dom _ _ _ _ _ _ Ha) as Hdom. split; rewrite ?wr_allocas.
  - by apply wr_regs.
  - apply Ha.
  - apply Ha.
  - intros v. apply (rd_wr_range (next_value_id f)); [done|done|apply (ag_range _ _ _ _ _ _ Ha)|lia].
  - apply Ha.
  - intros v Hv Hl Hsl. rewrite Hrd1 by (intros ->; done). by apply (ag_same _ _ _ _ _ _ Ha).
  - intros v Hl Hav. assert (v <> result x) by (intros ->; by apply (slot_no_load tc f e Hf _ Hxs)).
    rewrite Hrd1 by done. apply (ag_loads _ _ _ _ _ _ Ha); [done|by apply Hback].
  - apply Ha.
  - intros a Hsa Haa. destruct (decide (a = result x)) as [->|Hne].
    + rewrite Hrdx. split; [done|]. apply elem_of_app. right. left.
    + rewrite Hrd1 by done. destruct (ag_cell _ _ _ _ _ _ Ha a Hsa) as [? ?]; [by apply Hback|]. split; [done|]. apply elem_of_app. by left.
  - intros a Hsa Haa Hu. rewrite HRS. destruct (decide (a = result x)) as [->|Hne].
    + rewrite Hrdx, load_zero. f_equal. destruct (decide (c = e)) as [->|Hce]; [|by destruct Hu; apply (uninit_alloca f e _ c j x)].
      unfold Rat. rewrite (after_no_store s (result x)) by (by apply no_store_before).
      destruct (rd_root _ _ _ _ _ _ _ _ _ Hren _ Hxs) as (y & Hy & ->). symmetry. by apply (ag_und _ _ _ _ _ _ Ha).
    + rewrite Hrd1 by done. assert (Haj : available f e a c j) by (by apply Hback).
      rewrite (load64_ext _ m); [apply (ag_slot _ _ _ _ _ _ Ha); [done|done|]|].
      * intros Hui. apply Hu. eapply uninit_next; [done..|]. intros w E0. by rewrite E0 in Hal.
      * intros b Hb. rewrite zero_range_at, decide_False; [done|]. intros Hb'. apply (Hfresh b Hb'). by eapply Hcells.
  - assert (Hnew : forall b, b ∈ slots f -> available f e b c (S j) -> b <> result x -> range p 8 ## range (rd fr b) 8).
    { intros b Hsb Hab Hne. pose proof (Hcells b Hsb (Hback b Hne Hab)). set_solver. }
    intros a b Hsa Hsb Hne Haa Hab. destruct (decide (a = result x)) as [->|Hna], (decide (b = result x)) as [->|Hnb]; try done.
    + rewrite Hrdx, Hrd1 by done. by apply Hnew.
    + rewrite Hrdx, Hrd1 by done. symmetry. by apply Hnew.
    + rewrite !Hrd1 by done. apply (ag_apart _ _ _ _ _ _ Ha); [done..| |]; by apply Hback.
  - rewrite dom_zero_range, Hall, Hdom. set_solver.
  - rewrite Hall. pose proof (ag_base _ _ _ _ _ _ Ha). set_solver.
  - intros a HaB. rewrite zero_range_at, decide_False; [by apply (ag_kept _ _ _ _ _ _ Ha)|]. set_solver.
Qed.

(** ** One edge *)

(** The registers once the phis of [d] have been evaluated. *)
Record phis_done (c d : nat) (fr fr' : CvmFrame) : Prop := {
  pd_regs : has_regs (next_value_id f') fr';
  pd_allocas : allocas fr' = allocas fr;
  pd_range : forall v, 0 <= rd fr' v < 2 ^ 64;
  pd_other : forall v, (forall x, x ∈ ph d -> v <> ph_val x) -> rd fr' v = rd fr v;
  pd_phis : forall x, x ∈ ph d -> rd fr' (ph_val x) = rd fr (leave f s Rin c (ph_slot x))
}.

Lemma agree_edge B m c d fr fr1 fr2 : c ∈ bl -> edge f c d -> agree_at B m c (length (inst_list f c)) fr fr1 ->
  phis_done c d fr1 fr2 -> agree_at B m d 0 fr fr2.
Proof.
  intros Hc Hcd Ha Hp. assert (Hd : d ∈ bl).
  { apply (reach_bl tc f e Hf). eapply rtc_r; [by apply (sf_reach _ _ _ Hf)|done]. }
  assert (Hback : forall v, available f e v d 0 -> available f e v c (length (inst_list f c))).
  { intros v Hv. by apply (available_edge f e v c d). }
  split; try apply Ha.
  - apply Hp.
  - rewrite (pd_allocas _ _ _ _ Hp). apply Ha.
  - apply Hp.
  - intros v Hv Hl Hs. rewrite (pd_other _ _ _ _ Hp); [by apply (ag_same _ _ _ _ _ _ Ha)|].
    intros x Hx ->. pose proof (rd_range _ _ _ _ _ _ _ _ _ Hren x ltac:(eauto)). lia.
  - intros v Hl Hav. assert (Hvs : v ∉ slots f) by (intros Hvs; by apply (slot_no_load tc f e Hf v Hvs)).
    rewrite (pd_other _ _ _ _ Hp); [apply (ag_loads _ _ _ _ _ _ Ha); [done|by apply Hback]|].
    intros x Hx. by apply (image_no_phi tc f e Hf h ph und s E Rin f' Hren d).
  - intros x Hx. rewrite (pd_other _ _ _ _ Hp); [by apply (ag_und _ _ _ _ _ _ Ha)|].
    intros y Hy. by apply (rd_undef _ _ _ _ _ _ _ _ _ Hren d).
  - intros a Hsa Haa. apply (ag_cell _ _ _ _ _ _ Ha); [done|by apply Hback].
  - intros a Hsa Haa Hu. rewrite (ag_slot _ _ _ _ _ _ Ha a Hsa); [|by apply Hback|].
    2: { intros Hu'. apply Hu. by eapply uninit_edge. }
    f_equal. rewrite Rat_leave. change (Rat d 0 a) with (Rin d a).
    pose proof (rd_flow _ _ _ _ _ _ _ _ _ Hren c d a Hcd Hc Hsa) as Hfl. destruct (phi_of ph a d) as [v|] eqn:Ev.
    + destruct Hfl as [-> _]. apply phi_of_Some in Ev as (x & Hx & <- & <-). by rewrite (pd_phis _ _ _ _ Hp).
    + rewrite Hfl. symmetry. apply (pd_other _ _ _ _ Hp). intros x Hx. rewrite <- Hfl.
      by apply (reaching_no_phi tc f e Hf h ph und s E Rin f' Hren).
  - intros a b Hsa Hsb Hne Haa Hab. apply (ag_apart _ _ _ _ _ _ Ha); [done..| |]; by apply Hback.
Qed.

End sim.
