(* ===== verification/Mem2RegSim.v ===== *)
(** * Promotion of slots preserves behaviour

    A run of the interpreter on a module in slot form that ends without a trap
    ends in the same way, with the same value, output and memory, on the module
    [mir_mem2reg_module] makes of it, if no phi of a block reads an earlier phi
    of the same block: the interpreter evaluates the phis one after the other. *)
From S2P Require Import Prelude MirCore MirGraph MirOpt Dominators DomFacts DomFrontier.
From S2P Require Import Float64 Cvm CvmFacts CvmMemory CvmSafe.
From S2P Require Import MirBuilder MirBuilderFacts Mem2Reg SlotForm MirDce PhiInsert Renaming Promotion SlotExec.
From S2P Require Import SlotSim.

(** No phi reads the result of an earlier phi of its block. *)
Definition phis_parallel (f : MirFunction) : Prop := forall b i j x y ex ey,
  inst_at f b i = Some x -> as_ x = PHI ex -> inst_at f b j = Some y -> as_ y = PHI ey -> (i < j)%nat -> result x ∉ ey.*2.

(** The machine of the promoted module: its memory is constant. *)
Definition over (vm : CvmState) (m0 : gmap Z Z) (k : Z) : CvmState := set_exec (set_mem vm m0) k.

(** ** Frames on entry *)

Lemma copy_args_other ps : forall args l v, v ∉ map p_value_id ps -> copy_args ps args l !! N.to_nat v = l !! N.to_nat v.
Proof.
  induction ps as [|p ps IH]; intros [|a args] l v Hv; try done. cbn [copy_args]. rewrite IH by set_solver.
  destruct (_ && _); [|done]. apply list_lookup_insert_ne. intros E%N2Nat.inj. subst. set_solver.
Qed.

Lemma copy_args_same ps : forall args l l' v, (N.to_nat v < length l)%nat -> (N.to_nat v < length l')%nat -> l !! N.to_nat v = l' !! N.to_nat v ->
  copy_args ps args l !! N.to_nat v = copy_args ps args l' !! N.to_nat v.
Proof.
  induction ps as [|p ps IH]; intros [|a args] l l' v Hl Hl' E; try done. cbn [copy_args].
  assert (H : forall k, length (if negb (p_value_id p =? 0)%N && (p_value_id p <? N.of_nat (length k))%N then <[N.to_nat (p_value_id p):=a]> k else k) = length k).
  { intros k. destruct (_ && _); [apply length_insert|done]. }
  apply IH; rewrite ?H; try done. destruct (decide (p_value_id p = v)) as [Hv|Hne].
  - rewrite Hv. destruct (v =? 0)%N; [done|]. cbn [negb andb]. rewrite !(proj2 (N.ltb_lt _ _)) by lia. by rewrite !list_lookup_insert_eq.
  - assert (Ho : forall k, (if negb (p_value_id p =? 0)%N && (p_value_id p <? N.of_nat (length k))%N then <[N.to_nat (p_value_id p):=a]> k else k) !! N.to_nat v = k !! N.to_nat v).
    { intros k. destruct (_ && _); [|done]. apply list_lookup_insert_ne. intros E0%N2Nat.inj. done. }
    by rewrite !Ho.
Qed.

Lemma copy_args_range ps : forall args l, Forall (fun w => 0 <= w < 2 ^ 64) args -> Forall (fun w => 0 <= w < 2 ^ 64) l ->
  Forall (fun w => 0 <= w < 2 ^ 64) (copy_args ps args l).
Proof.
  induction ps as [|p ps IH]; intros [|a args] l Ha Hl; try done. cbn [copy_args]. inversion Ha; subst. apply IH; [done|].
  destruct (_ && _); [|done]. by apply Forall_insert.
Qed.

Definition frame_size (n : N) : nat := N.to_nat (if (n =? 0)%N then 1 else n)%N.

Lemma frame_regs_eq f args : (next_value_id f <= 4096)%N -> frame_regs f args = copy_args (params f) args (replicate (frame_size (next_value_id f)) 0).
Proof.
  intros Hn. unfold frame_regs, frame_size, CVM_MAX_REGS. do 2 f_equal. destruct (N.ltb_spec 0 (next_value_id f)).
  - rewrite s32_small by lia. destruct (N.eqb_spec (next_value_id f) 0); [lia|]. destruct (Z.ltb_spec 4096 (Z.of_N (next_value_id f))); lia.
  - destruct (N.eqb_spec (next_value_id f) 0); [|lia]. done.
Qed.

Lemma frame_has_regs f args : (next_value_id f <= 4096)%N -> has_regs (next_value_id f) (mkFrame (frame_regs f args) []).
Proof.
  intros Hn. rewrite frame_regs_eq by done. unfold has_regs, CVM_MAX_REGS, frame_size. simpl. rewrite copy_args_length, length_replicate.
  destruct (N.eqb_spec (next_value_id f) 0); lia.
Qed.

Lemma frame_range f args v : (next_value_id f <= 4096)%N -> Forall (fun w => 0 <= w < 2 ^ 64) args ->
  0 <= rd (mkFrame (frame_regs f args) []) v < 2 ^ 64.
Proof.
  intros Hn Ha. unfold rd. destruct (v =? MIR_VALUE_NONE)%N; [lia|]. simpl. rewrite frame_regs_eq by done.
  assert (H : Forall (fun w => 0 <= w < 2 ^ 64) (copy_args (params f) args (replicate (frame_size (next_value_id f)) 0))).
  { apply copy_args_range; [done|]. apply list.Forall_forall. intros x ->%elem_of_replicate_inv. lia. }
  destruct (copy_args _ _ _ !! N.to_nat v) as [w|] eqn:E; simpl; [|lia]. rewrite list.Forall_forall in H. apply H. by eapply list_elem_of_lookup_2.
Qed.

Section entry.
Context (tc : list MirType) (f : MirFunction) (e : nat) (Hf : slot_form tc f e).
Context (h : MirFunction) (ph : phi_map) (und : list PhiRec) (s : gmap MirValueId MirValueId) (E : edge_map).
Context (Rin : nat -> MirValueId -> MirValueId) (f' : MirFunction) (Hren : renamed f e h ph und s E Rin f').
Context (Hmax : (next_value_id f' <= 4096)%N).

Lemma none_available v : v ∈ loads f \/ v ∈ slots f -> ~ available f e v e 0.
Proof.
  assert (Hb : forall b i, ~ before f e b i e 0) by (intros b i [[_ ?]|[Hne Hd]]; [lia|by apply dominates_entry in Hd]).
  intros Hv [->|[Hp|(b & i & _ & Hbe)]]; [| |by eapply Hb].
  - destruct Hv as [Hv|Hv]; [by apply (none_no_load tc f e Hf) in Hv|].
    apply (slot_def tc f e Hf) in Hv as (d & i & y & Hy & Hal & Hyn). by apply (alloca_value tc f e Hf d i y Hy Hal).
  - destruct Hv as [Hv|Hv]; [by apply (param_no_load tc f e Hf v Hp)|].
    apply (slot_def tc f e Hf) in Hv as (d & i & y & Hy & Hal & Hyn). by apply (param_no_result tc f e Hf v d i y Hp Hy).
Qed.

Lemma entry_agree B args : Forall (fun w => 0 <= w < 2 ^ 64) args ->
  agree_at f e und s Rin f' B B e 0 (mkFrame (frame_regs f args) []) (mkFrame (frame_regs f' args) []).
Proof.
  intros Hargs. pose proof (rd_mono _ _ _ _ _ _ _ _ _ Hren) as Hmono. assert (Hmax0 : (next_value_id f <= 4096)%N) by lia.
  assert (Hsz : forall n, (N.to_nat n <= frame_size n)%nat) by (intros n; unfold frame_size; destruct (N.eqb_spec n 0); lia).
  split; try done.
  - by apply frame_has_regs.
  - by apply frame_has_regs.
  - intros v. by apply frame_range.
  - intros v. by apply frame_range.
  - intros v Hv _ _. unfold rd. destruct (v =? MIR_VALUE_NONE)%N; [done|]. simpl. rewrite !frame_regs_eq by done.
    rewrite (ss_params _ _ (rd_shape _ _ _ _ _ _ _ _ _ Hren)). f_equal. symmetry.
    pose proof (Hsz (next_value_id f)). pose proof (Hsz (next_value_id f')).
    apply copy_args_same; rewrite ?length_replicate; [lia..|]. by rewrite !lookup_replicate_2 by lia.
  - intros v Hl Hav. exfalso. apply (none_available v); [by left|done].
  - intros x Hx. pose proof (rd_range _ _ _ _ _ _ _ _ _ Hren x ltac:(by left)) as Hr.
    unfold rd. destruct (ph_val x =? MIR_VALUE_NONE)%N; [done|]. simpl. rewrite frame_regs_eq by done.
    rewrite (ss_params _ _ (rd_shape _ _ _ _ _ _ _ _ _ Hren)), copy_args_other.
    + pose proof (Hsz (next_value_id f')). by rewrite lookup_replicate_2 by lia.
    + intros Hp%param_value%(value_bound tc f e Hf). lia.
  - intros a Hs Hav. exfalso. apply (none_available a); [by right|done].
  - intros a Hs Hav. exfalso. apply (none_available a); [by right|done].
  - intros a b Hs _ _ Hav. exfalso. apply (none_available a); [by right|done].
  - unfold ranges. simpl. set_solver.
Qed.
End entry.

(** ** The blocks of the promoted function *)

Section blocks.
Context (tc : list MirType) (f : MirFunction) (e : nat) (Hf : slot_form tc f e).
Context (h : MirFunction) (ph : phi_map) (und : list PhiRec) (s : gmap MirValueId MirValueId) (E : edge_map).
Context (Rin : nat -> MirValueId -> MirValueId) (f' : MirFunction) (Hren : renamed f e h ph und s E Rin f').

Lemma block_code b blk : block_at f b = Some blk -> exists blk', block_at f' b = Some blk' /\
  insts blk' = head_of e ph und E b ++ kept_code (app s) (inst_list f b).
Proof.
  intros Hb. assert (Hbl : b ∈ block_list f) by (apply (sf_all _ _ _ Hf); by exists blk).
  destruct (proj2 (ss_blocks _ _ (rd_shape _ _ _ _ _ _ _ _ _ Hren) b)) as [blk' Hb']; [by exists blk|]. exists blk'. split; [done|].
  rewrite <- (rd_code _ _ _ _ _ _ _ _ _ Hren b Hbl). unfold inst_list at 1. by rewrite Hb'.
Qed.

(** The terminator is the last instruction, and no other is one. *)
Lemma terminator_last c j x : inst_at f c j = Some x -> if is_terminator (as_ x) then S j = length (inst_list f c) else (S j < length (inst_list f c))%nat.
Proof.
  unfold inst_at, inst_list. intros Hx. destruct (block_at f c) as [blk|] eqn:Hb; [|done]. simpl in *.
  destruct (sf_shape _ _ _ Hf c blk Hb) as (body & term & Hi & Hbody & Hterm & _). rewrite Hi in *. rewrite length_app. simpl.
  apply lookup_app_Some in Hx as [Hx|[Hge Hx]].
  - pose proof (lookup_lt_Some _ _ _ Hx). rewrite list.Forall_forall in Hbody. rewrite (Hbody x) by (by eapply list_elem_of_lookup_2). lia.
  - apply list_lookup_singleton_Some in Hx as [Hj <-]. rewrite Hterm. lia.
Qed.

Lemma block_nonempty c blk : block_at f c = Some blk -> (0 < length (inst_list f c))%nat.
Proof.
  intros Hb. destruct (sf_shape _ _ _ Hf c blk Hb) as (body & term & Hi & _). unfold inst_list. rewrite Hb. simpl. rewrite Hi, length_app. simpl. lia.
Qed.

(** A jump follows an edge. *)
Lemma target_edge c j x b : inst_at f c j = Some x -> b ∈ targets (as_ x) -> edge f c b.
Proof.
  intros Hx Hb. pose proof (inst_at_slot tc f e Hf c j x Hx) as Hk. unfold inst_at, inst_list in Hx.
  destruct (block_at f c) as [blk|] eqn:Hc; [|done]. simpl in *. exists blk. split; [done|].
  destruct (sf_shape _ _ _ Hf c blk Hc) as (body & term & Hi & Hbody & _ & Ht). apply Ht. rewrite Hi in Hx.
  apply lookup_app_Some in Hx as [Hx|[Hge Hx]]; [|by apply list_lookup_singleton_Some in Hx as [_ ->]].
  rewrite list.Forall_forall in Hbody. apply list_elem_of_lookup_2, Hbody in Hx.
  destruct (as_ x) eqn:Ex; try done; try by apply not_elem_of_nil in Hb. unfold slot_inst in Hk. by rewrite Ex in Hk.
Qed.
End blocks.

(** ** The machine of the promoted module *)

Section machine.
Context (module' : MirModule) (calloc : gmap Z Z -> Z -> option Z) (string_addr : string -> Z).
Abbreviation exec := (cvm_exec module' calloc string_addr).
Abbreviation step1 := (exec_inst module' calloc string_addr).

(** Steps of the frame that end in front of [l1]. *)
Definition leads (vm : CvmState) (m0 : gmap Z Z) (g : MirFunction) (c : nat) (prev : blockptr) (fr : CvmFrame) (l : list MirInst)
  (fr1 : CvmFrame) (l1 : list MirInst) : Prop := forall k, exists d k1, forall n r,
  exec n (over vm m0 k1) fr1 g c prev l1 = Ok r -> exec (d + n) (over vm m0 k) fr g c prev l = Ok r.

Lemma leads_refl vm m0 g c prev fr l : leads vm m0 g c prev fr l fr l.
Proof. intros k. by exists 0%nat, k. Qed.

Lemma leads_trans vm m0 g c prev fr l fr1 l1 fr2 l2 :
  leads vm m0 g c prev fr l fr1 l1 -> leads vm m0 g c prev fr1 l1 fr2 l2 -> leads vm m0 g c prev fr l fr2 l2.
Proof.
  intros H1 H2 k. destruct (H1 k) as (d1 & k1 & H1'), (H2 k1) as (d2 & k2 & H2'). exists (d1 + d2)%nat, k2. intros n r Hr.
  rewrite <- Nat.add_assoc. by apply H1', H2'.
Qed.

Lemma leads_step vm m0 g c prev fr x l fr1 : trap_code vm = 0 -> call_of (as_ x) = None ->
  (forall vm, step1 vm fr prev x = Ok (vm, fr1, NextInst)) -> leads vm m0 g c prev fr (x :: l) fr1 l.
Proof.
  intros Ht Hc Hx k. exists 1%nat, (u64 (k + 1)). intros n r Hr. change (1 + n)%nat with (S n). cbn [cvm_exec].
  rewrite exec_step_cons, Hc. change (tick (over vm m0 k)) with (over vm m0 (u64 (k + 1))). rewrite Hx. cbn [obind].
  change (trap_code (over vm m0 (u64 (k + 1)))) with (trap_code vm). by rewrite Ht.
Qed.

Lemma leads_undefs vm m0 g c prev fr l rest : trap_code vm = 0 -> leads vm m0 g c prev fr (map undef_inst l ++ rest) fr rest.
Proof.
  intros Ht. induction l as [|x l IH]; [apply leads_refl|]. eapply leads_trans; [|exact IH]. cbn [map List.app]. by apply leads_step.
Qed.

Section phis.
Context (tc : list MirType) (f : MirFunction) (e : nat) (Hf : slot_form tc f e).
Context (h : MirFunction) (ph : phi_map) (und : list PhiRec) (s : gmap MirValueId MirValueId) (E : edge_map).
Context (Rin : nat -> MirValueId -> MirValueId) (f' : MirFunction) (Hren : renamed f e h ph und s E Rin f').
Context (Hpar : phis_parallel f').

(** The edge of a phi from a predecessor. *)
Lemma phi_edge c d x : edge f c d -> c ∈ block_list f -> x ∈ ph d ->
  List.find (fun ed => bool_decide (ed.1 = Some c)) (E d (ph_slot x)) = Some (Some c, leave f s Rin c (ph_slot x)).
Proof.
  intros Hcd Hc Hx. pose proof (rd_slots _ _ _ _ _ _ _ _ _ Hren d x Hx) as Hs.
  pose proof (rd_flow _ _ _ _ _ _ _ _ _ Hren c d (ph_slot x) Hcd Hc Hs) as Hfl.
  destruct (phi_of ph (ph_slot x) d) as [v|] eqn:Ev; [apply Hfl|]. apply phi_of_None in Ev. destruct Ev. by apply list_elem_of_fmap_2.
Qed.

Lemma leave_readable c a : c ∈ block_list f -> a ∈ slots f -> readable (next_value_id f') (leave f s Rin c a).
Proof.
  intros Hc Ha. pose proof (Rat_lives tc f e Hf h ph und s E Rin f' Hren c Hc (length (inst_list f c)) a Ha) as Hl. rewrite Rat_leave in Hl.
  pose proof (rd_mono _ _ _ _ _ _ _ _ _ Hren). destruct Hl as [[_ Hl]|[(x & Hx & <-)|(b & x & Hx & <- & _)]].
  - apply (available_value tc f e Hf) in Hl as [->|Hv%(value_bound tc f e Hf)]; [by left|right; lia].
  - right. apply (rd_range _ _ _ _ _ _ _ _ _ Hren). by left.
  - right. apply (rd_range _ _ _ _ _ _ _ _ _ Hren). eauto.
Qed.

Lemma phi_at_front d k x : d ∈ block_list f -> d <> e -> ph d !! k = Some x -> inst_at f' d k = Some (phi_inst (E d (ph_slot x)) x).
Proof.
  intros Hd Hne Hk. unfold inst_at. rewrite (rd_code _ _ _ _ _ _ _ _ _ Hren d Hd). unfold head_of. rewrite decide_False by done. simpl.
  apply lookup_app_l_Some. by rewrite list_lookup_fmap, Hk.
Qed.

(** No phi reads one that has been evaluated before it. *)
Lemma phi_reads c d i j x y : edge f c d -> c ∈ block_list f -> d ∈ block_list f -> ph d !! i = Some x -> ph d !! j = Some y -> (i < j)%nat ->
  leave f s Rin c (ph_slot y) <> ph_val x.
Proof.
  intros Hcd Hc Hd Hi Hj Hlt Heq. assert (Hne : d <> e) by (intros ->; by apply (sf_entry _ _ _ Hf c)).
  apply (Hpar d i j _ _ _ _ (phi_at_front d i x Hd Hne Hi) eq_refl (phi_at_front d j y Hd Hne Hj) eq_refl Hlt). simpl. rewrite <- Heq.
  pose proof (phi_edge c d y Hcd Hc (list_elem_of_lookup_2 _ _ _ Hj)) as Hfi. apply find_some in Hfi as [Hin%list_elem_of_In _].
  by apply (list_elem_of_fmap_2 snd) in Hin.
Qed.

Lemma phi_vals_nodup d i j x y : ph d !! i = Some x -> ph d !! j = Some y -> ph_val x = ph_val y -> i = j.
Proof.
  intros Hi Hj Hv. destruct (rd_inj _ _ _ _ _ _ _ _ _ Hren d d x y) as [_ ->]; [by eapply list_elem_of_lookup_2..|done|].
  pose proof (rd_nodup _ _ _ _ _ _ _ _ _ Hren d) as Hnd. apply NoDup_fmap_1 in Hnd. by eapply NoDup_lookup.
Qed.

(** The registers once the phis of [pre] have been evaluated. *)
Record phis_upto (c : nat) (pre : list PhiRec) (fr fr' : CvmFrame) : Prop := {
  pu_regs : has_regs (next_value_id f') fr';
  pu_allocas : allocas fr' = allocas fr;
  pu_range : forall v, 0 <= rd fr' v < 2 ^ 64;
  pu_other : forall v, (forall x, x ∈ pre -> v <> ph_val x) -> rd fr' v = rd fr v;
  pu_phis : forall x, x ∈ pre -> rd fr' (ph_val x) = rd fr (leave f s Rin c (ph_slot x))
}.

Lemma phis_step c d pre x l fr fr1 : edge f c d -> c ∈ block_list f -> d ∈ block_list f -> ph d = pre ++ x :: l ->
  phis_upto c pre fr fr1 -> exists fr2, (forall vm, step1 vm fr1 (Some c) (phi_inst (E d (ph_slot x)) x) = Ok (vm, fr2, NextInst)) /\
    phis_upto c (pre ++ [x]) fr fr2.
Proof.
  intros Hcd Hc Hd Hph Hp. assert (Hx : ph d !! length pre = Some x) by (rewrite Hph; by apply list_lookup_middle).
  pose proof (list_elem_of_lookup_2 _ _ _ Hx) as Hin. pose proof (rd_slots _ _ _ _ _ _ _ _ _ Hren d x Hin) as Hs.
  set (w := leave f s Rin c (ph_slot x)). pose proof (leave_readable c (ph_slot x) Hc Hs) as Hw.
  pose proof (rd_range _ _ _ _ _ _ _ _ _ Hren x ltac:(eauto)) as Hr. pose proof (phi_nonzero tc f e Hf h ph und s E Rin f' Hren d x Hin) as Hnz.
  assert (Hpre : forall y, y ∈ pre -> exists i, ph d !! i = Some y /\ (i < length pre)%nat).
  { intros y [i Hi]%list_elem_of_lookup. exists i. split; [rewrite Hph; by apply lookup_app_l_Some|by apply lookup_lt_Some in Hi]. }
  assert (Hval : rd fr1 w = rd fr w).
  { apply (pu_other _ _ _ _ Hp). intros y (i & Hi & Hlt)%Hpre. by apply (phi_reads c d i (length pre) y x). }
  exists (wr fr1 (ph_val x) (rd fr1 w)). split.
  - intros vm. unfold exec_inst, phi_inst. cbn [as_ result]. unfold phi_source. rewrite (phi_edge c d x Hcd Hc Hin). cbn [snd]. fold w.
    rewrite (reg_get_rd (next_value_id f')) by (done || apply Hp). cbn [obind fst snd].
    apply (set_next_wr (next_value_id f')); [apply Hp|right; lia].
  - split.
    + apply wr_regs, Hp.
    + rewrite wr_allocas. apply Hp.
    + intros v. destruct (decide (v = ph_val x)) as [->|Hne]; [|rewrite rd_wr_ne by done; apply Hp].
      rewrite (rd_wr_eq (next_value_id f')); [apply Hp|apply Hp|lia|]. intros E0. rewrite E0 in Hnz. lia.
    + intros v Hv. rewrite rd_wr_ne by (apply Hv, elem_of_app; right; left). apply (pu_other _ _ _ _ Hp). intros y Hy. apply Hv, elem_of_app. by left.
    + intros y [Hy| ->%list_elem_of_singleton]%elem_of_app.
      * rewrite rd_wr_ne; [by apply (pu_phis _ _ _ _ Hp)|]. intros Heq. apply Hpre in Hy as (i & Hi & Hlt).
        pose proof (phi_vals_nodup d i (length pre) y x Hi Hx Heq). lia.
      * rewrite (rd_wr_eq (next_value_id f')); [done|apply Hp|lia|]. intros E0. rewrite E0 in Hnz. lia.
Qed.

Lemma leads_phis vm m0 c d fr rest : trap_code vm = 0 -> edge f c d -> c ∈ block_list f -> d ∈ block_list f ->
  has_regs (next_value_id f') fr -> (forall v, 0 <= rd fr v < 2 ^ 64) ->
  exists fr1, leads vm m0 f' d (Some c) fr (map (fun x => phi_inst (E d (ph_slot x)) x) (ph d) ++ rest) fr1 rest /\ phis_done f ph s Rin f' c d fr fr1.
Proof.
  intros Ht Hcd Hc Hd Hregs Hrange.
  assert (H : forall l pre fr1, ph d = pre ++ l -> phis_upto c pre fr fr1 -> exists fr2,
    leads vm m0 f' d (Some c) fr1 (map (fun x => phi_inst (E d (ph_slot x)) x) l ++ rest) fr2 rest /\ phis_upto c (pre ++ l) fr fr2).
  { intros l. induction l as [|x l IH]; intros pre fr1 Hph Hp.
    - exists fr1. split; [apply leads_refl|by rewrite app_nil_r].
    - destruct (phis_step c d pre x l fr fr1 Hcd Hc Hd Hph Hp) as (fr2 & Hstep & Hp2).
      destruct (IH (pre ++ [x]) fr2) as (fr3 & Hl & Hp3); [by rewrite <- app_assoc|done|]. exists fr3.
      rewrite <- app_assoc in Hp3. split; [|done]. eapply leads_trans; [|exact Hl]. cbn [map List.app]. by apply leads_step. }
  destruct (H (ph d) [] fr eq_refl) as (fr2 & Hl & []); [by split; try done; intros x Hx; apply not_elem_of_nil in Hx|].
  exists fr2. split; [exact Hl|by split].
Qed.
End phis.
End machine.

(** ** The two modules *)

(** [f'] is what the pass makes of [f]. *)
Definition mem2reg_of (tc : list MirType) (f f' : MirFunction) : Prop :=
  entry_block f = None /\ f' = f \/
  exists e h ph und s E Rin, slot_form tc f e /\ renamed f e h ph und s E Rin f' /\ phis_parallel f' /\ (next_value_id f' <= 4096)%N.

Lemma mem2reg_of_name tc f f' : mem2reg_of tc f f' -> f_name f' = f_name f.
Proof. intros [[_ ->]|(e & h & ph & und & s & E & Rin & _ & Hr & _)]; [done|]. apply (rd_shape _ _ _ _ _ _ _ _ _ Hr). Qed.

Section sim.
Context (module module' : MirModule) (calloc : gmap Z Z -> Z -> option Z) (string_addr : string -> Z).
Hypothesis Hcalloc : forall m n p, calloc m n = Some p -> range p n ## dom m /\ 0 < p /\ p + n <= 2 ^ 64.
Hypothesis Hstrings : forall s, 0 <= string_addr s < 2 ^ 64.
Hypothesis Htypes : type_cache module' = type_cache module.
Hypothesis Hfuncs : Forall2 (mem2reg_of (type_cache module)) (func_list module) (func_list module').

Abbreviation exec := (cvm_exec module calloc string_addr).
Abbreviation exec' := (cvm_exec module' calloc string_addr).

Lemma find_function_mem2reg name :
  match mir_module_find_function module name, mir_module_find_function module' name with
  | Some g, Some g' => mem2reg_of (type_cache module) g g'
  | None, None => True
  | _, _ => False
  end.
Proof.
  unfold mir_module_find_function. clear -Hfuncs. revert Hfuncs. generalize (func_list module) (func_list module').
  intros l0 l0' H. induction H as [|g g' l l' Hg Hl IH]; simpl; [done|].
  rewrite (mem2reg_of_name _ _ _ Hg). destruct (decide (f_name g = name)); simpl; [done|].
  destruct (list_find _ l) as [[j x]|], (list_find _ l') as [[j' x']|]; simpl in *; done.
Qed.

(** Frames entered in step. *)
Definition entered_both (d d' : dispatched) : Prop :=
  match d, d' with
  | Value v, Value v' => v = 0 /\ v' = 0
  | Enter g gfr e gl, Enter g' gfr' e' gl' => exists args, Forall (fun w => 0 <= w < 2 ^ 64) args /\
      gfr = mkFrame (frame_regs g args) [] /\ gfr' = mkFrame (frame_regs g' args) [] /\
      mem2reg_of (type_cache module) g g' /\ entry_block g = Some e /\ e' = e /\ gl = inst_list g e /\ gl' = inst_list g' e
  | _, _ => False
  end.

Lemma block_full g e h ph und s E Rin g' b blk' : slot_form (type_cache module) g e -> renamed g e h ph und s E Rin g' ->
  b ∈ block_list g -> block_at g' b = Some blk' -> insts blk' <> [].
Proof.
  intros Hg Hr Hb Hblk. apply list_elem_of_lookup in Hb as [i Hi]. destruct (cw_ids _ _ (sf_cfg _ _ _ Hg) i b Hi) as (blk & Hb & _).
  destruct (block_code _ g e Hg h ph und s E Rin g' Hr b blk Hb) as (blk2 & Hb2 & Hi2). assert (blk2 = blk') as -> by congruence.
  rewrite Hi2. destruct (sf_shape _ _ _ Hg b blk Hb) as (body & term & Hins & _ & Hterm & _). unfold inst_list. rewrite Hb. simpl. rewrite Hins.
  unfold kept_code. rewrite omap_app. simpl. rewrite kept_shape by (by destruct (as_ term)). destruct (is_alloca (as_ term)) eqn:Ha; [by destruct (as_ term)|].
  intros Hnil. apply app_eq_nil in Hnil as [_ Hnil]. by apply app_eq_nil in Hnil as [_ ?].
Qed.

Lemma enter_over vm m0 k g g' args vm1 d : mem2reg_of (type_cache module) g g' -> Forall (fun w => 0 <= w < 2 ^ 64) args ->
  enter_function vm g args = Ok (vm1, d) ->
  mem vm1 = mem vm /\ exists d', enter_function (over vm m0 k) g' args = Ok (over vm1 m0 k, d') /\ entered_both d d'.
Proof.
  intros Hg Hargs. unfold enter_function, cvm_enter.
  change (frame_depth (over vm m0 k)) with (frame_depth vm). change (frame_depth_peak (over vm m0 k)) with (frame_depth_peak vm).
  destruct (CVM_MAX_CALL_DEPTH <? frame_depth vm + 1); [intros [= <- <-]; split; [done|]; by exists (Value 0)|].
  destruct Hg as [[Hn ->]|(e & h & ph & und & s & E & Rin & Hf & Hr & Hpar & Hmax)]; [by rewrite Hn|].
  rewrite (ss_entry _ _ (rd_shape _ _ _ _ _ _ _ _ _ Hr)), (cw_entry _ _ (sf_cfg _ _ _ Hf)). cbn [of_option obind].
  destruct (block_at g e) as [blk|] eqn:Hb; [|done]. cbn [of_option obind].
  destruct (block_code _ g e Hf h ph und s E Rin g' Hr e blk Hb) as (blk' & Hb' & Hi'). rewrite Hb'. cbn [of_option obind].
  pose proof (block_full g e h ph und s E Rin g' e blk' Hf Hr (cw_in _ _ (sf_cfg _ _ _ Hf)) Hb') as Hne.
  destruct (insts blk) as [|i0 l0] eqn:Hi; [done|]. destruct (insts blk') as [|i1 l1] eqn:Hl; [done|].
  cbn [obind fst snd]. intros [= <- <-]. split; [done|]. eexists. split; [reflexivity|]. exists args. split_and!; try done.
  - right. by exists e, h, ph, und, s, E, Rin.
  - apply (sf_cfg _ _ _ Hf).
  - unfold inst_list. rewrite Hb. simpl. by rewrite Hi.
  - unfold inst_list. rewrite Hb'. simpl. by rewrite Hl.
Qed.

Lemma intrinsic_over vm m0 k name args : name <> "nuwan_print_str" ->
  cvm_intrinsic (over vm m0 k) name args = let! o := cvm_intrinsic vm name args in Ok ((fun vm => over vm m0 k) <$> o).
Proof.
  intros Hn. unfold cvm_intrinsic. rewrite (proj2 (String.eqb_neq _ _) Hn).
  do 3 (destruct (String.eqb name _); [reflexivity|]). reflexivity.
Qed.

Lemma intrinsic_mem vm name args o : cvm_intrinsic vm name args = Ok o -> match o with Some vm' => mem vm' = mem vm /\ trap_code vm' = trap_code vm | None => True end.
Proof. destruct o as [vm'|]; [|done]. intros H. by eapply intrinsic_Ok in H as [ev ->]. Qed.

Lemma count_call_over vm m0 k name : count_call (over vm m0 k) name = over (count_call vm name) m0 k.
Proof. unfold count_call. simpl. by destruct (find_idx _ _). Qed.

Lemma count_call_mem vm name : mem (count_call vm name) = mem vm.
Proof. by destruct (count_call_eq vm name) as [l ->]. Qed.

Lemma dispatch_over n n' σ vm m0 k fr fr' name ids vm1 d : has_regs n fr -> has_regs n' fr' ->
  (forall v, v ∈ ids -> readable n v /\ readable n' (σ v) /\ rd fr' (σ v) = rd fr v) -> (forall v, 0 <= rd fr v < 2 ^ 64) ->
  name <> "nuwan_print_str" -> trap_code vm = 0 -> cvm_dispatch_call module vm fr name ids = Ok (vm1, d) ->
  mem vm1 = mem vm /\ exists d', cvm_dispatch_call module' (over vm m0 k) fr' name (map σ ids) = Ok (over vm1 m0 k, d') /\ entered_both d d'.
Proof.
  intros Hr Hr' Hids Hrange Hn Ht. unfold cvm_dispatch_call. change (trap_code (over vm m0 k)) with (trap_code vm). rewrite Ht. cbn [Z.eqb negb].
  assert (Htk : forall v, v ∈ take 64 ids -> v ∈ ids) by (intros v (j & Hj & _)%elem_of_take; by eapply list_elem_of_lookup_2).
  rewrite (collect_args_rd n) by (done || (intros v Hv; by apply Hids, Htk)).
  rewrite (collect_args_rd n') by (done || (intros v Hv; rewrite <- fmap_take in Hv; apply list_elem_of_fmap in Hv as (u & -> & Hu); by apply Hids, Htk)).
  assert (Hargs : map (rd fr') (take 64 (map σ ids)) = map (rd fr) (take 64 ids)).
  { change (map σ ids) with (σ <$> ids). rewrite <- fmap_take. change (σ <$> take 64 ids) with (map σ (take 64 ids)). rewrite map_map. apply map_ext_in. intros v Hv%list_elem_of_In. by apply Hids, Htk. }
  cbn [obind fst snd]. rewrite Hargs. set (args := map (rd fr) (take 64 ids)).
  assert (Hall : Forall (fun w => 0 <= w < 2 ^ 64) args).
  { apply list.Forall_forall. intros w (v & -> & _)%list_elem_of_fmap. apply Hrange. }
  rewrite intrinsic_over by done. destruct (cvm_intrinsic vm name args) as [[vm2|]| |] eqn:Hi; try done; cbn [obind fmap option_fmap option_map].
  { intros [= <- <-]. apply intrinsic_mem in Hi as [Hm _]. split; [done|]. by exists (Value 0). }
  pose proof (find_function_mem2reg name) as Hfind.
  destruct (mir_module_find_function module name) as [g|], (mir_module_find_function module' name) as [g'|]; try done.
  - rewrite count_call_over. rewrite <- (count_call_mem vm name). by apply enter_over.
  - intros [= <- <-]. split; [done|]. by exists (Value 0).
Qed.
(** ** The simulation *)

(** The promoted machine ends like the original one. *)
Definition ends_as (vm : CvmState) (m0 : gmap Z Z) (fr' : CvmFrame) (f' : MirFunction) (c : nat) (prev' : blockptr) (l' : list MirInst)
  (vm1 : CvmState) (v : Z) : Prop := forall k, exists n' k', exec' n' (over vm m0 k) fr' f' c prev' l' = Ok (over vm1 m0 k', v).

Lemma ends_leads vm m0 fr' f' c prev' l' fr1 l1 vm1 v : leads module' calloc string_addr vm m0 f' c prev' fr' l' fr1 l1 ->
  ends_as vm m0 fr1 f' c prev' l1 vm1 v -> ends_as vm m0 fr' f' c prev' l' vm1 v.
Proof. intros Hl He k. destruct (Hl k) as (d & k1 & H), (He k1) as (n & k2 & Hr). exists (d + n)%nat, k2. by apply H. Qed.

Definition slot_sim (n : nat) : Prop := forall vm fr fr' m0 f e h ph und s E Rin f' c j prev prev' B vm1 v,
  slot_form (type_cache module) f e -> renamed f e h ph und s E Rin f' -> phis_parallel f' -> (next_value_id f' <= 4096)%N ->
  agree_at f e und s Rin f' B (mem vm) c j fr fr' -> (j < length (inst_list f c))%nat -> trap_code vm = 0 ->
  exec n vm fr f c prev (drop j (inst_list f c)) = Ok (vm1, v) -> trap_code vm1 = 0 ->
  ends_as vm m0 fr' f' c prev' (kept_code (app s) (drop j (inst_list f c))) vm1 v /\ mem vm1 = B /\ 0 <= v < 2 ^ 64.

Definition after_handler (n : nat) (f : MirFunction) (cur : nat) (prev : blockptr) (l : list MirInst) (r : CvmState * CvmFrame * next) :=
  let '(vm, fr, k) := r in
  match k with
  | NextInst => if negb (trap_code vm =? 0) then Ok (cvm_leave vm fr, 0) else exec n vm fr f cur prev l
  | Jump None => Ok (cvm_leave vm fr, 0)
  | Jump (Some b) => let! blk := of_option (block_at f b) in exec n vm fr f b (Some cur) (insts blk)
  | Done v => Ok (cvm_leave vm fr, v)
  end.

Lemma after_trap n f cur prev l r vm1 v : after_handler n f cur prev l r = Ok (vm1, v) -> trap_code vm1 = 0 -> trap_code r.1.1 = 0.
Proof.
  destruct r as [[vm fr] k]. intros H Ht. destruct (Z.eq_dec (trap_code vm) 0) as [|Hne]; [done|]. exfalso. revert Ht. simpl in H.
  destruct k as [| [b|] | w].
  - destruct (negb _); [by injection H as <- _|]. by eapply cvm_exec_trap.
  - apply obind_Ok in H as (blk & _ & H). by eapply cvm_exec_trap.
  - by injection H as <- _.
  - by injection H as <- _.
Qed.

(** The run of a callee. *)
Lemma callee_sim n (IH : slot_sim n) m0 vm2 d d' vm3 w : entered_both d d' ->
  match d with Value v => Ok (vm2, v) | Enter g gfr e gl => exec n vm2 gfr g e None gl end = Ok (vm3, w) -> trap_code vm3 = 0 ->
  mem vm3 = mem vm2 /\ 0 <= w < 2 ^ 64 /\ forall k, exists n1 k1, forall n2, (n1 <= n2)%nat ->
    match d' with Value v => Ok (over vm2 m0 k, v) | Enter g gfr e gl => exec' n2 (over vm2 m0 k) gfr g e None gl end = Ok (over vm3 m0 k1, w).
Proof.
  destruct d as [w0|g gfr e0 gl], d' as [w0'|g' gfr' e0' gl']; try done; simpl.
  { intros [-> ->] [= <- <-] _. split_and!; [done|lia|lia|]. intros k. by exists 0%nat, k. }
  intros (args & Hargs & -> & -> & Hg & He & -> & -> & ->) Hrun Ht3.
  destruct Hg as [[Hn _]|(e1 & h1 & ph1 & und1 & s1 & E1 & R1 & Hg & Hr & Hp & Hm)]; [by rewrite Hn in He|].
  pose proof (cw_entry _ _ (sf_cfg _ _ _ Hg)) as He1. assert (e1 = e0) as -> by congruence. clear He1.
  assert (Ht2 : trap_code vm2 = 0).
  { destruct (Z.eq_dec (trap_code vm2) 0) as [|Hne]; [done|]. by destruct (cvm_exec_trap _ _ _ _ _ _ _ _ _ _ _ _ Hrun Hne). }
  pose proof (cw_in _ _ (sf_cfg _ _ _ Hg)) as Hin. pose proof Hin as [i Hi]%list_elem_of_lookup.
  destruct (cw_ids _ _ (sf_cfg _ _ _ Hg) i e0 Hi) as (blk & Hblk & _).
  destruct (IH vm2 (mkFrame (frame_regs g args) []) (mkFrame (frame_regs g' args) []) m0 g e0 h1 ph1 und1 s1 E1 R1 g' e0 0%nat None None (mem vm2) vm3 w)
    as (Hend & Hmem & Hw); try done; [by eapply (entry_agree (type_cache module))|by eapply block_nonempty|].
  split_and!; [done|lia|lia|]. intros k.
  assert (Hall : ends_as vm2 m0 (mkFrame (frame_regs g' args) []) g' e0 None (inst_list g' e0) vm3 w).
  { rewrite (rd_code _ _ _ _ _ _ _ _ _ Hr e0 Hin). unfold head_of. rewrite decide_True, (rd_entry _ _ _ _ _ _ _ _ _ Hr) by done.
    simpl. rewrite app_nil_r. eapply ends_leads; [by apply leads_undefs|exact Hend]. }
  destruct (Hall k) as (n1 & k1 & Hn1). exists n1, k1. intros n2 Hle. by eapply cvm_exec_mono.
Qed.

Section step.
Context (n : nat) (IH : slot_sim n).
Context (f : MirFunction) (e : nat) (Hf : slot_form (type_cache module) f e).
Context (h : MirFunction) (ph : phi_map) (und : list PhiRec) (s : gmap MirValueId MirValueId) (E : edge_map).
Context (Rin : nat -> MirValueId -> MirValueId) (f' : MirFunction) (Hren : renamed f e h ph und s E Rin f').
Context (Hpar : phis_parallel f') (Hmax : (next_value_id f' <= 4096)%N).
Context (c j : nat) (x : MirInst) (Hx : inst_at f c j = Some x) (prev prev' : blockptr) (B m0 : gmap Z Z) (vm1 : CvmState) (v : Z) (Ht1 : trap_code vm1 = 0).

Abbreviation agree := (agree_at f e und s Rin f').
Abbreviation rest := (drop (S j) (inst_list f c)).
Abbreviation finished vm fr' l' := (ends_as vm m0 fr' f' c prev' l' vm1 v /\ mem vm1 = B /\ 0 <= v < 2 ^ 64).

Lemma leave_over vm fr fr' i k : agree B (mem vm) c i fr fr' ->
  cvm_leave (over vm m0 k) fr' = over (cvm_leave vm fr) m0 k /\ mem (cvm_leave vm fr) = B.
Proof.
  intros Ha. split.
  - unfold cvm_leave, cvm_frame_free_allocas. by rewrite (ag_allocas _ _ _ _ _ _ _ _ _ _ _ _ Ha).
  - simpl. apply free_restores; apply Ha.
Qed.

(** Behind an instruction that is no terminator. *)
Lemma next_sim vm fr fr' : agree B (mem vm) c (S j) fr fr' -> is_terminator (as_ x) = false -> trap_code vm = 0 ->
  after_handler n f c prev rest (vm, fr, NextInst) = Ok (vm1, v) -> finished vm fr' (kept_code (app s) rest).
Proof.
  intros Ha Hterm Ht H. simpl in H. rewrite Ht in H. cbn [Z.eqb negb] in H.
  pose proof (terminator_last (type_cache module) f e Hf c j x Hx) as Hlast. rewrite Hterm in Hlast. by eapply IH.
Qed.

Lemma drop_here : drop j (inst_list f c) = x :: rest.
Proof. apply drop_S. exact Hx. Qed.

(** The original machine skips an instruction the promotion drops. *)
Lemma dropped_code : match as_ x with LOAD _ | STORE _ _ | ALLOCA _ _ => True | _ => False end ->
  kept_code (app s) (drop j (inst_list f c)) = kept_code (app s) rest.
Proof. intros Hk. rewrite drop_here, kept_code_cons. unfold kept. by destruct (as_ x). Qed.

Lemma kept_here : match as_ x with LOAD _ | STORE _ _ | ALLOCA _ _ => False | _ => True end ->
  kept_code (app s) (drop j (inst_list f c)) = map_operands (app s) x :: kept_code (app s) rest.
Proof. intros Hk. rewrite drop_here, kept_code_cons. unfold kept. by destruct (as_ x). Qed.

Lemma operand_readable w d i : available f e w d i -> readable (next_value_id f) w.
Proof. intros [->|Hv%(value_bound _ _ _ Hf)]%(available_value _ f e Hf); [by left|right; lia]. Qed.

Lemma memory_sim vm fr fr' : agree B (mem vm) c j fr fr' -> trap_code vm = 0 ->
  match as_ x with LOAD _ | STORE _ _ | ALLOCA _ _ => True | _ => False end ->
  (let! r := exec_inst module calloc string_addr vm fr prev x in after_handler n f c prev rest r) = Ok (vm1, v) ->
  finished vm fr' (kept_code (app s) rest).
Proof.
  intros Ha Ht Hk H. pose proof (ag_regs _ _ _ _ _ _ _ _ _ _ _ _ Ha) as Hregs.
  assert (Hget : forall vm u, u ∈ inst_uses (as_ x) -> cvm_reg_get vm fr u = Ok (vm, rd fr u)).
  { intros vm2 u Hu. apply (reg_get_rd (next_value_id f)); [done|]. eapply operand_readable, (sf_strict _ _ _ Hf c j x); done. }
  pose proof (result_readable _ f e Hf c j x Hx) as Hres. unfold exec_inst in H.
  destruct (as_ x) eqn:Ex; try done.
  - pose proof (inst_at_slot _ f e Hf c j x Hx) as Hs. unfold slot_inst in Hs. rewrite Ex in Hs. cbn in Hs.
    rewrite !andb_true_iff in Hs. destruct Hs as [[[[->%Z.eqb_eq _] _] _] _]. change ((if 0 <? 1 then 1 else 1) * 8) with 8 in H.
    destruct (calloc (mem vm) 8) as [p|] eqn:Hp; [|cbn [obind after_handler] in H; by injection H as <- _].
    destruct (Hcalloc _ _ _ Hp) as (Hfresh & Hp0 & Hp1). rewrite (set_next_wr (next_value_id f)) in H by done. cbn [obind] in H.
    apply (next_sim (set_mem vm (zero_range (mem vm) p 8)) (wr (mkFrame (regs fr) (allocas fr ++ [(p, 8)])) (result x) p)); [|by rewrite Ex|done|done].
    apply (agree_alloca _ f e Hf h ph und s E Rin f' Hren); [done|by rewrite Ex|done..|lia].
  - destruct (agree_load _ f e Hf h ph und s E Rin f' Hren B (mem vm) c j x ptr fr fr' Hx Ex Ha) as (w & Hpos & Hl & Ha').
    rewrite Hget in H by left. cbn [obind fst snd] in H. rewrite (proj2 (Z.eqb_neq _ _)), Hl in H by lia. cbn [of_option obind] in H.
    rewrite (set_next_wr (next_value_id f)) in H by done. cbn [obind] in H. apply (next_sim vm (wr fr (result x) w)); [done|by rewrite Ex|done|done].
  - destruct (agree_store _ f e Hf h ph und s E Rin f' Hren B (mem vm) c j x ptr value fr fr' Hx Ex Ha) as (m' & Hpos & Hst & Ha').
    rewrite Hget in H by left. cbn [obind fst snd] in H. rewrite (proj2 (Z.eqb_neq _ _)) in H by lia.
    rewrite Hget in H by (right; left). cbn [obind fst snd] in H. rewrite Hst in H. cbn [of_option obind] in H.
    apply (next_sim (set_mem vm m') fr fr' Ha'); [by rewrite Ex|done|done].
Qed.
(** Operands that are no slots. *)
Lemma uses_no_slot u : match as_ x with LOAD _ | STORE _ _ => False | _ => True end -> u ∈ inst_uses (as_ x) -> u ∉ slots f.
Proof.
  intros Hk Hu. pose proof (inst_at_slot _ f e Hf c j x Hx) as Hs. unfold slot_inst in Hs.
  apply andb_true_iff in Hs as [[_ Hs]%andb_true_iff _].
  assert (Hall : forallb (fun v => bool_decide (v ∉ slots f)) (inst_uses (as_ x)) = true) by (by destruct (as_ x)).
  apply (forallb_elem _ _ u Hall) in Hu. by apply bool_decide_eq_true in Hu.
Qed.

Lemma lives_readable w d i : lives f e ph und w d i -> readable (next_value_id f') w.
Proof.
  intros [[_ Hl]|[(y & Hy & <-)|(b & y & Hy & <- & _)]].
  - apply (readable_mono f e h ph und s E Rin f' Hren). by eapply operand_readable.
  - right. apply (rd_range _ _ _ _ _ _ _ _ _ Hren). by left.
  - right. apply (rd_range _ _ _ _ _ _ _ _ _ Hren). eauto.
Qed.

Lemma operand_sim fr fr' m u : agree B m c j fr fr' -> match as_ x with LOAD _ | STORE _ _ => False | _ => True end -> u ∈ inst_uses (as_ x) ->
  readable (next_value_id f) u /\ readable (next_value_id f') u /\ readable (next_value_id f') (app s u) /\ rd fr' (app s u) = rd fr u.
Proof.
  intros Ha Hk Hu. pose proof (uses_no_slot u Hk Hu) as Hns. pose proof (sf_strict _ _ _ Hf c j x u Hx Hu) as Hav.
  pose proof (inst_at_block _ f e Hf c j x Hx) as Hc. split_and!.
  - by eapply operand_readable.
  - apply (readable_mono f e h ph und s E Rin f' Hren). by eapply operand_readable.
  - eapply lives_readable. by apply (app_lives _ f e Hf h ph und s E Rin f' Hren c j).
  - by apply (agree_operand _ f e Hf h ph und s E Rin f' Hren B m c j).
Qed.

Lemma mapped_uses σ u : u ∈ inst_uses (as_ (map_operands σ x)) -> exists w, w ∈ inst_uses (as_ x) /\ (u = σ w \/ u = w).
Proof.
  assert (Hmap : forall l w, w ∈ map σ l -> exists w0, w0 ∈ l /\ (w = σ w0 \/ w = w0)).
  { intros l w Hw. apply list_elem_of_fmap in Hw as (w0 & -> & Hw0). exists w0. auto. }
  unfold map_operands. destruct (as_ x) as [| | | | | | | | | | | |[]| | | | | | | | | | | | | | | | | | | | |]; simpl; intros Hu;
    try (by apply not_elem_of_nil in Hu); try (apply (Hmap [_]); exact Hu); try (apply (Hmap [_; _]); exact Hu); try (apply (Hmap [_; _; _]); exact Hu);
    try (apply Hmap; exact Hu); try (apply (Hmap (_ :: _)); exact Hu).
  - apply elem_of_cons in Hu as [->|Hu]; [exists base; split; [left|by left]|]. exists u. split; [by right|by right].
  - apply elem_of_cons in Hu as [->|Hu]; [exists callee; split; [left|by right]|].
    apply Hmap in Hu as (w & Hw & Huw). exists w. split; [by right|done].
  - apply list_elem_of_fmap in Hu as (ed & -> & (ed0 & -> & Hed)%list_elem_of_fmap). exists ed0.2. split; [by apply list_elem_of_fmap_2|by left].
Qed.

Lemma jump_sim b vm fr fr' : agree B (mem vm) c (length (inst_list f c)) fr fr' -> edge f c b -> trap_code vm = 0 ->
  after_handler n f c prev rest (vm, fr, Jump (Some b)) = Ok (vm1, v) ->
  exists blk', block_at f' b = Some blk' /\ ends_as vm m0 fr' f' b (Some c) (insts blk') vm1 v /\ mem vm1 = B /\ 0 <= v < 2 ^ 64.
Proof.
  intros Ha Hcb Ht H. simpl in H. apply obind_Ok in H as (blk & Hb & H). destruct (block_at f b) as [blk0|] eqn:Hblk; [|done].
  injection Hb as ->. pose proof (inst_at_block _ f e Hf c j x Hx) as Hc.
  assert (Hbl : b ∈ block_list f) by (apply (sf_all _ _ _ Hf); by exists blk).
  assert (Hbe : b <> e) by (intros ->; by apply (sf_entry _ _ _ Hf c)).
  destruct (block_code _ f e Hf h ph und s E Rin f' Hren b blk Hblk) as (blk' & Hb' & Hi'). exists blk'. split; [done|].
  destruct (leads_phis module' calloc string_addr _ f e Hf h ph und s E Rin f' Hren Hpar vm m0 c b fr' (kept_code (app s) (inst_list f b)) Ht Hcb Hc Hbl)
    as (fr2 & Hl & Hp); [apply Ha|apply Ha|].
  assert (Hex : exec n vm fr f b (Some c) (drop 0 (inst_list f b)) = Ok (vm1, v)).
  { unfold inst_list. rewrite Hblk. exact H. }
  destruct (IH vm fr fr2 m0 f e h ph und s E Rin f' b 0%nat (Some c) (Some c) B vm1 v Hf Hren Hpar Hmax) as (He & Hm & Hv); [|by eapply block_nonempty|done|done|done|].
  { by apply (agree_edge _ f e Hf h ph und s E Rin f' Hren B (mem vm) c b fr fr' fr2). }
  split; [|done]. eapply ends_leads; [|exact He]. rewrite Hi'. unfold head_of. rewrite decide_False by done. exact Hl.
Qed.

Lemma mapped_kind σ : register_kind (type_cache module) (as_ x) = true -> register_kind (type_cache module') (as_ (map_operands σ x)) = true.
Proof.
  rewrite Htypes. unfold map_operands. destruct (as_ x) as [| | | | | | | | | | | |[]| | | | | | | | | | |[]| | | | | | | | | |]; done.
Qed.

(** The last instruction of a frame, in the promoted machine. *)
Lemma last_step vm fr fr' w : agree B (mem vm) c j fr fr' -> call_of (as_ (map_operands (app s) x)) = None ->
  (exists nx, (nx = Done w \/ nx = Jump None /\ w = 0) /\
    forall vm, exec_inst module' calloc string_addr vm fr' prev' (map_operands (app s) x) = Ok (vm, fr', nx)) ->
  ends_as vm m0 fr' f' c prev' (map_operands (app s) x :: kept_code (app s) rest) (cvm_leave vm fr) w /\ mem (cvm_leave vm fr) = B.
Proof.
  intros Ha Hc (nx & Hnx & Hx'). destruct (leave_over vm fr fr' j 0 Ha) as [_ Hm]. split; [|done]. intros k.
  exists 1%nat, (u64 (k + 1)). cbn [cvm_exec]. rewrite exec_step_cons, Hc. change (tick (over vm m0 k)) with (over vm m0 (u64 (k + 1))).
  rewrite Hx'. cbn [obind]. rewrite (proj1 (leave_over vm fr fr' j (u64 (k + 1)) Ha)). by destruct Hnx as [->|[-> ->]].
Qed.

Lemma register_sim vm fr fr' : agree B (mem vm) c j fr fr' -> trap_code vm = 0 -> register_kind (type_cache module) (as_ x) = true ->
  (let! r := exec_inst module calloc string_addr vm fr prev x in after_handler n f c prev rest r) = Ok (vm1, v) ->
  finished vm fr' (map_operands (app s) x :: kept_code (app s) rest).
Proof.
  intros Ha Ht Hk (r & Hr & H)%obind_Ok. pose proof (after_trap _ _ _ _ _ _ _ _ H Ht1) as Htr.
  assert (Hq : match as_ x with LOAD _ | STORE _ _ => False | _ => True end) by (by destruct (as_ x)).
  assert (Hqt : quiet (as_ x)) by (by destruct (as_ x)). assert (Hcall : call_of (as_ (map_operands (app s) x)) = None).
  { unfold map_operands. by destruct (as_ x) as [| | | | | | | | | | | |[]| | | | | | | | | | | | | | | | | | | | |]. }
  pose proof (fun u Hu => operand_sim fr fr' (mem vm) u Ha Hq Hu) as Hops. pose proof (result_readable _ f e Hf c j x Hx) as Hres.
  pose proof (exec_evaluate module calloc string_addr (next_value_id f) vm fr prev x (ag_regs _ _ _ _ _ _ _ _ _ _ _ _ Ha) Hres
    (fun u Hu => proj1 (Hops u Hu)) Hk) as Hev.
  destruct (evaluate (type_cache module) string_addr (rd fr) (as_ x)) as [ef|] eqn:Eef; [|by destruct (Hev _ Hr)].
  assert (Hev' : forall vm, exec_inst module' calloc string_addr vm fr' prev' (map_operands (app s) x) = Ok (apply_effect vm fr' (result x) ef)).
  { intros vm2. pose proof (exec_evaluate module' calloc string_addr (next_value_id f') vm2 fr' prev' (map_operands (app s) x) (ag_regs' _ _ _ _ _ _ _ _ _ _ _ _ Ha)) as He.
    rewrite Htypes, (evaluate_rename module string_addr (app s) (rd fr) (rd fr') x Hk), Eef in He by (intros u Hu; apply Hops; done).
    apply He; [by apply (readable_mono f e h ph und s E Rin f' Hren)| |by rewrite <- Htypes; apply mapped_kind].
    intros u (w & Hw & [->| ->])%mapped_uses; by apply Hops. }
  assert (r = apply_effect vm fr (result x) ef) as -> by congruence.
  pose proof (evaluate_next module string_addr (rd fr) x ef Eef) as Hnext. pose proof (terminator_last _ f e Hf c j x Hx) as Hlast.
  destruct ef as [w|[| [b|] | w]]; simpl apply_effect in *.
  - destruct (next_sim vm (wr fr (result x) w) (wr fr' (result x) w)) as (He & Hrest); [|done|done|exact H|].
    { apply (agree_write _ f e Hf h ph und s E Rin f' Hren); [done..|].
      apply (evaluate_range module string_addr (rd fr) x w); [done|done|apply (ag_range _ _ _ _ _ _ _ _ _ _ _ _ Ha)|done]. }
    split; [|exact Hrest]. eapply ends_leads; [by apply leads_step|exact He].
  - destruct (next_sim vm fr fr') as (He & Hrest); [by eapply (agree_skip _ f e Hf)|done|done|exact H|].
    split; [|exact Hrest]. eapply ends_leads; [by apply leads_step|exact He].
  - assert (Hterm : is_terminator (as_ x) = true) by (destruct (as_ x); try done; by apply not_elem_of_nil in Hnext).
    rewrite Hterm in Hlast. destruct (jump_sim b vm fr fr') as (blk' & Hb' & He & Hrest);
      [rewrite <- Hlast; by eapply (agree_skip _ f e Hf)|by eapply target_edge|done|exact H|].
    split; [|exact Hrest]. intros k. destruct (He (u64 (k + 1))) as (n' & k' & Hn'). exists (S n'), k'. cbn [cvm_exec].
    rewrite exec_step_cons, Hcall. change (tick (over vm m0 k)) with (over vm m0 (u64 (k + 1))). rewrite Hev'. cbn [obind].
    rewrite Hb'. cbn [of_option obind]. exact Hn'.
  - simpl in H. injection H as <- <-. destruct (last_step vm fr fr' 0 Ha Hcall) as [He Hm]; [exists (Jump None); auto|]. split_and!; [done|done|lia|lia].
  - simpl in H. injection H as <- <-. destruct (last_step vm fr fr' w Ha Hcall) as [He Hm]; [exists (Done w); auto|].
    split; [done|]. split; [done|]. destruct Hnext as [->|(u & _ & ->)]; [lia|]. apply (ag_range _ _ _ _ _ _ _ _ _ _ _ _ Ha).
Qed.

Lemma call_sim vm fr fr' name ids : agree B (mem vm) c j fr fr' -> trap_code vm = 0 -> call_of (as_ x) = Some (name, ids) ->
  (let! r := (let! d := cvm_dispatch_call module vm fr name ids in
              let! r := match d.2 with Value v => Ok (d.1, v) | Enter g gfr e gl => exec n d.1 gfr g e None gl end in
              set_next r.1 fr (result x) r.2) in after_handler n f c prev rest r) = Ok (vm1, v) ->
  finished vm fr' (map_operands (app s) x :: kept_code (app s) rest).
Proof.
  intros Ha Ht Hcall H. apply obind_Ok in H as (r & Hr & H). pose proof (after_trap _ _ _ _ _ _ _ _ H Ht1) as Htr.
  apply obind_Ok in Hr as ([vm2 d] & Hd & Hr). apply obind_Ok in Hr as ([vm3 w] & Hrun & Hset). cbn [fst snd] in *.
  pose proof (ag_regs _ _ _ _ _ _ _ _ _ _ _ _ Ha) as Hregs. pose proof (ag_regs' _ _ _ _ _ _ _ _ _ _ _ _ Ha) as Hregs'.
  pose proof (result_readable _ f e Hf c j x Hx) as Hres. rewrite (set_next_wr (next_value_id f)) in Hset by done. injection Hset as <-.
  assert (Hq : match as_ x with LOAD _ | STORE _ _ => False | _ => True end) by (by destruct (as_ x)).
  assert (Hids : forall u, u ∈ ids -> u ∈ inst_uses (as_ x)) by (intros u Hu; destruct (as_ x); try done; injection Hcall as <- <-; simpl; by right).
  assert (Hname : name <> "nuwan_print_str").
  { pose proof (inst_at_slot _ f e Hf c j x Hx) as Hs. unfold slot_inst in Hs. apply andb_true_iff in Hs as [[Hs _]%andb_true_iff _].
    destruct (as_ x); try done; injection Hcall as <- <-; by apply negb_true_iff, String.eqb_neq in Hs. }
  assert (Hcall' : call_of (as_ (map_operands (app s) x)) = Some (name, map (app s) ids)).
  { unfold map_operands. destruct (as_ x); try done; by injection Hcall as <- <-. }
  assert (Hops : forall u, u ∈ ids -> readable (next_value_id f) u /\ readable (next_value_id f') (app s u) /\ rd fr' (app s u) = rd fr u).
  { intros u Hu. destruct (operand_sim fr fr' (mem vm) u Ha Hq (Hids u Hu)) as (? & _ & ? & ?). done. }
  assert (Hstep : mem vm3 = mem vm /\ 0 <= w < 2 ^ 64 /\ forall k, exists n1 k1, forall n2, (n1 <= n2)%nat ->
    exec_step module' calloc string_addr (fun vm fr g e gl => exec' n2 vm fr g e None gl) (over vm m0 k) fr' f' c prev'
      (map_operands (app s) x :: kept_code (app s) rest) = Ok (over vm3 m0 k1, wr fr' (result x) w, NextInst)).
  { destruct (dispatch_over (next_value_id f) (next_value_id f') (app s) vm m0 0 fr fr' name ids vm2 d) as (Hm2 & _); try done; [apply Ha|].
    destruct (dispatch_over (next_value_id f) (next_value_id f') (app s) vm m0 0 fr fr' name ids vm2 d) as (_ & d0 & _ & Hd0); try done; [apply Ha|].
    destruct (callee_sim n IH m0 vm2 d d0 vm3 w Hd0 Hrun Htr) as (Hm3 & Hw & _). split; [congruence|]. split; [done|]. intros k.
    destruct (dispatch_over (next_value_id f) (next_value_id f') (app s) vm m0 (u64 (k + 1)) fr fr' name ids vm2 d) as (_ & d' & Hd' & Hent); try done; [apply Ha|].
    destruct (callee_sim n IH m0 vm2 d d' vm3 w Hent Hrun Htr) as (_ & _ & Hc). destruct (Hc (u64 (k + 1))) as (n1 & k1 & Hn1). exists n1, k1. intros n2 Hle.
    rewrite exec_step_cons, Hcall'. change (tick (over vm m0 k)) with (over vm m0 (u64 (k + 1))). rewrite Hd'. cbn [obind fst snd].
    rewrite (Hn1 n2 Hle). cbn [obind fst snd]. apply (set_next_wr (next_value_id f')); [done|]. by apply (readable_mono f e h ph und s E Rin f' Hren). }
  destruct Hstep as (Hm3 & Hw & Hstep).
  destruct (next_sim vm3 (wr fr (result x) w) (wr fr' (result x) w)) as (He & Hrest);
    [rewrite Hm3; apply (agree_write _ f e Hf h ph und s E Rin f' Hren); try done; by destruct (as_ x)|by destruct (as_ x)|done|exact H|].
  split; [|exact Hrest]. intros k. destruct (Hstep k) as (n1 & k1 & Hs1), (He k1) as (n2 & k2 & Hn2). exists (S (Nat.max n1 n2)), k2.
  cbn [cvm_exec]. rewrite Hs1 by lia. cbn [obind]. change (trap_code (over vm3 m0 k1)) with (trap_code vm3). simpl in Htr. rewrite Htr. cbn [Z.eqb negb tail].
  eapply cvm_exec_mono; [|exact Hn2]. lia.
Qed.
End step.

Lemma slot_sim_all n : slot_sim n.
Proof.
  induction n as [|n IH]; intros vm fr fr' m0 f e h ph und s E Rin f' c j prev prev' B vm1 v Hf Hren Hpar Hmax Ha Hj Ht H Ht1; [done|].
  destruct (lookup_lt_is_Some_2 _ _ Hj) as [x Hx]. cbn [cvm_exec] in H. rewrite (drop_S _ _ _ Hx) in H. rewrite exec_step_cons in H.
  assert (Ha' : agree_at f e und s Rin f' B (mem (tick vm)) c j fr fr') by exact Ha. cbn [tail] in H.
  assert (Hcase : match as_ x with LOAD _ | STORE _ _ | ALLOCA _ _ => True | _ => False end \/
                  ~ match as_ x with LOAD _ | STORE _ _ | ALLOCA _ _ => True | _ => False end) by (destruct (as_ x); auto).
  destruct (call_of (as_ x)) as [[name ids]|] eqn:Hcall; [|destruct Hcase as [Hk|Hk]].
  - rewrite (kept_here f s c j x Hx) by (by destruct (as_ x)). by eapply (call_sim n IH f e Hf h ph und s E Rin f' Hren Hpar Hmax c j x Hx prev prev' B m0 vm1 v Ht1 (tick vm)).
  - rewrite (dropped_code f s c j x Hx Hk). by eapply (memory_sim n IH f e Hf h ph und s E Rin f' Hren Hpar Hmax c j x Hx prev prev' B m0 vm1 v Ht1 (tick vm)).
  - rewrite (kept_here f s c j x Hx) by (by destruct (as_ x)).
    apply (register_sim n IH f e Hf h ph und s E Rin f' Hren Hpar Hmax c j x Hx prev prev' B m0 vm1 v Ht1 (tick vm) fr fr' Ha' Ht); [|exact H].
    pose proof (inst_at_slot _ f e Hf c j x Hx) as Hs. unfold slot_inst in Hs. apply andb_true_iff in Hs as [[Hs _]%andb_true_iff _].
    unfold register_kind. rewrite Hs, andb_true_r. by destruct (as_ x).
Qed.
End sim.

(** ** The pass on a module *)

(** What the theorem asks of a function. *)
Definition promotable (tc : list MirType) (f : MirFunction) : Prop :=
  (is_extern f = true -> entry_block f = None) /\ (entry_block f = None \/ exists e, slot_form tc f e).

(** What it asks of the result. *)
Definition well_promoted (f' : MirFunction) : Prop := entry_block f' <> None -> phis_parallel f' /\ (next_value_id f' <= 4096)%N.

Lemma mem2reg_functions_spec tc l : Forall (promotable tc) l -> forall stats, exists l' stats',
  mem2reg_functions tc l stats = Ok (l', stats') /\
  (Forall well_promoted l' -> Forall2 (mem2reg_of tc) l l').
Proof.
  induction 1 as [|f l [Hex Hf] _ IH]; intros stats; cbn [mem2reg_functions]; [by exists [], stats|].
  assert (Hone : exists f' stats', (if is_extern f then Ok (f, stats) else let! r := mir_mem2reg tc f stats in Ok (r.1.1, r.2)) = Ok (f', stats') /\
    (well_promoted f' -> mem2reg_of tc f f')).
  { destruct (is_extern f) eqn:E; [exists f, stats; split; [done|]; intros _; left; auto|].
    destruct Hf as [Hn|[e Hf]].
    - exists f, stats. unfold mir_mem2reg. rewrite Hn. split; [done|]. intros _. by left.
    - destruct (promotion_result tc f e Hf stats) as (h & ph & und & s & E0 & Rin & f' & stats' & Hrun & Hr).
      exists f', stats'. rewrite Hrun. split; [done|]. intros Hw. right. exists e, h, ph, und, s, E0, Rin.
      destruct Hw as [Hp Hm]; [|done]. rewrite (ss_entry _ _ (rd_shape _ _ _ _ _ _ _ _ _ Hr)), (cw_entry _ _ (sf_cfg _ _ _ Hf)). done. }
  destruct Hone as (f' & st1 & -> & Hf'). cbn [obind fst snd]. destruct (IH st1) as (l' & st2 & -> & Hl'). exists (f' :: l'), st2.
  split; [done|]. intros Hw. inversion Hw; subst. constructor; auto.
Qed.

Lemma over_same vm : over vm (mem vm) (inst_executed vm) = vm.
Proof. by destruct vm. Qed.

(** C1: promotion of slots preserves behaviour.  On a module whose functions
    are in slot form, as the lowering writes local variables, the pass
    completes; and if the phis it leaves can be evaluated one after the other
    and the register files are large enough, every run of the interpreter that
    ends without a trap ends, on the promoted module, with the same return
    value and output, the same profiles and call depth, and the memory it
    started with; only the count of executed instructions differs.  [calloc]
    returns fresh non-null blocks and string literals have 64-bit addresses. *)
Theorem mem2reg_preserves_runs m stats calloc string_addr
  (Hcalloc : forall mm n p, calloc mm n = Some p -> range p n ## dom mm /\ 0 < p /\ p + n <= 2 ^ 64)
  (Hstrings : forall s, 0 <= string_addr s < 2 ^ 64)
  (Hm : Forall (promotable (type_cache m)) (func_list m)) :
  exists m' stats', mir_mem2reg_module m stats = Ok (m', stats') /\
    (Forall well_promoted (func_list m') -> forall n vm entry args vm1 v,
       cvm_run m calloc string_addr n vm entry args = Ok (vm1, v) -> trap_code vm1 = 0 ->
       mem vm1 = mem vm /\ exists n' k, cvm_run m' calloc string_addr n' vm entry args = Ok (set_exec vm1 k, v)).
Proof.
  destruct (mem2reg_functions_spec (type_cache m) (func_list m) Hm stats) as (l' & st' & Hrun & Hpair).
  exists (with_funcs m l' (func_count m)), st'. unfold mir_mem2reg_module. rewrite Hrun. split; [done|].
  set (m' := with_funcs m l' (func_count m)). intros Hw n vm entry args vm1 v Hexec Ht1. apply Hpair in Hw.
  unfold cvm_run in *. pose proof (find_function_mem2reg m m' Hw entry) as Hfind.
  destruct (mir_module_find_function m entry) as [g|], (mir_module_find_function m' entry) as [g'|]; try done.
  2: { injection Hexec as <- <-. split; [done|]. exists n, (inst_executed vm). by destruct vm. }
  apply obind_Ok in Hexec as ([vm2 w] & Hexec & [= -> <-]). unfold cvm_exec_function in Hexec.
  apply obind_Ok in Hexec as ([vm3 d] & Hent & Hexec). cbn [fst snd] in *.
  assert (Hargs : Forall (fun w => 0 <= w < 2 ^ 64) (map u64 (take 64 args))).
  { apply list.Forall_forall. intros x (y & -> & _)%list_elem_of_fmap. apply u64_range. }
  destruct (enter_over m (count_call vm entry) (mem vm) (inst_executed vm) g g' _ vm3 d Hfind Hargs Hent) as (Hm3 & d' & Hent' & Hboth).
  rewrite count_call_mem in Hm3. rewrite <- (count_call_over vm (mem vm) (inst_executed vm) entry), over_same in Hent'.
  destruct (callee_sim m m' calloc string_addr n (slot_sim_all m m' calloc string_addr Hcalloc Hstrings eq_refl Hw n)
    (mem vm) vm3 d d' vm1 w Hboth Hexec Ht1) as (Hm1 & _ & Hc).
  destruct (Hc (inst_executed vm)) as (n1 & k1 & Hn1). split; [congruence|]. exists n1, k1.
  assert (Hover : over vm1 (mem vm) k1 = set_exec vm1 k1) by (unfold over; rewrite <- Hm3, <- Hm1; by destruct vm1).
  unfold cvm_exec_function. rewrite Hent'. cbn [obind fst snd]. specialize (Hn1 n1 (le_n n1)). rewrite Hover in Hn1.
  destruct d'; by rewrite Hn1.
Qed.
