(* ===== verification/SlotCheck.v ===== *)
(** * Deciding slot form

    A test that is enough for slot form, for functions whose [alloca]s all
    stand in the entry block, as the lowering places them; what the promotion
    leaves; a run of a loop before and after it; and the swap of two variables,
    whose phis the interpreter must not evaluate one after the other. *)
From S2P Require Import Prelude MirCore MirGraph MirOpt MirVerify Dominators DomFacts DomFrontier.
From S2P Require Import Float64 Cvm CvmFacts CvmMemory MirBuilder MirBuilderFacts Mem2Reg SlotForm.
From S2P Require Import PhiInsert Renaming Promotion MirDce Mem2RegSim MirVerifyFacts.

(** ** The test *)

(** [d] is [b] or above it in the tree [h]. *)
Fixpoint aboveb (fuel : nat) (h : MirFunction) (d b : nat) : bool :=
  bool_decide (b = d) ||
  match fuel with
  | O => false
  | S fuel => match idom_of h b with Some i => aboveb fuel h d i | None => false end
  end.

(** The places of the instructions. *)
Definition places (f : MirFunction) : list (nat * nat * MirInst) :=
  b ← block_list f; imap (fun i x => (b, i, x)) (inst_list f b).

Definition availableb (f h : MirFunction) (v : MirValueId) (c j : nat) : bool :=
  (v =? MIR_VALUE_NONE)%N || bool_decide (v ∈ map p_value_id (params f)) ||
  existsb (fun p => (result p.2 =? v)%N &&
    (bool_decide (p.1.1 = c) && (p.1.2 <? j)%nat || negb (bool_decide (p.1.1 = c)) && aboveb (length (block_list f)) h p.1.1 c)) (places f).

Definition block_shapeb (blk : MirBlock) : bool :=
  match rev (insts blk) with
  | term :: body => forallb (fun i => negb (is_terminator (as_ i))) body && is_terminator (as_ term) &&
      forallb (fun t => bool_decide (t ∈ successors blk)) (targets (as_ term))
  | [] => false
  end.

Definition slot_formb (tc : list MirType) (f : MirFunction) (e : nat) : bool :=
  let bl := block_list f in
  cfg_wfb f e && (block_count f =? Z.of_nat (length bl)) && forallb (fun b => bool_decide (b ∈ bl)) (seq 0 (length (blocks f))) &&
  match compute_rpo f with Ok rpo => forallb (fun b => bool_decide (b ∈ rpo)) bl | _ => false end &&
  forallb (fun b => match block_at f b with Some blk => negb (bool_decide (e ∈ successors blk)) && block_shapeb blk | None => false end) bl &&
  forallb (slot_inst tc (slots f)) (all_insts f) && (length (slots f) <=? MAX_ALLOCAS)%nat &&
  bool_decide (NoDup (function_values f)) && forallb (fun v => (0 <? v)%N && (v <? next_value_id f)%N) (function_values f) &&
  match mir_compute_dominators f with
  | Ok h => forallb (fun p => forallb (fun v => availableb f h v p.1.1 p.1.2) (inst_uses (as_ p.2))) (places f)
  | _ => false
  end &&
  forallb (fun p => negb (is_alloca (as_ p.2)) || bool_decide (p.1.1 = e)) (places f).

Lemma places_spec f b i x : (b, i, x) ∈ places f <-> b ∈ block_list f /\ inst_at f b i = Some x.
Proof.
  unfold places. rewrite list_elem_of_bind. split.
  - intros (c & Hc & Hin). apply list_elem_of_lookup in Hc as [k Hk]. rewrite list_lookup_imap in Hk.
    apply fmap_Some in Hk as (y & Hy & [= -> -> ->]). done.
  - intros [Hb Hx]. exists b. split; [|done]. apply list_elem_of_lookup. exists i. rewrite list_lookup_imap. unfold inst_at in Hx. by rewrite Hx.
Qed.

Lemma aboveb_sound fuel h d b : aboveb fuel h d b = true -> anc h b d.
Proof.
  revert b. induction fuel as [|fuel IH]; intros b; cbn [aboveb]; intros [->%bool_decide_eq_true|H]%orb_true_iff; try apply rtc_refl; [done|].
  destruct (idom_of h b) as [i|] eqn:Hi; [|done]. eapply rtc_l; [exact Hi|by apply IH].
Qed.

Lemma uninit_entry f e a c j : (forall b i x, inst_at f b i = Some x -> is_alloca (as_ x) = true -> b = e) -> ~ uninit f e a c j.
Proof. intros He Hu. induction Hu as [b i x Hx Hal _ Hne| |]; [|done|done]. by apply Hne, (He b i x). Qed.

Lemma block_shapeb_sound blk : block_shapeb blk = true -> block_shape blk.
Proof.
  unfold block_shapeb. destruct (rev (insts blk)) as [|term body] eqn:E; [done|]. intros [[Hb Ht]%andb_true_iff Hs]%andb_true_iff.
  exists (rev body), term. split_and!; [by rewrite <- (rev_involutive (insts blk)), E| |done|].
  - apply list.Forall_forall. intros i Hi%list_elem_of_In%in_rev%list_elem_of_In. by apply (forallb_elem _ _ i) in Hb; [apply negb_true_iff|].
  - intros t Hin. apply (forallb_elem _ _ t) in Hs; [|done]. by apply bool_decide_eq_true in Hs.
Qed.

Lemma slot_formb_sound tc f e : slot_formb tc f e = true -> slot_form tc f e.
Proof.
  unfold slot_formb. rewrite !andb_true_iff.
  intros [[[[[[[[[[Hc%cfg_wfb_sound Hn%Z.eqb_eq] Ha] Hr] Hb] Hi] Hf%Nat.leb_le] Hu%bool_decide_eq_true] Hv] Hs] Hal].
  assert (Hbl : forall b i x, inst_at f b i = Some x -> b ∈ block_list f).
  { intros b i x Hx. assert (Hlt : (b < length (blocks f))%nat).
    { unfold inst_at, inst_list, block_at in Hx. destruct (blocks f !! b) eqn:E; [by eapply lookup_lt_Some|done]. }
    apply (forallb_elem _ _ b) in Ha; [by apply bool_decide_eq_true in Ha|]. apply elem_of_seq. lia. }
  assert (Hreach : forall b, b ∈ block_list f -> reach f e b).
  { intros b Hin. destruct (compute_rpo_spec f e Hc) as (rpo & Hrpo & Hspec). rewrite Hrpo in Hr.
    apply (forallb_elem _ _ b) in Hr; [|done]. by apply bool_decide_eq_true, (rp_reach _ _ _ Hspec) in Hr. }
  assert (Hent : forall b i x, inst_at f b i = Some x -> is_alloca (as_ x) = true -> b = e).
  { intros b i x Hx Hx'. apply (forallb_elem _ _ (b, i, x)) in Hal; [|apply places_spec; split; [by eapply Hbl|done]]. simpl in Hal.
    rewrite Hx' in Hal. by apply bool_decide_eq_true in Hal. }
  split; try done.
  - intros b Hsome. apply (forallb_elem _ _ b) in Ha; [by apply bool_decide_eq_true in Ha|]. apply elem_of_seq.
    destruct Hsome as [blk Hblk]. apply lookup_lt_Some in Hblk. lia.
  - intros p (blk & Hblk & Hs'). assert (Hp : p ∈ block_list f).
    { apply (forallb_elem _ _ p) in Ha; [by apply bool_decide_eq_true in Ha|]. apply elem_of_seq. apply lookup_lt_Some in Hblk. lia. }
    apply (forallb_elem _ _ p) in Hb; [|done]. cbv beta in Hb. rewrite Hblk in Hb. apply andb_true_iff in Hb as [Hb _].
    by apply negb_true_iff, bool_decide_eq_false in Hb.
  - intros b blk Hblk. assert (Hp : b ∈ block_list f).
    { apply (forallb_elem _ _ b) in Ha; [by apply bool_decide_eq_true in Ha|]. apply elem_of_seq. apply lookup_lt_Some in Hblk. lia. }
    apply (forallb_elem _ _ b) in Hb; [|done]. cbv beta in Hb. rewrite Hblk in Hb. apply andb_true_iff in Hb as [_ Hb]. by apply block_shapeb_sound.
  - intros i Hin. by apply (forallb_elem _ _ i) in Hi.
  - apply list.Forall_forall. intros v Hin. apply (forallb_elem _ _ v) in Hv; [|done].
    by apply andb_true_iff in Hv as [?%N.ltb_lt ?%N.ltb_lt].
  - intros c j x v Hx Hv'. destruct (dominators_spec f e Hc) as (h & Hh & Ht); [intros b Hin Hn'; by destruct Hn'; apply Hreach|].
    rewrite Hh in Hs. apply (forallb_elem _ _ (c, j, x)) in Hs; [|apply places_spec; split; [by eapply Hbl|done]].
    apply (forallb_elem _ _ v) in Hs; [|done]. simpl in Hs. unfold availableb in Hs.
    apply orb_true_iff in Hs as [[->%N.eqb_eq|Hp%bool_decide_eq_true]%orb_true_iff|Hs]; [by left|by right; left|right; right].
    apply existsb_exists in Hs as ([[b i] y] & [_ Hy]%list_elem_of_In%places_spec & [Heq%N.eqb_eq Hb']%andb_true_iff). simpl in *.
    exists b, i. split; [by exists y|]. apply orb_true_iff in Hb' as [[->%bool_decide_eq_true Hlt%Nat.ltb_lt]%andb_true_iff|[Hne%negb_true_iff%bool_decide_eq_false Hab%aboveb_sound]%andb_true_iff].
    + by left.
    + right. split; [done|]. apply (dt_chain _ _ _ Ht); [|done]. by eapply Hreach, Hbl.
  - intros c j x p _ _. by apply uninit_entry.
Qed.

(** ** What is left *)

Definition phis_parallelb (f : MirFunction) : bool :=
  forallb (fun p => forallb (fun q =>
    match as_ p.2, as_ q.2 with
    | PHI _, PHI ey => negb (bool_decide (p.1.1 = q.1.1) && (p.1.2 <? q.1.2)%nat && bool_decide (result p.2 ∈ ey.*2))
    | _, _ => true
    end) (places f)) (places f).

Lemma phis_parallelb_sound f : (forall b, is_Some (block_at f b) -> b ∈ block_list f) -> phis_parallelb f = true -> phis_parallel f.
Proof.
  intros Hbl H b i j x y ex ey Hx Ex Hy Ey Hij Hin.
  assert (Hb : b ∈ block_list f).
  { apply Hbl. unfold inst_at, inst_list in Hx. destruct (block_at f b); [by eexists|done]. }
  unfold phis_parallelb in H. apply (forallb_elem _ _ (b, i, x)) in H; [|by apply places_spec].
  apply (forallb_elem _ _ (b, j, y)) in H; [|by apply places_spec]. simpl in H. rewrite Ex, Ey in H.
  rewrite !bool_decide_eq_true_2 in H by done. rewrite (proj2 (Nat.ltb_lt _ _) Hij) in H. done.
Qed.

(** C2: promotion is complete.  On a function in slot form [mir_mem2reg]
    finishes within its arrays and promotes every slot: each block is its new
    phis (in the entry, the undefined values) followed by the original
    instructions in order, without loads, stores and [alloca]s, and with every
    operand that was the value of a load replaced by a value that no load
    defines; parameters, blocks and edges are the same. *)
Theorem mem2reg_promotes tc f e stats (Hf : slot_form tc f e) : exists f' stats' σ front,
  mir_mem2reg tc f stats = Ok (f', Z.of_nat (length (slots f)), stats') /\ same_shape f f' /\
  (forall v, v ∉ loads f -> σ v = v) /\ (forall v, v ∈ loads f -> σ v ∉ loads f) /\
  (forall b, b ∈ block_list f -> inst_list f' b = front b ++ kept_code σ (inst_list f b)) /\
  (forall b x, x ∈ front b -> is_phi (as_ x) = true \/ b = e /\ as_ x = UNDEF) /\
  forall b x, b ∈ block_list f -> x ∈ inst_list f' b -> match as_ x with LOAD _ | STORE _ _ | ALLOCA _ _ => False | _ => True end.
Proof.
  destruct (promotion_result tc f e Hf stats) as (h & ph & und & s & E & Rin & f' & stats' & Hrun & Hr).
  exists f', stats', (app s), (head_of e ph und E).
  assert (Hfront : forall b x, x ∈ head_of e ph und E b -> is_phi (as_ x) = true \/ b = e /\ as_ x = UNDEF).
  { intros b x. unfold head_of. intros [Hx|Hx]%elem_of_app.
    - destruct (decide (b = e)) as [->|]; [|by apply not_elem_of_nil in Hx]. apply list_elem_of_fmap in Hx as (y & -> & _). by right.
    - apply list_elem_of_fmap in Hx as (y & -> & _). by left. }
  split_and!; [done|apply Hr| | |apply Hr|done|].
  - intros v Hv. by apply (app_other f), Hv; apply Hr.
  - intros v Hv. apply (app_image f); [apply Hr|]. intros _. apply loads_at in Hv as (b & i & x & p & Hx & Hp & <-).
    by apply (rd_load _ _ _ _ _ _ _ _ _ Hr b i x p).
  - intros b x Hb. rewrite (rd_code _ _ _ _ _ _ _ _ _ Hr b Hb). intros [Hx|Hx]%elem_of_app.
    + apply Hfront in Hx as [Hx|[_ Hx]]; by destruct (as_ x).
    + unfold kept_code in Hx. apply list_elem_of_omap in Hx as (y & _ & Hy). destruct (is_alloca (as_ y)) eqn:Ha; [done|].
      unfold kept in Hy. destruct (as_ y) as [| | | | | | | | | | | |[]| | | | | | | | | | | | | | | | | | | | |] eqn:Ey; try done; injection Hy as <-; unfold map_operands; by rewrite Ey.
Qed.

(** ** A loop over two variables *)

Definition mk_i (r : N) (k : MirInstKind) : MirInst := ex_inst r 1 k.
Definition slot_module (name : string) (next : N) (blks : list (list MirInst * list nat * list nat)) : MirModule :=
  mkModule "m" [mkFunction name 1 [mkParam "n" 1 1] (Some 0%nat)
    (imap (fun i b => ex_block (Z.of_nat i) b.1.1 b.1.2 b.2) blks) (seq 0 (length blks)) (Z.of_nat (length blks)) next
    (replicate (N.to_nat next) 1%N) false false false] 1 [] [TyPrim MIR_TYPE_I64] [].

(** [s = 0; i = n; while (i > 0) { s = s + i; i = i - 1; } return s;] *)
Definition ex_sum : MirModule := slot_module "sum" 15 [
  ([mk_i 2 (ALLOCA 1 1); mk_i 3 (ALLOCA 1 1); mk_i 4 (CONST_INT 0); mk_i 0 (STORE 2 4); mk_i 0 (STORE 3 1); mk_i 0 (BR (Some 1))], [], [1]);
  ([mk_i 5 (LOAD 3); mk_i 6 (CONST_INT 0); mk_i 7 (BINARY MIR_CMP_GT 5 6); mk_i 0 (CONDBR 7 (Some 2) (Some 3))], [0; 2], [2; 3]);
  ([mk_i 8 (LOAD 2); mk_i 9 (LOAD 3); mk_i 10 (BINARY MIR_ADD 8 9); mk_i 0 (STORE 2 10); mk_i 11 (CONST_INT 1); mk_i 12 (LOAD 3);
    mk_i 13 (BINARY MIR_SUB 12 11); mk_i 0 (STORE 3 13); mk_i 0 (BR (Some 1))], [1], [1]);
  ([mk_i 14 (LOAD 2); mk_i 0 (RET 14)], [1], [])]%nat.

(** [x = 1; y = 2; while (n > 0) { t = x; x = y; y = t; n = n - 1; } return x;] *)
Definition ex_swap : MirModule := slot_module "swap" 18 [
  ([mk_i 2 (ALLOCA 1 1); mk_i 3 (ALLOCA 1 1); mk_i 4 (ALLOCA 1 1); mk_i 5 (CONST_INT 1); mk_i 6 (CONST_INT 2);
    mk_i 0 (STORE 2 5); mk_i 0 (STORE 3 6); mk_i 0 (STORE 4 1); mk_i 0 (BR (Some 1))], [], [1]);
  ([mk_i 7 (LOAD 4); mk_i 8 (CONST_INT 0); mk_i 9 (BINARY MIR_CMP_GT 7 8); mk_i 0 (CONDBR 9 (Some 2) (Some 3))], [0; 2], [2; 3]);
  ([mk_i 10 (LOAD 2); mk_i 11 (LOAD 3); mk_i 0 (STORE 2 11); mk_i 0 (STORE 3 10); mk_i 12 (LOAD 4); mk_i 13 (CONST_INT 1);
    mk_i 14 (BINARY MIR_SUB 12 13); mk_i 0 (STORE 4 14); mk_i 0 (BR (Some 1))], [1], [1]);
  ([mk_i 15 (LOAD 2); mk_i 0 (RET 15)], [1], [])]%nat.

(** A bump allocator within the address space. *)
Definition bounded_alloc (m : gmap Z Z) (n : Z) : option Z :=
  p ← bump_alloc m n; if (p + n <=? 2 ^ 64) && (0 <? p) then Some p else None.

Lemma bounded_alloc_ok m n p : bounded_alloc m n = Some p -> range p n ## dom m /\ 0 < p /\ p + n <= 2 ^ 64.
Proof.
  unfold bounded_alloc. intros (q & Hq & H)%bind_Some. destruct (_ && _) eqn:E; [|done]. injection H as <-.
  apply andb_true_iff in E as [?%Z.leb_le ?%Z.ltb_lt]. split; [by eapply bump_alloc_fresh|lia].
Qed.

Definition run_of (m : MirModule) (name : string) (n : Z) : outcome (CvmState * Z) :=
  cvm_run m bounded_alloc (fun _ => 0) 200 (cvm_state_create ∅) name [n].
Definition value_of (r : outcome (CvmState * Z)) : option (Z * Z) := match r with Ok (vm, v) => Some (trap_code vm, v) | _ => None end.
Definition promoted_module (m : MirModule) : MirModule := match mir_mem2reg_module m zero_stats with Ok (m', _) => m' | _ => m end.

Lemma ex_sum_slots : Forall (promotable (type_cache ex_sum)) (func_list ex_sum).
Proof.
  constructor; [|constructor]. split; [done|]. right. exists 0%nat. apply slot_formb_sound. vm_compute. reflexivity.
Qed.

Definition well_promotedb (f : MirFunction) : bool :=
  forallb (fun b => bool_decide (b ∈ block_list f)) (seq 0 (length (blocks f))) && phis_parallelb f && (next_value_id f <=? 4096)%N.

Lemma well_promoted_check l : forallb well_promotedb l = true -> Forall well_promoted l.
Proof.
  intros H. apply list.Forall_forall. intros f Hf. apply (forallb_elem _ _ f) in H; [|done]. cbv beta in H. revert H.
  intros [[Hb Hp]%andb_true_iff Hn%N.leb_le]%andb_true_iff. split; [|done]. apply phis_parallelb_sound; [|done].
  intros b [blk Hblk]. assert (Hlt : (b < length (blocks f))%nat) by by eapply lookup_lt_Some.
  apply (forallb_elem _ _ b) in Hb; [|apply elem_of_seq; lia]. by apply bool_decide_eq_true in Hb.
Qed.

Lemma ex_sum_parallel : Forall well_promoted (func_list (promoted_module ex_sum)).
Proof. apply well_promoted_check. vm_compute. reflexivity. Qed.

Lemma value_of_Ok r t v : value_of r = Some (t, v) -> exists vm1, r = Ok (vm1, v) /\ trap_code vm1 = t.
Proof. destruct r as [[vm1 w]| |]; try done. intros [= <- <-]. by exists vm1. Qed.

Lemma run_of_eq m name n : run_of m name n = cvm_run m bounded_alloc (fun _ => 0) 200 (cvm_state_create ∅) name [n].
Proof. done. Qed.

Lemma ex_sum_runs : exists vm1, run_of ex_sum "sum" 4 = Ok (vm1, 10) /\ trap_code vm1 = 0.
Proof. apply value_of_Ok. vm_compute. reflexivity. Qed.

Lemma promoted_Ok m m' stats : mir_mem2reg_module m zero_stats = Ok (m', stats) -> promoted_module m = m'.
Proof. unfold promoted_module. by intros ->. Qed.

Lemma mem2reg_preserves_runs_witness : exists n' vm1 k, run_of ex_sum "sum" 4 = Ok (vm1, 10) /\
  cvm_run (promoted_module ex_sum) bounded_alloc (fun _ => 0) n' (cvm_state_create ∅) "sum" [4] = Ok (set_exec vm1 k, 10).
Proof.
  destruct (mem2reg_preserves_runs ex_sum zero_stats bounded_alloc (fun _ => 0) bounded_alloc_ok (fun _ => conj (Z.le_refl 0) eq_refl) ex_sum_slots)
    as (m' & stats' & Hm & Hsim).
  pose proof ex_sum_parallel as Hw. pose proof ex_sum_runs as (vm1 & Hrun & Ht). pose proof (promoted_Ok _ _ _ Hm) as Hp.
  rewrite Hp in Hw |- *. rewrite run_of_eq in Hrun |- *.
  destruct (Hsim Hw _ _ _ _ _ _ Hrun Ht) as (_ & n' & k & Hrun').
  exists n', vm1, k. split; [exact Hrun|exact Hrun'].
Defined.

Definition ex_sum_function : MirFunction := match func_list ex_sum with f :: _ => f | [] => mkFunction "" 0 [] None [] [] 0 1 [] false false false end.

Lemma ex_sum_form : slot_form (type_cache ex_sum) ex_sum_function 0.
Proof. apply slot_formb_sound. vm_compute. reflexivity. Qed.

Lemma mem2reg_promotes_witness : exists f' stats', mir_mem2reg (type_cache ex_sum) ex_sum_function zero_stats = Ok (f', 2, stats').
Proof.
  destruct (mem2reg_promotes (type_cache ex_sum) ex_sum_function 0 zero_stats ex_sum_form) as (f' & stats' & _ & _ & H & _).
  exists f', stats'. exact H.
Defined.

(** ** The swap *)

Lemma accepted_Forall tc l : map (mir_verify_function tc) l = [Ok 0] -> Forall (fun f => mir_verify_function tc f = Ok 0) l.
Proof. destruct l as [|f [|g l]]; try done. intros [= H]. by constructor; [|constructor]. Qed.

Lemma ex_swap_accepted : Forall (fun f => mir_verify_function (type_cache ex_swap) f = Ok 0) (func_list (promoted_module ex_swap)).
Proof. apply accepted_Forall. vm_compute. reflexivity. Qed.

(** The swap of two variables in a loop.  The function is in slot form, the
    verifier accepts what the promotion leaves, and yet a run that swaps twice
    ends with [x = 2] instead of [x = 1]: the phis of the loop header read each
    other, and the interpreter runs phis one after the other. *)
Theorem mem2reg_swap_breaks :
  Forall (promotable (type_cache ex_swap)) (func_list ex_swap) /\
  Forall (fun f => mir_verify_function (type_cache ex_swap) f = Ok 0) (func_list (promoted_module ex_swap)) /\
  forallb phis_parallelb (func_list (promoted_module ex_swap)) = false /\
  value_of (run_of ex_swap "swap" 2) = Some (0, 1) /\ value_of (run_of (promoted_module ex_swap) "swap" 2) = Some (0, 2).
Proof.
  split_and!; [| |vm_compute; reflexivity..].
  - constructor; [|constructor]. split; [done|]. right. exists 0%nat. apply slot_formb_sound. vm_compute. reflexivity.
  - exact ex_swap_accepted.
Qed.
