(* ===== verification/RegexEmit.v ===== *)
(** * The emission of a matcher

    The last part of [src/compiler/ir/mir_regex.c]: [emit_switch], [emit_mir]
    and [mir_regex_compile], over the builder of MirBuilder.v.  The function
    has a block [entry], a block [reject] and three blocks per state of the
    automaton. *)
From stdpp Require Import strings pretty.
From S2P Require Import Prelude MirCore MirBuilder CString MirRegex.

(** The edges of a switch: the cases, then the default. *)
Fixpoint link_all (ts : list blockptr) : MB unit :=
  match ts with
  | [] => mret tt
  | t :: ts => _ ← link_cfg t; link_all ts
  end.

Definition emit_switch (disc : MirValueId) (cases : list (Z * blockptr)) (default_bb : blockptr) : MB unit :=
  t ← mk_type mir_type_void;
  _ ← emit_void (alloc_inst (SWITCH disc cases default_bb) t);
  link_all (cases.*2 ++ [default_bb]).

(** [state_%d], [body_%d], [end_%d] of the state [s]. *)
Definition block_name (prefix : string) (s : nat) : string := String.append prefix (pretty s).

(** The blocks of the [n] states from [s] on: head, body and end. *)
Fixpoint add_state_blocks (n s : nat) : MB (list (nat * nat * nat)) :=
  match n with
  | O => mret []
  | S n =>
      head_bb ← add_block (block_name "state_" s);
      body_bb ← add_block (block_name "body_" s);
      end_bb ← add_block (block_name "end_" s);
      rest ← add_state_blocks n (S s);
      mret ((head_bb, body_bb, end_bb) :: rest)
  end.

Definition lift_undef {A} (o : option A) : MB A := fun b => let! x := of_option o in Ok (b, x).

(** The loop over the bytes from [bv] on: the live transitions. *)
Fixpoint collect_cases_from (heads : list nat) (bv : Z) (l : list (option nat)) : option (list (Z * blockptr)) :=
  match l with
  | [] => Some []
  | None :: l => collect_cases_from heads (bv + 1) l
  | Some t :: l =>
      h ← heads !! t;
      r ← collect_cases_from heads (bv + 1) l;
      Some ((bv, Some h) :: r)
  end.

(** The buffers have [ntrans] cells: the loop must fill them exactly, or it
    writes past their end or leaves cells that are read unset. *)
Definition state_cases (heads : list nat) (st : DfaState) : option (list (Z * blockptr)) :=
  cases ← collect_cases_from heads 0 (trans st);
  if Z.of_nat (length cases) =? ntrans st then Some cases else None.

(** The three blocks of a state. *)
Definition emit_state (i32t i64t u8t : tyref) (input_id len_id pos_slot : MirValueId) (reject : nat)
  (heads : list nat) (bbs : nat * nat * nat) (st : DfaState) : MB unit :=
  let '(head_bb, body_bb, end_bb) := bbs in
  _ ← mir_builder_set_block (Some head_bb);
  pos ← mir_build_load pos_slot i64t;
  at_end ← mir_build_cmp_ge pos len_id;
  _ ← mir_build_condbr at_end (Some end_bb) (Some body_bb);
  _ ← mir_builder_set_block (Some body_bb);
  pos2 ← mir_build_load pos_slot i64t;
  bp ← mir_build_get_elem_ptr input_id pos2;
  ch_u8 ← mir_build_load bp u8t;
  ch_i64 ← mir_build_zext ch_u8 i64t;
  one ← mir_build_const_int 1 i64t;
  pos3 ← mir_build_add pos2 one;
  _ ← mir_build_store pos_slot pos3;
  cases ← lift_undef (state_cases heads st);
  _ ← match cases with [] => mir_build_br (Some reject) | _ => emit_switch ch_i64 cases (Some reject) end;
  _ ← mir_builder_set_block (Some end_bb);
  v ← mir_build_const_int (b2z (accepting st)) i32t;
  mir_build_ret v.

Fixpoint emit_states (emit_one : nat * nat * nat -> DfaState -> MB unit) (bbs : list (nat * nat * nat))
  (sts : list DfaState) : MB unit :=
  match bbs, sts with
  | bb :: bbs, st :: sts => _ ← emit_one bb st; emit_states emit_one bbs sts
  | _, _ => mret tt
  end.

(** The body of the function, its two parameters given. *)
Definition emit_body (i32t i64t u8t : tyref) (input_id len_id : MirValueId) (dfa : Dfa) : MB unit :=
  entry ← add_block "entry";
  reject ← add_block "reject";
  bbs ← add_state_blocks (length (dstates dfa)) 0;
  let heads := map (fun x => x.1.1) bbs in
  _ ← mir_builder_set_block (Some entry);
  pos_slot ← mir_build_alloca i64t;
  zero_i64 ← mir_build_const_int 0 i64t;
  _ ← mir_build_store pos_slot zero_i64;
  head0 ← lift_undef (heads !! 0%nat);
  _ ← mir_build_br (Some head0);
  _ ← mir_builder_set_block (Some reject);
  zero_i32 ← mir_build_const_int 0 i32t;
  _ ← mir_build_ret zero_i32;
  emit_states (emit_state i32t i64t u8t input_id len_id pos_slot reject heads) bbs (dstates dfa).

(** The types of the signature, in the order the code makes them. *)
Definition regex_types (tc : list MirType) : list MirType * (tyref * tyref * tyref * tyref) :=
  let '(tc, i32t) := mir_type_i32 tc in
  let '(tc, i64t) := mir_type_i64 tc in
  let '(tc, u8t) := mir_type_u8 tc in
  let '(tc, ptr_u8) := mir_type_ptr tc u8t in
  (tc, (i32t, i64t, u8t, ptr_u8)).

(** [assert(dfa->n >= 1)], then the function; the module shows it finished. *)
Definition emit_mir (m : MirModule) (func_name : string) (dfa : Dfa) : outcome (MirModule * MirFunction) :=
  match dstates dfa with
  | [] => Undef
  | _ =>
      let '(tc, (i32t, i64t, u8t, ptr_u8)) := regex_types (type_cache m) in
      let '(m, func) := mir_module_add_function (with_type_cache m tc) func_name i32t
                          [("input"%string, ptr_u8); ("len"%string, i64t)] in
      let! p0 := of_option (params func !! 0%nat) in
      let! p1 := of_option (params func !! 1%nat) in
      let! r := emit_body i32t i64t u8t (p_value_id p0) (p_value_id p1) dfa (mir_builder_init m func) in
      Ok (builder_sync r.1, b_func r.1)
  end.

(** [accepting_states] and the other counters; [ok] is that [func] is there. *)
Record MirRegexResult := mkRegexResult {
  r_func : option MirFunction; r_error : option (RxError * nat);
  nfa_states : nat; dfa_states : nat; accepting_states : nat
}.

Definition r_ok (r : MirRegexResult) : bool := match r_func r with Some _ => true | None => false end.

(** [fuel] bounds the states of the automaton. *)
Definition mir_regex_compile (fuel : nat) (m : MirModule) (func_name : string) (pattern : cstr)
  : outcome (MirModule * MirRegexResult) :=
  let! r := parse_pattern pattern no_error in
  match r.2 with
  | None => Ok (m, mkRegexResult None (error r.1) 0 0 0)
  | Some tree =>
      let nfa := build_nfa tree in
      let! dfa := nfa_to_dfa fuel nfa in
      let! e := emit_mir m func_name dfa in
      Ok (e.1, mkRegexResult (Some e.2) None (length (states nfa)) (length (dstates dfa))
                 (length (List.filter accepting (dstates dfa))))
  end.

Example compile_ab :
  match mir_regex_compile 64 (mir_module_create "m") "re" (lit "ab") with
  | Ok (m, r) => r_ok r = true /\ nfa_states r = 3%nat /\ dfa_states r = 3%nat /\ accepting_states r = 1%nat /\
      block_count (default (mkFunction "" 0 [] None [] [] 0 0 [] false false false) (r_func r)) = 11
  | _ => False
  end.
Proof. vm_compute. done. Qed.
