(* ===== verification/RegexCode.v ===== *)
(** * Weakest preconditions for the builder

    Specifications of the builder operations that say exactly what code they
    append: a [view] of a builder is the code of every block (opcodes with
    their results), the next value and the kind of every value.  A client
    fixes the kinds [KT] of all the values it will make. *)
From S2P Require Import Prelude MirCore MirBuilder MirBuilderFacts MirVerifyFacts MirVerify CString MirRegex RegexEmit.

(** An instruction without its type and source position. *)
Definition key (i : MirInst) : MirInstKind * MirValueId := (as_ i, result i).
Definition code_of (f : MirFunction) : list (list (MirInstKind * MirValueId)) := map (fun blk => map key (insts blk)) (blocks f).

(** [l] at the end of block [c]. *)
Definition app_at {A} (c : nat) (l : list A) (code : list (list A)) : list (list A) := alter (fun x => x ++ l) c code.

Lemma app_at_eq {A} c (l : list A) code : app_at c l code !! c = (fun x => x ++ l) <$> code !! c.
Proof. apply list_lookup_alter_eq. Qed.

Lemma app_at_ne {A} c d (l : list A) code : c <> d -> app_at c l code !! d = code !! d.
Proof. apply list_lookup_alter_ne. Qed.

Lemma app_at_app {A} c (l1 l2 : list A) code : app_at c l2 (app_at c l1 code) = app_at c (l1 ++ l2) code.
Proof.
  apply list_eq. intros d. destruct (decide (c = d)) as [<-|Hne]; [|by rewrite !app_at_ne].
  rewrite !app_at_eq. destruct (code !! c); cbn; [by rewrite app_assoc|done].
Qed.

Lemma length_app_at {A} c (l : list A) code : length (app_at c l code) = length code.
Proof. apply length_alter. Qed.

Definition kind_in (tc : list MirType) (t : tyref) (k : MirTypeKind) : Prop := ty_kind <$> ty_deref tc t = Some k.

Lemma kind_in_prefix tc tc' t k : tc `prefix_of` tc' -> kind_in tc t k -> kind_in tc' t k.
Proof.
  unfold kind_in, ty_deref. intros Hp H. destruct (t =? 0)%N; [done|]. apply fmap_Some in H as (ty & Ht & ->).
  by rewrite (prefix_lookup_Some _ _ _ _ Ht Hp).
Qed.

Lemma kind_not_null tc t k : kind_in tc t k -> t <> TY_NULL.
Proof. intros H ->. done. Qed.

(** Interning finds or appends a node the test accepts. *)
Lemma intern_kind tc hit t k : (forall u, hit u = true -> ty_kind u = k) -> ty_kind t = k ->
  tc `prefix_of` (type_intern tc hit t).1 /\ kind_in (type_intern tc hit t).1 (type_intern tc hit t).2 k.
Proof.
  intros Hh Ht. assert (Hd : forall tc i, ty_deref tc (ptr_at i) = tc !! i).
  { intros tc0 i. unfold ty_deref, ptr_at. destruct (N.eqb_spec (N.of_nat (S i)) 0); [lia|]. f_equal. lia. }
  unfold type_intern, type_cache_push, kind_in. destruct (find_idx hit tc) as [i|] eqn:E; cbn [fst snd]; rewrite Hd.
  - split; [done|]. apply find_idx_Some in E as (u & Hu & Hp & _). rewrite Hu. cbn. f_equal. by apply Hh.
  - split; [by eexists|]. rewrite list_lookup_middle by done. cbn. by f_equal.
Qed.

Lemma intern_prim tc k : is_compound k = false ->
  tc `prefix_of` (mir_intern_primitive tc k).1 /\ kind_in (mir_intern_primitive tc k).1 (mir_intern_primitive tc k).2 k.
Proof. intros Hk. apply intern_kind; [|done]. intros u Hu. apply andb_true_iff in Hu as [Hu _]. by apply bool_decide_eq_true in Hu. Qed.

Lemma intern_ptr tc p : tc `prefix_of` (mir_type_ptr tc p).1 /\ kind_in (mir_type_ptr tc p).1 (mir_type_ptr tc p).2 MIR_TYPE_PTR.
Proof. apply intern_kind; [|done]. by intros []. Qed.

(** ** Weakest preconditions *)

Definition wp {A} (m : MB A) (b : MirBuilder) (Q : MirBuilder -> A -> Prop) : Prop := exists b' a, m b = Ok (b', a) /\ Q b' a.

Lemma wp_ret {A} (a : A) b (Q : MirBuilder -> A -> Prop) : Q b a -> wp (mret a) b Q.
Proof. intros H. by exists b, a. Qed.

Lemma wp_bind {A B} (m : MB A) (k : A -> MB B) b Q : wp m b (fun b1 x => wp (k x) b1 Q) -> wp (m ≫= k) b Q.
Proof.
  intros (b1 & x & E & b2 & y & E2 & H). exists b2, y. split; [|done]. unfold mbind, MB_bind. by rewrite E.
Qed.

Lemma wp_mono {A} (m : MB A) b (Q Q' : MirBuilder -> A -> Prop) : wp m b Q -> (forall b' a, Q b' a -> Q' b' a) -> wp m b Q'.
Proof. intros (b' & a & E & H) HQ. exists b', a. auto. Qed.

(** What no operation changes: the signature, and the functions of the module. *)
Definition signature (b : MirBuilder) : string * list MirParam * bool * list MirFunction * Z :=
  (f_name (b_func b), params (b_func b), is_extern (b_func b), func_list (b_module b), func_count (b_module b)).

Lemma signature_func b f : f_name f = f_name (b_func b) -> params f = params (b_func b) -> is_extern f = is_extern (b_func b) ->
  signature (with_func b f) = signature b.
Proof. unfold signature. cbn. by intros -> -> ->. Qed.

Lemma append_signature f c i f' : append_at f c i = Ok f' -> f_name f' = f_name f /\ params f' = params f /\ is_extern f' = is_extern f.
Proof. by intros (c0 & blk & -> & Hc & ->)%append_at_inv. Qed.

Section view.
(** The kinds of the values, the bound on their number, the types made before. *)
Context (KT : MirValueId -> MirTypeKind) (nmax : N) (tc0 : list MirType) (sg : string * list MirParam * bool * list MirFunction * Z).
Hypothesis Hmax : Z.of_N nmax < 2 ^ 31.

Record view (c : blockptr) (code : list (list (MirInstKind * MirValueId))) (nxt : N) (b : MirBuilder) : Prop := {
  v_cur : current_block b = c;
  v_code : code_of (b_func b) = code;
  v_next : next_value_id (b_func b) = nxt;
  v_room : (0 < nxt)%N /\ (N.to_nat nxt <= length (value_types (b_func b)))%nat;
  v_sig : signature b = sg;
  v_tc : tc0 `prefix_of` type_cache (b_module b);
  v_kinds : forall v, (0 < v < nxt)%N -> kind_in (type_cache (b_module b)) (mir_function_value_type (b_func b) v) (KT v)
}.

Lemma wp_set_block c' c code nxt b (Q : MirBuilder -> unit -> Prop) : view c code nxt b ->
  (forall b', view c' code nxt b' -> Q b' tt) -> wp (mir_builder_set_block c') b Q.
Proof. intros [H1 H2 H3 H4 H7 H5 H6] HQ. eexists _, tt. split; [reflexivity|]. by apply HQ. Qed.

Lemma wp_mk_type g k c code nxt b (Q : MirBuilder -> tyref -> Prop) : view c code nxt b ->
  (forall tc, tc `prefix_of` (g tc).1 /\ kind_in (g tc).1 (g tc).2 k) ->
  (forall b' t, view c code nxt b' -> kind_in (type_cache (b_module b')) t k -> Q b' t) -> wp (mk_type g) b Q.
Proof.
  intros [H1 H2 H3 H4 H7 H5 H6] Hg HQ. destruct (Hg (type_cache (b_module b))) as [Hp Hk].
  eexists _, _. split; [reflexivity|]. apply HQ; [|done]. constructor; try done; cbn [b_module with_type_cache type_cache b_func].
  - by etransitivity.
  - intros v Hv. eapply kind_in_prefix; [done|]. by apply H6.
Qed.

Lemma wp_value_type v c code nxt b (Q : MirBuilder -> tyref -> Prop) : view c code nxt b -> (0 < v < nxt)%N ->
  (forall t, kind_in (type_cache (b_module b)) t (KT v) -> Q b t) -> wp (value_type v) b Q.
Proof. intros Hb Hv HQ. eexists b, _. split; [reflexivity|]. apply HQ. by apply (v_kinds _ _ _ _ Hb). Qed.

Lemma code_append f c i f' : append_at f (Some c) i = Ok f' -> code_of f' = app_at c [key i] (code_of f).
Proof.
  intros (c0 & blk & [= <-] & Hc & ->)%append_at_inv. unfold code_of, app_at, upd_block, with_blocks. cbn [blocks].
  apply list_eq. intros d. rewrite !list_lookup_fmap. destruct (decide (c = d)) as [<-|Hne].
  - unfold block_at in Hc. rewrite !list_lookup_alter_eq, list_lookup_fmap, Hc. cbn. by rewrite map_app.
  - by rewrite !list_lookup_alter_ne, list_lookup_fmap by done.
Qed.

Lemma append_total f c i : (c < length (blocks f))%nat -> exists f', append_at f (Some c) i = Ok f'.
Proof. intros Hc. apply block_at_lt in Hc as [blk Hb]. unfold append_at. cbn. rewrite Hb. by eexists. Qed.

Lemma code_of_length f : length (code_of f) = length (blocks f).
Proof. apply length_map. Qed.

Lemma wp_emit i c code nxt b (Q : MirBuilder -> MirValueId -> Prop) : view (Some c) code nxt b -> (c < length code)%nat ->
  (nxt < nmax)%N -> kind_in (type_cache (b_module b)) (type i) (KT nxt) -> KT nxt <> MIR_TYPE_VOID ->
  (forall b', view (Some c) (app_at c [(as_ i, nxt)] code) (nxt + 1) b' -> Q b' nxt) -> wp (emit i) b Q.
Proof.
  intros [H1 H2 H3 H4 H7 H5 H6] Hc Hn Hk Hnv HQ. unfold wp, emit.
  assert (Hr : has_result (type_cache (b_module b)) (type i) = true) by (unfold has_result; rewrite Hk; by destruct (KT nxt)).
  rewrite Hr. destruct (mir_function_new_value (b_func b) (type i)) as [f1 w] eqn:En.
  assert (Hw : w = nxt /\ next_value_id f1 = (nxt + 1)%N /\ blocks f1 = blocks (b_func b)) by (injection En as <- <-; cbn; by rewrite H3).
  destruct Hw as (-> & Hn1 & Hb1).
  destruct (append_total f1 c (set_result i nxt)) as [f' Ha]; [rewrite Hb1, <- code_of_length, H2; done|].
  rewrite H1, Ha. cbn [obind]. eexists _, _. split; [reflexivity|]. apply HQ.
  destruct (append_fields _ _ _ _ Ha) as (E1 & E2 & _).
  assert (Hs : small (mir_function_new_value (b_func b) (type i)).1) by (rewrite En; cbn [fst]; unfold small; rewrite Hn1; lia).
  rewrite <- H3 in H4. pose proof (new_value_room _ (type i) Hs H4) as Hr1. pose proof (new_value_types _ (type i) Hs H4) as Ht.
  rewrite En in Hr1, Ht. cbn [fst] in *. rewrite Hn1 in Hr1, Ht.
  constructor; cbn [with_func b_func b_module current_block]; rewrite ?E1, ?E2; try done.
  - rewrite (code_append _ _ _ _ Ha). unfold code_of. by rewrite Hb1, <- H2.
  - destruct (append_signature _ _ _ _ Ha) as (F1 & F2 & F3). rewrite signature_func; [done| | |];
      rewrite ?F1, ?F2, ?F3; by injection En as <-.
  - intros v Hv. rewrite (value_type_eq f1), Ht by done. rewrite H3. destruct (N.eqb_spec v nxt) as [->|Hne]; [done|]. apply H6. lia.
Qed.

Lemma wp_emit_void i c code nxt b (Q : MirBuilder -> unit -> Prop) : view (Some c) code nxt b -> (c < length code)%nat ->
  (forall b', view (Some c) (app_at c [(as_ i, MIR_VALUE_NONE)] code) nxt b' -> Q b' tt) -> wp (emit_void i) b Q.
Proof.
  intros [H1 H2 H3 H4 H7 H5 H6] Hc HQ. unfold wp, emit_void.
  destruct (append_total (b_func b) c (set_result i MIR_VALUE_NONE)) as [f' Ha]; [rewrite <- code_of_length, H2; done|].
  rewrite H1, Ha. cbn [obind]. eexists _, _. split; [reflexivity|]. apply HQ.
  destruct (append_fields _ _ _ _ Ha) as (E1 & E2 & _).
  constructor; cbn [with_func b_func b_module current_block]; rewrite ?E1, ?E2; try done.
  - by rewrite (code_append _ _ _ _ Ha), H2.
  - destruct (append_signature _ _ _ _ Ha) as (F1 & F2 & F3). by rewrite signature_func.
  - intros v Hv. rewrite (value_type_eq (b_func b)) by done. by apply H6.
Qed.

Lemma wp_link_cfg t c code nxt b (Q : MirBuilder -> unit -> Prop) : view (Some c) code nxt b -> (c < length code)%nat -> (t < length code)%nat ->
  (forall b', view (Some c) code nxt b' -> Q b' tt) -> wp (link_cfg (Some t)) b Q.
Proof.
  intros [H1 H2 H3 H4 H7 H5 H6] Hc Ht HQ. unfold wp, link_cfg. rewrite H1.
  assert (Ha : exists f', add_edge (b_func b) (Some c) (Some t) = Ok f').
  { rewrite <- H2, code_of_length in Hc, Ht. apply block_at_lt in Hc as [bc Hc], Ht as [bt Ht].
    unfold add_edge. cbn. rewrite Hc, Ht. by eexists. }
  destruct Ha as [f' Ha]. rewrite Ha. cbn [obind]. eexists _, _. split; [reflexivity|]. apply HQ.
  destruct (add_edge_at _ _ _ _ Ha) as (_ & _ & Hf & Hlen & Hat).
  assert (Hsame : next_value_id f' = next_value_id (b_func b) /\ value_types f' = value_types (b_func b)) by (by rewrite Hf).
  destruct Hsame as [En Ev]. constructor; cbn [with_func b_func b_module current_block]; rewrite ?En, ?Ev; try done.
  3: { intros v Hv. rewrite (value_type_eq (b_func b)) by done. by apply H6. }
  2: { rewrite signature_func; [done| | |]; by rewrite Hf. }
  rewrite <- H2. unfold code_of. apply list_eq. intros d. rewrite !list_lookup_fmap.
  destruct (blocks f' !! d) as [blk1|] eqn:E; cbn.
  - destruct (Hat d blk1 E) as (blk2 & E2 & Ej & _). unfold block_at in E2. rewrite E2. cbn. by rewrite Ej.
  - apply lookup_ge_None in E. rewrite Hlen in E. by rewrite (proj2 (lookup_ge_None _ _) E).
Qed.

Lemma wp_add_block lbl c code nxt b (Q : MirBuilder -> nat -> Prop) : view c code nxt b ->
  (forall b', view c (code ++ [[]]) nxt b' -> Q b' (length code)) -> wp (add_block lbl) b Q.
Proof.
  intros [H1 H2 H3 H4 H7 H5 H6] HQ. eexists _, _. split; [reflexivity|]. rewrite <- H2, code_of_length in *. apply HQ.
  constructor; try done. cbn [with_func b_func]. unfold code_of. cbn [mir_function_add_block fst blocks with_cfg]. by rewrite map_app.
Qed.

Lemma wp_lift {A} (o : option A) x b (Q : MirBuilder -> A -> Prop) : o = Some x -> Q b x -> wp (fun b => let! x := of_option o in Ok (b, x)) b Q.
Proof. intros -> HQ. by exists b, x. Qed.

(** *** The operations *)

Lemma wp_const_int v ty c code nxt b Q : view (Some c) code nxt b -> (c < length code)%nat -> (nxt < nmax)%N ->
  kind_in tc0 ty (KT nxt) -> KT nxt <> MIR_TYPE_VOID ->
  (forall b', view (Some c) (app_at c [(CONST_INT v, nxt)] code) (nxt + 1) b' -> Q b' nxt) -> wp (mir_build_const_int v ty) b Q.
Proof. intros Hb Hc Hn Hk Hv HQ. eapply wp_emit; eauto. eapply kind_in_prefix; [apply (v_tc _ _ _ _ Hb)|done]. Qed.

Lemma wp_load p ty c code nxt b Q : view (Some c) code nxt b -> (c < length code)%nat -> (nxt < nmax)%N ->
  kind_in tc0 ty (KT nxt) -> KT nxt <> MIR_TYPE_VOID ->
  (forall b', view (Some c) (app_at c [(LOAD p, nxt)] code) (nxt + 1) b' -> Q b' nxt) -> wp (mir_build_load p ty) b Q.
Proof. intros Hb Hc Hn Hk Hv HQ. eapply wp_emit; eauto. eapply kind_in_prefix; [apply (v_tc _ _ _ _ Hb)|done]. Qed.

Lemma wp_convert op v ty c code nxt b Q : view (Some c) code nxt b -> (c < length code)%nat -> (nxt < nmax)%N ->
  kind_in tc0 ty (KT nxt) -> KT nxt <> MIR_TYPE_VOID ->
  (forall b', view (Some c) (app_at c [(UNARY op v ty, nxt)] code) (nxt + 1) b' -> Q b' nxt) -> wp (build_convert op v ty) b Q.
Proof. intros Hb Hc Hn Hk Hv HQ. eapply wp_emit; eauto. eapply kind_in_prefix; [apply (v_tc _ _ _ _ Hb)|done]. Qed.

Lemma wp_cmp op l r c code nxt b Q : view (Some c) code nxt b -> (c < length code)%nat -> (nxt < nmax)%N -> KT nxt = MIR_TYPE_BOOL ->
  (forall b', view (Some c) (app_at c [(BINARY op l r, nxt)] code) (nxt + 1) b' -> Q b' nxt) -> wp (build_cmp op l r) b Q.
Proof.
  intros Hb Hc Hn Hk HQ. apply wp_bind. eapply wp_mk_type; [done|intros tc; by apply (intern_prim tc MIR_TYPE_BOOL)|].
  intros b1 t Hb1 Ht. eapply wp_emit; eauto; by rewrite Hk.
Qed.

Lemma wp_binary op l r c code nxt b Q : view (Some c) code nxt b -> (c < length code)%nat -> (nxt < nmax)%N -> (0 < l < nxt)%N ->
  KT nxt = KT l -> KT l <> MIR_TYPE_VOID ->
  (forall b', view (Some c) (app_at c [(BINARY op l r, nxt)] code) (nxt + 1) b' -> Q b' nxt) -> wp (build_binary op l r) b Q.
Proof.
  intros Hb Hc Hn Hl Hk Hv HQ. apply wp_bind. eapply wp_value_type; [done..|]. intros t Ht.
  eapply wp_emit; eauto; by rewrite Hk.
Qed.

Lemma wp_elem_ptr p i c code nxt b Q : view (Some c) code nxt b -> (c < length code)%nat -> (nxt < nmax)%N -> (0 < p < nxt)%N ->
  KT nxt = KT p -> KT p <> MIR_TYPE_VOID ->
  (forall b', view (Some c) (app_at c [(GEP MIR_GET_ELEM_PTR p (-1) i, nxt)] code) (nxt + 1) b' -> Q b' nxt) -> wp (mir_build_get_elem_ptr p i) b Q.
Proof.
  intros Hb Hc Hn Hl Hk Hv HQ. apply wp_bind. eapply wp_value_type; [done..|]. intros t Ht.
  eapply wp_emit; eauto; by rewrite Hk.
Qed.

Lemma wp_alloca ty c code nxt b Q : view (Some c) code nxt b -> (c < length code)%nat -> (nxt < nmax)%N -> KT nxt = MIR_TYPE_PTR ->
  (forall b', view (Some c) (app_at c [(ALLOCA ty 1, nxt)] code) (nxt + 1) b' -> Q b' nxt) -> wp (mir_build_alloca ty) b Q.
Proof.
  intros Hb Hc Hn Hk HQ. apply wp_bind. eapply wp_mk_type; [done|intros tc; apply intern_ptr|].
  intros b1 t Hb1 Ht. eapply wp_emit; eauto; by rewrite Hk.
Qed.

(** An instruction without a result, its type the interned [void]. *)
Lemma wp_void (k : MirInstKind) c code nxt b (m : MB unit) (Q : MirBuilder -> unit -> Prop) : view (Some c) code nxt b -> (c < length code)%nat ->
  (forall b', view (Some c) (app_at c [(k, MIR_VALUE_NONE)] code) nxt b' -> wp m b' Q) ->
  wp (t ← mk_type mir_type_void; _ ← emit_void (alloc_inst k t); m) b Q.
Proof.
  intros Hb Hc HQ. apply wp_bind. eapply wp_mk_type; [done|intros tc; by apply (intern_prim tc MIR_TYPE_VOID)|].
  intros b1 t Hb1 _. apply wp_bind. by eapply wp_emit_void.
Qed.

Lemma wp_void_last (k : MirInstKind) c code nxt b (Q : MirBuilder -> unit -> Prop) : view (Some c) code nxt b -> (c < length code)%nat ->
  (forall b', view (Some c) (app_at c [(k, MIR_VALUE_NONE)] code) nxt b' -> Q b' tt) ->
  wp (t ← mk_type mir_type_void; emit_void (alloc_inst k t)) b Q.
Proof.
  intros Hb Hc HQ. apply wp_bind. eapply wp_mk_type; [done|intros tc; by apply (intern_prim tc MIR_TYPE_VOID)|].
  intros b1 t Hb1 _. by eapply wp_emit_void.
Qed.

Lemma wp_br t c code nxt b Q : view (Some c) code nxt b -> (c < length code)%nat -> (t < length code)%nat ->
  (forall b', view (Some c) (app_at c [(BR (Some t), MIR_VALUE_NONE)] code) nxt b' -> Q b' tt) -> wp (mir_build_br (Some t)) b Q.
Proof. intros Hb Hc Ht HQ. eapply wp_void; [done..|]. intros b1 Hb1. eapply wp_link_cfg; [exact Hb1|by rewrite length_app_at..|done]. Qed.

Lemma wp_condbr v t1 t2 c code nxt b Q : view (Some c) code nxt b -> (c < length code)%nat -> (t1 < length code)%nat -> (t2 < length code)%nat ->
  (forall b', view (Some c) (app_at c [(CONDBR v (Some t1) (Some t2), MIR_VALUE_NONE)] code) nxt b' -> Q b' tt) ->
  wp (mir_build_condbr v (Some t1) (Some t2)) b Q.
Proof.
  intros Hb Hc Ht1 Ht2 HQ. eapply wp_void; [done..|]. intros b1 Hb1. apply wp_bind.
  eapply wp_link_cfg; [exact Hb1|by rewrite length_app_at..|]. intros b2 Hb2. eapply wp_link_cfg; [exact Hb2|by rewrite length_app_at..|done].
Qed.
End view.

(** ** The code of an emitted matcher

    [emit_body] of RegexEmit.v always succeeds on a well-formed automaton, and
    the code of every block it makes, with its value numbers, is the one
    written here. *)

(** ** Numbering *)

Definition head_of (s : nat) : nat := 2 + 3 * s.
Definition body_of (s : nat) : nat := 3 + 3 * s.
Definition end_of (s : nat) : nat := 4 + 3 * s.

(** The value [k] of the state [s]: nine values per state behind the first five. *)
Definition val_of (s : nat) (k : N) : MirValueId := (6 + 9 * N.of_nat s + k)%N.

Definition state_kind (k : N) : MirTypeKind :=
  match k with
  | 1 => MIR_TYPE_BOOL | 3 => MIR_TYPE_PTR | 4 => MIR_TYPE_U8 | 8 => MIR_TYPE_I32 | _ => MIR_TYPE_I64
  end%N.

(** Values 1 and 2 are the parameters, 3 the slot of the position. *)
Definition KT (v : MirValueId) : MirTypeKind :=
  match v with
  | 1 | 3 => MIR_TYPE_PTR | 2 | 4 => MIR_TYPE_I64 | 5 => MIR_TYPE_I32
  | _ => state_kind ((v - 6) mod 9)
  end%N.

Lemma KT_state v : (6 <= v)%N -> KT v = state_kind ((v - 6) mod 9).
Proof. destruct v as [|[[[p|p|]|[p|p|]|]|[[p|p|]|[p|p|]|]|]]; intros H; (reflexivity || lia). Qed.

Lemma KT_at s k v : v = val_of s k -> (k < 9)%N -> KT v = state_kind k.
Proof.
  unfold val_of. intros -> Hk. rewrite KT_state by lia. f_equal.
  replace (6 + 9 * N.of_nat s + k - 6)%N with (k + N.of_nat s * 9)%N by lia. rewrite N.Div0.mod_add. by apply N.mod_small.
Qed.

(** ** The code *)

Fixpoint cases_from (bv : Z) (l : list (option nat)) : list (Z * blockptr) :=
  match l with
  | [] => []
  | None :: l => cases_from (bv + 1) l
  | Some t :: l => (bv, Some (head_of t)) :: cases_from (bv + 1) l
  end.

Abbreviation code := (list (MirInstKind * MirValueId)) (only parsing).

Section code.
Context (i64t : tyref).

Definition entry_code : code := [(ALLOCA i64t 1, 3%N); (CONST_INT 0, 4%N); (STORE 3 4, 0%N); (BR (Some (head_of 0)), 0%N)].
Definition reject_code : code := [(CONST_INT 0, 5%N); (RET 5, 0%N)].
Definition head_code (s : nat) : code :=
  [(LOAD 3, val_of s 0); (BINARY MIR_CMP_GE (val_of s 0) 2, val_of s 1);
   (CONDBR (val_of s 1) (Some (end_of s)) (Some (body_of s)), 0%N)].
Definition dispatch (s : nat) (st : DfaState) : MirInstKind :=
  match cases_from 0 (trans st) with [] => BR (Some 1%nat) | cases => SWITCH (val_of s 5) cases (Some 1%nat) end.
Definition body_code (s : nat) (st : DfaState) : code :=
  [(LOAD 3, val_of s 2); (GEP MIR_GET_ELEM_PTR 1 (-1) (val_of s 2), val_of s 3); (LOAD (val_of s 3), val_of s 4);
   (UNARY MIR_ZEXT (val_of s 4) i64t, val_of s 5); (CONST_INT 1, val_of s 6);
   (BINARY MIR_ADD (val_of s 2) (val_of s 6), val_of s 7); (STORE 3 (val_of s 7), 0%N); (dispatch s st, 0%N)].
Definition end_code (s : nat) (st : DfaState) : code := [(CONST_INT (b2z (accepting st)), val_of s 8); (RET (val_of s 8), 0%N)].

Record emitted (sts : list DfaState) (cs : list code) : Prop := {
  em_length : length cs = head_of (length sts);
  em_entry : cs !! 0%nat = Some entry_code;
  em_reject : cs !! 1%nat = Some reject_code;
  em_head : forall s st, sts !! s = Some st -> cs !! head_of s = Some (head_code s);
  em_body : forall s st, sts !! s = Some st -> cs !! body_of s = Some (body_code s st);
  em_end : forall s st, sts !! s = Some st -> cs !! end_of s = Some (end_code s st)
}.
End code.

(** ** The transitions of a state *)

Definition targets_in (n : nat) (st : DfaState) : Prop :=
  ntrans st = Z.of_nat (length (omap (fun o : option nat => o) (trans st))) /\
  forall t, Some t ∈ trans st -> (t < n)%nat.

Definition state_bbs (n s : nat) : list (nat * nat * nat) := map (fun s => (head_of s, body_of s, end_of s)) (seq s n).
Definition head_list (n : nat) : list nat := map (fun x => x.1.1) (state_bbs n 0).

Lemma head_list_at n t : (t < n)%nat -> head_list n !! t = Some (head_of t).
Proof. intros Ht. unfold head_list, state_bbs. rewrite !list_lookup_fmap, lookup_seq_lt by done. done. Qed.

Lemma collect_cases_from_spec n l bv : (forall t, Some t ∈ l -> (t < n)%nat) -> collect_cases_from (head_list n) bv l = Some (cases_from bv l).
Proof.
  revert bv. induction l as [|[t|] l IH]; intros bv Hl; [done| |]; cbn [collect_cases_from cases_from].
  - rewrite head_list_at by (apply Hl; by left). cbn. rewrite IH by (intros t' Ht'; apply Hl; by right). done.
  - apply IH. intros t' Ht'. apply Hl. by right.
Qed.

Lemma cases_from_length l bv : length (cases_from bv l) = length (omap (fun o : option nat => o) l).
Proof. revert bv. induction l as [|[t|] l IH]; intros bv; cbn; [done|by rewrite IH|by rewrite IH]. Qed.

Lemma state_cases_spec n st : targets_in n st -> state_cases (head_list n) st = Some (cases_from 0 (trans st)).
Proof.
  intros [Hn Ht]. unfold state_cases. rewrite (collect_cases_from_spec n) by done. cbn. by rewrite cases_from_length, Hn, Z.eqb_refl.
Qed.

Lemma cases_from_targets l bv c t : (c, t) ∈ cases_from bv l -> exists j, t = Some (head_of j) /\ Some j ∈ l.
Proof.
  revert bv. induction l as [|[j|] l IH]; intros bv; cbn [cases_from].
  - intros H. by apply elem_of_nil in H.
  - intros [[= -> ->]|H]%elem_of_cons; [exists j; split; [done|by left]|]. destruct (IH _ H) as (j' & -> & ?). exists j'. split; [done|by right].
  - intros H. destruct (IH _ H) as (j' & -> & ?). exists j'. split; [done|by right].
Qed.

(** ** The emission *)

Section emission.
Context (nmax : N) (tc0 : list MirType) (sg : string * list MirParam * bool * list MirFunction * Z) (i32t i64t u8t : tyref).
Hypothesis Hmax : Z.of_N nmax < 2 ^ 31.
Hypothesis Hi32 : kind_in tc0 i32t MIR_TYPE_I32.
Hypothesis Hi64 : kind_in tc0 i64t MIR_TYPE_I64.
Hypothesis Hu8 : kind_in tc0 u8t MIR_TYPE_U8.

Abbreviation view := (view KT tc0 sg).

(** A code list with one block after the other extended. *)
Lemma wp_link_all ts c cs nxt b (Q : MirBuilder -> unit -> Prop) : view (Some c) cs nxt b -> (c < length cs)%nat ->
  (forall t, t ∈ ts -> exists d, t = Some d /\ (d < length cs)%nat) ->
  (forall b', view (Some c) cs nxt b' -> Q b' tt) -> wp (link_all ts) b Q.
Proof.
  revert b. induction ts as [|t ts IH]; intros b Hb Hc Ht HQ; cbn [link_all]; [by apply wp_ret, HQ|].
  destruct (Ht t ltac:(by left)) as (d & -> & Hd). apply wp_bind. eapply wp_link_cfg; [exact Hb|done|done|].
  intros b1 Hb1. apply (IH b1); [done|done|intros t' Ht'; apply Ht; by right|done].
Qed.

Lemma wp_emit_switch disc cases d c cs nxt b (Q : MirBuilder -> unit -> Prop) : view (Some c) cs nxt b -> (c < length cs)%nat ->
  (forall t, t ∈ cases.*2 -> exists e, t = Some e /\ (e < length cs)%nat) -> (d < length cs)%nat ->
  (forall b', view (Some c) (app_at c [(SWITCH disc cases (Some d), 0%N)] cs) nxt b' -> Q b' tt) ->
  wp (emit_switch disc cases (Some d)) b Q.
Proof.
  intros Hb Hc Ht Hd HQ. eapply wp_void; [exact Hb|done|]. intros b1 Hb1.
  eapply wp_link_all; [exact Hb1|by rewrite length_app_at| |done].
  intros t [Hin|Hin%list_elem_of_singleton]%elem_of_app; rewrite length_app_at; [by apply Ht|by exists d].
Qed.

Lemma wp_add_state_blocks n s c cs nxt b (Q : MirBuilder -> list (nat * nat * nat) -> Prop) : view c cs nxt b -> length cs = head_of s ->
  (forall b', view c (cs ++ replicate (3 * n) []) nxt b' -> Q b' (state_bbs n s)) -> wp (add_state_blocks n s) b Q.
Proof.
  revert s cs b Q. induction n as [|n IH]; intros s cs b Q Hb Hl HQ; cbn [add_state_blocks].
  { apply wp_ret, HQ. by rewrite app_nil_r. }
  apply wp_bind. eapply wp_add_block; [exact Hb|]. intros b1 Hb1.
  apply wp_bind. eapply wp_add_block; [exact Hb1|]. intros b2 Hb2.
  apply wp_bind. eapply wp_add_block; [exact Hb2|]. intros b3 Hb3.
  apply wp_bind. eapply (IH (S s)); [exact Hb3|rewrite !length_app; cbn; unfold head_of in *; lia|].
  intros b4 Hb4. apply wp_ret. replace (_ :: state_bbs n (S s)) with (state_bbs (S n) s).
  - apply HQ. replace (3 * S n)%nat with (3 + 3 * n)%nat by lia. rewrite replicate_add. rewrite <- !app_assoc in Hb4. exact Hb4.
  - unfold state_bbs. cbn [seq map]. rewrite !length_app. cbn [length]. f_equal. unfold head_of, body_of, end_of in *. f_equal; [f_equal|]; lia.
Qed.

(** [nxt + 1], as the next value of the state. *)
Lemma val_next s k k' : k' = (k + 1)%N -> (val_of s k + 1)%N = val_of s k'.
Proof. unfold val_of. lia. Qed.

(** The side conditions: a block of the code, a number below the bound, the
    kind of the value [k] of the state. *)
Ltac in_code := rewrite ?length_app_at; unfold head_of, body_of, end_of in *; lia.
Ltac kind_of k := rewrite (KT_at _ k) by reflexivity; done.
Ltac next_view b Hb := clear b Hb; intros b Hb.
(** One emission, of the value [k] of the state. *)
Ltac emit_op L k b Hb Hmax Hlim :=
  apply wp_bind; eapply L;
    [exact Hmax|exact Hb|in_code|by apply Hlim|first [kind_of k|unfold val_of; lia]|first [kind_of k|done|solve [repeat (erewrite KT_at by reflexivity); done]|idtac]..];
  next_view b Hb; let k' := eval compute in (k + 1)%N in rewrite (val_next _ k k') in Hb by reflexivity.

Lemma wp_dispatch n s st c cs nxt b (Q : MirBuilder -> unit -> Prop) : view (Some c) cs nxt b -> (c < length cs)%nat ->
  targets_in n st -> length cs = head_of n ->
  (forall b', view (Some c) (app_at c [(dispatch s st, 0%N)] cs) nxt b' -> Q b' tt) ->
  wp (match cases_from 0 (trans st) with [] => mir_build_br (Some 1%nat) | _ => emit_switch (val_of s 5) (cases_from 0 (trans st)) (Some 1%nat) end) b Q.
Proof.
  intros Hb Hc [_ Ht] Hlen HQ. unfold dispatch in HQ. destruct (cases_from 0 (trans st)) as [|x l] eqn:E.
  - eapply wp_br; [exact Hb|done|unfold head_of in *; lia|done].
  - eapply wp_emit_switch; [exact Hb|done| |unfold head_of in *; lia|done]. rewrite <- E.
    intros t [[c1 t1] [-> Hin]]%list_elem_of_fmap. destruct (cases_from_targets _ _ _ _ Hin) as (j & -> & Hj).
    exists (head_of j). split; [done|]. specialize (Ht j Hj). unfold head_of in *. lia.
Qed.

Lemma wp_emit_state n s st cs c0 b (Q : MirBuilder -> unit -> Prop) : view c0 cs (val_of s 0) b ->
  targets_in n st -> (s < n)%nat -> length cs = head_of n -> (val_of s 9 <= nmax)%N ->
  (forall c b', view c (app_at (end_of s) (end_code s st) (app_at (body_of s) (body_code i64t s st) (app_at (head_of s) (head_code s) cs)))
     (val_of s 9) b' -> Q b' tt) ->
  wp (emit_state i32t i64t u8t 1 2 3 1 (head_list n) (head_of s, body_of s, end_of s) st) b Q.
Proof.
  intros Hb Ht Hs Hlen Hn HQ. assert (Hlim : forall k, (k < 9)%N -> (val_of s k < nmax)%N) by (unfold val_of in *; lia).
  unfold emit_state. apply wp_bind. eapply wp_set_block; [exact Hb|]. next_view b Hb.
  emit_op wp_load 0%N b Hb Hmax Hlim. emit_op wp_cmp 1%N b Hb Hmax Hlim.
  apply wp_bind. eapply wp_condbr; [exact Hb|in_code..|]. next_view b Hb.
  apply wp_bind. eapply wp_set_block; [exact Hb|]. next_view b Hb.
  emit_op wp_load 2%N b Hb Hmax Hlim. emit_op wp_elem_ptr 3%N b Hb Hmax Hlim. emit_op wp_load 4%N b Hb Hmax Hlim.
  emit_op wp_convert 5%N b Hb Hmax Hlim. emit_op wp_const_int 6%N b Hb Hmax Hlim. emit_op wp_binary 7%N b Hb Hmax Hlim.
  apply wp_bind. eapply wp_void_last; [exact Hb|in_code|]. next_view b Hb.
  apply wp_bind. eapply wp_lift; [by apply state_cases_spec|].
  apply wp_bind. eapply wp_dispatch; [exact Hb|in_code|done|by rewrite !length_app_at|]. next_view b Hb.
  apply wp_bind. eapply wp_set_block; [exact Hb|]. next_view b Hb.
  emit_op wp_const_int 8%N b Hb Hmax Hlim. eapply wp_void_last; [exact Hb|in_code|]. next_view b Hb.
  apply (HQ (Some (end_of s))). rewrite !app_at_app in Hb. exact Hb.
Qed.
(** What the loop over the states from [s0] on adds to empty blocks. *)
Record states_emitted (s0 : nat) (sts : list DfaState) (cs cs' : list code) : Prop := {
  se_length : length cs' = length cs;
  se_below : forall d, (d < head_of s0)%nat -> cs' !! d = cs !! d;
  se_states : forall i st, sts !! i = Some st -> let s := (s0 + i)%nat in
    cs' !! head_of s = Some (head_code s) /\ cs' !! body_of s = Some (body_code i64t s st) /\ cs' !! end_of s = Some (end_code s st)
}.

Definition state_added (s : nat) (st : DfaState) (cs : list code) : list code :=
  app_at (end_of s) (end_code s st) (app_at (body_of s) (body_code i64t s st) (app_at (head_of s) (head_code s) cs)).

Lemma state_added_other s st cs d : d <> head_of s -> d <> body_of s -> d <> end_of s -> state_added s st cs !! d = cs !! d.
Proof. intros H1 H2 H3. unfold state_added. by rewrite !app_at_ne. Qed.

Lemma state_added_at s st cs : (forall d, (head_of s <= d < head_of (S s))%nat -> cs !! d = Some []) ->
  state_added s st cs !! head_of s = Some (head_code s) /\ state_added s st cs !! body_of s = Some (body_code i64t s st) /\
  state_added s st cs !! end_of s = Some (end_code s st).
Proof.
  intros He. unfold state_added. assert (Hne : head_of s <> body_of s /\ head_of s <> end_of s /\ body_of s <> end_of s) by (unfold head_of, body_of, end_of; lia).
  destruct Hne as (N1 & N2 & N3). split_and!.
  - rewrite !app_at_ne, app_at_eq, He by (done || (unfold head_of; lia)). done.
  - rewrite app_at_ne, app_at_eq, app_at_ne, He by (done || (unfold head_of, body_of; lia)). done.
  - rewrite app_at_eq, !app_at_ne, He by (done || (unfold head_of, end_of; lia)). done.
Qed.

Lemma wp_emit_states n sts : forall s0 c0 cs b (Q : MirBuilder -> unit -> Prop), view c0 cs (val_of s0 0) b ->
  Forall (targets_in n) sts -> (s0 + length sts = n)%nat -> length cs = head_of n -> (val_of n 0 <= nmax)%N ->
  (forall d, (head_of s0 <= d < head_of n)%nat -> cs !! d = Some []) ->
  (forall c cs' b', view c cs' (val_of n 0) b' -> states_emitted s0 sts cs cs' -> Q b' tt) ->
  wp (emit_states (emit_state i32t i64t u8t 1 2 3 1 (head_list n)) (state_bbs (length sts) s0) sts) b Q.
Proof.
  induction sts as [|st sts IH]; intros s0 c0 cs b Q Hb Ht Hlen Hcs Hn He HQ.
  - apply wp_ret. cbn in Hlen. rewrite Nat.add_0_r in Hlen. subst n. by apply (HQ c0 cs).
  - apply Forall_cons_1 in Ht as [Ht Hts]. cbn [length] in Hlen. cbn [length state_bbs seq map emit_states].
    apply wp_bind. eapply wp_emit_state; [exact Hb|done|lia|done|unfold val_of in *; lia|]. clear b Hb. intros c1 b Hb.
    fold (state_added s0 st cs) in Hb. replace (val_of s0 9) with (val_of (S s0) 0) in Hb by (unfold val_of; lia).
    eapply (IH (S s0)); [exact Hb|done|lia|unfold state_added; by rewrite !length_app_at|done| |].
    { intros d Hd. rewrite state_added_other by (unfold head_of, body_of, end_of in *; lia). apply He. unfold head_of in *. lia. }
    intros c2 cs' b' Hb' [L B S]. apply (HQ c2 cs'); [done|]. unfold state_added in L. rewrite !length_app_at in L. constructor; [done| |].
    + intros d Hd. rewrite B by (unfold head_of in *; lia). apply state_added_other; unfold head_of, body_of, end_of in *; lia.
    + intros [|i] st' Hi.
      * injection Hi as <-. cbv zeta. rewrite Nat.add_0_r, !B by (unfold head_of, body_of, end_of; lia).
        apply state_added_at. intros d Hd. apply He. unfold head_of in *. lia.
      * specialize (S i st' Hi). cbv zeta in *. by rewrite Nat.add_succ_r.
Qed.

Lemma wp_emit_body dfa b (Q : MirBuilder -> unit -> Prop) : view None [] 3 b ->
  Forall (targets_in (length (dstates dfa))) (dstates dfa) -> dstates dfa <> [] -> (val_of (length (dstates dfa)) 0 <= nmax)%N ->
  (forall c cs b', view c cs (val_of (length (dstates dfa)) 0) b' -> emitted i64t (dstates dfa) cs -> Q b' tt) ->
  wp (emit_body i32t i64t u8t 1 2 dfa) b Q.
Proof.
  intros Hb Ht Hne Hn HQ. set (n := length (dstates dfa)) in *. assert (Hpos : (0 < n)%nat) by (subst n; destruct (dstates dfa); cbn; [done|lia]).
  unfold emit_body. fold n. unfold val_of in Hn.
  apply wp_bind. eapply wp_add_block; [exact Hb|]. next_view b Hb.
  apply wp_bind. eapply wp_add_block; [exact Hb|]. next_view b Hb.
  apply wp_bind. eapply (wp_add_state_blocks n 0); [exact Hb|done|]. next_view b Hb.
  cbn [app length] in *. fold (head_list n). set (cs0 := replicate (3 * n) []) in *.
  assert (Hl0 : length cs0 = (3 * n)%nat) by apply length_replicate.
  apply wp_bind. eapply wp_set_block; [exact Hb|]. next_view b Hb.
  apply wp_bind. eapply wp_alloca; [exact Hmax|exact Hb|cbn; lia|lia|done|]. next_view b Hb.
  apply wp_bind. eapply wp_const_int; [exact Hmax|exact Hb|rewrite length_app_at; cbn; lia|lia|done|done|]. next_view b Hb.
  apply wp_bind. eapply wp_void_last; [exact Hb|rewrite !length_app_at; cbn; lia|]. next_view b Hb.
  apply wp_bind. eapply wp_lift; [by apply head_list_at|].
  apply wp_bind. eapply wp_br; [exact Hb|rewrite !length_app_at; cbn; lia|rewrite !length_app_at; cbn [length]; unfold head_of; lia|]. next_view b Hb.
  apply wp_bind. eapply wp_set_block; [exact Hb|]. next_view b Hb.
  apply wp_bind. eapply wp_const_int; [exact Hmax|exact Hb|rewrite !length_app_at; cbn; lia|lia|done|done|]. next_view b Hb.
  apply wp_bind. eapply wp_void_last; [exact Hb|rewrite !length_app_at; cbn; lia|]. next_view b Hb.
  rewrite !app_at_app in Hb. cbn [app] in Hb.
  set (cs1 := app_at 1 _ _) in Hb. assert (Hcs1 : cs1 = entry_code i64t :: reject_code :: cs0) by done.
  eapply (wp_emit_states n (dstates dfa) 0); [exact Hb|done|done|rewrite Hcs1; cbn [length]; unfold head_of; lia|done| |].
  - intros d Hd. rewrite Hcs1. destruct d as [|[|d]]; [unfold head_of in Hd; lia..|]. cbn. apply lookup_replicate. split; [done|]. unfold head_of in Hd. lia.
  - intros c cs' b' Hb' [L B S]. apply (HQ c cs'); [done|]. constructor.
    + rewrite L, Hcs1. cbn [length]. unfold head_of. fold n. lia.
    + rewrite B by (unfold head_of; lia). by rewrite Hcs1.
    + rewrite B by (unfold head_of; lia). by rewrite Hcs1.
    + intros s st Hs. apply (S s st Hs).
    + intros s st Hs. apply (S s st Hs).
    + intros s st Hs. apply (S s st Hs).
Qed.
End emission.

(** ** The invariant of the builder *)

Lemma link_all_built ts : forall b b' u us, link_all ts b = Ok (b', u) -> built (omap (fun o : blockptr => o) ts) b -> has_targets us b ->
  omap (fun o : blockptr => o) ts ⊆ us -> built [] b'.
Proof.
  induction ts as [|t ts IH]; intros b b' u us H Hb Ht Hs; cbn [link_all] in H; [by injection H as <- _|].
  apply bind_inv in H as (b1 & u1 & H1 & H2). assert (E : omap (fun o : blockptr => o) (t :: ts) = opt_list t ++ omap (fun o => o) ts) by (by destruct t).
  rewrite E in Hb, Hs. destruct (link_built t _ us b b1 u1 H1 Hb Ht) as [Hb1 Ht1]; [set_solver|].
  eapply IH; [exact H2|exact Hb1|exact Ht1|set_solver].
Qed.

Lemma omap_targets (cases : list (Z * blockptr)) : omap (fun o : blockptr => o) cases.*2 = omap snd cases.
Proof. induction cases as [|[x [y|]] cs IH]; [done|cbn in *; by rewrite IH|cbn in *; by rewrite IH]. Qed.

Lemma keeps_emit_switch disc cases d : keeps (emit_switch disc cases d).
Proof.
  intros b b' u (b1 & ty & H1 & H2)%bind_inv Hb. apply (keeps_mk_type _ _ _ _ H1) in Hb.
  apply bind_inv in H2 as (b2 & u2 & H2 & H3). pose proof (emit_void_built _ _ _ _ H2 Hb) as (Hb2 & Hc2 & c & blk & Hc & Hat & Hts).
  cbn [as_ alloc_inst targets] in *.
  assert (E : omap (fun o : blockptr => o) (cases.*2 ++ [d]) = omap snd cases ++ opt_list d).
  { rewrite omap_app, omap_targets. by destruct d. }
  eapply (link_all_built _ b2 b' u _ H3); rewrite ?E; [done| |done]. exists c, blk. by rewrite Hc2.
Qed.

Lemma keeps_lift {A} (o : option A) : keeps (lift_undef o).
Proof. apply keeps_frame. unfold lift_undef. by intros b b' a (x & _ & [= <- _])%obind_Ok. Qed.

Lemma keeps_state_blocks n s : keeps (add_state_blocks n s).
Proof.
  revert s. induction n as [|n IH]; intros s; cbn [add_state_blocks]; [apply keeps_ret|].
  do 3 (apply keeps_bind; [apply keeps_add_block|intro]). apply keeps_bind; [apply IH|intro; apply keeps_ret].
Qed.

Lemma keeps_emit_state i32t i64t u8t inp len slot rej heads bbs st : keeps (emit_state i32t i64t u8t inp len slot rej heads bbs st).
Proof.
  destruct bbs as [[h b] e]. unfold emit_state.
  repeat (apply keeps_bind; [first [apply keeps_set_block|apply keeps_condbr|apply keeps_lift|
      (match goal with |- keeps (match ?l with _ => _ end) => destruct l end; [apply keeps_br|apply keeps_emit_switch])|
      apply (build_op_keeps _ _); constructor]|intro]).
  by apply keeps_emit_void.
Qed.

Lemma keeps_emit_states emit_one bbs sts : (forall bb st, keeps (emit_one bb st)) -> keeps (emit_states emit_one bbs sts).
Proof.
  intros H. revert sts. induction bbs as [|bb bbs IH]; intros [|st sts]; try apply keeps_ret. cbn. apply keeps_bind; [apply H|intro; apply IH].
Qed.

Lemma keeps_emit_body i32t i64t u8t inp len dfa : keeps (emit_body i32t i64t u8t inp len dfa).
Proof.
  unfold emit_body.
  repeat (apply keeps_bind; [first [apply keeps_set_block|apply keeps_add_block|apply keeps_state_blocks|apply keeps_br|apply keeps_lift|
      apply (build_op_keeps _ _); constructor]|intro]).
  apply keeps_emit_states. intros. apply keeps_emit_state.
Qed.

(** ** The emitted function *)

Record matcher (i64t : tyref) (dfa : Dfa) (f : MirFunction) : Prop := {
  mt_extern : is_extern f = false;
  mt_entry : entry_block f = Some 0%nat;
  mt_params : map p_value_id (params f) = [1; 2]%N;
  mt_next : next_value_id f = val_of (length (dstates dfa)) 0;
  mt_code : emitted i64t (dstates dfa) (code_of f)
}.

Lemma regex_types_spec tc : let r := regex_types tc in let '(i32t, i64t, u8t, ptr_u8) := r.2 in
  tc `prefix_of` r.1 /\ kind_in r.1 i32t MIR_TYPE_I32 /\ kind_in r.1 i64t MIR_TYPE_I64 /\ kind_in r.1 u8t MIR_TYPE_U8 /\ kind_in r.1 ptr_u8 MIR_TYPE_PTR.
Proof.
  unfold regex_types. destruct (intern_prim tc MIR_TYPE_I32 eq_refl) as [P1 K1]. fold (mir_type_i32 tc) in *.
  destruct (mir_type_i32 tc) as [tc1 i32t]. cbn [fst snd] in *.
  destruct (intern_prim tc1 MIR_TYPE_I64 eq_refl) as [P2 K2]. fold (mir_type_i64 tc1) in *. destruct (mir_type_i64 tc1) as [tc2 i64t]. cbn [fst snd] in *.
  destruct (intern_prim tc2 MIR_TYPE_U8 eq_refl) as [P3 K3]. fold (mir_type_u8 tc2) in *. destruct (mir_type_u8 tc2) as [tc3 u8t]. cbn [fst snd] in *.
  destruct (intern_ptr tc3 u8t) as [P4 K4]. destruct (mir_type_ptr tc3 u8t) as [tc4 pt]. cbn [fst snd] in *.
  split_and!; try done; [do 3 (etransitivity; [eassumption|]); done|..]; repeat (eassumption || (eapply kind_in_prefix; [eassumption|])).
Qed.

(** The builder [emit_mir] starts from. *)
Definition regex_start (m : MirModule) (name : string) : MirBuilder :=
  let '(tc, (i32t, i64t, u8t, ptr_u8)) := regex_types (type_cache m) in
  builder_start (with_type_cache m tc) name i32t [("input"%string, ptr_u8); ("len"%string, i64t)].

Lemma regex_start_view m name : let r := regex_types (type_cache m) in let '(i32t, i64t, u8t, ptr_u8) := r.2 in
  exists sg, view KT r.1 sg None [] 3 (regex_start m name) /\
    params (b_func (regex_start m name)) = [mkParam "input" ptr_u8 1; mkParam "len" i64t 2] /\
    sg = (name, params (b_func (regex_start m name)), false, b_func (regex_start m name) :: func_list m, func_count m + 1).
Proof.
  cbv zeta. pose proof (regex_types_spec (type_cache m)) as H. cbv zeta in H. unfold regex_start.
  destruct (regex_types (type_cache m)) as [tc [[[i32t i64t] u8t] ptr_u8]]. cbn [fst snd] in *. destruct H as (_ & K1 & K2 & K3 & K4).
  eexists. split; [|split; [reflexivity|reflexivity]]. constructor; try reflexivity.
  - split; [done|]. vm_compute. lia.
  - intros v Hv. assert (v = 1%N \/ v = 2%N) as [-> | ->] by lia; [exact K4|exact K2].
Qed.

Theorem emit_mir_spec m name dfa : Forall (targets_in (length (dstates dfa))) (dstates dfa) -> dstates dfa <> [] ->
  Z.of_N (val_of (length (dstates dfa)) 0) < 2 ^ 31 ->
  exists m' f i64t, emit_mir m name dfa = Ok (m', f) /\ matcher i64t dfa f /\ func_list m' = f :: func_list m /\ f_name f = name /\
    mir_module_find_function m' name = Some f /\
    (exists b, b_func b = f /\ built [] b) /\
    forall v, (0 < v < next_value_id f)%N -> kind_in (type_cache m') (mir_function_value_type f v) (KT v).
Proof.
  intros Ht Hne Hmax. pose proof (regex_start_view m name) as Hs. pose proof (regex_types_spec (type_cache m)) as Hk.
  assert (Hb0 : built [] (regex_start m name)).
  { unfold regex_start. destruct (regex_types _) as [tc [[[i32t i64t] u8t] ptr_u8]]. apply start_built. }
  unfold emit_mir. unfold regex_start in *. destruct (regex_types (type_cache m)) as [tc [[[i32t i64t] u8t] ptr_u8]]. cbv zeta in *. cbn [fst snd] in *.
  destruct Hs as (sg & Hv & Hp & Hsg). destruct Hk as (_ & K1 & K2 & K3 & K4).
  destruct (dstates dfa) as [|st0 sts] eqn:E; [done|]. rewrite <- E in *.
  unfold builder_start in Hv, Hp, Hb0, Hsg. destruct (mir_module_add_function _ _ _ _) as [m1 func] eqn:Ea. cbn [fst snd] in *.
  change (b_func (mir_builder_init m1 func)) with func in *. rewrite Hp. cbn [of_option lookup list_lookup obind p_value_id].
  destruct (wp_emit_body (val_of (length (dstates dfa)) 0) tc sg i32t i64t u8t Hmax K1 K2 K3 dfa (mir_builder_init m1 func)
    (fun b _ => (exists c cs, view KT tc sg c cs (val_of (length (dstates dfa)) 0) b /\ emitted i64t (dstates dfa) cs)) Hv Ht)
    as (b' & [] & Eb & c & cs & Hv' & Hem); [by rewrite E|lia|by eauto|].
  rewrite Eb. cbn [obind fst snd]. pose proof (keeps_emit_body i32t i64t u8t 1 2 dfa _ _ _ Eb Hb0) as Hb'.
  pose proof (v_sig _ _ _ _ _ _ _ Hv') as Hsig. rewrite Hsg, Hp in Hsig. unfold signature in Hsig. injection Hsig as S1 S2 S3 S4 S5.
  pose proof (v_code _ _ _ _ _ _ _ Hv') as Hcode. pose proof (v_next _ _ _ _ _ _ _ Hv') as Hnext.
  exists (builder_sync b'), (b_func b'), i64t. split; [done|].
  assert (Hfl : func_list (builder_sync b') = b_func b' :: func_list m) by (unfold builder_sync, with_funcs; cbn [func_list]; by rewrite S4).
  split_and!; try done.
  - constructor; [done| |by rewrite S2|done|by rewrite Hcode].
    destruct Hb' as [[L1 L2 L3 _ _ _ _ _] _]. rewrite L3, L1, <- code_of_length, Hcode, (em_length _ _ _ Hem).
    unfold head_of. destruct (length (dstates dfa)); done.
  - unfold mir_module_find_function. rewrite Hfl. cbn. by rewrite decide_True.
  - by exists b'.
  - intros v Hvv. apply (v_kinds _ _ _ _ _ _ _ Hv'). by rewrite <- Hnext.
Qed.
