(* ===== verification/RegexVm.v ===== *)
(** * Running an emitted matcher on the interpreter

    The function [mir_regex_compile] emits, run by the interpreter of
    [runtime/vm/cvm_engine.c] on an input with one 64-bit slot per byte,
    returns 1 on the words of the pattern's language and 0 on the others. *)
From S2P Require Import Prelude MirCore MirVerifyFacts Float64 Cvm CvmFacts CvmMemory MirBuilder MirBuilderFacts RegexCode.
From S2P Require Import CString MirRegex RegexSets RegexParse RegexNfa RegexFacts RegexEmit.

(** ** Code by its keys *)

Definition unkey (x : MirInstKind * MirValueId) : MirInst := mkInst x.1 x.2 TY_NULL 0 0.

Definition at_block (f : MirFunction) (c : nat) (ks : list (MirInstKind * MirValueId)) : Prop :=
  exists blk, block_at f c = Some blk /\ map key (insts blk) = ks.

Lemma code_at_block f c ks : code_of f !! c = Some ks -> at_block f c ks.
Proof. unfold code_of. rewrite list_lookup_fmap. intros (blk & Hb & ->)%fmap_Some. by exists blk. Qed.

Section run.
Context (module : MirModule) (calloc : gmap Z Z -> Z -> option Z) (string_addr : string -> Z).
Abbreviation cvm_exec := (cvm_exec module calloc string_addr).
Abbreviation exec_inst := (exec_inst module calloc string_addr).

(** Types and positions of instructions do not matter to the interpreter. *)
Lemma exec_inst_key vm fr prev i j : key i = key j -> exec_inst vm fr prev i = exec_inst vm fr prev j.
Proof. unfold key. intros [= Ea Er]. unfold exec_inst. by rewrite Ea, Er. Qed.

Lemma exec_step_key run vm fr f cur prev l l' : map key l = map key l' ->
  exec_step module calloc string_addr run vm fr f cur prev l = exec_step module calloc string_addr run vm fr f cur prev l'.
Proof.
  destruct l as [|i l], l' as [|j l']; try done. intros H. cbn [map] in H. injection H as Ea Er _.
  unfold exec_step. rewrite <- Ea, <- Er. destruct (as_ i) eqn:E; try done; apply exec_inst_key; unfold key; congruence.
Qed.

Lemma cvm_exec_key n : forall vm fr f cur prev l l', map key l = map key l' ->
  cvm_exec n vm fr f cur prev l = cvm_exec n vm fr f cur prev l'.
Proof.
  induction n as [|n IH]; intros vm fr f cur prev l l' H; [done|]. cbn [Cvm.cvm_exec]. rewrite (exec_step_key _ _ _ _ _ _ _ _ H).
  destruct (exec_step _ _ _ _ _ _ _ _ _ l') as [[[vm1 fr1] [| |]]| |]; cbn [obind]; try done.
  destruct (negb _); [done|]. apply IH. destruct l, l'; try done. cbn in *. congruence.
Qed.

Lemma unkey_key ks : map key (map unkey ks) = ks.
Proof. induction ks as [|[k r] ks IH]; [done|]. cbn. by rewrite IH. Qed.

Lemma jump_to n vm fr f c cur ks : at_block f c ks ->
  (let! blk := of_option (block_at f c) in cvm_exec n vm fr f c (Some cur) (insts blk)) = cvm_exec n vm fr f c (Some cur) (map unkey ks).
Proof. intros (blk & -> & H). cbn [of_option obind]. apply cvm_exec_key. by rewrite unkey_key. Qed.

(** ** Single steps *)

(** An instruction that is not a call, by its outcome. *)
Lemma step_inst n vm fr f cur prev x l : (forall a b c, x.1 <> CALL a b c) -> (forall a b c, x.1 <> CALL_INDIRECT a b c) ->
  cvm_exec (S n) vm fr f cur prev (unkey x :: l) =
  let! h := exec_inst (tick vm) fr prev (unkey x) in
  let '(vm, fr, k) := h in
  match k with
  | NextInst => if negb (trap_code vm =? 0) then Ok (cvm_leave vm fr, 0) else cvm_exec n vm fr f cur prev l
  | Jump None => Ok (cvm_leave vm fr, 0)
  | Jump (Some b) => let! blk := of_option (block_at f b) in cvm_exec n vm fr f b (Some cur) (insts blk)
  | Done v => Ok (cvm_leave vm fr, v)
  end.
Proof. intros H1 H2. cbn [Cvm.cvm_exec exec_step]. destruct (as_ (unkey x)) eqn:E; try done; [by destruct (H1 _ _ _ E)|by destruct (H2 _ _ _ E)]. Qed.

Section steps.
Context (n : nat) (vm : CvmState) (fr : CvmFrame) (f : MirFunction) (cur : nat) (prev : blockptr) (l : list MirInst).
Hypothesis Htrap : trap_code vm = 0.

Ltac start := rewrite step_inst by (by intros); unfold Cvm.exec_inst; cbn [unkey as_ result fst snd].
Ltac finish := cbn [obind of_option fst snd]; rewrite ?set_next_at by done; cbn [obind tick trap_code set_mem]; rewrite ?Htrap; cbn [negb Z.eqb]; try reflexivity.

Lemma step_const v r : in_regs fr r ->
  cvm_exec (S n) vm fr f cur prev (unkey (CONST_INT v, r) :: l) = cvm_exec n (tick vm) (put fr r (u64 v)) f cur prev l.
Proof. intros Hr. start. finish. Qed.

Lemma step_load p a x r : in_regs fr r -> reg fr p a -> a <> 0 -> load64 (mem vm) a = Some x ->
  cvm_exec (S n) vm fr f cur prev (unkey (LOAD p, r) :: l) = cvm_exec n (tick vm) (put fr r x) f cur prev l.
Proof.
  intros Hr Hp Ha Hl. start. rewrite (reg_get_at _ _ _ _ Hp). cbn [obind snd fst]. destruct (Z.eqb_spec a 0); [done|].
  cbn [mem tick]. rewrite Hl. finish.
Qed.

Lemma step_store p v a x m r : reg fr p a -> reg fr v x -> a <> 0 -> store64 (mem vm) a x = Some m ->
  cvm_exec (S n) vm fr f cur prev (unkey (STORE p v, r) :: l) = cvm_exec n (set_mem (tick vm) m) fr f cur prev l.
Proof.
  intros Hp Hv Ha Hs. start. rewrite (reg_get_at _ _ _ _ Hp). cbn [obind snd fst]. destruct (Z.eqb_spec a 0); [done|].
  rewrite (reg_get_at _ _ _ _ Hv). cbn [obind snd fst mem tick]. rewrite Hs. finish.
Qed.

Lemma step_alloca t p r : in_regs fr r -> calloc (mem vm) 8 = Some p ->
  cvm_exec (S n) vm fr f cur prev (unkey (ALLOCA t 1, r) :: l) =
  cvm_exec n (set_mem (tick vm) (zero_range (mem vm) p 8)) (put (mkFrame (regs fr) (allocas fr ++ [(p, 8)])) r p) f cur prev l.
Proof.
  intros Hr Hc. start. change ((if 0 <? 1 then 1 else 1) * 8) with 8. cbn [mem tick]. rewrite Hc.
  rewrite set_next_at by done. finish.
Qed.

Lemma step_binary op a b x y r : in_regs fr r -> reg fr a x -> reg fr b y -> reads_rhs op x = true ->
  cvm_exec (S n) vm fr f cur prev (unkey (BINARY op a b, r) :: l) = cvm_exec n (tick vm) (put fr r (cvm_binop op x y)) f cur prev l.
Proof.
  intros Hr Ha Hb Hrd. start. unfold Cvm.op_binary. rewrite (reg_get_at _ _ _ _ Ha). cbn [obind snd fst]. rewrite Hrd.
  rewrite (reg_get_at _ _ _ _ Hb). finish.
Qed.

Lemma step_zext v x t r : in_regs fr r -> reg fr v x ->
  cvm_exec (S n) vm fr f cur prev (unkey (UNARY MIR_ZEXT v t, r) :: l) = cvm_exec n (tick vm) (put fr r x) f cur prev l.
Proof. intros Hr Hv. start. rewrite (reg_get_at _ _ _ _ Hv). cbn [cvm_unop of_option obind fst snd]. finish. Qed.

Lemma step_elem b i x y k r : in_regs fr r -> reg fr b x -> reg fr i y ->
  cvm_exec (S n) vm fr f cur prev (unkey (GEP MIR_GET_ELEM_PTR b k i, r) :: l) =
  cvm_exec n (tick vm) (put fr r (u64 (x + u64 (y * 8)))) f cur prev l.
Proof. intros Hr Hb Hi. start. rewrite (reg_get_at _ _ _ _ Hb). cbn [obind snd fst]. rewrite (reg_get_at _ _ _ _ Hi). finish. Qed.

Lemma step_br c ks r : at_block f c ks ->
  cvm_exec (S n) vm fr f cur prev (unkey (BR (Some c), r) :: l) = cvm_exec n (tick vm) fr f c (Some cur) (map unkey ks).
Proof. intros Hc. start. cbn [obind]. by apply jump_to. Qed.

Lemma step_condbr v x c1 c2 ks1 ks2 r : reg fr v x -> at_block f c1 ks1 -> at_block f c2 ks2 ->
  cvm_exec (S n) vm fr f cur prev (unkey (CONDBR v (Some c1) (Some c2), r) :: l) =
  if x =? 0 then cvm_exec n (tick vm) fr f c2 (Some cur) (map unkey ks2) else cvm_exec n (tick vm) fr f c1 (Some cur) (map unkey ks1).
Proof.
  intros Hv H1 H2. start. rewrite (reg_get_at _ _ _ _ Hv). cbn [obind snd fst]. destruct (x =? 0); by apply jump_to.
Qed.

Lemma step_switch v x cases d c ks r : reg fr v x -> switch_target (s64 x) cases d = Some c -> at_block f c ks ->
  cvm_exec (S n) vm fr f cur prev (unkey (SWITCH v cases d, r) :: l) = cvm_exec n (tick vm) fr f c (Some cur) (map unkey ks).
Proof. intros Hv Hd Hc. start. rewrite (reg_get_at _ _ _ _ Hv). cbn [obind snd fst]. rewrite Hd. by apply jump_to. Qed.

Lemma step_ret v x r : reg fr v x ->
  cvm_exec (S n) vm fr f cur prev (unkey (RET v, r) :: l) = Ok (cvm_leave (tick vm) fr, x).
Proof. intros Hv. start. by rewrite (reg_get_at _ _ _ _ Hv). Qed.
End steps.

(** ** The input in memory *)

(** One 64-bit slot per byte of [w]. *)
Definition slots_at (m : gmap Z Z) (base : Z) (w : list Z) : Prop :=
  forall j b, w !! j = Some b -> load64 m (base + 8 * Z.of_nat j) = Some b.

Section matching.
Context (i64t : tyref) (dfa : Dfa) (f : MirFunction) (base slot : Z) (w : list Z).
Abbreviation len := (Z.of_nat (length w)).
Hypothesis Hm : matcher i64t dfa f.
Hypothesis Hregs : Z.of_N (next_value_id f) <= CVM_MAX_REGS.
Hypothesis Hw : Forall is_byte w.
Hypothesis Hbase : 0 < base /\ base + 8 * len < 2 ^ 64.
Hypothesis Hlen : len < 2 ^ 63.
Hypothesis Hslot : 0 < slot.
Hypothesis Hdisj : forall a, base <= a < base + 8 * len -> a < slot \/ slot + 8 <= a.

(** The frame and the memory when the position is [i]. *)
Record at_pos (vm : CvmState) (fr : CvmFrame) (i : nat) : Prop := {
  ap_trap : trap_code vm = 0;
  ap_regs : length (regs fr) = N.to_nat (next_value_id f);
  ap_base : reg fr 1 base;
  ap_len : reg fr 2 len;
  ap_slot : reg fr 3 slot;
  ap_pos : load64 (mem vm) slot = Some (Z.of_nat i);
  ap_alloc : forall a, slot <= a < slot + 8 -> is_Some (mem vm !! a);
  ap_input : slots_at (mem vm) base w
}.

Lemma at_pos_tick vm fr i : at_pos vm fr i -> at_pos (tick vm) fr i.
Proof. intros [H1 H2 H3 H4 H5 H6 H7 H8]. by constructor. Qed.

Lemma at_pos_put vm fr i id v : (3 < id)%N -> at_pos vm fr i -> at_pos vm (put fr id v) i.
Proof.
  intros Hid [H1 H2 H3 H4 H5 H6 H7 H8].
  constructor; try done; [unfold put; cbn [set_regs regs]; by rewrite length_insert|apply reg_put_ne; [lia|done]..].
Qed.

(** Storing the position leaves the input alone. *)
Lemma at_pos_store vm fr i v : at_pos vm fr i -> 0 <= Z.of_nat v < 2 ^ 64 ->
  exists m, store64 (mem vm) slot (Z.of_nat v) = Some m /\ at_pos (set_mem vm m) fr v.
Proof.
  intros [H1 H2 H3 H4 H5 H6 H7 H8] Hv. destruct (store_load_roundtrip (mem vm) slot (Z.of_nat v) H7) as (m & Hs & Hl & Hd & Ho).
  exists m. split; [done|]. constructor; try done; cbn [set_mem mem].
  - by rewrite Hl, u64_small.
  - intros a Ha. apply elem_of_dom. rewrite Hd. by apply elem_of_dom, H7.
  - intros j b Hj. specialize (H8 j b Hj). rewrite <- H8. apply load_bytes_ext. intros a Ha. apply Ho.
    apply lookup_lt_Some in Hj. assert (base <= a < base + 8 * len) by (change (Z.of_nat 8) with 8 in Ha; lia).
    destruct (Hdisj a ltac:(done)); lia.
Qed.

Lemma state_reg s st k vm fr i : dstates dfa !! s = Some st -> (k < 9)%N -> at_pos vm fr i -> in_regs fr (val_of s k).
Proof.
  intros Hs Hk Hp. apply lookup_lt_Some in Hs. unfold in_regs. rewrite (ap_regs _ _ _ Hp), (mt_next _ _ _ Hm) in *.
  unfold val_of, CVM_MAX_REGS in *. lia.
Qed.

Lemma block_of c ks : code_of f !! c = Some ks -> at_block f c ks.
Proof. apply code_at_block. Qed.

(** *** The end of the input, and the reject block *)

Lemma run_reject n vm fr cur i : at_pos vm fr i ->
  exists vm', cvm_exec (S (S n)) vm fr f 1 cur (map unkey reject_code) = Ok (vm', 0) /\ trap_code vm' = 0.
Proof.
  intros Hp. unfold reject_code. cbn [map].
  assert (Hr : in_regs fr 5).
  { unfold in_regs. rewrite (ap_regs _ _ _ Hp), (mt_next _ _ _ Hm). unfold val_of. split; [lia|]. split; [reflexivity|lia]. }
  rewrite step_const by (done || apply Hp). erewrite step_ret by (by apply reg_put_eq). eexists. split; [reflexivity|]. apply Hp.
Qed.

Lemma run_end n vm fr cur i s st : at_pos vm fr i -> dstates dfa !! s = Some st ->
  exists vm', cvm_exec (S (S n)) vm fr f (end_of s) cur (map unkey (end_code s st)) = Ok (vm', b2z (accepting st)) /\ trap_code vm' = 0.
Proof.
  intros Hp Hs. unfold end_code. cbn [map]. pose proof (state_reg s st 8 _ _ _ Hs eq_refl Hp) as Hr.
  assert (E : u64 (b2z (accepting st)) = b2z (accepting st)) by (by destruct (accepting st)).
  rewrite step_const, E by (done || apply Hp). erewrite step_ret by (by apply reg_put_eq). eexists. split; [reflexivity|apply Hp].
Qed.

(** *** The head *)

Lemma run_head n vm fr cur i s st : at_pos vm fr i -> dstates dfa !! s = Some st -> (i <= length w)%nat ->
  exists vm' fr', at_pos vm' fr' i /\
    cvm_exec (S (S (S n))) vm fr f (head_of s) cur (map unkey (head_code s)) =
    if decide (i = length w) then cvm_exec n vm' fr' f (end_of s) (Some (head_of s)) (map unkey (end_code s st))
    else cvm_exec n vm' fr' f (body_of s) (Some (head_of s)) (map unkey (body_code i64t s st)).
Proof.
  intros Hp Hs Hi. unfold head_code. cbn [map]. pose proof (em_end _ _ _ (mt_code _ _ _ Hm) s st Hs) as He. pose proof (em_body _ _ _ (mt_code _ _ _ Hm) s st Hs) as Hb.
  pose proof (state_reg s st 0 _ _ _ Hs eq_refl Hp) as Hr0. pose proof (state_reg s st 1 _ _ _ Hs eq_refl Hp) as Hr1.
  rewrite (step_load _ _ _ _ _ _ _ (ap_trap _ _ _ Hp) _ slot (Z.of_nat i)) by (done || apply Hp || lia).
  assert (Hv : forall k, (3 < val_of s k)%N) by (unfold val_of; lia).
  set (fr1 := put fr (val_of s 0) (Z.of_nat i)). assert (Hp1 : at_pos (tick vm) fr1 i) by (by apply at_pos_tick, at_pos_put).
  rewrite (step_binary _ _ _ _ _ _ _ (ap_trap _ _ _ Hp1) MIR_CMP_GE _ _ (Z.of_nat i) len) by
    (first [reflexivity|by apply in_regs_put|by apply reg_put_eq|apply Hp1]). cbn [cvm_binop].
  rewrite !s64_small by word_lia. set (c := b2z _). set (fr2 := put fr1 (val_of s 1) c).
  assert (Hp2 : at_pos (tick (tick vm)) fr2 i) by (by apply at_pos_tick, at_pos_put).
  erewrite (step_condbr _ _ _ _ _ _ _ _ c); [|by apply reg_put_eq, in_regs_put|by apply block_of, He|by apply block_of, Hb].
  exists (tick (tick (tick vm))), fr2. split; [by apply at_pos_tick|]. subst c.
  destruct (Z.leb_spec len (Z.of_nat i)), (decide (i = length w)); cbn; (done || lia).
Qed.

(** *** The body *)

Lemma find_none_above l : forall bv b, b < bv -> List.find (fun c => c.1 =? b) (cases_from bv l) = None.
Proof.
  induction l as [|[t|] l IH]; intros bv b Hb; [done| |]; cbn [cases_from List.find fst]; [destruct (Z.eqb_spec bv b); [lia|]|]; apply IH; lia.
Qed.

Lemma find_cases l : forall bv b, bv <= b -> List.find (fun c => c.1 =? b) (cases_from bv l) =
  match l !! Z.to_nat (b - bv) with Some (Some t) => Some (b, Some (head_of t)) | _ => None end.
Proof.
  induction l as [|o l IH]; intros bv b Hb; [done|]. destruct (Z.eq_dec bv b) as [->|Hne].
  - rewrite Z.sub_diag. cbn [Z.to_nat lookup list_lookup]. destruct o as [t|]; cbn [cases_from List.find fst]; [by rewrite Z.eqb_refl|].
    rewrite find_none_above; [done|lia].
  - replace (Z.to_nat (b - bv)) with (S (Z.to_nat (b - (bv + 1)))) by lia. cbn [lookup list_lookup].
    destruct o as [t|]; cbn [cases_from List.find fst]; [destruct (Z.eqb_spec bv b); [lia|]|]; apply IH; lia.
Qed.

Lemma dispatch_target s st b o : is_byte b -> trans st !! Z.to_nat b = Some o ->
  match dispatch s st with
  | BR t => t = Some 1%nat /\ o = None
  | SWITCH v cases d => v = val_of s 5 /\ switch_target (s64 b) cases d = Some (match o with Some t => head_of t | None => 1%nat end)
  | _ => False
  end.
Proof.
  intros Hb Ho. pose proof (find_cases (trans st) 0 b ltac:(unfold is_byte in Hb; lia)) as Hf. rewrite Z.sub_0_r, Ho in Hf.
  assert (Hs : s64 b = b) by (apply s64_small; unfold is_byte in Hb; word_lia).
  unfold dispatch. destruct (cases_from 0 (trans st)) as [|x l] eqn:E.
  - split; [done|]. by destruct o.
  - split; [done|]. unfold switch_target. rewrite Hs, Hf. by destruct o.
Qed.

Lemma val_ne s j k : j <> k -> val_of s j <> val_of s k.
Proof. unfold val_of. lia. Qed.

Lemma val_above s k : (3 < val_of s k)%N.
Proof. unfold val_of. lia. Qed.

Ltac at_pos_tac := by apply at_pos_tick, at_pos_put; [apply val_above|].
Ltac new_reg Hr := by apply reg_put_eq; eapply Hr.
Ltac old_reg := by apply reg_put_ne; [apply val_ne|].

(** Reading the byte at the position. *)
Lemma run_read n vm fr cur i s st b l : at_pos vm fr i -> dstates dfa !! s = Some st -> w !! i = Some b ->
  exists vm' fr', at_pos vm' fr' i /\ reg fr' (val_of s 2) (Z.of_nat i) /\ reg fr' (val_of s 5) b /\
    cvm_exec (4 + n) vm fr f (body_of s) cur (map unkey (take 4 (body_code i64t s st)) ++ l) = cvm_exec n vm' fr' f (body_of s) cur l.
Proof.
  intros Hp Hs Hwi. cbn [body_code take map app]. pose proof (fun k vm fr i => state_reg s st k vm fr i Hs) as Hr.
  pose proof (lookup_lt_Some _ _ _ Hwi) as Hi. change (4 + n)%nat with (S (S (S (S n)))).
  rewrite (step_load _ _ _ _ _ _ _ (ap_trap _ _ _ Hp) _ slot (Z.of_nat i)) by (first [by eapply Hr|apply Hp|lia]).
  set (fr1 := put fr _ _). assert (Hp1 : at_pos (tick vm) fr1 i) by at_pos_tac.
  assert (R2 : reg fr1 (val_of s 2) (Z.of_nat i)) by new_reg Hr.
  rewrite (step_elem _ _ _ _ _ _ _ (ap_trap _ _ _ Hp1) _ _ base (Z.of_nat i)) by (first [by eapply Hr|apply Hp1|done]).
  rewrite (u64_small (Z.of_nat i * 8)), (Z.mul_comm _ 8), u64_small by lia.
  set (fr2 := put fr1 _ _). assert (Hp2 : at_pos (tick (tick vm)) fr2 i) by at_pos_tac.
  assert (R3 : reg fr2 (val_of s 3) (base + 8 * Z.of_nat i)) by new_reg Hr.
  assert (R2' : reg fr2 (val_of s 2) (Z.of_nat i)) by old_reg.
  rewrite (step_load _ _ _ _ _ _ _ (ap_trap _ _ _ Hp2) _ _ b) by (first [by eapply Hr|apply R3|lia|by apply (ap_input _ _ _ Hp2)]).
  set (fr3 := put fr2 _ _). assert (Hp3 : at_pos (tick (tick (tick vm))) fr3 i) by at_pos_tac.
  assert (R4 : reg fr3 (val_of s 4) b) by new_reg Hr.
  assert (R2'' : reg fr3 (val_of s 2) (Z.of_nat i)) by old_reg.
  rewrite (step_zext _ _ _ _ _ _ _ (ap_trap _ _ _ Hp3) _ b) by (first [by eapply Hr|done]).
  eexists _, _. split; [|split; [|split; [|reflexivity]]]; [at_pos_tac|old_reg|new_reg Hr].
Qed.

(** Storing the next position. *)
Lemma run_advance n vm fr cur i s st b l : at_pos vm fr i -> dstates dfa !! s = Some st -> (i < length w)%nat ->
  reg fr (val_of s 2) (Z.of_nat i) -> reg fr (val_of s 5) b ->
  exists vm' fr', at_pos vm' fr' (S i) /\ reg fr' (val_of s 5) b /\
    cvm_exec (3 + n) vm fr f (body_of s) cur (map unkey (take 3 (drop 4 (body_code i64t s st))) ++ l) = cvm_exec n vm' fr' f (body_of s) cur l.
Proof.
  intros Hp Hs Hi R2 R5. cbn [body_code take drop map app]. pose proof (fun k vm fr i => state_reg s st k vm fr i Hs) as Hr.
  change (3 + n)%nat with (S (S (S n))).
  rewrite (step_const _ _ _ _ _ _ _ (ap_trap _ _ _ Hp)) by (by eapply Hr). change (u64 1) with 1.
  set (fr1 := put fr _ _). assert (Hp1 : at_pos (tick vm) fr1 i) by at_pos_tac.
  assert (R6 : reg fr1 (val_of s 6) 1) by new_reg Hr. assert (R2' : reg fr1 (val_of s 2) (Z.of_nat i)) by old_reg.
  assert (R5' : reg fr1 (val_of s 5) b) by old_reg.
  rewrite (step_binary _ _ _ _ _ _ _ (ap_trap _ _ _ Hp1) MIR_ADD _ _ (Z.of_nat i) 1) by (first [reflexivity|by eapply Hr|done]).
  cbn [cvm_binop]. rewrite u64_small by lia. replace (Z.of_nat i + 1) with (Z.of_nat (S i)) by lia.
  set (fr2 := put fr1 _ _). assert (Hp2 : at_pos (tick (tick vm)) fr2 i) by at_pos_tac.
  assert (R7 : reg fr2 (val_of s 7) (Z.of_nat (S i))) by new_reg Hr. assert (R5'' : reg fr2 (val_of s 5) b) by old_reg.
  destruct (at_pos_store (tick (tick (tick vm))) fr2 i (S i)) as (m & Hm' & Hpm); [by apply (at_pos_tick (tick (tick vm)))|lia|].
  rewrite (step_store _ _ _ _ _ _ _ (ap_trap _ _ _ Hp2) _ _ slot (Z.of_nat (S i)) m) by (first [done|apply Hp2|lia]).
  eexists _, _. split; [|split; [|reflexivity]]; [exact Hpm|done].
Qed.

Lemma run_body n vm fr cur i s st b o : at_pos vm fr i -> dstates dfa !! s = Some st -> w !! i = Some b ->
  trans st !! Z.to_nat b = Some o -> (forall t, o = Some t -> is_Some (dstates dfa !! t)) ->
  exists vm' fr', at_pos vm' fr' (S i) /\
    cvm_exec (8 + n) vm fr f (body_of s) cur (map unkey (body_code i64t s st)) =
    match o with
    | Some t => cvm_exec n vm' fr' f (head_of t) (Some (body_of s)) (map unkey (head_code t))
    | None => cvm_exec n vm' fr' f 1 (Some (body_of s)) (map unkey reject_code)
    end.
Proof.
  intros Hp Hs Hwi Ho Ht. assert (Hb : is_byte b) by (rewrite list.Forall_forall in Hw; by eapply Hw, list_elem_of_lookup_2).
  pose proof (lookup_lt_Some _ _ _ Hwi) as Hi.
  replace (map unkey (body_code i64t s st)) with
    (map unkey (take 4 (body_code i64t s st)) ++ map unkey (take 3 (drop 4 (body_code i64t s st))) ++ [unkey (dispatch s st, 0%N)]) by done.
  destruct (run_read (3 + S n) vm fr cur i s st b (map unkey (take 3 (drop 4 (body_code i64t s st))) ++ [unkey (dispatch s st, 0%N)]) Hp Hs Hwi)
    as (vm1 & fr1 & Hp1 & R2 & R5 & E1).
  destruct (run_advance (S n) vm1 fr1 cur i s st b [unkey (dispatch s st, 0%N)] Hp1 Hs Hi R2 R5) as (vm2 & fr2 & Hp2 & R5' & E2).
  change (8 + n)%nat with (4 + (3 + S n))%nat. rewrite E1, E2.
  assert (Hrej : at_block f 1 reject_code) by apply block_of, (em_reject _ _ _ (mt_code _ _ _ Hm)).
  pose proof (dispatch_target s st b o Hb Ho) as Hd. exists (tick vm2), fr2. split; [by apply at_pos_tick|].
  destruct (dispatch s st); try done; destruct Hd as [-> Hd].
  - subst o. by apply step_br.
  - destruct o as [t|]; [|by apply (step_switch _ _ _ _ _ _ _ _ b)]. destruct (Ht t eq_refl) as [st' Hst'].
    apply (step_switch _ _ _ _ _ _ _ _ b); [done|done|]. apply block_of, (em_head _ _ _ (mt_code _ _ _ Hm) _ st' Hst').
Qed.

(** *** The whole run *)

Lemma run_word nfa (Hd : dfa_ok nfa dfa) : forall k i s st vm fr cur n, k = (length w - i)%nat -> (i <= length w)%nat ->
  at_pos vm fr i -> dstates dfa !! s = Some st ->
  exists vm' v, cvm_exec (11 * k + 5 + n) vm fr f (head_of s) cur (map unkey (head_code s)) = Ok (vm', v) /\ trap_code vm' = 0 /\
    match dfa_run dfa s (drop i w) with
    | Ok (Some j) => exists sj, dstates dfa !! j = Some sj /\ v = b2z (accepting sj)
    | Ok None => v = 0
    | _ => False
    end.
Proof.
  induction k as [|k IH]; intros i s st vm fr cur n Hk Hi Hp Hs.
  - assert (i = length w) as -> by lia. rewrite drop_all. cbn [dfa_run].
    destruct (run_head (S (S n)) vm fr cur (length w) s st Hp Hs) as (vm1 & fr1 & Hp1 & E); [done|].
    change (11 * 0 + 5 + n)%nat with (S (S (S (S (S n))))). rewrite E, decide_True by done.
    destruct (run_end n vm1 fr1 (Some (head_of s)) (length w) s st Hp1 Hs) as (vm2 & -> & Ht). exists vm2, (b2z (accepting st)). eauto.
  - destruct (lookup_lt_is_Some_2 w i ltac:(lia)) as [b Hb]. rewrite (drop_S _ _ _ Hb). cbn [dfa_run]. rewrite Hs. cbn [of_option obind].
    assert (Hbyte : is_byte b) by (rewrite list.Forall_forall in Hw; by eapply Hw, list_elem_of_lookup_2).
    destruct (do_moves _ _ Hd s st b Hs Hbyte) as (o & Ho & Hto). rewrite Ho. cbn [of_option obind].
    destruct (run_head (8 + (11 * k + 5 + n)) vm fr cur i s st Hp Hs) as (vm1 & fr1 & Hp1 & E); [lia|].
    replace (11 * S k + 5 + n)%nat with (S (S (S (8 + (11 * k + 5 + n))))) by lia. rewrite E, decide_False by lia.
    destruct (run_body (11 * k + 5 + n) vm1 fr1 (Some (head_of s)) i s st b o Hp1 Hs Hb Ho) as (vm2 & fr2 & Hp2 & ->).
    { intros t ->. destruct Hto as (s' & Hs' & _). by eexists. }
    destruct o as [t|].
    + destruct Hto as (st' & Hst' & _). by apply (IH (S i) t st'); [lia|lia|..].
    + replace (11 * k + 5 + n)%nat with (S (S (11 * k + 3 + n))) by lia.
      destruct (run_reject (11 * k + 3 + n) vm2 fr2 (Some (body_of s)) (S i) Hp2) as (vm3 & -> & Ht). exists vm3, 0. eauto.
Qed.
End matching.
End run.

(** ** Entering the function *)

Lemma slots_dom m base w a : slots_at m base w -> base <= a < base + 8 * Z.of_nat (length w) -> a ∈ dom m.
Proof.
  intros Hs Ha. set (j := Z.to_nat ((a - base) / 8)).
  pose proof (Z_div_mod_eq_full (a - base) 8). pose proof (Z.mod_pos_bound (a - base) 8).
  assert (Hj : Z.of_nat j = (a - base) / 8) by (subst j; rewrite Z2Nat.id; [done|apply Z.div_pos; lia]).
  destruct (lookup_lt_is_Some_2 w j) as [b Hb]; [lia|]. specialize (Hs j b Hb). apply elem_of_dom.
  assert (Hl : forall k p v, load_bytes k m p = Some v -> forall x, p <= x < p + Z.of_nat k -> is_Some (m !! x)).
  { clear. induction k as [|k IH]; intros p v H x Hx; [lia|]. cbn [load_bytes] in H. apply bind_Some in H as (b & Hb & H).
    apply bind_Some in H as (r & Hr & _). destruct (Z.eq_dec x p) as [->|Hne]; [by eexists|]. apply (IH (p + 1) r Hr). lia. }
  apply (Hl 8%nat _ _ Hs). change (Z.of_nat 8) with 8. lia.
Qed.

Section enter.
Context (module : MirModule) (calloc : gmap Z Z -> Z -> option Z) (string_addr : string -> Z).
Context (i64t : tyref) (dfa : Dfa) (f : MirFunction) (base slot : Z) (w : list Z).
Hypothesis Hm : matcher i64t dfa f.
Hypothesis Hregs : Z.of_N (next_value_id f) <= CVM_MAX_REGS.

Abbreviation len := (Z.of_nat (length w)).
Hypothesis Hslot : 0 < slot.

Lemma frame_regs_at : let fr := mkFrame (frame_regs f [base; len]) [] in
  length (regs fr) = N.to_nat (next_value_id f) /\ reg fr 1 base /\ reg fr 2 len.
Proof.
  pose proof (mt_next _ _ _ Hm) as Hn. pose proof (mt_params _ _ _ Hm) as Hp. unfold val_of in Hn.
  assert (H6 : (6 <= next_value_id f)%N) by lia. unfold frame_regs. destruct (N.ltb_spec 0 (next_value_id f)); [|lia].
  unfold CVM_MAX_REGS in *. rewrite s32_small by lia. destruct (Z.ltb_spec 4096 (Z.of_N (next_value_id f))); [lia|].
  destruct (params f) as [|p1 [|p2 [|? ?]]]; try done. cbn [map] in Hp. injection Hp as Hp1 Hp2.
  replace (Z.to_nat (Z.of_N (next_value_id f))) with (N.to_nat (next_value_id f)) by lia. set (k := N.to_nat (next_value_id f)). assert (Hk : (6 <= k)%nat) by lia. cbv zeta. cbn [regs copy_args].
  rewrite Hp1, Hp2, length_replicate. cbn [N.eqb negb andb].
  destruct (N.ltb_spec 1 (N.of_nat k)); [|lia]. rewrite length_insert, length_replicate. destruct (N.ltb_spec 2 (N.of_nat k)); [|lia]. cbn [andb].
  split; [by rewrite !length_insert, length_replicate|]. unfold reg. cbn [regs]. split; (split; [lia|split; [lia|]]).
  - rewrite list_lookup_insert_ne by lia. rewrite list_lookup_insert_eq; [done|]. rewrite length_replicate. lia.
  - rewrite list_lookup_insert_eq; [done|]. rewrite length_insert, length_replicate. lia.
Qed.

(** The entry block: from a fresh frame to the head of the first state. *)
Lemma run_entry n vm : trap_code vm = 0 -> calloc (mem vm) 8 = Some slot -> range slot 8 ## dom (mem vm) -> slots_at (mem vm) base w ->
  dstates dfa <> [] ->
  exists vm' fr', at_pos f base slot w vm' fr' 0 /\
    cvm_exec module calloc string_addr (4 + n) vm (mkFrame (frame_regs f [base; len]) []) f 0 None (map unkey (entry_code i64t)) =
    cvm_exec module calloc string_addr n vm' fr' f (head_of 0) (Some 0%nat) (map unkey (head_code 0)).
Proof.
  intros Ht Hc Hf Hs Hne. destruct frame_regs_at as (Hr & H1 & H2). set (fr := mkFrame _ []) in *.
  assert (Hin : forall fr id, length (regs fr) = N.to_nat (next_value_id f) -> (0 < id < 6)%N -> in_regs fr id).
  { intros fr' id Hl Hid. unfold in_regs. rewrite Hl. rewrite (mt_next _ _ _ Hm) in *. unfold val_of, CVM_MAX_REGS in *. lia. }
  cbn [entry_code map]. change (4 + n)%nat with (S (S (S (S n)))).
  rewrite (step_alloca _ _ _ _ _ _ _ _ _ _ Ht _ slot) by (done || (by apply Hin)). cbn [allocas fr app].
  set (m0 := zero_range (mem vm) slot 8). set (vm1 := set_mem (tick vm) m0). set (fr1 := put _ 3 slot).
  assert (Hl1 : length (regs fr1) = N.to_nat (next_value_id f)) by (subst fr1; unfold put; cbn [set_regs regs]; by rewrite length_insert).
  assert (R1 : reg fr1 1 base) by (by apply reg_put_ne). assert (R2 : reg fr1 2 len) by (by apply reg_put_ne).
  assert (R3 : reg fr1 3 slot) by (by apply reg_put_eq, Hin).
  assert (Ht1 : trap_code vm1 = 0) by done. assert (Ht2 : trap_code (tick vm1) = 0) by done.
  rewrite (step_const _ _ _ _ _ _ _ _ _ _ Ht1) by (by apply Hin). change (u64 0) with (Z.of_nat 0).
  set (fr2 := put fr1 4 _). assert (R4 : reg fr2 4 (Z.of_nat 0)) by (by apply reg_put_eq, Hin).
  assert (R3' : reg fr2 3 slot) by (by apply reg_put_ne).
  assert (Hz : forall a, slot <= a < slot + 8 -> m0 !! a = Some 0).
  { intros a Ha. subst m0. rewrite zero_range_lookup, decide_True; [done|]. apply elem_of_seqZ. lia. }
  assert (Ho : forall a, a < slot \/ slot + 8 <= a -> m0 !! a = mem vm !! a).
  { intros a Ha. subst m0. rewrite zero_range_lookup, decide_False; [done|]. rewrite elem_of_seqZ. lia. }
  assert (Hdisj : forall a, base <= a < base + 8 * len -> a < slot \/ slot + 8 <= a).
  { intros a Ha. pose proof (slots_dom _ _ _ _ Hs Ha) as Hd. destruct (Z.lt_ge_cases a slot); [by left|]. destruct (Z.lt_ge_cases a (slot + 8)); [|by right].
    exfalso. apply (Hf a); [|done]. unfold range. apply elem_of_list_to_set, elem_of_seqZ. lia. }
  assert (Hp : at_pos f base slot w (tick (tick vm1)) fr2 0).
  { constructor; try done.
    - unfold fr2, put. cbn [set_regs regs]. by rewrite length_insert.
    - by apply reg_put_ne.
    - by apply reg_put_ne.
    - cbn [tick mem vm1 set_mem]. unfold load64. cbn [load_bytes]. rewrite !Hz by lia. done.
    - intros a Ha. cbn [tick mem vm1 set_mem]. rewrite Hz by done. by eexists.
    - intros j b Hj. cbn [tick mem vm1 set_mem]. specialize (Hs j b Hj). rewrite <- Hs. apply load_bytes_ext. intros a Ha. apply Ho.
      apply lookup_lt_Some in Hj. change (Z.of_nat 8) with 8 in Ha. apply Hdisj. lia. }
  destruct (at_pos_store f base slot w Hdisj (tick (tick vm1)) fr2 0 0 Hp) as (m & Hm' & Hpm); [lia|].
  rewrite (step_store _ _ _ _ _ _ _ _ _ _ Ht2 _ _ slot (Z.of_nat 0) m) by (done || lia).
  destruct (dstates dfa) as [|st0 sts] eqn:E; [done|].
  erewrite step_br; [|apply code_at_block, (em_head _ _ _ (mt_code _ _ _ Hm) 0%nat st0); by rewrite E].
  eexists _, _. split; [|reflexivity]. apply at_pos_tick. exact Hpm.
Qed.
End enter.

(** ** The compiled pattern *)

Lemma dfa_targets nfa d : dfa_ok nfa d -> Forall (targets_in (length (dstates d))) (dstates d).
Proof.
  intros Hd. apply list.Forall_forall. intros st [s Hs]%list_elem_of_lookup. pose proof (do_states _ _ Hd s st Hs) as Hso.
  split; [apply (so_ntrans _ _ Hso)|]. intros t [k Hk]%list_elem_of_lookup.
  pose proof (lookup_lt_Some _ _ _ Hk) as Hlt. rewrite (so_trans _ _ Hso) in Hlt.
  destruct (do_moves _ _ Hd s st (Z.of_nat k) Hs) as (o & Ho & Ht); [unfold is_byte; lia|]. rewrite Nat2Z.id, Hk in Ho. injection Ho as <-.
  destruct Ht as (s' & Hs' & _). by eapply lookup_lt_Some.
Qed.

(** The number of states at most [CVM_MAX_REGS] registers have room for. *)
Definition MAX_VM_STATES : nat := 454.

Section compiled.
Context (calloc : gmap Z Z -> Z -> option Z) (string_addr : string -> Z).

(** Running a matcher from [cvm_run], its automaton's answer given. *)
Lemma run_matcher m f i64t nfa d name w vm base slot n : matcher i64t d f -> mir_module_find_function m name = Some f ->
  dfa_ok nfa d -> dstates d <> [] -> (length (dstates d) <= MAX_VM_STATES)%nat ->
  Forall is_byte w -> 0 < base /\ base + 8 * Z.of_nat (length w) < 2 ^ 64 -> Z.of_nat (length w) < 2 ^ 63 -> slots_at (mem vm) base w ->
  calloc (mem vm) 8 = Some slot -> 0 < slot -> range slot 8 ## dom (mem vm) ->
  trap_code vm = 0 -> frame_depth vm < CVM_MAX_CALL_DEPTH -> (11 * length w + 9 <= n)%nat ->
  exists vm' v, cvm_run m calloc string_addr n vm name [base; Z.of_nat (length w)] = Ok (vm', s64 v) /\ trap_code vm' = 0 /\
    match dfa_run d 0 w with
    | Ok (Some j) => exists sj, dstates d !! j = Some sj /\ v = b2z (accepting sj)
    | Ok None => v = 0
    | _ => False
    end.
Proof.
  intros Hm Hfind Hd Hne Hmax Hw Hbase Hlen Hs Hc Hslot Hf Ht Hdepth Hn.
  assert (Hregs : Z.of_N (next_value_id f) <= CVM_MAX_REGS).
  { rewrite (mt_next _ _ _ Hm). unfold val_of, MAX_VM_STATES, CVM_MAX_REGS in *. lia. }
  unfold cvm_run. rewrite Hfind. cbn [take map]. rewrite !u64_small by lia.
  unfold cvm_exec_function, enter_function, cvm_enter. destruct (count_call_eq vm name) as [pl ->].
  destruct (code_at_block f 0 _ (em_entry _ _ _ (mt_code _ _ _ Hm))) as (blk & Hb & Hk).
  change (frame_depth (set_profiles vm pl)) with (frame_depth vm).
  destruct (Z.ltb_spec CVM_MAX_CALL_DEPTH (frame_depth vm + 1)); [lia|]. rewrite (mt_entry _ _ _ Hm). cbn [of_option obind]. rewrite Hb.
  cbn [of_option obind]. destruct (insts blk) as [|i0 l0] eqn:Ei; [done|]. cbn [obind snd fst]. set (vm0 := set_depth _ _ _).
  rewrite (cvm_exec_key _ _ _ _ _ _ _ _ _ _ (map unkey (entry_code i64t))) by (by rewrite unkey_key).
  replace n with (4 + (11 * length w + 5 + (n - (11 * length w + 9))))%nat by lia.
  destruct (run_entry m calloc string_addr i64t d f base slot w Hm Hregs Hslot (11 * length w + 5 + (n - (11 * length w + 9))) vm0)
    as (vm1 & fr1 & Hp & ->); [done..|].
  destruct (dstates d !! 0%nat) as [st0|] eqn:E0; [|by destruct (dstates d)].
  assert (Hdisj : forall a, base <= a < base + 8 * Z.of_nat (length w) -> a < slot \/ slot + 8 <= a).
  { intros a Ha. pose proof (slots_dom _ _ _ _ Hs Ha) as Hdm. destruct (Z.lt_ge_cases a slot); [by left|]. destruct (Z.lt_ge_cases a (slot + 8)); [|by right].
    exfalso. apply (Hf a); [|done]. unfold range. apply elem_of_list_to_set, elem_of_seqZ. lia. }
  destruct (run_word m calloc string_addr i64t d f base slot w Hm Hregs Hw Hbase Hlen Hslot Hdisj nfa Hd (length w) 0 0 st0 vm1 fr1 (Some 0%nat)
    (n - (11 * length w + 9))) as (vm2 & v & -> & Ht2 & Hv); [lia|lia|done|done|]. cbn [obind fst snd]. exists vm2, v. done.
Qed.
End compiled.

(** C13: Compiled patterns match on the interpreter.  When a pattern parses
    and its automaton has at most 454 states (nine registers each in a file
    of 4096), [mir_regex_compile] produces a function, and the interpreter
    run on it, with the input laid out one 64-bit slot per byte and enough
    fuel, ends without a trap and returns 1 if the input is a word of the
    language of the pattern and 0 if it is not. *)
Theorem regex_compile_correct calloc string_addr m name p c tree fuel d w vm base slot n
  (Hparse : parse_pattern p no_error = Ok (c, Some tree)) (Hfuel : (2 ^ nfa_size tree <= fuel)%nat)
  (Hdfa : nfa_to_dfa fuel (build_nfa tree) = Ok d) (Hstates : (length (dstates d) <= MAX_VM_STATES)%nat)
  (Hw : Forall is_byte w) (Hbase : 0 < base /\ base + 8 * Z.of_nat (length w) < 2 ^ 64) (Hlen : Z.of_nat (length w) < 2 ^ 63)
  (Hin : slots_at (mem vm) base w)
  (Hcalloc : calloc (mem vm) 8 = Some slot) (Hslot : 0 < slot) (Hfresh : range slot 8 ## dom (mem vm))
  (Htrap : trap_code vm = 0) (Hdepth : frame_depth vm < CVM_MAX_CALL_DEPTH) (Hn : (11 * length w + 9 <= n)%nat) :
  exists m' r vm' v, mir_regex_compile fuel m name p = Ok (m', r) /\ r_ok r = true /\ dfa_states r = length (dstates d) /\
    cvm_run m' calloc string_addr n vm name [base; Z.of_nat (length w)] = Ok (vm', v) /\ trap_code vm' = 0 /\
    (v = 1 /\ lang tree w \/ v = 0 /\ ~ lang tree w).
Proof.
  destruct (dfa_accepts tree fuel w Hfuel Hw) as (d' & Hd' & Hok & Hrun). rewrite Hdfa in Hd'. injection Hd' as <-.
  assert (Hne : dstates d <> []).
  { intros E. destruct w as [|b w']; destruct Hrun as [(j & s & _ & Hj & _)|[Hr _]]; [by rewrite E in Hj|done|by rewrite E in Hj|].
    cbn [dfa_run] in Hr. by rewrite E in Hr. }
  unfold mir_regex_compile. rewrite Hparse. cbn [obind snd]. rewrite Hdfa. cbn [obind].
  destruct (emit_mir_spec m name d (dfa_targets _ _ Hok) Hne) as (m' & f & i64t & -> & Hm & _ & _ & Hfind & _).
  { unfold val_of, MAX_VM_STATES in *. lia. }
  cbn [obind fst snd].
  destruct (run_matcher calloc string_addr m' f i64t _ d name w vm base slot n Hm Hfind Hok Hne Hstates Hw Hbase Hlen Hin Hcalloc Hslot Hfresh Htrap Hdepth Hn)
    as (vm' & v & Erun & Ht' & Hv).
  exists m'. eexists. exists vm', (s64 v). split_and!; try done.
  destruct Hrun as [(j & s & E & Hj & Ha)|[E Hno]]; rewrite E in Hv.
  - destruct Hv as (sj & Hsj & ->). rewrite Hj in Hsj. injection Hsj as <-. destruct (accepting s); [left|right]; (split; [reflexivity|naive_solver]).
  - subst v. by right.
Qed.

(** ** Witness: the pattern [ab] on its only word *)

Definition ab_tree : RegexNode := R_CONCAT (R_CLASS (bs_add bs_clear 97)) (R_CLASS (bs_add bs_clear 98)).
Definition ab_input : gmap Z Z :=
  default ∅ (m ← store64 (zero_range ∅ 128 16) 128 97; store64 m 136 98).
Definition ab_vm (m : gmap Z Z) : CvmState := cvm_state_create m.

Lemma ab_parse : exists c, parse_pattern (lit "ab") no_error = Ok (c, Some ab_tree).
Proof. eexists. vm_compute. reflexivity. Qed.

Lemma ab_dfa : exists d, nfa_to_dfa 8 (build_nfa ab_tree) = Ok d /\ (length (dstates d) <= MAX_VM_STATES)%nat.
Proof. eexists. split; [vm_compute; reflexivity|]. vm_compute. lia. Qed.

Lemma ab_slots : slots_at ab_input 128 [97; 98].
Proof. intros [|[|j]] b H; [injection H as <-|injection H as <-|done]; vm_compute; reflexivity. Qed.

Lemma ab_fresh : range 64 8 ## dom ab_input.
Proof. apply (bool_decide_unpack _). vm_compute. exact I. Qed.

Lemma regex_compile_correct_witness : exists m' r vm' v,
  mir_regex_compile 8 (mir_module_create "m") "re" (lit "ab") = Ok (m', r) /\
  cvm_run m' (fun _ _ => Some 64) (fun _ => 0) 31 (ab_vm ab_input) "re" [128; 2] = Ok (vm', v) /\
  (v = 1 /\ lang ab_tree [97; 98] \/ v = 0 /\ ~ lang ab_tree [97; 98]).
Proof.
  destruct ab_parse as (c & Hp). destruct ab_dfa as (d & Hd & Hl).
  destruct (regex_compile_correct (fun _ _ => Some 64) (fun _ => 0) (mir_module_create "m") "re" (lit "ab") c ab_tree 8 d [97; 98]
    (ab_vm ab_input) 128 64 31 Hp) as (m' & r & vm' & v & H1 & _ & _ & H2 & _ & H3).
  - vm_compute. lia.
  - exact Hd.
  - exact Hl.
  - repeat constructor; lia.
  - split; reflexivity.
  - reflexivity.
  - exact ab_slots.
  - reflexivity.
  - reflexivity.
  - exact ab_fresh.
  - reflexivity.
  - reflexivity.
  - cbn [length]. lia.
  - exists m', r, vm', v. split; [exact H1|]. split; [exact H2|exact H3].
Defined.

(** The same word packed one byte per address, as the type [ptr<u8>] of the
    parameter announces: the interpreter loads eight bytes and steps by
    eight, and rejects it. *)
Definition ab_packed : gmap Z Z := <[128 := 97]> (<[129 := 98]> (zero_range ∅ 128 16)).

Lemma packed_input_rejected :
  match mir_regex_compile 8 (mir_module_create "m") "re" (lit "ab") with
  | Ok (m', _) => snd <$> (match cvm_run m' (fun _ _ => Some 64) (fun _ => 0) 31 (ab_vm ab_packed) "re" [128; 2] with Ok r => Some r | _ => None end) = Some 0
  | _ => False
  end.
Proof. vm_compute. reflexivity. Qed.
