(* ===== verification/RegexTyped.v ===== *)
(** * The verifier on emitted matchers

    A matcher whose states have fewer than 64 transitions each passes
    [mir_verify_function]; a state with more hides its default edge from the
    verifier's buffer of 64 successors, which then reports reachable blocks
    as unreachable. *)
From S2P Require Import Prelude MirCore MirGraph MirVerify MirVerifyFacts MirBuilder MirBuilderFacts RegexCode CString MirRegex.
From S2P Require Import RegexSets RegexParse RegexNfa RegexFacts RegexEmit RegexVm.

Lemma omap_length_le (l : list (Z * blockptr)) : (length (omap snd l) <= length l)%nat.
Proof. induction l as [|[c [t|]] l IH]; cbn in *; lia. Qed.

Section typed.
Context (tc : list MirType) (i64t : tyref) (nfa : Nfa) (dfa : Dfa) (f : MirFunction) (b : MirBuilder).
Hypothesis Hm : matcher i64t dfa f.
Hypothesis Hd : dfa_ok nfa dfa.
Hypothesis Hne : dstates dfa <> [].
Hypothesis Hb : b_func b = f /\ MirBuilderFacts.built [] b.
Hypothesis Hsmall : Z.of_N (next_value_id f) < 2 ^ 31.
Hypothesis Hkinds : forall v, (0 < v < next_value_id f)%N -> kind_in tc (mir_function_value_type f v) (KT v).
Hypothesis Hcap : forall s st, dstates dfa !! s = Some st -> ntrans st < 64.

Abbreviation n := (length (dstates dfa)).

(** The code of a block is one of five. *)
Definition block_code (c : nat) (ks : list (MirInstKind * MirValueId)) : Prop :=
  c = 0%nat /\ ks = entry_code i64t \/ c = 1%nat /\ ks = reject_code \/
  exists s st, dstates dfa !! s = Some st /\
    (c = head_of s /\ ks = head_code s \/ c = body_of s /\ ks = body_code i64t s st \/ c = end_of s /\ ks = end_code s st).

Lemma block_cases c blk : block_at f c = Some blk -> block_code c (map key (insts blk)).
Proof.
  intros Hc. pose proof (mt_code _ _ _ Hm) as He.
  assert (Hk : code_of f !! c = Some (map key (insts blk))) by (unfold code_of; rewrite list_lookup_fmap; unfold block_at in Hc; by rewrite Hc).
  pose proof (lookup_lt_Some _ _ _ Hk) as Hlt. rewrite (em_length _ _ _ He) in Hlt.
  destruct c as [|[|c]]; [left; rewrite (em_entry _ _ _ He) in Hk; split; congruence|right; left; rewrite (em_reject _ _ _ He) in Hk; split; congruence|].
  right. right. pose proof (Nat.div_mod_eq c 3) as Hq. pose proof (Nat.mod_upper_bound c 3 ltac:(lia)) as Hr. set (s := (c / 3)%nat) in *.
  destruct (lookup_lt_is_Some_2 (dstates dfa) s) as [st Hst]; [unfold head_of in Hlt; lia|]. exists s, st. split; [done|].
  assert (Hcase : S (S c) = head_of s \/ S (S c) = body_of s \/ S (S c) = end_of s) by (unfold head_of, body_of, end_of; lia).
  destruct Hcase as [E|[E|E]]; rewrite E in *; [left|right; left|right; right].
  - rewrite (em_head _ _ _ He s st Hst) in Hk. split; congruence.
  - rewrite (em_body _ _ _ He s st Hst) in Hk. split; congruence.
  - rewrite (em_end _ _ _ He s st Hst) in Hk. split; congruence.
Qed.

(** *** Operands and types *)

Lemma operand_lt v : (v < next_value_id f)%N -> operand_ok f v.
Proof.
  intros Hv. destruct (N.eq_dec v 0%N) as [->|Hnz]; [by left|]. right.
  rewrite !s32_small by lia. split; [lia|]. eapply kind_not_null, Hkinds. lia.
Qed.

Lemma val_lt s st k : dstates dfa !! s = Some st -> (k < 9)%N -> (val_of s k < next_value_id f)%N.
Proof. intros Hs Hk. apply lookup_lt_Some in Hs. rewrite (mt_next _ _ _ Hm). unfold val_of. lia. Qed.

Lemma first_lt v : (v < 6)%N -> (v < next_value_id f)%N.
Proof. intros Hv. rewrite (mt_next _ _ _ Hm). unfold val_of. lia. Qed.

(** What the verifier asks of one instruction, by its key. *)
Definition key_ok (x : MirInstKind * MirValueId) : Prop := Forall (operand_ok f) (verify_operands x.1) /\ types_ok tc f x.1.

Lemma inst_key_ok blk : Forall key_ok (map key (insts blk)) -> Forall (inst_ok tc f) (insts blk).
Proof. rewrite List.Forall_map. done. Qed.

Lemma int_kind v k : (0 < v < next_value_id f)%N -> KT v = k -> k = MIR_TYPE_I64 -> mir_type_is_integer tc (mir_function_value_type f v) = true.
Proof. intros Hv E1 E2. pose proof (Hkinds v Hv) as H. unfold kind_in in H. unfold mir_type_is_integer. by rewrite H, E1, E2. Qed.

(** Each operand is a value of the state, one of the first five, or none. *)
Ltac known_operand Hs := first [by left|by apply operand_lt, first_lt|by apply operand_lt; eapply val_lt; [exact Hs|]].
Ltac known_key Hs := split; [cbn [fst verify_operands]; repeat (apply list.Forall_cons; split; [known_operand Hs|]); by apply list.Forall_nil|try done].

Lemma add_types s st : dstates dfa !! s = Some st -> types_ok tc f (BINARY MIR_ADD (val_of s 2) (val_of s 6)).
Proof.
  intros Hs _ _. split; [|unfold float_opcode; set_solver]. intros _.
  assert (Hk : forall k, (k < 9)%N -> state_kind k = MIR_TYPE_I64 -> mir_type_is_integer tc (mir_function_value_type f (val_of s k)) = true).
  { intros k Hk E. apply (int_kind _ (state_kind k)); [split; [unfold val_of; lia|by eapply val_lt]|by apply (KT_at s k)|done]. }
  split; by apply Hk.
Qed.

Lemma cmp_types v w : types_ok tc f (BINARY MIR_CMP_GE v w).
Proof. intros _ _. unfold int_opcode, float_opcode. split; set_solver. Qed.

Lemma dispatch_key s st : dstates dfa !! s = Some st -> key_ok (dispatch s st, 0%N).
Proof. intros Hs. unfold dispatch. destruct (cases_from 0 (trans st)); known_key Hs. Qed.

Lemma code_keys_ok c ks : block_code c ks -> Forall key_ok ks.
Proof.
  intros [[-> ->]|[[-> ->]|(s & st & Hs & [[-> ->]|[[-> ->]|[-> ->]]])]];
    repeat (apply list.Forall_cons; split; [|]); try (by apply list.Forall_nil); try (by eapply dispatch_key);
    first [known_key Hs|known_key Hne]; [apply cmp_types|by eapply add_types].
Qed.

(** *** Shape *)

Lemma shape_of blk ks x : map key (insts blk) = ks ++ [x] ->
  Forall (fun y => is_phi y.1 = false /\ is_terminator y.1 = false) ks -> is_terminator x.1 = true -> shape_ok blk.
Proof.
  intros Hk Hf Ht. apply map_eq_app in Hk as (l1 & l2 & Hi & H1 & H2).
  destruct l2 as [|i [|? ?]]; try done. injection H2 as <-. exists [], l1, i. split; [done|]. split; [constructor|]. split; [|done].
  rewrite <- H1 in Hf. by apply List.Forall_map in Hf.
Qed.

Lemma dispatch_term s st : is_terminator (dispatch s st) = true.
Proof. unfold dispatch. by destruct (cases_from 0 (trans st)). Qed.

Lemma code_shape c blk : block_code c (map key (insts blk)) -> shape_ok blk.
Proof.
  intros [[_ E]|[[_ E]|(s & st & Hs & [[_ E]|[[_ E]|[_ E]]])]].
  - apply (shape_of blk (take 3 (entry_code i64t)) (BR (Some (head_of 0)), 0%N)); [exact E|repeat constructor|reflexivity].
  - apply (shape_of blk (take 1 reject_code) (RET 5, 0%N)); [exact E|repeat constructor|reflexivity].
  - apply (shape_of blk (take 2 (head_code s)) (CONDBR (val_of s 1) (Some (end_of s)) (Some (body_of s)), 0%N)); [exact E|repeat constructor|reflexivity].
  - apply (shape_of blk (take 7 (body_code i64t s st)) (dispatch s st, 0%N)); [exact E|repeat constructor|apply dispatch_term].
  - apply (shape_of blk (take 1 (end_code s st)) (RET (val_of s 8), 0%N)); [exact E|repeat constructor|reflexivity].
Qed.

(** *** Edges *)

Definition key_targets (ks : list (MirInstKind * MirValueId)) : list nat := concat (map (fun x => targets x.1) ks).

Lemma block_targets_key blk : block_targets blk = key_targets (map key (insts blk)).
Proof. unfold block_targets, key_targets. by rewrite map_map. Qed.

Lemma dispatch_not_entry s st t : t ∈ targets (dispatch s st) -> t <> 0%nat.
Proof.
  unfold dispatch. intros Ht ->. destruct (cases_from 0 (trans st)) as [|x l] eqn:E; [by apply list_elem_of_singleton in Ht|].
  cbn [targets] in Ht. apply elem_of_app in Ht as [Ht|Ht%list_elem_of_singleton]; [|done]. rewrite <- E in Ht.
  apply list_elem_of_omap in Ht as ([c o] & Hin & Ho). cbn in Ho. subst o.
  destruct (cases_from_targets _ _ _ _ Hin) as (j & Hj & _). discriminate Hj.
Qed.

Lemma code_not_entry c ks t : block_code c ks -> t ∈ key_targets ks -> t <> 0%nat.
Proof.
  intros [[-> ->]|[[-> ->]|(s & st & Hs & [[-> ->]|[[-> ->]|[-> ->]]])]]; unfold key_targets; cbn [map concat app fst targets entry_code reject_code head_code end_code opt_list];
    unfold head_of, end_of, body_of; try (rewrite ?elem_of_cons, elem_of_nil; lia).
  cbn [body_code map concat app fst targets]. rewrite app_nil_r. apply dispatch_not_entry.
Qed.

Lemma in_block_list c : c ∈ block_list f <-> (c < length (blocks f))%nat.
Proof. destruct Hb as [<- [[L1 _ _ _ _ _ _ _] _]]. rewrite L1, elem_of_seq. lia. Qed.

Lemma entry_no_preds eb : block_at f 0 = Some eb -> predecessors eb = [].
Proof.
  intros He. destruct Hb as [Hf [[_ _ _ _ _ L6 L7 L8] _]]. rewrite Hf in *.
  destruct (predecessors eb) as [|s l] eqn:Ep; [done|]. exfalso.
  assert (Hs : s ∈ predecessors eb) by (rewrite Ep; by left).
  pose proof (L6 _ _ _ He Hs) as Hlt. apply block_at_lt in Hlt as [bs Hbs]. apply (L7 _ _ _ _ Hbs He) in Hs.
  apply (L8 _ _ _ Hbs) in Hs. rewrite block_targets_key in Hs. by apply (code_not_entry _ _ _ (block_cases _ _ Hbs)) in Hs.
Qed.

(** *** Reachability *)

Definition succs_of (k : MirInstKind) : list nat := mir_collect_term_succs (Some (mkInst k MIR_VALUE_NONE TY_NULL 0 0)) SUCC_CAP.

Lemma step_edge c ks x t : code_of f !! c = Some (ks ++ [x]) -> t ∈ succs_of x.1 -> reachable f 0 c -> reachable f 0 t.
Proof.
  intros Hc Ht Hr. eapply rtc_r; [exact Hr|]. unfold code_of in Hc. rewrite list_lookup_fmap in Hc. apply fmap_Some in Hc as (blk & Hblk & Hk).
  exists blk. split; [done|]. unfold block_last. symmetry in Hk. apply map_eq_app in Hk as (l1 & l2 & -> & _ & H2).
  destruct l2 as [|i [|? ?]]; try done. injection H2 as <-. rewrite last_snoc. unfold succs_of in Ht. cbn in Ht |- *. exact Ht.
Qed.

Lemma collect_all l : forall cap, (length l <= cap)%nat -> collect_cases cap l = omap (fun o : blockptr => o) l.
Proof.
  induction l as [|[t|] l IH]; intros cap Hl; cbn in Hl; [by destruct cap|destruct cap; [lia|]; cbn; f_equal; apply IH; lia|].
  destruct cap; [lia|]. cbn. apply IH. lia.
Qed.

(** With fewer than 64 cases the buffer holds every target. *)
Lemma dispatch_succs s st : dstates dfa !! s = Some st -> 1%nat ∈ succs_of (dispatch s st) /\
  forall t, Some t ∈ trans st -> head_of t ∈ succs_of (dispatch s st).
Proof.
  intros Hs. pose proof (Hcap s st Hs) as Hc. rewrite (so_ntrans _ _ (do_states _ _ Hd s st Hs)), <- (cases_from_length _ 0) in Hc.
  assert (Hin : forall l bv t, Some t ∈ l -> head_of t ∈ omap snd (cases_from bv l)).
  { induction l as [|[u|] l IH]; intros bv t Ht; [by apply elem_of_nil in Ht| |]; apply elem_of_cons in Ht as [Ht|Ht]; cbn.
    - injection Ht as ->. by left.
    - right. by apply IH.
    - done.
    - by apply IH. }
  specialize (Hin (trans st) 0). unfold dispatch. destruct (cases_from 0 (trans st)) as [|x l] eqn:E.
  - split; [by left|]. intros t Ht. by apply Hin, elem_of_nil in Ht.
  - unfold succs_of. cbn [mir_collect_term_succs fmap option_fmap option_map as_]. rewrite collect_all by (rewrite length_fmap; unfold SUCC_CAP; lia).
    rewrite omap_targets. assert (Hlt : (length (omap snd (x :: l)) < SUCC_CAP)%nat).
    { pose proof (omap_length_le (x :: l)). unfold SUCC_CAP. lia. }
    apply Nat.ltb_lt in Hlt. rewrite Hlt. split; [apply elem_of_app; right; by left|]. intros t Ht. apply elem_of_app. left. by apply Hin.
Qed.

Lemma reach_states s : (s < n)%nat -> reachable f 0 (head_of s) /\ reachable f 0 (body_of s) /\ reachable f 0 (end_of s).
Proof.
  pose proof (mt_code _ _ _ Hm) as He. induction s as [s IH] using (well_founded_induction lt_wf). intros Hs.
  destruct (lookup_lt_is_Some_2 _ _ Hs) as [st Hst].
  assert (Hh : reachable f 0 (head_of s)).
  { destruct s as [|s].
    - apply (step_edge 0 (take 3 (entry_code i64t)) (BR (Some (head_of 0)), 0%N)); [apply (em_entry _ _ _ He)|by left|apply rtc_refl].
    - destruct (do_linked _ _ Hd (S s)) as (i & si & bt & Hi & Hsi & Ht); [lia|]. destruct (IH i Hi) as (_ & Hbi & _); [by eapply lookup_lt_Some|].
      apply (step_edge (body_of i) (take 7 (body_code i64t i si)) (dispatch i si, 0%N)); [apply (em_body _ _ _ He i si Hsi)| |done].
      apply (dispatch_succs i si Hsi). by eapply list_elem_of_lookup_2. }
  split; [done|]. split;
    (eapply (step_edge (head_of s) (take 2 (head_code s)) (CONDBR (val_of s 1) (Some (end_of s)) (Some (body_of s)), 0%N));
      [apply (em_head _ _ _ He s st Hst)| |done]); [right; by left|by left].
Qed.

Lemma reach_all c : c ∈ block_list f -> reachable f 0 c.
Proof.
  intros Hc%in_block_list. rewrite <- code_of_length, (em_length _ _ _ (mt_code _ _ _ Hm)) in Hc.
  assert (Hpos : (0 < n)%nat) by (destruct (dstates dfa); [done|cbn; lia]).
  destruct c as [|[|c]]; [apply rtc_refl| |].
  - destruct (lookup_lt_is_Some_2 _ _ Hpos) as [st Hst]. destruct (reach_states 0 Hpos) as (_ & Hr & _).
    apply (step_edge (body_of 0) (take 7 (body_code i64t 0 st)) (dispatch 0 st, 0%N)); [apply (em_body _ _ _ (mt_code _ _ _ Hm) 0%nat st Hst)| |done].
    by apply dispatch_succs.
  - pose proof (Nat.div_mod_eq c 3) as Hq. pose proof (Nat.mod_upper_bound c 3 ltac:(lia)) as Hr.
    destruct (reach_states (c / 3)) as (H1 & H2 & H3); [unfold head_of in Hc; lia|].
    assert (Hcase : S (S c) = head_of (c / 3) \/ S (S c) = body_of (c / 3) \/ S (S c) = end_of (c / 3)) by (unfold head_of, body_of, end_of; lia).
    by destruct Hcase as [->|[->| ->]].
Qed.

Lemma matcher_well_formed : accepted tc f.
Proof.
  right. destruct (proj2 (block_at_lt f 0)) as [eb Heb].
  { rewrite <- code_of_length, (em_length _ _ _ (mt_code _ _ _ Hm)). unfold head_of. lia. }
  exists 0%nat, eb. split; [apply (mt_entry _ _ _ Hm)|]. split; [done|]. split; [by apply entry_no_preds|].
  intros c blk Hc Hblk. split; [|by apply reach_all]. pose proof (block_cases _ _ Hblk) as Hk. split.
  - by eapply code_shape.
  - by eapply inst_key_ok, code_keys_ok.
Qed.
End typed.

(** C32: Compiled patterns pass the verifier.  When a pattern parses, no state
    of its automaton has 64 or more transitions and the value numbers fit an
    [int], the function [mir_regex_compile] emits is accepted by
    [mir_verify_function]: every operand is a defined and typed value, the
    arithmetic is on integers, each block ends in its only terminator and is
    reachable, and the entry has no predecessor. *)
Theorem regex_emit_verifies m name p c tree fuel d
  (Hparse : parse_pattern p no_error = Ok (c, Some tree)) (Hfuel : (2 ^ nfa_size tree <= fuel)%nat)
  (Hdfa : nfa_to_dfa fuel (build_nfa tree) = Ok d) (Hvals : 9 * Z.of_nat (length (dstates d)) + 6 < 2 ^ 31)
  (Hcap : forall s st, dstates d !! s = Some st -> ntrans st < 64) :
  exists m' r f, mir_regex_compile fuel m name p = Ok (m', r) /\ r_func r = Some f /\ mir_verify_function (type_cache m') f = Ok 0.
Proof.
  destruct (dfa_accepts tree fuel [] Hfuel ltac:(constructor)) as (d' & Hd' & Hok & Hrun). rewrite Hdfa in Hd'. injection Hd' as <-.
  assert (Hne : dstates d <> []) by (intros E; destruct Hrun as [(j & s & _ & Hj & _)|[Hr _]]; [by rewrite E in Hj|done]).
  unfold mir_regex_compile. rewrite Hparse. cbn [obind snd]. rewrite Hdfa. cbn [obind].
  destruct (emit_mir_spec m name d (dfa_targets _ _ Hok) Hne) as (m' & f & i64t & -> & Hm & _ & _ & _ & (b & Hbf) & Hk); [unfold val_of; lia|].
  cbn [obind fst snd]. eexists m', _, f. split; [reflexivity|]. split; [done|].
  assert (Hsmall : Z.of_N (next_value_id f) < 2 ^ 31) by (rewrite (mt_next _ _ _ Hm); unfold val_of; lia).
  pose proof (matcher_well_formed _ _ _ _ _ _ Hm Hok Hne Hbf Hsmall Hk Hcap) as Hwf. destruct Hbf as [<- Hbb].
  destruct (built_wf b Hbb Hsmall) as (Hfw & _ & _).
  { rewrite (lay_count _ _ _ (built_layout _ _ Hbb)), <- code_of_length, (em_length _ _ _ (mt_code _ _ _ Hm)). unfold head_of. lia. }
  destruct (verify_function_iff (type_cache m') (b_func b) Hfw) as (k & -> & Hk0). by rewrite (proj2 Hk0 Hwf).
Qed.

(** The pattern [(a|b)*c] of seven NFA states. *)
Definition abc_tree : RegexNode :=
  R_CONCAT (R_STAR (R_ALT (R_CLASS (bs_add bs_clear 97)) (R_CLASS (bs_add bs_clear 98)))) (R_CLASS (bs_add bs_clear 99)).

Lemma abc_dfa : exists c d, parse_pattern (lit "(a|b)*c") no_error = Ok (c, Some abc_tree) /\
  nfa_to_dfa 64 (build_nfa abc_tree) = Ok d /\ length (dstates d) = 2%nat /\ forallb (fun st => ntrans st <? 64) (dstates d) = true.
Proof. eexists _, _. split; [vm_compute; reflexivity|]. split; [vm_compute; reflexivity|]. split; vm_compute; reflexivity. Qed.

Lemma regex_emit_verifies_witness : exists m' r f, mir_regex_compile 64 (mir_module_create "m") "re" (lit "(a|b)*c") = Ok (m', r) /\
  r_func r = Some f /\ mir_verify_function (type_cache m') f = Ok 0.
Proof.
  destruct abc_dfa as (c & d & Hp & Hd & Hl & Hf). apply (regex_emit_verifies _ _ _ c abc_tree 64 d Hp).
  - vm_compute. lia.
  - exact Hd.
  - rewrite Hl. reflexivity.
  - intros s st Hs. rewrite forallb_forall in Hf. apply Z.ltb_lt, Hf. apply list_elem_of_In. exact (list_elem_of_lookup_2 _ _ _ Hs).
Defined.

(** The function of [.*] is correct, but each of its states has 256
    transitions: the verifier never sees the edge to the block [reject]. *)
Lemma regex_dot_star_refused :
  match mir_regex_compile 64 (mir_module_create "m") "re" (lit ".*") with
  | Ok (m', r) => match r_func r with Some f => mir_verify_function (type_cache m') f = Ok 1 | None => False end
  | _ => False
  end.
Proof. vm_compute. reflexivity. Qed.
