(* ===== verification/Semver.v ===== *)
(** * Semantic versions

    [pkg/core/semver.c]: parsing and printing of versions, their comparison,
    constraint matching and the choice of the best version.  A [SemVer*] or a
    [char*] that may be null is an [option]; [Undef] marks what C leaves
    undefined: a null dereference, a signed overflow, a write past the end of
    a buffer. *)
From Stdlib Require Import Ascii.
From S2P Require Import Prelude CString.

Record SemVer := mkVer {
  major : Z; minor : Z; patch : Z; prerelease : option cstr; build : option cstr
}.

(** ** Parsing *)

(** The components a [sscanf] call assigns. *)
Definition assign (v : SemVer) (l : list Z) : SemVer :=
  mkVer (default (major v) (l !! 0%nat)) (default (minor v) (l !! 1%nat)) (default (patch v) (l !! 2%nat))
    (prerelease v) (build v).

Definition skip_v (s : cstr) : cstr :=
  match s with
  | c :: s' => if Ascii.eqb c "v" || Ascii.eqb c "V" then s' else s
  | [] => []
  end.

(** The three attempts; [None] when not even the major number is there. *)
Definition scan_numbers (s : cstr) : outcome (option SemVer) :=
  let! l := sscanf_dots 3 s in
  let ver := assign (mkVer 0 0 0 None None) l in
  if (length l <? 3)%nat then
    let! l := sscanf_dots 2 s in
    let ver := assign ver l in
    if (length l <? 2)%nat then
      let! l := sscanf_dots 1 s in
      let ver := assign ver l in
      if (length l <? 1)%nat then Ok None else Ok (Some ver)
    else Ok (Some ver)
  else Ok (Some ver).

(** The text between the dash and the plus; a plus before the dash gives
    [malloc] and [strncpy] a negative length. *)
Definition find_prerelease (s : cstr) : outcome (option cstr) :=
  match strchr s "-" with
  | None => Ok None
  | Some d =>
      let e := default (length s) (strchr s "+") in
      if (e <? d + 1)%nat then Undef else Ok (Some (take (e - d - 1) (drop (d + 1) s)))
  end.

Definition semver_parse (version_str : option cstr) : outcome (option SemVer) :=
  match version_str with
  | None => Ok None
  | Some str =>
      let s := skip_v str in
      let! ver := scan_numbers s in
      match ver with
      | None => Ok None
      | Some ver =>
          let! pre := find_prerelease s in
          let bld := (fun p => drop (p + 1) s) <$> strchr s "+" in
          Ok (Some (mkVer (major ver) (minor ver) (patch ver) pre bld))
      end
  end.

(** ** Printing *)

(** [char buf[256]]: at most 255 characters are kept. *)
Definition BUF : nat := 256.

(** [len += snprintf(buf + len, sizeof(buf) - len, ...)]: past the end of the
    buffer the size wraps around and the write is out of bounds. *)
Definition snprintf_at (buf : cstr) (len : nat) (s : cstr) : outcome cstr :=
  if (BUF <? len)%nat then Undef
  else if (len =? BUF)%nat then Ok buf
  else Ok (take len buf ++ take (BUF - len - 1) s).

Definition semver_to_string (ver : option SemVer) : outcome (option cstr) :=
  match ver with
  | None => Ok None
  | Some v =>
      let s := print_d (major v) ++ "."%char :: print_d (minor v) ++ "."%char :: print_d (patch v) in
      let! buf := snprintf_at [] 0 s in
      let len := length s in
      let! bl := match prerelease v with
                 | Some p => let! buf := snprintf_at buf len ("-"%char :: p) in
                             Ok (buf, (len + length ("-"%char :: p))%nat)
                 | None => Ok (buf, len)
                 end in
      let! buf := match build v with
                  | Some b => snprintf_at bl.1 bl.2 ("+"%char :: b)
                  | None => Ok bl.1
                  end in
      Ok (Some buf)
  end.

(** ** Comparison *)

Definition semver_compare (a b : option SemVer) : outcome Z :=
  match a, b with
  | Some a, Some b =>
      if negb (major a =? major b) then of_option (sint32 (major a - major b))
      else if negb (minor a =? minor b) then of_option (sint32 (minor a - minor b))
      else if negb (patch a =? patch b) then of_option (sint32 (patch a - patch b))
      else match prerelease a, prerelease b with
           | None, None => Ok 0
           | None, Some _ => Ok 1
           | Some _, None => Ok (-1)
           | Some p, Some q => Ok (strcmp p q)
           end
  | _, _ => Ok 0
  end.

Definition semver_equals (a b : option SemVer) : outcome bool :=
  let! c := semver_compare a b in Ok (c =? 0).

(** ** Constraints *)

Definition satisfies_caret (ver : SemVer) (base : option SemVer) : outcome bool :=
  let! b := of_option base in
  if negb (major ver =? major b) then Ok false
  else if 0 <? major b then
    let! c := semver_compare (Some ver) base in Ok ((0 <=? c) && (major ver =? major b))
  else if 0 <? minor b then
    let! c := semver_compare (Some ver) base in
    Ok ((0 <=? c) && (major ver =? 0) && (minor ver =? minor b))
  else semver_equals (Some ver) base.

Definition satisfies_tilde (ver : SemVer) (base : option SemVer) : outcome bool :=
  let! b := of_option base in
  if negb (major ver =? major b) then Ok false
  else if negb (minor ver =? minor b) then Ok false
  else let! c := semver_compare (Some ver) base in Ok (0 <=? c).

Definition is_x (c : ascii) : bool := Ascii.eqb c "x" || Ascii.eqb c "X".

(** The wildcard case; [strchr(constraint, 'x') - constraint] subtracts from a
    null pointer when only capitals occur. *)
Definition satisfies_wildcard (ver : SemVer) (constraint : cstr) : outcome bool :=
  let buf := map (fun c => if is_x c then "0"%char else c) (take 63 constraint) in
  let! base := semver_parse (Some buf) in
  let! pos := of_option (strchr constraint "x") in
  if (pos <? 2)%nat then Ok true
  else
    let! b := of_option base in
    if (pos <? 4)%nat then Ok (major ver =? major b)
    else Ok ((major ver =? major b) && (minor ver =? minor b)).

(** A comparison operator applied to the rest of the constraint. *)
Definition compare_with (ver : SemVer) (test : Z -> bool) (s : cstr) : outcome bool :=
  let! base := semver_parse (Some s) in
  let! c := semver_compare (Some ver) base in Ok (test c).

Definition semver_satisfies (version : option SemVer) (constraint : option cstr) : outcome bool :=
  match version, constraint with
  | Some ver, Some str =>
      if strcmp str (lit "*") =? 0 then Ok true
      else
        let c := skip_space str in
        if has_prefix (lit "^") c then
          let! base := semver_parse (Some (drop 1 c)) in satisfies_caret ver base
        else if has_prefix (lit "~") c then
          let! base := semver_parse (Some (drop 1 c)) in satisfies_tilde ver base
        else if has_prefix (lit ">=") c then compare_with ver (fun r => 0 <=? r) (drop 2 c)
        else if has_prefix (lit ">") c then compare_with ver (fun r => 0 <? r) (drop 1 c)
        else if has_prefix (lit "<=") c then compare_with ver (fun r => r <=? 0) (drop 2 c)
        else if has_prefix (lit "<") c then compare_with ver (fun r => r <? 0) (drop 1 c)
        else if opt_bool (strchr c "x") || opt_bool (strchr c "X") then satisfies_wildcard ver c
        else let! base := semver_parse (Some c) in semver_equals (Some ver) base
  | _, _ => Ok false
  end.

(** The loop of [semver_max_satisfying], from index [i]. *)
Fixpoint max_loop (versions : list (option SemVer)) (constraint : option cstr) (count i : nat) (best : Z)
  : outcome Z :=
  match count with
  | O => Ok best
  | S count =>
      let! v := of_option (versions !! i) in
      let! sat := semver_satisfies v constraint in
      if negb sat then max_loop versions constraint count (S i) best
      else if best =? -1 then max_loop versions constraint count (S i) (Z.of_nat i)
      else
        let! bv := of_option (versions !! Z.to_nat best) in
        let! c := semver_compare v bv in
        max_loop versions constraint count (S i) (if 0 <? c then Z.of_nat i else best)
  end.

Definition semver_max_satisfying (versions : list (option SemVer)) (count : nat) (constraint : option cstr)
  : outcome Z := max_loop versions constraint count 0 (-1).

(** ** Round trip *)

Definition num_ok (n : Z) : Prop := 0 <= n <= INT32_MAX.
Record ver_ok (v : SemVer) : Prop := {
  vo_major : num_ok (major v); vo_minor : num_ok (minor v); vo_patch : num_ok (patch v)
}.

Definition numbers (v : SemVer) : cstr :=
  print_d (major v) ++ "."%char :: print_d (minor v) ++ "."%char :: print_d (patch v).
Definition tag (c : ascii) (o : option cstr) : cstr := match o with Some s => c :: s | None => [] end.
Definition version_text (v : SemVer) : cstr := numbers v ++ tag "-" (prerelease v) ++ tag "+" (build v).

(** What can be told apart again: no [+] in the prerelease, and a build tag
    with a dash only behind a prerelease. *)
Record tags_ok (v : SemVer) : Prop := {
  to_pre : forall p, prerelease v = Some p -> strchr p "+" = None;
  to_build : prerelease v = None -> forall b, build v = Some b -> strchr b "-" = None
}.

Lemma numbers_length v : ver_ok v -> (5 <= length (numbers v) <= 32)%nat.
Proof.
  intros [Ha Hb Hc]. unfold numbers. repeat (rewrite length_app; simpl).
  destruct (print_d_digits _ Ha) as (_ & (x & l & ->) & Hla), (print_d_digits _ Hb) as (_ & (y & l' & ->) & Hlb),
    (print_d_digits _ Hc) as (_ & (z & l'' & ->) & Hlc). simpl in *. lia.
Qed.

(** Digits and dots only. *)
Lemma numbers_chars v c :
  ver_ok v -> byte c < 46 \/ 57 < byte c -> strchr (numbers v) c = None.
Proof.
  intros [Ha Hb Hc] Hr. apply find_idx_None. intros x Hx.
  assert (Hne : 46 <= byte x <= 57 -> Ascii.eqb c x = false)
    by (intros H; apply Ascii.eqb_neq; intros ->; lia).
  apply Hne. clear Hne. unfold numbers in Hx.
  assert (Hdig : forall n, num_ok n -> x ∈ print_d n -> 46 <= byte x <= 57).
  { intros n Hn Hin. destruct (print_d_digits n Hn) as [Hall _]. rewrite List.Forall_forall in Hall.
    apply list_elem_of_In, Hall in Hin. unfold is_digit in Hin. lia. }
  rewrite elem_of_app, elem_of_cons, elem_of_app, elem_of_cons in Hx.
  destruct Hx as [Hx | [-> | [Hx | [-> | Hx]]]]; try (by eapply Hdig; [|exact Hx]); by vm_compute.
Qed.

Lemma strchr_app_None s r c : strchr s c = None -> strchr (s ++ r) c = (fun i => (length s + i)%nat) <$> strchr r c.
Proof. apply find_idx_app_None. Qed.

Lemma strchr_cons s c x : Ascii.eqb c x = false -> strchr (x :: s) c = S <$> strchr s c.
Proof. intros H. unfold strchr. simpl. by rewrite H. Qed.

Lemma to_string_text v :
  ver_ok v -> (length (version_text v) < BUF)%nat ->
  semver_to_string (Some v) = Ok (Some (version_text v)).
Proof.
  intros Hv. pose proof (numbers_length v Hv) as Hl. unfold version_text, semver_to_string.
  fold (numbers v). rewrite !length_app. intros Hlt. unfold BUF in *.
  assert (Hs : forall buf s, (length buf + length s < 256)%nat -> snprintf_at buf (length buf) s = Ok (buf ++ s)).
  { intros buf s Hb. unfold snprintf_at, BUF. rewrite (proj2 (Nat.ltb_ge _ _)), (proj2 (Nat.eqb_neq _ _)) by lia.
    by rewrite firstn_all, take_ge by lia. }
  rewrite (Hs []) by (simpl; lia). cbn [obind app].
  destruct (prerelease v) as [p|]; cbn [tag] in *.
  - rewrite Hs by (simpl in *; lia). cbn [obind fst snd].
    rewrite <- length_app. destruct (build v) as [b|]; cbn [tag] in *.
    + rewrite Hs by (rewrite length_app; simpl in *; lia). by rewrite <- app_assoc.
    + by rewrite app_nil_r.
  - cbn [obind fst snd]. destruct (build v) as [b|]; cbn [tag] in *.
    + by rewrite Hs by (simpl in *; lia).
    + by rewrite !app_nil_r.
Qed.

Lemma skip_v_numbers v r : ver_ok v -> skip_v (numbers v ++ r) = numbers v ++ r.
Proof.
  intros [Ha _ _]. unfold numbers. destruct (print_d_digits _ Ha) as (Hd & (c & l & Hc) & _).
  rewrite Hc in *. apply Forall_cons_1 in Hd as [Hc' _]. simpl.
  assert (Hn : forall x, is_digit x = false -> Ascii.eqb c x = false)
    by (intros x Hx; apply Ascii.eqb_neq; intros ->; congruence).
  by rewrite !Hn.
Qed.

Lemma parse_text v :
  ver_ok v -> tags_ok v -> semver_parse (Some (version_text v)) = Ok (Some v).
Proof.
  intros Hv [Hp Hb]. unfold semver_parse, version_text. rewrite skip_v_numbers by done.
  set (tl := tag "-" (prerelease v) ++ tag "+" (build v)).
  assert (Hst : stops tl) by (subst tl; by destruct (prerelease v), (build v)).
  assert (Hnum : scan_numbers (numbers v ++ tl) =
    Ok (Some (mkVer (major v) (minor v) (patch v) None None))).
  { unfold scan_numbers, numbers. rewrite <- !app_assoc. simpl. rewrite <- !app_assoc. simpl.
    destruct Hv. by rewrite scan_dots_print by done. }
  rewrite Hnum. cbn [obind]. clear Hnum.
  assert (Hd : strchr (numbers v ++ tl) "-" = (fun i => (length (numbers v) + i)%nat) <$> strchr tl "-")
    by (apply strchr_app_None, numbers_chars; [done|left; by vm_compute]).
  assert (Hpl : strchr (numbers v ++ tl) "+" = (fun i => (length (numbers v) + i)%nat) <$> strchr tl "+")
    by (apply strchr_app_None, numbers_chars; [done|left; by vm_compute]).
  unfold find_prerelease. rewrite Hd, Hpl. destruct v as [ma mi pa pre bld]. cbn [major minor patch prerelease build] in *.
  set (n := numbers _) in *.
  assert (Hdrop : forall k, drop (length n + k) (n ++ tl) = drop k tl).
  { intros k. rewrite drop_app_ge by lia. f_equal. lia. }
  assert (Hpp : forall p, pre = Some p ->
    strchr tl "-" = Some 0%nat /\ strchr tl "+" = (fun i => S (length p + i)) <$> strchr (tag "+" bld) "+").
  { intros p ->. subst tl. split; [done|]. cbn [tag app strchr find_idx]. simpl.
    fold (strchr (p ++ tag "+" bld) "+"). rewrite (strchr_app_None p _ _ (Hp p eq_refl)).
    by destruct (strchr (tag "+" bld) "+"). }
  destruct pre as [p|].
  - destruct (Hpp p eq_refl) as [-> ->]. cbn [fmap option_fmap option_map]. destruct bld as [b|]; simpl.
    + match goal with |- context [(?a <? ?b)%nat] => destruct (Nat.ltb_spec a b); [lia|] end. cbn [obind].
      rewrite <- !Nat.add_assoc, !Hdrop. subst tl. simpl.
      replace (length n + S (length p + 0) - (length n + 0) - 1)%nat with (length p) by lia.
      rewrite drop_0, take_app_length. rewrite drop_app_ge by lia.
      by replace (length p + 0 + 1 - length p)%nat with 1%nat by lia.
    + subst tl. rewrite !length_app. simpl. rewrite app_nil_r.
      match goal with |- context [(?a <? ?b)%nat] => destruct (Nat.ltb_spec a b); [lia|] end. cbn [obind].
      rewrite <- !Nat.add_assoc. rewrite app_nil_r in Hdrop. rewrite Hdrop. simpl.
      rewrite drop_0. by rewrite take_ge by lia.
  - subst tl. cbn [tag app] in *. destruct bld as [b|]; cbn [tag] in *.
    + rewrite strchr_cons, (Hb eq_refl b eq_refl) by done. simpl.
      rewrite <- !Nat.add_assoc. by rewrite Hdrop.
    + done.
Qed.

(** Printing and parsing are inverse: a version with non-negative
    components whose tags can be told apart and whose text fits the 256-byte
    buffer is read back exactly. *)
Theorem semver_roundtrip v (Hv : ver_ok v) (Ht : tags_ok v) (Hl : (length (version_text v) < BUF)%nat) :
  exists s, semver_to_string (Some v) = Ok (Some s) /\ semver_parse (Some s) = Ok (Some v).
Proof. exists (version_text v). split; [by apply to_string_text|by apply parse_text]. Qed.

Definition ex_version : SemVer := mkVer 1 20 345 (Some (lit "alpha-1.x")) (Some (lit "2013-a")).

Lemma semver_roundtrip_witness :
  exists s, semver_to_string (Some ex_version) = Ok (Some s) /\ s = lit "1.20.345-alpha-1.x+2013-a" /\
    semver_parse (Some s) = Ok (Some ex_version).
Proof.
  destruct (semver_roundtrip ex_version) as (s & Hs & Hp).
  - by split; vm_compute.
  - split; [intros p [= <-]; reflexivity|discriminate].
  - apply (bool_decide_unpack _). reflexivity.
  - exists s. split; [exact Hs|]. split; [|exact Hp]. vm_compute in Hs. by injection Hs as <-.
Defined.

(** ** The order on versions *)

(** The comparison without the machine: the lexicographic order of the
    numbers, then a release after its prereleases, then [strcmp]. *)
Definition pre_cmp (p q : option cstr) : Z :=
  match p, q with
  | None, None => 0
  | None, Some _ => 1
  | Some _, None => -1
  | Some p, Some q => strcmp p q
  end.

Definition ver_cmp (a b : SemVer) : Z :=
  if negb (major a =? major b) then major a - major b
  else if negb (minor a =? minor b) then minor a - minor b
  else if negb (patch a =? patch b) then patch a - patch b
  else pre_cmp (prerelease a) (prerelease b).

Lemma compare_ok a b : ver_ok a -> ver_ok b -> semver_compare (Some a) (Some b) = Ok (ver_cmp a b).
Proof.
  intros [Ha1 Ha2 Ha3] [Hb1 Hb2 Hb3]. unfold num_ok in *. unfold semver_compare, ver_cmp.
  assert (Hs : forall x y, 0 <= x <= INT32_MAX -> 0 <= y <= INT32_MAX -> of_option (sint32 (x - y)) = Ok (x - y)).
  { intros x y Hx Hy. unfold sint32, in_s32, INT32_MIN, INT32_MAX in *.
    by rewrite !(proj2 (Z.leb_le _ _)) by lia. }
  rewrite !Hs by done. unfold pre_cmp.
  destruct (major a =? major b); [|done]. destruct (minor a =? minor b); [|done].
  destruct (patch a =? patch b); [|done]. by destruct (prerelease a), (prerelease b).
Qed.

Lemma pre_cmp_antisym p q : pre_cmp q p = - pre_cmp p q.
Proof. destruct p, q; simpl; try done. apply strcmp_antisym. Qed.

Lemma pre_cmp_eq p q : pre_cmp p q = 0 <-> p = q.
Proof. destruct p, q; simpl; try done. rewrite strcmp_eq. split; [by intros ->|by intros [= ->]]. Qed.

Lemma pre_cmp_trans p q r : pre_cmp p q <= 0 -> pre_cmp q r <= 0 -> pre_cmp p r <= 0.
Proof. destruct p, q, r; simpl; try lia. apply strcmp_trans. Qed.

(** [lia] on comparisons of the three numbers. *)
Ltac ver_cases := unfold ver_cmp; repeat match goal with |- context [?x =? ?y] => destruct (Z.eqb_spec x y); simpl end.

Lemma ver_cmp_antisym a b : ver_cmp b a = - ver_cmp a b.
Proof. ver_cases; try lia. apply pre_cmp_antisym. Qed.

Lemma ver_cmp_trans a b c : ver_cmp a b <= 0 -> ver_cmp b c <= 0 -> ver_cmp a c <= 0.
Proof. ver_cases; try lia. apply pre_cmp_trans. Qed.

Lemma ver_cmp_eq a b :
  ver_cmp a b = 0 <->
  major a = major b /\ minor a = minor b /\ patch a = patch b /\ prerelease a = prerelease b.
Proof.
  ver_cases; try (split; [lia|intros (? & ? & ? & _); lia]).
  rewrite pre_cmp_eq. tauto.
Qed.

(** On versions with non-negative components the comparison is defined
    (no signed overflow) and a total preorder: its sign is reversed when the
    arguments are, it is transitive, and it is 0 exactly when everything but
    the build tag agrees. *)
Theorem semver_compare_preorder a b c (Ha : ver_ok a) (Hb : ver_ok b) (Hc : ver_ok c) :
  exists ab ba bc ac,
    semver_compare (Some a) (Some b) = Ok ab /\ semver_compare (Some b) (Some a) = Ok ba /\
    semver_compare (Some b) (Some c) = Ok bc /\ semver_compare (Some a) (Some c) = Ok ac /\
    ba = - ab /\ (ab <= 0 -> bc <= 0 -> ac <= 0) /\
    (ab = 0 <-> major a = major b /\ minor a = minor b /\ patch a = patch b /\ prerelease a = prerelease b).
Proof.
  exists (ver_cmp a b), (ver_cmp b a), (ver_cmp b c), (ver_cmp a c). rewrite !compare_ok by done.
  split_and!; try done; [apply ver_cmp_antisym|apply ver_cmp_trans|apply ver_cmp_eq].
Qed.

Lemma semver_compare_preorder_witness :
  semver_compare (Some (mkVer 1 0 0 (Some (lit "rc")) None)) (Some (mkVer 1 0 0 None None)) = Ok (-1) /\
  exists ac, semver_compare (Some (mkVer 1 0 0 (Some (lit "rc")) None)) (Some (mkVer 1 2 0 None None)) = Ok ac /\ ac <= 0.
Proof.
  destruct (semver_compare_preorder (mkVer 1 0 0 (Some (lit "rc")) None) (mkVer 1 0 0 None None)
    (mkVer 1 2 0 None None)) as (ab & ba & bc & ac & Hab & _ & Hbc & Hac & _ & Htr & _);
    try (by split; vm_compute).
  split; [reflexivity|]. exists ac. split; [exact Hac|].
  vm_compute in Hab, Hbc. injection Hab as <-. injection Hbc as <-. apply Htr; lia.
Defined.

(** ** Constraints *)

(** The documented meaning of a constraint with base [b]. *)
Inductive op := OpCaret | OpTilde | OpGe | OpGt | OpLe | OpLt | OpExact.

Definition op_text (o : op) : cstr :=
  lit match o with
      | OpCaret => "^" | OpTilde => "~" | OpGe => ">=" | OpGt => ">"
      | OpLe => "<=" | OpLt => "<" | OpExact => ""
      end.

Definition in_range (o : op) (b v : SemVer) : Prop :=
  match o with
  | OpCaret => 0 <= ver_cmp v b /\
      (if 0 <? major b then major v = major b
       else major v = major b /\ if 0 <? minor b then minor v = minor b else ver_cmp v b = 0)
  | OpTilde => 0 <= ver_cmp v b /\ major v = major b /\ minor v = minor b
  | OpGe => 0 <= ver_cmp v b
  | OpGt => 0 < ver_cmp v b
  | OpLe => ver_cmp v b <= 0
  | OpLt => ver_cmp v b < 0
  | OpExact => ver_cmp v b = 0
  end.

(** A version text that starts like a number and has no wildcard. *)
Definition plain (s : cstr) : Prop :=
  (exists c r, s = c :: r /\ is_digit c = true) /\ strchr s "x" = None /\ strchr s "X" = None.

Lemma skip_space_all sp s :
  Forall (fun c => isspace c = true) sp -> (exists c r, s = c :: r /\ isspace c = false) ->
  skip_space (sp ++ s) = s.
Proof.
  intros Hsp (c & r & -> & Hc). induction Hsp as [|x sp Hx _ IH]; simpl; [by rewrite Hc|]. by rewrite Hx.
Qed.

Lemma digit_not_op c o : is_digit c = true -> byte o < 48 \/ 57 < byte o -> Ascii.eqb o c = false.
Proof. intros Hc Ho. apply Ascii.eqb_neq. intros ->. unfold is_digit in Hc. lia. Qed.

(** After the operator, the base is parsed and compared. *)
Lemma satisfies_cases o sp s v :
  Forall (fun c => isspace c = true) sp -> plain s -> sp ++ op_text o ++ s <> lit "*" ->
  semver_satisfies (Some v) (Some (sp ++ op_text o ++ s)) =
    let! base := semver_parse (Some s) in
    match o with
    | OpCaret => satisfies_caret v base
    | OpTilde => satisfies_tilde v base
    | OpGe => let! r := semver_compare (Some v) base in Ok (0 <=? r)
    | OpGt => let! r := semver_compare (Some v) base in Ok (0 <? r)
    | OpLe => let! r := semver_compare (Some v) base in Ok (r <=? 0)
    | OpLt => let! r := semver_compare (Some v) base in Ok (r <? 0)
    | OpExact => semver_equals (Some v) base
    end.
Proof.
  intros Hsp ((c & r & -> & Hc) & Hx & HX) Hstar. unfold semver_satisfies.
  rewrite (proj2 (Z.eqb_neq _ 0)) by (rewrite strcmp_eq; done).
  destruct (digit_plain c Hc) as (Hns & _).
  assert (Hd : forall x, byte x < 48 \/ 57 < byte x -> Ascii.eqb x c = false) by (intros x; by apply digit_not_op).
  rewrite skip_space_all; [|done|destruct o; by eexists _, _].
  destruct o; try reflexivity.
  - unfold op_text, lit. cbn [String.list_ascii_of_string app has_prefix].
    rewrite (Hd "="%char) by (right; by vm_compute). reflexivity.
  - unfold op_text, lit. cbn [String.list_ascii_of_string app has_prefix].
    rewrite (Hd "="%char) by (right; by vm_compute). reflexivity.
  - unfold op_text, lit. cbn [String.list_ascii_of_string app has_prefix].
    rewrite (Hd "^"%char), (Hd "~"%char), (Hd ">"%char), (Hd "<"%char) by (right; by vm_compute).
    by rewrite Hx, HX.
Qed.

(** A constraint [op version] selects exactly the documented range.  For
    every operator, after any leading blanks, with a base that parses: [^] is
    from the base up to the next major version (the next minor one for 0.y.z,
    the base itself for 0.0.z), [~] up to the next minor version, the
    comparison operators the order, and a bare version equality. *)
Theorem semver_satisfies_range o sp s v b
    (Hsp : Forall (fun c => isspace c = true) sp) (Hs : plain s)
    (Hb : semver_parse (Some s) = Ok (Some b)) (Hbok : ver_ok b) (Hv : ver_ok v) :
  exists r, semver_satisfies (Some v) (Some (sp ++ op_text o ++ s)) = Ok r /\ (r = true <-> in_range o b v).
Proof.
  assert (Hstar : sp ++ op_text o ++ s <> lit "*").
  { destruct Hs as ((c & r & -> & Hc) & _). intros He. destruct sp as [|x sp].
    - destruct o; simpl in He; try discriminate. injection He as -> _. discriminate Hc.
    - injection He as -> He. apply Forall_cons_1 in Hsp as [Hx _]. discriminate Hx. }
  rewrite satisfies_cases by done. rewrite Hb. cbn [obind].
  unfold satisfies_caret, satisfies_tilde, semver_equals. cbn [of_option obind].
  rewrite compare_ok by done. cbn [obind].
  destruct o; simpl; try (eexists; split; [reflexivity|]; lia).
  - destruct (Z.eqb_spec (major v) (major b)); simpl.
    + destruct (Z.ltb_spec 0 (major b)); [eexists; split; [reflexivity|]; lia|].
      destruct (Z.ltb_spec 0 (minor b)); eexists; (split; [reflexivity|]); [|lia].
      pose proof (vo_major _ Hbok). unfold num_ok in *. lia.
    + eexists. split; [reflexivity|]. destruct (0 <? major b); [lia|]. split; [done|]. intros (_ & ? & _). lia.
  - destruct (Z.eqb_spec (major v) (major b)), (Z.eqb_spec (minor v) (minor b)); simpl;
      eexists; (split; [reflexivity|]); lia.
Qed.

Lemma semver_satisfies_range_witness :
  semver_satisfies (Some (mkVer 1 9 0 None None)) (Some (lit "  ^1.2.3")) = Ok true /\
  in_range OpCaret (mkVer 1 2 3 None None) (mkVer 1 9 0 None None).
Proof.
  destruct (semver_satisfies_range OpCaret (lit "  ") (lit "1.2.3") (mkVer 1 9 0 None None)
              (mkVer 1 2 3 None None)) as (r & Hr & Hin).
  - repeat constructor.
  - split; [|by split]. by eexists _, _.
  - reflexivity.
  - by split; vm_compute.
  - by split; vm_compute.
  - split.
    + etransitivity; [exact Hr|]. vm_compute in Hr. by injection Hr as <-.
    + apply Hin. vm_compute in Hr. by injection Hr as <-.
Defined.

(** ** The best version *)

#[local] Arguments semver_compare : simpl never.
#[local] Arguments semver_parse : simpl never.

Lemma max_loop_spec (l : list SemVer) constraint n i best (sat : nat -> bool) :
  Forall ver_ok l -> (i + n = length l)%nat ->
  (forall j v, l !! j = Some v -> semver_satisfies (Some v) constraint = Ok (sat j)) ->
  (best = -1 /\ (forall j, (j < i)%nat -> sat j = false) \/
   exists b v, best = Z.of_nat b /\ (b < i)%nat /\ l !! b = Some v /\ sat b = true /\
     forall j w, (j < i)%nat -> l !! j = Some w -> sat j = true ->
       ver_cmp w v <= 0 /\ ((j < b)%nat -> ver_cmp w v < 0)) ->
  exists r, max_loop (Some <$> l) constraint n i best = Ok r /\
    (r = -1 /\ (forall j, (j < length l)%nat -> sat j = false) \/
     exists b v, r = Z.of_nat b /\ l !! b = Some v /\ sat b = true /\
       forall j w, l !! j = Some w -> sat j = true ->
         ver_cmp w v <= 0 /\ ((j < b)%nat -> ver_cmp w v < 0)).
Proof.
  intros Hok. revert i best. induction n as [|n IH]; intros i best Hlen Hsat Hinv; simpl.
  { exists best. split; [done|]. rewrite Nat.add_0_r in Hlen. subst i.
    destruct Hinv as [? | (b & v & -> & Hb & Hv & Hsb & Hmax)]; [by left|right].
    exists b, v. split_and!; try done. intros j w Hj. apply Hmax; [|done]. by eapply lookup_lt_Some. }
  destruct (lookup_lt_is_Some_2 l i) as [v Hv]; [lia|].
  rewrite list_lookup_fmap, Hv. cbn [fmap option_fmap option_map of_option obind].
  rewrite (Hsat i v Hv). cbn [obind].
  assert (Hvok : ver_ok v) by (by eapply Forall_lookup_1).
  assert (Hstep : forall j, (j < S i)%nat -> (j < i)%nat \/ j = i) by (intros; lia).
  destruct (sat i) eqn:Hs; simpl.
  - destruct Hinv as [[-> Hnone] | (b & u & -> & Hb & Hu & Hsb & Hmax)].
    + rewrite Z.eqb_refl. apply IH; [lia|done|]. right. exists i, v. split_and!; [done|lia|done|done|].
      intros j w Hj Hw Hsj. destruct (Hstep j Hj) as [Hji | ->]; [by rewrite Hnone in Hsj|].
      simplify_eq. rewrite (proj2 (ver_cmp_eq v v)) by done. lia.
    + rewrite (proj2 (Z.eqb_neq _ _)) by lia. rewrite Nat2Z.id, list_lookup_fmap, Hu.
      cbn [fmap option_fmap option_map of_option obind].
      rewrite compare_ok by (done || by eapply Forall_lookup_1). cbn [obind].
      destruct (Z.ltb_spec 0 (ver_cmp v u)) as [Hgt|Hle]; (apply IH; [lia|done|]; right).
      * exists i, v. split_and!; [done|lia|done|done|]. intros j w Hj Hw Hsj.
        destruct (Hstep j Hj) as [Hji | ->].
        -- destruct (Hmax j w Hji Hw Hsj) as [Hwu _]. pose proof (ver_cmp_antisym u v) as Ha.
           pose proof (ver_cmp_trans v w u) as Ht. pose proof (ver_cmp_antisym v w).
           split; [|intros _]; lia.
        -- simplify_eq. rewrite (proj2 (ver_cmp_eq v v)) by done. lia.
      * exists b, u. split_and!; [done|lia|done|done|]. intros j w Hj Hw Hsj.
        destruct (Hstep j Hj) as [Hji | ->]; [by apply Hmax|]. simplify_eq. lia.
  - apply IH; [lia|done|]. destruct Hinv as [[-> Hnone] | (b & u & -> & Hb & Hu & Hsb & Hmax)].
    + left. split; [done|]. intros j Hj. destruct (Hstep j Hj) as [Hji | ->]; [by apply Hnone|done].
    + right. exists b, u. split_and!; [done|lia|done|done|]. intros j w Hj Hw Hsj.
      destruct (Hstep j Hj) as [Hji | ->]; [by apply Hmax|congruence].
Qed.

(** [semver_max_satisfying] returns -1 exactly when no version satisfies
    the constraint, and otherwise the index of the first greatest version that
    does, whenever the constraint itself can be decided. *)
Theorem semver_max_satisfying_best (l : list SemVer) constraint (sat : nat -> bool)
    (Hok : Forall ver_ok l)
    (Hsat : forall j v, l !! j = Some v -> semver_satisfies (Some v) constraint = Ok (sat j)) :
  exists r, semver_max_satisfying (Some <$> l) (length l) constraint = Ok r /\
    (r = -1 /\ (forall j, (j < length l)%nat -> sat j = false) \/
     exists b v, r = Z.of_nat b /\ l !! b = Some v /\ sat b = true /\
       forall j w, l !! j = Some w -> sat j = true ->
         ver_cmp w v <= 0 /\ ((j < b)%nat -> ver_cmp w v < 0)).
Proof. apply max_loop_spec; [done|lia|done|]. left. split; [done|]. intros j Hj. lia. Qed.

Definition ex_versions : list SemVer :=
  [mkVer 1 2 0 None None; mkVer 1 4 0 None None; mkVer 2 0 0 None None; mkVer 1 4 0 None (Some (lit "b"))].

Lemma semver_max_satisfying_best_witness :
  semver_max_satisfying (Some <$> ex_versions) 4 (Some (lit "^1.0.0")) = Ok 1.
Proof.
  destruct (semver_max_satisfying_best ex_versions (Some (lit "^1.0.0")) (fun j => negb (j =? 2)%nat))
    as (r & Hr & _).
  - repeat constructor; vm_compute; congruence.
  - intros j v Hj. do 4 (destruct j as [|j]; [injection Hj as <-; vm_compute; reflexivity|]). done.
  - etransitivity; [exact Hr|]. vm_compute in Hr. by injection Hr as <-.
Defined.

(** ** What goes wrong on malformed constraints *)

(** A constraint that does not parse is not refused.  Behind a comparison
    operator that admits equality, or alone, it is satisfied by every version;
    behind [^] or [~] the null base is dereferenced.  So ["latest"] accepts
    every version and ["^latest"] crashes. *)
Theorem semver_malformed_constraint v s
    (Hparse : semver_parse (Some s) = Ok None) (Hne : forall c r, s = c :: r -> byte c > 62)
    (Hcaret : has_prefix (lit "^") s = false) (Htilde : has_prefix (lit "~") s = false)
    (Hx : strchr s "x" = None) (HX : strchr s "X" = None) :
  semver_satisfies (Some v) (Some s) = Ok true /\
  semver_satisfies (Some v) (Some (lit ">=" ++ s)) = Ok true /\
  semver_satisfies (Some v) (Some (lit "^" ++ s)) = Undef /\
  semver_satisfies (Some v) (Some (lit "~" ++ s)) = Undef.
Proof.
  assert (Hpl : forall o, byte o <= 62 -> has_prefix [o] s = false).
  { intros o Ho. destruct s as [|c r]; [done|]. pose proof (Hne c r eq_refl). cbn [has_prefix].
    rewrite (proj2 (Ascii.eqb_neq o c)); [done|]. intros ->. lia. }
  assert (Hge : forall o, byte o <= 62 -> has_prefix [o; "="%char] s = false).
  { intros o Ho. specialize (Hpl o Ho). destruct s as [|c r]; [done|]. cbn [has_prefix] in *.
    by rewrite andb_true_r in Hpl; rewrite Hpl. }
  assert (Hsp : skip_space s = s).
  { destruct s as [|c r]; [done|]. pose proof (Hne c r eq_refl). cbn [skip_space]. unfold isspace.
    by replace ((byte c =? 32) || ((9 <=? byte c) && (byte c <=? 13))) with false by lia. }
  split.
  - unfold semver_satisfies. destruct (strcmp s (lit "*") =? 0) eqn:Hst; [done|]. rewrite Hsp, Hcaret, Htilde.
    change (lit ">=") with [">"%char; "="%char]. change (lit ">") with [">"%char].
    change (lit "<=") with ["<"%char; "="%char]. change (lit "<") with ["<"%char].
    rewrite (Hge ">"%char), (Hpl ">"%char), (Hge "<"%char), (Hpl "<"%char), Hx, HX by (by vm_compute).
    cbn [opt_bool orb]. by rewrite Hparse.
  - unfold semver_satisfies. rewrite !(proj2 (Z.eqb_neq _ 0)) by (rewrite strcmp_eq; by destruct s).
    split_and!; simpl; unfold compare_with; change (semver_parse _) with (semver_parse (Some s)); by rewrite Hparse.
Qed.

Lemma semver_malformed_constraint_witness :
  semver_satisfies (Some (mkVer 0 0 1 None None)) (Some (lit "latest")) = Ok true /\
  semver_satisfies (Some (mkVer 0 0 1 None None)) (Some (lit "^latest")) = Undef.
Proof.
  destruct (semver_malformed_constraint (mkVer 0 0 1 None None) (lit "latest")) as (H1 & _ & H2 & _);
    try reflexivity.
  - intros c r [= <- _]. vm_compute. reflexivity.
  - split; [exact H1|exact H2].
Defined.

(** A version whose build tag contains a dash (valid in semver 2.0.0) makes
    the parser compute a negative prerelease length; a version whose prerelease
    fills the 256-byte buffer makes the printer write past it; and a wildcard
    written with a capital letter subtracts from a null pointer. *)
Theorem semver_undefined_inputs :
  semver_parse (Some (lit "1.0.0+linux-x64")) = Undef /\
  semver_to_string (Some (mkVer 1 0 0 (Some (replicate 300 "a"%char)) (Some (lit "b")))) = Undef /\
  semver_satisfies (Some (mkVer 1 2 5 None None)) (Some (lit "1.2.X")) = Undef.
Proof. split_and!; vm_compute; reflexivity. Qed.
