(* ===== verification/Packages.v ===== *)
(** * Package registry and dependency resolver

    [pkg/core/registry.c] (the registry's own version matching and lookup) and
    [pkg/core/resolver.c].  The registry is the list of its packages.  The
    resolver's recursion is bounded by the depth it passes along: the fuel
    [MAX_DEPTH + 2] of [pkg_resolver_resolve] is always enough
    ([resolver_topological]).  The resolved list is threaded through the
    calls, because a failed resolution leaves what it has added. *)
From Stdlib Require Import Ascii.
From S2P Require Import Prelude CString Semver.

(** ** Registry *)

Record PkgVersion := mkPkgVersion {
  pmajor : Z; pminor : Z; ppatch : Z; ppre : option cstr
}.
Record PkgDependency := mkDep { dep_name : cstr; version_spec : cstr }.
Record PkgInfo := mkInfo {
  info_name : cstr; info_version : PkgVersion; description : cstr; dependencies : list PkgDependency
}.

Definition parse_version (str : cstr) : outcome PkgVersion :=
  let! l := sscanf_dots 3 str in
  Ok (mkPkgVersion (default 0 (l !! 0%nat)) (default 0 (l !! 1%nat)) (default 0 (l !! 2%nat))
        ((fun d => drop (d + 1) str) <$> strchr str "-")).

Definition pkg_version_compare (a b : PkgVersion) : Z :=
  if negb (pmajor a =? pmajor b) then if pmajor a <? pmajor b then -1 else 1
  else if negb (pminor a =? pminor b) then if pminor a <? pminor b then -1 else 1
  else if negb (ppatch a =? ppatch b) then if ppatch a <? ppatch b then -1 else 1
  else match ppre a, ppre b with
       | Some _, None => -1
       | None, Some _ => 1
       | Some p, Some q => strcmp p q
       | None, None => 0
       end.

Definition pkg_version_satisfies (version : PkgVersion) (spec : option cstr) : outcome bool :=
  match spec with
  | None | Some [] => Ok true
  | Some s =>
      if has_prefix (lit "^") s then
        let! r := parse_version (drop 1 s) in
        Ok (if negb (pmajor version =? pmajor r) then false
            else if pminor version <? pminor r then false
            else if (pminor version =? pminor r) && (ppatch version <? ppatch r) then false else true)
      else if has_prefix (lit "~") s then
        let! r := parse_version (drop 1 s) in
        Ok (if negb (pmajor version =? pmajor r) then false
            else if negb (pminor version =? pminor r) then false
            else if ppatch version <? ppatch r then false else true)
      else if has_prefix (lit ">=") s then
        let! r := parse_version (drop 2 s) in Ok (0 <=? pkg_version_compare version r)
      else if has_prefix (lit "<=") s then
        let! r := parse_version (drop 2 s) in Ok (pkg_version_compare version r <=? 0)
      else let! r := parse_version s in Ok (pkg_version_compare version r =? 0)
  end.

(** [strstr(s, q) != NULL]. *)
Fixpoint strstr (s q : cstr) : bool :=
  has_prefix q s || match s with [] => false | _ :: s => strstr s q end.

Definition pkg_registry_search (reg : list PkgInfo) (query : cstr) : list PkgInfo :=
  List.filter (fun p => strstr (info_name p) query || strstr (description p) query) reg.

Fixpoint pkg_registry_info (reg : list PkgInfo) (name : cstr) (version : option cstr)
  : outcome (option PkgInfo) :=
  match reg with
  | [] => Ok None
  | pkg :: reg =>
      if strcmp (info_name pkg) name =? 0 then
        let! ok := pkg_version_satisfies (info_version pkg) version in
        if ok then Ok (Some pkg) else pkg_registry_info reg name version
      else pkg_registry_info reg name version
  end.

(** ** Resolver *)

Record ResolvedPkg := mkResolved {
  res_name : cstr; res_version : PkgVersion; res_deps : list PkgDependency
}.

Definition MAX_DEPTH : Z := 100.

Definition pkg_resolver_create : list ResolvedPkg := [].

Definition is_resolved (resolved : list ResolvedPkg) (name : cstr) : bool :=
  existsb (fun r => strcmp (res_name r) name =? 0) resolved.

Definition add_resolved (resolved : list ResolvedPkg) (pkg : ResolvedPkg) : list ResolvedPkg :=
  resolved ++ [pkg].

(** The loop over the dependencies stops at the first failure. *)
Fixpoint resolve_deps (resolve : list ResolvedPkg -> PkgDependency -> outcome (list ResolvedPkg * bool))
    (deps : list PkgDependency) (resolved : list ResolvedPkg) : outcome (list ResolvedPkg * bool) :=
  match deps with
  | [] => Ok (resolved, true)
  | d :: deps =>
      let! r := resolve resolved d in
      if negb r.2 then Ok (r.1, false) else resolve_deps resolve deps r.1
  end.

Fixpoint resolve_recursive (fuel : nat) (reg : list PkgInfo) (resolved : list ResolvedPkg)
    (package : cstr) (version : option cstr) (depth : Z) : outcome (list ResolvedPkg * bool) :=
  match fuel with
  | O => OutOfFuel
  | S fuel =>
      if MAX_DEPTH <? depth then Ok (resolved, false)
      else if is_resolved resolved package then Ok (resolved, true)
      else
        let! info := pkg_registry_info reg package version in
        match info with
        | None => Ok (resolved, false)
        | Some info =>
            let! r := resolve_deps (fun resolved d =>
                        resolve_recursive fuel reg resolved (dep_name d) (Some (version_spec d)) (depth + 1))
                        (dependencies info) resolved in
            if negb r.2 then Ok (r.1, false)
            else Ok (add_resolved r.1 (mkResolved (info_name info) (info_version info) (dependencies info)), true)
        end
  end.

Definition pkg_resolver_resolve (reg : list PkgInfo) (resolved : list ResolvedPkg) (package : cstr)
    (version : option cstr) : outcome (list ResolvedPkg * bool) :=
  resolve_recursive (Z.to_nat MAX_DEPTH + 2) reg resolved package version 0.

(** The nested loops over pairs [i < j]. *)
Definition clash (a b : ResolvedPkg) : bool :=
  (strcmp (res_name a) (res_name b) =? 0) &&
  negb (pkg_version_compare (res_version a) (res_version b) =? 0).

Fixpoint pkg_resolver_check_conflicts (resolved : list ResolvedPkg) : bool :=
  match resolved with
  | [] => true
  | a :: l => negb (existsb (clash a) l) && pkg_resolver_check_conflicts l
  end.

(** ** Dependencies come first *)

Definition named (name : cstr) (r : ResolvedPkg) : Prop := res_name r = name.

Lemma is_resolved_spec l name : is_resolved l name = true <-> exists r, r ∈ l /\ named name r.
Proof.
  unfold is_resolved, named. rewrite existsb_exists. split; intros (r & Hin & Hr); exists r.
  - split; [by apply list_elem_of_In|]. by apply Z.eqb_eq, strcmp_eq in Hr.
  - split; [by apply list_elem_of_In|]. apply Z.eqb_eq, strcmp_eq. exact Hr.
Qed.

Lemma registry_info_Some reg name version info :
  pkg_registry_info reg name version = Ok (Some info) ->
  info ∈ reg /\ info_name info = name /\ pkg_version_satisfies (info_version info) version = Ok true.
Proof.
  induction reg as [|pkg reg IH]; simpl; [done|].
  destruct (Z.eqb_spec (strcmp (info_name pkg) name) 0) as [He%strcmp_eq|_].
  - intros (ok & Hok & H)%obind_Ok. destruct ok.
    + injection H as ->. split; [left|done].
    + destruct (IH H). split; [by right|done].
  - intros H. destruct (IH H). split; [by right|done].
Qed.

(** Every dependency of a resolved package has an entry before it. *)
Definition deps_first (l : list ResolvedPkg) : Prop :=
  forall i r d, l !! i = Some r -> d ∈ res_deps r ->
    exists j r', (j < i)%nat /\ l !! j = Some r' /\ named (dep_name d) r'.

(** Each entry copies a package of the registry. *)
Definition from_registry (reg : list PkgInfo) (l : list ResolvedPkg) : Prop :=
  Forall (fun r => exists info, info ∈ reg /\
    r = mkResolved (info_name info) (info_version info) (dependencies info)) l.

Record extends (reg : list PkgInfo) (l l' : list ResolvedPkg) : Prop := {
  ex_prefix : exists k, l' = l ++ k;
  ex_deps : deps_first l -> deps_first l';
  ex_reg : from_registry reg l -> from_registry reg l'
}.

Lemma extends_refl reg l : extends reg l l.
Proof. split; [exists []; by rewrite app_nil_r|done|done]. Qed.

Lemma extends_trans reg l1 l2 l3 : extends reg l1 l2 -> extends reg l2 l3 -> extends reg l1 l3.
Proof.
  intros [[k1 ->] Hd1 Hr1] [[k2 ->] Hd2 Hr2]. split; [exists (k1 ++ k2); by rewrite app_assoc|auto|auto].
Qed.

Lemma extends_named reg l l' name : extends reg l l' -> is_resolved l name = true -> is_resolved l' name = true.
Proof.
  intros [[k ->] _ _]. rewrite !is_resolved_spec. intros (r & Hr & Hn). exists r.
  split; [apply elem_of_app; by left|done].
Qed.

Lemma add_resolved_extends reg l info :
  info ∈ reg -> (forall d, d ∈ dependencies info -> is_resolved l (dep_name d) = true) ->
  extends reg l (add_resolved l (mkResolved (info_name info) (info_version info) (dependencies info))).
Proof.
  intros Hin Hdeps. split; [by eexists| |].
  - intros Hd i r d Hi Hrd. unfold add_resolved in *. apply lookup_app_Some in Hi as [Hi | [Hle Hi]].
    + destruct (Hd i r d Hi Hrd) as (j & r' & Hj & Hl & Hn). exists j, r'.
      split_and!; [done|by apply lookup_app_l_Some|done].
    + apply list_lookup_singleton_Some in Hi as [Hz <-].
      apply Hdeps, is_resolved_spec in Hrd as (r' & Hr' & Hn).
      apply list_elem_of_lookup in Hr' as [j Hj]. exists j, r'.
      pose proof (lookup_lt_Some _ _ _ Hj). split_and!; [lia|by apply lookup_app_l_Some|done].
  - intros Hr. apply Forall_app. split; [done|]. constructor; [by exists info|constructor].
Qed.

Lemma resolve_deps_spec reg resolve deps l l' ok :
  (forall l l' ok d, d ∈ deps -> resolve l d = Ok (l', ok) ->
     extends reg l l' /\ (ok = true -> is_resolved l' (dep_name d) = true)) ->
  resolve_deps resolve deps l = Ok (l', ok) ->
  extends reg l l' /\ (ok = true -> forall d, d ∈ deps -> is_resolved l' (dep_name d) = true).
Proof.
  revert l. induction deps as [|d deps IH]; intros l Hr; simpl.
  { intros [= <- <-]. split; [apply extends_refl|]. intros _ d Hd. by apply not_elem_of_nil in Hd. }
  intros ([l1 ok1] & H1 & H)%obind_Ok. simpl in H.
  destruct (Hr l l1 ok1 d ltac:(left) H1) as [He1 Hn1]. destruct ok1; simpl in H.
  - destruct (IH l1) as [He Hn]; [intros; eapply Hr; [by right|done]|done|].
    split; [by eapply extends_trans|]. intros Hok e [-> | He']%elem_of_cons.
    + eapply extends_named; [exact He|by apply Hn1].
    + by apply Hn.
  - injection H as <- <-. split; [done|discriminate].
Qed.

Lemma resolve_spec fuel reg l package version depth l' ok :
  resolve_recursive fuel reg l package version depth = Ok (l', ok) ->
  extends reg l l' /\ (ok = true -> is_resolved l' package = true).
Proof.
  revert l package version depth l' ok. induction fuel as [|fuel IH]; intros l package version depth l' ok; [done|].
  cbn [resolve_recursive]. destruct (MAX_DEPTH <? depth); [intros [= <- <-]; by split; [apply extends_refl|]|].
  destruct (is_resolved l package) eqn:Hres; [intros [= <- <-]; by split; [apply extends_refl|]|].
  intros ([info|] & Hi & H)%obind_Ok; [|injection H as <- <-; by split; [apply extends_refl|]].
  apply registry_info_Some in Hi as (Hin & Hname & _).
  apply obind_Ok in H as ([l1 ok1] & Hd & H). simpl in H.
  apply (resolve_deps_spec reg) in Hd as [He Hn]; [|intros; by eapply IH].
  destruct ok1; simpl in H; injection H as <- <-; [|by split].
  split; [eapply extends_trans; [exact He|]; by apply add_resolved_extends; [|apply Hn]|].
  intros _. apply is_resolved_spec. eexists (mkResolved _ _ _). split; [|exact Hname].
  apply elem_of_app. right. by apply list_elem_of_singleton.
Qed.

(** The depth bounds the recursion. *)
Lemma resolve_deps_fuel resolve deps l :
  (forall l d, resolve l d <> OutOfFuel) -> resolve_deps resolve deps l <> OutOfFuel.
Proof.
  intros Hr. revert l. induction deps as [|d deps IH]; intros l; simpl; [done|].
  destruct (resolve l d) as [[l1 ok]| |] eqn:He; simpl; [|done|by apply Hr in He].
  destruct ok; simpl; [apply IH|done].
Qed.

Lemma registry_info_fuel reg name version : pkg_registry_info reg name version <> OutOfFuel.
Proof.
  assert (Hp : forall s, parse_version s <> OutOfFuel)
    by (intros s; unfold parse_version, sscanf_dots; by destruct (forallb _ _)).
  assert (Hs : forall v, pkg_version_satisfies v version <> OutOfFuel).
  { intros v. unfold pkg_version_satisfies. destruct version as [[|c s]|]; [done| |done].
    repeat case_match; by apply obind_no_fuel. }
  induction reg as [|pkg reg IH]; simpl; [done|]. destruct (strcmp _ _ =? 0); [|done].
  apply obind_no_fuel; [apply Hs|]. by intros [].
Qed.

Lemma resolve_fuel fuel reg l package version depth :
  (Z.to_nat (MAX_DEPTH + 1 - depth) < fuel)%nat ->
  resolve_recursive fuel reg l package version depth <> OutOfFuel.
Proof.
  revert l package version depth. induction fuel as [|fuel IH]; intros l package version depth Hf; [lia|].
  cbn [resolve_recursive]. destruct (Z.ltb_spec MAX_DEPTH depth); [done|].
  destruct (is_resolved l package); [done|]. apply obind_no_fuel; [apply registry_info_fuel|].
  intros [info|]; [|done]. apply obind_no_fuel.
  - apply resolve_deps_fuel. intros l1 d. apply IH. lia.
  - intros [l1 []]; done.
Qed.

(** C38: dependency resolution always ends, whatever cycles the registry has
    (the depth limit cuts them), and it is a topological order: starting from
    an order in which dependencies come first, it only appends packages of the
    registry, each behind entries for all of its dependencies, even when it
    fails half-way; and on success the requested package is in the list. *)
Theorem resolver_topological reg l package version
    (Hd : deps_first l) (Hr : from_registry reg l) :
  pkg_resolver_resolve reg l package version <> OutOfFuel /\
  forall l' ok, pkg_resolver_resolve reg l package version = Ok (l', ok) ->
    (exists k, l' = l ++ k) /\ deps_first l' /\ from_registry reg l' /\
    (ok = true -> exists r, r ∈ l' /\ res_name r = package).
Proof.
  split; [apply resolve_fuel, Nat.ltb_lt; reflexivity|]. intros l' ok H.
  destruct (resolve_spec _ _ _ _ _ _ _ _ H) as [[He1 He2 He3] Hn].
  split_and!; [done|by apply He2|by apply He3|]. intros Hok. by apply is_resolved_spec, Hn.
Qed.

Definition ver (a b c : Z) : PkgVersion := mkPkgVersion a b c None.
Definition dep (n s : string) : PkgDependency := mkDep (lit n) (lit s).

(** [app] needs [http] and [log]; [http] needs [log]. *)
Definition ex_registry : list PkgInfo :=
  [mkInfo (lit "log") (ver 1 4 0) [] [];
   mkInfo (lit "http") (ver 2 1 0) [] [dep "log" "^1.0.0"];
   mkInfo (lit "app") (ver 0 1 0) [] [dep "http" ">=2.0.0"; dep "log" "^1.2.0"]].

Lemma resolver_topological_witness :
  exists l', pkg_resolver_resolve ex_registry pkg_resolver_create (lit "app") None = Ok (l', true) /\
    map res_name l' = [lit "log"; lit "http"; lit "app"] /\ deps_first l'.
Proof.
  destruct (resolver_topological ex_registry pkg_resolver_create (lit "app") None) as [_ H].
  - intros i r d Hi. discriminate Hi.
  - constructor.
  - eexists. split; [vm_compute; reflexivity|]. split; [reflexivity|].
    eapply H. vm_compute. reflexivity.
Defined.

(** ** Conflicts *)

Lemma clash_spec a b : clash a b = true <->
  res_name a = res_name b /\ pkg_version_compare (res_version a) (res_version b) <> 0.
Proof. unfold clash. rewrite andb_true_iff, negb_true_iff, Z.eqb_eq, Z.eqb_neq, strcmp_eq. done. Qed.

(** The conflict check answers [true] exactly when no two entries of the
    resolved list have the same name and versions that compare different. *)
Theorem check_conflicts_exact l :
  pkg_resolver_check_conflicts l = true <->
  forall i j a b, (i < j)%nat -> l !! i = Some a -> l !! j = Some b -> res_name a = res_name b ->
    pkg_version_compare (res_version a) (res_version b) = 0.
Proof.
  induction l as [|x l IH]; simpl; [split; [done|done]|].
  rewrite andb_true_iff, negb_true_iff, IH. split.
  - intros [Hx Hl] i j a b Hij Hi Hj Hn. destruct j as [|j]; [lia|]. simpl in Hj. destruct i as [|i].
    + injection Hi as ->. destruct (Z.eq_dec (pkg_version_compare (res_version a) (res_version b)) 0); [done|].
      rewrite <- not_true_iff_false, existsb_exists in Hx. destruct Hx. exists b.
      split; [by apply list_elem_of_In; eapply list_elem_of_lookup_2|by apply clash_spec].
    + apply (Hl i j a b); [lia|done|done|done].
  - intros H. split.
    + apply not_true_iff_false. rewrite existsb_exists. intros (b & Hb & [Hn Hc]%clash_spec).
      apply list_elem_of_In, list_elem_of_lookup in Hb as [j Hj]. apply Hc.
      apply (H 0%nat (S j) x b); [lia|done|done|done].
    + intros i j a b Hij Hi Hj. apply (H (S i) (S j) a b); [lia|done|done].
Qed.

(** The resolver forgets the second constraint on a package.  With
    [app] needing [log ^1.0.0] and a [db] that needs [log ^2.0.0], it succeeds
    with [log 1.4.0] only, although the registry has [log 2.0.0] and no version
    satisfies both, and the conflict check passes. *)
Theorem resolver_ignores_second_constraint :
  let reg := [mkInfo (lit "log") (ver 1 4 0) [] []; mkInfo (lit "log") (ver 2 0 0) [] [];
              mkInfo (lit "db") (ver 1 0 0) [] [dep "log" "^2.0.0"];
              mkInfo (lit "app") (ver 0 1 0) [] [dep "log" "^1.0.0"; dep "db" "1.0.0"]] in
  exists l, pkg_resolver_resolve reg pkg_resolver_create (lit "app") None = Ok (l, true) /\
    map (fun r => (res_name r, res_version r)) l =
      [(lit "log", ver 1 4 0); (lit "db", ver 1 0 0); (lit "app", ver 0 1 0)] /\
    pkg_version_satisfies (ver 1 4 0) (Some (lit "^2.0.0")) = Ok false /\
    pkg_resolver_check_conflicts l = true.
Proof. eexists. split; [vm_compute; reflexivity|]. by split_and!. Qed.

(** The two version modules disagree on [^] for unstable versions: the
    registry accepts 0.3.0 for ["^0.2.0"], and a prerelease of the base for
    ["^1.0.0"], where [semver_satisfies] refuses both. *)
Theorem caret_rules_disagree :
  pkg_version_satisfies (ver 0 3 0) (Some (lit "^0.2.0")) = Ok true /\
  semver_satisfies (Some (mkVer 0 3 0 None None)) (Some (lit "^0.2.0")) = Ok false /\
  pkg_version_satisfies (mkPkgVersion 1 0 0 (Some (lit "rc"))) (Some (lit "^1.0.0")) = Ok true /\
  semver_satisfies (Some (mkVer 1 0 0 (Some (lit "rc")) None)) (Some (lit "^1.0.0")) = Ok false.
Proof. by split_and!. Qed.
