(* ===== verification/ConstEval.v ===== *)
(** * Compile-time evaluation

    [src/compiler/ir/mir_consteval.c]: the interpreter that evaluates
    [constexpr] functions on tagged values.  The slot array is a finite map
    over its capacity, with zeroed memory (the integer 0) where nothing has
    been stored.  [Undef] marks signed overflow, an out-of-range shift or
    conversion, and the use of a slot pointer after the array has been
    reallocated.  The fuel of [consteval_run] bounds the number of nested
    calls and blocks entered; [consteval_terminates] says when it is enough. *)
From S2P Require Import Prelude MirCore Float64.
From Stdlib Require Import SpecFloat.

#[local] Open Scope string_scope.
#[local] Open Scope Z_scope.

(** [MirConstValue]: the tag with its union member.  A double is its bit
    pattern; the [type] member is [NULL] in every value the engine makes. *)
Inductive MirConstValue :=
| CVAL_INT (i64 : Z)
| CVAL_FLOAT (f64 : Z)
| CVAL_BOOL (b : bool)
| CVAL_STRING (str : string)
| CVAL_NULL
| CVAL_VOID.

Record MirConstEval := mkEval {
  slots : gmap N MirConstValue;
  slot_capacity : Z;
  steps : Z;
  max_steps : Z;
  error_msg : option string;
  call_depth : Z;
  max_call_depth : Z
}.

Definition with_slots (ce : MirConstEval) (m : gmap N MirConstValue) (cap : Z) : MirConstEval :=
  mkEval m cap (steps ce) (max_steps ce) (error_msg ce) (call_depth ce) (max_call_depth ce).
Definition with_steps (ce : MirConstEval) (n : Z) : MirConstEval :=
  mkEval (slots ce) (slot_capacity ce) n (max_steps ce) (error_msg ce) (call_depth ce) (max_call_depth ce).
Definition with_depth (ce : MirConstEval) (n : Z) : MirConstEval :=
  mkEval (slots ce) (slot_capacity ce) (steps ce) (max_steps ce) (error_msg ce) n (max_call_depth ce).
Definition with_error (ce : MirConstEval) (e : string) : MirConstEval :=
  mkEval (slots ce) (slot_capacity ce) (steps ce) (max_steps ce) (Some e) (call_depth ce) (max_call_depth ce).

Definition mir_cval_int (v : Z) : MirConstValue := CVAL_INT v.
Definition mir_cval_float (v : Z) : MirConstValue := CVAL_FLOAT v.
Definition mir_cval_bool (v : bool) : MirConstValue := CVAL_BOOL v.
Definition mir_cval_void : MirConstValue := CVAL_VOID.

Definition MIR_CONSTEVAL_MAX_STEPS : Z := 100000.

Definition mir_consteval_init : MirConstEval :=
  mkEval ∅ 256 0 MIR_CONSTEVAL_MAX_STEPS None 0 32.

(** ** Eligibility *)

(** One instruction of the scan; a call asks about its callee. *)
Definition eligible_inst (eligible : MirFunction -> outcome bool) (m : MirModule) (i : MirInst)
  : outcome bool :=
  match as_ i with
  | OBJ_ALLOC _ _ | REFOP (MIR_ARC_RETAIN | MIR_ARC_RELEASE) _
  | CALL_INDIRECT _ _ _ | CALL_VIRTUAL _ _ _ => Ok false
  | CALL name _ _ =>
      match mir_module_find_function m name with
      | None => Ok false
      | Some callee => if is_constexpr callee then Ok true else eligible callee
      end
  | _ => Ok true
  end.

Fixpoint all_ok {A} (test : A -> outcome bool) (l : list A) : outcome bool :=
  match l with
  | [] => Ok true
  | x :: l => let! b := test x in if b then all_ok test l else Ok false
  end.

(** [fuel] bounds the depth of the recursion over callees, which the code does
    not. *)
Fixpoint mir_consteval_eligible (fuel : nat) (m : MirModule) (func : MirFunction) : outcome bool :=
  match fuel with
  | O => OutOfFuel
  | S fuel =>
      if is_extern func then Ok false
      else
        all_ok (fun b =>
          let! blk := of_option (block_at func b) in
          all_ok (eligible_inst (mir_consteval_eligible fuel m) m) (insts blk)) (block_list func)
  end.

(** ** Slots *)

(** An id past [INT_MAX] is negative as an [int] and indexes out of bounds. *)
Definition ensure_slot (ce : MirConstEval) (id : MirValueId) : outcome MirConstEval :=
  let i := s32 (Z.of_N id) in
  if i <? 0 then Undef
  else if slot_capacity ce <=? i then
    let new_cap := slot_capacity ce * 2 in
    let new_cap := if new_cap <=? i then i + 64 else new_cap in
    Ok (with_slots ce (slots ce) new_cap)
  else Ok ce.

Definition slot (ce : MirConstEval) (id : MirValueId) : MirConstValue :=
  default (CVAL_INT 0) (slots ce !! id).

Definition get_slot (ce : MirConstEval) (id : MirValueId) : outcome (MirConstEval * MirConstValue) :=
  let! ce := ensure_slot ce id in Ok (ce, slot ce id).

Definition set_slot (ce : MirConstEval) (id : MirValueId) (v : MirConstValue) : outcome MirConstEval :=
  let! ce := ensure_slot ce id in Ok (with_slots ce (<[id := v]> (slots ce)) (slot_capacity ce)).

(** The pointers to both operands: growing the array for the second leaves the
    first one dangling. *)
Definition get_slots (ce : MirConstEval) (l r : MirValueId)
  : outcome (MirConstEval * MirConstValue * MirConstValue) :=
  let! a := get_slot ce l in
  let! b := get_slot a.1 r in
  if slot_capacity a.1 <? slot_capacity b.1 then Undef else Ok (b.1, a.2, b.2).

(** ** One instruction *)

(** The five integer operations; [inr] is an error message. *)
Definition int_arith (op : MirBinOp) (l r : Z) : option (Z + string) :=
  match op with
  | MIR_ADD => inl <$> sint64 (l + r)
  | MIR_SUB => inl <$> sint64 (l - r)
  | MIR_MUL => inl <$> sint64 (l * r)
  | MIR_DIV => if r =? 0 then Some (inr "consteval: division by zero") else inl <$> sdiv64 l r
  | MIR_MOD => if r =? 0 then Some (inr "consteval: modulo by zero") else inl <$> srem64 l r
  | _ => Some (inl 0)
  end.

Definition float_arith (op : MirBinOp) (l r : Z) : Z :=
  match op with
  | MIR_FADD => f64_add l r
  | MIR_FSUB => f64_sub l r
  | MIR_FMUL => f64_mul l r
  | MIR_FDIV => f64_div l r
  | _ => 0
  end.

Definition int_compare (op : MirBinOp) (l r : Z) : bool :=
  match op with
  | MIR_CMP_EQ => l =? r
  | MIR_CMP_NE => negb (l =? r)
  | MIR_CMP_LT => l <? r
  | MIR_CMP_LE => l <=? r
  | MIR_CMP_GT => r <? l
  | MIR_CMP_GE => r <=? l
  | _ => false
  end.

(** C11 6.5.7: a shift count outside 0..63, a negative left operand of [<<] or
    an unrepresentable result is undefined; [>>] of a negative value is
    arithmetic. *)
Definition bitwise (op : MirBinOp) (l r : Z) : option Z :=
  match op with
  | MIR_BAND => Some (Z.land l r)
  | MIR_BOR => Some (Z.lor l r)
  | MIR_BXOR => Some (Z.lxor l r)
  | MIR_SHL => if (r <? 0) || (63 <? r) || (l <? 0) then None else sint64 (Z.shiftl l r)
  | MIR_SHR => if (r <? 0) || (63 <? r) then None else Some (Z.shiftr l r)
  | _ => Some 0
  end.

(** [(int64_t)x] is undefined when the truncated value does not fit. *)
Definition c_fptosi (r : Z) : option Z :=
  match cvm_bits_to_f64 r with
  | S754_nan | S754_infinity _ => None
  | S754_zero _ => Some 0
  | S754_finite s m e => sint64 (if s then - f64_trunc m e else f64_trunc m e)
  end.

Abbreviation stepped := (outcome (MirConstEval * bool)) (only parsing).

Definition fail (ce : MirConstEval) (msg : string) : stepped := Ok (with_error ce msg, false).
Definition store_result (ce : MirConstEval) (r : MirValueId) (v : MirConstValue) : stepped :=
  let! ce := set_slot ce r v in Ok (ce, true).

Definition step_binary (ce : MirConstEval) (r : MirValueId) (op : MirBinOp) (lhs rhs : MirValueId) : stepped :=
  match op with
  | MIR_ADD | MIR_SUB | MIR_MUL | MIR_DIV | MIR_MOD =>
      let! o := get_slots ce lhs rhs in
      match o with
      | (ce, CVAL_INT a, CVAL_INT b) =>
          let! v := of_option (int_arith op a b) in
          match v with
          | inl v => store_result ce r (mir_cval_int v)
          | inr msg => fail ce msg
          end
      | (ce, _, _) => fail ce "consteval: integer arithmetic on non-integer"
      end
  | MIR_FADD | MIR_FSUB | MIR_FMUL | MIR_FDIV =>
      let! o := get_slots ce lhs rhs in
      match o with
      | (ce, CVAL_FLOAT a, CVAL_FLOAT b) => store_result ce r (mir_cval_float (float_arith op a b))
      | (ce, _, _) => fail ce "consteval: float arithmetic on non-float"
      end
  | MIR_CMP_EQ | MIR_CMP_NE | MIR_CMP_LT | MIR_CMP_LE | MIR_CMP_GT | MIR_CMP_GE =>
      let! o := get_slots ce lhs rhs in
      match o with
      | (ce, CVAL_INT a, CVAL_INT b) => store_result ce r (mir_cval_bool (int_compare op a b))
      | (ce, _, _) => fail ce "consteval: comparison on non-integer"
      end
  | MIR_BAND | MIR_BOR | MIR_BXOR | MIR_SHL | MIR_SHR =>
      let! o := get_slots ce lhs rhs in
      match o with
      | (ce, CVAL_INT a, CVAL_INT b) =>
          let! v := of_option (bitwise op a b) in store_result ce r (mir_cval_int v)
      | (ce, _, _) => fail ce "consteval: bitwise on non-integer"
      end
  | _ => fail ce "consteval: unsupported instruction"
  end.

Definition step_unary (ce : MirConstEval) (r : MirValueId) (op : MirUnOp) (operand : MirValueId) : stepped :=
  match op with
  | MIR_BNOT | MIR_BITCAST => fail ce "consteval: unsupported instruction"
  | _ =>
      let! o := get_slot ce operand in
      let ce := o.1 in
      match op, o.2 with
      | MIR_NEG, CVAL_INT a => let! v := of_option (sint64 (- a)) in store_result ce r (mir_cval_int v)
      | MIR_NEG, _ => fail ce "consteval: neg on non-integer"
      | MIR_FNEG, CVAL_FLOAT a => store_result ce r (mir_cval_float (f64_neg a))
      | MIR_FNEG, _ => fail ce "consteval: fneg on non-float"
      | MIR_LOGIC_NOT, CVAL_BOOL b => store_result ce r (mir_cval_bool (negb b))
      | MIR_LOGIC_NOT, _ => fail ce "consteval: not on non-bool"
      | MIR_SITOFP, CVAL_INT a => store_result ce r (mir_cval_float (f64_of_s64 a))
      | MIR_SITOFP, _ => fail ce "consteval: sitofp on non-integer"
      | MIR_FPTOSI, CVAL_FLOAT a => let! v := of_option (c_fptosi a) in store_result ce r (mir_cval_int v)
      | MIR_FPTOSI, _ => fail ce "consteval: fptosi on non-float"
      | _, v => store_result ce r v
      end
  end.

Definition mir_consteval_step (ce : MirConstEval) (inst : MirInst) : stepped :=
  let ce := with_steps ce (steps ce + 1) in
  if max_steps ce <? steps ce then fail ce "consteval: step limit exceeded (possible infinite loop)"
  else
    let r := result inst in
    match as_ inst with
    | CONST_INT imm => store_result ce r (mir_cval_int imm)
    | CONST_FLOAT imm => store_result ce r (mir_cval_float imm)
    | CONST_BOOL imm => store_result ce r (mir_cval_bool imm)
    | CONST_STRING imm => store_result ce r (CVAL_STRING imm)
    | CONST_FUNC _ => fail ce "consteval: function addresses are not supported as compile-time values"
    | CONST_NULL => store_result ce r CVAL_NULL
    | BINARY op lhs rhs => step_binary ce r op lhs rhs
    | UNARY op operand _ => step_unary ce r op operand
    | ALLOCA _ _ => store_result ce r (CVAL_INT 0)
    | LOAD ptr => let! v := get_slot ce ptr in store_result v.1 r v.2
    | STORE ptr value => let! v := get_slot ce value in store_result v.1 ptr v.2
    | TRANSFER (MIR_COPY | MIR_MOVE) source => let! v := get_slot ce source in store_result v.1 r v.2
    | NOP | DEBUGLOC _ _ _ => Ok (ce, true)
    | _ => fail ce "consteval: unsupported instruction"
    end.

(** ** Calls *)

(** How a block is left: a jump, a return, or [return false]. *)
Inductive flow := FJump (b : blockptr) | FRet (v : MirConstValue) | FFail.

(** The first sixteen arguments of a call. *)
Fixpoint collect (ce : MirConstEval) (ids : list MirValueId) : outcome (MirConstEval * list MirConstValue) :=
  match ids with
  | [] => Ok (ce, [])
  | id :: ids =>
      let! v := get_slot ce id in
      let! r := collect v.1 ids in Ok (r.1, v.2 :: r.2)
  end.

Fixpoint set_params (ce : MirConstEval) (ps : list MirParam) (args : list MirConstValue) : outcome MirConstEval :=
  match ps, args with
  | p :: ps, a :: args => let! ce := set_slot ce (p_value_id p) a in set_params ce ps args
  | _, _ => Ok ce
  end.

(** The prologue of [mir_consteval_call]; [None] is [return false]. *)
Definition consteval_enter (ce : MirConstEval) (f : MirFunction) (args : list MirConstValue)
  : outcome (MirConstEval * option blockptr) :=
  if is_extern f then Ok (with_error ce "consteval: cannot evaluate extern function", None)
  else if max_call_depth ce <=? call_depth ce then
    Ok (with_error ce "consteval: maximum call depth exceeded", None)
  else
    let ce := with_depth ce (call_depth ce + 1) in
    let! ce := set_params ce (params f) args in Ok (ce, Some (entry_block f)).

Section eval.
Context (module : MirModule).

(** The instructions of a block; [call] evaluates a callee. *)
Fixpoint consteval_block
    (call : MirConstEval -> MirFunction -> list MirConstValue -> outcome (MirConstEval * option MirConstValue))
    (ce : MirConstEval) (l : list MirInst) : outcome (MirConstEval * flow) :=
  match l with
  | [] => Ok (with_error ce "consteval: block without terminator", FFail)
  | inst :: l =>
      match as_ inst with
      | BR target => Ok (ce, FJump target)
      | CONDBR cond true_bb false_bb =>
          let! c := get_slot ce cond in
          match c.2 with
          | CVAL_BOOL b => Ok (c.1, FJump (if b then true_bb else false_bb))
          | _ => Ok (with_error c.1 "consteval: condbr on non-bool", FFail)
          end
      | RET value => let! v := get_slot ce value in Ok (v.1, FRet v.2)
      | RET_VOID => Ok (ce, FRet mir_cval_void)
      | CALL name ids _ =>
          match mir_module_find_function module name with
          | None => Ok (with_error ce "consteval: unknown function in call", FFail)
          | Some callee =>
              let! a := collect ce (take 16 ids) in
              let! r := call a.1 callee a.2 in
              match r.2 with
              | None => Ok (r.1, FFail)
              | Some v =>
                  let! ce := (if (result inst =? MIR_VALUE_NONE)%N then Ok r.1
                              else set_slot r.1 (result inst) v) in
                  consteval_block call ce l
              end
          end
      | _ =>
          let! s := mir_consteval_step ce inst in
          if s.2 then consteval_block call s.1 l else Ok (s.1, FFail)
      end
  end.

(** The [while (current)] loop; the depth is restored on every way out. *)
Fixpoint consteval_run (fuel : nat) (ce : MirConstEval) (f : MirFunction) (current : blockptr)
  : outcome (MirConstEval * option MirConstValue) :=
  match fuel with
  | O => OutOfFuel
  | S fuel =>
      match current with
      | None =>
          let ce := with_error ce "consteval: reached null block" in
          Ok (with_depth ce (call_depth ce - 1), None)
      | Some b =>
          let! blk := of_option (block_at f b) in
          let! r := consteval_block (fun ce g args =>
                      let! e := consteval_enter ce g args in
                      match e.2 with
                      | None => Ok (e.1, None)
                      | Some entry => consteval_run fuel e.1 g entry
                      end) ce (insts blk) in
          match r.2 with
          | FJump b => consteval_run fuel r.1 f b
          | FRet v => Ok (with_depth r.1 (call_depth r.1 - 1), Some v)
          | FFail => Ok (with_depth r.1 (call_depth r.1 - 1), None)
          end
      end
  end.

Definition mir_consteval_call (fuel : nat) (ce : MirConstEval) (f : MirFunction) (args : list MirConstValue)
  : outcome (MirConstEval * option MirConstValue) :=
  let! e := consteval_enter ce f args in
  match e.2 with
  | None => Ok (e.1, None)
  | Some entry => consteval_run fuel e.1 f entry
  end.

End eval.
