(* ===== verification/ConstEvalFacts.v ===== *)
(** * Step and depth accounting of the constant evaluator

    Every way out of [mir_consteval_call] restores the call depth, the step
    limit bounds the counted instructions, and evaluation terminates when no
    block of the module jumps without a counted instruction.  Where that
    fails, it does not: branches are not counted. *)
From S2P Require Import Prelude MirCore ConstEval.

(** What a piece of evaluation does to the counters; [ok] is success. *)
Record advances (ce ce' : MirConstEval) (ok : Prop) : Prop := {
  ad_depth : call_depth ce' = call_depth ce;
  ad_max : max_steps ce' = max_steps ce;
  ad_max_depth : max_call_depth ce' = max_call_depth ce;
  ad_steps : steps ce <= steps ce';
  ad_limit : steps ce' <= Z.max (steps ce) (max_steps ce) + 1;
  ad_ok : ok -> steps ce' = steps ce \/ steps ce' <= max_steps ce
}.

Lemma advances_refl ce ok : advances ce ce ok.
Proof. split; try done; lia. Qed.

Lemma advances_trans ce1 ce2 ce3 (ok : Prop) :
  advances ce1 ce2 True -> advances ce2 ce3 ok -> advances ce1 ce3 ok.
Proof.
  intros [D1 M1 X1 S1 L1 O1] [D2 M2 X2 S2 L2 O2]. specialize (O1 I).
  split; try congruence; try lia. intros H. specialize (O2 H). lia.
Qed.

Lemma advances_error ce ce' e (ok : Prop) : advances ce ce' ok -> ~ ok -> advances ce (with_error ce' e) False.
Proof. intros [D M X S L O] _. by split. Qed.

(** Slots leave the counters alone. *)
Definition same_counters (ce ce' : MirConstEval) : Prop :=
  call_depth ce' = call_depth ce /\ max_steps ce' = max_steps ce /\
  max_call_depth ce' = max_call_depth ce /\ steps ce' = steps ce.

Lemma same_advances ce ce' ok : same_counters ce ce' -> advances ce ce' ok.
Proof. intros (D & M & X & S). split; try done; try lia. Qed.

Lemma ensure_slot_same ce id ce' : ensure_slot ce id = Ok ce' -> same_counters ce ce'.
Proof. unfold ensure_slot. intros H. by inv_ok. Qed.

Lemma get_slot_same ce id p : get_slot ce id = Ok p -> same_counters ce p.1.
Proof. unfold get_slot. intros (ce' & H & [= <-])%obind_Ok. by eapply ensure_slot_same. Qed.

Lemma set_slot_same ce id v ce' : set_slot ce id v = Ok ce' -> same_counters ce ce'.
Proof. unfold set_slot. intros (ce1 & H%ensure_slot_same & [= <-])%obind_Ok. exact H. Qed.

Lemma same_trans ce1 ce2 ce3 : same_counters ce1 ce2 -> same_counters ce2 ce3 -> same_counters ce1 ce3.
Proof. unfold same_counters. intuition congruence. Qed.

Lemma get_slots_same ce l r p : get_slots ce l r = Ok p -> same_counters ce p.1.1.
Proof.
  unfold get_slots. intros (a & Ha%get_slot_same & H)%obind_Ok.
  apply obind_Ok in H as (b & Hb%get_slot_same & H). destruct (_ <? _); [done|]. injection H as <-.
  by eapply same_trans.
Qed.

Lemma fail_same ce m p : fail ce m = Ok p -> same_counters ce p.1.
Proof. by intros [= <-]. Qed.

Lemma store_result_same ce r v p : store_result ce r v = Ok p -> same_counters ce p.1.
Proof. unfold store_result. intros (ce' & H%set_slot_same & [= <-])%obind_Ok. exact H. Qed.

(** Reading slots first. *)
Lemma with_slots_same ce l r (k : _ -> outcome (MirConstEval * bool)) p :
  (forall c a b q, k (c, a, b) = Ok q -> same_counters c q.1) ->
  obind (get_slots ce l r) k = Ok p -> same_counters ce p.1.
Proof.
  intros Hk ([[c a] b] & Hg%get_slots_same & H)%obind_Ok. by eapply same_trans; [|eapply Hk].
Qed.

Lemma with_slot_same ce id (k : _ -> outcome (MirConstEval * bool)) p :
  (forall c v q, k (c, v) = Ok q -> same_counters c q.1) ->
  obind (get_slot ce id) k = Ok p -> same_counters ce p.1.
Proof.
  intros Hk ([c v] & Hg%get_slot_same & H)%obind_Ok. by eapply same_trans; [|eapply Hk].
Qed.

(** An undefined value, then a store or a message. *)
Lemma with_value_same {A} (o : option A) c (k : A -> outcome (MirConstEval * bool)) p :
  (forall v q, k v = Ok q -> same_counters c q.1) -> obind (of_option o) k = Ok p -> same_counters c p.1.
Proof. intros Hk (v & _ & H)%obind_Ok. by eapply Hk. Qed.

Ltac same_leaf :=
  first [ apply fail_same | apply store_result_same
        | apply with_value_same; let v := fresh "v" in intros v ?; try destruct v; same_leaf ].

Lemma step_binary_same ce r op l rh p : step_binary ce r op l rh = Ok p -> same_counters ce p.1.
Proof.
  unfold step_binary. destruct op; try same_leaf;
    (apply with_slots_same; intros c a b q; destruct a; try same_leaf; destruct b; same_leaf).
Qed.

Lemma step_unary_same ce r op v p : step_unary ce r op v = Ok p -> same_counters ce p.1.
Proof.
  unfold step_unary. destruct op; try same_leaf;
    (apply with_slot_same; intros c a q; cbn [fst snd]; destruct a; same_leaf).
Qed.

Lemma load_store_same ce a r p :
  (let! v := get_slot ce a in store_result v.1 r v.2) = Ok p -> same_counters ce p.1.
Proof. apply with_slot_same. intros c v q. apply store_result_same. Qed.

Lemma step_counts ce i ce' b :
  mir_consteval_step ce i = Ok (ce', b) ->
  steps ce' = steps ce + 1 /\ (b = true -> steps ce' <= max_steps ce) /\
  call_depth ce' = call_depth ce /\ max_steps ce' = max_steps ce /\ max_call_depth ce' = max_call_depth ce.
Proof.
  unfold mir_consteval_step. cbn [steps max_steps with_steps].
  destruct (Z.ltb_spec (max_steps ce) (steps ce + 1)) as [Hl|Hl]; [by intros [= <- <-]|].
  intros H. assert (Hs : same_counters (with_steps ce (steps ce + 1)) ce').
  { change ce' with ((ce', b).1). destruct (as_ i) as [| | | | | | | | | | | | | | | | | | | | | | |op| | | | | | | | | |];
      try (destruct op);
      first [ exact (fail_same _ _ _ H) | exact (store_result_same _ _ _ _ H)
            | exact (step_binary_same _ _ _ _ _ _ H) | exact (step_unary_same _ _ _ _ _ H)
            | exact (load_store_same _ _ _ _ H) | by injection H as <- <- ]. }
  destruct Hs as (? & ? & ? & ?). simpl in *. split_and!; try done. lia.
Qed.

Section counters.
Context (module : MirModule).

Definition call_advances (call : MirConstEval -> MirFunction -> list MirConstValue ->
    outcome (MirConstEval * option MirConstValue)) : Prop :=
  forall ce g args ce' o, call ce g args = Ok (ce', o) -> advances ce ce' (o <> None).

(** A jump is reached only behind a counted instruction. *)
Fixpoint counts (l : list MirInst) : bool :=
  match l with
  | [] => true
  | i :: l =>
      match as_ i with
      | BR _ | CONDBR _ _ _ => false
      | CALL _ _ _ => counts l
      | _ => true
      end
  end.

Lemma collect_same ce ids p : collect ce ids = Ok p -> same_counters ce p.1.
Proof.
  revert ce p. induction ids as [|id ids IH]; intros ce p; simpl; [by intros [= <-]|].
  intros (v & Hv%get_slot_same & H)%obind_Ok. apply obind_Ok in H as (r & Hr%IH & [= <-]).
  by eapply same_trans.
Qed.

Definition jumps (fl : flow) : Prop := match fl with FJump _ => True | _ => False end.

Lemma block_advances call ce l ce' fl :
  call_advances call -> consteval_block module call ce l = Ok (ce', fl) ->
  advances ce ce' (fl <> FFail) /\
  (counts l = true -> jumps fl -> steps ce < steps ce' <= max_steps ce).
Proof.
  intros Hcall. revert ce. induction l as [|i l IH]; intros ce; simpl.
  { intros [= <- <-]. split; [|done]. split; simpl; try done; lia. }
  assert (Hstep :
    (let! s := mir_consteval_step ce i in if s.2 then consteval_block module call s.1 l else Ok (s.1, FFail)) = Ok (ce', fl) ->
    advances ce ce' (fl <> FFail) /\ (jumps fl -> steps ce < steps ce' <= max_steps ce)).
  { intros ([ce1 b] & Hs & H)%obind_Ok. simpl in H.
    apply step_counts in Hs as (S1 & L1 & D1 & M1 & X1). destruct b.
    - destruct (IH ce1 H) as [[D M X S L O] _]. specialize (L1 eq_refl). split.
      + split; try congruence; try lia. intros Hf. specialize (O Hf). lia.
      + intros Hj. assert (Hf : fl <> FFail) by (by destruct fl). specialize (O Hf). lia.
    - injection H as <- <-. split; [split; try done; lia|done]. }
  destruct (as_ i);
    try (intros H; destruct (Hstep H) as [Ha Hj]; split; [exact Ha|intros _; exact Hj]).
  - intros [= <- <-]. split; [apply advances_refl|discriminate].
  - intros ([ce1 v] & Hg%get_slot_same & H)%obind_Ok. simpl in *.
    split; [|discriminate]. by destruct v; injection H as <- <-; apply same_advances.
  - intros ([ce1 v] & Hg%get_slot_same & [= <- <-])%obind_Ok. split; [by apply same_advances|done].
  - intros [= <- <-]. split; [apply advances_refl|done].
  - destruct (mir_module_find_function module func_name) as [g|].
    + intros ([ce1 args'] & Hc%collect_same & H)%obind_Ok. simpl in *.
      apply obind_Ok in H as ([ce2 o] & Hr%Hcall & H). simpl in *.
      assert (H12 : advances ce ce2 (o <> None))
        by (eapply advances_trans; [by apply same_advances|exact Hr]).
      destruct o as [v|].
      * apply obind_Ok in H as (ce3 & Hset & H).
        assert (H23 : same_counters ce2 ce3)
          by (destruct (result i =? 0)%N; [by injection Hset as <-|by apply set_slot_same in Hset]).
        assert (H13 : advances ce ce3 True).
        { eapply advances_trans; [|by apply same_advances].
          destruct H12 as [D M X S L O]. split; try done. intros _. by apply O. }
        destruct (IH ce3 H) as [Ha Hj]. split; [by eapply advances_trans|].
        intros Hcn Hjp. specialize (Hj Hcn Hjp). destruct H13 as [D M X S L O]. lia.
      * injection H as <- <-. split; [|done]. destruct H12 as [D M X S L O]. by split.
    + intros [= <- <-]. split; [|done]. by split; simpl; try done; lia.
Qed.

Lemma enter_advances ce f args ce' o :
  consteval_enter ce f args = Ok (ce', o) ->
  match o with
  | None => same_counters ce ce'
  | Some e => is_extern f = false /\ e = entry_block f /\ call_depth ce < max_call_depth ce /\
              same_counters (with_depth ce (call_depth ce + 1)) ce'
  end.
Proof.
  unfold consteval_enter. destruct (is_extern f); [by intros [= <- <-]|].
  destruct (Z.leb_spec (max_call_depth ce) (call_depth ce)); [by intros [= <- <-]|].
  intros (ce1 & Hs & [= <- <-])%obind_Ok. split_and!; try done.
  revert Hs. generalize (with_depth ce (call_depth ce + 1)). generalize (params f). revert args.
  induction args as [|a args IH]; intros [|p ps] ce0; simpl; try (by intros [= <-]).
  intros (ce2 & H2%set_slot_same & Hs%IH)%obind_Ok. by eapply same_trans.
Qed.

(** [ce] is inside the call: the way out takes one off the depth. *)
Lemma run_advances n ce f cur ce' o :
  consteval_run module n ce f cur = Ok (ce', o) ->
  advances (with_depth ce (call_depth ce - 1)) ce' (o <> None).
Proof.
  revert ce f cur ce' o. induction n as [|n IH]; intros ce f cur ce' o; [done|]. cbn [consteval_run].
  destruct cur as [b|]; [|intros [= <- <-]; split; simpl; try done; lia].
  intros (blk & _ & H)%obind_Ok. apply obind_Ok in H as ([ce1 fl] & Hb & H). simpl in H.
  apply block_advances in Hb as [[D M X S L O] _].
  - destruct fl as [b'|v|].
    + apply IH in H as [D2 M2 X2 S2 L2 O2]. simpl in *. assert (HO : FJump b' <> FFail) by done.
      specialize (O HO). split; simpl; try congruence; try lia. intros Ho. specialize (O2 Ho). lia.
    + injection H as <- <-. split; simpl; try congruence; try lia. intros _. by apply O.
    + injection H as <- <-. split; simpl; try congruence; lia.
  - intros c g args c' o' ([c1 e] & He%enter_advances & Hr)%obind_Ok. simpl in Hr. destruct e as [entry|].
    + apply IH in Hr as [D2 M2 X2 S2 L2 O2]. destruct He as (_ & _ & _ & D3 & M3 & X3 & S3). simpl in *.
      rewrite D3, M3, X3, S3 in *. split; simpl; try lia; try done.
    + injection Hr as <- <-. by apply same_advances.
Qed.

Lemma call_counters n : call_advances (mir_consteval_call module n).
Proof.
  intros c g args c' o ([c1 e] & He%enter_advances & Hr)%obind_Ok. simpl in Hr. destruct e as [entry|].
  - apply run_advances in Hr as [D2 M2 X2 S2 L2 O2]. destruct He as (_ & _ & _ & D3 & M3 & X3 & S3). simpl in *.
    rewrite D3, M3, X3, S3 in *. split; simpl; try lia; try done.
  - injection Hr as <- <-. by apply same_advances.
Qed.

(** Whatever happens inside, a call of the evaluator gives the call depth
    back, never counts more than one step past the limit, and has stayed
    within the limit when it succeeds after counting any step. *)
Theorem consteval_balanced n ce f args ce' o
    (Hrun : mir_consteval_call module n ce f args = Ok (ce', o)) :
  call_depth ce' = call_depth ce /\ steps ce <= steps ce' <= Z.max (steps ce) (max_steps ce) + 1 /\
  (o <> None -> steps ce' = steps ce \/ steps ce' <= max_steps ce).
Proof.
  by apply call_counters in Hrun as [D M X S L O].
Qed.

(** ** Termination *)

Definition counted (f : MirFunction) : Prop :=
  forall b blk, block_at f b = Some blk -> counts (insts blk) = true.

Definition budget (ce : MirConstEval) : Z :=
  Z.max 0 (max_steps ce + 1 - steps ce) + Z.max 0 (max_call_depth ce - call_depth ce).

Lemma slot_no_fuel ce id : ensure_slot ce id <> OutOfFuel.
Proof. unfold ensure_slot. by repeat case_match. Qed.

Lemma get_slot_no_fuel ce id : get_slot ce id <> OutOfFuel.
Proof. apply obind_no_fuel; [apply slot_no_fuel|done]. Qed.

Lemma set_slot_no_fuel ce id v : set_slot ce id v <> OutOfFuel.
Proof. apply obind_no_fuel; [apply slot_no_fuel|done]. Qed.

Lemma of_option_no_fuel {A} (o : option A) : of_option o <> OutOfFuel.
Proof. by destruct o. Qed.

Lemma collect_no_fuel ce ids : collect ce ids <> OutOfFuel.
Proof.
  revert ce. induction ids as [|id ids IH]; intros ce; simpl; [done|].
  apply obind_no_fuel; [apply get_slot_no_fuel|]. intros v. by apply obind_no_fuel.
Qed.

Lemma with_slots_no_fuel ce l r (k : _ -> outcome (MirConstEval * bool)) :
  (forall c a b, k (c, a, b) <> OutOfFuel) -> obind (get_slots ce l r) k <> OutOfFuel.
Proof.
  intros Hk. apply obind_no_fuel; [|by intros [[c a] b]]. unfold get_slots.
  apply obind_no_fuel; [apply get_slot_no_fuel|]. intros a.
  apply obind_no_fuel; [apply get_slot_no_fuel|]. intros b. by destruct (_ <? _).
Qed.

Lemma store_result_no_fuel ce r v : store_result ce r v <> OutOfFuel.
Proof. apply obind_no_fuel; [apply set_slot_no_fuel|done]. Qed.

Ltac no_fuel_leaf :=
  first [ done | apply store_result_no_fuel
        | apply obind_no_fuel; [apply of_option_no_fuel|]; let v := fresh "v" in intros v; try destruct v;
          no_fuel_leaf ].

Lemma step_no_fuel ce i : mir_consteval_step ce i <> OutOfFuel.
Proof.
  unfold mir_consteval_step. destruct (_ <? _); [done|].
  destruct (as_ i) as [| | | | | | |op l r|op v t| |p|p v| | | | | | | | | | | |op v| | | | | | | | | |];
    try no_fuel_leaf.
  - unfold step_binary. destruct op; try no_fuel_leaf;
      (apply with_slots_no_fuel; intros c a b; destruct a; try no_fuel_leaf; destruct b; no_fuel_leaf).
  - unfold step_unary. destruct op; try no_fuel_leaf;
      (apply obind_no_fuel; [apply get_slot_no_fuel|]; intros [c a]; cbn [fst snd]; destruct a; no_fuel_leaf).
  - apply obind_no_fuel; [apply get_slot_no_fuel|]. intros w. no_fuel_leaf.
  - apply obind_no_fuel; [apply get_slot_no_fuel|]. intros w. no_fuel_leaf.
  - destruct op; try no_fuel_leaf;
      (apply obind_no_fuel; [apply get_slot_no_fuel|]; intros w; no_fuel_leaf).
Qed.

Lemma enter_no_fuel ce f args : consteval_enter ce f args <> OutOfFuel.
Proof.
  unfold consteval_enter. destruct (is_extern f); [done|]. destruct (_ <=? _); [done|].
  apply obind_no_fuel; [|done]. generalize (with_depth ce (call_depth ce + 1)). generalize (params f).
  induction args as [|a args IH]; intros [|p ps] ce0; simpl; try done.
  apply obind_no_fuel; [apply set_slot_no_fuel|]. intros ce1. apply IH.
Qed.

(** A block runs out of fuel only if a call it makes does; the calls start
    with the counters the block has reached. *)
Lemma block_no_fuel call ce l :
  call_advances call ->
  (forall c g args, call_depth c = call_depth ce -> max_steps c = max_steps ce ->
     max_call_depth c = max_call_depth ce -> steps ce <= steps c ->
     g ∈ func_list module -> call c g args <> OutOfFuel) ->
  consteval_block module call ce l <> OutOfFuel.
Proof.
  intros Hadv. revert ce. induction l as [|i l IH]; intros ce Hcall; simpl; [done|].
  assert (Hnext : forall c (ok : Prop), advances ce c ok -> consteval_block module call c l <> OutOfFuel).
  { intros c ok [D M X S L O]. apply IH. intros c' g args D' M' X' S'. apply Hcall; try congruence; lia. }
  assert (Hstep : (let! s := mir_consteval_step ce i in
    if s.2 then consteval_block module call s.1 l else Ok (s.1, FFail)) <> OutOfFuel).
  { destruct (mir_consteval_step ce i) as [[c b]| |] eqn:Hs; simpl; [|done|by apply step_no_fuel in Hs].
    destruct b; [|done]. apply step_counts in Hs as (S & L & D & M & X). specialize (L eq_refl).
    apply (Hnext c True). split; try congruence; lia. }
  destruct (as_ i); try exact Hstep; try done.
  - apply obind_no_fuel; [apply get_slot_no_fuel|]. intros [c []]; done.
  - by apply obind_no_fuel; [apply get_slot_no_fuel|].
  - destruct (mir_module_find_function module func_name) as [g|] eqn:Hf; [|done].
    destruct (collect ce (take 16 args)) as [[c1 vs]| |] eqn:Hc; simpl; [|done|by apply collect_no_fuel in Hc].
    apply collect_same in Hc. simpl in Hc. pose proof Hc as (D & M & X & S).
    destruct (call c1 g vs) as [[c2 o]| |] eqn:Hcl; simpl; [|done|].
    + apply Hadv in Hcl. destruct o as [v|]; [|done].
      destruct (if (result i =? 0)%N then Ok c2 else set_slot c2 (result i) v) as [c3| |] eqn:Hs; simpl;
        [|done|by destruct (result i =? 0)%N; [|apply set_slot_no_fuel in Hs]].
      assert (H23 : same_counters c2 c3)
        by (destruct (result i =? 0)%N; [by injection Hs as <-|by apply set_slot_same in Hs]).
      destruct Hcl as [D2 M2 X2 S2 L2 O2]. destruct H23 as (D3 & M3 & X3 & S3).
      apply IH. intros c' h args' D' M' X' S'. apply Hcall; try congruence; lia.
    + exfalso. apply (Hcall c1 g vs) in Hcl; try done; [lia|].
      unfold mir_module_find_function in Hf. apply bind_Some in Hf as ([k h] & Hk & [= <-]).
      apply list_find_Some in Hk as (Hk & _ & _). by eapply list_elem_of_lookup_2.
Qed.

Hypothesis all_counted : forall g, g ∈ func_list module -> counted g.

Lemma run_no_fuel n ce f cur :
  counted f -> budget ce < Z.of_nat n -> consteval_run module n ce f cur <> OutOfFuel.
Proof.
  revert ce f cur. induction n as [|n IH]; intros ce f cur Hf Hb; [unfold budget in Hb; lia|].
  cbn [consteval_run]. destruct cur as [b|]; [|done].
  destruct (block_at f b) as [blk|] eqn:Hblk; [|done]. cbn [of_option obind].
  fold (mir_consteval_call module n). change (fun ce g args => mir_consteval_call module n ce g args)
    with (mir_consteval_call module n). set (call := mir_consteval_call module n).
  assert (Hadv : call_advances call) by apply call_counters.
  destruct (consteval_block module call ce (insts blk)) as [[ce1 fl]| |] eqn:Hbl; simpl; [|done|].
  - destruct fl as [b'|v|]; [|done|done].
    destruct (block_advances _ _ _ _ _ Hadv Hbl) as [[D M X S L O] Hj].
    apply IH; [done|]. specialize (Hj (Hf b blk Hblk) I). unfold budget in *. lia.
  - exfalso. revert Hbl. apply block_no_fuel; [done|].
    intros c g args D M X S Hg. unfold call, mir_consteval_call.
    destruct (consteval_enter c g args) as [[c1 e]| |] eqn:He; simpl; [|done|].
    + destruct e as [entry|]; [|done]. apply enter_advances in He as (_ & _ & Hd & D3 & M3 & X3 & S3).
      simpl in *. apply IH; [by apply all_counted|]. unfold budget in *. lia.
    + by apply enter_no_fuel in He.
Qed.

(** Evaluation terminates.  When no block of the module jumps without
    having executed a counted instruction, fuel for the remaining steps plus
    the remaining call depth is enough for any call, whatever recursion and
    loops the module has: from [mir_consteval_init], 100034. *)
Theorem consteval_terminates n ce f args (Hf : counted f)
    (Hn : budget ce + 1 < Z.of_nat n) :
  mir_consteval_call module n ce f args <> OutOfFuel.
Proof.
  unfold mir_consteval_call.
  destruct (consteval_enter ce f args) as [[c1 e]| |] eqn:He; simpl; [|done|].
  - destruct e as [entry|]; [|done]. apply enter_advances in He as (_ & _ & Hd & D3 & M3 & X3 & S3).
    apply run_no_fuel; [done|]. unfold budget in *. simpl in *. lia.
  - by apply enter_no_fuel in He.
Qed.

End counters.

(** ** Examples *)

Definition ce_block (i : Z) (l : list MirInst) : MirBlock := mkBlock i "" l (Z.of_nat (length l)) [] [] None [] [] 0 false.
Definition ce_inst (r : N) (k : MirInstKind) : MirInst := mkInst k r TY_NULL 0 0.
Definition ce_function (name : string) (ps : list MirParam) (bs : list MirBlock) : MirFunction :=
  mkFunction name TY_NULL ps (Some 0%nat) bs (seq 0 (length bs)) (Z.of_nat (length bs)) 20
    (replicate 64 TY_NULL) true false false.
Definition ce_module (l : list MirFunction) : MirModule := mkModule "m" l (Z.of_nat (length l)) [] [] [].

(** [constexpr f(n) { return n < 3 ? 3 : n; }] *)
Definition ex_max : MirFunction := ce_function "max3" [mkParam "n" TY_NULL 1%N]
  [ce_block 0 [ce_inst 2 (CONST_INT 3); ce_inst 3 (BINARY MIR_CMP_LT 1 2); ce_inst 0 (CONDBR 3 (Some 1%nat) (Some 2%nat))];
   ce_block 1 [ce_inst 0 (RET 2)];
   ce_block 2 [ce_inst 0 (RET 1)]].

Lemma ex_max_counted f : f ∈ func_list (ce_module [ex_max]) -> counted f.
Proof.
  intros Hf%list_elem_of_singleton. subst f. intros b blk Hb.
  do 3 (destruct b as [|b]; [by injection Hb as <-|]). done.
Qed.

Lemma consteval_balanced_witness :
  exists ce', mir_consteval_call (ce_module [ex_max]) 9 mir_consteval_init ex_max [CVAL_INT 8]
    = Ok (ce', Some (CVAL_INT 8)) /\ call_depth ce' = 0.
Proof.
  destruct (mir_consteval_call (ce_module [ex_max]) 9 mir_consteval_init ex_max [CVAL_INT 8])
    as [[ce' o]| |] eqn:H; [|vm_compute in H; discriminate H..].
  exists ce'. destruct (consteval_balanced _ _ _ _ _ _ _ H) as [Hd _]. split; [|exact Hd].
  vm_compute in H. by injection H as _ <-.
Defined.

Lemma consteval_terminates_witness :
  mir_consteval_call (ce_module [ex_max]) (Z.to_nat 100040) mir_consteval_init ex_max [CVAL_INT 8] <> OutOfFuel.
Proof.
  apply (consteval_terminates (ce_module [ex_max]) ex_max_counted).
  - apply ex_max_counted. by apply list_elem_of_singleton.
  - rewrite Z2Nat.id by lia. vm_compute. reflexivity.
Defined.

(** The step limit does not guarantee termination: branches are not
    counted, so the evaluation of [b: br b] never ends, whatever the fuel; nor
    does the eligibility check of a function that calls itself. *)
Theorem consteval_branch_loop_diverges :
  let spin := ce_function "spin" [] [ce_block 0 [ce_inst 0 (BR (Some 0%nat))]] in
  let self := mkFunction "self" TY_NULL [] (Some 0%nat) [ce_block 0 [ce_inst 1 (CALL "self" [] 0); ce_inst 0 (RET 1)]]
                [0%nat] 1 2 [] false false false in
  (forall n, mir_consteval_call (ce_module [spin]) n mir_consteval_init spin [] = OutOfFuel) /\
  (forall n, mir_consteval_eligible n (ce_module [self]) self = OutOfFuel).
Proof.
  intros spin self. split; intros n.
  - change (consteval_run (ce_module [spin]) n (with_depth mir_consteval_init 1) spin (Some 0%nat) = OutOfFuel).
    induction n as [|n IH]; [done|]. exact IH.
  - induction n as [|n IH]; [done|].
    change (obind (obind (mir_consteval_eligible n (ce_module [self]) self)
      (fun b => if b then all_ok (eligible_inst (mir_consteval_eligible n (ce_module [self])) (ce_module [self]))
                            [ce_inst 0 (RET 1)] else Ok false))
      (fun b => if b then Ok true else Ok false) = OutOfFuel).
    by rewrite IH.
Qed.
