(* ===== verification/ConstEvalVm.v ===== *)
(** * The constant evaluator agrees with the virtual machine

    On scalar code (no calls, no memory, no narrowing conversion) every value
    [mir_consteval_call] computes is, in its register encoding, the value
    [cvm_exec_function] returns.  Outside that fragment the two disagree: the
    findings at the end show a narrowing conversion and a recursive call. *)
From S2P Require Import Prelude MirCore Float64 Cvm CvmFacts CvmSafe ConstEval ConstEvalFacts.
From Stdlib Require Import SpecFloat.

(** ** Values as registers *)

(** The 64-bit slot of a constant; strings and void have none. *)
Definition encode (v : MirConstValue) : Z :=
  match v with
  | CVAL_INT z => u64 z
  | CVAL_FLOAT b => b
  | CVAL_BOOL b => b2z b
  | CVAL_STRING _ | CVAL_NULL | CVAL_VOID => 0
  end.

Definition val_ok (v : MirConstValue) : Prop :=
  match v with
  | CVAL_INT z => INT64_MIN <= z <= INT64_MAX
  | CVAL_STRING _ => False
  | _ => True
  end.

Definition reg_in (n : N) (v : MirValueId) : bool := (0 <? v)%N && (v <? n)%N.

(** The instructions of the fragment; those the evaluator refuses are of no
    concern. *)
Definition scalar_inst (n : N) (i : MirInst) : bool :=
  match as_ i with
  | CONST_INT z => in_s64 z && reg_in n (result i)
  | CONST_FLOAT _ | CONST_BOOL _ | CONST_NULL => reg_in n (result i)
  | BINARY _ l r => reg_in n l && reg_in n r && reg_in n (result i)
  | UNARY (MIR_TRUNC | MIR_SEXT | MIR_CAST) _ _ => false
  | UNARY _ v _ => reg_in n v && reg_in n (result i)
  | TRANSFER MIR_COPY v => reg_in n v && reg_in n (result i)
  | TRANSFER MIR_MOVE _ | ALLOCA _ _ | LOAD _ | STORE _ _ | CALL _ _ _ | CONST_STRING _ => false
  | CONDBR c _ _ => reg_in n c
  | RET v => reg_in n v
  | _ => true
  end.

Record scalar_function (f : MirFunction) : Prop := {
  sf_body : is_extern f = false;
  sf_regs : (0 < next_value_id f <= Z.to_N CVM_MAX_REGS)%N;
  sf_params : Forall (fun p => reg_in (next_value_id f) (p_value_id p) = true) (params f);
  sf_insts : forall b blk, block_at f b = Some blk ->
    Forall (fun i => scalar_inst (next_value_id f) i = true) (insts blk)
}.

(** ** The register file holds the slots *)

Record matches (n : N) (ce : MirConstEval) (fr : CvmFrame) : Prop := {
  ma_len : length (regs fr) = N.to_nat n;
  ma_slots : forall id, reg_in n id = true ->
    regs fr !! N.to_nat id = Some (encode (slot ce id)) /\ val_ok (slot ce id);
  ma_allocas : allocas fr = []
}.

Lemma matches_slots n ce ce' fr : slots ce' = slots ce -> matches n ce fr -> matches n ce' fr.
Proof. intros Hs [Hl Hm Ha]. split; [done| |done]. intros id Hid. unfold slot. rewrite Hs. by apply Hm. Qed.

Lemma ensure_slot_slots ce id ce' : ensure_slot ce id = Ok ce' -> slots ce' = slots ce.
Proof. unfold ensure_slot. intros H. by inv_ok. Qed.

Lemma get_slot_value ce id p : get_slot ce id = Ok p -> p.2 = slot ce id /\ slots p.1 = slots ce.
Proof.
  unfold get_slot. intros (ce' & H%ensure_slot_slots & [= <-])%obind_Ok. simpl.
  split; [by unfold slot; rewrite H|done].
Qed.

Lemma get_slots_value ce l r p :
  get_slots ce l r = Ok p -> p.1.2 = slot ce l /\ p.2 = slot ce r /\ slots p.1.1 = slots ce.
Proof.
  unfold get_slots. intros (a & [Ha1 Ha2]%get_slot_value & H)%obind_Ok.
  apply obind_Ok in H as (b & [Hb1 Hb2]%get_slot_value & H). destruct (_ <? _); [done|].
  injection H as <-. simpl. unfold slot in *. rewrite Ha2 in *. done.
Qed.

Section agree.
Context (module : MirModule) (calloc : gmap Z Z -> Z -> option Z) (string_addr : string -> Z).
Context (n : N) (Hn : (0 < n <= Z.to_N CVM_MAX_REGS)%N).

Lemma reg_in_range v : reg_in n v = true -> v <> 0%N /\ s32 (Z.of_N v) = Z.of_N v /\ (v < n)%N.
Proof.
  unfold reg_in, CVM_MAX_REGS in *. intros [H1%N.ltb_lt H2%N.ltb_lt]%andb_prop.
  split_and!; [lia| |done]. apply s32_small. lia.
Qed.

Lemma reg_read ce fr vm v :
  matches n ce fr -> reg_in n v = true ->
  cvm_reg_get vm fr v = Ok (vm, encode (slot ce v)) /\ val_ok (slot ce v).
Proof.
  intros [Hl Hm _] Hv. destruct (reg_in_range v Hv) as (H0 & Hs & Hlt). destruct (Hm v Hv) as [Hr Hok].
  split; [|done]. unfold cvm_reg_get, reg_count. rewrite (proj2 (N.eqb_neq v 0)) by done.
  rewrite Hs, Hl, (proj2 (Z.leb_gt _ _)) by lia. by rewrite Hr.
Qed.

(** Storing a value on both sides. *)
Lemma slot_write ce fr r v ce' :
  matches n ce fr -> reg_in n r = true -> val_ok v -> set_slot ce r v = Ok ce' ->
  matches n ce' (set_regs fr (<[N.to_nat r := encode v]> (regs fr))).
Proof.
  intros [Hl Hm Ha] Hr Hv (ce2 & He%ensure_slot_slots & [= <-])%obind_Ok.
  destruct (reg_in_range r Hr) as (H0 & Hs32 & Hlt). split; simpl.
  - by rewrite length_insert.
  - intros id Hid. destruct (reg_in_range id Hid) as (_ & _ & Hidlt). unfold slot. simpl.
    destruct (decide (id = r)) as [-> | Hne].
    + rewrite lookup_insert_eq, list_lookup_insert_eq by lia. done.
    + rewrite lookup_insert_ne, list_lookup_insert_ne by (done || lia). rewrite He. by apply Hm.
  - done.
Qed.

Lemma reg_write ce fr vm r v ce' b :
  matches n ce fr -> reg_in n r = true -> val_ok v -> store_result ce r v = Ok (ce', b) ->
  exists fr', set_next vm fr r (encode v) = Ok (vm, fr', NextInst) /\ matches n ce' fr'.
Proof.
  intros Hm Hr Hv (ce1 & Hs & [= <- <-])%obind_Ok. destruct (reg_in_range r Hr) as (H0 & Hs32 & Hlt).
  pose proof (ma_len _ _ _ Hm) as Hl. unfold set_next, cvm_reg_set, reg_count.
  rewrite (proj2 (N.eqb_neq r 0)) by done.
  rewrite Hs32, Hl, (proj2 (Z.leb_gt _ _)), (proj2 (Nat.leb_gt _ _)) by lia. cbn [obind fst snd].
  eexists. split; [reflexivity|]. by apply (slot_write ce).
Qed.

(** ** Operations *)

Lemma u64_inj_s64 a b :
  INT64_MIN <= a <= INT64_MAX -> INT64_MIN <= b <= INT64_MAX -> (u64 a =? u64 b) = (a =? b).
Proof.
  intros Ha Hb. destruct (Z.eqb_spec a b) as [-> | Hne]; [by rewrite Z.eqb_refl|].
  apply Z.eqb_neq. intros He. apply Hne. apply u64_eq_mod in He. by rewrite !s64_small in He.
Qed.

Lemma s64_u64_range a : INT64_MIN <= a <= INT64_MAX -> s64 (u64 a) = a.
Proof. intros Ha. rewrite s64_of_u64. by apply s64_small. Qed.

Lemma sint64_ok z v : sint64 z = Some v -> v = z /\ INT64_MIN <= v <= INT64_MAX.
Proof. intros [-> H]%sint64_Some. done. Qed.

Lemma u64_add_ok a b : u64 (u64 a + u64 b) = u64 (a + b).
Proof. unfold u64. by rewrite Zplus_mod_idemp_l, Zplus_mod_idemp_r. Qed.
Lemma u64_sub_ok a b : u64 (u64 a - u64 b) = u64 (a - b).
Proof. unfold u64. by rewrite Zminus_mod_idemp_l, Zminus_mod_idemp_r. Qed.
Lemma u64_mul_ok a b : u64 (u64 a * u64 b) = u64 (a * b).
Proof. unfold u64. by rewrite Zmult_mod_idemp_l, Zmult_mod_idemp_r. Qed.

Lemma int_arith_ok op a b v :
  INT64_MIN <= a <= INT64_MAX -> INT64_MIN <= b <= INT64_MAX ->
  match op with MIR_ADD | MIR_SUB | MIR_MUL | MIR_DIV | MIR_MOD => True | _ => False end ->
  int_arith op a b = Some (inl v) ->
  cvm_binop op (u64 a) (u64 b) = u64 v /\ INT64_MIN <= v <= INT64_MAX.
Proof.
  intros Ha Hb Hop. destruct op; try done; simpl.
  - destruct (sint64 (a + b)) eqn:H; [|done]. apply sint64_ok in H as [-> H]. intros [= <-].
    by rewrite u64_add_ok.
  - destruct (sint64 (a - b)) eqn:H; [|done]. apply sint64_ok in H as [-> H]. intros [= <-].
    by rewrite u64_sub_ok.
  - destruct (sint64 (a * b)) eqn:H; [|done]. apply sint64_ok in H as [-> H]. intros [= <-].
    by rewrite u64_mul_ok.
  - unfold cvm_safe_div_i64, sdiv64. rewrite !s64_u64_range by done. destruct (Z.eqb_spec b 0); [done|].
    destruct (sint64 (Z.quot a b)) eqn:H; [|done]. apply sint64_ok in H as [-> H]. intros [= <-].
    split; [|done]. destruct (Z.eqb_spec a INT64_MIN) as [-> |], (Z.eqb_spec b (-1)) as [-> |]; simpl; done.
  - unfold cvm_safe_mod_i64, srem64. rewrite !s64_u64_range by done. destruct (Z.eqb_spec b 0) as [|Hb0]; [done|].
    destruct ((a =? INT64_MIN) && (b =? -1)); [done|]. intros [= <-]. split; [done|].
    pose proof (Z.rem_bound_abs a b Hb0). word_lia.
Qed.

(** A signed word is one whose bits from 63 up are all equal. *)
Lemma s64_shiftr z : INT64_MIN <= z <= INT64_MAX <-> Z.shiftr z 63 = 0 \/ Z.shiftr z 63 = -1.
Proof.
  rewrite Z.shiftr_div_pow2 by lia. pose proof (Z_div_mod_eq_full z (2 ^ 63)).
  pose proof (Z.mod_pos_bound z (2 ^ 63)). word_lia.
Qed.

Lemma u64_testbit z k : 0 <= k -> Z.testbit (u64 z) k = Z.testbit z k && (k <? 64).
Proof.
  intros Hk. unfold u64. destruct (Z.ltb_spec k 64).
  - by rewrite Z.mod_pow2_bits_low, andb_true_r by lia.
  - by rewrite Z.mod_pow2_bits_high, andb_false_r by lia.
Qed.

Lemma bitwise_ok op a b v :
  INT64_MIN <= a <= INT64_MAX -> INT64_MIN <= b <= INT64_MAX ->
  match op with MIR_BAND | MIR_BOR | MIR_BXOR | MIR_SHL | MIR_SHR => True | _ => False end ->
  bitwise op a b = Some v ->
  cvm_binop op (u64 a) (u64 b) = u64 v /\ INT64_MIN <= v <= INT64_MAX.
Proof.
  intros Ha Hb Hop Hv.
  assert (Hshift : 0 <= b <= 63 -> Z.land (u64 b) 63 = b).
  { intros H. rewrite u64_small by (rewrite pow2_64; lia). change 63 with (Z.ones 6).
    rewrite Z.land_ones by lia. apply Z.mod_small. change (2 ^ 6) with 64. lia. }
  destruct op; try done; simpl in *.
  - injection Hv as <-. rewrite s64_shiftr, Z.shiftr_land in *. split.
    + apply Z.bits_inj'. intros k Hk. rewrite Z.land_spec, !u64_testbit, Z.land_spec by done.
      by destruct (Z.testbit a k), (Z.testbit b k), (k <? 64).
    + destruct Ha as [-> | ->], Hb as [-> | ->]; auto.
  - injection Hv as <-. rewrite s64_shiftr, Z.shiftr_lor in *. split.
    + apply Z.bits_inj'. intros k Hk. rewrite Z.lor_spec, !u64_testbit, Z.lor_spec by done.
      by destruct (Z.testbit a k), (Z.testbit b k), (k <? 64).
    + destruct Ha as [-> | ->], Hb as [-> | ->]; auto.
  - injection Hv as <-. rewrite s64_shiftr, Z.shiftr_lxor in *. split.
    + apply Z.bits_inj'. intros k Hk. rewrite Z.lxor_spec, !u64_testbit, Z.lxor_spec by done.
      by destruct (Z.testbit a k), (Z.testbit b k), (k <? 64).
    + destruct Ha as [-> | ->], Hb as [-> | ->]; auto.
  - destruct (Z.ltb_spec b 0), (Z.ltb_spec 63 b), (Z.ltb_spec a 0); simpl in Hv; try discriminate.
    apply sint64_ok in Hv as [-> Hv]. rewrite Hshift by lia.
    by rewrite (u64_small a) by word_lia.
  - destruct (Z.ltb_spec b 0), (Z.ltb_spec 63 b); simpl in Hv; try discriminate. injection Hv as <-.
    rewrite Hshift, s64_u64_range by (done || lia). split; [done|]. rewrite Z.shiftr_div_pow2 by lia.
    assert (1 <= 2 ^ b) by (pose proof (Z.pow_pos_nonneg 2 b); lia).
    split; [apply Z.div_le_lower_bound|apply Z.div_le_upper_bound]; try lia; unfold INT64_MIN, INT64_MAX in *; nia.
Qed.

Lemma int_compare_ok op a b :
  INT64_MIN <= a <= INT64_MAX -> INT64_MIN <= b <= INT64_MAX ->
  match op with MIR_CMP_EQ | MIR_CMP_NE | MIR_CMP_LT | MIR_CMP_LE | MIR_CMP_GT | MIR_CMP_GE => True
           | _ => False end ->
  cvm_binop op (u64 a) (u64 b) = b2z (int_compare op a b).
Proof.
  intros Ha Hb Hop. destruct op; try done; simpl; rewrite ?s64_u64_range, ?u64_inj_s64 by done; done.
Qed.

Lemma fptosi_ok r v : c_fptosi r = Some v -> cvm_safe_fptosi r = u64 v /\ INT64_MIN <= v <= INT64_MAX.
Proof.
  unfold c_fptosi, cvm_safe_fptosi. destruct (cvm_bits_to_f64 r) as [s|s| |s m e]; try done.
  - intros [= <-]. split; [done|]. word_lia.
  - intros H. apply sint64_ok in H as [-> H]. split; [|done].
    destruct s; destruct (Z.leb_spec (2 ^ 63) (f64_trunc m e)); try done; [|word_lia].
    f_equal. word_lia.
Qed.

(** ** One instruction *)

(** Both operands read on both sides. *)
Lemma reg_read2 ce fr vm l r p :
  matches n ce fr -> reg_in n l = true -> reg_in n r = true -> get_slots ce l r = Ok p ->
  cvm_reg_get vm fr l = Ok (vm, encode p.1.2) /\ cvm_reg_get vm fr r = Ok (vm, encode p.2) /\
  val_ok p.1.2 /\ val_ok p.2 /\ matches n p.1.1 fr.
Proof.
  intros Hm Hl Hr (-> & -> & Hs)%get_slots_value.
  destruct (reg_read ce fr vm l Hm Hl) as [-> ?], (reg_read ce fr vm r Hm Hr) as [-> ?].
  split_and!; try done. by apply (matches_slots n ce).
Qed.

Lemma binary_agrees ce fr vm r op lhs rhs ce' :
  matches n ce fr -> reg_in n lhs = true -> reg_in n rhs = true -> reg_in n r = true ->
  step_binary ce r op lhs rhs = Ok (ce', true) ->
  exists fr', op_binary vm fr r op lhs rhs = Ok (vm, fr', NextInst) /\ matches n ce' fr'.
Proof.
  intros Hm Hl Hr Hres H. unfold op_binary. unfold step_binary in H.
  assert (Hgo : forall (k : MirConstEval * MirConstValue * MirConstValue -> outcome (MirConstEval * bool)),
    (forall x, reads_rhs op x = true) ->
    obind (get_slots ce lhs rhs) k = Ok (ce', true) ->
    (forall c a b, val_ok a -> val_ok b -> k (c, a, b) = Ok (ce', true) ->
       exists v, store_result c r v = Ok (ce', true) /\ val_ok v /\ cvm_binop op (encode a) (encode b) = encode v) ->
    exists fr', (let! a := cvm_reg_get vm fr lhs in
       let! b := (if reads_rhs op a.2 then cvm_reg_get a.1 fr rhs else Ok (a.1, 0)) in
       set_next b.1 fr r (cvm_binop op a.2 b.2)) = Ok (vm, fr', NextInst) /\ matches n ce' fr').
  { intros k Hrd ([[c a] b] & Hg & Hk)%obind_Ok Hv.
    destruct (reg_read2 ce fr vm lhs rhs _ Hm Hl Hr Hg) as (-> & Hb & Ha & Hbok & Hm'). cbn [obind fst snd] in *.
    rewrite Hrd, Hb. cbn [obind fst snd].
    destruct (Hv c a b Ha Hbok Hk) as (v & Hs & Hvok & ->). by eapply reg_write. }
  destruct op; try discriminate H; refine (Hgo _ (fun _ => eq_refl) H _); clear Hgo H;
    intros c a b Ha Hb H; destruct a as [a|a|a|a| |], b as [b|b|b|b| |]; try discriminate H;
    try (match goal with H : obind (of_option ?o) _ = Ok _ |- _ =>
      destruct o as [w|] eqn:Hw; cbn [of_option obind] in H; [|discriminate H] end);
    try (match goal with H : match ?w with inl _ => _ | inr _ => _ end = _ |- _ =>
      destruct w as [z|?]; [|discriminate H] end);
    eexists; (split; [exact H|]); cbn [val_ok encode mir_cval_int mir_cval_float mir_cval_bool] in *;
    first [ match type of Hw with
            | int_arith ?o _ _ = Some (inl ?z) => by destruct (int_arith_ok o a b z Ha Hb I Hw)
            | bitwise ?o _ _ = Some ?z => by destruct (bitwise_ok o a b z Ha Hb I Hw)
            end
          | by split; [|apply int_compare_ok] | by split ].
Qed.

Lemma unary_agrees ce fr vm r op v t ce' :
  matches n ce fr -> reg_in n v = true -> reg_in n r = true ->
  op <> MIR_TRUNC -> op <> MIR_SEXT -> op <> MIR_CAST ->
  step_unary ce r op v = Ok (ce', true) ->
  exists fr', (let! a := cvm_reg_get vm fr v in
     let! x := of_option (cvm_unop (type_cache module) op t a.2) in
     set_next a.1 fr r x) = Ok (vm, fr', NextInst) /\ matches n ce' fr'.
Proof.
  intros Hm Hv Hr Ht Hs Hc H. destruct (reg_read ce fr vm v Hm Hv) as [-> Hok]. cbn [obind fst snd].
  unfold step_unary in H. destruct op; try discriminate H; try done;
    apply obind_Ok in H as ([c a] & [Ha Hsl]%get_slot_value & H); cbn [fst snd] in *;
    apply (matches_slots n ce c) in Hm; try done; rewrite <- Ha in *; clear Ha;
    destruct a as [a|a|a|a| |]; try discriminate H; try done; cbn [val_ok encode cvm_unop] in *.
  - apply obind_Ok in H as (w & Hw & H). destruct (sint64 (- a)) as [z|] eqn:Hz; [|done]. injection Hw as <-.
    rewrite s64_u64_range, Hz by done. apply sint64_ok in Hz as [-> Hz]. by eapply (reg_write c fr vm r (CVAL_INT (- a))).
  - by eapply (reg_write c fr vm r (CVAL_FLOAT _)).
  - replace (b2z (b2z a =? 0)) with (b2z (negb a)) by (by destruct a).
    by eapply (reg_write c fr vm r (CVAL_BOOL _)).
  - by eapply (reg_write c fr vm r (CVAL_INT _)).
  - by eapply (reg_write c fr vm r (CVAL_FLOAT _)).
  - by eapply (reg_write c fr vm r (CVAL_BOOL _)).
  - by eapply (reg_write c fr vm r CVAL_NULL).
  - by eapply (reg_write c fr vm r CVAL_VOID).
  - rewrite s64_u64_range by done. by eapply (reg_write c fr vm r (CVAL_FLOAT _)).
  - apply obind_Ok in H as (w & Hw & H). destruct (c_fptosi a) as [z|] eqn:Hz; [|done]. injection Hw as <-.
    apply fptosi_ok in Hz as [-> Hz]. by eapply (reg_write c fr vm r (CVAL_INT _)).
Qed.

Lemma step_agrees ce fr vm prev i ce' :
  matches n ce fr -> scalar_inst n i = true -> mir_consteval_step ce i = Ok (ce', true) ->
  call_of (as_ i) = None /\
  exists fr', exec_inst module calloc string_addr vm fr prev i = Ok (vm, fr', NextInst) /\ matches n ce' fr'.
Proof.
  intros Hm Hsc H. unfold mir_consteval_step in H. destruct (_ <? _); [discriminate H|].
  apply (matches_slots n ce (with_steps ce (steps ce + 1))) in Hm; [|done].
  unfold scalar_inst in Hsc. unfold exec_inst.
  destruct (as_ i) as [z|b|b| | | | |op l r|op v t| | | | | | | | | | | | | | |op v| | | | | | | | | |];
    try discriminate H; try discriminate Hsc; (split; [done|]).
  - apply andb_prop in Hsc as [Hz Hr]. eapply (reg_write _ fr vm _ (CVAL_INT z)); try done.
    unfold in_s64 in Hz. simpl. lia.
  - by eapply (reg_write _ fr vm _ (CVAL_FLOAT b)).
  - by eapply (reg_write _ fr vm _ (CVAL_BOOL b)).
  - by eapply (reg_write _ fr vm _ CVAL_NULL).
  - apply andb_prop in Hsc as [[Hl Hr]%andb_prop Hres]. by eapply binary_agrees.
  - assert (Hop : op <> MIR_TRUNC /\ op <> MIR_SEXT /\ op <> MIR_CAST) by (by destruct op).
    assert (Hreg : reg_in n v && reg_in n (result i) = true) by (by destruct op).
    apply andb_prop in Hreg as [Hv Hr]. destruct Hop as (? & ? & ?). by eapply unary_agrees.
  - destruct op; try discriminate H; try discriminate Hsc. apply andb_prop in Hsc as [Hv Hr].
    destruct (reg_read _ fr vm v Hm Hv) as [-> Hok]. cbn [obind fst snd].
    apply obind_Ok in H as ([c a] & [Ha Hsl]%get_slot_value & H). cbn [fst snd] in *. rewrite <- Ha in *.
    eapply (reg_write c fr); [by eapply matches_slots|done..|exact H].
  - injection H as <-. by exists fr.
  - injection H as <-. by exists fr.
Qed.

(** ** Blocks and runs *)

Lemma tick_trap vm : trap_code (tick vm) = trap_code vm.
Proof. done. Qed.

(** Where the machine stands when the evaluator leaves a block: at the head of
    the target, or out of the function with the encoded value.  [k] is the
    number of instructions dispatched. *)
Definition reaches (f : MirFunction) (cur : nat) (vm : CvmState) (fr : CvmFrame) (prev : blockptr)
    (l : list MirInst) (ce' : MirConstEval) (fl : flow) : Prop :=
  match fl with
  | FJump (Some b) => exists k vm' fr', trap_code vm' = 0 /\ matches n ce' fr' /\
      forall j blk, block_at f b = Some blk ->
        cvm_exec module calloc string_addr (k + j) vm fr f cur prev l =
        cvm_exec module calloc string_addr j vm' fr' f b (Some cur) (insts blk)
  | FRet v => exists k vm', cvm_exec module calloc string_addr k vm fr f cur prev l = Ok (vm', encode v) /\ trap_code vm' = 0
  | _ => True
  end.

Lemma reaches_step f cur vm fr prev i l ce' fl fr' :
  trap_code vm = 0 -> call_of (as_ i) = None ->
  exec_inst module calloc string_addr (tick vm) fr prev i = Ok (tick vm, fr', NextInst) ->
  reaches f cur (tick vm) fr' prev l ce' fl -> reaches f cur vm fr prev (i :: l) ce' fl.
Proof.
  intros Ht Hc He Hr.
  assert (Hs : forall j, cvm_exec module calloc string_addr (S j) vm fr f cur prev (i :: l) =
    cvm_exec module calloc string_addr j (tick vm) fr' f cur prev l).
  { intros j. cbn [cvm_exec]. rewrite exec_step_cons, Hc, He. cbn [obind]. by rewrite tick_trap, Ht. }
  unfold reaches in *. destruct fl as [[b|]|v|]; try done.
  - destruct Hr as (k & vm' & fr2 & Ht' & Hm & Hj). exists (S k), vm', fr2. split_and!; [done|done|].
    intros j blk Hb. cbn [Nat.add]. rewrite Hs. by apply Hj.
  - destruct Hr as (k & vm' & Hk & Ht'). exists (S k), vm'. by rewrite Hs.
Qed.

Lemma block_agrees call ce l ce' fl f cur vm fr prev :
  Forall (fun i => scalar_inst n i = true) l -> matches n ce fr -> trap_code vm = 0 ->
  consteval_block module call ce l = Ok (ce', fl) -> reaches f cur vm fr prev l ce' fl.
Proof.
  intros Hl. revert ce vm fr. induction Hl as [|i l Hi Hl IH]; intros ce vm fr Hm Ht; simpl.
  { by intros [= <- <-]. }
  assert (Hstep : (let! s := mir_consteval_step ce i in
      if s.2 then consteval_block module call s.1 l else Ok (s.1, FFail)) = Ok (ce', fl) ->
    reaches f cur vm fr prev (i :: l) ce' fl).
  { intros ([ce1 b] & Hs & H)%obind_Ok. simpl in H. destruct b; [|by injection H as <- <-].
    destruct (step_agrees ce fr (tick vm) prev i ce1 Hm Hi Hs) as (Hc & fr' & He & Hm').
    eapply reaches_step; [done..|]. by eapply IH. }
  assert (Hone : forall k, exec_inst module calloc string_addr (tick vm) fr prev i = k -> call_of (as_ i) = None ->
    forall j, cvm_exec module calloc string_addr (S j) vm fr f cur prev (i :: l) =
    let! h := k in let '(vm, fr, k) := h in
      match k with
      | NextInst => if negb (trap_code vm =? 0) then Ok (cvm_leave vm fr, 0)
                    else cvm_exec module calloc string_addr j vm fr f cur prev (tail (i :: l))
      | Jump None => Ok (cvm_leave vm fr, 0)
      | Jump (Some b) => let! blk := of_option (block_at f b) in
                         cvm_exec module calloc string_addr j vm fr f b (Some cur) (insts blk)
      | Done v => Ok (cvm_leave vm fr, v)
      end).
  { intros k Hk Hc j. cbn [cvm_exec]. by rewrite exec_step_cons, Hc, Hk. }
  unfold scalar_inst in Hi. unfold exec_inst in Hone.
  destruct (as_ i) as [| | | | | | | | | | | | |target|c tb fb| |v| | |cn ids callee| | | | | | | | | | | | | |] eqn:Has;
    try exact Hstep; try discriminate Hi.
  - intros [= <- <-]. destruct target as [b|]; [|done]. exists 1%nat, (tick vm), fr. split_and!; [done|done|].
    intros j blk Hb. cbn [Nat.add]. rewrite (Hone _ eq_refl eq_refl j). cbn [obind]. by rewrite Hb.
  - intros ([c1 w] & [Hw Hsl]%get_slot_value & H)%obind_Ok. cbn [fst snd] in *.
    destruct (reg_read ce fr (tick vm) c Hm Hi) as [Hrd _]. rewrite Hrd, <- Hw in Hone. cbn [obind fst snd] in Hone.
    destruct w as [| |b| | |]; try (by injection H as <- <-). injection H as <- <-.
    assert (Htb : (if b2z b =? 0 then fb else tb) = if b then tb else fb) by (by destruct b).
    cbn [encode] in Hone. rewrite Htb in Hone. unfold reaches. destruct (if b then tb else fb) as [t|]; [|done].
    exists 1%nat, (tick vm), fr. split_and!; [done|by eapply matches_slots|].
    intros j blk Hb. cbn [Nat.add]. rewrite (Hone _ eq_refl eq_refl j). cbn [obind]. by rewrite Hb.
  - intros ([c1 w] & [Hw Hsl]%get_slot_value & [= <- <-])%obind_Ok. cbn [fst snd] in *.
    destruct (reg_read ce fr (tick vm) v Hm Hi) as [Hrd _]. rewrite Hrd, <- Hw in Hone.
    exists 1%nat. eexists. rewrite (Hone _ eq_refl eq_refl 0%nat). split; [reflexivity|]. by destruct fr.
  - intros [= <- <-]. exists 1%nat. eexists. rewrite (Hone _ eq_refl eq_refl 0%nat). split; [reflexivity|]. by destruct fr.
Qed.

Lemma run_agrees j ce f cur ce' v vm fr prev blk :
  (forall b blk, block_at f b = Some blk -> Forall (fun i => scalar_inst n i = true) (insts blk)) ->
  matches n ce fr -> trap_code vm = 0 -> block_at f cur = Some blk ->
  consteval_run module j ce f (Some cur) = Ok (ce', Some v) ->
  exists k vm', cvm_exec module calloc string_addr k vm fr f cur prev (insts blk) = Ok (vm', encode v) /\ trap_code vm' = 0.
Proof.
  intros Hsc. revert ce cur vm fr prev blk.
  induction j as [|j IH]; intros ce cur vm fr prev blk Hm Ht Hb; [done|]. cbn [consteval_run].
  rewrite Hb. cbn [of_option obind]. intros ([ce1 fl] & Hbl & H)%obind_Ok. cbn [fst snd] in H.
  apply (block_agrees _ _ _ _ _ f cur vm fr prev (Hsc _ _ Hb) Hm Ht) in Hbl.
  destruct fl as [[b|]|w|]; [| |by injection H as _ <-|by injection H].
  - destruct Hbl as (k & vm1 & fr1 & Ht1 & Hm1 & Hk).
    destruct (block_at f b) as [blk1|] eqn:Hb1.
    + destruct (IH ce1 b vm1 fr1 (Some cur) blk1 Hm1 Ht1 Hb1 H) as (k1 & vm2 & Hr & Ht2).
      exists (k + k1)%nat, vm2. by rewrite (Hk k1 blk1 eq_refl).
    + destruct j; [done|]. cbn [consteval_run] in H. by rewrite Hb1 in H.
  - destruct j; [done|]. by cbn [consteval_run] in H.
Qed.

End agree.

(** ** Whole calls *)

Lemma init_matches f : matches (next_value_id f) mir_consteval_init
  (mkFrame (replicate (N.to_nat (next_value_id f)) 0) []).
Proof.
  split; simpl; [apply length_replicate| |done]. intros id [H1%N.ltb_lt H2%N.ltb_lt]%andb_prop.
  unfold slot. simpl. rewrite lookup_empty. split; [|cbn; word_lia]. rewrite lookup_replicate_2 by lia. done.
Qed.

(** The arguments land in the same registers and slots. *)
Lemma params_match n ce ce' fr ps args :
  (0 < n <= Z.to_N CVM_MAX_REGS)%N -> matches n ce fr -> Forall val_ok args ->
  Forall (fun p => reg_in n (p_value_id p) = true) ps -> set_params ce ps args = Ok ce' ->
  matches n ce' (mkFrame (copy_args ps (encode <$> args) (regs fr)) []).
Proof.
  intros Hn Hm Hargs. revert ce fr args Hm Hargs.
  induction ps as [|p ps IH]; intros ce fr [|a args] Hm Hargs Hps; simpl.
  1-3: intros [= <-]; destruct Hm as [Hl Hs Ha]; by split.
  apply Forall_cons_1 in Hargs as [Ha Hargs]. apply Forall_cons_1 in Hps as [Hp Hps].
  intros (ce1 & H1 & H)%obind_Ok. pose proof (reg_in_range n Hn _ Hp) as (H0 & _ & Hlt).
  pose proof (slot_write n Hn ce fr _ a ce1 Hm Hp Ha H1) as Hm1.
  rewrite (proj2 (N.eqb_neq _ 0)), (proj2 (N.ltb_lt _ _)) by (done || rewrite (ma_len _ _ _ Hm); lia).
  by apply (IH ce1 (set_regs fr (<[N.to_nat (p_value_id p) := encode a]> (regs fr))) args).
Qed.

(** C15: compile-time evaluation agrees with the virtual machine.  When
    [mir_consteval_call] succeeds on a scalar function (constants but strings,
    arithmetic, comparisons, conversions but TRUNC, SEXT and CAST, copies and
    branches, on values of the register file), the interpreter, from any state without a pending trap and with a frame to spare, runs the
    same function on the encoded arguments, ends without a trap and returns the
    encoding of the value the evaluator computed. *)
Theorem consteval_agrees_with_vm m calloc string_addr j f args vm ce' v
    (Hf : scalar_function f) (Hargs : Forall val_ok args)
    (Ht : trap_code vm = 0) (Hd : frame_depth vm < CVM_MAX_CALL_DEPTH)
    (Hrun : mir_consteval_call m j mir_consteval_init f args = Ok (ce', Some v)) :
  exists k vm', cvm_exec_function m calloc string_addr k vm f (encode <$> args) = Ok (vm', encode v) /\ trap_code vm' = 0.
Proof.
  destruct Hf as [Hx Hn Hps Hsc]. unfold mir_consteval_call in Hrun.
  apply obind_Ok in Hrun as ([ce1 e] & He & Hrun). cbn [fst snd] in Hrun.
  unfold consteval_enter in He. rewrite Hx in He. change (_ <=? _) with false in He. cbv iota in He.
  apply obind_Ok in He as (ce2 & Hset & [= <- <-]).
  pose proof (init_matches f) as Hm0.
  apply (matches_slots _ _ (with_depth mir_consteval_init (call_depth mir_consteval_init + 1))) in Hm0; [|done].
  pose proof (params_match _ _ _ _ _ _ Hn Hm0 Hargs Hps Hset) as Hm. simpl regs in Hm.
  destruct (entry_block f) as [b|] eqn:Hentry; [|destruct j; [done|by cbn [consteval_run] in Hrun]].
  destruct (block_at f b) as [blk|] eqn:Hblk;
    [|destruct j; [done|cbn [consteval_run] in Hrun; by rewrite Hblk in Hrun]].
  set (vm1 := set_depth vm (frame_depth vm + 1)
    (if frame_depth_peak vm <? frame_depth vm + 1 then frame_depth vm + 1 else frame_depth_peak vm)).
  destruct (run_agrees m calloc string_addr (next_value_id f) Hn j ce2 f b ce' v vm1 _ None blk Hsc Hm
              Ht Hblk Hrun) as (k & vm' & Hk & Htr).
  exists k, vm'. unfold cvm_exec_function, enter_function, cvm_enter.
  rewrite (proj2 (Z.ltb_ge CVM_MAX_CALL_DEPTH (frame_depth vm + 1))) by lia.
  rewrite Hentry. cbn [of_option obind]. rewrite Hblk. cbn [of_option obind].
  assert (Hregs : frame_regs f (encode <$> args) =
    copy_args (params f) (encode <$> args) (replicate (N.to_nat (next_value_id f)) 0)).
  { unfold frame_regs, CVM_MAX_REGS in *. rewrite (proj2 (N.ltb_lt 0 _)), s32_small by lia.
    rewrite (proj2 (Z.ltb_ge _ _)) by lia. f_equal. f_equal. lia. }
  rewrite Hregs. fold vm1. destruct (insts blk) as [|i l] eqn:Hins; [|exact (conj Hk Htr)].
  exfalso. destruct j; [done|]. cbn [consteval_run] in Hrun. rewrite Hblk in Hrun. cbn [of_option obind] in Hrun.
  by rewrite Hins in Hrun.
Qed.

Lemma consteval_agrees_with_vm_witness :
  exists k vm', cvm_exec_function (ce_module [ex_max]) (fun _ _ => None) (fun _ => 0) k (cvm_state_create ∅)
    ex_max [u64 (-7)] = Ok (vm', 3) /\ trap_code vm' = 0.
Proof.
  destruct (mir_consteval_call (ce_module [ex_max]) 9 mir_consteval_init ex_max [CVAL_INT (-7)])
    as [[ce' o]| |] eqn:Hrun; [|vm_compute in Hrun; discriminate Hrun..].
  assert (Ho : o = Some (CVAL_INT 3)) by (vm_compute in Hrun; by injection Hrun as _ <-). subst o.
  apply (consteval_agrees_with_vm (ce_module [ex_max]) (fun _ _ => None) (fun _ => 0) 9 ex_max
           [CVAL_INT (-7)] (cvm_state_create ∅) ce' (CVAL_INT 3)).
  - split; [reflexivity|by vm_compute|by repeat constructor|].
    intros b blk Hb. do 3 (destruct b as [|b]; [injection Hb as <-; by repeat constructor|]). done.
  - constructor; [|constructor]. vm_compute. split; congruence.
  - reflexivity.
  - vm_compute. reflexivity.
  - exact Hrun.
Defined.

(** [constexpr sum(n) { return n == 0 ? 0 : n + sum(n - 1); }] *)
Definition ex_sum : MirFunction := ce_function "sum" [mkParam "n" TY_NULL 1%N]
  [ce_block 0 [ce_inst 2 (CONST_INT 0); ce_inst 3 (BINARY MIR_CMP_EQ 1 2);
               ce_inst 0 (CONDBR 3 (Some 1%nat) (Some 2%nat))];
   ce_block 1 [ce_inst 0 (RET 2)];
   ce_block 2 [ce_inst 4 (CONST_INT 1); ce_inst 5 (BINARY MIR_SUB 1 4); ce_inst 6 (CALL "sum" [5%N] 0);
               ce_inst 7 (BINARY MIR_ADD 1 6); ce_inst 0 (RET 7)]].

Definition ex_trunc : MirFunction := ce_function "low" [mkParam "n" TY_NULL 1%N]
  [ce_block 0 [ce_inst 2 (UNARY MIR_TRUNC 1 TY_NULL); ce_inst 0 (RET 2)]].

Definition constant_of (f : MirFunction) (v : MirConstValue) : option MirConstValue :=
  match mir_consteval_call (ce_module [f]) 50 mir_consteval_init f [v] with
  | Ok (_, o) => o
  | _ => None
  end.

Definition run_of (f : MirFunction) (v : MirConstValue) : option Z :=
  match cvm_exec_function (ce_module [f]) (fun _ _ => None) (fun _ => 0) 60 (cvm_state_create ∅) f [encode v] with
  | Ok (_, r) => Some r
  | _ => None
  end.

(** Outside the scalar fragment compile time and run time disagree.  The
    slots are shared by all active calls, so a recursive call overwrites its
    caller's values: [sum(3)] is 6 at run time and 0 as a constant.  And a
    truncation keeps the whole value: the low word of [2^32 + 5] is 5 at run
    time and [2^32 + 5] as a constant. *)
Theorem consteval_diverges_from_vm :
  run_of ex_sum (CVAL_INT 3) = Some 6 /\ constant_of ex_sum (CVAL_INT 3) = Some (CVAL_INT 0) /\
  run_of ex_trunc (CVAL_INT (2 ^ 32 + 5)) = Some 5 /\
  constant_of ex_trunc (CVAL_INT (2 ^ 32 + 5)) = Some (CVAL_INT (2 ^ 32 + 5)).
Proof. split_and!; vm_compute; reflexivity. Qed.
