(* ===== verification/Lexer.v ===== *)
(** * The lexer

    [src/compiler/frontend/lexer.c]: the scanner of the compiler's front end.
    A pointer into the source is the list of the characters from it to the
    terminating zero, so that the end of the source is the empty list and a
    lexeme is the difference of two pointers.  [line] and [column] are not
    wrapped: they are at most the length of the source and one, which has to be
    below 2^31.  [print_token] writes text. *)
From Stdlib Require Import Ascii SpecFloat.
From S2P Require Import Prelude CString.

Inductive CpxTokenType :=
| TOKEN_INTEGER | TOKEN_FLOAT | TOKEN_STRING | TOKEN_TRUE | TOKEN_FALSE | TOKEN_IDENTIFIER
| TOKEN_INT_TYPE | TOKEN_FLOAT_TYPE | TOKEN_STRING_TYPE | TOKEN_BOOL_TYPE | TOKEN_VOID_TYPE | TOKEN_I8_TYPE
| TOKEN_I16_TYPE | TOKEN_I32_TYPE | TOKEN_I64_TYPE | TOKEN_I128_TYPE | TOKEN_U8_TYPE | TOKEN_U16_TYPE
| TOKEN_U32_TYPE | TOKEN_U64_TYPE | TOKEN_U128_TYPE | TOKEN_F16_TYPE | TOKEN_F32_TYPE | TOKEN_F64_TYPE
| TOKEN_BF16_TYPE | TOKEN_CHAR_TYPE | TOKEN_STRBUF_TYPE | TOKEN_ARRAY_TYPE | TOKEN_SLICE_TYPE | TOKEN_PTR_TYPE
| TOKEN_RAWPTR_TYPE | TOKEN_REF_TYPE | TOKEN_TENSOR_TYPE | TOKEN_LET | TOKEN_CONST | TOKEN_MUT
| TOKEN_STRUCT | TOKEN_ENUM_KW | TOKEN_UNION_KW | TOKEN_PRINT | TOKEN_IF | TOKEN_ELIF
| TOKEN_ELSE | TOKEN_FOR | TOKEN_WHILE | TOKEN_FUNC | TOKEN_RETURN | TOKEN_BREAK
| TOKEN_CONTINUE | TOKEN_INCLUDE | TOKEN_IMPORT | TOKEN_CLASS | TOKEN_EXTENDS | TOKEN_THIS
| TOKEN_NEW | TOKEN_STATIC | TOKEN_SUPER | TOKEN_ABSTRACT | TOKEN_PRIVATE | TOKEN_PUBLIC
| TOKEN_PROTECTED | TOKEN_EXTERN | TOKEN_ASYNC | TOKEN_AWAIT | TOKEN_SPAWN | TOKEN_MOVE
| TOKEN_UNSAFE | TOKEN_COPY | TOKEN_WHERE | TOKEN_MATCH | TOKEN_IN | TOKEN_TRY
| TOKEN_CATCH | TOKEN_FINALLY | TOKEN_THROW | TOKEN_TRAIT | TOKEN_IMPL | TOKEN_IMPLEMENTS
| TOKEN_PLUS | TOKEN_MINUS | TOKEN_STAR | TOKEN_SLASH | TOKEN_PERCENT | TOKEN_ASSIGN
| TOKEN_INFER_ASSIGN | TOKEN_EQUAL | TOKEN_NOT_EQUAL | TOKEN_LESS | TOKEN_LESS_EQUAL | TOKEN_GREATER
| TOKEN_GREATER_EQUAL | TOKEN_AND | TOKEN_OR | TOKEN_NOT | TOKEN_PLUS_ASSIGN | TOKEN_MINUS_ASSIGN
| TOKEN_STAR_ASSIGN | TOKEN_SLASH_ASSIGN | TOKEN_PERCENT_ASSIGN | TOKEN_BITAND | TOKEN_BITXOR | TOKEN_BITNOT
| TOKEN_LSHIFT | TOKEN_RSHIFT | TOKEN_LPAREN | TOKEN_RPAREN | TOKEN_LBRACE | TOKEN_RBRACE
| TOKEN_LBRACKET | TOKEN_RBRACKET | TOKEN_SEMICOLON | TOKEN_COLON | TOKEN_COMMA | TOKEN_ARROW
| TOKEN_DOT | TOKEN_PIPE | TOKEN_FAT_ARROW | TOKEN_QUESTION | TOKEN_ERROR | TOKEN_EOF.

#[export] Instance CpxTokenType_eq_dec : EqDecision CpxTokenType.
Proof. solve_decision. Defined.

(** The union of a token's values; [string_value] may hold zeros. *)
Inductive Literal :=
| no_value
| int_value (z : Z)
| float_value (d : spec_float)
| string_value (s : list ascii)
| bool_value (b : bool).

(** [tk_start] points to the source, or to the message of an error. *)
Record Token := mkToken {
  type : CpxTokenType;
  tk_start : cstr;
  tk_length : Z;
  tk_line : Z;
  tk_column : Z;
  literal : Literal
}.

Record Lexer := mkLexer {
  start : cstr;
  current : cstr;
  line : Z;
  column : Z;
  start_column : Z
}.

Definition NUL : ascii := "000".
Definition NL : ascii := "010".
Definition TAB : ascii := "009".
Definition CR : ascii := "013".
Definition QUOTE : ascii := "034".
Definition BACKSLASH : ascii := "092".

Definition eqc (a b : ascii) : bool := Ascii.eqb a b.

(** ** Characters *)

Definition init_lexer (source : cstr) : Lexer :=
  let source := match source with
    | a :: b :: c :: r => if (byte a =? 0xEF) && (byte b =? 0xBB) && (byte c =? 0xBF) then r else source
    | _ => source
    end in
  mkLexer source source 1 1 1.

Definition is_at_end (lx : Lexer) : bool := match current lx with [] => true | _ => false end.

(** The lexer behind a character. *)
Definition moved_to (lx : Lexer) (r : cstr) : Lexer := mkLexer (start lx) r (line lx) (column lx + 1) (start_column lx).

(** Never called at the end of the source. *)
Definition advance (lx : Lexer) : outcome (ascii * Lexer) :=
  match current lx with c :: r => Ok (c, moved_to lx r) | [] => Undef end.

Definition peek (lx : Lexer) : ascii := match current lx with c :: _ => c | [] => NUL end.
Definition peek_next (lx : Lexer) : ascii := match current lx with _ :: c :: _ => c | _ => NUL end.

Definition match_ (lx : Lexer) (expected : ascii) : bool * Lexer :=
  match current lx with
  | c :: r => if eqc c expected then (true, moved_to lx r) else (false, lx)
  | [] => (false, lx)
  end.

(** The lexeme between the two pointers. *)
Definition lexeme (lx : Lexer) : cstr := take (length (start lx) - length (current lx)) (start lx).

Definition make_token (lx : Lexer) (ty : CpxTokenType) (v : Literal) : Token :=
  mkToken ty (start lx) (Z.of_nat (length (start lx)) - Z.of_nat (length (current lx))) (line lx) (start_column lx) v.

Definition error_token (lx : Lexer) (message : string) : Token :=
  mkToken TOKEN_ERROR (lit message) (Z.of_nat (length (lit message))) (line lx) (start_column lx) no_value.

(** ** White space *)

(** [while (p(peek(lexer)) && !is_at_end(lexer)) advance(lexer);] *)
Fixpoint advance_while (p : ascii -> bool) (s : cstr) (col : Z) : cstr * Z :=
  match s with
  | c :: r => if p c then advance_while p r (col + 1) else (s, col)
  | [] => ([], col)
  end.
Definition while_peek (p : ascii -> bool) (lx : Lexer) : Lexer :=
  let r := advance_while p (current lx) (column lx) in
  mkLexer (start lx) r.1 (line lx) r.2 (start_column lx).

(** The loop over a multi-line comment. *)
Fixpoint block_comment (s : cstr) (ln col : Z) : cstr * Z * Z :=
  match s with
  | [] => ([], ln, col)
  | c :: r =>
      match r with
      | d :: r' => if eqc c "*" && eqc d "/" then (r', ln, col + 2)
                   else if eqc c NL then block_comment r (ln + 1) (0 + 1) else block_comment r ln (col + 1)
      | [] => if eqc c NL then block_comment r (ln + 1) (0 + 1) else block_comment r ln (col + 1)
      end
  end.
Definition in_block_comment (lx : Lexer) : Lexer :=
  let '(s, ln, col) := block_comment (current lx) (line lx) (column lx) in
  mkLexer (start lx) s ln col (start_column lx).

(** [fuel] bounds the turns of the loop: each passes a character. *)
Fixpoint skip_whitespace (fuel : nat) (lx : Lexer) : outcome Lexer :=
  match fuel with
  | O => OutOfFuel
  | S fuel =>
      let c := peek lx in
      if eqc c " " || eqc c CR || eqc c TAB then
        let! r := advance lx in skip_whitespace fuel r.2
      else if eqc c NL then
        let! r := advance (mkLexer (start lx) (current lx) (line lx + 1) 0 (start_column lx)) in
        skip_whitespace fuel r.2
      else if eqc c "/" then
        if eqc (peek_next lx) "/" then skip_whitespace fuel (while_peek (fun c => negb (eqc c NL)) lx)
        else if eqc (peek_next lx) "*" then
          let! r := advance lx in
          let! r := advance r.2 in
          skip_whitespace fuel (in_block_comment r.2)
        else Ok lx
      else Ok lx
  end.

(** ** Strings *)

(** The loop up to the closing quote: the pointer, the line and the column. *)
Fixpoint string_body (s : cstr) (ln col : Z) : cstr * Z * Z :=
  match s with
  | [] => ([], ln, col)
  | c :: r =>
      if eqc c QUOTE then (s, ln, col)
      else if eqc c BACKSLASH then
        match r with
        | _ :: r' => string_body r' ln (col + 1 + 1)
        | [] => ([], ln, col + 1)
        end
      else string_body r (if eqc c NL then ln + 1 else ln) (col + 1)
  end.

(** The loop over the escape sequences. *)
Fixpoint process_escapes (raw : list ascii) : list ascii :=
  match raw with
  | [] => []
  | c :: r =>
      if eqc c BACKSLASH then
        match r with
        | [] => [c]
        | e :: r' =>
            (if eqc e "n" then [NL]
             else if eqc e "t" then [TAB]
             else if eqc e "r" then [CR]
             else if eqc e BACKSLASH then [BACKSLASH]
             else if eqc e QUOTE then [QUOTE]
             else if eqc e "0" then [NUL]
             else [BACKSLASH; e]) ++ process_escapes r'
        end
      else c :: process_escapes r
  end.

Definition string_token (lx : Lexer) : outcome (Token * Lexer) :=
  let '(s, ln, col) := string_body (current lx) (line lx) (column lx) in
  let lx := mkLexer (start lx) s ln col (start_column lx) in
  if is_at_end lx then Ok (error_token lx "Unterminated string", lx) else
  let! r := advance lx in
  let lx := r.2 in
  let w := lexeme lx in
  let raw_str := take (length w - 2) (drop 1 w) in
  Ok (make_token lx TOKEN_STRING (string_value (process_escapes raw_str)), lx).

(** ** Numbers *)

Definition is_digit (c : ascii) : bool := (byte "0" <=? byte c) && (byte c <=? byte "9").
Definition is_hex_digit (c : ascii) : bool :=
  is_digit c || ((byte "a" <=? byte c) && (byte c <=? byte "f")) || ((byte "A" <=? byte c) && (byte c <=? byte "F")).
Definition is_bin_digit (c : ascii) : bool := eqc c "0" || eqc c "1".

(** [strtoull], [atoll] and [atof] of the C library, on strings that start with
    a digit or are empty: no blanks and no sign. *)
Definition digit_value (c : ascii) : Z :=
  if is_digit c then byte c - byte "0"
  else if (byte "a" <=? byte c) && (byte c <=? byte "z") then byte c - byte "a" + 10
  else if (byte "A" <=? byte c) && (byte c <=? byte "Z") then byte c - byte "A" + 10
  else 36.
Fixpoint digits_value (base acc : Z) (s : cstr) : Z :=
  match s with
  | c :: r => if digit_value c <? base then digits_value base (acc * base + digit_value c) r else acc
  | [] => acc
  end.
Definition ULLONG_MAX : Z := 2 ^ 64 - 1.
Definition strtoull (s : cstr) (base : Z) : Z :=
  let digits := match s with
    | z :: x :: d :: r => if (base =? 16) && eqc z "0" && (eqc x "x" || eqc x "X") && is_hex_digit d then d :: r else s
    | _ => s
    end in
  Z.min (digits_value base 0 digits) ULLONG_MAX.
(** Undefined if the value does not fit. *)
Definition atoll (s : cstr) : outcome Z :=
  let v := digits_value 10 0 s in if in_s64 v then Ok v else Undef.
(** Digits, a point and digits; the quotient is rounded once. *)
Definition atof (s : cstr) : spec_float :=
  let fraction := (advance_while is_digit s 0).1 in
  let frac := match fraction with _ :: r => r | [] => [] end in
  let whole := take (length s - length fraction) s in
  match digits_value 10 0 (whole ++ frac) with
  | Zpos m => SFdiv 53 1024 (S754_finite false m 0) (S754_finite false (10 ^ Pos.of_nat (length frac))%positive 0)
  | _ => S754_zero false
  end.

Definition number (lx : Lexer) : outcome (Token * Lexer) :=
  let first_char := match start lx with c :: _ => c | [] => NUL end in
  if eqc first_char "0" && (eqc (peek lx) "x" || eqc (peek lx) "X") then
    let! r := advance lx in
    let lx := while_peek is_hex_digit r.2 in
    Ok (make_token lx TOKEN_INTEGER (int_value (s64 (strtoull (lexeme lx) 16))), lx)
  else if eqc first_char "0" && (eqc (peek lx) "b" || eqc (peek lx) "B") then
    let! r := advance lx in
    let lx := while_peek is_bin_digit r.2 in
    Ok (make_token lx TOKEN_INTEGER (int_value (s64 (strtoull (drop 2 (lexeme lx)) 2))), lx)
  else
    let lx := while_peek is_digit lx in
    if eqc (peek lx) "." && is_digit (peek_next lx) then
      let! r := advance lx in
      let lx := while_peek is_digit r.2 in
      Ok (make_token lx TOKEN_FLOAT (float_value (atof (lexeme lx))), lx)
    else
      let! v := atoll (lexeme lx) in
      Ok (make_token lx TOKEN_INTEGER (int_value v), lx).

(** ** Identifiers and keywords *)

Definition is_alpha (c : ascii) : bool :=
  ((byte "a" <=? byte c) && (byte c <=? byte "z")) || ((byte "A" <=? byte c) && (byte c <=? byte "Z")) || eqc c "_".

Definition check_keyword (w : cstr) (rest : string) (ty : CpxTokenType) : CpxTokenType :=
  if bool_decide (w = lit rest) then ty else TOKEN_IDENTIFIER.

(** A row of [memcmp]s with keywords of the lexeme's length. *)
Fixpoint memcmp_any (w : cstr) (l : list (string * CpxTokenType)) : CpxTokenType :=
  match l with
  | [] => TOKEN_IDENTIFIER
  | (k, ty) :: l => if bool_decide (w = lit k) then ty else memcmp_any w l
  end.

(** [start[i] == c] *)
Definition char_at (w : cstr) (i : nat) (c : ascii) : bool := match w !! i with Some x => Ascii.eqb x c | None => false end.

Definition identifier_type (w : cstr) : CpxTokenType :=
  let n := length w in
  if char_at w 0 "a" then
    if (n =? 8)%nat then check_keyword w "abstract" TOKEN_ABSTRACT else
    if (n =? 5)%nat then memcmp_any w [("array", TOKEN_ARRAY_TYPE); ("async", TOKEN_ASYNC); ("await", TOKEN_AWAIT)] else
    TOKEN_IDENTIFIER else
  if char_at w 0 "b" then
    if (n =? 4)%nat then memcmp_any w [("bool", TOKEN_BOOL_TYPE); ("bf16", TOKEN_BF16_TYPE)] else
    if (n =? 5)%nat then check_keyword w "break" TOKEN_BREAK else
    TOKEN_IDENTIFIER else
  if char_at w 0 "c" then
    if (n =? 4)%nat then memcmp_any w [("char", TOKEN_CHAR_TYPE); ("copy", TOKEN_COPY)] else
    if (n =? 5)%nat then memcmp_any w [("class", TOKEN_CLASS); ("catch", TOKEN_CATCH); ("const", TOKEN_CONST)] else
    if (n =? 8)%nat then check_keyword w "continue" TOKEN_CONTINUE else
    TOKEN_IDENTIFIER else
  if char_at w 0 "e" then
    if (n =? 4)%nat then memcmp_any w [("else", TOKEN_ELSE); ("elif", TOKEN_ELIF); ("enum", TOKEN_ENUM_KW)] else
    if (n =? 7)%nat then check_keyword w "extends" TOKEN_EXTENDS else
    if (n =? 6)%nat then check_keyword w "extern" TOKEN_EXTERN else
    TOKEN_IDENTIFIER else
  if char_at w 0 "f" then
    if (n =? 2)%nat then TOKEN_IDENTIFIER else
    if (n =? 3)%nat then memcmp_any w [("for", TOKEN_FOR); ("f16", TOKEN_F16_TYPE); ("f32", TOKEN_F32_TYPE); ("f64", TOKEN_F64_TYPE)] else
    if (n =? 4)%nat then check_keyword w "func" TOKEN_FUNC else
    if (n =? 5)%nat then memcmp_any w [("float", TOKEN_FLOAT_TYPE); ("false", TOKEN_FALSE)] else
    if (n =? 7)%nat then check_keyword w "finally" TOKEN_FINALLY else
    TOKEN_IDENTIFIER else
  if char_at w 0 "i" then
    if (n =? 2)%nat then if char_at w 1 "f" then TOKEN_IF else if char_at w 1 "8" then TOKEN_I8_TYPE else if char_at w 1 "n" then TOKEN_IN else TOKEN_IDENTIFIER else
    if (n =? 3)%nat then memcmp_any w [("int", TOKEN_INT_TYPE); ("i16", TOKEN_I16_TYPE); ("i32", TOKEN_I32_TYPE); ("i64", TOKEN_I64_TYPE)] else
    if (n =? 4)%nat then memcmp_any w [("i128", TOKEN_I128_TYPE); ("impl", TOKEN_IMPL)] else
    if (n =? 6)%nat then check_keyword w "import" TOKEN_IMPORT else
    if (n =? 10)%nat then check_keyword w "implements" TOKEN_IMPLEMENTS else
    TOKEN_IDENTIFIER else
  if char_at w 0 "l" then
    if (n =? 3)%nat then check_keyword w "let" TOKEN_LET else
    TOKEN_IDENTIFIER else
  if char_at w 0 "m" then
    if (n =? 3)%nat then check_keyword w "mut" TOKEN_MUT else
    if (n =? 4)%nat then check_keyword w "move" TOKEN_MOVE else
    if (n =? 5)%nat then check_keyword w "match" TOKEN_MATCH else
    TOKEN_IDENTIFIER else
  if char_at w 0 "n" then
    if (n =? 3)%nat then check_keyword w "new" TOKEN_NEW else
    TOKEN_IDENTIFIER else
  if char_at w 0 "p" then
    if (n =? 3)%nat then check_keyword w "ptr" TOKEN_PTR_TYPE else
    if (n =? 5)%nat then check_keyword w "print" TOKEN_PRINT else
    if (n =? 6)%nat then check_keyword w "public" TOKEN_PUBLIC else
    if (n =? 7)%nat then check_keyword w "private" TOKEN_PRIVATE else
    if (n =? 9)%nat then check_keyword w "protected" TOKEN_PROTECTED else
    TOKEN_IDENTIFIER else
  if char_at w 0 "r" then
    if (n =? 3)%nat then check_keyword w "ref" TOKEN_REF_TYPE else
    if (n =? 6)%nat then memcmp_any w [("return", TOKEN_RETURN); ("rawptr", TOKEN_RAWPTR_TYPE)] else
    TOKEN_IDENTIFIER else
  if char_at w 0 "s" then
    if (n =? 5)%nat then memcmp_any w [("super", TOKEN_SUPER); ("slice", TOKEN_SLICE_TYPE); ("spawn", TOKEN_SPAWN)] else
    if (n =? 6)%nat then memcmp_any w [("string", TOKEN_STRING_TYPE); ("static", TOKEN_STATIC); ("struct", TOKEN_STRUCT); ("strbuf", TOKEN_STRBUF_TYPE)] else
    TOKEN_IDENTIFIER else
  if char_at w 0 "t" then
    if (n =? 3)%nat then check_keyword w "try" TOKEN_TRY else
    if (n =? 4)%nat then memcmp_any w [("true", TOKEN_TRUE); ("this", TOKEN_THIS)] else
    if (n =? 5)%nat then memcmp_any w [("throw", TOKEN_THROW); ("trait", TOKEN_TRAIT)] else
    if (n =? 6)%nat then check_keyword w "tensor" TOKEN_TENSOR_TYPE else
    TOKEN_IDENTIFIER else
  if char_at w 0 "u" then
    if (n =? 2)%nat then if char_at w 1 "8" then TOKEN_U8_TYPE else TOKEN_IDENTIFIER else
    if (n =? 6)%nat then check_keyword w "unsafe" TOKEN_UNSAFE else
    if (n =? 3)%nat then memcmp_any w [("u16", TOKEN_U16_TYPE); ("u32", TOKEN_U32_TYPE); ("u64", TOKEN_U64_TYPE)] else
    if (n =? 4)%nat then check_keyword w "u128" TOKEN_U128_TYPE else
    if (n =? 5)%nat then check_keyword w "union" TOKEN_UNION_KW else
    TOKEN_IDENTIFIER else
  if char_at w 0 "v" then
    if (n =? 4)%nat then check_keyword w "void" TOKEN_VOID_TYPE else
    TOKEN_IDENTIFIER else
  if char_at w 0 "w" then
    if (n =? 5)%nat then memcmp_any w [("while", TOKEN_WHILE); ("where", TOKEN_WHERE)] else
    TOKEN_IDENTIFIER else
  TOKEN_IDENTIFIER.

Definition identifier (lx : Lexer) : Token * Lexer :=
  let lx := while_peek (fun c => is_alpha c || is_digit c) lx in
  let ty := identifier_type (lexeme lx) in
  (make_token lx ty (match ty with TOKEN_TRUE => bool_value true | TOKEN_FALSE => bool_value false | _ => no_value end), lx).

(** ** Tokens *)

Definition token (ty : CpxTokenType) (lx : Lexer) : Token * Lexer := (make_token lx ty no_value, lx).

(** [match(lexer, expected) ? yes : no] *)
Definition if_match (expected : ascii) (yes no : Lexer -> Token * Lexer) (lx : Lexer) : Token * Lexer :=
  let '(b, lx) := match_ lx expected in if b then yes lx else no lx.

(** The cases of the switch that end in one or two characters. *)
Definition symbol (c : ascii) : option (Lexer -> Token * Lexer) :=
  if eqc c "(" then Some (token TOKEN_LPAREN)
  else if eqc c ")" then Some (token TOKEN_RPAREN)
  else if eqc c "{" then Some (token TOKEN_LBRACE)
  else if eqc c "}" then Some (token TOKEN_RBRACE)
  else if eqc c "[" then Some (token TOKEN_LBRACKET)
  else if eqc c "]" then Some (token TOKEN_RBRACKET)
  else if eqc c ";" then Some (token TOKEN_SEMICOLON)
  else if eqc c ":" then Some (if_match "=" (token TOKEN_INFER_ASSIGN) (token TOKEN_COLON))
  else if eqc c "," then Some (token TOKEN_COMMA)
  else if eqc c "." then
    Some (fun lx => if negb (is_digit (peek lx)) then token TOKEN_DOT lx else (error_token lx "Unexpected '.' before digit", lx))
  else if eqc c "+" then Some (if_match "=" (token TOKEN_PLUS_ASSIGN) (token TOKEN_PLUS))
  else if eqc c "*" then Some (if_match "=" (token TOKEN_STAR_ASSIGN) (token TOKEN_STAR))
  else if eqc c "/" then Some (if_match "=" (token TOKEN_SLASH_ASSIGN) (token TOKEN_SLASH))
  else if eqc c "%" then Some (if_match "=" (token TOKEN_PERCENT_ASSIGN) (token TOKEN_PERCENT))
  else if eqc c "^" then Some (token TOKEN_BITXOR)
  else if eqc c "~" then Some (token TOKEN_BITNOT)
  else if eqc c "-" then Some (if_match "=" (token TOKEN_MINUS_ASSIGN) (if_match ">" (token TOKEN_ARROW) (token TOKEN_MINUS)))
  else if eqc c "<" then Some (if_match "<" (token TOKEN_LSHIFT) (if_match "=" (token TOKEN_LESS_EQUAL) (token TOKEN_LESS)))
  else if eqc c ">" then Some (if_match ">" (token TOKEN_RSHIFT) (if_match "=" (token TOKEN_GREATER_EQUAL) (token TOKEN_GREATER)))
  else if eqc c "=" then Some (if_match "=" (token TOKEN_EQUAL) (if_match ">" (token TOKEN_FAT_ARROW) (token TOKEN_ASSIGN)))
  else if eqc c "!" then Some (if_match "=" (token TOKEN_NOT_EQUAL) (token TOKEN_NOT))
  else if eqc c "&" then Some (if_match "&" (token TOKEN_AND) (token TOKEN_BITAND))
  else if eqc c "|" then Some (if_match "|" (token TOKEN_OR) (token TOKEN_PIPE))
  else if eqc c "?" then Some (token TOKEN_QUESTION)
  else None.

(** [fuel] bounds the calls that skip a comment behind [#] and the loop of
    [skip_whitespace]. *)
Fixpoint scan_token (fuel : nat) (lx : Lexer) : outcome (Token * Lexer) :=
  match fuel with
  | O => OutOfFuel
  | S n =>
      let! lx := skip_whitespace fuel lx in
      let lx := mkLexer (current lx) (current lx) (line lx) (column lx) (column lx) in
      if is_at_end lx then Ok (token TOKEN_EOF lx) else
      let! r := advance lx in
      let '(c, lx) := r in
      if is_alpha c then Ok (identifier lx)
      else if is_digit c then number lx
      else match symbol c with
      | Some k => Ok (k lx)
      | None =>
          if eqc c QUOTE then string_token lx
          else if eqc c "#" then scan_token n (while_peek (fun c => negb (eqc c NL)) lx)
          else Ok (error_token lx "Unexpected character", lx)
      end
  end.

(** Scanning to the end, as the parser does. *)
Fixpoint scan_tokens (fuel : nat) (lx : Lexer) : outcome (list Token) :=
  match fuel with
  | O => OutOfFuel
  | S n =>
      let! r := scan_token (S (length (current lx))) lx in
      if bool_decide (type r.1 = TOKEN_EOF) then Ok [r.1] else
      let! ts := scan_tokens n r.2 in Ok (r.1 :: ts)
  end.
Definition scan (source : cstr) : outcome (list Token) := scan_tokens (S (length source)) (init_lexer source).
