(* ===== verification/LexerFacts.v ===== *)
(** * The lexer meets the token grammar

    The tokens of a source, with their values, lines and columns, described
    without the scanner: what may lie between two tokens, which lexemes a token
    type has, and that a lexeme is as long as it can be. *)
From Stdlib Require Import Ascii SpecFloat.
From S2P Require Import Prelude CString Lexer.

(** ** The grammar *)

(** Keywords and symbols. *)
Definition spelling (ty : CpxTokenType) : option string :=
  match ty with
  | TOKEN_ABSTRACT => Some "abstract" | TOKEN_ARRAY_TYPE => Some "array" | TOKEN_ASYNC => Some "async" | TOKEN_AWAIT => Some "await" | TOKEN_BOOL_TYPE => Some "bool"
  | TOKEN_BF16_TYPE => Some "bf16" | TOKEN_BREAK => Some "break" | TOKEN_CHAR_TYPE => Some "char" | TOKEN_COPY => Some "copy" | TOKEN_CLASS => Some "class"
  | TOKEN_CATCH => Some "catch" | TOKEN_CONST => Some "const" | TOKEN_CONTINUE => Some "continue" | TOKEN_ELSE => Some "else" | TOKEN_ELIF => Some "elif"
  | TOKEN_ENUM_KW => Some "enum" | TOKEN_EXTENDS => Some "extends" | TOKEN_EXTERN => Some "extern" | TOKEN_FOR => Some "for" | TOKEN_F16_TYPE => Some "f16"
  | TOKEN_F32_TYPE => Some "f32" | TOKEN_F64_TYPE => Some "f64" | TOKEN_FUNC => Some "func" | TOKEN_FLOAT_TYPE => Some "float" | TOKEN_FALSE => Some "false"
  | TOKEN_FINALLY => Some "finally" | TOKEN_INT_TYPE => Some "int" | TOKEN_I16_TYPE => Some "i16" | TOKEN_I32_TYPE => Some "i32" | TOKEN_I64_TYPE => Some "i64"
  | TOKEN_I128_TYPE => Some "i128" | TOKEN_IMPL => Some "impl" | TOKEN_IMPORT => Some "import" | TOKEN_IMPLEMENTS => Some "implements" | TOKEN_LET => Some "let"
  | TOKEN_MUT => Some "mut" | TOKEN_MOVE => Some "move" | TOKEN_MATCH => Some "match" | TOKEN_NEW => Some "new" | TOKEN_PTR_TYPE => Some "ptr"
  | TOKEN_PRINT => Some "print" | TOKEN_PUBLIC => Some "public" | TOKEN_PRIVATE => Some "private" | TOKEN_PROTECTED => Some "protected" | TOKEN_REF_TYPE => Some "ref"
  | TOKEN_RETURN => Some "return" | TOKEN_RAWPTR_TYPE => Some "rawptr" | TOKEN_SUPER => Some "super" | TOKEN_SLICE_TYPE => Some "slice" | TOKEN_SPAWN => Some "spawn"
  | TOKEN_STRING_TYPE => Some "string" | TOKEN_STATIC => Some "static" | TOKEN_STRUCT => Some "struct" | TOKEN_STRBUF_TYPE => Some "strbuf" | TOKEN_TRY => Some "try"
  | TOKEN_TRUE => Some "true" | TOKEN_THIS => Some "this" | TOKEN_THROW => Some "throw" | TOKEN_TRAIT => Some "trait" | TOKEN_TENSOR_TYPE => Some "tensor"
  | TOKEN_UNSAFE => Some "unsafe" | TOKEN_U16_TYPE => Some "u16" | TOKEN_U32_TYPE => Some "u32" | TOKEN_U64_TYPE => Some "u64" | TOKEN_U128_TYPE => Some "u128"
  | TOKEN_UNION_KW => Some "union" | TOKEN_VOID_TYPE => Some "void" | TOKEN_WHILE => Some "while" | TOKEN_WHERE => Some "where" | TOKEN_IF => Some "if"
  | TOKEN_I8_TYPE => Some "i8" | TOKEN_IN => Some "in" | TOKEN_U8_TYPE => Some "u8" | TOKEN_PLUS => Some "+" | TOKEN_MINUS => Some "-"
  | TOKEN_STAR => Some "*" | TOKEN_SLASH => Some "/" | TOKEN_PERCENT => Some "%" | TOKEN_ASSIGN => Some "=" | TOKEN_INFER_ASSIGN => Some ":="
  | TOKEN_EQUAL => Some "==" | TOKEN_NOT_EQUAL => Some "!=" | TOKEN_LESS => Some "<" | TOKEN_LESS_EQUAL => Some "<=" | TOKEN_GREATER => Some ">"
  | TOKEN_GREATER_EQUAL => Some ">=" | TOKEN_AND => Some "&&" | TOKEN_OR => Some "||" | TOKEN_NOT => Some "!" | TOKEN_PLUS_ASSIGN => Some "+="
  | TOKEN_MINUS_ASSIGN => Some "-=" | TOKEN_STAR_ASSIGN => Some "*=" | TOKEN_SLASH_ASSIGN => Some "/=" | TOKEN_PERCENT_ASSIGN => Some "%=" | TOKEN_BITAND => Some "&"
  | TOKEN_BITXOR => Some "^" | TOKEN_BITNOT => Some "~" | TOKEN_LSHIFT => Some "<<" | TOKEN_RSHIFT => Some ">>" | TOKEN_LPAREN => Some "("
  | TOKEN_RPAREN => Some ")" | TOKEN_LBRACE => Some "{" | TOKEN_RBRACE => Some "}" | TOKEN_LBRACKET => Some "[" | TOKEN_RBRACKET => Some "]"
  | TOKEN_SEMICOLON => Some ";" | TOKEN_COLON => Some ":" | TOKEN_COMMA => Some "," | TOKEN_ARROW => Some "->" | TOKEN_DOT => Some "."
  | TOKEN_PIPE => Some "|" | TOKEN_FAT_ARROW => Some "=>" | TOKEN_QUESTION => Some "?"
  | _ => None
  end.

Definition blank (c : ascii) : bool := eqc c " " || eqc c CR || eqc c TAB || eqc c NL.

Definition newlines (s : cstr) : Z := Z.of_nat (length (List.filter (fun c => eqc c NL) s)).
(** The column behind [s]: it starts again behind a line feed. *)
Definition column_after (col : Z) (s : cstr) : Z := fold_left (fun k c => if eqc c NL then 1 else k + 1) s col.

(** Line feeds in the lexeme of a string, those behind a backslash left out. *)
Fixpoint string_lines (s : cstr) : Z :=
  match s with
  | [] => 0
  | c :: r =>
      if eqc c BACKSLASH then match r with _ :: r' => string_lines r' | [] => 0 end
      else (if eqc c NL then 1 else 0) + string_lines r
  end.

(** A line comment ends at a line feed or with the source. *)
Definition ends_line (s : cstr) : Prop := forall c r, s = c :: r -> c = NL.
Fixpoint has_close (s : cstr) : bool :=
  match s with
  | c :: r => match r with d :: _ => (eqc c "*" && eqc d "/") || has_close r | [] => false end
  | [] => false
  end.

(** Blanks and comments lead from the text [s] to [rest], and from one line and column to another. *)
Inductive gap (rest : cstr) (ln' col' : Z) : Z -> Z -> cstr -> Prop :=
| gap_end : gap rest ln' col' ln' col' rest
| gap_blank ln col c s : blank c = true ->
    gap rest ln' col' (ln + newlines [c]) (column_after col [c]) s -> gap rest ln' col' ln col (c :: s)
| gap_line ln col b s : (NL ∉ b) -> ends_line s ->
    gap rest ln' col' ln (col + 2 + Z.of_nat (length b)) s -> gap rest ln' col' ln col (lit "//" ++ b ++ s)
| gap_hash ln col b s : (NL ∉ b) -> ends_line s ->
    gap rest ln' col' ln (col + 1 + Z.of_nat (length b)) s -> gap rest ln' col' ln col (lit "#" ++ b ++ s)
| gap_block ln col b s : has_close (b ++ lit "*") = false ->
    gap rest ln' col' (ln + newlines b) (column_after (col + 2) b + 2) s -> gap rest ln' col' ln col (lit "/*" ++ b ++ lit "*/" ++ s)
| gap_open ln col b : has_close b = false -> rest = [] -> ln' = ln + newlines b -> col' = column_after (col + 2) b ->
    gap rest ln' col' ln col (lit "/*" ++ b).

Definition word (w : cstr) : Prop :=
  exists c r, w = c :: r /\ is_alpha c = true /\ Forall (fun c => is_alpha c || is_digit c = true) r.
Definition digits (w : cstr) : Prop := w <> [] /\ Forall (fun c => is_digit c = true) w.
Definition stops_at (p : ascii -> bool) (s : cstr) : Prop := forall c r, s = c :: r -> p c = false.

(** The text of a string: no quote but behind a backslash. *)
Fixpoint string_text (b : cstr) : bool :=
  match b with
  | [] => true
  | c :: r => if eqc c QUOTE then false
              else if eqc c BACKSLASH then match r with _ :: r' => string_text r' | [] => false end
              else string_text r
  end.

Definition symbol_ends (s : string) (rest : cstr) : Prop :=
  (forall ty c r, rest = c :: r -> spelling ty <> Some (s ++ String c EmptyString)%string) /\
  (s = "."%string -> stops_at is_digit rest) /\ (s = "/"%string -> stops_at (fun c => eqc c "/" || eqc c "*") rest).
Definition number_ends (w rest : cstr) : Prop :=
  stops_at is_digit rest /\ (w = lit "0" -> stops_at (fun c => eqc c "x" || eqc c "X" || eqc c "b" || eqc c "B") rest) /\
  forall d r, rest = "."%char :: d :: r -> is_digit d = false.

(** The lexemes of a type with their values, and what may follow. *)
Inductive spells (rest : cstr) : CpxTokenType -> Literal -> cstr -> Prop :=
| sp_keyword ty s : spelling ty = Some s -> word (lit s) -> stops_at (fun c => is_alpha c || is_digit c) rest ->
    spells rest ty (match ty with TOKEN_TRUE => bool_value true | TOKEN_FALSE => bool_value false | _ => no_value end) (lit s)
| sp_identifier w : word w -> (forall ty s, spelling ty = Some s -> w <> lit s) -> stops_at (fun c => is_alpha c || is_digit c) rest ->
    spells rest TOKEN_IDENTIFIER no_value w
| sp_symbol ty s : spelling ty = Some s -> ~ word (lit s) -> symbol_ends s rest -> spells rest ty no_value (lit s)
| sp_integer w : digits w -> digits_value 10 0 w <= INT64_MAX -> number_ends w rest ->
    spells rest TOKEN_INTEGER (int_value (digits_value 10 0 w)) w
| sp_hex x w : x = "x"%char \/ x = "X"%char -> Forall (fun c => is_hex_digit c = true) w -> stops_at is_hex_digit rest ->
    spells rest TOKEN_INTEGER (int_value (s64 (Z.min (digits_value 16 0 w) ULLONG_MAX))) ("0"%char :: x :: w)
| sp_bin b w : b = "b"%char \/ b = "B"%char -> Forall (fun c => is_bin_digit c = true) w -> stops_at is_bin_digit rest ->
    spells rest TOKEN_INTEGER (int_value (s64 (Z.min (digits_value 2 0 w) ULLONG_MAX))) ("0"%char :: b :: w)
| sp_float w f : digits w -> digits f -> stops_at is_digit rest ->
    spells rest TOKEN_FLOAT (float_value (atof (w ++ lit "." ++ f))) (w ++ lit "." ++ f)
| sp_string b : string_text b = true -> spells rest TOKEN_STRING (string_value (process_escapes b)) (QUOTE :: b ++ [QUOTE]).

(** What no token begins with. *)
Inductive refused (rest : cstr) : string -> cstr -> Prop :=
| rf_string b : (forall x y, b = x ++ QUOTE :: y -> string_text x = false) -> rest = [] ->
    refused rest "Unterminated string" (QUOTE :: b)
| rf_point c r : is_digit c = true -> rest = c :: r -> refused rest "Unexpected '.' before digit" (lit ".")
| rf_character c : is_alpha c = false -> is_digit c = false -> blank c = false -> c <> QUOTE -> c <> "#"%char ->
    (forall ty s r, spelling ty = Some s -> lit s <> c :: r) -> refused rest "Unexpected character" [c].

(** The token [t] stands for the lexeme [w] at a line and a column, with [rest] behind it. *)
Definition token_at (t : Token) (ln col : Z) (w rest : cstr) : Prop :=
  w <> [] /\ tk_line t = ln + string_lines w /\ tk_column t = col /\
  ((type t = TOKEN_ERROR /\ exists msg, refused rest msg w /\ tk_start t = lit msg) \/
   (tk_start t = w ++ rest /\ tk_length t = Z.of_nat (length w) /\ spells rest (type t) (literal t) w)).

Inductive tokenised : Z -> Z -> cstr -> list Token -> Prop :=
| tokenised_end ln col s ln' col' t : gap [] ln' col' ln col s ->
    type t = TOKEN_EOF -> tk_line t = ln' -> tk_column t = col' -> tokenised ln col s [t]
| tokenised_next ln col s ln' col' w rest t ts : gap (w ++ rest) ln' col' ln col s -> token_at t ln' col' w rest ->
    tokenised (ln' + string_lines w) (col' + Z.of_nat (length w)) rest ts -> tokenised ln col s (t :: ts).

(** ** White space *)

Lemma advance_while_spec p s : forall col, exists w r, s = w ++ r /\ Forall (fun c => p c = true) w /\ stops_at p r /\
  advance_while p s col = (r, col + Z.of_nat (length w)).
Proof.
  induction s as [|c s IH]; intros col; simpl.
  - exists [], []. split_and!; [done|constructor|by intros ? ?|f_equal; simpl; lia].
  - destruct (p c) eqn:E.
    + destruct (IH (col + 1)) as (w & r & -> & Hw & Hr & ->). exists (c :: w), r. split_and!; [done|by constructor|done|].
      f_equal. simpl. lia.
    + exists [], (c :: s). split_and!; [done|constructor|by intros ? ? [= <- <-]|f_equal; simpl; lia].
Qed.

Lemma eqc_true a b : eqc a b = true <-> a = b.
Proof. apply Ascii.eqb_eq. Qed.

Lemma newlines_cons c s : newlines (c :: s) = newlines [c] + newlines s.
Proof. unfold newlines. cbn [List.filter]. destruct (eqc c NL); cbn [length]; lia. Qed.

Lemma newlines_app a b : newlines (a ++ b) = newlines a + newlines b.
Proof. induction a as [|c a IH]; [done|]. cbn [app]. rewrite newlines_cons, IH, (newlines_cons c a). lia. Qed.

Lemma block_comment_spec s : forall ln col,
  (exists b r, s = b ++ lit "*/" ++ r /\ has_close (b ++ lit "*") = false /\
    block_comment s ln col = (r, ln + newlines b, column_after col b + 2)) \/
  (has_close s = false /\ block_comment s ln col = ([], ln + newlines s, column_after col s)).
Proof.
  induction s as [|c s IH]; intros ln col; [right; split; [done|]; simpl; do 2 f_equal; unfold newlines; simpl; lia|].
  assert (Hnl : forall x, newlines (c :: x) = (if eqc c NL then 1 else 0) + newlines x).
  { intros x. unfold newlines. cbn [List.filter]. destruct (eqc c NL); cbn [length]; lia. }
  assert (Hstep : block_comment (c :: s) ln col =
    match s with d :: r' => if eqc c "*" && eqc d "/" then (r', ln, col + 2)
       else block_comment s (ln + (if eqc c NL then 1 else 0)) (column_after col [c])
     | [] => block_comment s (ln + (if eqc c NL then 1 else 0)) (column_after col [c]) end).
  { unfold column_after. simpl. destruct s; simpl; destruct (eqc c NL); rewrite ?Z.add_0_r; done. }
  rewrite Hstep. destruct s as [|d s].
  - right. simpl. split; [done|]. do 2 f_equal. rewrite Hnl. unfold newlines. simpl. lia.
  - destruct (eqc c "*" && eqc d "/") eqn:E.
    { left. exists [], s. apply andb_true_iff in E as [->%eqc_true ->%eqc_true]. split_and!; [done|done|].
      do 2 f_equal; unfold newlines; simpl; lia. }
    destruct (IH (ln + (if eqc c NL then 1 else 0)) (column_after col [c])) as [(b & r & Hs & Hc & ->)|[Hc ->]].
    + left. exists (c :: b), r. split_and!; [by rewrite Hs| |].
      * clear Hstep. destruct b as [|x b]; injection Hs as -> Hs; [simpl; by rewrite andb_false_r|].
        change (eqc c "*" && eqc x "/" || has_close ((x :: b) ++ lit "*") = false). by rewrite E.
      * rewrite Hnl. do 2 f_equal. lia.
    + right. split; [cbn [has_close]; by rewrite E|]. rewrite Hnl. do 2 f_equal. lia.
Qed.

(** Where the white space ends. *)
Definition starts_token (s : cstr) : Prop :=
  forall c r, s = c :: r -> blank c = false /\ (c = "/"%char -> stops_at (fun c => eqc c "/" || eqc c "*") r).

Abbreviation gap_to lx' := (gap (current lx') (line lx') (column lx')).

Lemma stops_ends_line s : stops_at (fun c => negb (eqc c NL)) s -> ends_line s.
Proof. intros H c r Hs. apply H, negb_false_iff, eqc_true in Hs. done. Qed.

Lemma not_in_line b : Forall (fun c => negb (eqc c NL) = true) b -> NL ∉ b.
Proof.
  intros H Hin. rewrite list.Forall_forall in H. specialize (H _ Hin). by rewrite (proj2 (eqc_true _ _) eq_refl) in H.
Qed.

Lemma skip_spec fuel : forall lx, (length (current lx) < fuel)%nat -> exists lx', skip_whitespace fuel lx = Ok lx' /\
  gap_to lx' (line lx) (column lx) (current lx) /\ starts_token (current lx') /\ (length (current lx') <= length (current lx))%nat.
Proof.
  induction fuel as [|fuel IH]; intros [st cu ln col sc] Hf; simpl in Hf; [lia|].
  destruct cu as [|c r]; [eexists; split; [reflexivity|]; split_and!; [apply gap_end|by intros ? ?|done]|].
  cbn [skip_whitespace peek current]. cbn [length] in Hf.
  destruct (eqc c " " || eqc c CR || eqc c TAB) eqn:Eb.
  { cbn [advance current obind moved_to snd]. edestruct (IH (mkLexer st r ln (col + 1) sc)) as (lx' & E & Hg & Hs & Hl); [simpl; lia|].
    exists lx'. split; [exact E|]. split_and!; [|done|simpl in *; lia]. apply gap_blank; [by unfold blank; rewrite Eb|].
    assert (eqc c NL = false) as Hn; [|unfold newlines, column_after; simpl; rewrite Hn; simpl; by rewrite Z.add_0_r].
    destruct (eqc c NL) eqn:E2; [apply eqc_true in E2 as ->; discriminate|done]. }
  destruct (eqc c NL) eqn:En.
  { apply eqc_true in En as ->. cbn [advance current obind moved_to snd start line column start_column].
    edestruct (IH (mkLexer st r (ln + 1) (0 + 1) sc)) as (lx' & E & Hg & Hs & Hl); [simpl; lia|].
    exists lx'. split; [exact E|]. split_and!; [by apply gap_blank|done|simpl in *; lia]. }
  assert (Hc : blank c = false) by (unfold blank; by rewrite Eb, En).
  destruct (eqc c "/") eqn:Es.
  2: { eexists. split; [reflexivity|]. split_and!; [apply gap_end| |done].
       intros ? ? [= <- <-]. split; [done|]. intros ->. discriminate. }
  apply eqc_true in Es as ->. cbn [peek_next current]. destruct r as [|d r].
  { eexists. split; [reflexivity|]. split_and!; [apply gap_end| |done]. intros ? ? [= <- <-]. split; [done|]. by intros _ ? ?. }
  destruct (eqc d "/") eqn:E1; [|destruct (eqc d "*") eqn:E2].
  - apply eqc_true in E1 as ->. unfold while_peek. cbn [current column start line start_column].
    destruct (advance_while_spec (fun c => negb (eqc c NL)) ("/"%char :: "/"%char :: r) col) as (w & r' & Hw & Hall & Hst & ->).
    destruct w as [|w1 [|w2 w]]; [by pose proof (Hst "/"%char ("/"%char :: r) (eq_sym Hw))|injection Hw as <- Hw; by pose proof (Hst "/"%char r (eq_sym Hw))|].
    injection Hw as <- <- ->. do 2 apply list.Forall_cons_1 in Hall as [_ Hall].
    edestruct (IH (mkLexer st r' ln (col + Z.of_nat (length ("/"%char :: "/"%char :: w))) sc)) as (lx' & E & Hg & Hs & Hl);
      [simpl in *; rewrite length_app in Hf; lia|]. exists lx'. split; [exact E|]. split_and!; [|done|simpl in *; rewrite length_app; lia].
    apply (gap_line _ _ _ _ _ w r'); [by apply not_in_line|by apply stops_ends_line|].
    cbn [line column current] in Hg. replace (col + 2 + Z.of_nat (length w)) with (col + Z.of_nat (length ("/"%char :: "/"%char :: w))) by (cbn [length]; lia). done.
  - apply eqc_true in E2 as ->. cbn [advance current obind moved_to snd]. unfold in_block_comment, moved_to. cbn [current line column start start_column].
    destruct (block_comment_spec r ln (col + 1 + 1)) as [(b & r' & -> & Hcl & ->)|[Hcl ->]].
    + destruct (IH (mkLexer st r' (ln + newlines b) (column_after (col + 1 + 1) b + 2) sc)) as (lx' & E & Hg & Hs & Hl);
        [simpl in *; rewrite !length_app in Hf; simpl in Hf; lia|].
      exists lx'. split; [exact E|]. split_and!; [|done|simpl in *; rewrite !length_app; simpl; lia]. apply (gap_block _ _ _ _ _ b r'); [done|].
      replace (col + 2) with (col + 1 + 1) by lia. done.
    + destruct (IH (mkLexer st [] (ln + newlines r) (column_after (col + 1 + 1) r) sc)) as (lx' & E & Hg & Hs & Hl); [simpl in *; lia|].
      exists lx'. split; [exact E|]. destruct fuel as [|n]; [done|]. cbn [skip_whitespace peek current] in E. simpl in E. injection E as <-.
      split_and!; [|done|simpl in *; lia]. cbn [current line column]. eapply (gap_open _ _ _ _ _ r); [done..|]. f_equal. lia.
  - eexists. split; [reflexivity|]. split_and!; [apply gap_end| |done]. intros ? ? [= <- <-]. split; [done|].
    intros _ ? ? [= <- <-]. by rewrite E1, E2.
Qed.

(** ** Lexemes *)

Lemma lexeme_app w r ln col sc : lexeme (mkLexer (w ++ r) r ln col sc) = w.
Proof. unfold lexeme. cbn [start current]. rewrite length_app, Nat.add_sub. apply take_app_length. Qed.

Lemma make_token_app w r ln col sc ty v :
  make_token (mkLexer (w ++ r) r ln col sc) ty v = mkToken ty (w ++ r) (Z.of_nat (length w)) ln sc v.
Proof. unfold make_token. cbn [start current line start_column]. rewrite length_app. f_equal. lia. Qed.

(** A lexeme without a line feed or a backslash. *)
Lemma string_lines_plain w : Forall (fun c => eqc c NL || eqc c BACKSLASH = false) w -> string_lines w = 0.
Proof. induction 1 as [|c w Hc Hw IH]; [done|]. simpl. apply orb_false_iff in Hc as [-> ->]. by rewrite IH. Qed.

Lemma plain_class (p : ascii -> bool) w : p NL = false -> p BACKSLASH = false -> Forall (fun c => p c = true) w ->
  Forall (fun c => eqc c NL || eqc c BACKSLASH = false) w.
Proof.
  intros H1 H2. apply Forall_impl. intros c Hc. apply orb_false_iff. split; apply not_true_iff_false; intros ->%eqc_true; congruence.
Qed.

(** ** Keywords *)

Lemma two_chars_lit w a b : char_at w 0 a = true -> (length w =? 2)%nat = true -> char_at w 1 b = true -> w = [a; b].
Proof.
  intros Ha Hn Hb. destruct w as [|x [|y [|]]]; try done. unfold char_at in *. simpl in *.
  apply eqc_true in Ha as ->. by apply eqc_true in Hb as ->.
Qed.

Lemma identifier_type_sound w : identifier_type w = TOKEN_IDENTIFIER \/ exists s, spelling (identifier_type w) = Some s /\ w = lit s.
Proof.
  assert (Hk : forall s ty, spelling ty = Some s ->
    check_keyword w s ty = TOKEN_IDENTIFIER \/ exists s', spelling (check_keyword w s ty) = Some s' /\ w = lit s').
  { intros s ty Hs. unfold check_keyword. case_bool_decide; [right; by exists s|by left]. }
  assert (Hm : forall l, Forall (fun p => spelling p.2 = Some p.1) l ->
    memcmp_any w l = TOKEN_IDENTIFIER \/ exists s', spelling (memcmp_any w l) = Some s' /\ w = lit s').
  { induction 1 as [|[k ty] l Hs Hl IH]; simpl; [by left|]. case_bool_decide; [right; by exists k|done]. }
  unfold identifier_type.
  repeat (match goal with |- (if ?b then _ else _) = _ \/ _ => destruct b eqn:? end);
    try (by left); try (by apply Hk); try (apply Hm; repeat constructor);
    right; eexists; (split; [reflexivity|]); by apply two_chars_lit.
Qed.

Lemma identifier_type_complete ty s : spelling ty = Some s -> word (lit s) -> identifier_type (lit s) = ty.
Proof.
  intros Hs (c & r & Hc & Hal & _).
  destruct ty; simpl in Hs; try discriminate Hs; injection Hs as <-; try reflexivity; injection Hc as <- _; discriminate Hal.
Qed.

(** ** Tokens *)

(** The lexer behind the first character of a lexeme, and what it makes of the text. *)
Definition first_char (c : ascii) (r : cstr) (ln col : Z) : Lexer := mkLexer (c :: r) r ln (col + 1) col.
Definition scanned (ln col : Z) (s : cstr) (res : Token * Lexer) : Prop :=
  exists w, s = w ++ current res.2 /\ token_at res.1 ln col w (current res.2) /\
    line res.2 = ln + string_lines w /\ column res.2 = col + Z.of_nat (length w) /\ type res.1 <> TOKEN_EOF.

Lemma spells_not_eof rest ty v w : spells rest ty v w -> ty <> TOKEN_EOF.
Proof. intros H ->. inversion H; discriminate. Qed.

(** A lexeme without line feeds. *)
Lemma scanned_plain w r ln col c' ty v : w <> [] -> Forall (fun c => eqc c NL || eqc c BACKSLASH = false) w -> spells r ty v w ->
  c' = col + Z.of_nat (length w) ->
  scanned ln col (w ++ r) (make_token (mkLexer (w ++ r) r ln c' col) ty v, mkLexer (w ++ r) r ln c' col).
Proof.
  intros Hne Hw Hsp ->. exists w. rewrite make_token_app. cbn [fst snd current line column type].
  split_and!; [done| |by rewrite string_lines_plain, Z.add_0_r|done|by eapply spells_not_eof].
  split_and!; [done|by rewrite (string_lines_plain w Hw), Z.add_0_r|done|]. by right.
Qed.

Definition alnum (c : ascii) : bool := is_alpha c || is_digit c.

Lemma identifier_scanned c r ln col : is_alpha c = true -> scanned ln col (c :: r) (identifier (first_char c r ln col)).
Proof.
  intros Hc. unfold identifier, while_peek, first_char. cbn [current column start line start_column].
  destruct (advance_while_spec alnum r (col + 1)) as (w & r' & -> & Hw & Hst & E). unfold alnum in E. rewrite E. cbn [fst snd].
  rewrite !(app_comm_cons w r' c), lexeme_app.
  assert (Hword : word (c :: w)) by (exists c, w; split_and!; [done..|exact Hw]).
  apply scanned_plain; [done| | |cbn [length]; lia].
  - apply (plain_class alnum); [done..|]. constructor; [unfold alnum; by rewrite Hc|done].
  - destruct (identifier_type_sound (c :: w)) as [Hi|(s & Hs & Hw')].
    + rewrite Hi. apply sp_identifier; [done| |done]. intros ty s Hs Heq. rewrite Heq in Hword, Hi.
      pose proof (identifier_type_complete ty s Hs Hword) as Hcm. rewrite Hi in Hcm. subst ty. discriminate.
    + pose proof (sp_keyword r' _ s Hs) as Hsp. rewrite <- Hw' in Hsp. by apply Hsp.
Qed.

Lemma while_peek_first (p : ascii -> bool) u r ln c' sc : exists w r', r = w ++ r' /\ Forall (fun c => p c = true) w /\ stops_at p r' /\
  while_peek p (mkLexer (u ++ r) r ln c' sc) = mkLexer ((u ++ w) ++ r') r' ln (c' + Z.of_nat (length w)) sc.
Proof.
  destruct (advance_while_spec p r c') as (w & r' & -> & Hw & Hst & E). exists w, r'. split_and!; [done..|].
  unfold while_peek. cbn [current column start line start_column]. by rewrite E, app_assoc.
Qed.

(** The next character is taken. *)
Lemma advance_first u x r ln col sc :
  advance (mkLexer (u ++ x :: r) (x :: r) ln col sc) = Ok (x, mkLexer ((u ++ [x]) ++ r) r ln (col + 1) sc).
Proof. unfold advance, moved_to. cbn [current start line column start_column]. by rewrite <- app_assoc. Qed.

Lemma strtoull_hex x w : x = "x"%char \/ x = "X"%char -> Forall (fun c => is_hex_digit c = true) w ->
  strtoull ("0"%char :: x :: w) 16 = Z.min (digits_value 16 0 w) ULLONG_MAX.
Proof. intros Hx Hw. unfold strtoull. destruct w as [|d w]; [by destruct Hx as [-> | ->]|]. apply list.Forall_cons_1 in Hw as [Hd _]. by destruct Hx as [-> | ->]; simpl; rewrite Hd. Qed.

Lemma strtoull_bin w : Forall (fun c => is_bin_digit c = true) w -> strtoull w 2 = Z.min (digits_value 2 0 w) ULLONG_MAX.
Proof. intros Hw. unfold strtoull. by destruct w as [|a [|b [|d w]]]. Qed.

Lemma plain_digits w : Forall (fun c => is_digit c = true) w -> Forall (fun c => eqc c NL || eqc c BACKSLASH = false) w.
Proof. by apply plain_class. Qed.

(** Decimal digits that are no [int64_t]. *)
Definition too_large (w : cstr) : Prop := digits w /\ INT64_MAX < digits_value 10 0 w.

Lemma digits_value_nonneg w : forall acc, 0 <= acc -> 0 <= digits_value 10 acc w.
Proof.
  induction w as [|c w IH]; intros acc Ha; simpl; [done|]. destruct (Z.ltb_spec (digit_value c) 10); [|done]. apply IH.
  assert (0 <= digit_value c); [|lia]. unfold digit_value, is_digit.
  repeat match goal with |- context [if ?b then _ else _] => destruct b eqn:? end; lia.
Qed.

Definition decimal_number (lx : Lexer) : outcome (Token * Lexer) :=
  let lx := while_peek is_digit lx in
  if eqc (peek lx) "." && is_digit (peek_next lx) then
    let! r := advance lx in
    let lx := while_peek is_digit r.2 in
    Ok (make_token lx TOKEN_FLOAT (float_value (atof (lexeme lx))), lx)
  else
    let! v := atoll (lexeme lx) in
    Ok (make_token lx TOKEN_INTEGER (int_value v), lx).

Lemma decimal_scanned c r ln col : is_digit c = true ->
  eqc c "0" && (eqc (peek (first_char c r ln col)) "x" || eqc (peek (first_char c r ln col)) "X") = false ->
  eqc c "0" && (eqc (peek (first_char c r ln col)) "b" || eqc (peek (first_char c r ln col)) "B") = false ->
  (exists res, decimal_number (first_char c r ln col) = Ok res /\ scanned ln col (c :: r) res) \/
  (decimal_number (first_char c r ln col) = Undef /\ exists w r', c :: r = w ++ r' /\ too_large w).
Proof.
  intros Hc Ex Eb. unfold decimal_number, first_char in *.
  destruct (while_peek_first is_digit [c] r ln (col + 1) col) as (w & r' & -> & Hw & Hst & E).
  change ([c] ++ w) with (c :: w) in E. change ([c] ++ w ++ r') with (c :: w ++ r') in E. rewrite E.
  assert (Hdig : digits (c :: w)) by (split; [done|by constructor]).
  pose proof (plain_digits _ (proj2 Hdig)) as Hpl. rewrite lexeme_app.
  destruct (eqc (peek _) "." && is_digit (peek_next _)) eqn:Ef.
  - left. destruct r' as [|p [|d r']]; try discriminate; cbn [peek peek_next current] in Ef; [by rewrite andb_false_r in Ef|].
    apply andb_true_iff in Ef as [->%eqc_true Hd]. rewrite advance_first. cbn [obind snd].
    destruct (while_peek_first is_digit ((c :: w) ++ ["."%char]) (d :: r') ln (col + 1 + Z.of_nat (length w) + 1) col)
      as (f & r2 & Hf & Hall & Hst2 & ->).
    destruct f as [|d' f]; [by rewrite (Hst2 d r' (eq_sym Hf)) in Hd|]. injection Hf as <- ->. rewrite lexeme_app.
    eexists. split; [reflexivity|].
    replace (((c :: w) ++ ["."%char]) ++ d :: f) with ((c :: w) ++ lit "." ++ d :: f) by (by rewrite <- app_assoc).
    replace (c :: w ++ "."%char :: d :: f ++ r2) with (((c :: w) ++ lit "." ++ d :: f) ++ r2) by (by rewrite <- !app_assoc).
    apply scanned_plain; [done| |by apply sp_float|rewrite !length_app; cbn [length]; change (length (lit ".")) with 1%nat; lia].
    apply Forall_app. split; [done|]. constructor; [done|]. by apply plain_digits.
  - unfold atoll. destruct (in_s64 (digits_value 10 0 (c :: w))) eqn:Es; cbn [obind].
    + left. eexists. split; [reflexivity|]. rewrite app_comm_cons. apply scanned_plain; [done..| |cbn [length]; lia].
      apply sp_integer; [done|unfold in_s64 in Es; lia|]. split_and!; [done| |].
      * intros [= -> ->] x s ->. cbn [peek current app] in Ex, Eb. simpl in Ex, Eb.
        apply orb_false_iff in Ex as [-> ->]. by apply orb_false_iff in Eb as [-> ->].
      * intros d s ->. by cbn [peek peek_next current] in Ef.
    + right. split; [done|]. exists (c :: w), r'. split_and!; [done..|].
      pose proof (digits_value_nonneg (c :: w) 0 ltac:(lia)). split; [done|].
      unfold in_s64, INT64_MIN, INT64_MAX in *. destruct (Z.leb_spec (- 2 ^ 63) (digits_value 10 0 (c :: w))); [|lia]. cbn [andb] in Es. lia.
Qed.

Lemma number_scanned c r ln col : is_digit c = true ->
  (exists res, number (first_char c r ln col) = Ok res /\ scanned ln col (c :: r) res) \/
  (number (first_char c r ln col) = Undef /\ exists w r', c :: r = w ++ r' /\ too_large w).
Proof.
  intros Hc. unfold number, first_char. cbn [start].
  destruct (eqc c "0" && (eqc (peek _) "x" || eqc (peek _) "X")) eqn:Ex.
  { left. apply andb_true_iff in Ex as [->%eqc_true Hx]. destruct r as [|x r]; [discriminate|]. cbn [peek current] in Hx.
    assert (Hxx : x = "x"%char \/ x = "X"%char) by (apply orb_true_iff in Hx as [Hx|Hx]; apply eqc_true in Hx; auto).
    pose proof (advance_first ["0"%char] x r ln (col + 1) col) as Ha. cbn [app] in Ha. rewrite Ha. cbn [obind snd].
    destruct (while_peek_first is_hex_digit ["0"%char; x] r ln (col + 1 + 1) col) as (w & r' & -> & Hw & Hst & E). cbn [app] in E. rewrite E.
    rewrite (app_comm_cons w r' x), (app_comm_cons (x :: w) r' "0"%char), lexeme_app, strtoull_hex by done.
    eexists. split; [reflexivity|]. apply scanned_plain; [done| |by apply sp_hex|cbn [length]; lia].
    constructor; [done|]. constructor; [by destruct Hxx as [-> | ->]|]. by eapply (plain_class is_hex_digit). }
  destruct (eqc c "0" && (eqc (peek _) "b" || eqc (peek _) "B")) eqn:Eb.
  { left. apply andb_true_iff in Eb as [->%eqc_true Hx]. destruct r as [|x r]; [discriminate|]. cbn [peek current] in Hx.
    assert (Hxx : x = "b"%char \/ x = "B"%char) by (apply orb_true_iff in Hx as [Hx|Hx]; apply eqc_true in Hx; auto).
    pose proof (advance_first ["0"%char] x r ln (col + 1) col) as Ha. cbn [app] in Ha. rewrite Ha. cbn [obind snd].
    destruct (while_peek_first is_bin_digit ["0"%char; x] r ln (col + 1 + 1) col) as (w & r' & -> & Hw & Hst & E). cbn [app] in E. rewrite E.
    rewrite (app_comm_cons w r' x), (app_comm_cons (x :: w) r' "0"%char), lexeme_app. cbn [drop]. rewrite strtoull_bin by done.
    eexists. split; [reflexivity|]. apply scanned_plain; [done| |by apply sp_bin|cbn [length]; lia].
    constructor; [done|]. constructor; [by destruct Hxx as [-> | ->]|]. by apply (plain_class is_bin_digit). }
  by apply decimal_scanned.
Qed.

(** ** Strings *)

Ltac pairs_lia := repeat match goal with |- (_, _) = (_, _) => apply (f_equal2 pair) end; lia || done.

Lemma string_body_spec n : forall s ln col, (length s <= n)%nat ->
  (exists b r, s = b ++ QUOTE :: r /\ string_text b = true /\ string_body s ln col = (QUOTE :: r, ln + string_lines b, col + Z.of_nat (length b))) \/
  ((forall x y, s = x ++ QUOTE :: y -> string_text x = false) /\ string_body s ln col = ([], ln + string_lines s, col + Z.of_nat (length s))).
Proof.
  induction n as [|n IH]; intros s ln col Hn; (destruct s as [|c s]; [right; split; [by intros [] ?|simpl; pairs_lia]|simpl in Hn; try lia]).
  cbn [string_body]. destruct (eqc c QUOTE) eqn:Eq.
  { left. apply eqc_true in Eq as ->. exists [], s. split_and!; [done..|]. simpl. pairs_lia. }
  destruct (eqc c BACKSLASH) eqn:Eb.
  - destruct s as [|d s].
    { right. split; [|simpl; rewrite Eb; pairs_lia]. intros [|x1 [|x2 x]] y [= -> H]; by rewrite (proj2 (eqc_true _ _) eq_refl) in Eq. }
    destruct (IH s ln (col + 1 + 1) ltac:(simpl in Hn; lia)) as [(b & r & -> & Ht & ->)|[Hno ->]].
    + left. exists (c :: d :: b), r. split_and!; [done|simpl; by rewrite Eq, Eb|]. cbn [string_lines length]. rewrite Eb. pairs_lia.
    + right. cbn [string_lines length]. rewrite Eb. split; [|pairs_lia].
      intros [|x1 [|x2 x]] y [= -> H].
      * by rewrite (proj2 (eqc_true _ _) eq_refl) in Eq.
      * simpl. by rewrite Eq, Eb.
      * simpl. rewrite Eq, Eb. subst. by eapply Hno.
  - destruct (IH s (if eqc c NL then ln + 1 else ln) (col + 1) ltac:(lia)) as [(b & r & -> & Ht & ->)|[Hno ->]].
    + left. exists (c :: b), r. split_and!; [done|simpl; by rewrite Eq, Eb|]. cbn [string_lines length]. rewrite Eb.
      destruct (eqc c NL); pairs_lia.
    + right. cbn [string_lines length]. rewrite Eb. split; [|destruct (eqc c NL); pairs_lia].
      intros [|x1 x] y [= -> H]; [by rewrite (proj2 (eqc_true _ _) eq_refl) in Eq|]. simpl. rewrite Eq, Eb. subst. by eapply Hno.
Qed.

Lemma string_lines_quoted n : forall b, (length b <= n)%nat -> string_text b = true -> string_lines (b ++ [QUOTE]) = string_lines b.
Proof.
  induction n as [|n IH]; intros b Hn Ht; (destruct b as [|c b]; [done|simpl in Hn; try lia]).
  cbn [string_text app string_lines] in *. destruct (eqc c QUOTE); [done|]. destruct (eqc c BACKSLASH).
  - destruct b as [|d b]; [done|]. simpl in *. apply IH; [lia|done].
  - by rewrite IH by (done || lia).
Qed.

Lemma string_scanned r ln col : exists res, string_token (first_char QUOTE r ln col) = Ok res /\ scanned ln col (QUOTE :: r) res.
Proof.
  unfold string_token, first_char. cbn [current line column start start_column].
  destruct (string_body_spec (length r) r ln (col + 1) (le_n _)) as [(b & r' & -> & Ht & ->)|[Hno ->]].
  - cbn [is_at_end current]. replace (QUOTE :: b ++ QUOTE :: r') with ((QUOTE :: b) ++ QUOTE :: r') by done.
    rewrite advance_first. cbn [obind snd]. rewrite lexeme_app, make_token_app.
    set (w := (QUOTE :: b) ++ [QUOTE]).
    assert (Hraw : take (length w - 2) (drop 1 w) = b).
    { unfold w. cbn [app drop]. replace (length (QUOTE :: b ++ [QUOTE]) - 2)%nat with (length b) by (simpl; rewrite length_app; simpl; lia).
      apply take_app_length. }
    assert (Hsl : string_lines w = string_lines b) by (unfold w; simpl; by rewrite (string_lines_quoted (length b))).
    rewrite Hraw. eexists. split; [reflexivity|]. exists w. cbn [fst snd current line column type]. rewrite Hsl.
    split_and!; [unfold w; by rewrite <- app_assoc| |done|unfold w; rewrite length_app; simpl; lia|done].
    split_and!; [done|simpl tk_line; lia|done|]. right. split_and!; [done..|]. by apply sp_string.
  - cbn [is_at_end current]. eexists. split; [reflexivity|]. exists (QUOTE :: r). cbn [fst snd current line column type error_token].
    split_and!; [by rewrite app_nil_r| |done|simpl; lia|done]. split_and!; [done..|]. left. split; [done|].
    eexists. split; [by apply rf_string|done].
Qed.

(** ** Symbols *)

Definition two_characters : list (ascii * ascii) :=
  [("i", "f"); ("i", "n"); ("i", "8"); ("u", "8"); (":", "="); ("=", "="); ("!", "="); ("<", "="); (">", "="); ("&", "&"); ("|", "|");
   ("+", "="); ("-", "="); ("*", "="); ("/", "="); ("%", "="); ("<", "<"); (">", ">"); ("-", ">"); ("=", ">")]%char.

Lemma spelling_two ty a b : spelling ty = Some (String a (String b EmptyString)) -> (a, b) ∈ two_characters.
Proof.
  intros H. apply list_elem_of_In.
  destruct ty; simpl in H; try discriminate H; injection H as <- <-; simpl; tauto.
Qed.

Lemma spelling_three ty a b c s : spelling ty = Some (String a (String b (String c s))) -> is_alpha a = true.
Proof. intros H. destruct ty; simpl in H; try discriminate H; by injection H as <- _ _ _. Qed.

Lemma symbol_single a ty r ln col : spelling ty = Some (String a EmptyString) -> is_alpha a = false -> eqc a NL || eqc a BACKSLASH = false ->
  symbol_ends (String a EmptyString) r -> scanned ln col (a :: r) (token ty (first_char a r ln col)).
Proof.
  intros Hs Ha Hp He. apply (scanned_plain [a] r ln col (col + 1)); [done|by constructor| |done].
  apply (sp_symbol r ty (String a EmptyString)); [done| |done]. intros (x & s & [= <- _] & Hx & _). congruence.
Qed.

Lemma symbol_double a b ty r ln col : spelling ty = Some (String a (String b EmptyString)) -> is_alpha a = false ->
  eqc a NL || eqc a BACKSLASH = false -> eqc b NL || eqc b BACKSLASH = false ->
  scanned ln col (a :: b :: r) (token ty (mkLexer (a :: b :: r) r ln (col + 1 + 1) col)).
Proof.
  intros Hs Ha Hp Hq. apply (scanned_plain [a; b] r ln col (col + 1 + 1)); [done|by repeat constructor| |simpl; lia].
  apply (sp_symbol r ty (String a (String b EmptyString))); [done|intros (x & s & [= <- _] & Hx & _); congruence|].
  split_and!; [|done|done]. intros ty' c s -> H. apply spelling_three in H. congruence.
Qed.

Lemma if_match_scanned a b yes no r ln col :
  (forall r', r = b :: r' -> scanned ln col (a :: b :: r') (yes (mkLexer (a :: b :: r') r' ln (col + 1 + 1) col))) ->
  (stops_at (fun c => eqc c b) r -> scanned ln col (a :: r) (no (first_char a r ln col))) ->
  scanned ln col (a :: r) (if_match b yes no (first_char a r ln col)).
Proof.
  intros Hy Hn. unfold if_match, match_, first_char in *. cbn [current].
  destruct r as [|x r]; [apply Hn; by intros ? ?|]. destruct (eqc x b) eqn:E.
  - apply eqc_true in E as ->. by apply Hy.
  - apply Hn. by intros ? ? [= <- <-].
Qed.

(** No spelling goes on with the next character. *)
Ltac no_longer := intros ty' x s -> Hsp; apply spelling_two, list_elem_of_In in Hsp; simpl in Hsp;
  repeat match goal with Hs : stops_at _ _ |- _ => specialize (Hs _ _ eq_refl) end;
  repeat (destruct Hsp as [Hsp|Hsp]; [discriminate Hsp || (injection Hsp as <-; discriminate)|]); destruct Hsp.
Ltac ends_here := split_and!; [no_longer|done|done].

Lemma symbol_scanned c r ln col k : starts_token (c :: r) -> symbol c = Some k -> scanned ln col (c :: r) (k (first_char c r ln col)).
Proof.
  intros Hst Hk. unfold symbol in Hk.
  repeat match type of Hk with (if eqc c ?x then _ else _) = _ =>
    destruct (eqc c x) eqn:?; [match goal with H : eqc c x = true |- _ => apply eqc_true in H as ->; clear -Hst Hk end|] end; [..|done].
  all: injection Hk as <-.
  all: try (apply symbol_single; [reflexivity..|ends_here]).
  all: repeat (apply if_match_scanned; [intros r' ->; by apply symbol_double|intros ?]); try (apply symbol_single; [reflexivity..|ends_here]).
  - destruct (is_digit (peek (first_char "." r ln col))) eqn:Ed; cbn [negb].
    + destruct r as [|d r]; [discriminate|]. exists (lit "."). cbn [fst snd current line column type error_token first_char].
      split_and!; [done| |simpl; lia|simpl; lia|done]. split_and!; [done|simpl; lia|done|]. left. split; [done|]. eexists. split; [by eapply rf_point|done].
    + apply symbol_single; [reflexivity..|]. split_and!; [no_longer| |done]. intros _ d s ->. done.
  - apply symbol_single; [reflexivity..|]. split_and!; [no_longer|done|]. intros _. by apply (Hst "/"%char r).
Qed.

(** ** The scanner *)

Lemma symbol_none c : symbol c = None -> forall ty s r, spelling ty = Some s -> is_alpha c = false -> lit s <> c :: r.
Proof.
  intros Hk ty s r Hs Ha Heq. destruct ty; simpl in Hs; try discriminate Hs; injection Hs as <-; injection Heq as <- _; done.
Qed.

Lemma gap_trans rest ln' col' ln col ln1 col1 s1 s : gap rest ln' col' ln1 col1 s1 -> gap s1 ln1 col1 ln col s -> gap rest ln' col' ln col s.
Proof.
  intros H1 H2. induction H2; [done|by apply gap_blank|by apply gap_line|by apply gap_hash|by apply gap_block|].
  subst. inversion H1; subst. by eapply gap_open.
Qed.

Lemma gap_suffix rest ln' col' ln col s : gap rest ln' col' ln col s -> exists u, s = u ++ rest.
Proof.
  induction 1 as [|ln col c s Hc Hg [u ->]|ln col b s Hb He Hg [u ->]|ln col b s Hb He Hg [u ->]|ln col b s Hb Hg [u ->]|ln col b Hb -> _ _].
  - by exists [].
  - by exists (c :: u).
  - exists (lit "//" ++ b ++ u). by rewrite <- !app_assoc.
  - exists (lit "#" ++ b ++ u). by rewrite <- !app_assoc.
  - exists (lit "/*" ++ b ++ lit "*/" ++ u). by rewrite <- !app_assoc.
  - exists (lit "/*" ++ b). by rewrite app_nil_r.
Qed.

(** What a call of [scan_token] does. *)
Definition scans (lx : Lexer) (res : outcome (Token * Lexer)) : Prop :=
  match res with
  | Ok (t, lx') =>
      (type t = TOKEN_EOF /\ gap [] (tk_line t) (tk_column t) (line lx) (column lx) (current lx)) \/
      (exists ln col s, gap s ln col (line lx) (column lx) (current lx) /\ scanned ln col s (t, lx'))
  | Undef => exists u w r, current lx = u ++ w ++ r /\ too_large w
  | OutOfFuel => False
  end.

Lemma scans_behind lx lx1 res : gap (current lx1) (line lx1) (column lx1) (line lx) (column lx) (current lx) -> scans lx1 res -> scans lx res.
Proof.
  intros Hg. destruct res as [[t lx']| |]; simpl; [|intros (u & w & r & H & Hl)|done].
  - intros [[Ht H]|(ln & col & s & H & Hs)]; [left; split; [done|]|right; exists ln, col, s; split; [|done]]; by eapply gap_trans.
  - destruct (gap_suffix _ _ _ _ _ _ Hg) as [v Hv]. exists (v ++ u), w, r. split; [|done]. by rewrite Hv, H, <- app_assoc.
Qed.

Lemma scans_at lx res : scanned (line lx) (column lx) (current lx) res -> scans lx (Ok res).
Proof. intros H. destruct res as [t lx']. right. eexists _, _, _. split; [apply gap_end|done]. Qed.

Lemma scan_token_spec fuel : forall lx, (length (current lx) < fuel)%nat -> scans lx (scan_token fuel lx).
Proof.
  induction fuel as [|n IH]; intros lx Hf; [lia|]. cbn [scan_token].
  destruct (skip_spec (S n) lx Hf) as (lx0 & -> & Hg & Hst & Hl). cbn [obind].
  eapply scans_behind; [exact Hg|]. destruct lx0 as [st cu ln col sc]. cbn [current line column] in *.
  destruct cu as [|c r]; [left; split; [done|apply gap_end]|].
  cbn [is_at_end current advance obind]. change (moved_to (mkLexer (c :: r) (c :: r) ln col col) r) with (first_char c r ln col).
  destruct (is_alpha c) eqn:Ea; [by apply (scans_at (mkLexer st (c :: r) ln col sc)), identifier_scanned|].
  destruct (is_digit c) eqn:Ed.
  { destruct (number_scanned c r ln col Ed) as [(res & -> & Hs)|(-> & w & r' & Hw & Hl')];
      [by apply (scans_at (mkLexer st (c :: r) ln col sc))|by exists [], w, r']. }
  destruct (symbol c) as [k|] eqn:Ek; [by apply (scans_at (mkLexer st (c :: r) ln col sc)), symbol_scanned|].
  destruct (eqc c QUOTE) eqn:Eq.
  { apply eqc_true in Eq as ->. destruct (string_scanned r ln col) as (res & -> & Hs). by apply (scans_at (mkLexer st _ ln col sc)). }
  destruct (eqc c "#") eqn:Eh.
  - apply eqc_true in Eh as ->. unfold while_peek, first_char. cbn [current line column start start_column].
    destruct (advance_while_spec (fun c => negb (eqc c NL)) r (col + 1)) as (b & r' & -> & Hb & Hs & ->). cbn [fst snd].
    eapply (scans_behind _ (mkLexer ("#"%char :: b ++ r') r' ln (col + 1 + Z.of_nat (length b)) col)); [|apply IH].
    + cbn [current line column]. apply (gap_hash _ _ _ _ _ b r'); [by apply not_in_line|by apply stops_ends_line|apply gap_end].
    + cbn [current length] in *. rewrite length_app in Hl. simpl in Hl. lia.
  - apply (scans_at (mkLexer st (c :: r) ln col sc)). exists [c]. cbn [fst snd current line column type error_token first_char].
    destruct (Hst c r eq_refl) as [Hbl _].
    assert (Hp : string_lines [c] = 0).
    { simpl. destruct (eqc c BACKSLASH); [done|]. unfold blank in Hbl. apply orb_false_iff in Hbl as [_ ->]. done. }
    rewrite Hp. split_and!; [done| |lia|simpl; lia|done]. split_and!; [done|rewrite Hp; unfold error_token, first_char; cbn [tk_line line]; lia|done|]. left. split; [done|].
    eexists. split; [|reflexivity]. apply rf_character; [done..| | |intros ty s r' Hs; by apply (symbol_none c Ek ty s r' Hs)].
    + intros ->. by rewrite (proj2 (eqc_true _ _) eq_refl) in Eq.
    + intros ->. by rewrite (proj2 (eqc_true _ _) eq_refl) in Eh.
Qed.

Lemma scan_tokens_spec fuel : forall lx, (length (current lx) < fuel)%nat ->
  match scan_tokens fuel lx with
  | Ok ts => tokenised (line lx) (column lx) (current lx) ts
  | Undef => exists u w r, current lx = u ++ w ++ r /\ too_large w
  | OutOfFuel => False
  end.
Proof.
  induction fuel as [|n IH]; intros lx Hf; [lia|]. cbn [scan_tokens].
  pose proof (scan_token_spec (S (length (current lx))) lx ltac:(lia)) as Hs.
  destruct (scan_token _ lx) as [[t lx']| |]; cbn [obind fst snd]; [|exact Hs..].
  destruct Hs as [[Ht Hg]|(ln & col & s & Hg & w & -> & Ht & Hln & Hcol & Hne)]; cbn [fst snd] in *.
  { rewrite bool_decide_true by done. by eapply tokenised_end. }
  rewrite bool_decide_false by done. destruct (gap_suffix _ _ _ _ _ _ Hg) as [u Hu].
  assert (Hw : w <> []) by apply Ht. specialize (IH lx').
  assert (Hlt : (length (current lx') < n)%nat).
  { rewrite Hu, !length_app in Hf. destruct w; [done|]. simpl in Hf. lia. }
  specialize (IH Hlt). destruct (scan_tokens n lx') as [ts| |]; cbn [obind]; [| |done].
  - eapply tokenised_next; [exact Hg|exact Ht|]. by rewrite <- Hln, <- Hcol.
  - destruct IH as (u' & w' & r & Hc & Hl). exists (u ++ w ++ u'), w', r. split; [|done]. by rewrite Hu, Hc, <- !app_assoc.
Qed.

Lemma init_suffix src : exists u, src = u ++ current (init_lexer src).
Proof.
  unfold init_lexer. destruct src as [|a [|b [|c r]]]; try by exists []. cbn [current].
  destruct ((byte a =? 0xEF) && (byte b =? 0xBB) && (byte c =? 0xBF)); [by exists [a; b; c]|by exists []].
Qed.

(** C8: scanning any source ends, after at most one token per character, and
    never reads beyond the source; the result is the list of the tokens of the
    source by the grammar: blanks and comments between lexemes that are not
    empty, each token with its lexeme, value, line and column, keywords and no
    identifier spelt like one, each lexeme as long as it can be, an error for
    what no token begins with, and one end token.  Only a decimal literal above
    the largest [int64_t] has no defined result. *)
Theorem lexer_tokenises src :
  match scan src with
  | Ok ts => tokenised 1 1 (current (init_lexer src)) ts
  | Undef => exists u w r, src = u ++ w ++ r /\ too_large w
  | OutOfFuel => False
  end.
Proof.
  destruct (init_suffix src) as [v Hv]. unfold scan.
  pose proof (scan_tokens_spec (S (length src)) (init_lexer src)) as H.
  assert (Hlt : (length (current (init_lexer src)) < S (length src))%nat).
  { rewrite Hv at 2. rewrite length_app. lia. }
  specialize (H Hlt). destruct (scan_tokens _ _) as [ts| |]; [exact H| |done].
  destruct H as (u & w & r & Hc & Hl). exists (v ++ u), w, r. split; [|done]. rewrite Hv at 1. by rewrite Hc, <- app_assoc.
Qed.
