(* ===== verification/LexerPrint.v ===== *)
(** * Printed tokens scan back

    Words, numbers, strings and symbols, printed one after the other with a
    blank behind each, are read back as the same tokens with the same values. *)
From Stdlib Require Import Ascii SpecFloat.
From S2P Require Import Prelude CString Lexer LexerFacts.

Inductive Printed :=
| P_word (w : cstr)
| P_int (n : Z)
| P_string (s : list ascii)
| P_symbol (ty : CpxTokenType).

Definition escape (c : ascii) : cstr :=
  if eqc c NL then [BACKSLASH; "n"%char]
  else if eqc c TAB then [BACKSLASH; "t"%char]
  else if eqc c CR then [BACKSLASH; "r"%char]
  else if eqc c BACKSLASH then [BACKSLASH; BACKSLASH]
  else if eqc c QUOTE then [BACKSLASH; QUOTE]
  else if eqc c NUL then [BACKSLASH; "0"%char]
  else [c].

Definition show (p : Printed) : cstr :=
  match p with
  | P_word w => w
  | P_int n => decimal 19 n
  | P_string s => QUOTE :: concat (map escape s) ++ [QUOTE]
  | P_symbol ty => lit (default EmptyString (spelling ty))
  end.
Definition show_all (ps : list Printed) : cstr := concat (map (fun p => show p ++ [" "%char]) ps).

Definition printable (p : Printed) : Prop :=
  match p with
  | P_word w => word w
  | P_int n => 0 <= n <= INT64_MAX
  | P_string _ => True
  | P_symbol ty => exists s, spelling ty = Some s /\ ~ word (lit s)
  end.

(** The token a printed one stands for: a word is a keyword or an identifier. *)
Definition meaning (p : Printed) : CpxTokenType * Literal :=
  match p with
  | P_word w =>
      let ty := identifier_type w in
      (ty, match ty with TOKEN_TRUE => bool_value true | TOKEN_FALSE => bool_value false | _ => no_value end)
  | P_int n => (TOKEN_INTEGER, int_value n)
  | P_string s => (TOKEN_STRING, string_value s)
  | P_symbol ty => (ty, no_value)
  end.

(** ** Reading one token *)

Lemma advance_while_app p w r : Forall (fun c => p c = true) w -> stops_at p r -> forall col,
  advance_while p (w ++ r) col = (r, col + Z.of_nat (length w)).
Proof.
  intros Hw Hr. induction Hw as [|c w Hc Hw IH]; intros col; simpl.
  - destruct r as [|x r]; simpl; [f_equal; lia|]. rewrite (Hr x r eq_refl). f_equal. lia.
  - rewrite Hc, IH. f_equal. lia.
Qed.

Lemma word_read c w r ln col : word (c :: w) -> stops_at (fun c => is_alpha c || is_digit c) r ->
  exists t lx', identifier (first_char c (w ++ r) ln col) = (t, lx') /\ current lx' = r /\ (type t, literal t) = meaning (P_word (c :: w)).
Proof.
  intros (x & y & [= <- <-] & Hc & Hw) Hr. unfold identifier, while_peek, first_char. cbn [current column start line start_column].
  rewrite (advance_while_app _ w r Hw Hr). cbn [fst snd]. rewrite (app_comm_cons w r c), lexeme_app, make_token_app.
  eexists _, _. by split_and!.
Qed.

Lemma digits_value_foldl w : Forall (fun c => is_digit c = true) w -> forall acc,
  digits_value 10 acc w = foldl (fun a c => a * 10 + (byte c - 48)) acc w.
Proof.
  induction 1 as [|c w Hc Hw IH]; intros acc; simpl; [done|].
  assert (E : digit_value c = byte c - 48) by (unfold digit_value; rewrite Hc; reflexivity).
  rewrite E. unfold is_digit in Hc. change (byte "0") with 48 in Hc. change (byte "9") with 57 in Hc.
  destruct (Z.ltb_spec (byte c - 48) 10); [apply IH|lia].
Qed.

Lemma int_read n r ln col : 0 <= n <= INT64_MAX -> exists c w, decimal 19 n = c :: w /\ is_digit c = true /\
  exists t lx', number (first_char c (w ++ " "%char :: r) ln col) = Ok (t, lx') /\ current lx' = " "%char :: r /\ (type t, literal t) = (TOKEN_INTEGER, int_value n).
Proof.
  intros Hn. destruct (decimal_spec 19 n) as (Hd & (c & w & E) & _ & Hv); [lia|unfold INT64_MAX in Hn; lia|].
  specialize (Hv 0). change CString.is_digit with is_digit in Hd. rewrite E in Hd, Hv.
  pose proof (Forall_inv Hd) as Hc. pose proof (Forall_inv_tail Hd) as Hw. exists c, w. split_and!; [done..|].
  assert (Hpeek : forall x, is_digit x = false -> eqc x " " = false -> eqc (peek (first_char c (w ++ " "%char :: r) ln col)) x = false).
  { intros x H1 H2. apply not_true_iff_false. intros Hx%eqc_true. destruct w as [|y w]; cbn in Hx.
    - subst x. discriminate.
    - apply Forall_inv in Hw. congruence. }
  unfold number. rewrite !Hpeek, !andb_false_r by reflexivity. cbv iota. unfold while_peek, first_char. cbn [current column start line start_column].
  assert (Hsp : stops_at is_digit (" "%char :: r)) by (by intros ? ? [= <- <-]).
  rewrite (advance_while_app _ w _ Hw Hsp). cbn [fst snd peek peek_next current]. cbv beta iota. change (eqc " " ".") with false. cbn [andb].
  rewrite (app_comm_cons w _ c), lexeme_app. unfold atoll.
  assert (Hval : digits_value 10 0 (c :: w) = n) by (rewrite digits_value_foldl by done; lia).
  rewrite Hval. assert (Hs : in_s64 n = true) by (unfold in_s64, INT64_MIN, INT64_MAX in *; lia). rewrite Hs. cbn [obind].
  rewrite make_token_app. eexists _, _. by split_and!.
Qed.

(** ** Strings *)

Lemma escape_body c s ln col : exists ln' col', string_body (escape c ++ s) ln col = string_body s ln' col'.
Proof.
  unfold escape. repeat (match goal with |- context [eqc c ?x] => destruct (eqc c x) eqn:? end; [by eexists _, _|]).
  cbn [app string_body]. rewrite Heqb2, Heqb3. by eexists _, _.
Qed.

Lemma escape_processed c s : process_escapes (escape c ++ s) = c :: process_escapes s.
Proof.
  unfold escape. repeat (match goal with |- context [eqc c ?x] => destruct (eqc c x) eqn:? end;
    [match goal with H : eqc c ?y = true |- _ => apply (proj1 (eqc_true c y)) in H; subst c end; reflexivity|]).
  cbn [app process_escapes]. by rewrite Heqb2.
Qed.

Lemma escapes_body s r : forall ln col, exists ln' col', string_body (concat (map escape s) ++ QUOTE :: r) ln col = (QUOTE :: r, ln', col').
Proof.
  induction s as [|c s IH]; intros ln col; [by eexists _, _|]. cbn [map concat]. rewrite <- app_assoc.
  destruct (escape_body c (concat (map escape s) ++ QUOTE :: r) ln col) as (ln1 & col1 & ->). apply IH.
Qed.

Lemma escapes_processed s : process_escapes (concat (map escape s)) = s.
Proof. induction s as [|c s IH]; [done|]. cbn [map concat]. by rewrite escape_processed, IH. Qed.

Lemma string_read s r ln col : exists t lx', string_token (first_char QUOTE (concat (map escape s) ++ QUOTE :: r) ln col) = Ok (t, lx') /\ current lx' = r /\ (type t, literal t) = (TOKEN_STRING, string_value s).
Proof.
  unfold string_token, first_char. cbn [current line column start start_column].
  destruct (escapes_body s r ln (col + 1)) as (ln' & col' & ->). cbn [is_at_end current].
  set (b := concat (map escape s)). replace (QUOTE :: b ++ QUOTE :: r) with ((QUOTE :: b) ++ QUOTE :: r) by done.
  rewrite advance_first. cbn [obind snd]. rewrite lexeme_app, make_token_app.
  assert (Hraw : take (length ((QUOTE :: b) ++ [QUOTE]) - 2) (drop 1 ((QUOTE :: b) ++ [QUOTE])) = b).
  { cbn [app drop]. replace (length (QUOTE :: b ++ [QUOTE]) - 2)%nat with (length b) by (simpl; rewrite length_app; simpl; lia).
    apply take_app_length. }
  rewrite Hraw. eexists _, _. split_and!; [done..|]. cbn [type literal]. unfold b. by rewrite escapes_processed.
Qed.

(** ** Symbols *)

Lemma symbol_read ty s r ln col : spelling ty = Some s -> ~ word (lit s) -> exists c w k, lit s = c :: w /\ is_alpha c = false /\ is_digit c = false /\ symbol c = Some k /\ exists t lx', k (first_char c (w ++ " "%char :: r) ln col) = (t, lx') /\ current lx' = " "%char :: r /\ (type t, literal t) = (ty, no_value).
Proof.
  intros Hs Hw.
  destruct ty; simpl in Hs; try discriminate Hs; injection Hs as <-;
    try (exfalso; apply Hw; eexists _, _; split_and!; [reflexivity..|repeat constructor]; fail);
    (eexists _, _, _; split_and!; [reflexivity..|]; eexists _, _; split_and!; reflexivity).
Qed.

Lemma symbol_start ty s c w r : spelling ty = Some s -> lit s = c :: w -> is_alpha c = false ->
  blank c = false /\ (c = "/"%char -> stops_at (fun c => eqc c "/" || eqc c "*") (w ++ " "%char :: r)).
Proof.
  intros Hs E Ha. destruct ty; simpl in Hs; try discriminate Hs; injection Hs as <-; injection E as <- <-; try discriminate Ha;
    (split; [reflexivity|]); intros H; try discriminate H; by intros ? ? [= <- <-].
Qed.

(** ** Reading them all *)

(** At most one blank before the text. *)
Inductive at_text (s : cstr) : cstr -> Prop :=
| at_here : at_text s s
| at_blank : at_text s (" "%char :: s).

Lemma skip_to n c r st cu ln col sc : at_text (c :: r) cu -> blank c = false -> (c = "/"%char -> stops_at (fun c => eqc c "/" || eqc c "*") r) ->
  exists lx, skip_whitespace (S (S n)) (mkLexer st cu ln col sc) = Ok lx /\ current lx = c :: r.
Proof.
  intros Hcu Hb Hs. unfold blank in Hb.
  assert (Hone : forall k st ln col sc, skip_whitespace (S k) (mkLexer st (c :: r) ln col sc) = Ok (mkLexer st (c :: r) ln col sc)).
  { intros k ? ? ? ?. cbn [skip_whitespace peek peek_next current]. apply orb_false_iff in Hb as [-> ->].
    destruct (eqc c "/") eqn:E; [|done]. apply eqc_true in E. specialize (Hs E). destruct r as [|d r]; [done|].
    specialize (Hs d r eq_refl). apply orb_false_iff in Hs as [-> ->]. done. }
  destruct Hcu; [rewrite Hone; by eexists|]. change (skip_whitespace (S (S n)) (mkLexer st (" "%char :: c :: r) ln col sc))
    with (skip_whitespace (S n) (moved_to (mkLexer st (" "%char :: c :: r) ln col sc) (c :: r))).
  unfold moved_to. rewrite Hone. by eexists.
Qed.

Lemma scan_token_at n c r lx : at_text (c :: r) (current lx) -> blank c = false -> (c = "/"%char -> stops_at (fun c => eqc c "/" || eqc c "*") r) ->
  exists ln col, scan_token (S (S n)) lx =
    (let lx := first_char c r ln col in
     if is_alpha c then Ok (identifier lx)
     else if is_digit c then number lx
     else match symbol c with
     | Some k => Ok (k lx)
     | None =>
         if eqc c QUOTE then string_token lx
         else if eqc c "#" then scan_token (S n) (while_peek (fun c => negb (eqc c NL)) lx)
         else Ok (error_token lx "Unexpected character", lx)
     end).
Proof.
  intros Hat Hb Hs. destruct lx as [st cu ln col sc]. destruct (skip_to n c r st cu ln col sc Hat Hb Hs) as ([st' cu' ln' col' sc'] & E & Hcu).
  cbn [current] in Hcu. subst cu'. exists ln', col'. change (scan_token (S (S n))) with (fun lx =>
    let! lx := skip_whitespace (S (S n)) lx in
    let lx := mkLexer (current lx) (current lx) (line lx) (column lx) (column lx) in
    if is_at_end lx then Ok (token TOKEN_EOF lx) else
    let! r := advance lx in
    let '(c, lx) := r in
    if is_alpha c then Ok (identifier lx)
    else if is_digit c then number lx
    else match symbol c with
    | Some k => Ok (k lx)
    | None =>
        if eqc c QUOTE then string_token lx
        else if eqc c "#" then scan_token (S n) (while_peek (fun c => negb (eqc c NL)) lx)
        else Ok (error_token lx "Unexpected character", lx)
    end). cbv beta. rewrite E. reflexivity.
Qed.

Lemma class_start (p : ascii -> bool) c r : p " "%char = false -> p CR = false -> p TAB = false -> p NL = false -> p "/"%char = false ->
  p c = true -> blank c = false /\ (c = "/"%char -> stops_at (fun c => eqc c "/" || eqc c "*") r).
Proof.
  intros H1 H2 H3 H4 H5 Hc. split; [|intros ->; congruence].
  unfold blank. repeat (apply orb_false_iff; split); apply not_true_iff_false; intros ->%eqc_true; congruence.
Qed.

Lemma shown_read p r lx n : printable p -> at_text (show p ++ " "%char :: r) (current lx) ->
  exists t lx', scan_token (S (S n)) lx = Ok (t, lx') /\ current lx' = " "%char :: r /\ (type t, literal t) = meaning p.
Proof.
  intros Hp Hat. assert (Hsp : stops_at (fun c => is_alpha c || is_digit c) (" "%char :: r)) by (by intros ? ? [= <- <-]).
  destruct p as [w|k|s|ty]; cbn [show] in Hat.
  - pose proof Hp as (c & w' & -> & Hc & _). cbn [app] in Hat. destruct (class_start is_alpha c (w' ++ " "%char :: r)) as [Hb Hs]; [done..|].
    destruct (scan_token_at n _ _ _ Hat Hb Hs) as (ln & col & ->). cbv zeta. rewrite Hc.
    destruct (word_read c w' (" "%char :: r) ln col Hp Hsp) as (t & lx' & -> & H). by exists t, lx'.
  - destruct (int_read k r 1 1 Hp) as (c & w & E & Hc & _). rewrite E in Hat. cbn [app] in Hat.
    destruct (class_start is_digit c (w ++ " "%char :: r)) as [Hb Hs]; [done..|].
    destruct (scan_token_at n _ _ _ Hat Hb Hs) as (ln & col & ->). cbv zeta.
    destruct (int_read k r ln col Hp) as (c' & w0 & E' & _ & t & lx' & Hn & H). rewrite E in E'. injection E' as <- <-.
    assert (Ha : is_alpha c = false); [|rewrite Ha, Hc, Hn; by exists t, lx'].
    unfold is_digit, is_alpha in *. apply not_true_iff_false. intros [[Ha|Ha]%orb_true_iff| ->%eqc_true]%orb_true_iff; [| |done].
    + change (byte "9") with 57 in Hc. change (byte "a") with 97 in Ha. lia.
    + change (byte "9") with 57 in Hc. change (byte "A") with 65 in Ha. lia.
  - cbn [app] in Hat. rewrite <- app_assoc in Hat. cbn [app] in Hat.
    destruct (scan_token_at n QUOTE _ _ Hat eq_refl ltac:(done)) as (ln & col & ->). cbv zeta. simpl (is_alpha QUOTE). cbv iota.
    destruct (string_read s (" "%char :: r) ln col) as (t & lx' & E & H). by exists t, lx'.
  - destruct Hp as (s & Hs & Hw). rewrite Hs in Hat. cbn [default] in Hat.
    destruct (symbol_read ty s r 1 1 Hs Hw) as (c & w & k & E & Ha & Hd & Hk & _). cbn [from_option id] in Hat. rewrite E in Hat. cbn [app] in Hat.
    destruct (symbol_start ty s c w r Hs E Ha) as [Hb Hsl].
    destruct (scan_token_at n _ _ _ Hat Hb Hsl) as (ln & col & ->). cbv zeta. rewrite Ha, Hd, Hk.
    destruct (symbol_read ty s r ln col Hs Hw) as (c' & w0 & k' & E' & _ & _ & Hk' & t & lx' & H1 & H). rewrite E in E'. injection E' as <- <-.
    rewrite Hk in Hk'. injection Hk' as <-. exists t, lx'. by rewrite H1.
Qed.

Lemma meaning_not_eof p : printable p -> (meaning p).1 <> TOKEN_EOF.
Proof.
  destruct p as [w|k|s|ty]; simpl; intros Hp; [|done|done|].
  - destruct (identifier_type_sound w) as [-> |(s & Hs & _)]; [done|]. intros E. by rewrite E in Hs.
  - destruct Hp as (s & Hs & _). by intros ->.
Qed.

(** The first character is no byte order mark. *)
Lemma show_first p : printable p -> exists c w, show p = c :: w /\ byte c <> 239.
Proof.
  destruct p as [w|k|s|ty]; cbn [printable show]; intros Hp.
  - destruct Hp as (c & r & -> & Hc & _). exists c, r. split; [done|]. intros E. unfold is_alpha in Hc. rewrite E in Hc.
    apply orb_true_iff in Hc as [Hc|Hc]; [done|]. apply eqc_true in Hc as ->. discriminate E.
  - destruct (int_read k [] 1 1 Hp) as (c & w & E & Hc & _). exists c, w. split; [done|]. intros E'. unfold is_digit in Hc. by rewrite E' in Hc.
  - by eexists _, _.
  - destruct Hp as (s & Hs & Hw). rewrite Hs. simpl. destruct ty; simpl in Hs; try discriminate Hs; injection Hs as <-; by eexists _, _.
Qed.

Lemma init_plain c r : byte c <> 239 -> current (init_lexer (c :: r)) = c :: r.
Proof. intros H. unfold init_lexer. cbn [current]. destruct r as [|b [|d r]]; [done..|]. destruct (Z.eqb_spec (byte c) 0xEF); [lia|done]. Qed.

Lemma all_read ps fuel : forall lx, Forall printable ps -> at_text (show_all ps) (current lx) -> (length (current lx) < fuel)%nat ->
  exists ts, scan_tokens fuel lx = Ok ts /\ map (fun t => (type t, literal t)) ts = map meaning ps ++ [(TOKEN_EOF, no_value)].
Proof.
  revert fuel. induction ps as [|p ps IH]; intros [|fuel] lx Hps Hat Hf; try lia; cbn [scan_tokens].
  - destruct lx as [st cu ln col sc]. cbn [current show_all map concat] in *.
    inversion Hat; subst; eexists; split; reflexivity.
  - pose proof (Forall_inv Hps) as Hp. pose proof (Forall_inv_tail Hps) as Hps'.
    unfold show_all in Hat. cbn [map concat] in Hat. rewrite <- app_assoc in Hat. cbn [app] in Hat. fold (show_all ps) in Hat.
    destruct (show_first p Hp) as (c & w & E & _).
    assert (Hlen : exists n, length (current lx) = S n /\ (length (show_all ps) + 1 <= n)%nat).
    { rewrite E in Hat. destruct Hat; [exists (length (w ++ " "%char :: show_all ps))|exists (length (c :: w ++ " "%char :: show_all ps))];
        (split; [reflexivity|]); cbn [length]; rewrite length_app; cbn [length]; lia. }
    destruct Hlen as (n & Hn & Hle). rewrite Hn.
    destruct (shown_read p (show_all ps) lx n Hp Hat) as (t & lx' & -> & Hcu & Hm). cbn [obind fst snd].
    rewrite bool_decide_false by (pose proof (meaning_not_eof p Hp) as H; by rewrite <- Hm in H).
    destruct (IH fuel lx' Hps') as (ts & -> & Hts); [rewrite Hcu; apply at_blank|rewrite Hcu; simpl; lia|].
    cbn [obind map app]. eexists. split; [done|]. cbn [map]. by rewrite Hm, Hts.
Qed.

(** C35: words, integers from 0 to the largest [int64_t], strings of any
    characters and the operators and delimiters, printed with a blank behind
    each and the special characters of strings escaped, are scanned into
    exactly the tokens they stand for, with the same values, and the end
    token. *)
Theorem lexer_roundtrip ps : Forall printable ps ->
  exists ts, scan (show_all ps) = Ok ts /\ map (fun t => (type t, literal t)) ts = map meaning ps ++ [(TOKEN_EOF, no_value)].
Proof.
  intros Hps. unfold scan. apply all_read; [done| |].
  - destruct ps as [|p ps]; [apply at_here|]. destruct (show_first p (Forall_inv Hps)) as (c & w & E & Hc).
    unfold show_all. cbn [map concat]. rewrite E, <- app_assoc. cbn [app]. rewrite init_plain by done. apply at_here.
  - destruct (init_suffix (show_all ps)) as [u Hu]. rewrite Hu at 2. rewrite length_app. lia.
Qed.

Definition example_tokens : list Printed :=
  [P_word (lit "let"); P_word (lit "x1"); P_symbol TOKEN_INFER_ASSIGN; P_int 42; P_symbol TOKEN_LSHIFT;
   P_string [QUOTE; NL; "a"%char; NUL]; P_symbol TOKEN_SEMICOLON].

Lemma lexer_roundtrip_witness : exists ts, scan (show_all example_tokens) = Ok ts /\
  map (fun t => (type t, literal t)) ts =
    [(TOKEN_LET, no_value); (TOKEN_IDENTIFIER, no_value); (TOKEN_INFER_ASSIGN, no_value); (TOKEN_INTEGER, int_value 42);
     (TOKEN_LSHIFT, no_value); (TOKEN_STRING, string_value [QUOTE; NL; "a"%char; NUL]); (TOKEN_SEMICOLON, no_value); (TOKEN_EOF, no_value)].
Proof.
  assert (Hw : forall c r, is_alpha c = true -> forallb alnum r = true -> word (c :: r)).
  { intros c r Hc Hr. exists c, r. split_and!; [done..|]. apply list.Forall_forall. intros x Hx. rewrite forallb_forall in Hr. by apply Hr, list_elem_of_In. }
  assert (Hsym : forall ty s, spelling ty = Some s -> (forall c r, lit s = c :: r -> is_alpha c = false) -> printable (P_symbol ty)).
  { intros ty s Hs H. exists s. split; [done|]. intros (c & r & E & Hc & _). rewrite (H c r E) in Hc. discriminate. }
  apply (lexer_roundtrip example_tokens). repeat apply Forall_cons_2; try apply Forall_nil; try exact I;
    try (apply Hw; reflexivity); try (eapply Hsym; [reflexivity|by intros ? ? [= <- <-]]); (simpl; unfold INT64_MAX; lia).
Defined.

(** A line feed behind a backslash in a string is not counted, and a string
    with a line feed leaves the column counting on. *)
Lemma string_line_missed :
  (match scan (QUOTE :: BACKSLASH :: NL :: QUOTE :: lit " x") with Ok [_; t; _] => Some (tk_line t, tk_column t) | _ => None end) = Some (1, 6) /\
  (match scan (QUOTE :: NL :: QUOTE :: lit " x") with Ok [_; t; _] => Some (tk_line t, tk_column t) | _ => None end) = Some (2, 5).
Proof. vm_compute. done. Qed.

(** A prefix without digits is the number 0, and a hexadecimal literal of more than 64 bits is -1. *)
Lemma hex_without_digits :
  (match scan (lit "0x 0xfffffffffffffffff") with Ok [a; b; _] => Some (literal a, literal b) | _ => None end) = Some (int_value 0, int_value (-1)).
Proof. vm_compute. done. Qed.
