(* ===== verification/SymTable.v ===== *)
(** * The symbol table

    [src/compiler/sema/symtable.c]: declarations with their scopes, classes
    with their fields and methods, traits.  The array of symbols is the list of
    the symbols, the newest first.  A [ClassSymbol*] or [TraitSymbol*] is an
    index into the classes or traits made so far: the table never frees them
    before it is freed itself.  A lookup gives the symbol it points to; what
    callers write through that pointer is not modelled.
    [return_class_name] of a class is never written and is left out.  [int] counters are not
    wrapped.  [print_symbol_table] writes text and [free_symbol_table] frees. *)
From S2P Require Import Prelude.
From stdpp Require Import strings.
Local Open Scope Z_scope.

(** [DataType] and [AccessModifier] of [ast.h] *)
Inductive DataType :=
| TYPE_I8 | TYPE_I16 | TYPE_I32 | TYPE_I64 | TYPE_I128
| TYPE_U8 | TYPE_U16 | TYPE_U32 | TYPE_U64 | TYPE_U128
| TYPE_F16 | TYPE_F32 | TYPE_F64 | TYPE_BF16
| TYPE_BOOL | TYPE_CHAR
| TYPE_STRING | TYPE_STRBUF
| TYPE_VOID
| TYPE_STRUCT | TYPE_ENUM | TYPE_UNION | TYPE_CLASS
| TYPE_ARRAY | TYPE_STATIC_ARRAY | TYPE_SLICE
| TYPE_PTR | TYPE_RAWPTR | TYPE_REF
| TYPE_VEC | TYPE_MAT | TYPE_TENSOR
| TYPE_FUNC
| TYPE_DYN
| TYPE_GENERIC
| TYPE_FUTURE
| TYPE_ERROR.

#[export] Instance DataType_eq_dec : EqDecision DataType.
Proof. solve_decision. Defined.

Inductive AccessModifier := ACCESS_PUBLIC | ACCESS_PRIVATE | ACCESS_PROTECTED.

Inductive SymbolKind := SYMBOL_VARIABLE | SYMBOL_FUNCTION | SYMBOL_PARAMETER | SYMBOL_CLASS | SYMBOL_TRAIT.

#[export] Instance SymbolKind_eq_dec : EqDecision SymbolKind.
Proof. solve_decision. Defined.

Record FieldSymbol := mkField {
  f_name : string;
  f_type : DataType;
  f_class_name : option string;
  offset : Z;
  f_is_const : bool;
  f_is_mutable : bool;
  f_is_static : bool;
  f_access : AccessModifier
}.

(** The counts of parameters, fields and methods are the lengths of the lists. *)
Record MethodSymbol := mkMethod {
  m_name : string;
  m_return_type : DataType;
  m_return_class_name : option string;
  m_param_types : list DataType;
  is_constructor : bool;
  m_is_static : bool;
  m_is_abstract : bool;
  vtable_index : Z;
  m_access : AccessModifier
}.

Record ClassSymbol := mkClass {
  c_name : string;
  parent_class : option string;
  parent : option nat;
  is_abstract : bool;
  fields : list FieldSymbol;
  methods : list MethodSymbol;
  instance_size : Z
}.

Record TraitMethodSymbol := mkTraitMethod {
  tm_name : string;
  tm_return_type : DataType;
  tm_return_class_name : option string;
  tm_param_types : list DataType;
  has_default : bool
}.

Record TraitSymbol := mkTrait { t_name : string; t_methods : list TraitMethodSymbol }.

Record Symbol := mkSymbol {
  name : string;
  kind : SymbolKind;
  stype : DataType;
  scope_depth : Z;
  is_initialized : bool;
  is_mutable : bool;
  is_const : bool;
  param_types : list DataType;
  return_type : DataType;
  return_type_info : option nat;
  is_extern : bool;
  is_async : bool;
  is_closure_value : bool;
  closure_capture_types : list DataType;
  closure_lambda_id : Z;
  is_heap_allocated : bool;
  class_info : option nat;
  trait_info : option nat;
  ownership_data : option nat
}.

Record SymbolTable := mkTable {
  symbols : list Symbol;
  capacity : Z;
  classes : list ClassSymbol;
  traits : list TraitSymbol
}.

Definition init_symbol_table : SymbolTable := mkTable [] 16 [] [].

Definition set_symbols (t : SymbolTable) (l : list Symbol) : SymbolTable := mkTable l (capacity t) (classes t) (traits t).
Definition set_classes (t : SymbolTable) (l : list ClassSymbol) : SymbolTable := mkTable (symbols t) (capacity t) l (traits t).
Definition set_traits (t : SymbolTable) (l : list TraitSymbol) : SymbolTable := mkTable (symbols t) (capacity t) (classes t) l.

(** ** Declarations *)

(** The loop that looks for a declaration in the same scope. *)
Fixpoint redeclared (nm : string) (depth : Z) (l : list Symbol) : bool :=
  match l with
  | [] => false
  | s :: l => if scope_depth s <? depth then false else if bool_decide (name s = nm) then true else redeclared nm depth l
  end.

Definition GROW_CAPACITY (cap : Z) : Z := if cap <? 8 then 8 else cap * 2.

Definition new_symbol (nm : string) (k : SymbolKind) (ty : DataType) (depth : Z) : Symbol :=
  mkSymbol nm k ty depth false true false [] TYPE_ERROR None false false false [] (-1) false None None None.

Definition add_symbol (t : SymbolTable) (nm : string) (k : SymbolKind) (ty : DataType) (depth : Z) : bool * SymbolTable :=
  if redeclared nm depth (symbols t) then (false, t) else
  let cap := if capacity t <=? Z.of_nat (length (symbols t)) then GROW_CAPACITY (capacity t) else capacity t in
  (true, mkTable (new_symbol nm k ty depth :: symbols t) cap (classes t) (traits t)).

(** [table->symbols[table->count - 1]] is changed. *)
Definition set_last (t : SymbolTable) (f : Symbol -> Symbol) : SymbolTable :=
  set_symbols t (match symbols t with s :: l => f s :: l | [] => [] end).

Definition as_function (rt : DataType) (params : list DataType) (s : Symbol) : Symbol :=
  mkSymbol (name s) (kind s) (stype s) (scope_depth s) (is_initialized s) (is_mutable s) (is_const s) params rt
    (return_type_info s) (is_extern s) (is_async s) (is_closure_value s) (closure_capture_types s) (closure_lambda_id s)
    (is_heap_allocated s) (class_info s) (trait_info s) (ownership_data s).
Definition as_extern (s : Symbol) : Symbol :=
  mkSymbol (name s) (kind s) (stype s) (scope_depth s) (is_initialized s) (is_mutable s) (is_const s) (param_types s) (return_type s)
    (return_type_info s) true (is_async s) (is_closure_value s) (closure_capture_types s) (closure_lambda_id s)
    (is_heap_allocated s) (class_info s) (trait_info s) (ownership_data s).
Definition with_class (c : nat) (s : Symbol) : Symbol :=
  mkSymbol (name s) (kind s) (stype s) (scope_depth s) (is_initialized s) (is_mutable s) (is_const s) (param_types s) (return_type s)
    (return_type_info s) (is_extern s) (is_async s) (is_closure_value s) (closure_capture_types s) (closure_lambda_id s)
    (is_heap_allocated s) (Some c) (trait_info s) (ownership_data s).
Definition with_trait (tr : nat) (s : Symbol) : Symbol :=
  mkSymbol (name s) (kind s) (stype s) (scope_depth s) (is_initialized s) (is_mutable s) (is_const s) (param_types s) (return_type s)
    (return_type_info s) (is_extern s) (is_async s) (is_closure_value s) (closure_capture_types s) (closure_lambda_id s)
    (is_heap_allocated s) (class_info s) (Some tr) (ownership_data s).

Definition add_function (t : SymbolTable) (nm : string) (rt : DataType) (params : list DataType) (depth : Z) : bool * SymbolTable :=
  let r := add_symbol t nm SYMBOL_FUNCTION rt depth in
  if negb r.1 then (false, r.2) else (true, set_last r.2 (as_function rt params)).

Definition add_extern_function (t : SymbolTable) (nm : string) (rt : DataType) (params : list DataType) (depth : Z) : bool * SymbolTable :=
  let r := add_function t nm rt params depth in
  if negb r.1 then (false, r.2) else (true, set_last r.2 as_extern).

Definition lookup_symbol (t : SymbolTable) (nm : string) : option Symbol :=
  List.find (fun s => bool_decide (name s = nm)) (symbols t).

(** ** Scopes *)

Definition enter_scope (depth : Z) : Z := depth + 1.

Fixpoint pop_scope (depth : Z) (l : list Symbol) : list Symbol :=
  match l with
  | s :: l' => if scope_depth s =? depth then pop_scope depth l' else l
  | [] => []
  end.

Definition exit_scope (t : SymbolTable) (depth : Z) : SymbolTable * Z := (set_symbols t (pop_scope depth (symbols t)), depth - 1).

(** ** Classes *)

Definition lookup_class (t : SymbolTable) (nm : string) : option nat :=
  match List.find (fun s => bool_decide (kind s = SYMBOL_CLASS) && bool_decide (name s = nm)) (symbols t) with
  | Some s => class_info s
  | None => None
  end.

Definition add_class (t : SymbolTable) (nm : string) (parent_name : option string) (depth : Z) : outcome (bool * SymbolTable) :=
  if redeclared nm depth (symbols t) then Ok (false, t) else
  let r := add_symbol t nm SYMBOL_CLASS TYPE_CLASS depth in
  if negb r.1 then Ok r else
  let t := r.2 in
  let new cls := Ok (true, set_last (set_classes t (classes t ++ [cls])) (with_class (length (classes t)))) in
  match parent_name with
  | Some pn =>
      match lookup_class t pn with
      | None => Ok (false, set_symbols t (tail (symbols t)))
      | Some p =>
          let! pc := of_option (classes t !! p) in
          new (mkClass nm (Some pn) (Some p) false [] [] (instance_size pc))
      end
  | None => new (mkClass nm None None false [] [] 8)
  end.

(** A field or method of the class or, if it has none, of an ancestor; [fuel] bounds the chain. *)
Fixpoint find_field_in (fuel : nat) (cl : list ClassSymbol) (c : nat) (nm : string) : outcome (option FieldSymbol) :=
  match fuel with
  | O => OutOfFuel
  | S fuel =>
      let! cs := of_option (cl !! c) in
      match List.find (fun f => bool_decide (f_name f = nm)) (fields cs) with
      | Some f => Ok (Some f)
      | None => match parent cs with Some p => find_field_in fuel cl p nm | None => Ok None end
      end
  end.
Definition find_field (cl : list ClassSymbol) (c : nat) (nm : string) : outcome (option FieldSymbol) := find_field_in (length cl) cl c nm.

Fixpoint find_method_in (fuel : nat) (cl : list ClassSymbol) (c : nat) (nm : string) : outcome (option MethodSymbol) :=
  match fuel with
  | O => OutOfFuel
  | S fuel =>
      let! cs := of_option (cl !! c) in
      match List.find (fun m => bool_decide (m_name m = nm)) (methods cs) with
      | Some m => Ok (Some m)
      | None => match parent cs with Some p => find_method_in fuel cl p nm | None => Ok None end
      end
  end.
Definition find_method (cl : list ClassSymbol) (c : nat) (nm : string) : outcome (option MethodSymbol) := find_method_in (length cl) cl c nm.

Definition with_field (cs : ClassSymbol) (f : FieldSymbol) (size : Z) : ClassSymbol :=
  mkClass (c_name cs) (parent_class cs) (parent cs) (is_abstract cs) (fields cs ++ [f]) (methods cs) size.
Definition with_method (cs : ClassSymbol) (m : MethodSymbol) : ClassSymbol :=
  mkClass (c_name cs) (parent_class cs) (parent cs) (is_abstract cs) (fields cs) (methods cs ++ [m]) (instance_size cs).

(** Every branch of the switch over the type gives 8. *)
Definition field_size (ty : DataType) : Z := 8.

Definition add_field_to_class (cl : list ClassSymbol) (c : nat) (nm : string) (ty : DataType) (cn : option string) (static : bool)
  (access : AccessModifier) (const mutable : bool) : outcome (bool * list ClassSymbol) :=
  let! cs := of_option (cl !! c) in
  if existsb (fun f => bool_decide (f_name f = nm)) (fields cs) then Ok (false, cl) else
  let! inherited :=
    match parent cs with
    | Some p => if negb static then let! r := find_field cl p nm in Ok (bool_decide (is_Some r)) else Ok false
    | None => Ok false
    end in
  if (inherited : bool) then Ok (false, cl) else
  let f := mkField nm ty cn (if static then -1 else instance_size cs) const mutable static access in
  let size := if negb static then instance_size cs + field_size ty else instance_size cs in
  Ok (true, <[c := with_field cs f size]> cl).

(** The largest index among the methods of a class and its ancestors, and [m]. *)
Definition max_own (m : Z) (l : list MethodSymbol) : Z := fold_left (fun m x => if m <? vtable_index x then vtable_index x else m) l m.
Fixpoint max_index (fuel : nat) (cl : list ClassSymbol) (current : option nat) (m : Z) : outcome Z :=
  match current with
  | None => Ok m
  | Some c =>
      match fuel with
      | O => OutOfFuel
      | S fuel => let! cs := of_option (cl !! c) in max_index fuel cl (parent cs) (max_own m (methods cs))
      end
  end.

(** What the inherited method of the name says: its slot, or a mismatch. *)
Definition override (cl : list ClassSymbol) (cs : ClassSymbol) (nm : string) (rt : DataType) (params : list DataType) : outcome (option Z) :=
  match parent cs with
  | None => Ok (Some (-1))
  | Some p =>
      let! pm := find_method cl p nm in
      match pm with
      | None => Ok (Some (-1))
      | Some pm =>
          if negb (bool_decide (m_return_type pm = rt)) || negb (length (m_param_types pm) =? length params)%nat then Ok None
          else if bool_decide (m_param_types pm = params) then Ok (Some (vtable_index pm)) else Ok None
      end
  end.

Definition add_method_to_class (cl : list ClassSymbol) (c : nat) (nm : string) (rt : DataType) (params : list DataType)
  (constructor static : bool) (access : AccessModifier) : outcome (bool * list ClassSymbol) :=
  let! cs := of_option (cl !! c) in
  if existsb (fun m => bool_decide (m_name m = nm) && negb (constructor && is_constructor m)) (methods cs) then Ok (false, cl) else
  let! slot := (if negb constructor && negb static then override cl cs nm rt params else Ok (Some (-1))) in
  match slot with
  | None => Ok (false, cl)
  | Some slot =>
      let! slot :=
        (if negb constructor && negb static && (slot =? -1) then
           let! m := max_index (length cl) cl (parent cs) (max_own (-1) (methods cs)) in Ok (m + 1)
         else Ok slot) in
      let m := mkMethod nm rt None params constructor static false slot access in
      Ok (true, <[c := with_method cs m]> cl)
  end.

Fixpoint is_subclass_in (fuel : nat) (cl : list ClassSymbol) (current : option nat) (p : nat) : outcome bool :=
  match current with
  | None => Ok false
  | Some c =>
      if (c =? p)%nat then Ok true else
      match fuel with
      | O => OutOfFuel
      | S fuel => let! cs := of_option (cl !! c) in is_subclass_in fuel cl (parent cs) p
      end
  end.
Definition is_subclass_of (cl : list ClassSymbol) (child par : option nat) : outcome bool :=
  match child, par with
  | Some c, Some p => let! cs := of_option (cl !! c) in is_subclass_in (length cl) cl (parent cs) p
  | _, _ => Ok false
  end.

(** ** Traits *)

Definition lookup_trait (t : SymbolTable) (nm : string) : option nat :=
  match List.find (fun s => bool_decide (kind s = SYMBOL_TRAIT) && bool_decide (name s = nm)) (symbols t) with
  | Some s => trait_info s
  | None => None
  end.

Definition add_trait (t : SymbolTable) (nm : string) (depth : Z) : bool * SymbolTable :=
  if redeclared nm depth (symbols t) then (false, t) else
  let r := add_symbol t nm SYMBOL_TRAIT TYPE_VOID depth in
  if negb r.1 then r else
  let t := r.2 in
  (true, set_last (set_traits t (traits t ++ [mkTrait nm []])) (with_trait (length (traits t)))).

Definition add_method_to_trait (tr : TraitSymbol) (nm : string) (rt : DataType) (rc : option string) (params : list DataType) (default : bool)
  : bool * TraitSymbol :=
  if existsb (fun m => bool_decide (tm_name m = nm)) (t_methods tr) then (false, tr)
  else (true, mkTrait (t_name tr) (t_methods tr ++ [mkTraitMethod nm rt rc params default])).

Definition find_trait_method (tr : TraitSymbol) (nm : string) : option TraitMethodSymbol :=
  List.find (fun m => bool_decide (tm_name m = nm)) (t_methods tr).
