(* ===== verification/SymTableFacts.v ===== *)
(** * Scopes and class hierarchies

    The symbol table behaves as a stack of maps from names to symbols.  In a
    class hierarchy that is built from the root down, the fields of a class
    extend those of its ancestors without overlap and its methods fill a
    virtual table in which a slot belongs to one name and signature. *)
From S2P Require Import Prelude SymTable.
From stdpp Require Import strings.
Local Open Scope Z_scope.

(** ** A stack of maps *)

Record Env := mkEnv {
  scopes : list (gmap string Symbol);
  e_classes : list ClassSymbol;
  e_traits : list TraitSymbol
}.

Inductive ScopeOp :=
| Op_symbol (nm : string) (k : SymbolKind) (ty : DataType)
| Op_function (nm : string) (rt : DataType) (params : list DataType)
| Op_extern (nm : string) (rt : DataType) (params : list DataType)
| Op_class (nm : string) (parent_name : option string)
| Op_trait (nm : string)
| Op_lookup (nm : string)
| Op_enter
| Op_exit.

Inductive ScopeResult := R_bool (b : bool) | R_symbol (s : option Symbol) | R_unit.

Fixpoint env_lookup (nm : string) (l : list (gmap string Symbol)) : option Symbol :=
  match l with
  | [] => None
  | m :: l => match m !! nm with Some s => Some s | None => env_lookup nm l end
  end.
Fixpoint env_class (nm : string) (l : list (gmap string Symbol)) : option nat :=
  match l with
  | [] => None
  | m :: l =>
      match m !! nm with
      | Some s => if bool_decide (kind s = SYMBOL_CLASS) then class_info s else env_class nm l
      | None => env_class nm l
      end
  end.

(** A declaration in the innermost scope. *)
Definition env_declare (nm : string) (s : Symbol) (e : Env) : ScopeResult * Env :=
  match scopes e with
  | m :: l => match m !! nm with
              | Some _ => (R_bool false, e)
              | None => (R_bool true, mkEnv (<[nm := s]> m :: l) (e_classes e) (e_traits e))
              end
  | [] => (R_bool false, e)
  end.

Definition env_op (e : Env) (op : ScopeOp) : outcome (ScopeResult * Env) :=
  let depth := Z.of_nat (length (scopes e)) - 1 in
  match op with
  | Op_symbol nm k ty => Ok (env_declare nm (new_symbol nm k ty depth) e)
  | Op_function nm rt params => Ok (env_declare nm (as_function rt params (new_symbol nm SYMBOL_FUNCTION rt depth)) e)
  | Op_extern nm rt params => Ok (env_declare nm (as_extern (as_function rt params (new_symbol nm SYMBOL_FUNCTION rt depth))) e)
  | Op_class nm pn =>
      let sym := with_class (length (e_classes e)) (new_symbol nm SYMBOL_CLASS TYPE_CLASS depth) in
      let made cls := Ok (env_declare nm sym (mkEnv (scopes e) (e_classes e ++ [cls]) (e_traits e))) in
      match (head (scopes e) ≫= lookup nm), pn with
      | Some _, _ => Ok (R_bool false, e)
      | None, None => made (mkClass nm None None false [] [] 8)
      | None, Some pn =>
          if bool_decide (pn = nm) then Ok (R_bool false, e) else
          match env_class pn (scopes e) with
          | None => Ok (R_bool false, e)
          | Some p => let! pc := of_option (e_classes e !! p) in made (mkClass nm (Some pn) (Some p) false [] [] (instance_size pc))
          end
      end
  | Op_trait nm =>
      match (head (scopes e) ≫= lookup nm) with
      | Some _ => Ok (R_bool false, e)
      | None => Ok (env_declare nm (with_trait (length (e_traits e)) (new_symbol nm SYMBOL_TRAIT TYPE_VOID depth))
                      (mkEnv (scopes e) (e_classes e) (e_traits e ++ [mkTrait nm []])))
      end
  | Op_lookup nm => Ok (R_symbol (env_lookup nm (scopes e)), e)
  | Op_enter => Ok (R_unit, mkEnv (∅ :: scopes e) (e_classes e) (e_traits e))
  | Op_exit => Ok (R_unit, mkEnv (tail (scopes e)) (e_classes e) (e_traits e))
  end.

(** The table with the depth its user keeps. *)
Definition table_op (t : SymbolTable) (depth : Z) (op : ScopeOp) : outcome (ScopeResult * (SymbolTable * Z)) :=
  let ret (r : bool * SymbolTable) := Ok (R_bool r.1, (r.2, depth)) in
  match op with
  | Op_symbol nm k ty => ret (add_symbol t nm k ty depth)
  | Op_function nm rt params => ret (add_function t nm rt params depth)
  | Op_extern nm rt params => ret (add_extern_function t nm rt params depth)
  | Op_class nm pn => let! r := add_class t nm pn depth in ret r
  | Op_trait nm => ret (add_trait t nm depth)
  | Op_lookup nm => Ok (R_symbol (lookup_symbol t nm), (t, depth))
  | Op_enter => Ok (R_unit, (t, enter_scope depth))
  | Op_exit => Ok (R_unit, exit_scope t depth)
  end.

Fixpoint table_run (t : SymbolTable) (depth : Z) (ops : list ScopeOp) : outcome (list ScopeResult) :=
  match ops with
  | [] => Ok []
  | op :: ops => let! r := table_op t depth op in let! rs := table_run r.2.1 r.2.2 ops in Ok (r.1 :: rs)
  end.
Fixpoint env_run (e : Env) (ops : list ScopeOp) : outcome (list ScopeResult) :=
  match ops with
  | [] => Ok []
  | op :: ops => let! r := env_op e op in let! rs := env_run r.2 ops in Ok (r.1 :: rs)
  end.

(** Every scope that is left was entered. *)
Fixpoint nested (open : nat) (ops : list ScopeOp) : bool :=
  match ops with
  | [] => true
  | Op_enter :: ops => nested (S open) ops
  | Op_exit :: ops => match open with O => false | S open => nested open ops end
  | _ :: ops => nested open ops
  end.

(** ** The correspondence *)

Definition named (nm : string) (s : Symbol) : bool := bool_decide (name s = nm).
Definition named_class (nm : string) (s : Symbol) : bool := bool_decide (kind s = SYMBOL_CLASS) && bool_decide (name s = nm).

(** [l] is the symbols of the scopes, the innermost at depth [d]. *)
Inductive stacked : Z -> list Symbol -> list (gmap string Symbol) -> Prop :=
| stacked_none : stacked (-1) [] []
| stacked_scope d seg l m env : stacked (d - 1) l env ->
    Forall (fun s => scope_depth s = d) seg -> NoDup (map name seg) ->
    (forall nm, m !! nm = List.find (named nm) seg) -> stacked d (seg ++ l) (m :: env).

Lemma stacked_depth d l env : stacked d l env -> d = Z.of_nat (length env) - 1.
Proof. induction 1; simpl in *; lia. Qed.

Lemma stacked_below d l env : stacked d l env -> Forall (fun s => scope_depth s <= d) l.
Proof.
  induction 1 as [|d seg l m env Hst IH Hseg Hnd Hm]; [constructor|]. apply Forall_app. split.
  - eapply Forall_impl; [exact Hseg|]. simpl. lia.
  - eapply Forall_impl; [exact IH|]. simpl. lia.
Qed.

Lemma find_app_list {A} (p : A -> bool) (l k : list A) :
  List.find p (l ++ k) = match List.find p l with Some x => Some x | None => List.find p k end.
Proof. induction l as [|x l IH]; simpl; [done|]. by destruct (p x). Qed.

Lemma find_name nm l s : List.find (named nm) l = Some s -> name s = nm /\ s ∈ l.
Proof.
  intros H. apply List.find_some in H as [Hin Hn]. split; [by apply bool_decide_eq_true in Hn|by apply list_elem_of_In].
Qed.

Lemma redeclared_below nm d l : Forall (fun s => scope_depth s <= d - 1) l -> redeclared nm d l = false.
Proof. destruct l as [|s l]; simpl; [done|]. intros H. apply Forall_inv in H. destruct (Z.ltb_spec (scope_depth s) d); [done|lia]. Qed.

Lemma redeclared_spec nm d l m env : stacked d l (m :: env) -> redeclared nm d l = match m !! nm with Some _ => true | None => false end.
Proof.
  intros H. inversion H as [|? seg l' ? ? Hst Hseg Hnd Hm]; subst. rewrite Hm. clear H Hm Hnd.
  induction Hseg as [|s seg Hs Hseg IH]; simpl.
  - by rewrite redeclared_below by (by apply stacked_below in Hst).
  - destruct (Z.ltb_spec (scope_depth s) d); [lia|]. unfold named at 1. destruct (bool_decide (name s = nm)); [done|exact IH].
Qed.

Lemma lookup_stacked nm d l env : stacked d l env -> List.find (named nm) l = env_lookup nm env.
Proof.
  induction 1 as [|d seg l m env Hst IH Hseg Hnd Hm]; simpl; [done|]. by rewrite find_app_list, Hm, IH.
Qed.

Lemma find_class nm seg : NoDup (map name seg) ->
  List.find (named_class nm) seg = match List.find (named nm) seg with Some s => if bool_decide (kind s = SYMBOL_CLASS) then Some s else None | None => None end.
Proof.
  induction seg as [|s seg IH]; simpl; [done|]. intros [Hni Hnd]%list.NoDup_cons. unfold named_class at 1, named at 1.
  destruct (bool_decide (name s = nm)) eqn:Eb; [pose proof (bool_decide_eq_true_1 _ Eb) as Hn|].
  - rewrite andb_true_r. destruct (bool_decide (kind s = SYMBOL_CLASS)); [done|].
    rewrite IH by done. destruct (List.find (named nm) seg) as [s'|] eqn:E; [|done]. apply find_name in E as [Hs' Hin].
    exfalso. apply Hni. rewrite Hn, <- Hs'. apply list_elem_of_In, in_map, list_elem_of_In. done.
  - rewrite andb_false_r. by apply IH.
Qed.

Lemma class_stacked nm d l env : stacked d l env ->
  match List.find (named_class nm) l with Some s => class_info s | None => None end = env_class nm env.
Proof.
  induction 1 as [|d seg l m env Hst IH Hseg Hnd Hm]; simpl; [done|]. rewrite find_app_list, find_class, Hm by done.
  destruct (List.find (named nm) seg) as [s|]; [|done]. by case_bool_decide.
Qed.

Lemma pop_stacked d l m env : stacked d l (m :: env) -> stacked (d - 1) (pop_scope d l) env.
Proof.
  intros H. inversion H as [|? seg l' ? ? Hst Hseg Hnd Hm]; subst. clear H Hm Hnd.
  induction Hseg as [|s seg Hs Hseg IH]; simpl; [|rewrite (proj2 (Z.eqb_eq _ _) Hs); exact IH].
  pose proof (stacked_below _ _ _ Hst) as Hb. destruct l' as [|s l']; simpl; [done|]. apply Forall_inv in Hb.
  destruct (Z.eqb_spec (scope_depth s) d); [lia|done].
Qed.

Lemma enter_stacked d l env : stacked d l env -> stacked (d + 1) l (∅ :: env).
Proof.
  intros H. apply (stacked_scope (d + 1) [] l ∅ env); [by replace (d + 1 - 1) with d by lia|constructor..|]. intros nm. by rewrite lookup_empty.
Qed.

Lemma declare_stacked d l m env s : stacked d l (m :: env) -> m !! name s = None -> scope_depth s = d -> stacked d (s :: l) (<[name s := s]> m :: env).
Proof.
  intros H Hn Hd. inversion H as [|? seg l' ? ? Hst Hseg Hnd Hm]; subst. change (s :: seg ++ l') with ((s :: seg) ++ l').
  constructor; [done|by constructor| |].
  - simpl. apply list.NoDup_cons. split; [|done]. intros Hin. apply list_elem_of_In, in_map_iff in Hin as (s' & Hs' & Hin).
    rewrite Hm in Hn. apply (List.find_none _ _ Hn) in Hin. unfold named in Hin. rewrite Hs', bool_decide_true in Hin; done.
  - intros nm. simpl. unfold named at 1. case_bool_decide as E; [subst nm; by rewrite lookup_insert_eq|].
    rewrite lookup_insert_ne by done. apply Hm.
Qed.

(** ** Every operation corresponds *)

Definition pointers_ok (t : SymbolTable) : Prop := Forall (fun s => forall c, class_info s = Some c -> (c < length (classes t))%nat) (symbols t).

Definition matches (t : SymbolTable) (d : Z) (e : Env) : Prop :=
  stacked d (symbols t) (scopes e) /\ scopes e <> [] /\ classes t = e_classes e /\ traits t = e_traits e /\ pointers_ok t.

(** The symbol is put on the table or refused. *)
Lemma declare_matches t d e s t' cl tr :
  matches t d e -> scope_depth s = d -> redeclared (name s) d (symbols t) = false ->
  symbols t' = s :: symbols t -> classes t' = classes t ++ cl -> traits t' = traits t ++ tr ->
  (forall c, class_info s = Some c -> (c < length (classes t'))%nat) ->
  exists e', env_declare (name s) s (mkEnv (scopes e) (e_classes e ++ cl) (e_traits e ++ tr)) = (R_bool true, e') /\ matches t' d e'.
Proof.
  intros (Hst & Hne & Hc & Ht & Hp) Hd Hrd Hs' Hc' Ht' Hptr. destruct e as [[|m env] ec et]; [done|]. simpl in *.
  rewrite (redeclared_spec _ _ _ _ _ Hst) in Hrd. unfold env_declare. simpl. destruct (m !! name s) as [s0|] eqn:E; [done|].
  eexists. split; [reflexivity|]. split_and!; [|done|simpl; congruence..|].
  - rewrite Hs'. by apply declare_stacked.
  - unfold pointers_ok. rewrite Hs'. constructor; [done|]. eapply Forall_impl; [exact Hp|]. simpl. intros x Hx c Hxc.
    specialize (Hx c Hxc). rewrite Hc', length_app. lia.
Qed.

Lemma refused t d e nm : matches t d e -> redeclared nm d (symbols t) = true ->
  (forall s, env_declare nm s e = (R_bool false, e)) /\ exists s, head (scopes e) ≫= lookup nm = Some s.
Proof.
  intros (Hst & Hne & _) Hrd. unfold env_declare. destruct (scopes e) as [|m env]; [done|].
  rewrite (redeclared_spec _ _ _ _ _ Hst) in Hrd. simpl. destruct (m !! nm) as [s|]; [|done]. split; [done|by exists s].
Qed.

Lemma not_refused t d e nm : matches t d e -> redeclared nm d (symbols t) = false -> head (scopes e) ≫= lookup nm = None.
Proof.
  intros (Hst & Hne & _) Hrd. destruct (scopes e) as [|m env]; [done|].
  rewrite (redeclared_spec _ _ _ _ _ Hst) in Hrd. simpl. by destruct (m !! nm).
Qed.

Lemma depth_of t d e : matches t d e -> Z.of_nat (length (scopes e)) - 1 = d.
Proof. intros (Hst & _). by rewrite (stacked_depth _ _ _ Hst). Qed.

Lemma simple_matches t d e s t' nm : matches t d e -> name s = nm -> scope_depth s = d -> class_info s = None ->
  symbols t' = s :: symbols t -> classes t' = classes t -> traits t' = traits t -> redeclared nm d (symbols t) = false ->
  exists e', env_declare nm s e = (R_bool true, e') /\ matches t' d e'.
Proof.
  intros Hm <- Hd Hci Hs Hc Ht Hr. destruct (declare_matches t d e s t' [] [] Hm Hd Hr Hs) as (e' & H & Hm'); [by rewrite app_nil_r..|by rewrite Hci|].
  exists e'. split; [|done]. destruct e. by rewrite !app_nil_r in H.
Qed.

Definition same_step (a : outcome (ScopeResult * (SymbolTable * Z))) (b : outcome (ScopeResult * Env)) : Prop :=
  exists r t' d' e', a = Ok (r, (t', d')) /\ b = Ok (r, e') /\ matches t' d' e'.

Ltac same_result := eexists _, _, _, _; (split; [reflexivity|]); (split; [reflexivity|]); assumption.

Ltac declared s nm Hm Hr :=
  unfold set_last, set_symbols, set_classes, set_traits; cbn [symbols capacity classes traits fst snd negb];
  match goal with |- context [mkTable ?l ?c ?cl ?tr] =>
    let e' := fresh "e'" in let E := fresh "E" in let Hm' := fresh "Hm'" in
    destruct (simple_matches _ _ _ s (mkTable l c cl tr) nm Hm) as (e' & E & Hm'); [reflexivity..|exact Hr|]; rewrite E; same_result end.

Lemma plain_step t d e op : matches t d e ->
  match op with Op_symbol _ _ _ | Op_function _ _ _ | Op_extern _ _ _ => True | _ => False end -> same_step (table_op t d op) (env_op e op).
Proof.
  intros Hm Hop. destruct op; try done; unfold same_step, table_op, env_op, add_extern_function, add_function, add_symbol;
    rewrite (depth_of _ _ _ Hm); (destruct (redeclared nm d (symbols t)) eqn:Hr;
    [destruct (refused _ _ _ _ Hm Hr) as [-> _]; same_result|]).
  - declared (new_symbol nm k ty d) nm Hm Hr.
  - declared (as_function rt params (new_symbol nm SYMBOL_FUNCTION rt d)) nm Hm Hr.
  - declared (as_extern (as_function rt params (new_symbol nm SYMBOL_FUNCTION rt d))) nm Hm Hr.
Qed.

Lemma add_trait_step t d e nm : matches t d e -> same_step (table_op t d (Op_trait nm)) (env_op e (Op_trait nm)).
Proof.
  intros Hm. unfold same_step, table_op, env_op, add_trait, add_symbol. rewrite (depth_of _ _ _ Hm). pose proof Hm as (_ & _ & Hc & Ht & _).
  destruct (redeclared nm d (symbols t)) eqn:Hr.
  - destruct (refused _ _ _ _ Hm Hr) as (_ & s & ->). same_result.
  - rewrite (not_refused _ _ _ _ Hm Hr). unfold set_last, set_symbols, set_classes, set_traits; cbn [symbols capacity classes traits fst snd negb].
    match goal with |- context [mkTable ?l ?c ?cl ?tr] =>
      destruct (declare_matches t d e (with_trait (length (traits t)) (new_symbol nm SYMBOL_TRAIT TYPE_VOID d)) (mkTable l c cl tr) [] [mkTrait nm []] Hm)
        as (e' & E & Hm'); [done|exact Hr|reflexivity|by rewrite app_nil_r|reflexivity|done|] end.
    rewrite app_nil_r, Ht in E. cbn [name with_trait new_symbol] in E. rewrite E. same_result.
Qed.

Lemma pop_suffix d l : exists k, l = k ++ pop_scope d l.
Proof. induction l as [|s l [k IH]]; simpl; [by exists []|]. destruct (scope_depth s =? d); [exists (s :: k); simpl; by rewrite <- IH|by exists []]. Qed.

Lemma scope_step t d e op : matches t d e -> (op = Op_exit -> (2 <= length (scopes e))%nat) ->
  match op with Op_lookup _ | Op_enter | Op_exit => True | _ => False end -> same_step (table_op t d op) (env_op e op).
Proof.
  intros Hm Hex Hop. pose proof Hm as (Hst & Hne & Hc & Ht & Hp). destruct op; try done; unfold same_step, table_op, env_op.
  - unfold lookup_symbol. fold (named nm). rewrite (lookup_stacked _ _ _ _ Hst). same_result.
  - eexists _, _, _, _. split; [reflexivity|]. split; [reflexivity|]. split_and!; try done. by apply enter_stacked.
  - eexists _, _, _, _. split; [reflexivity|]. split; [reflexivity|].
    destruct (scopes e) as [|m env] eqn:E; [done|]. specialize (Hex eq_refl). split_and!; try done.
    + cbn [exit_scope fst symbols set_symbols scopes tail]. by apply (pop_stacked _ _ m).
    + simpl. destruct env; [simpl in Hex; lia|done].
    + destruct (pop_suffix d (symbols t)) as [k Hk]. unfold pointers_ok in *. rewrite Hk in Hp. apply Forall_app in Hp as [_ Hp]. exact Hp.
Qed.

Lemma lookup_class_pushed t s nm cap cl tr : lookup_class (mkTable (s :: symbols t) cap cl tr) nm =
  if named_class nm s then class_info s else lookup_class t nm.
Proof. unfold lookup_class. simpl. fold (named_class nm s). by destruct (named_class nm s). Qed.

Lemma lookup_class_valid t nm c : pointers_ok t -> lookup_class t nm = Some c -> exists cs, classes t !! c = Some cs.
Proof.
  unfold lookup_class. intros Hp H. destruct (List.find _ (symbols t)) as [s|] eqn:E; [|done]. apply List.find_some in E as [Hin _].
  unfold pointers_ok in Hp. rewrite list.Forall_forall in Hp. apply lookup_lt_is_Some. apply (Hp s); [by apply list_elem_of_In|done].
Qed.

Lemma add_class_step t d e nm pn : matches t d e -> same_step (table_op t d (Op_class nm pn)) (env_op e (Op_class nm pn)).
Proof.
  intros Hm. unfold same_step, table_op, env_op, add_class, add_symbol. rewrite (depth_of _ _ _ Hm). pose proof Hm as (Hst & Hne & Hc & Ht & Hp).
  destruct (redeclared nm d (symbols t)) eqn:Hr.
  { destruct (refused _ _ _ _ Hm Hr) as (_ & s & ->). same_result. }
  rewrite (not_refused _ _ _ _ Hm Hr). unfold set_last, set_symbols, set_classes, set_traits. cbn [symbols capacity classes traits fst snd negb tail].
  assert (Hmade : forall cls cap, exists e', env_declare nm (with_class (length (e_classes e)) (new_symbol nm SYMBOL_CLASS TYPE_CLASS d))
    (mkEnv (scopes e) (e_classes e ++ [cls]) (e_traits e)) = (R_bool true, e') /\
    matches (mkTable (with_class (length (classes t)) (new_symbol nm SYMBOL_CLASS TYPE_CLASS d) :: symbols t) cap (classes t ++ [cls]) (traits t)) d e').
  { intros cls cap. rewrite <- Hc.
    destruct (declare_matches t d e (with_class (length (classes t)) (new_symbol nm SYMBOL_CLASS TYPE_CLASS d))
      (mkTable (with_class (length (classes t)) (new_symbol nm SYMBOL_CLASS TYPE_CLASS d) :: symbols t) cap (classes t ++ [cls]) (traits t)) [cls] [] Hm)
      as (e' & E & Hm'); [done|exact Hr|done..|by rewrite app_nil_r| |].
    { intros c [= <-]. simpl. rewrite length_app. simpl. lia. }
    exists e'. split; [|done]. rewrite app_nil_r, <- Hc in E. exact E. }
  destruct pn as [pn|].
  2: { destruct (Hmade (mkClass nm None None false [] [] 8) (if capacity t <=? Z.of_nat (length (symbols t)) then GROW_CAPACITY (capacity t) else capacity t)) as (e' & -> & Hm').
       same_result. }
  rewrite lookup_class_pushed. unfold named_class. cbn [kind name new_symbol class_info]. cbn [bool_decide andb].
  destruct (decide (pn = nm)) as [->|Hne'].
  { rewrite !(bool_decide_true (nm = nm)) by done. eexists _, _, _, _. split; [reflexivity|]. split; [reflexivity|]. done. }
  rewrite (bool_decide_false (nm = pn)), (bool_decide_false (pn = nm)), andb_false_r by done.
  assert (Hlk : lookup_class t pn = env_class pn (scopes e)) by (rewrite <- (class_stacked _ _ _ _ Hst); reflexivity).
  rewrite <- Hlk. destruct (lookup_class t pn) as [p|] eqn:El.
  - destruct (lookup_class_valid _ _ _ Hp El) as [pc Hpc]. rewrite <- Hc, Hpc. cbn [of_option obind].
    match goal with |- context [mkTable _ ?cap (_ ++ [?cls]) _] => destruct (Hmade cls cap) as (e' & E & Hm') end.
    rewrite <- Hc in E. rewrite E. same_result.
  - eexists _, _, _, _. split; [reflexivity|]. split; [reflexivity|]. done.
Qed.

Lemma op_step t d e op : matches t d e -> (op = Op_exit -> (2 <= length (scopes e))%nat) -> same_step (table_op t d op) (env_op e op).
Proof.
  intros Hm Hex. destruct op; first [by apply plain_step|by apply add_class_step|by apply add_trait_step|by apply scope_step].
Qed.

Lemma env_depth e op r e' : env_op e op = Ok (r, e') ->
  length (scopes e') = match op with Op_enter => S (length (scopes e)) | Op_exit => pred (length (scopes e)) | _ => length (scopes e) end.
Proof.
  assert (Hd : forall nm s ex, length (scopes (env_declare nm s ex).2) = length (scopes ex)).
  { intros nm s ex. unfold env_declare. destruct (scopes ex) as [|m l] eqn:E; [simpl; by rewrite E|]. destruct (m !! nm); simpl; [by rewrite E|done]. }
  intros H. destruct op; cbn [env_op] in H; inv_ok; try done; simpl;
    try (match goal with E : env_declare ?a ?b ?c = _ |- _ => by pose proof (Hd a b c) as Hx; rewrite E in Hx end).
  by destruct (scopes e).
Qed.

Lemma runs_agree ops : forall t d e, matches t d e -> nested (pred (length (scopes e))) ops = true ->
  exists rs, table_run t d ops = Ok rs /\ env_run e ops = Ok rs.
Proof.
  induction ops as [|op ops IH]; intros t d e Hm Hn; [by exists []|]. cbn [table_run env_run].
  assert (Hpos : (1 <= length (scopes e))%nat) by (destruct Hm as (_ & Hne & _); destruct (scopes e); [done|simpl; lia]).
  destruct (op_step t d e op Hm) as (r & t' & d' & e' & -> & He & Hm').
  { intros ->. cbn [nested] in Hn. destruct (scopes e) as [|m [|m' l]]; [done..|simpl; lia]. }
  pose proof (env_depth _ _ _ _ He) as Hl. rewrite He. cbn [obind fst snd].
  destruct (IH t' d' e' Hm') as (rs & -> & ->); [|by eexists].
  rewrite Hl. destruct op; cbn [nested] in Hn; try exact Hn; [|].
  - by replace (pred (S (length (scopes e)))) with (S (pred (length (scopes e)))) by lia.
  - by destruct (pred (length (scopes e))) as [|k] eqn:E.
Qed.

(** C9: the symbol table is a stack of maps.  For any sequence of declarations
    of variables, functions, extern functions, classes and traits, of lookups
    and of scopes entered and left, the table gives the results that a stack of
    finite maps gives: a name is refused if and only if the innermost scope has
    it, a lookup finds the innermost declaration, leaving a scope uncovers what
    it hid, a class needs a visible parent class of another name, and no null
    or dangling class is read. *)
Theorem symtable_scopes ops : nested 0 ops = true ->
  exists rs, table_run init_symbol_table 0 ops = Ok rs /\ env_run (mkEnv [∅] [] []) ops = Ok rs.
Proof.
  intros Hn. apply runs_agree; [|exact Hn]. split_and!; [|done..|by constructor].
  apply (stacked_scope 0 [] [] ∅ []); [constructor|constructor|constructor|]. intros nm. by rewrite lookup_empty.
Qed.

Definition example_ops : list ScopeOp :=
  [Op_class "A" None; Op_symbol "x" SYMBOL_VARIABLE TYPE_I32; Op_enter; Op_symbol "x" SYMBOL_VARIABLE TYPE_F64; Op_symbol "x" SYMBOL_VARIABLE TYPE_F64;
   Op_class "A" (Some "A"); Op_class "B" (Some "A"); Op_exit; Op_class "C" (Some "B"); Op_lookup "x"]%string.

Lemma symtable_scopes_witness : exists rs,
  table_run init_symbol_table 0 example_ops = Ok rs /\ env_run (mkEnv [∅] [] []) example_ops = Ok rs /\
  rs = [R_bool true; R_bool true; R_unit; R_bool true; R_bool false; R_bool false; R_bool true; R_unit; R_bool false;
        R_symbol (Some (new_symbol "x" SYMBOL_VARIABLE TYPE_I32 0))]%string.
Proof.
  destruct (symtable_scopes example_ops eq_refl) as (rs & H1 & H2). exists rs. split; [exact H1|]. split; [exact H2|].
  assert (H : table_run init_symbol_table 0 example_ops = Ok [R_bool true; R_bool true; R_unit; R_bool true; R_bool false; R_bool false; R_bool true;
    R_unit; R_bool false; R_symbol (Some (new_symbol "x" SYMBOL_VARIABLE TYPE_I32 0))]%string) by (vm_compute; reflexivity).
  rewrite H1 in H. by injection H.
Defined.

(** ** Class hierarchies *)

(** The class and its ancestors, the class first. *)
Fixpoint chain_in (fuel : nat) (cl : list ClassSymbol) (c : nat) : list ClassSymbol :=
  match fuel with
  | O => []
  | S fuel => match cl !! c with
              | Some cs => cs :: match parent cs with Some p => chain_in fuel cl p | None => [] end
              | None => []
              end
  end.
Definition chain (cl : list ClassSymbol) (c : nat) : list ClassSymbol := chain_in (S c) cl c.
Definition ancestors (cl : list ClassSymbol) (cs : ClassSymbol) : list ClassSymbol := match parent cs with Some p => chain cl p | None => [] end.

Definition parents_below (cl : list ClassSymbol) : Prop :=
  forall c cs p, cl !! c = Some cs -> parent cs = Some p -> (p < c)%nat.

Definition leaf (cl : list ClassSymbol) (c : nat) : Prop := forall k cs, cl !! k = Some cs -> parent cs <> Some c.

(** The classes of a program, each one completed before it gets a subclass. *)
Inductive built : list ClassSymbol -> Prop :=
| built_none : built []
| built_class t nm pn d b t' : built (classes t) -> add_class t nm pn d = Ok (b, t') -> built (classes t')
| built_field cl c nm ty cn st acc co mu b cl' : built cl -> leaf cl c ->
    add_field_to_class cl c nm ty cn st acc co mu = Ok (b, cl') -> built cl'
| built_method cl c nm rt ps co st acc b cl' : built cl -> leaf cl c ->
    add_method_to_class cl c nm rt ps co st acc = Ok (b, cl') -> built cl'.

(** The fields with a place in the object, in the order of their places. *)
Definition instance_fields (cs : ClassSymbol) : list FieldSymbol := List.filter (fun f => negb (f_is_static f)) (fields cs).
Definition layout (l : list ClassSymbol) : list FieldSymbol := concat (map instance_fields (rev l)).
Definition all_fields (l : list ClassSymbol) : list FieldSymbol := concat (map fields l).
Definition all_methods (l : list ClassSymbol) : list MethodSymbol := concat (map methods l).

Lemma chain_fuel cl fuel : parents_below cl -> forall c, (c < fuel)%nat -> chain_in fuel cl c = chain cl c.
Proof.
  intros Hw. assert (H : forall f g c, (c < f)%nat -> (c < g)%nat -> chain_in f cl c = chain_in g cl c).
  { induction f as [|f IH]; intros g c Hf Hg; [lia|]. destruct g as [|g]; [lia|]. simpl. destruct (cl !! c) as [cs|] eqn:E; [|done].
    destruct (parent cs) as [p|] eqn:Ep; [|done]. f_equal. pose proof (Hw _ _ _ E Ep). apply IH; lia. }
  intros c Hc. apply H; lia.
Qed.

Lemma chain_eq cl c cs : parents_below cl -> cl !! c = Some cs -> chain cl c = cs :: ancestors cl cs.
Proof.
  intros Hw E. unfold chain, ancestors. cbn [chain_in]. rewrite E. destruct (parent cs) as [p|] eqn:Ep; [|done].
  f_equal. apply chain_fuel; [done|]. by apply (Hw _ _ _ E).
Qed.

Lemma chain_same cl cl' (P : nat -> Prop) : parents_below cl ->
  (forall d, P d -> cl' !! d = cl !! d) -> (forall d cs p, P d -> cl !! d = Some cs -> parent cs = Some p -> P p) ->
  forall fuel d, P d -> chain_in fuel cl' d = chain_in fuel cl d.
Proof.
  intros Hw H1 H2. induction fuel as [|fuel IH]; intros d Hd; simpl; [done|]. rewrite H1 by done.
  destruct (cl !! d) as [cs|] eqn:E; [|done]. destruct (parent cs) as [p|] eqn:Ep; [|done]. f_equal. apply IH. by eapply H2.
Qed.

Lemma chain_update cl c cs d : parents_below cl -> leaf cl c -> d <> c -> chain (<[c := cs]> cl) d = chain cl d.
Proof.
  intros Hw Hl Hd. apply (chain_same cl _ (fun d => d <> c)); [done| | |done].
  - intros e He. by apply list_lookup_insert_ne.
  - intros e ecs p He E Ep ->. by apply (Hl _ _ E).
Qed.

Lemma chain_snoc cl x d : parents_below cl -> (d < length cl)%nat -> chain (cl ++ [x]) d = chain cl d.
Proof.
  intros Hw Hd. apply (chain_same cl _ (fun d => d < length cl)%nat); [done| | |done].
  - intros e He. by apply lookup_app_l.
  - intros e ecs p He E Ep. pose proof (Hw _ _ _ E Ep). lia.
Qed.

(** ** Lookups along the chain *)

Lemma find_field_spec cl fuel nm : parents_below cl -> forall c, (c < length cl)%nat -> (c < fuel)%nat ->
  exists r, find_field_in fuel cl c nm = Ok r /\
  match r with Some f => f_name f = nm /\ f ∈ all_fields (chain cl c) | None => forall f, f ∈ all_fields (chain cl c) -> f_name f <> nm end.
Proof.
  intros Hw. induction fuel as [|fuel IH]; intros c Hc Hf; [lia|]. cbn [find_field_in].
  destruct (lookup_lt_is_Some_2 cl c Hc) as [cs E]. rewrite E. cbn [of_option obind]. rewrite (chain_eq _ _ _ Hw E). unfold ancestors.
  destruct (List.find _ (fields cs)) as [f|] eqn:Ef.
  { apply List.find_some in Ef as [Hin Hn%bool_decide_eq_true_1]. eexists. split; [reflexivity|]. split; [done|].
    apply elem_of_app. left. by apply list_elem_of_In. }
  assert (Hno : forall f, f ∈ fields cs -> f_name f <> nm).
  { intros f Hin Hn. apply list_elem_of_In in Hin. apply (List.find_none _ _ Ef) in Hin. by rewrite bool_decide_true in Hin. }
  destruct (parent cs) as [p|] eqn:Ep.
  - pose proof (Hw _ _ _ E Ep). destruct (IH p ltac:(lia) ltac:(lia)) as (r & -> & Hr). exists r. split; [done|].
    destruct r as [f|]; [split; [apply Hr|apply elem_of_app; right; apply Hr]|]. intros f [Hin|Hin]%elem_of_app; [by apply Hno|by apply Hr].
  - eexists. split; [reflexivity|]. intros f [Hin|Hin]%elem_of_app; [by apply Hno|]. by apply elem_of_nil in Hin.
Qed.

Lemma find_method_spec cl fuel nm : parents_below cl -> forall c, (c < length cl)%nat -> (c < fuel)%nat ->
  exists r, find_method_in fuel cl c nm = Ok r /\
  match r with Some m => m_name m = nm /\ m ∈ all_methods (chain cl c) | None => forall m, m ∈ all_methods (chain cl c) -> m_name m <> nm end.
Proof.
  intros Hw. induction fuel as [|fuel IH]; intros c Hc Hf; [lia|]. cbn [find_method_in].
  destruct (lookup_lt_is_Some_2 cl c Hc) as [cs E]. rewrite E. cbn [of_option obind]. rewrite (chain_eq _ _ _ Hw E). unfold ancestors.
  destruct (List.find _ (methods cs)) as [f|] eqn:Ef.
  { apply List.find_some in Ef as [Hin Hn%bool_decide_eq_true_1]. eexists. split; [reflexivity|]. split; [done|].
    apply elem_of_app. left. by apply list_elem_of_In. }
  assert (Hno : forall m, m ∈ methods cs -> m_name m <> nm).
  { intros f Hin Hn. apply list_elem_of_In in Hin. apply (List.find_none _ _ Ef) in Hin. by rewrite bool_decide_true in Hin. }
  destruct (parent cs) as [p|] eqn:Ep.
  - pose proof (Hw _ _ _ E Ep). destruct (IH p ltac:(lia) ltac:(lia)) as (r & -> & Hr). exists r. split; [done|].
    destruct r as [f|]; [split; [apply Hr|apply elem_of_app; right; apply Hr]|]. intros f [Hin|Hin]%elem_of_app; [by apply Hno|by apply Hr].
  - eexists. split; [reflexivity|]. intros f [Hin|Hin]%elem_of_app; [by apply Hno|]. by apply elem_of_nil in Hin.
Qed.

(** ** The invariant *)

Definition virtual (m : MethodSymbol) : Prop := vtable_index m <> -1.

Record slots_ok (L : list MethodSymbol) : Prop := {
  so_kind : forall m, m ∈ L -> -1 <= vtable_index m /\ (virtual m <-> is_constructor m = false /\ m_is_static m = false);
  so_slot : forall m1 m2, m1 ∈ L -> m2 ∈ L -> virtual m1 -> vtable_index m1 = vtable_index m2 ->
    m_name m1 = m_name m2 /\ m_return_type m1 = m_return_type m2 /\ m_param_types m1 = m_param_types m2;
  so_dense : exists n, 0 <= n /\ forall k, 0 <= k -> k < n <-> exists m, m ∈ L /\ vtable_index m = k;
  so_name : forall nm, (forall m, m ∈ L -> m_name m = nm -> virtual m) ->
    forall m1 m2, m1 ∈ L -> m2 ∈ L -> m_name m1 = nm -> m_name m2 = nm -> vtable_index m1 = vtable_index m2
}.

Definition layout_ok (size : Z) (F : list FieldSymbol) : Prop :=
  map offset F = map (fun i => 8 + 8 * Z.of_nat i) (seq 0 (length F)) /\ size = 8 + 8 * Z.of_nat (length F) /\ NoDup (map f_name F).

Definition class_ok (cl : list ClassSymbol) (c : nat) : Prop := forall cs, cl !! c = Some cs ->
  layout_ok (instance_size cs) (layout (chain cl c)) /\ slots_ok (all_methods (chain cl c)).

Record hierarchy_ok (cl : list ClassSymbol) : Prop := {
  ho_parents : parents_below cl;
  ho_class : forall c, class_ok cl c
}.

Lemma layout_cons cs l : layout (cs :: l) = layout l ++ instance_fields cs.
Proof. unfold layout. simpl. rewrite map_app, concat_app. simpl. by rewrite app_nil_r. Qed.

Lemma layout_in f l : f ∈ layout l -> f ∈ all_fields l.
Proof.
  induction l as [|cs l IH]; [done|]. rewrite layout_cons. intros [H|H]%elem_of_app; apply elem_of_app; [right; by apply IH|left].
  apply list_elem_of_In, List.filter_In in H as [H _]. by apply list_elem_of_In.
Qed.

(** Another class or none is changed. *)
Lemma class_ok_ext cl cl' c : cl' !! c = cl !! c -> chain cl' c = chain cl c -> class_ok cl c -> class_ok cl' c.
Proof. unfold class_ok. intros -> ->. done. Qed.

Lemma class_update_ok cl c cs cs' : hierarchy_ok cl -> leaf cl c -> cl !! c = Some cs -> parent cs' = parent cs ->
  layout_ok (instance_size cs') (layout (cs' :: ancestors cl cs)) -> slots_ok (all_methods (cs' :: ancestors cl cs)) ->
  hierarchy_ok (<[c := cs']> cl).
Proof.
  intros [Hw Hc] Hl E Hp HF HM.
  assert (Hw' : parents_below (<[c := cs']> cl)).
  { intros d ds p Hd Hdp. destruct (decide (d = c)) as [->|Hne].
    - rewrite list_lookup_insert_eq in Hd by (by eapply lookup_lt_Some). injection Hd as <-. rewrite Hp in Hdp. by eapply Hw.
    - rewrite list_lookup_insert_ne in Hd by done. by eapply Hw. }
  split; [done|]. intros d. destruct (decide (d = c)) as [->|Hne].
  - intros ds Hd. pose proof Hd as Hd'. rewrite list_lookup_insert_eq in Hd' by (by eapply lookup_lt_Some). injection Hd' as <-.
    rewrite (chain_eq _ _ _ Hw' Hd). assert (Ha : ancestors (<[c := cs']> cl) cs' = ancestors cl cs); [|by rewrite Ha].
    unfold ancestors. rewrite Hp. destruct (parent cs) as [p|] eqn:Ep; [|done]. apply chain_update; [done..|].
    pose proof (Hw _ _ _ E Ep). lia.
  - apply (class_ok_ext cl); [by apply list_lookup_insert_ne|by apply chain_update|apply Hc].
Qed.

Lemma new_class_ok cl x : hierarchy_ok cl -> fields x = [] -> methods x = [] ->
  match parent x with Some p => exists pc, cl !! p = Some pc /\ instance_size x = instance_size pc | None => instance_size x = 8 end ->
  hierarchy_ok (cl ++ [x]).
Proof.
  intros [Hw Hc] Hf Hm Hp.
  assert (Hw' : parents_below (cl ++ [x])).
  { intros d ds p Hd Hdp. apply lookup_app_Some in Hd as [Hd|[Hle Hd]]; [by eapply Hw|].
    apply list_lookup_singleton_Some in Hd as [Hd <-]. rewrite Hdp in Hp. destruct Hp as (pc & Hpc & _). apply lookup_lt_Some in Hpc. lia. }
  split; [done|]. intros d. destruct (decide (d < length cl)%nat) as [Hd|Hd].
  - apply (class_ok_ext cl); [by apply lookup_app_l|by apply chain_snoc|apply Hc].
  - intros ds Hds. rewrite (chain_eq _ _ _ Hw' Hds). apply lookup_app_Some in Hds as [Hds|[Hle Hds]]; [by apply lookup_lt_Some in Hds|].
    apply list_lookup_singleton_Some in Hds as [_ <-]. rewrite layout_cons. unfold instance_fields. rewrite Hf. cbn [List.filter]. rewrite app_nil_r.
    unfold all_methods. cbn [map concat]. rewrite Hm. cbn [app]. fold (all_methods (ancestors (cl ++ [x]) x)). unfold ancestors.
    destruct (parent x) as [p|] eqn:Ep.
    + destruct Hp as (pc & Hpc & Hs). rewrite chain_snoc by (done || by eapply lookup_lt_Some). rewrite Hs. by apply Hc.
    + split; [split_and!; [done|by rewrite Hp|constructor]|]. split; try (intros; by match goal with H : _ ∈ all_methods [] |- _ => inversion H end).
      exists 0. split; [done|]. intros k Hk. split; [lia|]. intros (m & H & _). inversion H.
Qed.

Lemma add_class_built t nm pn d b t' : add_class t nm pn d = Ok (b, t') ->
  classes t' = classes t \/ exists x, classes t' = classes t ++ [x] /\ fields x = [] /\ methods x = [] /\
    match parent x with Some p => exists pc, classes t !! p = Some pc /\ instance_size x = instance_size pc | None => instance_size x = 8 end.
Proof.
  unfold add_class, add_symbol. destruct (redeclared nm d (symbols t)); cbn [fst snd negb]; intros H; [simplify_eq; by left|].
  destruct pn as [pn|]; [|simplify_eq; right; by eexists].
  destruct (lookup_class _ pn) as [p|]; [|simplify_eq; by left]. cbn [classes] in H.
  destruct (classes t !! p) as [pc|] eqn:E; [|done]. cbn [of_option obind] in H. simplify_eq. right. eexists. split; [reflexivity|]. simpl. split_and!; [done..|]. by exists pc.
Qed.

Lemma existsb_false {A} (p : A -> bool) l : existsb p l = false -> forall x, x ∈ l -> p x = false.
Proof. intros H x Hx. apply not_true_iff_false. intros Hp. apply not_true_iff_false in H. apply H, existsb_exists. exists x. split; [by apply list_elem_of_In|done]. Qed.

Lemma layout_snoc size F f : layout_ok size F -> offset f = size -> (forall g, g ∈ F -> f_name g <> f_name f) ->
  layout_ok (size + 8) (F ++ [f]).
Proof.
  intros (H1 & H2 & H3) Ho Hn. rewrite <- Ho in H2. split_and!.
  - rewrite map_app, H1, length_app, Nat.add_1_r, seq_S, map_app. simpl. by rewrite H2.
  - rewrite length_app. simpl. lia.
  - rewrite map_app. apply list.NoDup_app. split_and!; [done| |apply NoDup_singleton].
    intros x Hx Hx'. simpl in Hx'. apply list_elem_of_singleton in Hx' as ->. apply list_elem_of_In, in_map_iff in Hx as (g & Hg & Hin).
    by apply (Hn g); [apply list_elem_of_In|].
Qed.

Lemma add_field_ok cl c nm ty cn st acc co mu b cl' : hierarchy_ok cl -> leaf cl c ->
  add_field_to_class cl c nm ty cn st acc co mu = Ok (b, cl') -> hierarchy_ok cl'.
Proof.
  intros Ho Hl H. pose proof Ho as [Hw Hc]. unfold add_field_to_class in H.
  destruct (cl !! c) as [cs|] eqn:E; [|done]. cbn [of_option obind] in H.
  destruct (existsb _ (fields cs)) eqn:Hdup; [by simplify_eq|]. pose proof (existsb_false _ _ Hdup) as Hown.
  destruct (Hc c cs E) as [HF HM]. rewrite (chain_eq _ _ _ Hw E) in HF, HM.
  assert (Hinh : exists i, (match parent cs with
      | Some p => if negb st then let! r := find_field cl p nm in Ok (bool_decide (is_Some r)) else Ok false | None => Ok false end) = Ok i /\
      (i = false -> st = false -> forall f, f ∈ all_fields (ancestors cl cs) -> f_name f <> nm)).
  { unfold ancestors. destruct (parent cs) as [p|] eqn:Ep; [|exists false; split; [done|]; intros _ _ f Hf; inversion Hf].
    destruct st; [by exists false|]. cbn [negb]. pose proof (Hw _ _ _ E Ep) as Hpc. pose proof (lookup_lt_Some _ _ _ E).
    destruct (find_field_spec cl (length cl) nm Hw p ltac:(lia) ltac:(lia)) as (r & Hr & Hs). unfold find_field. rewrite Hr. cbn [obind].
    eexists. split; [reflexivity|]. intros Hi _ f Hf. destruct r; [by rewrite bool_decide_true in Hi|by apply Hs]. }
  destruct Hinh as (i & Hi & Hanc). rewrite Hi in H. cbn [obind] in H. destruct i; [by simplify_eq|]. injection H as <- <-.
  apply (class_update_ok _ _ cs); [done..| |exact HM].
  rewrite layout_cons in *. unfold instance_fields, with_field. cbn [fields instance_size parent ancestors]. rewrite List.filter_app. cbn [List.filter f_is_static].
  change (ancestors cl (mkClass _ _ (parent cs) _ _ _ _)) with (ancestors cl cs).
  destruct st; cbn [negb]; [by rewrite app_nil_r|]. rewrite app_assoc. unfold field_size. apply layout_snoc; [done..|].
  intros g [Hg|Hg]%elem_of_app; simpl.
  - by apply Hanc, layout_in.
  - apply list_elem_of_In, List.filter_In in Hg as [Hg _]. apply list_elem_of_In, Hown, bool_decide_eq_false_1 in Hg. done.
Qed.

Definition is_max (L : list MethodSymbol) (m r : Z) : Prop :=
  m <= r /\ (forall x, x ∈ L -> vtable_index x <= r) /\ (r = m \/ exists x, x ∈ L /\ vtable_index x = r).

Lemma max_own_spec l : forall m, is_max l m (max_own m l).
Proof.
  induction l as [|x l IH]; intros m; unfold max_own; cbn [fold_left]; [split_and!; [lia|intros ? H; inversion H|by left]|].
  fold (max_own (if m <? vtable_index x then vtable_index x else m) l). destruct (IH (if m <? vtable_index x then vtable_index x else m)) as (H1 & H2 & H3).
  assert (Hge : m <= (if m <? vtable_index x then vtable_index x else m) /\ vtable_index x <= (if m <? vtable_index x then vtable_index x else m))
    by (destruct (Z.ltb_spec m (vtable_index x)); lia). split_and!; [lia| |].
  - intros y [->|Hy]%elem_of_cons; [lia|by apply H2].
  - destruct H3 as [->|(y & Hy & <-)]; [|right; exists y; split; [by apply elem_of_cons; right|done]].
    destruct (Z.ltb_spec m (vtable_index x)); [right; exists x; split; [by apply elem_of_cons; left|done]|by left].
Qed.

Lemma is_max_app l1 l2 m r s : is_max l1 m r -> is_max l2 r s -> is_max (l1 ++ l2) m s.
Proof.
  intros (H1 & H2 & H3) (K1 & K2 & K3). split_and!; [lia| |].
  - intros x [Hx|Hx]%elem_of_app; [specialize (H2 x Hx); lia|by apply K2].
  - destruct K3 as [->|(x & Hx & E)]; [|right; exists x; split; [by apply elem_of_app; right|done]].
    destruct H3 as [->|(x & Hx & E)]; [by left|right; exists x; split; [by apply elem_of_app; left|done]].
Qed.

Lemma max_index_spec cl fuel : parents_below cl -> forall cur m, (forall c, cur = Some c -> (c < length cl)%nat /\ (c < fuel)%nat) ->
  exists r, max_index fuel cl cur m = Ok r /\ is_max (all_methods (match cur with Some c => chain cl c | None => [] end)) m r.
Proof.
  intros Hw. induction fuel as [|fuel IH]; intros [c|] m Hc; cbn [max_index];
    try (eexists; split; [reflexivity|]; split_and!; [lia|intros ? H; inversion H|by left]).
  - by destruct (Hc c eq_refl); lia.
  - destruct (Hc c eq_refl) as [Hlt Hf]. destruct (lookup_lt_is_Some_2 cl c Hlt) as [cs E]. rewrite E. cbn [of_option obind].
    destruct (IH (parent cs) (max_own m (methods cs))) as (r & -> & Hr).
    { intros p Ep. pose proof (Hw _ _ _ E Ep). lia. }
    exists r. split; [done|]. rewrite (chain_eq _ _ _ Hw E). eapply is_max_app; [apply max_own_spec|exact Hr].
Qed.

(** A method with the slot of an inherited one, or a fresh slot, or none. *)
Lemma slots_add L m : slots_ok L ->
  (is_constructor m = true \/ m_is_static m = true) /\ vtable_index m = -1 \/
  is_constructor m = false /\ m_is_static m = false /\ 0 <= vtable_index m /\
    (forall x, x ∈ L -> m_name x = m_name m -> (forall y, y ∈ L -> m_name y = m_name m -> virtual y) -> vtable_index x = vtable_index m) /\
    ((exists x, x ∈ L /\ vtable_index x = vtable_index m /\ m_name x = m_name m /\ m_return_type x = m_return_type m /\ m_param_types x = m_param_types m) \/
     (forall k, 0 <= k -> k < vtable_index m <-> exists x, x ∈ L /\ vtable_index x = k)) ->
  forall L', (forall x, x ∈ L' <-> x ∈ L \/ x = m) -> slots_ok L'.
Proof.
  intros [Hk Hs (n & Hn0 & Hn) Hm] Hcase L' HL'. unfold virtual in *.
  assert (Hkm : -1 <= vtable_index m /\ (vtable_index m <> -1 <-> is_constructor m = false /\ m_is_static m = false))
    by (destruct Hcase as [[[H|H] ->]|(-> & -> & H & _)]; split; try lia; split; try lia; intuition congruence).
  assert (Hother : forall x, x ∈ L -> vtable_index m <> -1 -> vtable_index x = vtable_index m ->
    m_name x = m_name m /\ m_return_type x = m_return_type m /\ m_param_types x = m_param_types m).
  { intros x Hx Hv E. destruct Hcase as [[_ H]|(_ & _ & Hge & _ & [(y & Hy & Ey & Hsig)|Hf])]; [done| |].
    - destruct (Hs x y Hx Hy) as (-> & -> & ->); [lia..|done].
    - specialize (Hf (vtable_index m) Hge). assert (vtable_index m < vtable_index m) by (apply Hf; by exists x). lia. }
  split.
  - intros x [Hx| ->]%HL'; [by apply Hk|done].
  - intros a c [Ha| ->]%HL' [Hc| ->]%HL' Hv E; [by apply Hs|by apply Hother; [..|congruence|]| |done].
    destruct (Hother c Hc Hv (eq_sym E)) as (-> & -> & ->). done.
  - destruct Hcase as [[_ H]|(_ & _ & Hge & _ & [(y & Hy & Ey & _)|Hf])].
    + exists n. split; [done|]. intros k Hk0. rewrite Hn by done. split; intros (x & Hx & E); [exists x; split; [apply HL'; by left|done]|].
      apply HL' in Hx as [Hx| ->]; [by exists x|lia].
    + exists n. split; [done|]. intros k Hk0. rewrite Hn by done. split; intros (x & Hx & E); [exists x; split; [apply HL'; by left|done]|].
      apply HL' in Hx as [Hx| ->]; [by exists x|exists y; split; [done|lia]].
    + exists (vtable_index m + 1). split; [lia|]. intros k Hk0. split.
      * intros Hlt. destruct (decide (k = vtable_index m)) as [->|Hne]; [exists m; split; [apply HL'; by right|done]|].
        destruct (proj1 (Hf k Hk0)) as (x & Hx & E); [lia|]. exists x. split; [apply HL'; by left|done].
      * intros (x & Hx & E). apply HL' in Hx as [Hx| ->]; [|lia]. assert (k < vtable_index m); [|lia]. apply Hf; [done|]. by exists x.
  - intros nm Hall a c [Ha| ->]%HL' [Hc| ->]%HL' Ea Ec; [| | |done].
    + apply (Hm nm); try done. intros x Hx. apply Hall, HL'. by left.
    + destruct Hcase as [[_ H]|(_ & _ & _ & Hsame & _)]; [by destruct (Hall m); [apply HL'; by right|done|]|].
      apply Hsame; [done|congruence|]. intros y Hy Ey. apply Hall; [apply HL'; by left|congruence].
    + symmetry. destruct Hcase as [[_ H]|(_ & _ & _ & Hsame & _)]; [by destruct (Hall m); [apply HL'; by right|done|]|].
      apply Hsame; [done|congruence|]. intros y Hy Ey. apply Hall; [apply HL'; by left|congruence].
Qed.

Lemma override_spec cl c cs nm rt ps : parents_below cl -> cl !! c = Some cs -> exists o, override cl cs nm rt ps = Ok o /\
  match o with
  | None => True
  | Some slot => (slot = -1 /\ forall x, x ∈ all_methods (ancestors cl cs) -> m_name x <> nm) \/
      exists x, x ∈ all_methods (ancestors cl cs) /\ vtable_index x = slot /\ m_name x = nm /\ m_return_type x = rt /\ m_param_types x = ps
  end.
Proof.
  intros Hw E. unfold override, ancestors. destruct (parent cs) as [p|] eqn:Ep.
  2: { exists (Some (-1)). split; [done|]. left. split; [done|]. intros x Hx. inversion Hx. }
  pose proof (Hw _ _ _ E Ep). pose proof (lookup_lt_Some _ _ _ E).
  destruct (find_method_spec cl (length cl) nm Hw p ltac:(lia) ltac:(lia)) as (r & Hr & Hs). unfold find_method. rewrite Hr. cbn [obind].
  destruct r as [pm|]; [|exists (Some (-1)); split; [done|]; by left]. destruct Hs as [Hn Hin].
  destruct (bool_decide (m_return_type pm = rt)) eqn:Er; cbn [negb orb]; [|by exists None].
  destruct (length (m_param_types pm) =? length ps)%nat; cbn [negb]; [|by exists None].
  destruct (bool_decide (m_param_types pm = ps)) eqn:Eps; [|by exists None].
  apply bool_decide_eq_true_1 in Er, Eps. exists (Some (vtable_index pm)). split; [done|]. right. by exists pm.
Qed.

Lemma all_methods_cons cs l : all_methods (cs :: l) = methods cs ++ all_methods l.
Proof. done. Qed.

Lemma add_method_ok cl c nm rt ps co st acc b cl' : hierarchy_ok cl -> leaf cl c ->
  add_method_to_class cl c nm rt ps co st acc = Ok (b, cl') -> hierarchy_ok cl'.
Proof.
  intros Ho Hl H. pose proof Ho as [Hw Hc]. unfold add_method_to_class in H.
  destruct (cl !! c) as [cs|] eqn:E; [|done]. cbn [of_option obind] in H.
  destruct (existsb _ (methods cs)) eqn:Hdup; [by simplify_eq|]. pose proof (existsb_false _ _ Hdup) as Hown. cbv beta in Hown.
  destruct (Hc c cs E) as [HF HM]. rewrite (chain_eq _ _ _ Hw E) in HF, HM.
  assert (Hadd : forall slot, let m := mkMethod nm rt None ps co st false slot acc in
    slots_ok (all_methods (with_method cs m :: ancestors cl cs)) -> hierarchy_ok (<[c := with_method cs m]> cl)).
  { intros slot m Hsl. apply (class_update_ok _ _ cs); [done..|rewrite layout_cons in HF |- *; exact HF|exact Hsl]. }
  assert (Hset : forall m x, x ∈ all_methods (with_method cs m :: ancestors cl cs) <-> x ∈ all_methods (cs :: ancestors cl cs) \/ x = m).
  { intros m x. rewrite !all_methods_cons. simpl methods. rewrite !elem_of_app, list_elem_of_singleton. tauto. }
  destruct (negb co && negb st) eqn:Ek.
  2: { cbn [obind andb] in H. simplify_eq. apply Hadd. eapply slots_add; [exact HM| |apply Hset]. left. split; [|done]. simpl.
       apply andb_false_iff in Ek as [Ek|Ek]; apply negb_false_iff in Ek; auto. }
  apply andb_true_iff in Ek as [->%negb_true_iff ->%negb_true_iff].
  assert (Hnew : forall x, x ∈ methods cs -> m_name x <> nm).
  { intros x Hx Hn. specialize (Hown x Hx). rewrite bool_decide_true in Hown by done. done. }
  destruct (override_spec cl c cs nm rt ps Hw E) as (o & Hov & Hspec). rewrite Hov in H. cbn [obind] in H.
  destruct o as [slot|]; [|by simplify_eq].
  assert (Hanc : forall x, x ∈ all_methods (cs :: ancestors cl cs) -> m_name x = nm -> x ∈ all_methods (ancestors cl cs)).
  { intros x Hx Hn. rewrite all_methods_cons in Hx. apply elem_of_app in Hx as [Hx|Hx]; [by apply Hnew in Hx|done]. }
  assert (Hin : forall x, x ∈ all_methods (ancestors cl cs) -> x ∈ all_methods (cs :: ancestors cl cs)) by (intros x Hx; rewrite all_methods_cons; by apply elem_of_app; right).
  cbn [andb] in H. destruct (slot =? -1) eqn:Hneq; [apply Z.eqb_eq in Hneq as ->|apply Z.eqb_neq in Hneq].
  - destruct (max_index_spec cl (length cl) Hw (parent cs) (max_own (-1) (methods cs))) as (r & Hr & Hmax).
    { intros p Ep. pose proof (Hw _ _ _ E Ep). pose proof (lookup_lt_Some _ _ _ E). lia. }
    rewrite Hr in H. cbn [obind] in H. simplify_eq. apply Hadd. eapply slots_add; [exact HM| |apply Hset].
    pose proof (is_max_app _ _ _ _ _ (max_own_spec (methods cs) (-1)) Hmax) as Hall. fold (ancestors cl cs) in Hall. rewrite <- all_methods_cons in Hall.
    right. simpl. destruct Hall as (H1 & H2 & H3). split_and!; [done..|lia| |].
    + intros x Hx Hn Hvirt. exfalso. pose proof (Hanc x Hx Hn) as Hxa. destruct Hspec as [[_ Hno]|(y & Hy & Ey & Hny & _)]; [by apply (Hno x)|].
      by apply (Hvirt y); [by apply Hin|..].
    + right. destruct HM as [Hk _ (n & Hn0 & Hn) _]. intros k Hk0. rewrite <- Hn by done. destruct H3 as [->|(y & Hy & <-)].
      * split; [lia|]. intros (x & Hx & <-)%Hn; [|done]. specialize (H2 x Hx). lia.
      * split; [|intros (x & Hx & <-)%Hn; [|done]; specialize (H2 x Hx); lia]. intros Hlt.
        destruct (decide (vtable_index y = -1)); [lia|]. assert (vtable_index y < n); [|lia]. apply Hn; [pose proof (proj1 (Hk y Hy)); lia|by exists y].
  - cbn [obind] in H. simplify_eq. destruct Hspec as [[? _]|(y & Hy & <- & Hny & Hry & Hpy)]; [done|].
    apply Hadd. eapply slots_add; [exact HM| |apply Hset]. right. simpl. pose proof (so_kind _ HM y (Hin y Hy)) as [Hk _].
    split_and!; [done..|lia| |left; exists y; split_and!; auto].
    intros x Hx Hn Hvirt. by apply (so_name _ HM nm); auto.
Qed.

Lemma built_ok cl : built cl -> hierarchy_ok cl.
Proof.
  induction 1 as [|t nm pn d b t' Hb IH H|cl c nm ty cn st acc co mu b cl' Hb IH Hl H|cl c nm rt ps co st acc b cl' Hb IH Hl H].
  - split; [intros c cs p Hc; by rewrite lookup_nil in Hc|intros c cs Hc; by rewrite lookup_nil in Hc].
  - destruct (add_class_built _ _ _ _ _ _ H) as [-> |(x & -> & Hf & Hm & Hp)]; [done|by apply new_class_ok].
  - by eapply add_field_ok.
  - by eapply add_method_ok.
Qed.

(** ** Subclasses *)

Lemma subclass_in_chain cl a fuel : parents_below cl -> forall cur, is_subclass_in fuel cl cur a = Ok true ->
  exists k, match cur with Some c => chain cl c | None => [] end = k ++ chain cl a.
Proof.
  intros Hw. induction fuel as [|fuel IH]; intros [c|] H; cbn [is_subclass_in] in H; try done;
    (destruct (c =? a)%nat eqn:E; [apply Nat.eqb_eq in E as ->; by exists []|]); [done|].
  destruct (cl !! c) as [cs|] eqn:Ec; [|done]. cbn [of_option obind] in H. destruct (IH _ H) as [k Hk]. exists (cs :: k).
  rewrite (chain_eq _ _ _ Hw Ec). unfold ancestors. by rewrite Hk.
Qed.

Lemma subclass_chain cl c a : parents_below cl -> is_subclass_of cl (Some c) (Some a) = Ok true ->
  exists cs k, cl !! c = Some cs /\ chain cl c = cs :: k ++ chain cl a.
Proof.
  intros Hw H. unfold is_subclass_of in H. destruct (cl !! c) as [cs|] eqn:E; [|done]. cbn [of_option obind] in H.
  destruct (subclass_in_chain _ _ _ Hw _ H) as [k Hk]. exists cs, k. split; [done|]. rewrite (chain_eq _ _ _ Hw E). unfold ancestors. by rewrite Hk.
Qed.

Lemma layout_app l1 l2 : layout (l1 ++ l2) = layout l2 ++ layout l1.
Proof. unfold layout. by rewrite rev_app_distr, map_app, concat_app. Qed.

Lemma all_methods_app l1 l2 : all_methods (l1 ++ l2) = all_methods l1 ++ all_methods l2.
Proof. unfold all_methods. by rewrite map_app, concat_app. Qed.

Lemma in_layout l f : f ∈ all_fields l -> f_is_static f = false -> f ∈ layout l.
Proof.
  intros H Hs. induction l as [|cs l IH]; [done|]. rewrite layout_cons. apply elem_of_app.
  apply elem_of_app in H as [H|H]; [right|left; by apply IH]. apply list_elem_of_In, List.filter_In. split; [by apply list_elem_of_In|by rewrite Hs].
Qed.

Lemma nodup_name (F : list FieldSymbol) f g : NoDup (map f_name F) -> f ∈ F -> g ∈ F -> f_name f = f_name g -> f = g.
Proof.
  induction F as [|x F IH]; intros Hn Hf Hg E; [by inversion Hf|]. simpl in Hn. apply list.NoDup_cons in Hn as [Hx Hn].
  assert (Hin : forall y, y ∈ F -> f_name y ∈ map f_name F) by (intros y Hy; apply list_elem_of_In, in_map, list_elem_of_In, Hy).
  apply elem_of_cons in Hf as [->|Hf], Hg as [->|Hg]; [done|..|by apply IH]; exfalso; apply Hx; [rewrite E|rewrite <- E]; by apply Hin.
Qed.

(** C11: objects of a subclass are laid out as objects of its ancestors.  In
    classes built by the table's operations, each one completed before it gets
    a subclass, the instance fields of a class and its ancestors, the oldest
    first, have the offsets 8, 16, 24, ... after the vtable pointer, fill the
    instance size exactly and have distinct names; the layout of an ancestor
    is a prefix of it; and a lookup of a name that no static field has finds
    the instance field. *)
Theorem class_fields_layout cl c cs : built cl -> cl !! c = Some cs ->
  layout_ok (instance_size cs) (layout (chain cl c)) /\
  (forall a, is_subclass_of cl (Some c) (Some a) = Ok true -> exists more, layout (chain cl c) = layout (chain cl a) ++ more) /\
  (forall f, f ∈ layout (chain cl c) -> (forall g, g ∈ all_fields (chain cl c) -> f_name g = f_name f -> f_is_static g = false) ->
    find_field cl c (f_name f) = Ok (Some f)).
Proof.
  intros Hb E. destruct (built_ok _ Hb) as [Hw Hc]. destruct (Hc c cs E) as [HF _]. split_and!; [done| |].
  - intros a Ha. destruct (subclass_chain _ _ _ Hw Ha) as (cs' & k & _ & ->). exists (layout (cs' :: k)). by rewrite app_comm_cons, layout_app.
  - intros f Hf Hst. pose proof (lookup_lt_Some _ _ _ E). unfold find_field.
    destruct (find_field_spec cl (length cl) (f_name f) Hw c ltac:(lia) ltac:(lia)) as (r & -> & Hr). f_equal. destruct r as [g|].
    + destruct Hr as [Hn Hg]. f_equal. destruct HF as (_ & _ & Hnd). apply (nodup_name _ _ _ Hnd); [by apply in_layout; [|apply Hst]|done..].
    + exfalso. by apply (Hr f); [apply layout_in|].
Qed.

(** C10: a virtual call reaches the override.  In classes built by the table's
    operations, each one completed before it gets a subclass: where no method
    of that name in the subclass or any of its ancestors, those above the
    ancestor asked included, is static or a constructor, the method the
    subclass finds has, compared with the one found in the ancestor,
    the same slot, the same return type and the same parameter types, no method
    of another name has that slot, and the slots in use are an interval from 0. *)
Theorem vtable_dispatch cl c a nm m : built cl -> is_subclass_of cl (Some c) (Some a) = Ok true -> find_method cl a nm = Ok (Some m) ->
  (forall x, x ∈ all_methods (chain cl c) -> m_name x = nm -> is_constructor x = false /\ m_is_static x = false) ->
  (exists m', find_method cl c nm = Ok (Some m') /\ vtable_index m' = vtable_index m /\
    m_return_type m' = m_return_type m /\ m_param_types m' = m_param_types m) /\
  0 <= vtable_index m /\ (forall x, x ∈ all_methods (chain cl c) -> vtable_index x = vtable_index m -> m_name x = nm) /\
  exists n, vtable_index m < n /\ forall k, 0 <= k -> k < n <-> exists x, x ∈ all_methods (chain cl c) /\ vtable_index x = k.
Proof.
  intros Hb Hsub Hfind Hvirt. destruct (built_ok _ Hb) as [Hw Hc]. destruct (subclass_chain _ _ _ Hw Hsub) as (cs & k & E & Hch).
  destruct (Hc c cs E) as [_ HM]. pose proof (lookup_lt_Some _ _ _ E) as Hlt.
  assert (Ha : (a < length cl)%nat).
  { apply lookup_lt_is_Some. unfold find_method in Hfind. destruct (length cl); [done|]. cbn [find_method_in] in Hfind. by destruct (cl !! a). }
  destruct (find_method_spec cl (length cl) nm Hw a Ha Ha) as (r & Hr & Hs). unfold find_method in Hfind. rewrite Hr in Hfind. simplify_eq.
  destruct Hs as [<- Hin].
  assert (Hin' : m ∈ all_methods (chain cl c)) by (rewrite Hch, app_comm_cons, all_methods_app; apply elem_of_app; by right).
  destruct HM as [Hk Hsl (n & Hn0 & Hnn) Hnm].
  assert (Hv : forall x, x ∈ all_methods (chain cl c) -> m_name x = m_name m -> virtual x) by (intros x Hx Hxn; apply (proj2 (Hk x Hx)), Hvirt; congruence).
  pose proof (Hk m Hin') as [Hge _]. pose proof (Hv m Hin' eq_refl) as Hvm. unfold virtual in Hvm. split_and!; [|lia| |].
  - destruct (find_method_spec cl (length cl) (m_name m) Hw c Hlt Hlt) as (r & Hrc & Hsc). destruct r as [m'|]; [|by destruct (Hsc m Hin')].
    destruct Hsc as [Hn' Hm']. exists m'. unfold find_method. split; [done|].
    assert (Heq : vtable_index m' = vtable_index m) by (by apply (Hnm (m_name m))). split; [done|].
    by destruct (Hsl m' m Hm' Hin' (Hv m' Hm' Hn') Heq) as (_ & ? & ?).
  - intros x Hx Heq. apply (Hsl x m Hx Hin'); [|done]. unfold virtual. by rewrite Heq.
  - exists n. split; [|done]. apply Hnn; [lia|by exists m].
Qed.

(** ** Concrete classes *)

Lemma leaf_check cl c : forallb (fun cs => negb (bool_decide (parent cs = Some c))) cl = true -> leaf cl c.
Proof.
  intros H k cs E Hp. rewrite forallb_forall in H. apply list_elem_of_lookup_2, list_elem_of_In, H in E. by rewrite bool_decide_true in E.
Qed.

(** A class [A] with a field and a virtual method, and its subclass [B] with
    another field, an override and a method of its own. *)
Definition after {A} (o : outcome (bool * A)) (d : A) : A := match o with Ok (_, x) => x | _ => d end.
Definition table_of (syms : list Symbol) (cl : list ClassSymbol) : SymbolTable := mkTable syms 16 cl [].
Definition sym_A : Symbol := with_class 0 (new_symbol "A" SYMBOL_CLASS TYPE_CLASS 0).
Definition classes_1 : list ClassSymbol := classes (after (add_class (table_of [] []) "A" None 0) init_symbol_table).
Definition classes_2 : list ClassSymbol := after (add_field_to_class classes_1 0 "x" TYPE_I32 None false ACCESS_PUBLIC false true) [].
Definition classes_3 : list ClassSymbol := after (add_method_to_class classes_2 0 "run" TYPE_I32 [TYPE_I64] false false ACCESS_PUBLIC) [].
Definition classes_4 : list ClassSymbol := classes (after (add_class (table_of [sym_A] classes_3) "B" (Some "A") 0) init_symbol_table).
Definition classes_5 : list ClassSymbol := after (add_field_to_class classes_4 1 "y" TYPE_F64 None false ACCESS_PRIVATE false true) [].
Definition classes_6 : list ClassSymbol := after (add_method_to_class classes_5 1 "stop" TYPE_VOID [] false false ACCESS_PUBLIC) [].
Definition classes_7 : list ClassSymbol := after (add_method_to_class classes_6 1 "run" TYPE_I32 [TYPE_I64] false false ACCESS_PUBLIC) [].

Lemma classes_built : built classes_7.
Proof.
  apply (built_method classes_6 1 "run" TYPE_I32 [TYPE_I64] false false ACCESS_PUBLIC true); [|by apply leaf_check; vm_compute|vm_compute; reflexivity].
  apply (built_method classes_5 1 "stop" TYPE_VOID [] false false ACCESS_PUBLIC true); [|by apply leaf_check; vm_compute|vm_compute; reflexivity].
  apply (built_field classes_4 1 "y" TYPE_F64 None false ACCESS_PRIVATE false true true); [|by apply leaf_check; vm_compute|vm_compute; reflexivity].
  apply (built_class (table_of [sym_A] classes_3) "B" (Some "A")%string 0 true (after (add_class (table_of [sym_A] classes_3) "B" (Some "A") 0) init_symbol_table));
    [|vm_compute; reflexivity].
  apply (built_method classes_2 0 "run" TYPE_I32 [TYPE_I64] false false ACCESS_PUBLIC true); [|by apply leaf_check; vm_compute|vm_compute; reflexivity].
  apply (built_field classes_1 0 "x" TYPE_I32 None false ACCESS_PUBLIC false true true); [|by apply leaf_check; vm_compute|vm_compute; reflexivity].
  apply (built_class (table_of [] []) "A" None 0 true (after (add_class (table_of [] []) "A" None 0) init_symbol_table)); [apply built_none|vm_compute; reflexivity].
Qed.

Lemma class_fields_layout_witness : exists cs, classes_7 !! 1%nat = Some cs /\ instance_size cs = 24 /\
  map f_name (layout (chain classes_7 1)) = ["x"; "y"]%string /\
  layout_ok (instance_size cs) (layout (chain classes_7 1)) /\
  exists more, layout (chain classes_7 1) = layout (chain classes_7 0) ++ more.
Proof.
  eexists. split; [vm_compute; reflexivity|]. split; [reflexivity|]. split; [reflexivity|].
  destruct (class_fields_layout classes_7 1 _ classes_built eq_refl) as (H1 & H2 & _). split; [exact H1|]. apply H2. vm_compute. reflexivity.
Defined.

Lemma vtable_dispatch_witness : exists m m', find_method classes_7 0 "run" = Ok (Some m) /\ vtable_index m = 0 /\
  find_method classes_7 1 "run" = Ok (Some m') /\ vtable_index m' = vtable_index m.
Proof.
  eexists. destruct (vtable_dispatch classes_7 1 0 "run" _ classes_built ltac:(vm_compute; reflexivity) ltac:(vm_compute; reflexivity)) as ((m' & H1 & H2 & _) & _).
  - intros x Hx Hn. change (all_methods (chain classes_7 1)) with (methods (default (mkClass "" None None false [] [] 0) (classes_7 !! 1%nat)) ++ methods (default (mkClass "" None None false [] [] 0) (classes_7 !! 0%nat))) in Hx.
    apply list_elem_of_In in Hx. vm_compute in Hx. destruct Hx as [<-|[<-|[<-|[]]]]; by vm_compute.
  - exists m'. split; [vm_compute; reflexivity|]. split; [vm_compute; reflexivity|]. split; [exact H1|exact H2].
Defined.

(** A static method hides the virtual method of its name: a class below it that
    defines the method again gets a fresh slot, so a call through the ancestor
    does not reach it. *)
Definition hidden_1 : list ClassSymbol := classes_3.
Definition hidden_2 : list ClassSymbol := classes (after (add_class (table_of [sym_A] hidden_1) "B" (Some "A") 0) init_symbol_table).
Definition hidden_3 : list ClassSymbol := after (add_method_to_class hidden_2 1 "run" TYPE_I32 [TYPE_I64] false true ACCESS_PUBLIC) [].
Definition sym_B : Symbol := with_class 1 (new_symbol "B" SYMBOL_CLASS TYPE_CLASS 0).
Definition hidden_4 : list ClassSymbol := classes (after (add_class (table_of [sym_B; sym_A] hidden_3) "C" (Some "B") 0) init_symbol_table).

Lemma static_hides_virtual : exists cl m m', add_method_to_class hidden_4 2 "run" TYPE_I32 [TYPE_I64] false false ACCESS_PUBLIC = Ok (true, cl) /\
  is_subclass_of cl (Some 2%nat) (Some 0%nat) = Ok true /\ find_method cl 0 "run" = Ok (Some m) /\ find_method cl 2 "run" = Ok (Some m') /\
  vtable_index m = 0 /\ vtable_index m' = 1.
Proof. eexists _, _, _. split; [vm_compute; reflexivity|]. repeat split; vm_compute; reflexivity. Qed.

(** A field added to a class that already has a subclass takes the place of the
    subclass's first field. *)
Lemma late_field_overlaps : exists cl fx fy, add_field_to_class classes_7 0 "late" TYPE_I32 None false ACCESS_PUBLIC false true = Ok (true, cl) /\
  find_field cl 1 "late" = Ok (Some fx) /\ find_field cl 1 "y" = Ok (Some fy) /\ offset fx = offset fy.
Proof. eexists _, _, _. split; [vm_compute; reflexivity|]. repeat split; vm_compute; reflexivity. Qed.
