(* ===== verification/DropPlanner.v ===== *)
(** * The drop planner

    [src/compiler/sema/drop_planner.c]: which variables the end of a scope has
    to drop, and the check that no string view outlives its string.  The list
    [entries] is the array up to [count]; a failing [assert] is [Undef].  The
    result buffer is the list returned; a diagnostic is the pair of the names
    it mentions.  [drop_planner_print] writes text. *)
From S2P Require Import Prelude.
From stdpp Require Import strings.
Local Open Scope Z_scope.

Inductive DropKind := DROP_NONE | DROP_ARC | DROP_RC | DROP_DTOR | DROP_REGION | DROP_SCOPE_GUARD | DROP_LINEAR_VIEW.

#[export] Instance DropKind_eq_dec : EqDecision DropKind.
Proof. solve_decision. Defined.

Record DropEntry := mkEntry {
  var_name : option string;
  scope_level : Z;
  stack_offset : Z;
  kind : DropKind;
  dtor_name : option string;
  is_moved : bool;
  is_borrowed : bool;
  is_param : bool;
  parent_name : option string;
  decl_line : Z
}.

Definition MAX_DROP_ENTRIES : Z := 256.
Definition MAX_DROP_SCOPES : Z := 32.

Record DropPlanner := mkPlanner { entries : list DropEntry; current_scope : Z; scope_start : list Z }.

Definition count (dp : DropPlanner) : Z := Z.of_nat (length (entries dp)).

Definition set_start (l : list Z) (i v : Z) : outcome (list Z) :=
  if (0 <=? i) && (i <? MAX_DROP_SCOPES) then Ok (<[Z.to_nat i := v]> l) else Undef.
Definition get_start (l : list Z) (i : Z) : outcome Z :=
  if (0 <=? i) && (i <? MAX_DROP_SCOPES) then of_option (l !! Z.to_nat i) else Undef.

Definition drop_planner_init : DropPlanner := mkPlanner [] 0 (repeat 0 (Z.to_nat MAX_DROP_SCOPES)).
Definition drop_planner_reset (dp : DropPlanner) : outcome DropPlanner :=
  let! st := set_start (scope_start dp) 0 0 in Ok (mkPlanner [] 0 st).

Definition drop_planner_enter_scope (dp : DropPlanner) : outcome DropPlanner :=
  let cur := current_scope dp + 1 in
  if negb (cur <? MAX_DROP_SCOPES) then Undef
  else let! st := set_start (scope_start dp) cur (count dp) in Ok (mkPlanner (entries dp) cur st).

Definition drop_planner_exit_scope (dp : DropPlanner) : outcome DropPlanner :=
  if negb (0 <? current_scope dp) then Undef
  else let! n := get_start (scope_start dp) (current_scope dp) in
       Ok (mkPlanner (take (Z.to_nat n) (entries dp)) (current_scope dp - 1) (scope_start dp)).

Definition push_entry (dp : DropPlanner) (e : DropEntry) : outcome DropPlanner :=
  if negb (count dp <? MAX_DROP_ENTRIES) then Undef
  else Ok (mkPlanner (entries dp ++ [e]) (current_scope dp) (scope_start dp)).

Definition drop_planner_register (dp : DropPlanner) (nm : option string) (off : Z) (k : DropKind) (dtor : option string) (param : bool)
  : outcome DropPlanner :=
  push_entry dp (mkEntry nm (current_scope dp) off k dtor false false param None 0).

Definition drop_planner_register_linear_view (dp : DropPlanner) (view parent : option string) (line : Z) : outcome DropPlanner :=
  push_entry dp (mkEntry view (current_scope dp) 0 DROP_LINEAR_VIEW None false true false parent line).

Definition named (nm : string) (e : DropEntry) : bool := match var_name e with Some v => bool_decide (v = nm) | None => false end.

(** [find_entry], from index [i] downwards. *)
Fixpoint find_back (l : list DropEntry) (nm : string) (i : nat) : outcome (option nat) :=
  match i with
  | O => Ok None
  | S i => let! e := of_option (l !! i) in if named nm e then Ok (Some i) else find_back l nm i
  end.
Definition find_entry (dp : DropPlanner) (nm : string) : outcome (option nat) := find_back (entries dp) nm (length (entries dp)).

Definition set_moved (e : DropEntry) : DropEntry :=
  mkEntry (var_name e) (scope_level e) (stack_offset e) (kind e) (dtor_name e) true (is_borrowed e) (is_param e) (parent_name e) (decl_line e).
Definition set_borrowed (e : DropEntry) : DropEntry :=
  mkEntry (var_name e) (scope_level e) (stack_offset e) (kind e) (dtor_name e) (is_moved e) true (is_param e) (parent_name e) (decl_line e).

Definition mark_entry (f : DropEntry -> DropEntry) (dp : DropPlanner) (nm : string) : outcome DropPlanner :=
  let! r := find_entry dp nm in
  match r with
  | None => Ok dp
  | Some i => let! e := of_option (entries dp !! i) in Ok (mkPlanner (<[i := f e]> (entries dp)) (current_scope dp) (scope_start dp))
  end.
Definition drop_planner_mark_moved : DropPlanner -> string -> outcome DropPlanner := mark_entry set_moved.
Definition drop_planner_mark_borrowed : DropPlanner -> string -> outcome DropPlanner := mark_entry set_borrowed.

(** The five [continue]s. *)
Definition skipped (e : DropEntry) : bool :=
  bool_decide (kind e = DROP_NONE) || bool_decide (kind e = DROP_REGION) || bool_decide (kind e = DROP_LINEAR_VIEW) || is_moved e || is_borrowed e.

Fixpoint collect_drops (l : list DropEntry) : list DropEntry :=
  match l with
  | [] => []
  | e :: l => if skipped e then collect_drops l else e :: collect_drops l
  end.

Definition drop_planner_get_scope_drops (dp : DropPlanner) : outcome (list DropEntry) :=
  let! start := get_start (scope_start dp) (current_scope dp) in
  Ok (collect_drops (rev (drop (Z.to_nat start) (entries dp)))).

Fixpoint collect_to (target : Z) (l : list DropEntry) : list DropEntry :=
  match l with
  | [] => []
  | e :: l => if scope_level e <? target then [] else if skipped e then collect_to target l else e :: collect_to target l
  end.

Definition drop_planner_get_drops_to_scope (dp : DropPlanner) (target : Z) : list DropEntry := collect_to target (rev (entries dp)).

(** The diagnostics for one parent. *)
Definition survives (parent view : DropEntry) : bool :=
  bool_decide (kind view = DROP_LINEAR_VIEW) &&
  (match parent_name view, var_name parent with Some p, Some v => bool_decide (p = v) | _, _ => false end) &&
  negb (scope_level parent <=? scope_level view).
Definition surviving_views (parent : DropEntry) (l : list DropEntry) : list (option string * option string) :=
  map (fun view => (var_name parent, var_name view)) (List.filter (survives parent) l).
Definition checked (parent : DropEntry) : bool := bool_decide (is_Some (var_name parent)) && negb (skipped parent).

Definition drop_planner_check_string_drop_invariants (dp : DropPlanner) : outcome (list (option string * option string)) :=
  let! start := get_start (scope_start dp) (current_scope dp) in
  Ok (concat (map (fun parent => surviving_views parent (entries dp)) (List.filter checked (drop (Z.to_nat start) (entries dp))))).

(** ** Sequences of calls *)

Inductive DropOp :=
| Op_reset | Op_enter | Op_exit
| Op_register (nm : option string) (off : Z) (k : DropKind) (dtor : option string) (param : bool)
| Op_view (view parent : option string) (line : Z)
| Op_moved (nm : string) | Op_borrowed (nm : string)
| Op_drops | Op_drops_to (target : Z) | Op_check.

Inductive DropResult := R_unit | R_drops (l : list DropEntry) | R_errors (l : list (option string * option string)).

Definition planner_op (dp : DropPlanner) (op : DropOp) : outcome (DropResult * DropPlanner) :=
  let unit r := let! dp := r in Ok (R_unit, dp) in
  match op with
  | Op_reset => unit (drop_planner_reset dp)
  | Op_enter => unit (drop_planner_enter_scope dp)
  | Op_exit => unit (drop_planner_exit_scope dp)
  | Op_register nm off k dtor param => unit (drop_planner_register dp nm off k dtor param)
  | Op_view v p l => unit (drop_planner_register_linear_view dp v p l)
  | Op_moved nm => unit (drop_planner_mark_moved dp nm)
  | Op_borrowed nm => unit (drop_planner_mark_borrowed dp nm)
  | Op_drops => let! l := drop_planner_get_scope_drops dp in Ok (R_drops l, dp)
  | Op_drops_to t => Ok (R_drops (drop_planner_get_drops_to_scope dp t), dp)
  | Op_check => let! l := drop_planner_check_string_drop_invariants dp in Ok (R_errors l, dp)
  end.

Fixpoint run {S} (step : S -> DropOp -> outcome (DropResult * S)) (s : S) (ops : list DropOp) : outcome (list DropResult) :=
  match ops with
  | [] => Ok []
  | op :: ops => let! r := step s op in let! rs := run step r.2 ops in Ok (r.1 :: rs)
  end.

(** ** Reference: a stack of scopes, the innermost first *)

Definition scopes := list (list DropEntry).

Definition owned (e : DropEntry) : bool :=
  match kind e with DROP_ARC | DROP_RC | DROP_DTOR | DROP_SCOPE_GUARD => negb (is_moved e || is_borrowed e) | _ => false end.

(** The innermost, last declaration of a name is marked. *)
Fixpoint mark_last (f : DropEntry -> DropEntry) (nm : string) (l : list DropEntry) : option (list DropEntry) :=
  match l with
  | [] => None
  | e :: l => match mark_last f nm l with
              | Some l => Some (e :: l)
              | None => if named nm e then Some (f e :: l) else None
              end
  end.
Fixpoint mark_scopes (f : DropEntry -> DropEntry) (nm : string) (st : scopes) : scopes :=
  match st with
  | [] => []
  | s :: st => match mark_last f nm s with Some s => s :: st | None => s :: mark_scopes f nm st end
  end.

Definition scope_drops (s : list DropEntry) : list DropEntry := rev (List.filter owned s).

(** The views of the outer scopes that were registered with the name of
    [parent]: like the code, this goes by the name and not by the string the
    view was taken of. *)
Definition dangling (outer : scopes) (parent : DropEntry) : list (option string * option string) :=
  match var_name parent with
  | Some v => map (fun view => (Some v, var_name view))
                (List.filter (fun view => bool_decide (kind view = DROP_LINEAR_VIEW) && bool_decide (parent_name view = Some v)) (concat (rev outer)))
  | None => []
  end.

Definition declare (e : Z -> DropEntry) (st : scopes) : outcome (DropResult * scopes) :=
  match st with
  | s :: outer => if (length (concat st) <? 256)%nat then Ok (R_unit, (s ++ [e (Z.of_nat (length outer))]) :: outer) else Undef
  | [] => Undef
  end.

Definition scopes_op (st : scopes) (op : DropOp) : outcome (DropResult * scopes) :=
  match op with
  | Op_reset => Ok (R_unit, [[]])
  | Op_enter => if (length st <? 32)%nat then Ok (R_unit, [] :: st) else Undef
  | Op_exit => match st with _ :: (_ :: _) as outer => Ok (R_unit, outer) | _ => Undef end
  | Op_register nm off k dtor param => declare (fun d => mkEntry nm d off k dtor false false param None 0) st
  | Op_view v p l => declare (fun d => mkEntry v d 0 DROP_LINEAR_VIEW None false true false p l) st
  | Op_moved nm => Ok (R_unit, mark_scopes set_moved nm st)
  | Op_borrowed nm => Ok (R_unit, mark_scopes set_borrowed nm st)
  | Op_drops => match st with s :: _ => Ok (R_drops (scope_drops s), st) | [] => Undef end
  | Op_drops_to t => Ok (R_drops (concat (map scope_drops (take (Z.to_nat (Z.of_nat (length st) - t)) st))), st)
  | Op_check => match st with s :: outer => Ok (R_errors (concat (map (dangling outer) (List.filter owned s))), st) | [] => Undef end
  end.

(** ** The planner is the stack of scopes *)

Definition flat (st : scopes) : list DropEntry := concat (rev st).

Fixpoint starts_ok (l : list Z) (st : scopes) : Prop :=
  match st with
  | [] => True
  | _ :: outer => l !! length outer = Some (Z.of_nat (length (flat outer))) /\ starts_ok l outer
  end.

Fixpoint levels_ok (st : scopes) : Prop :=
  match st with
  | [] => True
  | s :: outer => Forall (fun e => scope_level e = Z.of_nat (length outer)) s /\ levels_ok outer
  end.

Record stands_for (dp : DropPlanner) (st : scopes) : Prop := {
  sf_some : st <> [];
  sf_depth : (length st <= 32)%nat;
  sf_entries : entries dp = flat st;
  sf_scope : current_scope dp = Z.of_nat (length st) - 1;
  sf_array : length (scope_start dp) = 32%nat;
  sf_starts : starts_ok (scope_start dp) st;
  sf_levels : levels_ok st
}.

Lemma flat_cons s outer : flat (s :: outer) = flat outer ++ s.
Proof. unfold flat. simpl. rewrite concat_app. simpl. by rewrite app_nil_r. Qed.

Lemma flat_length st : length (flat st) = length (concat st).
Proof. induction st as [|s st IH]; [done|]. rewrite flat_cons. simpl. rewrite !length_app, IH. lia. Qed.

Lemma starts_insert l st i v : starts_ok l st -> (length st <= i)%nat -> starts_ok (<[i := v]> l) st.
Proof. induction st as [|s st IH]; [done|]. intros [H1 H2] Hi. simpl in *. split; [rewrite list_lookup_insert_ne by lia; done|apply IH; [done|lia]]. Qed.

Lemma levels_flat st : levels_ok st -> Forall (fun e => scope_level e < Z.of_nat (length st)) (flat st).
Proof.
  induction st as [|s st IH]; [constructor|]. intros [H1 H2]. rewrite flat_cons. apply list.Forall_app. split.
  - eapply list.Forall_impl; [by apply IH|]. simpl. intros. lia.
  - eapply list.Forall_impl; [exact H1|]. simpl. intros. lia.
Qed.

Lemma owned_skipped e : owned e = negb (skipped e).
Proof. unfold owned, skipped. by destruct (kind e), (is_moved e), (is_borrowed e). Qed.

Lemma collect_filter l : collect_drops l = List.filter owned l.
Proof. induction l as [|e l IH]; [done|]. simpl. rewrite owned_skipped, IH. by destruct (skipped e). Qed.

Lemma filter_rev_drops s : List.filter owned (rev s) = scope_drops s.
Proof. unfold scope_drops. by rewrite List.filter_rev. Qed.

Lemma start_of dp s outer : stands_for dp (s :: outer) ->
  get_start (scope_start dp) (current_scope dp) = Ok (Z.of_nat (length (flat outer))) /\ drop (length (flat outer)) (entries dp) = s /\
  take (length (flat outer)) (entries dp) = flat outer.
Proof.
  intros [_ Hd He Hc _ [Hs _] _]. unfold get_start, MAX_DROP_SCOPES. rewrite He, Hc, flat_cons. simpl in *.
  replace (Z.to_nat (Z.of_nat (S (length outer)) - 1)) with (length outer) by lia.
  destruct (Z.leb_spec 0 (Z.of_nat (S (length outer)) - 1)), (Z.ltb_spec (Z.of_nat (S (length outer)) - 1) 32); try lia. rewrite Hs. cbn.
  by rewrite drop_app_length, take_app_length.
Qed.

(** ** Marks *)

Lemma find_back_app l1 l2 nm i : (i <= length l1)%nat -> find_back (l1 ++ l2) nm i = find_back l1 nm i.
Proof. induction i as [|i IH]; intros Hi; [done|]. cbn [find_back]. rewrite lookup_app_l by lia. rewrite IH by lia. done. Qed.

Lemma mark_last_app f nm l1 l2 : mark_last f nm (l1 ++ l2) =
  match mark_last f nm l2 with Some l2' => Some (l1 ++ l2') | None => option_map (fun l1' => l1' ++ l2) (mark_last f nm l1) end.
Proof.
  induction l1 as [|e l1 IH]; simpl; [by destruct (mark_last f nm l2)|]. rewrite IH. destruct (mark_last f nm l2); [done|].
  destruct (mark_last f nm l1); [done|]. simpl. by destruct (named nm e).
Qed.

Lemma find_back_spec f nm l : match find_back l nm (length l) with
  | Ok (Some i) => exists e, l !! i = Some e /\ mark_last f nm l = Some (<[i := f e]> l)
  | Ok None => mark_last f nm l = None
  | _ => False
  end.
Proof.
  induction l as [|e l IH] using rev_ind; [done|]. rewrite length_app, Nat.add_1_r. cbn [find_back]. rewrite list_lookup_middle by done.
  cbn [of_option obind]. rewrite mark_last_app. simpl. destruct (named nm e) eqn:En.
  - exists e. rewrite list_lookup_middle by done. split; [done|]. f_equal. rewrite insert_app_r_alt by lia. by rewrite Nat.sub_diag.
  - rewrite find_back_app by lia. destruct (find_back l nm (length l)) as [[i|]| |]; [|by rewrite IH|done..].
    destruct IH as (x & Hx & ->). exists x. split; [by apply lookup_app_l_Some|]. simpl. rewrite insert_app_l; [done|by eapply lookup_lt_Some].
Qed.

Lemma mark_scopes_flat f nm st : flat (mark_scopes f nm st) = default (flat st) (mark_last f nm (flat st)).
Proof.
  induction st as [|s st IH]; [done|]. rewrite flat_cons, mark_last_app. simpl. destruct (mark_last f nm s); [by rewrite flat_cons|].
  rewrite flat_cons, IH. by destruct (mark_last f nm (flat st)).
Qed.

Lemma mark_last_length f nm l l' : mark_last f nm l = Some l' -> length l' = length l.
Proof.
  revert l'. induction l as [|e l IH]; intros l' H; [done|]. simpl in H. destruct (mark_last f nm l); [injection H as <-; simpl; by rewrite IH|].
  destruct (named nm e); [|done]. by injection H as <-.
Qed.

Lemma mark_last_level f nm l l' (P : Z -> Prop) : (forall e, scope_level (f e) = scope_level e) -> mark_last f nm l = Some l' ->
  Forall (fun e => P (scope_level e)) l -> Forall (fun e => P (scope_level e)) l'.
Proof.
  intros Hf. revert l'. induction l as [|e l IH]; intros l' H Hl; [done|]. simpl in H. apply list.Forall_cons_1 in Hl as [He Hl].
  destruct (mark_last f nm l); [injection H as <-; constructor; [done|by apply IH]|]. destruct (named nm e); [|done]. injection H as <-.
  constructor; [by rewrite Hf|done].
Qed.

Lemma mark_shape f nm st : (forall e, scope_level (f e) = scope_level e) -> length (mark_scopes f nm st) = length st /\
  map length (mark_scopes f nm st) = map length st /\ (levels_ok st -> levels_ok (mark_scopes f nm st)).
Proof.
  intros Hf. induction st as [|s st (IH1 & IH2 & IH3)]; [done|]. simpl. destruct (mark_last f nm s) as [s'|] eqn:E; simpl.
  - rewrite (mark_last_length _ _ _ _ E). split_and!; [done..|]. intros [H1 H2]. split; [|done]. by apply (mark_last_level f nm s s' (fun z => z = _)).
  - rewrite IH1, IH2. split_and!; [done..|]. intros [H1 H2]. split; [done|by apply IH3].
Qed.

Lemma starts_shape l st st' : map length st' = map length st -> starts_ok l st -> starts_ok l st'.
Proof.
  assert (Hf : forall a b : scopes, map length b = map length a -> length (flat b) = length (flat a)).
  { induction a as [|x a IH]; intros [|y b] H; try done. simpl in H. injection H as H1 H2. rewrite !flat_cons, !length_app, (IH _ H2). by rewrite H1. }
  revert st'. induction st as [|s st IH]; intros [|s' st'] H; try done. simpl in *. injection H as H1 H2. intros [H3 H4].
  split; [|by apply IH]. rewrite (Hf _ _ H2). rewrite <- H3. f_equal. apply (f_equal length) in H2. by rewrite !length_map in H2.
Qed.

(** ** Drops and diagnostics *)

Lemma collect_to_none t l : Forall (fun e => scope_level e < t) l -> collect_to t l = [].
Proof. intros H. destruct l as [|e l]; [done|]. apply list.Forall_cons_1 in H as [He _]. simpl. by destruct (Z.ltb_spec (scope_level e) t); [|lia]. Qed.

Lemma collect_to_app t l1 l2 : Forall (fun e => t <= scope_level e) l1 -> collect_to t (l1 ++ l2) = List.filter owned l1 ++ collect_to t l2.
Proof.
  induction l1 as [|e l1 IH]; intros H; [done|]. apply list.Forall_cons_1 in H as [He H]. simpl. rewrite owned_skipped.
  destruct (Z.ltb_spec (scope_level e) t); [lia|]. destruct (skipped e); simpl; by rewrite IH.
Qed.

Lemma drops_to_spec t st : levels_ok st ->
  collect_to t (rev (flat st)) = concat (map scope_drops (take (Z.to_nat (Z.of_nat (length st) - t)) st)).
Proof.
  induction st as [|s st IH]; intros Hl; [by rewrite take_nil|]. pose proof Hl as [Hs Hst]. cbn [length]. destruct (Z.le_gt_cases t (Z.of_nat (length st))) as [Ht|Ht].
  - rewrite flat_cons, rev_app_distr, collect_to_app.
    2: { apply List.Forall_rev. eapply list.Forall_impl; [exact Hs|]. simpl. intros. lia. }
    rewrite filter_rev_drops, IH by done. replace (Z.to_nat (Z.of_nat (S (length st)) - t)) with (S (Z.to_nat (Z.of_nat (length st) - t))) by lia. done.
  - replace (Z.to_nat (Z.of_nat (S (length st)) - t)) with 0%nat by lia. rewrite collect_to_none; [done|].
    apply List.Forall_rev. eapply list.Forall_impl; [by apply levels_flat|]. cbn [length]. intros. lia.
Qed.

Lemma filter_none {A} (p : A -> bool) l : Forall (fun x => p x = false) l -> List.filter p l = [].
Proof. induction l as [|x l IH]; intros H; [done|]. apply list.Forall_cons_1 in H as [Hx H]. simpl. by rewrite Hx, IH. Qed.

Lemma filter_same {A} (p q : A -> bool) l : Forall (fun x => p x = q x) l -> List.filter p l = List.filter q l.
Proof. induction l as [|x l IH]; intros H; [done|]. apply list.Forall_cons_1 in H as [Hx H]. simpl. by rewrite Hx, IH. Qed.

Lemma surviving_dangling s outer parent v : levels_ok (s :: outer) -> scope_level parent = Z.of_nat (length outer) -> var_name parent = Some v ->
  surviving_views parent (flat (s :: outer)) = dangling outer parent.
Proof.
  intros Hl Hp Hv. unfold surviving_views, dangling. rewrite Hv, flat_cons, List.filter_app, map_app. fold (flat outer).
  rewrite (filter_none _ s), app_nil_r.
  - f_equal. apply filter_same. eapply list.Forall_impl; [apply levels_flat, Hl|]. simpl. intros e He. unfold survives. rewrite Hv, Hp.
    destruct (Z.leb_spec (Z.of_nat (length outer)) (scope_level e)); [lia|]. rewrite andb_true_r. f_equal.
    destruct (parent_name e) as [p|]; [|by rewrite bool_decide_false]. apply bool_decide_ext. split; [by intros ->|by intros [= ->]].
  - eapply list.Forall_impl; [apply Hl|]. simpl. intros e He. unfold survives. rewrite Hp, He, Z.leb_refl. by rewrite andb_false_r.
Qed.

Lemma check_spec s outer : levels_ok (s :: outer) ->
  concat (map (fun parent => surviving_views parent (flat (s :: outer))) (List.filter checked s)) = concat (map (dangling outer) (List.filter owned s)).
Proof.
  intros Hl. assert (Hs : Forall (fun e => scope_level e = Z.of_nat (length outer)) s) by apply Hl.
  generalize (surviving_dangling s outer) as Hd. generalize (flat (s :: outer)) as l. intros l Hd.
  assert (Hd' : forall parent v, scope_level parent = Z.of_nat (length outer) -> var_name parent = Some v -> surviving_views parent l = dangling outer parent)
    by (intros; by eapply Hd). clear Hd Hl.
  induction s as [|e s IH]; [done|]. apply list.Forall_cons_1 in Hs as [He Hs]. simpl. unfold checked at 1. rewrite owned_skipped.
  destruct (skipped e); simpl; [rewrite andb_false_r; by apply IH|]. destruct (var_name e) as [v|] eqn:Ev.
  - rewrite bool_decide_true by done. simpl. rewrite (Hd' e v) by done. f_equal. by apply IH.
  - rewrite bool_decide_false by (intros [? ?]; done). simpl. replace (dangling outer e) with (@nil (option string * option string)) by (unfold dangling; by rewrite Ev). by apply IH.
Qed.

(** ** Every call *)

Definition same_step (o1 : outcome (DropResult * DropPlanner)) (o2 : outcome (DropResult * scopes)) : Prop :=
  match o1, o2 with
  | Ok (r1, dp), Ok (r2, st) => r1 = r2 /\ stands_for dp st
  | Undef, Undef => True
  | _, _ => False
  end.

Lemma declare_step dp st e : (forall d, scope_level (e d) = d) -> stands_for dp st ->
  same_step (let! d := push_entry dp (e (current_scope dp)) in Ok (R_unit, d)) (declare e st).
Proof.
  intros Hlv H. destruct H as [Hne Hd He Hc Ha Hs Hl]. destruct st as [|s outer]; [done|]. unfold push_entry, declare, count, MAX_DROP_ENTRIES, same_step.
  rewrite <- flat_length, He. destruct (Z.ltb_spec (Z.of_nat (length (flat (s :: outer)))) 256), (Nat.ltb_spec (length (flat (s :: outer))) 256); try lia; [|done].
  cbn [negb obind]. split; [done|]. cbn in Hc. replace (Z.of_nat (length outer)) with (current_scope dp) by lia. split; try done; cbn [entries current_scope scope_start].
  - rewrite !flat_cons, app_assoc. done.
  - split; [|apply Hl]. apply list.Forall_app. split; [apply Hl|]. constructor; [|constructor]. rewrite Hlv. lia.
Qed.

Lemma mark_step dp st f nm : (forall e, scope_level (f e) = scope_level e) -> stands_for dp st ->
  same_step (let! d := mark_entry f dp nm in Ok (R_unit, d)) (Ok (R_unit, mark_scopes f nm st)).
Proof.
  intros Hf [Hne Hd He Hc Ha Hs Hl]. destruct (mark_shape f nm st Hf) as (Hlen & Hmap & Hlev). pose proof (mark_scopes_flat f nm st) as Hfl.
  unfold mark_entry, find_entry. pose proof (find_back_spec f nm (entries dp)) as Hsp.
  destruct (find_back (entries dp) nm (length (entries dp))) as [[i|]| |]; [| |done..].
  - destruct Hsp as (e & Hi & Hm). cbn. rewrite Hi. cbn. split; [done|]. rewrite He in Hm. rewrite Hm in Hfl. simpl in Hfl.
    split; cbn [entries current_scope scope_start]; [by intros Hx; rewrite Hx in Hlen; destruct st|lia|by rewrite He, Hfl|lia|done|by eapply starts_shape|by apply Hlev].
  - cbn. split; [done|]. rewrite He in Hsp. rewrite Hsp in Hfl. simpl in Hfl.
    split; cbn [entries current_scope scope_start]; [by intros Hx; rewrite Hx in Hlen; destruct st|lia|by rewrite He, Hfl|lia|done|by eapply starts_shape|by apply Hlev].
Qed.

Lemma enter_exit_step dp st op : op = Op_reset \/ op = Op_enter \/ op = Op_exit -> stands_for dp st -> same_step (planner_op dp op) (scopes_op st op).
Proof.
  intros Hop Hsf. pose proof Hsf as [Hne Hd He Hc Ha Hs Hl]. destruct Hop as [->|[->| ->]]; cbn [planner_op scopes_op].
  - unfold drop_planner_reset, set_start. cbn [obind same_step MAX_DROP_SCOPES Z.leb Z.ltb Z.compare andb]. split; [done|].
    split; cbn [entries current_scope scope_start]; [done|simpl; lia|done|done|by rewrite length_insert| |by split].
    split; [|done]. simpl. apply list_lookup_insert_eq. lia.
  - unfold drop_planner_enter_scope, set_start, MAX_DROP_SCOPES. rewrite Hc. replace (Z.of_nat (length st) - 1 + 1) with (Z.of_nat (length st)) by lia.
    destruct (Z.ltb_spec (Z.of_nat (length st)) 32), (Nat.ltb_spec (length st) 32); try lia; [|done].
    destruct (Z.leb_spec 0 (Z.of_nat (length st))); [|lia]. cbn. split; [done|]. rewrite Nat2Z.id.
    split; cbn [entries current_scope scope_start length]; [done|lia|by rewrite flat_cons, app_nil_r|lia|by rewrite length_insert| |by split; [constructor|]].
    split; [|by apply starts_insert]. rewrite list_lookup_insert_eq by lia. unfold count. by rewrite He.
  - unfold drop_planner_exit_scope. rewrite Hc. destruct st as [|s [|s' outer]]; [done|done|].
    destruct (start_of _ _ _ Hsf) as (Hst & _ & Htk). rewrite Hc in Hst. cbn [length] in *.
    destruct (Z.ltb_spec 0 (Z.of_nat (S (S (length outer))) - 1)); [|lia]. cbn [negb]. rewrite Hst. cbn [obind same_step]. rewrite Nat2Z.id, Htk. split; [done|].
    split; cbn [entries current_scope scope_start length]; [done|lia|done|lia|done|apply Hs|apply Hl].
Qed.

Lemma planner_step dp st op : stands_for dp st -> same_step (planner_op dp op) (scopes_op st op).
Proof.
  intros Hsf. pose proof (sf_some _ _ Hsf) as Hne. destruct op; try (apply enter_exit_step; [tauto|done]); cbn [planner_op scopes_op].
  - by apply (declare_step dp st (fun d => mkEntry nm d off k dtor false false param None 0)).
  - by apply (declare_step dp st (fun d => mkEntry view d 0 DROP_LINEAR_VIEW None false true false parent line)).
  - by apply mark_step.
  - by apply mark_step.
  - destruct st as [|s outer]; [done|]. destruct (start_of _ _ _ Hsf) as (H1 & H2 & _). unfold drop_planner_get_scope_drops. rewrite H1. cbn [obind same_step].
    rewrite Nat2Z.id, H2, collect_filter, filter_rev_drops. done.
  - cbn [same_step]. split; [|done]. unfold drop_planner_get_drops_to_scope. by rewrite (sf_entries _ _ Hsf), (drops_to_spec _ _ (sf_levels _ _ Hsf)).
  - destruct st as [|s outer]; [done|]. destruct (start_of _ _ _ Hsf) as (H1 & H2 & _). unfold drop_planner_check_string_drop_invariants. rewrite H1. cbn [obind same_step].
    rewrite Nat2Z.id, H2. split; [|done]. f_equal. rewrite (sf_entries _ _ Hsf). apply check_spec, (sf_levels _ _ Hsf).
Qed.

(** C12: the drop planner is a stack of scopes.  For any sequence of scopes
    entered and left, declarations, views, moves, borrows and queries the
    results are those of a stack of lists: the drops of a scope are its owners
    that were neither moved nor borrowed, the last declared first; the drops
    down to a scope are those of every scope inside it, the innermost first; a
    move concerns the innermost declaration of the name; and the check reports,
    for every string the scope drops, the views of the outer scopes that were
    registered with that string's name.  The names are all it compares: a view
    of another, surviving string of the same name is reported too
    ([shadowed_string_reported], [reported_view_precedes]).  Both stop in the
    same calls, at 32 scopes, 256 entries or an exit too many. *)
Theorem drop_planner_refines ops : run planner_op drop_planner_init ops = run scopes_op [[]] ops.
Proof.
  assert (H : stands_for drop_planner_init [[]]).
  { split; [done|simpl; lia|done|done|done|by split|by split]. }
  revert H. generalize drop_planner_init as dp, ([[]] : scopes) as st. induction ops as [|op ops IH]; intros dp st H; [done|]. cbn [run].
  pose proof (planner_step _ _ op H) as Hs. unfold same_step in Hs.
  destruct (planner_op dp op) as [[r dp']| |], (scopes_op st op) as [[r' st']| |]; try done. destruct Hs as [-> Hs]. cbn. by rewrite (IH _ _ Hs).
Qed.

(** A string moved away, a borrowed one and a view that outlives its string. *)
Example drop_example : run planner_op drop_planner_init
  [Op_view (Some "v") (Some "s") 3; Op_enter; Op_register (Some "s") 8 DROP_ARC None false; Op_register (Some "t") 16 DROP_ARC None false;
   Op_register (Some "u") 24 DROP_DTOR (Some "u_dtor") false; Op_moved "t"; Op_drops; Op_check; Op_exit; Op_drops]%string =
  Ok [R_unit; R_unit; R_unit; R_unit; R_unit; R_unit;
      R_drops [mkEntry (Some "u") 1 24 DROP_DTOR (Some "u_dtor") false false false None 0; mkEntry (Some "s") 1 8 DROP_ARC None false false false None 0]%string;
      R_errors [(Some "s", Some "v")]%string; R_unit; R_drops []].
Proof. vm_compute. reflexivity. Qed.

(** The check compares names: the view borrows the outer [s], and the end of
    the inner [s] is reported. *)
Example shadowed_string_reported : run planner_op drop_planner_init
  [Op_register (Some "s") 8 DROP_ARC None false; Op_view (Some "v") (Some "s") 2; Op_enter; Op_register (Some "s") 16 DROP_ARC None false; Op_check]%string =
  Ok [R_unit; R_unit; R_unit; R_unit; R_errors [(Some "s", Some "v")]%string].
Proof. vm_compute. reflexivity. Qed.

(** A view of an outer scope stands before every entry of the innermost scope:
    it was registered before the string whose drop it is reported for, so it
    was taken of another string of that name. *)
Lemma reported_view_precedes dp st start i j parent view : stands_for dp st ->
  get_start (scope_start dp) (current_scope dp) = Ok start -> start <= Z.of_nat i ->
  entries dp !! i = Some parent -> entries dp !! j = Some view -> survives parent view = true -> (j < i)%nat.
Proof.
  intros Hst Hget Hi Hp Hv Hs. destruct st as [|s outer]; [by destruct (sf_some _ _ Hst)|].
  destruct (start_of dp s outer Hst) as (Hget' & _ & _). rewrite Hget in Hget'. injection Hget' as ->.
  pose proof (sf_entries _ _ Hst) as He. rewrite flat_cons in He. rewrite He in Hp, Hv. destruct (sf_levels _ _ Hst) as [Hl _].
  unfold survives in Hs. apply andb_true_iff in Hs as [_ Hs%negb_true_iff%Z.leb_gt].
  rewrite lookup_app_r in Hp by lia. apply list_elem_of_lookup_2 in Hp.
  rewrite list.Forall_forall in Hl. rewrite (Hl _ Hp) in Hs.
  destruct (decide (j < length (flat outer))%nat) as [|Hj]; [lia|]. rewrite lookup_app_r in Hv by lia.
  apply list_elem_of_lookup_2, Hl in Hv. lia.
Qed.
