(* ===== verification/MirInline.v ===== *)
(** * The inliner

    [src/compiler/ir/mir_inline.c].  A block pointer of the callee that has no
    clone would be a pointer into another function: it is [Undef], as is a null
    block that the code dereferences.  The remapping tables are arrays of value
    ids and of block pointers; [calloc] and [realloc] succeed.  The phi that
    collects the results is the first instruction of the merge block.  The
    statistics are left out, but for the count of inlined calls. *)
From S2P Require Import Prelude MirCore MirGraph MirOpt MirBuilder.
From stdpp Require Import strings.
From Stdlib Require String.
Local Open Scope Z_scope.

Record MirInlineConfig := mkConfig { max_inst_count : Z; max_block_count : Z; max_call_depth : Z; inline_always : bool }.

Definition mir_inline_config_for_level (opt_level : Z) : MirInlineConfig :=
  if opt_level =? 0 then mkConfig 0 0 0 false
  else if opt_level =? 1 then mkConfig 8 2 1 false
  else if opt_level =? 2 then mkConfig 30 6 2 false
  else mkConfig 100 20 3 true.

Definition calls (name : string) (i : MirInst) : bool := match as_ i with CALL n _ _ => bool_decide (n = name) | _ => false end.

Definition is_recursive (f : MirFunction) : bool := existsb (calls (f_name f)) (all_insts f).

Definition count_insts (f : MirFunction) : Z :=
  fold_left (fun n b => n + match block_at f b with Some blk => inst_count blk | None => 0 end) (block_list f) 0.

Definition is_inlinable (callee : MirFunction) (config : MirInlineConfig) : bool :=
  if is_extern callee then false
  else match entry_block callee with
       | None => false
       | Some _ =>
           if is_recursive callee then false
           else if max_inst_count config <? count_insts callee then false
           else if max_block_count config <? block_count callee then false
           else true
       end.

(** ** The tables *)

Definition grow {A} (zero : A) (more : Z) (l : list A) (from : Z) : list A :=
  if Z.of_nat (length l) <=? from then
    let new_cap := Z.of_nat (length l) * 2 in
    let new_cap := if new_cap <=? from then from + more else new_cap in
    l ++ repeat zero (Z.to_nat (new_cap - Z.of_nat (length l)))
  else l.

Definition remap_init (capacity : Z) : list MirValueId := repeat MIR_VALUE_NONE (Z.to_nat capacity).

Definition remap_set (r : list MirValueId) (from to : MirValueId) : list MirValueId :=
  <[N.to_nat from := to]> (grow MIR_VALUE_NONE 64 r (Z.of_N from)).

Definition remap_get (r : list MirValueId) (val : MirValueId) : MirValueId :=
  if (val =? MIR_VALUE_NONE)%N then MIR_VALUE_NONE
  else match r !! N.to_nat val with
       | Some to => if (to =? MIR_VALUE_NONE)%N then val else to
       | None => val
       end.

Definition block_remap_init (capacity : Z) : list blockptr := repeat None (Z.to_nat capacity).

Definition block_remap_set (r : list blockptr) (from_id : Z) (to : nat) : list blockptr :=
  <[Z.to_nat from_id := Some to]> (grow None 32 r from_id).

Definition block_remap_get (r : list blockptr) (id : Z) : blockptr := if id <? 0 then None else mjoin (r !! Z.to_nat id).

(** The clone of the block a pointer of the callee leads to. *)
Definition clone_target (callee : MirFunction) (br : list blockptr) (b : blockptr) : outcome blockptr :=
  let! p := of_option b in
  let! blk := of_option (block_at callee p) in
  let! c := of_option (block_remap_get br (id blk)) in Ok (Some c).

Fixpoint map_ok {A B} (g : A -> outcome B) (l : list A) : outcome (list B) :=
  match l with
  | [] => Ok []
  | x :: l => let! y := g x in let! r := map_ok g l in Ok (y :: r)
  end.

(** ** Cloning one instruction *)

Definition remap_operands (callee : MirFunction) (vr : list MirValueId) (br : list blockptr) (k : MirInstKind) : outcome MirInstKind :=
  let r := remap_get vr in
  match k with
  | BINARY op lhs rhs => Ok (BINARY op (r lhs) (r rhs))
  | UNARY op operand t => Ok (UNARY op (r operand) t)
  | LOAD ptr => Ok (LOAD (r ptr))
  | STORE ptr value => Ok (STORE (r ptr) (r value))
  | BR target => let! t := clone_target callee br target in Ok (BR t)
  | CONDBR cond true_bb false_bb =>
      let! t := clone_target callee br true_bb in
      let! f := clone_target callee br false_bb in Ok (CONDBR (r cond) t f)
  | RET value => Ok (RET (r value))
  | CALL n args callee => Ok (CALL n (map r args) callee)
  | CALL_INDIRECT n args callee => Ok (CALL_INDIRECT n (map r args) (r callee))
  | CALL_VIRTUAL self_obj vi args => Ok (CALL_VIRTUAL (r self_obj) vi (map r args))
  | PHI edges =>
      let! es := map_ok (fun e => let! b := clone_target callee br e.1 in Ok (b, r e.2)) edges in Ok (PHI es)
  | TRANSFER op source => Ok (TRANSFER op (r source))
  | REFOP op ptr => Ok (REFOP op (r ptr))
  | GEP MIR_GET_FIELD_PTR base fi index => Ok (GEP MIR_GET_FIELD_PTR (r base) fi index)
  | GEP MIR_GET_ELEM_PTR base fi index => Ok (GEP MIR_GET_ELEM_PTR (r base) fi (r index))
  | STRUCT_INIT fields => Ok (STRUCT_INIT (map r fields))
  | EXTRACT aggregate i => Ok (EXTRACT (r aggregate) i)
  | INSERT aggregate i insert_val => Ok (INSERT (r aggregate) i (r insert_val))
  | SWITCH discriminant cases default_bb =>
      let! cs := map_ok (fun c => let! b := clone_target callee br c.2 in Ok (c.1, b)) cases in
      let! d := (match default_bb with Some _ => clone_target callee br default_bb | None => Ok None end) in
      Ok (SWITCH (r discriminant) cs d)
  | k => Ok k
  end.

Definition clone_inst (caller callee : MirFunction) (vr : list MirValueId) (br : list blockptr) (src : MirInst)
  : outcome (MirFunction * list MirValueId * MirInst) :=
  let '(caller, vr, res) :=
    if (result src =? MIR_VALUE_NONE)%N then (caller, vr, result src)
    else let '(caller, v) := mir_function_new_value caller (type src) in (caller, remap_set vr (result src) v, v) in
  let! k := remap_operands callee vr br (as_ src) in
  Ok (caller, vr, mkInst k res (type src) (src_line src) (src_col src)).

(** ** One call *)

Definition add_edge (f : MirFunction) (s t : nat) : MirFunction :=
  upd_block (upd_block f s (fun b => mir_block_add_successor b t)) t (fun b => mir_block_add_predecessor b s).

Definition branch_to (b : nat) : MirInst := mkInst (BR (Some b)) MIR_VALUE_NONE TY_NULL 0 0.

(** [mir_phi_add_edge] on the first instruction of the merge block. *)
Definition phi_edge (f : MirFunction) (merge dst : nat) (v : MirValueId) : outcome MirFunction :=
  let! blk := of_option (block_at f merge) in
  match insts blk with
  | phi :: l => let! phi := mir_phi_add_edge phi (Some dst) v in Ok (upd_block f merge (fun b => with_insts b (phi :: l) (inst_count b)))
  | [] => Undef
  end.

Definition to_merge (f : MirFunction) (dst merge : nat) : MirFunction :=
  add_edge (upd_block f dst (fun b => mir_block_append b (branch_to merge))) dst merge.

Definition clone_step (callee : MirFunction) (br : list blockptr) (ret_phi : bool) (merge dst : nat) (caller : MirFunction) (vr : list MirValueId) (src : MirInst)
  : outcome (MirFunction * list MirValueId) :=
  match as_ src with
  | RET v =>
      let! f := (if ret_phi then phi_edge caller merge dst (remap_get vr v) else Ok caller) in
      Ok (to_merge f dst merge, vr)
  | RET_VOID => Ok (to_merge caller dst merge, vr)
  | _ =>
      let! r := clone_inst caller callee vr br src in
      let '(f, vr, clone) := r in
      let f := upd_block f dst (fun b => mir_block_append b clone) in
      match as_ clone with
      | BR (Some t) => Ok (add_edge f dst t, vr)
      | CONDBR _ (Some t) (Some e) =>
          let f := upd_block (upd_block f dst (fun b => mir_block_add_successor b t)) dst (fun b => mir_block_add_successor b e) in
          Ok (upd_block (upd_block f t (fun b => mir_block_add_predecessor b dst)) e (fun b => mir_block_add_predecessor b dst), vr)
      | BR None | CONDBR _ _ _ => Undef
      | _ => Ok (f, vr)
      end
  end.

Fixpoint clone_insts (callee : MirFunction) (br : list blockptr) (ret_phi : bool) (merge dst : nat) (l : list MirInst) (caller : MirFunction) (vr : list MirValueId)
  : outcome (MirFunction * list MirValueId) :=
  match l with
  | [] => Ok (caller, vr)
  | src :: l => let! r := clone_step callee br ret_phi merge dst caller vr src in clone_insts callee br ret_phi merge dst l r.1 r.2
  end.

Fixpoint clone_blocks (callee : MirFunction) (br : list blockptr) (ret_phi : bool) (merge : nat) (bl : list nat) (caller : MirFunction) (vr : list MirValueId)
  : outcome (MirFunction * list MirValueId) :=
  match bl with
  | [] => Ok (caller, vr)
  | b :: bl =>
      let! blk := of_option (block_at callee b) in
      match block_remap_get br (id blk) with
      | None => clone_blocks callee br ret_phi merge bl caller vr
      | Some dst => let! r := clone_insts callee br ret_phi merge dst (insts blk) caller vr in clone_blocks callee br ret_phi merge bl r.1 r.2
      end
  end.

(** [snprintf(label, 128, "inline.%s.%s", ...)] *)
Definition inline_label (callee blk : string) : string := String.substring 0 127 ("inline." +:+ callee +:+ "." +:+ blk).

Fixpoint add_clones (callee : MirFunction) (bl : list nat) (caller : MirFunction) (br : list blockptr) : outcome (MirFunction * list blockptr) :=
  match bl with
  | [] => Ok (caller, br)
  | b :: bl =>
      let! blk := of_option (block_at callee b) in
      let '(caller, c) := mir_function_add_block caller (inline_label (f_name callee) (label blk)) in
      add_clones callee bl caller (block_remap_set br (id blk) c)
  end.

Fixpoint map_params (ps : list MirParam) (args : list MirValueId) (vr : list MirValueId) : list MirValueId :=
  match ps with
  | [] => vr
  | p :: ps => map_params ps (tail args) (remap_set vr (p_value_id p) (hd MIR_VALUE_NONE args))
  end.

(** The first [call_bb] among the predecessors becomes [merge]. *)
Fixpoint replace_first (c m : nat) (l : list nat) : list nat :=
  match l with
  | [] => []
  | x :: l => if (x =? c)%nat then m :: l else x :: replace_first c m l
  end.

(** The phis at the front of a block take [merge] for [call_bb]. *)
Fixpoint redirect_phis (c m : nat) (l : list MirInst) : list MirInst :=
  match l with
  | i :: l' =>
      match as_ i with
      | PHI edges => set_as i (PHI (map (fun e => (if bool_decide (e.1 = Some c) then Some m else e.1, e.2)) edges)) :: redirect_phis c m l'
      | _ => l
      end
  | [] => []
  end.

Definition move_edge (c m : nat) (f : MirFunction) (s : nat) : MirFunction :=
  upd_block (upd_block f s (fun b => with_insts (with_preds b (replace_first c m (predecessors b))) (redirect_phis c m (insts b)) (inst_count b)))
    m (fun b => mir_block_add_successor b s).

(** Step 1: the merge block gets the instructions behind the call. *)
Definition split_at_call (caller : MirFunction) (c pos : nat) (call_blk : MirBlock) : MirFunction * nat :=
  let '(f, merge) := mir_function_add_block caller "inline.merge" in
  let post := drop (S pos) (insts call_blk) in
  let moved := Z.of_nat (length post) in
  (match post with
   | [] => f
   | _ => upd_block (upd_block f merge (fun b => with_insts b post moved)) c (fun b => with_insts b (take (S pos) (insts b)) (inst_count b - moved))
   end, merge).

(** Step 4. *)
Definition needs_phi (tc : list MirType) (callee : MirFunction) (call : MirInst) : bool :=
  match ty_deref tc (return_type callee) with
  | Some t => negb (bool_decide (ty_kind t = MIR_TYPE_VOID)) && negb (result call =? MIR_VALUE_NONE)%N
  | None => false
  end.

Definition result_phi (callee : MirFunction) (call : MirInst) : MirInst := mkInst (PHI []) (result call) (return_type callee) 0 0.

Definition put_phi (f : MirFunction) (merge : nat) (phi : MirInst) : MirFunction :=
  upd_block f merge (fun b => with_insts b (phi :: insts b) (inst_count b + 1)).

(** Step 6: the call becomes a branch, the edges of its block move. *)
Definition enter_inlined (f : MirFunction) (c pos merge inline_entry : nat) : outcome MirFunction :=
  let f := upd_block f c (fun b => with_insts b (take pos (insts b)) (inst_count b - 1)) in
  let f := upd_block f c (fun b => mir_block_append b (branch_to inline_entry)) in
  let! cb := of_option (block_at f c) in
  let f := fold_left (move_edge c merge) (successors cb) f in
  let f := upd_block f c (fun b => with_succs b []) in
  Ok (add_edge f c inline_entry).

(** A phi without edges becomes unreachable. *)
Definition close_phi (f : MirFunction) (merge : nat) : outcome MirFunction :=
  let! mb := of_option (block_at f merge) in
  match insts mb with
  | phi :: l =>
      match as_ phi with
      | PHI [] => Ok (upd_block f merge (fun b => with_insts b (mkInst UNREACHABLE MIR_VALUE_NONE (type phi) (src_line phi) (src_col phi) :: l) (inst_count b)))
      | _ => Ok f
      end
  | [] => Undef
  end.

Definition inline_call_site (tc : list MirType) (caller : MirFunction) (c pos : nat) (callee : MirFunction) : outcome MirFunction :=
  let! call_blk := of_option (block_at caller c) in
  let! call := of_option (insts call_blk !! pos) in
  let! args := (match as_ call with CALL _ args _ => Ok args | _ => Undef end) in
  let vr := remap_init (Z.of_N (next_value_id callee) + 32) in
  let br := block_remap_init (block_count callee + 8) in
  let '(f, merge) := split_at_call caller c pos call_blk in
  let vr := map_params (params callee) args vr in
  let! r := add_clones callee (block_list callee) f br in
  let '(f, br) := r in
  let ret_phi := needs_phi tc callee call in
  let f := if ret_phi then put_phi f merge (result_phi callee call) else f in
  let! r := clone_blocks callee br ret_phi merge (block_list callee) f vr in
  let! e := of_option (entry_block callee) in
  let! eb := of_option (block_at callee e) in
  let! inline_entry := of_option (block_remap_get br (id eb)) in
  let! f := enter_inlined r.1 c pos merge inline_entry in
  if ret_phi then close_phi f merge else Ok f.

(** ** Functions and modules *)

(** The first call, in the order of the loops, that is inlined. *)
Definition site_ok (m : MirModule) (config : MirInlineConfig) (caller : MirFunction) (i : MirInst) : option MirFunction :=
  match as_ i with
  | CALL n _ _ =>
      if bool_decide (n = f_name caller) then None
      else match mir_module_find_function m n with
           | Some callee => if is_inlinable callee config then Some callee else None
           | None => None
           end
  | _ => None
  end.

Fixpoint find_in_insts (m : MirModule) (config : MirInlineConfig) (caller : MirFunction) (l : list MirInst) (pos : nat) : option (nat * MirFunction) :=
  match l with
  | [] => None
  | i :: l => match site_ok m config caller i with Some callee => Some (pos, callee) | None => find_in_insts m config caller l (S pos) end
  end.

Fixpoint find_site (m : MirModule) (config : MirInlineConfig) (caller : MirFunction) (bl : list nat) : option (nat * nat * MirFunction) :=
  match bl with
  | [] => None
  | b :: bl =>
      match find_in_insts m config caller (inst_list caller b) 0 with
      | Some (pos, callee) => Some (b, pos, callee)
      | None => find_site m config caller bl
      end
  end.

Fixpoint inline_passes (depth : nat) (m : MirModule) (config : MirInlineConfig) (caller : MirFunction) (total : Z) : outcome (MirFunction * Z) :=
  match depth with
  | O => Ok (caller, total)
  | S depth =>
      match find_site m config caller (block_list caller) with
      | None => Ok (caller, total)
      | Some (c, pos, callee) =>
          let! caller := inline_call_site (type_cache m) caller c pos callee in
          inline_passes depth m config caller (total + 1)
      end
  end.

Definition mir_inline_function (m : MirModule) (caller : MirFunction) (config : MirInlineConfig) : outcome (MirFunction * Z) :=
  match is_extern caller, entry_block caller with
  | false, Some _ =>
      if max_inst_count config <=? 0 then Ok (caller, 0)
      else inline_passes (Z.to_nat (max_call_depth config)) m config caller 0
  | _, _ => Ok (caller, 0)
  end.

(** The functions of the module from index [i] on; the callees are those of the module as it is then. *)
Fixpoint inline_funcs (todo : nat) (i : nat) (m : MirModule) (config : MirInlineConfig) : outcome MirModule :=
  match todo with
  | O => Ok m
  | S todo =>
      let! f := of_option (func_list m !! i) in
      if is_extern f then inline_funcs todo (S i) m config
      else
        let! r := mir_inline_function m f config in
        let! f := mir_remove_unreachable_blocks r.1 in
        inline_funcs todo (S i) (with_funcs m (<[i := f]> (func_list m)) (func_count m)) config
  end.

Definition mir_inline_module (m : MirModule) (opt_level : Z) : outcome MirModule :=
  let config := mir_inline_config_for_level opt_level in
  if max_inst_count config <=? 0 then Ok m else inline_funcs (length (func_list m)) 0 m config.
