(* ===== verification/MirInlineFacts.v ===== *)
(** * What inlining a call does

    The code of the callee is copied under a renaming of its values and blocks,
    and the control flow lists follow the code. *)
From S2P Require Import Prelude MirCore MirGraph MirOpt MirBuilder MirVerify MirBuilderFacts MirInline.
From stdpp Require Import strings.
Local Open Scope Z_scope.

(** ** The tables *)

Lemma grow_length {A} (zero : A) more l from : 0 < more -> from < Z.of_nat (length (grow zero more l from)).
Proof.
  intros Hm. unfold grow. destruct (Z.leb_spec (Z.of_nat (length l)) from); [|lia]. rewrite length_app, repeat_length.
  destruct (Z.leb_spec (Z.of_nat (length l) * 2) from); lia.
Qed.

Lemma grow_lookup {A} (zero : A) more l from i : grow zero more l from !! i = l !! i \/ l !! i = None /\ grow zero more l from !! i = Some zero.
Proof.
  unfold grow. destruct (_ <=? _); [|by left]. destruct (l !! i) as [x|] eqn:E; [left; by apply lookup_app_l_Some|].
  destruct ((l ++ repeat _ _) !! i) as [y|] eqn:Ey; [right|by left]. apply lookup_app_Some in Ey as [Ey|[_ Ey]]; [congruence|].
  apply list_elem_of_lookup_2, list_elem_of_In, repeat_spec in Ey as ->. done.
Qed.

Lemma remap_get_same r from to : from <> 0%N -> to <> 0%N -> remap_get (remap_set r from to) from = to.
Proof.
  intros Hf Ht. unfold remap_get, remap_set. destruct (N.eqb_spec from 0); [done|]. rewrite list_lookup_insert_eq.
  - by destruct (N.eqb_spec to 0).
  - pose proof (grow_length (0%N) 64 r (Z.of_N from) ltac:(lia)). lia.
Qed.

Lemma remap_get_other r from to v : v <> from -> remap_get (remap_set r from to) v = remap_get r v.
Proof.
  intros Hne. unfold remap_get, remap_set. destruct (v =? 0)%N; [done|]. rewrite list_lookup_insert_ne by lia.
  by destruct (grow_lookup 0%N 64 r (Z.of_N from) (N.to_nat v)) as [->|[-> ->]].
Qed.

Lemma block_remap_same r from to : 0 <= from -> block_remap_get (block_remap_set r from to) from = Some to.
Proof.
  intros Hf. unfold block_remap_get, block_remap_set. destruct (Z.ltb_spec from 0); [lia|]. rewrite list_lookup_insert_eq; [done|].
  pose proof (grow_length (@None nat) 32 r from ltac:(lia)). lia.
Qed.

Lemma block_remap_other r from to i : 0 <= from -> i <> from -> block_remap_get (block_remap_set r from to) i = block_remap_get r i.
Proof.
  intros Hf Hne. unfold block_remap_get, block_remap_set. destruct (Z.ltb_spec i 0); [done|]. rewrite list_lookup_insert_ne by lia.
  by destruct (grow_lookup (@None nat) 32 r from (Z.to_nat i)) as [->|[-> ->]].
Qed.

(** ** What is seen of a block *)

Definition insts_of (f : MirFunction) (x : nat) : list MirInst := match block_at f x with Some b => insts b | None => [] end.
Definition succs_of (f : MirFunction) (x : nat) : list nat := match block_at f x with Some b => successors b | None => [] end.
Definition preds_of (f : MirFunction) (x : nat) : list nat := match block_at f x with Some b => predecessors b | None => [] end.

Section update.
Context (f : MirFunction) (d : nat) (g : MirBlock -> MirBlock).

Lemma upd_length : length (blocks (upd_block f d g)) = length (blocks f).
Proof. apply length_alter. Qed.

Lemma upd_next : next_value_id (upd_block f d g) = next_value_id f.
Proof. done. Qed.

Lemma upd_same blk : block_at f d = Some blk -> block_at (upd_block f d g) d = Some (g blk).
Proof. intros H. unfold block_at, upd_block, with_blocks in *. cbn [blocks]. by rewrite list_lookup_alter_eq, H. Qed.

Lemma upd_other x : x <> d -> block_at (upd_block f d g) x = block_at f x.
Proof. intros H. unfold block_at, upd_block, with_blocks. cbn [blocks]. by rewrite list_lookup_alter_ne. Qed.

Lemma upd_keeps {A} (proj : MirBlock -> A) (dflt : A) x : (forall b, proj (g b) = proj b) ->
  match block_at (upd_block f d g) x with Some b => proj b | None => dflt end = match block_at f x with Some b => proj b | None => dflt end.
Proof.
  intros Hg. destruct (decide (x = d)) as [->|Hne]; [|by rewrite upd_other]. destruct (block_at f d) as [b|] eqn:E; [by rewrite (upd_same _ E)|].
  unfold block_at, upd_block, with_blocks in *. cbn [blocks]. by rewrite list_lookup_alter_eq, E.
Qed.
End update.

(** The lists after an edge was entered. *)
Lemma add_succ_elem b t x : x ∈ successors (mir_block_add_successor b t) <-> x ∈ successors b \/ x = t.
Proof.
  unfold mir_block_add_successor. destruct (bool_decide (t ∈ successors b)) eqn:E; [apply bool_decide_eq_true_1 in E; split; [by left|by intros [?| ->]]|].
  cbn. unfold ensure_block_array. rewrite elem_of_app, list_elem_of_singleton. done.
Qed.

Lemma add_pred_elem b s x : x ∈ predecessors (mir_block_add_predecessor b s) <-> x ∈ predecessors b \/ x = s.
Proof.
  unfold mir_block_add_predecessor. destruct (bool_decide (s ∈ predecessors b)) eqn:E; [apply bool_decide_eq_true_1 in E; split; [by left|by intros [?| ->]]|].
  cbn. unfold ensure_block_array. rewrite elem_of_app, list_elem_of_singleton. done.
Qed.

Lemma add_pred_nodup b s : NoDup (predecessors b) -> NoDup (predecessors (mir_block_add_predecessor b s)).
Proof.
  intros H. unfold mir_block_add_predecessor. destruct (bool_decide (s ∈ predecessors b)) eqn:E; [done|apply bool_decide_eq_false_1 in E]. cbn.
  apply list.NoDup_app. split_and!; [done| |by apply NoDup_singleton]. intros x Hx ->%list_elem_of_singleton. done.
Qed.

Lemma succ_insts b t : insts (mir_block_add_successor b t) = insts b.
Proof. unfold mir_block_add_successor. by destruct (bool_decide _). Qed.
Lemma succ_preds b t : predecessors (mir_block_add_successor b t) = predecessors b.
Proof. unfold mir_block_add_successor. by destruct (bool_decide _). Qed.
Lemma pred_insts b t : insts (mir_block_add_predecessor b t) = insts b.
Proof. unfold mir_block_add_predecessor. by destruct (bool_decide _). Qed.
Lemma pred_succs b t : successors (mir_block_add_predecessor b t) = successors b.
Proof. unfold mir_block_add_predecessor. by destruct (bool_decide _). Qed.

(** A change of a function: how many new values, what is appended to the block
    [d], and the edges from [d] entered in both kinds of lists. *)
Record grows (f f' : MirFunction) (d : nat) (new : list MirInst) (ts : list nat) : Prop := {
  gr_length : length (blocks f') = length (blocks f);
  gr_insts : forall x, insts_of f' x = insts_of f x ++ (if decide (x = d) then new else []);
  gr_succs : forall x t, t ∈ succs_of f' x <-> t ∈ succs_of f x \/ x = d /\ t ∈ ts;
  gr_preds : forall x s, s ∈ preds_of f' x <-> s ∈ preds_of f x \/ s = d /\ x ∈ ts;
  gr_nodup : forall x, NoDup (preds_of f x) -> NoDup (preds_of f' x);
  gr_same : forall x, x <> d -> succs_of f' x = succs_of f x
}.

Lemma succ_grows f d t : (d < length (blocks f))%nat ->
  let f' := upd_block f d (fun b => mir_block_add_successor b t) in
  length (blocks f') = length (blocks f) /\ (forall x, insts_of f' x = insts_of f x) /\ (forall x, preds_of f' x = preds_of f x) /\
  (forall x u, u ∈ succs_of f' x <-> u ∈ succs_of f x \/ x = d /\ u = t) /\ (forall x, x <> d -> succs_of f' x = succs_of f x).
Proof.
  intros Hd f'. subst f'. split_and!; [apply upd_length| | | |intros x Hx; unfold succs_of; by rewrite upd_other].
  - intros x. apply upd_keeps. intros b. apply succ_insts.
  - intros x. apply upd_keeps. intros b. apply succ_preds.
  - intros x u. unfold succs_of. destruct (lookup_lt_is_Some_2 (blocks f) d Hd) as [b Hb]. destruct (decide (x = d)) as [->|Hne].
    + rewrite (upd_same _ _ _ b Hb), add_succ_elem. unfold block_at. rewrite Hb. tauto.
    + rewrite upd_other by done. tauto.
Qed.

Lemma pred_grows f d s : (d < length (blocks f))%nat ->
  let f' := upd_block f d (fun b => mir_block_add_predecessor b s) in
  length (blocks f') = length (blocks f) /\ (forall x, insts_of f' x = insts_of f x) /\ (forall x, succs_of f' x = succs_of f x) /\
  (forall x u, u ∈ preds_of f' x <-> u ∈ preds_of f x \/ x = d /\ u = s) /\ (forall x, NoDup (preds_of f x) -> NoDup (preds_of f' x)).
Proof.
  intros Hd f'. subst f'. split_and!; [apply upd_length| | | |].
  - intros x. apply upd_keeps. intros b. apply pred_insts.
  - intros x. apply upd_keeps. intros b. apply pred_succs.
  - intros x u. unfold preds_of. destruct (lookup_lt_is_Some_2 (blocks f) d Hd) as [b Hb]. destruct (decide (x = d)) as [->|Hne].
    + rewrite (upd_same _ _ _ b Hb), add_pred_elem. unfold block_at. rewrite Hb. tauto.
    + rewrite upd_other by done. tauto.
  - intros x Hn. unfold preds_of in *. destruct (lookup_lt_is_Some_2 (blocks f) d Hd) as [b Hb]. destruct (decide (x = d)) as [->|Hne]; [|by rewrite upd_other].
    rewrite (upd_same _ _ _ b Hb). unfold block_at in Hn. rewrite Hb in Hn. by apply add_pred_nodup.
Qed.

Lemma append_grows f d i : (d < length (blocks f))%nat -> grows f (upd_block f d (fun b => mir_block_append b i)) d [i] [].
Proof.
  intros Hd. destruct (lookup_lt_is_Some_2 (blocks f) d Hd) as [b Hb]. split.
  - apply upd_length.
  - intros x. unfold insts_of. destruct (decide (x = d)) as [->|Hne]; [rewrite (upd_same _ _ _ b Hb); unfold block_at; by rewrite Hb|].
    by rewrite upd_other, app_nil_r.
  - intros x t. assert (E : succs_of (upd_block f d (fun b => mir_block_append b i)) x = succs_of f x) by (by apply upd_keeps). rewrite E.
    split; [by left|intros [?|[_ H]]; [done|inversion H]].
  - intros x t. assert (E : preds_of (upd_block f d (fun b => mir_block_append b i)) x = preds_of f x) by (by apply upd_keeps). rewrite E.
    split; [by left|intros [?|[_ H]]; [done|inversion H]].
  - intros x. assert (E : preds_of (upd_block f d (fun b => mir_block_append b i)) x = preds_of f x) by (by apply upd_keeps). by rewrite E.
  - intros x _. by apply upd_keeps.
Qed.

Lemma edge_grows f f' d i t : grows f f' d [i] [] -> (d < length (blocks f))%nat -> (t < length (blocks f))%nat -> grows f (add_edge f' d t) d [i] [t].
Proof.
  intros [Hl Hi Hs Hp Hnd Hsm] Hd Ht. unfold add_edge.
  destruct (succ_grows f' d t ltac:(lia)) as (A1 & A2 & A3 & A4 & A5). destruct (pred_grows (upd_block f' d (fun b => mir_block_add_successor b t)) t d ltac:(lia)) as (B1 & B2 & B3 & B4 & B5).
  split; [lia|intros x; by rewrite B2, A2| | |intros x Hx; by apply B5; rewrite A3; apply Hnd|intros x Hx; by rewrite B3, A5, Hsm].
  - intros x u. rewrite B3, A4, Hs, ?elem_of_cons, ?elem_of_nil. tauto.
  - intros x u. rewrite B4, A3, Hp, ?elem_of_cons, ?elem_of_nil. tauto.
Qed.

Lemma edges_grow f f' d i t e : grows f f' d [i] [] -> (d < length (blocks f))%nat -> (t < length (blocks f))%nat -> (e < length (blocks f))%nat ->
  grows f (upd_block (upd_block (upd_block (upd_block f' d (fun b => mir_block_add_successor b t)) d (fun b => mir_block_add_successor b e)) t
    (fun b => mir_block_add_predecessor b d)) e (fun b => mir_block_add_predecessor b d)) d [i] [t; e].
Proof.
  intros [Hl Hi Hs Hp Hnd Hsm] Hd Ht He. set (f1 := upd_block f' d _). set (f2 := upd_block f1 d _). set (f3 := upd_block f2 t _).
  destruct (succ_grows f' d t ltac:(lia)) as (A1 & A2 & A3 & A4 & A5). fold f1 in A1, A2, A3, A4, A5.
  destruct (succ_grows f1 d e ltac:(lia)) as (B1 & B2 & B3 & B4 & B5). fold f2 in B1, B2, B3, B4, B5.
  destruct (pred_grows f2 t d ltac:(lia)) as (C1 & C2 & C3 & C4 & C5). fold f3 in C1, C2, C3, C4, C5.
  destruct (pred_grows f3 e d ltac:(lia)) as (D1 & D2 & D3 & D4 & D5).
  split; [lia|intros x; by rewrite D2, C2, B2, A2| | |intros x Hx; by apply D5, C5; rewrite B3, A3; apply Hnd|intros x Hx; by rewrite D3, C3, B5, A5, Hsm].
  - intros x u. rewrite D3, C3, B4, A4, Hs, ?elem_of_cons, ?elem_of_nil. tauto.
  - intros x u. rewrite D4, C4, B3, A3, Hp, ?elem_of_cons, ?elem_of_nil. tauto.
Qed.

(** ** The renaming *)

Definition rename_kind (σ : MirValueId -> MirValueId) (β : nat -> nat) (k : MirInstKind) : MirInstKind :=
  let t := option_map β in
  match k with
  | BINARY op lhs rhs => BINARY op (σ lhs) (σ rhs)
  | UNARY op operand ty => UNARY op (σ operand) ty
  | LOAD ptr => LOAD (σ ptr)
  | STORE ptr value => STORE (σ ptr) (σ value)
  | GEP op base fi index => GEP op (σ base) fi (σ index)
  | BR target => BR (t target)
  | CONDBR cond a b => CONDBR (σ cond) (t a) (t b)
  | SWITCH d cases dflt => SWITCH (σ d) (map (fun c => (c.1, t c.2)) cases) (t dflt)
  | RET v => RET (σ v)
  | CALL n args callee => CALL n (map σ args) (σ callee)
  | CALL_INDIRECT n args callee => CALL_INDIRECT n (map σ args) (σ callee)
  | CALL_VIRTUAL self vi args => CALL_VIRTUAL (σ self) vi (map σ args)
  | PHI edges => PHI (map (fun e => (t e.1, σ e.2)) edges)
  | TRANSFER op source => TRANSFER op (σ source)
  | REFOP op ptr => REFOP op (σ ptr)
  | STRUCT_INIT fields => STRUCT_INIT (map σ fields)
  | EXTRACT agg i => EXTRACT (σ agg) i
  | INSERT agg i v => INSERT (σ agg) i (σ v)
  | VEC op a b c w ty => VEC op (σ a) (σ b) (σ c) w ty
  | SUSPEND r future => SUSPEND (t r) (σ future)
  | k => k
  end.

(** The instruction that stands for [i]: a return is a branch to [merge]. *)
Definition clone_of (σ : MirValueId -> MirValueId) (β : nat -> nat) (merge : nat) (i : MirInst) : MirInst :=
  match as_ i with
  | RET _ | RET_VOID => branch_to merge
  | k => mkInst (rename_kind σ β k) (σ (result i)) (type i) (src_line i) (src_col i)
  end.

Lemma clone_other σ β m i : (forall v, as_ i <> RET v) -> as_ i <> RET_VOID ->
  clone_of σ β m i = mkInst (rename_kind σ β (as_ i)) (σ (result i)) (type i) (src_line i) (src_col i).
Proof. intros H1 H2. unfold clone_of. destruct (as_ i); try done. by destruct (H1 value). Qed.

Lemma clone_return σ β m i : (exists v, as_ i = RET v) \/ as_ i = RET_VOID -> clone_of σ β m i = branch_to m.
Proof. unfold clone_of. by intros [[v ->]| ->]. Qed.

Lemma returns_or_not i : ((exists v, as_ i = RET v) \/ as_ i = RET_VOID) \/ (forall v, as_ i <> RET v) /\ as_ i <> RET_VOID.
Proof. destruct (as_ i); try (by right); left; [left; by eexists|by right]. Qed.

(** The instructions the code renames completely. *)
Definition supported (k : MirInstKind) : bool :=
  match k with
  | SWITCH _ _ _ | VEC _ _ _ _ _ _ | SUSPEND _ _ => false
  | GEP MIR_GET_FIELD_PTR _ _ index => (index =? MIR_VALUE_NONE)%N
  | CALL _ _ callee => (callee =? MIR_VALUE_NONE)%N
  | _ => true
  end.

Definition block_refs (k : MirInstKind) : list blockptr :=
  match k with
  | BR t => [t]
  | CONDBR _ a b => [a; b]
  | PHI edges => map fst edges
  | _ => []
  end.

(** Every block named is a block [b] whose clone is [β b]. *)
Definition refs_ok (callee : MirFunction) (br : list blockptr) (β : nat -> nat) (k : MirInstKind) : Prop :=
  forall r, r ∈ block_refs k -> exists b, r = Some b /\ clone_target callee br r = Ok (Some (β b)).

Lemma remap_get_none r : remap_get r MIR_VALUE_NONE = MIR_VALUE_NONE.
Proof. done. Qed.

Lemma map_ok_map {A B} (g : A -> outcome B) (h : A -> B) l : (forall x, x ∈ l -> g x = Ok (h x)) -> map_ok g l = Ok (map h l).
Proof.
  induction l as [|x l IH]; intros H; [done|]. cbn [map_ok]. rewrite H by (by apply elem_of_cons; left). cbn [obind].
  rewrite IH; [done|]. intros y Hy. apply H. by apply elem_of_cons; right.
Qed.

Lemma remap_spec callee vr br β k : supported k = true -> refs_ok callee br β k ->
  remap_operands callee vr br k = Ok (rename_kind (remap_get vr) β k).
Proof.
  intros Hs Hr. unfold refs_ok in Hr.
  assert (Ht : forall r, r ∈ block_refs k -> clone_target callee br r = Ok (option_map β r)) by (intros r Hin; destruct (Hr r Hin) as (b & -> & ->); done).
  destruct k; cbn [remap_operands rename_kind supported block_refs] in *; try done.
  - destruct op; [|done]. apply N.eqb_eq in Hs as ->. done.
  - rewrite Ht by (by apply list_elem_of_singleton). done.
  - rewrite !Ht by set_solver. done.
  - apply N.eqb_eq in Hs as ->. done.
  - rewrite (map_ok_map _ (fun e => (option_map β e.1, remap_get vr e.2))); [done|]. intros e He. rewrite Ht; [done|].
    apply list_elem_of_In, in_map, list_elem_of_In, He.
Qed.

Lemma rename_targets σ β k : targets (rename_kind σ β k) = map β (targets k).
Proof.
  destruct k; cbn; try done; rewrite ?map_app.
  - by destruct target.
  - by destruct true_bb, false_bb.
  - f_equal; [|by destruct default_bb]. induction cases as [|[z [t|]] l IH]; cbn; [done|by rewrite IH|exact IH].
  - by destruct resume_bb.
Qed.

(** Renamings that agree on the operands. *)
Lemma rename_ext σ τ β k : supported k = true -> (forall v, v ∈ inst_uses k -> σ v = τ v) -> σ 0%N = τ 0%N ->
  rename_kind σ β k = rename_kind τ β k.
Proof.
  intros Hs H H0. assert (Hm : forall l : list N, (forall v, v ∈ l -> σ v = τ v) -> map σ l = map τ l).
  { induction l as [|v l IH]; intros Hl; [done|]. cbn. rewrite Hl, IH; [done|intros; apply Hl; set_solver|set_solver]. }
  destruct k; cbn [rename_kind inst_uses supported] in *; try done; rewrite ?(H _) by set_solver; try done; try (rewrite Hm by set_solver; done).
  - f_equal. clear -H. induction edges as [|e l IH]; [done|]. cbn. rewrite H by set_solver. f_equal. apply IH. set_solver.
Qed.

(** ** One instruction *)

Definition defs (i : MirInst) : list MirValueId :=
  match as_ i with RET _ | RET_VOID => [] | _ => if (result i =? MIR_VALUE_NONE)%N then [] else [result i] end.

Definition edges_of (σ : MirValueId -> MirValueId) (d : nat) (i : MirInst) : list (blockptr * MirValueId) :=
  match as_ i with RET v => [(Some d, σ v)] | _ => [] end.

(** The front of the merge block. *)
Definition merge_front (ret_phi : bool) (phi : MirInst) (es : list (blockptr * MirValueId)) (l : list MirInst) : list MirInst :=
  if ret_phi then set_as phi (PHI es) :: l else l.

(** The change of the caller while the callee is copied. *)
Record copied (m : nat) (f f' : MirFunction) (items : list (nat * MirInst)) : Prop := {
  co_length : length (blocks f') = length (blocks f);
  co_insts : forall x, x <> m -> insts_of f' x = insts_of f x ++ omap (fun it => if decide (it.1 = x) then Some it.2 else None) items;
  co_succs : forall x t, t ∈ succs_of f' x <-> t ∈ succs_of f x \/ exists i, (x, i) ∈ items /\ t ∈ targets (as_ i);
  co_preds : forall x s, s ∈ preds_of f' x <-> s ∈ preds_of f x \/ exists i, (s, i) ∈ items /\ x ∈ targets (as_ i);
  co_nodup : forall x, NoDup (preds_of f x) -> NoDup (preds_of f' x);
  co_same : forall x, x ∉ map fst items -> succs_of f' x = succs_of f x
}.

Lemma copied_refl m f : copied m f f [].
Proof. split; [done|by intros; rewrite app_nil_r|..|done|done]; intros x t; (split; [by left|intros [?|(i & H & _)]; [done|inversion H]]). Qed.

Lemma copied_app m f1 f2 f3 l1 l2 : copied m f1 f2 l1 -> copied m f2 f3 l2 -> copied m f1 f3 (l1 ++ l2).
Proof.
  intros [A1 A2 A3 A4 A5 A6] [B1 B2 B3 B4 B5 B6]. split; [congruence|..|auto|intros x Hx; rewrite map_app, elem_of_app in Hx; rewrite B6, A6; tauto].
  - intros x Hx. by rewrite B2, A2, omap_app, app_assoc.
  - intros x t. rewrite B3, A3. setoid_rewrite elem_of_app. firstorder.
  - intros x s. rewrite B4, A4. setoid_rewrite elem_of_app. firstorder.
Qed.

Lemma copied_values m f f' l n vt : copied m (with_values f n vt) f' l -> copied m f f' l.
Proof. intros [A B C D E G]. split; assumption. Qed.

Lemma grows_copied m f f' d i ts : grows f f' d [i] ts -> targets (as_ i) = ts -> copied m f f' [(d, i)].
Proof.
  intros [A1 A2 A3 A4 A5 A6] <-. split; [done|..|done|intros x Hx; apply A6; intros ->; apply Hx; by apply list_elem_of_singleton].
  - intros x _. rewrite A2. f_equal. cbn. destruct (decide (x = d)) as [->|Hne]; [by rewrite decide_True|by rewrite decide_False].
  - intros x t. rewrite A3. split; (intros [?|H]; [by left|right]).
    + destruct H as [-> H]. exists i. split; [by apply list_elem_of_singleton|done].
    + destruct H as (j & [= -> ->]%list_elem_of_singleton & H). done.
  - intros x s. rewrite A4. split; (intros [?|H]; [by left|right]).
    + destruct H as [-> H]. exists i. split; [by apply list_elem_of_singleton|done].
    + destruct H as (j & [= -> ->]%list_elem_of_singleton & H). done.
Qed.

Lemma to_merge_copied f d m : (d < length (blocks f))%nat -> (m < length (blocks f))%nat -> copied m f (to_merge f d m) [(d, branch_to m)] /\
  next_value_id (to_merge f d m) = next_value_id f /\ (d <> m -> insts_of (to_merge f d m) m = insts_of f m).
Proof.
  intros Hd Hm. unfold to_merge. pose proof (edge_grows _ _ d (branch_to m) m (append_grows f d (branch_to m) Hd) Hd Hm) as Hg. split_and!.
  - eapply grows_copied; [exact Hg|done].
  - done.
  - intros Hne. rewrite (gr_insts _ _ _ _ _ Hg). rewrite decide_False by done. by rewrite app_nil_r.
Qed.

Lemma phi_edge_spec f m d v phi es l : insts_of f m = set_as phi (PHI es) :: l -> exists f', phi_edge f m d v = Ok f' /\
  length (blocks f') = length (blocks f) /\ next_value_id f' = next_value_id f /\
  insts_of f' m = set_as phi (PHI (es ++ [(Some d, v)])) :: l /\ (forall x, x <> m -> insts_of f' x = insts_of f x) /\
  (forall x, succs_of f' x = succs_of f x) /\ (forall x, preds_of f' x = preds_of f x).
Proof.
  intros H. unfold phi_edge, insts_of in *. destruct (block_at f m) as [b|] eqn:Eb; [|done]. cbn [of_option obind]. rewrite H. cbn.
  eexists. split; [reflexivity|]. split_and!.
  - apply upd_length.
  - done.
  - by rewrite (upd_same _ _ _ b Eb).
  - intros x Hx. by rewrite upd_other.
  - intros x. by apply upd_keeps.
  - intros x. by apply upd_keeps.
Qed.

(** A copied instruction and what is known behind it. *)
Record step_ok (m : nat) (rp : bool) (phi : MirInst) (l : list MirInst) (β : nat -> nat) (F : MirFunction) (vr : list MirValueId)
  (d : nat) (i : MirInst) (es : list (blockptr * MirValueId)) (F' : MirFunction) (vr' : list MirValueId) : Prop := {
  so_copied : copied m F F' [(d, clone_of (remap_get vr') β m i)];
  so_merge : insts_of F' m = merge_front rp phi (es ++ edges_of (remap_get vr') d i) l;
  so_next : next_value_id F' = (next_value_id F + N.of_nat (length (defs i)))%N;
  so_new : map (remap_get vr') (defs i) = map (fun _ => next_value_id F) (defs i);
  so_old : forall v, v ∉ defs i -> remap_get vr' v = remap_get vr v
}.

Section step.
Context (callee : MirFunction) (br : list blockptr) (β : nat -> nat) (m : nat) (rp : bool) (phi : MirInst) (l : list MirInst).

Lemma ret_step F vr d i es v : as_ i = RET v -> (d < length (blocks F))%nat -> (m < length (blocks F))%nat -> d <> m ->
  insts_of F m = merge_front rp phi es l ->
  exists F' vr', clone_step callee br rp m d F vr i = Ok (F', vr') /\ step_ok m rp phi l β F vr d i es F' vr'.
Proof.
  intros Ei Hd Hm Hne HF. unfold clone_step. rewrite Ei. assert (Hc : clone_of (remap_get vr) β m i = branch_to m) by (unfold clone_of; by rewrite Ei).
  assert (Hdefs : defs i = []) by (unfold defs; by rewrite Ei).
  destruct rp; cbn [merge_front] in HF.
  - destruct (phi_edge_spec F m d (remap_get vr v) phi es l HF) as (F1 & -> & A1 & A2 & A3 & A4 & A5 & A6). cbn [obind].
    destruct (to_merge_copied F1 d m ltac:(lia) ltac:(lia)) as (Hcp & Hn & Hi). eexists _, _. split; [reflexivity|]. split.
    + rewrite Hc. destruct Hcp as [C1 C2 C3 C4 C5 C6]. split; [by rewrite C1|intros x Hx; by rewrite C2, A4|..|intros x Hx; by apply C5; rewrite A6|intros x Hx; by rewrite C6, A5].
      * intros x t. by rewrite C3, A5.
      * intros x s. by rewrite C4, A6.
    + rewrite Hi by done. rewrite A3. unfold edges_of. by rewrite Ei.
    + rewrite Hn, A2, Hdefs. simpl. lia.
    + by rewrite Hdefs.
    + done.
  - cbn [obind]. destruct (to_merge_copied F d m Hd Hm) as (Hcp & Hn & Hi). eexists _, _. split; [reflexivity|]. split.
    + by rewrite Hc.
    + by rewrite Hi.
    + rewrite Hn, Hdefs. simpl. lia.
    + by rewrite Hdefs.
    + done.
Qed.

Lemma ret_void_step F vr d i es : as_ i = RET_VOID -> (d < length (blocks F))%nat -> (m < length (blocks F))%nat -> d <> m ->
  insts_of F m = merge_front rp phi es l ->
  exists F' vr', clone_step callee br rp m d F vr i = Ok (F', vr') /\ step_ok m rp phi l β F vr d i es F' vr'.
Proof.
  intros Ei Hd Hm Hne HF. unfold clone_step. rewrite Ei. assert (Hc : clone_of (remap_get vr) β m i = branch_to m) by (unfold clone_of; by rewrite Ei).
  assert (Hdefs : defs i = []) by (unfold defs; by rewrite Ei).
  destruct (to_merge_copied F d m Hd Hm) as (Hcp & Hn & Hi). eexists _, _. split; [reflexivity|]. split.
  - by rewrite Hc.
  - rewrite Hi by done. unfold edges_of. rewrite Ei, app_nil_r. done.
  - rewrite Hn, Hdefs. simpl. lia.
  - by rewrite Hdefs.
  - done.
Qed.

Lemma clone_inst_spec F vr i : (0 < next_value_id F)%N -> supported (as_ i) = true -> refs_ok callee br β (as_ i) -> (forall v, as_ i <> RET v) -> as_ i <> RET_VOID ->
  exists n vt vr', clone_inst F callee vr br i = Ok (with_values F n vt, vr', clone_of (remap_get vr') β m i) /\
    n = (next_value_id F + N.of_nat (length (defs i)))%N /\ map (remap_get vr') (defs i) = map (fun _ => next_value_id F) (defs i) /\
    (forall v, v ∉ defs i -> remap_get vr' v = remap_get vr v).
Proof.
  intros Hn Hs Hr H1 H2. unfold clone_inst.
  assert (Hdefs : defs i = if (result i =? 0)%N then [] else [result i]) by (unfold defs; destruct (as_ i); try done; by destruct (H1 value)).
  assert (Hcl : forall r, clone_of r β m i = mkInst (rename_kind r β (as_ i)) (r (result i)) (type i) (src_line i) (src_col i))
    by (intros r; unfold clone_of; destruct (as_ i); try done; by destruct (H1 value)).
  destruct (N.eqb_spec (result i) 0) as [E|E].
  - rewrite (remap_spec _ _ _ β _ Hs Hr). cbn [obind]. exists (next_value_id F), (value_types F), vr. rewrite Hcl, Hdefs, E, remap_get_none.
    split; [by destruct F|]. split; [simpl; lia|]. done.
  - unfold mir_function_new_value. cbn [fst snd]. rewrite (remap_spec _ _ _ β _ Hs Hr). cbn [obind].
    eexists _, _, (remap_set vr (result i) (next_value_id F)). rewrite Hcl, Hdefs.
    rewrite remap_get_same by lia. split; [reflexivity|]. split; [simpl; lia|]. simpl. rewrite remap_get_same by lia. split; [done|].
    intros v Hv. apply remap_get_other. intros ->. apply Hv. by apply list_elem_of_singleton.
Qed.

Lemma other_step F vr d i es : (0 < next_value_id F)%N -> supported (as_ i) = true -> refs_ok callee br β (as_ i) -> (forall v, as_ i <> RET v) -> as_ i <> RET_VOID ->
  (d < length (blocks F))%nat -> d <> m -> insts_of F m = merge_front rp phi es l -> (forall t, t ∈ targets (as_ i) -> (β t < length (blocks F))%nat) ->
  exists F' vr', clone_step callee br rp m d F vr i = Ok (F', vr') /\ step_ok m rp phi l β F vr d i es F' vr'.
Proof.
  intros Hn Hs Hr H1 H2 Hd Hne HF Ht. destruct (clone_inst_spec F vr i Hn Hs Hr H1 H2) as (n & vt & vr' & Hcl & Hnx & Hnew & Hold).
  assert (Hti : targets (as_ (clone_of (remap_get vr') β m i)) = map β (targets (as_ i)))
    by (rewrite <- (rename_targets (remap_get vr')); unfold clone_of; destruct (as_ i); try done; by destruct (H1 value)).
  set (new := clone_of (remap_get vr') β m i) in *. set (F1 := upd_block (with_values F n vt) d (fun b => mir_block_append b new)).
  assert (Happ : grows F F1 d [new] []) by (destruct (append_grows (with_values F n vt) d new Hd); by split).
  assert (Hdone : forall F' ts, grows F F' d [new] ts -> targets (as_ new) = ts -> next_value_id F' = n -> step_ok m rp phi l β F vr d i es F' vr').
  { intros F' ts Hg Hts HnF. split; [by eapply grows_copied| |by rewrite HnF|done|done].
    rewrite (gr_insts _ _ _ _ _ Hg), decide_False by done. rewrite app_nil_r, HF. unfold edges_of.
    destruct (as_ i); rewrite ?app_nil_r; try done. by destruct (H1 value). }
  assert (Hlt : forall t, t ∈ targets (as_ new) -> (t < length (blocks F))%nat).
  { intros t Hin. rewrite Hti in Hin. apply list_elem_of_In, in_map_iff in Hin as (t' & <- & Hin). apply Ht, list_elem_of_In, Hin. }
  assert (Hkind : as_ new = rename_kind (remap_get vr') β (as_ i)) by (subst new; unfold clone_of; destruct (as_ i); try done; by destruct (H1 value)).
  exists (match as_ new with
          | BR (Some t) => add_edge F1 d t
          | CONDBR _ (Some t) (Some e) => upd_block (upd_block (upd_block (upd_block F1 d (fun b => mir_block_add_successor b t)) d
              (fun b => mir_block_add_successor b e)) t (fun b => mir_block_add_predecessor b d)) e (fun b => mir_block_add_predecessor b d)
          | _ => F1 end), vr'.
  unfold clone_step. rewrite Hcl. cbn [obind]. fold F1. fold new.
  unfold refs_ok in Hr. rewrite Hkind in Hlt, Hdone |- *. clear Hkind Hcl. destruct (as_ i) eqn:Ei; cbn [rename_kind] in *; try done;
    try (split; [reflexivity|by apply (Hdone _ [])]); try (by destruct (H1 value)).
  - destruct (Hr target) as (b & -> & _); [by apply list_elem_of_singleton|]. cbn. split; [reflexivity|]. apply (Hdone _ [β b]); [|done..].
    apply edge_grows; [done..|]. apply Hlt. by apply list_elem_of_singleton.
  - destruct (Hr true_bb) as (a & -> & _); [set_solver|]. destruct (Hr false_bb) as (b & -> & _); [set_solver|]. cbn. split; [reflexivity|].
    apply (Hdone _ [β a; β b]); [|done..]. cbn in Hlt. apply edges_grow; [done..| |]; apply Hlt; set_solver.
Qed.
End step.

(** ** The whole body *)

Fixpoint clone_flat (callee : MirFunction) (br : list blockptr) (rp : bool) (m : nat) (items : list (nat * MirInst)) (F : MirFunction) (vr : list MirValueId)
  : outcome (MirFunction * list MirValueId) :=
  match items with
  | [] => Ok (F, vr)
  | it :: items => let! r := clone_step callee br rp m it.1 F vr it.2 in clone_flat callee br rp m items r.1 r.2
  end.

Definition items_of (callee : MirFunction) (β : nat -> nat) (bl : list nat) : list (nat * MirInst) :=
  concat (map (fun b => map (pair (β b)) (insts_of callee b)) bl).

Lemma clone_flat_app callee br rp m l1 : forall l2 F vr, clone_flat callee br rp m (l1 ++ l2) F vr =
  let! r := clone_flat callee br rp m l1 F vr in clone_flat callee br rp m l2 r.1 r.2.
Proof. induction l1 as [|it l1 IH]; intros l2 F vr; [done|]. cbn [app clone_flat]. destruct (clone_step _ _ _ _ _ _ _ _); [|done..]. cbn [obind]. apply IH. Qed.

Lemma clone_insts_flat callee br rp m d l : forall F vr, clone_insts callee br rp m d l F vr = clone_flat callee br rp m (map (pair d) l) F vr.
Proof. induction l as [|i l IH]; intros F vr; [done|]. cbn. destruct (clone_step _ _ _ _ _ _ _ _); [|done..]. cbn [obind]. apply IH. Qed.

Lemma clone_blocks_flat callee br β rp m bl : (forall b, b ∈ bl -> exists blk, block_at callee b = Some blk /\ block_remap_get br (id blk) = Some (β b)) ->
  forall F vr, clone_blocks callee br rp m bl F vr = clone_flat callee br rp m (items_of callee β bl) F vr.
Proof.
  induction bl as [|b bl IH]; intros H F vr; [done|]. cbn [clone_blocks]. destruct (H b) as (blk & Hb & Hr); [by apply elem_of_cons; left|].
  rewrite Hb. cbn [of_option obind]. rewrite Hr. unfold items_of. cbn [map concat]. fold (items_of callee β bl). rewrite clone_flat_app, clone_insts_flat.
  unfold insts_of. rewrite Hb. destruct (clone_flat _ _ _ _ _ F vr); [|done..]. cbn [obind]. apply IH. intros c Hc. apply H. by apply elem_of_cons; right.
Qed.

(** Every operand is a value of [D] or defined by an earlier instruction. *)
Fixpoint ordered (D : list MirValueId) (l : list MirInst) : Prop :=
  match l with
  | [] => True
  | i :: l => (forall v, v ∈ inst_uses (as_ i) -> v = MIR_VALUE_NONE \/ v ∈ D) /\ (forall v, v ∈ defs i -> v ∉ D) /\ ordered (defs i ++ D) l
  end.

Lemma ordered_defs D l : ordered D l -> forall v, v ∈ D -> v ∉ concat (map defs l).
Proof.
  revert D. induction l as [|i l IH]; intros D H v Hv; [apply not_elem_of_nil|]. destruct H as (_ & H2 & H3). cbn. rewrite elem_of_app.
  intros [Hin|Hin]; [by apply (H2 v)|]. apply (IH _ H3 v); [|done]. apply elem_of_app. by right.
Qed.

Record body_ok (m : nat) (rp : bool) (phi : MirInst) (l : list MirInst) (β : nat -> nat) (F : MirFunction) (vr : list MirValueId)
  (items : list (nat * MirInst)) (es : list (blockptr * MirValueId)) (F' : MirFunction) (vr' : list MirValueId) : Prop := {
  bo_copied : copied m F F' (map (fun it => (it.1, clone_of (remap_get vr') β m it.2)) items);
  bo_merge : insts_of F' m = merge_front rp phi (es ++ concat (map (fun it => edges_of (remap_get vr') it.1 it.2) items)) l;
  bo_next : next_value_id F' = (next_value_id F + N.of_nat (length (concat (map (fun it => defs it.2) items))))%N;
  bo_new : map (remap_get vr') (concat (map (fun it => defs it.2) items)) =
    map N.of_nat (seq (N.to_nat (next_value_id F)) (length (concat (map (fun it => defs it.2) items))));
  bo_old : forall v, v ∉ concat (map (fun it => defs it.2) items) -> remap_get vr' v = remap_get vr v
}.

Definition item_ok (callee : MirFunction) (br : list blockptr) (β : nat -> nat) (m n : nat) (it : nat * MirInst) : Prop :=
  supported (as_ it.2) = true /\ refs_ok callee br β (as_ it.2) /\ (it.1 < n)%nat /\ it.1 <> m /\ (forall t, t ∈ targets (as_ it.2) -> (β t < n)%nat).

Lemma clone_ext σ τ β m i : supported (as_ i) = true -> (forall v, v ∈ inst_uses (as_ i) -> σ v = τ v) -> (forall v, v ∈ defs i -> σ v = τ v) -> σ 0%N = τ 0%N ->
  clone_of σ β m i = clone_of τ β m i /\ forall d, edges_of σ d i = edges_of τ d i.
Proof.
  intros Hs Hu Hd H0. split.
  - assert (Hr : (forall v, as_ i <> RET v) -> as_ i <> RET_VOID -> σ (result i) = τ (result i)).
    { intros H1 H2. destruct (N.eqb_spec (result i) 0) as [->|E]; [done|]. apply Hd. unfold defs.
      destruct (N.eqb_spec (result i) 0); [done|]. destruct (as_ i); try (by apply list_elem_of_singleton); [by destruct (H1 value)|done]. }
    destruct (returns_or_not i) as [H|[H1 H2]]; [by rewrite !clone_return|]. by rewrite !clone_other, (rename_ext σ τ β (as_ i) Hs Hu H0), Hr.
  - intros d. unfold edges_of. destruct (as_ i); try done. by rewrite Hu by (by apply list_elem_of_singleton).
Qed.

Lemma clone_step_ok callee br β m rp phi l F vr it es : (0 < next_value_id F)%N -> (m < length (blocks F))%nat ->
  item_ok callee br β m (length (blocks F)) it -> insts_of F m = merge_front rp phi es l ->
  exists F' vr', clone_step callee br rp m it.1 F vr it.2 = Ok (F', vr') /\ step_ok m rp phi l β F vr it.1 it.2 es F' vr'.
Proof.
  intros Hn Hm (Hs & Hr & Hd & Hne & Ht) HF. destruct (as_ it.2) eqn:Ei; try (apply other_step; rewrite ?Ei; done).
  - by eapply ret_step.
  - by eapply ret_void_step.
Qed.

Lemma clone_flat_ok callee br β m rp phi l items : forall F vr es D,
  (0 < next_value_id F)%N -> (m < length (blocks F))%nat -> (forall it, it ∈ items -> item_ok callee br β m (length (blocks F)) it) ->
  ordered D (map snd items) -> insts_of F m = merge_front rp phi es l ->
  exists F' vr', clone_flat callee br rp m items F vr = Ok (F', vr') /\ body_ok m rp phi l β F vr items es F' vr'.
Proof.
  induction items as [|it items IH]; intros F vr es D Hn Hm Hit Hord HF.
  - exists F, vr. split; [done|]. split; cbn; rewrite ?app_nil_r; try done; [apply copied_refl|lia].
  - destruct (clone_step_ok callee br β m rp phi l F vr it es) as (F1 & vr1 & E1 & [S1 S2 S3 S4 S5]); [done|done|apply Hit; by apply elem_of_cons; left|done|].
    cbn [clone_flat]. rewrite E1. cbn [obind fst snd]. destruct Hord as (O1 & O2 & O3). pose proof (co_length _ _ _ _ S1) as Hlen.
    destruct (IH F1 vr1 (es ++ edges_of (remap_get vr1) it.1 it.2) (defs it.2 ++ D)) as (F' & vr' & E' & [B1 B2 B3 B4 B5]); [lia|lia| |done|done|].
    { intros it' H'. rewrite Hlen. apply Hit. by apply elem_of_cons; right. }
    assert (Hag : forall v, v ∈ defs it.2 ++ D -> remap_get vr' v = remap_get vr1 v).
    { intros v Hv. apply B5. pose proof (ordered_defs _ _ O3 v Hv) as Hx. by rewrite map_map in Hx. }
    destruct (clone_ext (remap_get vr1) (remap_get vr') β m it.2) as [Hc He].
    { apply Hit. by apply elem_of_cons; left. }
    { intros v Hv. destruct (O1 v Hv) as [->|HvD]; [done|]. symmetry. apply Hag, elem_of_app. by right. }
    { intros v Hv. symmetry. apply Hag, elem_of_app. by left. }
    { done. }
    exists F', vr'. split; [done|]. split.
    + cbn [map]. rewrite <- Hc. apply (copied_app m F F1 F' [_]); done.
    + rewrite B2. cbn [map concat]. by rewrite He, app_assoc.
    + rewrite B3, S3. cbn [map concat]. rewrite length_app. lia.
    + cbn [map concat]. rewrite map_app, B4, S3, length_app, seq_app, map_app.
      assert (Hd1 : map (remap_get vr') (defs it.2) = map N.of_nat (seq (N.to_nat (next_value_id F)) (length (defs it.2)))).
      { rewrite <- (map_ext_in (remap_get vr1)); [|intros v Hv; symmetry; apply Hag, elem_of_app; left; by apply list_elem_of_In].
        rewrite S4. unfold defs. destruct (as_ it.2); try done; destruct (_ =? _)%N; try done; cbn; f_equal; lia. }
      rewrite Hd1. do 3 f_equal; lia.
    + intros v Hv. cbn [map concat] in Hv. rewrite elem_of_app in Hv. rewrite B5 by tauto. apply S5. tauto.
Qed.

(** ** The blocks of the clone *)

(** Nothing is seen of a new block yet. *)
Record same_view (f f' : MirFunction) : Prop := {
  sv_insts : forall x, insts_of f' x = insts_of f x;
  sv_succs : forall x, succs_of f' x = succs_of f x;
  sv_preds : forall x, preds_of f' x = preds_of f x;
  sv_next : next_value_id f' = next_value_id f
}.

Lemma add_block_view f lbl : same_view f (mir_function_add_block f lbl).1 /\ length (blocks (mir_function_add_block f lbl).1) = S (length (blocks f)) /\
  (mir_function_add_block f lbl).2 = length (blocks f).
Proof.
  assert (H : forall {A} (proj : MirBlock -> A) (dflt : A) x, proj (new_block f lbl) = dflt ->
    match block_at (mir_function_add_block f lbl).1 x with Some b => proj b | None => dflt end = match block_at f x with Some b => proj b | None => dflt end).
  { intros A proj dflt x Hp. unfold block_at, mir_function_add_block. cbn [fst blocks with_cfg]. destruct (decide (x < length (blocks f))%nat) as [Hlt|Hge].
    - by rewrite lookup_app_l.
    - rewrite (lookup_ge_None_2 (blocks f)) by lia. destruct ((blocks f ++ [new_block f lbl]) !! x) as [b|] eqn:E; [|done].
      apply lookup_app_Some in E as [E|[_ E]]; [apply lookup_lt_Some in E; lia|]. by apply list_lookup_singleton_Some in E as [_ <-]. }
  split; [split; [by intros; apply H..|done]|]. split; [|done]. unfold mir_function_add_block. cbn. rewrite length_app. simpl. lia.
Qed.

Lemma same_view_trans f1 f2 f3 : same_view f1 f2 -> same_view f2 f3 -> same_view f1 f3.
Proof. intros [A1 A2 A3 A4] [B1 B2 B3 B4]. split; congruence. Qed.

Lemma add_clones_spec callee bl : forall f br,
  (forall b, b ∈ bl -> exists blk, block_at callee b = Some blk /\ 0 <= id blk) ->
  NoDup (omap (fun b => option_map id (block_at callee b)) bl) ->
  exists f' br', add_clones callee bl f br = Ok (f', br') /\ same_view f f' /\ length (blocks f') = (length (blocks f) + length bl)%nat /\
  (forall k b blk, bl !! k = Some b -> block_at callee b = Some blk -> block_remap_get br' (id blk) = Some (length (blocks f) + k)%nat) /\
  (forall i, i ∉ omap (fun b => option_map id (block_at callee b)) bl -> block_remap_get br' i = block_remap_get br i).
Proof.
  induction bl as [|b bl IH]; intros f br Hb Hn.
  - exists f, br. split; [done|]. split; [by split|]. split; [simpl; lia|]. done.
  - destruct (Hb b) as (blk & Eb & Hid); [by apply elem_of_cons; left|]. cbn [add_clones]. rewrite Eb. cbn [of_option obind].
    destruct (add_block_view f (inline_label (f_name callee) (label blk))) as (V1 & V2 & V3).
    destruct (mir_function_add_block f (inline_label (f_name callee) (label blk))) as [f1 x]. cbn [fst snd] in *. subst x.
    cbn [omap list_omap option_map] in Hn. rewrite Eb in Hn. cbn in Hn. apply list.NoDup_cons in Hn as [Hnew Hn].
    destruct (IH f1 (block_remap_set br (id blk) (length (blocks f)))) as (f' & br' & E & V & L & R1 & R2); [intros; apply Hb; by apply elem_of_cons; right|done|].
    exists f', br'. split; [done|]. split; [by eapply same_view_trans|]. split; [rewrite L, V2; simpl; lia|]. split.
    + intros [|k] c cblk Hk Hc; simpl in Hk.
      * injection Hk as <-. rewrite Eb in Hc. injection Hc as <-. rewrite R2 by done. rewrite block_remap_same by done. f_equal. lia.
      * rewrite (R1 k c cblk Hk Hc), V2. f_equal. lia.
    + intros i Hi. cbn [omap list_omap] in Hi. rewrite Eb in Hi. cbn in Hi. rewrite R2 by (intros Hx; apply Hi; by apply elem_of_cons; right).
      apply block_remap_other; [done|]. intros ->. apply Hi. by apply elem_of_cons; left.
Qed.

(** ** The parameters *)

Lemma map_params_spec ps : forall args vr, NoDup (map p_value_id ps) -> (forall p, p ∈ ps -> p_value_id p <> MIR_VALUE_NONE) ->
  length args = length ps -> (forall a, a ∈ args -> a <> MIR_VALUE_NONE) ->
  map (remap_get (map_params ps args vr)) (map p_value_id ps) = args /\
  forall v, v ∉ map p_value_id ps -> remap_get (map_params ps args vr) v = remap_get vr v.
Proof.
  induction ps as [|p ps IH]; intros [|a args] vr Hn Hp Hl Ha; try done. cbn [map] in *. apply list.NoDup_cons in Hn as [Hnew Hn]. injection Hl as Hl.
  destruct (IH args (remap_set vr (p_value_id p) a)) as [I1 I2]; [done|intros; apply Hp; by apply elem_of_cons; right|done|intros; apply Ha; by apply elem_of_cons; right|].
  cbn [map_params list.tail hd]. split.
  - f_equal; [|done]. rewrite I2 by done. apply remap_get_same; [apply Hp|apply Ha]; by apply elem_of_cons; left.
  - intros v Hv. rewrite I2 by (intros Hx; apply Hv; by apply elem_of_cons; right). apply remap_get_other. intros ->. apply Hv. by apply elem_of_cons; left.
Qed.

(** ** Moving the edges of the call's block *)

Lemma replace_first_elem c m l : c <> m -> NoDup l -> forall x, x ∈ replace_first c m l <-> x ∈ l /\ x <> c \/ x = m /\ c ∈ l \/ x ∈ l /\ x = m.
Proof.
  intros Hcm. induction l as [|y l IH]; intros Hn x; cbn [replace_first]; [rewrite !elem_of_nil; tauto|]. apply list.NoDup_cons in Hn as [Hy Hn].
  destruct (Nat.eqb_spec y c) as [->|Hne]; rewrite !elem_of_cons; [|rewrite (IH Hn)].
  - split.
    + intros [->|Hx]; [tauto|]. left. split; [tauto|]. by intros ->.
    + intros [[[->|?] ?]|[[-> ?]|[_ ->]]]; tauto.
  - split.
    + intros [->|[[? ?]|[[? ?]|[? ?]]]]; tauto.
    + intros [[[?|?] ?]|[[? [?|?]]|[[?|?] ?]]]; subst; tauto.
Qed.

Lemma redirect_twice c m l : c <> m -> redirect_phis c m (redirect_phis c m l) = redirect_phis c m l.
Proof.
  intros Hcm. induction l as [|i l IH]; [done|]. cbn [redirect_phis]. destruct (as_ i) eqn:E; try (cbn [redirect_phis]; by rewrite E).
  cbn [redirect_phis set_as as_]. rewrite IH. f_equal. unfold set_as. cbn. f_equal. f_equal. rewrite map_map. apply map_ext. intros [b v]. cbn.
  destruct (bool_decide (b = Some c)) eqn:Eb; [|by rewrite Eb]. rewrite bool_decide_false; [done|]. congruence.
Qed.

Lemma redirect_targets c m l : map (fun i => targets (as_ i)) (redirect_phis c m l) = map (fun i => targets (as_ i)) l.
Proof. induction l as [|i l IH]; [done|]. cbn [redirect_phis]. destruct (as_ i) eqn:E; try done. cbn. by rewrite IH, E. Qed.

Lemma move_edge_spec c m F s : c <> m -> (s < length (blocks F))%nat -> (m < length (blocks F))%nat -> NoDup (preds_of F s) ->
  let F' := move_edge c m F s in
  length (blocks F') = length (blocks F) /\ next_value_id F' = next_value_id F /\
  (forall x, insts_of F' x = if decide (x = s) then redirect_phis c m (insts_of F x) else insts_of F x) /\
  (forall x t, t ∈ succs_of F' x <-> t ∈ succs_of F x \/ x = m /\ t = s) /\
  (forall x, x <> m -> succs_of F' x = succs_of F x) /\
  (forall x, x <> s -> preds_of F' x = preds_of F x) /\
  (forall p, p ∈ preds_of F' s <-> p ∈ preds_of F s /\ p <> c \/ p = m /\ c ∈ preds_of F s \/ p ∈ preds_of F s /\ p = m).
Proof.
  intros Hcm Hs Hm Hnd F'. subst F'. unfold move_edge.
  set (F1 := upd_block F s _). destruct (succ_grows F1 m s ltac:(subst F1; rewrite upd_length; done)) as (A1 & A2 & A3 & A4 & A5). fold F1 in A1, A2, A3, A4, A5.
  destruct (lookup_lt_is_Some_2 (blocks F) s Hs) as [b Hb].
  assert (Hsuc : forall x, succs_of F1 x = succs_of F x) by (intros x; by apply upd_keeps).
  split_and!.
  - rewrite A1. apply upd_length.
  - done.
  - intros x. rewrite A2. unfold insts_of, F1. destruct (decide (x = s)) as [->|Hne]; [|by rewrite upd_other].
    rewrite (upd_same _ _ _ b Hb). unfold block_at. by rewrite Hb.
  - intros x t. by rewrite A4, Hsuc.
  - intros x Hx. by rewrite A5, Hsuc.
  - intros x Hx. rewrite A3. unfold preds_of, F1. by rewrite upd_other.
  - intros p. rewrite A3. unfold preds_of, F1 in *. rewrite (upd_same _ _ _ b Hb). unfold block_at in *. rewrite Hb in *. cbn. by apply replace_first_elem.
Qed.

Lemma moves_spec c m L : forall F, c <> m -> (m < length (blocks F))%nat -> NoDup L -> (forall s, s ∈ L -> (s < length (blocks F))%nat /\ NoDup (preds_of F s)) ->
  let F' := fold_left (move_edge c m) L F in
  length (blocks F') = length (blocks F) /\ next_value_id F' = next_value_id F /\
  (forall x, insts_of F' x = if decide (x ∈ L) then redirect_phis c m (insts_of F x) else insts_of F x) /\
  (forall x t, t ∈ succs_of F' x <-> t ∈ succs_of F x \/ x = m /\ t ∈ L) /\
  (forall x, x <> m -> succs_of F' x = succs_of F x) /\
  (forall x, x ∉ L -> preds_of F' x = preds_of F x) /\
  (forall x p, x ∈ L -> p ∈ preds_of F' x <-> p ∈ preds_of F x /\ p <> c \/ p = m /\ c ∈ preds_of F x \/ p ∈ preds_of F x /\ p = m).
Proof.
  induction L as [|s L IH]; intros F Hcm Hm Hn HL.
  - cbn. split_and!; try done; [|intros x p H; inversion H]. intros x t. split; [by left|intros [?|[_ H]]; [done|inversion H]].
  - apply list.NoDup_cons in Hn as [Hs Hn]. destruct (HL s) as [Hlt Hnd]; [by apply elem_of_cons; left|].
    destruct (move_edge_spec c m F s Hcm Hlt Hm Hnd) as (A1 & A2 & A3 & A4 & A5 & A6 & A7).
    destruct (IH (move_edge c m F s)) as (B1 & B2 & B3 & B4 & B5 & B6 & B7); [done|by rewrite A1|done| |].
    { intros x Hx. rewrite A1, A6 by (by intros ->). apply HL. by apply elem_of_cons; right. }
    cbn [fold_left]. split_and!; [by rewrite B1|by rewrite B2|..].
    + intros x. rewrite B3, A3. destruct (decide (x = s)) as [->|Hne]; [by rewrite decide_False, decide_True by (first [done|apply elem_of_cons; by left])|].
      destruct (decide (x ∈ L)); [by rewrite decide_True by (by apply elem_of_cons; right)|]. rewrite decide_False; [done|]. by intros [?|?]%elem_of_cons.
    + intros x t. rewrite B4, A4, elem_of_cons. tauto.
    + intros x Hx. by rewrite B5, A5.
    + intros x Hx. apply not_elem_of_cons in Hx as [Hxs HxL]. rewrite (B6 x HxL). by apply A6.
    + intros x p [->|Hx]%elem_of_cons.
      * rewrite B6 by done. apply A7.
      * rewrite (B7 x p Hx). by rewrite (A6 x) by (by intros ->).
Qed.

(** ** The parts of one call *)

Lemma split_spec f c pos blk : block_at f c = Some blk -> exists f', split_at_call f c pos blk = (f', length (blocks f)) /\
  length (blocks f') = S (length (blocks f)) /\ next_value_id f' = next_value_id f /\
  (forall x, insts_of f' x = if decide (x = length (blocks f)) then drop (S pos) (insts blk)
     else if decide (x = c) then take (S pos) (insts blk) else insts_of f x) /\
  (forall x, succs_of f' x = succs_of f x) /\ (forall x, preds_of f' x = preds_of f x).
Proof.
  intros Hb. pose proof (lookup_lt_Some _ _ _ Hb) as Hc. unfold split_at_call.
  destruct (add_block_view f "inline.merge") as ([V1 V2 V3 V4] & Vl & Vm).
  destruct (mir_function_add_block f "inline.merge") as [f1 m]. cbn [fst snd] in *. subst m. set (m := length (blocks f)) in *.
  assert (Hnil : insts_of f m = []) by (unfold insts_of, block_at; by rewrite lookup_ge_None_2).
  assert (Hcb : insts_of f c = insts blk) by (unfold insts_of; by rewrite Hb).
  destruct (drop (S pos) (insts blk)) as [|i post] eqn:Ep.
  - exists f1. split_and!; [done|lia|done| |done..]. intros x. rewrite V1. destruct (decide (x = m)) as [->|]; [done|].
    destruct (decide (x = c)) as [->|]; [|done]. rewrite Hcb. symmetry. apply take_ge.
    assert (Hl : length (drop (S pos) (insts blk)) = 0%nat) by (by rewrite Ep). rewrite length_drop in Hl. lia.
  - eexists. split_and!; [reflexivity|by rewrite !upd_length| done| | |].
    + destruct (lookup_lt_is_Some_2 (blocks f1) m) as [mb Hmb]; [lia|]. destruct (lookup_lt_is_Some_2 (blocks f1) c) as [cb Hcb1]; [lia|].
      intros x. unfold insts_of at 1. destruct (decide (x = c)) as [->|Hxc].
      * rewrite decide_False by lia. erewrite upd_same; [|rewrite upd_other by lia; exact Hcb1]. cbn. f_equal.
        specialize (V1 c). unfold insts_of in V1. unfold block_at in V1, Hb. rewrite Hcb1, Hb in V1. done.
      * rewrite upd_other by done. destruct (decide (x = m)) as [->|Hxm]; [by rewrite (upd_same _ _ _ mb Hmb)|]. rewrite upd_other by done. apply V1.
    + intros x. rewrite <- V2. etransitivity; by apply upd_keeps.
    + intros x. rewrite <- V3. etransitivity; by apply upd_keeps.
Qed.

Lemma enter_spec F c pos m e : c <> m -> (c < length (blocks F))%nat -> (m < length (blocks F))%nat -> (e < length (blocks F))%nat -> e <> c -> e <> m ->
  NoDup (succs_of F c) -> (forall s, s ∈ succs_of F c -> (s < length (blocks F))%nat /\ s <> e) -> (forall x, NoDup (preds_of F x)) -> succs_of F m = [] ->
  exists F', enter_inlined F c pos m e = Ok F' /\ length (blocks F') = length (blocks F) /\ next_value_id F' = next_value_id F /\
  (forall x, insts_of F' x = let l := if decide (x = c) then take pos (insts_of F c) ++ [branch_to e] else insts_of F x in
     if decide (x ∈ succs_of F c) then redirect_phis c m l else l) /\
  (forall x t, t ∈ succs_of F' x <-> if decide (x = c) then t = e else if decide (x = m) then t ∈ succs_of F c else t ∈ succs_of F x) /\
  (forall x p, p ∈ preds_of F' x <-> (if decide (x ∈ succs_of F c) then p ∈ preds_of F x /\ p <> c \/ p = m /\ c ∈ preds_of F x \/ p ∈ preds_of F x /\ p = m
     else p ∈ preds_of F x) \/ x = e /\ p = c).
Proof.
  intros Hcm Hc Hm He Hec Hem Hnd Hs Hnp Hsm. unfold enter_inlined. set (F1 := upd_block F c _). set (F2 := upd_block F1 c _).
  destruct (lookup_lt_is_Some_2 (blocks F) c Hc) as [cb Hcb]. assert (Hcb' : insts_of F c = insts cb) by (unfold insts_of, block_at; by rewrite Hcb).
  assert (E1 : block_at F1 c = Some (with_insts cb (take pos (insts cb)) (inst_count cb - 1))) by exact (upd_same _ _ _ cb Hcb).
  assert (E2 : block_at F2 c = Some (mir_block_append (with_insts cb (take pos (insts cb)) (inst_count cb - 1)) (branch_to e))) by exact (upd_same _ _ _ _ E1).
  assert (L2 : length (blocks F2) = length (blocks F)) by (unfold F2, F1; by rewrite !upd_length).
  assert (S2 : forall x, succs_of F2 x = succs_of F x) by (intros x; etransitivity; by apply upd_keeps).
  assert (P2 : forall x, preds_of F2 x = preds_of F x) by (intros x; etransitivity; by apply upd_keeps).
  assert (I2 : forall x, insts_of F2 x = if decide (x = c) then take pos (insts_of F c) ++ [branch_to e] else insts_of F x).
  { intros x. destruct (decide (x = c)) as [->|Hx]; [unfold insts_of at 1; rewrite E2; cbn; by rewrite Hcb'|]. unfold insts_of. unfold F2, F1. by rewrite !upd_other. }
  rewrite E2. cbn [of_option obind]. assert (Hsc : successors (mir_block_append (with_insts cb (take pos (insts cb)) (inst_count cb - 1)) (branch_to e)) = succs_of F c)
    by (unfold succs_of, block_at; by rewrite Hcb). rewrite Hsc.
  destruct (moves_spec c m (succs_of F c) F2 Hcm) as (M1 & M2 & M3 & M4 & M5 & M6 & M7); [lia|done|intros s Hin; rewrite L2, P2; split; [by apply Hs|done]|].
  set (F3 := fold_left (move_edge c m) (succs_of F c) F2) in *. set (F4 := upd_block F3 c (fun b => with_succs b [])).
  assert (L4 : length (blocks F4) = length (blocks F)) by (unfold F4; rewrite upd_length; lia).
  assert (I4 : forall x, insts_of F4 x = insts_of F3 x) by (intros; by apply upd_keeps).
  assert (P4 : forall x, preds_of F4 x = preds_of F3 x) by (intros; by apply upd_keeps).
  assert (S4 : forall x, succs_of F4 x = if decide (x = c) then [] else succs_of F3 x).
  { intros x. destruct (lookup_lt_is_Some_2 (blocks F3) c) as [b3 Hb3]; [lia|]. unfold succs_of, F4. destruct (decide (x = c)) as [->|]; [by rewrite (upd_same _ _ _ b3 Hb3)|].
    by rewrite upd_other. }
  eexists. split; [reflexivity|]. unfold add_edge.
  destruct (succ_grows F4 c e) as (A1 & A2 & A3 & A4 & A5); [lia|]. destruct (pred_grows (upd_block F4 c (fun b => mir_block_add_successor b e)) e c) as (B1 & B2 & B3 & B4 & B5); [lia|].
  split_and!; [lia|exact M2| | |].
  - intros x. rewrite B2, A2, I4, M3, I2. done.
  - intros x t. rewrite B3, A4, S4. destruct (decide (x = c)) as [->|Hx]; [split; [intros [H|[_ H]]; [inversion H|done]|by right]|].
    rewrite M4, S2. destruct (decide (x = m)) as [->|Hxm]; [rewrite Hsm|]; split; try tauto. intros [[H|[_ H]]|[H _]]; [inversion H|done..].
  - intros x p. rewrite B4, A3, P4. destruct (decide (x ∈ succs_of F c)) as [Hin|Hout]; [rewrite (M7 x p Hin), P2; tauto|]. rewrite M6, P2 by done. tauto.
Qed.

Lemma close_spec F m phi l : insts_of F m = phi :: l -> (exists es, as_ phi = PHI es) -> exists F', close_phi F m = Ok F' /\
  length (blocks F') = length (blocks F) /\ next_value_id F' = next_value_id F /\ (forall x, succs_of F' x = succs_of F x) /\ (forall x, preds_of F' x = preds_of F x) /\
  (forall x, insts_of F' x = if decide (x = m) then (match as_ phi with PHI [] => mkInst UNREACHABLE MIR_VALUE_NONE (type phi) (src_line phi) (src_col phi) | _ => phi end) :: l else insts_of F x).
Proof.
  intros Hi [es Es]. unfold close_phi, insts_of in *. destruct (block_at F m) as [b|] eqn:Eb; [|done]. cbn [of_option obind]. rewrite Hi, Es.
  destruct es as [|x es].
  - eexists. split; [reflexivity|]. split_and!; [apply upd_length|done|intros; by apply upd_keeps|intros; by apply upd_keeps|].
    intros x. destruct (decide (x = m)) as [->|]; [by rewrite (upd_same _ _ _ b Eb)|by rewrite upd_other].
  - exists F. split_and!; try done. intros y. destruct (decide (y = m)) as [->|]; [|done]. by rewrite Eb.
Qed.

(** ** What is asked of the callee and of the caller *)

Definition targets_of (f : MirFunction) (x : nat) : list nat := concat (map (fun i => targets (as_ i)) (insts_of f x)).

(** The successor lists are the targets of the code, the predecessor lists mirror them. *)
Record cfg_exact (f : MirFunction) : Prop := {
  ce_targets : forall x t, t ∈ succs_of f x <-> t ∈ targets_of f x;
  ce_mirror : forall s t, t ∈ succs_of f s <-> s ∈ preds_of f t
}.

Definition ids_of (g : MirFunction) : list Z := omap (fun b => option_map id (block_at g b)) (block_list g).

Record callee_ok (g : MirFunction) : Prop := {
  ck_blocks : forall b, b ∈ block_list g -> exists blk, block_at g b = Some blk /\ 0 <= id blk;
  ck_ids : NoDup (ids_of g);
  ck_entry : exists e, entry_block g = Some e /\ e ∈ block_list g;
  ck_supported : forall b i, b ∈ block_list g -> i ∈ insts_of g b -> supported (as_ i) = true;
  ck_refs : forall b i r, b ∈ block_list g -> i ∈ insts_of g b -> r ∈ block_refs (as_ i) -> exists t, r = Some t /\ t ∈ block_list g;
  ck_params : NoDup (map p_value_id (params g)) /\ forall p, p ∈ params g -> p_value_id p <> MIR_VALUE_NONE;
  ck_ordered : ordered (map p_value_id (params g)) (concat (map (insts_of g) (block_list g)))
}.

Record caller_ok (f : MirFunction) (c pos : nat) : Prop := {
  cl_values : (0 < next_value_id f)%N;
  cl_cfg : cfg_exact f;
  cl_closed : forall x t, t ∈ succs_of f x -> (t < length (blocks f))%nat;
  cl_succs : NoDup (succs_of f c);
  cl_preds : forall x, NoDup (preds_of f x);
  cl_prefix : forall i, i ∈ take pos (insts_of f c) -> targets (as_ i) = []
}.

(** The instruction in front of the merge block. *)
Definition result_of (σ : MirValueId -> MirValueId) (β : nat -> nat) (g : MirFunction) (call : MirInst) : MirInst :=
  match concat (map (fun it => edges_of σ it.1 it.2) (items_of g β (block_list g))) with
  | [] => mkInst UNREACHABLE MIR_VALUE_NONE (return_type g) 0 0
  | es => mkInst (PHI es) (result call) (return_type g) 0 0
  end.

(** Phis behind the call's block take the merge block as predecessor. *)
Definition redirected (f : MirFunction) (c x : nat) (l : list MirInst) : list MirInst :=
  if decide (x ∈ succs_of f c) then redirect_phis c (length (blocks f)) l else l.

Definition body (g : MirFunction) : list MirInst := concat (map (insts_of g) (block_list g)).

(** The caller [f] with the call at [pos] of block [c] inlined: [σ] renames the
    values, [β] the blocks of the callee. *)
Record inlined (tc : list MirType) (f : MirFunction) (c pos : nat) (g : MirFunction) (call : MirInst) (args : list MirValueId)
  (F : MirFunction) (σ : MirValueId -> MirValueId) (β : nat -> nat) : Prop := {
  in_params : map σ (map p_value_id (params g)) = args;
  in_fresh : map σ (concat (map defs (body g))) = map N.of_nat (seq (N.to_nat (next_value_id f)) (length (concat (map defs (body g)))));
  in_next : next_value_id F = (next_value_id f + N.of_nat (length (concat (map defs (body g)))))%N;
  in_blocks : length (blocks F) = (length (blocks f) + 1 + length (block_list g))%nat;
  in_clones : forall k b, block_list g !! k = Some b -> β b = (length (blocks f) + 1 + k)%nat;
  in_call : forall e, entry_block g = Some e -> insts_of F c = redirected f c c (take pos (insts_of f c) ++ [branch_to (β e)]);
  in_merge : insts_of F (length (blocks f)) = (if needs_phi tc g call then [result_of σ β g call] else []) ++ drop (S pos) (insts_of f c);
  in_code : forall b, b ∈ block_list g -> insts_of F (β b) = map (clone_of σ β (length (blocks f))) (insts_of g b);
  in_others : forall x, (x < length (blocks f))%nat -> x <> c -> insts_of F x = redirected f c x (insts_of f x);
  in_cfg : cfg_exact F
}.

(** ** The items of the callee *)

Lemma omap_items_none (β : nat -> nat) (h : MirInst -> MirInst) g bl x : (forall b, b ∈ bl -> β b <> x) ->
  omap (fun it : nat * MirInst => if decide (it.1 = x) then Some it.2 else None) (map (fun it => (it.1, h it.2)) (items_of g β bl)) = [].
Proof.
  induction bl as [|b bl IH]; intros H; [done|]. unfold items_of. cbn [map concat]. fold (items_of g β bl). rewrite map_app, omap_app, IH by (intros; apply H; by apply elem_of_cons; right).
  rewrite app_nil_r. assert (Hb : β b <> x) by (apply H; by apply elem_of_cons; left). clear -Hb. induction (insts_of g b) as [|i l IH]; [done|]. cbn. rewrite decide_False by done. exact IH.
Qed.

Lemma omap_items_own (β : nat -> nat) (h : MirInst -> MirInst) g bl b : NoDup bl -> (forall b', b' ∈ bl -> β b' = β b -> b' = b) -> b ∈ bl ->
  omap (fun it : nat * MirInst => if decide (it.1 = β b) then Some it.2 else None) (map (fun it => (it.1, h it.2)) (items_of g β bl)) = map h (insts_of g b).
Proof.
  induction bl as [|x bl IH]; intros Hn Hinj Hb; [inversion Hb|]. apply list.NoDup_cons in Hn as [Hx Hn].
  unfold items_of. cbn [map concat]. fold (items_of g β bl). rewrite map_app, omap_app.
  assert (Hown : forall l, omap (fun it : nat * MirInst => if decide (it.1 = β b) then Some it.2 else None) (map (fun it => (it.1, h it.2)) (map (pair (β b)) l)) = map h l).
  { induction l as [|i l IHl]; [done|]. cbn. rewrite decide_True by done. by rewrite IHl. }
  destruct (decide (x = b)) as [->|Hne].
  - rewrite Hown, omap_items_none; [by rewrite app_nil_r|]. intros b' Hb' He. apply Hx. by rewrite <- (Hinj b') by (first [done|apply elem_of_cons; by right]).
  - apply elem_of_cons in Hb as [->|Hb]; [done|]. rewrite IH by (first [done|intros ???; apply Hinj; [apply elem_of_cons; by right|done]]).
    replace (omap _ (map _ (map (pair (β x)) (insts_of g x)))) with (@nil MirInst); [done|]. symmetry.
    assert (Hbx : β x <> β b) by (intros He; apply Hne, Hinj; [by apply elem_of_cons; left|done]).
    clear -Hbx. induction (insts_of g x) as [|i l IH]; [done|]. cbn. rewrite decide_False by done. exact IH.
Qed.

Lemma items_in g β bl d i : (d, i) ∈ items_of g β bl <-> exists b, b ∈ bl /\ d = β b /\ i ∈ insts_of g b.
Proof.
  induction bl as [|b bl IH]; [split; [intros H; inversion H|intros (b & H & _); inversion H]|]. unfold items_of. cbn [map concat]. fold (items_of g β bl).
  rewrite elem_of_app, IH. split.
  - intros [H|(b' & ? & ? & ?)]; [|exists b'; split_and!; [by apply elem_of_cons; right|done..]].
    apply list_elem_of_In, in_map_iff in H as (i' & [= <- <-] & H). exists b. split_and!; [by apply elem_of_cons; left|done|by apply list_elem_of_In].
  - intros (b' & [->|Hb]%elem_of_cons & -> & Hi); [left|right; by exists b'].
    apply list_elem_of_In, in_map_iff. exists i. split; [done|by apply list_elem_of_In].
Qed.

Lemma items_snd g β bl : map snd (items_of g β bl) = concat (map (insts_of g) bl).
Proof.
  induction bl as [|b bl IH]; [done|]. unfold items_of. cbn [map concat]. fold (items_of g β bl). rewrite map_app, IH. f_equal.
  rewrite map_map. cbn. apply map_id.
Qed.

(** ** All the steps *)

Definition clone_name (g : MirFunction) (br : list blockptr) (b : nat) : nat :=
  match block_at g b with Some blk => default 0%nat (block_remap_get br (id blk)) | None => 0%nat end.

Lemma block_list_nodup g : callee_ok g -> NoDup (block_list g).
Proof.
  intros H. pose proof (ck_blocks _ H) as Hb. pose proof (ck_ids _ H) as Hn. unfold ids_of in Hn. revert Hb Hn. generalize (block_list g) as bl.
  induction bl as [|b bl IH]; intros Hb Hn; [constructor|]. destruct (Hb b) as (blk & Eb & _); [by apply elem_of_cons; left|].
  cbn [omap list_omap] in Hn. rewrite Eb in Hn. cbn in Hn. apply list.NoDup_cons in Hn as [Hid Hn]. apply list.NoDup_cons. split.
  - intros Hin. apply Hid. apply list_elem_of_omap. exists b. split; [done|]. by rewrite Eb.
  - apply IH; [|done]. intros; apply Hb; by apply elem_of_cons; right.
Qed.

Section names.
Context (g : MirFunction) (br : list blockptr) (base : nat).
Hypothesis Hg : callee_ok g.
Hypothesis Hbr : forall k b blk, block_list g !! k = Some b -> block_at g b = Some blk -> block_remap_get br (id blk) = Some (base + k)%nat.

Lemma clone_name_at k b : block_list g !! k = Some b -> clone_name g br b = (base + k)%nat.
Proof.
  intros Hk. destruct (ck_blocks _ Hg b) as (blk & Eb & _); [by eapply list_elem_of_lookup_2|]. unfold clone_name. by rewrite Eb, (Hbr k b blk Hk Eb).
Qed.

Lemma clone_name_inj b b' : b ∈ block_list g -> b' ∈ block_list g -> clone_name g br b = clone_name g br b' -> b = b'.
Proof.
  intros [k Hk]%list_elem_of_lookup_1 [k' Hk']%list_elem_of_lookup_1 He. rewrite (clone_name_at k b Hk), (clone_name_at k' b' Hk') in He.
  assert (k = k') as -> by lia. congruence.
Qed.

Lemma clone_name_range b : b ∈ block_list g -> (base <= clone_name g br b < base + length (block_list g))%nat.
Proof. intros [k Hk]%list_elem_of_lookup_1. rewrite (clone_name_at k b Hk). apply lookup_lt_Some in Hk. lia. Qed.

Lemma clone_name_get b : b ∈ block_list g -> exists blk, block_at g b = Some blk /\ block_remap_get br (id blk) = Some (clone_name g br b).
Proof.
  intros Hb. destruct (ck_blocks _ Hg b Hb) as (blk & Eb & _). exists blk. split; [done|]. apply list_elem_of_lookup_1 in Hb as [k Hk].
  by rewrite (clone_name_at k b Hk), (Hbr k b blk Hk Eb).
Qed.

Lemma clone_target_get b : b ∈ block_list g -> clone_target g br (Some b) = Ok (Some (clone_name g br b)).
Proof. intros (blk & Eb & Er)%clone_name_get. unfold clone_target. cbn [of_option obind]. rewrite Eb. cbn. by rewrite Er. Qed.

Lemma targets_refs k t : supported k = true -> t ∈ targets k -> Some t ∈ block_refs k.
Proof. destruct k; cbn; intros Hs H; try done; try (by inversion H). { destruct target; set_solver. } { destruct true_bb, false_bb; set_solver. } Qed.

Lemma item_ok_all m it : (m < base)%nat -> it ∈ items_of g (clone_name g br) (block_list g) -> item_ok g br (clone_name g br) m (base + length (block_list g)) it.
Proof.
  intros Hm Hit. destruct it as [d i]. apply items_in in Hit as (b & Hb & -> & Hi). pose proof (clone_name_range b Hb). unfold item_ok. cbn [fst snd].
  pose proof (ck_supported _ Hg b i Hb Hi) as Hs. split_and!; [done| |lia|lia|].
  - intros r Hr. destruct (ck_refs _ Hg b i r Hb Hi Hr) as (t & -> & Ht). exists t. split; [done|by apply clone_target_get].
  - intros t Ht. destruct (ck_refs _ Hg b i (Some t) Hb Hi) as (t' & [= <-] & Hin); [by apply targets_refs|]. by apply clone_name_range.
Qed.
End names.

(** The state behind the copying of the callee. *)
Record copied_in (f : MirFunction) (c pos : nat) (g : MirFunction) (rp : bool) (call : MirInst) (args : list MirValueId)
  (F : MirFunction) (σ : MirValueId -> MirValueId) (β : nat -> nat) : Prop := {
  ci_params : map σ (map p_value_id (params g)) = args;
  ci_fresh : map σ (concat (map defs (body g))) = map N.of_nat (seq (N.to_nat (next_value_id f)) (length (concat (map defs (body g)))));
  ci_next : next_value_id F = (next_value_id f + N.of_nat (length (concat (map defs (body g)))))%N;
  ci_blocks : length (blocks F) = (length (blocks f) + 1 + length (block_list g))%nat;
  ci_clones : forall k b, block_list g !! k = Some b -> β b = (length (blocks f) + 1 + k)%nat;
  ci_code : forall b, b ∈ block_list g -> insts_of F (β b) = map (clone_of σ β (length (blocks f))) (insts_of g b);
  ci_call : insts_of F c = take (S pos) (insts_of f c);
  ci_others : forall x, (x < length (blocks f))%nat -> x <> c -> insts_of F x = insts_of f x;
  ci_merge : insts_of F (length (blocks f)) = merge_front rp (result_phi g call) (concat (map (fun it => edges_of σ it.1 it.2) (items_of g β (block_list g)))) (drop (S pos) (insts_of f c));
  ci_copied : exists f0, (forall x, succs_of f0 x = succs_of f x) /\ (forall x, preds_of f0 x = preds_of f x) /\
    copied (length (blocks f)) f0 F (map (fun it => (it.1, clone_of σ β (length (blocks f)) it.2)) (items_of g β (block_list g)))
}.

Lemma copy_spec tc f c pos g blk call args vr0 br0 : callee_ok g -> block_at f c = Some blk -> (0 < next_value_id f)%N ->
  length args = length (params g) -> (forall a, a ∈ args -> a <> MIR_VALUE_NONE) ->
  exists f2 br F vr, split_at_call f c pos blk = (f2.1, length (blocks f)) /\
    add_clones g (block_list g) f2.1 br0 = Ok (f2.2, br) /\
    clone_blocks g br (needs_phi tc g call) (length (blocks f)) (block_list g)
      (if needs_phi tc g call then put_phi f2.2 (length (blocks f)) (result_phi g call) else f2.2) (map_params (params g) args vr0) = Ok (F, vr) /\
    (forall b, b ∈ block_list g -> exists blk, block_at g b = Some blk /\ block_remap_get br (id blk) = Some (clone_name g br b)) /\
    copied_in f c pos g (needs_phi tc g call) call args F (remap_get vr) (clone_name g br).
Proof.
  intros Hg Hb Hn Hl Ha. pose proof (lookup_lt_Some _ _ _ Hb) as Hc. assert (Hcb : insts_of f c = insts blk) by (unfold insts_of; by rewrite Hb).
  destruct (split_spec f c pos blk Hb) as (f1 & E1 & L1 & N1 & I1 & S1 & P1). set (m := length (blocks f)) in *. set (rp := needs_phi tc g call).
  destruct (add_clones_spec g (block_list g) f1 br0) as (f2 & br & E2 & [I2 S2 P2 N2] & L2 & R2 & _); [apply Hg|apply (ck_ids _ Hg)|].
  rewrite L1 in R2, L2. set (β := clone_name g br).
  set (f3 := if rp then put_phi f2 m (result_phi g call) else f2).
  assert (H3 : length (blocks f3) = (S m + length (block_list g))%nat /\ next_value_id f3 = next_value_id f /\ (forall x, succs_of f3 x = succs_of f x) /\
    (forall x, preds_of f3 x = preds_of f x) /\ insts_of f3 m = merge_front rp (result_phi g call) [] (drop (S pos) (insts blk)) /\
    (forall x, x <> m -> insts_of f3 x = if decide (x = c) then take (S pos) (insts blk) else insts_of f x)).
  { assert (Im : insts_of f2 m = drop (S pos) (insts blk)) by (by rewrite I2, I1, decide_True).
    assert (Ix : forall x, x <> m -> insts_of f2 x = if decide (x = c) then take (S pos) (insts blk) else insts_of f x) by (intros x Hx; by rewrite I2, I1, decide_False).
    unfold f3. destruct rp; cbn [merge_front].
    - unfold put_phi. rewrite upd_length. split_and!; [done|cbn; congruence|intros x; rewrite <- S1, <- S2; by apply upd_keeps|intros x; rewrite <- P1, <- P2; by apply upd_keeps| |].
      + destruct (lookup_lt_is_Some_2 (blocks f2) m) as [mb Hmb]; [lia|]. unfold insts_of in *. rewrite (upd_same _ _ _ mb Hmb). unfold block_at in Im. rewrite Hmb in Im. cbn. by rewrite Im.
      + intros x Hx. rewrite <- Ix by done. unfold insts_of. by rewrite upd_other.
    - split_and!; [done|congruence|congruence|congruence|done|done]. }
  destruct H3 as (L3 & N3 & S3 & P3 & M3 & I3).
  destruct (clone_flat_ok g br β m rp (result_phi g call) (drop (S pos) (insts blk)) (items_of g β (block_list g)) f3 (map_params (params g) args vr0) [] (map p_value_id (params g)))
    as (F & vr & EF & [B1 B2 B3 B4 B5]); [by rewrite N3|lia| |rewrite items_snd; apply Hg|done|].
  { intros it Hit. rewrite L3. apply (item_ok_all g br (S m)); [done|exact R2|lia|done]. }
  assert (Hbody : map (fun it : nat * MirInst => defs it.2) (items_of g β (block_list g)) = map defs (body g)) by (unfold body; rewrite <- (items_snd g β), map_map; done).
  rewrite Hbody in *.
  exists (f1, f2), br, F, vr. split; [done|]. split; [done|]. split; [rewrite (clone_blocks_flat _ _ β); [exact EF|]|].
  { intros b Hin. by apply (clone_name_get g br (S m)). }
  split; [intros b Hin; by apply (clone_name_get g br (S m))|].
  destruct (ck_params _ Hg) as [Hpn Hp0]. destruct (map_params_spec (params g) args vr0 Hpn Hp0 Hl Ha) as [Q1 _].
  pose proof (clone_name_range g br (S m) Hg R2) as Hrange. split; fold m; fold β.
  - etransitivity; [|exact Q1]. apply map_ext_in. intros v Hv. apply B5. apply (ordered_defs _ _ (ck_ordered _ Hg)). by apply list_elem_of_In.
  - by rewrite <- N3.
  - by rewrite B3, N3.
  - rewrite (co_length _ _ _ _ B1), L3. lia.
  - intros k b Hk. unfold β. rewrite (clone_name_at g br (S m) Hg R2 k b Hk). lia.
  - intros b Hin. pose proof (Hrange b Hin). rewrite (co_insts _ _ _ _ B1) by (unfold β; lia). rewrite I3 by (unfold β; lia).
    rewrite omap_items_own; [|by apply block_list_nodup|intros b' Hb' He; by apply (clone_name_inj g br (S m))|done].
    rewrite decide_False by (unfold β; lia). unfold insts_of at 1. unfold block_at. by rewrite lookup_ge_None_2 by (unfold β; lia).
  - rewrite (co_insts _ _ _ _ B1), I3 by lia. rewrite decide_True by done. rewrite omap_items_none; [by rewrite app_nil_r, Hcb|].
    intros b Hin. pose proof (Hrange b Hin). unfold β. lia.
  - intros x Hx Hxc. rewrite (co_insts _ _ _ _ B1), I3 by lia. rewrite decide_False by done. rewrite omap_items_none; [by rewrite app_nil_r|].
    intros b Hin. pose proof (Hrange b Hin). unfold β. lia.
  - rewrite B2, Hcb. done.
  - exists f3. done.
Qed.

(** ** The control flow lists *)

Lemma concat_targets l1 l2 : concat (map (fun i => targets (as_ i)) (l1 ++ l2)) = concat (map (fun i => targets (as_ i)) l1) ++ concat (map (fun i => targets (as_ i)) l2).
Proof. by rewrite map_app, concat_app. Qed.

Lemma no_targets l : (forall i, i ∈ l -> targets (as_ i) = []) -> concat (map (fun i => targets (as_ i)) l) = [].
Proof. induction l as [|i l IH]; intros H; [done|]. cbn. rewrite H by (apply elem_of_cons; by left). apply IH. intros j Hj. apply H. apply elem_of_cons. by right. Qed.

(** Entered edges keep the two kinds of lists in agreement. *)
Lemma copied_mirror m f0 F items : copied m f0 F items -> (forall s t, t ∈ succs_of f0 s <-> s ∈ preds_of f0 t) -> forall s t, t ∈ succs_of F s <-> s ∈ preds_of F t.
Proof. intros [_ _ C3 C4 _ _] H s t. by rewrite C3, C4, H. Qed.

(** So do moved edges, from [c] to [m], with a new one from [c] to [e]. *)
Lemma moved_mirror (S1 P1 : nat -> nat -> Prop) (L : nat -> Prop) `{forall x, Decision (L x)} (c m e : nat) : c <> m -> ~ L e ->
  (forall s t, S1 s t <-> P1 t s) -> (forall t, S1 c t <-> L t) -> (forall t, ~ S1 m t) -> forall s t,
  (if decide (s = c) then t = e else if decide (s = m) then L t else S1 s t) <->
  (if decide (L t) then P1 t s /\ s <> c \/ s = m /\ P1 t c \/ P1 t s /\ s = m else P1 t s) \/ t = e /\ s = c.
Proof.
  intros Hcm He Hsym Hc Hm s t. pose proof (Hsym s t) as Hs. pose proof (Hsym c t) as Hct. pose proof (Hsym m t) as Hmt. pose proof (Hc t) as HL. pose proof (Hm t) as Hnm.
  destruct (decide (s = c)) as [->|Hsc]; [|destruct (decide (s = m)) as [->|Hsm]]; destruct (decide (L t)) as [Ht|Ht].
  - split; [intros ->; by destruct He|]. intros [[[_ ?]|[[? _]|[_ ?]]]|[? _]]; [done| congruence..|done].
  - split; [by right|]. intros [?|[? _]]; [tauto|done].
  - split; [|done]. intros _. left. right. left. tauto.
  - split; [done|]. intros [?|[_ ?]]; [tauto|congruence].
  - rewrite Hs. split; [by left; left|]. intros [[[? _]|[[? _]|[? _]]]|[_ ?]]; done.
  - rewrite Hs. split; [by left|]. intros [?|[_ ?]]; done.
Qed.

Section final.
Context (tc : list MirType) (f : MirFunction) (c pos : nat) (g : MirFunction) (blk : MirBlock) (call : MirInst) (args : list MirValueId) (F : MirFunction)
  (σ : MirValueId -> MirValueId) (β : nat -> nat) (e : nat).
Let m := length (blocks f).
Let rp := needs_phi tc g call.
Hypothesis Hcaller : caller_ok f c pos.
Hypothesis Hcallee : callee_ok g.
Hypothesis Hblk : block_at f c = Some blk.
Hypothesis Hcall : insts blk !! pos = Some call.
Hypothesis Hkind : targets (as_ call) = [].
Hypothesis Hcopy : copied_in f c pos g rp call args F σ β.
Hypothesis Hentry : e ∈ block_list g.

Lemma c_below : (c < m)%nat.
Proof. by eapply lookup_lt_Some. Qed.

Lemma clone_above b : b ∈ block_list g -> (m < β b < length (blocks F))%nat.
Proof.
  intros [k Hk]%list_elem_of_lookup_1. rewrite (ci_blocks _ _ _ _ _ _ _ _ _ _ Hcopy), (ci_clones _ _ _ _ _ _ _ _ _ _ Hcopy k b Hk). apply lookup_lt_Some in Hk. subst m. lia.
Qed.

Lemma item_above d i : (d, i) ∈ map (fun it => (it.1, clone_of σ β m it.2)) (items_of g β (block_list g)) -> exists b j, b ∈ block_list g /\ d = β b /\ j ∈ insts_of g b /\ i = clone_of σ β m j.
Proof.
  intros Hin. apply list_elem_of_In, in_map_iff in Hin as ([d' j] & [= <- <-] & Hin). apply list_elem_of_In, items_in in Hin as (b & Hb & -> & Hj). by exists b, j.
Qed.

Lemma succs_below x t : t ∈ succs_of F x -> (x <= m)%nat -> t ∈ succs_of f x.
Proof.
  intros Ht Hx. destruct (ci_copied _ _ _ _ _ _ _ _ _ _ Hcopy) as (f0 & S0 & _ & C). rewrite (co_succs _ _ _ _ C), S0 in Ht.
  destruct Ht as [?|(i & Hi & _)]; [done|]. apply item_above in Hi as (b & j & Hb & -> & _). apply clone_above in Hb. lia.
Qed.

Lemma succs_outside : succs_of f m = [].
Proof. unfold succs_of, block_at. by rewrite lookup_ge_None_2 by (subst m; lia). Qed.

Lemma succs_call : succs_of F c = succs_of f c.
Proof.
  destruct (ci_copied _ _ _ _ _ _ _ _ _ _ Hcopy) as (f0 & S0 & _ & C). rewrite (co_same _ _ _ _ C); [apply S0|].
  intros Hin. apply list_elem_of_In, in_map_iff in Hin as ([d i] & Hdc & Hin). apply list_elem_of_In, item_above in Hin as (b & j & Hb & Hd & _). cbn in Hdc.
  apply clone_above in Hb. pose proof c_below. lia.
Qed.

Lemma succs_merge : succs_of F m = [].
Proof. destruct (succs_of F m) as [|t l] eqn:E; [done|]. exfalso. assert (H : t ∈ succs_of f m) by (apply succs_below; [rewrite E; apply elem_of_cons; by left|lia]). rewrite succs_outside in H. inversion H. Qed.

Lemma call_targets : targets_of f c = concat (map (fun i => targets (as_ i)) (drop (S pos) (insts_of f c))).
Proof.
  unfold targets_of. rewrite <- (take_drop pos (insts_of f c)) at 1. rewrite concat_targets, no_targets by apply (cl_prefix _ _ _ Hcaller).
  assert (E : insts_of f c = insts blk) by (unfold insts_of; by rewrite Hblk). rewrite E, (drop_S _ _ _ Hcall). cbn. by rewrite Hkind.
Qed.

Lemma enter_inlined_spec : exists F', enter_inlined F c pos m (β e) = Ok F' /\ length (blocks F') = length (blocks F) /\ next_value_id F' = next_value_id F /\
  insts_of F' c = redirected f c c (take pos (insts_of f c) ++ [branch_to (β e)]) /\ insts_of F' m = insts_of F m /\
  (forall x, (x < m)%nat -> x <> c -> insts_of F' x = redirected f c x (insts_of f x)) /\ (forall b, b ∈ block_list g -> insts_of F' (β b) = insts_of F (β b)) /\
  (forall x t, t ∈ succs_of F' x <-> if decide (x = c) then t = β e else if decide (x = m) then t ∈ succs_of f c else t ∈ succs_of F x) /\
  (forall s t, t ∈ succs_of F' s <-> s ∈ preds_of F' t).
Proof.
  pose proof c_below as Hc. pose proof (clone_above e Hentry) as He. destruct (ci_copied _ _ _ _ _ _ _ _ _ _ Hcopy) as (f0 & S0 & P0 & C).
  assert (Hcl : forall t, t ∈ succs_of f c -> (t < m)%nat) by apply (cl_closed _ _ _ Hcaller).
  destruct (enter_spec F c pos m (β e)) as (F' & E & L & N & I & S & P); rewrite ?succs_call; try (lia || done).
  - apply (cl_succs _ _ _ Hcaller).
  - intros s Hs. specialize (Hcl s Hs). lia.
  - intros x. apply (co_nodup _ _ _ _ C). rewrite P0. apply (cl_preds _ _ _ Hcaller).
  - apply succs_merge.
  - rewrite succs_call in I, S, P. exists F'. split_and!; [done..| | | | | |].
    + rewrite I. cbn zeta. rewrite (decide_True (P := c = c)) by done. rewrite (ci_call _ _ _ _ _ _ _ _ _ _ Hcopy), take_take, Nat.min_l by lia. done.
    + rewrite I. cbn zeta. rewrite (decide_False (P := m = c)) by lia. rewrite decide_False; [done|]. intros Hin%Hcl. lia.
    + intros x Hx Hxc. rewrite I. cbn zeta. rewrite (decide_False (P := x = c)) by done. by rewrite (ci_others _ _ _ _ _ _ _ _ _ _ Hcopy x Hx Hxc).
    + intros b Hb. pose proof (clone_above b Hb). rewrite I. cbn zeta. rewrite (decide_False (P := β b = c)) by lia. rewrite decide_False; [done|]. intros Hin%Hcl. lia.
    + done.
    + intros s t. rewrite S, P.
      pose proof (moved_mirror (fun s t => t ∈ succs_of F s) (fun t s => s ∈ preds_of F t) (fun t => t ∈ succs_of f c) c m (β e)) as HM.
      cbn beta in HM. apply HM; clear HM.
      * lia.
      * intros Hin%Hcl. lia.
      * apply (copied_mirror _ _ _ _ C). intros u v. rewrite S0, P0. apply (cl_cfg _ _ _ Hcaller).
      * intros u. by rewrite succs_call.
      * intros u Hu. rewrite succs_merge in Hu. inversion Hu.
Qed.

(** The merge block once its phi is closed. *)
Lemma close_phi_spec F1 : insts_of F1 m = insts_of F m -> exists F2, (if rp then close_phi F1 m else Ok F1) = Ok F2 /\
  length (blocks F2) = length (blocks F1) /\ next_value_id F2 = next_value_id F1 /\ (forall x, succs_of F2 x = succs_of F1 x) /\ (forall x, preds_of F2 x = preds_of F1 x) /\
  insts_of F2 m = (if rp then [result_of σ β g call] else []) ++ drop (S pos) (insts_of f c) /\ (forall x, x <> m -> insts_of F2 x = insts_of F1 x).
Proof.
  pose proof (ci_merge _ _ _ _ _ _ _ _ _ _ Hcopy) as Hm. intros HI. fold m in Hm. rewrite Hm in HI. unfold merge_front in HI. destruct rp; [|by exists F1].
  unfold result_of. set (es := concat (map (fun it => edges_of σ it.1 it.2) (items_of g β (block_list g)))) in *.
  destruct (close_spec F1 m _ _ HI) as (F2 & E2 & L2 & N2 & S2 & P2 & I2); [by exists es|]. exists F2. split_and!; try done.
  - rewrite I2, decide_True by done. cbn. by destruct es.
  - intros x Hx. by rewrite I2, decide_False.
Qed.

Lemma clone_targets_spec x t : (m < x < length (blocks F))%nat -> exists b, b ∈ block_list g /\ x = β b /\
  (t ∈ succs_of F x <-> t ∈ concat (map (fun i => targets (as_ i)) (map (clone_of σ β m) (insts_of g b)))).
Proof.
  intros [Hx Hlt]. rewrite (ci_blocks _ _ _ _ _ _ _ _ _ _ Hcopy) in Hlt.
  destruct (lookup_lt_is_Some_2 (block_list g) (x - m - 1)) as [b Hb]; [subst m; lia|]. exists b.
  assert (Hbx : x = β b) by (rewrite (ci_clones _ _ _ _ _ _ _ _ _ _ Hcopy _ b Hb); subst m; lia). apply list_elem_of_lookup_2 in Hb. split_and!; [done..|].
  destruct (ci_copied _ _ _ _ _ _ _ _ _ _ Hcopy) as (f0 & S0 & _ & C). rewrite (co_succs _ _ _ _ C), S0.
  assert (Hno : succs_of f x = []) by (unfold succs_of, block_at; by rewrite lookup_ge_None_2 by (subst m; lia)). rewrite Hno. fold m. split.
  - intros [Hin|(i & Hi & Ht)]; [inversion Hin|]. apply item_above in Hi as (b' & j & Hb' & Hbb & Hj & ->).
    assert (b' = b) as ->.
    { apply list_elem_of_lookup_1 in Hb as [k Hk], Hb' as [k' Hk']. rewrite Hbx, (ci_clones _ _ _ _ _ _ _ _ _ _ Hcopy k b Hk), (ci_clones _ _ _ _ _ _ _ _ _ _ Hcopy k' b' Hk') in Hbb.
      assert (k = k') as -> by lia. congruence. }
    rewrite map_map. apply list_elem_of_In, in_concat. exists (targets (as_ (clone_of σ β m j))). split; [|by apply list_elem_of_In].
    apply in_map_iff. exists j. split; [done|by apply list_elem_of_In].
  - intros Hin. rewrite map_map in Hin. apply list_elem_of_In, in_concat in Hin as (l & Hl & Ht). apply in_map_iff in Hl as (j & <- & Hj). right.
    exists (clone_of σ β m j). split; [|by apply list_elem_of_In]. apply list_elem_of_In, in_map_iff. exists (β b, j). split; [by rewrite Hbx|].
    apply list_elem_of_In, items_in. exists b. split_and!; [done..|by apply list_elem_of_In].
Qed.

Lemma redirected_targets x l : concat (map (fun i => targets (as_ i)) (redirected f c x l)) = concat (map (fun i => targets (as_ i)) l).
Proof. unfold redirected. destruct (decide _); [|done]. by rewrite redirect_targets. Qed.

Lemma result_targets : targets (as_ (result_of σ β g call)) = [].
Proof. unfold result_of. by destruct (concat _). Qed.

Lemma inlined_targets F2 : length (blocks F2) = length (blocks F) ->
  insts_of F2 c = redirected f c c (take pos (insts_of f c) ++ [branch_to (β e)]) ->
  insts_of F2 m = (if rp then [result_of σ β g call] else []) ++ drop (S pos) (insts_of f c) ->
  (forall x, (x < m)%nat -> x <> c -> insts_of F2 x = redirected f c x (insts_of f x)) ->
  (forall b, b ∈ block_list g -> insts_of F2 (β b) = insts_of F (β b)) ->
  (forall x t, t ∈ succs_of F2 x <-> if decide (x = c) then t = β e else if decide (x = m) then t ∈ succs_of f c else t ∈ succs_of F x) ->
  forall x t, t ∈ succs_of F2 x <-> t ∈ targets_of F2 x.
Proof.
  intros HL H1 H2 H3 H4 H5 x t. rewrite H5. unfold targets_of. pose proof c_below. destruct (decide (x = c)) as [->|Hxc]; [|destruct (decide (x = m)) as [->|Hxm]].
  - rewrite H1, redirected_targets, concat_targets, no_targets by apply (cl_prefix _ _ _ Hcaller). cbn. by rewrite list_elem_of_singleton.
  - rewrite H2, concat_targets, (ce_targets _ (cl_cfg _ _ _ Hcaller)), call_targets. destruct rp; cbn; [by rewrite result_targets|done].
  - destruct (decide (x < m)%nat) as [Hlt|Hge]; [|destruct (decide (x < length (blocks F))%nat) as [Hin|Hout]].
    + rewrite H3 by done. rewrite redirected_targets. fold (targets_of f x). rewrite <- (ce_targets _ (cl_cfg _ _ _ Hcaller)). split; [intros; apply succs_below; [done|lia]|].
      intros Ht. destruct (ci_copied _ _ _ _ _ _ _ _ _ _ Hcopy) as (f0 & S0 & _ & C). rewrite (co_succs _ _ _ _ C), S0. by left.
    + destruct (clone_targets_spec x t) as (b & Hb & -> & Hs); [lia|]. rewrite H4 by done. by rewrite Hs, (ci_code _ _ _ _ _ _ _ _ _ _ Hcopy b Hb).
    + unfold succs_of, insts_of, block_at. rewrite !lookup_ge_None_2 by lia. split; intros Hx; inversion Hx.
Qed.
End final.

(** C6: inlining a call is copying the callee under a renaming.  For a callee
    whose operands are parameters or defined by an earlier instruction, without
    switches, suspensions and vector operations, and a caller whose control
    flow lists match its code: the call's block keeps what was in front of the
    call and branches to the entry of the copy; every block of the callee is
    copied with its values and blocks renamed, the parameters to the arguments
    and the results to fresh values in order, each return as a branch to the
    merge block; the merge block has a phi of the returned values, or nothing
    to reach, and then what was behind the call; no other code changes except
    that phis take the merge block for the call's block; and the control flow
    lists match the code again. *)
Theorem inline_exact tc f c pos g blk call n args cv : caller_ok f c pos -> callee_ok g -> block_at f c = Some blk -> insts blk !! pos = Some call ->
  as_ call = CALL n args cv -> length args = length (params g) -> (forall a, a ∈ args -> a <> MIR_VALUE_NONE) ->
  exists F σ β, inline_call_site tc f c pos g = Ok F /\ inlined tc f c pos g call args F σ β.
Proof.
  intros Hf Hg Hb Hi Hk Hl Ha.
  destruct (copy_spec tc f c pos g blk call args (remap_init (Z.of_N (next_value_id g) + 32)) (block_remap_init (block_count g + 8)) Hg Hb (cl_values _ _ _ Hf) Hl Ha)
    as ([f1 f2] & br & F & vr & E1 & E2 & E3 & Hget & Hcopy). cbn [fst snd] in *.
  destruct (ck_entry _ Hg) as (e & Ee & He). destruct (Hget e He) as (eb & Eb & Er). set (σ := remap_get vr) in *. set (β := clone_name g br) in *.
  assert (Hkt : targets (as_ call) = []) by (by rewrite Hk).
  destruct (enter_inlined_spec tc f c pos g blk call args F σ β e Hf Hb Hcopy He) as (F1 & E4 & L1 & N1 & Ic & Im & Io & Ib & HS & HM).
  destruct (close_phi_spec tc f c pos g call args F σ β Hcopy F1 Im) as (F2 & E5 & L2 & N2 & S2 & P2 & Im2 & Ix2).
  pose proof (c_below f c blk Hb) as Hc. pose proof (clone_above tc f c pos g call args F σ β Hcopy) as Habove.
  exists F2, σ, β. split.
  - unfold inline_call_site. rewrite Hb. cbn [of_option obind]. rewrite Hi. cbn [of_option obind]. rewrite Hk. cbn [obind]. rewrite E1, E2. cbn [obind].
    rewrite E3. cbn [obind fst snd]. rewrite Ee. cbn [of_option obind]. rewrite Eb. cbn [of_option obind]. rewrite Er. cbn [of_option obind]. fold β. rewrite E4. exact E5.
  - split; try apply Hcopy.
    + rewrite N2, N1. apply Hcopy.
    + rewrite L2, L1. apply Hcopy.
    + intros e' Ee'. rewrite Ee in Ee'. injection Ee' as <-. rewrite Ix2 by lia. exact Ic.
    + exact Im2.
    + intros b Hin. pose proof (Habove b Hin). rewrite Ix2, Ib by (done || lia). by apply Hcopy.
    + intros x Hx Hxc. rewrite Ix2 by lia. by apply Io.
    + split; [|intros s t; by rewrite S2, P2].
      apply (inlined_targets tc f c pos g blk call args F σ β e); try done; [lia|rewrite Ix2 by lia; exact Ic| | |].
      * intros x Hx Hxc. rewrite Ix2 by lia. by apply Io.
      * intros b Hin. pose proof (Habove b Hin). rewrite Ix2 by lia. by apply Ib.
      * intros x t. rewrite S2. apply HS.
Qed.

(** ** Examples *)

From S2P Require Import MirVerifyFacts Cvm SlotCheck.

Definition inl_fun (name : string) (ps : list N) (next : N) (blks : list (list MirInst * list nat * list nat)) : MirFunction :=
  mkFunction name 1 (map (mkParam "p" 1) ps) (Some 0%nat) (imap (fun i b => ex_block (Z.of_nat i) b.1.1 b.1.2 b.2) blks) (seq 0 (length blks))
    (Z.of_nat (length blks)) next (replicate (N.to_nat next) 1%N) false false false.
Definition inl_mod (l : list MirFunction) : MirModule := mkModule "m" l (Z.of_nat (length l)) [] [TyPrim MIR_TYPE_I64] [].
Definition after_inlining (opt_level : Z) (m : MirModule) : MirModule := match mir_inline_module m opt_level with Ok m => m | _ => m end.
Definition verdicts (m : MirModule) : list (outcome Z) := map (mir_verify_function (type_cache m)) (func_list m).

(** [return x + 1;] and [return add_one(x) * 10;] *)
Definition add_one : MirFunction := inl_fun "add_one" [1%N] 4 [([mk_i 2 (CONST_INT 1); mk_i 3 (BINARY MIR_ADD 1 2); mk_i 0 (RET 3)], [], [])].
Definition uses_add_one : MirFunction := inl_fun "main" [1%N] 5
  [([mk_i 2 (CONST_INT 10); mk_i 3 (CALL "add_one" [1%N] 0); mk_i 4 (BINARY MIR_MUL 3 2); mk_i 0 (RET 4)], [], [])].

Lemma caller_check : caller_ok uses_add_one 0 1.
Proof.
  assert (Hb : forall x, (1 <= x)%nat -> block_at uses_add_one x = None) by (intros [|x] Hx; [lia|done]).
  assert (Hs : forall x, succs_of uses_add_one x = []) by (intros [|x]; [done|unfold succs_of; by rewrite Hb by lia]).
  assert (Hp : forall x, preds_of uses_add_one x = []) by (intros [|x]; [done|unfold preds_of; by rewrite Hb by lia]).
  split; [done| |intros x t; rewrite Hs; intros H; inversion H|rewrite Hs; constructor|intros x; rewrite Hp; constructor|].
  - split; [|intros s t; rewrite Hs, Hp; split; intros H; inversion H]. intros x t. rewrite Hs.
    assert (Ht : targets_of uses_add_one x = []); [|by rewrite Ht]. destruct x as [|x]; [done|]. unfold targets_of, insts_of. by rewrite Hb by lia.
  - intros i Hi. apply list_elem_of_In in Hi. vm_compute in Hi. destruct Hi as [<-|[]]. done.
Qed.

Lemma callee_check : callee_ok add_one.
Proof.
  assert (Hb : forall b, b ∈ block_list add_one -> b = 0%nat) by (intros b Hin; by apply list_elem_of_singleton in Hin).
  assert (Hi : forall b i, b ∈ block_list add_one -> i ∈ insts_of add_one b -> supported (as_ i) = true /\ block_refs (as_ i) = []).
  { intros b i ->%Hb Hin. apply list_elem_of_In in Hin. vm_compute in Hin. destruct Hin as [<-|[<-|[<-|[]]]]; done. }
  split.
  - intros b ->%Hb. eexists. split; [reflexivity|]. done.
  - vm_compute. by apply NoDup_singleton.
  - exists 0%nat. split; [done|by apply list_elem_of_singleton].
  - intros b i H1 H2. by apply (Hi b i).
  - intros b i r H1 H2 Hr. destruct (Hi b i H1 H2) as [_ E]. rewrite E in Hr. inversion Hr.
  - split; [by apply NoDup_singleton|]. intros p Hp. apply list_elem_of_In in Hp. vm_compute in Hp. by destruct Hp as [<-|[]].
  - vm_compute. split_and!; try done; intros v Hv; apply list_elem_of_In in Hv; vm_compute in Hv.
    all: try (by destruct Hv); try (destruct Hv as [<-|[]]; intros Hin; apply list_elem_of_In in Hin; vm_compute in Hin; by repeat destruct Hin as [Hin|Hin]).
    + destruct Hv as [<-|[<-|[]]]; right; apply list_elem_of_In; vm_compute; tauto.
    + destruct Hv as [<-|[]]; right; apply list_elem_of_In; vm_compute; tauto.
Qed.

Lemma inline_exact_witness : exists F σ β, inline_call_site [TyPrim MIR_TYPE_I64] uses_add_one 0 1 add_one = Ok F /\
  inlined [TyPrim MIR_TYPE_I64] uses_add_one 0 1 add_one (mk_i 3 (CALL "add_one" [1%N] 0)) [1%N] F σ β /\ cfg_exact F /\
  value_of (run_of (inl_mod [F; add_one]) "main" 4) = Some (0, 50).
Proof.
  destruct (inline_exact [TyPrim MIR_TYPE_I64] uses_add_one 0 1 add_one _ (mk_i 3 (CALL "add_one" [1%N] 0)) "add_one" [1%N] 0%N caller_check callee_check eq_refl eq_refl eq_refl eq_refl)
    as (F & σ & β & E & H).
  - intros a Ha. apply list_elem_of_singleton in Ha as ->. done.
  - exists F, σ, β. split; [exact E|]. split; [exact H|]. split; [apply H|].
    assert (Hrun : match inline_call_site [TyPrim MIR_TYPE_I64] uses_add_one 0 1 add_one with Ok F => value_of (run_of (inl_mod [F; add_one]) "main" 4) | _ => None end = Some (0, 50))
      by (vm_compute; reflexivity).
    rewrite E in Hrun. exact Hrun.
Defined.

(** A callee with a switch: its edges are not entered, the blocks behind it are
    removed as unreachable, and the phi of the results loses them. *)
Definition pick : MirFunction := inl_fun "pick" [1%N] 5
  [([mk_i 0 (SWITCH 1 [(0, Some 1%nat); (1, Some 2%nat)] (Some 3%nat))], [], [1; 2; 3]%nat);
   ([mk_i 2 (CONST_INT 10); mk_i 0 (RET 2)], [0%nat], []); ([mk_i 3 (CONST_INT 20); mk_i 0 (RET 3)], [0%nat], []);
   ([mk_i 4 (CONST_INT 30); mk_i 0 (RET 4)], [0%nat], [])].
Definition uses_pick : MirFunction := inl_fun "main" [1%N] 3 [([mk_i 2 (CALL "pick" [1%N] 0); mk_i 0 (RET 2)], [], [])].

(** A callee with a loop: the operands of its phis that are defined later are
    not renamed. *)
Definition sum_to : MirFunction := inl_fun "sum" [1%N] 9
  [([mk_i 2 (CONST_INT 0); mk_i 8 (CONST_INT 1); mk_i 0 (BR (Some 1%nat))], [], [1%nat]);
   ([mk_i 3 (PHI [(Some 0%nat, 2%N); (Some 2%nat, 6%N)]); mk_i 4 (PHI [(Some 0%nat, 1%N); (Some 2%nat, 7%N)]); mk_i 5 (BINARY MIR_CMP_GT 4 2);
     mk_i 0 (CONDBR 5 (Some 2%nat) (Some 3%nat))], [0; 2]%nat, [2; 3]%nat);
   ([mk_i 6 (BINARY MIR_ADD 3 4); mk_i 7 (BINARY MIR_SUB 4 8); mk_i 0 (BR (Some 1%nat))], [1%nat], [1%nat]);
   ([mk_i 0 (RET 3)], [1%nat], [])].
Definition uses_sum : MirFunction := inl_fun "main" [1%N] 3 [([mk_i 2 (CALL "sum" [1%N] 0); mk_i 0 (RET 2)], [], [])].

(** Both programs pass the verifier before and behind the inliner. *)
Lemma inline_miscompiles :
  verdicts (inl_mod [uses_pick; pick]) = [Ok 0; Ok 0] /\ verdicts (after_inlining 2 (inl_mod [uses_pick; pick])) = [Ok 0; Ok 0] /\
  value_of (run_of (inl_mod [uses_pick; pick]) "main" 1) = Some (0, 20) /\
  value_of (run_of (after_inlining 2 (inl_mod [uses_pick; pick])) "main" 1) = Some (0, 0) /\
  verdicts (inl_mod [uses_sum; sum_to]) = [Ok 0; Ok 0] /\ verdicts (after_inlining 2 (inl_mod [uses_sum; sum_to])) = [Ok 0; Ok 0] /\
  value_of (run_of (inl_mod [uses_sum; sum_to]) "main" 4) = Some (0, 10) /\
  value_of (run_of (after_inlining 2 (inl_mod [uses_sum; sum_to])) "main" 4) <> Some (0, 10).
Proof. split_and!; try (vm_compute; reflexivity). vm_compute. discriminate. Qed.

(** Each inlined call takes one of the [max_call_depth] rounds: of three calls
    of a small function, level 2 inlines two. *)
Definition three_calls : MirFunction := inl_fun "main" [1%N] 5
  [([mk_i 2 (CALL "add_one" [1%N] 0); mk_i 3 (CALL "add_one" [2%N] 0); mk_i 4 (CALL "add_one" [3%N] 0); mk_i 0 (RET 4)], [], [])].

Lemma inline_stops_early : option_map snd (match mir_inline_function (inl_mod [three_calls; add_one]) three_calls (mir_inline_config_for_level 2) with Ok r => Some r | _ => None end) = Some 2.
Proof. vm_compute. reflexivity. Qed.
